(* ===== verification/_CoqProject ===== *)
-Q . S2P
Prelude.v
Text.v
Error.v
Cursor.v
Digest.v
Manifest.v
RefRecord.v
Limits.v
Fs.v
FsFacts.v
OwnedTemp.v
Calm.v
Cas.v
Layout.v
Refs.v
Ac.v
ImgMeta.v
TimeAxis.v
IndexCodec.v
Scan.v
Hydrate.v
Confine.v
Snapshot.v
Bisect.v
Gc.v
Volume.v
Memo.v
Packet.v
Dhcp.v
Dns.v
VSwitch.v
DockerIgnore.v
Vars.v
Dockerfile.v
Ports.v
Wp.v
Owners.v
Network.v
NetSwitch.v
Stack.v
Bpf.v
Syscalls.v
Seccomp.v
Layer.v
LayerSafe.v
BuildCfg.v
BuildKey.v
BuildExec.v
BuildLaw.v
BuildIgnore.v
BuildRuns.v
B64.v
Spdy.v
StreamServer.v
PortForward.v
ExecSession.v
CriVocab.v
CriBackend.v
CriLogic.v
CriPods.v
CriCalls.v
CriLaw.v
CriRaces.v
