(* ===== verification/Prelude.v ===== *)
(** * A model of lightr: store, snapshots, collector, memoised runs, switch, image builds, seccomp, layers, CRI backend and streaming

    lightr keeps trees of files in a content-addressed store, names them by refs with a
    history, materialises them again, and memoises commands by the content they read.
    Virtual machines of one network talk through a userspace switch with DHCP and DNS
    servers in it.  Images are built from Dockerfiles and services described by compose
    files.  Images are unpacked from the layers of other registries, and containers run
    under a seccomp filter compiled from a profile.  Kubernetes runs pods of them through a
    CRI backend, and its clients reach them through a streaming server for exec, attach and
    port forwarding.  This library models
    the code of crates/lightr-core, lightr-store, lightr-index, of lightr-run the memoised
    path, the network registry and the switch, of lightr-build the parsers, the
    build executor and the start of a stack, of lightr-engine the seccomp compiler, of lightr-oci the unpacking of layers,
    of lightr-cri-backend the lifecycle of pods and containers and of lightr-cri the
    streaming server, and proves what makes it correct.

    ** Parts and files

    - [Prelude]: bytes, little-endian integers, decimal text, UTF-8, whitespace, byte
      order, stable sorting, the hint databases.  [Text]: the string operations of the
      standard library that the parsers use.  [Error]: [LightrError] and [Result].
      [Cursor]: the reader monad of the binary decoders.
    - lightr-core: [Digest] (digest.rs; BLAKE3 is the class [Blake3], its laws the class
      [Blake3Laws], with executable instances), [Manifest] (LMF1), [RefRecord] (records,
      names, keys), [Limits].
    - The file system: [Fs] is a tree of nodes in a map from paths, an IO monad over it
      ([World]: tree, schedule of faults, process id, counter) and one operation per
      call of std::fs the code makes.  Each call consults the schedule: it succeeds,
      fails with an I/O error before or part-way, or the process is killed there, part
      of a write done.  [FsFacts] has the frames that hold under every schedule
      ([keeps]), [Calm] the exact runs without faults ([does]), [Wp] weakest
      preconditions for both at once, [Confine] which paths a computation can touch.
    - lightr-store: [OwnedTemp] (owned_temp.rs, [atomic_write]), [Cas] (cas/mod.rs,
      lock.rs, cow.rs), [Layout] (the planes of a store and a store in good order),
      [Refs] (refs.rs), [Ac] (ac.rs), [ImgMeta] (imgmeta.rs, imgmeta_codec.rs,
      usage.rs), [Volume] (volume.rs: create, inspect, list and the JSON of meta.json),
      [Owners] (volume.rs: the ledger of the runs that use a volume, recovery, remove and
      prune).
    - lightr-index: [TimeAxis] (diff, undo), [Bisect], [IndexCodec] (the stat index),
      [Scan], [Hydrate], [Snapshot] (snapshot.rs, status.rs), [Gc].
    - lightr-run: [Memo] (memo.rs, memo_key.rs, ac.rs, bindmat.rs, secrets.rs);
      the switch under vswitch/: [Packet] (Ethernet, IPv4 and UDP, the header checksum,
      and the wire format as a reference), [Dhcp] (dhcp/), [Dns] (dns/), [VSwitch]
      (switch.rs, mod.rs: learning, routing, and the member threads as a step relation
      whose steps are the critical sections of the code); [Network] (network/: the
      registry of members on disk, and the commands over it) and [NetSwitch] (the attach
      message of switch_host.rs, registry and switch together).
    - lightr-build, under build/: [Dockerfile] (parse/), [DockerIgnore]
      (dockerignore.rs), [Vars] (vars.rs, compose/interp.rs), [Ports]
      (compose/ports.rs), [Stack] (compose/: active services, start order, start); the
      execution of a Dockerfile in [BuildCfg] (args.rs, platform.rs, exec_stage.rs, target.rs,
      imgcfg.rs: what a build knows beside the file system), [BuildKey] (memo.rs, exec_fs.rs,
      exec_fs_tar.rs: the key of a step and the placing of its sources), [BuildExec]
      (exec_instr*.rs, exec.rs: the instructions, the replay of a cached layer, the loop),
      [BuildLaw] and [BuildIgnore] (what holds of builds) and [BuildRuns] (builds of small
      Dockerfiles, run).
    - lightr-engine, under engine/seccomp/: [Bpf] (bpf.rs: the assembler with its labels,
      the code of every comparison, and the interpreter of tests.rs as the semantics of
      programs), [Syscalls] (syscalls.rs, the names of seccomp_default.json; the numbers of
      the libc crate are the class [Libc]), [Seccomp] (mod.rs: profiles to rules, and what
      a profile means).
    - lightr-oci, under oci/layer/: [Layer] (apply.rs, mod.rs: entries to operations,
      operations to the file system, where a path is resolved as the kernel does, links
      included), [LayerSafe] (what unpacking can and cannot touch).
    - lightr-cri, under crates/lightr-cri-stream/src/: [B64] (b64.rs, channel.rs), [Spdy]
      (spdy/frame.rs, headers.rs, mod.rs and the frame reader of conn.rs; the compressor is
      the class [Zlib]), [StreamServer] (token.rs, the handlers of server.rs with the
      negotiation of ws.rs and the ports of portforward.rs), [PortForward] (port forwarding
      over SPDY, conn.rs) and [ExecSession] (exec and attach over SPDY, conn.rs and
      status.rs: the tasks of a session as a transition system).
    - lightr-cri-backend/src/: [CriVocab] (vocab.rs, the records, filters and status of
      util.rs, sandbox.rs and container_query.rs), [CriBackend] (sandbox.rs, container.rs,
      container_start.rs, container_wait.rs, container_setup.rs, the restart in lib.rs: a
      call is a program over atomic operations, and the machine interleaves the calls with
      the processes, the threads that wait for them, failing writes and restarts),
      [CriLogic] (rely and guarantee for such programs), [CriPods] (the invariant and what
      pods can count on), [CriCalls] (every call keeps it), [CriLaw] (the laws of all
      runs), [CriRaces] (schedules that break a promise of the code).

    ** What is proved

    - Under every schedule of failures, with a kill at any call: [atomic_write] leaves
      the old or the new content; objects always hash to their names; a ref points to
      its old or its new record, and a snapshot's ref only ever to a manifest whose
      files are all in the store; the collector only removes, and only what it may; a
      hit of the memo is a verified record; what must not be cached is not.
    - Of named volumes, under the same schedules: a volume that a run has taken keeps its
      data and its owner, whatever other runs, [remove], [prune] and recovery do, as long as
      the process of the owner is not seen dead.
    - Without faults: snapshot and hydrate round-trip, hydration is exact, the refs
      refine a map from names to histories, the collector removes exactly the
      unreachable, a recorded run replays, undo toggles, bisect terminates at a
      boundary and leaves no trace.
    - Of the pure parts: the codecs round-trip and are exact, the name grammar and the
      limit parsers equal their specifications, the diff equals its specification.
    - Of the switch: under every interleaving of its threads it sends only received
      frames and answers to them, answers only to the asker, and nothing to a removed
      member; undisturbed threads do what [route] says; the DHCP and DNS parsers accept
      exactly the wire format, and the replies are valid datagrams that are not answered
      again.
    - Of the network registry: under every schedule of failures it is an allocator of
      distinct host addresses, exact without failures, and the switch gives out the
      addresses it allocated.
    - Of the build front end: interpolation is the documented language on every text, the
      context filter is the documented rule with wildcards, a rendered Dockerfile parses
      to its instructions, a port mapping to what it stands for.
    - Of builds: a replayed layer leaves the build in the state that executing its
      instruction did; what [.dockerignore] excludes is in no key; [--target] builds the
      stages up to the one it names and reports that stage.
    - Of a compose stack: the active services are the closure under dependencies, the
      start order is topological or there is a cycle, and a service only starts when the
      conditions of its dependencies hold; a sound stack whose services become ready
      starts.
    - Of the seccomp compiler: it accepts exactly the documented profiles, its programs
      pass the checks of the kernel, and running one decides every call as the profile
      does; the built-in profile allows exactly what it lists.
    - Of the layers: whatever the archives contain and whichever calls fail, unpacking
      leaves everything outside its directory alone, but for one kind of entry that does
      not ([whiteout_dotdot_escapes]).
    - Of streaming: frames are read back however the transport cuts them; a token opens
      one session, of its verb, within its lifetime; every forwarded stream is connected
      to its own connection, in both directions; in every interleaving of its tasks an exec
      session delivers all output before the status, and no interleaving deadlocks.
    - Of the CRI backend, when the calls on one pod are made one after the other and all
      else is interleaved: a restart at any moment keeps the records of every pod that no
      call is about, unless a write failed; whatever fails, a container on the host path is
      started at most once; a call touches nothing of another pod.
    - Where the code does not do what it says, the theorem shows it
      ([gc_read_error_sweeps_live], [ref_put_list_failure_overwrites],
      [scan_drops_unhashable], [entrypoint_false_hit], [volume_comma_label_unreadable],
      [alias_unanswered], [star_name_not_excluded], [compose_dollar_in_default_fails],
      [env_apostrophe_rejected], [from_extra_words_ignored], [rm_race],
      [mac_collision], [unstarted_dependency_fails], [whiteout_dotdot_escapes],
      [whiteouts_hit_own_layer], [whiteout_failure_ignored],
      [masked_eq_operands_swapped], [shared_request_mixes_streams],
      [open_failure_silent], [attach_detach_lost], [orphan_runs_on_host],
      [overlapping_starts], [stop_retry_not_durable], [stop_leaves_running],
      [namespace_start_twice], [running_without_exec], [unreaped_process],
      [removed_before_begin], [killed_begin_blocks_removal],
      [replayed_build_not_named], [name_on_other_stage], [failed_build_moves_name],
      [glob_source_not_keyed], [linked_source_not_keyed], [mode_not_keyed],
      [base_not_keyed], [build_arg_not_keyed], [env_in_layer],
      [from_source_keyed_on_host], [ignored_source_panics],
      [exception_below_excluded_dir], [copied_dir_drops_links], [missing_source_silent],
      [workdir_crosses_stages], [chmod_variable_rejected], [platform_variants_match],
      [numeric_target_fails]).

    ** Bounds

    Recursion that is not structural takes fuel: the diff the total number of entries,
    bisect the length of the log, the walk of a tree the number of its nodes, decimal
    printing 20 digits (the width of a u64), the reservation of a staging directory the
    code's own 32 attempts, the walk over DHCP options and DNS labels the length of the
    message, the folding of a checksum three turns (a 32-bit sum folds twice), the
    wildcard loop a product of the lengths that every restart keeps within,
    interpolation and the tokenizer one turn per character, [ONBUILD] depth 1 (its
    instruction is never [ONBUILD]), the start order one turn per service, the active
    services one round more than there are services, a BPF program as many turns as it has
    instructions (its jumps go forward), a path 40 symbolic links (the kernel's limit), the
    frame reader one turn per byte received, the hashing and the copying of a source of
    COPY or ADD as many levels as the tree has nodes.
    The theorems about these functions say that they return.

    ** Not modelled

    Windows and macOS branches; concurrency between processes (the locks are their
    files; a kill and the state it leaves are modelled, interleavings only of the
    switch's threads, of the tasks of a streaming session, of the calls of the CRI backend
    and where [rm_race] shows one); parallel iteration is in order; file times except where the stat index reads them;
    directory modes; symbolic links inside the paths the store itself walks.  The walk
    of the ignore crate, child processes, clocks, the environment and the exchange with a
    DNS resolver are arguments, as are the entries that the tar reader yields and the
    profile that the JSON parser returns.  In builds the engine that runs a command, HTTP,
    the archive crates and the JSON of the sidecar are arguments; owners are not part of the
    tree, paths below the work directory are taken as written (no links and no [..] in
    them), and several tests of one source path are one lookup.  Components not covered at all are the detached
    supervisor, the engines, port forwarding and the hosting of the switch, the lowering of compose files and the
    supervision of started services, the transfer of images, the command line, of the CRI
    backend the images, exec and statistics, and the gRPC service around it; the CRI backend
    is that of Unix, its record files are maps (the JSON and the temporary files of its
    writes are left out), and network plugins, hydration and the kernel are choices of its
    machine; of streaming, the HTTP server, the sessions
    over WebSocket, the resizing of terminals and failing writes to the client of an exec
    session. *)

(** This file: the shared vocabulary. *)

From Stdlib Require Import ZArith NArith Lia Bool.
From Stdlib Require Export Strings.Byte.
From stdpp Require Export base tactics decidable option list list_numbers countable
  sorting numbers gmap fin_maps.
From stdpp Require Export strings.

(** * Bytes *)

Abbreviation bytes := (list byte).

#[export] Instance byte_eq_decision : EqDecision byte := Byte.byte_eq_dec.

#[export] Program Instance byte_countable : Countable byte :=
  inj_countable Byte.to_N Byte.of_N _.
Next Obligation.
intros b. exact (Byte.of_to_N b).
Qed.

(** The value of a byte, [b as u64]. *)
Definition bval (b : byte) : Z := Z.of_N (Byte.to_N b).

(** [z as u8]: the low eight bits. *)
Definition byte_of_Z (z : Z) : byte :=
  match Byte.of_N (Z.to_N (z mod 256)) with
  | Some b => b
  | None => x00
  end.

(** A Rust string literal as its UTF-8 bytes. *)
Definition str (s : String.string) : bytes := String.list_byte_of_string s.

Lemma bval_range (b : byte) : (0 <= bval b < 256)%Z.
Proof.
unfold bval. pose proof (Byte.to_N_bounded b). lia.
Qed.

Lemma bval_inj (a b : byte) : bval a = bval b -> a = b.
Proof.
unfold bval. intros H%N2Z.inj.
pose proof (Byte.of_to_N a) as Ha. pose proof (Byte.of_to_N b) as Hb.
rewrite H in Ha. congruence.
Qed.

Lemma bval_byte_of_Z (z : Z) : bval (byte_of_Z z) = (z mod 256)%Z.
Proof.
unfold byte_of_Z, bval.
assert (0 <= z mod 256 < 256)%Z as Hr by (apply Z.mod_pos_bound; lia).
destruct (Byte.of_N (Z.to_N (z mod 256))) as [b|] eqn:E.
- apply Byte.to_of_N in E. rewrite E. lia.
- apply Byte.of_N_None_iff in E. lia.
Qed.

Lemma byte_of_Z_bval (b : byte) : byte_of_Z (bval b) = b.
Proof.
apply bval_inj. rewrite bval_byte_of_Z. apply Z.mod_small, bval_range.
Qed.

(** Every byte, to decide a property of all of them by computation. *)
Definition all_bytes : list byte := byte_of_Z <$> seqZ 0 256.

Lemma byte_forall (P : byte -> Prop) `{HP : forall b, Decision (P b)} :
  forallb (fun b => bool_decide (P b)) all_bytes = true -> forall b, P b.
Proof.
intros H b. rewrite forallb_forall in H. eapply bool_decide_eq_true_1, H.
apply list_elem_of_In, list_elem_of_fmap. exists (bval b).
rewrite byte_of_Z_bval. split; [done|]. apply elem_of_seqZ. pose proof (bval_range b). lia.
Qed.

(** Membership of a byte in the inclusive range a Rust pattern [lo..=hi] names. *)
Definition in_range (lo hi b : byte) : bool :=
  (bval lo <=? bval b)%Z && (bval b <=? bval hi)%Z.

(** * Machine integers *)

Definition u8 (z : Z) : Prop := (0 <= z < 2 ^ 8)%Z.
Definition u16 (z : Z) : Prop := (0 <= z < 2 ^ 16)%Z.
Definition u32 (z : Z) : Prop := (0 <= z < 2 ^ 32)%Z.
Definition u64 (z : Z) : Prop := (0 <= z < 2 ^ 64)%Z.
Definition i32 (z : Z) : Prop := (- 2 ^ 31 <= z < 2 ^ 31)%Z.

#[export] Instance u8_dec z : Decision (u8 z) := ltac:(unfold u8; apply _).
#[export] Instance u16_dec z : Decision (u16 z) := ltac:(unfold u16; apply _).
#[export] Instance u32_dec z : Decision (u32 z) := ltac:(unfold u32; apply _).
#[export] Instance u64_dec z : Decision (u64 z) := ltac:(unfold u64; apply _).
#[export] Instance i32_dec z : Decision (i32 z) := ltac:(unfold i32; apply _).

(** [z as i32] of the 32-bit pattern [z]. *)
Definition as_i32 (z : Z) : Z :=
  let w := (z mod 2 ^ 32)%Z in
  if (w <? 2 ^ 31)%Z then w else (w - 2 ^ 32)%Z.

Definition U64_MAX : Z := (2 ^ 64 - 1)%Z.

(** [u64::checked_add] and [u64::checked_mul]. *)
Definition checked_add (a b : Z) : option Z :=
  if (a + b <=? U64_MAX)%Z then Some (a + b)%Z else None.
Definition checked_mul (a b : Z) : option Z :=
  if (a * b <=? U64_MAX)%Z then Some (a * b)%Z else None.

(** A shift and a disjunction put bits side by side. *)
Lemma lor_shiftl a b k : (0 <= k)%Z -> (0 <= b < 2 ^ k)%Z -> Z.lor (Z.shiftl a k) b = (a * 2 ^ k + b)%Z.
Proof.
intros Hk Hb. rewrite <- Z.shiftl_mul_pow2 by lia.
assert (Z.land (Z.shiftl a k) b = 0)%Z as H0; [|by rewrite Z.add_nocarry_lxor, Z.lxor_lor].
rewrite <- (Z.mod_small b (2 ^ k)) by lia. rewrite <- Z.land_ones, Z.land_comm, <- Z.land_assoc by lia.
rewrite (Z.land_comm (Z.ones k)), Z.land_ones, Z.shiftl_mul_pow2, Z.mod_mul by lia. apply Z.land_0_r.
Qed.

(** [x.to_le_bytes()] for an [n]-byte integer, and [from_le_bytes]. *)
Fixpoint le_bytes (n : nat) (z : Z) : bytes :=
  match n with
  | O => []
  | S n => byte_of_Z z :: le_bytes n (z / 256)
  end.

Fixpoint le_val (l : bytes) : Z :=
  match l with
  | [] => 0
  | b :: l => (bval b + 256 * le_val l)%Z
  end.

Lemma length_le_bytes n z : length (le_bytes n z) = n.
Proof.
revert z. induction n as [|n IH]; intros z; simpl; auto.
Qed.

Lemma le_val_le_bytes n z : le_val (le_bytes n z) = (z mod 256 ^ Z.of_nat n)%Z.
Proof.
revert z. induction n as [|n IH]; intros z.
- simpl. rewrite Z.mod_1_r. done.
- cbn [le_bytes le_val]. rewrite IH, bval_byte_of_Z, Nat2Z.inj_succ, Z.pow_succ_r by lia.
  rewrite Z.rem_mul_r by (try apply Z.pow_pos_nonneg; lia). lia.
Qed.

Lemma le_val_range l : (0 <= le_val l < 256 ^ Z.of_nat (length l))%Z.
Proof.
induction l as [|b l IH]; cbn [le_val length].
- simpl. lia.
- rewrite Nat2Z.inj_succ, Z.pow_succ_r by lia. pose proof (bval_range b). lia.
Qed.

Lemma le_bytes_le_val l : le_bytes (length l) (le_val l) = l.
Proof.
induction l as [|b l IH]; cbn [le_val length le_bytes]; [done|].
pose proof (bval_range b).
replace ((bval b + 256 * le_val l) / 256)%Z with (le_val l)
  by (rewrite Z.mul_comm, Z.div_add by lia; rewrite Z.div_small by lia; lia).
rewrite IH. f_equal. apply bval_inj. rewrite bval_byte_of_Z.
rewrite Z.mul_comm, Z.mod_add by lia. apply Z.mod_small; lia.
Qed.

Lemma le_bytes_le_val' n l : length l = n -> le_bytes n (le_val l) = l.
Proof.
intros <-. apply le_bytes_le_val.
Qed.

Lemma le_val_u16 z : u16 z -> le_val (le_bytes 2 z) = z.
Proof.
intros H. rewrite le_val_le_bytes. apply Z.mod_small. exact H.
Qed.

Lemma le_val_u32 z : u32 z -> le_val (le_bytes 4 z) = z.
Proof.
intros H. rewrite le_val_le_bytes. apply Z.mod_small. exact H.
Qed.

Lemma le_val_u64 z : u64 z -> le_val (le_bytes 8 z) = z.
Proof.
intros H. rewrite le_val_le_bytes. apply Z.mod_small. exact H.
Qed.

Lemma as_i32_le z : i32 z -> as_i32 (le_val (le_bytes 4 z)) = z.
Proof.
intros H. rewrite le_val_le_bytes. change (256 ^ Z.of_nat 4)%Z with (2 ^ 32)%Z.
unfold as_i32, i32 in *. rewrite Z.mod_mod by lia.
destruct (decide (0 <= z)%Z) as [Hz|Hz].
- rewrite Z.mod_small by lia. case_match eqn:E; lia.
- replace (z mod 2 ^ 32)%Z with (z + 2 ^ 32)%Z
    by (apply (Z.mod_unique_pos z (2 ^ 32) (-1) (z + 2 ^ 32)); lia).
  case_match eqn:E; lia.
Qed.

(** * ASCII classes *)

Definition is_ascii_digit (b : byte) : bool := in_range x30 x39 b.
Definition is_ascii_lowercase (b : byte) : bool := in_range x61 x7a b.
Definition is_ascii_uppercase (b : byte) : bool := in_range x41 x5a b.
Definition is_ascii_alphanumeric (b : byte) : bool :=
  is_ascii_digit b || is_ascii_lowercase b || is_ascii_uppercase b.

(** [b - b'0'] of an ASCII digit. *)
Definition digit_val (b : byte) : Z := (bval b - 48)%Z.

(** * Decimal printing and parsing ([u64::to_string], [str::parse::<u64>]) *)

Fixpoint dec_go (fuel : nat) (n : Z) (acc : bytes) : bytes :=
  match fuel with
  | O => acc
  | S fuel =>
      let acc := byte_of_Z (48 + n mod 10) :: acc in
      if (n <? 10)%Z then acc else dec_go fuel (n / 10) acc
  end.

(** [n.to_string()]: twenty digits are enough for every [u64]. *)
Definition dec (n : Z) : bytes := dec_go 20 n [].

Fixpoint dec_val (acc : Z) (l : bytes) : Z :=
  match l with
  | [] => acc
  | b :: l => dec_val (acc * 10 + digit_val b) l
  end.

Definition strip_plus (s : bytes) : bytes :=
  match s with
  | [] => []
  | b :: r => if bool_decide (b = x2b) then r else s
  end.

(** [s.parse::<uN>()] for an unsigned type of maximum [max]: an optional leading
    plus sign, at least one digit, digits only, and no overflow. *)
Definition parse_uint (max : Z) (s : bytes) : option Z :=
  let d := strip_plus s in
  if bool_decide (d = []) then None
  else if forallb is_ascii_digit d then
    let v := dec_val 0 d in
    if (v <=? max)%Z then Some v else None
  else None.

Definition parse_u64 : bytes -> option Z := parse_uint U64_MAX.
Definition parse_u32 : bytes -> option Z := parse_uint (2 ^ 32 - 1).

Lemma digit_byte_val d : (0 <= d < 10)%Z -> digit_val (byte_of_Z (48 + d)) = d.
Proof.
intros H. unfold digit_val. rewrite bval_byte_of_Z, Z.mod_small by lia. lia.
Qed.

Lemma digit_byte_is_digit d :
  (0 <= d < 10)%Z -> is_ascii_digit (byte_of_Z (48 + d)) = true.
Proof.
intros H. unfold is_ascii_digit, in_range. rewrite bval_byte_of_Z, Z.mod_small by lia.
change (bval x30) with 48%Z. change (bval x39) with 57%Z.
rewrite andb_true_iff, !Z.leb_le. lia.
Qed.

Lemma is_ascii_digit_range b : is_ascii_digit b = true -> (0 <= digit_val b < 10)%Z.
Proof.
unfold is_ascii_digit, in_range, digit_val.
change (bval x30) with 48%Z. change (bval x39) with 57%Z.
rewrite andb_true_iff, !Z.leb_le. lia.
Qed.

Lemma dec_val_app a l1 l2 : dec_val a (l1 ++ l2) = dec_val (dec_val a l1) l2.
Proof.
revert a. induction l1 as [|b l1 IH]; intros a; simpl; auto.
Qed.

Lemma dec_go_spec fuel n acc :
  (0 <= n < 10 ^ Z.of_nat fuel)%Z -> fuel <> O ->
  exists ds, dec_go fuel n acc = ds ++ acc /\ ds <> [] /\
    forallb is_ascii_digit ds = true /\
    forall a, dec_val a ds = (a * 10 ^ Z.of_nat (length ds) + n)%Z.
Proof.
revert n acc. induction fuel as [|fuel IH]; intros n acc Hn Hf; [done|].
assert (0 <= n mod 10 < 10)%Z as Hm by (apply Z.mod_pos_bound; lia).
cbn [dec_go]. destruct (n <? 10)%Z eqn:E.
- exists [byte_of_Z (48 + n mod 10)]. split; [done|]. split; [done|]. split.
  + simpl. rewrite digit_byte_is_digit by lia. done.
  + intros a. cbn [dec_val length]. rewrite digit_byte_val by lia.
    rewrite Z.mod_small by lia. simpl. lia.
- rewrite Nat2Z.inj_succ, Z.pow_succ_r in Hn by lia.
  assert (fuel <> O) as Hf' by (intros ->; simpl in Hn; lia).
  destruct (IH (n / 10)%Z (byte_of_Z (48 + n mod 10) :: acc)) as (ds & Hgo & _ & Hd & Hv).
  { split; [apply Z.div_pos; lia|]. apply Z.div_lt_upper_bound; lia. }
  { done. }
  exists (ds ++ [byte_of_Z (48 + n mod 10)]). rewrite Hgo, <- app_assoc.
  split; [done|]. split; [intros [_ ?]%app_nil; done|]. split.
  + rewrite forallb_app, Hd. simpl. rewrite digit_byte_is_digit by lia. done.
  + intros a. rewrite dec_val_app, Hv. cbn [dec_val]. rewrite digit_byte_val by lia.
    rewrite length_app. cbn [length]. rewrite Nat2Z.inj_add. change (Z.of_nat 1) with 1%Z.
    rewrite Z.pow_add_r, Z.pow_1_r by lia. pose proof (Z.div_mod n 10). lia.
Qed.

Lemma dec_spec n : u64 n ->
  dec n <> [] /\ forallb is_ascii_digit (dec n) = true /\ dec_val 0 (dec n) = n.
Proof.
intros H. unfold dec. destruct (dec_go_spec 20 n []) as (ds & -> & Hne & Hd & Hv).
{ unfold u64 in H. simpl. lia. }
{ done. }
rewrite app_nil_r. rewrite Hv. split; [done|]. split; [done|]. lia.
Qed.

(** [dec] writes digits for any argument. *)
Lemma dec_digits n : forallb is_ascii_digit (dec n) = true.
Proof.
unfold dec. assert (forall fuel n acc, forallb is_ascii_digit acc = true ->
  forallb is_ascii_digit (dec_go fuel n acc) = true) as H; [|by apply H].
clear n. induction fuel as [|fuel IH]; intros n acc Hacc; [done|]. cbn [dec_go].
assert (forallb is_ascii_digit (byte_of_Z (48 + n mod 10) :: acc) = true) as Hacc'.
{ cbn [forallb]. rewrite Hacc, digit_byte_is_digit by (apply Z.mod_pos_bound; lia). done. }
case_match; auto.
Qed.

Lemma parse_uint_digits max d :
  d <> [] -> forallb is_ascii_digit d = true ->
  parse_uint max d = if (dec_val 0 d <=? max)%Z then Some (dec_val 0 d) else None.
Proof.
intros Hne Hd. unfold parse_uint. destruct d as [|b d]; [done|].
assert (b <> x2b) as Hb by (intros ->; simpl in Hd; done).
cbn [strip_plus]. rewrite (bool_decide_eq_false_2 (b = x2b)) by done.
rewrite bool_decide_eq_false_2 by done. rewrite Hd. done.
Qed.

Lemma parse_uint_dec max n : u64 n -> (n <= max)%Z -> parse_uint max (dec n) = Some n.
Proof.
intros Hn Hmax. destruct (dec_spec n Hn) as (Hne & Hd & Hv).
rewrite parse_uint_digits, Hv by done. case_match eqn:E; [done|lia].
Qed.

Lemma parse_u64_dec n : u64 n -> parse_u64 (dec n) = Some n.
Proof.
intros H. apply parse_uint_dec; [done|]. unfold u64, U64_MAX in *. lia.
Qed.

Lemma dec_inj a b : u64 a -> u64 b -> dec a = dec b -> a = b.
Proof.
intros Ha Hb E. apply parse_u64_dec in Ha, Hb. rewrite E in Ha. congruence.
Qed.

Lemma dec_val_nonneg a l : (0 <= a)%Z -> forallb is_ascii_digit l = true -> (0 <= dec_val a l)%Z.
Proof.
revert a. induction l as [|b l IH]; intros a Ha Hl; simpl in *; [done|].
apply andb_true_iff in Hl as [Hb Hl]. apply is_ascii_digit_range in Hb.
apply IH; [lia|done].
Qed.

Lemma parse_uint_range max s v :
  parse_uint max s = Some v -> (0 <= v <= max)%Z.
Proof.
unfold parse_uint. intros H. repeat (case_match; simplify_eq).
split; [|lia]. by apply dec_val_nonneg.
Qed.

(** * UTF-8 ([std::str::from_utf8]) *)

Definition utf8_cont (b : byte) : bool := in_range x80 xbf b.

(** The well-formed byte sequences of Unicode table 3-7, which [from_utf8]
    accepts: no overlong forms, no surrogates, nothing above U+10FFFF. *)
Fixpoint utf8_valid (l : bytes) : bool :=
  match l with
  | [] => true
  | b :: l1 =>
      if in_range x00 x7f b then utf8_valid l1
      else match l1 with
      | [] => false
      | c :: l2 =>
          if in_range xc2 xdf b then utf8_cont c && utf8_valid l2
          else match l2 with
          | [] => false
          | d :: l3 =>
              if bool_decide (b = xe0) then in_range xa0 xbf c && utf8_cont d && utf8_valid l3
              else if in_range xe1 xec b || in_range xee xef b
                   then utf8_cont c && utf8_cont d && utf8_valid l3
              else if bool_decide (b = xed)
                   then in_range x80 x9f c && utf8_cont d && utf8_valid l3
              else match l3 with
              | [] => false
              | e :: l4 =>
                  if bool_decide (b = xf0)
                  then in_range x90 xbf c && utf8_cont d && utf8_cont e && utf8_valid l4
                  else if in_range xf1 xf3 b
                  then utf8_cont c && utf8_cont d && utf8_cont e && utf8_valid l4
                  else if bool_decide (b = xf4)
                  then in_range x80 x8f c && utf8_cont d && utf8_cont e && utf8_valid l4
                  else false
              end
          end
      end
  end.

(** ASCII text is UTF-8. *)
Lemma utf8_valid_ascii l : forallb (in_range x00 x7f) l = true -> utf8_valid l = true.
Proof.
induction l as [|b l IH]; simpl; [done|]. intros [Hb Hl]%andb_true_iff.
rewrite Hb. auto.
Qed.

Lemma in_range_high lo hi b : in_range lo hi b = true -> Z.ltb 127 (bval lo) = true -> in_range x00 x7f b = false.
Proof.
unfold in_range. intros [H _]%andb_true_iff Hlo%Z.ltb_lt. apply Z.leb_le in H. apply andb_false_iff. right.
apply Z.leb_gt. change (bval x7f) with 127%Z. lia.
Qed.

(** [char_of l c r]: [c] is the first character of [l], one ASCII byte or several
    bytes above, and what follows it does not matter. *)
Definition char_of (l c r : bytes) : Prop :=
  l = c ++ r /\ c <> [] /\ utf8_valid r = true /\ (forall t, utf8_valid (c ++ t) = utf8_valid t) /\
  ((exists b, c = [b] /\ in_range x00 x7f b = true) \/ Forall (fun b => in_range x00 x7f b = false) c).

Ltac solve_char c r :=
  exists c, r; repeat match goal with H : _ && _ = true |- _ => apply andb_true_iff in H as [? ?] end;
  unfold utf8_cont in *;
  split; [done|]; split; [done|]; split; [done|];
  split; [intros t; cbn [app utf8_valid]; unfold utf8_cont;
    repeat match goal with H : _ = true |- _ => rewrite H | H : _ = false |- _ => rewrite H end; done|];
  right; repeat (constructor; [first [done|by eapply in_range_high]|]); constructor.

Lemma utf8_char l : utf8_valid l = true -> l = [] \/ exists c r, char_of l c r.
Proof.
intros H. destruct l as [|b l]; [by left|right]. cbn [utf8_valid] in H. destruct (in_range x00 x7f b) eqn:Hb.
{ exists [b], l. split; [done|]. split; [done|]. split; [done|]. split; [intros t; simpl; by rewrite Hb|]. left. eauto. }
destruct l as [|c l]; [done|]. destruct (in_range xc2 xdf b) eqn:H2; [solve_char [b; c] l|].
destruct l as [|d l]; [done|]. destruct (bool_decide (b = xe0)) eqn:H3; [solve_char [b; c; d] l|].
destruct (in_range xe1 xec b || in_range xee xef b) eqn:H4; [solve_char [b; c; d] l|].
destruct (bool_decide (b = xed)) eqn:H5; [solve_char [b; c; d] l|].
destruct l as [|e l]; [done|]. destruct (bool_decide (b = xf0)) eqn:H6; [solve_char [b; c; d; e] l|].
destruct (in_range xf1 xf3 b) eqn:H7; [solve_char [b; c; d; e] l|].
destruct (bool_decide (b = xf4)) eqn:H8; [solve_char [b; c; d; e] l|done].
Qed.

(** Induction on the characters of valid text. *)
Lemma utf8_ind (P : bytes -> Prop) :
  P [] -> (forall l c r, char_of l c r -> P r -> P l) -> forall l, utf8_valid l = true -> P l.
Proof.
intros H0 Hs l. remember (length l) as n eqn:En. revert l En.
induction n as [n IH] using lt_wf_ind; intros l -> Hl.
destruct (utf8_char l Hl) as [->|(c & r & Hc)]; [done|]. pose proof Hc as (-> & Hne & Hr & _).
apply (Hs _ c r Hc). apply (IH (length r)); [|done|done]. rewrite length_app. destruct c; [done|simpl; lia].
Qed.

Lemma utf8_valid_app a b : utf8_valid a = true -> utf8_valid (a ++ b) = utf8_valid b.
Proof.
revert a. apply (utf8_ind (fun a => utf8_valid (a ++ b) = utf8_valid b)); [done|].
intros l c r (-> & _ & _ & Ht & _) IH. by rewrite <- app_assoc, Ht.
Qed.

(** * Whitespace ([str::trim]) *)

(** The characters of Unicode's [White_Space] property, by their UTF-8 length. *)
Definition ws1 (a : byte) : bool := in_range x09 x0d a || bool_decide (a = x20).
Definition ws2 (a b : byte) : bool :=
  bool_decide (a = xc2) && (bool_decide (b = x85) || bool_decide (b = xa0)).
Definition ws3 (a b c : byte) : bool :=
  bool_decide ((a, b, c) = (xe1, x9a, x80)) ||
  bool_decide ((a, b) = (xe2, x80)) &&
    (in_range x80 x8a c || in_range xa8 xa9 c || bool_decide (c = xaf)) ||
  bool_decide ((a, b, c) = (xe2, x81, x9f)) ||
  bool_decide ((a, b, c) = (xe3, x80, x80)).

(** Drop one leading whitespace character. *)
Definition ws_strip (s : bytes) : option bytes :=
  match s with
  | [] => None
  | a :: r =>
      if ws1 a then Some r
      else match r with
      | [] => None
      | b :: r2 =>
          if ws2 a b then Some r2
          else match r2 with
          | [] => None
          | c :: r3 => if ws3 a b c then Some r3 else None
          end
      end
  end.

(** Drop one trailing whitespace character, on the reversed bytes. *)
Definition ws_strip_rev (s : bytes) : option bytes :=
  match s with
  | [] => None
  | a :: r =>
      if ws1 a then Some r
      else match r with
      | [] => None
      | b :: r2 =>
          if ws2 b a then Some r2
          else match r2 with
          | [] => None
          | c :: r3 => if ws3 c b a then Some r3 else None
          end
      end
  end.

Fixpoint strip_while (step : bytes -> option bytes) (fuel : nat) (s : bytes) : bytes :=
  match fuel with
  | O => s
  | S fuel => match step s with Some r => strip_while step fuel r | None => s end
  end.

Definition trim_start (s : bytes) : bytes := strip_while ws_strip (length s) s.
Definition trim_end (s : bytes) : bytes :=
  reverse (strip_while ws_strip_rev (length s) (reverse s)).
Definition trim (s : bytes) : bytes := trim_end (trim_start s).

(** A printable ASCII byte: neither whitespace nor part of a longer character. *)
Definition is_ascii_graphic (b : byte) : bool := in_range x21 x7e b.

Lemma graphic_ws1 b : is_ascii_graphic b = true -> ws1 b = false.
Proof.
unfold is_ascii_graphic, ws1, in_range. rewrite andb_true_iff, !Z.leb_le.
change (bval x21) with 33%Z. change (bval x7e) with 126%Z.
change (bval x09) with 9%Z. change (bval x0d) with 13%Z. intros H.
rewrite orb_false_iff, andb_false_iff, !Z.leb_gt, bool_decide_eq_false.
split; [lia|]. intros ->. change (bval x20) with 32%Z in H. lia.
Qed.

Lemma graphic_not_high b c : is_ascii_graphic b = true -> (126 < bval c)%Z -> b <> c.
Proof.
unfold is_ascii_graphic, in_range. rewrite andb_true_iff, !Z.leb_le.
change (bval x7e) with 126%Z. intros H Hc ->. lia.
Qed.

Lemma graphic_in_high b lo hi :
  is_ascii_graphic b = true -> (126 < bval lo)%Z -> in_range lo hi b = false.
Proof.
unfold is_ascii_graphic, in_range. rewrite andb_true_iff, andb_false_iff, !Z.leb_le, !Z.leb_gt.
change (bval x7e) with 126%Z. lia.
Qed.

Lemma ws_strip_graphic b r :
  is_ascii_graphic b = true -> ws_strip (b :: r) = None /\ ws_strip_rev (b :: r) = None.
Proof.
intros Hb. assert (forall c, (126 < bval c)%Z -> b <> c) as Hne by (by intros; apply graphic_not_high).
pose proof (Hne xc2 eq_refl). pose proof (Hne x85 eq_refl). pose proof (Hne xa0 eq_refl).
pose proof (Hne xe1 eq_refl). pose proof (Hne xe2 eq_refl). pose proof (Hne xe3 eq_refl).
pose proof (Hne x80 eq_refl). pose proof (Hne x9f eq_refl). pose proof (Hne xaf eq_refl).
assert (forall c, ws2 b c = false /\ ws2 c b = false) as Hw2.
{ intros c. unfold ws2. rewrite <- !not_true_iff_false, !andb_true_iff, !orb_true_iff,
    !bool_decide_eq_true. split; intuition congruence. }
assert (forall c d, ws3 b c d = false /\ ws3 d c b = false) as Hw3.
{ intros c d. unfold ws3. rewrite !(graphic_in_high b) by done.
  rewrite <- !not_true_iff_false, !orb_true_iff, !andb_true_iff, !orb_true_iff,
    !bool_decide_eq_true. split; intuition congruence. }
unfold ws_strip, ws_strip_rev. rewrite graphic_ws1 by done.
destruct r as [|c r]; [done|]. destruct (Hw2 c) as [-> ->].
destruct r as [|d r]; [done|]. destruct (Hw3 c d) as [-> ->]. done.
Qed.

Lemma strip_while_none step fuel s : step s = None -> strip_while step fuel s = s.
Proof.
intros H. destruct fuel; simpl; [done|]. by rewrite H.
Qed.

Lemma trim_graphic s : forallb is_ascii_graphic s = true -> trim s = s.
Proof.
intros Hs. unfold trim, trim_start, trim_end.
assert (ws_strip s = None) as Hw.
{ destruct s as [|b s]; [done|]. simpl in Hs. apply andb_true_iff in Hs as [Hb _].
  by apply ws_strip_graphic. }
rewrite (strip_while_none _ _ _ Hw). rewrite strip_while_none, reverse_involutive; [done|].
destruct (reverse s) as [|b r] eqn:E; [done|]. apply ws_strip_graphic.
rewrite forallb_forall in Hs. apply Hs, list_elem_of_In.
rewrite <- (reverse_involutive s), E, reverse_cons. set_solver.
Qed.

Lemma digit_graphic b : is_ascii_digit b = true -> is_ascii_graphic b = true.
Proof.
unfold is_ascii_digit, is_ascii_graphic, in_range. rewrite !andb_true_iff, !Z.leb_le.
change (bval x30) with 48%Z. change (bval x39) with 57%Z.
change (bval x21) with 33%Z. change (bval x7e) with 126%Z. lia.
Qed.

Lemma digits_graphic l : forallb is_ascii_digit l = true -> forallb is_ascii_graphic l = true.
Proof.
induction l as [|b l IH]; simpl; [done|]. rewrite !andb_true_iff.
intros [Hb Hl]. auto using digit_graphic.
Qed.

(** * Byte-string order ([str::cmp]) *)

Fixpoint bytes_cmp (a b : bytes) : comparison :=
  match a, b with
  | [], [] => Eq
  | [], _ :: _ => Lt
  | _ :: _, [] => Gt
  | x :: a, y :: b =>
      match Z.compare (bval x) (bval y) with
      | Eq => bytes_cmp a b
      | c => c
      end
  end.

Definition bytes_lt (a b : bytes) : Prop := bytes_cmp a b = Lt.
Definition bytes_le (a b : bytes) : Prop := bytes_cmp a b <> Gt.

#[export] Instance bytes_lt_dec a b : Decision (bytes_lt a b) := ltac:(unfold bytes_lt; apply _).
#[export] Instance bytes_le_dec a b : Decision (bytes_le a b) := ltac:(unfold bytes_le; apply _).

Lemma bytes_cmp_refl a : bytes_cmp a a = Eq.
Proof.
induction a as [|x a IH]; simpl; [done|]. rewrite Z.compare_refl. done.
Qed.

Lemma bytes_cmp_eq a b : bytes_cmp a b = Eq <-> a = b.
Proof.
split; [|intros ->; apply bytes_cmp_refl].
revert b. induction a as [|x a IH]; intros [|y b]; simpl; try done.
destruct (bval x ?= bval y)%Z eqn:E; try done.
apply Z.compare_eq, bval_inj in E. intros ?%IH. congruence.
Qed.

Lemma bytes_cmp_antisym a b : bytes_cmp b a = CompOpp (bytes_cmp a b).
Proof.
revert b. induction a as [|x a IH]; intros [|y b]; simpl; try done.
rewrite (Z.compare_antisym (bval x) (bval y)). destruct (bval x ?= bval y)%Z; simpl; auto.
Qed.

Lemma bytes_lt_gt a b : bytes_cmp a b = Gt <-> bytes_lt b a.
Proof.
unfold bytes_lt. rewrite (bytes_cmp_antisym a b). destruct (bytes_cmp a b); simpl; naive_solver.
Qed.

#[export] Instance bytes_lt_trans : Transitive bytes_lt.
Proof.
intros a. unfold bytes_lt. induction a as [|x a IH]; intros [|y b] [|z c]; simpl; try done.
destruct (bval x ?= bval y)%Z eqn:E1; destruct (bval y ?= bval z)%Z eqn:E2; try done.
- apply Z.compare_eq in E1, E2. rewrite E1, E2, Z.compare_refl. apply IH.
- apply Z.compare_eq in E1. rewrite E1, E2. done.
- apply Z.compare_eq in E2. rewrite <- E2, E1. done.
- rewrite Z.compare_lt_iff in E1, E2. assert ((bval x ?= bval z)%Z = Lt) as ->
    by (apply Z.compare_lt_iff; lia). done.
Qed.

#[export] Instance bytes_lt_irrefl : Irreflexive bytes_lt.
Proof.
intros a H. unfold bytes_lt in H. rewrite bytes_cmp_refl in H. done.
Qed.

Lemma bytes_le_lt_eq a b : bytes_le a b <-> bytes_lt a b \/ a = b.
Proof.
unfold bytes_le, bytes_lt. rewrite <- (bytes_cmp_eq a b).
destruct (bytes_cmp a b); naive_solver.
Qed.

#[export] Instance bytes_le_trans : Transitive bytes_le.
Proof.
intros a b c. rewrite !bytes_le_lt_eq. intros [H| ->] [H'| ->]; auto.
left. by transitivity b.
Qed.

#[export] Instance bytes_le_refl : Reflexive bytes_le.
Proof.
intros a. apply bytes_le_lt_eq. auto.
Qed.

#[export] Instance bytes_le_antisym : AntiSymm (=) bytes_le.
Proof.
intros a b. rewrite !bytes_le_lt_eq. intros [H| ->] [H'|E]; auto.
exfalso. apply (irreflexivity bytes_lt a). by transitivity b.
Qed.

#[export] Instance bytes_le_total : Total bytes_le.
Proof.
intros a b. unfold bytes_le. rewrite (bytes_cmp_antisym a b).
destruct (bytes_cmp a b); simpl; auto.
Qed.

Lemma bytes_lt_not_le a b : bytes_lt a b -> ~ bytes_le b a.
Proof.
intros H [H'| ->]%bytes_le_lt_eq.
- apply (irreflexivity bytes_lt a). by transitivity b.
- by apply (irreflexivity bytes_lt a).
Qed.

(** * Stable sorting ([slice::sort_by]) *)

Section sort.
Context {A : Type} (leb : A -> A -> bool).

Fixpoint sort_insert (x : A) (l : list A) : list A :=
  match l with
  | [] => [x]
  | y :: l => if leb x y then x :: y :: l else y :: sort_insert x l
  end.

(** Insertion sort from the right: equal elements keep their order. *)
Definition sort_by (l : list A) : list A := foldr sort_insert [] l.

Lemma sort_insert_perm x l : sort_insert x l ≡ₚ x :: l.
Proof.
induction l as [|y l IH]; simpl; [done|]. case_match; [done|].
rewrite IH. apply Permutation_swap.
Qed.

Lemma sort_by_perm l : sort_by l ≡ₚ l.
Proof.
induction l as [|x l IH]; simpl; [done|]. rewrite sort_insert_perm, IH. done.
Qed.

Context (R : relation A) (leb_spec : forall x y, leb x y = true <-> R x y).
Context `{!Transitive R, !Total R}.

Lemma sort_insert_sorted x l : StronglySorted R l -> StronglySorted R (sort_insert x l).
Proof.
induction 1 as [|y l Hl IH Hy]; simpl; [repeat constructor|].
destruct (leb x y) eqn:E.
- apply leb_spec in E. repeat constructor; auto.
  eapply Forall_impl; [exact Hy|]. intros z Hz. by transitivity y.
- constructor; [done|]. rewrite sort_insert_perm. constructor; [|done].
  destruct (total R x y) as [H|H]; [|done]. apply leb_spec in H. congruence.
Qed.

Lemma sort_by_sorted l : StronglySorted R (sort_by l).
Proof.
induction l as [|x l IH]; simpl; [constructor|]. by apply sort_insert_sorted.
Qed.

(** A list already in order is left alone. *)
Lemma sort_by_id l : StronglySorted R l -> sort_by l = l.
Proof.
induction 1 as [|x l Hl IH Hx]; simpl; [done|]. rewrite IH.
destruct l as [|y l]; simpl; [done|].
rewrite (proj2 (leb_spec x y)); [done|]. by inversion Hx.
Qed.

End sort.

Definition bytes_leb (a b : bytes) : bool := bool_decide (bytes_le a b).

Lemma bytes_leb_spec a b : bytes_leb a b = true <-> bytes_le a b.
Proof.
unfold bytes_leb. rewrite bool_decide_eq_true. done.
Qed.

(** A sort by a byte-string key is a permutation ordered by the key. *)
Lemma sort_by_key_sorted {A} (key : A -> bytes) (l : list A) :
  StronglySorted (fun x y => bytes_le (key x) (key y))
    (sort_by (fun x y => bytes_leb (key x) (key y)) l).
Proof.
apply sort_by_sorted; [intros; apply bytes_leb_spec| |].
- intros x y z. apply bytes_le_trans.
- intros x y. apply bytes_le_total.
Qed.

Lemma sort_bytes_unique (l1 l2 : list bytes) :
  l1 ≡ₚ l2 -> sort_by bytes_leb l1 = sort_by bytes_leb l2.
Proof.
intros H. apply (StronglySorted_unique bytes_le).
- apply sort_by_sorted; [apply bytes_leb_spec|apply _|apply _].
- apply sort_by_sorted; [apply bytes_leb_spec|apply _|apply _].
- rewrite !sort_by_perm. done.
Qed.

Lemma forallb_Forall {A} (f : A -> bool) (l : list A) :
  forallb f l = true <-> Forall (fun x => f x = true) l.
Proof.
rewrite forallb_forall, Forall_forall. setoid_rewrite list_elem_of_In. done.
Qed.

(** * Concatenation *)

Lemma join_cons {A} (x : list A) (l : list (list A)) : mjoin (x :: l) = x ++ mjoin l.
Proof. done. Qed.

Lemma join_fmap_cons {A B} (f : A -> list B) (x : A) (l : list A) :
  mjoin (f <$> x :: l) = f x ++ mjoin (f <$> l).
Proof. done. Qed.

(** * Tactics and hints of the development *)

Create HintDb lightr.
Create Rewrite HintDb lightr_len.

(** A decidable proposition without variables, by evaluation. *)
Ltac by_eval := apply (bool_decide_eq_true_1 _); vm_compute; reflexivity.

#[export] Hint Resolve length_le_bytes bytes_cmp_refl : lightr.
#[export] Hint Rewrite length_le_bytes le_val_le_bytes @length_app : lightr_len.

(** Break every [match], [if] and [let] a hypothesis computes through, and keep
    only the consistent branches. *)
Ltac branch_in H :=
  repeat (simpl in H; case_match; simplify_eq; simpl in H); simplify_eq.

(** Decide a statement about one byte by trying all 256. *)
Ltac byte_exhaust b :=
  revert b;
  match goal with
  | |- forall x : byte, @?P x => refine (byte_forall P _); vm_compute; reflexivity
  end.

#[global] Arguments le_bytes : simpl never.
#[global] Arguments le_val : simpl never.
#[global] Arguments str : simpl never.
#[global] Arguments dec : simpl never.
#[global] Arguments bval : simpl never.
#[global] Arguments byte_of_Z : simpl never.

(** * A stand-in for the codecs of other crates *)

(** The binary digits of a code for the value. *)
Fixpoint digits_of (p : positive) : bytes :=
  match p with xH => [] | xO p => x30 :: digits_of p | xI p => x31 :: digits_of p end.
Fixpoint of_digits (b : bytes) : positive :=
  match b with [] => xH | c :: b => if bool_decide (c = x30) then xO (of_digits b) else xI (of_digits b) end.

Lemma of_digits_of p : of_digits (digits_of p) = p.
Proof. induction p as [p IH|p IH|]; cbn [digits_of of_digits]; [..|done]; rewrite IH; done. Qed.

Definition toy_to {A} `{Countable A} (a : A) : option bytes := Some (digits_of (encode a)).
Definition toy_from {A} `{Countable A} (b : bytes) : option A := decode (of_digits b).

Lemma toy_round {A} `{Countable A} (a : A) : exists b, toy_to a = Some b /\ toy_from b = Some a.
Proof. eexists. split; [done|]. unfold toy_from. by rewrite of_digits_of, decode_encode. Qed.
