(* ===== verification/Text.v ===== *)
(** Strings as the code handles them: the [str] operations of the parsers, on UTF-8
    bytes.  A character is the bytes that encode it. *)

From S2P Require Import Prelude.

(** [s.split_once(c)]. *)
Fixpoint split_once (c : byte) (s : bytes) : option (bytes * bytes) :=
  match s with
  | [] => None
  | b :: s =>
      if bool_decide (b = c) then Some ([], s)
      else '(l, r) ← split_once c s; Some (b :: l, r)
  end.

(** [s.strip_prefix(p)]. *)
Fixpoint strip_prefix (p s : bytes) : option bytes :=
  match p, s with
  | [], _ => Some s
  | b :: p, c :: s => if bool_decide (b = c) then strip_prefix p s else None
  | _ :: _, [] => None
  end.

(** [s.split(c)]. *)
Fixpoint split_on (c : byte) (s : bytes) : list bytes :=
  match s with
  | [] => [[]]
  | b :: s =>
      if bool_decide (b = c) then [] :: split_on c s
      else match split_on c s with
      | piece :: pieces => (b :: piece) :: pieces
      | [] => [[b]]
      end
  end.

(** [s.to_ascii_lowercase()] and [s.to_ascii_uppercase()]. *)
Definition to_ascii_lowercase (s : bytes) : bytes :=
  (fun b => if in_range x41 x5a b then byte_of_Z (bval b + 32) else b) <$> s.

Definition to_ascii_uppercase (s : bytes) : bytes :=
  (fun b => if is_ascii_lowercase b then byte_of_Z (bval b - 32) else b) <$> s.

Definition eq_ignore_ascii_case (a b : bytes) : bool := bool_decide (to_ascii_lowercase a = to_ascii_lowercase b).

(** [s.starts_with(p)] and [s.contains(c)]. *)
Definition starts_with (p s : bytes) : bool := match strip_prefix p s with Some _ => true | None => false end.
Definition contains (c : byte) (s : bytes) : bool := bool_decide (c ∈ s).

Definition strip_cr (s : bytes) : bytes :=
  match reverse s with
  | x0d :: r => reverse r
  | _ => s
  end.

(** [s.lines()]: a line ends at a line feed, with a carriage return before it dropped; a
    last line without one is kept as it is, and an empty one is not a line. *)
Fixpoint lines_of (pieces : list bytes) : list bytes :=
  match pieces with
  | [] => []
  | [last] => match last with [] => [] | _ => [last] end
  | piece :: pieces => strip_cr piece :: lines_of pieces
  end.

Definition lines (s : bytes) : list bytes := lines_of (split_on x0a s).

(** [char::is_ascii_whitespace]: without the vertical tab. *)
Definition is_ascii_whitespace (b : byte) : bool :=
  bool_decide (b = x20) || bool_decide (b = x09) || bool_decide (b = x0a) || bool_decide (b = x0c) || bool_decide (b = x0d).

(** [s.split_ascii_whitespace()]: the runs of other bytes. *)
Fixpoint words_go (cur s : bytes) : list bytes :=
  match s with
  | [] => match cur with [] => [] | _ => [reverse cur] end
  | b :: s =>
      if is_ascii_whitespace b
      then match cur with [] => words_go [] s | _ => reverse cur :: words_go [] s end
      else words_go (b :: cur) s
  end.

Definition split_ascii_whitespace (s : bytes) : list bytes := words_go [] s.

(** [s.split_once(|c| c.is_ascii_whitespace())]. *)
Fixpoint split_once_ws (s : bytes) : option (bytes * bytes) :=
  match s with
  | [] => None
  | b :: s => if is_ascii_whitespace b then Some ([], s) else '(l, r) ← split_once_ws s; Some (b :: l, r)
  end.

(** * Characters *)

(** [s.chars()], each as its bytes; the length of one is in its first byte. *)
Fixpoint chars_of (l : bytes) : list bytes :=
  match l with
  | [] => []
  | b :: l1 =>
      if (bval b <? 128)%Z then [b] :: chars_of l1
      else match l1 with
      | [] => [[b]]
      | c :: l2 =>
          if (bval b <? 0xe0)%Z then [b; c] :: chars_of l2
          else match l2 with
          | [] => [[b; c]]
          | d :: l3 =>
              if (bval b <? 0xf0)%Z then [b; c; d] :: chars_of l3
              else match l3 with
              | [] => [[b; c; d]]
              | e :: l4 => [b; c; d; e] :: chars_of l4
              end
          end
      end
  end.

(** * Facts *)

Lemma strip_prefix_app p s : strip_prefix p (p ++ s) = Some s.
Proof. induction p as [|b p IH]; simpl; [done|]. by rewrite bool_decide_eq_true_2. Qed.

Lemma strip_prefix_Some p s r : strip_prefix p s = Some r -> s = p ++ r.
Proof.
revert s. induction p as [|b p IH]; intros s; simpl; [by intros [= ->]|].
destruct s as [|c s]; [done|]. case_bool_decide as E; [|done]. subst. intros H. by rewrite (IH s H).
Qed.

Lemma split_once_app c a b : c ∉ a -> split_once c (a ++ c :: b) = Some (a, b).
Proof.
induction a as [|x a IH]; intros Ha; simpl; [by rewrite bool_decide_eq_true_2|].
apply not_elem_of_cons in Ha as [Hx Ha]. rewrite bool_decide_eq_false_2 by done. by rewrite IH.
Qed.

Lemma split_on_piece c a : c ∉ a -> split_on c a = [a].
Proof.
induction a as [|x a IH]; intros Ha; simpl; [done|]. apply not_elem_of_cons in Ha as [Hx Ha].
rewrite bool_decide_eq_false_2 by done. by rewrite IH.
Qed.

Lemma split_on_app c a b : c ∉ a -> split_on c (a ++ c :: b) = a :: split_on c b.
Proof.
induction a as [|x a IH]; intros Ha; simpl; [by rewrite bool_decide_eq_true_2|].
apply not_elem_of_cons in Ha as [Hx Ha]. rewrite bool_decide_eq_false_2 by done. by rewrite IH.
Qed.

(** ** Words *)

(** The words with a blank between them, [words.join] with a blank. *)
Fixpoint join_words (ws : list bytes) : bytes :=
  match ws with
  | [] => []
  | [w] => w
  | w :: ws => w ++ str " " ++ join_words ws
  end.

Lemma join_words_cons w w' ws : join_words (w :: w' :: ws) = w ++ x20 :: join_words (w' :: ws).
Proof. done. Qed.

(** A word: not empty and without ASCII whitespace. *)
Definition word (w : bytes) : Prop := w <> [] /\ forallb (fun b => negb (is_ascii_whitespace b)) w = true.

Lemma words_go_word cur w s : forallb (fun b => negb (is_ascii_whitespace b)) w = true -> words_go cur (w ++ s) = words_go (reverse w ++ cur) s.
Proof.
revert cur. induction w as [|b w IH]; intros cur Hw; [done|]. cbn [forallb] in Hw. apply andb_true_iff in Hw as [Hb Hw]. apply negb_true_iff in Hb.
cbn [app words_go]. rewrite Hb, IH by done. by rewrite reverse_cons, <- app_assoc.
Qed.

Lemma reverse_nonempty (w : bytes) : w <> [] -> exists b r, reverse w = b :: r.
Proof. intros H. destruct (reverse w) as [|b r] eqn:E; [|eauto]. apply (f_equal reverse) in E. by rewrite reverse_involutive in E. Qed.

Lemma words_join ws : Forall word ws -> split_ascii_whitespace (join_words ws) = ws.
Proof.
unfold split_ascii_whitespace. induction 1 as [|w ws [Hne Hw] Hws IH]; [done|]. destruct (reverse_nonempty w Hne) as (b & r & Er).
destruct ws as [|w' ws].
- cbn [join_words]. rewrite <- (app_nil_r w) at 1. rewrite words_go_word, app_nil_r by done. cbn [words_go]. rewrite Er, <- Er. by rewrite reverse_involutive.
- change (join_words (w :: w' :: ws)) with (w ++ str " " ++ join_words (w' :: ws)). rewrite words_go_word, app_nil_r by done.
  change (str " " ++ join_words (w' :: ws)) with (x20 :: join_words (w' :: ws)). cbn [words_go]. change (is_ascii_whitespace x20) with true. cbn iota.
  rewrite Er, <- Er, reverse_involutive, IH. done.
Qed.

(** Text that starts and ends with printable ASCII is trimmed. *)
Definition tidy (s : bytes) : Prop := match s with b :: _ => is_ascii_graphic b = true | [] => False end /\ exists b, last s = Some b /\ is_ascii_graphic b = true.

Lemma trim_tidy s : tidy s -> trim s = s.
Proof.
intros [Hh (l & Hl & Hg)]. destruct s as [|b s]; [done|]. unfold trim, trim_start.
rewrite (strip_while_none ws_strip) by (by apply ws_strip_graphic). unfold trim_end.
rewrite (strip_while_none ws_strip_rev), reverse_involutive; [done|]. apply last_Some in Hl as [r E]. rewrite E, reverse_app. cbn. by apply ws_strip_graphic.
Qed.

Lemma graphic_not_ws b : is_ascii_graphic b = true -> is_ascii_whitespace b = false.
Proof. intros Hb. revert Hb. revert b. apply (byte_forall (fun b => is_ascii_graphic b = true -> is_ascii_whitespace b = false)). vm_compute. reflexivity. Qed.

Lemma graphic_word w : w <> [] -> forallb is_ascii_graphic w = true -> word w.
Proof.
intros Hne Hw. split; [done|]. rewrite forallb_forall in *. intros b Hb. by rewrite graphic_not_ws by (by apply Hw).
Qed.

Lemma graphic_tidy w : w <> [] -> forallb is_ascii_graphic w = true -> tidy w.
Proof.
intros Hne Hw. rewrite forallb_forall in Hw. split; [destruct w; [done|]; apply Hw; by left|]. destruct (last w) as [b|] eqn:E; [|by apply last_None in E].
exists b. split; [done|]. apply Hw, list_elem_of_In. apply last_Some in E as [r ->]. set_solver.
Qed.

Lemma tidy_app a m b : tidy a -> tidy b -> tidy (a ++ m ++ b).
Proof.
intros [Ha _] [_ (l & Hl & Hg)]. destruct a as [|x a]; [done|]. split; [done|]. exists l. split; [|done]. rewrite !last_app, Hl. done.
Qed.

Lemma split_once_ws_word w r : forallb (fun b => negb (is_ascii_whitespace b)) w = true -> split_once_ws (w ++ x20 :: r) = Some (w, r).
Proof.
intros Hw. induction w as [|b w IH]; [done|]. cbn [forallb] in Hw. apply andb_true_iff in Hw as [Hb Hw]. apply negb_true_iff in Hb.
cbn [app split_once_ws]. rewrite Hb, IH by done. done.
Qed.

(** ** Splitting *)

Lemma split_once_none c s : c ∉ s -> split_once c s = None.
Proof.
induction s as [|b s IH]; intros H; [done|]. apply not_elem_of_cons in H as [Hb H]. cbn [split_once]. rewrite bool_decide_false by done. by rewrite IH.
Qed.

Lemma split_on_nonempty c s : split_on c s <> [].
Proof. destruct s as [|b s]; cbn [split_on]; [done|]. case_bool_decide; [done|]. by destruct (split_on c s). Qed.

Lemma split_on_concat c a b : split_on c (a ++ c :: b) = split_on c a ++ split_on c b.
Proof.
induction a as [|x a IH]; cbn [app split_on]; [by rewrite bool_decide_true|]. rewrite IH. case_bool_decide; [done|].
pose proof (split_on_nonempty c a). by destruct (split_on c a).
Qed.
