(* ===== verification/Error.v ===== *)
(** lightr-core's error type (crates/lightr-core/src/core/error.rs) and the
    [Result] type with its [?] operator, as a monad. *)

From S2P Require Import Prelude.

(** The part of [std::io::ErrorKind] the modelled code inspects or creates; an
    [std::io::Error] is its kind, its message is dropped. *)
Inductive ErrorKind :=
  | NotFoundKind
  | AlreadyExists
  | InvalidInput
  | InvalidData
  | Interrupted
  | NotADirectory
  | OtherKind.

#[export] Instance ErrorKind_eq_dec : EqDecision ErrorKind.
Proof. solve_decision. Defined.

(** A digest is its 32 bytes ([Digest.digest_wf] states the length). *)
Abbreviation digest := bytes.

Inductive LightrError :=
  | NotFound (d : digest)
  | RefNotFound (name : bytes)
  | Integrity (expected actual : digest)
  | TooLarge (size cap : Z)
  | InvalidRef (msg : bytes)
  | InvalidManifest (msg : bytes)
  | Unsupported (msg : bytes)
  | Registry (status : Z) (msg : bytes)
  | Io (kind : ErrorKind).

#[export] Instance LightrError_eq_dec : EqDecision LightrError.
Proof. solve_decision. Defined.

Inductive Result (A : Type) :=
  | Ok (a : A)
  | Err (e : LightrError).
Arguments Ok {A} a.
Arguments Err {A} e.

#[export] Instance Result_eq_dec {A} `{EqDecision A} : EqDecision (Result A).
Proof. solve_decision. Defined.

(** [e?] in a function returning [Result]. *)
#[export] Instance Result_mbind : MBind Result := fun A B f m =>
  match m with
  | Ok a => f a
  | Err e => Err e
  end.
#[export] Instance Result_mret : MRet Result := fun A => Ok.

(** [o.ok_or_else(|| e)]. *)
Definition ok_or {A} (o : option A) (e : LightrError) : Result A :=
  match o with
  | Some a => Ok a
  | None => Err e
  end.

Definition is_ok {A} (r : Result A) : bool :=
  match r with Ok _ => true | Err _ => false end.

Lemma Result_bind_ok {A B} (m : Result A) (f : A -> Result B) b :
  (m ≫= f) = Ok b <-> exists a, m = Ok a /\ f a = Ok b.
Proof.
destruct m as [a|e]; cbn; naive_solver.
Qed.
