(* ===== verification/Cursor.v ===== *)
(** The bounds-checked byte cursor of lightr's binary decoders: the [need!]
    macro of manifest.rs and refrecord.rs and the [Reader] of imgmeta_codec.rs.
    The cursor is the part of the input not read yet, so [cur + n > len] is
    [n > length rest]. *)

From S2P Require Import Prelude Error.

Definition Reader (A : Type) : Type := bytes -> Result (A * bytes).

#[export] Instance Reader_mret : MRet Reader := fun A a rest => Ok (a, rest).
#[export] Instance Reader_mbind : MBind Reader := fun A B f m rest =>
  match m rest with
  | Ok (a, rest) => f a rest
  | Err e => Err e
  end.

(** [need!(n)]: the next [n] bytes, or the decoder's truncation error. *)
Definition need (trunc : LightrError) (n : nat) : Reader bytes := fun rest =>
  if bool_decide (n <= length rest) then Ok (take n rest, drop n rest) else Err trunc.

Definition fail {A} (e : LightrError) : Reader A := fun _ => Err e.

Definition lift_result {A} (r : Result A) : Reader A := fun rest =>
  match r with
  | Ok a => Ok (a, rest)
  | Err e => Err e
  end.

(** [for _ in 0..n { v.push(m?) }]. *)
Fixpoint repeat_read {A} (n : nat) (m : Reader A) : Reader (list A) :=
  match n with
  | O => mret []
  | S n => a ← m; l ← repeat_read n m; mret (a :: l)
  end.

(** [std::str::from_utf8(b).map_err(..)?.to_string()]. *)
Definition utf8_string (e : LightrError) (b : bytes) : Reader bytes :=
  if utf8_valid b then mret b else fail e.

Section reader_laws.
Context {A B : Type}.
Implicit Types (m : Reader A) (k : A -> Reader B).

(** [m] reads exactly [p] and returns [a], whatever follows. *)
Definition reads {C} (m : Reader C) (p : bytes) (a : C) : Prop :=
  forall rest, m (p ++ rest) = Ok (a, rest).

(** A successful run is not changed by bytes after the ones it was given. *)
Definition stable {C} (m : Reader C) : Prop :=
  forall bs a rest ext, m bs = Ok (a, rest) -> m (bs ++ ext) = Ok (a, rest ++ ext).

Lemma reads_ret (a : A) : reads (mret a) [] a.
Proof. done. Qed.

Lemma reads_bind m k p q a b :
  reads m p a -> reads (k a) q b -> reads (m ≫= k) (p ++ q) b.
Proof.
intros Hm Hk rest. cbv [mbind Reader_mbind]. rewrite <- app_assoc, Hm. apply Hk.
Qed.

(** The last read of a decoder: nothing of the input is left to [k]. *)
Lemma reads_bind_nil m k p a b :
  reads m p a -> reads (k a) [] b -> reads (m ≫= k) p b.
Proof.
intros Hm Hk. rewrite <- (app_nil_r p). by eapply reads_bind.
Qed.

Lemma reads_need e n p : length p = n -> reads (need e n) p p.
Proof.
intros Hn rest. unfold need. rewrite length_app.
rewrite bool_decide_eq_true_2 by lia. rewrite take_app_length' by done.
rewrite drop_app_length' by done. done.
Qed.

Lemma reads_utf8 e b : utf8_valid b = true -> reads (utf8_string e b) [] b.
Proof.
intros H rest. unfold utf8_string. rewrite H. done.
Qed.

Lemma stable_ret (a : A) : stable (mret a : Reader A).
Proof.
intros bs a' rest ext H. cbv [mret Reader_mret] in *. by simplify_eq.
Qed.

Lemma stable_bind m k : stable m -> (forall a, stable (k a)) -> stable (m ≫= k).
Proof.
intros Hm Hk bs b rest ext. cbv [mbind Reader_mbind].
destruct (m bs) as [[a r]|e] eqn:E; [|done]. rewrite (Hm _ _ _ ext E). apply Hk.
Qed.

Lemma stable_need e n : stable (need e n).
Proof.
intros bs a rest ext. unfold need. case_bool_decide as Hn; [|done]. intros [= <- <-].
rewrite bool_decide_eq_true_2 by (rewrite length_app; lia).
rewrite take_app_le, drop_app_le by done. done.
Qed.

Lemma stable_fail e : stable (fail e : Reader A).
Proof. done. Qed.

Lemma stable_utf8 e b : stable (utf8_string e b).
Proof.
unfold utf8_string. case_match; [|done]. intros bs a rest ext [= <- <-]. done.
Qed.

End reader_laws.

Lemma stable_repeat {A} n (m : Reader A) : stable m -> stable (repeat_read n m).
Proof.
intros Hm. induction n as [|n IH]; simpl; [apply stable_ret|].
apply stable_bind; [done|]. intros a. apply stable_bind; [done|]. intros l. apply stable_ret.
Qed.

Lemma reads_repeat {A} (m : Reader A) (enc : A -> bytes) (P : A -> Prop) (l : list A) :
  (forall a, P a -> reads m (enc a) a) -> Forall P l ->
  reads (repeat_read (length l) m) (mjoin (enc <$> l)) l.
Proof.
intros Hm. induction 1 as [|a l Ha Hl IH]; [apply reads_ret|].
simpl. eapply reads_bind; [by apply Hm|]. eapply reads_bind_nil; [exact IH|]. apply reads_ret.
Qed.

#[export] Hint Resolve reads_ret reads_need reads_utf8 : lightr.
#[export] Hint Resolve stable_ret stable_bind stable_need stable_fail stable_utf8 stable_repeat : lightr.

(** Run a whole input through a reader: the decoder's trailing-bytes check. *)
Definition read_all {A} (m : Reader A) (trailing : LightrError) (bs : bytes) : Result A :=
  match m bs with
  | Ok (a, rest) => if bool_decide (rest = []) then Ok a else Err trailing
  | Err e => Err e
  end.

Lemma read_all_reads {A} (m : Reader A) t p a : reads m p a -> read_all m t p = Ok a.
Proof.
intros H. unfold read_all. specialize (H []). rewrite app_nil_r in H. by rewrite H.
Qed.

(** What a reader accepts in full, it accepts neither cut short nor extended. *)
Lemma read_all_exact {A} (m : Reader A) t p a ext :
  stable m -> read_all m t p = Ok a -> ext <> [] -> read_all m t (p ++ ext) = Err t.
Proof.
intros Hs H Hext. unfold read_all in *.
destruct (m p) as [[a' r]|e] eqn:E; [|done].
rewrite (Hs _ _ _ ext E). case_bool_decide as Hr; simplify_eq/=.
rewrite bool_decide_eq_false_2 by done. done.
Qed.

Lemma read_all_prefix {A} (m : Reader A) t p a q ext :
  stable m -> read_all m t p = Ok a -> p = q ++ ext -> ext <> [] ->
  forall b, read_all m t q <> Ok b.
Proof.
intros Hs H -> Hext b Hq. rewrite (read_all_exact m t q b ext Hs Hq Hext) in H. done.
Qed.

(** * What a reader's result satisfies *)

Definition ensures {A} (m : Reader A) (P : A -> Prop) : Prop :=
  forall bs a rest, m bs = Ok (a, rest) -> P a.

Lemma ensures_bind {A B} (m : Reader A) (k : A -> Reader B) P Q :
  ensures m P -> (forall a, P a -> ensures (k a) Q) -> ensures (m ≫= k) Q.
Proof.
intros Hm Hk bs b rest. cbv [mbind Reader_mbind].
destruct (m bs) as [[a r]|e] eqn:E; [|done]. apply Hk. by eapply Hm.
Qed.

Lemma ensures_ret {A} (a : A) (P : A -> Prop) : P a -> ensures (mret a) P.
Proof.
intros H bs a' rest. cbv [mret Reader_mret]. by intros [= <- _].
Qed.

Lemma ensures_fail {A} e (P : A -> Prop) : ensures (fail e) P.
Proof. done. Qed.

Lemma ensures_need e n : ensures (need e n) (fun b => length b = n).
Proof.
intros bs b rest. unfold need. case_bool_decide; [|done]. intros [= <- _].
rewrite length_take. lia.
Qed.

Lemma ensures_utf8 e b : ensures (utf8_string e b) (fun s => s = b /\ utf8_valid s = true).
Proof.
unfold utf8_string. intros bs s rest. destruct (utf8_valid b) eqn:E; [|done].
cbv [mret Reader_mret]. by intros [= <- _].
Qed.

Lemma ensures_repeat {A} n (m : Reader A) (P : A -> Prop) :
  ensures m P -> ensures (repeat_read n m) (fun l => length l = n /\ Forall P l).
Proof.
intros Hm. induction n as [|n IH]; simpl; [by apply ensures_ret|].
eapply ensures_bind; [exact Hm|]. intros a Ha. eapply ensures_bind; [exact IH|].
intros l [Hl Hf]. apply ensures_ret. simpl. split; [lia|by constructor].
Qed.

Lemma read_all_ensures {A} (m : Reader A) t bs a (P : A -> Prop) :
  ensures m P -> read_all m t bs = Ok a -> P a.
Proof.
intros Hm. unfold read_all. destruct (m bs) as [[a' r]|e] eqn:E; [|done].
case_bool_decide; [|done]. intros [= <-]. by eapply Hm.
Qed.

#[export] Hint Resolve ensures_need ensures_utf8 ensures_repeat : lightr.

(** Stability of a decoder written with these combinators. *)
Ltac solve_stable :=
  repeat first
    [ apply stable_bind
    | apply stable_ret | apply stable_need | apply stable_fail | apply stable_utf8
    | apply stable_repeat
    | solve [auto with lightr]
    | intros ?
    | case_bool_decide ].

(** * Inversion of a successful run *)

Lemma reader_bind_inv {A B} (m : Reader A) (k : A -> Reader B) bs b rest :
  (m ≫= k) bs = Ok (b, rest) ->
  exists a r, m bs = Ok (a, r) /\ k a r = Ok (b, rest).
Proof.
cbv [mbind Reader_mbind]. destruct (m bs) as [[a r]|e]; [eauto|done].
Qed.

Lemma need_inv e n bs p rest :
  need e n bs = Ok (p, rest) -> bs = p ++ rest /\ length p = n.
Proof.
unfold need. case_bool_decide; [|done]. intros [= <- <-].
rewrite take_drop, length_take. split; [done|lia].
Qed.

Lemma utf8_string_inv e b bs s rest :
  utf8_string e b bs = Ok (s, rest) -> s = b /\ rest = bs /\ utf8_valid b = true.
Proof.
unfold utf8_string. destruct (utf8_valid b); [|done]. cbv [mret Reader_mret]. by intros [= <- <-].
Qed.

(** Take a successful decoder run apart into its reads. *)
Ltac invert_run :=
  repeat match goal with
    | H : (_ ≫= _) _ = Ok (_, _) |- _ =>
        apply reader_bind_inv in H as (? & ? & ? & ?)
    | H : need _ _ _ = Ok (_, _) |- _ => apply need_inv in H as [-> ?]
    | H : utf8_string _ _ _ = Ok (_, _) |- _ => apply utf8_string_inv in H as (-> & -> & ?)
    | H : mret _ _ = Ok (_, _) |- _ => cbv [mret Reader_mret] in H; simplify_eq
    | H : fail _ _ = Ok _ |- _ => cbv [fail] in H; simplify_eq
    end.

(** * Length-prefixed strings

    [u16::from_le_bytes(need!(2)) as usize], that many bytes, and the UTF-8 test;
    written back as [&(s.len() as u16).to_le_bytes()] and the bytes, so a longer
    string has its length truncated to sixteen bits. *)

Definition need_str16 (trunc non_utf8 : LightrError) : Reader bytes :=
  len ← need trunc 2;
  b ← need trunc (Z.to_nat (le_val len));
  utf8_string non_utf8 b.

Definition put_str16 (s : bytes) : bytes := le_bytes 2 (Z.of_nat (length s)) ++ s.

Definition str16_wf (s : bytes) : Prop :=
  utf8_valid s = true /\ (Z.of_nat (length s) < 2 ^ 16)%Z.

#[export] Instance str16_wf_dec s : Decision (str16_wf s) := ltac:(unfold str16_wf; apply _).

(** A step that reads nothing. *)
Lemma reads_bind_none {A B} (m : Reader A) (k : A -> Reader B) q a b :
  reads m [] a -> reads (k a) q b -> reads (m ≫= k) q b.
Proof.
intros Hm Hk. change q with ([] ++ q). by eapply reads_bind.
Qed.

Lemma reads_str16 t e s : str16_wf s -> reads (need_str16 t e) (put_str16 s) s.
Proof.
intros [Hu Hl]. unfold need_str16, put_str16.
eapply reads_bind; [apply reads_need, length_le_bytes|].
rewrite le_val_u16 by (unfold u16; lia).
eapply reads_bind_nil; [apply reads_need; lia|]. by apply reads_utf8.
Qed.

Lemma stable_str16 t e : stable (need_str16 t e).
Proof.
unfold need_str16. solve_stable.
Qed.

#[export] Hint Resolve reads_str16 stable_str16 : lightr.

Lemma need_str16_inv t e bs s rest :
  need_str16 t e bs = Ok (s, rest) -> bs = put_str16 s ++ rest /\ str16_wf s.
Proof.
unfold need_str16, put_str16, str16_wf. intros H.
apply reader_bind_inv in H as (len & r1 & [-> Hlen]%need_inv & H).
apply reader_bind_inv in H as (b & r2 & [-> Hb]%need_inv & (-> & -> & Hu)%utf8_string_inv).
pose proof (le_val_range len) as Hr. rewrite Hlen in Hr.
rewrite Hb, Z2Nat.id, le_bytes_le_val', <- app_assoc by (done || lia).
split; [done|]. split; [done|]. change (256 ^ Z.of_nat 2)%Z with (2 ^ 16)%Z in Hr. lia.
Qed.

Lemma ensures_str16 t e : ensures (need_str16 t e) str16_wf.
Proof.
intros bs s rest H. by apply need_str16_inv in H as [_ ?].
Qed.
