(* ===== verification/Digest.v ===== *)
(** Content digests (crates/lightr-core/src/core/digest.rs): hashing of byte
    slices and readers, and the hexadecimal text form.  BLAKE3 is a third-party
    crate: it is the class [Blake3], with its documented laws in [Blake3Laws]. *)

From S2P Require Import Prelude Error.

(** The blake3 crate: the one-shot function and the incremental hasher. *)
Class Blake3 := {
  Hasher : Type;
  hasher_new : Hasher;
  hasher_update : Hasher -> bytes -> Hasher;
  hasher_finalize : Hasher -> digest;
  blake3_hash : bytes -> digest;
}.

(** What the crate documents: 32-byte outputs, and an incremental hash equal to
    the hash of the concatenated input. *)
Class Blake3Laws (B : Blake3) : Prop := {
  blake3_length : forall b, length (blake3_hash b) = 32;
  blake3_stream : forall chunks,
    hasher_finalize (foldl hasher_update hasher_new chunks) = blake3_hash (mjoin chunks);
}.

(** A [[u8; 32]]. *)
Definition digest_wf (d : digest) : Prop := length d = 32.

#[export] Instance digest_wf_dec d : Decision (digest_wf d) := ltac:(unfold digest_wf; apply _).

(** An executable stand-in used by the witnesses: the first 31 bytes, padded,
    and the length. It satisfies the laws; it is no cryptographic hash. *)
Definition toy_hash (b : bytes) : digest :=
  byte_of_Z (Z.of_nat (length b)) :: take 31 (b ++ replicate 31 x00).

#[export] Instance toy_blake3 : Blake3 := {|
  Hasher := bytes;
  hasher_new := [];
  hasher_update := fun h b => h ++ b;
  hasher_finalize := toy_hash;
  blake3_hash := toy_hash;
|}.

Lemma foldl_app_mjoin (h : bytes) (chunks : list bytes) :
  foldl (fun h b => h ++ b) h chunks = h ++ mjoin chunks.
Proof.
revert h. induction chunks as [|c cs IH]; intros h; simpl; [by rewrite app_nil_r|].
rewrite IH, <- app_assoc. done.
Qed.

#[export] Instance toy_blake3_laws : Blake3Laws toy_blake3.
Proof.
split.
- intros b. cbn [blake3_hash toy_blake3]. unfold toy_hash. rewrite length_cons, length_take, length_app, length_replicate. lia.
- intros chunks. cbn [hasher_finalize hasher_update hasher_new blake3_hash toy_blake3].
  rewrite foldl_app_mjoin. done.
Qed.

(** Another stand-in, with no collision on a given list of inputs, for the
    witnesses of theorems that assume the hash separates some contents. *)
Fixpoint pin_index (b : bytes) (pins : list bytes) : option nat :=
  match pins with
  | [] => None
  | p :: pins => if bool_decide (b = p) then Some 0 else S <$> pin_index b pins
  end.

Definition pinned_hash (pins : list bytes) (b : bytes) : digest :=
  match pin_index b pins with
  | Some i => x01 :: le_bytes 31 (Z.of_nat i)
  | None => x00 :: take 31 (b ++ replicate 31 x00)
  end.

Definition pinned_blake3 (pins : list bytes) : Blake3 := {|
  Hasher := bytes;
  hasher_new := [];
  hasher_update := fun h b => h ++ b;
  hasher_finalize := pinned_hash pins;
  blake3_hash := pinned_hash pins;
|}.

Lemma pinned_blake3_laws pins : Blake3Laws (pinned_blake3 pins).
Proof.
split.
- intros b. cbn [blake3_hash pinned_blake3]. unfold pinned_hash. case_match.
  + by rewrite length_cons, length_le_bytes.
  + rewrite length_cons, length_take, length_app, length_replicate. lia.
- intros chunks. cbn [hasher_finalize hasher_update hasher_new blake3_hash pinned_blake3].
  rewrite foldl_app_mjoin. done.
Qed.

Lemma pin_index_inj pins b c i : pin_index b pins = Some i -> pin_index c pins = Some i -> b = c.
Proof.
revert i. induction pins as [|p pins IH]; simpl; [done|]. intros i.
case_bool_decide; case_bool_decide; [congruence| | |].
- intros [= <-]. by destruct (pin_index c pins).
- destruct (pin_index b pins); simpl; [by intros [= <-]|done].
- destruct (pin_index b pins) as [j|], (pin_index c pins) as [k|]; simpl; try done.
  intros [= <-] [= ->]. by apply (IH j).
Qed.

Lemma pin_index_lt pins b i : pin_index b pins = Some i -> i < length pins.
Proof.
revert i. induction pins as [|p pins IH]; simpl; [done|]. intros i. case_bool_decide; [intros [= <-]; lia|].
destruct (pin_index b pins) as [j|]; [|done]. intros [= <-]. specialize (IH j eq_refl). lia.
Qed.

Lemma pin_index_elem pins b : b ∈ pins -> is_Some (pin_index b pins).
Proof.
induction pins as [|p pins IH]; simpl; [set_solver|]. rewrite elem_of_cons.
case_bool_decide; [eauto|]. intros [?|[i ->]%IH]; [done|]. eauto.
Qed.

Lemma pinned_inj pins b c :
  (Z.of_nat (length pins) < 2 ^ 64)%Z -> b ∈ pins -> pinned_hash pins c = pinned_hash pins b -> c = b.
Proof.
intros Hp [i Hi]%pin_index_elem. unfold pinned_hash. rewrite Hi.
destruct (pin_index c pins) as [j|] eqn:Hj; [|discriminate]. intros E.
apply (f_equal (fun l => le_val (tail l))) in E. cbn [tail] in E. rewrite !le_val_le_bytes in E.
apply pin_index_lt in Hi as Hi', Hj as Hj'.
assert (2 ^ 64 <= 256 ^ Z.of_nat 31)%Z as Hbig by (vm_compute; congruence).
rewrite !Z.mod_small in E by lia. assert (j = i) as -> by lia. by eapply pin_index_inj.
Qed.

(** * Hexadecimal *)

Definition hex_digit (n : Z) : byte :=
  if (n <? 10)%Z then byte_of_Z (48 + n) else byte_of_Z (87 + n).

(** [format!("{:02x}", b)]. *)
Definition hex_byte (b : byte) : bytes := [hex_digit (bval b / 16); hex_digit (bval b mod 16)].

(** [Digest::to_hex]. *)
Definition to_hex (d : digest) : bytes := mjoin (hex_byte <$> d).

Definition hex_nibble (b : byte) : option Z :=
  if in_range x30 x39 b then Some (bval b - 48)%Z
  else if in_range x61 x66 b then Some (bval b - 97 + 10)%Z
  else if in_range x41 x46 b then Some (bval b - 65 + 10)%Z
  else None.

Fixpoint hex_pairs (s : bytes) : option bytes :=
  match s with
  | [] => Some []
  | [_] => None
  | a :: b :: s =>
      hi ← hex_nibble a;
      lo ← hex_nibble b;
      r ← hex_pairs s;
      Some (byte_of_Z (Z.lor (Z.shiftl hi 4) lo) :: r)
  end.

(** [Digest::from_hex]: the length test, then the two nibbles of each byte. *)
Definition from_hex (s : bytes) : Result digest :=
  let bad := InvalidManifest (str "invalid digest hex: " ++ s) in
  if bool_decide (length s = 64) then ok_or (hex_pairs s) bad else Err bad.

Lemma hex_byte_inv (b : byte) (s : bytes) :
  hex_pairs (hex_byte b ++ s) = r ← hex_pairs s; Some (b :: r).
Proof.
unfold hex_byte. cbn [app hex_pairs].
assert (hex_nibble (hex_digit (bval b / 16)) = Some (bval b / 16)%Z) as ->
  by (byte_exhaust b).
assert (hex_nibble (hex_digit (bval b mod 16)) = Some (bval b mod 16)%Z) as ->
  by (byte_exhaust b).
cbn [mbind option_bind].
assert (byte_of_Z (Z.lor (Z.shiftl (bval b / 16) 4) (bval b mod 16)) = b) as ->
  by (byte_exhaust b).
done.
Qed.

Lemma length_to_hex d : length (to_hex d) = 2 * length d.
Proof.
unfold to_hex. induction d as [|b d IH]; [done|]. rewrite join_fmap_cons, length_app, IH. simpl. lia.
Qed.

Lemma hex_pairs_to_hex d : hex_pairs (to_hex d) = Some d.
Proof.
unfold to_hex. induction d as [|b d IH]; [done|].
rewrite join_fmap_cons, hex_byte_inv, IH. done.
Qed.

Lemma from_hex_to_hex d : digest_wf d -> from_hex (to_hex d) = Ok d.
Proof.
intros H. unfold from_hex, digest_wf in *. rewrite length_to_hex, H, hex_pairs_to_hex. done.
Qed.

#[export] Instance to_hex_inj : Inj (=) (=) to_hex.
Proof.
intros d1 d2 E. pose proof (hex_pairs_to_hex d1) as H1. rewrite E, hex_pairs_to_hex in H1.
congruence.
Qed.

Lemma hex_pairs_length s d : hex_pairs s = Some d -> length s = 2 * length d.
Proof.
revert d. induction s as [s IH] using (induction_ltof1 _ (@length byte)); unfold ltof in IH.
intros d H. destruct s as [|a [|b s]]; simpl in H; simplify_eq; [done|].
destruct (hex_nibble a), (hex_nibble b); simplify_eq/=.
destruct (hex_pairs s) as [r|] eqn:E; simplify_eq/=.
apply IH in E; simpl; lia.
Qed.

Lemma from_hex_wf s d : from_hex s = Ok d -> digest_wf d.
Proof.
unfold from_hex, digest_wf. case_bool_decide as Hl; [|done].
destruct (hex_pairs s) as [r|] eqn:E; simpl; [|done]. intros [= ->].
apply hex_pairs_length in E. lia.
Qed.

(** The ASCII lower-case letters and digits are the only bytes [to_hex] writes. *)
Lemma to_hex_chars d :
  Forall (fun b => is_ascii_digit b = true \/ is_ascii_lowercase b = true) (to_hex d).
Proof.
unfold to_hex. induction d as [|b d IH]; [constructor|]. rewrite join_fmap_cons.
constructor; [byte_exhaust b|]. constructor; [byte_exhaust b|done].
Qed.

(** Lower-casing of ASCII, for the statement of what [from_hex] accepts. *)
Definition ascii_lower (b : byte) : byte :=
  if is_ascii_uppercase b then byte_of_Z (bval b + 32) else b.

Lemma hex_nibble_digit a n : hex_nibble a = Some n -> hex_digit n = ascii_lower a /\ (0 <= n < 16)%Z.
Proof.
intros H. assert (match hex_nibble a with
  | Some n => bool_decide (hex_digit n = ascii_lower a /\ (0 <= n < 16)%Z)
  | None => true end = true) as Ha by (clear H; byte_exhaust a).
rewrite H, bool_decide_eq_true in Ha. done.
Qed.

Lemma hex_byte_nibbles hi lo :
  (0 <= hi < 16)%Z -> (0 <= lo < 16)%Z ->
  hex_byte (byte_of_Z (Z.lor (Z.shiftl hi 4) lo)) = [hex_digit hi; hex_digit lo].
Proof.
intros Hh Hl. unfold hex_byte.
assert (Z.lor (Z.shiftl hi 4) lo = hi * 16 + lo)%Z as ->.
{ rewrite Z.shiftl_mul_pow2 by lia. change (2 ^ 4)%Z with 16%Z.
  rewrite <- Z.add_lor_land.
  assert (Z.land (hi * 16) lo = 0)%Z as ->; [|lia].
  apply Z.bits_inj'. intros k Hk. rewrite Z.land_spec, Z.bits_0.
  destruct (decide (k < 4)%Z) as [Hk4|Hk4].
  - change 16%Z with (2 ^ 4)%Z. rewrite Z.mul_pow2_bits_low by lia. done.
  - rewrite (Z.bits_above_log2 lo k), andb_false_r; [done|lia|].
    destruct (decide (lo = 0)%Z) as [->|]; [simpl; lia|].
    apply Z.log2_lt_pow2; [lia|]. apply Z.lt_le_trans with (2 ^ 4)%Z; [simpl; lia|].
    apply Z.pow_le_mono_r; lia. }
rewrite bval_byte_of_Z, (Z.mod_small (hi * 16 + lo)) by lia.
replace ((hi * 16 + lo) / 16)%Z with hi
  by (rewrite Z.div_add_l by lia; rewrite (Z.div_small lo) by lia; lia).
replace ((hi * 16 + lo) mod 16)%Z with lo
  by (rewrite Z.add_comm, Z.mod_add by lia; rewrite Z.mod_small by lia; lia).
done.
Qed.

Lemma to_hex_hex_pairs s d : hex_pairs s = Some d -> to_hex d = ascii_lower <$> s.
Proof.
revert d. induction s as [s IH] using (induction_ltof1 _ (@length byte)); unfold ltof in IH.
intros d H. destruct s as [|a [|b s]]; simpl in H; simplify_eq; [done|].
destruct (hex_nibble a) as [hi|] eqn:Ea; [|done].
destruct (hex_nibble b) as [lo|] eqn:Eb; simplify_eq/=.
destruct (hex_pairs s) as [r|] eqn:E; simplify_eq/=.
apply hex_nibble_digit in Ea as [Ea Ha], Eb as [Eb Hb].
unfold to_hex. rewrite join_fmap_cons, hex_byte_nibbles, Ea, Eb by done.
simpl. do 2 f_equal. apply IH; [simpl; lia|done].
Qed.

Lemma hex_pairs_lower s : hex_pairs (ascii_lower <$> s) = hex_pairs s.
Proof.
induction s as [s IH] using (induction_ltof1 _ (@length byte)); unfold ltof in IH.
destruct s as [|a [|b s]]; [done..|]. rewrite !fmap_cons. cbn [hex_pairs].
assert (forall c, hex_nibble (ascii_lower c) = hex_nibble c) as -> by (intros c; byte_exhaust c).
assert (forall c, hex_nibble (ascii_lower c) = hex_nibble c) as -> by (intros c; byte_exhaust c).
rewrite IH by (simpl; lia). done.
Qed.

(** * Hashing *)

Section hashing.
Context `{B3 : Blake3}.

(** [Digest::of_bytes]. *)
Definition of_bytes (data : bytes) : digest := blake3_hash data.

(** One [read] of an [impl Read]: the bytes it delivers or its error. *)
Inductive read_event :=
  | Chunk (b : bytes)
  | ReadErr (k : ErrorKind).

(** The loop of [of_reader_checked]. [ck i] is the result of the [i]-th call of
    the checkpoint; a reader with no event left reports the end of the file. *)
Fixpoint reader_loop (ck : nat -> option ErrorKind) (i : nat) (h : Hasher) (len : Z)
    (events : list read_event) : Result (digest * Z) :=
  match ck i with
  | Some k => Err (Io k)
  | None =>
      match events with
      | [] =>
          match ck (S i) with
          | Some k => Err (Io k)
          | None => Ok (hasher_finalize h, len)
          end
      | ReadErr k :: events =>
          if bool_decide (k = Interrupted) then reader_loop ck (S i) h len events
          else Err (Io k)
      | Chunk b :: events =>
          match ck (S i) with
          | Some k => Err (Io k)
          | None =>
              if bool_decide (length b = 0) then Ok (hasher_finalize h, len)
              else if bool_decide (65536 < Z.of_nat (length b))%Z then Err (Io InvalidData)
              else match checked_add len (Z.of_nat (length b)) with
              | None => Err (Io InvalidData)
              | Some len => reader_loop ck (S (S i)) (hasher_update h b) len events
              end
          end
      end
  end.

Definition of_reader_checked (events : list read_event) (ck : nat -> option ErrorKind) :
    Result (digest * Z) :=
  reader_loop ck 0 hasher_new 0 events.

(** [Digest::of_reader]: a checkpoint that always succeeds. *)
Definition of_reader (events : list read_event) : Result (digest * Z) :=
  of_reader_checked events (fun _ => None).

(** The chunks the reader delivers before its end of file. *)
Fixpoint stream_chunks (events : list read_event) : list bytes :=
  match events with
  | [] => []
  | ReadErr _ :: events => stream_chunks events
  | Chunk b :: events => if bool_decide (length b = 0) then [] else b :: stream_chunks events
  end.

(** A reader that only ever fails with [Interrupted] and respects its buffer. *)
Definition reader_behaves (events : list read_event) : Prop :=
  Forall (fun e => match e with
    | Chunk b => (Z.of_nat (length b) <= 65536)%Z
    | ReadErr k => k = Interrupted
    end) events.

Definition stream_data (events : list read_event) : bytes := mjoin (stream_chunks events).

Lemma reader_loop_ok ck h len events i :
  (forall j, ck j = None) -> reader_behaves events ->
  (0 <= len)%Z -> (len + Z.of_nat (length (stream_data events)) <= U64_MAX)%Z ->
  reader_loop ck i h len events =
    Ok (hasher_finalize (foldl hasher_update h (stream_chunks events)),
        (len + Z.of_nat (length (stream_data events)))%Z).
Proof.
intros Hck Hb. revert i h len. unfold stream_data.
induction Hb as [|[b|k] events He Hb IH]; intros i h len H0 Hmax; cbn [reader_loop stream_chunks];
  rewrite !Hck.
- simpl. rewrite Z.add_0_r. done.
- case_bool_decide as Hl; [simpl; rewrite Z.add_0_r; done|].
  rewrite bool_decide_eq_false_2 by lia.
  cbn [stream_chunks] in Hmax. rewrite bool_decide_eq_false_2 in Hmax by done.
  rewrite join_cons, length_app in *.
  unfold checked_add. destruct (len + Z.of_nat (length b) <=? U64_MAX)%Z eqn:E; [|lia].
  rewrite IH by lia. do 2 f_equal. lia.
- rewrite bool_decide_eq_true_2 by done. apply IH; done.
Qed.

End hashing.

(** * Properties *)

Section properties.
Context `{B3 : Blake3} `{BL : !Blake3Laws B3}.

(** Hashing a reader equals hashing the bytes it delivers, with their exact
    count, however the stream is cut into reads and whatever reads are
    interrupted and retried, as long as the total fits a [u64]. *)
Theorem of_reader_hashes_stream (events : list read_event) :
  reader_behaves events ->
  (Z.of_nat (length (stream_data events)) <= U64_MAX)%Z ->
  of_reader events =
    Ok (of_bytes (stream_data events), Z.of_nat (length (stream_data events))).
Proof.
intros Hb Hmax. unfold of_reader, of_reader_checked, of_bytes.
rewrite reader_loop_ok by (done || lia). rewrite blake3_stream. done.
Qed.

End properties.

Lemma of_reader_hashes_stream_witness :
  of_reader [Chunk (str "ab"); ReadErr Interrupted; Chunk (str "c"); Chunk []; Chunk (str "z")] =
    Ok (toy_hash (str "abc"), 3%Z).
Proof.
rewrite (of_reader_hashes_stream
  [Chunk (str "ab"); ReadErr Interrupted; Chunk (str "c"); Chunk []; Chunk (str "z")]).
- vm_compute. reflexivity.
- repeat constructor; vm_compute; congruence.
- vm_compute. congruence.
Defined.

(** [to_hex] and [from_hex] are inverse: every digest survives the trip
    through its 64-character text, and [from_hex] accepts exactly the texts that
    are some digest's, up to the case of the letters. *)
Theorem hex_roundtrip (d : digest) (s : bytes) :
  (digest_wf d -> from_hex (to_hex d) = Ok d) /\
  (from_hex s = Ok d <-> digest_wf d /\ to_hex d = ascii_lower <$> s).
Proof.
split; [apply from_hex_to_hex|]. split.
- intros H. split; [by eapply from_hex_wf|]. unfold from_hex in H.
  case_bool_decide; [|done]. destruct (hex_pairs s) as [r|] eqn:E; simplify_eq/=.
  by apply to_hex_hex_pairs.
- intros [Hd E]. unfold from_hex.
  assert (length s = 64) as Hs
    by (rewrite <- (length_fmap ascii_lower s), <- E, length_to_hex, Hd; done).
  rewrite bool_decide_eq_true_2, <- hex_pairs_lower, <- E, hex_pairs_to_hex by done. done.
Qed.
