(* ===== verification/Manifest.v ===== *)
(** The LMF1 tree manifest (crates/lightr-core/src/core/manifest.rs): entries,
    the little-endian encoding and its decoder, and the manifest digest. *)

From S2P Require Import Prelude Error Cursor Digest.

Definition MANIFEST_MAGIC : bytes := str "LMF1".

Inductive Entry :=
  | File (path : bytes) (mode size : Z) (digest : digest)
  | Symlink (path target : bytes)
  | Dir (path : bytes).

#[export] Instance Entry_eq_dec : EqDecision Entry.
Proof. solve_decision. Defined.

(** [Entry::path]. *)
Definition entry_path (e : Entry) : bytes :=
  match e with
  | File path _ _ _ => path
  | Symlink path _ => path
  | Dir path => path
  end.

Definition KIND_FILE : byte := x00.
Definition KIND_SYMLINK : byte := x01.
Definition KIND_DIR : byte := x02.

Record Manifest := mkManifest {
  version : Z;
  total_size : Z;
  entries : list Entry;
}.

#[export] Instance Manifest_eq_dec : EqDecision Manifest.
Proof. solve_decision. Defined.

Definition encode_entry (e : Entry) : bytes :=
  match e with
  | File path mode size digest =>
      [KIND_FILE] ++ le_bytes 4 mode ++ le_bytes 8 size ++ digest ++ put_str16 path
  | Symlink path target =>
      [KIND_SYMLINK] ++ le_bytes 4 0 ++ le_bytes 8 0 ++ replicate 32 x00 ++
      put_str16 path ++ put_str16 target
  | Dir path =>
      [KIND_DIR] ++ le_bytes 4 0 ++ le_bytes 8 0 ++ replicate 32 x00 ++ put_str16 path
  end.

(** [Manifest::encode] (its path-order assertion is compiled in debug builds
    only). *)
Definition encode (m : Manifest) : bytes :=
  MANIFEST_MAGIC ++ le_bytes 4 (version m) ++ le_bytes 8 (total_size m) ++
  le_bytes 4 (Z.of_nat (length (entries m))) ++ mjoin (encode_entry <$> entries m).

Definition truncated : LightrError := InvalidManifest (str "truncated manifest").

(** [uN::from_le_bytes(need!(n).try_into().unwrap())]. *)
Definition need_le (n : nat) : Reader Z := b ← need truncated n; mret (le_val b).

(** One iteration of the entry loop of [Manifest::decode]. *)
Definition decode_entry : Reader Entry :=
  kind ← need truncated 1;
  mode ← need_le 4;
  size ← need_le 8;
  digest ← need truncated 32;
  path ← need_str16 truncated (InvalidManifest (str "non-UTF8 path in manifest"));
  if bool_decide (kind = [KIND_FILE]) then mret (File path mode size digest)
  else if bool_decide (kind = [KIND_SYMLINK]) then
    target ← need_str16 truncated
      (InvalidManifest (str "non-UTF8 symlink target in manifest"));
    mret (Symlink path target)
  else if bool_decide (kind = [KIND_DIR]) then mret (Dir path)
  else fail (InvalidManifest (str "unknown entry kind: " ++ dec (le_val kind))).

Definition decode_body : Reader Manifest :=
  magic ← need truncated 4;
  if bool_decide (magic = MANIFEST_MAGIC) then
    version ← need_le 4;
    if bool_decide (version = 1%Z) then
      total_size ← need_le 8;
      entry_count ← need_le 4;
      entries ← repeat_read (Z.to_nat entry_count) decode_entry;
      mret (mkManifest version total_size entries)
    else fail (InvalidManifest (str "unsupported manifest version: " ++ dec version))
  else fail (InvalidManifest (str "bad magic — expected LMF1")).

(** [Manifest::decode]: the fields, then the check for trailing bytes. *)
Definition decode (bs : bytes) : Result Manifest :=
  read_all decode_body (InvalidManifest (str "trailing bytes in manifest")) bs.

(** [Manifest::digest]. *)
Definition manifest_digest `{Blake3} (m : Manifest) : digest := of_bytes (encode m).

(** * Well-formedness: what the Rust types and the encoding's widths allow *)

Definition entry_wf (e : Entry) : Prop :=
  match e with
  | File path mode size d => str16_wf path /\ u32 mode /\ u64 size /\ digest_wf d
  | Symlink path target => str16_wf path /\ str16_wf target
  | Dir path => str16_wf path
  end.

Definition manifest_wf (m : Manifest) : Prop :=
  version m = 1%Z /\ u64 (total_size m) /\
  u32 (Z.of_nat (length (entries m))) /\ Forall entry_wf (entries m).

#[export] Instance entry_wf_dec e : Decision (entry_wf e).
Proof. destruct e; simpl; apply _. Defined.
#[export] Instance manifest_wf_dec m : Decision (manifest_wf m) :=
  ltac:(unfold manifest_wf; apply _).

(** * Reading lemmas *)

Lemma reads_need_le n z :
  (0 <= z < 256 ^ Z.of_nat n)%Z -> reads (need_le n) (le_bytes n z) z.
Proof.
intros Hz. unfold need_le. eapply reads_bind_nil; [apply reads_need, length_le_bytes|].
rewrite le_val_le_bytes, Z.mod_small by done. apply reads_ret.
Qed.

(** A header field: [n] bytes read as one integer. *)
Lemma reads_le_bind {A} n z (k : Z -> Reader A) q b :
  (0 <= z < 256 ^ Z.of_nat n)%Z -> reads (k z) q b ->
  reads (need_le n ≫= k) (le_bytes n z ++ q) b.
Proof.
intros Hz Hk. eapply reads_bind; [by apply reads_need_le|done].
Qed.

Lemma reads_need_bind {A} e n p (k : bytes -> Reader A) q b :
  length p = n -> reads (k p) q b -> reads (need e n ≫= k) (p ++ q) b.
Proof.
intros Hz Hk. eapply reads_bind; [by apply reads_need|done].
Qed.

Lemma reads_decode_entry (e : Entry) : entry_wf e -> reads decode_entry (encode_entry e) e.
Proof.
unfold decode_entry.
destruct e as [path mode size d|path target|path]; cbn [entry_wf encode_entry]; intros Hwf;
  (apply reads_need_bind; [done|]).
- destruct Hwf as (Hp & Hm & Hs & Hd).
  apply reads_le_bind; [exact Hm|]. apply reads_le_bind; [exact Hs|].
  apply reads_need_bind; [exact Hd|].
  eapply reads_bind_nil; [by apply reads_str16|apply reads_ret].
- destruct Hwf as (Hp & Ht).
  do 2 (apply reads_le_bind; [lia|]). apply reads_need_bind; [done|].
  eapply reads_bind; [by apply reads_str16|].
  eapply reads_bind_nil; [by apply reads_str16|apply reads_ret].
- do 2 (apply reads_le_bind; [lia|]). apply reads_need_bind; [done|].
  eapply reads_bind_nil; [by apply reads_str16|apply reads_ret].
Qed.

Lemma manifest_reads_decode_body (m : Manifest) : manifest_wf m -> reads decode_body (encode m) m.
Proof.
destruct m as [v ts es]. intros (Hv & Hts & Hn & Hes). cbn [version total_size entries] in *. subst v.
unfold decode_body, encode. cbn [version total_size entries].
apply reads_need_bind; [done|]. rewrite bool_decide_eq_true_2 by done.
apply reads_le_bind; [lia|]. rewrite bool_decide_eq_true_2 by done.
apply reads_le_bind; [exact Hts|]. apply reads_le_bind; [exact Hn|].
eapply reads_bind_nil; [|apply reads_ret]. rewrite Nat2Z.id.
apply (reads_repeat _ _ entry_wf); [apply reads_decode_entry|done].
Qed.

Lemma manifest_decode_encode (m : Manifest) : manifest_wf m -> decode (encode m) = Ok m.
Proof.
intros H. apply read_all_reads. by apply manifest_reads_decode_body.
Qed.

Lemma stable_need_le n : stable (need_le n).
Proof.
unfold need_le. auto with lightr.
Qed.

#[export] Hint Resolve stable_need_le : lightr.

Lemma stable_decode_entry : stable decode_entry.
Proof.
unfold decode_entry. solve_stable.
Qed.

#[export] Hint Resolve stable_decode_entry : lightr.

Lemma manifest_stable_decode_body : stable decode_body.
Proof.
unfold decode_body. solve_stable.
Qed.

Lemma ensures_need_le n : ensures (need_le n) (fun z => (0 <= z < 256 ^ Z.of_nat n)%Z).
Proof.
unfold need_le. eapply ensures_bind; [apply ensures_need|]. intros b <-.
apply ensures_ret, le_val_range.
Qed.

Lemma ensures_decode_entry : ensures decode_entry entry_wf.
Proof.
unfold decode_entry.
eapply ensures_bind; [apply ensures_need|]. intros kind Hkind.
eapply ensures_bind; [apply ensures_need_le|]. intros mode Hmode.
eapply ensures_bind; [apply ensures_need_le|]. intros size Hsize.
eapply ensures_bind; [apply ensures_need|]. intros d Hd.
eapply ensures_bind; [apply ensures_str16|]. intros path Hpath.
case_bool_decide; [by apply ensures_ret|].
case_bool_decide; [eapply ensures_bind; [apply ensures_str16|]; intros target Htarget; by apply ensures_ret|].
case_bool_decide; [by apply ensures_ret|apply ensures_fail].
Qed.

Lemma ensures_decode_body : ensures decode_body manifest_wf.
Proof.
unfold decode_body.
eapply ensures_bind; [apply ensures_need|]. intros magic _.
case_bool_decide; [|apply ensures_fail].
eapply ensures_bind; [apply ensures_need_le|]. intros v _.
case_bool_decide as Hv; [|apply ensures_fail].
eapply ensures_bind; [apply ensures_need_le|]. intros ts Hts.
eapply ensures_bind; [apply ensures_need_le|]. intros n Hn.
eapply ensures_bind; [apply ensures_repeat, ensures_decode_entry|]. intros es [Hl Hes].
apply ensures_ret. split; [done|]. split; [exact Hts|]. split; [|done].
cbn [entries]. cbn beta in *. rewrite Hl, Z2Nat.id by lia. exact Hn.
Qed.

Lemma decode_wf bs m : decode bs = Ok m -> manifest_wf m.
Proof.
apply read_all_ensures, ensures_decode_body.
Qed.

Lemma encode_inj m1 m2 :
  manifest_wf m1 -> manifest_wf m2 -> encode m1 = encode m2 -> m1 = m2.
Proof.
intros H1%manifest_decode_encode H2%manifest_decode_encode E. rewrite E in H1. congruence.
Qed.

(** * Properties *)

(** An LMF1 manifest survives encoding and decoding: every manifest the Rust
    types and the format's 16-bit string lengths can hold decodes back to
    itself, files, symlinks and empty directories alike. *)
Theorem manifest_roundtrip (m : Manifest) :
  manifest_wf m -> decode (encode m) = Ok m.
Proof.
apply manifest_decode_encode.
Qed.

Definition sample_manifest : Manifest :=
  mkManifest 1 7 [Dir (str "a"); File (str "b/c") 420 7 (toy_hash (str "content"));
                  Symlink (str "z") (str "../b")].

Lemma manifest_roundtrip_witness : decode (encode sample_manifest) = Ok sample_manifest.
Proof.
apply (manifest_roundtrip sample_manifest). apply (bool_decide_eq_true_1 _). vm_compute. reflexivity.
Defined.

(** Whatever byte string the decoder accepts, the manifest it returns is
    well formed (version 1, 32-byte digests, UTF-8 paths within their length
    field) and encodes to bytes that decode to the same manifest. *)
Theorem manifest_decode_sound (bs : bytes) (m : Manifest) :
  decode bs = Ok m -> manifest_wf m /\ decode (encode m) = Ok m.
Proof.
intros H%decode_wf. auto using manifest_decode_encode.
Qed.

Lemma manifest_decode_sound_witness :
  manifest_wf sample_manifest /\ decode (encode sample_manifest) = Ok sample_manifest.
Proof.
apply (manifest_decode_sound (encode sample_manifest)). vm_compute. reflexivity.
Defined.

(** The encoding is self-delimiting and the decoder is exact: of a byte
    string it accepts, no proper prefix is accepted (a truncated manifest is an
    error) and every extension is rejected as trailing bytes. *)
Theorem manifest_decode_exact (bs ext : bytes) (m : Manifest) :
  decode bs = Ok m -> ext <> [] ->
  decode (bs ++ ext) = Err (InvalidManifest (str "trailing bytes in manifest")) /\
  (forall q m', bs = q ++ ext -> decode q <> Ok m').
Proof.
intros H Hext. split.
- by eapply read_all_exact; [apply manifest_stable_decode_body|exact H|].
- intros q m' E. by eapply read_all_prefix; [apply manifest_stable_decode_body|exact H|exact E|].
Qed.

Lemma manifest_decode_exact_witness :
  decode (encode sample_manifest ++ [x00]) =
    Err (InvalidManifest (str "trailing bytes in manifest")).
Proof.
apply (manifest_decode_exact (encode sample_manifest) [x00] sample_manifest);
  [vm_compute; reflexivity|done].
Defined.
