(* ===== verification/RefRecord.v ===== *)
(** Named references (crates/lightr-core/src/core/refrecord.rs): the binary
    record of a ref, the grammar of ref names and the storage key of a ref. *)

From S2P Require Import Prelude Error Cursor Digest.

Record RefRecord := mkRefRecord {
  name : bytes;
  root : digest;
  parent : option digest;
  created_at_unix : Z;
  tool_version : bytes;
}.

#[export] Instance RefRecord_eq_dec : EqDecision RefRecord.
Proof. solve_decision. Defined.

(** [RefRecord::encode]; both string lengths are truncated to sixteen bits. *)
Definition encode (r : RefRecord) : bytes :=
  put_str16 (name r) ++
  root r ++
  match parent r with
  | Some p => [x01] ++ p
  | None => [x00]
  end ++
  le_bytes 8 (created_at_unix r) ++
  put_str16 (tool_version r).

Definition truncated : LightrError := InvalidManifest (str "truncated ref record").

Definition decode_body : Reader RefRecord :=
  name ← need_str16 truncated (InvalidManifest (str "non-UTF8 ref name"));
  root ← need truncated 32;
  has_parent ← need truncated 1;
  parent ←
    (if bool_decide (has_parent = [x01]) then p ← need truncated 32; mret (Some p)
     else if bool_decide (has_parent = [x00]) then mret None
     else fail (InvalidManifest (str "invalid has_parent byte in ref record")));
  created ← need truncated 8;
  tool_version ← need_str16 truncated
    (InvalidManifest (str "non-UTF8 tool_version in ref record"));
  mret (mkRefRecord name root parent (le_val created) tool_version).

(** [RefRecord::decode]. *)
Definition decode (bs : bytes) : Result RefRecord :=
  read_all decode_body (InvalidManifest (str "trailing bytes in ref record")) bs.

Definition ref_record_wf (r : RefRecord) : Prop :=
  str16_wf (name r) /\
  digest_wf (root r) /\ default True (digest_wf <$> parent r) /\
  u64 (created_at_unix r) /\ str16_wf (tool_version r).

#[export] Instance ref_record_wf_dec r : Decision (ref_record_wf r).
Proof. unfold ref_record_wf. destruct (parent r); simpl; apply _. Defined.

Lemma ref_stable_decode_body : stable decode_body.
Proof.
unfold decode_body. solve_stable.
Qed.

Lemma ref_reads_decode_body r : ref_record_wf r -> reads decode_body (encode r) r.
Proof.
destruct r as [n ro pa cr tv]. intros (Hn & Hro & Hpa & Hcr & Htv).
unfold decode_body, encode. cbn [name root parent created_at_unix tool_version] in *.
eapply reads_bind; [by apply reads_str16|].
eapply reads_bind; [by apply reads_need|].
assert (reads (created ← need truncated 8;
    tool_version ← need_str16 truncated
      (InvalidManifest (str "non-UTF8 tool_version in ref record"));
    mret (mkRefRecord n ro pa (le_val created) tool_version))
  (le_bytes 8 cr ++ put_str16 tv) (mkRefRecord n ro pa cr tv)) as Htail.
{ eapply reads_bind; [apply reads_need, length_le_bytes|].
  eapply reads_bind_nil; [by apply reads_str16|]. rewrite le_val_u64 by done. apply reads_ret. }
destruct pa as [p|].
- rewrite <- (app_assoc [x01]). eapply reads_bind; [by apply reads_need|].
  rewrite bool_decide_eq_true_2 by done.
  eapply reads_bind; [eapply reads_bind_nil; [by apply reads_need|apply reads_ret]|exact Htail].
- eapply reads_bind; [by apply reads_need|].
  rewrite bool_decide_eq_false_2 by done. rewrite bool_decide_eq_true_2 by done.
  eapply reads_bind_none; [apply reads_ret|exact Htail].
Qed.

Lemma ref_decode_encode r : ref_record_wf r -> decode (encode r) = Ok r.
Proof.
intros H. by apply read_all_reads, ref_reads_decode_body.
Qed.

(** A successful decode read the canonical encoding of its result. *)
Lemma decode_body_inv bs r rest :
  decode_body bs = Ok (r, rest) -> bs = encode r ++ rest /\ ref_record_wf r.
Proof.
unfold decode_body. intros H. invert_run.
repeat match goal with H : need_str16 _ _ _ = _ |- _ => apply need_str16_inv in H as [-> ?] end.
match goal with H : (if _ then _ else _) _ = Ok (?p, _) |- _ => revert H end.
match goal with H : length ?c = 8 |- _ =>
  pose proof (le_val_range c) as Hc; rewrite H in Hc; pose proof (le_bytes_le_val' 8 c H) as Hcr end.
unfold encode, ref_record_wf. cbn [name root parent created_at_unix tool_version].
repeat case_bool_decide; intros; invert_run; subst; rewrite ?Hcr.
all: split; [by rewrite <- !app_assoc|].
all: split_and!; done || exact Hc.
Qed.

Lemma decode_canonical bs r : decode bs = Ok r -> bs = encode r /\ ref_record_wf r.
Proof.
unfold decode, read_all. destruct (decode_body bs) as [[r' rest]|e] eqn:E; [|done].
case_bool_decide; [|done]. intros [= <-]. apply decode_body_inv in E as [-> Hwf].
subst. by rewrite app_nil_r.
Qed.

(** * Ref names *)

Definition ns_char (b : byte) : bool :=
  is_ascii_lowercase b || is_ascii_digit b || bool_decide (b = x2d).

Definition local_char (b : byte) : bool :=
  is_ascii_lowercase b || is_ascii_digit b || bool_decide (b = x2e) ||
  bool_decide (b = x5f) || bool_decide (b = x2d).

(** [s.find(c)]: the text before and after the first [c]. *)
Fixpoint split_at (c : byte) (s : bytes) : option (bytes * bytes) :=
  match s with
  | [] => None
  | b :: s =>
      if bool_decide (b = c) then Some ([], s)
      else '(l, r) ← split_at c s; Some (b :: l, r)
  end.

(** [validate_ref_name]. *)
Definition validate_ref_name (name : bytes) : Result unit :=
  let bad := Err (InvalidRef name) in
  let check_local rest :=
    if bool_decide (rest = [] \/ 64 < length rest) then bad
    else if forallb local_char rest then Ok tt else bad in
  match name with
  | [] => bad
  | b :: stripped =>
      if bool_decide (b = x40) then
        match split_at x2f stripped with
        | None => bad
        | Some (ns, rest) =>
            if bool_decide (ns = [] \/ 32 < length ns) then bad
            else if forallb ns_char ns then check_local rest else bad
        end
      else check_local name
  end.

(** [ref_key]: one hasher, two updates. *)
Definition REF_KEY_DOMAIN : bytes := str "lightr/ref/v1/".

Definition ref_key `{Blake3} (name : bytes) : digest :=
  hasher_finalize (hasher_update (hasher_update hasher_new REF_KEY_DOMAIN) name).

(** The grammar of ADR-0004: [^(@[a-z0-9-]{1,32}/)?[a-z0-9._-]{1,64}$]. *)
Definition local_part (s : bytes) : Prop :=
  1 <= length s <= 64 /\ Forall (fun b => local_char b = true) s.
Definition namespace_part (s : bytes) : Prop :=
  1 <= length s <= 32 /\ Forall (fun b => ns_char b = true) s.

Inductive ref_name : bytes -> Prop :=
  | ref_name_local l : local_part l -> ref_name l
  | ref_name_scoped ns l :
      namespace_part ns -> local_part l -> ref_name ([x40] ++ ns ++ [x2f] ++ l).

Lemma split_at_inv c s l r : split_at c s = Some (l, r) -> s = l ++ c :: r /\ c ∉ l.
Proof.
revert l. induction s as [|b s IH]; intros l H; simpl in H; [done|].
case_bool_decide as Hb; simplify_eq; [set_solver|].
destruct (split_at c s) as [[l' r']|]; simplify_eq/=.
destruct (IH l' eq_refl) as [-> Hn]. split; [done|set_solver].
Qed.

Lemma split_at_app c l r : c ∉ l -> split_at c (l ++ c :: r) = Some (l, r).
Proof.
induction l as [|b l IH]; intros Hn; simpl.
- by rewrite bool_decide_eq_true_2.
- rewrite bool_decide_eq_false_2 by set_solver. rewrite IH by set_solver. done.
Qed.

Lemma check_local_spec (name rest : bytes) :
  (if bool_decide (rest = [] \/ 64 < length rest) then Err (InvalidRef name)
   else if forallb local_char rest then Ok tt else Err (InvalidRef name)) = Ok tt <->
  local_part rest.
Proof.
unfold local_part. rewrite <- forallb_Forall. destruct rest as [|b rest].
- simpl. split; [done|lia].
- case_bool_decide as H; [split; [done|simpl in *; naive_solver lia]|].
  case_match; [|naive_solver]. split; [|done]. intros _. split; [|done].
  simpl in *. assert (~ 64 < S (length rest)) by tauto. lia.
Qed.

(** The first byte of a local part is never the namespace marker. *)
Lemma local_part_no_at b l : local_part (b :: l) -> b <> x40.
Proof.
intros [_ H] ->. inversion H as [|? ? Hb]. done.
Qed.

Lemma namespace_part_no_slash ns : namespace_part ns -> x2f ∉ ns.
Proof.
intros [_ H] Hin. rewrite Forall_forall in H. by apply H in Hin.
Qed.

Lemma namespace_check_spec (ns : bytes) :
  bool_decide (ns = [] \/ 32 < length ns) = false /\ forallb ns_char ns = true <->
  namespace_part ns.
Proof.
unfold namespace_part. rewrite <- forallb_Forall, bool_decide_eq_false.
destruct ns as [|b ns]; simpl; [naive_solver lia|].
split; intros [H ?]; (split; [|done]).
- assert (~ 32 < S (length ns)) by tauto. lia.
- intros [?|?]; [done|lia].
Qed.

Lemma validate_ref_name_spec (n : bytes) : validate_ref_name n = Ok tt <-> ref_name n.
Proof.
unfold validate_ref_name. destruct n as [|b s].
{ split; [done|]. inversion 1 as [l [Hl _]|]; simpl in *; lia. }
case_bool_decide as Hb; [subst b|].
- split.
  + destruct (split_at x2f s) as [[ns rest]|] eqn:E; [|done].
    apply split_at_inv in E as [-> _].
    case_match eqn:E1; [done|]. case_match eqn:E2; [|done]. intros Hl%check_local_spec.
    change (x40 :: ns ++ x2f :: rest) with ([x40] ++ ns ++ [x2f] ++ rest).
    constructor; [|done]. by apply namespace_check_spec.
  + inversion 1 as [l Hl|ns l Hns Hl]; subst; [by apply local_part_no_at in Hl|].
    rewrite split_at_app by (by apply namespace_part_no_slash).
    apply namespace_check_spec in Hns as [-> ->]. by apply check_local_spec.
- rewrite check_local_spec. split; [by constructor|].
  inversion 1; subst; done.
Qed.

Lemma validate_ref_name_err (n : bytes) : validate_ref_name n = Ok tt \/ validate_ref_name n = Err (InvalidRef n).
Proof.
unfold validate_ref_name. repeat (case_match; auto).
Qed.

Lemma ref_key_hash `{BL : Blake3Laws} n : ref_key n = blake3_hash (REF_KEY_DOMAIN ++ n).
Proof.
pose proof (blake3_stream [REF_KEY_DOMAIN; n]) as H. simpl in H.
rewrite app_nil_r in H. exact H.
Qed.

Lemma ref_key_wf `{BL : Blake3Laws} n : digest_wf (ref_key n).
Proof.
rewrite ref_key_hash. apply blake3_length.
Qed.

(** The storage key of a ref is BLAKE3 of the domain tag and the name, so two
    names share a key only if BLAKE3 collides on two different inputs. *)
Lemma ref_key_separates `{BL : Blake3Laws} (a b : bytes) :
  ref_key a = ref_key b ->
  a = b \/ exists x y : bytes, x <> y /\ blake3_hash x = blake3_hash y.
Proof.
rewrite !ref_key_hash. intros E. destruct (decide (a = b)) as [->|Hne]; [auto|right].
exists (REF_KEY_DOMAIN ++ a), (REF_KEY_DOMAIN ++ b). split; [|done].
intros ?%app_inv_head. done.
Qed.

(** * Properties *)

(** A ref record survives encoding and decoding, and the encoding is
    canonical: the decoder accepts only the encoding of the record it returns,
    so two byte strings never stand for one record. *)
Theorem ref_record_roundtrip (r : RefRecord) (bs : bytes) :
  (ref_record_wf r -> decode (encode r) = Ok r) /\
  (decode bs = Ok r <-> ref_record_wf r /\ bs = encode r).
Proof.
split; [apply ref_decode_encode|]. split.
- intros H%decode_canonical. tauto.
- intros [Hwf ->]. by apply ref_decode_encode.
Qed.

(** [validate_ref_name] accepts exactly the names of the ADR-0004 grammar
    [^(@[a-z0-9-]{1,32}/)?[a-z0-9._-]{1,64}$], and answers any other name with
    [InvalidRef] carrying that name. *)
Theorem validate_ref_name_grammar (n : bytes) :
  (validate_ref_name n = Ok tt <-> ref_name n) /\
  (~ ref_name n -> validate_ref_name n = Err (InvalidRef n)).
Proof.
split; [apply validate_ref_name_spec|]. rewrite <- validate_ref_name_spec.
destruct (validate_ref_name_err n); tauto.
Qed.

