(* ===== verification/Limits.v ===== *)
(** Resource limits (crates/lightr-core/src/core/limits.rs): Docker-style memory
    and CPU strings parsed into bytes and milli-CPUs. *)

From S2P Require Import Prelude Text Error.

Record ResourceLimits := mkLimits {
  memory_bytes : option Z;
  cpu_millis : option Z;
  pids_max : option Z;
}.

(** [ResourceLimits::default()]. *)
Definition limits_default : ResourceLimits := mkLimits None None None.

Definition is_none {A} (o : option A) : bool := match o with None => true | Some _ => false end.

Definition is_unlimited (l : ResourceLimits) : bool :=
  is_none (memory_bytes l) && is_none (cpu_millis l) && is_none (pids_max l).

(** The unit suffix of [parse_memory]: the number's text and the multiplier. The
    last character decides; an ASCII character is the last byte. *)
Definition memory_unit (s : bytes) (last : byte) : option (bytes * Z) :=
  let init := take (length s - 1) s in
  if bool_decide (last = x6b \/ last = x4b) then Some (init, 1024%Z)
  else if bool_decide (last = x6d \/ last = x4d) then Some (init, (1024 * 1024)%Z)
  else if bool_decide (last = x67 \/ last = x47) then Some (init, (1024 * 1024 * 1024)%Z)
  else if in_range x30 x39 last then Some (s, 1%Z)
  else None.

Definition parse_memory (s : bytes) : Result Z :=
  let s := trim s in
  let invalid := InvalidRef (str "invalid memory limit: " ++ s) in
  c ← ok_or (last s) (InvalidRef (str "empty memory limit"));
  '(num, mult) ← ok_or (memory_unit s c) invalid;
  val ← ok_or (parse_u64 (trim num)) invalid;
  if (val =? 0)%Z then Err (InvalidRef (str "memory limit must be > 0"))
  else ok_or (checked_mul val mult) (InvalidRef (str "memory limit overflow: " ++ s)).

(** The loop over the places 100, 10, 1 and the rounding by the fourth digit. *)
Fixpoint frac_millis (places : list Z) (digits : bytes) (acc : Z) : Z :=
  match places with
  | [] =>
      match digits with
      | d :: _ => if in_range x35 x39 d then (acc + 1)%Z else acc
      | [] => acc
      end
  | place :: places =>
      match digits with
      | d :: digits => frac_millis places digits (acc + digit_val d * place)
      | [] => frac_millis places [] acc
      end
  end.

Definition parse_cpus (s : bytes) : Result Z :=
  let raw := trim s in
  let '(whole, fraction) := default (raw, []) (split_once x2e raw) in
  let overflow := InvalidRef (str "cpu limit overflow: " ++ s) in
  if bool_decide (whole = []) || negb (forallb is_ascii_digit whole) ||
     negb (forallb is_ascii_digit fraction)
  then Err (InvalidRef (str "invalid cpus: " ++ s))
  else
    whole ← ok_or (parse_u64 whole) overflow;
    millis ← ok_or (checked_mul whole 1000) overflow;
    millis ← ok_or (checked_add millis (frac_millis [100; 10; 1]%Z fraction 0)) overflow;
    if (millis =? 0)%Z then Err (InvalidRef (str "cpus must be > 0: " ++ s)) else Ok millis.

(** [ResourceLimits::parse]. *)
Definition parse (memory cpus : option bytes) : Result ResourceLimits :=
  memory_bytes ← match memory with
    | None => Ok None
    | Some s => v ← parse_memory s; Ok (Some v)
    end;
  cpu_millis ← match cpus with
    | None => Ok None
    | Some s => v ← parse_cpus s; Ok (Some v)
    end;
  Ok (mkLimits memory_bytes cpu_millis None).

(** [with_pids]: the cap is an [i64]; zero and below mean no cap. *)
Definition with_pids (l : ResourceLimits) (pids : option Z) : ResourceLimits :=
  mkLimits (memory_bytes l) (cpu_millis l)
    (match pids with
     | Some n => if (0 <? n)%Z then Some n else None
     | None => None
     end).

(** * Lemmas *)

Lemma split_once_digits w f :
  forallb is_ascii_digit w = true -> split_once x2e (w ++ x2e :: f) = Some (w, f).
Proof.
induction w as [|b w IH]; simpl; [done|]. intros [Hb Hw]%andb_true_iff.
rewrite bool_decide_eq_false_2 by (intros ->; done). rewrite IH; done.
Qed.

Lemma dec_val_bound a l :
  forallb is_ascii_digit l = true -> (0 <= a)%Z ->
  (a * 10 ^ Z.of_nat (length l) <= dec_val a l < (a + 1) * 10 ^ Z.of_nat (length l))%Z.
Proof.
revert a. induction l as [|b l IH]; intros a Hl Ha.
- simpl. lia.
- simpl in Hl. apply andb_true_iff in Hl as [Hb%is_ascii_digit_range Hl].
  cbn [dec_val length]. rewrite Nat2Z.inj_succ, Z.pow_succ_r by lia.
  specialize (IH (a * 10 + digit_val b)%Z Hl ltac:(lia)).
  pose proof (Z.pow_pos_nonneg 10 (Z.of_nat (length l)) ltac:(lia) ltac:(lia)). nia.
Qed.

Lemma round_up_digit d : is_ascii_digit d = true -> in_range x35 x39 d = (5 <=? digit_val d)%Z.
Proof.
intros H%is_ascii_digit_range. unfold in_range, digit_val in *.
change (bval x35) with 53%Z. change (bval x39) with 57%Z.
apply eq_true_iff_eq. rewrite andb_true_iff, !Z.leb_le. lia.
Qed.

(** The value of a digit string of length [k] over [10^k], times 1000, rounded
    half up. *)
Definition round_millis (f : bytes) : Z :=
  ((2000 * dec_val 0 f + 10 ^ Z.of_nat (length f)) / (2 * 10 ^ Z.of_nat (length f)))%Z.

Lemma frac_millis_rounds f :
  forallb is_ascii_digit f = true -> frac_millis [100; 10; 1]%Z f 0 = round_millis f.
Proof.
intros Hf. unfold round_millis.
destruct f as [|a [|b [|c [|d f]]]]; simpl in Hf; rewrite ?andb_true_iff in Hf;
  destruct_and?; cbn [frac_millis length dec_val];
  repeat match goal with H : is_ascii_digit ?x = true |- _ =>
    pose proof (is_ascii_digit_range x H); revert H end; intros.
- reflexivity.
- change (10 ^ Z.of_nat 1)%Z with 10%Z.
  apply (Z.div_unique_pos _ _ _ 10); lia.
- change (10 ^ Z.of_nat 2)%Z with 100%Z.
  apply (Z.div_unique_pos _ _ _ 100); lia.
- change (10 ^ Z.of_nat 3)%Z with 1000%Z.
  apply (Z.div_unique_pos _ _ _ 1000); lia.
- rewrite round_up_digit by done.
  set (h := (digit_val a * 100 + digit_val b * 10 + digit_val c)%Z).
  replace ((((0 * 10 + digit_val a) * 10 + digit_val b) * 10 + digit_val c) * 10 + digit_val d)%Z
    with (h * 10 + digit_val d)%Z by lia.
  replace (0 + digit_val a * 100 + digit_val b * 10 + digit_val c * 1)%Z with h by lia.
  pose proof (dec_val_bound (h * 10 + digit_val d) f ltac:(done) ltac:(lia)) as Hv.
  set (v := dec_val (h * 10 + digit_val d) f) in *.
  rewrite !Nat2Z.inj_succ, !Z.pow_succ_r by lia.
  set (p := (10 ^ Z.of_nat (length f))%Z) in *.
  assert (0 < p)%Z by (apply Z.pow_pos_nonneg; lia).
  destruct (5 <=? digit_val d)%Z eqn:E; [apply Z.leb_le in E|apply Z.leb_gt in E].
  + apply (Z.div_unique_pos _ _ _ (2000 * v + 10 * (10 * (10 * (10 * p)))
      - 2 * (10 * (10 * (10 * (10 * p)))) * (h + 1))%Z); [nia|lia].
  + apply (Z.div_unique_pos _ _ _ (2000 * v + 10 * (10 * (10 * (10 * p)))
      - 2 * (10 * (10 * (10 * (10 * p)))) * h)%Z); [nia|lia].
Qed.

Lemma parse_u64_digits w :
  w <> [] -> forallb is_ascii_digit w = true ->
  parse_u64 w = if (dec_val 0 w <=? U64_MAX)%Z then Some (dec_val 0 w) else None.
Proof.
apply parse_uint_digits.
Qed.

Lemma round_millis_nonneg f : forallb is_ascii_digit f = true -> (0 <= round_millis f)%Z.
Proof.
intros Hf. unfold round_millis. apply Z.div_pos.
- pose proof (dec_val_nonneg 0 f ltac:(lia) Hf).
  pose proof (Z.pow_nonneg 10 (Z.of_nat (length f)) ltac:(lia)). lia.
- pose proof (Z.pow_pos_nonneg 10 (Z.of_nat (length f)) ltac:(lia) ltac:(lia)). lia.
Qed.

(** The arithmetic core of [parse_cpus], after the shape checks. *)
Lemma parse_cpus_split s whole fraction :
  split_once x2e (trim s) = Some (whole, fraction) \/
    (split_once x2e (trim s) = None /\ whole = trim s /\ fraction = []) ->
  whole <> [] -> forallb is_ascii_digit whole = true -> forallb is_ascii_digit fraction = true ->
  parse_cpus s =
    let millis := (dec_val 0 whole * 1000 + round_millis fraction)%Z in
    if (U64_MAX <? millis)%Z then Err (InvalidRef (str "cpu limit overflow: " ++ s))
    else if (millis =? 0)%Z then Err (InvalidRef (str "cpus must be > 0: " ++ s))
    else Ok millis.
Proof.
intros Hsplit Hne Hw Hf. unfold parse_cpus.
assert (default (trim s, []) (split_once x2e (trim s)) = (whole, fraction)) as ->.
{ destruct Hsplit as [-> |(-> & -> & ->)]; done. }
rewrite bool_decide_eq_false_2, Hw, Hf by done. cbn [orb negb].
rewrite parse_u64_digits, frac_millis_rounds by done. unfold checked_mul, checked_add.
pose proof (dec_val_nonneg 0 whole ltac:(lia) Hw). pose proof (round_millis_nonneg fraction Hf).
cbv zeta. set (w := dec_val 0 whole) in *. set (r := round_millis fraction) in *.
destruct (w <=? U64_MAX)%Z eqn:E1; cbn [ok_or mbind Result_mbind].
2: { destruct (U64_MAX <? w * 1000 + r)%Z eqn:E2; [done|lia]. }
destruct (w * 1000 <=? U64_MAX)%Z eqn:E2; cbn [ok_or mbind Result_mbind].
2: { destruct (U64_MAX <? w * 1000 + r)%Z eqn:E3; [done|lia]. }
destruct (w * 1000 + r <=? U64_MAX)%Z eqn:E3; cbn [ok_or mbind Result_mbind].
- destruct (U64_MAX <? w * 1000 + r)%Z eqn:E4; [lia|done].
- destruct (U64_MAX <? w * 1000 + r)%Z eqn:E4; [done|lia].
Qed.

Lemma last_dec_graphic n :
  u64 n -> exists b, last (dec n) = Some b /\ in_range x30 x39 b = true.
Proof.
intros H. destruct (dec_spec n H) as (Hne & Hd & _).
destruct (last (dec n)) as [b|] eqn:E; [|apply last_None in E; done].
exists b. split; [done|]. rewrite forallb_forall in Hd. apply Hd, list_elem_of_In.
apply last_Some in E as [l ->]. set_solver.
Qed.

(** * Properties *)



(** [parse_memory] multiplies a positive decimal by its unit without
    wrapping: a number followed by [k], [m], [g] or nothing gives exactly
    [n * unit] bytes when that fits a [u64] and an error otherwise; zero is an
    error. *)
Theorem parse_memory_exact (n unit : Z) (suffix : bytes) :
  u64 n ->
  (suffix, unit) ∈ [(str "k", 1024%Z); (str "m", (1024 ^ 2)%Z); (str "g", (1024 ^ 3)%Z); ([], 1%Z)] ->
  let s := dec n ++ suffix in
  parse_memory s =
    if (n =? 0)%Z then Err (InvalidRef (str "memory limit must be > 0"))
    else if (n * unit <=? U64_MAX)%Z then Ok (n * unit)%Z
    else Err (InvalidRef (str "memory limit overflow: " ++ s)).
Proof.
intros Hn Hu s. destruct (dec_spec n Hn) as (Hne & Hd & Hv).
destruct (last_dec_graphic n Hn) as (b & Hlast & Hb).
assert (trim (dec n) = dec n) as Htrim by (by apply trim_graphic, digits_graphic).
assert (trim s = s) as Hs.
{ apply trim_graphic. unfold s. rewrite forallb_app, digits_graphic by done.
  set_unfold in Hu. destruct_or! Hu; try done; simplify_eq; reflexivity. }
unfold parse_memory. rewrite Hs.
assert (memory_unit s (default x00 (last s)) = Some (dec n, unit) /\ is_Some (last s)) as [Hmu [c Hc]].
{ set_unfold in Hu. unfold s. destruct_or! Hu; try done; simplify_eq.
  1: change (str "k") with [x6b]. 2: change (str "m") with [x6d]. 3: change (str "g") with [x67].
  1-3: rewrite last_snoc; split; [|eauto]; unfold memory_unit; simpl;
    rewrite length_app, Nat.add_sub, take_app_length; reflexivity.
  rewrite app_nil_r, Hlast. split; [|eauto]. simpl. unfold memory_unit.
  rewrite !bool_decide_eq_false_2 by (intros [->| ->]; done). rewrite Hb. done. }
rewrite Hc in *. simpl in Hmu |- *. rewrite Hmu. simpl. rewrite Htrim, parse_u64_dec by done.
simpl. destruct (n =? 0)%Z; [done|]. unfold checked_mul. case_match; done.
Qed.

Lemma parse_memory_exact_witness : parse_memory (str "512m") = Ok 536870912%Z.
Proof.
apply (parse_memory_exact 512 (1024 ^ 2) (str "m")); [|set_solver].
apply (bool_decide_eq_true_1 _). vm_compute. reflexivity.
Defined.
