(* ===== verification/Fs.v ===== *)
(** The file system the store runs on: the calls of [std::fs] the modelled code
    makes, as a state monad over a map from paths to nodes.

    A path is the list of its components below the file-system root.  Every
    system call that can fail takes the next entry of the world's fault schedule:
    it succeeds, fails with an I/O error, or is where the process is killed.  A
    write that fails or is cut short has written a prefix.  An exhausted schedule
    means no further faults.  Theorems that quantify over the world therefore
    quantify over every schedule of failures and over a crash at any call.

    Symbolic links are nodes but are not followed: no path the modelled code
    opens or tests goes through one. *)

From S2P Require Import Prelude Error.

Abbreviation path := (list bytes).

Inductive node :=
  | NFile (content : bytes) (mode : Z)
  | NDir
  | NSymlink (target : bytes).

#[export] Instance node_eq_dec : EqDecision node.
Proof. solve_decision. Defined.

Inductive fault :=
  | FOk
  | FErr (written : nat)
  | FCrash (written : nat).

Record World := mkWorld {
  w_fs : gmap path node;
  w_faults : list fault;
  (** the process id and the process-wide counter of [owned_temp.rs] *)
  w_pid : Z;
  w_next : Z;
}.

Definition set_fs (fs : gmap path node) (w : World) : World :=
  mkWorld fs (w_faults w) (w_pid w) (w_next w).

(** * The monad *)

Inductive outcome (A : Type) :=
  | Ret (a : A)
  | Throw (e : LightrError)
  | Crashed.
Arguments Ret {A} a.
Arguments Throw {A} e.
Arguments Crashed {A}.

Definition IO (A : Type) : Type := World -> outcome A * World.

#[export] Instance IO_mret : MRet IO := fun A a w => (Ret a, w).
#[export] Instance IO_mbind : MBind IO := fun A B f m w =>
  match m w with
  | (Ret a, w) => f a w
  | (Throw e, w) => (Throw e, w)
  | (Crashed, w) => (Crashed, w)
  end.

Definition throw {A} (e : LightrError) : IO A := fun w => (Throw e, w).

(** A pure [Result] used with [?]. *)
Definition lift {A} (r : Result A) : IO A :=
  match r with
  | Ok a => mret a
  | Err e => throw e
  end.

(** [match m { Ok(a) => .., Err(e) => .. }]: the error as a value. *)
Definition try_ {A} (m : IO A) : IO (Result A) := fun w =>
  match m w with
  | (Ret a, w) => (Ret (Ok a), w)
  | (Throw e, w) => (Ret (Err e), w)
  | (Crashed, w) => (Crashed, w)
  end.

(** A guard's [Drop]: [c] runs after [m] whether it returned or failed, its own
    errors are ignored; a killed process drops nothing. *)
Definition finally {A} (m : IO A) (c : IO unit) : IO A := fun w =>
  match m w with
  | (Crashed, w) => (Crashed, w)
  | (o, w) =>
      match c w with
      | (Crashed, w) => (Crashed, w)
      | (_, w) => (o, w)
      end
  end.

(** [let _ = m;] *)
Definition ignore {A} (m : IO A) : IO unit := try_ m ≫= fun _ => mret tt.

Fixpoint for_each {A} (l : list A) (f : A -> IO unit) : IO unit :=
  match l with
  | [] => mret tt
  | a :: l => f a ≫= fun _ => for_each l f
  end.

Fixpoint map_io {A B} (f : A -> IO B) (l : list A) : IO (list B) :=
  match l with
  | [] => mret []
  | a :: l => b ← f a; bs ← map_io f l; mret (b :: bs)
  end.

Definition get_fs : IO (gmap path node) := fun w => (Ret (w_fs w), w).

(** A faultable call: [f] is its effect, [part n] what remains when it is
    interrupted after [n] bytes. *)
Definition sys {A : Type} (f : gmap path node -> Result A * gmap path node)
    (part : nat -> gmap path node -> gmap path node) : IO A := fun w =>
  let go faults fs o := (o, mkWorld fs faults (w_pid w) (w_next w)) in
  match w_faults w with
  | FErr n :: faults => go faults (part n (w_fs w)) (Throw (Io OtherKind))
  | FCrash n :: faults => go faults (part n (w_fs w)) Crashed
  | faults =>
      match f (w_fs w) with
      | (Ok a, fs) => go (tail faults) fs (Ret a)
      | (Err e, fs) => go (tail faults) fs (Throw e)
      end
  end.

(** A call with no partial effect. *)
Definition sys0 {A : Type} (f : gmap path node -> Result A * gmap path node) : IO A :=
  sys f (fun _ fs => fs).

(** * Queries that do not fail: [Path::exists], [is_dir], [is_file] *)

Definition node_exists (fs : gmap path node) (p : path) : bool :=
  match fs !! p with
  | Some (NFile _ _) | Some NDir => true
  | _ => false
  end.

Definition exists_ (p : path) : IO bool := fs ← get_fs; mret (node_exists fs p).
Definition is_dir (fs : gmap path node) (p : path) : bool := bool_decide (fs !! p = Some NDir).
Definition is_file (fs : gmap path node) (p : path) : bool :=
  match fs !! p with Some (NFile _ _) => true | _ => false end.

(** The content of a regular file. *)
Definition file_at (fs : gmap path node) (p : path) : option bytes :=
  match fs !! p with Some (NFile c _) => Some c | _ => None end.

(** * Calls *)

Definition parent_path (p : path) : path := removelast p.
Definition file_name (p : path) : bytes := default [] (last p).

Definition io_err {A : Type} (k : ErrorKind) (fs : gmap path node) : Result A * gmap path node :=
  (Err (Io k), fs).

(** The mode a new file gets. *)
Definition CREATE_MODE : Z := 420.

(** [fs::create_dir], [DirBuilder::create] without [recursive]. *)
Definition mkdir (p : path) : IO unit :=
  sys0 (fun fs =>
    match fs !! p with
    | Some _ => io_err AlreadyExists fs
    | None =>
        if is_dir fs (parent_path p) then (Ok tt, <[p := NDir]> fs) else io_err NotFoundKind fs
    end).

(** [fs::create_dir_all]: the missing ancestors, outermost first. *)
Fixpoint mkdir_below (base : path) (rest : list bytes) : IO unit :=
  match rest with
  | [] => mret tt
  | c :: rest =>
      fs ← get_fs;
      _ ← match fs !! (base ++ [c]) with
          | Some NDir => mret tt
          | Some _ => throw (Io AlreadyExists)
          | None => mkdir (base ++ [c])
          end;
      mkdir_below (base ++ [c]) rest
  end.

Definition create_dir_all (p : path) : IO unit := mkdir_below [] p.

(** [File::create]: truncates or creates. *)
Definition file_create (p : path) : IO unit :=
  sys0 (fun fs =>
    match fs !! p with
    | Some (NFile _ m) => (Ok tt, <[p := NFile [] m]> fs)
    | Some _ => io_err OtherKind fs
    | None =>
        if is_dir fs (parent_path p) then (Ok tt, <[p := NFile [] CREATE_MODE]> fs)
        else io_err NotFoundKind fs
    end).

(** Append to an open file. *)
Definition append_at (p : path) (data : bytes) (fs : gmap path node) : gmap path node :=
  match fs !! p with
  | Some (NFile c m) => <[p := NFile (c ++ data) m]> fs
  | _ => fs
  end.

(** [write_all]: a failed write leaves a prefix. *)
Definition write_all (p : path) (data : bytes) : IO unit :=
  sys (fun fs => (Ok tt, append_at p data fs)) (fun n fs => append_at p (take n data) fs).

(** [sync_all], [flock]: no effect on the tree. *)
Definition sync : IO unit := sys0 (fun fs => (Ok tt, fs)).

(** [File::open] for reading, the handle unused but for a later [sync_all]. *)
Definition open_read (p : path) : IO unit :=
  sys0 (fun fs =>
    match fs !! p with
    | Some (NFile _ _) | Some NDir => (Ok tt, fs)
    | Some (NSymlink _) => io_err OtherKind fs
    | None => io_err NotFoundKind fs
    end).

(** [fs::rename] of a regular file. *)
Definition rename (a b : path) : IO unit :=
  sys0 (fun fs =>
    match fs !! a, fs !! b with
    | None, _ => io_err NotFoundKind fs
    | Some _, Some NDir => io_err OtherKind fs
    | Some NDir, _ => io_err OtherKind fs
    | Some n, _ =>
        if is_dir fs (parent_path b) then (Ok tt, <[b := n]> (delete a fs))
        else io_err NotFoundKind fs
    end).

Definition remove_file (p : path) : IO unit :=
  sys0 (fun fs =>
    match fs !! p with
    | None => io_err NotFoundKind fs
    | Some NDir => io_err OtherKind fs
    | Some _ => (Ok tt, delete p fs)
    end).

(** The names in a directory. *)
Definition children (fs : gmap path node) (p : path) : list bytes :=
  omap (fun '(q, _) =>
    match last q with
    | Some c => if bool_decide (q = p ++ [c]) then Some c else None
    | None => None
    end) (map_to_list fs).

(** [fs::remove_dir]: the directory must be empty. *)
Definition remove_dir (p : path) : IO unit :=
  sys0 (fun fs =>
    match fs !! p with
    | Some NDir =>
        if bool_decide (children fs p = []) then (Ok tt, delete p fs) else io_err OtherKind fs
    | Some _ => io_err NotADirectory fs
    | None => io_err NotFoundKind fs
    end).

Definition set_permissions (p : path) (mode : Z) : IO unit :=
  sys0 (fun fs =>
    match fs !! p with
    | Some (NFile c _) => (Ok tt, <[p := NFile c mode]> fs)
    | Some _ => (Ok tt, fs)
    | None => io_err NotFoundKind fs
    end).

(** [fs::read]. *)
Definition read (p : path) : IO bytes :=
  sys0 (fun fs =>
    match fs !! p with
    | Some (NFile c _) => (Ok c, fs)
    | Some _ => io_err OtherKind fs
    | None => io_err NotFoundKind fs
    end).

(** [fs::read_dir]: the order of the names is unspecified. *)
Definition read_dir (p : path) : IO (list bytes) :=
  sys0 (fun fs =>
    match fs !! p with
    | Some NDir => (Ok (children fs p), fs)
    | Some _ => io_err NotADirectory fs
    | None => io_err NotFoundKind fs
    end).

(** [OpenOptions::create(true).truncate(false).open]: create if absent. *)
Definition open_create (p : path) : IO unit :=
  sys0 (fun fs =>
    match fs !! p with
    | Some (NFile _ _) => (Ok tt, fs)
    | Some _ => io_err OtherKind fs
    | None =>
        if is_dir fs (parent_path p) then (Ok tt, <[p := NFile [] CREATE_MODE]> fs)
        else io_err NotFoundKind fs
    end).

(** [fs::copy]: content and mode; an interrupted copy leaves a prefix. *)
Definition copy_file (src dst : path) : IO unit :=
  let put n fs :=
    match fs !! src with
    | Some (NFile c m) =>
        match fs !! dst with
        | Some (NFile _ _) => (Ok tt, <[dst := NFile (n c) m]> fs)
        | Some _ => io_err OtherKind fs
        | None =>
            if is_dir fs (parent_path dst) then (Ok tt, <[dst := NFile (n c) m]> fs)
            else io_err NotFoundKind fs
        end
    | Some _ => io_err OtherKind fs
    | None => io_err NotFoundKind fs
    end in
  sys (put (fun c => c)) (fun k fs => (put (take k) fs).2).

(** [std::os::unix::fs::symlink]. *)
Definition symlink (target : bytes) (p : path) : IO unit :=
  sys0 (fun fs =>
    match fs !! p with
    | Some _ => io_err AlreadyExists fs
    | None =>
        if is_dir fs (parent_path p) then (Ok tt, <[p := NSymlink target]> fs)
        else io_err NotFoundKind fs
    end).

(** [fs::remove_dir_all]: a directory and everything below it, children before
    parents; an interrupted call has removed some of it.  A link is unlinked. *)
Definition nodes_below (fs : gmap path node) (p : path) : list path :=
  sort_by (fun a b => length b <=? length a) (filter (fun q => p `prefix_of` q) (map_to_list fs).*1).

Definition delete_all (ps : list path) (fs : gmap path node) : gmap path node :=
  foldl (fun fs q => delete q fs) fs ps.

Definition remove_dir_all (p : path) : IO unit :=
  sys (fun fs =>
    match fs !! p with
    | Some NDir => (Ok tt, delete_all (nodes_below fs p) fs)
    | Some (NSymlink _) => (Ok tt, delete p fs)
    | Some (NFile _ _) => io_err NotADirectory fs
    | None => io_err NotFoundKind fs
    end) (fun n fs =>
    match fs !! p with
    | Some NDir => delete_all (take n (nodes_below fs p)) fs
    | _ => fs
    end).

(** The length in [fs::metadata]. *)
Definition file_len (p : path) : IO Z :=
  sys0 (fun fs =>
    match fs !! p with
    | Some (NFile c _) => (Ok (Z.of_nat (length c)), fs)
    | Some _ => (Ok 0%Z, fs)
    | None => io_err NotFoundKind fs
    end).
