(* ===== verification/FsFacts.v ===== *)
(** Reasoning about [Fs]: frame rules (what a computation leaves alone under
    every fault schedule), the published part of the file system, the
    well-formedness of the tree, and runs without faults. *)

From S2P Require Import Prelude Error Fs.

(** * Frames: a preorder every step of a computation respects *)

Definition keeps {A} (R : relation World) (m : IO A) : Prop := forall w, R w (m w).2.

Section keeps.
Context (R : relation World) `{!PreOrder R}.

Lemma keeps_ret {A} (a : A) : keeps R (mret a).
Proof. intros w. simpl. reflexivity. Qed.

Lemma keeps_throw {A} e : keeps R (throw e : IO A).
Proof. intros w. simpl. reflexivity. Qed.

Lemma keeps_bind {A B} (m : IO A) (k : A -> IO B) :
  keeps R m -> (forall a, keeps R (k a)) -> keeps R (m ≫= k).
Proof.
intros Hm Hk w. specialize (Hm w). cbv [mbind IO_mbind].
destruct (m w) as [[a|e|] w'] eqn:E; simpl in *; [|done..].
etrans; [exact Hm|]. apply Hk.
Qed.

Lemma keeps_lift {A} (r : Result A) : keeps R (lift r).
Proof. destruct r; [apply keeps_ret|apply keeps_throw]. Qed.

Lemma keeps_try {A} (m : IO A) : keeps R m -> keeps R (try_ m).
Proof.
intros Hm w. specialize (Hm w). unfold try_. by destruct (m w) as [[a|e|] w'].
Qed.

Lemma keeps_ignore {A} (m : IO A) : keeps R m -> keeps R (ignore m).
Proof.
intros Hm. apply keeps_bind; [by apply keeps_try|]. intros _. apply keeps_ret.
Qed.

Lemma keeps_finally {A} (m : IO A) c : keeps R m -> keeps R c -> keeps R (finally m c).
Proof.
intros Hm Hc w. specialize (Hm w). unfold finally.
destruct (m w) as [[a|e|] w'] eqn:E; simpl in *; [| |done];
  (etrans; [exact Hm|]; specialize (Hc w'); by destruct (c w') as [[[]|?|] w'']).
Qed.

Lemma keeps_for_each {A} (l : list A) f : (forall a, keeps R (f a)) -> keeps R (for_each l f).
Proof.
intros Hf. induction l as [|a l IH]; [apply keeps_ret|].
simpl. apply keeps_bind; [done|]. intros _. exact IH.
Qed.

Lemma keeps_map_io {A B} (f : A -> IO B) (l : list A) :
  (forall a, keeps R (f a)) -> keeps R (map_io f l).
Proof.
intros Hf. induction l as [|a l IH]; [apply keeps_ret|].
simpl. apply keeps_bind; [done|]. intros b. apply keeps_bind; [done|].
intros bs. apply keeps_ret.
Qed.

Lemma keeps_get_fs : keeps R get_fs.
Proof. intros w. simpl. reflexivity. Qed.

Lemma keeps_exists p : keeps R (exists_ p).
Proof. apply keeps_bind; [apply keeps_get_fs|]. intros fs. apply keeps_ret. Qed.

End keeps.

(** A relation on file systems, seen on worlds. *)
Definition on_fs (R : relation (gmap path node)) : relation World :=
  fun w w' => R (w_fs w) (w_fs w').

#[export] Instance on_fs_preorder R `{!PreOrder R} : PreOrder (on_fs R).
Proof.
unfold on_fs. split; [intros w; reflexivity|]. intros w1 w2 w3 H1 H2. by etrans.
Qed.

Lemma keeps_sys {A : Type} R `{!PreOrder R} (f : gmap path node -> Result A * gmap path node) part :
  (forall fs, R fs (f fs).2) -> (forall n fs, R fs (part n fs)) ->
  keeps (on_fs R) (sys f part).
Proof.
intros Hf Hp w. unfold on_fs, sys.
destruct (w_faults w) as [|[|n|n] l]; simpl; auto.
- specialize (Hf (w_fs w)). by destruct (f (w_fs w)) as [[a|e] fs].
- specialize (Hf (w_fs w)). by destruct (f (w_fs w)) as [[a|e] fs].
Qed.

Lemma keeps_sys0 {A : Type} R `{!PreOrder R} (f : gmap path node -> Result A * gmap path node) :
  (forall fs, R fs (f fs).2) -> keeps (on_fs R) (sys0 f).
Proof.
intros Hf. apply keeps_sys; [apply _|done|]. intros n fs. reflexivity.
Qed.

(** * The published files: regular files outside temporary directories

    The gc lock file is private too: it is opened by every writer and never read. *)

Definition tmp_prefix : bytes := str ".tmp-".
Definition GC_LOCK : bytes := str ".gc.lock".

(** [name.starts_with(".tmp-")]. *)
Definition is_tmp_name (c : bytes) : bool := bool_decide (take 5 c = tmp_prefix).
Definition private_name (c : bytes) : bool := is_tmp_name c || bool_decide (c = GC_LOCK).
Definition tmp_path (p : path) : bool := existsb private_name p.

Definition pub (fs : gmap path node) (p : path) : option bytes :=
  if tmp_path p then None else file_at fs p.

(** Two file systems that publish the same files. *)
Definition pub_eq : relation (gmap path node) := fun fs fs' => forall p, pub fs' p = pub fs p.

(** The same with the file [dst] set to [c]. *)
Definition pub_put (dst : path) (c : bytes) (fs fs' : gmap path node) : Prop :=
  forall p, pub fs' p = if decide (p = dst) then Some c else pub fs p.

(** The same without the file [dst]. *)
Definition pub_del (dst : path) (fs fs' : gmap path node) : Prop :=
  forall p, pub fs' p = if decide (p = dst) then None else pub fs p.

#[export] Instance pub_eq_equiv : Equivalence pub_eq.
Proof.
unfold pub_eq. split; [done|intros fs fs' H p; by rewrite H|].
intros f1 f2 f3 H1 H2 p. by rewrite H2.
Qed.
#[export] Instance pub_eq_preorder : PreOrder pub_eq.
Proof. split; apply _. Qed.

#[export] Instance pub_put_proper dst c : Proper (pub_eq ==> pub_eq ==> iff) (pub_put dst c).
Proof.
intros f1 f2 H f1' f2' H'. unfold pub_put, pub_eq in *.
split; intros Hp p; [rewrite H', Hp, H; done|rewrite <- H', Hp, <- H; done].
Qed.

#[export] Instance pub_del_proper dst : Proper (pub_eq ==> pub_eq ==> iff) (pub_del dst).
Proof.
intros f1 f2 H f1' f2' H'. unfold pub_del, pub_eq in *.
split; intros Hp p; [rewrite H', Hp, H; done|rewrite <- H', Hp, <- H; done].
Qed.

Lemma tmp_path_app p q : tmp_path (p ++ q) = tmp_path p || tmp_path q.
Proof. unfold tmp_path. apply existsb_app. Qed.

Lemma file_at_insert fs p n q :
  file_at (<[p := n]> fs) q =
    if decide (q = p) then match n with NFile c _ => Some c | _ => None end else file_at fs q.
Proof.
unfold file_at. destruct (decide (q = p)) as [->|Hne].
- by rewrite lookup_insert_eq.
- by rewrite lookup_insert_ne.
Qed.

Lemma file_at_delete fs p q :
  file_at (delete p fs) q = if decide (q = p) then None else file_at fs q.
Proof.
unfold file_at. destruct (decide (q = p)) as [->|Hne].
- by rewrite lookup_delete_eq.
- by rewrite lookup_delete_ne.
Qed.

(** A node inserted or deleted changes the published files only if it is, or
    was, a regular file outside the temporary directories. *)
Lemma pub_insert_invisible fs p n :
  tmp_path p = true \/
    file_at fs p = (match n with NFile c _ => Some c | _ => None end) ->
  pub_eq fs (<[p := n]> fs).
Proof.
intros H q. unfold pub. destruct (tmp_path q) eqn:E; [done|].
rewrite file_at_insert. destruct (decide (q = p)) as [->|]; [|done].
destruct H as [H|H]; [congruence|done].
Qed.

Lemma pub_delete_invisible fs p :
  tmp_path p = true \/ file_at fs p = None -> pub_eq fs (delete p fs).
Proof.
intros H q. unfold pub. destruct (tmp_path q) eqn:E; [done|].
rewrite file_at_delete. destruct (decide (q = p)) as [->|]; [|done].
destruct H as [H|H]; [congruence|done].
Qed.

Section pub_frames.
Abbreviation K := (keeps (on_fs pub_eq)).

Ltac pub_case :=
  intros; cbn; repeat (case_match; simplify_eq/=); try reflexivity;
  first [ apply pub_insert_invisible; unfold file_at; repeat (case_match; simplify_eq/=);
          solve [auto]
        | apply pub_delete_invisible; unfold file_at; repeat (case_match; simplify_eq/=);
          solve [auto] ].

Lemma mkdir_pub p : K (mkdir p).
Proof. apply keeps_sys0; [apply _|]. pub_case. Qed.

Lemma create_dir_all_pub p : K (create_dir_all p).
Proof.
unfold create_dir_all. generalize ([] : path). induction p as [|c p IH]; intros base; simpl.
- apply keeps_ret, _.
- apply keeps_bind; [apply _|apply keeps_get_fs, _|]. intros fs.
  apply keeps_bind; [apply _| |intros _; apply IH].
  destruct (fs !! (base ++ [c])) as [[]|]; auto using keeps_ret, keeps_throw, mkdir_pub with typeclass_instances.
Qed.

Lemma sync_pub : K sync.
Proof. apply keeps_sys0; [apply _|]. pub_case. Qed.

Lemma open_read_pub p : K (open_read p).
Proof. apply keeps_sys0; [apply _|]. pub_case. Qed.

Lemma set_permissions_pub p m : K (set_permissions p m).
Proof. apply keeps_sys0; [apply _|]. pub_case. Qed.

Lemma read_pub p : K (read p).
Proof. apply keeps_sys0; [apply _|]. pub_case. Qed.

Lemma read_dir_pub p : K (read_dir p).
Proof. apply keeps_sys0; [apply _|]. pub_case. Qed.

Lemma remove_dir_pub p : K (remove_dir p).
Proof. apply keeps_sys0; [apply _|]. pub_case. Qed.

Lemma file_create_pub p : tmp_path p = true -> K (file_create p).
Proof. intros Hp. apply keeps_sys0; [apply _|]. pub_case. Qed.

Lemma open_create_pub p : tmp_path p = true -> K (open_create p).
Proof. intros Hp. apply keeps_sys0; [apply _|]. pub_case. Qed.

Lemma remove_file_pub p : tmp_path p = true -> K (remove_file p).
Proof. intros Hp. apply keeps_sys0; [apply _|]. pub_case. Qed.

Lemma append_at_pub p d fs : tmp_path p = true -> pub_eq fs (append_at p d fs).
Proof. intros Hp. unfold append_at. pub_case. Qed.

Lemma write_all_pub p d : tmp_path p = true -> K (write_all p d).
Proof.
intros Hp. apply keeps_sys; [apply _|intros; by apply append_at_pub..].
Qed.

Lemma copy_file_pub a b : tmp_path b = true -> K (copy_file a b).
Proof. intros Hb. apply keeps_sys; [apply _|pub_case|pub_case]. Qed.

Lemma symlink_pub t p : K (symlink t p).
Proof. apply keeps_sys0; [apply _|]. pub_case. Qed.

End pub_frames.

Create HintDb keeps.
#[export] Hint Resolve keeps_ret keeps_throw keeps_lift keeps_get_fs keeps_exists : keeps.
#[export] Hint Resolve mkdir_pub create_dir_all_pub sync_pub open_read_pub set_permissions_pub read_pub
  read_dir_pub remove_dir_pub file_create_pub open_create_pub remove_file_pub write_all_pub copy_file_pub
  symlink_pub : keeps.

(** * Well-formed trees: the root is a directory and so is every parent *)

Definition fs_wf (fs : gmap path node) : Prop :=
  fs !! [] = Some NDir /\
  forall p c n, fs !! (p ++ [c]) = Some n -> fs !! p = Some NDir.

(** Steps that keep a well-formed tree well formed. *)
Definition wf_step : relation (gmap path node) := fun fs fs' => fs_wf fs -> fs_wf fs'.

#[export] Instance wf_step_preorder : PreOrder wf_step.
Proof. unfold wf_step. split; [intros fs; auto|intros f1 f2 f3; auto]. Qed.

Lemma parent_snoc p c : parent_path (p ++ [c]) = p.
Proof. unfold parent_path. apply removelast_last. Qed.

(** A node without children may be put where a node without children was, as long
    as the parent directory exists. *)
Lemma fs_wf_insert fs p n :
  fs_wf fs -> fs !! p <> Some NDir -> fs !! parent_path p = Some NDir -> fs_wf (<[p := n]> fs).
Proof.
intros [Hr Hp] Hn Hpar. destruct (decide (p = [])) as [->|Hne]; [congruence|]. split.
- by rewrite lookup_insert_ne.
- intros q c n'. destruct (decide (q ++ [c] = p)) as [<-|Hqc].
  + intros _. rewrite parent_snoc in Hpar. rewrite lookup_insert_ne; [done|].
    intros E. apply (f_equal length) in E. rewrite length_app in E. simpl in E. lia.
  + rewrite lookup_insert_ne by done. intros Hq%Hp. rewrite lookup_insert_ne; [done|].
    intros <-. done.
Qed.

(** Replacing a node that is not a directory. *)
Lemma fs_wf_replace fs p n n' :
  fs_wf fs -> fs !! p = Some n -> n <> NDir -> fs_wf (<[p := n']> fs).
Proof.
intros Hwf Hp Hn. apply fs_wf_insert; [done|congruence|].
destruct p as [|c p] using rev_ind; [destruct Hwf; congruence|].
rewrite parent_snoc. by eapply Hwf.
Qed.

Lemma fs_wf_delete fs p :
  fs_wf fs -> p <> [] -> (forall c, fs !! (p ++ [c]) = None) -> fs_wf (delete p fs).
Proof.
intros [Hr Hp] Hne Hc. split; [by rewrite lookup_delete_ne|].
intros q c n. rewrite lookup_delete. case_decide as E1; [done|]. intros Hq.
rewrite lookup_delete_ne; [by eapply Hp|]. intros <-. by rewrite Hc in Hq.
Qed.

(** Deleting a node that is not a directory. *)
Lemma fs_wf_delete_leaf fs p n :
  fs_wf fs -> fs !! p = Some n -> n <> NDir -> fs_wf (delete p fs).
Proof.
intros Hwf Hp Hn. pose proof Hwf as [Hr Hpar]. apply fs_wf_delete; [done|congruence|].
intros c. destruct (fs !! (p ++ [c])) eqn:E; [|done]. apply Hpar in E. congruence.
Qed.

Lemma is_dir_true fs p : is_dir fs p = true <-> fs !! p = Some NDir.
Proof. unfold is_dir. by rewrite bool_decide_eq_true. Qed.

Lemma elem_of_children fs p c : c ∈ children fs p <-> is_Some (fs !! (p ++ [c])).
Proof.
unfold children. rewrite list_elem_of_omap. split.
- intros ([q n] & Hq%elem_of_map_to_list & H). destruct (last q); [|done].
  case_bool_decide; simplify_eq. eauto.
- intros [n Hn]. exists (p ++ [c], n). rewrite elem_of_map_to_list, last_snoc.
  rewrite bool_decide_eq_true_2 by done. done.
Qed.

Lemma children_NoDup fs p : NoDup (children fs p).
Proof.
unfold children. pose proof (NoDup_fst_map_to_list fs) as H. revert H.
generalize (map_to_list fs) as l. induction l as [|[q n] l IH]; simpl; [constructor|].
intros [Hq Hl]%NoDup_cons. destruct (last q) as [c|]; [|auto].
case_bool_decide as E; [|auto]. subst q. constructor; [|auto].
rewrite list_elem_of_omap. intros ([q' n'] & Hin & Hc). destruct (last q') as [c'|]; [|done].
case_bool_decide as E'; [|done]. injection Hc as ->. subst q'. apply Hq.
apply list_elem_of_fmap. by exists (p ++ [c], n').
Qed.

Lemma children_nil fs p : children fs p = [] -> forall c, fs !! (p ++ [c]) = None.
Proof.
intros H c. destruct (fs !! (p ++ [c])) eqn:E; [|done].
assert (c ∈ children fs p) as Hc by (apply elem_of_children; eauto). rewrite H in Hc. set_solver.
Qed.

Section wf_frames.
Abbreviation W := (keeps (on_fs wf_step)).

Ltac wf_case :=
  intros; cbn; repeat (case_match; simplify_eq/=); try reflexivity; intros ?;
  repeat match goal with H : is_dir _ _ = true |- _ => rewrite is_dir_true in H end;
  repeat match goal with H : bool_decide _ = true |- _ => rewrite bool_decide_eq_true in H end;
  first [ solve [eapply fs_wf_insert; [done|congruence|done]]
        | solve [eapply fs_wf_replace; [done|eassumption|done]]
        | solve [eapply fs_wf_delete_leaf; [done|eassumption|done]]
        | idtac ].

Lemma mkdir_wf p : W (mkdir p).
Proof. apply keeps_sys0; [apply _|]. wf_case. Qed.

Lemma create_dir_all_wf p : W (create_dir_all p).
Proof.
unfold create_dir_all. generalize ([] : path). induction p as [|c p IH]; intros base; simpl.
- apply keeps_ret, _.
- apply keeps_bind; [apply _|apply keeps_get_fs, _|]. intros fs.
  apply keeps_bind; [apply _| |intros _; apply IH].
  destruct (fs !! (base ++ [c])) as [[]|]; auto using keeps_ret, keeps_throw, mkdir_wf with typeclass_instances.
Qed.

Lemma sync_wf : W sync.
Proof. apply keeps_sys0; [apply _|]. wf_case. Qed.
Lemma open_read_wf p : W (open_read p).
Proof. apply keeps_sys0; [apply _|]. wf_case. Qed.
Lemma set_permissions_wf p m : W (set_permissions p m).
Proof. apply keeps_sys0; [apply _|]. wf_case. Qed.
Lemma read_wf p : W (read p).
Proof. apply keeps_sys0; [apply _|]. wf_case. Qed.
Lemma read_dir_wf p : W (read_dir p).
Proof. apply keeps_sys0; [apply _|]. wf_case. Qed.
Lemma file_create_wf p : W (file_create p).
Proof. apply keeps_sys0; [apply _|]. wf_case. Qed.
Lemma open_create_wf p : W (open_create p).
Proof. apply keeps_sys0; [apply _|]. wf_case. Qed.
Lemma remove_file_wf p : W (remove_file p).
Proof. apply keeps_sys0; [apply _|]. wf_case. Qed.
Lemma append_at_wf p d fs : wf_step fs (append_at p d fs).
Proof. unfold append_at. wf_case. Qed.
Lemma write_all_wf p d : W (write_all p d).
Proof. apply keeps_sys; [apply _|intros; apply append_at_wf..]. Qed.
Lemma copy_file_wf a b : W (copy_file a b).
Proof. apply keeps_sys; [apply _|wf_case|wf_case]. Qed.
Lemma symlink_wf t p : W (symlink t p).
Proof. apply keeps_sys0; [apply _|]. wf_case. Qed.

Lemma remove_dir_wf p : p <> [] -> W (remove_dir p).
Proof.
intros Hne. apply keeps_sys0; [apply _|]. wf_case.
apply fs_wf_delete; [done|done|by apply children_nil].
Qed.

Lemma rename_wf a b : W (rename a b).
Proof.
apply keeps_sys0; [apply _|]. intros fs. cbn. intros Hwf.
destruct (fs !! a) as [n|] eqn:Ea; [|done].
assert (n <> NDir -> is_dir fs (parent_path b) = true -> fs !! b <> Some NDir ->
  fs_wf (<[b := n]> (delete a fs))) as Hok.
{ intros Hn Hb%is_dir_true HbD. apply fs_wf_insert.
  - by eapply fs_wf_delete_leaf.
  - rewrite lookup_delete. case_decide; congruence.
  - rewrite lookup_delete_ne; congruence. }
repeat (case_match; simplify_eq/=); try done; apply Hok; congruence.
Qed.

End wf_frames.

#[export] Hint Resolve mkdir_wf create_dir_all_wf sync_wf open_read_wf set_permissions_wf read_wf read_dir_wf
  file_create_wf open_create_wf remove_file_wf write_all_wf copy_file_wf symlink_wf remove_dir_wf
  rename_wf : keeps.

(** Frame goals for a computation built from calls with known frames. *)
Ltac solve_keeps :=
  repeat first
    [ match goal with
      | |- forall _, _ => intros ?
      | |- keeps _ (mbind _ _) => apply keeps_bind; [apply _| |]
      | |- keeps _ (finally _ _) => apply keeps_finally; [apply _| |]
      | |- keeps _ (try_ _) => apply keeps_try
      | |- keeps _ (ignore _) => apply keeps_ignore; [apply _|]
      | |- keeps _ (for_each _ _) => apply keeps_for_each; [apply _|]
      | |- keeps _ (map_io _ _) => apply keeps_map_io; [apply _|]
      | |- keeps _ (mret _) => apply keeps_ret; apply _
      | |- keeps _ (throw _) => apply keeps_throw; apply _
      | |- keeps _ (lift _) => apply keeps_lift; apply _
      | |- keeps _ get_fs => apply keeps_get_fs; apply _
      | |- keeps _ (exists_ _) => apply keeps_exists; apply _
      end
    | solve [eauto with keeps]
    | case_match ].

(** * Commit logic

    [commits P R m]: started where [P] holds, [m] either changes no published
    file or makes exactly the published change [R], whatever fails and wherever
    it is killed; and when it returns, the change is made. *)

Definition commits {A : Type} (P : gmap path node -> Prop) (R : relation (gmap path node)) (m : IO A) : Prop :=
  forall w, P (w_fs w) ->
    match m w with
    | (Ret _, w') => R (w_fs w) (w_fs w')
    | (_, w') => pub_eq (w_fs w) (w_fs w') \/ R (w_fs w) (w_fs w')
    end.

(** [establishes P m Q]: if [m] returns [a] from a state in [P], then [Q a] holds. *)
Definition establishes {A : Type} (P : gmap path node -> Prop) (m : IO A)
    (Q : A -> gmap path node -> Prop) : Prop :=
  forall w a w', P (w_fs w) -> m w = (Ret a, w') -> Q a (w_fs w').

Section commit_rules.
Context (R : relation (gmap path node)) `{!Proper (pub_eq ==> pub_eq ==> iff) R}.

(** Before the commit point: calls that publish nothing. *)
Lemma commits_before {A B : Type} P (m : IO A) Q (k : A -> IO B) :
  keeps (on_fs pub_eq) m -> establishes P m Q -> (forall a, commits (Q a) R (k a)) ->
  commits P R (m ≫= k).
Proof.
intros Hm He Hk w Hw. specialize (Hm w). cbv [mbind IO_mbind].
destruct (m w) as [[a|e|] w1] eqn:E; simpl in *; [|by left..].
pose proof (Hk a w1 (He _ _ _ Hw E)) as H. unfold on_fs in Hm.
by destruct (k a w1) as [[b|e|] w2]; simpl in *; rewrite Hm.
Qed.

(** After it. *)
Lemma commits_after {A B : Type} P (m : IO A) (k : A -> IO B) :
  commits P R m -> (forall a, keeps (on_fs pub_eq) (k a)) -> commits P R (m ≫= k).
Proof.
intros Hm Hk w Hw. specialize (Hm w Hw). cbv [mbind IO_mbind].
destruct (m w) as [[a|e|] w1] eqn:E; simpl in *; [|done..].
specialize (Hk a w1). unfold on_fs in Hk.
by destruct (k a w1) as [[b|e|] w2]; simpl in *; rewrite <- Hk; auto.
Qed.

Lemma commits_finally {A : Type} P (m : IO A) c :
  commits P R m -> keeps (on_fs pub_eq) c -> commits P R (finally m c).
Proof.
intros Hm Hc w Hw. specialize (Hm w Hw). unfold finally.
destruct (m w) as [[a|e|] w1] eqn:E; simpl in *; [| |done];
  specialize (Hc w1); unfold on_fs in Hc;
  destruct (c w1) as [[b|e'|] w2]; simpl in *; rewrite <- Hc; auto.
Qed.

Lemma commits_pre {A : Type} (P P' : gmap path node -> Prop) (m : IO A) :
  commits P R m -> (forall fs, P' fs -> P fs) -> commits P' R m.
Proof. intros Hm HP w Hw. apply Hm. auto. Qed.

(** The two readings of a commit. *)
Lemma commits_change {A : Type} P (m : IO A) w :
  commits P R m -> P (w_fs w) ->
  pub_eq (w_fs w) (w_fs (m w).2) \/ R (w_fs w) (w_fs (m w).2).
Proof. intros Hm Hw. specialize (Hm w Hw). destruct (m w) as [[a|e|] w1]; simpl; auto. Qed.

Lemma commits_ret {A : Type} P (m : IO A) w a w' :
  commits P R m -> P (w_fs w) -> m w = (Ret a, w') -> R (w_fs w) (w_fs w').
Proof. intros Hm Hw E. specialize (Hm w Hw). by rewrite E in Hm. Qed.

End commit_rules.

(** A successful call ran its effect. *)
Lemma sys_ret {A : Type} (f : gmap path node -> Result A * gmap path node) part w a w' :
  sys f part w = (Ret a, w') -> f (w_fs w) = (Ok a, w_fs w').
Proof.
unfold sys. destruct (w_faults w) as [|[|n|n] l]; simpl; intros H; try done;
  destruct (f (w_fs w)) as [[b|e] fs] eqn:E; simplify_eq; done.
Qed.

Lemma bind_ret {A B} (m : IO A) (k : A -> IO B) w b w' :
  (m ≫= k) w = (Ret b, w') -> exists a w1, m w = (Ret a, w1) /\ k a w1 = (Ret b, w').
Proof.
cbv [mbind IO_mbind]. destruct (m w) as [[a|e|] w1]; [|done..]. eauto.
Qed.

(** A sequence stops after its first part or goes on from the state it left. *)
Lemma bind_cases {A B : Type} (m : IO A) (k : A -> IO B) w :
  (exists a w1, m w = (Ret a, w1) /\ (m ≫= k) w = k a w1) \/
  (((m ≫= k) w).2 = (m w).2 /\ forall b, ((m ≫= k) w).1 <> Ret b).
Proof.
cbv [mbind IO_mbind]. destruct (m w) as [[a|e|] w1]; simpl; [left; eauto|right; done..].
Qed.

(** The rename of a private file is the commit point of every writer. *)
Lemma rename_commits tmp dst c :
  tmp_path tmp = true -> tmp_path dst = false ->
  commits (fun fs => file_at fs tmp = Some c) (pub_put dst c) (rename tmp dst).
Proof.
intros Ht Hd w Hw.
assert (forall n, w_fs w !! tmp = Some n -> n <> NDir ->
  pub_put dst c (w_fs w) (<[dst := n]> (delete tmp (w_fs w)))) as Hput.
{ intros n Hn _ p. unfold file_at in Hw. rewrite Hn in Hw. destruct n as [c' m'| |]; simplify_eq.
  unfold pub. destruct (tmp_path p) eqn:Ep.
  - rewrite decide_False; [done|]. congruence.
  - rewrite file_at_insert. case_decide as E; [done|]. rewrite file_at_delete.
    case_decide; [congruence|done]. }
unfold rename, sys0, sys, io_err.
destruct (w_faults w) as [|[|n|n] l]; cbn; [| |by left..];
  (repeat (case_match; simplify_eq/=); first [by left|by eapply Hput|right; by eapply Hput]).
Qed.

(** A deletion is atomic. *)
Lemma remove_file_commits p :
  tmp_path p = false -> commits (fun _ => True) (pub_del p) (remove_file p).
Proof.
intros Hp w _.
assert (pub_del p (w_fs w) (delete p (w_fs w))) as Hdel.
{ intros q. unfold pub. rewrite file_at_delete. repeat case_match; congruence. }
unfold remove_file, sys0, sys, io_err.
destruct (w_faults w) as [|[|n|n] l]; cbn; [| |by left..];
  repeat (case_match; simplify_eq/=); first [done|by left|by right].
Qed.

(** * Changes confined to a set of paths *)

Definition pub_except (S : path -> Prop) : relation (gmap path node) :=
  fun fs fs' => forall p, ~ S p -> pub fs' p = pub fs p.

#[export] Instance pub_except_preorder S : PreOrder (pub_except S).
Proof.
unfold pub_except. split; [done|]. intros f1 f2 f3 H1 H2 p Hp. by rewrite H2, H1.
Qed.

Lemma pub_eq_except S fs fs' : pub_eq fs fs' -> pub_except S fs fs'.
Proof. intros H p _. apply H. Qed.

Lemma keeps_except {A : Type} S (m : IO A) : keeps (on_fs pub_eq) m -> keeps (on_fs (pub_except S)) m.
Proof. intros H w. by apply pub_eq_except, H. Qed.

Section except_frames.
Context (S : path -> Prop).
Abbreviation E := (keeps (on_fs (pub_except S))).

Lemma except_insert fs p n : S p -> pub_except S fs (<[p := n]> fs).
Proof.
intros Hp q Hq. unfold pub. rewrite file_at_insert. rewrite decide_False; [done|]. by intros ->.
Qed.

Lemma except_delete fs p : S p -> pub_except S fs (delete p fs).
Proof.
intros Hp q Hq. unfold pub. rewrite file_at_delete. rewrite decide_False; [done|]. by intros ->.
Qed.

Lemma append_at_except fs p d : S p -> pub_except S fs (append_at p d fs).
Proof. intros Hp. unfold append_at. repeat case_match; try reflexivity. by apply except_insert. Qed.

Ltac except_case :=
  intros; cbn; repeat (case_match; simplify_eq/=); try reflexivity;
  first [by apply except_insert|by apply except_delete].

Lemma file_create_except p : S p -> E (file_create p).
Proof. intros Hp. apply keeps_sys0; [apply _|]. except_case. Qed.
Lemma open_create_except p : S p -> E (open_create p).
Proof. intros Hp. apply keeps_sys0; [apply _|]. except_case. Qed.
Lemma remove_file_except p : S p -> E (remove_file p).
Proof. intros Hp. apply keeps_sys0; [apply _|]. except_case. Qed.
Lemma write_all_except p d : S p -> E (write_all p d).
Proof. intros Hp. apply keeps_sys; [apply _|intros; by apply append_at_except..]. Qed.
Lemma copy_file_except a b : S b -> E (copy_file a b).
Proof. intros Hb. apply keeps_sys; [apply _|except_case|except_case]. Qed.

End except_frames.

#[export] Hint Resolve file_create_except open_create_except remove_file_except write_all_except
  copy_file_except : keeps.

Lemma pub_put_except S dst c fs fs' : S dst -> pub_put dst c fs fs' -> pub_except S fs fs'.
Proof. intros Hd H p Hp. rewrite H, decide_False; [done|]. by intros ->. Qed.

(** A committed change keeps the files outside the set it writes to. *)
Lemma commits_except {A : Type} S dst c (m : IO A) :
  commits (fun _ => True) (pub_put dst c) m -> S dst -> keeps (on_fs (pub_except S)) m.
Proof.
intros Hm Hd w. destruct (commits_change _ _ m w Hm I) as [H|H].
- by apply pub_eq_except.
- by eapply pub_put_except.
Qed.

(** A run that throws ran no effect on the tree beyond its frame; the failing
    calls of a query. *)
Lemma exists_ret p w b w' : exists_ p w = (Ret b, w') -> b = node_exists (w_fs w) p /\ w' = w.
Proof. cbv [exists_ mbind IO_mbind mret IO_mret get_fs]. intros [= <- <-]. done. Qed.

Lemma node_exists_file fs p c : file_at fs p = Some c -> node_exists fs p = true.
Proof. unfold file_at, node_exists. by repeat case_match. Qed.

Lemma pub_file_at fs p : tmp_path p = false -> pub fs p = file_at fs p.
Proof. intros H. unfold pub. by rewrite H. Qed.

Lemma read_ret p w c w' : read p w = (Ret c, w') -> file_at (w_fs w) p = Some c /\ w_fs w' = w_fs w.
Proof.
intros H%sys_ret. unfold file_at. repeat (case_match; simplify_eq/=); naive_solver.
Qed.

(** Without faults a call is its effect. *)
Lemma sys_calm {A : Type} (f : gmap path node -> Result A * gmap path node) part w a fs :
  w_faults w = [] -> f (w_fs w) = (Ok a, fs) -> sys f part w = (Ret a, set_fs fs w).
Proof. intros Hw Hf. unfold sys, set_fs. rewrite Hw, Hf. done. Qed.

Lemma read_calm p w c :
  w_faults w = [] -> file_at (w_fs w) p = Some c -> read p w = (Ret c, w).
Proof.
intros Hw Hc. unfold read, sys0. unfold file_at in Hc.
rewrite (sys_calm _ _ w c (w_fs w)); [by destruct w| done|].
repeat (case_match; simplify_eq); done.
Qed.

(** * Nodes a computation does not touch at all *)

Definition untouched (S : path -> Prop) : relation (gmap path node) :=
  fun fs fs' => forall p, S p -> fs' !! p = fs !! p.

#[export] Instance untouched_preorder S : PreOrder (untouched S).
Proof.
unfold untouched. split; [done|]. intros f1 f2 f3 H1 H2 p Hp. by rewrite H2, H1.
Qed.

Lemma untouched_keeps {A : Type} S (m : IO A) w p :
  keeps (on_fs (untouched S)) m -> S p -> w_fs (m w).2 !! p = w_fs w !! p.
Proof. intros H Hp. by apply (H w). Qed.

Section untouched_frames.
Context (S : path -> Prop).
Abbreviation U := (keeps (on_fs (untouched S))).

Lemma untouched_insert fs p n : ~ S p -> untouched S fs (<[p := n]> fs).
Proof. intros Hp q Hq. apply lookup_insert_ne. by intros ->. Qed.

Lemma untouched_delete fs p : ~ S p -> untouched S fs (delete p fs).
Proof. intros Hp q Hq. apply lookup_delete_ne. by intros ->. Qed.

Lemma untouched_append_at fs p d : ~ S p -> untouched S fs (append_at p d fs).
Proof. intros Hp. unfold append_at. repeat case_match; try reflexivity. by apply untouched_insert. Qed.

Ltac untouched_case :=
  intros; cbn; repeat (case_match; simplify_eq/=); try reflexivity;
  first [by apply untouched_insert|by apply untouched_delete].

Lemma sync_untouched : U sync.
Proof. apply keeps_sys0; [apply _|]. untouched_case. Qed.
Lemma open_read_untouched p : U (open_read p).
Proof. apply keeps_sys0; [apply _|]. untouched_case. Qed.
Lemma read_untouched p : U (read p).
Proof. apply keeps_sys0; [apply _|]. untouched_case. Qed.
Lemma read_dir_untouched p : U (read_dir p).
Proof. apply keeps_sys0; [apply _|]. untouched_case. Qed.
Lemma open_create_untouched p : ~ S p -> U (open_create p).
Proof. intros Hp. apply keeps_sys0; [apply _|]. untouched_case. Qed.
Lemma file_create_untouched p : ~ S p -> U (file_create p).
Proof. intros Hp. apply keeps_sys0; [apply _|]. untouched_case. Qed.
Lemma remove_file_untouched p : ~ S p -> U (remove_file p).
Proof. intros Hp. apply keeps_sys0; [apply _|]. untouched_case. Qed.
Lemma remove_dir_untouched p : ~ S p -> U (remove_dir p).
Proof. intros Hp. apply keeps_sys0; [apply _|]. untouched_case. Qed.
Lemma set_permissions_untouched p m : ~ S p -> U (set_permissions p m).
Proof. intros Hp. apply keeps_sys0; [apply _|]. untouched_case. Qed.
Lemma write_all_untouched p d : ~ S p -> U (write_all p d).
Proof. intros Hp. apply keeps_sys; [apply _|intros; by apply untouched_append_at..]. Qed.
Lemma copy_file_untouched a b : ~ S b -> U (copy_file a b).
Proof. intros Hb. apply keeps_sys; [apply _|untouched_case|untouched_case]. Qed.

End untouched_frames.

#[export] Hint Resolve sync_untouched open_read_untouched read_untouched read_dir_untouched : keeps.

(** Trees given by a finite list of nodes are checked by evaluation. *)
Lemma fs_wf_check (fs : gmap path node) :
  fs !! [] = Some NDir -> map_Forall (fun p _ => p = [] \/ fs !! parent_path p = Some NDir) fs -> fs_wf fs.
Proof.
intros Hr H. split; [done|]. intros p c n Hn. destruct (H _ _ Hn) as [E|E].
- by apply app_nil in E as [_ ?].
- by rewrite parent_snoc in E.
Qed.

(** A run from its outcome. *)
Lemma run_split {A : Type} (m : IO A) w o : (m w).1 = o -> m w = (o, (m w).2).
Proof. intros <-. apply surjective_pairing. Qed.

(** [then_at p Q m]: [m] stops early without returning and without changing the
    published file [p], or reaches with [p] unchanged a state from which its run is
    related by [Q]. *)
Definition then_at {A : Type} (p : path) (Q : World -> outcome A * World -> Prop) (m : IO A) : Prop :=
  forall v, (pub (w_fs (m v).2) p = pub (w_fs v) p /\ forall a, (m v).1 <> Ret a) \/
    exists v1, pub (w_fs v1) p = pub (w_fs v) p /\ Q v1 (m v).

Lemma then_at_bind {A B : Type} p Q (m : IO A) (k : A -> IO B) :
  keeps (on_fs (pub_except (fun q => q <> p))) m -> (forall a, then_at p Q (k a)) ->
  then_at p Q (m ≫= k).
Proof.
intros Hm Hk v. specialize (Hm v p (fun H => H eq_refl)).
destruct (bind_cases m k v) as [(a & v1 & E & ->)|[E Hn]]; [|left; by rewrite E].
rewrite E in Hm. simpl in Hm. destruct (Hk a v1) as [[H1 H2]|(v2 & H1 & H2)].
- left. by rewrite H1.
- right. exists v2. by rewrite H1.
Qed.

Lemma then_at_here {A B : Type} p (m : IO A) (k : A -> IO B) :
  keeps (on_fs (pub_except (fun q => q <> p))) m ->
  then_at p (fun v r => exists a v2, m v = (Ret a, v2) /\ r = k a v2) (m ≫= k).
Proof.
intros Hm v. specialize (Hm v p (fun H => H eq_refl)).
destruct (bind_cases m k v) as [(a & v1 & E & ->)|[E Hn]]; [right|left; by rewrite E].
exists v. eauto.
Qed.
