(* ===== verification/OwnedTemp.v ===== *)
(** Exclusive staging and atomic publication
    (crates/lightr-store/src/store/cas/owned_temp.rs and [atomic_write] of
    cas/mod.rs): a private directory made by an atomic [mkdir], a payload written
    and synced inside it, and a rename onto the destination. *)

From S2P Require Import Prelude Error Fs FsFacts.

Definition ATTEMPTS : nat := 32.

(** [format!(".tmp-{pid}-{hint}-{n}")] with the process-wide counter. *)
Definition tmp_name (pid : Z) (hint : bytes) (n : Z) : bytes :=
  str ".tmp-" ++ dec pid ++ str "-" ++ hint ++ str "-" ++ dec n.

Definition next_candidate (hint : bytes) : IO bytes := fun w =>
  (Ret (tmp_name (w_pid w) hint (w_next w)),
   mkWorld (w_fs w) (w_faults w) (w_pid w) ((w_next w + 1) mod 2 ^ 64)).

(** [OwnedTemp::reserve]: a name already taken is retried, any other error is
    final. *)
Fixpoint reserve (attempts : nat) (parent : path) (hint : bytes) : IO path :=
  match attempts with
  | O => throw (Io AlreadyExists)
  | S attempts =>
      c ← next_candidate hint;
      r ← try_ (mkdir (parent ++ [c]));
      match r with
      | Ok _ => mret (parent ++ [c])
      | Err e =>
          if bool_decide (e = Io AlreadyExists) then reserve attempts parent hint else throw e
      end
  end.

(** [OwnedTemp::new]; the value is the reserved directory. *)
Definition owned_temp_new (parent : path) (hint : bytes) : IO path := reserve ATTEMPTS parent hint.

Definition payload (dir : path) : path := dir ++ [str "payload"].

(** [Drop for OwnedTemp]. *)
Definition drop_temp (dir : path) : IO unit :=
  _ ← ignore (remove_file (payload dir));
  ignore (remove_dir dir).

(** A staging directory in scope: dropped when the block is left. *)
Definition with_temp {A} (parent : path) (hint : bytes) (body : path -> IO A) : IO A :=
  dir ← owned_temp_new parent hint;
  finally (body (payload dir)) (drop_temp dir).

(** Create the staged file, write it, flush it. *)
Definition write_staged (tmp : path) (data : bytes) : IO unit :=
  _ ← file_create tmp;
  _ ← write_all tmp data;
  sync.

(** [fsync_dir]: open the directory and flush it. *)
Definition fsync_dir (dir : path) : IO unit :=
  _ ← open_read dir;
  sync.

(** [atomic_write]. *)
Definition atomic_write (parent dest : path) (data : bytes) : IO unit :=
  _ ← create_dir_all parent;
  with_temp parent (str "w") (fun tmp =>
    _ ← write_staged tmp data;
    _ ← rename tmp dest;
    fsync_dir parent).

(** * Frames *)

Lemma tmp_name_private pid hint n : private_name (tmp_name pid hint n) = true.
Proof.
unfold private_name, is_tmp_name, tmp_name. rewrite take_app_length' by reflexivity.
rewrite bool_decide_eq_true_2 by reflexivity. done.
Qed.

Lemma keeps_next_candidate R `{!PreOrder R} hint : keeps (on_fs R) (next_candidate hint).
Proof. intros w. unfold on_fs. simpl. reflexivity. Qed.

#[export] Hint Resolve keeps_next_candidate : keeps.

Lemma reserve_keeps R `{!PreOrder R} n parent hint :
  (forall p, keeps (on_fs R) (mkdir p)) -> keeps (on_fs R) (reserve n parent hint).
Proof.
intros Hm. induction n as [|n IH]; simpl; solve_keeps.
Qed.

Lemma reserve_pub n parent hint : keeps (on_fs pub_eq) (reserve n parent hint).
Proof. apply reserve_keeps; [apply _|apply mkdir_pub]. Qed.
Lemma reserve_wf n parent hint : keeps (on_fs wf_step) (reserve n parent hint).
Proof. apply reserve_keeps; [apply _|apply mkdir_wf]. Qed.

#[export] Hint Resolve reserve_pub reserve_wf : keeps.

(** The reserved directory is below [parent] and its name is private. *)
Lemma reserve_dir n parent hint w dir w' :
  reserve n parent hint w = (Ret dir, w') ->
  exists c, dir = parent ++ [c] /\ private_name c = true.
Proof.
revert w. induction n as [|n IH]; intros w; simpl; [done|].
cbv [mbind IO_mbind next_candidate try_].
destruct (mkdir _ _) as [[[]|e|] w1]; [| |done].
- intros [= <- _]. eexists. split; [done|]. apply tmp_name_private.
- case_bool_decide; [|done]. apply IH.
Qed.

Lemma tmp_payload parent c : private_name c = true -> tmp_path (payload (parent ++ [c])) = true.
Proof.
intros Hc. unfold payload. rewrite !tmp_path_app. simpl. rewrite Hc.
by rewrite orb_true_r.
Qed.

Lemma payload_ne_nil dir : payload dir <> [].
Proof. unfold payload. intros [_ ?]%app_nil. done. Qed.

Lemma drop_temp_pub dir : tmp_path (payload dir) = true -> keeps (on_fs pub_eq) (drop_temp dir).
Proof. intros H. unfold drop_temp. solve_keeps. Qed.
Lemma drop_temp_wf dir : dir <> [] -> keeps (on_fs wf_step) (drop_temp dir).
Proof. intros H. unfold drop_temp. solve_keeps. Qed.

#[export] Hint Resolve drop_temp_pub drop_temp_wf : keeps.

Lemma write_staged_pub tmp d : tmp_path tmp = true -> keeps (on_fs pub_eq) (write_staged tmp d).
Proof. intros H. unfold write_staged. solve_keeps. Qed.
Lemma write_staged_wf tmp d : keeps (on_fs wf_step) (write_staged tmp d).
Proof. unfold write_staged. solve_keeps. Qed.

#[export] Hint Resolve write_staged_pub write_staged_wf : keeps.

Lemma fsync_dir_pub dir : keeps (on_fs pub_eq) (fsync_dir dir).
Proof. unfold fsync_dir. solve_keeps. Qed.
Lemma fsync_dir_wf dir : keeps (on_fs wf_step) (fsync_dir dir).
Proof. unfold fsync_dir. solve_keeps. Qed.

#[export] Hint Resolve fsync_dir_pub fsync_dir_wf : keeps.

(** A frame of a staged block from the frames of its body. *)
Lemma with_temp_keeps {A} R `{!PreOrder R} parent hint (body : path -> IO A) :
  (forall p, keeps (on_fs R) (mkdir p)) ->
  (forall c, private_name c = true -> keeps (on_fs R) (body (payload (parent ++ [c])))) ->
  (forall c, private_name c = true -> keeps (on_fs R) (drop_temp (parent ++ [c]))) ->
  keeps (on_fs R) (with_temp parent hint body).
Proof.
intros Hm Hb Hd w. unfold with_temp, owned_temp_new. cbv [mbind IO_mbind].
generalize ATTEMPTS as n. intros n. pose proof (reserve_keeps R n parent hint Hm w) as Hr.
destruct (reserve n parent hint w) as [[dir|e|] w1] eqn:E; simpl in *; [|done..].
apply reserve_dir in E as (c & -> & Hc). etrans; [exact Hr|].
apply keeps_finally; [apply _|by apply Hb|by apply Hd].
Qed.

Lemma with_temp_wf {A} parent hint (body : path -> IO A) :
  (forall tmp, keeps (on_fs wf_step) (body tmp)) ->
  keeps (on_fs wf_step) (with_temp parent hint body).
Proof.
intros Hb. apply with_temp_keeps; [apply _|apply mkdir_wf|auto|].
intros c _. apply drop_temp_wf. intros [_ ?]%app_nil. done.
Qed.

#[export] Hint Resolve with_temp_wf : keeps.

Lemma atomic_write_wf parent dest data : keeps (on_fs wf_step) (atomic_write parent dest data).
Proof.
unfold atomic_write. solve_keeps. apply with_temp_wf. solve_keeps.
Qed.

#[export] Hint Resolve atomic_write_wf : keeps.

(** * What the staged block publishes, under every schedule *)

(** The staged file holds the data once [write_staged] returns. *)
Lemma write_staged_content tmp d P :
  establishes P (write_staged tmp d) (fun _ fs => file_at fs tmp = Some d).
Proof.
intros w [] w' _ ([] & w1 & H1 & ([] & w2 & H2 & H3)%bind_ret)%bind_ret.
apply sys_ret in H1, H2, H3. simplify_eq/=.
assert (exists m, w_fs w1 !! tmp = Some (NFile [] m)) as [m Hm].
{ repeat (case_match; simplify_eq/=); rewrite <- H1, lookup_insert_eq; eauto. }
rewrite <- H3, <- H2. unfold append_at, file_at. by rewrite Hm, lookup_insert_eq.
Qed.

(** A block that commits its staged file commits; the drop publishes nothing. *)
Lemma with_temp_commits {A : Type} R `{!Proper (pub_eq ==> pub_eq ==> iff) R} P parent hint (body : path -> IO A) :
  (forall c, private_name c = true -> commits (fun _ => True) R (body (payload (parent ++ [c])))) ->
  commits P R (with_temp parent hint body).
Proof.
intros Hb. unfold with_temp.
apply (commits_before R P _ (fun dir _ => exists c, dir = parent ++ [c] /\ private_name c = true)).
- apply reserve_pub.
- intros w dir w' _. apply reserve_dir.
- intros dir w (c & -> & Hc). apply (commits_finally R (fun _ => True)); [by apply Hb| |done].
  by apply drop_temp_pub, tmp_payload.
Qed.

Lemma publish_commits parent dest data P :
  tmp_path dest = false ->
  forall c, private_name c = true ->
  commits P (pub_put dest data)
    (_ ← write_staged (payload (parent ++ [c])) data;
     _ ← rename (payload (parent ++ [c])) dest;
     fsync_dir parent).
Proof.
intros Hd c Hc. pose proof (tmp_payload parent c Hc) as Ht.
eapply (commits_before (pub_put dest data)); [by apply write_staged_pub|apply write_staged_content|].
intros []. apply (commits_after (pub_put dest data)); [by apply rename_commits|].
intros []. apply fsync_dir_pub.
Qed.

Lemma atomic_write_commits parent dest data P :
  tmp_path dest = false -> commits P (pub_put dest data) (atomic_write parent dest data).
Proof.
intros Hd. unfold atomic_write.
eapply (commits_before (pub_put dest data) P _ (fun _ _ => True)); [apply create_dir_all_pub|done|].
intros []. apply (with_temp_commits (pub_put dest data)). by apply publish_commits.
Qed.

(** The value of a staged block is its body's. *)
Lemma with_temp_ret {A : Type} parent hint (body : path -> IO A) w a w' :
  with_temp parent hint body w = (Ret a, w') ->
  exists tmp w1 w2, body tmp w1 = (Ret a, w2).
Proof.
intros (dir & w1 & _ & H)%bind_ret. unfold finally in H. exists (payload dir), w1.
destruct (body (payload dir) w1) as [[b|e|] w2]; [| |done];
  destruct (drop_temp dir w2) as [[]]; simplify_eq; eauto.
Qed.

(** * Theorem *)

(** C6: the crash and failure atomicity of [atomic_write].  For every world, hence
    every schedule of I/O failures and a kill at any call: afterwards the published
    files are what they were, or exactly the same with [dest] holding all of
    [data]; and if [atomic_write] returned [Ok], the latter.  No reader ever sees a
    partial file, and no other published file changes. *)
Theorem atomic_write_atomic parent dest data :
  tmp_path dest = false ->
  forall w,
    (pub_eq (w_fs w) (w_fs (atomic_write parent dest data w).2) \/
     pub_put dest data (w_fs w) (w_fs (atomic_write parent dest data w).2)) /\
    (forall w', atomic_write parent dest data w = (Ret tt, w') ->
      pub_put dest data (w_fs w) (w_fs w')).
Proof.
intros Hd w. pose proof (atomic_write_commits parent dest data (fun _ => True) Hd) as H. split.
- by apply (commits_change _ _ _ w H).
- intros w' E. by eapply (commits_ret _ _ _ w _ w' H).
Qed.

(** A concrete run: the destination's directory does not exist yet, the second
    system call of the payload write is cut after two bytes. *)
Definition demo_dest : path := [str "store"; str "HEAD"].
Definition demo_world : World :=
  mkWorld {[ [] := NDir; [str "store"] := NDir; demo_dest := NFile (str "old") 420 ]}
    [FOk; FOk; FCrash 2] 7 0.

Lemma atomic_write_atomic_witness :
  tmp_path demo_dest = false /\
  pub (w_fs (atomic_write [str "store"] demo_dest (str "new") demo_world).2) demo_dest = Some (str "old") /\
  (pub_eq (w_fs demo_world) (w_fs (atomic_write [str "store"] demo_dest (str "new") demo_world).2) \/
   pub_put demo_dest (str "new") (w_fs demo_world)
     (w_fs (atomic_write [str "store"] demo_dest (str "new") demo_world).2)).
Proof.
split; [reflexivity|]. split; [vm_compute; reflexivity|].
apply (atomic_write_atomic [str "store"] demo_dest (str "new") eq_refl demo_world).
Defined.
