(* ===== verification/Calm.v ===== *)
(** Runs without I/O faults: what each computation returns and leaves, exactly.
    The theorems of the form "the operation succeeds and then ..." are proved with
    it; those that hold under every schedule of failures use [FsFacts]. *)

From S2P Require Import Prelude Error Fs FsFacts OwnedTemp.

(** [does m fs r fs']: started on [fs], with no fault to come, [m] gives [r] and
    leaves [fs'], whatever the process id and counter. *)
Definition does {A : Type} (m : IO A) (fs : gmap path node) (r : Result A) (fs' : gmap path node) : Prop :=
  forall w, w_faults w = [] -> w_fs w = fs ->
  exists w', m w = (match r with Ok a => Ret a | Err e => Throw e end, w') /\
    w_fs w' = fs' /\ w_faults w' = [].

Lemma does_ret {A : Type} (a : A) fs : does (mret a) fs (Ok a) fs.
Proof. intros w Hw Hfs. by exists w. Qed.

Lemma does_throw {A : Type} e fs : does (throw e : IO A) fs (Err e) fs.
Proof. intros w Hw Hfs. by exists w. Qed.

Lemma does_lift {A : Type} (r : Result A) fs : does (lift r) fs r fs.
Proof. destruct r; [apply does_ret|apply does_throw]. Qed.

Lemma does_bind {A B : Type} (m : IO A) (k : A -> IO B) fs a fs1 r fs2 :
  does m fs (Ok a) fs1 -> does (k a) fs1 r fs2 -> does (m ≫= k) fs r fs2.
Proof.
intros Hm Hk w Hw Hfs. destruct (Hm w Hw Hfs) as (w1 & E & Hfs1 & Hw1).
cbv [mbind IO_mbind]. rewrite E. by apply Hk.
Qed.

Lemma does_bind_err {A B : Type} (m : IO A) (k : A -> IO B) fs e fs1 :
  does m fs (Err e) fs1 -> does (m ≫= k) fs (Err e) fs1.
Proof.
intros Hm w Hw Hfs. destruct (Hm w Hw Hfs) as (w1 & E & Hfs1 & Hw1).
cbv [mbind IO_mbind]. rewrite E. by exists w1.
Qed.

Lemma does_assoc {A B C : Type} (m : IO A) (f : A -> IO B) (g : B -> IO C) fs r fs' :
  does ((m ≫= f) ≫= g) fs r fs' -> does (m ≫= fun x => f x ≫= g) fs r fs'.
Proof.
intros H w Hw Hfs. destruct (H w Hw Hfs) as (w' & E & Hr). exists w'. split; [|done].
rewrite <- E. cbv [mbind IO_mbind]. by destruct (m w) as [[a|e|] w1].
Qed.

Lemma does_get_fs fs : does get_fs fs (Ok fs) fs.
Proof. intros w Hw <-. by exists w. Qed.

Lemma does_exists p fs : does (exists_ p) fs (Ok (node_exists fs p)) fs.
Proof. eapply does_bind; [apply does_get_fs|apply does_ret]. Qed.

Lemma does_try {A : Type} (m : IO A) fs r fs' : does m fs r fs' -> does (try_ m) fs (Ok r) fs'.
Proof.
intros Hm w Hw Hfs. destruct (Hm w Hw Hfs) as (w1 & E & Hfs1 & Hw1). exists w1.
unfold try_. rewrite E. by destruct r.
Qed.

Lemma does_ignore {A : Type} (m : IO A) fs r fs' : does m fs r fs' -> does (ignore m) fs (Ok tt) fs'.
Proof. intros Hm. eapply does_bind; [by apply does_try|apply does_ret]. Qed.

Lemma does_finally {A : Type} (m : IO A) c fs r fs1 r' fs2 :
  does m fs r fs1 -> does c fs1 r' fs2 -> does (finally m c) fs r fs2.
Proof.
intros Hm Hc w Hw Hfs. destruct (Hm w Hw Hfs) as (w1 & E & Hfs1 & Hw1).
destruct (Hc w1 Hw1 Hfs1) as (w2 & E2 & Hfs2 & Hw2). exists w2.
unfold finally. rewrite E. by destruct r, r'; rewrite E2.
Qed.

Lemma does_sys {A : Type} (f : gmap path node -> Result A * gmap path node) part fs :
  does (sys f part) fs (f fs).1 (f fs).2.
Proof.
intros w Hw <-. unfold sys. rewrite Hw.
destruct (f (w_fs w)) as [[a|e] fs'] eqn:E; simpl; eauto.
Qed.

Lemma does_sys_eq {A : Type} (f : gmap path node -> Result A * gmap path node) part fs r fs' :
  f fs = (r, fs') -> does (sys f part) fs r fs'.
Proof. intros E. pose proof (does_sys f part fs) as H. by rewrite E in H. Qed.

Lemma does_sys0 {A : Type} (f : gmap path node -> Result A * gmap path node) fs r fs' :
  f fs = (r, fs') -> does (sys0 f) fs r fs'.
Proof. apply does_sys_eq. Qed.

(** The result of a run without faults. *)
Lemma does_run {A : Type} (m : IO A) fs a fs' w :
  does m fs (Ok a) fs' -> w_faults w = [] -> w_fs w = fs ->
  exists w', m w = (Ret a, w') /\ w_fs w' = fs' /\ w_faults w' = [].
Proof. intros H. apply H. Qed.

Lemma does_map_io {A B : Type} (f : A -> IO B) (g : A -> B) l fs :
  (forall a, a ∈ l -> does (f a) fs (Ok (g a)) fs) -> does (map_io f l) fs (Ok (g <$> l)) fs.
Proof.
induction l as [|a l IH]; intros H; [apply does_ret|]. simpl.
eapply does_bind; [apply H; set_solver|]. eapply does_bind; [apply IH; set_solver|]. apply does_ret.
Qed.

(** * The calls *)

Lemma does_read p c fs : file_at fs p = Some c -> does (read p) fs (Ok c) fs.
Proof.
intros H. apply does_sys0. unfold file_at in H. by repeat (case_match; simplify_eq).
Qed.

Lemma does_sync fs : does sync fs (Ok tt) fs.
Proof. by apply does_sys0. Qed.

Lemma does_open_read_dir p fs : fs !! p = Some NDir -> does (open_read p) fs (Ok tt) fs.
Proof. intros H. apply does_sys0. by rewrite H. Qed.

Lemma does_fsync_dir p fs : fs !! p = Some NDir -> does (fsync_dir p) fs (Ok tt) fs.
Proof. intros H. eapply does_bind; [by apply does_open_read_dir|apply does_sync]. Qed.

Lemma does_read_dir p fs : fs !! p = Some NDir -> does (read_dir p) fs (Ok (children fs p)) fs.
Proof. intros H. apply does_sys0. by rewrite H. Qed.

Lemma does_set_permissions p c m m' fs :
  fs !! p = Some (NFile c m) -> does (set_permissions p m') fs (Ok tt) (<[p := NFile c m']> fs).
Proof. intros H. apply does_sys0. by rewrite H. Qed.

Lemma delete_all_lookup ps fs q : delete_all ps fs !! q = if decide (q ∈ ps) then None else fs !! q.
Proof.
unfold delete_all. revert fs. induction ps as [|p ps IH]; intros fs; simpl; [done|].
rewrite IH, lookup_delete. repeat case_decide; try done; set_solver.
Qed.

Lemma elem_of_nodes_below fs p q : q ∈ nodes_below fs p <-> p `prefix_of` q /\ is_Some (fs !! q).
Proof.
unfold nodes_below. rewrite (sort_by_perm _ _), list_elem_of_filter, list_elem_of_fmap. split.
- intros [Hp ([q' n] & -> & Hn%elem_of_map_to_list)]. split; [done|]. by exists n.
- intros [Hp [n Hn]]. split; [done|]. exists (q, n). by rewrite elem_of_map_to_list.
Qed.

Lemma delete_below_lookup fs p q :
  delete_all (nodes_below fs p) fs !! q = if decide (p `prefix_of` q) then None else fs !! q.
Proof.
rewrite delete_all_lookup. destruct (decide (q ∈ nodes_below fs p)) as [[Hq _]%elem_of_nodes_below|Hn].
- by rewrite decide_True.
- case_decide as Hp; [|done]. destruct (fs !! q) eqn:Eq; [|done]. destruct Hn. apply elem_of_nodes_below. by rewrite Eq.
Qed.

Lemma does_remove_dir_all p fs :
  fs !! p = Some NDir -> does (remove_dir_all p) fs (Ok tt) (delete_all (nodes_below fs p) fs).
Proof. intros E. apply does_sys_eq. by rewrite E. Qed.

Lemma does_remove_file p c m fs :
  fs !! p = Some (NFile c m) -> does (remove_file p) fs (Ok tt) (delete p fs).
Proof. intros H. apply does_sys0. by rewrite H. Qed.

(** * Directories *)

Fixpoint add_dirs_below (base : path) (rest : list bytes) (fs : gmap path node) : gmap path node :=
  match rest with
  | [] => fs
  | c :: rest =>
      add_dirs_below (base ++ [c]) rest
        (match fs !! (base ++ [c]) with Some _ => fs | None => <[base ++ [c] := NDir]> fs end)
  end.

(** The tree after [create_dir_all]. *)
Definition add_dirs (p : path) (fs : gmap path node) : gmap path node := add_dirs_below [] p fs.

(** Every prefix of [p] is a directory or free. *)
Definition dirs_ok (p : path) (fs : gmap path node) : Prop :=
  forall q, q `prefix_of` p -> fs !! q = None \/ fs !! q = Some NDir.

Lemma prefix_snoc_inv (q b : path) (c : bytes) :
  q `prefix_of` b ++ [c] -> q = b ++ [c] \/ q `prefix_of` b.
Proof.
intros [k Hk]. destruct k as [|x k _] using rev_ind.
- left. by rewrite app_nil_r in Hk.
- right. rewrite app_assoc in Hk. apply app_inj_tail in Hk as [-> _]. by apply prefix_app_r.
Qed.

Lemma does_mkdir_below base rest fs :
  dirs_ok (base ++ rest) fs -> fs !! base = Some NDir ->
  does (mkdir_below base rest) fs (Ok tt) (add_dirs_below base rest fs) /\
  (forall q, add_dirs_below base rest fs !! q =
    if decide (q `prefix_of` base ++ rest /\ ~ q `prefix_of` base) then Some NDir else fs !! q).
Proof.
revert base fs. induction rest as [|c rest IH]; intros base fs Hok Hb.
- split; [apply does_ret|]. intros q. rewrite app_nil_r. rewrite decide_False; [done|]. naive_solver.
- set (fs1 := match fs !! (base ++ [c]) with Some _ => fs | None => <[base ++ [c] := NDir]> fs end).
  assert (forall q, fs1 !! q = if decide (q = base ++ [c]) then Some NDir else fs !! q) as Hfs1.
  { intros q. unfold fs1. destruct (Hok (base ++ [c])) as [E|E].
    { exists rest. by rewrite <- app_assoc. }
    - rewrite E. rewrite lookup_insert. repeat case_decide; congruence.
    - rewrite E. case_decide; congruence. }
  destruct (IH (base ++ [c]) fs1) as [Hd Hl].
  { intros q Hq. rewrite <- app_assoc in Hq. rewrite Hfs1. case_decide; [by right|]. by apply Hok. }
  { rewrite Hfs1. by rewrite decide_True. }
  split.
  + cbn [mkdir_below add_dirs_below]. fold fs1. eapply does_bind; [apply does_get_fs|].
    cbv beta. eapply does_bind; [|exact Hd]. destruct (Hok (base ++ [c])) as [E|E].
    { exists rest. by rewrite <- app_assoc. }
    * unfold fs1. rewrite E. apply does_sys0. rewrite E, parent_snoc.
      by rewrite (proj2 (is_dir_true fs base) Hb).
    * unfold fs1. rewrite E. apply does_ret.
  + intros q. cbn [add_dirs_below]. fold fs1. rewrite Hl, Hfs1. rewrite <- app_assoc. simpl.
    destruct (decide (q = base ++ [c])) as [->|Hq].
    * assert (base ++ [c] `prefix_of` base ++ c :: rest)
        by (exists rest; by rewrite <- app_assoc).
      assert (~ base ++ [c] `prefix_of` base).
      { intros [k Hk]. apply (f_equal length) in Hk. rewrite !length_app in Hk. simpl in Hk. lia. }
      repeat case_decide; naive_solver.
    * assert (q `prefix_of` base ++ [c] <-> q `prefix_of` base) as Hiff.
      { split; [|intros; by apply prefix_app_r]. by intros [?|?]%prefix_snoc_inv. }
      repeat case_decide; naive_solver.
Qed.

Lemma does_create_dir_all p fs :
  fs_wf fs -> dirs_ok p fs -> does (create_dir_all p) fs (Ok tt) (add_dirs p fs).
Proof. intros [Hr _] Hok. by apply does_mkdir_below. Qed.

Lemma add_dirs_lookup p fs q :
  fs_wf fs -> dirs_ok p fs ->
  add_dirs p fs !! q = if decide (q `prefix_of` p) then Some NDir else fs !! q.
Proof.
intros [Hr _] Hok. destruct (does_mkdir_below [] p fs Hok Hr) as [_ H]. unfold add_dirs. rewrite H. simpl.
destruct (decide (q = [])) as [->|Hne].
- rewrite decide_False by naive_solver. by rewrite decide_True by apply prefix_nil.
- assert (~ q `prefix_of` []) by (by intros ?%prefix_nil_inv). repeat case_decide; naive_solver.
Qed.

(** * Staged writes *)

(** No staging directory is left anywhere. *)
Definition tmp_free (fs : gmap path node) : Prop :=
  forall p n, fs !! p = Some n -> existsb is_tmp_name p = false.

Definition tmp_clean (p : path) : Prop := existsb is_tmp_name p = false.

Lemma tmp_name_is_tmp pid hint n : is_tmp_name (tmp_name pid hint n) = true.
Proof.
unfold is_tmp_name, tmp_name. rewrite take_app_length' by reflexivity.
by rewrite bool_decide_eq_true_2 by reflexivity.
Qed.

Lemma tmp_free_fresh fs p c q : tmp_free fs -> is_tmp_name c = true -> fs !! (p ++ c :: q) = None.
Proof.
intros H Hc. destruct (fs !! _) as [n|] eqn:E; [|done]. apply H in E.
rewrite existsb_app in E. simpl in E. rewrite Hc in E. by destruct (existsb is_tmp_name p).
Qed.

Lemma tmp_clean_ne dest p c q : tmp_clean dest -> is_tmp_name c = true -> dest <> p ++ c :: q.
Proof.
intros H Hc ->. unfold tmp_clean in H. rewrite existsb_app in H. simpl in H. rewrite Hc in H.
by destruct (existsb is_tmp_name p).
Qed.

(** A staged block: the reserved directory has a fresh private name; the body and
    the drop of the guard end in a tree that does not depend on it. *)
Lemma does_with_temp {A : Type} parent hint (body : path -> IO A) fs (r : Result A) fs2 :
  fs !! parent = Some NDir -> tmp_free fs ->
  (forall c, is_tmp_name c = true ->
    exists fs1, does (body (payload (parent ++ [c]))) (<[parent ++ [c] := NDir]> fs) r fs1 /\
      does (drop_temp (parent ++ [c])) fs1 (Ok tt) fs2) ->
  does (with_temp parent hint body) fs r fs2.
Proof.
intros Hp Ht Hb w Hw Hfs. set (c := tmp_name (w_pid w) hint (w_next w)).
pose proof (tmp_name_is_tmp (w_pid w) hint (w_next w)) as Hc. fold c in Hc.
destruct (Hb c Hc) as (fs1 & H1 & H2).
set (w1 := mkWorld (w_fs w) (w_faults w) (w_pid w) ((w_next w + 1) mod 2 ^ 64)).
assert (does (mkdir (parent ++ [c])) fs (Ok tt) (<[parent ++ [c] := NDir]> fs)) as Hm.
{ apply does_sys0. rewrite (tmp_free_fresh fs parent c [] Ht Hc), parent_snoc.
  by rewrite (proj2 (is_dir_true fs parent) Hp). }
destruct (Hm w1 Hw Hfs) as (w2 & E2 & Hfs2 & Hw2).
destruct (does_finally _ _ _ _ _ _ _ H1 H2 w2 Hw2 Hfs2) as (w3 & E3 & Hfs3 & Hw3).
exists w3. split; [|done]. unfold with_temp, owned_temp_new. change ATTEMPTS with (S 31). cbn [reserve].
cbv [mbind IO_mbind next_candidate]. fold c. fold w1. unfold try_. rewrite E2. exact E3.
Qed.

Lemma does_write_staged tmp data fs :
  fs !! tmp = None -> fs !! parent_path tmp = Some NDir ->
  does (write_staged tmp data) fs (Ok tt) (<[tmp := NFile data CREATE_MODE]> fs).
Proof.
intros Hn Hd. eapply does_bind; [apply does_sys0; rewrite Hn, (proj2 (is_dir_true fs _) Hd); reflexivity|].
eapply does_bind; [apply does_sys_eq; reflexivity|].
cbv beta. unfold append_at. rewrite lookup_insert_eq. simpl. rewrite insert_insert_eq. apply does_sync.
Qed.

Lemma does_rename_file a b c m fs :
  fs !! a = Some (NFile c m) -> fs !! b <> Some NDir -> fs !! parent_path b = Some NDir ->
  does (rename a b) fs (Ok tt) (<[b := NFile c m]> (delete a fs)).
Proof.
intros Ha Hb Hp. apply does_sys0. rewrite Ha, (proj2 (is_dir_true fs _) Hp).
destruct (fs !! b) as [[]|]; done.
Qed.

(** Dropping an empty staging directory. *)
Lemma does_drop_empty dir fs :
  fs !! dir = Some NDir -> (forall c, fs !! (dir ++ [c]) = None) ->
  does (drop_temp dir) fs (Ok tt) (delete dir fs).
Proof.
intros Hd Hc. eapply does_bind.
- eapply does_ignore. apply does_sys0. unfold payload. by rewrite Hc.
- cbv beta. eapply does_ignore. apply does_sys0. rewrite Hd. rewrite bool_decide_eq_true_2; [done|].
  destruct (children fs dir) as [|c l] eqn:E; [done|].
  assert (c ∈ children fs dir) as [n Hn]%elem_of_children by (rewrite E; set_solver). congruence.
Qed.

(** The tree after a published write: the missing directories and the file. *)
Definition put_file (dest : path) (c : bytes) (mode : Z) (fs : gmap path node) : gmap path node :=
  <[dest := NFile c mode]> (add_dirs (parent_path dest) fs).

(** Where a file may be published: its directories exist or are free, it is not a
    directory, and no component of its name is a staging name. *)
Definition slot_ok (dest : path) (fs : gmap path node) : Prop :=
  dest <> [] /\ dirs_ok (parent_path dest) fs /\ fs !! dest <> Some NDir /\ tmp_clean dest.

Lemma snoc_ne (p : path) c : p ++ [c] <> p.
Proof. intros E. apply (f_equal length) in E. rewrite length_app in E. simpl in E. lia. Qed.

(** A staged block whose body ends with the file published and the staging
    directory empty. *)
Lemma does_staged {A : Type} parent dest hint data mode (body : path -> IO A) fs (r : Result A) :
  fs !! parent = Some NDir -> tmp_free fs -> tmp_clean dest ->
  (forall c, is_tmp_name c = true ->
    (forall q, fs !! ((parent ++ [c]) ++ q) = None) -> (forall q, dest <> (parent ++ [c]) ++ q) ->
    does (body (payload (parent ++ [c]))) (<[parent ++ [c] := NDir]> fs) r
      (<[dest := NFile data mode]> (<[parent ++ [c] := NDir]> fs))) ->
  does (with_temp parent hint body) fs r (<[dest := NFile data mode]> fs).
Proof.
intros Hp Ht Hd Hbody. apply does_with_temp; [done|done|]. intros c Hc. specialize (Hbody c Hc).
set (dir := parent ++ [c]) in *.
assert (forall q, fs !! (dir ++ q) = None) as Hfree
  by (intros q; unfold dir; rewrite <- app_assoc; by apply tmp_free_fresh).
pose proof (Hfree []) as Hdir. rewrite app_nil_r in Hdir.
assert (forall q, dest <> dir ++ q) as Hne
  by (intros q; unfold dir; rewrite <- app_assoc; by apply tmp_clean_ne).
pose proof (Hne []) as Hned. rewrite app_nil_r in Hned.
exists (<[dest := NFile data mode]> (<[dir := NDir]> fs)). split; [by apply Hbody|].
assert (delete dir (<[dest := NFile data mode]> (<[dir := NDir]> fs)) = <[dest := NFile data mode]> fs) as <-.
{ rewrite delete_insert_ne by congruence. by rewrite delete_insert_id. }
apply does_drop_empty.
- rewrite lookup_insert_ne by congruence. by rewrite lookup_insert_eq.
- intros x. rewrite lookup_insert_ne by apply Hne. rewrite lookup_insert_ne; [apply Hfree|].
  intros E. by apply (snoc_ne dir x).
Qed.

(** The staged file renamed onto its destination. *)
Lemma does_rename_staged parent c dest data mode fs :
  fs !! parent = Some NDir -> parent_path dest = parent -> fs !! dest <> Some NDir ->
  (forall q, fs !! ((parent ++ [c]) ++ q) = None) -> (forall q, dest <> (parent ++ [c]) ++ q) ->
  does (rename (payload (parent ++ [c])) dest)
    (<[payload (parent ++ [c]) := NFile data mode]> (<[parent ++ [c] := NDir]> fs)) (Ok tt)
    (<[dest := NFile data mode]> (<[parent ++ [c] := NDir]> fs)).
Proof.
intros Hp Hpar Hnd Hfree Hne. set (dir := parent ++ [c]) in *.
assert (payload dir <> dir) as Hpd by apply snoc_ne. pose proof (Hne []) as Hned. rewrite app_nil_r in Hned.
rewrite <- (delete_insert_id (<[dir := NDir]> fs) (payload dir) (NFile data mode)) at 2.
2:{ rewrite lookup_insert_ne by congruence. apply Hfree. }
apply does_rename_file.
- by rewrite lookup_insert_eq.
- rewrite !lookup_insert_ne; [done|congruence|]. intros E. by apply (Hne [str "payload"]).
- rewrite Hpar. rewrite !lookup_insert_ne; [done| |].
  + intros E. by apply (snoc_ne parent c).
  + intros E. apply (f_equal length) in E. unfold payload, dir in E.
    rewrite !length_app in E. simpl in E. lia.
Qed.

(** Stage [data] and rename it, run [rest], drop the staging directory. *)
Lemma does_publish {A : Type} parent dest hint data (rest : IO A) fs (r : Result A) mode :
  fs !! parent = Some NDir -> tmp_free fs -> tmp_clean dest -> parent_path dest = parent ->
  fs !! dest <> Some NDir ->
  (forall c, is_tmp_name c = true ->
     does rest (<[dest := NFile data CREATE_MODE]> (<[parent ++ [c] := NDir]> fs)) r
       (<[dest := NFile data mode]> (<[parent ++ [c] := NDir]> fs))) ->
  does (with_temp parent hint (fun tmp =>
    _ ← write_staged tmp data; _ ← rename tmp dest; rest)) fs r (<[dest := NFile data mode]> fs).
Proof.
intros Hp Ht Hd Hpar Hnd Hrest. apply does_staged; [done|done|done|]. intros c Hc Hfree Hne.
eapply does_bind.
{ apply does_write_staged.
  - rewrite lookup_insert_ne; [apply Hfree|]. intros E. by apply (snoc_ne (parent ++ [c]) (str "payload")).
  - unfold payload. rewrite parent_snoc. by rewrite lookup_insert_eq. }
cbv beta. eapply does_bind; [by apply does_rename_staged|]. by apply Hrest.
Qed.

(** The ancestors exist after [create_dir_all]. *)
Lemma add_dirs_facts p fs :
  fs_wf fs -> dirs_ok p fs -> tmp_free fs -> tmp_clean p ->
  add_dirs p fs !! p = Some NDir /\ tmp_free (add_dirs p fs).
Proof.
intros Hwf Hok Ht Hp. split.
- rewrite add_dirs_lookup by done. by rewrite decide_True.
- intros q n. rewrite add_dirs_lookup by done. case_decide as Hq; [|apply Ht]. intros _.
  destruct Hq as [k ->]. unfold tmp_clean in Hp. rewrite existsb_app in Hp.
  by destruct (existsb is_tmp_name q).
Qed.

Lemma tmp_clean_parent p : tmp_clean p -> tmp_clean (parent_path p).
Proof.
destruct p as [|c p _] using rev_ind; [done|]. rewrite parent_snoc.
unfold tmp_clean. rewrite existsb_app. by destruct (existsb is_tmp_name p).
Qed.

Lemma dest_not_prefix dest : dest <> [] -> ~ dest `prefix_of` parent_path dest.
Proof.
destruct dest as [|c p _] using rev_ind; [done|]. rewrite parent_snoc. intros _ [k Hk].
apply (f_equal length) in Hk. rewrite !length_app in Hk. simpl in Hk. lia.
Qed.

(** [atomic_write], exactly. *)
Lemma does_atomic_write parent dest data fs :
  fs_wf fs -> tmp_free fs -> slot_ok dest fs -> parent_path dest = parent ->
  does (atomic_write parent dest data) fs (Ok tt) (put_file dest data CREATE_MODE fs).
Proof.
intros Hwf Ht (Hne & Hok & Hnd & Hc) <-. unfold atomic_write, put_file.
destruct (add_dirs_facts _ fs Hwf Hok Ht (tmp_clean_parent _ Hc)) as [Hp Ht'].
eapply does_bind; [by apply does_create_dir_all|]. cbv beta.
apply does_publish; [done|done|done|done| |].
- rewrite add_dirs_lookup by done. rewrite decide_False; [done|]. by apply dest_not_prefix.
- intros c Hx. apply does_fsync_dir. rewrite !lookup_insert_ne; [done| |].
  + intros E. by apply (snoc_ne (parent_path dest) c).
  + intros E. apply (dest_not_prefix dest Hne). by rewrite <- E.
Qed.

Lemma put_file_lookup dest c m fs q :
  fs_wf fs -> dirs_ok (parent_path dest) fs ->
  put_file dest c m fs !! q =
    if decide (q = dest) then Some (NFile c m)
    else if decide (q `prefix_of` parent_path dest) then Some NDir else fs !! q.
Proof.
intros Hwf Hok. unfold put_file. rewrite lookup_insert. rewrite add_dirs_lookup by done.
repeat case_decide; congruence.
Qed.

(** [put_file] keeps the tree well formed and free of staging directories. *)
Lemma put_file_wf dest c m fs :
  fs_wf fs -> slot_ok dest fs -> fs_wf (put_file dest c m fs).
Proof.
intros Hwf (Hne & Hok & Hnd & _). split.
- rewrite put_file_lookup by done. rewrite decide_False by congruence.
  by rewrite decide_True by apply prefix_nil.
- intros q x n. rewrite !put_file_lookup by done. destruct (decide (q ++ [x] = dest)) as [<-|Hqx].
  + intros _. rewrite parent_snoc. rewrite decide_False by (intros E; by apply (snoc_ne q x)).
    by rewrite decide_True.
  + destruct (decide (q ++ [x] `prefix_of` parent_path dest)) as [Hpre|Hpre].
    * intros _. assert (q `prefix_of` parent_path dest) as Hq by (etrans; [|exact Hpre]; by apply prefix_app_r).
      rewrite decide_False; [by rewrite decide_True|]. intros ->. by apply (dest_not_prefix dest Hne).
    * intros Hq%Hwf. repeat case_decide; congruence.
Qed.

Lemma put_file_tmp_free dest c m fs :
  fs_wf fs -> tmp_free fs -> slot_ok dest fs -> tmp_free (put_file dest c m fs).
Proof.
intros Hwf Ht (Hne & Hok & Hnd & Hc). destruct (add_dirs_facts _ fs Hwf Hok Ht (tmp_clean_parent _ Hc)) as [_ H].
intros q n. unfold put_file. rewrite lookup_insert. case_decide as E; [subst; intros _; exact Hc|apply H].
Qed.

(** The published files after a published write. *)
Lemma put_file_pub dest c m fs :
  fs_wf fs -> slot_ok dest fs -> tmp_path dest = false -> pub_put dest c fs (put_file dest c m fs).
Proof.
intros Hwf (_ & Hok & _) Ht p. unfold pub. destruct (tmp_path p) eqn:Hp.
- rewrite decide_False; [done|congruence].
- unfold file_at. rewrite put_file_lookup by done. repeat case_decide; try done.
  by destruct (Hok p) as [->| ->].
Qed.
