(* ===== verification/Cas.v ===== *)
(** The content-addressed object plane (crates/lightr-store/src/store/cas/mod.rs,
    cow.rs, lock.rs and [Store::open] of lib.rs): write guard, copy-on-write
    ladder on Linux, [put_bytes], [ingest_file], [get_bytes], [open_verified],
    [materialize_file], [remove_object].  The theorems hold in every world, that
    is for every schedule of failures and a kill at any call. *)

From S2P Require Import Prelude Error Digest Fs FsFacts OwnedTemp.

(** * Paths *)

Definition shard_parts (hex : bytes) : bytes * bytes := (take 2 hex, drop 2 hex).

(** [<root>/<plane>/<2hex>] and [<root>/<plane>/<2hex>/<62hex>]. *)
Definition shard_dir (root : path) (plane : bytes) (d : digest) : path :=
  root ++ [plane; (shard_parts (to_hex d)).1].
Definition sharded (root : path) (plane : bytes) (d : digest) : path :=
  shard_dir root plane d ++ [(shard_parts (to_hex d)).2].

Definition object_path (root : path) (d : digest) : path := sharded root (str "objects") d.

(** * The lock file *)

Definition gc_lock_path (root : path) : path := root ++ [GC_LOCK].
Definition gc_lock_file (root : path) : IO unit := open_create (gc_lock_path root).

(** Open the lock file, take the shared (exclusive) [flock]; the guard's drop
    releases it and touches nothing. *)
Definition write_guard (root : path) : IO unit := _ ← gc_lock_file root; sync.
Definition gc_guard (root : path) : IO unit := _ ← gc_lock_file root; sync.

(** * The copy-on-write ladder *)

Inductive CowRung := Clone | Reflink | CopyRange | RefsBlockClone | Copy.

#[export] Instance CowRung_eq_dec : EqDecision CowRung.
Proof. solve_decision. Defined.

(** The content of an open source file, as the kernel sees it at the call. *)
Definition clone_into (src dst : path) : IO unit :=
  sys0 (fun fs =>
    match file_at fs src with
    | Some c => (Ok tt, append_at dst c fs)
    | None => io_err OtherKind fs
    end).

(** [cow_reflink]: the destination is created empty, FICLONE fills it or fails. *)
Definition cow_reflink (src dst : path) : IO unit :=
  _ ← open_read src;
  _ ← file_create dst;
  clone_into src dst.

(** [cow_copy_range]: the loop of [copy_file_range] calls copies the source's
    bytes in order; a failing call leaves a prefix. *)
Definition cow_copy_range (src dst : path) : IO unit :=
  _ ← open_read src;
  _ ← file_create dst;
  fs ← get_fs;
  match file_at fs src with
  | Some c => write_all dst c
  | None => throw (Io OtherKind)
  end.

(** [try_cow_at_rung] as compiled for Linux: the other rungs copy. *)
Definition try_cow_at_rung (src dst : path) (rung : CowRung) : IO unit :=
  match rung with
  | Reflink => cow_reflink src dst
  | CopyRange => cow_copy_range src dst
  | _ => copy_file src dst
  end.

Definition create_parent (dst : path) : IO unit :=
  if bool_decide (dst = []) then mret tt else create_dir_all (parent_path dst).

Definition cow_or_copy (src dst : path) (rung : CowRung) : IO unit :=
  r ← try_ (try_cow_at_rung src dst rung);
  match r with
  | Ok _ => mret tt
  | Err _ => _ ← ignore (remove_file dst); copy_file src dst
  end.

Definition cow_copy_file (src dst : path) (rung : CowRung) : IO unit :=
  _ ← create_parent dst;
  cow_or_copy src dst rung.

Definition try_ladder_probe (src dst : path) : IO CowRung :=
  _ ← ignore (remove_file dst);
  r ← try_ (cow_reflink src dst);
  if is_ok r then mret Reflink else
  _ ← ignore (remove_file dst);
  r ← try_ (cow_copy_range src dst);
  if is_ok r then mret CopyRange else mret Copy.

Definition probe_rung (root : path) : IO CowRung :=
  let src := root ++ [str ".probe-src"] in
  let dst := root ++ [str ".probe-dst"] in
  r ← try_ (_ ← file_create src; write_all src (str "probe"));
  if negb (is_ok r) then mret Copy else
  rung ← try_ladder_probe src dst;
  _ ← ignore (remove_file src);
  _ ← ignore (remove_file dst);
  mret rung.

(** [Store::open]. *)
Definition store_open (root : path) : IO CowRung :=
  _ ← create_dir_all (root ++ [str "objects"]);
  _ ← create_dir_all (root ++ [str "refs"]);
  _ ← create_dir_all (root ++ [str "ac"]);
  probe_rung root.

Definition set_mode (p : path) (mode : Z) : IO unit := set_permissions p mode.

(** 0o444 and 0o644. *)
Definition MODE_RO : Z := 292.
Definition MODE_RW : Z := 420.

(** * Objects *)

Section cas.
Context `{B3 : Blake3}.

(** [Digest::of_file]. *)
Definition of_file (p : path) : IO digest := c ← read p; mret (of_bytes c).

Definition put_bytes (root : path) (bs : bytes) : IO digest :=
  _ ← write_guard root;
  let d := of_bytes bs in
  let p := object_path root d in
  e ← exists_ p;
  if (e : bool) then mret d else
  let shard := shard_dir root (str "objects") d in
  _ ← create_dir_all shard;
  with_temp shard (take 8 (to_hex d)) (fun tmp =>
    _ ← write_staged tmp bs;
    _ ← rename tmp p;
    _ ← fsync_dir shard;
    _ ← set_mode p MODE_RO;
    mret d).

(** The closure of [finish_ingest]: verify the staged bytes, then publish. *)
Definition verify_publish (tmp dest shard : path) (expected : digest) : IO digest :=
  actual ← of_file tmp;
  if bool_decide (actual = expected) then
    _ ← open_read tmp;
    _ ← sync;
    _ ← rename tmp dest;
    _ ← fsync_dir shard;
    _ ← set_mode dest MODE_RO;
    mret expected
  else throw (Integrity expected actual).

Definition finish_ingest (tmp dest shard : path) (expected : digest) : IO digest :=
  r ← try_ (verify_publish tmp dest shard expected);
  match r with
  | Ok d => mret d
  | Err e => _ ← ignore (remove_file tmp); throw e
  end.

Definition ingest_file (root src : path) (rung : CowRung) : IO digest :=
  _ ← write_guard root;
  d ← of_file src;
  let dest := object_path root d in
  e ← exists_ dest;
  if (e : bool) then mret d else
  let shard := shard_dir root (str "objects") d in
  _ ← create_dir_all shard;
  with_temp shard (take 8 (to_hex d)) (fun tmp =>
    _ ← cow_or_copy src tmp rung;
    finish_ingest tmp dest shard d).

Definition get_bytes (root : path) (d : digest) : IO bytes :=
  let p := object_path root d in
  e ← exists_ p;
  if (e : bool) then
    bs ← read p;
    let actual := of_bytes bs in
    if bool_decide (actual = d) then mret bs else throw (Integrity d actual)
  else throw (NotFound d).

(** [open_directory], [openat_directory]: no symbolic link is followed. *)
Definition open_directory (p : path) : IO unit :=
  sys0 (fun fs =>
    match fs !! p with
    | Some NDir => (Ok tt, fs)
    | Some _ => io_err NotADirectory fs
    | None => io_err NotFoundKind fs
    end).

(** [open_object_file]: the handle is the content it reads. *)
Definition open_object_file (root : path) (d : digest) : IO bytes :=
  _ ← open_directory root;
  _ ← open_directory (root ++ [str "objects"]);
  _ ← open_directory (shard_dir root (str "objects") d);
  sys0 (fun fs =>
    match fs !! object_path root d with
    | Some (NFile c _) => (Ok c, fs)
    | Some NDir => io_err InvalidData fs
    | Some (NSymlink _) => io_err OtherKind fs
    | None => io_err NotFoundKind fs
    end).

(** [open_verified]: [reads c] is how the kernel cuts the content [c] into reads,
    [ck] the checkpoint. *)
Definition open_verified (root : path) (d : digest) (reads : bytes -> list read_event)
    (ck : nat -> option ErrorKind) : IO bytes :=
  r ← try_ (open_object_file root d);
  match r with
  | Err e => if bool_decide (e = Io NotFoundKind) then throw (NotFound d) else throw e
  | Ok c =>
      '(actual, _) ← lift (of_reader_checked (reads c) ck);
      if bool_decide (actual = d) then
        _ ← sync;
        mret c
      else throw (Integrity d actual)
  end.

Definition exists_object (root : path) (d : digest) : IO bool := exists_ (object_path root d).

Definition materialize_file (root : path) (d : digest) (dest : path) (mode : Z)
    (rung : CowRung) : IO unit :=
  let src := object_path root d in
  e ← exists_ src;
  if (e : bool) then
    actual ← of_file src;
    if bool_decide (actual = d) then
      _ ← create_parent dest;
      _ ← ignore (remove_file dest);
      _ ← cow_copy_file src dest rung;
      set_mode dest mode
    else throw (Integrity d actual)
  else throw (NotFound d).

Definition remove_object (root : path) (d : digest) : IO unit :=
  let p := object_path root d in
  e ← exists_ p;
  if (e : bool) then
    _ ← set_mode p MODE_RW;
    remove_file p
  else mret tt.

End cas.

(** * Paths of the planes *)

Lemma hex_not_private s :
  Forall (fun b => is_ascii_digit b = true \/ is_ascii_lowercase b = true) s ->
  private_name s = false.
Proof.
intros H. unfold private_name, is_tmp_name. rewrite orb_false_iff, !bool_decide_eq_false.
split; intros E; (destruct s as [|b s]; [done|]); inversion H as [|? ? Hb _]; subst;
  injection E as ->; by destruct Hb.
Qed.

Lemma sharded_tmp root plane d :
  tmp_path root = false -> private_name plane = false -> tmp_path (sharded root plane d) = false.
Proof.
intros Hr Hp. unfold sharded, shard_dir. rewrite !tmp_path_app, Hr. simpl. rewrite Hp.
pose proof (to_hex_chars d) as H. rewrite !hex_not_private; [done|by apply Forall_drop|by apply Forall_take].
Qed.

Lemma object_path_tmp root d : tmp_path root = false -> tmp_path (object_path root d) = false.
Proof. intros H. by apply sharded_tmp. Qed.

Lemma sharded_eq root plane plane' d d' :
  sharded root plane d = sharded root plane' d' <-> plane = plane' /\ d = d'.
Proof.
split; [|by intros [-> ->]]. unfold sharded, shard_dir, shard_parts. simpl.
rewrite <- !app_assoc. intros [= -> E1 E2]%app_inv_head. split; [done|].
apply (inj to_hex). rewrite <- (take_drop 2 (to_hex d)), E1, E2, take_drop. done.
Qed.

#[export] Instance object_path_inj root : Inj (=) (=) (object_path root).
Proof. intros d d' [_ ?]%sharded_eq. done. Qed.

#[export] Hint Resolve object_path_tmp : lightr.

(** * Frames of the helpers *)

Lemma gc_lock_tmp root : tmp_path (gc_lock_path root) = true.
Proof. unfold gc_lock_path. rewrite tmp_path_app. simpl. by rewrite orb_true_r. Qed.

Lemma write_guard_pub root : keeps (on_fs pub_eq) (write_guard root).
Proof. pose proof (gc_lock_tmp root). unfold write_guard, gc_lock_file. solve_keeps. Qed.
Lemma gc_guard_pub root : keeps (on_fs pub_eq) (gc_guard root).
Proof. pose proof (gc_lock_tmp root). unfold gc_guard, gc_lock_file. solve_keeps. Qed.

Lemma write_guard_untouched root q w :
  tmp_path q = false -> w_fs (write_guard root w).2 !! q = w_fs w !! q.
Proof.
intros Hq. apply (untouched_keeps (fun q => tmp_path q = false) (write_guard root) w q); [|done].
pose proof (gc_lock_tmp root). unfold write_guard, gc_lock_file. solve_keeps.
apply open_create_untouched. congruence.
Qed.

Lemma set_mode_pub p m : keeps (on_fs pub_eq) (set_mode p m).
Proof. apply set_permissions_pub. Qed.

#[export] Hint Resolve write_guard_pub gc_guard_pub set_mode_pub : keeps.

Lemma open_directory_pub p : keeps (on_fs pub_eq) (open_directory p).
Proof. apply keeps_sys0; [apply _|]. intros fs. cbn. by repeat case_match. Qed.

#[export] Hint Resolve open_directory_pub : keeps.

Section copy_frames.
Context (S : path -> Prop).

Lemma clone_into_except src dst : S dst -> keeps (on_fs (pub_except S)) (clone_into src dst).
Proof.
intros Hd. apply keeps_sys0; [apply _|]. intros fs. cbn. case_match; cbn; [|reflexivity].
by apply append_at_except.
Qed.
#[local] Hint Resolve clone_into_except : keeps.
#[local] Hint Extern 1 (keeps (on_fs (pub_except _)) _) => apply keeps_except : keeps.

Lemma try_cow_at_rung_except src dst rung :
  S dst -> keeps (on_fs (pub_except S)) (try_cow_at_rung src dst rung).
Proof.
intros Hd. unfold try_cow_at_rung, cow_reflink, cow_copy_range. destruct rung; solve_keeps.
Qed.
#[local] Hint Resolve try_cow_at_rung_except : keeps.

Lemma cow_or_copy_except src dst rung :
  S dst -> keeps (on_fs (pub_except S)) (cow_or_copy src dst rung).
Proof. intros Hd. unfold cow_or_copy. solve_keeps. Qed.

Lemma create_parent_pub dst : keeps (on_fs pub_eq) (create_parent dst).
Proof. unfold create_parent. solve_keeps. Qed.
#[local] Hint Resolve cow_or_copy_except create_parent_pub : keeps.

Lemma cow_copy_file_except src dst rung :
  S dst -> keeps (on_fs (pub_except S)) (cow_copy_file src dst rung).
Proof. intros Hd. unfold cow_copy_file. solve_keeps. Qed.

End copy_frames.

Lemma except_tmp_pub_eq fs fs' : pub_except (fun p => tmp_path p = true) fs fs' -> pub_eq fs fs'.
Proof.
intros H p. destruct (tmp_path p) eqn:E; [unfold pub; by rewrite E|]. apply H. congruence.
Qed.

Lemma cow_or_copy_pub src dst rung :
  tmp_path dst = true -> keeps (on_fs pub_eq) (cow_or_copy src dst rung).
Proof.
intros Hd w. apply except_tmp_pub_eq. by apply (cow_or_copy_except (fun p => tmp_path p = true)).
Qed.

#[export] Hint Resolve create_parent_pub cow_or_copy_pub : keeps.

(** * The object plane's invariant *)

Section invariant.
Context `{B3 : Blake3}.

(** Every published object's content hashes to its name. *)
Definition cas_ok (root : path) (fs : gmap path node) : Prop :=
  forall d c, pub fs (object_path root d) = Some c -> of_bytes c = d.

(** Published changes that only ever add valid objects. *)
Definition cas_grow (root : path) : relation (gmap path node) := fun fs fs' =>
  forall p, pub fs' p = pub fs p \/
    exists c, p = object_path root (of_bytes c) /\ pub fs' p = Some c.

#[export] Instance cas_grow_preorder root : PreOrder (cas_grow root).
Proof.
split; [by left|]. intros f1 f2 f3 H1 H2 p. destruct (H2 p) as [E|]; [|by right].
rewrite E. apply H1.
Qed.

Lemma pub_eq_grow root fs fs' : pub_eq fs fs' -> cas_grow root fs fs'.
Proof. intros H p. left. apply H. Qed.

Lemma keeps_grow {A : Type} root (m : IO A) :
  keeps (on_fs pub_eq) m -> keeps (on_fs (cas_grow root)) m.
Proof. intros H w. by apply pub_eq_grow, H. Qed.

Lemma pub_put_grow root c fs fs' :
  pub_put (object_path root (of_bytes c)) c fs fs' -> cas_grow root fs fs'.
Proof. intros H p. rewrite H. case_decide as E; [right|by left]. exists c. naive_solver. Qed.

Lemma cas_grow_ok root fs fs' : cas_grow root fs fs' -> cas_ok root fs -> cas_ok root fs'.
Proof.
intros H Hok d c Hc. destruct (H (object_path root d)) as [E|(c' & E & Hc')].
- apply Hok. congruence.
- apply (inj _) in E as ->. congruence.
Qed.

(** Objects stay present. *)
Lemma cas_grow_mono root fs fs' p : cas_grow root fs fs' -> is_Some (pub fs p) -> is_Some (pub fs' p).
Proof. intros H Hp. destruct (H p) as [E|(c & _ & E)]; rewrite E; eauto. Qed.

(** Files that are not objects are left alone. *)
Lemma cas_grow_other root fs fs' p :
  cas_grow root fs fs' -> (forall d, p <> object_path root d) -> pub fs' p = pub fs p.
Proof. intros H Hp. destruct (H p) as [E|(c & E & _)]; [done|]. by apply Hp in E. Qed.

#[local] Hint Extern 1 (keeps (on_fs (cas_grow _)) _) => apply keeps_grow : keeps.

Lemma of_file_pub p : keeps (on_fs pub_eq) (of_file p).
Proof. unfold of_file. solve_keeps. Qed.
#[local] Hint Resolve of_file_pub : keeps.

(** The staged block of [put_bytes]. *)
Lemma put_block_commits root bs P :
  tmp_path root = false ->
  let d := of_bytes bs in
  let p := object_path root d in
  let shard := shard_dir root (str "objects") d in
  commits P (pub_put p bs)
    (with_temp shard (take 8 (to_hex d)) (fun tmp =>
      _ ← write_staged tmp bs;
      _ ← rename tmp p;
      _ ← fsync_dir shard;
      _ ← set_mode p MODE_RO;
      mret d)).
Proof.
intros Hr d p shard. apply (with_temp_commits (pub_put p bs)). intros c Hc.
pose proof (tmp_payload shard c Hc) as Ht.
eapply (commits_before (pub_put p bs)); [by apply write_staged_pub|apply write_staged_content|].
intros []. apply (commits_after (pub_put p bs)).
- apply rename_commits; [done|]. by apply object_path_tmp.
- intros []. solve_keeps.
Qed.

Lemma commits_grow {A : Type} root c (m : IO A) :
  commits (fun _ => True) (pub_put (object_path root (of_bytes c)) c) m ->
  keeps (on_fs (cas_grow root)) m.
Proof.
intros Hm w. destruct (commits_change _ _ m w Hm I) as [H|H].
- by apply pub_eq_grow.
- by eapply pub_put_grow.
Qed.

Lemma put_bytes_grow root bs :
  tmp_path root = false -> keeps (on_fs (cas_grow root)) (put_bytes root bs).
Proof.
intros Hr. unfold put_bytes. solve_keeps. eapply commits_grow. by apply put_block_commits.
Qed.

(** What a successful [put_bytes] returns: the digest of the bytes, present
    afterwards; the bytes themselves when the object was not there before. *)
Lemma put_bytes_ret root bs w d w' :
  tmp_path root = false -> put_bytes root bs w = (Ret d, w') ->
  d = of_bytes bs /\
  (node_exists (w_fs w) (object_path root d) = false -> pub (w_fs w') (object_path root d) = Some bs) /\
  (node_exists (w_fs w) (object_path root d) = true -> pub_eq (w_fs w) (w_fs w')).
Proof.
intros Hr H. unfold put_bytes in H.
apply bind_ret in H as ([] & w1 & H1 & H). pose proof (write_guard_pub root w) as Hg. rewrite H1 in Hg.
apply bind_ret in H as (e & w2 & [-> ->]%exists_ret & H).
assert (node_exists (w_fs w1) (object_path root (of_bytes bs)) =
        node_exists (w_fs w) (object_path root (of_bytes bs))) as He.
{ pose proof (write_guard_untouched root (object_path root (of_bytes bs)) w) as Hl. rewrite H1 in Hl.
  cbn [snd] in Hl. unfold node_exists. rewrite Hl; [done|]. by apply object_path_tmp. }
destruct (node_exists (w_fs w1) _) eqn:E.
- injection H as <- <-. split; [done|]. split; [congruence|]. intros _. exact Hg.
- apply bind_ret in H as ([] & w3 & H3 & H).
  pose proof (put_block_commits root bs (fun _ => True) Hr) as Hc. cbv zeta in Hc.
  pose proof (commits_ret _ _ _ w3 _ w' Hc I H) as Hput.
  assert (d = of_bytes bs) as ->.
  { apply with_temp_ret in H as (tmp & w4 & w5 & H).
    repeat (apply bind_ret in H as (? & ? & _ & H)). by injection H as <- _. }
  split; [done|]. split; [|congruence]. intros _. rewrite Hput. by rewrite decide_True.
Qed.

(** ** Ingestion *)

(** Publication of some bytes whose digest is [d]. *)
Definition pub_valid (dest : path) (d : digest) : relation (gmap path node) :=
  fun fs fs' => exists c, of_bytes c = d /\ pub_put dest c fs fs'.

#[export] Instance pub_valid_proper dest d : Proper (pub_eq ==> pub_eq ==> iff) (pub_valid dest d).
Proof.
intros f1 f2 H f1' f2' H'. unfold pub_valid.
split; intros (c & Hc & Hp); exists c; (split; [done|]); [by rewrite <- H, <- H'|by rewrite H, H'].
Qed.

(** [of_file] observes the file it hashes. *)
Lemma of_file_ret p w d w' :
  of_file p w = (Ret d, w') ->
  exists c, file_at (w_fs w) p = Some c /\ of_bytes c = d /\ w_fs w' = w_fs w.
Proof.
intros (c & w1 & [Hc Hw]%read_ret & H)%bind_ret. injection H as <- <-. eauto.
Qed.

Lemma open_read_ret p w u w' : open_read p w = (Ret u, w') -> w_fs w' = w_fs w.
Proof. intros H%sys_ret. by repeat (case_match; simplify_eq/=). Qed.

Lemma sync_ret w u w' : sync w = (Ret u, w') -> w_fs w' = w_fs w.
Proof. intros H%sys_ret. by simplify_eq/=. Qed.

(** The staged bytes are published only if they hash to the expected digest,
    whatever was staged. *)
Lemma verify_publish_commits tmp dest shard expected P :
  tmp_path tmp = true -> tmp_path dest = false ->
  commits P (pub_valid dest expected) (verify_publish tmp dest shard expected).
Proof.
intros Ht Hd. unfold verify_publish.
eapply (commits_before (pub_valid dest expected) P _
  (fun d fs => exists c, file_at fs tmp = Some c /\ of_bytes c = d)).
{ apply of_file_pub. }
{ intros w d w' _ (c & Hc & Hcd & Hw)%of_file_ret. rewrite Hw. eauto. }
intros actual. case_bool_decide as E; [subst|intros w _; left; reflexivity].
eapply (commits_before (pub_valid dest expected) _ _
  (fun _ fs => exists c, file_at fs tmp = Some c /\ of_bytes c = expected)).
{ apply open_read_pub. }
{ intros w [] w' Hw E%open_read_ret. by rewrite E. }
intros []. eapply (commits_before (pub_valid dest expected) _ _
  (fun _ fs => exists c, file_at fs tmp = Some c /\ of_bytes c = expected)).
{ apply sync_pub. }
{ intros w [] w' Hw E%sync_ret. by rewrite E. }
intros []. apply (commits_after (pub_valid dest expected)); [|intros []; solve_keeps].
intros w (c & Hc & Hh). pose proof (rename_commits tmp dest c Ht Hd w Hc) as H.
destruct (rename tmp dest w) as [[[]|e|] w1]; [by exists c| |];
  (destruct H as [H|H]; [by left|right; by exists c]).
Qed.

Lemma finish_ingest_commits tmp dest shard expected P :
  tmp_path tmp = true -> tmp_path dest = false ->
  commits P (pub_valid dest expected) (finish_ingest tmp dest shard expected).
Proof.
intros Ht Hd w Hw. pose proof (verify_publish_commits tmp dest shard expected P Ht Hd w Hw) as H.
unfold finish_ingest, try_. cbv [mbind IO_mbind].
destruct (verify_publish tmp dest shard expected w) as [[d|e|] w1]; [done| |done].
pose proof (keeps_ignore _ _ (remove_file_pub tmp Ht) w1) as Hr. unfold on_fs in Hr.
unfold throw. destruct (ignore (remove_file tmp) w1) as [[[]|e'|] w2]; simpl in *; by rewrite <- Hr.
Qed.

Lemma ingest_block_commits root src rung d P :
  tmp_path root = false ->
  let dest := object_path root d in
  let shard := shard_dir root (str "objects") d in
  commits P (pub_valid dest d)
    (with_temp shard (take 8 (to_hex d)) (fun tmp =>
      _ ← cow_or_copy src tmp rung;
      finish_ingest tmp dest shard d)).
Proof.
intros Hr dest shard. apply (with_temp_commits (pub_valid dest d)). intros c Hc.
pose proof (tmp_payload shard c Hc) as Ht.
eapply (commits_before (pub_valid dest d) _ _ (fun _ _ => True)); [by apply cow_or_copy_pub|done|].
intros []. apply finish_ingest_commits; [done|by apply object_path_tmp].
Qed.

Lemma pub_valid_grow root d fs fs' :
  pub_valid (object_path root d) d fs fs' -> cas_grow root fs fs'.
Proof. intros (c & <- & H). by apply pub_put_grow in H. Qed.

Lemma ingest_file_grow root src rung :
  tmp_path root = false -> keeps (on_fs (cas_grow root)) (ingest_file root src rung).
Proof.
intros Hr. unfold ingest_file. solve_keeps. intros w.
match goal with |- context [object_path root ?d] =>
  destruct (commits_change _ _ _ w (ingest_block_commits root src rung d (fun _ => True) Hr) I) as [Hp|Hp]
end.
- by apply pub_eq_grow.
- by eapply pub_valid_grow.
Qed.

Lemma get_bytes_pub root d : keeps (on_fs pub_eq) (get_bytes root d).
Proof. unfold get_bytes. solve_keeps. Qed.

Lemma open_object_file_pub root d : keeps (on_fs pub_eq) (open_object_file root d).
Proof.
unfold open_object_file. solve_keeps. apply keeps_sys0; [apply _|]. intros fs. cbn.
by repeat case_match.
Qed.
#[local] Hint Resolve open_object_file_pub : keeps.

Lemma open_verified_pub root d reads ck : keeps (on_fs pub_eq) (open_verified root d reads ck).
Proof. unfold open_verified. solve_keeps. Qed.

(** The destination of a materialisation is the only file it may change. *)
Lemma materialize_file_except root d dest mode rung :
  keeps (on_fs (pub_except (eq dest))) (materialize_file root d dest mode rung).
Proof.
unfold materialize_file. solve_keeps; first [by apply cow_copy_file_except|apply keeps_except; solve_keeps].
Qed.

(** A removed object is the only file a removal may change. *)
Lemma remove_object_commits root d w :
  tmp_path root = false ->
  pub_eq (w_fs w) (w_fs (remove_object root d w).2) \/
  pub_del (object_path root d) (w_fs w) (w_fs (remove_object root d w).2).
Proof.
intros Hr. unfold remove_object. cbv [mbind IO_mbind exists_ get_fs mret IO_mret].
destruct (node_exists _ _); [|by left].
assert (commits (fun _ => True) (pub_del (object_path root d))
  (_ ← set_mode (object_path root d) MODE_RW; remove_file (object_path root d))) as H.
{ eapply (commits_before (pub_del (object_path root d)) _ _ (fun _ _ => True)); [solve_keeps|done|].
  intros []. apply remove_file_commits. by apply object_path_tmp. }
exact (commits_change _ _ _ w H I).
Qed.

End invariant.

#[export] Hint Resolve get_bytes_pub of_file_pub open_verified_pub : keeps.

(** * Copies are exact *)

Lemma file_create_ret p w u w' :
  file_create p w = (Ret u, w') ->
  file_at (w_fs w') p = Some [] /\ forall q, q <> p -> w_fs w' !! q = w_fs w !! q.
Proof.
intros H%sys_ret. assert (exists m, w_fs w' = <[p := NFile [] m]> (w_fs w)) as [m ->]
  by (unfold io_err in H; repeat (case_match; simplify_eq/=); eauto).
unfold file_at. rewrite lookup_insert_eq. split; [done|]. intros q Hq. by rewrite lookup_insert_ne.
Qed.

Lemma append_at_file p d fs c : file_at fs p = Some c -> file_at (append_at p d fs) p = Some (c ++ d).
Proof.
unfold append_at, file_at. intros H. destruct (fs !! p) as [[]|]; simplify_eq.
by rewrite lookup_insert_eq.
Qed.

Lemma copy_file_ret src dst c w u w' :
  file_at (w_fs w) src = Some c -> copy_file src dst w = (Ret u, w') -> file_at (w_fs w') dst = Some c.
Proof.
intros Hc H%sys_ret. unfold file_at in Hc. case_match; [|done]. case_match; simplify_eq.
assert (exists m, w_fs w' = <[dst := NFile c m]> (w_fs w)) as [m ->]
  by (cbn in H; unfold io_err in H; repeat (case_match; simplify_eq/=); eauto).
unfold file_at. by rewrite lookup_insert_eq.
Qed.

Section exact_copies.
Context (src dst : path) (c : bytes) (Hne : src <> dst) (Hsrc : tmp_path src = false).

(** The source is not written to. *)
Lemma src_kept {A : Type} (m : IO A) w :
  keeps (on_fs (pub_except (eq dst))) m ->
  file_at (w_fs w) src = Some c -> file_at (w_fs (m w).2) src = Some c.
Proof.
intros Hm Hc. rewrite <- pub_file_at by done. rewrite (Hm w src) by congruence. by rewrite pub_file_at.
Qed.

Lemma try_cow_at_rung_ret rung w u w' :
  file_at (w_fs w) src = Some c -> try_cow_at_rung src dst rung w = (Ret u, w') ->
  file_at (w_fs w') dst = Some c.
Proof.
intros Hc. unfold try_cow_at_rung, cow_reflink, cow_copy_range.
assert (forall w1 w2, w_fs w1 = w_fs w -> file_create dst w1 = (Ret tt, w2) ->
  file_at (w_fs w2) dst = Some [] /\ file_at (w_fs w2) src = Some c) as Hcr.
{ intros w1 w2 E [H1 H2]%file_create_ret. split; [done|]. unfold file_at in *. rewrite H2, E; done. }
destruct rung; try (by apply copy_file_ret).
- intros ([] & w1 & H1%open_read_ret & ([] & w2 & H2 & H3)%bind_ret)%bind_ret.
  destruct (Hcr _ _ H1 H2) as [Hd Hs]. apply sys_ret in H3. rewrite Hs in H3. injection H3 as _ <-.
  by rewrite (append_at_file _ _ _ [] Hd).
- intros ([] & w1 & H1%open_read_ret & ([] & w2 & H2 & (fs & w3 & H3 & H4)%bind_ret)%bind_ret)%bind_ret.
  destruct (Hcr _ _ H1 H2) as [Hd Hs]. injection H3 as <- <-. rewrite Hs in H4.
  apply sys_ret in H4. injection H4 as _ <-. by rewrite (append_at_file _ _ _ [] Hd).
Qed.

Lemma cow_or_copy_ret rung w u w' :
  file_at (w_fs w) src = Some c -> cow_or_copy src dst rung w = (Ret u, w') ->
  file_at (w_fs w') dst = Some c.
Proof.
intros Hc. unfold cow_or_copy, try_ at 1. cbv [mbind IO_mbind].
pose proof (src_kept _ w (try_cow_at_rung_except (eq dst) src dst rung eq_refl) Hc) as Hk.
destruct (try_cow_at_rung src dst rung w) as [[[]|e|] w1] eqn:E; [| |done].
- intros [= _ <-]. eapply try_cow_at_rung_ret; [exact Hc|exact E].
- pose proof (src_kept (ignore (remove_file dst)) w1) as Hk2. intros H.
  destruct (ignore (remove_file dst) w1) as [[[]|e'|] w2]; [|done..].
  eapply copy_file_ret; [|exact H]. apply Hk2; [solve_keeps|done].
Qed.

Lemma cow_copy_file_ret rung w u w' :
  file_at (w_fs w) src = Some c -> cow_copy_file src dst rung w = (Ret u, w') ->
  file_at (w_fs w') dst = Some c.
Proof.
intros Hc ([] & w1 & H1 & H)%bind_ret. eapply cow_or_copy_ret; [|exact H].
pose proof (src_kept (create_parent dst) w) as Hk. rewrite H1 in Hk. apply Hk; [|done].
apply keeps_except. solve_keeps.
Qed.

End exact_copies.

Lemma materialize_file_ret `{B3 : Blake3} root d dest mode rung w u w' :
  tmp_path root = false -> dest <> object_path root d ->
  materialize_file root d dest mode rung w = (Ret u, w') ->
  exists c, file_at (w_fs w) (object_path root d) = Some c /\ of_bytes c = d /\
    w_fs w' !! dest = Some (NFile c mode).
Proof.
intros Hr Hne H. apply object_path_tmp with (d := d) in Hr. unfold materialize_file in H.
apply bind_ret in H as (e & w0 & [-> ->]%exists_ret & H). destruct (node_exists _ _); [|done].
apply bind_ret in H as (d' & w1 & (c & Hc & Hd & Hw)%of_file_ret & H).
case_bool_decide as Hdd; [|done]. rewrite Hdd in Hd.
apply bind_ret in H as ([] & w2 & H2 & H). apply bind_ret in H as ([] & w3 & H3 & H).
apply bind_ret in H as ([] & w4 & H4 & H).
rewrite <- Hw in Hc.
assert (object_path root d <> dest) as Hne' by congruence.
pose proof (src_kept _ _ c Hne' Hr (create_parent dest) w1 (keeps_except _ _ (create_parent_pub dest)) Hc) as K2.
rewrite H2 in K2. cbn [snd] in K2.
assert (keeps (on_fs (pub_except (eq dest))) (ignore (remove_file dest))) as Kf by solve_keeps.
pose proof (src_kept _ _ c Hne' Hr _ w2 Kf K2) as K3. rewrite H3 in K3. cbn [snd] in K3.
pose proof (cow_copy_file_ret _ _ c Hne' Hr rung w3 _ _ K3 H4) as Hdst.
exists c. rewrite <- Hw. split; [done|]. split; [done|].
apply sys_ret in H. unfold file_at in Hdst.
destruct (w_fs w4 !! dest) as [[c' m'| |]|]; [|done..].
injection Hdst as ->. injection H as _ <-. by rewrite lookup_insert_eq.
Qed.

(** * Theorems *)

Section theorems.
Context `{B3 : Blake3}.

(** One operation of some process on the store: it may fail or be killed at any
    call, and the next operation starts from the files it left.  A
    materialisation does not target the object plane itself. *)
Inductive cas_step (root : path) : relation (gmap path node) :=
  | step_put bs w : cas_step root (w_fs w) (w_fs (put_bytes root bs w).2)
  | step_ingest src rung w : cas_step root (w_fs w) (w_fs (ingest_file root src rung w).2)
  | step_get d w : cas_step root (w_fs w) (w_fs (get_bytes root d w).2)
  | step_open_verified d reads ck w :
      cas_step root (w_fs w) (w_fs (open_verified root d reads ck w).2)
  | step_materialize d dest mode rung w :
      (forall d', dest <> object_path root d') ->
      cas_step root (w_fs w) (w_fs (materialize_file root d dest mode rung w).2)
  | step_remove d w : cas_step root (w_fs w) (w_fs (remove_object root d w).2).

Lemma cas_step_ok root fs fs' :
  tmp_path root = false -> cas_step root fs fs' -> cas_ok root fs -> cas_ok root fs'.
Proof.
intros Hr [bs w|src rung w|d w|d reads ck w|d dest mode rung w Hd|d w] Hok.
- by eapply cas_grow_ok; [apply put_bytes_grow|].
- by eapply cas_grow_ok; [apply ingest_file_grow|].
- by eapply cas_grow_ok; [apply pub_eq_grow, get_bytes_pub|].
- by eapply cas_grow_ok; [apply pub_eq_grow, open_verified_pub|].
- intros d' c Hc. apply Hok. rewrite <- Hc. symmetry. apply materialize_file_except. by intros E%Hd.
- destruct (remove_object_commits root d w Hr) as [H|H].
  + by eapply cas_grow_ok; [apply pub_eq_grow|].
  + intros d' c. rewrite H. case_decide; [done|]. apply Hok.
Qed.


(** A read never returns wrong bytes.  Whatever is on disk, [get_bytes]
    changes nothing; bytes it returns are the object's and hash to the digest
    asked for; a missing object is [NotFound], a damaged one [Integrity] with the
    digest of what is there, and without an I/O fault one of these happens. *)
Theorem get_bytes_verified root d w :
  w_fs (get_bytes root d w).2 = w_fs w /\
  match (get_bytes root d w).1 with
  | Ret c => of_bytes c = d /\ file_at (w_fs w) (object_path root d) = Some c
  | Throw (NotFound d') => d' = d /\ node_exists (w_fs w) (object_path root d) = false
  | Throw (Integrity e a) =>
      e = d /\ a <> d /\
      exists c, file_at (w_fs w) (object_path root d) = Some c /\ a = of_bytes c
  | Throw (Io _) =>
      w_faults w <> [] \/ file_at (w_fs w) (object_path root d) = None
  | Throw _ => False
  | Crashed => w_faults w <> []
  end.
Proof.
unfold get_bytes. cbv [mbind IO_mbind exists_ get_fs mret IO_mret].
destruct (node_exists (w_fs w) _) eqn:E; [|done].
unfold read, sys0, sys, file_at.
destruct (w_faults w) as [|[|n|n] l]; [| |by cbn; auto..];
  (destruct (w_fs w !! object_path root d) as [[c m| |t]|]; cbn;
   [case_bool_decide; cbn; naive_solver|by auto..]).
Qed.

(** Bytes stored are the bytes read back.  After a [put_bytes] that returned,
    a read without I/O faults succeeds, from this process or any later one that
    finds the same published files, and returns bytes with the digest of those
    stored; they are the stored bytes unless two different contents with that
    digest are known to the store. *)
Theorem put_get_roundtrip root bs w d w' w2 :
  tmp_path root = false -> cas_ok root (w_fs w) ->
  (forall n, w_fs w !! object_path root (of_bytes bs) = Some n -> exists c m, n = NFile c m) ->
  put_bytes root bs w = (Ret d, w') ->
  pub_eq (w_fs w') (w_fs w2) -> w_faults w2 = [] ->
  exists c, get_bytes root d w2 = (Ret c, w2) /\ of_bytes c = of_bytes bs /\
    ((forall c', of_bytes c' = of_bytes bs -> c' = bs) -> c = bs).
Proof.
intros Hr Hok Hfile Hput Hpub Hcalm. pose proof (object_path_tmp root d Hr) as Ht.
destruct (put_bytes_ret _ _ _ _ _ Hr Hput) as (-> & Hnew & Hold).
assert (exists c, pub (w_fs w2) (object_path root (of_bytes bs)) = Some c /\ of_bytes c = of_bytes bs)
  as (c & Hc & Hh).
{ destruct (node_exists (w_fs w) (object_path root (of_bytes bs))) eqn:E.
  - unfold node_exists in E. destruct (w_fs w !! _) as [n|] eqn:En; [|done].
    destruct (Hfile n eq_refl) as (c & m & ->).
    assert (pub (w_fs w) (object_path root (of_bytes bs)) = Some c) as Hc
      by (rewrite pub_file_at by done; unfold file_at; by rewrite En).
    exists c. split; [|by apply (Hok _ _ Hc)]. by rewrite (Hpub _), (Hold eq_refl _).
  - exists bs. split; [|done]. rewrite (Hpub _). auto. }
rewrite pub_file_at in Hc by done.
exists c. split; [|split; [done|auto]].
unfold get_bytes. cbv [mbind IO_mbind exists_ get_fs mret IO_mret].
rewrite (node_exists_file _ _ _ Hc), (read_calm _ _ _ Hcalm Hc). by rewrite bool_decide_eq_true_2.
Qed.

(** Ingestion publishes what it verified.  Whatever the staged file holds when
    [finish_ingest] starts, if that is not what was hashed from the source nothing
    is published and the caller gets an error; if something is published, it is
    exactly one file, at [dest], whose bytes hash to the expected digest; and a
    successful return means that happened. *)
Theorem finish_ingest_verifies tmp dest shard expected w :
  tmp_path tmp = true -> tmp_path dest = false ->
  let r := finish_ingest tmp dest shard expected w in
  (pub_eq (w_fs w) (w_fs r.2) \/ pub_valid dest expected (w_fs w) (w_fs r.2)) /\
  (forall d, r.1 = Ret d -> d = expected /\ pub_valid dest expected (w_fs w) (w_fs r.2)) /\
  (forall c, file_at (w_fs w) tmp = Some c -> of_bytes c <> expected ->
    pub_eq (w_fs w) (w_fs r.2) /\ forall d, r.1 <> Ret d).
Proof.
intros Ht Hd r. pose proof (finish_ingest_commits tmp dest shard expected (fun _ => True) Ht Hd) as H.
split; [by apply (commits_change _ _ _ w H)|]. split.
- intros d Hr. subst r. destruct (finish_ingest _ _ _ _ w) as [o w'] eqn:E. simpl in *. subst o.
  split; [|by eapply (commits_ret _ _ _ w _ w' H)].
  unfold finish_ingest in E. apply bind_ret in E as (res & w1 & E1 & E). destruct res as [d'|e].
  + injection E as <- <-. unfold try_ in E1.
    destruct (verify_publish _ _ _ _ w) as [[d0|e0|] w2] eqn:E2; simplify_eq.
    apply bind_ret in E2 as (a & w3 & _ & E2). case_bool_decide; [|done].
    repeat (apply bind_ret in E2 as (? & ? & _ & E2)). by injection E2 as <- _.
  + by apply bind_ret in E as ([] & w2 & _ & E).
- intros c Hc Hne. assert (exists e, verify_publish tmp dest shard expected w =
    (Throw e, (read tmp w).2) \/ verify_publish tmp dest shard expected w = (Crashed, (read tmp w).2)) as (e & Hv).
  { unfold verify_publish, of_file. cbv [mbind IO_mbind mret IO_mret].
    destruct (read tmp w) as [[c'|e|] w1] eqn:E; [|by eauto|by exists (Io OtherKind); right].
    apply read_ret in E as [E _]. assert (c' = c) as -> by congruence.
    rewrite bool_decide_eq_false_2 by done. by eauto. }
  pose proof (read_pub tmp w) as Hrd. unfold on_fs in Hrd. subst r.
  unfold finish_ingest, try_. cbv [mbind IO_mbind].
  destruct Hv as [-> | ->]; [|by split].
  pose proof (keeps_ignore _ _ (remove_file_pub tmp Ht) (read tmp w).2) as Hi. unfold on_fs in Hi.
  destruct (ignore (remove_file tmp) _) as [[[]|e'|] w2]; simpl in *; (split; [by rewrite Hrd|done]).
Qed.

(** A successful [materialize_file] leaves at the destination a file with the
    object's bytes, which hash to the digest asked for, and the mode asked for; a
    failed or killed one has changed no published file but the destination. *)
Theorem materialize_file_exact root d dest mode rung w :
  tmp_path root = false -> dest <> object_path root d ->
  let r := materialize_file root d dest mode rung w in
  pub_except (eq dest) (w_fs w) (w_fs r.2) /\
  (r.1 = Ret tt -> exists c, file_at (w_fs w) (object_path root d) = Some c /\ of_bytes c = d /\
    w_fs r.2 !! dest = Some (NFile c mode)).
Proof.
intros Hr Hne r. split; [apply materialize_file_except|]. intros E. subst r.
eapply materialize_file_ret; [done|done|]. by rewrite <- E, <- surjective_pairing.
Qed.

End theorems.

(** A store with no files yet. *)
Lemma cas_ok_dirs `{B3 : Blake3} root fs :
  map_Forall (fun _ n => n = NDir) fs -> cas_ok root fs.
Proof.
intros H d c. unfold pub, file_at. case_match; [done|].
destruct (fs !! _) as [n|] eqn:E; [|done]. by rewrite (H _ _ E).
Qed.

Definition demo_root : path := [str "store"].
Definition demo_fs : gmap path node := {[ [] := NDir; demo_root := NDir ]}.
Definition demo_blob : bytes := str "hello".

Lemma demo_fs_ok : cas_ok demo_root demo_fs.
Proof. apply cas_ok_dirs. apply (bool_decide_eq_true_1 _). vm_compute. reflexivity. Qed.

(** A write cut short, then a new process whose write succeeds. *)
Definition restart (fs : gmap path node) : World := mkWorld fs [] 8 0.
Definition demo_crash : World := mkWorld demo_fs [FOk; FOk; FOk; FOk; FOk; FOk; FCrash 2] 7 0.
Definition demo_retry : World := restart (w_fs (put_bytes demo_root demo_blob demo_crash).2).
Definition demo_after : World := (put_bytes demo_root demo_blob demo_retry).2.

Lemma restart_fs fs : w_fs (restart fs) = fs.
Proof. reflexivity. Qed.

Lemma demo_retry_steps : rtc (cas_step demo_root) demo_fs (w_fs demo_after).
Proof.
eapply rtc_l; [apply (step_put demo_root demo_blob demo_crash)|].
rewrite <- (restart_fs (w_fs (put_bytes demo_root demo_blob demo_crash).2)).
eapply rtc_l; [apply (step_put demo_root demo_blob demo_retry)|]. apply rtc_refl.
Qed.


Lemma put_get_roundtrip_witness :
  exists c, get_bytes demo_root (of_bytes demo_blob) demo_after = (Ret c, demo_after) /\
    of_bytes c = of_bytes demo_blob /\
    ((forall c', of_bytes c' = of_bytes demo_blob -> c' = demo_blob) -> c = demo_blob).
Proof.
apply (put_get_roundtrip demo_root demo_blob demo_retry (of_bytes demo_blob) demo_after demo_after).
- reflexivity.
- unfold demo_retry. rewrite restart_fs. eapply cas_grow_ok; [|apply demo_fs_ok].
  apply (put_bytes_grow demo_root demo_blob eq_refl demo_crash).
- intros n H. vm_compute in H. discriminate H.
- unfold demo_after. apply (run_split (put_bytes demo_root demo_blob) demo_retry). vm_compute. reflexivity.
- apply reflexivity.
- vm_compute. reflexivity.
Defined.

Definition demo_staged : path := demo_root ++ [str ".tmp-1-w-0"; str "payload"].

Lemma finish_ingest_verifies_witness :
  let w := mkWorld (<[demo_staged := NFile (str "mutated") 420]> demo_fs) [] 7 0 in
  (finish_ingest demo_staged (object_path demo_root (of_bytes demo_blob)) demo_root
     (of_bytes demo_blob) w).1 = Throw (Integrity (of_bytes demo_blob) (of_bytes (str "mutated"))) /\
  pub_eq (w_fs w) (w_fs (finish_ingest demo_staged (object_path demo_root (of_bytes demo_blob)) demo_root
     (of_bytes demo_blob) w).2).
Proof.
split; [vm_compute; reflexivity|].
eapply (finish_ingest_verifies demo_staged (object_path demo_root (of_bytes demo_blob)) demo_root
  (of_bytes demo_blob)); [reflexivity|reflexivity|vm_compute; reflexivity|vm_compute; discriminate].
Defined.

Definition demo_dest_file : path := [str "work"; str "hello.txt"].

Lemma materialize_file_exact_witness :
  (materialize_file demo_root (of_bytes demo_blob) demo_dest_file 384 CopyRange demo_after).1 = Ret tt /\
  exists c, file_at (w_fs demo_after) (object_path demo_root (of_bytes demo_blob)) = Some c /\
    of_bytes c = of_bytes demo_blob /\
    w_fs (materialize_file demo_root (of_bytes demo_blob) demo_dest_file 384 CopyRange demo_after).2 !! demo_dest_file =
      Some (NFile c 384).
Proof.
assert ((materialize_file demo_root (of_bytes demo_blob) demo_dest_file 384 CopyRange demo_after).1 = Ret tt)
  as E by (vm_compute; reflexivity).
split; [exact E|].
apply (materialize_file_exact demo_root (of_bytes demo_blob) demo_dest_file 384 CopyRange demo_after);
  [reflexivity|discriminate|exact E].
Defined.
