(* ===== verification/Layout.v ===== *)
(** The layout of a store directory: which relative paths are directories and
    which are files.  A store in this layout with no staging debris is ready: in
    it every write of the modelled planes succeeds when no call fails, and leaves a
    store in the same layout. *)

From S2P Require Import Prelude Error Digest Fs FsFacts OwnedTemp Calm Cas.

Inductive kind := KDir | KFile.

#[export] Instance kind_eq_dec : EqDecision kind.
Proof. solve_decision. Defined.

Definition node_kind (n : node) (k : kind) : Prop :=
  match n, k with
  | NFile _ _, KFile | NDir, KDir => True
  | _, _ => False
  end.

(** The planes of two-level shards, and the log plane with a directory per ref. *)
Definition file_planes : list bytes :=
  str <$> ["objects"; "refs"; "refs-names"; "ac"; "imgmeta"; "imgmanifest"]%string.
Definition LOG_PLANE : bytes := str "refs-log".

Definition is_plane (c : bytes) : bool := bool_decide (c ∈ file_planes) || bool_decide (c = LOG_PLANE).

(** What a store path relative to the root must be. *)
Definition slot_kind (q : path) : option kind :=
  match q with
  | [] => Some KDir
  | [c] => if bool_decide (c = GC_LOCK) then Some KFile else if is_plane c then Some KDir else None
  | [c; _] => if is_plane c then Some KDir else None
  | [c; _; _] =>
      if bool_decide (c = LOG_PLANE) then Some KDir
      else if is_plane c then Some KFile else None
  | [c; _; _; _] => if bool_decide (c = LOG_PLANE) then Some KFile else None
  | _ => None
  end.

Record store_ready (root : path) (fs : gmap path node) : Prop := {
  ready_wf : fs_wf fs;
  ready_tmp : tmp_free fs;
  ready_root : fs !! root = Some NDir;
  ready_clean : tmp_path root = false;
  ready_kind : forall q k n, slot_kind q = Some k -> fs !! (root ++ q) = Some n -> node_kind n k;
}.

Lemma slot_kind_parent q c k : slot_kind (q ++ [c]) = Some k -> slot_kind q = Some KDir.
Proof.
destruct q as [|a [|b [|x [|y q]]]]; simpl; intros H; try done.
- destruct (is_plane a) eqn:Ep; [|done]. rewrite bool_decide_eq_false_2; [done|].
  intros ->. by vm_compute in Ep.
- destruct (is_plane a) eqn:Ep; [done|]. case_bool_decide as E; [|done].
  subst. by vm_compute in Ep.
- by case_bool_decide.
- by destruct q.
Qed.

Lemma slot_kind_prefix q q' k : slot_kind q = Some k -> q' `prefix_of` q -> q' <> q -> slot_kind q' = Some KDir.
Proof.
intros Hq [r ->]. revert k Hq. induction r as [|c r IH] using rev_ind; intros k Hq Hne.
- by rewrite app_nil_r in Hne.
- rewrite app_assoc in Hq. apply slot_kind_parent in Hq.
  destruct r as [|x r]; [by rewrite app_nil_r in Hq|]. eapply IH; [exact Hq|].
  intros E. apply (f_equal length) in E. rewrite length_app in E. simpl in E. lia.
Qed.

Lemma tmp_path_clean p : tmp_path p = false -> tmp_clean p.
Proof.
unfold tmp_path, tmp_clean. induction p as [|c p IH]; simpl; [done|].
unfold private_name at 1. rewrite !orb_false_iff. naive_solver.
Qed.

Lemma prefix_root_cases (root q : path) (p : path) :
  p `prefix_of` root ++ q -> p `prefix_of` root \/ exists q', p = root ++ q' /\ q' `prefix_of` q.
Proof.
intros H. destruct (decide (p `prefix_of` root)) as [|Hn]; [by left|right].
destruct (prefix_weak_total p root (root ++ q)) as [?|[q' ->]]; [done|by apply prefix_app_r|done|].
exists q'. split; [done|]. by apply prefix_app_inv in H.
Qed.

(** The ancestors of a directory of a well-formed tree are directories. *)
Lemma fs_wf_ancestor fs p q : fs_wf fs -> fs !! p = Some NDir -> q `prefix_of` p -> fs !! q = Some NDir.
Proof.
intros Hwf Hp [r ->]. induction r as [|c r IH] using rev_ind.
- by rewrite app_nil_r in Hp.
- rewrite app_assoc in Hp. apply IH. by eapply Hwf.
Qed.

Section ready.
Context (root : path) (fs : gmap path node) (Hr : store_ready root fs).

Lemma ready_dirs_ok q : slot_kind q = Some KDir -> dirs_ok (root ++ q) fs.
Proof.
intros Hq p Hp. apply prefix_root_cases in Hp as [Hp|(q' & -> & Hq')].
- right. eapply fs_wf_ancestor; [apply Hr|apply (ready_root _ _ Hr)|done].
- assert (slot_kind q' = Some KDir) as Hk.
  { destruct (decide (q' = q)) as [->|]; [done|]. by eapply slot_kind_prefix. }
  destruct (fs !! (root ++ q')) as [n|] eqn:E; [right|by left].
  pose proof (ready_kind _ _ Hr _ _ _ Hk E). by destruct n.
Qed.

Lemma ready_slot_ok q c :
  slot_kind (q ++ [c]) = Some KFile -> tmp_path (root ++ q ++ [c]) = false ->
  slot_ok (root ++ q ++ [c]) fs.
Proof.
intros Hk Ht. split; [by destruct root, q|]. split.
- rewrite app_assoc, parent_snoc. apply ready_dirs_ok. by eapply slot_kind_parent.
- split; [|by apply tmp_path_clean]. intros E. by pose proof (ready_kind _ _ Hr _ _ _ Hk E).
Qed.

(** Publishing at a slot keeps the store ready. *)
Lemma ready_put_file q c d m :
  slot_kind (q ++ [c]) = Some KFile -> tmp_path (root ++ q ++ [c]) = false ->
  store_ready root (put_file (root ++ q ++ [c]) d m fs).
Proof.
intros Hk Ht. pose proof (ready_slot_ok q c Hk Ht) as Hs. pose proof Hs as (Hne & Hok & _).
assert (parent_path (root ++ q ++ [c]) = root ++ q) as Hpar by (by rewrite app_assoc, parent_snoc).
split.
- apply put_file_wf; [apply Hr|done].
- apply put_file_tmp_free; [apply Hr|apply Hr|done].
- rewrite put_file_lookup; [|apply Hr|done]. case_decide as E.
  { apply (f_equal length) in E. rewrite !length_app in E. simpl in E. lia. }
  rewrite Hpar, decide_True; [done|]. by apply prefix_app_r.
- apply Hr.
- intros q' k n Hq'. rewrite put_file_lookup; [|apply Hr|done]. case_decide as E.
  { apply app_inv_head in E as ->. intros [= <-]. by assert (k = KFile) as -> by congruence. }
  rewrite Hpar. case_decide as Hp.
  + apply prefix_app_inv in Hp. intros [= <-].
    assert (slot_kind q' = Some KDir) as E2.
    { eapply slot_kind_prefix; [exact Hk| |]; [by apply prefix_app_r|]. intros ->.
      apply prefix_length in Hp. rewrite length_app in Hp. simpl in Hp. lia. }
    by assert (k = KDir) as -> by congruence.
  + by apply (ready_kind _ _ Hr).
Qed.

(** The lock file. *)
Definition lock_fs : gmap path node :=
  match fs !! gc_lock_path root with
  | Some _ => fs
  | None => <[gc_lock_path root := NFile [] CREATE_MODE]> fs
  end.

Lemma does_lock (m : IO unit) :
  m = (_ ← gc_lock_file root; sync) -> does m fs (Ok tt) lock_fs.
Proof.
intros ->. eapply does_bind; [|apply does_sync]. apply does_sys0. unfold lock_fs, gc_lock_path.
destruct (fs !! (root ++ [GC_LOCK])) as [n|] eqn:E.
- pose proof (ready_kind _ _ Hr [GC_LOCK] KFile n eq_refl E). by destruct n.
- by rewrite parent_snoc, (proj2 (is_dir_true fs root) (ready_root _ _ Hr)).
Qed.

Lemma lock_fs_lookup p : tmp_path p = false -> lock_fs !! p = fs !! p.
Proof.
intros Hp. unfold lock_fs. case_match; [done|]. apply lookup_insert_ne. intros <-.
by rewrite gc_lock_tmp in Hp.
Qed.

Lemma lock_fs_ready : store_ready root lock_fs.
Proof.
unfold lock_fs, gc_lock_path. destruct (fs !! (root ++ [GC_LOCK])) as [n|] eqn:E; [done|].
assert (tmp_clean (root ++ [GC_LOCK])) as Hc.
{ pose proof (tmp_path_clean _ (ready_clean _ _ Hr)) as H. unfold tmp_clean in *.
  by rewrite existsb_app, H. }
split.
- apply fs_wf_insert; [apply Hr|congruence|]. rewrite parent_snoc. apply Hr.
- intros p n. rewrite lookup_insert. case_decide as Ep; [subst; done|]. apply Hr.
- rewrite lookup_insert_ne; [apply Hr|]. apply snoc_ne.
- apply Hr.
- intros q k n Hq. rewrite lookup_insert. case_decide as Eq; [|by apply (ready_kind _ _ Hr)].
  apply app_inv_head in Eq as <-. intros [= <-]. simpl in Hq.
  vm_compute in Hq. by simplify_eq.
Qed.

End ready.

(** * Slots of the planes *)

Lemma sharded_slot root plane d :
  sharded root plane d = root ++ [plane; (shard_parts (to_hex d)).1] ++ [(shard_parts (to_hex d)).2].
Proof. unfold sharded, shard_dir. by rewrite <- app_assoc. Qed.

Lemma sharded_parent root plane d : parent_path (sharded root plane d) = shard_dir root plane d.
Proof. apply parent_snoc. Qed.

Lemma file_plane_slot plane x y :
  plane ∈ file_planes -> slot_kind ([plane; x] ++ [y]) = Some KFile.
Proof.
intros H. cbn [app slot_kind]. unfold is_plane.
rewrite (bool_decide_eq_true_2 (plane ∈ file_planes)) by done. rewrite bool_decide_eq_false_2; [done|].
intros ->. by apply (bool_decide_eq_true_2 _) in H.
Qed.

Lemma file_plane_public plane : plane ∈ file_planes -> private_name plane = false.
Proof.
intros H. assert (Forall (fun c => private_name c = false) file_planes) as HF
  by (apply (bool_decide_eq_true_1 _); vm_compute; reflexivity).
rewrite Forall_forall in HF. auto.
Qed.

Section plane_writes.
Context (root : path) (fs : gmap path node) (Hr : store_ready root fs).
Context (plane : bytes) (Hpl : plane ∈ file_planes).

Lemma plane_path_tmp d : tmp_path (sharded root plane d) = false.
Proof. apply sharded_tmp; [apply Hr|by apply file_plane_public]. Qed.

Lemma plane_slot_ok d : slot_ok (sharded root plane d) fs.
Proof.
rewrite sharded_slot. apply ready_slot_ok; [done|by apply file_plane_slot|].
rewrite <- sharded_slot. apply plane_path_tmp.
Qed.

Lemma plane_put_ready d c m : store_ready root (put_file (sharded root plane d) c m fs).
Proof.
rewrite sharded_slot. apply ready_put_file; [done|by apply file_plane_slot|].
rewrite <- sharded_slot. apply plane_path_tmp.
Qed.

Lemma does_plane_write d c :
  does (atomic_write (shard_dir root plane d) (sharded root plane d) c) fs (Ok tt)
    (put_file (sharded root plane d) c CREATE_MODE fs).
Proof.
apply does_atomic_write; [apply Hr|apply Hr|apply plane_slot_ok|apply sharded_parent].
Qed.

(** A plane file is absent or a regular file. *)
Lemma plane_node d :
  fs !! sharded root plane d = None \/ exists c m, fs !! sharded root plane d = Some (NFile c m).
Proof.
destruct (fs !! sharded root plane d) as [n|] eqn:E; [right|by left].
rewrite sharded_slot in E. pose proof (ready_kind _ _ Hr _ _ _ (file_plane_slot plane _ _ Hpl) E).
destruct n; [eauto|done..].
Qed.

Lemma plane_exists d : node_exists fs (sharded root plane d) = bool_decide (is_Some (pub fs (sharded root plane d))).
Proof.
rewrite pub_file_at by apply plane_path_tmp. unfold node_exists, file_at.
destruct (plane_node d) as [->|(c & m & ->)]; [by rewrite bool_decide_eq_false_2 by (by intros [])|].
by rewrite bool_decide_eq_true_2.
Qed.

Lemma plane_lookup_put d c m q :
  put_file (sharded root plane d) c m fs !! q =
    if decide (q = sharded root plane d) then Some (NFile c m)
    else if decide (q `prefix_of` shard_dir root plane d) then Some NDir else fs !! q.
Proof.
rewrite put_file_lookup; [|apply Hr|apply plane_slot_ok]. by rewrite sharded_parent.
Qed.

(** The published files after a plane write. *)
Lemma plane_put_pub d c m : pub_put (sharded root plane d) c fs (put_file (sharded root plane d) c m fs).
Proof. apply put_file_pub; [apply Hr|apply plane_slot_ok|apply plane_path_tmp]. Qed.

End plane_writes.

(** Deleting a file keeps the store ready. *)
Lemma ready_delete root fs p c m :
  store_ready root fs -> fs !! p = Some (NFile c m) -> store_ready root (delete p fs).
Proof.
intros Hr Hp. split.
- by eapply fs_wf_delete_leaf; [apply Hr| |].
- intros q n. rewrite lookup_delete. case_decide; [done|]. apply Hr.
- rewrite lookup_delete_ne; [apply Hr|]. intros ->. rewrite (ready_root _ _ Hr) in Hp. done.
- apply Hr.
- intros q k n Hq. rewrite lookup_delete. case_decide; [done|]. by apply (ready_kind _ _ Hr).
Qed.

(** Replacing a file's mode keeps the store ready. *)
Lemma ready_chmod root fs p c m m' :
  store_ready root fs -> fs !! p = Some (NFile c m) -> store_ready root (<[p := NFile c m']> fs).
Proof.
intros Hr Hp. split.
- by eapply fs_wf_replace; [apply Hr| |].
- intros q n. rewrite lookup_insert. case_decide; [subst|by apply Hr]. intros _. by eapply Hr.
- rewrite lookup_insert_ne; [apply Hr|]. intros ->. rewrite (ready_root _ _ Hr) in Hp. done.
- apply Hr.
- intros q k n Hq. rewrite lookup_insert. case_decide; [subst|by apply (ready_kind _ _ Hr)].
  intros [= <-]. apply (ready_kind _ _ Hr q k _ Hq Hp).
Qed.

Lemma lock_fs_lookup_ne root fs p : p <> gc_lock_path root -> lock_fs root fs !! p = fs !! p.
Proof. intros Hp. unfold lock_fs. case_match; [done|]. by apply lookup_insert_ne. Qed.

Lemma lock_fs_pub root fs : pub_eq fs (lock_fs root fs).
Proof.
intros p. unfold pub. destruct (tmp_path p) eqn:E; [done|]. unfold file_at.
by rewrite lock_fs_lookup.
Qed.

Lemma does_write_guard root fs : store_ready root fs -> does (write_guard root) fs (Ok tt) (lock_fs root fs).
Proof. intros Hr. by apply does_lock. Qed.

(** * Objects on a ready store *)

Lemma objects_plane : str "objects" ∈ file_planes.
Proof. apply (bool_decide_eq_true_1 _). vm_compute. reflexivity. Qed.

Lemma object_parent root d : parent_path (object_path root d) = shard_dir root (str "objects") d.
Proof. apply sharded_parent. Qed.

Section objects.
Context `{B3 : Blake3}.

(** The tree after [put_bytes]. *)
Definition put_bytes_fs (root : path) (bs : bytes) (fs : gmap path node) : gmap path node :=
  if node_exists fs (object_path root (of_bytes bs)) then lock_fs root fs
  else put_file (object_path root (of_bytes bs)) bs MODE_RO (lock_fs root fs).

Lemma lock_fs_exists root fs p : tmp_path p = false -> node_exists (lock_fs root fs) p = node_exists fs p.
Proof. intros H. unfold node_exists. by rewrite lock_fs_lookup. Qed.

Lemma does_put_bytes root fs bs :
  store_ready root fs ->
  does (put_bytes root bs) fs (Ok (of_bytes bs)) (put_bytes_fs root bs fs) /\
  store_ready root (put_bytes_fs root bs fs).
Proof.
intros Hr. pose proof (lock_fs_ready root fs Hr) as Hr1.
pose proof (object_path_tmp root (of_bytes bs) (ready_clean _ _ Hr)) as Ht. unfold put_bytes_fs. split.
- unfold put_bytes. eapply does_bind; [by apply does_write_guard|]. cbv beta.
  eapply does_bind; [apply does_exists|]. cbv beta. rewrite lock_fs_exists by done.
  destruct (node_exists fs _); [apply does_ret|].
  set (fs1 := lock_fs root fs) in *. set (d := of_bytes bs) in *.
  destruct (plane_slot_ok root fs1 Hr1 _ objects_plane d) as (Hne & Hok & Hnd & Hc).
  rewrite sharded_parent in Hok. fold (object_path root d) in Hne, Hnd, Hc.
  destruct (add_dirs_facts (shard_dir root (str "objects") d) fs1 (ready_wf _ _ Hr1) Hok (ready_tmp _ _ Hr1))
    as [Hs Ht1].
  { rewrite <- object_parent. by apply tmp_clean_parent. }
  eapply does_bind; [apply does_create_dir_all; [apply Hr1|done]|]. cbv beta.
  unfold put_file. rewrite object_parent.
  assert (~ object_path root d `prefix_of` shard_dir root (str "objects") d) as Hnp.
  { rewrite <- object_parent. by apply dest_not_prefix. }
  apply does_publish; [done|done|done|apply object_parent| |].
  + rewrite add_dirs_lookup; [|apply Hr1|done]. by rewrite decide_False.
  + intros c _. eapply does_bind; [apply does_fsync_dir|].
    { rewrite lookup_insert_ne, lookup_insert_ne; [done|apply snoc_ne|]. intros E. apply Hnp. by rewrite E. }
    cbv beta. eapply does_bind; [eapply does_set_permissions; by rewrite lookup_insert_eq|].
    cbv beta. rewrite insert_insert_eq. apply does_ret.
- destruct (node_exists fs _); [done|]. by apply plane_put_ready, objects_plane.
Qed.

(** The published files after [put_bytes] on a ready store. *)
Lemma put_bytes_fs_pub root fs bs p :
  store_ready root fs ->
  pub (put_bytes_fs root bs fs) p =
    if decide (p = object_path root (of_bytes bs) /\ pub fs p = None) then Some bs else pub fs p.
Proof.
intros Hr. pose proof (lock_fs_ready root fs Hr) as Hr1. unfold put_bytes_fs, object_path.
rewrite (plane_exists root fs Hr _ objects_plane). case_bool_decide as E.
- rewrite (lock_fs_pub root fs p). rewrite decide_False; [done|]. intros [-> Hn]. rewrite Hn in E. by destruct E.
- rewrite (plane_put_pub root (lock_fs root fs) Hr1 _ objects_plane _ bs MODE_RO p).
  rewrite (lock_fs_pub root fs p). repeat case_decide; try naive_solver. subst.
  destruct (pub fs _); [|naive_solver]. exfalso. apply E. eauto.
Qed.

Lemma does_get_file root fs d c :
  file_at fs (object_path root d) = Some c -> of_bytes c = d -> does (get_bytes root d) fs (Ok c) fs.
Proof.
intros Hc Hd. unfold get_bytes. eapply does_bind; [apply does_exists|]. cbv beta.
rewrite (node_exists_file _ _ _ Hc). eapply does_bind; [by apply does_read|].
cbv beta. rewrite bool_decide_eq_true_2 by done. apply does_ret.
Qed.

Lemma does_get_bytes root fs d c :
  store_ready root fs -> pub fs (object_path root d) = Some c -> of_bytes c = d ->
  does (get_bytes root d) fs (Ok c) fs.
Proof. intros Hr Hc. apply does_get_file. rewrite <- Hc. symmetry. apply pub_file_at, object_path_tmp, Hr. Qed.

End objects.

(** * Copies without faults *)

Lemma add_dirs_id p fs : fs_wf fs -> fs !! p = Some NDir -> add_dirs p fs = fs.
Proof.
intros Hwf Hp. apply map_eq. intros q. rewrite add_dirs_lookup; [|done|].
- case_decide as Hq; [|done]. symmetry. by eapply fs_wf_ancestor.
- intros q' Hq'. right. by eapply fs_wf_ancestor.
Qed.

Lemma does_create_parent dst fs :
  fs_wf fs -> fs !! parent_path dst = Some NDir -> does (create_parent dst) fs (Ok tt) fs.
Proof.
intros Hwf Hp. unfold create_parent. case_bool_decide; [apply does_ret|].
pose proof (does_create_dir_all (parent_path dst) fs Hwf) as Hd. rewrite add_dirs_id in Hd by done.
apply Hd. intros q Hq. right. by eapply fs_wf_ancestor.
Qed.

Lemma does_cow_or_copy src dst c m fs rung :
  fs !! src = Some (NFile c m) -> fs !! dst = None -> fs !! parent_path dst = Some NDir ->
  exists m', does (cow_or_copy src dst rung) fs (Ok tt) (<[dst := NFile c m']> fs).
Proof.
intros Hs Hd Hp. assert (src <> dst) as Hne by congruence.
assert (file_at fs src = Some c) as Hf by (unfold file_at; by rewrite Hs).
assert (does (open_read src) fs (Ok tt) fs) as Ho by (apply does_sys0; by rewrite Hs).
assert (does (file_create dst) fs (Ok tt) (<[dst := NFile [] CREATE_MODE]> fs)) as Hc.
{ apply does_sys0. by rewrite Hd, (proj2 (is_dir_true fs _) Hp). }
assert (file_at (<[dst := NFile [] CREATE_MODE]> fs) src = Some c) as Hf'
  by (rewrite file_at_insert; by rewrite decide_False).
assert (append_at dst c (<[dst := NFile [] CREATE_MODE]> fs) = <[dst := NFile c CREATE_MODE]> fs) as Ha.
{ unfold append_at. rewrite lookup_insert_eq. simpl. by rewrite insert_insert_eq. }
assert (does (cow_reflink src dst) fs (Ok tt) (<[dst := NFile c CREATE_MODE]> fs)) as H1.
{ eapply does_bind; [exact Ho|]. eapply does_bind; [exact Hc|]. apply does_sys0. by rewrite Hf', Ha. }
assert (does (cow_copy_range src dst) fs (Ok tt) (<[dst := NFile c CREATE_MODE]> fs)) as H2.
{ eapply does_bind; [exact Ho|]. eapply does_bind; [exact Hc|]. eapply does_bind; [apply does_get_fs|].
  cbv beta. rewrite Hf'. apply does_sys_eq. by rewrite Ha. }
assert (does (copy_file src dst) fs (Ok tt) (<[dst := NFile c m]> fs)) as H3.
{ apply does_sys_eq. by rewrite Hs, Hd, (proj2 (is_dir_true fs _) Hp). }
unfold cow_or_copy.
destruct rung; eexists; (eapply does_bind; [apply does_try; first [exact H1|exact H2|exact H3]|]; apply does_ret).
Qed.

Lemma does_materialize_file `{B3 : Blake3} root d dest mode rung fs c m :
  fs_wf fs -> fs !! object_path root d = Some (NFile c m) -> of_bytes c = d ->
  fs !! dest = None -> fs !! parent_path dest = Some NDir ->
  does (materialize_file root d dest mode rung) fs (Ok tt) (<[dest := NFile c mode]> fs).
Proof.
intros Hwf Hs Hd Hn Hp. assert (file_at fs (object_path root d) = Some c) as Hf by (unfold file_at; by rewrite Hs).
unfold materialize_file. eapply does_bind; [apply does_exists|]. cbv beta.
rewrite (node_exists_file _ _ _ Hf). eapply does_bind.
{ unfold of_file. eapply does_bind; [by apply does_read|]. apply does_ret. }
cbv beta. rewrite bool_decide_eq_true_2 by done.
eapply does_bind; [by apply does_create_parent|]. cbv beta. eapply does_bind.
{ eapply does_ignore, does_sys0. by rewrite Hn. }
cbv beta. destruct (does_cow_or_copy _ dest c m fs rung Hs Hn Hp) as [m' Hc].
eapply does_bind.
{ unfold cow_copy_file. eapply does_bind; [by apply does_create_parent|]. exact Hc. }
cbv beta. unfold set_mode. rewrite <- (insert_insert_eq fs dest (NFile c mode) (NFile c m')).
eapply does_set_permissions. by rewrite lookup_insert_eq.
Qed.

(** ** Ingestion without faults *)

Lemma does_of_file `{B3 : Blake3} p c m fs :
  fs !! p = Some (NFile c m) -> does (of_file p) fs (Ok (of_bytes c)) fs.
Proof.
intros Hp. unfold of_file. eapply does_bind; [apply does_read; unfold file_at; by rewrite Hp|]. apply does_ret.
Qed.

Lemma does_finish_ingest `{B3 : Blake3} tmp dest shard data m fs fs1 :
  fs !! tmp = Some (NFile data m) ->
  does (rename tmp dest) fs (Ok tt) (<[dest := NFile data m]> fs1) ->
  fs1 !! shard = Some NDir -> shard <> dest ->
  does (finish_ingest tmp dest shard (of_bytes data)) fs (Ok (of_bytes data)) (<[dest := NFile data MODE_RO]> fs1).
Proof.
intros Ht Hren Hs Hne. unfold finish_ingest. eapply (does_bind _ _ _ (Ok (of_bytes data))); [apply does_try|apply does_ret].
unfold verify_publish. eapply does_bind; [by eapply does_of_file|]. cbv beta.
rewrite bool_decide_eq_true_2 by done.
eapply does_bind; [apply does_sys0; by rewrite Ht|]. cbv beta.
eapply does_bind; [apply does_sync|]. cbv beta. eapply does_bind; [exact Hren|]. cbv beta.
eapply does_bind; [apply does_fsync_dir; by rewrite lookup_insert_ne|]. cbv beta.
eapply does_bind; [eapply does_set_permissions; by rewrite lookup_insert_eq|]. cbv beta.
rewrite insert_insert_eq. apply does_ret.
Qed.

(** Ingesting a file is storing its bytes. *)
Lemma does_ingest_file `{B3 : Blake3} root fs src c m rung :
  store_ready root fs -> tmp_path src = false -> fs !! src = Some (NFile c m) ->
  does (ingest_file root src rung) fs (Ok (of_bytes c)) (put_bytes_fs root c fs).
Proof.
intros Hr Hsrc Hc. pose proof (lock_fs_ready root fs Hr) as Hr1. set (d := of_bytes c).
pose proof (object_path_tmp root d (ready_clean _ _ Hr)) as Ht. unfold put_bytes_fs. fold d.
assert (lock_fs root fs !! src = Some (NFile c m)) as Hc1 by (by rewrite lock_fs_lookup).
unfold ingest_file. eapply does_bind; [by apply does_write_guard|]. cbv beta.
eapply does_bind; [by eapply does_of_file|]. cbv beta. fold d.
eapply does_bind; [apply does_exists|]. cbv beta. rewrite lock_fs_exists by done.
destruct (node_exists fs _); [apply does_ret|]. set (fs1 := lock_fs root fs) in *.
destruct (plane_slot_ok root fs1 Hr1 _ objects_plane d) as (Hne & Hok & Hnd & Hcl).
rewrite sharded_parent in Hok. fold (object_path root d) in Hne, Hnd, Hcl.
destruct (add_dirs_facts (shard_dir root (str "objects") d) fs1 (ready_wf _ _ Hr1) Hok (ready_tmp _ _ Hr1))
  as [Hs Ht1]; [rewrite <- object_parent; by apply tmp_clean_parent|].
eapply does_bind; [apply does_create_dir_all; [apply Hr1|done]|]. cbv beta.
assert (~ object_path root d `prefix_of` shard_dir root (str "objects") d) as Hnp
  by (rewrite <- object_parent; by apply dest_not_prefix).
unfold put_file. rewrite object_parent. set (fs2 := add_dirs _ fs1) in *.
assert (fs2 !! src = Some (NFile c m)) as Hc2.
{ unfold fs2. rewrite add_dirs_lookup; [|apply Hr1|done]. case_decide as Hp; [|done].
  destruct (Hok src Hp); congruence. }
apply does_staged; [done|done|done|]. intros t Hx Hfree Hned.
set (dir := shard_dir root (str "objects") d ++ [t]) in *.
assert (payload dir <> dir) as Hpd by apply snoc_ne.
destruct (does_cow_or_copy src (payload dir) c m (<[dir := NDir]> fs2) rung) as [m' Hcopy].
- rewrite lookup_insert_ne; [done|]. intros <-. specialize (Hfree []). rewrite app_nil_r in Hfree. congruence.
- rewrite lookup_insert_ne by congruence. apply Hfree.
- unfold payload. rewrite parent_snoc. by rewrite lookup_insert_eq.
- eapply does_bind; [exact Hcopy|]. cbv beta. eapply does_finish_ingest.
  + by rewrite lookup_insert_eq.
  + apply does_rename_staged; [done|apply object_parent| |done|done].
    unfold fs2. rewrite add_dirs_lookup; [|apply Hr1|done]. by rewrite decide_False.
  + rewrite lookup_insert_ne; [done|]. unfold dir. apply snoc_ne.
  + intros E. apply Hnp. by rewrite E.
Qed.
