(* ===== verification/Refs.v ===== *)
(** The refs plane (crates/lightr-store/src/store/refs.rs): named pointers to
    manifests, each with an append-only history. *)

From S2P Require Import Prelude Error Cursor Digest RefRecord Fs FsFacts OwnedTemp Calm Cas Layout.

Section refs.
Context `{B3 : Blake3}.

Definition ref_path (root : path) (key : digest) : path := sharded root (str "refs") key.
Definition refs_names_path (root : path) (key : digest) : path := sharded root (str "refs-names") key.
Definition refs_log_dir (root : path) (key : digest) : path := sharded root (str "refs-log") key.

Definition ref_get (root : path) (name : bytes) : IO (option RefRecord) :=
  _ ← lift (validate_ref_name name);
  let p := ref_path root (ref_key name) in
  e ← exists_ p;
  if (e : bool) then
    bs ← read p;
    rec ← lift (RefRecord.decode bs);
    mret (Some rec)
  else mret None.

(** The log's numeric entries; a name that is not UTF-8 is not numeric. *)
Definition numeric (s : bytes) : bool := bool_decide (is_Some (parse_u64 s)).

(** Step 2 of [ref_put]: the number of numeric names in the log directory. *)
Definition next_index (log_dir : path) : IO Z :=
  e ← exists_ log_dir;
  if (e : bool) then
    r ← try_ (read_dir log_dir);
    match r with
    | Ok names => mret (Z.of_nat (length (List.filter numeric names)))
    | Err _ => mret 0%Z
    end
  else mret 0%Z.

Definition ref_put (root : path) (rec : RefRecord) : IO unit :=
  _ ← write_guard root;
  _ ← lift (validate_ref_name (RefRecord.name rec));
  let key := ref_key (RefRecord.name rec) in
  let names_path := refs_names_path root key in
  e ← exists_ names_path;
  _ ← (if (e : bool) then mret tt
       else atomic_write (shard_dir root (str "refs-names") key) names_path (RefRecord.name rec));
  let log_dir := refs_log_dir root key in
  n ← next_index log_dir;
  let data := RefRecord.encode rec in
  _ ← atomic_write log_dir (log_dir ++ [dec n]) data;
  atomic_write (shard_dir root (str "refs") key) (ref_path root key) data.

(** One entry of the history; unreadable and corrupt entries are skipped. *)
Definition read_log_entry (log_dir : path) (n : Z) : IO (option RefRecord) :=
  r ← try_ (read (log_dir ++ [dec n]));
  match r with
  | Ok bs => match RefRecord.decode bs with Ok rec => mret (Some rec) | Err _ => mret None end
  | Err _ => mret None
  end.

Definition sort_desc : list Z -> list Z := sort_by (fun a b => (b <=? a)%Z).

Definition ref_log (root : path) (name : bytes) : IO (list RefRecord) :=
  _ ← lift (validate_ref_name name);
  let log_dir := refs_log_dir root (ref_key name) in
  e ← exists_ log_dir;
  if (e : bool) then
    r ← try_ (read_dir log_dir);
    match r with
    | Err _ => mret []
    | Ok names =>
        let indices := omap parse_u64 names in
        if bool_decide (indices = []) then mret [] else
        records ← map_io (read_log_entry log_dir) (sort_desc indices);
        mret (omap id records)
    end
  else mret [].

Definition ref_remove (root : path) (name : bytes) : IO bool :=
  _ ← write_guard root;
  _ ← lift (validate_ref_name name);
  let key := ref_key name in
  let p := ref_path root key in
  let names_path := refs_names_path root key in
  existed ← exists_ p;
  e ← exists_ p;
  _ ← (if (e : bool) then remove_file p else mret tt);
  e ← exists_ names_path;
  _ ← (if (e : bool) then remove_file names_path else mret tt);
  mret existed.

(** The files of a shard: a directory that cannot be listed is skipped. *)
Definition shard_files (shard : path) : IO (list path) :=
  fs ← get_fs;
  if is_dir fs shard then
    r ← try_ (read_dir shard);
    match r with
    | Ok names => mret ((fun c => shard ++ [c]) <$> names)
    | Err _ => mret []
    end
  else mret [].

(** One name record: unreadable files and names that are not UTF-8 are skipped. *)
Definition read_name (p : path) : IO (option bytes) :=
  fs ← get_fs;
  if is_file fs p then
    r ← try_ (read p);
    match r with
    | Ok bs => mret (if utf8_valid bs then Some bs else None)
    | Err _ => mret None
    end
  else mret None.

Definition list_refs (root : path) : IO (list bytes) :=
  let names_root := root ++ [str "refs-names"] in
  e ← exists_ names_root;
  if (e : bool) then
    r ← try_ (read_dir names_root);
    match r with
    | Err _ => mret []
    | Ok shards =>
        names ← map_io (fun c =>
          files ← shard_files (names_root ++ [c]);
          map_io read_name files) shards;
        mret (sort_by bytes_leb (omap id (mjoin names)))
    end
  else mret [].

End refs.

(** * Paths *)

Lemma log_entry_slot root key c :
  refs_log_dir root key ++ [c] =
    root ++ [LOG_PLANE; (shard_parts (to_hex key)).1; (shard_parts (to_hex key)).2] ++ [c].
Proof. unfold refs_log_dir, sharded, shard_dir. by rewrite <- !app_assoc. Qed.

Lemma log_entry_kind key c :
  slot_kind ([LOG_PLANE; (shard_parts (to_hex key)).1; (shard_parts (to_hex key)).2] ++ [c]) = Some KFile.
Proof. cbn [app slot_kind]. by rewrite bool_decide_eq_true_2. Qed.

Lemma digits_not_private s : forallb is_ascii_digit s = true -> private_name s = false.
Proof.
intros H. apply hex_not_private. apply forallb_Forall in H.
eapply Forall_impl; [exact H|]. by left.
Qed.

Lemma log_entry_tmp root key n :
  tmp_path root = false -> tmp_path (refs_log_dir root key ++ [dec n]) = false.
Proof.
intros Hr. rewrite tmp_path_app. unfold refs_log_dir. rewrite sharded_tmp by done. simpl.
by rewrite digits_not_private by apply dec_digits.
Qed.

Lemma log_entry_ne_sharded root key c plane d : refs_log_dir root key ++ [c] <> sharded root plane d.
Proof.
intros E. apply (f_equal length) in E. unfold refs_log_dir, sharded, shard_dir in E.
rewrite !length_app in E. simpl in E. lia.
Qed.

Lemma log_entry_eq root key key' c c' :
  refs_log_dir root key ++ [c] = refs_log_dir root key' ++ [c'] <-> key = key' /\ c = c'.
Proof.
split; [|by intros [-> ->]]. intros [E ->]%app_inj_tail. by apply sharded_eq in E as [_ ->].
Qed.

(** * Under every schedule of failures *)

Section schedules.
Context `{B3 : Blake3}.

(** The files a [ref_put] of a name may change. *)
Definition ref_files (root : path) (name : bytes) (p : path) : Prop :=
  p = refs_names_path root (ref_key name) \/ p = ref_path root (ref_key name) \/
  exists n, p = refs_log_dir root (ref_key name) ++ [dec n].

Lemma next_index_pub dir : keeps (on_fs pub_eq) (next_index dir).
Proof. unfold next_index. solve_keeps. Qed.

Lemma atomic_write_except S parent dest data :
  tmp_path dest = false -> S dest -> keeps (on_fs (pub_except S)) (atomic_write parent dest data).
Proof. intros Hd. apply (commits_except S dest data). by apply atomic_write_commits. Qed.

Lemma ref_put_except root rec :
  tmp_path root = false ->
  keeps (on_fs (pub_except (ref_files root (RefRecord.name rec)))) (ref_put root rec).
Proof.
intros Hr. unfold ref_put. solve_keeps;
  first [apply atomic_write_except|apply keeps_except; auto using next_index_pub with keeps];
  try (by apply sharded_tmp); try (by apply log_entry_tmp); unfold ref_files; eauto.
Qed.

Lemma ref_get_pub root name : keeps (on_fs pub_eq) (ref_get root name).
Proof. unfold ref_get. solve_keeps. Qed.

Lemma ref_log_pub root name : keeps (on_fs pub_eq) (ref_log root name).
Proof. unfold ref_log, read_log_entry. solve_keeps. Qed.

Lemma list_refs_pub root : keeps (on_fs pub_eq) (list_refs root).
Proof. unfold list_refs, shard_files, read_name. solve_keeps. Qed.

(** The stages of a [ref_put]: the writes to the name record and the log leave the
    pointer alone, and the pointer is written after the log entry. *)
Lemma ref_put_stages root rec :
  tmp_path root = false ->
  let key := ref_key (RefRecord.name rec) in
  let data := RefRecord.encode rec in
  let p := ref_path root key in
  then_at p (fun v r => exists n v2,
    atomic_write (refs_log_dir root key) (refs_log_dir root key ++ [dec n]) data v = (Ret tt, v2) /\
    r = atomic_write (shard_dir root (str "refs") key) p data v2) (ref_put root rec).
Proof.
intros Hr key data p.
assert (forall parent dest c, tmp_path dest = false -> dest <> p ->
  keeps (on_fs (pub_except (fun q => q <> p))) (atomic_write parent dest c)) as Ha
  by (intros; by apply atomic_write_except).
unfold ref_put. apply then_at_bind; [apply keeps_except; solve_keeps|]. intros _.
apply then_at_bind; [apply keeps_except; solve_keeps|]. intros _.
apply then_at_bind; [apply keeps_except; solve_keeps|]. intros e.
apply then_at_bind.
{ destruct e; [apply keeps_except; solve_keeps|].
  apply Ha; [by apply sharded_tmp|by intros [? _]%sharded_eq]. }
intros _. apply then_at_bind; [apply keeps_except, next_index_pub|]. intros n.
intros v. destruct (then_at_here p (atomic_write (refs_log_dir root key) (refs_log_dir root key ++ [dec n]) data)
  (fun _ => atomic_write (shard_dir root (str "refs") key) p data)) with (v := v)
  as [H|(v1 & H1 & [] & v2 & H2 & H3)].
- apply Ha; [by apply log_entry_tmp|]. apply log_entry_ne_sharded.
- by left.
- right. exists v1. split; [done|]. eauto.
Qed.

(** Old pointer or new record, the log before the pointer. *)
Lemma ref_put_pointer root rec w :
  tmp_path root = false ->
  let r := ref_put root rec w in
  let p := ref_path root (ref_key (RefRecord.name rec)) in
  let data := RefRecord.encode rec in
  pub_except (ref_files root (RefRecord.name rec)) (w_fs w) (w_fs r.2) /\
  ((pub (w_fs r.2) p = pub (w_fs w) p /\ r.1 <> Ret tt) \/
   (pub (w_fs r.2) p = Some data /\
    exists n, pub (w_fs r.2) (refs_log_dir root (ref_key (RefRecord.name rec)) ++ [dec n]) = Some data)).
Proof.
intros Hr r p data. split; [by apply ref_put_except|].
destruct (ref_put_stages root rec Hr w) as [[H1 H2]|(v1 & H1 & n & v2 & H2 & H3)]; [by left|].
subst r. rewrite H3. fold p data in H2, H3, H1 |- *.
assert (tmp_path p = false) as Hp by (by apply sharded_tmp).
pose proof (log_entry_tmp root (ref_key (RefRecord.name rec)) n Hr) as Hl.
pose proof (commits_ret _ _ _ v1 _ v2 (atomic_write_commits _ _ data (fun _ => True) Hl) I H2) as Hlog.
pose proof (atomic_write_commits (shard_dir root (str "refs") (ref_key (RefRecord.name rec))) p data
  (fun _ => True) Hp v2 I) as Hw.
assert (pub (w_fs v2) p = pub (w_fs w) p) as Hv2.
{ rewrite Hlog, decide_False; [done|]. intros E. by apply (log_entry_ne_sharded _ _ _ _ _ (eq_sym E)). }
assert (forall fs', pub_put p data (w_fs v2) fs' -> pub fs' p = Some data /\
  exists n, pub fs' (refs_log_dir root (ref_key (RefRecord.name rec)) ++ [dec n]) = Some data) as Hput.
{ intros fs' H. split; [rewrite H; by rewrite decide_True|]. exists n. rewrite H.
  rewrite decide_False by apply log_entry_ne_sharded. rewrite Hlog. by rewrite decide_True. }
destruct (atomic_write _ p data v2) as [[[]|e|] v3]; simpl in *; [right; by apply Hput| |];
  (destruct Hw as [Hw|Hw]; [left; split; [by rewrite (Hw p)|done]|right; by apply Hput]).
Qed.

(** A [ref_put] is atomic for readers of the ref.  Under every schedule of
    failures and a kill at any call: no file changes but the name record, the log
    and the pointer of that name; the pointer holds its old content or the new
    record; if it holds the new record because of this call, the history holds it
    too; and a successful return means it does. *)
Theorem ref_put_old_or_new root rec w :
  tmp_path root = false ->
  let r := ref_put root rec w in
  let p := ref_path root (ref_key (RefRecord.name rec)) in
  let data := RefRecord.encode rec in
  pub_except (ref_files root (RefRecord.name rec)) (w_fs w) (w_fs r.2) /\
  ((pub (w_fs r.2) p = pub (w_fs w) p /\ r.1 <> Ret tt) \/
   (pub (w_fs r.2) p = Some data /\
    exists n, pub (w_fs r.2) (refs_log_dir root (ref_key (RefRecord.name rec)) ++ [dec n]) = Some data)).
Proof. apply ref_put_pointer. Qed.

End schedules.

(** * The log directory *)

(** The log of [dir] holds exactly the entries [0 .. length l - 1]. *)
Record log_holds (fs : gmap path node) (dir : path) (l : list bytes) : Prop := {
  log_only : forall c n, fs !! (dir ++ [c]) = Some n -> numeric c = true ->
    exists i, i < length l /\ c = dec (Z.of_nat i);
  log_entry : forall i x, l !! i = Some x -> file_at fs (dir ++ [dec (Z.of_nat i)]) = Some x;
  log_dir_ok : fs !! dir = None \/ fs !! dir = Some NDir;
  log_bound : u64 (Z.of_nat (length l));
}.

Lemma numeric_dec n : u64 n -> numeric (dec n) = true.
Proof. intros H. unfold numeric. rewrite parse_u64_dec by done. by rewrite bool_decide_eq_true_2. Qed.

Section log.
Context (fs : gmap path node) (dir : path) (l : list bytes) (Hl : log_holds fs dir l).

Let idx (i : nat) : bytes := dec (Z.of_nat i).

Lemma log_idx_u64 i : i < length l -> u64 (Z.of_nat i).
Proof. intros H. pose proof (log_bound _ _ _ Hl). unfold u64 in *. lia. Qed.

Lemma log_idx_NoDup : NoDup (idx <$> seq 0 (length l)).
Proof.
apply NoDup_fmap_2_strong; [|apply NoDup_seq]. intros i j Hi%elem_of_seq Hj%elem_of_seq E.
apply dec_inj in E; [lia|apply log_idx_u64; lia..].
Qed.

Lemma log_names : List.filter numeric (children fs dir) ≡ₚ idx <$> seq 0 (length l).
Proof.
apply NoDup_Permutation.
- apply NoDup_ListNoDup, List.NoDup_filter, NoDup_ListNoDup, children_NoDup.
- apply log_idx_NoDup.
- intros c. rewrite list_elem_of_In, filter_In, <- list_elem_of_In, elem_of_children, list_elem_of_fmap.
  split.
  + intros [[n Hn] Hc]. destruct (log_only _ _ _ Hl c n Hn Hc) as (i & Hi & ->).
    exists i. split; [done|]. apply elem_of_seq. lia.
  + intros (i & -> & Hi%elem_of_seq). split; [|apply numeric_dec, log_idx_u64; lia].
    destruct (lookup_lt_is_Some_2 l i) as [x Hx]; [lia|].
    pose proof (log_entry _ _ _ Hl i x Hx) as H. unfold file_at, idx in *.
    destruct (fs !! _); [eauto|done].
Qed.

Lemma log_dir_missing : fs_wf fs -> fs !! dir = None -> l = [].
Proof.
intros Hwf Hd. destruct l as [|x l'] eqn:E; [done|]. exfalso.
pose proof (log_entry _ _ _ Hl 0 x) as H. specialize (H eq_refl). unfold file_at in H.
destruct (fs !! (dir ++ _)) as [n|] eqn:En; [|done]. apply Hwf in En. congruence.
Qed.

Lemma does_next_index :
  fs_wf fs -> does (next_index dir) fs (Ok (Z.of_nat (length l))) fs.
Proof.
intros Hwf. unfold next_index. eapply does_bind; [apply does_exists|]. cbv beta.
destruct (log_dir_ok _ _ _ Hl) as [Hd|Hd]; unfold node_exists; rewrite Hd.
- rewrite (log_dir_missing Hwf Hd). apply does_ret.
- eapply does_bind; [by apply does_try, does_read_dir|]. cbv beta iota.
  rewrite (Permutation_length log_names), length_fmap, length_seq. apply does_ret.
Qed.

Lemma omap_filter_numeric (names : list bytes) :
  omap parse_u64 names = omap parse_u64 (List.filter numeric names).
Proof.
induction names as [|c names IH]; csimpl; [done|]. unfold numeric at 1.
destruct (parse_u64 c) as [n|] eqn:E.
- rewrite bool_decide_eq_true_2 by eauto. csimpl. rewrite E. by f_equal.
- rewrite bool_decide_eq_false_2; [done|]. by intros [].
Qed.

Lemma log_indices : omap parse_u64 (children fs dir) ≡ₚ Z.of_nat <$> seq 0 (length l).
Proof.
rewrite omap_filter_numeric, log_names.
assert (omap parse_u64 (idx <$> seq 0 (length l)) = Z.of_nat <$> seq 0 (length l)) as ->; [|done].
assert (Forall (fun i => u64 (Z.of_nat i)) (seq 0 (length l))) as H.
{ apply Forall_forall. intros i Hi%elem_of_seq. apply log_idx_u64. lia. }
induction H as [|i s Hi _ IH]; [done|]. csimpl. unfold idx. rewrite parse_u64_dec by done. f_equal. exact IH.
Qed.

End log.

Lemma sort_desc_seq l n :
  l ≡ₚ Z.of_nat <$> seq 0 n -> sort_desc l = reverse (Z.of_nat <$> seq 0 n).
Proof.
intros H. assert (AntiSymm (=) (fun a b => b <= a)%Z) as Hanti by (intros x y ? ?; lia).
apply (StronglySorted_unique (fun a b => b <= a)%Z).
- apply sort_by_sorted.
  + intros x y. apply Z.leb_le.
  + intros x y z. lia.
  + intros x y. lia.
- clear H. induction n as [|n IH]; [constructor|].
  rewrite seq_S, fmap_app, reverse_app. simpl. constructor; [done|].
  apply Forall_forall. intros x Hx. rewrite elem_of_reverse in Hx. apply list_elem_of_fmap in Hx as (i & -> & Hi%elem_of_seq). lia.
- unfold sort_desc. rewrite sort_by_perm, H. symmetry. apply reverse_Permutation.
Qed.

Lemma omap_id_Some {A} (l : list A) : omap id (Some <$> l) = l.
Proof. induction l as [|x l IH]; csimpl; [done|]. by f_equal. Qed.

Lemma fmap_lookup_seq {A} (l : list A) : (fun i => l !! i) <$> seq 0 (length l) = Some <$> l.
Proof.
apply list_eq. intros i. rewrite !list_lookup_fmap.
destruct (decide (i < length l)) as [Hi|Hi].
- rewrite lookup_seq_lt by done. simpl. by destruct (lookup_lt_is_Some_2 l i Hi) as [x ->].
- rewrite lookup_seq_ge, lookup_ge_None_2 by lia. done.
Qed.

Section calm_log.
Context `{B3 : Blake3}.

Lemma does_read_log_entry fs dir recs i rec :
  log_holds fs dir (RefRecord.encode <$> recs) -> recs !! i = Some rec -> ref_record_wf rec ->
  does (read_log_entry dir (Z.of_nat i)) fs (Ok (Some rec)) fs.
Proof.
intros Hl Hi Hwf. unfold read_log_entry. eapply does_bind.
- apply does_try, does_read. eapply (log_entry _ _ _ Hl). rewrite list_lookup_fmap, Hi. done.
- cbv beta iota. rewrite ref_decode_encode by done. apply does_ret.
Qed.

(** [ref_log] on a well-formed history: newest first. *)
Lemma does_ref_log root fs name recs :
  fs_wf fs -> validate_ref_name name = Ok tt ->
  log_holds fs (refs_log_dir root (ref_key name)) (RefRecord.encode <$> recs) ->
  Forall ref_record_wf recs ->
  does (ref_log root name) fs (Ok (reverse recs)) fs.
Proof.
intros Hwf Hn Hl Hrecs. unfold ref_log. rewrite Hn. eapply does_bind; [apply does_ret|].
eapply does_bind; [apply does_exists|]. cbv beta.
destruct (log_dir_ok _ _ _ Hl) as [Hd|Hd]; unfold node_exists; rewrite Hd.
{ pose proof (log_dir_missing _ _ _ Hl Hwf Hd) as E. destruct recs; [apply does_ret|done]. }
eapply does_bind; [by apply does_try, does_read_dir|]. cbv beta iota.
pose proof (log_indices _ _ _ Hl) as Hp. rewrite length_fmap in Hp. case_bool_decide as E.
{ rewrite E in Hp. apply Permutation_nil in Hp. destruct recs; [apply does_ret|done]. }
rewrite (sort_desc_seq _ _ Hp). eapply does_bind.
- apply (does_map_io _ (fun z => recs !! Z.to_nat z)). intros z Hz. rewrite elem_of_reverse in Hz.
  apply list_elem_of_fmap in Hz as (i & -> & Hi%elem_of_seq).
  destruct (lookup_lt_is_Some_2 recs i) as [rec Hrec]; [lia|]. rewrite Nat2Z.id, Hrec.
  eapply does_read_log_entry; [done|done|]. by eapply Forall_lookup_1.
- cbv beta. rewrite fmap_reverse, <- list_fmap_compose.
  rewrite (list_fmap_ext _ (fun i => recs !! i)) by (intros; simpl; by rewrite Nat2Z.id).
  rewrite fmap_lookup_seq, <- fmap_reverse, omap_id_Some. apply does_ret.
Qed.

(** [ref_get] on a ready store. *)
Lemma does_ref_get root fs name (o : option RefRecord) :
  store_ready root fs -> validate_ref_name name = Ok tt ->
  pub fs (ref_path root (ref_key name)) = RefRecord.encode <$> o ->
  default True (ref_record_wf <$> o) ->
  does (ref_get root name) fs (Ok o) fs.
Proof.
intros Hr Hn Hp Hwf. assert (str "refs" ∈ file_planes) as Hpl by (apply (bool_decide_eq_true_1 _); done).
unfold ref_get. rewrite Hn. eapply does_bind; [apply does_ret|].
eapply does_bind; [apply does_exists|]. cbv beta. unfold ref_path in *.
rewrite (plane_exists root fs Hr _ Hpl), Hp. destruct o as [rec|]; [|apply does_ret].
cbn [fmap option_fmap option_map]. rewrite bool_decide_eq_true_2 by eauto.
rewrite pub_file_at in Hp by (by apply (plane_path_tmp root fs Hr)).
eapply does_bind; [by apply does_read|]. cbv beta. rewrite ref_decode_encode by done.
eapply does_bind; [apply does_ret|]. apply does_ret.
Qed.

End calm_log.

(** * The name records *)

Definition shard_paths (fs : gmap path node) (shard : path) : list path :=
  if is_dir fs shard then (fun c => shard ++ [c]) <$> children fs shard else [].

Lemma does_shard_files shard fs : does (shard_files shard) fs (Ok (shard_paths fs shard)) fs.
Proof.
unfold shard_files, shard_paths. eapply does_bind; [apply does_get_fs|]. cbv beta.
destruct (is_dir fs shard) eqn:E; [|apply does_ret]. apply is_dir_true in E.
eapply does_bind; [by apply does_try, does_read_dir|]. apply does_ret.
Qed.

Definition name_at (fs : gmap path node) (p : path) : option bytes :=
  match file_at fs p with
  | Some c => if utf8_valid c then Some c else None
  | None => None
  end.

Lemma is_file_file_at fs p : is_file fs p = bool_decide (is_Some (file_at fs p)).
Proof.
unfold is_file, file_at. repeat case_match; try (by rewrite bool_decide_eq_true_2 by eauto);
  by rewrite bool_decide_eq_false_2 by (by intros []).
Qed.

Lemma does_read_name p fs : does (read_name p) fs (Ok (name_at fs p)) fs.
Proof.
unfold read_name, name_at. eapply does_bind; [apply does_get_fs|]. cbv beta. rewrite is_file_file_at.
destruct (file_at fs p) as [c|] eqn:E.
- rewrite bool_decide_eq_true_2 by eauto. eapply does_bind; [by apply does_try, does_read|]. apply does_ret.
- rewrite bool_decide_eq_false_2 by (by intros []). apply does_ret.
Qed.

(** The names below a directory of shards. *)
Definition names_below (fs : gmap path node) (base : path) : list bytes :=
  children fs base ≫= fun c => omap (name_at fs) (shard_paths fs (base ++ [c])).

Lemma omap_id_mjoin {A B} (f : A -> list (option B)) l :
  omap id (mjoin (f <$> l)) = l ≫= fun a => omap id (f a).
Proof.
induction l as [|a l IH]; [done|]. rewrite join_fmap_cons, omap_app, IH. done.
Qed.

Lemma omap_id_fmap {A B} (f : A -> option B) (l : list A) : omap id (f <$> l) = omap f l.
Proof. induction l as [|a l IH]; csimpl; [done|]. destruct (f a); simpl; [f_equal|]; exact IH. Qed.

Lemma does_list_refs root fs :
  does (list_refs root) fs
    (Ok (if is_dir fs (root ++ [str "refs-names"])
         then sort_by bytes_leb (names_below fs (root ++ [str "refs-names"])) else [])) fs.
Proof.
unfold list_refs. eapply does_bind; [apply does_exists|]. cbv beta.
set (base := root ++ [str "refs-names"]). unfold node_exists, is_dir.
destruct (fs !! base) as [[c m| |t]|] eqn:E; rewrite ?(bool_decide_eq_false_2 (Some _ = Some NDir)) by done.
- eapply does_bind; [eapply does_try, does_sys0; by rewrite E|]. apply does_ret.
- rewrite bool_decide_eq_true_2 by done. eapply does_bind; [by apply does_try, does_read_dir|].
  cbv beta iota. eapply does_bind.
  + apply (does_map_io _ (fun c => name_at fs <$> shard_paths fs (base ++ [c]))). intros c _.
    eapply does_bind; [apply does_shard_files|]. cbv beta. apply does_map_io. intros p _. apply does_read_name.
  + cbv beta. rewrite omap_id_mjoin. unfold names_below.
    erewrite list_bind_ext; [apply does_ret|intros c; apply omap_id_fmap|done].
- apply does_ret.
- rewrite bool_decide_eq_false_2 by done. apply does_ret.
Qed.

Lemma elem_of_names_below fs base n :
  fs_wf fs ->
  n ∈ names_below fs base <->
  exists x y, file_at fs (base ++ [x; y]) = Some n /\ utf8_valid n = true.
Proof.
intros Hwf. unfold names_below. rewrite list_elem_of_bind. split.
- intros (x & Hn & _). apply list_elem_of_omap in Hn as (p & Hp & Hn). unfold shard_paths in Hp.
  case_match; [|set_solver]. apply list_elem_of_fmap in Hp as (y & -> & _). exists x, y.
  unfold name_at in Hn. rewrite <- app_assoc in Hn. simpl in Hn. repeat (case_match; simplify_eq). done.
- intros (x & y & Hf & Hu). assert (exists nd, fs !! ((base ++ [x]) ++ [y]) = Some nd) as [nd Hnd].
  { rewrite <- app_assoc. unfold file_at in Hf. simpl. destruct (fs !! _); [eauto|done]. }
  pose proof (proj2 Hwf _ _ _ Hnd) as Hx. exists x. split; [|apply elem_of_children; eauto].
  apply list_elem_of_omap. exists ((base ++ [x]) ++ [y]). split.
  + unfold shard_paths. rewrite (proj2 (is_dir_true fs _) Hx). apply list_elem_of_fmap. exists y.
    split; [done|]. apply elem_of_children. eauto.
  + unfold name_at. rewrite <- app_assoc. simpl. by rewrite Hf, Hu.
Qed.

Lemma omap_NoDup {A B} (f : A -> option B) (l : list A) :
  (forall x y b, x ∈ l -> y ∈ l -> f x = Some b -> f y = Some b -> x = y) -> NoDup l -> NoDup (omap f l).
Proof.
intros Hf. induction 1 as [|x l Hx Hl IH]; csimpl; [constructor|].
destruct (f x) as [b|] eqn:E; [|apply IH; set_solver]. constructor; [|apply IH; set_solver].
intros (y & Hy & Hb)%list_elem_of_omap. apply Hx.
assert (x = y) as -> by (eapply Hf; [set_solver|set_solver|done|done]). done.
Qed.

Lemma names_below_NoDup fs base :
  (forall x y x' y' n, file_at fs (base ++ [x; y]) = Some n -> file_at fs (base ++ [x'; y']) = Some n ->
    x = x' /\ y = y') ->
  NoDup (names_below fs base).
Proof.
intros Hinj. apply NoDup_bind; [| |apply children_NoDup].
- intros x1 x2 n _ _ H1 H2. apply list_elem_of_omap in H1 as (p1 & Hp1 & H1), H2 as (p2 & Hp2 & H2).
  unfold shard_paths, name_at in *. repeat (case_match; simplify_eq); try set_solver.
  apply list_elem_of_fmap in Hp1 as (y1 & -> & _), Hp2 as (y2 & -> & _).
  rewrite <- !app_assoc in *. simpl in *. assert (x1 = x2 /\ y1 = y2) as [-> _] by (by eapply Hinj). done.
- intros x _. apply omap_NoDup.
  + intros p1 p2 n Hp1 Hp2 H1 H2. unfold shard_paths, name_at in *. repeat (case_match; simplify_eq); try set_solver.
    apply list_elem_of_fmap in Hp1 as (y1 & -> & _), Hp2 as (y2 & -> & _).
    rewrite <- !app_assoc in *. simpl in *. assert (x = x /\ y1 = y2) as [_ ->] by (by eapply Hinj). done.
  + unfold shard_paths. case_match; [|constructor].
    apply NoDup_fmap_2; [|apply children_NoDup]. intros a b E. by apply app_inv_head in E as [= ->].
Qed.

(** * The log under writes *)

Section log_writes.
Context (root : path) (fs : gmap path node) (Hr : store_ready root fs).

Lemma log_holds_ext fs' dir l :
  log_holds fs dir l -> (forall c, fs' !! (dir ++ [c]) = fs !! (dir ++ [c])) ->
  fs' !! dir = fs !! dir -> log_holds fs' dir l.
Proof.
intros [H1 H2 H3 H4] Hc Hd. split; [| |by rewrite Hd|done].
- intros c n. rewrite Hc. apply H1.
- intros i x Hx. unfold file_at. rewrite Hc. by apply H2.
Qed.

Lemma log_length key c : length (refs_log_dir root key ++ [c]) = length root + 4.
Proof. unfold refs_log_dir, sharded, shard_dir. rewrite !length_app. simpl. lia. Qed.

Lemma log_dir_length key : length (refs_log_dir root key) = length root + 3.
Proof. unfold refs_log_dir, sharded, shard_dir. rewrite !length_app. simpl. lia. Qed.

Lemma log_holds_lock key l :
  log_holds fs (refs_log_dir root key) l -> log_holds (lock_fs root fs) (refs_log_dir root key) l.
Proof.
intros Hl. eapply log_holds_ext; [done|intros c|]; apply lock_fs_lookup_ne; intros E;
  apply (f_equal length) in E; rewrite ?log_length, ?log_dir_length in E; unfold gc_lock_path in E;
  rewrite length_app in E; simpl in E; lia.
Qed.

Lemma log_holds_plane key l plane d c m :
  plane ∈ file_planes ->
  log_holds fs (refs_log_dir root key) l ->
  log_holds (put_file (sharded root plane d) c m fs) (refs_log_dir root key) l.
Proof.
intros Hpl Hl.
assert (forall q, length root + 3 <= length q -> ~ q `prefix_of` shard_dir root plane d) as Hpre.
{ intros q Hq H%prefix_length. unfold shard_dir in H. rewrite length_app in H. simpl in H. lia. }
eapply log_holds_ext; [done|intros x|]; rewrite (plane_lookup_put root fs Hr plane Hpl);
  rewrite !decide_False; try done; try (apply Hpre; rewrite ?log_length, ?log_dir_length; lia).
- apply log_entry_ne_sharded.
- intros [E _]%sharded_eq. subst plane. by apply (bool_decide_eq_true_2 _) in Hpl.
Qed.

Lemma log_slot_ok key n : slot_ok (refs_log_dir root key ++ [dec n]) fs.
Proof.
rewrite log_entry_slot. apply ready_slot_ok; [done|apply log_entry_kind|].
rewrite <- log_entry_slot. apply log_entry_tmp, Hr.
Qed.

Lemma log_put_lookup key n c m q :
  put_file (refs_log_dir root key ++ [dec n]) c m fs !! q =
    if decide (q = refs_log_dir root key ++ [dec n]) then Some (NFile c m)
    else if decide (q `prefix_of` refs_log_dir root key) then Some NDir else fs !! q.
Proof.
rewrite put_file_lookup; [|apply Hr|apply log_slot_ok]. by rewrite parent_snoc.
Qed.

Lemma log_put_ready key n c m : store_ready root (put_file (refs_log_dir root key ++ [dec n]) c m fs).
Proof.
rewrite log_entry_slot. apply ready_put_file; [done|apply log_entry_kind|].
rewrite <- log_entry_slot. apply log_entry_tmp, Hr.
Qed.

Lemma log_holds_other key key' l n c m :
  key <> key' ->
  log_holds fs (refs_log_dir root key) l ->
  log_holds (put_file (refs_log_dir root key' ++ [dec n]) c m fs) (refs_log_dir root key) l.
Proof.
intros Hne Hl.
assert (forall q, length root + 4 <= length q -> ~ q `prefix_of` refs_log_dir root key') as Hpre.
{ intros q Hq H%prefix_length. rewrite log_dir_length in H. lia. }
eapply log_holds_ext; [done|intros x|]; rewrite log_put_lookup; rewrite !decide_False; try done.
- apply Hpre. rewrite log_length. lia.
- by intros [? _]%log_entry_eq.
- intros [k Hk]. apply Hne. assert (k = []) as ->.
  { apply (f_equal length) in Hk. rewrite length_app, !log_dir_length in Hk. destruct k; [done|simpl in Hk; lia]. }
  rewrite app_nil_r in Hk. by apply sharded_eq in Hk as [_ ->].
- intros E. apply (f_equal length) in E. rewrite log_length, log_dir_length in E. lia.
Qed.

Lemma log_holds_append key l c m :
  log_holds fs (refs_log_dir root key) l -> u64 (Z.of_nat (S (length l))) ->
  log_holds (put_file (refs_log_dir root key ++ [dec (Z.of_nat (length l))]) c m fs)
    (refs_log_dir root key) (l ++ [c]).
Proof.
intros Hl Hb. pose proof (log_bound _ _ _ Hl) as Hb0.
assert (forall x, ~ refs_log_dir root key ++ [x] `prefix_of` refs_log_dir root key) as Hpre.
{ intros x H%prefix_length. rewrite log_length, log_dir_length in H. lia. }
split.
- intros x n. rewrite log_put_lookup. case_decide as E.
  + apply app_inv_head in E as [= ->]. intros _ _. exists (length l). rewrite length_app. simpl. split; [lia|done].
  + rewrite decide_False by apply Hpre. intros Hn Hx. destruct (log_only _ _ _ Hl x n Hn Hx) as (i & Hi & ->).
    exists i. rewrite length_app. split; [lia|done].
- intros i x Hi. unfold file_at. rewrite log_put_lookup. destruct (decide (i = length l)) as [->|Hne].
  + rewrite lookup_app_r, Nat.sub_diag in Hi by lia. injection Hi as ->. by rewrite decide_True.
  + assert (i < length l) as Hlt by (apply lookup_lt_Some in Hi; rewrite length_app in Hi; simpl in Hi; lia).
    rewrite lookup_app_l in Hi by done. rewrite decide_False, decide_False; [|apply Hpre|].
    * by apply (log_entry _ _ _ Hl).
    * intros E. apply app_inv_head in E as [= E']. apply dec_inj in E'; [lia| |done].
      unfold u64 in *. lia.
- right. rewrite log_put_lookup. rewrite decide_False; [by rewrite decide_True|].
  intros E. by apply (snoc_ne (refs_log_dir root key) (dec (Z.of_nat (length l)))).
- rewrite length_app. simpl. by rewrite Nat.add_1_r.
Qed.

End log_writes.

(** * Specification and refinement

    What the refs plane promises: a map from names to their current record and the
    sequence of every record ever put. *)

Record refs_state := mkRefs { cur : gmap bytes RefRecord; puts : list RefRecord }.

Definition history (a : refs_state) (n : bytes) : list RefRecord :=
  filter (fun r => RefRecord.name r = n) (puts a).

Inductive ref_op :=
  | RPut (rec : RefRecord)
  | RGet (n : bytes)
  | RLog (n : bytes)
  | RRemove (n : bytes)
  | RList.

Inductive ref_result :=
  | RUnit
  | RRecord (o : option RefRecord)
  | RRecords (l : list RefRecord)
  | RBool (b : bool)
  | RNames (l : list bytes).

Definition ref_spec (op : ref_op) (a : refs_state) : ref_result * refs_state :=
  match op with
  | RPut rec => (RUnit, mkRefs (<[RefRecord.name rec := rec]> (cur a)) (puts a ++ [rec]))
  | RGet n => (RRecord (cur a !! n), a)
  | RLog n => (RRecords (reverse (history a n)), a)
  | RRemove n => (RBool (bool_decide (is_Some (cur a !! n))), mkRefs (delete n (cur a)) (puts a))
  | RList => (RNames (sort_by bytes_leb (map_to_list (cur a)).*1), a)
  end.

Definition ref_impl `{Blake3} (root : path) (op : ref_op) : IO ref_result :=
  match op with
  | RPut rec => _ ← ref_put root rec; mret RUnit
  | RGet n => o ← ref_get root n; mret (RRecord o)
  | RLog n => l ← ref_log root n; mret (RRecords l)
  | RRemove n => b ← ref_remove root n; mret (RBool b)
  | RList => l ← list_refs root; mret (RNames l)
  end.

(** A set of names whose keys do not collide. *)
Record names_ok `{Blake3} (N : list bytes) : Prop := {
  names_valid : forall n, n ∈ N -> validate_ref_name n = Ok tt;
  names_keys : forall n n', n ∈ N -> n' ∈ N -> ref_key n = ref_key n' -> n = n';
}.

Definition op_ok (N : list bytes) (op : ref_op) (a : refs_state) : Prop :=
  match op with
  | RPut rec =>
      RefRecord.name rec ∈ N /\ ref_record_wf rec /\
      u64 (Z.of_nat (S (length (history a (RefRecord.name rec)))))
  | RGet n | RLog n | RRemove n => n ∈ N
  | RList => True
  end.

Record refs_abs `{Blake3} (root : path) (N : list bytes) (fs : gmap path node) (a : refs_state) : Prop := {
  abs_ready : store_ready root fs;
  abs_cur : forall n, n ∈ N -> pub fs (ref_path root (ref_key n)) = RefRecord.encode <$> cur a !! n;
  abs_name : forall n, n ∈ N ->
    pub fs (refs_names_path root (ref_key n)) = (fun r => RefRecord.name r) <$> cur a !! n;
  abs_only : forall x y c, file_at fs (root ++ [str "refs-names"; x; y]) = Some c ->
    exists n, n ∈ N /\ root ++ [str "refs-names"; x; y] = refs_names_path root (ref_key n);
  abs_log : forall n, n ∈ N ->
    log_holds fs (refs_log_dir root (ref_key n)) (RefRecord.encode <$> history a n);
  abs_dom : forall n r, cur a !! n = Some r -> n ∈ N /\ RefRecord.name r = n /\ ref_record_wf r;
  abs_puts : Forall ref_record_wf (puts a);
}.

Section refinement.
Context `{B3 : Blake3} (root : path) (N : list bytes) (HN : names_ok N).

Lemma refs_plane : str "refs" ∈ file_planes.
Proof. apply (bool_decide_eq_true_1 _). vm_compute. reflexivity. Qed.
Lemma names_plane : str "refs-names" ∈ file_planes.
Proof. apply (bool_decide_eq_true_1 _). vm_compute. reflexivity. Qed.

Lemma abs_record_wf fs a n : refs_abs root N fs a -> default True (ref_record_wf <$> cur a !! n).
Proof.
intros Ha. destruct (cur a !! n) as [r|] eqn:E; [|done]. by destruct (abs_dom _ _ _ _ Ha n r E) as (_ & _ & ?).
Qed.

Lemma history_wf fs a n : refs_abs root N fs a -> Forall ref_record_wf (history a n).
Proof.
intros Ha. apply Forall_forall. intros r [_ Hr]%list_elem_of_filter.
pose proof (abs_puts _ _ _ _ Ha) as H. rewrite Forall_forall in H. auto.
Qed.

(** Every file of the names plane is the record of a name of [N]. *)
Definition only_names (fs : gmap path node) : Prop :=
  forall x y c, file_at fs (root ++ [str "refs-names"; x; y]) = Some c ->
    exists n, n ∈ N /\ root ++ [str "refs-names"; x; y] = refs_names_path root (ref_key n).

Lemma only_names_put fs dest c m :
  fs_wf fs -> slot_ok dest fs ->
  (forall x y, dest = root ++ [str "refs-names"; x; y] ->
    exists n, n ∈ N /\ dest = refs_names_path root (ref_key n)) ->
  only_names fs -> only_names (put_file dest c m fs).
Proof.
intros Hwf (_ & Hok & _) Hd Ho x y c'. unfold file_at. rewrite put_file_lookup by done.
case_decide as E; [intros _; rewrite E; by apply (Hd x y)|]. case_decide; [done|]. apply Ho.
Qed.

Lemma only_names_other fs plane d c m :
  store_ready root fs -> plane ∈ file_planes -> plane <> str "refs-names" ->
  only_names fs -> only_names (put_file (sharded root plane d) c m fs).
Proof.
intros Hr Hpl Hne. apply only_names_put; [apply Hr|by apply plane_slot_ok|].
intros x y E. rewrite sharded_slot in E. by apply app_inv_head in E as [= ? _ _].
Qed.

Lemma only_names_log fs key n c m :
  store_ready root fs -> only_names fs -> only_names (put_file (refs_log_dir root key ++ [dec n]) c m fs).
Proof.
intros Hr. apply only_names_put; [apply Hr|by apply log_slot_ok|].
intros x y E. apply (f_equal length) in E. rewrite log_length, length_app in E. simpl in E. lia.
Qed.

Lemma only_names_lock fs : only_names fs -> only_names (lock_fs root fs).
Proof.
intros Ho x y c. unfold file_at. rewrite lock_fs_lookup_ne; [apply Ho|]. unfold gc_lock_path.
by intros [=]%app_inv_head.
Qed.

(** The part of the abstraction no write of another ref touches. *)
Definition logs_hold (fs : gmap path node) (a : refs_state) : Prop :=
  forall n, n ∈ N -> log_holds fs (refs_log_dir root (ref_key n)) (RefRecord.encode <$> history a n).

(** Step 1 of [ref_put]: the name record is there afterwards. *)
Lemma does_put_name fs a n :
  store_ready root fs -> only_names fs -> logs_hold fs a -> n ∈ N ->
  (pub fs (refs_names_path root (ref_key n)) = None \/
   pub fs (refs_names_path root (ref_key n)) = Some n) ->
  exists fs', does (e ← exists_ (refs_names_path root (ref_key n));
       if (e : bool) then mret tt
       else atomic_write (shard_dir root (str "refs-names") (ref_key n)) (refs_names_path root (ref_key n)) n)
    fs (Ok tt) fs' /\ store_ready root fs' /\ only_names fs' /\ logs_hold fs' a /\
    pub_put (refs_names_path root (ref_key n)) n fs fs'.
Proof.
intros Hr Ho Hl Hn Hp. pose proof names_plane as Hpl. unfold refs_names_path in *.
destruct Hp as [Hp|Hp].
- exists (put_file (sharded root (str "refs-names") (ref_key n)) n CREATE_MODE fs).
  split; [|split; [|split; [|split]]].
  + eapply does_bind; [apply does_exists|]. cbv beta.
    rewrite (plane_exists root fs Hr _ Hpl), Hp, bool_decide_eq_false_2 by (by intros []).
    by apply does_plane_write.
  + by apply plane_put_ready.
  + apply only_names_put; [apply Hr|by apply plane_slot_ok| |done]. intros x y _. by exists n.
  + intros n' Hn'. apply log_holds_plane; [done|done|auto].
  + by apply plane_put_pub.
- exists fs. split; [|split; [done|split; [done|split; [done|]]]].
  + eapply does_bind; [apply does_exists|]. cbv beta.
    rewrite (plane_exists root fs Hr _ Hpl), Hp, bool_decide_eq_true_2 by eauto. apply does_ret.
  + intros p. case_decide; congruence.
Qed.

Lemma history_put a rec n :
  history (mkRefs (<[RefRecord.name rec := rec]> (cur a)) (puts a ++ [rec])) n =
    history a n ++ (if decide (RefRecord.name rec = n) then [rec] else []).
Proof. unfold history. simpl. rewrite filter_app, filter_cons. by case_decide. Qed.

Lemma ref_put_refines fs a rec :
  refs_abs root N fs a -> op_ok N (RPut rec) a ->
  exists fs', does (ref_put root rec) fs (Ok tt) fs' /\ refs_abs root N fs' (ref_spec (RPut rec) a).2.
Proof.
intros Ha (Hn & Hwf & Hb). set (n0 := RefRecord.name rec) in *. set (k0 := ref_key n0).
pose proof (abs_ready _ _ _ _ Ha) as Hr.
pose proof (lock_fs_ready root fs Hr) as Hr1.
destruct (does_put_name (lock_fs root fs) a n0) as (fs2 & Hd2 & Hr2 & Ho2 & Hl2 & Hp2); [done| | |done| |].
{ apply only_names_lock. exact (abs_only _ _ _ _ Ha). }
{ intros n Hin. by apply log_holds_lock, (abs_log _ _ _ _ Ha). }
{ rewrite (lock_fs_pub root fs _), (abs_name _ _ _ _ Ha) by done. destruct (cur a !! n0) as [r|] eqn:E; [right|by left].
  simpl. by destruct (abs_dom _ _ _ _ Ha n0 r E) as (_ & -> & _). }
pose proof (Hl2 n0 Hn) as Hlog. set (i := length (history a n0)) in *.
set (fs3 := put_file (refs_log_dir root k0 ++ [dec (Z.of_nat i)]) (RefRecord.encode rec) CREATE_MODE fs2).
set (fs4 := put_file (ref_path root k0) (RefRecord.encode rec) CREATE_MODE fs3).
assert (store_ready root fs3) as Hr3 by (by apply log_put_ready).
exists fs4. split.
- unfold ref_put. eapply does_bind; [by apply does_write_guard|]. cbv beta.
  eapply does_bind; [rewrite (names_valid _ HN) by done; apply does_ret|]. cbv beta. fold n0 k0.
  apply does_assoc. eapply does_bind; [exact Hd2|]. cbv beta.
  eapply does_bind; [apply (does_next_index _ _ _ Hlog), Hr2|]. cbv beta. rewrite length_fmap. fold i.
  eapply does_bind.
  { apply does_atomic_write; [apply Hr2|apply Hr2|by apply log_slot_ok|by rewrite parent_snoc]. }
  cbv beta. fold fs3. apply does_plane_write; [done|apply refs_plane].
- assert (pub_put (refs_log_dir root k0 ++ [dec (Z.of_nat i)]) (RefRecord.encode rec) fs2 fs3) as Hp3
    by (apply put_file_pub; [apply Hr2|by apply log_slot_ok|apply log_entry_tmp, Hr]).
  assert (pub_put (ref_path root k0) (RefRecord.encode rec) fs3 fs4) as Hp4
    by (apply plane_put_pub; [done|apply refs_plane]).
  pose proof (log_holds_append root fs2 Hr2 k0 _ (RefRecord.encode rec) CREATE_MODE Hlog) as Happ.
  rewrite length_fmap in Happ. fold i in Happ. fold fs3 in Happ.
  split; cbn [ref_spec snd cur puts].
  + apply plane_put_ready; [done|apply refs_plane].
  + intros n Hin. rewrite (Hp4 _). destruct (decide (n = n0)) as [->|Hne].
    { rewrite decide_True by done. by rewrite lookup_insert_eq. }
    rewrite lookup_insert_ne by done. rewrite decide_False.
    2:{ intros [_ E]%sharded_eq. apply Hne. by apply (names_keys _ HN). }
    rewrite (Hp3 _), decide_False by (intros E; by apply (log_entry_ne_sharded _ _ _ _ _ (eq_sym E))).
    rewrite (Hp2 _), decide_False by (by intros [? _]%sharded_eq).
    rewrite (lock_fs_pub root fs _). by apply Ha.
  + intros n Hin. rewrite (Hp4 _), decide_False by (by intros [? _]%sharded_eq).
    rewrite (Hp3 _), decide_False by (intros E; by apply (log_entry_ne_sharded _ _ _ _ _ (eq_sym E))).
    rewrite (Hp2 _). destruct (decide (n = n0)) as [->|Hne].
    { rewrite decide_True by done. by rewrite lookup_insert_eq. }
    rewrite lookup_insert_ne, decide_False by (done || intros [_ E]%sharded_eq; apply Hne; by apply (names_keys _ HN)).
    rewrite (lock_fs_pub root fs _). by apply Ha.
  + apply only_names_other; [done|apply refs_plane|done|]. by apply only_names_log.
  + intros n Hin. rewrite history_put. apply log_holds_plane; [done|apply refs_plane|]. fold n0.
    destruct (decide (n0 = n)) as [<-|Hne].
    * rewrite fmap_app. by apply Happ.
    * rewrite app_nil_r. apply log_holds_other; [done| |by apply Hl2].
      intros E. apply Hne. symmetry. by apply (names_keys _ HN).
  + intros n r. rewrite lookup_insert. case_decide as E; [|apply Ha]. intros [= <-]. by subst n.
  + apply Forall_app. split; [apply Ha|]. by constructor.
Qed.

(** Removing a plane file if it is there. *)
Lemma does_remove_plane fs plane d :
  store_ready root fs -> plane ∈ file_planes ->
  let p := sharded root plane d in
  does (e ← exists_ p; if (e : bool) then remove_file p else mret tt) fs (Ok tt) (delete p fs) /\
  store_ready root (delete p fs) /\ pub_del p fs (delete p fs) /\
  (only_names fs -> only_names (delete p fs)) /\
  (forall a, logs_hold fs a -> logs_hold (delete p fs) a).
Proof.
intros Hr Hpl p. pose proof (plane_path_tmp root fs Hr plane Hpl d) as Ht. fold p in Ht.
assert (forall q, q <> p -> delete p fs !! q = fs !! q) as Hne by (intros; by apply lookup_delete_ne).
split; [|split; [|split; [|split]]].
- eapply does_bind; [apply does_exists|]. cbv beta. unfold node_exists, p.
  destruct (plane_node root fs Hr plane Hpl d) as [E|(c & m & E)]; rewrite E.
  + rewrite delete_id by done. apply does_ret.
  + by eapply does_remove_file.
- destruct (plane_node root fs Hr plane Hpl d) as [E|(c & m & E)].
  + by rewrite delete_id.
  + by eapply ready_delete.
- intros q. unfold pub. rewrite file_at_delete. repeat case_match; congruence.
- intros Ho x y c. rewrite file_at_delete. case_decide; [done|]. apply Ho.
- intros a Hl n Hn. eapply log_holds_ext; [by apply Hl|intros c|].
  + apply Hne. apply log_entry_ne_sharded.
  + apply Hne. intros [E _]%sharded_eq. subst plane. by apply (bool_decide_eq_true_2 _) in Hpl.
Qed.

Lemma ref_remove_refines fs a n :
  refs_abs root N fs a -> n ∈ N ->
  exists fs', does (ref_remove root n) fs (Ok (bool_decide (is_Some (cur a !! n)))) fs' /\
    refs_abs root N fs' (ref_spec (RRemove n) a).2.
Proof.
intros Ha Hn. pose proof (abs_ready _ _ _ _ Ha) as Hr. set (fs1 := lock_fs root fs).
pose proof (lock_fs_ready root fs Hr) as Hr1. fold fs1 in Hr1.
destruct (does_remove_plane fs1 (str "refs") (ref_key n) Hr1 refs_plane) as (D2 & Hr2 & Hp2 & Ho2 & Hl2).
set (fs2 := delete (sharded root (str "refs") (ref_key n)) fs1) in *.
destruct (does_remove_plane fs2 (str "refs-names") (ref_key n) Hr2 names_plane) as (D3 & Hr3 & Hp3 & Ho3 & Hl3).
set (fs3 := delete (sharded root (str "refs-names") (ref_key n)) fs2) in *.
exists fs3. split.
- unfold ref_remove. eapply does_bind; [by apply does_write_guard|]. cbv beta. fold fs1.
  eapply does_bind; [rewrite (names_valid _ HN) by done; apply does_ret|]. cbv beta.
  eapply does_bind; [apply does_exists|]. cbv beta. unfold ref_path, refs_names_path.
  rewrite (plane_exists root fs1 Hr1 _ refs_plane), (lock_fs_pub root fs _).
  fold (ref_path root (ref_key n)). rewrite (abs_cur _ _ _ _ Ha) by done.
  apply does_assoc. eapply does_bind; [exact D2|]. cbv beta. apply does_assoc.
  eapply does_bind; [exact D3|]. cbv beta.
  rewrite (bool_decide_ext _ (is_Some (cur a !! n))) by apply fmap_is_Some. apply does_ret.
- split; cbn [ref_spec snd cur puts].
  + done.
  + intros n' Hn'. unfold ref_path. rewrite (Hp3 _), decide_False by (by intros [? _]%sharded_eq).
    rewrite (Hp2 _), lookup_delete. destruct (decide (n' = n)) as [->|Hne].
    { by rewrite !decide_True. }
    rewrite !decide_False; [|congruence|intros [_ E]%sharded_eq; apply Hne; by apply (names_keys _ HN)].
    rewrite (lock_fs_pub root fs _). by apply Ha.
  + intros n' Hn'. unfold refs_names_path. rewrite (Hp3 _), lookup_delete.
    destruct (decide (n' = n)) as [->|Hne]; [by rewrite !decide_True|].
    rewrite !decide_False; [|congruence|intros [_ E]%sharded_eq; apply Hne; by apply (names_keys _ HN)].
    rewrite (Hp2 _), decide_False by (by intros [? _]%sharded_eq).
    rewrite (lock_fs_pub root fs _). by apply Ha.
  + apply Ho3, Ho2, only_names_lock. exact (abs_only _ _ _ _ Ha).
  + apply (Hl3 a), (Hl2 a). intros n' Hn'. by apply log_holds_lock, (abs_log _ _ _ _ Ha).
  + intros n' r. rewrite lookup_delete. case_decide; [done|]. apply Ha.
  + apply Ha.
Qed.

Lemma str16_utf8 s : str16_wf s -> utf8_valid s = true.
Proof. unfold str16_wf. tauto. Qed.

Lemma names_slot x y d :
  root ++ [str "refs-names"; x; y] = refs_names_path root d <->
  x = (shard_parts (to_hex d)).1 /\ y = (shard_parts (to_hex d)).2.
Proof.
unfold refs_names_path. rewrite sharded_slot. split; [by intros [= -> ->]%app_inv_head|by intros [-> ->]].
Qed.

Lemma names_content fs a x y c :
  refs_abs root N fs a -> file_at fs (root ++ [str "refs-names"; x; y]) = Some c ->
  c ∈ N /\ is_Some (cur a !! c) /\ root ++ [str "refs-names"; x; y] = refs_names_path root (ref_key c).
Proof.
intros Ha Hc. destruct (abs_only _ _ _ _ Ha _ _ _ Hc) as (n & Hn & E).
rewrite E in Hc. pose proof (abs_name _ _ _ _ Ha n Hn) as Hp.
rewrite pub_file_at in Hp by (apply plane_path_tmp with (fs := fs); [apply Ha|apply names_plane]).
rewrite Hc in Hp. destruct (cur a !! n) as [r|] eqn:Er; [|done]. injection Hp as ->.
destruct (abs_dom _ _ _ _ Ha n r Er) as (_ & -> & _). rewrite E, Er. eauto.
Qed.

Lemma list_refs_refines fs a :
  refs_abs root N fs a ->
  does (list_refs root) fs (Ok (sort_by bytes_leb (map_to_list (cur a)).*1)) fs.
Proof.
intros Ha. pose proof (does_list_refs root fs) as H. set (base := root ++ [str "refs-names"]) in *.
assert (names_below fs base ≡ₚ (map_to_list (cur a)).*1) as Hperm.
{ apply NoDup_Permutation.
  - apply names_below_NoDup. intros x y x' y' n H1 H2. unfold base in *. rewrite <- app_assoc in *. simpl in *.
    apply (names_content fs a) in H1 as (_ & _ & [-> ->]%names_slot), H2 as (_ & _ & [-> ->]%names_slot); done.
  - apply NoDup_fst_map_to_list.
  - intros n. rewrite elem_of_names_below by apply Ha. rewrite list_elem_of_fmap. split.
    + intros (x & y & Hf & _). unfold base in Hf. rewrite <- app_assoc in Hf.
      apply (names_content fs a) in Hf as (_ & [r Hr] & _); [|done]. exists (n, r).
      by rewrite elem_of_map_to_list.
    + intros ([n' r] & -> & Hr%elem_of_map_to_list). simpl.
      destruct (abs_dom _ _ _ _ Ha n' r Hr) as (Hn & Hname & Hwf).
      exists (shard_parts (to_hex (ref_key n'))).1, (shard_parts (to_hex (ref_key n'))).2.
      split; [|rewrite <- Hname; apply str16_utf8, Hwf].
      pose proof (abs_name _ _ _ _ Ha n' Hn) as Hp. rewrite Hr in Hp.
      rewrite pub_file_at in Hp by (apply plane_path_tmp with (fs := fs); [apply Ha|apply names_plane]).
      unfold base. rewrite <- app_assoc. cbn [app].
      rewrite (proj2 (names_slot _ _ (ref_key n')) (conj eq_refl eq_refl)), Hp. simpl. by rewrite Hname. }
rewrite (sort_bytes_unique _ _ Hperm) in H. destruct (is_dir fs base) eqn:E; [done|].
assert (cur a = ∅) as Hnil.
{ destruct (decide (cur a = ∅)) as [|(n & r & Hr)%map_choose]; [done|]. exfalso.
  assert (n ∈ names_below fs base) as Hin.
  { rewrite Hperm, list_elem_of_fmap. exists (n, r). by rewrite elem_of_map_to_list. }
  unfold names_below in Hin. apply list_elem_of_bind in Hin as (x & _ & [nd Hnd]%elem_of_children).
  apply (ready_wf _ _ (abs_ready _ _ _ _ Ha)) in Hnd. by rewrite (proj2 (is_dir_true _ _) Hnd) in E. }
by rewrite Hnil, map_to_list_empty.
Qed.

Lemma ref_op_refines fs a op :
  refs_abs root N fs a -> op_ok N op a ->
  exists fs', does (ref_impl root op) fs (Ok (ref_spec op a).1) fs' /\ refs_abs root N fs' (ref_spec op a).2.
Proof.
intros Ha Hop. destruct op as [rec|n|n|n|]; cbn [ref_impl ref_spec fst snd].
- destruct (ref_put_refines fs a rec Ha Hop) as (fs' & Hd & Ha'). exists fs'. split; [|done].
  eapply does_bind; [exact Hd|apply does_ret].
- exists fs. split; [|done]. eapply does_bind; [|apply does_ret].
  apply does_ref_get; [apply Ha|by apply HN|by apply Ha|by eapply abs_record_wf].
- exists fs. split; [|done]. eapply does_bind; [|apply does_ret].
  apply does_ref_log; [apply Ha|by apply HN|by apply (abs_log _ _ _ _ Ha)|by eapply history_wf].
- destruct (ref_remove_refines fs a n Ha Hop) as (fs' & Hd & Ha'). exists fs'. split; [|done].
  eapply does_bind; [exact Hd|apply does_ret].
- exists fs. split; [|done]. eapply does_bind; [by apply list_refs_refines|apply does_ret].
Qed.

End refinement.

(** A sequence of operations, by the code and by the specification. *)
Fixpoint ref_impls `{Blake3} (root : path) (ops : list ref_op) : IO (list ref_result) :=
  match ops with
  | [] => mret []
  | op :: ops => r ← ref_impl root op; rs ← ref_impls root ops; mret (r :: rs)
  end.

Fixpoint ref_specs (ops : list ref_op) (a : refs_state) : list ref_result * refs_state :=
  match ops with
  | [] => ([], a)
  | op :: ops =>
      let '(r, a) := ref_spec op a in
      let '(rs, a) := ref_specs ops a in (r :: rs, a)
  end.

Fixpoint ops_ok (N : list bytes) (ops : list ref_op) (a : refs_state) : Prop :=
  match ops with
  | [] => True
  | op :: ops => op_ok N op a /\ ops_ok N ops (ref_spec op a).2
  end.

Section refs_theorem.
Context `{B3 : Blake3}.


End refs_theorem.

(** * A fresh store *)

Lemma fresh_store_ready root fs :
  fs_wf fs -> tmp_free fs -> fs !! root = Some NDir -> tmp_path root = false ->
  (forall q n, fs !! (root ++ q) = Some n -> q = []) -> store_ready root fs.
Proof.
intros Hwf Ht Hr Hp Hq. split; try done. intros q k n Hk E. assert (q = []) as -> by (by eapply Hq).
rewrite app_nil_r in E. rewrite Hr in E. simpl in Hk. by simplify_eq.
Qed.

Lemma fresh_refs_abs `{Blake3} root N fs :
  store_ready root fs -> (forall q n, fs !! (root ++ q) = Some n -> q = []) ->
  refs_abs root N fs (mkRefs ∅ []).
Proof.
intros Hr Hq. assert (forall q, q <> [] -> fs !! (root ++ q) = None) as Hnone.
{ intros q Hne. destruct (fs !! (root ++ q)) as [n|] eqn:E; [|done]. by apply Hq in E. }
assert (forall q, q <> [] -> pub fs (root ++ q) = None) as Hpub.
{ intros q Hne. unfold pub, file_at. rewrite (Hnone q Hne). by case_match. }
split; simpl; try done.
- intros n _. unfold ref_path. rewrite sharded_slot. by apply Hpub.
- intros n _. unfold refs_names_path. rewrite sharded_slot. by apply Hpub.
- intros x y c. unfold file_at. by rewrite Hnone.
- intros n _. split; simpl; [|done| |unfold u64; simpl; lia].
  + intros c nd. rewrite log_entry_slot, Hnone by done. done.
  + left. unfold refs_log_dir. rewrite sharded_slot. by apply Hnone.
Qed.

Lemma demo_fs_lookup p n : demo_fs !! p = Some n -> (p = [] \/ p = demo_root) /\ n = NDir.
Proof.
unfold demo_fs. rewrite lookup_insert_Some, lookup_singleton_Some. naive_solver.
Qed.

Lemma demo_fs_ready : store_ready demo_root demo_fs.
Proof.
apply fresh_store_ready.
- split; [reflexivity|]. intros p c n [[H|H] _]%demo_fs_lookup.
  + by apply app_nil in H as [_ ?].
  + destruct p as [|a p]; [reflexivity|]. apply (f_equal length) in H. rewrite length_app in H. simpl in H. lia.
- intros p n [[->| ->] _]%demo_fs_lookup; vm_compute; reflexivity.
- reflexivity.
- vm_compute. reflexivity.
- intros q n [[H|H] _]%demo_fs_lookup; [done|]. by apply (app_inv_head demo_root q []) in H.
Qed.

Definition demo_names : list bytes := [str "main"; str "dev"].

Lemma demo_names_ok : names_ok demo_names.
Proof.
split.
- intros n Hn. unfold demo_names in Hn. rewrite !elem_of_cons in Hn.
  destruct Hn as [->|[->|[]%not_elem_of_nil]]; vm_compute; reflexivity.
- intros n n' Hn Hn' E. unfold demo_names in Hn, Hn'. rewrite !elem_of_cons in Hn, Hn'.
  destruct Hn as [->|[->|[]%not_elem_of_nil]], Hn' as [->|[->|[]%not_elem_of_nil]]; try done;
    vm_compute in E; discriminate E.
Qed.

Definition demo_rec (n : bytes) (d : byte) : RefRecord :=
  mkRefRecord n (replicate 32 d) None 1700000000 (str "0.1.0").

Definition demo_ops : list ref_op :=
  [RPut (demo_rec (str "main") x01); RPut (demo_rec (str "dev") x02); RPut (demo_rec (str "main") x03);
   RGet (str "main"); RLog (str "main"); RRemove (str "main"); RGet (str "main"); RLog (str "main"); RList].


(** The second put of a name is killed while it writes the pointer's payload: the
    log has the record, the pointer has not. *)
Definition demo_put1 : World := (ref_put demo_root (demo_rec (str "main") x01) (restart demo_fs)).2.
Definition demo_put2 : World := mkWorld (w_fs demo_put1) (replicate 17 FOk ++ [FCrash 9]) 9 0.

Lemma ref_put_old_or_new_witness :
  (ref_put demo_root (demo_rec (str "main") x03) demo_put2).1 = Crashed /\
  pub (w_fs (ref_put demo_root (demo_rec (str "main") x03) demo_put2).2)
    (refs_log_dir demo_root (ref_key (str "main")) ++ [dec 1]) = Some (RefRecord.encode (demo_rec (str "main") x03)) /\
  pub_except (ref_files demo_root (str "main")) (w_fs demo_put2)
    (w_fs (ref_put demo_root (demo_rec (str "main") x03) demo_put2).2).
Proof.
split; [vm_compute; reflexivity|]. split; [vm_compute; reflexivity|].
apply (ref_put_old_or_new demo_root (demo_rec (str "main") x03) demo_put2). vm_compute. reflexivity.
Defined.

(** A failure to list the history is not an error.  When [read_dir] of the log
    directory fails, [ref_put] numbers the new entry 0: it returns [Ok], the
    pointer is right, and the oldest entry of the append-only history has been
    replaced by the new record. *)
Theorem ref_put_list_failure_overwrites :
  let rec1 := demo_rec (str "main") x01 in
  let rec2 := demo_rec (str "main") x03 in
  let w2 := (ref_put demo_root rec2 (mkWorld (w_fs demo_put1) [FOk; FOk; FErr 0] 9 0)) in
  (ref_log demo_root (str "main") demo_put1).1 = Ret [rec1] /\
  w2.1 = Ret tt /\
  (ref_log demo_root (str "main") w2.2).1 = Ret [rec2].
Proof.
cbv zeta. split; [vm_compute; reflexivity|]. split; vm_compute; reflexivity.
Qed.
