(* ===== verification/Ac.v ===== *)
(** The action-cache plane (crates/lightr-store/src/store/ac.rs): values keyed by a
    digest, written atomically, enumerated for the collector. *)

From S2P Require Import Prelude Error Digest Fs FsFacts OwnedTemp Calm Cas Layout Refs.

Definition ac_path (root : path) (key : digest) : path := sharded root (str "ac") key.

Definition ac_get (root : path) (key : digest) : IO (option bytes) :=
  let p := ac_path root key in
  e ← exists_ p;
  if (e : bool) then bs ← read p; mret (Some bs) else mret None.

Definition ac_put (root : path) (key : digest) (value : bytes) : IO unit :=
  _ ← write_guard root;
  atomic_write (shard_dir root (str "ac") key) (ac_path root key) value.

(** [name.to_str().map(|s| s.starts_with(".tmp-")).unwrap_or(false)]. *)
Definition staging_name (c : bytes) : bool := utf8_valid c && is_tmp_name c.

(** One file of a shard: staging names, non-files and unreadable files are
    skipped. *)
Definition read_value (p : path) : IO (option bytes) :=
  if staging_name (file_name p) then mret None else
  fs ← get_fs;
  if is_file fs p then
    r ← try_ (read p);
    match r with Ok bs => mret (Some bs) | Err _ => mret None end
  else mret None.

Definition list_ac (root : path) : IO (list bytes) :=
  let ac_root := root ++ [str "ac"] in
  e ← exists_ ac_root;
  if (e : bool) then
    r ← try_ (read_dir ac_root);
    match r with
    | Err _ => mret []
    | Ok shards =>
        values ← map_io (fun c =>
          files ← shard_files (ac_root ++ [c]);
          map_io read_value files) shards;
        mret (omap id (mjoin values))
    end
  else mret [].

(** * Frames *)

Lemma ac_plane : str "ac" ∈ file_planes.
Proof. apply (bool_decide_eq_true_1 _). vm_compute. reflexivity. Qed.

Lemma ac_get_pub root key : keeps (on_fs pub_eq) (ac_get root key).
Proof. unfold ac_get. solve_keeps. Qed.

Lemma list_ac_pub root : keeps (on_fs pub_eq) (list_ac root).
Proof. unfold list_ac, shard_files, read_value. solve_keeps. Qed.

Lemma ac_put_commits root key v P :
  tmp_path root = false -> commits P (pub_put (ac_path root key) v) (ac_put root key v).
Proof.
intros Hr. eapply (commits_before (pub_put (ac_path root key) v) P _ (fun _ _ => True)); [solve_keeps|done|].
intros []. apply atomic_write_commits. by apply sharded_tmp.
Qed.

(** * Values of a directory of shards *)

Definition value_at (fs : gmap path node) (p : path) : option bytes :=
  if staging_name (file_name p) then None else file_at fs p.

Lemma does_read_value p fs : does (read_value p) fs (Ok (value_at fs p)) fs.
Proof.
unfold read_value, value_at. case_match; [apply does_ret|].
eapply does_bind; [apply does_get_fs|]. cbv beta. rewrite is_file_file_at.
destruct (file_at fs p) as [c|] eqn:E.
- rewrite bool_decide_eq_true_2 by eauto. eapply does_bind; [by apply does_try, does_read|]. apply does_ret.
- rewrite bool_decide_eq_false_2 by (by intros []). apply does_ret.
Qed.

Definition values_below (fs : gmap path node) (base : path) : list bytes :=
  children fs base ≫= fun c => omap (value_at fs) (shard_paths fs (base ++ [c])).

Lemma does_list_ac root fs :
  does (list_ac root) fs
    (Ok (if is_dir fs (root ++ [str "ac"]) then values_below fs (root ++ [str "ac"]) else [])) fs.
Proof.
unfold list_ac. eapply does_bind; [apply does_exists|]. cbv beta.
set (base := root ++ [str "ac"]). unfold node_exists, is_dir.
destruct (fs !! base) as [[c m| |t]|] eqn:E; rewrite ?(bool_decide_eq_false_2 (Some _ = Some NDir)) by done.
- eapply does_bind; [eapply does_try, does_sys0; by rewrite E|]. apply does_ret.
- rewrite bool_decide_eq_true_2 by done. eapply does_bind; [by apply does_try, does_read_dir|].
  cbv beta iota. eapply does_bind.
  + apply (does_map_io _ (fun c => value_at fs <$> shard_paths fs (base ++ [c]))). intros c _.
    eapply does_bind; [apply does_shard_files|]. cbv beta. apply does_map_io. intros p _. apply does_read_value.
  + cbv beta. rewrite omap_id_mjoin. unfold values_below.
    erewrite list_bind_ext; [apply does_ret|intros c; apply omap_id_fmap|done].
- apply does_ret.
- rewrite bool_decide_eq_false_2 by done. apply does_ret.
Qed.

Lemma elem_of_values_below fs base v :
  fs_wf fs ->
  v ∈ values_below fs base <->
  exists x y, file_at fs (base ++ [x; y]) = Some v /\ staging_name y = false.
Proof.
intros Hwf. unfold values_below. rewrite list_elem_of_bind.
assert (forall x y, value_at fs ((base ++ [x]) ++ [y]) =
  if staging_name y then None else file_at fs (base ++ [x; y])) as Hv.
{ intros x y. unfold value_at, file_name. rewrite last_snoc. simpl. by rewrite <- app_assoc. }
split.
- intros (x & Hn & _). apply list_elem_of_omap in Hn as (p & Hp & Hn). unfold shard_paths in Hp.
  case_match; [|set_solver]. apply list_elem_of_fmap in Hp as (y & -> & _). exists x, y.
  rewrite Hv in Hn. by case_match.
- intros (x & y & Hf & Hy). assert (exists nd, fs !! ((base ++ [x]) ++ [y]) = Some nd) as [nd Hnd].
  { rewrite <- app_assoc. unfold file_at in Hf. simpl. destruct (fs !! _); [eauto|done]. }
  pose proof (proj2 Hwf _ _ _ Hnd) as Hx. exists x. split; [|apply elem_of_children; eauto].
  apply list_elem_of_omap. exists ((base ++ [x]) ++ [y]). split.
  + unfold shard_paths. rewrite (proj2 (is_dir_true fs _) Hx). apply list_elem_of_fmap. exists y.
    split; [done|]. apply elem_of_children. eauto.
  + by rewrite Hv, Hy.
Qed.

(** * The cache on a ready store *)

Lemma does_ac_get root fs key :
  store_ready root fs -> does (ac_get root key) fs (Ok (pub fs (ac_path root key))) fs.
Proof.
intros Hr. unfold ac_get, ac_path. eapply does_bind; [apply does_exists|]. cbv beta.
rewrite (plane_exists root fs Hr _ ac_plane).
pose proof (plane_path_tmp root fs Hr _ ac_plane key) as Ht. rewrite !pub_file_at by done.
destruct (file_at fs (sharded root (str "ac") key)) as [c|] eqn:E.
- rewrite bool_decide_eq_true_2 by eauto. eapply does_bind; [by apply does_read|]. apply does_ret.
- rewrite bool_decide_eq_false_2 by (by intros []). apply does_ret.
Qed.

(** The tree after [ac_put]. *)
Definition ac_put_fs (root : path) (key : digest) (v : bytes) (fs : gmap path node) : gmap path node :=
  put_file (ac_path root key) v CREATE_MODE (lock_fs root fs).

Lemma does_ac_put root fs key v :
  store_ready root fs ->
  does (ac_put root key v) fs (Ok tt) (ac_put_fs root key v fs) /\
  store_ready root (ac_put_fs root key v fs) /\
  pub_put (ac_path root key) v fs (ac_put_fs root key v fs).
Proof.
intros Hr. pose proof (lock_fs_ready root fs Hr) as Hr1. split; [|split].
- eapply does_bind; [by apply does_write_guard|]. by apply does_plane_write, ac_plane.
- by apply plane_put_ready, ac_plane.
- intros p. rewrite <- (lock_fs_pub root fs p). by apply plane_put_pub, ac_plane.
Qed.

(** The action cache is a map.  On a ready store and without I/O faults
    [ac_put] succeeds; then [ac_get] of that key gives the value, [ac_get] of any
    other key gives what it gave before, and the enumeration the collector uses
    contains the value of every key. *)
Theorem ac_map root fs key v :
  store_ready root fs ->
  exists fs', does (ac_put root key v) fs (Ok tt) fs' /\ store_ready root fs' /\
    does (ac_get root key) fs' (Ok (Some v)) fs' /\
    (forall key', key' <> key -> exists o,
      does (ac_get root key') fs (Ok o) fs /\ does (ac_get root key') fs' (Ok o) fs') /\
    (exists values, does (list_ac root) fs' (Ok values) fs' /\ v ∈ values /\
      forall key' v', pub fs' (ac_path root key') = Some v' -> v' ∈ values).
Proof.
intros Hr. destruct (does_ac_put root fs key v Hr) as (D & Hr' & Hp). eexists.
split; [exact D|]. set (fs' := ac_put_fs root key v fs) in *.
assert (pub fs' (ac_path root key) = Some v) as Hv by (rewrite Hp; by rewrite decide_True).
split; [done|]. split; [rewrite <- Hv; by apply does_ac_get|]. split.
- intros key' Hne. exists (pub fs (ac_path root key')). split; [by apply does_ac_get|].
  assert (pub fs (ac_path root key') = pub fs' (ac_path root key')) as ->; [|by apply does_ac_get].
  rewrite Hp, decide_False; [done|]. by intros [_ ?]%sharded_eq.
- assert (forall key' v', pub fs' (ac_path root key') = Some v' ->
    v' ∈ (if is_dir fs' (root ++ [str "ac"]) then values_below fs' (root ++ [str "ac"]) else [])) as Hall.
  { intros key' v' Hk. rewrite pub_file_at in Hk by (apply (plane_path_tmp root fs' Hr'), ac_plane).
    unfold ac_path in Hk. rewrite sharded_slot in Hk.
    assert (is_dir fs' (root ++ [str "ac"]) = true) as ->.
    { apply is_dir_true. destruct (fs' !! (root ++ [str "ac"; (shard_parts (to_hex key')).1] ++ [(shard_parts (to_hex key')).2]))
        as [n|] eqn:E; [|unfold file_at in Hk; by rewrite E in Hk].
      rewrite app_assoc in E. apply Hr' in E.
      change [str "ac"; (shard_parts (to_hex key')).1] with ([str "ac"] ++ [(shard_parts (to_hex key')).1]) in E.
      rewrite app_assoc in E. by apply Hr' in E. }
    apply elem_of_values_below; [apply Hr'|]. eexists _, _. rewrite <- app_assoc. split; [exact Hk|].
    assert (private_name (shard_parts (to_hex key')).2 = false) as Hpn.
    { apply hex_not_private, Forall_drop, to_hex_chars. }
    unfold private_name in Hpn. apply orb_false_iff in Hpn as [Hpn _]. unfold staging_name. by rewrite Hpn, andb_false_r. }
  eexists. split; [apply does_list_ac|]. split; [by apply (Hall key)|exact Hall].
Qed.

Lemma ac_map_witness :
  exists fs', does (ac_put demo_root (of_bytes demo_blob) (str "v")) demo_fs (Ok tt) fs' /\
    does (ac_get demo_root (of_bytes demo_blob)) fs' (Ok (Some (str "v"))) fs'.
Proof.
destruct (ac_map demo_root demo_fs (of_bytes demo_blob) (str "v") demo_fs_ready) as (fs' & D & _ & G & _).
by exists fs'.
Defined.
