(* ===== verification/ImgMeta.v ===== *)
(** Image sidecars (crates/lightr-store/src/store/imgmeta.rs, imgmeta_codec.rs) and
    the store's usage report (usage.rs): the binary image-manifest record, the
    32-byte pointer files keyed by ref name, their copy and removal, and the
    enumeration of the blobs they keep alive. *)

From S2P Require Import Prelude Error Cursor Digest RefRecord Fs FsFacts OwnedTemp Calm Cas Layout Refs Ac.

(** * The record and its codec *)

Record ImageDescriptor := mkImageDescriptor {
  media_type : bytes;
  desc_digest : digest;
  desc_size : Z;
}.

Record ImageManifestRecord := mkImageManifestRecord {
  manifest_bytes : bytes;
  descriptors : list ImageDescriptor;
  platform : bytes;
}.

Definition IMG_MANIFEST_CODEC_VERSION : Z := 1.

Definition encode_descriptor (d : ImageDescriptor) : bytes :=
  le_bytes 4 (Z.of_nat (length (media_type d))) ++ media_type d ++ desc_digest d ++ le_bytes 8 (desc_size d).

Definition encode_manifest_record (rec : ImageManifestRecord) : bytes :=
  le_bytes 4 IMG_MANIFEST_CODEC_VERSION ++
  le_bytes 8 (Z.of_nat (length (manifest_bytes rec))) ++ manifest_bytes rec ++
  le_bytes 4 (Z.of_nat (length (platform rec))) ++ platform rec ++
  le_bytes 4 (Z.of_nat (length (descriptors rec))) ++ mjoin (encode_descriptor <$> descriptors rec).

Definition img_truncated : LightrError := InvalidManifest (str "image manifest record truncated").
Definition img_non_utf8 : LightrError := InvalidManifest (str "non-UTF8 in image manifest record").

(** The [Reader] methods: [take], [u32], [u64], [digest], [string]. *)
Definition img_take (n : nat) : Reader bytes := need img_truncated n.
Definition img_u32 : Reader Z := b ← img_take 4; mret (le_val b).
Definition img_u64 : Reader Z := b ← img_take 8; mret (le_val b).
Definition img_string (n : nat) : Reader bytes := b ← img_take n; utf8_string img_non_utf8 b.

Definition decode_descriptor : Reader ImageDescriptor :=
  mtlen ← img_u32;
  mt ← img_string (Z.to_nat mtlen);
  d ← img_take 32;
  size ← img_u64;
  mret (mkImageDescriptor mt d size).

Definition decode_manifest_reader : Reader ImageManifestRecord :=
  v ← img_u32;
  if bool_decide (v = IMG_MANIFEST_CODEC_VERSION) then
    mlen ← img_u64;
    manifest ← img_take (Z.to_nat mlen);
    plen ← img_u32;
    plat ← img_string (Z.to_nat plen);
    n ← img_u32;
    descs ← repeat_read (Z.to_nat n) decode_descriptor;
    mret (mkImageManifestRecord manifest descs plat)
  else fail (InvalidManifest (str "unknown image manifest record version: " ++ dec v)).

(** [decode_manifest_record]: bytes after the last descriptor are not looked at. *)
Definition decode_manifest_record (bs : bytes) : Result ImageManifestRecord :=
  '(rec, _) ← decode_manifest_reader bs;
  Ok rec.

(** * Sidecar files *)

Definition sidecar_path (root : path) (dir : bytes) (key : digest) : path := sharded root dir key.
Definition IMGMETA : bytes := str "imgmeta".
Definition IMGMANIFEST : bytes := str "imgmanifest".
Definition imgmeta_path (root : path) (key : digest) : path := sharded root IMGMETA key.
Definition imgmanifest_path (root : path) (key : digest) : path := sharded root IMGMANIFEST key.

Section sidecars.
Context `{B3 : Blake3}.

Definition image_config_put (root : path) (name config : bytes) : IO unit :=
  _ ← lift (validate_ref_name name);
  d ← put_bytes root config;
  let key := ref_key name in
  atomic_write (shard_dir root IMGMETA key) (imgmeta_path root key) d.

Definition image_config_get (root : path) (name : bytes) : IO (option bytes) :=
  _ ← lift (validate_ref_name name);
  let p := imgmeta_path root (ref_key name) in
  e ← exists_ p;
  if (e : bool) then
    dbytes ← read p;
    if bool_decide (length dbytes = 32) then config ← get_bytes root dbytes; mret (Some config)
    else mret None
  else mret None.

Definition copy_one_sidecar (root : path) (dir src dst : bytes) : IO unit :=
  let src_path := sidecar_path root dir (ref_key src) in
  e ← exists_ src_path;
  if (e : bool) then
    pointer ← read src_path;
    if bool_decide (length pointer = 32) then
      let dst_key := ref_key dst in
      atomic_write (shard_dir root dir dst_key) (sidecar_path root dir dst_key) pointer
    else mret tt
  else mret tt.

Definition copy_image_sidecars (root : path) (src dst : bytes) : IO unit :=
  _ ← lift (validate_ref_name src);
  _ ← lift (validate_ref_name dst);
  _ ← copy_one_sidecar root IMGMETA src dst;
  copy_one_sidecar root IMGMANIFEST src dst.

Definition remove_one_sidecar (root : path) (dir name : bytes) : IO unit :=
  let p := sidecar_path root dir (ref_key name) in
  e ← exists_ p;
  if (e : bool) then remove_file p else mret tt.

Definition remove_image_sidecars (root : path) (name : bytes) : IO unit :=
  _ ← lift (validate_ref_name name);
  _ ← remove_one_sidecar root IMGMETA name;
  remove_one_sidecar root IMGMANIFEST name.

Definition image_manifest_put (root : path) (name : bytes) (rec : ImageManifestRecord) : IO unit :=
  _ ← lift (validate_ref_name name);
  d ← put_bytes root (encode_manifest_record rec);
  let key := ref_key name in
  atomic_write (shard_dir root IMGMANIFEST key) (imgmanifest_path root key) d.

Definition image_manifest_get (root : path) (name : bytes) : IO (option ImageManifestRecord) :=
  _ ← lift (validate_ref_name name);
  let p := imgmanifest_path root (ref_key name) in
  e ← exists_ p;
  if (e : bool) then
    dbytes ← read p;
    if bool_decide (length dbytes = 32) then
      encoded ← get_bytes root dbytes;
      rec ← lift (decode_manifest_record encoded);
      mret (Some rec)
    else mret None
  else mret None.

(** The body of the two loops of [for_each_sidecar_pointer]: the outputs of [f] on
    the pointers, concatenated. *)
Definition sidecar_pointer (f : digest -> IO (list digest)) (p : path) : IO (list digest) :=
  v ← read_value p;
  match v with
  | Some dbytes => if bool_decide (length dbytes = 32) then f dbytes else mret []
  | None => mret []
  end.

Definition for_each_sidecar_pointer (root : path) (dir : bytes) (f : digest -> IO (list digest)) :
    IO (list digest) :=
  let base := root ++ [dir] in
  r ← try_ (read_dir base);
  match r with
  | Err _ => mret []
  | Ok shards =>
      outs ← map_io (fun c =>
        files ← shard_files (base ++ [c]);
        os ← map_io (sidecar_pointer f) files;
        mret (mjoin os)) shards;
      mret (mjoin outs)
  end.

Definition list_image_reachable_blobs (root : path) : IO (list digest) :=
  a ← for_each_sidecar_pointer root IMGMANIFEST (fun record_digest =>
        r ← try_ (get_bytes root record_digest);
        match r with
        | Ok encoded =>
            match decode_manifest_record encoded with
            | Ok rec => mret (record_digest :: (desc_digest <$> descriptors rec))
            | Err _ => mret [record_digest]
            end
        | Err _ => mret [record_digest]
        end);
  b ← for_each_sidecar_pointer root IMGMETA (fun config_digest => mret [config_digest]);
  mret (a ++ b).

End sidecars.

(** * Usage *)

Record StoreUsage := mkStoreUsage { u_objects : Z; u_bytes : Z }.

Definition node_len (fs : gmap path node) (p : path) : Z :=
  match file_at fs p with Some c => Z.of_nat (length c) | None => 0%Z end.

(** [store_usage]: the object files of the two-character shards. *)
Definition usage_shard (objects_root : path) (c : bytes) : IO (list Z) :=
  fs ← get_fs;
  if is_dir fs (objects_root ++ [c]) && bool_decide (length c = 2) && utf8_valid c then
    r ← try_ (read_dir (objects_root ++ [c]));
    match r with
    | Err _ => mret []
    | Ok names =>
        mret (omap (fun n =>
          if is_file fs (objects_root ++ [c; n]) && bool_decide (length n = 62) && utf8_valid n
          then Some (node_len fs (objects_root ++ [c; n])) else None) names)
    end
  else mret [].

Definition store_usage (root : path) : IO StoreUsage :=
  let objects_root := root ++ [str "objects"] in
  e ← exists_ objects_root;
  if (e : bool) then
    shards ← read_dir objects_root;
    sizes ← map_io (usage_shard objects_root) shards;
    mret (mkStoreUsage (Z.of_nat (length (mjoin sizes))) (foldr Z.add 0%Z (mjoin sizes)))
  else mret (mkStoreUsage 0 0).

(** * The codec *)

Definition str32_wf (s : bytes) : Prop := utf8_valid s = true /\ (Z.of_nat (length s) < 2 ^ 32)%Z.

Definition descriptor_wf (d : ImageDescriptor) : Prop :=
  str32_wf (media_type d) /\ digest_wf (desc_digest d) /\ u64 (desc_size d).

Definition image_record_wf (r : ImageManifestRecord) : Prop :=
  u64 (Z.of_nat (length (manifest_bytes r))) /\ str32_wf (platform r) /\
  u32 (Z.of_nat (length (descriptors r))) /\ Forall descriptor_wf (descriptors r).

#[export] Instance str32_wf_dec s : Decision (str32_wf s) := ltac:(unfold str32_wf; apply _).
#[export] Instance descriptor_wf_dec d : Decision (descriptor_wf d) := ltac:(unfold descriptor_wf; apply _).
#[export] Instance image_record_wf_dec r : Decision (image_record_wf r) := ltac:(unfold image_record_wf; apply _).

Lemma reads_img_u32 z : u32 z -> reads img_u32 (le_bytes 4 z) z.
Proof.
intros Hz. unfold img_u32, img_take. eapply reads_bind_nil; [apply reads_need, length_le_bytes|].
rewrite le_val_u32 by done. apply reads_ret.
Qed.

Lemma reads_img_u64 z : u64 z -> reads img_u64 (le_bytes 8 z) z.
Proof.
intros Hz. unfold img_u64, img_take. eapply reads_bind_nil; [apply reads_need, length_le_bytes|].
rewrite le_val_u64 by done. apply reads_ret.
Qed.

Lemma reads_img_string s : utf8_valid s = true -> reads (img_string (Z.to_nat (Z.of_nat (length s)))) s s.
Proof.
intros Hs. unfold img_string, img_take. eapply reads_bind_nil; [apply reads_need; lia|]. by apply reads_utf8.
Qed.

Lemma reads_descriptor d : descriptor_wf d -> reads decode_descriptor (encode_descriptor d) d.
Proof.
intros ([Hu Hl] & Hd & Hs). unfold decode_descriptor, encode_descriptor.
eapply reads_bind; [apply reads_img_u32; unfold u32; lia|].
eapply reads_bind; [by apply reads_img_string|].
eapply reads_bind; [by apply reads_need|].
eapply reads_bind_nil; [by apply reads_img_u64|]. destruct d. apply reads_ret.
Qed.

Lemma reads_image_record r : image_record_wf r -> reads decode_manifest_reader (encode_manifest_record r) r.
Proof.
intros (Hm & [Hpu Hpl] & Hn & Hd). unfold decode_manifest_reader, encode_manifest_record.
eapply reads_bind; [by apply reads_img_u32; vm_compute|].
rewrite bool_decide_eq_true_2 by done.
eapply reads_bind; [by apply reads_img_u64|].
eapply reads_bind; [apply reads_need; lia|].
eapply reads_bind; [apply reads_img_u32; unfold u32; lia|].
eapply reads_bind; [by apply reads_img_string|].
eapply reads_bind; [by apply reads_img_u32|]. rewrite Nat2Z.id.
eapply reads_bind_nil; [by apply (reads_repeat _ encode_descriptor descriptor_wf), Hd; apply reads_descriptor|].
destruct r. apply reads_ret.
Qed.

Lemma decode_manifest_encode r ext :
  image_record_wf r -> decode_manifest_record (encode_manifest_record r ++ ext) = Ok r.
Proof. intros H. unfold decode_manifest_record. by rewrite (reads_image_record r H ext). Qed.

(** An image-manifest record survives its encoding, and the decoder stops at
    the end of the record: whatever follows is ignored. *)
Theorem image_record_roundtrip (r : ImageManifestRecord) (ext : bytes) :
  image_record_wf r -> decode_manifest_record (encode_manifest_record r ++ ext) = Ok r.
Proof. apply decode_manifest_encode. Qed.

Definition demo_image : ImageManifestRecord :=
  mkImageManifestRecord (str "{}")
    [mkImageDescriptor (str "application/vnd.oci.image.config.v1+json") (replicate 32 x07) 12]
    (str "linux/amd64").

Lemma image_record_roundtrip_witness :
  decode_manifest_record (encode_manifest_record demo_image ++ str "junk") = Ok demo_image.
Proof.
apply (image_record_roundtrip demo_image (str "junk")).
apply (bool_decide_eq_true_1 _). vm_compute. reflexivity.
Defined.

(** * Sidecars on a ready store *)

Lemma imgmeta_plane : IMGMETA ∈ file_planes.
Proof. apply (bool_decide_eq_true_1 _). vm_compute. reflexivity. Qed.
Lemma imgmanifest_plane : IMGMANIFEST ∈ file_planes.
Proof. apply (bool_decide_eq_true_1 _). vm_compute. reflexivity. Qed.

Section ready_sidecars.
Context `{B3 : Blake3} `{BL : !Blake3Laws B3} (root : path).

(** A blob and a pointer to it, the shape of both [put] functions. *)
Definition pointer_fs (dir name blob : bytes) (fs : gmap path node) : gmap path node :=
  put_file (sharded root dir (ref_key name)) (of_bytes blob) CREATE_MODE (put_bytes_fs root blob fs).

Lemma does_pointer_put fs dir name blob :
  store_ready root fs -> dir ∈ file_planes -> dir <> str "objects" ->
  does (d ← put_bytes root blob;
        atomic_write (shard_dir root dir (ref_key name)) (sharded root dir (ref_key name)) d)
    fs (Ok tt) (pointer_fs dir name blob fs) /\
  store_ready root (pointer_fs dir name blob fs) /\
  pub (pointer_fs dir name blob fs) (sharded root dir (ref_key name)) = Some (of_bytes blob) /\
  (cas_ok root fs -> exists c, of_bytes c = of_bytes blob /\
    pub (pointer_fs dir name blob fs) (object_path root (of_bytes blob)) = Some c) /\
  (forall p, p <> sharded root dir (ref_key name) -> p <> object_path root (of_bytes blob) ->
    pub (pointer_fs dir name blob fs) p = pub fs p).
Proof.
intros Hr Hd Hne. destruct (does_put_bytes root fs blob Hr) as [D1 Hr1].
set (fs1 := put_bytes_fs root blob fs) in *. unfold pointer_fs. fold fs1.
pose proof (plane_put_pub root fs1 Hr1 dir Hd (ref_key name) (of_bytes blob) CREATE_MODE) as Hp.
split; [|split; [|split; [|split]]].
- eapply does_bind; [exact D1|]. by apply does_plane_write.
- by apply plane_put_ready.
- rewrite (Hp _). by rewrite decide_True.
- intros Hok. rewrite (Hp _), decide_False by (intros [? _]%sharded_eq; congruence).
  unfold fs1. rewrite put_bytes_fs_pub by done. case_decide as E; [by exists blob|].
  destruct (pub fs (object_path root (of_bytes blob))) as [c|] eqn:Ec; [|naive_solver].
  exists c. split; [by apply Hok|done].
- intros p H1 H2. rewrite (Hp _), decide_False by done. unfold fs1.
  rewrite put_bytes_fs_pub by done. rewrite decide_False; [done|naive_solver].
Qed.

(** Reading through a pointer. *)
Lemma does_pointer_get fs dir name c :
  store_ready root fs -> dir ∈ file_planes ->
  pub fs (sharded root dir (ref_key name)) = Some (of_bytes c) ->
  pub fs (object_path root (of_bytes c)) = Some c ->
  does (exists_ (sharded root dir (ref_key name))) fs (Ok true) fs /\
  does (read (sharded root dir (ref_key name))) fs (Ok (of_bytes c)) fs /\
  bool_decide (length (of_bytes c) = 32) = true /\
  does (get_bytes root (of_bytes c)) fs (Ok c) fs.
Proof.
intros Hr Hd Hp Hc. pose proof (plane_path_tmp root fs Hr dir Hd (ref_key name)) as Ht.
rewrite pub_file_at in Hp by done. split; [|split; [|split]].
- rewrite <- (node_exists_file _ _ _ Hp). apply does_exists.
- by apply does_read.
- apply bool_decide_eq_true_2, blake3_length.
- by apply does_get_bytes.
Qed.

(** Image records round-trip through the store.  On a ready store whose objects
    are valid and whose hash has no collision with the record's encoding,
    [image_manifest_put] of a well-formed record succeeds without I/O faults, and
    then [image_manifest_get] returns that record. *)
Theorem image_manifest_put_get fs name rec :
  store_ready root fs -> cas_ok root fs -> validate_ref_name name = Ok tt -> image_record_wf rec ->
  (forall c, of_bytes c = of_bytes (encode_manifest_record rec) -> c = encode_manifest_record rec) ->
  exists fs', does (image_manifest_put root name rec) fs (Ok tt) fs' /\ store_ready root fs' /\
    does (image_manifest_get root name) fs' (Ok (Some rec)) fs'.
Proof.
intros Hr Hok Hn Hwf Hcf.
destruct (does_pointer_put fs IMGMANIFEST name (encode_manifest_record rec) Hr imgmanifest_plane)
  as (D & Hr' & Hp & Hobj & _); [done|].
destruct (Hobj Hok) as (c & Hc & Ho). apply Hcf in Hc as ->.
exists (pointer_fs IMGMANIFEST name (encode_manifest_record rec) fs). split; [|split; [done|]].
- unfold image_manifest_put. rewrite Hn. eapply does_bind; [apply does_ret|]. exact D.
- destruct (does_pointer_get _ IMGMANIFEST name _ Hr' imgmanifest_plane Hp Ho) as (E1 & E2 & E3 & E4).
  unfold image_manifest_get. rewrite Hn. eapply does_bind; [apply does_ret|].
  eapply does_bind; [exact E1|]. cbv beta iota. eapply does_bind; [exact E2|]. cbv beta. rewrite E3.
  eapply does_bind; [exact E4|]. cbv beta.
  rewrite <- (app_nil_r (encode_manifest_record rec)), decode_manifest_encode by done.
  eapply does_bind; [apply does_ret|]. apply does_ret.
Qed.

End ready_sidecars.

Lemma image_manifest_put_get_witness :
  let B := pinned_blake3 [encode_manifest_record demo_image] in
  exists fs', does (@image_manifest_put B demo_root (str "app") demo_image) demo_fs (Ok tt) fs' /\
    does (@image_manifest_get B demo_root (str "app")) fs' (Ok (Some demo_image)) fs'.
Proof.
intros B.
destruct (@image_manifest_put_get B (pinned_blake3_laws _) demo_root demo_fs (str "app") demo_image)
  as (fs' & D & _ & G).
- apply demo_fs_ready.
- apply cas_ok_dirs. apply (bool_decide_eq_true_1 _). vm_compute. reflexivity.
- vm_compute. reflexivity.
- apply (bool_decide_eq_true_1 _). vm_compute. reflexivity.
- intros c. apply pinned_inj; [vm_compute; reflexivity|]. by apply list_elem_of_singleton.
- by exists fs'.
Defined.
