(* ===== verification/TimeAxis.v ===== *)
(** Comparing and moving along a ref's history
    (crates/lightr-index/src/index/timeaxis.rs and [entries_differ] of status.rs):
    the manifest diff, the LRR1 result record and undo; bisect is in [Bisect]. *)

From S2P Require Import Prelude Error Cursor Digest Manifest RefRecord Fs FsFacts OwnedTemp Calm Cas Layout Refs.

(** * Diff *)

Definition entries_differ (remote local : Entry) : bool :=
  match remote, local with
  | File _ rm _ rd, File _ lm _ ld => negb (bool_decide (rd = ld)) || negb (bool_decide (rm = lm))
  | Symlink _ rt, Symlink _ lt => negb (bool_decide (rt = lt))
  | Dir _, Dir _ => false
  | _, _ => true
  end.

Record DiffReport := mkDiffReport { added : list bytes; removed : list bytes; changed : list bytes }.

Definition push_added (p : bytes) (r : DiffReport) : DiffReport :=
  mkDiffReport (p :: added r) (removed r) (changed r).
Definition push_removed (p : bytes) (r : DiffReport) : DiffReport :=
  mkDiffReport (added r) (p :: removed r) (changed r).
Definition push_changed (p : bytes) (r : DiffReport) : DiffReport :=
  mkDiffReport (added r) (removed r) (p :: changed r).

(** The two-pointer loop; the pushes come out in loop order. *)
Fixpoint diff_loop (old : list Entry) : list Entry -> DiffReport :=
  match old with
  | [] => fix rest (new : list Entry) : DiffReport :=
      match new with
      | [] => mkDiffReport [] [] []
      | ne :: new => push_added (entry_path ne) (rest new)
      end
  | oe :: old' => fix go (new : list Entry) : DiffReport :=
      match new with
      | [] => push_removed (entry_path oe) (diff_loop old' [])
      | ne :: new' =>
          match bytes_cmp (entry_path oe) (entry_path ne) with
          | Lt => push_removed (entry_path oe) (diff_loop old' (ne :: new'))
          | Gt => push_added (entry_path ne) (go new')
          | Eq =>
              if entries_differ oe ne then push_changed (entry_path oe) (diff_loop old' new')
              else diff_loop old' new'
          end
      end
  end.

Definition diff_manifests (old new : Manifest) : DiffReport := diff_loop (entries old) (entries new).

(** The report of [status] on the two manifests it compares. *)
Definition diff_clean (r : DiffReport) : bool :=
  bool_decide (added r = []) && bool_decide (removed r = []) && bool_decide (changed r = []).

(** * The LRR1 record *)

Definition parse_lrr1 (b : bytes) : option (digest * digest) :=
  if negb (bool_decide (length b = 72)) then None
  else if negb (bool_decide (take 4 b = str "LRR1")) then None
  else Some (take 32 (drop 8 b), take 32 (drop 40 b)).

(** * Undo *)

Section undo.
Context `{B3 : Blake3}.

Definition strip_at (s : bytes) : option bytes :=
  match s with
  | b :: r => if bool_decide (b = x40) then Some r else None
  | [] => None
  end.

Definition undo_target (to : option bytes) : Result Z :=
  match to with
  | None => Ok 1%Z
  | Some s =>
      match strip_at s with
      | Some version =>
          ok_or (parse_u64 version)
            (InvalidRef (str "invalid version in " ++ s ++ str ": not a number"))
      | None =>
          ok_or (parse_u64 s) (InvalidRef (str "invalid index in " ++ s ++ str ": not a number"))
      end
  end.

Definition undo_to (root : path) (name : bytes) (to : option bytes) : IO RefRecord :=
  log ← ref_log root name;
  if bool_decide (length log < 2) then throw (RefNotFound name) else
  target_idx ← lift (undo_target to);
  if bool_decide (Z.of_nat (length log) <= target_idx)%Z then
    throw (InvalidRef (str "version index " ++ dec target_idx ++ str " out of range (log has " ++
             dec (Z.of_nat (length log)) ++ str " entries)"))
  else
  match log !! Z.to_nat target_idx with
  | Some target => _ ← ref_put root target; mret target
  | None => throw (InvalidRef [])
  end.

Definition undo (root : path) (name : bytes) : IO RefRecord := undo_to root name None.

End undo.

(** * What the diff computes *)

Definition paths (es : list Entry) : list bytes := entry_path <$> es.

(** Strictly increasing paths, as [scan] writes them and [encode] asserts. *)
Definition path_sorted (es : list Entry) : Prop := StronglySorted bytes_lt (paths es).

Definition changed_in (old new : list Entry) (p : bytes) : Prop :=
  exists oe ne, oe ∈ old /\ ne ∈ new /\ entry_path oe = p /\ entry_path ne = p /\ entries_differ oe ne = true.

Lemma sorted_head_notin p l : StronglySorted bytes_lt (p :: l) -> p ∉ l.
Proof.
intros [_ H]%StronglySorted_inv Hp. rewrite Forall_forall in H. by apply (irreflexivity bytes_lt p), H.
Qed.

Lemma sorted_below p q l : StronglySorted bytes_lt (q :: l) -> bytes_lt p q -> p ∉ q :: l.
Proof.
intros [_ H]%StronglySorted_inv Hpq. rewrite Forall_forall in H. rewrite elem_of_cons. intros [->|Hp].
- by apply (irreflexivity bytes_lt q).
- apply (irreflexivity bytes_lt p). transitivity q; auto.
Qed.

Definition diff_spec (old new : list Entry) (r : DiffReport) : Prop :=
  (forall p, p ∈ added r <-> p ∈ paths new /\ p ∉ paths old) /\
  (forall p, p ∈ removed r <-> p ∈ paths old /\ p ∉ paths new) /\
  (forall p, p ∈ changed r <-> changed_in old new p).

Lemma elem_of_paths p es : p ∈ paths es <-> exists e, e ∈ es /\ entry_path e = p.
Proof. unfold paths. rewrite list_elem_of_fmap. naive_solver. Qed.

Lemma diff_spec_removed oe old new r :
  entry_path oe ∉ paths new -> entry_path oe ∉ paths old ->
  diff_spec old new r -> diff_spec (oe :: old) new (push_removed (entry_path oe) r).
Proof.
intros Hn Ho (Ha & Hr & Hc). split; [|split]; intros p; simpl.
- rewrite Ha, not_elem_of_cons. naive_solver.
- rewrite !elem_of_cons, Hr. naive_solver.
- rewrite Hc. unfold changed_in. split.
  + intros (e1 & e2 & H). exists e1, e2. rewrite elem_of_cons. naive_solver.
  + intros (e1 & e2 & [->|H1]%elem_of_cons & H2 & H3 & H4 & H5); [|eauto 10].
    destruct Hn. apply elem_of_paths. exists e2. split; [done|congruence].
Qed.

Lemma diff_spec_added ne old new r :
  entry_path ne ∉ paths old -> entry_path ne ∉ paths new ->
  diff_spec old new r -> diff_spec old (ne :: new) (push_added (entry_path ne) r).
Proof.
intros Hn Ho (Ha & Hr & Hc). split; [|split]; intros p; simpl.
- rewrite !elem_of_cons, Ha. naive_solver.
- rewrite Hr, not_elem_of_cons. naive_solver.
- rewrite Hc. unfold changed_in. split.
  + intros (e1 & e2 & H). exists e1, e2. rewrite elem_of_cons. naive_solver.
  + intros (e1 & e2 & H1 & [->|H2]%elem_of_cons & H3 & H4 & H5); [|eauto 10].
    destruct Hn. apply elem_of_paths. exists e1. split; [done|congruence].
Qed.

Lemma diff_spec_both oe ne old new r :
  entry_path oe = entry_path ne -> entry_path oe ∉ paths old -> entry_path oe ∉ paths new ->
  diff_spec old new r ->
  diff_spec (oe :: old) (ne :: new)
    (if entries_differ oe ne then push_changed (entry_path oe) r else r).
Proof.
intros He Ho Hn (Ha & Hr & Hc).
assert (forall p, changed_in (oe :: old) (ne :: new) p <->
  (p = entry_path oe /\ entries_differ oe ne = true) \/ changed_in old new p) as Hci.
{ intros p. unfold changed_in. split.
  - intros (e1 & e2 & [->|H1]%elem_of_cons & [->|H2]%elem_of_cons & H3 & H4 & H5).
    + by left.
    + destruct Hn. apply elem_of_paths. exists e2. split; [done|congruence].
    + destruct Ho. apply elem_of_paths. exists e1. split; [done|congruence].
    + right. eauto 10.
  - intros [[-> H]|(e1 & e2 & H)].
    + exists oe, ne. rewrite !elem_of_cons. repeat split; auto.
    + exists e1, e2. rewrite !elem_of_cons. intuition. }
assert (forall r', added r' = added r -> removed r' = removed r ->
  (forall p, p ∈ changed r' <-> changed_in (oe :: old) (ne :: new) p) ->
  diff_spec (oe :: old) (ne :: new) r') as Hall.
{ intros r' Ea Er Hch. split; [|split; [|exact Hch]]; intros p; simpl.
  - rewrite Ea, Ha, elem_of_cons, not_elem_of_cons. split.
    + intros [H1 H2]. split; [by right|]. split; [by intros ->|done].
    + intros [[->|H1] [H2 H3]]; [by rewrite He in H2|done].
  - rewrite Er, Hr, elem_of_cons, not_elem_of_cons. rewrite <- He. split.
    + intros [H1 H2]. split; [by right|]. split; [by intros ->|done].
    + intros [[->|H1] [H2 H3]]; done. }
destruct (entries_differ oe ne); apply Hall; try done; intros p; rewrite Hci; simpl.
- rewrite elem_of_cons, Hc. intuition.
- rewrite Hc. intuition discriminate.
Qed.

Lemma path_sorted_cons e es : path_sorted (e :: es) -> path_sorted es.
Proof. unfold path_sorted. csimpl. by intros [? _]%StronglySorted_inv. Qed.

Lemma diff_loop_spec old new :
  path_sorted old -> path_sorted new -> diff_spec old new (diff_loop old new).
Proof.
revert new. induction old as [|oe old IH]; intros new Ho Hn.
- induction new as [|ne new IHn]; cbn [diff_loop].
  + split; [|split]; intros p; simpl; try set_solver. split; [set_solver|].
    intros (e1 & e2 & H & _). set_solver.
  + apply diff_spec_added; [set_solver| |apply IHn; by eapply path_sorted_cons].
    by apply sorted_head_notin in Hn.
- pose proof (sorted_head_notin _ _ Ho) as Ho1. pose proof (path_sorted_cons _ _ Ho) as Ho2.
  induction new as [|ne new IHn]; cbn [diff_loop].
  + apply diff_spec_removed; [set_solver|done|by apply IH].
  + pose proof (sorted_head_notin _ _ Hn) as Hn1. pose proof (path_sorted_cons _ _ Hn) as Hn2.
    destruct (bytes_cmp (entry_path oe) (entry_path ne)) eqn:E.
    * apply bytes_cmp_eq in E.
      pose proof (diff_spec_both oe ne old new (diff_loop old new) E Ho1) as H.
      destruct (entries_differ oe ne); apply H; try (rewrite E; done); by apply IH.
    * apply diff_spec_removed; [|done|by apply IH]. by eapply (sorted_below _ _ _ Hn).
    * apply diff_spec_added; [|done|by apply IHn]. apply bytes_lt_gt in E. by eapply (sorted_below _ _ _ Ho).
Qed.

Lemma sorted_paths_ext l1 l2 :
  StronglySorted bytes_lt l1 -> StronglySorted bytes_lt l2 -> (forall p, p ∈ l1 <-> p ∈ l2) -> l1 = l2.
Proof.
intros H1 H2 H. assert (forall l, StronglySorted bytes_lt l -> StronglySorted bytes_le l /\ NoDup l) as Hs.
{ intros l. induction 1 as [|p l Hl [IH1 IH2] Hp]; [split; constructor|]. split; constructor; auto.
  - eapply Forall_impl; [exact Hp|]. intros q Hq. apply bytes_le_lt_eq. by left.
  - rewrite Forall_forall in Hp. intros Hin%Hp. by apply (irreflexivity bytes_lt p). }
apply (StronglySorted_unique bytes_le); [by apply Hs..|].
apply NoDup_Permutation; [by apply Hs..|done].
Qed.

(** The diff is exact.  For two manifests with strictly increasing paths, the
    two-pointer merge reports as added the paths only the new one has, as removed
    those only the old one has, and as changed those both have with entries that
    differ in kind, digest, mode or target; and it reports nothing exactly when
    the two have the same paths with entries that do not differ. *)
Theorem diff_manifests_exact (old new : Manifest) :
  path_sorted (entries old) -> path_sorted (entries new) ->
  diff_spec (entries old) (entries new) (diff_manifests old new) /\
  (diff_clean (diff_manifests old new) = true <->
   paths (entries old) = paths (entries new) /\
   forall p, ~ changed_in (entries old) (entries new) p).
Proof.
intros Ho Hn. pose proof (diff_loop_spec _ _ Ho Hn) as (Ha & Hr & Hc). split; [done|].
unfold diff_clean, diff_manifests. rewrite !andb_true_iff, !bool_decide_eq_true.
set (r := diff_loop (entries old) (entries new)) in *. split.
- intros [[Ea Er] Ec]. rewrite Ea in Ha. rewrite Er in Hr. rewrite Ec in Hc. split.
  + apply sorted_paths_ext; [done|done|]. intros p. split; intros Hp.
    * destruct (decide (p ∈ paths (entries new))) as [|Hq]; [done|].
      by destruct (not_elem_of_nil p (proj2 (Hr p) (conj Hp Hq))).
    * destruct (decide (p ∈ paths (entries old))) as [|Hq]; [done|].
      by destruct (not_elem_of_nil p (proj2 (Ha p) (conj Hp Hq))).
  + intros p Hp%Hc. by apply not_elem_of_nil in Hp.
- intros [Hp Hch]. repeat split; apply elem_of_nil_inv; intros p.
  + rewrite Ha, Hp. tauto.
  + rewrite Hr, Hp. tauto.
  + rewrite Hc. apply Hch.
Qed.

Definition demo_old : Manifest :=
  mkManifest 1 3 [File (str "a") 420 1 (replicate 32 x01); File (str "b") 420 1 (replicate 32 x02); Dir (str "d")].
Definition demo_new : Manifest :=
  mkManifest 1 3 [File (str "b") 493 1 (replicate 32 x02); Symlink (str "c") (str "b"); Dir (str "d")].

Lemma diff_manifests_exact_witness :
  diff_manifests demo_old demo_new = mkDiffReport [str "c"] [str "a"] [str "b"] /\
  diff_spec (entries demo_old) (entries demo_new) (diff_manifests demo_old demo_new).
Proof.
split; [vm_compute; reflexivity|].
apply (diff_manifests_exact demo_old demo_new); unfold path_sorted; repeat constructor; vm_compute; reflexivity.
Defined.

(** * Undo on the refs plane *)

Section undo_theorem.
Context `{B3 : Blake3} (root : path) (N : list bytes) (HN : names_ok N).

(** [undo] of a ref with at least two versions. *)
Lemma undo_refines fs a n h r1 r2 :
  refs_abs root N fs a -> n ∈ N -> history a n = h ++ [r1; r2] ->
  u64 (Z.of_nat (S (length (history a n)))) ->
  exists fs', does (undo root n) fs (Ok r1) fs' /\ refs_abs root N fs' (ref_spec (RPut r1) a).2.
Proof.
intros Ha Hn Hh Hb. pose proof (history_wf root N fs a n Ha) as Hwf.
assert (r1 ∈ history a n) as Hin by (rewrite Hh; set_solver).
assert (RefRecord.name r1 = n) as Hname by (by apply list_elem_of_filter in Hin as [? _]).
rewrite Forall_forall in Hwf. destruct (ref_put_refines root N HN fs a r1 Ha) as (fs' & D & Ha').
{ split; [by rewrite Hname|]. split; [auto|by rewrite Hname]. }
exists fs'. split; [|done]. unfold undo, undo_to.
eapply does_bind; [apply does_ref_log; [apply Ha|by apply HN|by apply (abs_log _ _ _ _ Ha)|by eapply history_wf]|].
cbv beta. rewrite Hh, reverse_app. cbn [reverse rev_append]. rewrite bool_decide_eq_false_2 by (simpl; lia).
eapply does_bind; [apply does_ret|]. cbv beta. rewrite bool_decide_eq_false_2 by (simpl; lia).
simpl. eapply does_bind; [exact D|]. apply does_ret.
Qed.

(** Undo moves to the previous version and is its own inverse.  On a store in
    layout and without I/O faults, [undo] of a ref with at least two versions
    re-points it to the version before the newest, leaves the whole history in
    place under the new head, and a second [undo] re-points it to the version it
    had at first. *)
Theorem undo_toggles fs a n h r1 r2 :
  refs_abs root N fs a -> n ∈ N -> history a n = h ++ [r1; r2] ->
  u64 (Z.of_nat (length (history a n) + 2)) ->
  exists fs1 fs2,
    does (undo root n) fs (Ok r1) fs1 /\
    does (ref_get root n) fs1 (Ok (Some r1)) fs1 /\
    does (ref_log root n) fs1 (Ok (r1 :: reverse (history a n))) fs1 /\
    does (undo root n) fs1 (Ok r2) fs2 /\
    does (ref_get root n) fs2 (Ok (Some r2)) fs2 /\
    does (ref_log root n) fs2 (Ok (r2 :: r1 :: reverse (history a n))) fs2.
Proof.
intros Ha Hn Hh Hb. assert (r1 ∈ history a n /\ r2 ∈ history a n) as [H1 H2] by (rewrite Hh; set_solver).
assert (RefRecord.name r1 = n) as E1 by (by apply list_elem_of_filter in H1 as [? _]).
assert (RefRecord.name r2 = n) as E2 by (by apply list_elem_of_filter in H2 as [? _]).
destruct (undo_refines fs a n h r1 r2 Ha Hn Hh) as (fs1 & D1 & A1); [unfold u64 in *; lia|].
set (a1 := (ref_spec (RPut r1) a).2) in *.
assert (history a1 n = (h ++ [r1]) ++ [r2; r1]) as Hh1.
{ unfold a1. cbn [ref_spec snd]. rewrite history_put, Hh, decide_True by done. by rewrite <- !app_assoc. }
destruct (undo_refines fs1 a1 n (h ++ [r1]) r2 r1 A1 Hn Hh1) as (fs2 & D2 & A2).
{ rewrite Hh1. rewrite Hh in Hb. rewrite !length_app in *. simpl in *. unfold u64 in *. lia. }
set (a2 := (ref_spec (RPut r2) a1).2) in *.
assert (forall f b, refs_abs root N f b -> does (ref_get root n) f (Ok (cur b !! n)) f /\
  does (ref_log root n) f (Ok (reverse (history b n))) f) as Hget.
{ intros f b Hf. split.
  - apply does_ref_get; [apply Hf|by apply HN|by apply Hf|by eapply abs_record_wf].
  - apply does_ref_log; [apply Hf|by apply HN|by apply (abs_log _ _ _ _ Hf)|by eapply history_wf]. }
destruct (Hget fs1 a1 A1) as [G1 L1]. destruct (Hget fs2 a2 A2) as [G2 L2].
assert (cur a1 !! n = Some r1) as C1 by (unfold a1; cbn; rewrite E1; by rewrite lookup_insert_eq).
assert (cur a2 !! n = Some r2) as C2 by (unfold a2; cbn [ref_spec snd cur]; rewrite E2; by rewrite lookup_insert_eq).
assert (history a2 n = history a n ++ [r1; r2]) as Hh2.
{ unfold a2. cbn [ref_spec snd]. rewrite history_put, Hh1, Hh, decide_True by done. by rewrite <- !app_assoc. }
assert (history a1 n = history a n ++ [r1]) as Hh1' by (rewrite Hh1, Hh; by rewrite <- !app_assoc).
rewrite C1, Hh1', reverse_app in *. rewrite C2, Hh2, reverse_app in *. by exists fs1, fs2.
Qed.

End undo_theorem.

Definition demo_v1 : RefRecord := demo_rec (str "main") x01.
Definition demo_v2 : RefRecord := demo_rec (str "main") x02.

Lemma demo_two_versions :
  exists fs, refs_abs demo_root demo_names fs (mkRefs (<[str "main" := demo_v2]> (<[str "main" := demo_v1]> ∅)) [demo_v1; demo_v2]).
Proof.
assert (refs_abs demo_root demo_names demo_fs (mkRefs ∅ [])) as A0.
{ apply fresh_refs_abs; [apply demo_fs_ready|].
  intros q n [[H|H] _]%demo_fs_lookup; [done|]. by apply (app_inv_head demo_root q []) in H. }
destruct (ref_put_refines demo_root demo_names demo_names_ok _ _ demo_v1 A0) as (fs1 & _ & A1).
{ split; [|split]; apply (bool_decide_eq_true_1 _); vm_compute; reflexivity. }
destruct (ref_put_refines demo_root demo_names demo_names_ok _ _ demo_v2 A1) as (fs2 & _ & A2).
{ split; [|split]; apply (bool_decide_eq_true_1 _); vm_compute; reflexivity. }
by exists fs2.
Qed.

Lemma undo_toggles_witness :
  exists fs fs1 fs2, does (undo demo_root (str "main")) fs (Ok demo_v1) fs1 /\
    does (undo demo_root (str "main")) fs1 (Ok demo_v2) fs2.
Proof.
destruct demo_two_versions as [fs A]. exists fs.
destruct (undo_toggles demo_root demo_names demo_names_ok fs _ (str "main") [] demo_v1 demo_v2 A)
  as (fs1 & fs2 & D1 & _ & _ & D2 & _).
- apply (bool_decide_eq_true_1 _). vm_compute. reflexivity.
- vm_compute. reflexivity.
- apply (bool_decide_eq_true_1 _). vm_compute. reflexivity.
- by exists fs1, fs2.
Defined.
