(* ===== verification/IndexCodec.v ===== *)
(** The stat index (crates/lightr-index/src/index/codec.rs): the LIX1 file format,
    the path lookup table, and loading and saving. *)

From S2P Require Import Prelude Error Cursor Digest Fs FsFacts OwnedTemp Calm.

Definition INDEX_MAGIC : bytes := str "LIX1".
Definition INDEX_VERSION : Z := 1.

Record IndexEntry := mkIndexEntry {
  ie_kind : Z;
  ie_mode : Z;
  ie_size : Z;
  ie_mtime_ns : Z;
  ie_ino : Z;
  ie_digest : digest;
  ie_path : bytes;
}.

#[export] Instance IndexEntry_eq_dec : EqDecision IndexEntry.
Proof. solve_decision. Defined.

Record Index := mkIndex {
  saved_at_ns : Z;
  ix_entries : list IndexEntry;
  by_path : gmap bytes nat;
}.

(** [Index::empty]. *)
Definition index_empty : Index := mkIndex 0 [] ∅.

(** [Index::get]. *)
Definition index_get (ix : Index) (p : bytes) : option IndexEntry :=
  i ← by_path ix !! p;
  ix_entries ix !! i.

(** [Index::upsert]: replace in place, or append. *)
Definition upsert (ix : Index) (e : IndexEntry) : Index :=
  match by_path ix !! ie_path e with
  | Some i => mkIndex (saved_at_ns ix) (<[i := e]> (ix_entries ix)) (by_path ix)
  | None =>
      mkIndex (saved_at_ns ix) (ix_entries ix ++ [e])
        (<[ie_path e := length (ix_entries ix)]> (by_path ix))
  end.

(** * The file format *)

(** One record: the 63 fixed bytes are checked at once, then the path. *)
Definition RECORD_HEAD : nat := 1 + 4 + 8 + 8 + 8 + 32 + 2.

Definition slice (i n : nat) (b : bytes) : bytes := take n (drop i b).

Definition decode_record : Reader IndexEntry :=
  h ← need (InvalidManifest (str "index truncated")) RECORD_HEAD;
  p ← need (InvalidManifest (str "index path truncated")) (Z.to_nat (le_val (slice 61 2 h)));
  p ← utf8_string (InvalidManifest (str "non-utf8 path")) p;
  mret (mkIndexEntry (le_val (slice 0 1 h)) (le_val (slice 1 4 h)) (le_val (slice 5 8 h))
          (le_val (slice 13 8 h)) (le_val (slice 21 8 h)) (slice 29 32 h) p).

(** [by_path.insert(e.path.clone(), i)] for each entry in order: the last wins. *)
Fixpoint path_table (i : nat) (es : list IndexEntry) (m : gmap bytes nat) : gmap bytes nat :=
  match es with
  | [] => m
  | e :: es => path_table (S i) es (<[ie_path e := i]> m)
  end.

Definition decode_reader : Reader (Z * list IndexEntry) :=
  h ← need (InvalidManifest (str "index too short")) 20;
  if bool_decide (slice 0 4 h = INDEX_MAGIC) then
    if bool_decide (le_val (slice 4 4 h) = INDEX_VERSION) then
      es ← repeat_read (Z.to_nat (le_val (slice 16 4 h))) decode_record;
      mret (le_val (slice 8 8 h), es)
    else fail (InvalidManifest (str "unknown index version"))
  else fail (InvalidManifest (str "bad index magic")).

(** [Index::decode]: bytes after the last record are not looked at. *)
Definition decode (data : bytes) : Result Index :=
  '((saved, es), _) ← decode_reader data;
  Ok (mkIndex saved es (path_table 0 es ∅)).

Definition encode_record (e : IndexEntry) : bytes :=
  le_bytes 1 (ie_kind e) ++ le_bytes 4 (ie_mode e) ++ le_bytes 8 (ie_size e) ++
  le_bytes 8 (ie_mtime_ns e) ++ le_bytes 8 (ie_ino e) ++ ie_digest e ++ put_str16 (ie_path e).

Definition sort_entries (es : list IndexEntry) : list IndexEntry :=
  sort_by (fun a b => bytes_leb (ie_path a) (ie_path b)) es.

(** The buffer [save_for] writes; [now_ns] is the clock. *)
Definition encode (ix : Index) (now_ns : Z) : bytes :=
  INDEX_MAGIC ++ le_bytes 4 INDEX_VERSION ++ le_bytes 8 now_ns ++
  le_bytes 4 (Z.of_nat (length (ix_entries ix))) ++ mjoin (encode_record <$> sort_entries (ix_entries ix)).

(** * Loading and saving

    [index_path] is the result of [index_path_for]: the environment's index
    directory and the digest of the canonical root. *)

Definition load_for (index_path : Result path) : IO Index :=
  match index_path with
  | Err _ => mret index_empty
  | Ok p =>
      r ← try_ (read p);
      match r with
      | Err _ => mret index_empty
      | Ok data => match decode data with Ok ix => mret ix | Err _ => mret index_empty end
      end
  end.

Definition index_tmp_name (pid n : Z) : bytes := str ".lightr-index-tmp-" ++ dec pid ++ str "-" ++ dec n.

Definition save_for (ix : Index) (index_path : Result path) (pid n now_ns : Z) : IO unit :=
  p ← lift index_path;
  let dir := parent_path p in
  _ ← create_dir_all dir;
  let tmp := dir ++ [index_tmp_name pid n] in
  _ ← file_create tmp;
  _ ← write_all tmp (encode ix now_ns);
  _ ← sync;
  r ← try_ (rename tmp p);
  match r with
  | Err e => _ ← ignore (remove_file tmp); throw e
  | Ok _ => fsync_dir dir
  end.

(** * Lookup *)

(** The table and the entries agree: every path once, at its position. *)
Definition index_wf (ix : Index) : Prop :=
  forall p i, by_path ix !! p = Some i <-> exists e, ix_entries ix !! i = Some e /\ ie_path e = p.

Lemma index_empty_wf : index_wf index_empty.
Proof. intros p i. unfold index_empty. simpl. rewrite lookup_empty. split; [done|]. by intros (e & ? & _). Qed.

Lemma upsert_wf ix e : index_wf ix -> index_wf (upsert ix e).
Proof.
intros Hwf p i. unfold upsert. destruct (by_path ix !! ie_path e) as [j|] eqn:E; simpl.
- apply Hwf in E as (e0 & He0 & Hp). rewrite (Hwf p i).
  destruct (decide (i = j)) as [->|Hne].
  + rewrite list_lookup_insert_eq by (by eapply lookup_lt_Some). split.
    * intros (e1 & H1 & <-). exists e. split; [done|congruence].
    * intros (e1 & [= <-] & <-). exists e0. done.
  + rewrite list_lookup_insert_ne by done. done.
- rewrite lookup_insert. case_decide as Ep.
  + split; [intros [= <-]; exists e; split; [by rewrite lookup_app_r, Nat.sub_diag by lia|done]|].
    intros (e1 & H1 & H2). destruct (decide (i < length (ix_entries ix))) as [Hi|Hi].
    * rewrite lookup_app_l in H1 by done. exfalso.
      assert (by_path ix !! p = Some i) as Hc by (apply Hwf; eauto). subst p. congruence.
    * apply lookup_lt_Some in H1. rewrite length_app in H1. simpl in H1. f_equal. lia.
  + rewrite (Hwf p i). split.
    * intros (e1 & H1 & H2). exists e1. split; [|done]. by apply lookup_app_l_Some.
    * intros (e1 & H1 & H2). exists e1. split; [|done]. apply lookup_app_Some in H1 as [H1|[_ H1]]; [done|].
      by apply list_lookup_singleton_Some in H1 as [_ ->].
Qed.

Lemma index_get_spec ix p e : index_wf ix ->
  index_get ix p = Some e <-> e ∈ ix_entries ix /\ ie_path e = p.
Proof.
intros Hwf. unfold index_get. rewrite bind_Some. setoid_rewrite (Hwf p). split.
- intros (i & (e' & H1 & H2) & H3). assert (e' = e) as -> by congruence.
  split; [by eapply list_elem_of_lookup_2|done].
- intros [He Hp]. apply list_elem_of_lookup in He as [i Hi]. exists i. split; [eauto|done].
Qed.

Lemma upsert_get ix e p : index_wf ix ->
  index_get (upsert ix e) p = if decide (p = ie_path e) then Some e else index_get ix p.
Proof.
intros Hwf. case_decide as Ep.
- subst p. unfold index_get, upsert. destruct (by_path ix !! ie_path e) as [j|] eqn:E; cbn [by_path ix_entries].
  + rewrite E. simpl. apply Hwf in E as (e0 & He0 & _).
    rewrite list_lookup_insert_eq; [done|by eapply lookup_lt_Some].
  + rewrite lookup_insert_eq. simpl. by rewrite lookup_app_r, Nat.sub_diag by lia.
- unfold index_get, upsert. destruct (by_path ix !! ie_path e) as [j|] eqn:E; cbn [by_path ix_entries].
  + destruct (by_path ix !! p) as [i|] eqn:Ei; [|done]. simpl. apply list_lookup_insert_ne.
    intros ->. apply Hwf in E as (e0 & H0 & H1). apply Hwf in Ei as (e1 & H2 & H3). congruence.
  + rewrite lookup_insert_ne by done. destruct (by_path ix !! p) as [i|] eqn:Ei; [|done]. simpl.
    apply Hwf in Ei as (e1 & H2 & _). apply lookup_app_l. by eapply lookup_lt_Some.
Qed.

(** * The round trip *)

Definition index_entry_wf (e : IndexEntry) : Prop :=
  u8 (ie_kind e) /\ u32 (ie_mode e) /\ u64 (ie_size e) /\ u64 (ie_mtime_ns e) /\ u64 (ie_ino e) /\
  digest_wf (ie_digest e) /\ str16_wf (ie_path e).

#[export] Instance index_entry_wf_dec e : Decision (index_entry_wf e) :=
  ltac:(unfold index_entry_wf; apply _).

Lemma slice_skip k i n a b : length a = k -> slice (k + i) n (a ++ b) = slice i n b.
Proof. intros <-. unfold slice. by rewrite drop_app_add. Qed.

Lemma slice_here n a b : length a = n -> slice 0 n (a ++ b) = a.
Proof. intros <-. unfold slice. by rewrite drop_0, take_app_length. Qed.

Lemma slice_last n a : length a = n -> slice 0 n a = a.
Proof. intros <-. unfold slice. by rewrite drop_0, firstn_all. Qed.

Definition record_head (e : IndexEntry) : bytes :=
  le_bytes 1 (ie_kind e) ++ le_bytes 4 (ie_mode e) ++ le_bytes 8 (ie_size e) ++
  le_bytes 8 (ie_mtime_ns e) ++ le_bytes 8 (ie_ino e) ++ ie_digest e ++
  le_bytes 2 (Z.of_nat (length (ie_path e))).

Section record_slices.
Context (e : IndexEntry) (He : index_entry_wf e).

Lemma record_slices :
  le_val (slice 0 1 (record_head e)) = ie_kind e /\ le_val (slice 1 4 (record_head e)) = ie_mode e /\
  le_val (slice 5 8 (record_head e)) = ie_size e /\ le_val (slice 13 8 (record_head e)) = ie_mtime_ns e /\
  le_val (slice 21 8 (record_head e)) = ie_ino e /\ slice 29 32 (record_head e) = ie_digest e /\
  le_val (slice 61 2 (record_head e)) = Z.of_nat (length (ie_path e)).
Proof.
destruct He as (Hk & Hm & Hs & Ht & Hi & Hd & Hu & Hl). unfold record_head.
assert (forall n z, length (le_bytes n z) = n) as Hlen by (intros; apply length_le_bytes).
change 61 with (1 + (4 + (8 + (8 + (8 + (32 + 0)))))). change 29 with (1 + (4 + (8 + (8 + (8 + 0))))).
change 21 with (1 + (4 + (8 + (8 + 0)))). change 13 with (1 + (4 + (8 + 0))). change 5 with (1 + (4 + 0)).
change (slice 1 4) with (slice (1 + 0) 4).
rewrite !slice_skip by (apply Hlen || exact Hd). rewrite !slice_here by (apply Hlen || exact Hd).
rewrite slice_last by apply Hlen. rewrite !le_val_le_bytes.
repeat split; apply Z.mod_small; try done. lia.
Qed.

Lemma length_record_head : length (record_head e) = RECORD_HEAD.
Proof.
destruct He as (_ & _ & _ & _ & _ & Hd & _). unfold record_head, digest_wf in *.
rewrite !length_app, !length_le_bytes, Hd. done.
Qed.

Lemma reads_record : reads decode_record (encode_record e) e.
Proof.
destruct record_slices as (E1 & E2 & E3 & E4 & E5 & E6 & E7). pose proof He as (_ & _ & _ & _ & _ & _ & Hu & _).
assert (encode_record e = record_head e ++ ie_path e) as ->
  by (unfold encode_record, record_head, put_str16; by rewrite <- !app_assoc).
unfold decode_record. eapply reads_bind; [apply reads_need, length_record_head|].
rewrite E1, E2, E3, E4, E5, E6, E7, Nat2Z.id.
eapply reads_bind_nil; [by apply reads_need|].
eapply reads_bind_nil; [by apply reads_utf8|]. destruct e. apply reads_ret.
Qed.

End record_slices.

Lemma path_table_spec es k m p i :
  NoDup (ie_path <$> es) ->
  path_table k es m !! p = Some i <->
  (exists j e, i = k + j /\ es !! j = Some e /\ ie_path e = p) \/ (p ∉ (ie_path <$> es) /\ m !! p = Some i).
Proof.
revert k m. induction es as [|e es IH]; intros k m Hnd; csimpl.
- split; [intros H; right; split; [set_solver|done]|]. intros [(j & e & _ & H & _)|[_ H]]; done.
- apply NoDup_cons in Hnd as [Hn Hnd]. rewrite IH by done. rewrite not_elem_of_cons. split.
  + intros [(j & e' & -> & H1 & H2)|[H1 H2]].
    * left. exists (S j), e'. split; [lia|done].
    * rewrite lookup_insert in H2. case_decide as E; [|right; done].
      left. exists 0, e. split; [injection H2; lia|done].
  + intros [([|j] & e' & -> & H1 & H2)|[[H1 H2] H3]].
    * right. injection H1 as <-. subst p. split; [done|]. rewrite lookup_insert_eq. f_equal. lia.
    * left. exists j, e'. split; [lia|done].
    * right. split; [done|]. rewrite lookup_insert_ne; [done|congruence].
Qed.

Lemma path_table_wf saved es :
  NoDup (ie_path <$> es) -> index_wf (mkIndex saved es (path_table 0 es ∅)).
Proof.
intros Hnd p i. simpl. rewrite path_table_spec by done. rewrite lookup_empty. split.
- intros [(j & e & -> & H)|[_ H]]; [eauto|done].
- intros (e & H). left. exists i, e. done.
Qed.

Lemma index_wf_NoDup ix : index_wf ix -> NoDup (ie_path <$> ix_entries ix).
Proof.
intros Hwf. apply NoDup_alt. intros i j p Hi Hj. rewrite list_lookup_fmap in Hi, Hj.
apply fmap_Some in Hi as (e1 & H1 & E1), Hj as (e2 & H2 & E2).
assert (by_path ix !! p = Some i) as Ei by (apply Hwf; eauto).
assert (by_path ix !! p = Some j) as Ej by (apply Hwf; eauto). congruence.
Qed.

Lemma index_decode_encode ix now_ns :
  u64 now_ns -> u32 (Z.of_nat (length (ix_entries ix))) -> Forall index_entry_wf (ix_entries ix) ->
  decode (encode ix now_ns) =
    Ok (mkIndex now_ns (sort_entries (ix_entries ix)) (path_table 0 (sort_entries (ix_entries ix)) ∅)).
Proof.
intros Hn Hl Hwf. unfold decode, encode.
set (h := INDEX_MAGIC ++ le_bytes 4 INDEX_VERSION ++ le_bytes 8 now_ns ++
          le_bytes 4 (Z.of_nat (length (ix_entries ix)))).
set (es := sort_entries (ix_entries ix)).
assert (es ≡ₚ ix_entries ix) as Hp by apply sort_by_perm.
assert (slice 0 4 h = INDEX_MAGIC /\ le_val (slice 4 4 h) = INDEX_VERSION /\ le_val (slice 8 8 h) = now_ns /\
  le_val (slice 16 4 h) = Z.of_nat (length es)) as (E1 & E2 & E3 & E4).
{ unfold h. change 16 with (4 + (4 + (8 + 0))). change (slice 8 8) with (slice (4 + (4 + 0)) 8).
  change (slice 4 4) with (slice (4 + 0) 4).
  rewrite !slice_skip by (done || apply length_le_bytes). rewrite !slice_here by (done || apply length_le_bytes).
  rewrite slice_last by apply length_le_bytes. rewrite Hp, !le_val_le_bytes.
  repeat split; apply Z.mod_small; done. }
assert (reads decode_reader (h ++ mjoin (encode_record <$> es)) (now_ns, es)) as Hr.
{ unfold decode_reader. eapply reads_bind; [by apply reads_need; unfold h; rewrite !length_app, !length_le_bytes|].
  rewrite E1, E2, E3, E4, Nat2Z.id, !bool_decide_eq_true_2 by done.
  eapply reads_bind_nil; [|apply reads_ret].
  apply (reads_repeat _ encode_record index_entry_wf); [apply reads_record|]. by rewrite Hp. }
specialize (Hr []). rewrite app_nil_r in Hr. unfold h in Hr. rewrite <- !app_assoc in Hr. by rewrite Hr.
Qed.

(** The stat index survives being saved and loaded: the entries come back in
    path order with the clock of the save, the path table is consistent with them,
    and every lookup gives what it gave before. *)
Theorem index_roundtrip (ix : Index) (now_ns : Z) :
  index_wf ix -> u64 now_ns -> u32 (Z.of_nat (length (ix_entries ix))) ->
  Forall index_entry_wf (ix_entries ix) ->
  exists ix', decode (encode ix now_ns) = Ok ix' /\ index_wf ix' /\
    saved_at_ns ix' = now_ns /\ ix_entries ix' ≡ₚ ix_entries ix /\
    StronglySorted (fun a b => bytes_le (ie_path a) (ie_path b)) (ix_entries ix') /\
    forall p, index_get ix' p = index_get ix p.
Proof.
intros Hwf Hn Hl He. eexists. split; [by apply index_decode_encode|]. simpl.
assert (sort_entries (ix_entries ix) ≡ₚ ix_entries ix) as Hp by apply sort_by_perm.
assert (NoDup (ie_path <$> sort_entries (ix_entries ix))) as Hnd by (rewrite Hp; by apply index_wf_NoDup).
pose proof (path_table_wf now_ns _ Hnd) as Hwf'. split; [done|]. split; [done|]. split; [done|].
split; [apply (sort_by_key_sorted ie_path)|].
intros p. apply option_eq. intros e. rewrite !index_get_spec by done. simpl. by rewrite Hp.
Qed.

Definition demo_index : Index :=
  upsert (upsert (upsert index_empty (mkIndexEntry 0 420 5 1000 7 (replicate 32 x01) (str "b.txt")))
    (mkIndexEntry 0 420 9 1001 8 (replicate 32 x02) (str "a.txt")))
    (mkIndexEntry 0 420 6 1002 7 (replicate 32 x03) (str "b.txt")).

Lemma index_roundtrip_witness :
  exists ix', decode (encode demo_index 2000) = Ok ix' /\ ie_path <$> ix_entries ix' = [str "a.txt"; str "b.txt"] /\
    forall p, index_get ix' p = index_get demo_index p.
Proof.
destruct (index_roundtrip demo_index 2000) as (ix' & E & _ & _ & _ & _ & G).
- repeat apply upsert_wf. apply index_empty_wf.
- apply (bool_decide_eq_true_1 _). vm_compute. reflexivity.
- apply (bool_decide_eq_true_1 _). vm_compute. reflexivity.
- apply (bool_decide_eq_true_1 _). vm_compute. reflexivity.
- exists ix'. split; [exact E|]. split; [|exact G].
  rewrite index_decode_encode in E; [|apply (bool_decide_eq_true_1 _); vm_compute; reflexivity..].
  injection E as <-. vm_compute. reflexivity.
Defined.

(** [upsert] is a map update.  It keeps the path table and the entry list
    consistent, and afterwards a lookup gives the new entry for its path and the
    old answer for every other path. *)
Theorem upsert_lookup (ix : Index) (e : IndexEntry) (p : bytes) :
  index_wf ix ->
  index_wf (upsert ix e) /\
  index_get (upsert ix e) p = if decide (p = ie_path e) then Some e else index_get ix p.
Proof. intros Hwf. split; [by apply upsert_wf|by apply upsert_get]. Qed.

Lemma upsert_lookup_witness :
  index_get (upsert demo_index (mkIndexEntry 0 420 1 1 1 (replicate 32 x09) (str "c"))) (str "a.txt") =
    index_get demo_index (str "a.txt").
Proof.
apply (upsert_lookup demo_index (mkIndexEntry 0 420 1 1 1 (replicate 32 x09) (str "c")) (str "a.txt")).
repeat apply upsert_wf. apply index_empty_wf.
Defined.
