(* ===== verification/Scan.v ===== *)
(** The working-tree scan (crates/lightr-index/src/index/scan.rs): candidates from
    the directory walk, the stat-index cache with its racily-clean rule, hashing,
    the manifest and the updated index.

    The directory walk is the third-party crate [ignore]; the scan is a function
    of the items it yields, each with what the scan then observes of the file: its
    metadata, link target, whether a directory is empty, and its digest. *)

From S2P Require Import Prelude Error Digest Manifest TimeAxis IndexCodec.

Inductive meta_kind := MSymlink | MDir | MFile | MOther.

#[export] Instance meta_kind_eq_dec : EqDecision meta_kind.
Proof. solve_decision. Defined.

(** [stat_fields]. *)
Record stat := mkStat { st_mtime_ns : Z; st_ino : Z; st_size : Z; st_mode : Z }.

Record walk_item := mkWalkItem {
  wi_rel : bytes;                          (** path below the root; empty for the root *)
  wi_meta : option (meta_kind * stat);     (** [symlink_metadata] *)
  wi_target : Result bytes;                (** [read_link] *)
  wi_empty : option bool;                  (** [read_dir]: is the directory empty *)
  wi_hash : Result digest;                 (** [Digest::of_file] *)
}.

Inductive cand_kind := CFile | CSymlink | CDir.

#[export] Instance cand_kind_eq_dec : EqDecision cand_kind.
Proof. solve_decision. Defined.

Record WalkCandidate := mkWalkCandidate {
  c_rel : bytes;
  c_kind : cand_kind;
  c_stat : stat;
  c_target : option bytes;
  c_cached : option digest;
  c_hash : Result digest;
}.

Record WalkReport := mkWalkReport { wr_manifest : Manifest; wr_rehashed : Z; wr_from_index : Z }.

(** [manifest_relative_path]. *)
Definition manifest_relative_path (rel : bytes) : Result bytes :=
  if utf8_valid rel then Ok rel else Err (InvalidManifest (str "selected path is not valid UTF-8")).

(** The digest the index vouches for: same size, mtime and inode, and an mtime
    before the index was saved. *)
Definition cached_digest (ix : Index) (rel : bytes) (s : stat) : option digest :=
  ie ← index_get ix rel;
  if bool_decide (ie_size ie = st_size s) && bool_decide (ie_mtime_ns ie = st_mtime_ns s) &&
     bool_decide (ie_ino ie = st_ino s) && (st_mtime_ns s <? saved_at_ns ix)%Z
  then Some (ie_digest ie) else None.

(** One iteration of the walk loop: no candidate, a candidate, or an error. *)
Definition candidate_of (ix : Index) (it : walk_item) : Result (option WalkCandidate) :=
  if bool_decide (wi_rel it = []) then Ok None else
  match wi_meta it with
  | None => Ok None
  | Some (kind, s) =>
      rel ← manifest_relative_path (wi_rel it);
      match kind with
      | MSymlink =>
          target ← wi_target it;
          if utf8_valid target
          then Ok (Some (mkWalkCandidate rel CSymlink s (Some target) None (wi_hash it)))
          else Err (InvalidManifest (str "selected link target is not valid UTF-8"))
      | MDir =>
          let record_dir := match wi_empty it with Some empty => empty | None => true end in
          if record_dir then Ok (Some (mkWalkCandidate rel CDir s None None (wi_hash it))) else Ok None
      | MFile =>
          Ok (Some (mkWalkCandidate rel CFile s None (cached_digest ix rel s) (wi_hash it)))
      | MOther => Ok None
      end
  end.

Fixpoint collect (ix : Index) (items : list walk_item) : Result (list WalkCandidate) :=
  match items with
  | [] => Ok []
  | it :: items =>
      c ← candidate_of ix it;
      cs ← collect ix items;
      Ok (match c with Some c => c :: cs | None => cs end)
  end.

Definition sort_candidates (cs : list WalkCandidate) : list WalkCandidate :=
  sort_by (fun a b => bytes_leb (c_rel a) (c_rel b)) cs.

Definition needs_hash (c : WalkCandidate) : bool :=
  bool_decide (c_kind c = CFile) && bool_decide (c_cached c = None).

(** The digest a file candidate gets; none when it could not be hashed. *)
Definition file_digest (c : WalkCandidate) : option digest :=
  match c_cached c with
  | Some d => Some d
  | None => match c_hash c with Ok d => Some d | Err _ => None end
  end.

(** The manifest loop. *)
Fixpoint build (cs : list WalkCandidate) (ix : Index) (total : Z) (es : list Entry) :
    Index * Z * list Entry :=
  match cs with
  | [] => (ix, total, es)
  | c :: cs =>
      match c_kind c with
      | CFile =>
          match file_digest c with
          | None => build cs ix total es
          | Some d =>
              let s := c_stat c in
              build cs
                (upsert ix (mkIndexEntry 0 (st_mode s) (st_size s) (st_mtime_ns s) (st_ino s) d (c_rel c)))
                (total + st_size s)%Z
                (es ++ [File (c_rel c) (st_mode s) (st_size s) d])
          end
      | CSymlink => build cs ix total (es ++ [Symlink (c_rel c) (default [] (c_target c))])
      | CDir => build cs ix total (es ++ [Dir (c_rel c)])
      end
  end.

(** [scan]; [save] is the result of [Index::save_for] on the updated index. *)
Definition scan (items : list walk_item) (ix : Index) (save : Index -> Result unit) :
    Result (WalkReport * Index) :=
  cs ← collect ix items;
  let cs := sort_candidates cs in
  let rehashed := length (List.filter (fun c => needs_hash c && is_ok (c_hash c)) cs) in
  let from_index := length (List.filter (fun c =>
    bool_decide (c_kind c = CFile) && negb (bool_decide (c_cached c = None))) cs) in
  let '(ix, total, es) := build cs ix 0 [] in
  _ ← save ix;
  Ok (mkWalkReport (mkManifest 1 total es) (Z.of_nat rehashed) (Z.of_nat from_index), ix).

(** * What the scan records *)

(** The manifest entry of a candidate. *)
Definition cand_entry (c : WalkCandidate) : option Entry :=
  match c_kind c with
  | CFile => (fun d => File (c_rel c) (st_mode (c_stat c)) (st_size (c_stat c)) d) <$> file_digest c
  | CSymlink => Some (Symlink (c_rel c) (default [] (c_target c)))
  | CDir => Some (Dir (c_rel c))
  end.

(** The reference: what one item of the walk contributes. *)
Definition entry_of (ix : Index) (it : walk_item) : option Entry :=
  match wi_rel it, wi_meta it with
  | [], _ | _, None => None
  | rel, Some (MSymlink, _) => match wi_target it with Ok t => Some (Symlink rel t) | Err _ => None end
  | rel, Some (MDir, _) => if default true (wi_empty it) then Some (Dir rel) else None
  | rel, Some (MFile, s) =>
      match cached_digest ix rel s, wi_hash it with
      | Some d, _ | None, Ok d => Some (File rel (st_mode s) (st_size s) d)
      | None, Err _ => None
      end
  | _, Some (MOther, _) => None
  end.

Lemma candidate_entry ix it c :
  candidate_of ix it = Ok c -> c ≫= cand_entry = entry_of ix it.
Proof.
unfold candidate_of, entry_of, manifest_relative_path. destruct (wi_rel it) as [|b rel] eqn:Er.
- rewrite bool_decide_eq_true_2 by done. by intros [= <-].
- rewrite bool_decide_eq_false_2 by done. destruct (wi_meta it) as [[k s]|]; [|by intros [= <-]].
  destruct (utf8_valid (b :: rel)) eqn:Eu; [|done]. cbv [mbind Result_mbind].
  destruct k.
  + destruct (wi_target it) as [t|e]; [|done]. case_match; [|done]. by intros [= <-].
  + destruct (wi_empty it) as [[]|]; by intros [= <-].
  + intros [= <-]. cbn [mbind option_bind cand_entry c_kind file_digest c_cached c_hash c_rel c_stat].
    unfold cand_entry, file_digest. cbn [c_kind c_cached c_hash c_rel c_stat].
    destruct (cached_digest ix (b :: rel) s); [done|]. by destruct (wi_hash it).
  + by intros [= <-].
Qed.

Lemma collect_entries ix items cs :
  collect ix items = Ok cs -> omap cand_entry cs = omap (entry_of ix) items.
Proof.
revert cs. induction items as [|it items IH]; intros cs; cbn [collect].
- by intros [= <-].
- cbv [mbind Result_mbind]. destruct (candidate_of ix it) as [c|e] eqn:Ec; [|done].
  destruct (collect ix items) as [cs'|e]; [|done]. intros [= <-].
  pose proof (candidate_entry ix it c Ec) as He. csimpl. rewrite <- He, <- (IH cs' eq_refl).
  by destruct c.
Qed.

Lemma build_entries cs ix total es :
  (build cs ix total es).2 = es ++ omap cand_entry cs.
Proof.
revert ix total es. induction cs as [|c cs IH]; intros ix total es; cbn [build]; csimpl.
- by rewrite app_nil_r.
- unfold cand_entry at 1. destruct (c_kind c); [|by rewrite IH, <- app_assoc..].
  destruct (file_digest c) as [d|]; simpl; [by rewrite IH, <- app_assoc|by rewrite IH].
Qed.

Lemma cand_entry_path c e : cand_entry c = Some e -> entry_path e = c_rel c.
Proof.
unfold cand_entry. destruct (c_kind c); [|by intros [= <-]..].
destruct (file_digest c); [|done]. by intros [= <-].
Qed.

Lemma omap_sorted (cs : list WalkCandidate) :
  StronglySorted (fun a b => bytes_le (c_rel a) (c_rel b)) cs ->
  StronglySorted bytes_le (entry_path <$> omap cand_entry cs).
Proof.
induction 1 as [|c cs Hs IH Hc]; csimpl; [constructor|].
destruct (cand_entry c) as [e|] eqn:E; [|done]. csimpl. constructor; [done|].
apply Forall_forall. intros p Hp. apply list_elem_of_fmap in Hp as (e' & -> & He').
apply list_elem_of_omap in He' as (c' & Hc' & E'). rewrite Forall_forall in Hc.
rewrite (cand_entry_path _ _ E), (cand_entry_path _ _ E'). auto.
Qed.

(** The paths of the items that contribute an entry. *)
Lemma entry_of_path ix it e : entry_of ix it = Some e -> entry_path e = wi_rel it.
Proof.
unfold entry_of. intros H. repeat (case_match; simplify_eq); done.
Qed.

Lemma bytes_le_NoDup_lt l : StronglySorted bytes_le l -> NoDup l -> StronglySorted bytes_lt l.
Proof.
induction 1 as [|p l Hs IH Hp]; [constructor|]. intros [Hn Hnd]%NoDup_cons. constructor; [auto|].
apply Forall_forall. intros q Hq. rewrite Forall_forall in Hp.
destruct (proj1 (bytes_le_lt_eq p q) (Hp q Hq)) as [| ->]; [done|contradiction].
Qed.

Lemma omap_entry_NoDup ix items :
  NoDup (wi_rel <$> items) -> NoDup (entry_path <$> omap (entry_of ix) items).
Proof.
induction items as [|it items IH]; csimpl; [constructor|]. intros [Hn Hnd]%NoDup_cons.
destruct (entry_of ix it) as [e|] eqn:E; [|auto]. csimpl. constructor; [|auto].
rewrite (entry_of_path _ _ _ E). intros (e' & He' & Hin)%list_elem_of_fmap.
apply list_elem_of_omap in Hin as (it' & Hit' & E'). apply Hn.
apply list_elem_of_fmap. exists it'. split; [|done]. rewrite He'. by apply entry_of_path in E'.
Qed.

Lemma scan_entries items ix save rep ix' :
  scan items ix save = Ok (rep, ix') ->
  entries (wr_manifest rep) ≡ₚ omap (entry_of ix) items /\
  StronglySorted bytes_le (entry_path <$> entries (wr_manifest rep)).
Proof.
unfold scan. cbv [mbind Result_mbind]. destruct (collect ix items) as [cs|e] eqn:Ec; [|done].
pose proof (build_entries (sort_candidates cs) ix 0 []) as Hb.
destruct (build (sort_candidates cs) ix 0 []) as [[ix1 total] es].
destruct (save ix1); [|done]. intros [= <- _]. simpl in Hb |- *. subst es.
split; [|apply omap_sorted, (sort_by_key_sorted c_rel)].
rewrite <- (collect_entries _ _ _ Ec). unfold sort_candidates. by rewrite sort_by_perm.
Qed.

(** The scan records the walk.  When it succeeds, the manifest's entries are
    exactly what each item of the walk contributes (a file with its stat fields and
    cached or fresh digest, a symlink with its target, an empty or unreadable
    directory), in byte order of their paths, strictly so when the walk yields each
    path once: the form [encode] and the diff require. *)
Theorem scan_records_walk items ix save rep ix' :
  scan items ix save = Ok (rep, ix') ->
  entries (wr_manifest rep) ≡ₚ omap (entry_of ix) items /\
  (NoDup (wi_rel <$> items) -> path_sorted (entries (wr_manifest rep))).
Proof.
intros H. apply scan_entries in H as [Hp Hs]. split; [done|]. intros Hnd.
apply bytes_le_NoDup_lt; [exact Hs|]. unfold paths. rewrite Hp. by apply omap_entry_NoDup.
Qed.

(** * The racily-clean rule *)

(** What the cache relies on: a file whose size, mtime and inode are the recorded
    ones still has the recorded content, unless it was modified at or after the
    moment the index was saved (the modification may then share the timestamp). *)
Definition stamps_tell (ix : Index) (items : list walk_item) : Prop :=
  forall it s ie, it ∈ items -> wi_meta it = Some (MFile, s) -> index_get ix (wi_rel it) = Some ie ->
    ie_size ie = st_size s -> ie_mtime_ns ie = st_mtime_ns s -> ie_ino ie = st_ino s ->
    wi_hash it = Ok (ie_digest ie) \/ (saved_at_ns ix <= st_mtime_ns s)%Z.

Lemma cached_digest_true ix items it s d :
  stamps_tell ix items -> it ∈ items -> wi_meta it = Some (MFile, s) ->
  cached_digest ix (wi_rel it) s = Some d -> wi_hash it = Ok d.
Proof.
intros Ht Hin Hm. unfold cached_digest. rewrite bind_Some. intros (ie & Hie & H).
case_match eqn:E; [|done]. injection H as <-.
rewrite !andb_true_iff, !bool_decide_eq_true in E. destruct E as (((E1 & E2) & E3) & E4).
destruct (Ht it s ie) as [|Hle]; try done. lia.
Qed.

Lemma entry_of_digest ix items it p m z d :
  stamps_tell ix items -> it ∈ items -> entry_of ix it = Some (File p m z d) ->
  wi_rel it = p /\ wi_hash it = Ok d /\ exists s, wi_meta it = Some (MFile, s) /\ st_mode s = m /\ st_size s = z.
Proof.
intros Ht Hin. unfold entry_of. destruct (wi_rel it) as [|b rel] eqn:Er; [by destruct (wi_meta it) as [[[]]|]|].
destruct (wi_meta it) as [[k s]|] eqn:Em; [|done]. destruct k; try done.
- by destruct (wi_target it).
- by destruct (default true (wi_empty it)).
- destruct (cached_digest ix (b :: rel) s) as [d'|] eqn:Ec.
  + intros [= <- <- <- <-]. rewrite <- Er in Ec. rewrite (cached_digest_true _ _ _ _ _ Ht Hin Em Ec). eauto 10.
  + destruct (wi_hash it); [|done]. intros [= <- <- <- <-]. eauto 10.
Qed.

(** What the index says after the manifest loop about the paths it wrote. *)
Lemma build_index cs ix total es :
  index_wf ix ->
  let ix' := (build cs ix total es).1.1 in
  index_wf ix' /\ saved_at_ns ix' = saved_at_ns ix /\
  (forall p, (forall c, c ∈ cs -> c_rel c <> p) -> index_get ix' p = index_get ix p) /\
  (NoDup (c_rel <$> cs) -> forall c d, c ∈ cs -> c_kind c = CFile -> file_digest c = Some d ->
    index_get ix' (c_rel c) =
      Some (mkIndexEntry 0 (st_mode (c_stat c)) (st_size (c_stat c)) (st_mtime_ns (c_stat c))
              (st_ino (c_stat c)) d (c_rel c))).
Proof.
revert ix total es. induction cs as [|c cs IH]; intros ix total es Hwf; cbn [build].
- split; [done|]. split; [done|]. split; [done|]. intros _ c d Hc. by apply not_elem_of_nil in Hc.
- assert (forall ix1 total1 es1,
    index_wf ix1 -> saved_at_ns ix1 = saved_at_ns ix ->
    (forall p, p <> c_rel c -> index_get ix1 p = index_get ix p) ->
    (c_kind c = CFile -> forall d, file_digest c = Some d -> index_get ix1 (c_rel c) =
      Some (mkIndexEntry 0 (st_mode (c_stat c)) (st_size (c_stat c)) (st_mtime_ns (c_stat c))
              (st_ino (c_stat c)) d (c_rel c))) ->
    let ix' := (build cs ix1 total1 es1).1.1 in
    index_wf ix' /\ saved_at_ns ix' = saved_at_ns ix /\
    (forall p, (forall c', c' ∈ c :: cs -> c_rel c' <> p) -> index_get ix' p = index_get ix p) /\
    (NoDup (c_rel <$> c :: cs) -> forall c' d, c' ∈ c :: cs -> c_kind c' = CFile -> file_digest c' = Some d ->
      index_get ix' (c_rel c') =
        Some (mkIndexEntry 0 (st_mode (c_stat c')) (st_size (c_stat c')) (st_mtime_ns (c_stat c'))
                (st_ino (c_stat c')) d (c_rel c')))) as Hgo.
  { intros ix1 total1 es1 Hwf1 Hs1 Hp1 Hc1. destruct (IH ix1 total1 es1 Hwf1) as (H1 & H2 & H3 & H4).
    split; [done|]. split; [by rewrite H2|]. split.
    - intros p Hp. rewrite H3 by set_solver. apply Hp1. intros ->. by apply (Hp c); [set_solver|].
    - csimpl. intros [Hn Hnd]%NoDup_cons c' d [->|Hc']%elem_of_cons Hk Hd; [|by apply H4].
      rewrite H3; [by apply Hc1|]. intros c'' Hc'' E. apply Hn. rewrite <- E. by apply list_elem_of_fmap_2. }
  destruct (c_kind c) eqn:Ek; [|by apply Hgo; try done; congruence..].
  destruct (file_digest c) as [d|] eqn:Ed; [|by apply Hgo; try done; congruence].
  apply Hgo; [by apply upsert_wf| | |].
  + unfold upsert. by case_match.
  + intros p Hp. rewrite upsert_get by done. by rewrite decide_False.
  + intros _ d' [= ->]. rewrite upsert_get by done. by rewrite decide_True.
Qed.

Lemma candidate_rel ix it c :
  candidate_of ix it = Ok (Some c) -> c_rel c = wi_rel it /\ c_hash c = wi_hash it /\
    (c_kind c = CFile -> wi_meta it = Some (MFile, c_stat c)) /\
    (forall s, wi_meta it = Some (MFile, s) -> c_kind c = CFile /\ c_stat c = s) /\
    (c_kind c = CFile -> c_cached c = cached_digest ix (wi_rel it) (c_stat c)).
Proof.
unfold candidate_of, manifest_relative_path. case_bool_decide; [done|].
destruct (wi_meta it) as [[k s]|]; [|done]. destruct (utf8_valid (wi_rel it)); [|done].
cbv [mbind Result_mbind]. destruct k.
- destruct (wi_target it) as [t|]; [|done]. destruct (utf8_valid t); [|done]. intros [= <-]. simpl. naive_solver.
- destruct (wi_empty it) as [[]|]; try done; intros [= <-]; simpl; naive_solver.
- intros [= <-]. simpl. naive_solver.
- done.
Qed.

Lemma collect_cands ix items cs c :
  collect ix items = Ok cs ->
  c ∈ cs <-> exists it, it ∈ items /\ candidate_of ix it = Ok (Some c).
Proof.
revert cs. induction items as [|it items IH]; intros cs; cbn [collect].
- intros [= <-]. set_solver.
- cbv [mbind Result_mbind]. destruct (candidate_of ix it) as [o|e] eqn:Ec; [|done].
  destruct (collect ix items) as [cs'|e]; [|done]. intros [= <-]. specialize (IH cs' eq_refl).
  setoid_rewrite elem_of_cons. destruct o as [c0|].
  + rewrite elem_of_cons, IH. split.
    * intros [->|(it' & H1 & H2)]; eauto.
    * intros (it' & [->|H1] & H2); [left; congruence|eauto].
  + rewrite IH. split; [naive_solver|]. intros (it' & [->|H1] & H2); [congruence|eauto].
Qed.

Lemma collect_NoDup ix items cs :
  collect ix items = Ok cs -> NoDup (wi_rel <$> items) -> NoDup (c_rel <$> cs).
Proof.
revert cs. induction items as [|it items IH]; intros cs; cbn [collect].
- intros [= <-] _. constructor.
- cbv [mbind Result_mbind]. destruct (candidate_of ix it) as [o|e] eqn:Ec; [|done].
  destruct (collect ix items) as [cs'|e] eqn:Ecs; [|done]. intros [= <-]. csimpl. intros [Hn Hnd]%NoDup_cons.
  destruct o as [c|]; [|by apply IH]. csimpl. constructor; [|by apply IH].
  apply candidate_rel in Ec as [-> _]. intros (c' & E & Hc')%list_elem_of_fmap.
  apply (collect_cands _ _ _ _ Ecs) in Hc' as (it' & Hit' & H'). apply candidate_rel in H' as [E' _].
  apply Hn. apply list_elem_of_fmap. exists it'. split; [congruence|done].
Qed.

(** Digests in a scanned manifest are digests of the files.  If timestamps tell
    modifications apart up to the moment of the save, then every file entry carries
    the digest of that file's present content, whether it was hashed now or taken
    from the index; and the updated index records each of them with its present
    stat fields, so that the next scan may rely on it. *)
Theorem scan_digests_true items ix save rep ix' :
  index_wf ix -> NoDup (wi_rel <$> items) -> stamps_tell ix items ->
  scan items ix save = Ok (rep, ix') ->
  forall p m z d, File p m z d ∈ entries (wr_manifest rep) ->
  exists it s, it ∈ items /\ wi_rel it = p /\ wi_meta it = Some (MFile, s) /\ wi_hash it = Ok d /\
    index_get ix' p = Some (mkIndexEntry 0 m z (st_mtime_ns s) (st_ino s) d p).
Proof.
intros Hwf Hnd Ht Hs p m z d Hin. pose proof (scan_entries _ _ _ _ _ Hs) as [Hp _].
rewrite Hp in Hin. apply list_elem_of_omap in Hin as (it & Hit & He).
destruct (entry_of_digest _ _ _ _ _ _ _ Ht Hit He) as (Hrel & Hh & s & Hm & Hmode & Hsize).
exists it, s. split; [done|]. split; [done|]. split; [done|]. split; [done|].
unfold scan in Hs. cbv [mbind Result_mbind] in Hs. destruct (collect ix items) as [cs|e] eqn:Ec; [|done].
pose proof (build_index (sort_candidates cs) ix 0 [] Hwf) as (_ & _ & _ & Hix).
destruct (build (sort_candidates cs) ix 0 []) as [[ix1 total] es]. destruct (save ix1); [|done].
injection Hs as _ <-. cbn [fst] in Hix.
assert (sort_candidates cs ≡ₚ cs) as Hperm by apply sort_by_perm.
assert (exists c, candidate_of ix it = Ok (Some c)) as [c Hc].
{ assert (forall its cs', collect ix its = Ok cs' -> it ∈ its -> exists o, candidate_of ix it = Ok o) as Hex.
  { induction its as [|it' its IH]; intros cs' Hcs' Hi; [by apply not_elem_of_nil in Hi|].
    cbn [collect] in Hcs'. cbv [mbind Result_mbind] in Hcs'.
    destruct (candidate_of ix it') as [o|] eqn:Eo; [|done]. destruct (collect ix its) eqn:Ecs'; [|done].
    apply elem_of_cons in Hi as [->|Hi]; [eauto|by eapply IH]. }
  destruct (Hex items cs Ec Hit) as [[c|] Ho]; [eauto|]. apply candidate_entry in Ho. rewrite He in Ho. done. }
pose proof (candidate_rel _ _ _ Hc) as (Hcr & Hch & _ & Hck & Hcc).
destruct (Hck s Hm) as [Hkind Hstat]. pose proof (candidate_entry _ _ _ Hc) as Hce. rewrite He in Hce.
cbn [mbind option_bind] in Hce. unfold cand_entry in Hce. rewrite Hkind in Hce.
destruct (file_digest c) as [d'|] eqn:Hfd; [|done]. injection Hce as _ _ _ ->.
rewrite <- Hrel, <- Hcr, <- Hmode, <- Hsize, <- Hstat. apply Hix; [| |done|done].
- rewrite Hperm. by eapply collect_NoDup.
- rewrite Hperm. apply (collect_cands _ _ _ _ Ec). eauto.
Qed.

(** * Concrete scans *)

Definition demo_stat (mtime ino size : Z) : stat := mkStat mtime ino size 420.
Definition demo_file (rel : bytes) (s : stat) (h : Result digest) : walk_item :=
  mkWalkItem rel (Some (MFile, s)) (Err (Io OtherKind)) None h.

(** The index knows both files; [a.txt] has its recorded stamp and is trusted,
    [b.txt] was written again in the nanosecond the index was saved. *)
Definition demo_saved : Index :=
  mkIndex 2000 (ix_entries demo_index) (by_path demo_index).
Definition demo_items : list walk_item :=
  [mkWalkItem [] (Some (MDir, demo_stat 1 1 0)) (Err (Io OtherKind)) (Some false) (Err (Io OtherKind));
   demo_file (str "b.txt") (demo_stat 2000 7 6) (Ok (replicate 32 x05));
   demo_file (str "a.txt") (demo_stat 1001 8 9) (Ok (replicate 32 x02))].

Lemma demo_saved_wf : index_wf demo_saved.
Proof. assert (index_wf demo_index) as H; [repeat apply upsert_wf; apply index_empty_wf|exact H]. Qed.

Lemma demo_stamps_tell : stamps_tell demo_saved demo_items.
Proof.
intros it s ie Hit Hm Hg. unfold demo_items in Hit. rewrite !elem_of_cons in Hit.
destruct Hit as [->|[->|[->|[]%not_elem_of_nil]]]; simplify_eq/=.
- right. done.
- left. vm_compute in Hg. injection Hg as <-. reflexivity.
Qed.

Definition demo_report : WalkReport :=
  mkWalkReport (mkManifest 1 15 [File (str "a.txt") 420 9 (replicate 32 x02); File (str "b.txt") 420 6 (replicate 32 x05)]) 1 1.

Lemma demo_scan : exists ix', scan demo_items demo_saved (fun _ => Ok tt) = Ok (demo_report, ix').
Proof. eexists. vm_compute. reflexivity. Qed.

Lemma demo_items_NoDup : NoDup (wi_rel <$> demo_items).
Proof. apply (bool_decide_eq_true_1 _). vm_compute. reflexivity. Qed.

Lemma scan_records_walk_witness :
  path_sorted (entries (wr_manifest demo_report)).
Proof.
destruct demo_scan as [ix' E]. apply (scan_records_walk _ _ _ _ _ E). apply demo_items_NoDup.
Defined.

Lemma scan_digests_true_witness :
  exists ix', scan demo_items demo_saved (fun _ => Ok tt) = Ok (demo_report, ix') /\
    index_get ix' (str "b.txt") = Some (mkIndexEntry 0 420 6 2000 7 (replicate 32 x05) (str "b.txt")).
Proof.
destruct demo_scan as [ix' E]. exists ix'. split; [exact E|].
destruct (scan_digests_true _ _ _ _ _ demo_saved_wf demo_items_NoDup demo_stamps_tell E
  (str "b.txt") 420 6 (replicate 32 x05)) as (it & s & Hit & Hr & Hm & _ & Hix).
{ apply (bool_decide_eq_true_1 _). vm_compute. reflexivity. }
unfold demo_items in Hit. rewrite !elem_of_cons in Hit.
destruct Hit as [->|[->|[->|[]%not_elem_of_nil]]]; simplify_eq/=. exact Hix.
Defined.

(** A file that cannot be hashed vanishes from the manifest.  Whatever the walk
    yields, a regular file the index does not vouch for and whose hashing fails
    leaves no entry, and the scan still succeeds: the caller is not told. *)
Theorem scan_drops_unhashable items ix save rep ix' it s e :
  it ∈ items -> NoDup (wi_rel <$> items) ->
  wi_meta it = Some (MFile, s) -> cached_digest ix (wi_rel it) s = None -> wi_hash it = Err e ->
  scan items ix save = Ok (rep, ix') ->
  wi_rel it ∉ paths (entries (wr_manifest rep)).
Proof.
intros Hit Hnd Hm Hc Hh Hs. apply scan_entries in Hs as [Hp _]. unfold paths. rewrite Hp.
intros (e' & He' & Hin)%list_elem_of_fmap. apply list_elem_of_omap in Hin as (it' & Hit' & E').
assert (it' = it) as ->.
{ apply entry_of_path in E' as Hpath. rewrite He' in *.
  apply list_elem_of_lookup in Hit as [i Hi], Hit' as [j Hj].
  assert (i = j) as ->; [|congruence].
  eapply (NoDup_lookup _ _ _ (wi_rel it) Hnd); rewrite list_lookup_fmap; [by rewrite Hi|rewrite Hj; simpl; congruence]. }
unfold entry_of in E'. destruct (wi_rel it) as [|b rel] eqn:Er.
- by destruct (wi_meta it) as [[[]]|].
- rewrite Hm, Hc, Hh in E'. done.
Qed.

Lemma scan_drops_unhashable_witness :
  exists rep ix', scan [demo_file (str "secret") (demo_stat 5 5 5) (Err (Io OtherKind))] index_empty (fun _ => Ok tt)
    = Ok (rep, ix') /\ str "secret" ∉ paths (entries (wr_manifest rep)).
Proof.
eexists _, _. split; [vm_compute; reflexivity|].
eapply (scan_drops_unhashable [demo_file (str "secret") (demo_stat 5 5 5) (Err (Io OtherKind))] index_empty
  (fun _ => Ok tt) _ _ (demo_file (str "secret") (demo_stat 5 5 5) (Err (Io OtherKind))) (demo_stat 5 5 5) (Io OtherKind)).
- apply list_elem_of_singleton. reflexivity.
- apply (bool_decide_eq_true_1 _). vm_compute. reflexivity.
- reflexivity.
- reflexivity.
- reflexivity.
- vm_compute. reflexivity.
Defined.
