(* ===== verification/Hydrate.v ===== *)
(** Materialising a ref into a directory
    (crates/lightr-index/src/index/hydrate.rs).  The parallel iteration over the
    files is modelled in manifest order: each step writes its own file. *)

From S2P Require Import Prelude Error Cursor Digest Manifest RefRecord Fs FsFacts OwnedTemp Calm Cas Layout Refs.

(** * Manifest paths *)

(** [s.split('/')]. *)
Fixpoint split_slash (acc s : bytes) : list bytes :=
  match s with
  | [] => [reverse acc]
  | b :: s => if bool_decide (b = x2f) then reverse acc :: split_slash [] s else split_slash (b :: acc) s
  end.

(** [Path::components]: empty components and [.] are dropped. *)
Definition components (s : bytes) : path :=
  List.filter (fun c => negb (bool_decide (c = [])) && negb (bool_decide (c = str "."))) (split_slash [] s).

Definition is_absolute (s : bytes) : bool :=
  match s with b :: _ => bool_decide (b = x2f) | [] => false end.

(** [base.join(rel)]: an absolute [rel] replaces [base]. *)
Definition join (base : path) (rel : bytes) : path :=
  if is_absolute rel then components rel else base ++ components rel.

(** * hydrate *)

Record HydrateReport := mkHydrateReport {
  hr_root : digest;
  hr_files : Z;
  hr_bytes_total : Z;
  hr_rung : CowRung;
}.

Definition is_file_entry (e : Entry) : bool := match e with File _ _ _ _ => true | _ => false end.
Definition is_symlink_entry (e : Entry) : bool := match e with Symlink _ _ => true | _ => false end.

Section hydrate.
Context `{B3 : Blake3} (root : path) (rung : CowRung).

(** The destination must not exist or be an empty directory. *)
Definition check_dest (dest : path) : IO unit :=
  e ← exists_ dest;
  if (e : bool) then
    r ← try_ (read_dir dest);
    if match r with Ok names => bool_decide (names = []) | Err _ => false end then mret tt
    else throw (Io AlreadyExists)
  else mret tt.

(** Explicit directories, and the parents of files and links. *)
Definition make_dirs (dest : path) (e : Entry) : IO unit :=
  match e with
  | Dir p => create_dir_all (join dest p)
  | File p _ _ _ | Symlink p _ =>
      if bool_decide (length (components p) <= 1) then mret tt
      else create_dir_all (parent_path (join dest p))
  end.

Definition put_file_entry (verify : bool) (dest : path) (e : Entry) : IO unit :=
  match e with
  | File p mode _ d =>
      _ ← (if verify then _ ← get_bytes root d; mret tt else mret tt);
      materialize_file root d (join dest p) mode rung
  | _ => mret tt
  end.

Definition put_symlink (dest : path) (e : Entry) : IO unit :=
  match e with
  | Symlink p target => symlink target (join dest p)
  | _ => mret tt
  end.

Definition hydrate_impl (dest : path) (name : bytes) (verify : bool) : IO HydrateReport :=
  o ← ref_get root name;
  rec ← lift (ok_or o (RefNotFound name));
  manifest_bytes ← get_bytes root (RefRecord.root rec);
  m ← lift (Manifest.decode manifest_bytes);
  _ ← check_dest dest;
  _ ← create_dir_all dest;
  _ ← for_each (entries m) (make_dirs dest);
  let file_entries := List.filter is_file_entry (entries m) in
  _ ← for_each file_entries (put_file_entry verify dest);
  _ ← for_each (List.filter is_symlink_entry (entries m)) (put_symlink dest);
  mret (mkHydrateReport (RefRecord.root rec) (Z.of_nat (length file_entries)) (total_size m) rung).

Definition hydrate (dest : path) (name : bytes) : IO HydrateReport := hydrate_impl dest name false.
Definition hydrate_verified (dest : path) (name : bytes) : IO HydrateReport := hydrate_impl dest name true.

End hydrate.

(** * Trees *)

Definition leaf (e : Entry) : bool := match e with Dir _ => false | _ => true end.

(** Relative paths, at least one component, and nothing below a file or link. *)
Record tree_ok (es : list Entry) : Prop := {
  tree_rel : forall e, e ∈ es -> is_absolute (entry_path e) = false /\ components (entry_path e) <> [];
  tree_nodup : NoDup es;
  tree_leaf : forall ei ej, ei ∈ es -> ej ∈ es -> leaf ei = true ->
    components (entry_path ei) `prefix_of` components (entry_path ej) -> ei = ej;
}.

(** Where an entry goes, and the directory made for it. *)
Definition place (dest : path) (e : Entry) : path := dest ++ components (entry_path e).
Definition dir_for (dest : path) (e : Entry) : path :=
  if leaf e then parent_path (place dest e) else place dest e.

Lemma join_place dest e : is_absolute (entry_path e) = false -> join dest (entry_path e) = place dest e.
Proof. intros H. unfold join. by rewrite H. Qed.

Lemma place_parent dest e :
  components (entry_path e) <> [] -> parent_path (place dest e) = dest ++ removelast (components (entry_path e)).
Proof.
unfold place. destruct (components (entry_path e)) as [|c l _] using rev_ind; [done|].
intros _. rewrite app_assoc, parent_snoc. by rewrite removelast_last.
Qed.

(** * Making the directories *)

Lemma add_dirs_wf p fs : fs_wf fs -> dirs_ok p fs -> fs_wf (add_dirs p fs).
Proof.
intros Hwf Hok. split.
- rewrite add_dirs_lookup by done. by rewrite decide_True by apply prefix_nil.
- intros q c n. rewrite !add_dirs_lookup by done. case_decide as H1.
  + intros _. rewrite decide_True; [done|]. etrans; [|exact H1]. by apply prefix_app_r.
  + intros H2%Hwf. by case_decide.
Qed.

(** The tree with every prefix of some member of [ds] a directory. *)
Definition with_dirs (ds : list path) (fs fs' : gmap path node) : Prop :=
  forall q, fs' !! q = if decide (Exists (fun d => q `prefix_of` d) ds) then Some NDir else fs !! q.

Lemma with_dirs_dir ds fs fs' d : with_dirs ds fs fs' -> d ∈ ds -> fs' !! d = Some NDir.
Proof.
intros H Hd. rewrite H, decide_True; [done|]. apply Exists_exists. by exists d.
Qed.

Lemma does_add_dirs {A : Type} (l : list A) (f : A -> IO unit) (g : A -> path) base ds fs0 fs :
  fs_wf fs -> with_dirs ds fs0 fs -> base ∈ ds ->
  (forall a, a ∈ l -> dirs_ok (g a) fs0) ->
  (forall a fs', a ∈ l -> fs_wf fs' -> dirs_ok (g a) fs' -> fs' !! base = Some NDir ->
    does (f a) fs' (Ok tt) (add_dirs (g a) fs')) ->
  exists fs', does (for_each l f) fs (Ok tt) fs' /\ fs_wf fs' /\ with_dirs (ds ++ (g <$> l)) fs0 fs'.
Proof.
revert ds fs. induction l as [|a l IH]; intros ds fs Hwf Hd Hb Hok Hf.
- exists fs. split; [apply does_ret|]. split; [done|]. by rewrite app_nil_r.
- assert (dirs_ok (g a) fs) as Hga.
  { intros q Hq. rewrite Hd. case_decide; [by right|]. apply (Hok a); [set_solver|done]. }
  destruct (IH (ds ++ [g a]) (add_dirs (g a) fs)) as (fs' & D & Hwf' & Hd').
  + by apply add_dirs_wf.
  + intros q. rewrite add_dirs_lookup by done. rewrite Hd.
    assert (Exists (fun d => q `prefix_of` d) (ds ++ [g a]) <->
      Exists (fun d => q `prefix_of` d) ds \/ q `prefix_of` g a) as Hx
      by (rewrite Exists_app, Exists_cons, Exists_nil; tauto).
    repeat case_decide; first [done|tauto].
  + set_solver.
  + set_solver.
  + set_solver.
  + exists fs'. split; [|split; [done|]].
    * simpl. eapply does_bind; [apply Hf; [set_solver|done|done|by eapply with_dirs_dir]|exact D].
    * by rewrite <- app_assoc in Hd'.
Qed.

(** A destination that is free, or an empty directory. *)
Record dest_free (dest : path) (fs : gmap path node) : Prop := {
  free_dirs : dirs_ok dest fs;
  free_below : forall q, q <> [] -> fs !! (dest ++ q) = None;
}.

Lemma dest_free_dirs_ok dest fs q : dest_free dest fs -> dirs_ok (dest ++ q) fs.
Proof.
intros Hf p Hp. apply prefix_root_cases in Hp as [Hp|(q' & -> & _)]; [by apply (free_dirs _ _ Hf)|].
destruct q' as [|c q']; [rewrite app_nil_r; by apply (free_dirs _ _ Hf)|].
left. by apply (free_below _ _ Hf).
Qed.

Lemma does_check_dest dest fs : dest_free dest fs -> does (check_dest dest) fs (Ok tt) fs.
Proof.
intros Hf. unfold check_dest. eapply does_bind; [apply does_exists|]. cbv beta. unfold node_exists.
destruct (free_dirs _ _ Hf dest) as [E|E]; [done|rewrite E; apply does_ret|]. rewrite E.
eapply does_bind; [by apply does_try, does_read_dir|]. cbv beta iota.
rewrite bool_decide_eq_true_2; [apply does_ret|].
destruct (children fs dest) as [|c l] eqn:Ec; [done|].
assert (c ∈ children fs dest) as [n Hn]%elem_of_children by (rewrite Ec; set_solver).
by rewrite (free_below _ _ Hf) in Hn.
Qed.

(** Directories of the whole manifest. *)
Lemma does_make_all_dirs dest es fs :
  fs_wf fs -> dest_free dest fs -> tree_ok es ->
  exists fs1, does (_ ← create_dir_all dest; for_each es (make_dirs dest)) fs (Ok tt) fs1 /\
    fs_wf fs1 /\ with_dirs (dest :: (dir_for dest <$> es)) fs fs1.
Proof.
intros Hwf Hfree Ht. pose proof (free_dirs _ _ Hfree) as Hok.
destruct (does_add_dirs es (make_dirs dest) (dir_for dest) dest [dest] fs (add_dirs dest fs))
  as (fs1 & D & Hwf1 & Hd1).
- by apply add_dirs_wf.
- intros q. rewrite add_dirs_lookup by done. repeat case_decide; rewrite ?Exists_cons, ?Exists_nil in *; tauto.
- set_solver.
- intros e He. destruct (tree_rel _ Ht e He) as [_ Hne]. unfold dir_for.
  case_match; [rewrite place_parent by done|]; by apply dest_free_dirs_ok.
- intros e fs' He Hwf' Hok' Hb. destruct (tree_rel _ Ht e He) as [Habs Hne].
  unfold make_dirs, dir_for in *. pose proof (join_place dest e Habs) as Hj. destruct e; cbn [leaf entry_path] in *;
    rewrite ?Hj; [| |by apply does_create_dir_all].
  all: case_bool_decide as Hlen; [|by apply does_create_dir_all].
  all: rewrite place_parent by done; cbn [entry_path];
    assert (removelast (components path) = []) as -> by (destruct (components path) as [|? []]; simpl in *; [done..|lia]);
    rewrite app_nil_r, add_dirs_id by done; apply does_ret.
- exists fs1. split; [|split; [done|exact Hd1]].
  eapply does_bind; [by apply does_create_dir_all|exact D].
Qed.

(** * Writing the leaves *)

Section leaves.
Context (dest : path) (node_of : Entry -> node).

Definition insert_leaves (l : list Entry) (fs : gmap path node) : gmap path node :=
  foldl (fun fs e => <[place dest e := node_of e]> fs) fs l.

(** No leaf is at or above another. *)
Definition separate (l : list Entry) : Prop :=
  NoDup l /\ forall ei ej, ei ∈ l -> ej ∈ l -> place dest ei `prefix_of` place dest ej -> ei = ej.

Lemma separate_cons e l : separate (e :: l) ->
  separate l /\ (forall e', e' ∈ l -> ~ place dest e `prefix_of` place dest e' /\ ~ place dest e' `prefix_of` place dest e).
Proof.
intros [[Hn Hnd]%NoDup_cons H]. split.
- split; [done|]. intros ei ej Hi Hj. apply H; by constructor.
- intros e' He'. split; intros Hp; apply H in Hp; try (by constructor); by subst.
Qed.

Lemma does_put_leaves l f fs :
  fs_wf fs -> separate l ->
  (forall e, e ∈ l -> fs !! place dest e = None /\ fs !! parent_path (place dest e) = Some NDir /\
    components (entry_path e) <> [] /\ node_of e <> NDir) ->
  (forall e fs', e ∈ l -> fs_wf fs' -> fs !! place dest e = None -> fs' !! place dest e = None ->
    fs' !! parent_path (place dest e) = Some NDir -> (forall p n, fs !! p = Some n -> fs' !! p = Some n) ->
    does (f e) fs' (Ok tt) (<[place dest e := node_of e]> fs')) ->
  does (for_each l f) fs (Ok tt) (insert_leaves l fs) /\ fs_wf (insert_leaves l fs) /\
  (forall e, e ∈ l -> insert_leaves l fs !! place dest e = Some (node_of e)) /\
  (forall q, (forall e, e ∈ l -> q <> place dest e) -> insert_leaves l fs !! q = fs !! q).
Proof.
revert fs. induction l as [|e l IH]; intros fs Hwf Hsep Hl Hf.
- split; [apply does_ret|]. split; [done|]. split; [|done]. intros e He. by apply not_elem_of_nil in He.
- destruct (separate_cons _ _ Hsep) as [Hsep' Hne]. destruct (Hl e) as (Hn & Hp & _ & Hk); [by constructor|].
  set (fs1 := <[place dest e := node_of e]> fs).
  assert (forall p n, fs !! p = Some n -> fs1 !! p = Some n) as Hmono
    by (intros p n Hpn; unfold fs1; rewrite lookup_insert_ne; [done|congruence]).
  assert (fs_wf fs1) as Hwf1 by (apply fs_wf_insert; [done|congruence|done]).
  destruct (IH fs1 Hwf1 Hsep') as (D & Hwf2 & Hin & Hout).
  + intros e' He'. destruct (Hl e') as (Hn' & Hp' & Hc' & Hk'); [by constructor|]. destruct (Hne e' He') as [H1 H2].
    split; [|split; [by apply Hmono|done]].
    unfold fs1. rewrite lookup_insert_ne; [done|]. intros E. apply H1. by rewrite E.
  + intros e' fs' He' Hwf' Hn1 Hn' Hp' Hm. apply Hf; [by constructor|done| |done|done|auto].
    destruct (fs !! place dest e') eqn:E; [|done]. apply Hmono in E. congruence.
  + split; [|split; [done|split]].
    * simpl. eapply does_bind; [apply Hf; [by constructor|done|done|done|done|done]|exact D].
    * intros e' [->|He']%elem_of_cons; [|by apply Hin]. simpl. fold fs1. rewrite Hout.
      -- unfold fs1. by rewrite lookup_insert_eq.
      -- intros e' He' E. destruct (Hne e' He') as [H1 _]. apply H1. by rewrite E.
    * intros q Hq. simpl. fold fs1. rewrite Hout by (intros e0 He0; apply Hq; by constructor). unfold fs1. apply lookup_insert_ne.
      intros E. by apply (Hq e); [by constructor|].
Qed.

End leaves.

(** * The whole hydration *)

Section hydrate_theorem.
Context `{B3 : Blake3} (root : path) (rung : CowRung).

(** The node an entry becomes, with the objects of [fs]. *)
Definition node_for (fs : gmap path node) (e : Entry) : node :=
  match e with
  | File _ mode _ d => NFile (default [] (pub fs (object_path root d))) mode
  | Symlink _ t => NSymlink t
  | Dir _ => NDir
  end.

(** What [hydrate] needs of the store: the ref, its manifest and its objects. *)
Record hydratable (fs : gmap path node) (name : bytes) (rec : RefRecord) (m : Manifest) : Prop := {
  hy_ready : store_ready root fs;
  hy_name : validate_ref_name name = Ok tt;
  hy_ref : pub fs (ref_path root (ref_key name)) = Some (RefRecord.encode rec);
  hy_rec : ref_record_wf rec;
  hy_manifest : pub fs (object_path root (RefRecord.root rec)) = Some (Manifest.encode m);
  hy_digest : of_bytes (Manifest.encode m) = RefRecord.root rec;
  hy_wf : manifest_wf m;
  hy_objects : forall p mode z d, File p mode z d ∈ entries m ->
    exists c, pub fs (object_path root d) = Some c /\ of_bytes c = d;
}.

(** The tree below [dest] is exactly that of the entries. *)
Definition materialised (fs : gmap path node) (dest : path) (es : list Entry) (fs' : gmap path node) : Prop :=
  (forall e, e ∈ es -> fs' !! place dest e = Some (node_for fs e)) /\
  (forall q n, q <> [] -> fs' !! (dest ++ q) = Some n ->
    exists e, e ∈ es /\ (q = components (entry_path e) \/ (n = NDir /\ q `prefix_of` components (entry_path e)))) /\
  (forall p, ~ p `prefix_of` dest -> ~ dest `prefix_of` p -> fs' !! p = fs !! p).

Lemma filter_separate dest es (f : Entry -> bool) :
  tree_ok es -> (forall e, f e = true -> leaf e = true) -> separate dest (List.filter f es).
Proof.
intros Ht Hf. split.
- apply NoDup_ListNoDup, List.NoDup_filter, NoDup_ListNoDup, Ht.
- intros ei ej Hi Hj. rewrite list_elem_of_In, filter_In, <- list_elem_of_In in Hi, Hj.
  destruct Hi as [Hi Hfi], Hj as [Hj _]. unfold place. intros Hp%prefix_app_inv.
  apply (tree_leaf _ Ht); auto.
Qed.

Lemma elem_of_Lfilter {A} (f : A -> bool) l x : x ∈ List.filter f l <-> x ∈ l /\ f x = true.
Proof. by rewrite list_elem_of_In, filter_In, <- list_elem_of_In. Qed.

(** A leaf's place is free after the directories are made. *)
Lemma leaf_place_free dest es fs fs1 e :
  dest_free dest fs -> tree_ok es -> with_dirs (dest :: (dir_for dest <$> es)) fs fs1 ->
  e ∈ es -> leaf e = true ->
  fs1 !! place dest e = None /\ fs1 !! parent_path (place dest e) = Some NDir.
Proof.
intros Hfree Ht Hd He Hl. destruct (tree_rel _ Ht e He) as [_ Hne]. split.
- rewrite Hd. case_decide as Hx; [exfalso|by apply (free_below _ _ Hfree)].
  apply Exists_cons in Hx as [Hx|Hx].
  + apply prefix_length in Hx. unfold place in Hx. rewrite length_app in Hx.
    destruct (components (entry_path e)); [done|simpl in Hx; lia].
  + apply Exists_exists in Hx as (d & (e' & -> & He')%list_elem_of_fmap & Hp).
    destruct (tree_rel _ Ht e' He') as [_ Hne']. unfold dir_for in Hp. destruct (leaf e') eqn:Hl'.
    * assert (place dest e `prefix_of` place dest e') as Hp2.
      { etrans; [exact Hp|]. rewrite place_parent by done. unfold place. apply prefix_app.
        destruct (components (entry_path e')) as [|c l _] using rev_ind; [done|].
        rewrite removelast_last. by apply prefix_app_r. }
      unfold place in Hp2. apply prefix_app_inv in Hp2.
      assert (e = e') as <- by (by apply (tree_leaf _ Ht)).
      rewrite place_parent in Hp by done. unfold place in Hp. apply prefix_app_inv, prefix_length in Hp.
      destruct (components (entry_path e)) as [|c l _] using rev_ind; [done|].
      rewrite removelast_last, length_app in Hp. simpl in Hp. lia.
    * unfold place in Hp. apply prefix_app_inv in Hp.
      assert (e = e') as <- by (by apply (tree_leaf _ Ht)). congruence.
- eapply with_dirs_dir; [exact Hd|]. apply elem_of_cons. right. apply list_elem_of_fmap.
  exists e. unfold dir_for. by rewrite Hl.
Qed.

Lemma node_for_ext fs fs' e :
  (forall d c, pub fs (object_path root d) = Some c -> pub fs' (object_path root d) = Some c) ->
  (forall p mode z d, e = File p mode z d -> is_Some (pub fs (object_path root d))) ->
  node_for fs' e = node_for fs e.
Proof.
intros H He. destruct e as [p mode z d| |]; [|done..]. simpl.
destruct (He p mode z d eq_refl) as [c Hc]. by rewrite Hc, (H d c Hc).
Qed.

(** Making directories keeps every other node. *)
Lemma with_dirs_keep dest es fs fs1 p n :
  dest_free dest fs -> tree_ok es -> with_dirs (dest :: (dir_for dest <$> es)) fs fs1 ->
  fs !! p = Some n -> n <> NDir -> fs1 !! p = Some n.
Proof.
intros Hfree Ht Hd Hp Hn. rewrite Hd. case_decide as Hx; [exfalso|done].
assert (fs !! p = None \/ fs !! p = Some NDir) as [E|E]; [|congruence..].
apply Exists_cons in Hx as [Hx|Hx]; [by apply (free_dirs _ _ Hfree)|].
apply Exists_exists in Hx as (d & (e & -> & He)%list_elem_of_fmap & Hpre).
destruct (tree_rel _ Ht e He) as [_ Hne].
assert (dirs_ok (dir_for dest e) fs) as Hok; [|by apply Hok].
unfold dir_for. case_match; [rewrite place_parent by done|]; by apply dest_free_dirs_ok.
Qed.

(** One file, when its object is in the store. *)
Lemma does_put_file_entry dest fs' verify p mode z d c m :
  is_absolute p = false -> fs_wf fs' -> fs' !! object_path root d = Some (NFile c m) -> of_bytes c = d ->
  fs' !! place dest (File p mode z d) = None ->
  fs' !! parent_path (place dest (File p mode z d)) = Some NDir ->
  does (put_file_entry root rung verify dest (File p mode z d)) fs' (Ok tt)
    (<[place dest (File p mode z d) := NFile c mode]> fs').
Proof.
intros Habs Hwf Ho Hh Hn Hp. cbn [put_file_entry].
pose proof (join_place dest (File p mode z d) Habs) as Hj. cbn [entry_path] in Hj. rewrite Hj.
assert (does (materialize_file root d (place dest (File p mode z d)) mode rung) fs' (Ok tt)
  (<[place dest (File p mode z d) := NFile c mode]> fs')) as Hmat by (by eapply does_materialize_file).
destruct verify; [|eapply does_bind; [apply does_ret|exact Hmat]].
eapply does_bind; [|exact Hmat]. eapply does_bind; [|apply does_ret].
apply does_get_file; [unfold file_at; by rewrite Ho|done].
Qed.

Section put_entries.
Context (dest : path) (es : list Entry) (fs fs1 : gmap path node).
Context (Hfree : dest_free dest fs) (Ht : tree_ok es) (Hr : tmp_path root = false) (Hwf1 : fs_wf fs1).
Context (Hd : with_dirs (dest :: (dir_for dest <$> es)) fs fs1).
Context (Hobj : forall p mode z d, File p mode z d ∈ es ->
  exists c, pub fs (object_path root d) = Some c /\ of_bytes c = d).

Let files := List.filter is_file_entry es.
Let links := List.filter is_symlink_entry es.
Let fs2 := insert_leaves dest (node_for fs) files fs1.

Lemma put_files verify :
  does (for_each files (put_file_entry root rung verify dest)) fs1 (Ok tt) fs2 /\ fs_wf fs2 /\
  (forall e, e ∈ files -> fs2 !! place dest e = Some (node_for fs e)) /\
  (forall q, (forall e, e ∈ files -> q <> place dest e) -> fs2 !! q = fs1 !! q).
Proof.
apply does_put_leaves; [done|apply filter_separate; [done|by intros []]| |].
- intros e [He Hf]%elem_of_Lfilter. destruct (leaf_place_free dest es fs fs1 e) as [H1 H2]; try done.
  { by destruct e. } split; [done|]. split; [done|]. split; [by apply (tree_rel _ Ht)|by destruct e].
- intros e fs' [He Hf]%elem_of_Lfilter Hwf' _ Hn Hp Hm. destruct e as [p mode z d| |]; [|done..].
  destruct (tree_rel _ Ht _ He) as [Habs _]. destruct (Hobj p mode z d He) as (c & Hc & Hh).
  cbn [node_for]. rewrite Hc. cbn [default]. rewrite pub_file_at in Hc by (by apply object_path_tmp).
  unfold file_at in Hc. destruct (fs !! object_path root d) as [[c0 m0| |]|] eqn:E; simplify_eq.
  eapply does_put_file_entry; [done|done| |done|done|done]. by apply Hm, (with_dirs_keep dest es fs).
Qed.

Lemma link_place_free e :
  e ∈ links -> fs2 !! place dest e = None /\ fs2 !! parent_path (place dest e) = Some NDir.
Proof.
intros [He Hs]%elem_of_Lfilter. destruct (put_files false) as (_ & _ & _ & Hout).
assert (leaf e = true) as Hl by (by destruct e).
destruct (leaf_place_free dest es fs fs1 e) as [H1 H2]; try done. rewrite !Hout; [done| |].
- intros e' [He' Hf']%elem_of_Lfilter E. rewrite E in H2.
  destruct (leaf_place_free dest es fs fs1 e') as [H3 _]; try done; [by destruct e'|congruence].
- intros e' [He' Hf']%elem_of_Lfilter E. assert (e = e') as <-; [|by destruct e].
  apply (tree_leaf _ Ht); [done|done|done|]. unfold place in E. apply app_inv_head in E. by rewrite E.
Qed.

Lemma put_links :
  let fs3 := insert_leaves dest (node_for fs) links fs2 in
  does (for_each links (put_symlink dest)) fs2 (Ok tt) fs3 /\ fs_wf fs3 /\
  (forall e, e ∈ links -> fs3 !! place dest e = Some (node_for fs e)) /\
  (forall q, (forall e, e ∈ links -> q <> place dest e) -> fs3 !! q = fs2 !! q).
Proof.
destruct (put_files false) as (_ & Hwf2 & _ & _).
apply does_put_leaves; [done|apply filter_separate; [done|by intros []]| |].
- intros e He. destruct (link_place_free e He) as [H1 H2]. apply elem_of_Lfilter in He as [He Hf].
  split; [done|]. split; [done|]. split; [by apply (tree_rel _ Ht)|by destruct e].
- intros e fs' [He Hf]%elem_of_Lfilter Hwf' _ Hn Hp _. destruct e as [| p t|]; [done| |done].
  destruct (tree_rel _ Ht _ He) as [Habs _]. cbn [put_symlink node_for].
  pose proof (join_place dest (Symlink p t) Habs) as Hj. cbn [entry_path] in Hj. rewrite Hj.
  apply does_sys0. rewrite Hn. by rewrite (proj2 (is_dir_true fs' _) Hp).
Qed.

Lemma put_entries verify :
  exists fs3,
    does (_ ← for_each files (put_file_entry root rung verify dest); for_each links (put_symlink dest))
      fs1 (Ok tt) fs3 /\
    (forall e, e ∈ es -> leaf e = true -> fs3 !! place dest e = Some (node_for fs e)) /\
    (forall q, (forall e, e ∈ es -> leaf e = true -> q <> place dest e) -> fs3 !! q = fs1 !! q).
Proof.
destruct (put_files verify) as (D2 & _ & Hin2 & Hout2). destruct put_links as (D3 & _ & Hin3 & Hout3).
exists (insert_leaves dest (node_for fs) links fs2). split; [|split].
- eapply does_bind; [exact D2|exact D3].
- intros e He Hl. destruct e as [p mode z d|p t|p]; [| |done].
  + rewrite Hout3; [apply Hin2; by apply elem_of_Lfilter|]. intros e' [He' Hf']%elem_of_Lfilter E.
    assert (File p mode z d = e') as <-; [|done]. apply (tree_leaf _ Ht); [done|done|done|].
    unfold place in E. apply app_inv_head in E. by rewrite E.
  + apply Hin3. by apply elem_of_Lfilter.
- intros q Hq. rewrite Hout3, Hout2; [done| |]; intros e [He Hf]%elem_of_Lfilter; apply Hq; try done; by destruct e.
Qed.

End put_entries.

Lemma dir_for_below dest e : components (entry_path e) <> [] ->
  exists q, dir_for dest e = dest ++ q /\ q `prefix_of` components (entry_path e).
Proof.
intros Hne. unfold dir_for. case_match; [|by exists (components (entry_path e))].
rewrite place_parent by done. eexists. split; [done|].
destruct (components (entry_path e)) as [|c l _] using rev_ind; [done|].
rewrite removelast_last. by apply prefix_app_r.
Qed.

Lemma materialised_intro dest es fs fs1 fs3 :
  dest_free dest fs -> tree_ok es -> with_dirs (dest :: (dir_for dest <$> es)) fs fs1 ->
  (forall e, e ∈ es -> leaf e = true -> fs3 !! place dest e = Some (node_for fs e)) ->
  (forall q, (forall e, e ∈ es -> leaf e = true -> q <> place dest e) -> fs3 !! q = fs1 !! q) ->
  materialised fs dest es fs3.
Proof.
intros Hfree Ht Hd Hin Hout. split; [|split].
- intros e He. destruct (leaf e) eqn:Hl; [by apply Hin|]. destruct e as [| |p]; [done..|].
  rewrite Hout; [eapply with_dirs_dir; [exact Hd|]|].
  + apply elem_of_cons. right. apply list_elem_of_fmap. by exists (Dir p).
  + intros e' He' Hl' E. assert (e' = Dir p) as ->; [|done]. apply (tree_leaf _ Ht); [done|done|done|].
    unfold place in E. apply app_inv_head in E. by rewrite E.
- intros q n Hq Hn.
  destruct (decide (Exists (fun e => leaf e = true /\ dest ++ q = place dest e) es)) as [Hx|Hx].
  + apply Exists_exists in Hx as (e & He & _ & E). exists e. split; [done|]. left.
    unfold place in E. by apply app_inv_head in E.
  + rewrite Hout in Hn. 2:{ intros e He Hl E. apply Hx. apply Exists_exists. eauto. }
    rewrite Hd in Hn. case_decide as Hp; [|by rewrite (free_below _ _ Hfree) in Hn]. injection Hn as <-.
    apply Exists_cons in Hp as [Hp|Hp].
    { apply prefix_length in Hp. rewrite length_app in Hp. destruct q; [done|simpl in Hp; lia]. }
    apply Exists_exists in Hp as (d & (e & -> & He)%list_elem_of_fmap & Hp). exists e. split; [done|]. right.
    split; [done|]. destruct (tree_rel _ Ht e He) as [_ Hne].
    destruct (dir_for_below dest e Hne) as (q' & E & Hq'). rewrite E in Hp. apply prefix_app_inv in Hp. by etrans.
- intros p H1 H2. rewrite Hout. 2:{ intros e He _ ->. apply H2. by apply prefix_app_r. }
  rewrite Hd, decide_False; [done|]. intros [Hp|Hp]%Exists_cons; [done|].
  apply Exists_exists in Hp as (d & (e & -> & He)%list_elem_of_fmap & Hp).
  destruct (tree_rel _ Ht e He) as [_ Hne]. destruct (dir_for_below dest e Hne) as (q' & E & _). rewrite E in Hp.
  apply prefix_root_cases in Hp as [Hp|(q2 & -> & _)]; [done|]. apply H2. by apply prefix_app_r.
Qed.

(** The run of [hydrate_impl], from the facts about the store. *)
Lemma does_hydrate fs name rec m dest verify :
  hydratable fs name rec m -> tree_ok (entries m) -> dest_free dest fs ->
  exists fs', does (hydrate_impl root rung dest name verify) fs
      (Ok (mkHydrateReport (RefRecord.root rec) (Z.of_nat (length (List.filter is_file_entry (entries m))))
             (total_size m) rung)) fs' /\
    materialised fs dest (entries m) fs'.
Proof.
intros Hy Ht Hfree. pose proof (hy_ready _ _ _ _ Hy) as Hr.
destruct (does_make_all_dirs dest (entries m) fs) as (fs1 & D1 & Hwf1 & Hd); [apply Hr|done|done|].
destruct (put_entries dest (entries m) fs fs1 Hfree Ht (ready_clean _ _ Hr) Hwf1 Hd (hy_objects _ _ _ _ Hy) verify)
  as (fs3 & D3 & Hin & Hout).
exists fs3. split; [|by eapply materialised_intro]. unfold hydrate_impl.
eapply does_bind.
{ apply (does_ref_get root fs name (Some rec)); [done|apply Hy| |].
  - rewrite (hy_ref _ _ _ _ Hy). done.
  - apply Hy. }
cbv beta. eapply does_bind; [apply does_ret|]. cbv beta.
eapply does_bind; [by apply does_get_bytes; [|apply Hy|apply Hy]|]. cbv beta.
eapply does_bind; [rewrite manifest_decode_encode by apply Hy; apply does_ret|]. cbv beta.
eapply does_bind; [by apply does_check_dest|]. cbv beta.
apply does_assoc. eapply does_bind; [exact D1|]. cbv beta zeta.
apply does_assoc. eapply does_bind; [exact D3|]. apply does_ret.
Qed.

(** Hydration is exact.  When the ref, its manifest and its objects are in a
    ready store, the manifest's paths form a tree, and the destination is free or an
    empty directory, then without I/O faults [hydrate] succeeds, with and without
    verification and on every rung of the copy ladder: each file entry becomes a
    file with the object's bytes and the entry's mode, each link a link with its
    target, each directory entry a directory; below the destination there is
    nothing else but their parent directories; and no other path changes. *)
Theorem hydrate_exact fs name rec m dest verify :
  hydratable fs name rec m -> tree_ok (entries m) -> dest_free dest fs ->
  exists fs', does (hydrate_impl root rung dest name verify) fs
      (Ok (mkHydrateReport (RefRecord.root rec) (Z.of_nat (length (List.filter is_file_entry (entries m))))
             (total_size m) rung)) fs' /\
    materialised fs dest (entries m) fs'.
Proof. apply does_hydrate. Qed.

End hydrate_theorem.
