(* ===== verification/Confine.v ===== *)
(** Which nodes a computation may change at all, directories and staging files
    included, under every schedule of failures.  The store's writers change nothing
    outside the store's root (its missing ancestors apart) and never turn an object's
    path into a directory. *)

From S2P Require Import Prelude Error Digest RefRecord Fs FsFacts OwnedTemp Cas Layout Refs.

(** Every node is the old one, or is allowed by [T]. *)
Definition touches (T : path -> option node -> Prop) : relation (gmap path node) :=
  fun fs fs' => forall p, fs' !! p = fs !! p \/ T p (fs' !! p).

#[export] Instance touches_preorder T : PreOrder (touches T).
Proof.
split; [by left|]. intros f1 f2 f3 H1 H2 p. destruct (H2 p) as [E|]; [|by right].
rewrite E. apply H1.
Qed.

Section touches_frames.
Context (T : path -> option node -> Prop).
Abbreviation F := (keeps (on_fs (touches T))).

Definition may_write (p : path) : Prop := forall n, n <> NDir -> T p (Some n).

Lemma touches_insert fs p n : T p (Some n) -> touches T fs (<[p := n]> fs).
Proof. intros H q. rewrite lookup_insert. case_decide as E; [subst; by right|by left]. Qed.

Lemma touches_delete fs p : T p None -> touches T fs (delete p fs).
Proof. intros H q. rewrite lookup_delete. case_decide as E; [subst; by right|by left]. Qed.

Ltac touch_case :=
  intros; cbn; repeat (case_match; simplify_eq/=); try reflexivity;
  first [ by apply touches_insert; auto | by apply touches_delete ].

Lemma sync_touches : F sync.
Proof. apply keeps_sys0; [apply _|]. touch_case. Qed.
Lemma open_read_touches p : F (open_read p).
Proof. apply keeps_sys0; [apply _|]. touch_case. Qed.
Lemma open_directory_touches p : F (open_directory p).
Proof. apply keeps_sys0; [apply _|]. touch_case. Qed.
Lemma read_touches p : F (read p).
Proof. apply keeps_sys0; [apply _|]. touch_case. Qed.
Lemma read_dir_touches p : F (read_dir p).
Proof. apply keeps_sys0; [apply _|]. touch_case. Qed.

Lemma mkdir_touches p : T p (Some NDir) -> F (mkdir p).
Proof. intros Hp. apply keeps_sys0; [apply _|]. touch_case. Qed.
Lemma remove_dir_touches p : T p None -> F (remove_dir p).
Proof. intros Hp. apply keeps_sys0; [apply _|]. touch_case. Qed.
Lemma remove_file_touches p : T p None -> F (remove_file p).
Proof. intros Hp. apply keeps_sys0; [apply _|]. touch_case. Qed.
Lemma file_create_touches p : may_write p -> F (file_create p).
Proof. intros Hp. apply keeps_sys0; [apply _|]. touch_case. Qed.
Lemma open_create_touches p : may_write p -> F (open_create p).
Proof. intros Hp. apply keeps_sys0; [apply _|]. touch_case. Qed.
Lemma set_permissions_touches p m : may_write p -> F (set_permissions p m).
Proof. intros Hp. apply keeps_sys0; [apply _|]. touch_case. Qed.

Lemma append_at_touches fs p d : may_write p -> touches T fs (append_at p d fs).
Proof. intros Hp. unfold append_at. touch_case. Qed.
Lemma write_all_touches p d : may_write p -> F (write_all p d).
Proof. intros Hp. apply keeps_sys; [apply _|intros; by apply append_at_touches..]. Qed.
Lemma copy_file_touches a b : may_write b -> F (copy_file a b).
Proof. intros Hb. apply keeps_sys; [apply _|touch_case|touch_case]. Qed.
Lemma clone_into_touches a b : may_write b -> F (clone_into a b).
Proof.
intros Hb. apply keeps_sys0; [apply _|]. intros fs. cbn. case_match; cbn; [|reflexivity].
by apply append_at_touches.
Qed.

Lemma rename_touches a b : T a None -> may_write b -> F (rename a b).
Proof.
intros Ha Hb. apply keeps_sys0; [apply _|]. intros fs. cbn.
repeat (case_match; simplify_eq/=); try reflexivity;
  (etrans; [by apply (touches_delete _ a)|]; apply touches_insert; by apply Hb).
Qed.

Lemma create_dir_all_touches p : (forall q, q `prefix_of` p -> T q (Some NDir)) -> F (create_dir_all p).
Proof.
intros Hp. unfold create_dir_all.
assert (forall rest base, base ++ rest `prefix_of` p -> F (mkdir_below base rest)) as H.
{ induction rest as [|c rest IH]; intros base Hb; cbn [mkdir_below].
  - apply keeps_ret, _.
  - assert (F (mkdir (base ++ [c]))) as Hm.
    { apply mkdir_touches, Hp. etrans; [|exact Hb]. rewrite (cons_middle c base rest), app_assoc. by apply prefix_app_r. }
    solve_keeps. apply IH. by rewrite <- app_assoc. }
by apply (H p []).
Qed.

End touches_frames.

#[export] Hint Resolve sync_touches open_read_touches open_directory_touches read_touches read_dir_touches
  mkdir_touches remove_dir_touches remove_file_touches file_create_touches open_create_touches
  set_permissions_touches write_all_touches copy_file_touches clone_into_touches rename_touches : keeps.

(** * The store's zone *)

Definition zone (root : path) (p : path) (n : option node) : Prop :=
  (root `prefix_of` p \/ p `prefix_of` root) /\
  (n = Some NDir -> forall d, p <> object_path root d).

Abbreviation confined root := (keeps (on_fs (touches (zone root)))).

Section confined.
Context (root : path) (Hroot : tmp_path root = false).

Lemma zone_write q : may_write (zone root) (root ++ q).
Proof. intros n Hn. split; [left; by apply prefix_app_r|congruence]. Qed.

Lemma zone_delete q : zone root (root ++ q) None.
Proof. split; [left; by apply prefix_app_r|done]. Qed.

Lemma zone_private q c r : private_name c = true -> zone root (root ++ q ++ c :: r) (Some NDir).
Proof.
intros Hc. split; [left; by apply prefix_app_r|]. intros _ d E.
pose proof (object_path_tmp root d Hroot) as Ht. rewrite <- E in Ht.
rewrite !tmp_path_app in Ht. simpl in Ht. rewrite Hc in Ht. by rewrite !orb_true_r in Ht.
Qed.

(** Directories of the store that are not at the depth of the objects, or are in
    another plane. *)
Lemma zone_dirs q p :
  (forall q', q' `prefix_of` q -> forall d, root ++ q' <> object_path root d) ->
  p `prefix_of` root ++ q -> zone root p (Some NDir).
Proof.
intros Hq Hp. apply prefix_root_cases in Hp as [Hp|(q' & -> & Hq')].
- split; [by right|]. intros _ d ->. apply prefix_length in Hp. unfold object_path in Hp.
  rewrite sharded_slot, length_app in Hp. simpl in Hp. lia.
- split; [left; by apply prefix_app_r|]. intros _. by apply Hq.
Qed.

Lemma zone_shard plane d p : p `prefix_of` shard_dir root plane d -> zone root p (Some NDir).
Proof.
apply zone_dirs. intros q' Hq' d' E. unfold object_path in E. rewrite sharded_slot in E.
apply app_inv_head in E as ->. apply prefix_length in Hq'. simpl in Hq'. lia.
Qed.

Lemma zone_log key p : p `prefix_of` refs_log_dir root key -> zone root p (Some NDir).
Proof.
unfold refs_log_dir. rewrite sharded_slot. apply zone_dirs. intros q' [r Hq'] d' E.
unfold object_path in E. rewrite sharded_slot in E. apply app_inv_head in E as ->. done.
Qed.

Lemma reserve_confined n q hint : confined root (reserve n (root ++ q) hint).
Proof.
induction n as [|n IH]; cbn [reserve]; [apply keeps_throw, _|]. intros w.
cbv [mbind IO_mbind next_candidate try_].
set (w1 := mkWorld _ _ _ _).
assert (confined root (mkdir ((root ++ q) ++ [tmp_name (w_pid w) hint (w_next w)]))) as Hm.
{ apply mkdir_touches. rewrite <- app_assoc. apply zone_private, tmp_name_private. }
specialize (Hm w1). destruct (mkdir _ w1) as [[[]|e|] w2]; [exact Hm| |exact Hm].
case_bool_decide; [|exact Hm]. etrans; [exact Hm|]. apply IH.
Qed.

Lemma drop_temp_confined q : confined root (drop_temp (root ++ q)).
Proof.
unfold drop_temp, payload. rewrite <- app_assoc.
pose proof (zone_delete (q ++ [str "payload"])). pose proof (zone_delete q). solve_keeps.
Qed.

Lemma with_temp_confined {A : Type} q hint (body : path -> IO A) :
  (forall c, private_name c = true -> confined root (body (root ++ q ++ [c; str "payload"]))) ->
  confined root (with_temp (root ++ q) hint body).
Proof.
intros Hb w. unfold with_temp, owned_temp_new. cbv [mbind IO_mbind].
pose proof (reserve_confined ATTEMPTS q hint w) as Hr.
destruct (reserve ATTEMPTS (root ++ q) hint w) as [[dir|e|] w1] eqn:E; [|done..].
apply reserve_dir in E as (c & -> & Hc). etrans; [exact Hr|].
apply keeps_finally; [apply _| |].
- unfold payload. rewrite <- !app_assoc. by apply Hb.
- rewrite <- app_assoc. apply drop_temp_confined.
Qed.

Lemma atomic_write_confined q c data :
  (forall p, p `prefix_of` root ++ q -> zone root p (Some NDir)) ->
  confined root (atomic_write (root ++ q) (root ++ q ++ [c]) data).
Proof.
intros Hz. unfold atomic_write. solve_keeps; [by apply create_dir_all_touches|].
apply with_temp_confined. intros t Ht. unfold write_staged, fsync_dir.
pose proof (zone_write (q ++ [t; str "payload"])). pose proof (zone_delete (q ++ [t; str "payload"])).
pose proof (zone_write (q ++ [c])). solve_keeps.
Qed.

Lemma write_guard_confined : confined root (write_guard root).
Proof. pose proof (zone_write [GC_LOCK]). unfold write_guard, gc_lock_file, gc_lock_path. solve_keeps. Qed.
Lemma gc_guard_confined : confined root (gc_guard root).
Proof. apply write_guard_confined. Qed.

End confined.

#[export] Hint Resolve write_guard_confined gc_guard_confined : keeps.

Section store_confined.
Context `{B3 : Blake3} (root : path) (Hroot : tmp_path root = false).

Lemma shard_dir_slot plane d : shard_dir root plane d = root ++ [plane; (shard_parts (to_hex d)).1].
Proof. done. Qed.

Lemma plane_write_confined plane d data :
  confined root (atomic_write (shard_dir root plane d) (sharded root plane d) data).
Proof.
rewrite sharded_slot. apply atomic_write_confined; [done|]. apply zone_shard.
Qed.

Lemma cow_or_copy_confined src q rung : confined root (cow_or_copy src (root ++ q) rung).
Proof.
pose proof (zone_write root q). pose proof (zone_delete root q).
unfold cow_or_copy, try_cow_at_rung, cow_reflink, cow_copy_range. solve_keeps.
Qed.

Lemma object_write d : may_write (zone root) (object_path root d).
Proof. unfold object_path. rewrite sharded_slot. apply zone_write. Qed.

Lemma put_bytes_confined bs : confined root (put_bytes root bs).
Proof.
pose proof (object_write (of_bytes bs)). unfold put_bytes. solve_keeps.
- by apply create_dir_all_touches, zone_shard.
- rewrite shard_dir_slot. apply with_temp_confined; [done|]. intros t Ht. unfold write_staged, fsync_dir, set_mode.
  pose proof (zone_write root ([str "objects"; (shard_parts (to_hex (of_bytes bs))).1] ++ [t; str "payload"])).
  pose proof (zone_delete root ([str "objects"; (shard_parts (to_hex (of_bytes bs))).1] ++ [t; str "payload"])).
  solve_keeps.
Qed.

Lemma ingest_file_confined src rung : confined root (ingest_file root src rung).
Proof.
unfold ingest_file, of_file. solve_keeps.
- by apply create_dir_all_touches, zone_shard.
- match goal with |- context [shard_dir root _ ?d] => set (d0 := d) end.
  pose proof (object_write d0). rewrite shard_dir_slot.
  apply with_temp_confined; [done|]. intros t Ht.
  unfold finish_ingest, verify_publish, of_file, fsync_dir, set_mode.
  pose proof (zone_write root ([str "objects"; (shard_parts (to_hex d0)).1] ++ [t; str "payload"])).
  pose proof (zone_delete root ([str "objects"; (shard_parts (to_hex d0)).1] ++ [t; str "payload"])).
  pose proof (cow_or_copy_confined src ([str "objects"; (shard_parts (to_hex d0)).1] ++ [t; str "payload"]) rung).
  solve_keeps.
Qed.

Lemma ref_get_confined name : confined root (ref_get root name).
Proof. unfold ref_get. solve_keeps. Qed.

Lemma ref_put_confined rec : confined root (ref_put root rec).
Proof.
unfold ref_put, next_index. solve_keeps; try (by apply plane_write_confined).
all: unfold refs_log_dir; rewrite sharded_slot, <- app_assoc; apply atomic_write_confined; [done|];
  intros p Hp; eapply zone_log; unfold refs_log_dir; by rewrite sharded_slot.
Qed.

End store_confined.

#[export] Hint Resolve put_bytes_confined ingest_file_confined ref_get_confined ref_put_confined : keeps.
