(* ===== verification/Snapshot.v ===== *)
(** Publishing a working tree as a ref and comparing a tree with a ref
    (crates/lightr-index/src/index/snapshot.rs and status.rs).

    The walk of the tree is the argument [items], as in the scan; the path, the
    temporary name and the time of the index save, the time of the snapshot and the
    tool's version are arguments too.  The parallel ingestion is modelled in manifest
    order, up to the first error. *)

From S2P Require Import Prelude Error Cursor Digest Manifest RefRecord Fs FsFacts OwnedTemp Calm Cas Layout Refs TimeAxis IndexCodec Scan Hydrate Confine.

Record SnapshotReport := mkSnapshotReport {
  sr_root : digest;
  sr_files : Z;
  sr_bytes_total : Z;
  sr_objects_new : Z;
}.

Record StatusReport := mkStatusReport {
  sta_clean : bool;
  sta_added : list bytes;
  sta_removed : list bytes;
  sta_changed : list bytes;
}.

(** The files of a manifest with their digests. *)
Definition file_entries (m : Manifest) : list (bytes * digest) :=
  omap (fun e => match e with File p _ _ d => Some (p, d) | _ => None end) (entries m).

(** Where and how the index is saved: path, temporary name, time. *)
Record index_env := mkIndexEnv { ie_at : Result path; ie_pid : Z; ie_tmp : Z; ie_now_ns : Z }.

Section snapshot.
Context `{B3 : Blake3} (root : path) (rung : CowRung).

(** One file: reused, or ingested and compared with the scanned digest. *)
Definition ingest_entry (src : path) (f : bytes * digest) : IO Z :=
  e ← exists_object root f.2;
  if (e : bool) then mret 0%Z else
  actual ← ingest_file root (join src f.1) rung;
  if bool_decide (actual = f.2) then mret 1%Z else throw (Integrity f.2 actual).

Definition publish_snapshot (src : path) (name : bytes) (m : Manifest) (now : Z) (version : bytes) :
    IO SnapshotReport :=
  _ ← write_guard root;
  prev ← ref_get root name;
  news ← map_io (ingest_entry src) (file_entries m);
  manifest_digest ← put_bytes root (Manifest.encode m);
  let rec := mkRefRecord name manifest_digest (RefRecord.root <$> prev) now version in
  _ ← ref_put root rec;
  mret (mkSnapshotReport manifest_digest (Z.of_nat (length (file_entries m))) (total_size m)
    (foldr Z.add 0%Z news)).

(** [scan] with its index save as an effect: the save is its last step. *)
Definition scan_tree (items : list walk_item) (ix : Index) (env : index_env) : IO WalkReport :=
  '(rep, ix') ← lift (scan items ix (fun _ => Ok tt));
  _ ← save_for ix' (ie_at env) (ie_pid env) (ie_tmp env) (ie_now_ns env);
  mret rep.

Definition snapshot (src : path) (items : list walk_item) (env : index_env) (name : bytes) (now : Z)
    (version : bytes) : IO SnapshotReport :=
  _ ← lift (validate_ref_name name);
  ix ← load_for (ie_at env);
  walk ← scan_tree items ix env;
  publish_snapshot src name (wr_manifest walk) now version.

Definition status (items : list walk_item) (env : index_env) (name : bytes) : IO StatusReport :=
  o ← ref_get root name;
  rec ← lift (ok_or o (RefNotFound name));
  manifest_bytes ← get_bytes root (RefRecord.root rec);
  remote ← lift (Manifest.decode manifest_bytes);
  ix ← load_for (ie_at env);
  walk ← scan_tree items ix env;
  let d := diff_manifests remote (wr_manifest walk) in
  mret (mkStatusReport (diff_clean d) (added d) (removed d) (changed d)).

End snapshot.

(** * Under every schedule of failures *)

(** A store whose objects are valid files. *)
Definition objects_ok `{Blake3} (root : path) (fs : gmap path node) : Prop :=
  cas_ok root fs /\ forall d, fs !! object_path root d <> Some NDir.

(** The object is published. *)
Definition present `{Blake3} (root : path) (fs : gmap path node) (d : digest) : Prop :=
  exists c, pub fs (object_path root d) = Some c /\ of_bytes c = d.

Section schedules.
Context `{B3 : Blake3} (root : path) (Hroot : tmp_path root = false).

(** The frame of everything before the ref is written: objects are only added, and
    nodes change only in the store. *)
Definition grows : relation (gmap path node) := fun fs fs' => cas_grow root fs fs' /\ touches (zone root) fs fs'.

#[local] Instance grows_preorder : PreOrder grows.
Proof. split; [by split|]. intros f1 f2 f3 [H1 H2] [H3 H4]. split; by etrans. Qed.

Lemma keeps_grows {A : Type} (m : IO A) :
  keeps (on_fs (cas_grow root)) m -> confined root m -> keeps (on_fs grows) m.
Proof. intros H1 H2 w. split; [apply H1|apply H2]. Qed.

Lemma grows_ok fs fs' : grows fs fs' -> objects_ok root fs -> objects_ok root fs'.
Proof.
intros [H1 H2] [Hok Hd]. split; [by eapply cas_grow_ok|]. intros d E.
destruct (H2 (object_path root d)) as [E'|[_ Hz]]; [rewrite E' in E; by apply (Hd d)|by apply (Hz E d)].
Qed.

Lemma grows_present fs fs' d : objects_ok root fs' -> grows fs fs' -> present root fs d -> present root fs' d.
Proof.
intros [Hok _] [H _] (c & Hc & _). destruct (cas_grow_mono _ _ _ (object_path root d) H) as [c' Hc']; [eauto|].
exists c'. split; [done|]. by apply Hok.
Qed.

(** What exists at an object's path is that object. *)
Lemma exists_present fs d : objects_ok root fs -> node_exists fs (object_path root d) = true -> present root fs d.
Proof.
intros [Hok Hd] H. unfold node_exists in H. specialize (Hd d).
destruct (fs !! object_path root d) as [[c m| |]|] eqn:E; try done.
assert (pub fs (object_path root d) = Some c) as Hc.
{ rewrite pub_file_at by auto with lightr. unfold file_at. by rewrite E. }
exists c. split; [done|]. by apply Hok.
Qed.

Lemma guard_grows : keeps (on_fs grows) (write_guard root).
Proof. apply keeps_grows; [apply keeps_grow|]; auto with keeps. Qed.
Lemma ref_get_grows name : keeps (on_fs grows) (ref_get root name).
Proof. apply keeps_grows; [apply keeps_grow, ref_get_pub|auto with keeps]. Qed.
Lemma put_bytes_grows bs : keeps (on_fs grows) (put_bytes root bs).
Proof. apply keeps_grows; [by apply put_bytes_grow|auto with keeps]. Qed.
Lemma ingest_file_grows src rung : keeps (on_fs grows) (ingest_file root src rung).
Proof. apply keeps_grows; [by apply ingest_file_grow|auto with keeps]. Qed.

#[local] Hint Resolve guard_grows ref_get_grows put_bytes_grows ingest_file_grows : keeps.

Lemma keeps_ret_state {A : Type} (m : IO A) w a w' :
  keeps (on_fs grows) m -> m w = (Ret a, w') -> grows (w_fs w) (w_fs w').
Proof. intros Hm E. specialize (Hm w). by rewrite E in Hm. Qed.

(** A write of the object plane that returned has its object there. *)
Lemma put_bytes_present bs w d w' :
  objects_ok root (w_fs w) -> put_bytes root bs w = (Ret d, w') ->
  d = of_bytes bs /\ present root (w_fs w') d.
Proof.
intros Hok E. pose proof (keeps_ret_state _ _ _ _ (put_bytes_grows bs) E) as Hg.
pose proof (grows_ok _ _ Hg Hok) as Hok'. destruct (put_bytes_ret _ _ _ _ _ Hroot E) as (-> & Hnew & Hold).
split; [done|]. destruct (node_exists (w_fs w) (object_path root (of_bytes bs))) eqn:Ee.
- eapply grows_present; [done|exact Hg|by apply exists_present].
- exists bs. auto.
Qed.

Lemma finish_ingest_ret tmp dest shard d w a w' : finish_ingest tmp dest shard d w = (Ret a, w') -> a = d.
Proof.
intros (r & w1 & H1 & H)%bind_ret. destruct r as [x|e]; [|by apply bind_ret in H as (? & ? & _ & H)].
injection H as <- <-. unfold try_ in H1. destruct (verify_publish _ _ _ _ w) as [[y|e|] w2] eqn:E; simplify_eq.
apply bind_ret in E as (z & w3 & _ & E). case_bool_decide; [|done].
repeat (apply bind_ret in E as (? & ? & _ & E)). by injection E.
Qed.

Lemma ingest_file_present src rung w d w' :
  objects_ok root (w_fs w) -> ingest_file root src rung w = (Ret d, w') -> present root (w_fs w') d.
Proof.
intros Hok E. pose proof (keeps_ret_state _ _ _ _ (ingest_file_grows src rung) E) as Hg.
pose proof (grows_ok _ _ Hg Hok) as Hok'. unfold ingest_file in E.
apply bind_ret in E as ([] & w1 & E1 & E). pose proof (keeps_ret_state _ _ _ _ guard_grows E1) as G1.
apply bind_ret in E as (d0 & w2 & (c & _ & _ & Hw)%of_file_ret & E).
apply bind_ret in E as (e & w3 & [-> ->]%exists_ret & E).
destruct (node_exists (w_fs w2) (object_path root d0)) eqn:Ee.
- injection E as <- <-. apply exists_present; [|done]. done.
- apply bind_ret in E as ([] & w4 & _ & E).
  pose proof (ingest_block_commits root src rung d0 (fun _ => True) Hroot) as Hc. cbv zeta in Hc.
  destruct (commits_ret _ _ _ w4 _ w' Hc I E) as (c' & Hh & Hput).
  apply with_temp_ret in E as (tmp & w5 & w6 & E). apply bind_ret in E as ([] & w7 & _ & E).
  apply finish_ingest_ret in E as ->. exists c'. split; [|done]. rewrite Hput. by rewrite decide_True.
Qed.

Lemma ingest_entry_grows rung src f : keeps (on_fs grows) (ingest_entry root rung src f).
Proof. unfold ingest_entry, exists_object. solve_keeps. Qed.
#[local] Hint Resolve ingest_entry_grows : keeps.

Lemma ingest_entry_present rung src f w n w' :
  objects_ok root (w_fs w) -> ingest_entry root rung src f w = (Ret n, w') -> present root (w_fs w') f.2.
Proof.
intros Hok (e & w1 & [-> ->]%exists_ret & E)%bind_ret. destruct (node_exists _ _) eqn:Ee.
- injection E as <- <-. by apply exists_present.
- apply bind_ret in E as (d & w2 & E1 & E). case_bool_decide as Hd; [|done]. injection E as <- <-.
  rewrite <- Hd. by eapply ingest_file_present.
Qed.

Lemma ingest_all_present rung src l w ns w' :
  objects_ok root (w_fs w) -> map_io (ingest_entry root rung src) l w = (Ret ns, w') ->
  objects_ok root (w_fs w') /\ forall f, f ∈ l -> present root (w_fs w') f.2.
Proof.
revert w ns. induction l as [|f l IH]; intros w ns Hok; cbn [map_io].
- intros [= _ <-]. split; [done|]. intros f Hf. by apply not_elem_of_nil in Hf.
- intros (n & w1 & E1 & (ns' & w2 & E2 & E)%bind_ret)%bind_ret. injection E as _ <-.
  pose proof (keeps_ret_state _ _ _ _ (ingest_entry_grows rung src f) E1) as G1.
  pose proof (ingest_entry_present _ _ _ _ _ _ Hok E1) as P1.
  assert (keeps (on_fs grows) (map_io (ingest_entry root rung src) l)) as K by solve_keeps.
  pose proof (keeps_ret_state _ _ _ _ K E2) as G2.
  destruct (IH w1 ns' (grows_ok _ _ G1 Hok) E2) as [Hok2 P2]. split; [done|].
  intros f' [->|Hf]%elem_of_cons; [|by apply P2]. by eapply grows_present.
Qed.

Lemma ref_files_not_object name d : ~ ref_files root name (object_path root d).
Proof.
intros [E|[E|[n E]]]; [by apply sharded_eq in E as [? _]..|].
by apply (log_entry_ne_sharded _ _ _ _ _ (eq_sym E)).
Qed.

(** What a snapshot of [m] under [name] may have done to the tree [fs] when it is
    left with [r]: the objects stay valid, nothing outside the store changes and in it
    only objects and the files of [name]; and the ref is as it was, or points to [m]
    with the manifest and every file of it in the store. *)
Definition snapshot_post {A : Type} (name : bytes) (m : Manifest) (fs : gmap path node) (r : outcome A * World) : Prop :=
  let fs' := w_fs r.2 in
  let p := ref_path root (ref_key name) in
  objects_ok root fs' /\
  (forall q, ~ root `prefix_of` q -> ~ q `prefix_of` root -> fs' !! q = fs !! q) /\
  (forall q, ~ ref_files root name q -> (forall d, q <> object_path root d) -> pub fs' q = pub fs q) /\
  ((pub fs' p = pub fs p /\ forall a, r.1 <> Ret a) \/
   ((exists rec, pub fs' p = Some (RefRecord.encode rec) /\ RefRecord.name rec = name /\
       RefRecord.root rec = of_bytes (Manifest.encode m)) /\
    present root fs' (of_bytes (Manifest.encode m)) /\
    forall f, f ∈ file_entries m -> present root fs' f.2)).

Lemma ref_path_not_object name d : ref_path root (ref_key name) <> object_path root d.
Proof. by intros [? _]%sharded_eq. Qed.

Lemma post_grows {A : Type} name m fs fs1 (r : outcome A * World) :
  grows fs fs1 -> snapshot_post name m fs1 r -> snapshot_post name m fs r.
Proof.
intros [Hg Ht] (Hok & Hout & Hoth & Hcase). split; [done|]. split; [|split].
- intros q H1 H2. rewrite Hout by done. destruct (Ht q) as [|[[] _]]; done.
- intros q H1 H2. rewrite Hoth by done. by apply (cas_grow_other root).
- destruct Hcase as [[E Hn]|]; [left|by right]. split; [|done]. rewrite E.
  apply (cas_grow_other root); [done|]. apply ref_path_not_object.
Qed.

(** One stage before the ref is written. *)
Lemma post_bind {A B : Type} name m (c : IO A) (k : A -> IO B) w :
  keeps (on_fs grows) c -> objects_ok root (w_fs w) ->
  (forall a w1, c w = (Ret a, w1) -> objects_ok root (w_fs w1) -> snapshot_post name m (w_fs w1) (k a w1)) ->
  snapshot_post name m (w_fs w) ((c ≫= k) w).
Proof.
intros Hc Hok Hk. pose proof (Hc w) as Hg. pose proof (grows_ok _ _ Hg Hok) as Hok'.
destruct (bind_cases c k w) as [(a & w1 & E & ->)|[E Hn]].
- rewrite E in Hg, Hok'. eapply post_grows; [exact Hg|]. by apply Hk.
- eapply post_grows; [exact Hg|]. unfold snapshot_post. rewrite E.
  split; [done|]. split; [done|]. split; [done|]. by left.
Qed.

(** The ref is written last. *)
Lemma post_ref_put {B : Type} name m rec (a : B) w :
  objects_ok root (w_fs w) -> RefRecord.name rec = name -> RefRecord.root rec = of_bytes (Manifest.encode m) ->
  present root (w_fs w) (of_bytes (Manifest.encode m)) ->
  (forall f, f ∈ file_entries m -> present root (w_fs w) f.2) ->
  snapshot_post name m (w_fs w) ((_ ← ref_put root rec; mret a) w).
Proof.
intros [Hok Hd] Hn Hr Hm Hf. destruct (ref_put_pointer root rec w Hroot) as [Hex Hcase].
pose proof (ref_put_confined root Hroot rec w) as Ht. rewrite Hn in *.
assert (((_ ← ref_put root rec; mret a) w).2 = (ref_put root rec w).2) as E
  by (cbv [mbind IO_mbind]; by destruct (ref_put root rec w) as [[]]).
assert (forall d, pub (w_fs (ref_put root rec w).2) (object_path root d) = pub (w_fs w) (object_path root d)) as Hobj
  by (intros d; apply Hex, ref_files_not_object).
unfold snapshot_post. rewrite E. set (fs' := w_fs (ref_put root rec w).2) in *.
assert (forall d, present root (w_fs w) d -> present root fs' d) as Hp
  by (intros d (c & Hc & Hh); exists c; by rewrite Hobj).
split; [split|split; [|split]].
- intros d c. rewrite Hobj. apply Hok.
- intros d Hdir. destruct (Ht (object_path root d)) as [E'|[_ Hz]]; [|by apply (Hz Hdir d)].
  apply (Hd d). by rewrite <- E'.
- intros q H1 H2. destruct (Ht q) as [|[[] _]]; done.
- intros q H1 _. by apply Hex.
- destruct Hcase as [[Ep Hne]|[Ep _]].
  + left. split; [done|]. intros b. cbv [mbind IO_mbind].
    destruct (ref_put root rec w) as [[[]|e|] w1]; [by destruct Hne|done|done].
  + right. split; [by exists rec|]. split; [by apply Hp|]. intros f Hin. by apply Hp, Hf.
Qed.

Lemma publish_snapshot_post rung src name m now version w :
  objects_ok root (w_fs w) ->
  snapshot_post name m (w_fs w) (publish_snapshot root rung src name m now version w).
Proof.
intros Hok. unfold publish_snapshot.
apply post_bind; [auto with keeps|done|]. intros [] w1 _ Hok1.
apply post_bind; [auto with keeps|done|]. intros prev w2 _ Hok2.
apply post_bind; [solve_keeps|done|]. intros news w3 E3 _.
destruct (ingest_all_present _ _ _ _ _ _ Hok2 E3) as [Hok3 P3].
apply post_bind; [auto with keeps|done|]. intros d w4 E4 Hok4.
destruct (put_bytes_present _ _ _ _ Hok3 E4) as [-> P4].
apply post_ref_put; [done|done|done|done|]. intros f Hf.
eapply grows_present; [done| |by apply P3]. eapply keeps_ret_state; [|exact E4]. auto with keeps.
Qed.

End schedules.

(** C1: a snapshot never publishes a ref it cannot serve.  Whatever the working tree
    holds by now, whatever call fails and wherever the process is killed: the objects
    stay valid; no file or directory outside the store changes, the working tree
    included; in the store only objects and the files of this ref change; and the ref
    is either as before, in which case the caller is not told of success, or points to
    the manifest with the manifest and every file it names in the store. *)
Theorem publish_snapshot_safe `{B3 : Blake3} root rung src name m now version w :
  tmp_path root = false -> objects_ok root (w_fs w) ->
  snapshot_post root name m (w_fs w) (publish_snapshot root rung src name m now version w).
Proof. intros Hr. by apply publish_snapshot_post. Qed.

(** * Snapshot, then hydrate *)

Section roundtrip.
Context `{B3 : Blake3} (root : path) (N : list bytes) (HN : names_ok N).

Lemma objects_of_ready fs : store_ready root fs -> cas_ok root fs -> objects_ok root fs.
Proof.
intros Hr Hok. split; [done|]. intros d E. destruct (plane_node root fs Hr _ objects_plane d) as [H|(c & m & H)];
  unfold object_path in E; congruence.
Qed.

(** The state while the objects are written: the refs are as they were, the objects
    valid, and no node present before is gone. *)
Record during (a : refs_state) (fs0 fs : gmap path node) : Prop := {
  dur_refs : refs_abs root N fs a;
  dur_cas : cas_ok root fs;
  dur_mono : forall p n, tmp_path p = false -> fs0 !! p = Some n -> fs !! p = Some n;
}.

Lemma refs_abs_lock fs a : refs_abs root N fs a -> refs_abs root N (lock_fs root fs) a.
Proof.
intros Ha. split; [apply lock_fs_ready, Ha| | | | |apply Ha|apply Ha].
- intros n Hin. rewrite (lock_fs_pub root fs _). by apply Ha.
- intros n Hin. rewrite (lock_fs_pub root fs _). by apply Ha.
- apply (only_names_lock root N fs). exact (abs_only _ _ _ _ Ha).
- intros n Hin. by apply log_holds_lock, Ha.
Qed.

Lemma during_lock a fs : refs_abs root N fs a -> cas_ok root fs -> during a fs (lock_fs root fs).
Proof.
intros Ha Hok. pose proof (abs_ready _ _ _ _ Ha) as Hr. split.
- by apply refs_abs_lock.
- intros d c. rewrite (lock_fs_pub root fs _). apply Hok.
- intros p n Hp E. by rewrite lock_fs_lookup.
Qed.

Lemma refs_abs_put_bytes fs a bs : refs_abs root N fs a -> refs_abs root N (put_bytes_fs root bs fs) a.
Proof.
intros Ha. pose proof (abs_ready _ _ _ _ Ha) as Hr. pose proof (lock_fs_ready root fs Hr) as Hr1.
destruct (does_put_bytes root fs bs Hr) as [_ Hr'].
assert (forall p, (forall d, p <> object_path root d) -> pub (put_bytes_fs root bs fs) p = pub fs p) as Hp.
{ intros p Hne. rewrite put_bytes_fs_pub by done. rewrite decide_False; [done|]. intros [E _]. by apply (Hne _ E). }
split; [done| | | | |apply Ha|apply Ha].
- intros n Hn. rewrite Hp by (by intros ? [? _]%sharded_eq). by apply Ha.
- intros n Hn. rewrite Hp by (by intros ? [? _]%sharded_eq). by apply Ha.
- change (only_names root N (put_bytes_fs root bs fs)).
  assert (only_names root N (lock_fs root fs)) as Ho by (apply only_names_lock; exact (abs_only _ _ _ _ Ha)).
  unfold put_bytes_fs. case_match; [done|]. by apply only_names_other; [|apply objects_plane| |].
- intros n Hn. pose proof (log_holds_lock root fs _ _ (abs_log _ _ _ _ Ha n Hn)) as Hl.
  unfold put_bytes_fs. case_match; [done|]. apply log_holds_plane; [done|apply objects_plane|done].
Qed.

Lemma during_put_bytes a fs0 fs bs : during a fs0 fs -> during a fs0 (put_bytes_fs root bs fs).
Proof.
intros [Ha Hok Hm]. pose proof (abs_ready _ _ _ _ Ha) as Hr. split; [by apply refs_abs_put_bytes| |].
- intros d c. rewrite put_bytes_fs_pub by done. case_decide as E; [|apply Hok].
  destruct E as [E _]. apply (inj _) in E as ->. by intros [= ->].
- intros p n Hp Hn. specialize (Hm p n Hp Hn). pose proof (lock_fs_ready root fs Hr) as Hr1. unfold put_bytes_fs.
  rewrite <- (lock_fs_lookup root fs) in Hm by done.
  destruct (node_exists fs (object_path root (of_bytes bs))) eqn:E; [done|].
  unfold object_path. rewrite (plane_lookup_put root _ Hr1 _ objects_plane). case_decide as E1.
  { subst p. rewrite lock_fs_lookup in Hm by done. destruct (plane_node root fs Hr _ objects_plane (of_bytes bs))
      as [H|(c & m & H)]; [congruence|]. unfold node_exists, object_path in E. by rewrite H in E. }
  case_decide as E2; [|done]. f_equal.
  destruct (plane_slot_ok root _ Hr1 _ objects_plane (of_bytes bs)) as (_ & Hdirs & _).
  rewrite sharded_parent in Hdirs. destruct (Hdirs p E2); congruence.
Qed.

Lemma put_bytes_fs_present fs bs :
  store_ready root fs -> cas_ok root fs -> present root (put_bytes_fs root bs fs) (of_bytes bs).
Proof.
intros Hr Hok. destruct (pub fs (object_path root (of_bytes bs))) as [c|] eqn:E.
- exists c. split; [|by apply Hok]. rewrite put_bytes_fs_pub by done. rewrite decide_False; [done|]. by intros [_ ?]; congruence.
- exists bs. split; [|done]. rewrite put_bytes_fs_pub by done. by rewrite decide_True.
Qed.

Lemma present_put_bytes fs bs d : store_ready root fs -> present root fs d -> present root (put_bytes_fs root bs fs) d.
Proof.
intros Hr (c & Hc & Hd). exists c. split; [|done]. rewrite put_bytes_fs_pub by done.
rewrite decide_False; [done|]. intros [_ ?]. congruence.
Qed.

(** The files named by the entries are in the tree with the digests named. *)
Definition captured (src : path) (l : list (bytes * digest)) (fs : gmap path node) : Prop :=
  forall f, f ∈ l -> tmp_path (join src f.1) = false /\
    exists c m, fs !! join src f.1 = Some (NFile c m) /\ of_bytes c = f.2.

Lemma does_ingest_entry rung src f a fs0 fs :
  during a fs0 fs -> captured src [f] fs0 ->
  exists n fs', does (ingest_entry root rung src f) fs (Ok n) fs' /\ during a fs0 fs' /\
    (forall d, present root fs d -> present root fs' d) /\ present root fs' f.2.
Proof.
intros Hd Hf. destruct (Hf f) as (Ht & c & m & Hc & Hh); [by constructor|].
pose proof (abs_ready _ _ _ _ (dur_refs _ _ _ Hd)) as Hr. pose proof (dur_cas _ _ _ Hd) as Hok.
assert (forall n, does (if node_exists fs (object_path root f.2) then mret 0%Z else
    actual ← ingest_file root (join src f.1) rung;
    if bool_decide (actual = f.2) then mret 1%Z else throw (Integrity f.2 actual)) fs (Ok n)
    (if node_exists fs (object_path root f.2) then fs else put_bytes_fs root c fs) ->
    does (ingest_entry root rung src f) fs (Ok n)
    (if node_exists fs (object_path root f.2) then fs else put_bytes_fs root c fs)) as Hx.
{ intros n H. eapply does_bind; [apply does_exists|]. exact H. }
destruct (node_exists fs (object_path root f.2)) eqn:E.
- exists 0%Z, fs. split; [apply Hx, does_ret|]. split; [done|]. split; [done|].
  apply exists_present; [apply Hr|by apply objects_of_ready|done].
- exists 1%Z, (put_bytes_fs root c fs). split; [|split; [by apply during_put_bytes|split]].
  + apply Hx. eapply does_bind; [eapply does_ingest_file; [done|done|by apply (dur_mono _ _ _ Hd)]|].
    cbv beta. rewrite bool_decide_eq_true_2 by done. apply does_ret.
  + intros d. by apply present_put_bytes.
  + rewrite <- Hh. by apply put_bytes_fs_present.
Qed.

Lemma does_ingest_all rung src l a fs0 fs :
  during a fs0 fs -> captured src l fs0 ->
  exists ns fs', does (map_io (ingest_entry root rung src) l) fs (Ok ns) fs' /\ during a fs0 fs' /\
    (forall d, present root fs d -> present root fs' d) /\ forall f, f ∈ l -> present root fs' f.2.
Proof.
revert fs. induction l as [|f l IH]; intros fs Hd Hl.
- exists [], fs. split; [apply does_ret|]. split; [done|]. split; [done|]. intros f Hf. by apply not_elem_of_nil in Hf.
- destruct (does_ingest_entry rung src f a fs0 fs Hd) as (n & fs1 & D1 & Hd1 & M1 & P1).
  { intros f' ->%list_elem_of_singleton. apply Hl. by constructor. }
  destruct (IH fs1 Hd1) as (ns & fs2 & D2 & Hd2 & M2 & P2).
  { intros f' Hf'. apply Hl. by constructor. }
  exists (n :: ns), fs2. split; [|split; [done|split; [auto|]]].
  + cbn [map_io]. eapply does_bind; [exact D1|]. cbv beta. eapply does_bind; [exact D2|]. apply does_ret.
  + intros f' [->|Hf']%elem_of_cons; auto.
Qed.

(** The record a snapshot publishes. *)
Definition snapshot_record (a : refs_state) (name : bytes) (m : Manifest) (now : Z) (version : bytes) : RefRecord :=
  mkRefRecord name (of_bytes (Manifest.encode m)) (RefRecord.root <$> cur a !! name) now version.

Lemma does_publish_snapshot rung src name m now version a fs :
  refs_abs root N fs a -> cas_ok root fs -> captured src (file_entries m) fs ->
  op_ok N (RPut (snapshot_record a name m now version)) a ->
  exists new fs', does (publish_snapshot root rung src name m now version) fs
      (Ok (mkSnapshotReport (of_bytes (Manifest.encode m)) (Z.of_nat (length (file_entries m))) (total_size m) new)) fs' /\
    refs_abs root N fs' (ref_spec (RPut (snapshot_record a name m now version)) a).2 /\
    present root fs' (of_bytes (Manifest.encode m)) /\
    forall f, f ∈ file_entries m -> present root fs' f.2.
Proof.
intros Ha Hok Hcap Hop. pose proof (abs_ready _ _ _ _ Ha) as Hr. destruct Hop as (Hn & Hop). cbn in Hn.
pose proof (during_lock a fs Ha Hok) as Hd0.
destruct (does_ingest_all rung src (file_entries m) a fs _ Hd0 Hcap) as (ns & fs1 & D1 & Hd1 & _ & P1).
pose proof (abs_ready _ _ _ _ (dur_refs _ _ _ Hd1)) as Hr1. pose proof (dur_cas _ _ _ Hd1) as Hok1.
destruct (does_put_bytes root fs1 (Manifest.encode m) Hr1) as [D2 Hr2].
pose proof (during_put_bytes _ _ _ (Manifest.encode m) Hd1) as Hd2.
set (fs2 := put_bytes_fs root (Manifest.encode m) fs1) in *.
destruct (ref_put_refines root N HN fs2 a (snapshot_record a name m now version)) as (fs3 & D3 & Ha3);
  [apply Hd2|done|].
assert (forall d, present root fs2 d -> present root fs3 d) as Hp.
{ destruct (D3 (mkWorld fs2 [] 0 0) eq_refl eq_refl) as (w' & E & <- & _).
  pose proof (ref_put_except root (snapshot_record a name m now version) (ready_clean _ _ Hr) (mkWorld fs2 [] 0 0)) as Hex.
  rewrite E in Hex. intros d (c & Hc & Hh). exists c. split; [|done]. rewrite <- Hc. apply Hex.
  apply ref_files_not_object. }
exists (foldr Z.add 0%Z ns), fs3. split; [|split; [done|split]].
- unfold publish_snapshot. eapply does_bind; [by apply does_write_guard|]. cbv beta. eapply does_bind.
  { eapply (does_ref_get root (lock_fs root fs) name (cur a !! name)).
    - by apply lock_fs_ready.
    - by apply (names_valid _ HN).
    - rewrite (lock_fs_pub root fs _). by apply Ha.
    - by eapply abs_record_wf. }
  cbv beta. eapply does_bind; [exact D1|]. cbv beta. eapply does_bind; [exact D2|]. cbv beta.
  eapply does_bind; [exact D3|]. apply does_ret.
- apply Hp. by apply put_bytes_fs_present.
- intros f Hf. by apply Hp, present_put_bytes, P1.
Qed.

(** Nothing else hashes to the manifest's or a captured file's digest. *)
Definition no_collision (src : path) (m : Manifest) (fs : gmap path node) : Prop :=
  forall c c', (c = Manifest.encode m \/ exists f mode, f ∈ file_entries m /\ fs !! join src f.1 = Some (NFile c mode)) ->
    of_bytes c' = of_bytes c -> c' = c.

(** The entries' tree below [dest], with the contents the files have below [src]. *)
Definition copied (src : path) (es : list Entry) (fs : gmap path node) (dest : path) (fs' : gmap path node) : Prop :=
  forall e, e ∈ es ->
    match e with
    | File p mode _ _ => exists c m0, fs !! join src p = Some (NFile c m0) /\ fs' !! place dest e = Some (NFile c mode)
    | Symlink _ t => fs' !! place dest e = Some (NSymlink t)
    | Dir _ => fs' !! place dest e = Some NDir
    end.

Lemma elem_of_file_entries m p mode z d : File p mode z d ∈ entries m -> (p, d) ∈ file_entries m.
Proof. intros H. apply list_elem_of_omap. by exists (File p mode z d). Qed.

Lemma dest_free_after fs fs' dest :
  dest_free dest fs -> ~ root `prefix_of` dest -> ~ dest `prefix_of` root ->
  fs_wf fs' -> fs' !! root = Some NDir ->
  (forall q, ~ root `prefix_of` q -> ~ q `prefix_of` root -> fs' !! q = fs !! q) -> dest_free dest fs'.
Proof.
intros Hf H1 H2 Hwf Hr Hout. split.
- intros q Hq. destruct (decide (q `prefix_of` root)) as [Hp|Hp].
  + right. by eapply fs_wf_ancestor.
  + rewrite Hout; [by apply (free_dirs _ _ Hf)| |done]. intros Hp'. apply H1. by etrans.
- intros q Hq. rewrite Hout; [by apply (free_below _ _ Hf)| |].
  + intros [Hp|(q' & -> & _)]%prefix_root_cases; [done|]. apply H2. by apply prefix_app_r.
  + intros Hp. apply H2. etrans; [|exact Hp]. by apply prefix_app_r.
Qed.

Lemma published_hydratable src name m now version a fs fs' :
  captured src (file_entries m) fs -> no_collision src m fs -> manifest_wf m ->
  op_ok N (RPut (snapshot_record a name m now version)) a ->
  refs_abs root N fs' (ref_spec (RPut (snapshot_record a name m now version)) a).2 ->
  present root fs' (of_bytes (Manifest.encode m)) -> (forall f, f ∈ file_entries m -> present root fs' f.2) ->
  hydratable root fs' name (snapshot_record a name m now version) m.
Proof.
intros Hcap Hinj Hm (Hn & Hwf & _) Ha' (cm & Pm & Hcm) Pf. cbn in Hn. split.
- apply Ha'.
- by apply (names_valid _ HN).
- rewrite (abs_cur _ _ _ _ Ha') by done. cbn [ref_spec snd cur]. cbn [snapshot_record RefRecord.name].
  by rewrite lookup_insert_eq.
- done.
- cbn [snapshot_record RefRecord.root]. rewrite Pm. f_equal. apply Hinj; [by left|done].
- done.
- done.
- intros p mode z d Hin. apply (Pf (p, d)). by eapply elem_of_file_entries.
Qed.

Lemma copied_intro src m fs fs' dest fs'' :
  captured src (file_entries m) fs -> no_collision src m fs ->
  (forall f, f ∈ file_entries m -> present root fs' f.2) ->
  materialised root fs' dest (entries m) fs'' -> copied src (entries m) fs dest fs''.
Proof.
intros Hcap Hinj Pf (Hnodes & _) e He. specialize (Hnodes e He). destruct e as [p mode z d|p t|p]; [|done..].
pose proof (elem_of_file_entries _ _ _ _ _ He) as Hf. destruct (Hcap _ Hf) as (_ & c & m0 & Hc & Hh).
exists c, m0. split; [done|]. rewrite Hnodes. cbn [node_for]. destruct (Pf _ Hf) as (c' & Hc' & Hh'). cbn [snd] in *.
rewrite Hc'. simpl. rewrite (Hinj c c'); [done| |congruence]. right. exists (p, d), m0. done.
Qed.

End roundtrip.


(** * A concrete working tree *)

Definition demo_work : path := [str "work"].
Definition demo_out : path := [str "out"].
Definition demo_a : bytes := str "alpha".
Definition demo_b : bytes := str "#!/bin/sh".

(** The digests the pinned hash gives to [demo_a] and [demo_b]. *)
Definition demo_manifest : Manifest :=
  mkManifest 1 14
    [File (str "a.txt") 420 5 (x01 :: le_bytes 31 1);
     File (str "bin/b.sh") 493 9 (x01 :: le_bytes 31 2);
     Dir (str "empty");
     Symlink (str "link") (str "a.txt")].

Definition demo_pins : list bytes := [Manifest.encode demo_manifest; demo_a; demo_b].
Definition demo_b3 : Blake3 := pinned_blake3 demo_pins.

Definition demo_tree : gmap path node :=
  {[ [] := NDir; demo_root := NDir; demo_work := NDir;
     demo_work ++ [str "a.txt"] := NFile demo_a 420;
     demo_work ++ [str "bin"] := NDir;
     demo_work ++ [str "bin"; str "b.sh"] := NFile demo_b 493;
     demo_work ++ [str "empty"] := NDir;
     demo_work ++ [str "link"] := NSymlink (str "a.txt") ]}.

Lemma demo_tree_head p n : demo_tree !! p = Some n ->
  p = [] \/ p = demo_root \/ head p = Some (str "work").
Proof.
revert p n. change (map_Forall (fun p _ => p = [] \/ p = demo_root \/ head p = Some (str "work")) demo_tree). by_eval.
Qed.

Lemma demo_tree_below q n : demo_tree !! (demo_root ++ q) = Some n -> q = [].
Proof. intros [H|[H|H]]%demo_tree_head; [done| |done]. by apply (app_inv_head demo_root q []) in H. Qed.

Lemma demo_tree_ready : store_ready demo_root demo_tree.
Proof.
apply fresh_store_ready; [| |reflexivity|reflexivity|intros q n; apply demo_tree_below].
- apply fs_wf_check; [reflexivity|by_eval].
- change (map_Forall (fun p _ => existsb is_tmp_name p = false) demo_tree). by_eval.
Qed.

Lemma demo_tree_refs : @refs_abs demo_b3 demo_root [str "main"] demo_tree (mkRefs ∅ []).
Proof. apply fresh_refs_abs; [apply demo_tree_ready|intros q n; apply demo_tree_below]. Qed.

Lemma demo_main_ok : @names_ok demo_b3 [str "main"].
Proof.
split; [intros n ->%list_elem_of_singleton; vm_compute; reflexivity|].
by intros n n' ->%list_elem_of_singleton ->%list_elem_of_singleton.
Qed.

Lemma demo_tree_cas : @cas_ok demo_b3 demo_root demo_tree.
Proof.
intros d c. rewrite pub_file_at by (by apply object_path_tmp). unfold file_at, object_path. rewrite sharded_slot.
destruct (demo_tree !! _) as [n|] eqn:E; [|done]. by apply demo_tree_below in E.
Qed.

Lemma demo_captured : @captured demo_b3 demo_work (file_entries demo_manifest) demo_tree.
Proof.
intros f. unfold file_entries. cbn. rewrite !elem_of_cons.
intros [->|[->|[]%not_elem_of_nil]]; (split; [reflexivity|]); eexists _, _; (split; [vm_compute; reflexivity|vm_compute; reflexivity]).
Qed.

Lemma demo_no_collision : @no_collision demo_b3 demo_work demo_manifest demo_tree.
Proof.
intros c c' Hc. apply pinned_inj; [vm_compute; reflexivity|].
destruct Hc as [->|(f & mode & Hf & Hl)]; [by constructor|]. unfold file_entries in Hf. cbn in Hf.
rewrite !elem_of_cons in Hf. destruct Hf as [->|[->|[]%not_elem_of_nil]]; vm_compute in Hl;
  injection Hl as <- _; by_eval.
Qed.

Lemma demo_tree_ok : tree_ok (entries demo_manifest).
Proof.
split.
- apply Forall_forall. by_eval.
- by_eval.
- assert (Forall (fun ei => Forall (fun ej => leaf ei = true ->
    components (entry_path ei) `prefix_of` components (entry_path ej) -> ei = ej) (entries demo_manifest))
    (entries demo_manifest)) as H by by_eval.
  intros ei ej Hi Hj. rewrite Forall_forall in H. specialize (H ei Hi). rewrite Forall_forall in H. by apply H.
Qed.

Lemma demo_dest_free : dest_free demo_out demo_tree.
Proof.
split.
- intros q Hq. destruct q as [|x q]; [by right|]. left. destruct (demo_tree !! (x :: q)) eqn:E; [|done].
  destruct Hq as [k [= <- Hk]]. apply demo_tree_head in E as [E|[E|E]]; discriminate E.
- intros q Hq. destruct (demo_tree !! (demo_out ++ q)) eqn:E; [|done].
  apply demo_tree_head in E as [E|[E|E]]; discriminate E.
Qed.


(** The snapshot of the demo tree is killed while it writes the ref's pointer: the
    objects are there, the ref is not. *)
Definition demo_killed : World := mkWorld demo_tree (replicate 76 FOk ++ [FCrash 3]) 7 0.

Lemma publish_snapshot_safe_witness :
  let r := @publish_snapshot demo_b3 demo_root Reflink demo_work (str "main") demo_manifest 1700000000 (str "0.1.0")
    demo_killed in
  r.1 = Crashed /\ pub (w_fs r.2) (@ref_path demo_root (@ref_key demo_b3 (str "main"))) = None /\
  pub (w_fs r.2) (object_path demo_root (x01 :: le_bytes 31 2)) = Some demo_b /\
  @snapshot_post demo_b3 demo_root SnapshotReport (str "main") demo_manifest demo_tree r.
Proof.
split; [vm_compute; reflexivity|]. split; [vm_compute; reflexivity|]. split; [vm_compute; reflexivity|].
apply (@publish_snapshot_safe demo_b3 demo_root Reflink demo_work (str "main") demo_manifest 1700000000 (str "0.1.0")
  demo_killed); [reflexivity|]. apply objects_of_ready; [apply demo_tree_ready|apply demo_tree_cas].
Defined.

Lemma hydrate_exact_witness :
  exists rep fs' fs'',
    does (@publish_snapshot demo_b3 demo_root Clone demo_work (str "main") demo_manifest 1700000000 (str "0.1.0"))
      demo_tree (Ok rep) fs' /\
    does (@hydrate_impl demo_b3 demo_root CopyRange demo_out (str "main") false) fs'
      (Ok (mkHydrateReport (@of_bytes demo_b3 (Manifest.encode demo_manifest)) 2 14 CopyRange)) fs'' /\
    @materialised demo_root fs' demo_out (entries demo_manifest) fs''.
Proof.
assert (op_ok [str "main"] (RPut (@snapshot_record demo_b3 (mkRefs ∅ []) (str "main") demo_manifest 1700000000
  (str "0.1.0"))) (mkRefs ∅ [])) as Hop by (split; [by constructor|split; [by_eval|vm_compute; done]]).
destruct (@does_publish_snapshot demo_b3 demo_root [str "main"] demo_main_ok Clone demo_work (str "main") demo_manifest
  1700000000 (str "0.1.0") (mkRefs ∅ []) demo_tree demo_tree_refs demo_tree_cas demo_captured Hop)
  as (new & fs' & D & Ha' & Pm & Pf).
assert (manifest_wf demo_manifest) as Hm by by_eval.
pose proof (@published_hydratable demo_b3 demo_root [str "main"] demo_main_ok demo_work (str "main") demo_manifest
  1700000000 (str "0.1.0") (mkRefs ∅ []) demo_tree fs' demo_captured demo_no_collision Hm Hop Ha' Pm Pf) as Hy.
destruct (@hydrate_exact demo_b3 demo_root CopyRange fs' (str "main") _ demo_manifest demo_out false Hy demo_tree_ok)
  as (fs'' & D' & Hmat).
{ eapply (dest_free_after demo_root demo_tree); [apply demo_dest_free|by_eval|by_eval|apply Ha'|apply Ha'|].
  destruct (D (mkWorld demo_tree [] 0 0) eq_refl eq_refl) as (w' & E & <- & _).
  pose proof (@publish_snapshot_post demo_b3 demo_root eq_refl Clone demo_work (str "main") demo_manifest 1700000000
    (str "0.1.0") (mkWorld demo_tree [] 0 0) (@objects_of_ready demo_b3 demo_root demo_tree demo_tree_ready demo_tree_cas))
    as (_ & Hout & _).
  rewrite E in Hout. exact Hout. }
eexists _, fs', fs''. split; [exact D|]. split; [exact D'|exact Hmat].
Defined.
