(* ===== verification/Bisect.v ===== *)
(** Searching a ref's history for the version that broke something ([bisect] of
    crates/lightr-index/src/index/timeaxis.rs): each tested version is laid out in a
    fresh directory, the command runs there, and the directory is removed.  The
    command and the nanosecond clock that names the directories are arguments. *)

From S2P Require Import Prelude Error Cursor Digest Manifest RefRecord Fs FsFacts OwnedTemp Calm Cas Layout Refs TimeAxis IndexCodec Scan Hydrate Confine Snapshot.

(** * Definitions *)

(** One entry of a version below the temporary directory. *)
Definition lay_entry `{B3 : Blake3} (root : path) (rung : CowRung) (tmp : path) (e : Entry) : IO unit :=
  match e with
  | File p mode _ d =>
      let dest := join tmp p in
      _ ← create_parent dest;
      materialize_file root d dest mode rung
  | Symlink p target =>
      let link := join tmp p in
      _ ← create_parent link;
      symlink target link
  | Dir p => create_dir_all (join tmp p)
  end.

Definition bisect_tmp (temp_dir : path) (pid nanos : Z) : path :=
  temp_dir ++ [str "lightr-bisect-" ++ dec pid ++ str "-" ++ dec nanos].

Section bisect.
Context `{B3 : Blake3} (root : path) (rung : CowRung).
(** The system's temporary directory, the process id, the clock reading of each test,
    and the run of a command in a directory: whether it exits with 0. *)
Context (temp_dir : path) (pid : Z) (nanos : nat -> Z) (exec : list bytes -> path -> IO bool).

(** The closure [test]: is version [idx] bad? *)
Definition bisect_test (cmd : list bytes) (log : list RefRecord) (idx : nat) : IO bool :=
  let tmp := bisect_tmp temp_dir pid (nanos idx) in
  _ ← create_dir_all tmp;
  finally
    (rec ← lift (ok_or (log !! idx) (InvalidRef []));
     manifest_bytes ← get_bytes root (RefRecord.root rec);
     m ← lift (Manifest.decode manifest_bytes);
     _ ← for_each (entries m) (lay_entry root rung tmp);
     if bool_decide (cmd = []) then throw (InvalidRef (str "bisect: empty cmd")) else
     success ← exec cmd tmp;
     mret (negb success))
    (ignore (remove_dir_all tmp)).

(** The search loop; [fuel] bounds the iterations, and the length of the log is
    enough (theorem [bisect_boundary]). *)
Fixpoint bisect_loop (test : nat -> IO bool) (fuel lo hi : nat) : IO nat :=
  if bool_decide (1 < hi - lo) then
    match fuel with
    | O => mret lo
    | S fuel =>
        let mid := lo + (hi - lo) / 2 in
        bad ← test mid;
        if (bad : bool) then bisect_loop test fuel mid hi else bisect_loop test fuel lo mid
    end
  else mret lo.

Definition bisect (name : bytes) (cmd : list bytes) : IO (nat * RefRecord) :=
  log ← ref_log root name;
  let n := length log in
  if bool_decide (n < 2) then throw (InvalidRef (str "bisect: need ≥2 versions")) else
  let test := bisect_test cmd log in
  end0_bad ← test 0;
  end_last_bad ← test (n - 1);
  if negb end0_bad || end_last_bad then throw (InvalidRef (str "bisect: endpoints not bad/good")) else
  lo ← bisect_loop test n 0 (n - 1);
  rec ← lift (ok_or (log !! lo) (InvalidRef []));
  mret (lo, rec).

End bisect.

(** * Laying out a version *)

Section lay.
Context `{B3 : Blake3} (root : path) (rung : CowRung) (tmp : path) (fs : gmap path node) (es : list Entry).
Context (Hroot : tmp_path root = false) (Hfree : dest_free tmp fs) (Ht : tree_ok es).
Context (Hobj : forall p mode z d, File p mode z d ∈ es ->
  exists c, pub fs (object_path root d) = Some c /\ of_bytes c = d).

(** The tree after the entries [done]: their leaves, and the directories made for
    them, over [fs]. *)
Record laid (ds : list Entry) (fs' : gmap path node) : Prop := {
  laid_wf : fs_wf fs';
  laid_leaf : forall e, e ∈ ds -> leaf e = true -> fs' !! place tmp e = Some (node_for root fs e);
  laid_rest : forall q, (forall e, e ∈ ds -> leaf e = true -> q <> place tmp e) ->
    fs' !! q = if decide (Exists (fun d => q `prefix_of` d) (tmp :: (dir_for tmp <$> ds))) then Some NDir else fs !! q;
}.

Lemma place_inj_leaf e e' : e ∈ es -> e' ∈ es -> leaf e = true -> place tmp e `prefix_of` place tmp e' -> e = e'.
Proof. intros He He' Hl Hp. apply (tree_leaf _ Ht); [done..|]. unfold place in Hp. by apply prefix_app_inv in Hp. Qed.

Lemma dir_for_prefix e : e ∈ es -> dir_for tmp e `prefix_of` place tmp e.
Proof.
intros He. destruct (tree_rel _ Ht e He) as [_ Hne]. destruct (dir_for_below tmp e Hne) as (q & -> & Hq).
unfold place. by apply prefix_app.
Qed.

(** No leaf is at or above the directory made for an entry. *)
Lemma leaf_not_above_dir e e' : e ∈ es -> e' ∈ es -> leaf e = true -> ~ place tmp e `prefix_of` dir_for tmp e'.
Proof.
intros He He' Hl Hp. assert (e = e') as <-.
{ apply place_inj_leaf; [done..|]. etrans; [exact Hp|by apply dir_for_prefix]. }
destruct (tree_rel _ Ht e He) as [_ Hne]. unfold dir_for in Hp. rewrite Hl, place_parent in Hp by done.
unfold place in Hp. apply prefix_app_inv, prefix_length in Hp.
destruct (components (entry_path e)) as [|c l _] using rev_ind; [done|].
rewrite removelast_last, length_app in Hp. simpl in Hp. lia.
Qed.

Lemma dir_for_ok e : e ∈ es -> dirs_ok (dir_for tmp e) fs.
Proof.
intros He. destruct (tree_rel _ Ht e He) as [_ Hne]. destruct (dir_for_below tmp e Hne) as (q & -> & _).
by apply dest_free_dirs_ok.
Qed.

Lemma laid_dirs_ok ds fs' e : (forall d, d ∈ ds -> d ∈ es) -> e ∈ es -> laid ds fs' -> dirs_ok (dir_for tmp e) fs'.
Proof.
intros Hds He HL q Hq. rewrite (laid_rest _ _ HL).
- case_decide; [by right|]. by apply (dir_for_ok e).
- intros e' He' Hl ->. by apply (leaf_not_above_dir e' e); [apply Hds|..].
Qed.

(** Making the directory of the next entry. *)
Lemma laid_add_dirs ds fs' e q : (forall d, d ∈ ds -> d ∈ es) -> e ∈ es -> laid ds fs' ->
  (forall e', e' ∈ ds -> leaf e' = true -> q <> place tmp e') ->
  add_dirs (dir_for tmp e) fs' !! q =
    if decide (Exists (fun d => q `prefix_of` d) (tmp :: (dir_for tmp <$> (ds ++ [e])))) then Some NDir else fs !! q.
Proof.
intros Hds He HL Hq. rewrite add_dirs_lookup by first [apply HL|by apply (laid_dirs_ok ds)].
rewrite (laid_rest _ _ HL) by done. rewrite fmap_app, app_comm_cons.
assert (Exists (fun d => q `prefix_of` d) ((tmp :: (dir_for tmp <$> ds)) ++ (dir_for tmp <$> [e])) <->
  Exists (fun d => q `prefix_of` d) (tmp :: (dir_for tmp <$> ds)) \/ q `prefix_of` dir_for tmp e) as Hx
  by (rewrite Exists_app; cbn [fmap list_fmap]; rewrite (Exists_cons _ (dir_for tmp e)), Exists_nil; tauto).
repeat case_decide; first [done|tauto].
Qed.

Lemma laid_add_leaf ds fs' e e' : (forall d, d ∈ ds -> d ∈ es) -> e ∈ es -> laid ds fs' -> e' ∈ ds -> leaf e' = true ->
  add_dirs (dir_for tmp e) fs' !! place tmp e' = Some (node_for root fs e').
Proof.
intros Hds He HL He' Hl. rewrite add_dirs_lookup by first [apply HL|by apply (laid_dirs_ok ds)].
rewrite decide_False; [by apply HL|]. apply leaf_not_above_dir; auto.
Qed.

(** The place of the next leaf is free, its parent is there, and the objects too. *)
Lemma laid_free ds fs' e : (forall d, d ∈ ds -> d ∈ es) -> e ∈ es -> e ∉ ds -> laid ds fs' -> leaf e = true ->
  add_dirs (dir_for tmp e) fs' !! place tmp e = None /\
  add_dirs (dir_for tmp e) fs' !! parent_path (place tmp e) = Some NDir.
Proof.
intros Hds He Hn HL Hl. destruct (tree_rel _ Ht e He) as [_ Hne]. split.
- rewrite (laid_add_dirs ds) by (try done; intros e' He' Hl' E; apply Hn; rewrite <- (place_inj_leaf e' e); auto; by rewrite E).
  rewrite decide_False; [by apply (free_below _ _ Hfree)|]. intros Hx. apply Exists_cons in Hx as [Hx|Hx].
  + apply prefix_length in Hx. unfold place in Hx. rewrite length_app in Hx.
    destruct (components (entry_path e)); [done|simpl in Hx; lia].
  + apply Exists_exists in Hx as (d & (e' & -> & He')%list_elem_of_fmap & Hp). revert Hp.
    apply leaf_not_above_dir; [done| |done]. apply elem_of_app in He' as [?| ->%list_elem_of_singleton]; auto.
- rewrite add_dirs_lookup by first [apply HL|by apply (laid_dirs_ok ds)]. rewrite decide_True; [done|].
  unfold dir_for. by rewrite Hl.
Qed.

Lemma laid_object ds fs' e d c : (forall d, d ∈ ds -> d ∈ es) -> e ∈ es -> laid ds fs' ->
  pub fs (object_path root d) = Some c ->
  exists m, add_dirs (dir_for tmp e) fs' !! object_path root d = Some (NFile c m).
Proof.
intros Hds He HL Hc. rewrite pub_file_at in Hc by (by apply object_path_tmp). unfold file_at in Hc.
destruct (fs !! object_path root d) as [[c0 m0| |]|] eqn:E; simplify_eq. exists m0.
assert (forall q, q `prefix_of` tmp \/ (exists e, e ∈ es /\ q `prefix_of` place tmp e) -> object_path root d <> q) as Hq.
{ intros q Hq <-. assert (object_path root d `prefix_of` tmp \/ exists k, k <> [] /\ object_path root d = tmp ++ k) as [H|(k & Hk & H)].
  { destruct Hq as [?|(e1 & _ & Hp)]; [by left|]. apply prefix_root_cases in Hp as [?|(k & Hk & _)]; [by left|].
    rewrite Hk. destruct k as [|b k]; [left; by rewrite app_nil_r|right; by exists (b :: k)]. }
  - destruct (free_dirs _ _ Hfree _ H); congruence.
  - rewrite H, (free_below _ _ Hfree k Hk) in E. congruence. }
rewrite (laid_add_dirs ds) by (try done; intros e' He' _; apply Hq; right; exists e'; auto).
rewrite decide_False; [done|]. intros Hx. apply Exists_cons in Hx as [Hx|Hx]; [by apply (Hq (object_path root d)); [left|]|].
apply Exists_exists in Hx as (d' & (e' & -> & He')%list_elem_of_fmap & Hp). apply (Hq (object_path root d)); [|done].
assert (e' ∈ es) by (apply elem_of_app in He' as [?| ->%list_elem_of_singleton]; auto).
right. exists e'. split; [done|]. etrans; [exact Hp|by apply dir_for_prefix].
Qed.

(** The next entry. *)
Lemma laid_snoc_leaf ds fs' e : (forall d, d ∈ ds -> d ∈ es) -> e ∈ es -> e ∉ ds -> laid ds fs' -> leaf e = true ->
  laid (ds ++ [e]) (<[place tmp e := node_for root fs e]> (add_dirs (dir_for tmp e) fs')).
Proof.
intros Hds He Hn HL Hl. destruct (laid_free ds fs' e Hds He Hn HL Hl) as [Hp Hpar]. split.
- apply fs_wf_insert; [apply add_dirs_wf; [apply HL|by apply (laid_dirs_ok ds)]|congruence|done].
- intros e' [He'| ->%list_elem_of_singleton]%elem_of_app Hl'; [|by rewrite lookup_insert_eq].
  rewrite lookup_insert_ne; [by apply (laid_add_leaf ds)|]. intros E. apply Hn.
  rewrite (place_inj_leaf e e'); auto. by rewrite E.
- intros q Hq. rewrite lookup_insert_ne by (intros E; apply (Hq e); [set_solver|done|done]).
  apply laid_add_dirs; [done..|]. intros e' He'. apply Hq. set_solver.
Qed.

Lemma laid_snoc_dir ds fs' e : (forall d, d ∈ ds -> d ∈ es) -> e ∈ es -> laid ds fs' -> leaf e = false ->
  laid (ds ++ [e]) (add_dirs (dir_for tmp e) fs').
Proof.
intros Hds He HL Hl. split.
- apply add_dirs_wf; [apply HL|by apply (laid_dirs_ok ds)].
- intros e' [He'| ->%list_elem_of_singleton]%elem_of_app Hl'; [by apply (laid_add_leaf ds)|congruence].
- intros q Hq. apply laid_add_dirs; [done..|]. intros e' He'. apply Hq. set_solver.
Qed.

Lemma does_lay_entry ds fs' e : (forall d, d ∈ ds -> d ∈ es) -> e ∈ es -> e ∉ ds -> laid ds fs' ->
  exists fs2, does (lay_entry root rung tmp e) fs' (Ok tt) fs2 /\ laid (ds ++ [e]) fs2.
Proof.
intros Hds He Hn HL. destruct (tree_rel _ Ht e He) as [Habs Hne]. pose proof (join_place tmp e Habs) as Hj.
assert (does (create_dir_all (dir_for tmp e)) fs' (Ok tt) (add_dirs (dir_for tmp e) fs')) as Dd
  by (apply does_create_dir_all; [apply HL|by apply (laid_dirs_ok ds)]).
assert (place tmp e <> []) as Hpl by (unfold place; intros [_ ?]%app_nil; done).
destruct (leaf e) eqn:Hl.
- exists (<[place tmp e := node_for root fs e]> (add_dirs (dir_for tmp e) fs')). split; [|by apply laid_snoc_leaf].
  destruct (laid_free ds fs' e Hds He Hn HL Hl) as [Hp Hpar]. unfold dir_for in Dd. rewrite Hl in Dd.
  destruct e as [p mode z d|p t|p]; [| |done]; cbn [lay_entry entry_path] in *; rewrite Hj; unfold create_parent;
    rewrite bool_decide_eq_false_2 by done; (eapply does_bind; [exact Dd|]); cbv beta.
  + destruct (Hobj p mode z d He) as (c & Hc & Hh).
    destruct (laid_object ds fs' (File p mode z d) d c Hds He HL Hc) as [m Hm].
    cbn [node_for]. rewrite Hc. cbn [default]. unfold dir_for in *. rewrite Hl in *.
    eapply does_materialize_file; [|exact Hm|done|done|done].
    apply add_dirs_wf; [apply HL|]. pose proof (laid_dirs_ok ds fs' (File p mode z d) Hds He HL) as Hok.
    unfold dir_for in Hok. by rewrite Hl in Hok.
  + cbn [node_for]. unfold dir_for in *. rewrite Hl in *. apply does_sys0. rewrite Hp.
    by rewrite (proj2 (is_dir_true _ _) Hpar).
- exists (add_dirs (dir_for tmp e) fs'). split; [|by apply laid_snoc_dir].
  destruct e as [| |p]; [done..|]. cbn [lay_entry entry_path] in *. rewrite Hj. unfold dir_for in Dd. by rewrite Hl in Dd.
Qed.

Lemma does_lay_entries ds l fs' : es = ds ++ l -> laid ds fs' ->
  exists fs2, does (for_each l (lay_entry root rung tmp)) fs' (Ok tt) fs2 /\ laid es fs2.
Proof.
revert ds fs'. induction l as [|e l IH]; intros ds fs' E HL.
- exists fs'. split; [apply does_ret|]. by rewrite E, app_nil_r.
- pose proof (tree_nodup _ Ht) as Hnd. rewrite E in Hnd. apply NoDup_app in Hnd as (_ & Hd & _).
  destruct (does_lay_entry ds fs' e) as (fs2 & D & HL2); [set_solver|set_solver|intros He; apply (Hd e He); by constructor|done|].
  destruct (IH (ds ++ [e]) fs2) as (fs3 & D3 & HL3); [by rewrite <- app_assoc|done|].
  exists fs3. split; [|done]. cbn [for_each]. eapply does_bind; [exact D|exact D3].
Qed.

Lemma laid_start : fs_wf fs -> laid [] (add_dirs tmp fs).
Proof.
intros Hwf. pose proof (free_dirs _ _ Hfree) as Hok. split.
- by apply add_dirs_wf.
- intros e He. by apply not_elem_of_nil in He.
- intros q _. rewrite add_dirs_lookup by done. cbn [fmap list_fmap].
  repeat case_decide; rewrite ?Exists_cons, ?Exists_nil in *; tauto.
Qed.

Lemma laid_materialised fs' : fs_wf fs -> laid es fs' -> materialised root fs tmp es fs'.
Proof.
intros Hwf HL. destruct (does_make_all_dirs tmp es fs Hwf Hfree Ht) as (fs1 & _ & _ & Hd).
apply (materialised_intro root tmp es fs fs1 fs'); [done|done|done|apply HL|].
intros q Hq. by rewrite (laid_rest _ _ HL q Hq), Hd.
Qed.

End lay.

(** * One test *)

(** Everything a record needs to be laid out is in the store. *)
Record complete `{B3 : Blake3} (root : path) (fs : gmap path node) (rec : RefRecord) (m : Manifest) : Prop := {
  comp_manifest : pub fs (object_path root (RefRecord.root rec)) = Some (Manifest.encode m);
  comp_digest : of_bytes (Manifest.encode m) = RefRecord.root rec;
  comp_wf : manifest_wf m;
  comp_tree : tree_ok (entries m);
  comp_objects : forall p mode z d, File p mode z d ∈ entries m ->
    exists c, pub fs (object_path root d) = Some c /\ of_bytes c = d;
}.

(** Removing what a test made restores the tree. *)
Lemma restored fs fs2 tmp :
  (forall q, fs !! (tmp ++ q) = None) -> (forall p, ~ tmp `prefix_of` p -> fs2 !! p = fs !! p) ->
  delete_all (nodes_below fs2 tmp) fs2 = fs.
Proof.
intros Hn Ho. apply map_eq. intros q. rewrite delete_below_lookup. case_decide as Hp; [|by apply Ho].
destruct Hp as [k ->]. by rewrite Hn.
Qed.

Section test.
Context `{B3 : Blake3} (root : path) (rung : CowRung) (temp_dir : path) (pid : Z) (nanos : nat -> Z).
Context (exec : list bytes -> path -> IO bool) (cmd : list bytes) (fs : gmap path node).
Context (Hroot : tmp_path root = false) (Hwf : fs_wf fs) (Htemp : fs !! temp_dir = Some NDir) (Hcmd : cmd <> []).

(** The command answers [good] in every tree that holds version [m] below [tmp], and
    stays below [tmp]. *)
Definition answers (tmp : path) (m : Manifest) (good : bool) : Prop :=
  forall fs1, fs_wf fs1 -> materialised root fs tmp (entries m) fs1 ->
  exists fs2, does (exec cmd tmp) fs1 (Ok good) fs2 /\ fs2 !! tmp = Some NDir /\
    forall p, ~ tmp `prefix_of` p -> fs2 !! p = fs1 !! p.

Lemma does_bisect_test log idx rec m good :
  let tmp := bisect_tmp temp_dir pid (nanos idx) in
  log !! idx = Some rec -> complete root fs rec m -> (forall q, fs !! (tmp ++ q) = None) -> answers tmp m good ->
  does (bisect_test root rung temp_dir pid nanos exec cmd log idx) fs (Ok (negb good)) fs.
Proof.
intros tmp Hrec Hc Hn Ha.
assert (forall p, p `prefix_of` tmp -> p = tmp \/ fs !! p = Some NDir) as Hup.
{ intros p Hp. unfold tmp, bisect_tmp in Hp. apply prefix_snoc_inv in Hp as [->|Hp]; [by left|right].
  by eapply fs_wf_ancestor. }
assert (dest_free tmp fs) as Hfree.
{ split; [|intros q _; apply Hn]. intros p Hp. destruct (Hup p Hp) as [->|?]; [left|by right].
  rewrite <- (app_nil_r tmp). apply Hn. }
pose proof (laid_start root tmp fs Hfree Hwf) as HL0. pose proof (free_dirs _ _ Hfree) as Hok.
destruct (does_lay_entries root rung tmp fs (entries m) Hroot Hfree (comp_tree _ _ _ _ Hc) (comp_objects _ _ _ _ Hc)
  [] (entries m) (add_dirs tmp fs) eq_refl HL0) as (fs1 & D1 & HL).
pose proof (laid_materialised root tmp fs (entries m) Hfree (comp_tree _ _ _ _ Hc) fs1 Hwf HL) as Hm.
destruct (Ha fs1 (laid_wf _ _ _ _ _ HL) Hm) as (fs2 & D2 & Ht2 & Ho2).
assert (delete_all (nodes_below fs2 tmp) fs2 = fs) as Hback.
{ apply restored; [done|]. intros p Hp. rewrite Ho2 by done. destruct (decide (p `prefix_of` tmp)) as [Hp'|Hp'];
    [|by apply Hm]. destruct (Hup p Hp') as [->|E]; [by destruct Hp|]. rewrite (laid_rest _ _ _ _ _ HL).
  - rewrite decide_True, E; [done|]. by left.
  - intros e _ _ ->. apply Hp. by apply prefix_app_r. }
pose proof (does_remove_dir_all tmp fs2 Ht2) as Drm. rewrite Hback in Drm.
unfold bisect_test. fold tmp. eapply does_bind; [by apply does_create_dir_all|]. cbv beta.
eapply does_finally; [|eapply does_ignore, Drm].
rewrite Hrec. eapply does_bind; [apply does_ret|]. cbv beta. eapply does_bind.
{ apply does_get_file; [|apply Hc]. pose proof (comp_manifest _ _ _ _ Hc) as Hp.
  rewrite pub_file_at in Hp by (by apply object_path_tmp). unfold file_at in *. rewrite add_dirs_lookup by done.
  case_decide as Hpre; [|done]. destruct (Hok _ Hpre) as [E|E]; by rewrite E in Hp. }
cbv beta. eapply does_bind; [rewrite manifest_decode_encode by apply Hc; apply does_ret|]. cbv beta.
eapply does_bind; [exact D1|]. cbv beta. rewrite bool_decide_eq_false_2 by done.
eapply does_bind; [exact D2|]. apply does_ret.
Qed.

End test.

(** * The search *)

Lemma bisect_loop_spec test (bad : nat -> bool) fs fuel lo hi :
  (forall i, lo <= i <= hi -> does (test i) fs (Ok (bad i)) fs) ->
  lo < hi -> hi - lo <= fuel -> bad lo = true -> bad hi = false ->
  exists i, does (bisect_loop test fuel lo hi) fs (Ok i) fs /\
    lo <= i < hi /\ bad i = true /\ bad (S i) = false.
Proof.
revert lo hi. induction fuel as [|fuel IH]; intros lo hi Ht Hlt Hf Hlo Hhi; cbn [bisect_loop].
- lia.
- case_bool_decide as Hgt.
  + set (mid := lo + (hi - lo) / 2). assert (lo < mid < hi) as Hmid.
    { unfold mid. pose proof (Nat.div_le_lower_bound (hi - lo) 2 1). pose proof (Nat.div_lt (hi - lo) 2). lia. }
    assert (does (test mid) fs (Ok (bad mid)) fs) as Hd by (apply Ht; lia).
    destruct (bad mid) eqn:Em.
    * destruct (IH mid hi) as (i & D & Hi & Hb); [|lia|lia|done|done|].
      { intros i Hi. apply Ht. lia. }
      exists i. split; [eapply does_bind; [exact Hd|exact D]|]. split; [lia|done].
    * destruct (IH lo mid) as (i & D & Hi & Hb); [|lia|lia|done|done|].
      { intros i Hi. apply Ht. lia. }
      exists i. split; [eapply does_bind; [exact Hd|exact D]|]. split; [lia|done].
  + exists lo. split; [apply does_ret|]. split; [lia|]. split; [done|].
    assert (S lo = hi) as -> by lia. done.
Qed.

(** C39: bisect finds a boundary and leaves no trace.  On a store in layout and without
    I/O faults, let every version of the ref be complete in the store, the temporary
    directories be free, and the command, run in a directory that holds exactly version
    [i] (0 the newest), fail if and only if [bad i], touching nothing outside that
    directory.  If the newest version is bad and the oldest is good, [bisect] terminates
    and returns a bad version whose next older version is good; when bad versions are
    exactly the newer ones it is the oldest bad version.  Every file and directory is
    afterwards as before. *)
Theorem bisect_boundary `{B3 : Blake3} root rung temp_dir pid nanos exec N a fs name cmd ms (bad : nat -> bool) :
  names_ok N -> refs_abs root N fs a -> name ∈ N ->
  let log := reverse (history a name) in
  Forall2 (complete root fs) log ms -> cmd <> [] -> fs !! temp_dir = Some NDir ->
  (forall i q, i < length log -> fs !! (bisect_tmp temp_dir pid (nanos i) ++ q) = None) ->
  (forall i m, ms !! i = Some m ->
    answers root exec cmd fs (bisect_tmp temp_dir pid (nanos i)) m (negb (bad i))) ->
  2 <= length log -> bad 0 = true -> bad (length log - 1) = false ->
  exists i rec, does (bisect root rung temp_dir pid nanos exec name cmd) fs (Ok (i, rec)) fs /\ log !! i = Some rec /\
    bad i = true /\ bad (S i) = false /\ S i < length log /\
    ((forall j k, j <= k -> bad k = true -> bad j = true) ->
     forall j, j < length log -> bad j = true <-> j <= i).
Proof.
intros HN Ha Hname log Hall Hcmd Htemp Hfree Hans Hn H0 Hlast.
assert (forall i, i < length log ->
  does (bisect_test root rung temp_dir pid nanos exec cmd log i) fs (Ok (bad i)) fs) as Ht.
{ intros i Hi. destruct (lookup_lt_is_Some_2 log i Hi) as [rec Hrec].
  destruct (Forall2_lookup_l _ _ _ _ _ Hall Hrec) as (m & Hm & Hc). rewrite <- (negb_involutive (bad i)).
  eapply does_bisect_test; [apply Ha|apply Ha|done|done|done|done|intros q; by apply Hfree|by apply Hans]. }
assert (does (ref_log root name) fs (Ok log) fs) as Hl.
{ apply does_ref_log; [apply Ha|by apply (names_valid _ HN)|by apply (abs_log _ _ _ _ Ha)|].
  apply Forall_forall. intros r Hr. pose proof (abs_puts _ _ _ _ Ha) as Hp. rewrite Forall_forall in Hp. apply Hp.
  unfold history in Hr. by apply list_elem_of_filter in Hr as [_ ?]. }
destruct (bisect_loop_spec (bisect_test root rung temp_dir pid nanos exec cmd log) bad fs (length log) 0 (length log - 1))
  as (i & D & Hi & Hb & Hg); [intros i Hi; apply Ht; lia|lia|lia|done|done|].
destruct (lookup_lt_is_Some_2 log i) as [rec Hrec]; [lia|]. exists i, rec. split; [|split; [done|]].
- unfold bisect. eapply does_bind; [exact Hl|]. cbv beta zeta. rewrite bool_decide_eq_false_2 by lia.
  eapply does_bind; [apply Ht; lia|]. cbv beta. eapply does_bind; [apply Ht; lia|]. cbv beta.
  rewrite H0, Hlast. cbn [negb orb]. eapply does_bind; [exact D|]. cbv beta. rewrite Hrec.
  eapply does_bind; apply does_ret.
- split; [done|]. split; [done|]. split; [lia|]. intros Hmono j Hj. split.
  + intros Hbj. destruct (decide (j <= i)) as [|Hgt]; [done|]. rewrite (Hmono (S i) j) in Hg; [done|lia|done].
  + intros Hji. by eapply Hmono.
Qed.

(** * Two versions of the demo tree *)

Definition demo_rec1 : RefRecord :=
  @snapshot_record demo_b3 (mkRefs ∅ []) (str "main") demo_manifest 1700000000 (str "0.1.0").
Definition demo_rec2 : RefRecord :=
  mkRefRecord (str "main") (RefRecord.root demo_rec1) (Some (RefRecord.root demo_rec1)) 1700000001 (str "0.1.0").
Definition demo_refs2 : refs_state :=
  (ref_spec (RPut demo_rec2) (ref_spec (RPut demo_rec1) (mkRefs ∅ [])).2).2.

Lemma demo_two_snapshots :
  exists fs, @refs_abs demo_b3 demo_root [str "main"] fs demo_refs2 /\
    @complete demo_b3 demo_root fs demo_rec1 demo_manifest /\ @complete demo_b3 demo_root fs demo_rec2 demo_manifest /\
    forall q, ~ demo_root `prefix_of` q -> ~ q `prefix_of` demo_root -> fs !! q = demo_tree !! q.
Proof.
assert (op_ok [str "main"] (RPut demo_rec1) (mkRefs ∅ [])) as Hop
  by (split; [by constructor|split; [by_eval|vm_compute; done]]).
destruct (@does_publish_snapshot demo_b3 demo_root [str "main"] demo_main_ok Clone demo_work (str "main") demo_manifest
  1700000000 (str "0.1.0") (mkRefs ∅ []) demo_tree demo_tree_refs demo_tree_cas demo_captured Hop)
  as (new & fs1 & D1 & A1 & Pm & Pf).
assert (manifest_wf demo_manifest) as Hm by by_eval.
pose proof (@published_hydratable demo_b3 demo_root [str "main"] demo_main_ok demo_work (str "main") demo_manifest
  1700000000 (str "0.1.0") (mkRefs ∅ []) demo_tree fs1 demo_captured demo_no_collision Hm Hop A1 Pm Pf) as Hy.
destruct (@ref_put_refines demo_b3 demo_root [str "main"] demo_main_ok fs1 _ demo_rec2 A1) as (fs2 & D2 & A2).
{ split; [by constructor|split; [by_eval|vm_compute; done]]. }
destruct (D1 (mkWorld demo_tree [] 0 0) eq_refl eq_refl) as (w1 & E1 & <- & _).
destruct (D2 (mkWorld (w_fs w1) [] 0 0) eq_refl eq_refl) as (w2 & E2 & <- & _).
pose proof (@ref_put_except demo_b3 demo_root demo_rec2 eq_refl (mkWorld (w_fs w1) [] 0 0)) as Hex. rewrite E2 in Hex.
pose proof (@ref_put_confined demo_b3 demo_root eq_refl demo_rec2 (mkWorld (w_fs w1) [] 0 0)) as Hcf. rewrite E2 in Hcf.
pose proof (@publish_snapshot_post demo_b3 demo_root eq_refl Clone demo_work (str "main") demo_manifest 1700000000
  (str "0.1.0") (mkWorld demo_tree [] 0 0) (@objects_of_ready demo_b3 demo_root demo_tree demo_tree_ready demo_tree_cas))
  as (_ & Hout & _). rewrite E1 in Hout.
assert (forall d, pub (w_fs w2) (object_path demo_root d) = pub (w_fs w1) (object_path demo_root d)) as Hobj
  by (intros d; apply Hex, ref_files_not_object).
exists (w_fs w2). split; [exact A2|]. split; [|split].
1,2: split; [rewrite Hobj; apply Hy|apply Hy|done|apply demo_tree_ok|];
  intros p mode z d Hf; destruct (hy_objects _ _ _ _ _ Hy p mode z d Hf) as (c & Hc & Hh);
  exists c; (split; [rewrite Hobj; exact Hc|exact Hh]).
intros q H1 H2. rewrite <- Hout by done. destruct (Hcf q) as [E|[[H|H] _]]; [exact E|destruct (H1 H)|destruct (H2 H)].
Qed.

(** The command succeeds on the older version only. *)
Definition demo_exec_old (_ : list bytes) (tmp : path) : IO bool :=
  mret (bool_decide (tmp = bisect_tmp demo_work 7 1)).

Lemma demo_tmp_free i q : i < 2 -> demo_tree !! (bisect_tmp demo_work 7 (Z.of_nat i) ++ q) = None.
Proof.
intros Hi. destruct (demo_tree !! _) as [n|] eqn:E; [|done]. exfalso.
assert (map_Forall (fun p _ => ~ bisect_tmp demo_work 7 0 `prefix_of` p /\ ~ bisect_tmp demo_work 7 1 `prefix_of` p)
  demo_tree) as H by by_eval.
destruct (H _ _ E) as [H0 H1]. assert (i = 0 \/ i = 1) as [-> | ->] by lia.
- apply H0. by apply prefix_app_r.
- apply H1. by apply prefix_app_r.
Qed.

Lemma demo_answers fs i : i < 2 ->
  @answers demo_root demo_exec_old [str "make"] fs (bisect_tmp demo_work 7 (Z.of_nat i)) demo_manifest
    (negb (bool_decide (i < 1))).
Proof.
intros Hi fs1 Hwf (Hin & _). exists fs1. split; [|split; [|done]].
- assert (i = 0 \/ i = 1) as [-> | ->] by lia; apply does_ret.
- eapply (proj2 Hwf), (Hin (Dir (str "empty"))). by_eval.
Qed.

Lemma bisect_boundary_witness :
  exists fs rec, does (@bisect demo_b3 demo_root Copy demo_work 7 Z.of_nat demo_exec_old (str "main") [str "make"]) fs
    (Ok (0, rec)) fs /\ rec = demo_rec2.
Proof.
destruct demo_two_snapshots as (fs & A & C1 & C2 & Hout). exists fs.
assert (forall q, fs !! (demo_work ++ q) = demo_tree !! (demo_work ++ q)) as Hw.
{ intros q. apply Hout; [by intros [k [=]]|]. by intros [k [=]]. }
destruct (@bisect_boundary demo_b3 demo_root Copy demo_work 7 Z.of_nat demo_exec_old [str "main"] demo_refs2 fs (str "main")
  [str "make"] [demo_manifest; demo_manifest] (fun i => bool_decide (i < 1))) as (i & rec & D & Hi & Hb & _).
- apply demo_main_ok.
- exact A.
- by constructor.
- constructor; [exact C2|]. constructor; [exact C1|]. constructor.
- done.
- rewrite <- (app_nil_r demo_work), Hw. reflexivity.
- intros i q Hi. unfold bisect_tmp. rewrite <- app_assoc, Hw, app_assoc. by apply demo_tmp_free.
- intros i m Hm. pose proof (lookup_lt_Some _ _ _ Hm) as Hi. simpl in Hi.
  assert (m = demo_manifest) as -> by (destruct i as [|[|i]]; simpl in Hm; [congruence..|lia]). by apply demo_answers.
- vm_compute. lia.
- reflexivity.
- reflexivity.
- apply bool_decide_eq_true_1 in Hb. assert (i = 0) as -> by lia. exists rec. split; [exact D|].
  assert (reverse (history demo_refs2 (str "main")) = [demo_rec2; demo_rec1]) as El by (vm_compute; reflexivity).
  rewrite El in Hi. by injection Hi as <-.
Defined.
