(* ===== verification/Gc.v ===== *)
(** The collector (crates/lightr-index/src/index/gc.rs): mark what the refs'
    histories, the action cache and the image sidecars reach, sweep the other
    objects, prune the directories of dead runs.

    The home directory, the clock and the modification times of run directories are
    arguments. *)

From S2P Require Import Prelude Error Digest Manifest RefRecord Fs FsFacts OwnedTemp Calm Cas Layout Refs Ac ImgMeta TimeAxis Hydrate Confine Snapshot.

Record GcReport := mkGcReport {
  gc_objects_total : Z;
  gc_reachable : Z;
  gc_swept : Z;
  gc_bytes_freed : Z;
  gc_run_dirs_removed : Z;
}.

(** The digests a manifest at [d] keeps alive. *)
Definition manifest_marks (d : digest) (m : Manifest) : list digest := d :: (file_entries m).*2.

(** u64 [saturating_sub]. *)
Definition saturating_sub (a b : Z) : Z := Z.max 0 (a - b).

Definition HARD_KILLED_STALE_SECS : Z := 24 * 3600.

(** [status_str.starts_with("exited")]. *)
Definition exited (status : bytes) : bool := bool_decide (take 6 status = str "exited").

Section gc.
Context `{B3 : Blake3} (root : path).

(** One record of a history: an unreadable or corrupt manifest is skipped. *)
Definition mark_record (rec : RefRecord) : IO (list digest) :=
  r ← try_ (get_bytes root (RefRecord.root rec));
  match r with
  | Err _ => mret []
  | Ok bs =>
      match Manifest.decode bs with
      | Err _ => mret []
      | Ok m => mret (manifest_marks (RefRecord.root rec) m)
      end
  end.

Definition mark_refs : IO (list digest) :=
  names ← list_refs root;
  marks ← map_io (fun name =>
    recs ← ref_log root name;
    ms ← map_io mark_record recs;
    mret (mjoin ms)) names;
  mret (mjoin marks).

Definition lrr1_marks (values : list bytes) : list digest :=
  values ≫= fun v => match parse_lrr1 v with Some (out_d, err_d) => [out_d; err_d] | None => [] end.

(** The three mark phases. *)
Definition mark_phase : IO (list digest) :=
  a ← mark_refs;
  values ← list_ac root;
  b ← list_image_reachable_blobs root;
  mret (a ++ lrr1_marks values ++ b).

(** One object file: is it counted, and is it to be swept with which size. *)
Definition count_object (mark : list digest) (shard : path) (prefix rest : bytes) :
    IO (option (option (digest * Z))) :=
  fs ← get_fs;
  if is_file fs (shard ++ [rest]) && utf8_valid rest && bool_decide (length rest = 62) then
    match from_hex (prefix ++ rest) with
    | Ok d =>
        if bool_decide (d ∈ mark) then mret (Some None) else
        r ← try_ (file_len (shard ++ [rest]));
        mret (Some (Some (d, match r with Ok n => n | Err _ => 0%Z end)))
    | Err _ => mret (Some None)
    end
  else mret None.

Definition count_shard (mark : list digest) (prefix : bytes) : IO (list (option (digest * Z))) :=
  let shard := root ++ [str "objects"; prefix] in
  fs ← get_fs;
  if is_dir fs shard && utf8_valid prefix && bool_decide (length prefix = 2) then
    names ← read_dir shard;
    os ← map_io (count_object mark shard prefix) names;
    mret (omap id os)
  else mret [].

(** Every object file, with the sweep candidates among them. *)
Definition count_objects (mark : list digest) : IO (list (option (digest * Z))) :=
  let objects_root := root ++ [str "objects"] in
  e ← exists_ objects_root;
  if (e : bool) then
    shards ← read_dir objects_root;
    counted ← map_io (count_shard mark) shards;
    mret (mjoin counted)
  else mret [].

(** Remove the candidates; the sizes of those removed. *)
Fixpoint sweep (candidates : list (digest * Z)) : IO Z :=
  match candidates with
  | [] => mret 0%Z
  | (d, size) :: candidates =>
      r ← try_ (remove_object root d);
      freed ← sweep candidates;
      mret (if is_ok r then size + freed else freed)%Z
  end.

Section run_dirs.
Context (run_root : path) (now : Z) (mtime : path -> Z) (dry_run : bool) (min_age : Z).

(** One run directory: 1 if it is reclaimed, or would be. *)
Definition prune_run_dir (name : bytes) : IO Z :=
  let dir := run_root ++ [name] in
  fs ← get_fs;
  if is_dir fs dir then
    r ← try_ (read (dir ++ [str "status"]));
    let status := match r with Ok s => if utf8_valid s then s else [] | Err _ => [] end in
    let age := saturating_sub now (mtime dir) in
    let remove := (_ ← (if dry_run then mret tt else ignore (remove_dir_all dir)); mret 1%Z) in
    if exited status then
      if (age <=? min_age)%Z then mret 0%Z else remove
    else
      e ← exists_ (dir ++ [str "pid"]);
      if negb e then mret 0%Z else
      if (age <=? Z.max min_age HARD_KILLED_STALE_SECS)%Z then mret 0%Z else remove
  else mret 0%Z.

Definition prune_run_dirs : IO Z :=
  e ← exists_ run_root;
  if (e : bool) then
    names ← read_dir run_root;
    ns ← map_io prune_run_dir names;
    mret (foldr Z.add 0%Z ns)
  else mret 0%Z.

Definition gc : IO GcReport :=
  _ ← gc_guard root;
  mark ← mark_phase;
  objects ← count_objects mark;
  let candidates := omap id objects in
  let total := Z.of_nat (length objects) in
  let swept := Z.of_nat (length candidates) in
  freed ← (if dry_run then mret 0%Z else sweep candidates);
  removed ← prune_run_dirs;
  mret (mkGcReport total (saturating_sub total swept) swept freed removed).

End run_dirs.

End gc.

(** * Under every schedule of failures *)

Lemma file_len_touches T p : keeps (on_fs (touches T)) (file_len p).
Proof. apply keeps_sys0; [apply _|]. intros fs. cbn. by repeat (case_match; simplify_eq/=). Qed.
#[export] Hint Resolve file_len_touches : keeps.

Section read_only.
Context `{B3 : Blake3} (root : path) (T : path -> option node -> Prop).
Abbreviation F := (keeps (on_fs (touches T))).

Lemma shard_files_touches p : F (shard_files p).
Proof. unfold shard_files. solve_keeps. Qed.
Lemma get_bytes_touches d : F (get_bytes root d).
Proof. unfold get_bytes. solve_keeps. Qed.
Lemma read_value_touches p : F (read_value p).
Proof. unfold read_value. solve_keeps. Qed.
#[local] Hint Resolve shard_files_touches get_bytes_touches read_value_touches : keeps.

(** The mark and count phases only read. *)
Lemma mark_phase_touches : F (mark_phase root).
Proof.
unfold mark_phase, mark_refs, list_refs, read_name, ref_log, read_log_entry, mark_record,
  list_ac, list_image_reachable_blobs, for_each_sidecar_pointer, sidecar_pointer. solve_keeps.
Qed.

Lemma count_objects_touches mark : F (count_objects root mark).
Proof. unfold count_objects, count_shard, count_object. solve_keeps. Qed.

Lemma gc_guard_touches : may_write T (gc_lock_path root) -> F (gc_guard root).
Proof. intros H. unfold gc_guard, gc_lock_file. solve_keeps. Qed.

End read_only.

#[export] Hint Resolve mark_phase_touches count_objects_touches gc_guard_touches : keeps.

(** A dry run is read-only.  Under every schedule of failures, [gc] with
    [dry_run] changes no file and no directory anywhere but the lock file it opens. *)
Theorem gc_dry_run_reads_only `{B3 : Blake3} root run_root now mtime min_age w p :
  p <> gc_lock_path root ->
  w_fs (gc root run_root now mtime true min_age w).2 !! p = w_fs w !! p.
Proof.
intros Hp. set (T := fun (q : path) (_ : option node) => q = gc_lock_path root).
assert (keeps (on_fs (touches T)) (gc root run_root now mtime true min_age)) as H.
{ assert (may_write T (gc_lock_path root)) by (by intros n _).
  unfold gc, prune_run_dirs, prune_run_dir. solve_keeps. }
by destruct (H w p).
Qed.

(** ** What a collection may remove *)

(** Files only disappear, and only those allowed by [S]. *)
Definition sheds (S : path -> Prop) : relation (gmap path node) :=
  fun fs fs' => forall p, pub fs' p = pub fs p \/ (pub fs' p = None /\ S p).

#[export] Instance sheds_preorder S : PreOrder (sheds S).
Proof.
split; [by left|]. intros f1 f2 f3 H1 H2 p. destruct (H2 p) as [E|]; [|by right]. rewrite E. apply H1.
Qed.

Lemma pub_eq_sheds S fs fs' : pub_eq fs fs' -> sheds S fs fs'.
Proof. intros H p. left. apply H. Qed.

Lemma keeps_sheds {A : Type} S (m : IO A) : keeps (on_fs pub_eq) m -> keeps (on_fs (sheds S)) m.
Proof. intros H w. by apply pub_eq_sheds, H. Qed.

Lemma sheds_delete (S : path -> Prop) fs q : S q -> sheds S fs (delete q fs).
Proof.
intros H p. unfold pub. rewrite file_at_delete. destruct (tmp_path p); [by left|].
case_decide; [right; by subst|by left].
Qed.

Lemma sheds_delete_all (S : path -> Prop) ps fs : (forall q, q ∈ ps -> S q) -> sheds S fs (delete_all ps fs).
Proof.
intros H p. unfold pub, file_at. rewrite delete_all_lookup. destruct (tmp_path p); [by left|].
case_decide; [right; auto|by left].
Qed.

Lemma remove_dir_all_sheds (S : path -> Prop) p :
  (forall q, p `prefix_of` q -> S q) -> keeps (on_fs (sheds S)) (remove_dir_all p).
Proof.
intros H. apply keeps_sys; [apply _| |]; intros; cbn; repeat (case_match; simplify_eq/=); try reflexivity.
- apply sheds_delete_all. intros q [Hq _]%elem_of_nodes_below. auto.
- by apply sheds_delete, H.
- apply sheds_delete_all. intros q Hq%subseteq_take. apply elem_of_nodes_below in Hq as [Hp _]. auto.
Qed.

Lemma remove_file_sheds (S : path -> Prop) p : S p -> keeps (on_fs (sheds S)) (remove_file p).
Proof.
intros H. apply keeps_sys0; [apply _|]. intros fs. cbn. repeat (case_match; simplify_eq/=); try reflexivity;
  by apply sheds_delete.
Qed.

(** Objects and what is below the run directory. *)
Definition collectable `{Blake3} (root run_root p : path) : Prop :=
  (exists d, p = object_path root d) \/ (run_root `prefix_of` p /\ p <> run_root).

Section collection.
Context `{B3 : Blake3} (root run_root : path).
Abbreviation C := (keeps (on_fs (sheds (collectable root run_root)))).

Lemma remove_object_sheds d : C (remove_object root d).
Proof.
unfold remove_object. apply keeps_bind; [apply _|apply keeps_exists; apply _|]. intros [];
  [|apply keeps_ret; apply _].
apply keeps_bind; [apply _|apply keeps_sheds; auto with keeps|]. intros _.
apply remove_file_sheds. left. by exists d.
Qed.
#[local] Hint Resolve remove_object_sheds : keeps.

Lemma sweep_sheds cs : C (sweep root cs).
Proof. induction cs as [|[d z] cs IH]; cbn [sweep]; solve_keeps. Qed.
#[local] Hint Resolve sweep_sheds : keeps.

Lemma read_only_sheds {A : Type} (m : IO A) : (forall T, keeps (on_fs (touches T)) m) -> C m.
Proof.
intros H. apply keeps_sheds. intros w p. unfold pub, file_at.
by destruct (H (fun _ _ => False) w p) as [->|[]].
Qed.

Lemma prune_run_dirs_sheds now mtime dry min_age : C (prune_run_dirs run_root now mtime dry min_age).
Proof.
assert (forall name, C (remove_dir_all (run_root ++ [name]))) as Hr.
{ intros name. apply remove_dir_all_sheds. intros q [k ->]. right. split.
  - rewrite <- app_assoc. by apply prefix_app_r.
  - intros E. apply (f_equal length) in E. rewrite !length_app in E. simpl in E. lia. }
unfold prune_run_dirs, prune_run_dir. solve_keeps; apply keeps_sheds; auto with keeps.
Qed.
#[local] Hint Resolve prune_run_dirs_sheds : keeps.

Lemma gc_sheds now mtime dry min_age : C (gc root run_root now mtime dry min_age).
Proof.
unfold gc. solve_keeps;
  first [apply keeps_sheds; by auto with keeps|apply read_only_sheds; intros T; by auto with keeps].
Qed.

End collection.

(** A collection only removes, and only what it may.  Under every schedule of
    failures and a kill at any call, every published file is as before or gone; those
    gone are objects or lie below the run directory, so refs, histories, cache
    records and image sidecars are never touched; and the objects left are valid. *)
Theorem gc_only_removes `{B3 : Blake3} root run_root now mtime dry min_age w :
  let fs' := w_fs (gc root run_root now mtime dry min_age w).2 in
  (forall p, pub fs' p = pub (w_fs w) p \/
     (pub fs' p = None /\ ((exists d, p = object_path root d) \/ (run_root `prefix_of` p /\ p <> run_root)))) /\
  (cas_ok root (w_fs w) -> cas_ok root fs').
Proof.
intros fs'. pose proof (gc_sheds root run_root now mtime dry min_age w) as H. split; [exact H|].
intros Hok d c Hc. destruct (H (object_path root d)) as [E|[E _]]; [|unfold fs' in Hc; congruence].
apply Hok. by rewrite <- E.
Qed.

(** ** Run directories *)

(** A run that is over: it says so and is older than the caller's limit, or it has a
    pid file and is older than that limit and a day. *)
Definition dead_run (fs : gmap path node) (dir : path) (age min_age : Z) : Prop :=
  (exists c, file_at fs (dir ++ [str "status"]) = Some c /\ take 6 c = str "exited" /\ (min_age < age)%Z) \/
  (node_exists fs (dir ++ [str "pid"]) = true /\ (min_age < age)%Z /\ (24 * 3600 < age)%Z).

(** Only dead runs are pruned.  Under every schedule of failures, visiting a run
    directory changes nothing unless the run is dead: its status says so and it is
    older than the caller's limit, or it left a pid file and is older than both the
    limit and a day.  An unreadable status counts as not exited, and a directory
    reported as reclaimed is one of these. *)
Theorem prune_run_dir_only_dead run_root now mtime dry min_age name w :
  let dir := run_root ++ [name] in
  let r := prune_run_dir run_root now mtime dry min_age name w in
  (forall p, w_fs r.2 !! p = w_fs w !! p) /\ r.1 <> Ret 1%Z \/
  dead_run (w_fs w) dir (saturating_sub now (mtime dir)) min_age.
Proof.
intros dir r. unfold r, prune_run_dir. cbv [mbind IO_mbind get_fs]. fold dir.
destruct (is_dir (w_fs w) dir); [|by left].
assert (touches (fun _ _ => False) (w_fs w) (w_fs (read (dir ++ [str "status"]) w).2)) as Hrd
  by (apply (read_touches (fun _ _ => False))).
unfold try_. destruct (read (dir ++ [str "status"]) w) as [[c|e|] w1] eqn:E; cbn [snd] in Hrd.
all: assert (forall p, w_fs w1 !! p = w_fs w !! p) as Hsame by (intros p; by destruct (Hrd p)).
all: set (age := saturating_sub now (mtime dir)) in *; unfold exists_; cbv [mbind IO_mbind get_fs mret IO_mret].
- apply read_ret in E as [Hc Hw]. unfold dead_run. destruct (exited _) eqn:Ex.
  + assert (take 6 c = str "exited") as Hx by (unfold exited in Ex; case_match; [by case_bool_decide|done]).
    destruct (age <=? min_age)%Z eqn:Ea; [by left|]. apply Z.leb_gt in Ea. right. left. eauto.
  + rewrite Hw. destruct (node_exists (w_fs w) _) eqn:Ep; [|by left]. simpl negb. cbv iota.
    destruct (age <=? _)%Z eqn:Ea; [by left|]. apply Z.leb_gt in Ea. unfold HARD_KILLED_STALE_SECS in Ea.
    right. right. split; [done|]. lia.
- replace (exited []) with false by reflexivity. destruct (node_exists (w_fs w1) _) eqn:Ep; [|by left]. simpl negb. cbv iota.
  destruct (age <=? _)%Z eqn:Ea; [by left|]. apply Z.leb_gt in Ea. unfold HARD_KILLED_STALE_SECS in Ea.
  right. right. split; [|lia]. unfold node_exists in *. by rewrite <- Hsame.
- by left.
Qed.

(** * Without faults: the collection is exact *)

Section exact.
Context `{B3 : Blake3} (root : path) (N : list bytes) (HN : names_ok N).

(** What an object the store can serve decodes to. *)
Definition served (fs : gmap path node) (d : digest) : option bytes :=
  match pub fs (object_path root d) with
  | Some bs => if bool_decide (of_bytes bs = d) then Some bs else None
  | None => None
  end.

Definition record_marks (fs : gmap path node) (rec : RefRecord) : list digest :=
  match served fs (RefRecord.root rec) with
  | Some bs => match Manifest.decode bs with Ok m => manifest_marks (RefRecord.root rec) m | Err _ => [] end
  | None => []
  end.

Definition image_marks (fs : gmap path node) (d : digest) : list digest :=
  match served fs d with
  | Some bs =>
      match decode_manifest_record bs with Ok rec => d :: (desc_digest <$> descriptors rec) | Err _ => [d] end
  | None => [d]
  end.

(** The digests something in the store refers to: the records of the histories of the
    present refs, the cache records, the image sidecars. *)
Inductive live (a : refs_state) (fs : gmap path node) : digest -> Prop :=
  | live_ref n r rec d : cur a !! n = Some r -> rec ∈ history a n -> d ∈ record_marks fs rec -> live a fs d
  | live_ac x y v o e d : file_at fs (root ++ [str "ac"; x; y]) = Some v -> staging_name y = false ->
      parse_lrr1 v = Some (o, e) -> d ∈ [o; e] -> live a fs d
  | live_image x y p d : file_at fs (root ++ [IMGMANIFEST; x; y]) = Some p -> staging_name y = false ->
      length p = 32 -> d ∈ image_marks fs p -> live a fs d
  | live_config x y d : file_at fs (root ++ [IMGMETA; x; y]) = Some d -> staging_name y = false ->
      length d = 32 -> live a fs d.

Lemma does_get_served fs d :
  store_ready root fs ->
  exists r, does (get_bytes root d) fs r fs /\
    match served fs d with Some bs => r = Ok bs | None => exists e, r = Err e end.
Proof.
intros Hr. unfold served. destruct (pub fs (object_path root d)) as [bs|] eqn:E.
- case_bool_decide as Hd; [exists (Ok bs); split; [by apply does_get_bytes|done]|].
  exists (Err (Integrity d (of_bytes bs))). split; [|eauto]. unfold get_bytes.
  rewrite pub_file_at in E by (apply object_path_tmp, Hr).
  eapply does_bind; [apply does_exists|]. cbv beta. rewrite (node_exists_file _ _ _ E).
  eapply does_bind; [by apply does_read|]. cbv beta. rewrite bool_decide_eq_false_2 by done. apply does_throw.
- exists (Err (NotFound d)). split; [|eauto]. unfold get_bytes, object_path in *.
  eapply does_bind; [apply does_exists|]. cbv beta. rewrite (plane_exists root fs Hr _ objects_plane), E.
  rewrite bool_decide_eq_false_2 by (by intros []). apply does_throw.
Qed.

Lemma does_mark_record fs rec :
  store_ready root fs -> does (mark_record root rec) fs (Ok (record_marks fs rec)) fs.
Proof.
intros Hr. destruct (does_get_served fs (RefRecord.root rec) Hr) as (r & D & Hs).
unfold mark_record, record_marks. eapply does_bind; [apply does_try, D|]. cbv beta.
destruct (served fs (RefRecord.root rec)) as [bs|]; [subst r|destruct Hs as [e ->]; apply does_ret].
destruct (Manifest.decode bs); apply does_ret.
Qed.

Definition ref_marks (a : refs_state) (fs : gmap path node) : list digest :=
  mjoin ((fun n => mjoin (record_marks fs <$> reverse (history a n))) <$>
    sort_by bytes_leb (map_to_list (cur a)).*1).

Lemma does_mark_refs fs a : refs_abs root N fs a -> does (mark_refs root) fs (Ok (ref_marks a fs)) fs.
Proof.
intros Ha. pose proof (abs_ready _ _ _ _ Ha) as Hr. unfold mark_refs.
eapply does_bind; [by eapply list_refs_refines|]. cbv beta.
eapply does_bind; [|apply does_ret]. apply does_map_io. intros n Hn.
rewrite (sort_by_perm _ _) in Hn. apply list_elem_of_fmap in Hn as ([n' r] & -> & Hr'%elem_of_map_to_list).
destruct (abs_dom _ _ _ _ Ha n' r Hr') as (Hn & _).
eapply does_bind.
{ apply does_ref_log; [apply Ha|by apply HN|by apply (abs_log _ _ _ _ Ha)|by eapply history_wf]. }
cbv beta. eapply does_bind; [apply does_map_io; intros rec _; by apply does_mark_record|]. apply does_ret.
Qed.

(** The pointers of a sidecar directory. *)
Definition pointers_below (fs : gmap path node) (base : path) : list bytes :=
  if is_dir fs base then filter (fun v => length v = 32) (values_below fs base) else [].

Lemma sidecar_values fs (g : digest -> list digest) paths :
  mjoin ((fun p => match value_at fs p with Some v => if bool_decide (length v = 32) then g v else [] | None => [] end) <$> paths)
  = filter (fun v => length v = 32) (omap (value_at fs) paths) ≫= g.
Proof.
induction paths as [|p l IH]; [done|]. rewrite join_fmap_cons. csimpl. destruct (value_at fs p) as [v|]; [|exact IH].
rewrite filter_cons. case_bool_decide; [|by rewrite decide_False]. rewrite decide_True by done. csimpl. by rewrite IH.
Qed.

Lemma filter_bind {A B C} (P : B -> Prop) `{!forall b, Decision (P b)} (h : A -> list B) (g : B -> list C) l :
  mjoin ((fun c => filter P (h c) ≫= g) <$> l) = filter P (l ≫= h) ≫= g.
Proof.
induction l as [|a l IH]; [done|]. rewrite join_fmap_cons, IH. csimpl. by rewrite filter_app, bind_app.
Qed.

Lemma does_sidecar_pointers fs dir f g :
  (forall d, does (f d) fs (Ok (g d)) fs) ->
  does (for_each_sidecar_pointer root dir f) fs (Ok (pointers_below fs (root ++ [dir]) ≫= g)) fs.
Proof.
intros Hf. unfold for_each_sidecar_pointer, pointers_below. set (base := root ++ [dir]).
destruct (is_dir fs base) eqn:E.
- apply is_dir_true in E. eapply does_bind; [by apply does_try, does_read_dir|]. cbv beta iota.
  eapply does_bind.
  { apply (does_map_io _ (fun c => mjoin ((fun p => match value_at fs p with
      Some v => if bool_decide (length v = 32) then g v else [] | None => [] end) <$> shard_paths fs (base ++ [c])))).
    intros c _. eapply does_bind; [apply does_shard_files|]. cbv beta.
    eapply does_bind; [|apply does_ret]. apply does_map_io. intros p _. unfold sidecar_pointer.
    eapply does_bind; [apply does_read_value|]. cbv beta. destruct (value_at fs p) as [v|]; [|apply does_ret].
    case_bool_decide; [apply Hf|apply does_ret]. }
  cbv beta. unfold values_below. rewrite <- filter_bind.
  erewrite list_fmap_ext; [apply does_ret|]. intros i c _. apply sidecar_values.
- assert (exists e, does (read_dir base) fs (Err e) fs) as [e D].
  { unfold is_dir in E. apply bool_decide_eq_false in E.
    destruct (fs !! base) as [[]|] eqn:Eb; [|by destruct E|..]; eexists; apply does_sys0; by rewrite Eb. }
  eapply does_bind; [apply does_try, D|]. apply does_ret.
Qed.

Definition gc_marks (a : refs_state) (fs : gmap path node) : list digest :=
  ref_marks a fs ++
  lrr1_marks (if is_dir fs (root ++ [str "ac"]) then values_below fs (root ++ [str "ac"]) else []) ++
  (pointers_below fs (root ++ [IMGMANIFEST]) ≫= image_marks fs) ++
  (pointers_below fs (root ++ [IMGMETA]) ≫= fun d => [d]).

Lemma does_mark_phase fs a : refs_abs root N fs a -> does (mark_phase root) fs (Ok (gc_marks a fs)) fs.
Proof.
intros Ha. pose proof (abs_ready _ _ _ _ Ha) as Hr. unfold mark_phase, gc_marks.
eapply does_bind; [by apply does_mark_refs|]. cbv beta. eapply does_bind; [apply does_list_ac|]. cbv beta.
eapply does_bind; [|apply does_ret]. unfold list_image_reachable_blobs.
eapply does_bind.
{ apply (does_sidecar_pointers fs IMGMANIFEST _ (image_marks fs)). intros d.
  destruct (does_get_served fs d Hr) as (r & D & Hs). unfold image_marks.
  eapply does_bind; [apply does_try, D|]. cbv beta.
  destruct (served fs d) as [bs|]; [subst r|destruct Hs as [e ->]; apply does_ret].
  destruct (decode_manifest_record bs); apply does_ret. }
cbv beta. eapply does_bind; [apply (does_sidecar_pointers fs IMGMETA _ (fun d => [d])); intros d; apply does_ret|].
apply does_ret.
Qed.

Lemma base_is_dir fs dir x y c :
  fs_wf fs -> file_at fs (root ++ [dir; x; y]) = Some c -> is_dir fs (root ++ [dir]) = true.
Proof.
intros Hwf H. apply is_dir_true. unfold file_at in H.
destruct (fs !! (root ++ [dir; x; y])) as [n|] eqn:E; [|done].
change [dir; x; y] with ([dir] ++ [x] ++ [y]) in E. rewrite !app_assoc in E.
apply Hwf in E. by apply Hwf in E.
Qed.

Lemma elem_of_pointers fs dir p :
  fs_wf fs ->
  p ∈ pointers_below fs (root ++ [dir]) <->
  exists x y, file_at fs (root ++ [dir; x; y]) = Some p /\ staging_name y = false /\ length p = 32.
Proof.
intros Hwf. unfold pointers_below. destruct (is_dir fs (root ++ [dir])) eqn:E.
- rewrite list_elem_of_filter, elem_of_values_below by done. setoid_rewrite <- app_assoc. naive_solver.
- split; [intros H; by apply not_elem_of_nil in H|]. intros (x & y & Hf & _).
  by rewrite (base_is_dir _ _ _ _ _ Hwf Hf) in E.
Qed.

(** The mark phase finds exactly the live digests. *)
Lemma elem_of_gc_marks fs a d : fs_wf fs -> d ∈ gc_marks a fs <-> live a fs d.
Proof.
intros Hwf. unfold gc_marks. rewrite !elem_of_app. split.
- intros [H|[H|[H|H]]].
  + apply list_elem_of_join in H as (l & Hd & (n & -> & Hn)%list_elem_of_fmap).
    rewrite (sort_by_perm _ _) in Hn. apply list_elem_of_fmap in Hn as ([n' r] & -> & Hr%elem_of_map_to_list).
    apply list_elem_of_join in Hd as (l & Hd & (rec & -> & Hrec)%list_elem_of_fmap).
    rewrite elem_of_reverse in Hrec.
    by apply (live_ref a fs n' r rec).
  + unfold lrr1_marks in H. apply list_elem_of_bind in H as (v & Hd & Hv).
    destruct (is_dir fs _); [|by apply not_elem_of_nil in Hv].
    apply elem_of_values_below in Hv as (x & y & Hf & Hy); [|done]. rewrite <- app_assoc in Hf.
    destruct (parse_lrr1 v) as [[o e]|] eqn:E; [|by apply not_elem_of_nil in Hd]. by apply (live_ac a fs x y v o e).
  + apply list_elem_of_bind in H as (p & Hd & (x & y & Hf & Hy & Hl)%elem_of_pointers); [|done].
    by apply (live_image a fs x y p).
  + apply list_elem_of_bind in H as (p & ->%list_elem_of_singleton & (x & y & Hf & Hy & Hl)%elem_of_pointers); [|done].
    by apply (live_config a fs x y).
- destruct 1 as [n r rec d Hn Hrec Hd|x y v o e d Hf Hy Hp Hd|x y p d Hf Hy Hl Hd|x y d Hf Hy Hl].
  + left. apply list_elem_of_join. exists (mjoin (record_marks fs <$> reverse (history a n))). split.
    * apply list_elem_of_join. exists (record_marks fs rec). split; [done|].
      apply list_elem_of_fmap. exists rec. by rewrite elem_of_reverse.
    * apply list_elem_of_fmap. exists n. split; [done|]. rewrite (sort_by_perm _ _).
      apply list_elem_of_fmap. exists (n, r). by rewrite elem_of_map_to_list.
  + right. left. unfold lrr1_marks. apply list_elem_of_bind. exists v. rewrite Hp. split; [done|].
    rewrite (base_is_dir _ _ _ _ _ Hwf Hf). apply elem_of_values_below; [done|].
    exists x, y. by rewrite <- app_assoc.
  + right. right. left. apply list_elem_of_bind. exists p. split; [done|]. apply elem_of_pointers; [done|]. eauto.
  + right. right. right. apply list_elem_of_bind. exists d. split; [by constructor|]. apply elem_of_pointers; [done|]. eauto.
Qed.

(** ** Counting *)

Definition counted (fs : gmap path node) (mark : list digest) (shard : path) (prefix rest : bytes) :
    option (option (digest * Z)) :=
  if is_file fs (shard ++ [rest]) && utf8_valid rest && bool_decide (length rest = 62) then
    Some match from_hex (prefix ++ rest) with
         | Ok d => if bool_decide (d ∈ mark) then None else Some (d, node_len fs (shard ++ [rest]))
         | Err _ => None
         end
  else None.

Definition counted_shard (fs : gmap path node) (mark : list digest) (prefix : bytes) : list (option (digest * Z)) :=
  let shard := root ++ [str "objects"; prefix] in
  if is_dir fs shard && utf8_valid prefix && bool_decide (length prefix = 2)
  then omap (counted fs mark shard prefix) (children fs shard) else [].

Definition counted_all (fs : gmap path node) (mark : list digest) : list (option (digest * Z)) :=
  if is_dir fs (root ++ [str "objects"])
  then mjoin (counted_shard fs mark <$> children fs (root ++ [str "objects"])) else [].

Lemma does_count_object fs mark shard prefix rest :
  does (count_object mark shard prefix rest) fs (Ok (counted fs mark shard prefix rest)) fs.
Proof.
unfold count_object, counted. eapply does_bind; [apply does_get_fs|]. cbv beta.
destruct (is_file fs (shard ++ [rest]) && utf8_valid rest && bool_decide (length rest = 62)) eqn:E; [|apply does_ret].
rewrite !andb_true_iff in E. destruct E as [[Hf _] _].
destruct (from_hex (prefix ++ rest)) as [d|e]; [|apply does_ret].
case_bool_decide; [apply does_ret|]. unfold is_file in Hf.
destruct (fs !! (shard ++ [rest])) as [[c m| |]|] eqn:Ef; try done.
eapply does_bind; [eapply does_try, does_sys0; by rewrite Ef|].
cbv beta iota. unfold node_len, file_at. rewrite Ef. apply does_ret.
Qed.

Lemma does_count_objects fs mark :
  store_ready root fs -> does (count_objects root mark) fs (Ok (counted_all fs mark)) fs.
Proof.
intros Hr. unfold count_objects, counted_all. eapply does_bind; [apply does_exists|]. cbv beta.
set (base := root ++ [str "objects"]). unfold node_exists, is_dir.
destruct (fs !! base) as [n|] eqn:E; [|rewrite bool_decide_eq_false_2 by done; apply does_ret].
pose proof (ready_kind _ _ Hr [str "objects"] KDir n eq_refl E) as Hk. destruct n; [done| |done].
rewrite bool_decide_eq_true_2 by done. eapply does_bind; [by apply does_read_dir|]. cbv beta.
eapply does_bind; [|apply does_ret]. apply does_map_io. intros prefix _. unfold count_shard, counted_shard.
eapply does_bind; [apply does_get_fs|]. cbv beta.
destruct (is_dir fs (root ++ [str "objects"; prefix])) eqn:Ed; [|apply does_ret]. apply is_dir_true in Ed.
destruct (true && _ && _); [|apply does_ret]. eapply does_bind; [by apply does_read_dir|]. cbv beta.
eapply does_bind; [apply does_map_io; intros rest _; apply does_count_object|]. cbv beta.
rewrite omap_id_fmap. apply does_ret.
Qed.

Lemma elem_of_counted fs mark o :
  fs_wf fs ->
  o ∈ counted_all fs mark <->
  exists x y, length x = 2 /\ utf8_valid x = true /\ counted fs mark (root ++ [str "objects"; x]) x y = Some o.
Proof.
intros Hwf. unfold counted_all. split.
- case_match; [|intros Hn; by apply not_elem_of_nil in Hn].
  intros (l & Ho & (x & -> & _)%list_elem_of_fmap)%list_elem_of_join. unfold counted_shard in Ho.
  destruct (_ && _ && _) eqn:E; [|by apply not_elem_of_nil in Ho].
  rewrite !andb_true_iff in E. destruct E as [[_ Hu] Hl%bool_decide_eq_true].
  apply list_elem_of_omap in Ho as (y & _ & Hy). eauto.
- intros (x & y & Hl & Hu & Hc).
  assert (exists n, fs !! (root ++ [str "objects"; x] ++ [y]) = Some n) as [n Hn].
  { unfold counted, is_file in Hc. rewrite <- app_assoc in Hc. destruct (fs !! _); [eauto|done]. }
  rewrite app_assoc in Hn. pose proof (proj2 Hwf _ _ _ Hn) as Hd.
  pose proof Hd as Hd'. change [str "objects"; x] with ([str "objects"] ++ [x]) in Hd'. rewrite app_assoc in Hd'.
  pose proof (proj2 Hwf _ _ _ Hd') as Hb. rewrite (proj2 (is_dir_true _ _) Hb).
  apply list_elem_of_join. exists (counted_shard fs mark x). split.
  + unfold counted_shard. rewrite (proj2 (is_dir_true _ _) Hd), Hu, bool_decide_eq_true_2 by done. simpl.
    apply list_elem_of_omap. exists y. split; [|done]. apply elem_of_children. eauto.
  + apply list_elem_of_fmap. exists x. split; [done|]. apply elem_of_children. eauto.
Qed.

(** The candidates are exactly the objects no mark protects. *)
Lemma candidate_unmarked fs mark d z :
  fs_wf fs -> (d, z) ∈ omap id (counted_all fs mark) -> d ∉ mark.
Proof.
intros Hwf (o & (x & y & _ & _ & Hc)%elem_of_counted & Ho)%list_elem_of_omap; [|done]. unfold id in Ho. subst o.
unfold counted in Hc. repeat (case_match; simplify_eq). by case_bool_decide.
Qed.

Lemma hex_utf8 s : Forall (fun b => is_ascii_digit b = true \/ is_ascii_lowercase b = true) s -> utf8_valid s = true.
Proof.
induction 1 as [|b s Hb _ IH]; [done|]. cbn [utf8_valid]. destruct Hb as [Hb|Hb];
  (destruct b; try discriminate Hb; simpl; exact IH).
Qed.

Lemma object_candidate fs mark d c :
  fs_wf fs -> digest_wf d -> file_at fs (object_path root d) = Some c -> d ∉ mark ->
  d ∈ (omap id (counted_all fs mark)).*1.
Proof.
intros Hwf Hd Hf Hm. unfold object_path in Hf. rewrite sharded_slot in Hf.
set (x := (shard_parts (to_hex d)).1) in *. set (y := (shard_parts (to_hex d)).2) in *.
assert (length (to_hex d) = 64) as Hlen by (rewrite length_to_hex, Hd; done).
pose proof (to_hex_chars d) as Hch.
apply list_elem_of_fmap. exists (d, node_len fs ((root ++ [str "objects"; x]) ++ [y])). split; [done|].
apply list_elem_of_omap. eexists. split; [|reflexivity]. apply elem_of_counted; [done|].
exists x, y. split; [unfold x, shard_parts; simpl; rewrite length_take; lia|].
split; [apply hex_utf8; by apply Forall_take|]. unfold counted.
assert (is_file fs ((root ++ [str "objects"; x]) ++ [y]) = true) as ->.
{ rewrite is_file_file_at, bool_decide_eq_true, <- app_assoc. eauto. }
rewrite hex_utf8 by (by apply Forall_drop).
rewrite bool_decide_eq_true_2 by (unfold y, shard_parts; simpl; rewrite length_drop; lia).
assert (x ++ y = to_hex d) as -> by apply take_drop. rewrite from_hex_to_hex by done.
by rewrite bool_decide_eq_false_2.
Qed.

(** ** Sweeping *)

Lemma does_remove_object fs d :
  store_ready root fs ->
  does (remove_object root d) fs (Ok tt) (delete (object_path root d) fs) /\
  store_ready root (delete (object_path root d) fs).
Proof.
intros Hr. unfold remove_object. destruct (plane_node root fs Hr _ objects_plane d) as [E|(c & m & E)];
  fold (object_path root d) in E.
- rewrite delete_id by done. split; [|done]. eapply does_bind; [apply does_exists|]. cbv beta.
  unfold node_exists. rewrite E. apply does_ret.
- split; [|by eapply ready_delete]. eapply does_bind; [apply does_exists|]. cbv beta.
  unfold node_exists. rewrite E. eapply does_bind; [by eapply does_set_permissions|]. cbv beta.
  rewrite <- (delete_insert_eq fs (object_path root d) (NFile c MODE_RW)).
  eapply does_remove_file. by rewrite lookup_insert_eq.
Qed.

Lemma does_sweep fs cs :
  store_ready root fs ->
  exists freed, does (sweep root cs) fs (Ok freed) (delete_all (object_path root <$> cs.*1) fs) /\
    store_ready root (delete_all (object_path root <$> cs.*1) fs).
Proof.
revert fs. induction cs as [|[d z] cs IH]; intros fs Hr; cbn [sweep].
- exists 0%Z. split; [apply does_ret|done].
- destruct (does_remove_object fs d Hr) as [D Hr1]. destruct (IH _ Hr1) as (freed & D' & Hr').
  eexists. split; [|exact Hr']. eapply does_bind; [apply does_try, D|]. cbv beta.
  eapply does_bind; [exact D'|]. apply does_ret.
Qed.

(** ** Pruning *)

(** Whole subtrees below [run_root] are gone, everything else is as it was. *)
Definition pruned (run_root : path) : relation (gmap path node) := fun fs fs' =>
  (forall q, fs' !! q = fs !! q \/ (fs' !! q = None /\ run_root `prefix_of` q /\ q <> run_root)) /\
  (fs_wf fs -> fs_wf fs').

#[local] Instance pruned_preorder run_root : PreOrder (pruned run_root).
Proof.
split; [by split; [left|]|]. intros f1 f2 f3 [H1 W1] [H2 W2]. split; [|auto].
intros q. destruct (H2 q) as [E|]; [|by right]. rewrite E. apply H1.
Qed.

Lemma pruned_below fs run_root name :
  fs !! (run_root ++ [name]) = Some NDir ->
  pruned run_root fs (delete_all (nodes_below fs (run_root ++ [name])) fs).
Proof.
intros Hd. set (dir := run_root ++ [name]) in *.
pose proof (delete_below_lookup fs dir) as Hl.
split.
- intros q. rewrite Hl. case_decide as Hp; [right|by left]. split; [done|]. unfold dir in Hp. split.
  + etrans; [|exact Hp]. by apply prefix_app_r.
  + intros ->. apply prefix_length in Hp. rewrite length_app in Hp. simpl in Hp. lia.
- intros [Hr Hwf]. split.
  + rewrite Hl, decide_False; [done|]. unfold dir. intros H%prefix_length. rewrite length_app in H. simpl in H. lia.
  + intros p c n. rewrite !Hl. case_decide as H1; [done|]. intros Hn%Hwf. rewrite decide_False; [done|].
    intros Hp. apply H1. etrans; [exact Hp|]. by apply prefix_app_r.
Qed.

(** Computations that succeed from every tree, with a frame. *)
Definition runs {A : Type} (R : relation (gmap path node)) (m : IO A) : Prop :=
  forall fs, exists a fs', does m fs (Ok a) fs' /\ R fs fs'.

Section runs.
Context (R : relation (gmap path node)) `{!PreOrder R}.

Lemma runs_ret {A : Type} (a : A) : runs R (mret a).
Proof. intros fs. exists a, fs. split; [apply does_ret|done]. Qed.

Lemma runs_bind {A B : Type} (m : IO A) (k : A -> IO B) : runs R m -> (forall a, runs R (k a)) -> runs R (m ≫= k).
Proof.
intros Hm Hk fs. destruct (Hm fs) as (a & fs1 & D1 & R1). destruct (Hk a fs1) as (b & fs2 & D2 & R2).
exists b, fs2. split; [by eapply does_bind|by etrans].
Qed.

Lemma runs_get_fs : runs R get_fs.
Proof. intros fs. exists fs, fs. split; [apply does_get_fs|done]. Qed.

Lemma runs_exists p : runs R (exists_ p).
Proof. intros fs. exists (node_exists fs p), fs. split; [apply does_exists|done]. Qed.

Lemma runs_try_read p : runs R (try_ (read p)).
Proof.
intros fs. assert (exists r, does (read p) fs r fs) as [r D].
{ destruct (fs !! p) as [[]|] eqn:E; eexists; apply does_sys0; by rewrite E. }
exists r, fs. split; [by apply does_try|done].
Qed.

Lemma runs_map_io {A B : Type} (f : A -> IO B) l : (forall a, runs R (f a)) -> runs R (map_io f l).
Proof.
intros Hf. induction l as [|a l IH]; [apply runs_ret|]. cbn [map_io].
apply runs_bind; [done|]. intros b. apply runs_bind; [done|]. intros bs. apply runs_ret.
Qed.

End runs.

Lemma runs_remove_run_dir run_root name : runs (pruned run_root) (ignore (remove_dir_all (run_root ++ [name]))).
Proof.
intros fs. exists tt. set (dir := run_root ++ [name]).
assert (exists r fs', does (remove_dir_all dir) fs r fs' /\ pruned run_root fs fs') as (r & fs' & D & Hp).
{ destruct (fs !! dir) as [[c m| |t]|] eqn:E.
  - eexists _, fs. split; [apply does_sys_eq; by rewrite E|done].
  - eexists _, _. split; [apply does_sys_eq; by rewrite E|by apply pruned_below].
  - eexists _, _. split; [apply does_sys_eq; by rewrite E|]. split.
    + intros q. rewrite lookup_delete. case_decide as Eq; [right|by left]. subst q. split; [done|]. split.
      * by apply prefix_app_r.
      * apply snoc_ne.
    + intros Hwf. by eapply fs_wf_delete_leaf.
  - eexists _, fs. split; [apply does_sys_eq; by rewrite E|done]. }
exists fs'. split; [by eapply does_ignore|done].
Qed.

Lemma runs_prune_run_dir run_root now mtime dry min_age name :
  runs (pruned run_root) (prune_run_dir run_root now mtime dry min_age name).
Proof.
pose proof (runs_remove_run_dir run_root name) as Hr. unfold prune_run_dir.
repeat first [exact Hr|apply runs_bind; [apply _| |intros ?]|apply runs_get_fs; apply _|apply runs_try_read; apply _
  |apply runs_exists; apply _|apply runs_ret; apply _|case_match].
Qed.

Lemma does_prune_run_dirs run_root now mtime dry min_age fs :
  (fs !! run_root = None \/ fs !! run_root = Some NDir) ->
  exists n fs', does (prune_run_dirs run_root now mtime dry min_age) fs (Ok n) fs' /\ pruned run_root fs fs'.
Proof.
intros Hr. unfold prune_run_dirs. destruct Hr as [E|E].
- exists 0%Z, fs. split; [|done]. eapply does_bind; [apply does_exists|]. cbv beta. unfold node_exists. rewrite E.
  apply does_ret.
- destruct (runs_map_io (pruned run_root) (prune_run_dir run_root now mtime dry min_age) (children fs run_root)
    (runs_prune_run_dir run_root now mtime dry min_age) fs) as (ns & fs' & D & P).
  exists (foldr Z.add 0%Z ns), fs'. split; [|done].
  eapply does_bind; [apply does_exists|]. cbv beta. unfold node_exists. rewrite E.
  eapply does_bind; [by apply does_read_dir|]. cbv beta. eapply does_bind; [exact D|]. apply does_ret.
Qed.

(** ** The whole collection *)

(** The lock file is no part of what is live. *)
Lemma live_ext fs fs' a d :
  (forall x y, file_at fs' (root ++ [str "ac"; x; y]) = file_at fs (root ++ [str "ac"; x; y])) ->
  (forall x y, file_at fs' (root ++ [IMGMANIFEST; x; y]) = file_at fs (root ++ [IMGMANIFEST; x; y])) ->
  (forall x y, file_at fs' (root ++ [IMGMETA; x; y]) = file_at fs (root ++ [IMGMETA; x; y])) ->
  (forall d, pub fs' (object_path root d) = pub fs (object_path root d)) ->
  live a fs d -> live a fs' d.
Proof.
intros H1 H2 H3 H4. assert (forall d, served fs' d = served fs d) as Hs by (intros d'; unfold served; by rewrite H4).
destruct 1 as [n r rec d Hn Hrec Hd|x y v o e d Hf Hy Hp Hd|x y p d Hf Hy Hl Hd|x y d Hf Hy Hl].
- apply (live_ref a fs' n r rec); [done|done|]. unfold record_marks in *. by rewrite Hs.
- apply (live_ac a fs' x y v o e); [by rewrite H1|done..].
- apply (live_image a fs' x y p); [by rewrite H2|done|done|]. unfold image_marks in *. by rewrite Hs.
- apply (live_config a fs' x y); [by rewrite H3|done..].
Qed.

Lemma live_lock fs a d : live a (lock_fs root fs) d <-> live a fs d.
Proof.
assert (forall c x y, file_at (lock_fs root fs) (root ++ [c; x; y]) = file_at fs (root ++ [c; x; y])) as Hf.
{ intros c x y. unfold file_at. rewrite lock_fs_lookup_ne; [done|]. unfold gc_lock_path. by intros [=]%app_inv_head. }
split; apply live_ext; intros; rewrite ?Hf; try done; by rewrite (lock_fs_pub root fs _).
Qed.

(** The objects after the sweep. *)
Lemma sweep_pub fs mark d :
  fs_wf fs -> digest_wf d ->
  pub (delete_all (object_path root <$> (omap id (counted_all fs mark)).*1) fs) (object_path root d) =
    if decide (d ∈ mark) then pub fs (object_path root d) else None.
Proof.
intros Hwf Hd. set (cs := omap id (counted_all fs mark)).
assert (forall d, object_path root d ∈ (object_path root <$> cs.*1) <-> d ∈ cs.*1) as Hin.
{ intros d'. rewrite list_elem_of_fmap. split; [intros (d0 & E & H)|eauto]. by apply (inj _) in E as ->. }
unfold pub. destruct (tmp_path (object_path root d)) eqn:Et; [by case_decide|].
unfold file_at at 1. rewrite delete_all_lookup. destruct (decide (d ∈ mark)) as [Hm|Hm].
- rewrite decide_False; [done|]. rewrite Hin. intros ([d' z] & -> & Hz)%list_elem_of_fmap.
  by apply (candidate_unmarked fs mark d' z).
- destruct (file_at fs (object_path root d)) as [c|] eqn:Ef.
  + rewrite decide_True; [done|]. apply Hin. by eapply object_candidate.
  + case_decide; [done|]. exact Ef.
Qed.

Lemma pruned_pub run_root fs fs' p : pruned run_root fs fs' -> ~ run_root `prefix_of` p -> pub fs' p = pub fs p.
Proof. intros [H _] Hp. unfold pub, file_at. by destruct (H p) as [->|(_ & ? & _)]. Qed.

Lemma pruned_ready run_root fs fs' :
  store_ready root fs -> pruned run_root fs fs' -> ~ run_root `prefix_of` root -> ~ root `prefix_of` run_root ->
  store_ready root fs'.
Proof.
intros Hr [H Hwf] H1 H2.
assert (forall q, fs' !! (root ++ q) = fs !! (root ++ q)) as Hq.
{ intros q. destruct (H (root ++ q)) as [E|(_ & Hp & _)]; [done|].
  apply prefix_root_cases in Hp as [Hp|(q' & -> & _)]; [done|]. destruct H2. by apply prefix_app_r. }
split; [apply Hwf, Hr| | |apply Hr|].
- intros p n Hn. destruct (H p) as [E|[E _]]; rewrite E in Hn; [by eapply Hr|done].
- rewrite <- (app_nil_r root), Hq, app_nil_r. apply Hr.
- intros q k n Hk Hn. rewrite Hq in Hn. by eapply Hr.
Qed.

Lemma does_gc run_root now mtime min_age fs a :
  refs_abs root N fs a -> (fs !! run_root = None \/ fs !! run_root = Some NDir) ->
  ~ run_root `prefix_of` root -> ~ root `prefix_of` run_root ->
  exists rep fs', does (gc root run_root now mtime false min_age) fs (Ok rep) fs' /\ store_ready root fs' /\
    (forall d, digest_wf d -> (live a fs d -> pub fs' (object_path root d) = pub fs (object_path root d)) /\
      (~ live a fs d -> pub fs' (object_path root d) = None)) /\
    (forall p, ~ run_root `prefix_of` p -> (forall d, p <> object_path root d) -> pub fs' p = pub fs p).
Proof.
intros Ha Hrun Hn1 Hn2. pose proof (lock_fs_ready root fs (abs_ready _ _ _ _ Ha)) as Hr.
set (fs1 := lock_fs root fs) in *. pose proof (ready_wf _ _ Hr) as Hwf.
assert (refs_abs root N fs1 a) as Ha1 by (by apply refs_abs_lock).
set (mark := gc_marks a fs1). set (cs := omap id (counted_all fs1 mark)).
destruct (does_sweep fs1 cs Hr) as (freed & Ds & Hr2). set (fs2 := delete_all (object_path root <$> cs.*1) fs1) in *.
assert (forall p, (forall d, p <> object_path root d) -> fs2 !! p = fs1 !! p) as Hother.
{ intros p Hp. unfold fs2. rewrite delete_all_lookup, decide_False; [done|].
  intros (d & E & _)%list_elem_of_fmap. by apply (Hp d). }
destruct (does_prune_run_dirs run_root now mtime false min_age fs2) as (removed & fs3 & Dp & Hp3).
{ assert (fs2 !! run_root = fs !! run_root) as ->; [|done]. rewrite Hother.
  - apply lock_fs_lookup_ne. intros E. apply Hn2. rewrite E. by apply prefix_app_r.
  - intros d E. apply Hn2. rewrite E. unfold object_path. rewrite sharded_slot. by apply prefix_app_r. }
eexists _, fs3. split; [|split; [by eapply pruned_ready|split]].
- unfold gc. eapply does_bind; [apply does_lock; [apply Ha|done]|]. cbv beta.
  eapply does_bind; [by apply does_mark_phase|]. cbv beta. eapply does_bind; [by apply does_count_objects|]. cbv beta zeta.
  eapply does_bind; [exact Ds|]. cbv beta. eapply does_bind; [exact Dp|]. apply does_ret.
- intros d Hd. pose proof (sweep_pub fs1 mark d Hwf Hd) as Hsw. fold cs fs2 in Hsw.
  assert (pub fs3 (object_path root d) = pub fs2 (object_path root d)) as ->.
  { apply (pruned_pub run_root); [done|]. intros Hp. unfold object_path in Hp. rewrite sharded_slot in Hp.
    apply prefix_root_cases in Hp as [Hp|(q & -> & _)]; [done|]. apply Hn2. by apply prefix_app_r. }
  rewrite Hsw. assert (d ∈ mark <-> live a fs d) as Hm.
  { unfold mark. rewrite elem_of_gc_marks by done. apply live_lock. }
  rewrite (lock_fs_pub root fs _). split; intros H; case_decide; tauto.
- intros p Hp Hne. rewrite (pruned_pub run_root _ _ _ Hp3 Hp).
  assert (pub fs2 p = pub fs1 p) as -> by (unfold pub, file_at; by rewrite Hother).
  apply (lock_fs_pub root fs).
Qed.

(** A version of a ref that can be hydrated: its manifest is in the store and so is
    every file of it. *)
Definition restorable (fs : gmap path node) (rec : RefRecord) (m : Manifest) : Prop :=
  (exists bs, pub fs (object_path root (RefRecord.root rec)) = Some bs /\ of_bytes bs = RefRecord.root rec /\
     Manifest.decode bs = Ok m) /\
  forall f, f ∈ file_entries m -> present root fs f.2.

Lemma restorable_live fs a n r rec m d :
  cur a !! n = Some r -> rec ∈ history a n -> restorable fs rec m ->
  d ∈ manifest_marks (RefRecord.root rec) m -> live a fs d.
Proof.
intros Hn Hrec [(bs & Hb & Hd & Hm) _] Hin. apply (live_ref a fs n r rec); [done|done|].
unfold record_marks, served. rewrite Hb, bool_decide_eq_true_2 by done. by rewrite Hm.
Qed.

Lemma file_digest_wf m f : manifest_wf m -> f ∈ file_entries m -> digest_wf f.2.
Proof.
intros Hm (e & He & Hf)%list_elem_of_omap. destruct e as [p mode z d| |]; [|done..]. injection Hf as <-.
destruct Hm as (_ & _ & _ & Hes). rewrite Forall_forall in Hes. by apply Hes in He as (_ & _ & _ & ?).
Qed.

End exact.

(** C5: the collection is exact.  On a store in good order, without I/O faults and
    with the run directory apart from the store, [gc] succeeds; every object that some
    version of a present ref, some cache record or some image sidecar refers to is
    kept; every other object is removed; and no other published file outside the run
    directory changes. *)
Theorem gc_exact `{B3 : Blake3} root N run_root now mtime min_age fs a :
  names_ok N -> refs_abs root N fs a -> (fs !! run_root = None \/ fs !! run_root = Some NDir) ->
  ~ run_root `prefix_of` root -> ~ root `prefix_of` run_root ->
  exists rep fs', does (gc root run_root now mtime false min_age) fs (Ok rep) fs' /\ store_ready root fs' /\
    (forall d, digest_wf d -> (live root a fs d -> pub fs' (object_path root d) = pub fs (object_path root d)) /\
      (~ live root a fs d -> pub fs' (object_path root d) = None)) /\
    (forall p, ~ run_root `prefix_of` p -> (forall d, p <> object_path root d) -> pub fs' p = pub fs p).
Proof. intros HN. by apply does_gc. Qed.

(** A collection never breaks a version that could be restored.  For every ref
    that is present and every record of its history, if the record's manifest and all
    the files it names are in the store before [gc], they are there after it. *)
Theorem gc_keeps_restorable `{B3 : Blake3} root N run_root now mtime min_age fs a n r rec m :
  names_ok N -> refs_abs root N fs a -> (fs !! run_root = None \/ fs !! run_root = Some NDir) ->
  ~ run_root `prefix_of` root -> ~ root `prefix_of` run_root ->
  cur a !! n = Some r -> rec ∈ history a n -> restorable root fs rec m ->
  exists rep fs', does (gc root run_root now mtime false min_age) fs (Ok rep) fs' /\ restorable root fs' rec m.
Proof.
intros HN Ha Hrun H1 H2 Hn Hrec Hres.
destruct (does_gc root N HN run_root now mtime min_age fs a Ha Hrun H1 H2) as (rep & fs' & D & _ & Hobj & _).
exists rep, fs'. split; [done|]. pose proof Hres as [(bs & Hb & Hd & Hm) Hf].
pose proof (history_wf root N fs a n Ha) as Hwf. rewrite Forall_forall in Hwf. destruct (Hwf rec Hrec) as (_ & Hrd & _).
assert (forall d, digest_wf d -> d ∈ manifest_marks (RefRecord.root rec) m ->
  pub fs' (object_path root d) = pub fs (object_path root d)) as Hkeep.
{ intros d Hdw Hin. apply Hobj; [done|]. by eapply restorable_live. }
split.
- exists bs. rewrite Hkeep; [done|done|by constructor].
- intros f Hin. destruct (Hf f Hin) as (c & Hc & Hh). exists c. split; [|done]. rewrite Hkeep; [done| |].
  + eapply file_digest_wf; [by eapply Manifest.decode_wf|done].
  + right. apply list_elem_of_fmap. by exists f.
Qed.

(** * A concrete store *)

Definition demo_run : path := [str "run"].
Definition demo_record : RefRecord :=
  @snapshot_record demo_b3 (mkRefs ∅ []) (str "main") demo_manifest 1700000000 (str "0.1.0").

(** The store after the snapshot of the demo tree. *)
Lemma demo_published :
  exists rep fs', does (@publish_snapshot demo_b3 demo_root Reflink demo_work (str "main") demo_manifest 1700000000 (str "0.1.0"))
      demo_tree (Ok rep) fs' /\
    @refs_abs demo_b3 demo_root [str "main"] fs' (ref_spec (RPut demo_record) (mkRefs ∅ [])).2 /\
    @restorable demo_b3 demo_root fs' demo_record demo_manifest /\ fs' !! demo_run = None.
Proof.
assert (op_ok [str "main"] (RPut demo_record) (mkRefs ∅ [])) as Hop
  by (split; [by constructor|split; [by_eval|vm_compute; done]]).
destruct (@does_publish_snapshot demo_b3 demo_root [str "main"] demo_main_ok Reflink demo_work (str "main") demo_manifest
  1700000000 (str "0.1.0") (mkRefs ∅ []) demo_tree demo_tree_refs demo_tree_cas demo_captured Hop)
  as (new & fs' & D & Ha' & (bs & Hb & Hh) & Pf).
eexists _, fs'. split; [exact D|]. split; [exact Ha'|]. split.
- split; [|exact Pf]. exists bs. split; [exact Hb|]. split; [exact Hh|].
  apply (@demo_no_collision (Manifest.encode demo_manifest) bs (or_introl eq_refl)) in Hh as ->.
  apply manifest_decode_encode. by_eval.
- destruct (D (mkWorld demo_tree [] 0 0) eq_refl eq_refl) as (w' & E & <- & _).
  pose proof (@publish_snapshot_post demo_b3 demo_root eq_refl Reflink demo_work (str "main") demo_manifest 1700000000
    (str "0.1.0") (mkWorld demo_tree [] 0 0) (@objects_of_ready demo_b3 demo_root demo_tree demo_tree_ready demo_tree_cas))
    as (_ & Hout & _).
  rewrite E in Hout. cbn [snd w_fs] in Hout. rewrite Hout; [reflexivity|by_eval|by_eval].
Qed.

Lemma gc_exact_witness :
  exists fs rep fs', does (@gc demo_b3 demo_root demo_run 1700000000 (fun _ => 0%Z) false 3600) fs (Ok rep) fs' /\
    (forall d, digest_wf d ->
      (@live demo_b3 demo_root (ref_spec (RPut demo_record) (mkRefs ∅ [])).2 fs d ->
         pub fs' (object_path demo_root d) = pub fs (object_path demo_root d)) /\
      (~ @live demo_b3 demo_root (ref_spec (RPut demo_record) (mkRefs ∅ [])).2 fs d ->
         pub fs' (object_path demo_root d) = None)).
Proof.
destruct demo_published as (rep0 & fs & D0 & Ha & Hres & Hrun).
destruct (@gc_exact demo_b3 demo_root [str "main"] demo_run 1700000000 (fun _ => 0%Z) 3600 fs _ demo_main_ok Ha
  (or_introl Hrun)) as (rep & fs' & D & _ & Hobj & _); [by_eval|by_eval|].
exists fs, rep, fs'. split; [exact D|exact Hobj].
Defined.

Lemma gc_keeps_restorable_witness :
  exists fs rep fs', @restorable demo_b3 demo_root fs demo_record demo_manifest /\
    does (@gc demo_b3 demo_root demo_run 1700000000 (fun _ => 0%Z) false 3600) fs (Ok rep) fs' /\
    @restorable demo_b3 demo_root fs' demo_record demo_manifest.
Proof.
destruct demo_published as (rep0 & fs & D0 & Ha & Hres & Hrun).
destruct (@gc_keeps_restorable demo_b3 demo_root [str "main"] demo_run 1700000000 (fun _ => 0%Z) 3600 fs _ (str "main")
  demo_record demo_record demo_manifest demo_main_ok Ha (or_introl Hrun)) as (rep & fs' & D & Hres').
- by_eval.
- by_eval.
- by_eval.
- by_eval.
- exact Hres.
- by exists fs, rep, fs'.
Defined.

Lemma gc_dry_run_reads_only_witness :
  let w := mkWorld demo_tree [FOk; FOk; FErr 0] 7 0 in
  w_fs (@gc demo_b3 demo_root demo_run 1700000000 (fun _ => 0%Z) true 0 w).2 !! (demo_work ++ [str "a.txt"])
    = Some (NFile demo_a 420).
Proof.
intros w. apply (@gc_dry_run_reads_only demo_b3 demo_root demo_run 1700000000 (fun _ => 0%Z) 0 w
  (demo_work ++ [str "a.txt"])). discriminate.
Defined.

(** The published demo store, and a collection in which the read of the manifest
    fails once. *)
Definition demo_store : World :=
  (@publish_snapshot demo_b3 demo_root Reflink demo_work (str "main") demo_manifest 1700000000 (str "0.1.0")
    (mkWorld demo_tree [] 7 0)).2.
Definition demo_hiccup : World := mkWorld (w_fs demo_store) (replicate 7 FOk ++ [FErr 0]) 7 0.

