(* ===== verification/Volume.v ===== *)
(** Named volumes (crates/lightr-store/src/store/volume.rs): the registry below
    [<root>/volumes], a directory per volume with its [_data] and a hand-written
    [meta.json]: the names, the JSON writer and reader, [create], [list] and [inspect].
    The owners of a volume, which [remove] and [prune] consult, are in Owners. *)

From S2P Require Import Prelude Text Error Digest Limits Fs FsFacts OwnedTemp Calm Cas Layout.

(** * Names and paths *)

Record VolumeInfo := mkVolumeInfo {
  vi_name : bytes;
  vi_created_at : Z;
  vi_driver : bytes;
  vi_labels : list (bytes * bytes);
  vi_mountpoint : path;
}.

Definition DRIVER_LOCAL : bytes := str "local".

Definition volume_char (c : byte) : bool :=
  is_ascii_alphanumeric c || bool_decide (c = x5f) || bool_decide (c = x2e) || bool_decide (c = x2d).

Definition name_validate (name : bytes) : Result unit :=
  match name with
  | [] => Err (InvalidRef (str "empty volume name"))
  | c :: rest =>
      if is_ascii_alphanumeric c then
        if forallb volume_char rest then Ok tt
        else Err (InvalidRef (str "invalid volume name '" ++ name ++ str "': only [a-zA-Z0-9_.-] allowed"))
      else Err (InvalidRef (str "invalid volume name '" ++ name ++ str "': must start with [a-zA-Z0-9]"))
  end.

Definition volumes_root (root : path) : path := root ++ [str "volumes"].
Definition volume_dir (root : path) (name : bytes) : path := volumes_root root ++ [name].
Definition data_dir (root : path) (name : bytes) : path := volume_dir root name ++ [str "_data"].
Definition meta_path (root : path) (name : bytes) : path := volume_dir root name ++ [str "meta.json"].

(** * meta.json *)

(** The double quote and the backslash. *)
Definition QUOTE : byte := x22.
Definition BSLASH : byte := x5c.

Definition escape (c : byte) : bytes :=
  if bool_decide (c = QUOTE) then [BSLASH; QUOTE]
  else if bool_decide (c = BSLASH) then [BSLASH; BSLASH]
  else [c].

Definition json_str (s : bytes) : bytes := QUOTE :: mjoin (escape <$> s) ++ [QUOTE].

Definition label_json (kv : bytes * bytes) : bytes := json_str kv.1 ++ x3a :: json_str kv.2.

(** The pairs, separated by commas. *)
Fixpoint labels_body (labels : list (bytes * bytes)) : bytes :=
  match labels with
  | [] => []
  | [kv] => label_json kv
  | kv :: labels => label_json kv ++ x2c :: labels_body labels
  end.

Definition labels_json (labels : list (bytes * bytes)) : bytes := x7b :: labels_body labels ++ [x7d].

(** A quoted key and its colon. *)
Definition json_key (k : String.string) : bytes := QUOTE :: str k ++ [QUOTE; x3a].

Definition meta_json (info : VolumeInfo) : bytes :=
  [x7b] ++ json_key "name" ++ json_str (vi_name info) ++ [x2c] ++
  json_key "created_at" ++ dec (vi_created_at info) ++ [x2c] ++
  json_key "driver" ++ json_str (vi_driver info) ++ [x2c] ++
  json_key "labels" ++ labels_json (vi_labels info) ++ [x7d].

(** What follows the first occurrence of [key]: [text[text.find(key)? + key.len()..]]. *)
Fixpoint find_after (key text : bytes) : option bytes :=
  match strip_prefix key text with
  | Some rest => Some rest
  | None => match text with [] => None | _ :: text => find_after key text end
  end.

(** The text up to the closing quote, escapes resolved. *)
Fixpoint scan_str (s : bytes) : option bytes :=
  match s with
  | [] => None
  | c :: s =>
      if bool_decide (c = QUOTE) then Some []
      else if bool_decide (c = BSLASH) then
        match s with
        | [] => None
        | other :: s => cons other <$> scan_str s
        end
      else cons c <$> scan_str s
  end.

Definition json_field_str (text key : bytes) : option bytes :=
  rest ← find_after key text;
  rest ← strip_prefix [QUOTE] (trim_start rest);
  scan_str rest.

Fixpoint take_digits (s : bytes) : bytes :=
  match s with
  | c :: s => if is_ascii_digit c then c :: take_digits s else []
  | [] => []
  end.

Definition json_field_u64 (text key : bytes) : option Z :=
  rest ← find_after key text;
  parse_u64 (take_digits (trim_start rest)).

(** [rest[..rest.find(c)?]]. *)
Fixpoint before (c : byte) (s : bytes) : option bytes :=
  match s with
  | [] => None
  | b :: s => if bool_decide (b = c) then Some [] else cons b <$> before c s
  end.

(** Escapes resolved to the end of the text. *)
Fixpoint unescape (s : bytes) : option bytes :=
  match s with
  | [] => Some []
  | c :: s =>
      if bool_decide (c = BSLASH) then
        match s with
        | [] => None
        | other :: s => cons other <$> unescape s
        end
      else cons c <$> unescape s
  end.

Definition strip_suffix_byte (c : byte) (s : bytes) : option bytes :=
  match reverse s with
  | b :: r => if bool_decide (b = c) then Some (reverse r) else None
  | [] => None
  end.

Definition unquote (tok : bytes) : option bytes :=
  inner ← strip_prefix [QUOTE] tok;
  inner ← strip_suffix_byte QUOTE inner;
  unescape inner.

Definition parse_label (pair : bytes) : option (bytes * bytes) :=
  '(k, v) ← split_once x3a pair;
  k ← unquote (trim k);
  v ← unquote (trim v);
  Some (k, v).

Definition sort_labels : list (bytes * bytes) -> list (bytes * bytes) :=
  sort_by (fun a b => bytes_leb a.1 b.1).

Definition json_field_labels (text : bytes) : option (list (bytes * bytes)) :=
  rest ← find_after (json_key "labels") text;
  rest ← strip_prefix [x7b] (trim_start rest);
  body ← before x7d rest;
  if bool_decide (trim body = []) then Some []
  else sort_labels <$> mapM parse_label (split_on x2c body).

Definition parse_meta (text : bytes) : option VolumeInfo :=
  name ← json_field_str text (json_key "name");
  created_at ← json_field_u64 text (json_key "created_at");
  driver ← json_field_str text (json_key "driver");
  labels ← json_field_labels text;
  Some (mkVolumeInfo name created_at driver labels []).

(** * Operations *)

Definition read_info (root : path) (name : bytes) : IO VolumeInfo :=
  bs ← read (meta_path root name);
  if negb (utf8_valid bs) then throw (InvalidManifest (str "volume " ++ name ++ str ": non-UTF-8 meta.json")) else
  info ← lift (ok_or (parse_meta bs) (InvalidManifest (str "volume " ++ name ++ str ": malformed meta.json")));
  mret (mkVolumeInfo (vi_name info) (vi_created_at info) (vi_driver info) (vi_labels info) (data_dir root name)).

(** [now]: the wall clock in seconds. *)
Definition create (root : path) (now : Z) (name : bytes) (labels : list (bytes * bytes)) : IO VolumeInfo :=
  _ ← lift (name_validate name);
  e ← exists_ (volume_dir root name);
  if (e : bool) then throw (InvalidRef (str "volume already exists: " ++ name)) else
  let info := mkVolumeInfo name now DRIVER_LOCAL (sort_labels labels) (data_dir root name) in
  _ ← create_dir_all (data_dir root name);
  _ ← file_create (meta_path root name);
  _ ← write_all (meta_path root name) (meta_json info);
  mret info.

Definition inspect (root : path) (name : bytes) : IO VolumeInfo :=
  _ ← lift (name_validate name);
  e ← exists_ (volume_dir root name);
  if negb e then throw (RefNotFound (str "no such volume: " ++ name)) else
  read_info root name.

Definition list_one (root : path) (name : bytes) : IO (list VolumeInfo) :=
  fs ← get_fs;
  if is_dir fs (volume_dir root name) && utf8_valid name then
    r ← try_ (read_info root name);
    mret (match r with Ok info => [info] | Err _ => [] end)
  else mret [].

Definition list_volumes (root : path) : IO (list VolumeInfo) :=
  e ← exists_ (volumes_root root);
  if negb e then mret [] else
  r ← try_ (read_dir (volumes_root root));
  match r with
  | Err _ => mret []
  | Ok names =>
      infos ← map_io (list_one root) names;
      mret (sort_by (fun a b => bytes_leb (vi_name a) (vi_name b)) (mjoin infos))
  end.

(** * The writer and the reader agree *)

Lemma find_after_here key t : find_after key (key ++ t) = Some t.
Proof. destruct (key ++ t) eqn:E; simpl; rewrite <- E, strip_prefix_app; done. Qed.

(** A key starts with a quote: text without quotes is passed over. *)
Lemma find_after_skip k seg t :
  QUOTE ∉ seg -> find_after (QUOTE :: k) (seg ++ t) = find_after (QUOTE :: k) t.
Proof.
induction seg as [|b seg IH]; intros Hq; simpl; [done|]. apply not_elem_of_cons in Hq as [Hb Hq].
rewrite bool_decide_eq_false_2 by done. by apply IH.
Qed.

Lemma quote_free_split a b s t : QUOTE ∉ a -> QUOTE ∉ b -> a ++ QUOTE :: s = b ++ QUOTE :: t -> a = b /\ s = t.
Proof.
revert b. induction a as [|x a IH]; intros [|y b] Ha Hb E; simplify_eq/=.
- done.
- set_solver.
- set_solver.
- destruct (IH b) as [-> ->]; [set_solver..|done|done].
Qed.

(** A quoted word followed by something else than a colon is not a key. *)
Lemma find_after_word (k : String.string) n c t :
  QUOTE ∉ str k -> QUOTE ∉ n -> c <> x3a -> c <> QUOTE -> head (str k) <> Some c ->
  find_after (json_key k) (QUOTE :: n ++ QUOTE :: c :: t) = find_after (json_key k) t.
Proof.
intros Hk Hn Hc Hc' Hh. unfold json_key. cbn [find_after]. destruct (strip_prefix _ _) as [r|] eqn:E.
{ apply strip_prefix_Some in E. injection E as E. rewrite <- app_assoc in E. simpl in E.
  apply quote_free_split in E as [_ E]; [|done|done]. congruence. }
rewrite find_after_skip by done. cbn [find_after].
destruct (strip_prefix (QUOTE :: str k ++ [QUOTE; x3a]) (QUOTE :: c :: t)) as [r|] eqn:E2.
{ apply strip_prefix_Some in E2. injection E2 as E2. destruct (str k) as [|x s]; simpl in *; congruence. }
cbn [strip_prefix]. by rewrite bool_decide_eq_false_2.
Qed.

(** Another key is passed over. *)
Lemma find_after_key (k k' : String.string) t :
  QUOTE ∉ str k -> QUOTE ∉ str k' -> str k <> str k' -> str k <> [] -> head (str k) <> Some x3a ->
  find_after (json_key k) (json_key k' ++ t) = find_after (json_key k) t.
Proof.
intros Hk Hk' Hne Hn Hh. unfold json_key. cbn [app find_after]. destruct (strip_prefix _ _) as [r|] eqn:E.
{ apply strip_prefix_Some in E. injection E as E. rewrite <- !app_assoc in E. simpl in E.
  apply quote_free_split in E as [E _]; [|done|done]. congruence. }
rewrite <- app_assoc, find_after_skip by done. cbn [app find_after].
destruct (strip_prefix (QUOTE :: str k ++ [QUOTE; x3a]) (QUOTE :: x3a :: t)) as [r|] eqn:E2.
{ apply strip_prefix_Some in E2. injection E2 as E2. destruct (str k) as [|x s]; simpl in *; [done|congruence]. }
cbn [strip_prefix]. rewrite bool_decide_eq_false_2 by done. done.
Qed.

Lemma scan_str_escape s t : scan_str (mjoin (escape <$> s) ++ QUOTE :: t) = Some s.
Proof.
induction s as [|c s IH]; [done|]. rewrite fmap_cons, join_cons, <- app_assoc. unfold escape at 1.
destruct (decide (c = QUOTE)) as [->|H1]; [simpl; by rewrite IH|].
rewrite bool_decide_eq_false_2 by done. destruct (decide (c = BSLASH)) as [->|H2]; [simpl; by rewrite IH|].
rewrite bool_decide_eq_false_2 by done. cbn [app scan_str]. rewrite !bool_decide_eq_false_2 by done. by rewrite IH.
Qed.

Lemma unescape_escape s : unescape (mjoin (escape <$> s)) = Some s.
Proof.
induction s as [|c s IH]; [done|]. rewrite fmap_cons, join_cons. unfold escape at 1.
destruct (decide (c = QUOTE)) as [->|H1]; [simpl; by rewrite IH|].
rewrite bool_decide_eq_false_2 by done. destruct (decide (c = BSLASH)) as [->|H2]; [simpl; by rewrite IH|].
rewrite bool_decide_eq_false_2 by done. cbn [app unescape]. rewrite !bool_decide_eq_false_2 by done. by rewrite IH.
Qed.

Lemma unquote_json_str s : unquote (json_str s) = Some s.
Proof.
unfold unquote, json_str. cbn [strip_prefix]. rewrite bool_decide_eq_true_2 by done. cbn [mbind option_bind].
unfold strip_suffix_byte. rewrite reverse_snoc, bool_decide_eq_true_2 by done. cbn [mbind option_bind].
rewrite reverse_involutive. apply unescape_escape.
Qed.

(** Text that begins and ends with printable characters is not trimmed. *)
Lemma trim_start_graphic b r : is_ascii_graphic b = true -> trim_start (b :: r) = b :: r.
Proof. intros H. apply strip_while_none. by apply ws_strip_graphic. Qed.

Lemma trim_ends b m e :
  is_ascii_graphic b = true -> is_ascii_graphic e = true -> trim (b :: m ++ [e]) = b :: m ++ [e].
Proof.
intros Hb He. unfold trim. rewrite trim_start_graphic by done. unfold trim_end.
rewrite strip_while_none; [by rewrite reverse_involutive|].
rewrite app_comm_cons, reverse_snoc. by apply ws_strip_graphic.
Qed.

Lemma trim_json_str s : trim (json_str s) = json_str s.
Proof. by apply trim_ends. Qed.

(** * Labels *)

(** What the reader can give back: no comma or closing brace, and no colon in a key. *)
Definition label_ok (kv : bytes * bytes) : Prop :=
  x2c ∉ kv.1 /\ x7d ∉ kv.1 /\ x3a ∉ kv.1 /\ x2c ∉ kv.2 /\ x7d ∉ kv.2.

Lemma not_in_escape c s : c <> QUOTE -> c <> BSLASH -> c ∉ s -> c ∉ mjoin (escape <$> s).
Proof.
intros H1 H2. induction s as [|b s IH]; intros Hs; [set_solver|]. apply not_elem_of_cons in Hs as [Hb Hs].
rewrite fmap_cons, join_cons. unfold escape at 1. repeat case_bool_decide; set_solver.
Qed.

Lemma not_in_json_str c s : c <> QUOTE -> c <> BSLASH -> c ∉ s -> c ∉ json_str s.
Proof. intros H1 H2 Hs. pose proof (not_in_escape c s H1 H2 Hs). unfold json_str. set_solver. Qed.

Lemma not_in_label c kv : c <> QUOTE -> c <> BSLASH -> c <> x3a -> c ∉ kv.1 -> c ∉ kv.2 -> c ∉ label_json kv.
Proof.
intros H1 H2 H3 Hk Hv. pose proof (not_in_json_str c _ H1 H2 Hk). pose proof (not_in_json_str c _ H1 H2 Hv).
unfold label_json. set_solver.
Qed.

Lemma parse_label_json kv : label_ok kv -> parse_label (label_json kv) = Some kv.
Proof.
intros (_ & _ & Hc & _). unfold parse_label, label_json. rewrite split_once_app by (by apply not_in_json_str).
cbn [mbind option_bind]. rewrite !trim_json_str, !unquote_json_str. by destruct kv.
Qed.

Lemma split_labels l : l <> [] -> Forall label_ok l -> split_on x2c (labels_body l) = label_json <$> l.
Proof.
induction l as [|kv l IH]; [done|]. intros _ [Hk Hl]%Forall_cons.
assert (x2c ∉ label_json kv) as Hc by (destruct Hk as (? & ? & ? & ? & ?); by apply not_in_label).
destruct l as [|kv' l]; [by apply split_on_piece|]. change (labels_body (kv :: kv' :: l)) with
  (label_json kv ++ x2c :: labels_body (kv' :: l)). rewrite split_on_app, IH by done. done.
Qed.

Lemma mapM_parse_labels l : Forall label_ok l -> mapM parse_label (label_json <$> l) = Some l.
Proof.
induction 1 as [|kv l Hk Hl IH]; [done|]. rewrite fmap_cons. cbn [mapM]. rewrite parse_label_json by done.
cbn [mbind option_bind]. by rewrite IH.
Qed.

Lemma labels_body_brace l : Forall label_ok l -> x7d ∉ labels_body l.
Proof.
induction 1 as [|kv l Hk Hl IH]; [set_solver|].
assert (x7d ∉ label_json kv) as Hc by (destruct Hk as (? & ? & ? & ? & ?); by apply not_in_label).
destruct l as [|kv' l]; [done|]. change (labels_body (kv :: kv' :: l)) with
  (label_json kv ++ x2c :: labels_body (kv' :: l)). set_solver.
Qed.

Lemma before_app c a b : c ∉ a -> before c (a ++ c :: b) = Some a.
Proof.
induction a as [|x a IH]; intros Ha; simpl; [by rewrite bool_decide_eq_true_2|].
apply not_elem_of_cons in Ha as [Hx Ha]. rewrite bool_decide_eq_false_2 by done. by rewrite IH.
Qed.

Lemma labels_body_quotes kv l : exists m, labels_body (kv :: l) = QUOTE :: m ++ [QUOTE].
Proof.
assert (forall kv, exists m, label_json kv = QUOTE :: m ++ [QUOTE]) as H.
{ intros [k v]. exists (mjoin (escape <$> k) ++ QUOTE :: x3a :: QUOTE :: mjoin (escape <$> v)).
  unfold label_json, json_str. cbn [fst snd app]. by rewrite <- !app_assoc. }
revert kv. induction l as [|kv' l IH]; intros kv; [apply H|].
destruct (H kv) as [m1 E1], (IH kv') as [m2 E2]. change (labels_body (kv :: kv' :: l)) with
  (label_json kv ++ x2c :: labels_body (kv' :: l)). rewrite E1, E2. exists (m1 ++ QUOTE :: x2c :: QUOTE :: m2).
cbn [app]. by rewrite <- !app_assoc.
Qed.

Lemma sort_labels_sorted l : StronglySorted (fun a b => bytes_le a.1 b.1) (sort_labels l).
Proof. apply (sort_by_key_sorted fst). Qed.

Lemma sort_labels_id l : StronglySorted (fun a b => bytes_le a.1 b.1) l -> sort_labels l = l.
Proof. apply (sort_by_id (fun a b => bytes_leb a.1 b.1)). intros. apply bytes_leb_spec. Qed.

Lemma read_labels l t : Forall label_ok l -> StronglySorted (fun a b => bytes_le a.1 b.1) l ->
  json_field_labels (json_key "labels" ++ labels_json l ++ t) = Some l.
Proof.
intros Hl Hs. unfold json_field_labels. rewrite find_after_here. cbn [mbind option_bind].
unfold labels_json. cbn [app]. rewrite trim_start_graphic by done. cbn [strip_prefix].
rewrite bool_decide_eq_true_2 by done. cbn [mbind option_bind]. rewrite <- app_assoc. cbn [app].
rewrite before_app by (by apply labels_body_brace). cbn [mbind option_bind].
destruct l as [|kv l]; [done|]. destruct (labels_body_quotes kv l) as [m E].
rewrite bool_decide_eq_false_2 by (by rewrite E, trim_ends).
rewrite split_labels, mapM_parse_labels by done. cbn [fmap option_fmap option_map]. by rewrite (sort_labels_id (kv :: l) Hs).
Qed.

(** * The whole record *)

Lemma valid_name_chars name : name_validate name = Ok tt -> Forall (fun c => volume_char c = true) name.
Proof.
unfold name_validate. destruct name as [|c rest]; [done|]. destruct (is_ascii_alphanumeric c) eqn:Hc; [|done].
destruct (forallb volume_char rest) eqn:Hr; [|done]. intros _. constructor.
- unfold volume_char. by rewrite Hc.
- by apply forallb_Forall.
Qed.

Lemma volume_char_plain c : volume_char c = true -> c <> QUOTE /\ c <> BSLASH /\ in_range x00 x7f c = true.
Proof.
revert c. apply (byte_forall (fun c => volume_char c = true -> c <> QUOTE /\ c <> BSLASH /\ in_range x00 x7f c = true)).
vm_compute. reflexivity.
Qed.

(** Text without quotes and backslashes is written as it is. *)
Lemma escape_plain s : QUOTE ∉ s -> BSLASH ∉ s -> mjoin (escape <$> s) = s.
Proof.
induction s as [|c s IH]; intros H1 H2; [done|]. apply not_elem_of_cons in H1 as [? ?], H2 as [? ?].
rewrite fmap_cons, join_cons, IH by done. unfold escape. rewrite !bool_decide_eq_false_2 by done. done.
Qed.

Lemma dec_quote_free n : QUOTE ∉ dec n.
Proof.
intros H. pose proof (dec_digits n) as Hd. rewrite forallb_forall in Hd.
by specialize (Hd QUOTE (proj1 (list_elem_of_In _ _) H)).
Qed.

Lemma take_digits_app d c t : forallb is_ascii_digit d = true -> is_ascii_digit c = false -> take_digits (d ++ c :: t) = d.
Proof.
induction d as [|b d IH]; simpl; [by intros _ ->|]. intros [-> Hd]%andb_true_iff Hc. by rewrite IH.
Qed.

Lemma trim_start_digits d c t : forallb is_ascii_digit d = true -> is_ascii_graphic c = true -> trim_start (d ++ c :: t) = d ++ c :: t.
Proof.
destruct d as [|b d]; simpl; [by intros _; apply trim_start_graphic|].
intros [Hb _]%andb_true_iff _. apply trim_start_graphic. by apply digit_graphic.
Qed.

Section record.
Context (info : VolumeInfo).
Context (Hname : name_validate (vi_name info) = Ok tt) (Hnow : u64 (vi_created_at info)).
Context (Hdrv : vi_driver info = DRIVER_LOCAL).

Lemma name_plain : QUOTE ∉ vi_name info /\ BSLASH ∉ vi_name info.
Proof.
pose proof (valid_name_chars _ Hname) as H. rewrite Forall_forall in H.
split; intros Hin; apply H in Hin; by apply volume_char_plain in Hin as (? & ? & _).
Qed.

(** The written text with the name, the time and the labels in their places. *)
Lemma meta_json_text :
  meta_json info = [x7b] ++ json_key "name" ++ QUOTE :: vi_name info ++ QUOTE :: x2c ::
    json_key "created_at" ++ dec (vi_created_at info) ++ x2c ::
    json_key "driver" ++ QUOTE :: DRIVER_LOCAL ++ QUOTE :: x2c ::
    json_key "labels" ++ labels_json (vi_labels info) ++ [x7d].
Proof.
destruct name_plain as [H1 H2]. unfold meta_json. rewrite Hdrv. unfold json_str.
rewrite !escape_plain by first [done|by_eval]. cbn [app]. rewrite <- !app_assoc. cbn [app]. done.
Qed.

Lemma read_name_field : json_field_str (meta_json info) (json_key "name") = Some (vi_name info).
Proof.
destruct name_plain as [H1 H2]. unfold json_field_str. rewrite meta_json_text.
change (json_key "name") with (QUOTE :: str "name" ++ [QUOTE; x3a]) at 1.
rewrite (find_after_skip _ [x7b]) by by_eval.
change (QUOTE :: str "name" ++ [QUOTE; x3a]) with (json_key "name").
rewrite find_after_here. cbn [mbind option_bind]. rewrite trim_start_graphic by done. cbn [strip_prefix].
rewrite bool_decide_eq_true_2 by done. cbn [mbind option_bind].
rewrite <- (escape_plain (vi_name info)) at 1 by done. apply scan_str_escape.
Qed.

(** The keys before [created_at], [driver] and [labels] are passed over. *)
Lemma skip_name k t : QUOTE ∉ str k -> str k <> [] -> str k <> str "name" -> head (str k) <> Some x3a -> head (str k) <> Some x2c ->
  find_after (json_key k) ([x7b] ++ json_key "name" ++ QUOTE :: vi_name info ++ QUOTE :: x2c :: t) = find_after (json_key k) t.
Proof.
intros Hk Hn Hne Hh Hh'. destruct name_plain as [H1 H2]. unfold json_key at 1. rewrite (find_after_skip _ [x7b]) by by_eval.
fold (json_key k). rewrite find_after_key by first [done|by_eval]. by apply find_after_word.
Qed.

Lemma skip_created k t : QUOTE ∉ str k -> str k <> [] -> str k <> str "created_at" -> head (str k) <> Some x3a ->
  find_after (json_key k) (json_key "created_at" ++ dec (vi_created_at info) ++ x2c :: t) = find_after (json_key k) t.
Proof.
intros Hk Hn Hne Hh. rewrite find_after_key by first [done|by_eval]. unfold json_key.
rewrite find_after_skip by apply dec_quote_free. apply (find_after_skip _ [x2c]). by_eval.
Qed.

Lemma skip_driver t :
  find_after (json_key "labels") (json_key "driver" ++ QUOTE :: DRIVER_LOCAL ++ QUOTE :: x2c :: t) =
  find_after (json_key "labels") t.
Proof. rewrite find_after_key by by_eval. by apply find_after_word; by_eval. Qed.

Lemma read_created_field : json_field_u64 (meta_json info) (json_key "created_at") = Some (vi_created_at info).
Proof.
unfold json_field_u64. rewrite meta_json_text, skip_name, find_after_here by by_eval. cbn [mbind option_bind].
rewrite trim_start_digits, take_digits_app by first [apply dec_digits|done]. by apply parse_u64_dec.
Qed.

Lemma read_driver_field : json_field_str (meta_json info) (json_key "driver") = Some DRIVER_LOCAL.
Proof.
unfold json_field_str. rewrite meta_json_text, skip_name, skip_created, find_after_here by by_eval. cbn [mbind option_bind].
rewrite trim_start_graphic by done. cbn [strip_prefix]. rewrite bool_decide_eq_true_2 by done. cbn [mbind option_bind].
apply (scan_str_escape DRIVER_LOCAL).
Qed.

Lemma read_labels_field :
  Forall label_ok (vi_labels info) -> StronglySorted (fun a b => bytes_le a.1 b.1) (vi_labels info) ->
  json_field_labels (meta_json info) = Some (vi_labels info).
Proof.
intros Hl Hs. rewrite <- (read_labels (vi_labels info) [x7d]) by done. unfold json_field_labels.
by rewrite meta_json_text, skip_name, skip_created, skip_driver by by_eval.
Qed.

Lemma parse_meta_json :
  Forall label_ok (vi_labels info) -> StronglySorted (fun a b => bytes_le a.1 b.1) (vi_labels info) ->
  parse_meta (meta_json info) = Some (mkVolumeInfo (vi_name info) (vi_created_at info) (vi_driver info) (vi_labels info) []).
Proof.
intros Hl Hs. unfold parse_meta. rewrite read_name_field. cbn [mbind option_bind]. rewrite read_created_field.
cbn [mbind option_bind]. rewrite read_driver_field. cbn [mbind option_bind]. rewrite read_labels_field by done.
cbn [mbind option_bind]. by rewrite Hdrv.
Qed.

End record.

(** * The text is UTF-8 *)

Lemma utf8_escape s : utf8_valid s = true -> utf8_valid (mjoin (escape <$> s)) = true.
Proof.
revert s. apply (utf8_ind (fun s => utf8_valid (mjoin (escape <$> s)) = true)); [done|].
intros l c r (-> & _ & _ & Ht & Hc) IH. rewrite fmap_app, join_app. destruct Hc as [(b & -> & Hb)|Hc].
- rewrite utf8_valid_app; [done|]. cbn [fmap list_fmap]. rewrite join_cons, app_nil_r. unfold escape.
  repeat case_bool_decide; [done|done|]. simpl. by rewrite Hb.
- assert (mjoin (escape <$> c) = c) as ->; [|by rewrite Ht].
  rewrite Forall_forall in Hc. apply escape_plain; intros Hin; apply Hc in Hin; by vm_compute in Hin.
Qed.

Lemma utf8_json_str s : utf8_valid s = true -> utf8_valid (json_str s) = true.
Proof.
intros H. unfold json_str. change (QUOTE :: mjoin (escape <$> s) ++ [QUOTE]) with ([QUOTE] ++ mjoin (escape <$> s) ++ [QUOTE]).
rewrite utf8_valid_app by done. by rewrite utf8_valid_app by (by apply utf8_escape).
Qed.

Definition label_text (kv : bytes * bytes) : Prop := utf8_valid kv.1 = true /\ utf8_valid kv.2 = true.

Lemma utf8_labels_body l : Forall label_text l -> utf8_valid (labels_body l) = true.
Proof.
induction 1 as [|kv l [Hk Hv] Hl IH]; [done|].
assert (utf8_valid (label_json kv) = true) as Hj.
{ unfold label_json. rewrite utf8_valid_app by (by apply utf8_json_str). by apply (utf8_json_str kv.2). }
destruct l as [|kv' l]; [done|]. change (labels_body (kv :: kv' :: l)) with (label_json kv ++ x2c :: labels_body (kv' :: l)).
by rewrite utf8_valid_app.
Qed.

Lemma utf8_meta_json info :
  name_validate (vi_name info) = Ok tt -> vi_driver info = DRIVER_LOCAL -> Forall label_text (vi_labels info) ->
  utf8_valid (meta_json info) = true.
Proof.
intros Hn Hd Hl. pose proof (valid_name_chars _ Hn) as Hc.
assert (utf8_valid (vi_name info) = true) as Hu.
{ apply utf8_valid_ascii, forallb_Forall. eapply Forall_impl; [exact Hc|]. by intros c (_ & _ & ?)%volume_char_plain. }
assert (utf8_valid (dec (vi_created_at info)) = true) as Ht.
{ apply utf8_valid_ascii. pose proof (dec_digits (vi_created_at info)) as Hdg. rewrite forallb_forall in *.
  intros c Hcc. specialize (Hdg c Hcc). revert c Hcc Hdg. clear.
  intros c _. revert c. apply (byte_forall (fun c => is_ascii_digit c = true -> in_range x00 x7f c = true)). vm_compute. reflexivity. }
unfold meta_json, labels_json. rewrite Hd.
repeat (rewrite utf8_valid_app by first [done|by apply utf8_json_str|by vm_compute]).
change (x7b :: labels_body (vi_labels info) ++ [x7d]) with ([x7b] ++ labels_body (vi_labels info) ++ [x7d]).
rewrite <- !app_assoc. repeat (rewrite utf8_valid_app by first [by apply utf8_labels_body|by vm_compute]). done.
Qed.

(** * Creating and inspecting *)

(** A file written where there was none. *)
Lemma does_fs_write p data fs :
  fs !! p = None -> fs !! parent_path p = Some NDir ->
  does (_ ← file_create p; write_all p data) fs (Ok tt) (<[p := NFile data CREATE_MODE]> fs).
Proof.
intros Hn Hd. eapply does_bind; [apply does_sys0; rewrite Hn, (proj2 (is_dir_true fs _) Hd); reflexivity|].
cbv beta. eapply does_sys_eq. unfold append_at. rewrite lookup_insert_eq. simpl. by rewrite insert_insert_eq.
Qed.

Definition volume_info (root : path) (now : Z) (name : bytes) (labels : list (bytes * bytes)) : VolumeInfo :=
  mkVolumeInfo name now DRIVER_LOCAL (sort_labels labels) (data_dir root name).

Lemma Forall_sort_labels (P : bytes * bytes -> Prop) l : Forall P l -> Forall P (sort_labels l).
Proof. intros H. unfold sort_labels. by rewrite (sort_by_perm _ l). Qed.

Lemma does_read_info root now name labels fs :
  name_validate name = Ok tt -> u64 now -> Forall label_ok labels -> Forall label_text labels ->
  file_at fs (meta_path root name) = Some (meta_json (volume_info root now name labels)) ->
  does (read_info root name) fs (Ok (volume_info root now name labels)) fs.
Proof.
intros Hn Ht Hl Hu Hf. unfold read_info. eapply does_bind; [by apply does_read|]. cbv beta.
rewrite utf8_meta_json by first [done|by apply Forall_sort_labels]. cbn [negb].
rewrite parse_meta_json by first [done|by apply Forall_sort_labels|apply sort_labels_sorted].
eapply does_bind; apply does_ret.
Qed.

(** A volume that is created can be inspected.  For a valid name not yet in use,
    a store root all of whose ancestors are directories, and labels without commas and
    closing braces and without colons in their keys, [create] succeeds without I/O
    faults, and afterwards [inspect] gives back the same record, labels
    sorted by key; creating the volume again is an error that changes nothing. *)
Theorem volume_create_inspect root now name labels fs :
  fs_wf fs -> name_validate name = Ok tt -> u64 now -> Forall label_ok labels -> Forall label_text labels ->
  dirs_ok (volume_dir root name) fs -> (forall q, fs !! (volume_dir root name ++ q) = None) ->
  exists fs', does (create root now name labels) fs (Ok (volume_info root now name labels)) fs' /\
    does (inspect root name) fs' (Ok (volume_info root now name labels)) fs' /\
    fs' !! data_dir root name = Some NDir /\
    does (create root now name labels) fs' (Err (InvalidRef (str "volume already exists: " ++ name))) fs'.
Proof.
intros Hwf Hn Ht Hl Hu Hok Hfree. set (vd := volume_dir root name) in *.
assert (dirs_ok (data_dir root name) fs) as Hokd.
{ intros q Hq. unfold data_dir in Hq. apply prefix_snoc_inv in Hq as [->|Hq]; [left; apply Hfree|by apply Hok]. }
set (fs1 := add_dirs (data_dir root name) fs).
assert (fs1 !! meta_path root name = None) as Hm.
{ unfold fs1. rewrite add_dirs_lookup by done. rewrite decide_False; [apply Hfree|].
  unfold meta_path, data_dir. fold vd. intros [k E]. rewrite <- app_assoc in E. by apply app_inv_head in E. }
assert (fs1 !! vd = Some NDir) as Hv.
{ unfold fs1. rewrite add_dirs_lookup by done. rewrite decide_True; [done|]. by apply prefix_app_r. }
set (info := volume_info root now name labels).
set (fs2 := <[meta_path root name := NFile (meta_json info) CREATE_MODE]> fs1).
assert (fs2 !! vd = Some NDir) as Hv2.
{ unfold fs2. rewrite lookup_insert_ne; [done|]. intros E. by apply (snoc_ne vd (str "meta.json")). }
exists fs2. split; [|split; [|split]].
- unfold create. rewrite Hn. eapply does_bind; [apply does_ret|]. cbv beta. eapply does_bind; [apply does_exists|]. cbv beta.
  unfold node_exists. fold vd. assert (fs !! vd = None) as -> by (rewrite <- (app_nil_r vd); apply Hfree).
  eapply does_bind; [by apply does_create_dir_all|]. cbv beta. apply does_assoc. eapply does_bind; [|apply does_ret].
  apply does_fs_write; [done|]. unfold meta_path. by rewrite parent_snoc.
- unfold inspect. rewrite Hn. eapply does_bind; [apply does_ret|]. cbv beta. eapply does_bind; [apply does_exists|]. cbv beta.
  unfold node_exists. fold vd. rewrite Hv2. cbn [negb]. apply does_read_info; [done..|].
  unfold file_at, fs2. by rewrite lookup_insert_eq.
- unfold fs2. rewrite lookup_insert_ne; [|by intros [_ [=]]%app_inj_tail]. unfold fs1. rewrite add_dirs_lookup by done.
  by rewrite decide_True.
- unfold create. rewrite Hn. eapply does_bind; [apply does_ret|]. cbv beta. eapply does_bind; [apply does_exists|]. cbv beta.
  unfold node_exists. fold vd. rewrite Hv2. apply does_throw.
Qed.

Definition demo_volumes : gmap path node := {[ [] := NDir; demo_root := NDir ]}.

Lemma volume_create_inspect_witness :
  exists fs', does (create demo_root 1700000000 (str "db") [(str "tier", str "a:b"); (str "env", [QUOTE; BSLASH])]) demo_volumes
      (Ok (mkVolumeInfo (str "db") 1700000000 (str "local") [(str "env", [QUOTE; BSLASH]); (str "tier", str "a:b")]
        (demo_root ++ [str "volumes"; str "db"; str "_data"]))) fs' /\
    does (inspect demo_root (str "db")) fs'
      (Ok (mkVolumeInfo (str "db") 1700000000 (str "local") [(str "env", [QUOTE; BSLASH]); (str "tier", str "a:b")]
        (demo_root ++ [str "volumes"; str "db"; str "_data"]))) fs'.
Proof.
destruct (volume_create_inspect demo_root 1700000000 (str "db") [(str "tier", str "a:b"); (str "env", [QUOTE; BSLASH])] demo_volumes)
  as (fs' & D1 & D2 & _).
- apply fs_wf_check; [reflexivity|by_eval].
- reflexivity.
- by_eval.
- apply Forall_forall. intros kv. rewrite !elem_of_cons. intros [->|[->|[]%not_elem_of_nil]]; by_eval.
- apply Forall_forall. intros kv. rewrite !elem_of_cons. intros [->|[->|[]%not_elem_of_nil]]; by split.
- intros q Hq. unfold volume_dir, volumes_root in Hq. apply prefix_snoc_inv in Hq as [->|Hq]; [by left|].
  apply prefix_snoc_inv in Hq as [->|Hq]; [by left|right].
  destruct q as [|c [|c' q]]; destruct Hq as [k Hk]; [done|by injection Hk as <- _|discriminate Hk].
- intros q. destruct (demo_volumes !! _) as [n|] eqn:E; [|done]. exfalso.
  assert (map_Forall (fun p _ => ~ volume_dir demo_root (str "db") `prefix_of` p) demo_volumes) as H by by_eval.
  apply (H _ _ E). by apply prefix_app_r.
- exists fs'. split; [exact D1|exact D2].
Defined.

(** A comma in a label makes the volume unreadable.  [create] accepts the label
    [x=a,b] and reports success; from then on [inspect] fails with a malformed
    [meta.json], [list] does not show the volume, and the name is taken. *)
Theorem volume_comma_label_unreadable :
  let r := create demo_root 1700000000 (str "db") [(str "x", str "a,b")] (mkWorld demo_volumes [] 7 0) in
  (exists info, r.1 = Ret info /\ vi_labels info = [(str "x", str "a,b")]) /\
  (inspect demo_root (str "db") r.2).1 = Throw (InvalidManifest (str "volume db: malformed meta.json")) /\
  (list_volumes demo_root r.2).1 = Ret [] /\
  (create demo_root 1700000001 (str "db") [] r.2).1 = Throw (InvalidRef (str "volume already exists: db")).
Proof.
intros r. split; [eexists; split; vm_compute; reflexivity|].
split; [vm_compute; reflexivity|]. split; vm_compute; reflexivity.
Qed.
