(* ===== verification/Memo.v ===== *)
(** Memoised runs (crates/lightr-run/src/run/memo.rs, memo_key.rs, ac.rs, bindmat.rs
    and secrets.rs): the run key, the cache record, the hit and the miss path.

    The child process, the process environment, the canonicalisation of paths, the
    walk of a directory and the target triple are arguments. *)

From S2P Require Import Prelude Text Error Digest Manifest RefRecord Limits Fs FsFacts OwnedTemp Calm Cas Layout Refs Ac TimeAxis IndexCodec Scan Hydrate Confine Snapshot Volume.

(** * Specifications of runs *)

Record Mount := mkMount { m_ref_name : bytes; m_target : bytes }.
Record StoreFile := mkStoreFile { sf_name : bytes; sf_ref_name : bytes }.
Record VolumeBind := mkVolumeBind { vb_source : bytes; vb_target : bytes; vb_readonly : bool }.
Record NamedVolumeBind := mkNamedVolumeBind { nv_name : bytes; nv_target : bytes; nv_readonly : bool }.

Record PortMap := mkPortMap { pm_host : Z; pm_container : Z; pm_host_ip : bytes }.

Record RunSpec := mkRunSpec {
  cwd : bytes;
  inputs : list bytes;
  command : list bytes;
  env_keys : list bytes;
  mounts : list Mount;
  secrets : list StoreFile;
  configs : list StoreFile;
  rs_ports : list PortMap;
  env_explicit : list (bytes * bytes);
  workdir : option bytes;
  user : option bytes;
  rs_restart : option bytes;
  rs_stop_signal : option bytes;
  rs_limits : ResourceLimits;
  volumes : list VolumeBind;
  named_volumes : list NamedVolumeBind;
  tmpfs : list bytes;
  entrypoint : option (list bytes);
  rs_name : option bytes;
  rs_rm : bool;
  hostname : option bytes;
  rs_labels : list (bytes * bytes);
  rs_cap_add : list bytes;
  rs_cap_drop : list bytes;
  rs_privileged : bool;
  rs_tty : bool;
  rs_init : bool;
  rs_read_only : bool;
  oom_score_adj : option Z;
  rs_pids_limit : option Z;
  rs_shm_size : option Z;
  rs_network : option bytes;
  rs_network_alias : list bytes;
  rs_add_host : list bytes;
  rs_dns : list bytes;
}.

(** A [setrlimit] request; [u64::MAX] stands for no limit. *)
Record Ulimit := mkUlimit { ul_resource : Z; ul_soft : Z; ul_hard : Z }.

Definition rlimit (u : Ulimit) : Z * option Z * option Z :=
  let to_rlim v := if bool_decide (v = 2 ^ 64 - 1)%Z then None else Some v in
  (ul_resource u, to_rlim (ul_soft u), to_rlim (ul_hard u)).

Record RunOutcome := mkRunOutcome {
  o_key : digest;
  o_hit : bool;
  o_exit : Z;
  o_stdout : bytes;
  o_stderr : bytes;
}.

(** What is handed to the operating system: the argument vector, the directory, the
    user and group, [$HOSTNAME], the OOM score and the memory cap. *)
Record Child := mkChild {
  ch_argv : list bytes;
  ch_dir : path;
  ch_user : option (Z * option Z);
  ch_hostname : option bytes;
  ch_oom_score_adj : option Z;
  ch_memory : option Z;
  ch_rlimits : list (Z * option Z * option Z);
}.

(** [std::process::Output] on Unix: exit code or signal, and the two streams. *)
Record Output := mkOutput { out_status : option Z; out_signal : option Z; out_stdout : bytes; out_stderr : bytes }.

Definition OUTPUT_CAP_BYTES : Z := 5 * 1024 * 1024.

(** * The LRR1 record *)

Definition AC_MAGIC : bytes := str "LRR1".
Definition AC_RECORD_LEN : nat := 4 + 4 + 32 + 32.

Definition encode_ac_record (exit_code : Z) (stdout_d stderr_d : digest) : bytes :=
  AC_MAGIC ++ le_bytes 4 exit_code ++ stdout_d ++ stderr_d.

Definition decode_ac_record (bs : bytes) : option (Z * digest * digest) :=
  if negb (bool_decide (length bs = AC_RECORD_LEN)) then None
  else if negb (bool_decide (take 4 bs = AC_MAGIC)) then None
  else Some (as_i32 (le_val (take 4 (drop 4 bs))), take 32 (drop 8 bs), take 32 (drop 40 bs)).

(** * Targets *)

Definition has_parent_dir (p : bytes) : bool := existsb (fun c => bool_decide (c = str "..")) (components p).

Definition validate_mount_target (t : bytes) : Result unit :=
  if is_absolute t || has_parent_dir t then Err (InvalidRef (str "mount target escapes cwd: " ++ t)) else Ok tt.

Definition validate_file_name (name : bytes) : Result unit :=
  if bool_decide (name = []) then Err (InvalidRef (str "empty secret/config name"))
  else if is_absolute name || has_parent_dir name
  then Err (InvalidRef (str "secret/config name escapes the run dir: " ++ name))
  else Ok tt.

Definition effective_argv (entrypoint : option (list bytes)) (command : list bytes) : list bytes :=
  match entrypoint with
  | None => command
  | Some ep => ep ++ command
  end.

(** * The environment's part of the key *)

(** [(String, String)] order. *)
Definition pair_leb (a b : bytes * bytes) : bool :=
  match bytes_cmp a.1 b.1 with Lt => true | Gt => false | Eq => bytes_leb a.2 b.2 end.

(** The chunks fed to the hasher. *)
Definition contribute_env_explicit (env : list (bytes * bytes)) : list bytes :=
  match env with
  | [] => []
  | _ => (x03 :: str "env_explicit" ++ [x00]) ::
           (sort_by pair_leb env ≫= fun '(k, v) => [k; str "="; v; [x00]])
  end.

Definition contribute_env_keys (getenv : bytes -> option bytes) (keys : list bytes) : list bytes :=
  sort_by bytes_leb keys ≫= fun key =>
    match getenv key with
    | Some val => [key; str "="; val; [x00]]
    | None => [key; [x01]]
    end.

Definition contribute_command (command : list bytes) : list bytes :=
  command ≫= fun arg => [le_bytes 8 (Z.of_nat (length arg)); arg].

Definition check_native_support (l : ResourceLimits) : Result unit :=
  if negb (is_none (cpu_millis l)) then
    Err (InvalidRef (str "native engine cannot enforce a cpu share; use --engine ns (cgroup) or vz (vcpu count)"))
  else if negb (is_none (pids_max l)) then
    Err (InvalidRef (str "native engine cannot enforce a pids limit; use --engine ns (cgroup)"))
  else Ok tt.

(** [apply_user]: [uid[:gid]], numeric; the message leaves the quoted text out. *)
Definition parse_user (user : option bytes) : Result (option (Z * option Z)) :=
  let parse_id part which := ok_or (parse_u32 part) (InvalidRef (str "invalid --user " ++ which)) in
  match user with
  | None => Ok None
  | Some spec =>
      if bool_decide (spec = []) then Err (InvalidRef (str "invalid --user value: empty")) else
      match split_once x3a spec with
      | None => uid ← parse_id spec (str "uid"); Ok (Some (uid, None))
      | Some (u, g) =>
          uid ← parse_id u (str "uid");
          gid ← parse_id g (str "gid");
          Ok (Some (uid, Some gid))
      end
  end.

Definition exit_code (o : Output) : Z :=
  match out_status o with
  | Some c => c
  | None => 128 + default 0%Z (out_signal o)
  end.

(** [fs::symlink_metadata]. *)
Definition lstat (p : path) : IO node :=
  sys0 (fun fs =>
    match fs !! p with
    | Some n => (Ok n, fs)
    | None => io_err NotFoundKind fs
    end).

(** Directories get the execute bits of the owner's read and write bits, files the mode
    asked for, links nothing. *)
Fixpoint apply_mode_below (fuel : nat) (p : path) (mode : Z) : IO unit :=
  match fuel with
  | O => throw (Io OtherKind)
  | S fuel =>
      n ← lstat p;
      match n with
      | NDir =>
          let dir_mode := Z.lor mode (Z.lor (Z.shiftr (Z.land mode 384) 2) (Z.shiftr (Z.land mode 384) 1)) in
          _ ← set_permissions p dir_mode;
          names ← read_dir p;
          for_each names (fun c => apply_mode_below fuel (p ++ [c]) mode)
      | NFile _ _ => set_permissions p mode
      | NSymlink _ => mret tt
      end
  end.

(** No path of a finite tree is longer than the number of its nodes. *)
Definition apply_mode_recursive (p : path) (mode : Z) : IO unit :=
  fs ← get_fs;
  apply_mode_below (S (size fs)) p mode.

(** * Paths with links, and the copy of a read-only bind *)

(** Path resolution as the kernel does it: [..] goes up, a link is followed, at most
    [links] of them. *)
Fixpoint resolve (links : nat) (fs : gmap path node) : path -> path -> Result path :=
  fix go (at_ rest : path) : Result path :=
    match rest with
    | [] => Ok at_
    | c :: rest =>
        if bool_decide (c = str "..") then go (removelast at_) rest
        else match fs !! (at_ ++ [c]) with
        | None => Err (Io NotFoundKind)
        | Some NDir => go (at_ ++ [c]) rest
        | Some (NFile _ _) => if bool_decide (length rest = 0) then Ok (at_ ++ [c]) else Err (Io NotADirectory)
        | Some (NSymlink t) =>
            match links with
            | O => Err (Io OtherKind)
            | S links => resolve links fs (if is_absolute t then [] else at_) (components t ++ rest)
            end
        end
    end.

(** Linux's limit on links in one lookup. *)
Definition MAXSYMLINKS : nat := 40.

(** [fs::metadata], with the place of the node. *)
Definition metadata (p : path) : IO (path * node) :=
  sys0 (fun fs =>
    match resolve MAXSYMLINKS fs [] p with
    | Err e => (Err e, fs)
    | Ok q => match fs !! q with Some n => (Ok (q, n), fs) | None => (Err (Io NotFoundKind), fs) end
    end).

(** [Path::exists], which follows links. *)
Definition exists_follow (p : path) : IO bool :=
  r ← try_ (metadata p);
  mret (is_ok r).

(** [copy_tree]; links are copied as what they lead to.  Running out of fuel stands
    for the system's limit on the length of a path. *)
Fixpoint copy_below (fuel : nat) (src dst : path) : IO unit :=
  match fuel with
  | O => throw (Io OtherKind)
  | S fuel =>
      '(at_, n) ← metadata src;
      match n with
      | NDir =>
          _ ← create_dir_all dst;
          names ← read_dir at_;
          for_each names (fun c => copy_below fuel (src ++ [c]) (dst ++ [c]))
      | _ => copy_file at_ dst
      end
  end.

(** A path of a finite tree has at most as many directories as the tree between two
    links. *)
Definition copy_tree (src dst : path) : IO unit :=
  fs ← get_fs;
  copy_below (S MAXSYMLINKS * S (size fs)) src dst.

(** [set_readonly_recursive]: modes 0o555 and 0o444. *)
Fixpoint readonly_below (fuel : nat) (p : path) : IO unit :=
  match fuel with
  | O => mret tt
  | S fuel =>
      n ← lstat p;
      match n with
      | NDir =>
          names ← read_dir p;
          _ ← for_each names (fun c => readonly_below fuel (p ++ [c]));
          set_permissions p 365
      | _ => set_permissions p 292
      end
  end.

Definition set_readonly_recursive (p : path) : IO unit :=
  fs ← get_fs;
  readonly_below (S (size fs)) p.

Definition ro_snapshot (source dest : path) : IO unit :=
  _ ← copy_tree source dest;
  set_readonly_recursive dest.

(** An absolute path as text. *)
Definition path_text (p : path) : bytes := mjoin (cons x2f <$> p).

(** [remove_dest]. *)
Definition remove_dest (dest : path) : IO unit :=
  r ← try_ (lstat dest);
  match r with
  | Ok NDir => remove_dir_all dest
  | Ok _ => remove_file dest
  | Err e => if bool_decide (e = Io NotFoundKind) then mret tt else throw e
  end.

(** * Runs *)

Section memo.
Context `{B3 : Blake3} (root : path) (rung : CowRung).
Context (canonicalize : path -> Result path) (walk : path -> list walk_item) (env_of : path -> index_env).
Context (getenv : bytes -> option bytes) (triple : bytes) (proc_cwd : path).
Context (exec : Child -> IO Output).

Definition cwd_path (spec : RunSpec) : path := join proc_cwd (cwd spec).

(** The hasher's digest of the chunks fed to it. *)
Definition finish (chunks : list bytes) : digest := hasher_finalize (foldl hasher_update hasher_new chunks).

(** One input: canonicalised, scanned, keyed by the path as given. *)
Definition input_chunks (spec : RunSpec) (input : bytes) : IO (list bytes) :=
  canonical ← lift (canonicalize (join (cwd_path spec) input));
  ix ← load_for (ie_at (env_of canonical));
  report ← scan_tree (walk canonical) ix (env_of canonical);
  mret [input; [x00]; manifest_digest (wr_manifest report)].

Definition key_inputs (spec : RunSpec) : list bytes :=
  match inputs spec with [] => [cwd spec] | l => l end.

(** What [build_key] and [assemble_key] have in common. *)
Definition base_chunks (spec : RunSpec) : IO (list bytes) :=
  ins ← map_io (input_chunks spec) (key_inputs spec);
  mret ([str "lightr/run/v1" ++ [x00]] ++ mjoin ins ++ contribute_command (command spec) ++
        contribute_env_keys getenv (env_keys spec) ++ contribute_env_explicit (env_explicit spec) ++ [triple]).

Definition build_key (spec : RunSpec) : IO digest :=
  cs ← base_chunks spec;
  mret (finish cs).

Definition mount_chunks (spec : RunSpec) (hydrate_mounts : bool) (m : Mount) : IO (list bytes) :=
  _ ← lift (validate_mount_target (m_target m));
  _ ← (if hydrate_mounts
       then _ ← hydrate root rung (join (cwd_path spec) (m_target m)) (m_ref_name m); mret tt
       else mret tt);
  o ← ref_get root (m_ref_name m);
  rec ← lift (ok_or o (RefNotFound (m_ref_name m)));
  mret [m_ref_name m; [x02]; RefRecord.root rec].

(** A secret or config: an unresolved ref contributes no digest. *)
Definition contribute_to_key (files : list StoreFile) (domain : bytes) : IO (list bytes) :=
  css ← map_io (fun f =>
    r ← try_ (ref_get root (sf_ref_name f));
    mret ([domain; sf_name f; [x00]] ++
          match r with Ok (Some rec) => [RefRecord.root rec] | _ => [] end))
    (sort_by (fun a b => bytes_leb (sf_name a) (sf_name b)) files);
  mret (mjoin css).

Definition assemble_key (spec : RunSpec) (hydrate_mounts : bool) : IO digest :=
  cs ← base_chunks spec;
  ms ← map_io (mount_chunks spec hydrate_mounts) (mounts spec);
  ss ← contribute_to_key (secrets spec) (str "secret" ++ [x00]);
  gs ← contribute_to_key (configs spec) (str "config" ++ [x00]);
  mret (finish (cs ++ mjoin ms ++ ss ++ gs)).

Definition needs_store_key (spec : RunSpec) : bool :=
  negb (bool_decide (length (mounts spec) = 0)) || negb (bool_decide (length (secrets spec) = 0)) ||
  negb (bool_decide (length (configs spec) = 0)).

Definition run_key (spec : RunSpec) : IO digest :=
  if needs_store_key spec then
    _ ← for_each (mounts spec) (fun m => lift (validate_mount_target (m_target m)));
    assemble_key spec false
  else build_key spec.

(** ** Secrets and configs *)

Definition hydrate_one (base_dir : path) (mode : Z) (f : StoreFile) : IO unit :=
  _ ← lift (validate_file_name (sf_name f));
  _ ← create_dir_all base_dir;
  let dest := join base_dir (sf_name f) in
  e ← exists_ dest;
  _ ← (if (e : bool) then remove_dir_all dest else mret tt);
  _ ← hydrate root rung dest (sf_ref_name f);
  apply_mode_recursive dest mode.

(** Modes 0o600 and 0o644. *)
Definition secrets_hydrate (spec : RunSpec) : IO unit :=
  _ ← for_each (secrets spec) (hydrate_one (cwd_path spec ++ [str ".lightr"; str "secrets"]) 384);
  for_each (configs spec) (hydrate_one (cwd_path spec ++ [str ".lightr"; str "configs"]) 420).

(** ** Binds *)

Definition bind_at (readonly : bool) (source : bytes) (dest : path) : IO unit :=
  _ ← remove_dest dest;
  _ ← create_parent dest;
  if readonly then ro_snapshot (join proc_cwd source) dest else symlink source dest.

Definition materialize_volume (base : path) (v : VolumeBind) : IO unit :=
  _ ← lift (validate_mount_target (vb_target v));
  e ← exists_follow (join proc_cwd (vb_source v));
  if negb e then throw (InvalidRef (str "volume source does not exist: " ++ vb_source v)) else
  bind_at (vb_readonly v) (vb_source v) (join base (vb_target v)).

Definition materialize_named_volume (base : path) (v : NamedVolumeBind) : IO unit :=
  _ ← lift (validate_mount_target (nv_target v));
  info ← inspect root (nv_name v);
  bind_at (nv_readonly v) (path_text (vi_mountpoint info)) (join base (nv_target v)).

Definition materialize_tmpfs (base : path) (target : bytes) : IO unit :=
  _ ← lift (validate_mount_target target);
  let dest := join base target in
  _ ← remove_dest dest;
  create_dir_all dest.

Definition resolve_workdir (base : path) (workdir : option bytes) : IO path :=
  match workdir with
  | None => mret base
  | Some w =>
      let dir := join base w in
      _ ← create_dir_all dir;
      mret dir
  end.

(** ** The miss path up to the child's output *)

Definition run_child (spec : RunSpec) (limits : ResourceLimits) (ulimits : list Ulimit) : IO Output :=
  let base := cwd_path spec in
  _ ← for_each (mounts spec) (fun m =>
        _ ← hydrate root rung (join base (m_target m)) (m_ref_name m); mret tt);
  _ ← for_each (volumes spec) (materialize_volume base);
  _ ← for_each (named_volumes spec) (materialize_named_volume base);
  _ ← for_each (tmpfs spec) (materialize_tmpfs base);
  _ ← secrets_hydrate spec;
  let argv := effective_argv (entrypoint spec) (command spec) in
  if bool_decide (argv = []) then throw (Io InvalidInput) else
  dir ← resolve_workdir base (workdir spec);
  u ← lift (parse_user (user spec));
  _ ← lift (check_native_support limits);
  exec (mkChild argv dir u (hostname spec) (oom_score_adj spec) (memory_bytes limits) (map rlimit ulimits)).

Definition non_reproducible (spec : RunSpec) : bool :=
  negb (bool_decide (length (volumes spec) = 0)) || negb (bool_decide (length (named_volumes spec) = 0)) ||
  negb (bool_decide (length (tmpfs spec) = 0)).

(** The hit path: a record whose two blobs can be read. *)
Definition replay (key : digest) : IO (option RunOutcome) :=
  r ← try_ (ac_get root key);
  match r with
  | Ok (Some record_bytes) =>
      match decode_ac_record record_bytes with
      | Some (code, stdout_d, stderr_d) =>
          stdout_res ← try_ (get_bytes root stdout_d);
          stderr_res ← try_ (get_bytes root stderr_d);
          match stdout_res, stderr_res with
          | Ok stdout, Ok stderr => mret (Some (mkRunOutcome key true code stdout stderr))
          | _, _ => mret None
          end
      | None => mret None
      end
  | _ => mret None
  end.

Definition cacheable (spec : RunSpec) (o : Output) : bool :=
  negb (non_reproducible spec) && bool_decide (exit_code o = 0%Z) &&
  (Z.of_nat (length (out_stdout o)) <=? OUTPUT_CAP_BYTES)%Z && (Z.of_nat (length (out_stderr o)) <=? OUTPUT_CAP_BYTES)%Z.

Definition record (key : digest) (o : Output) : IO unit :=
  stdout_d ← put_bytes root (out_stdout o);
  stderr_d ← put_bytes root (out_stderr o);
  ac_put root key (encode_ac_record (exit_code o) stdout_d stderr_d).

Definition run_memoized_with (spec : RunSpec) (limits : ResourceLimits) (ulimits : list Ulimit) : IO RunOutcome :=
  _ ← lift (check_native_support limits);
  key ← run_key spec;
  hit ← (if non_reproducible spec then mret None else replay key);
  match hit with
  | Some outcome => mret outcome
  | None =>
      o ← run_child spec limits ulimits;
      _ ← (if cacheable spec o then record key o else mret tt);
      mret (mkRunOutcome key false (exit_code o) (out_stdout o) (out_stderr o))
  end.

Definition run_memoized (spec : RunSpec) : IO RunOutcome := run_memoized_with spec limits_default [].

Definition predict (spec : RunSpec) : IO (digest * bool) :=
  _ ← for_each (mounts spec) (fun m => lift (validate_mount_target (m_target m)));
  key ← (if needs_store_key spec then assemble_key spec false else build_key spec);
  r ← try_ (ac_get root key);
  mret (key, match r with Ok (Some bs) => negb (is_none (decode_ac_record bs)) | _ => false end).

End memo.

(** * The record *)

Lemma le_val_i32 z : i32 z -> as_i32 (le_val (le_bytes 4 z)) = z.
Proof.
intros Hz. rewrite le_val_le_bytes. change (256 ^ Z.of_nat 4)%Z with (2 ^ 32)%Z. unfold as_i32, i32 in *.
rewrite Z.mod_mod by lia. destruct (decide (0 <= z)%Z) as [H|H].
- rewrite Z.mod_small by lia. case_match eqn:E; [done|]. apply Z.ltb_ge in E. lia.
- assert (z mod 2 ^ 32 = z + 2 ^ 32)%Z as -> by (symmetry; apply (Zmod_unique _ _ (-1)); lia).
  case_match eqn:E; [|lia]. apply Z.ltb_lt in E. lia.
Qed.

Lemma decode_encode_ac code o e :
  i32 code -> digest_wf o -> digest_wf e -> decode_ac_record (encode_ac_record code o e) = Some (code, o, e).
Proof.
intros Hc Ho He. assert (length (encode_ac_record code o e) = AC_RECORD_LEN) as Hlen.
{ unfold encode_ac_record. rewrite !length_app, length_le_bytes, Ho, He. reflexivity. }
unfold decode_ac_record. rewrite bool_decide_eq_true_2 by done. unfold encode_ac_record.
rewrite take_app_length' by reflexivity. rewrite bool_decide_eq_true_2 by done. simpl negb. cbv iota.
rewrite (drop_app_length' AC_MAGIC) by reflexivity. rewrite (take_app_length' (le_bytes 4 code)) by (by rewrite length_le_bytes).
rewrite le_val_i32 by done. f_equal. f_equal; [f_equal|].
- change 8 with (4 + 4). rewrite <- drop_drop. rewrite (drop_app_length' AC_MAGIC) by reflexivity.
  rewrite drop_app_length' by (by rewrite length_le_bytes). by apply take_app_length'.
- change 40 with (4 + (4 + 32)). rewrite <- !drop_drop. rewrite (drop_app_length' AC_MAGIC) by reflexivity.
  rewrite drop_app_length' by (by rewrite length_le_bytes). rewrite drop_app_length' by done. apply take_ge. by rewrite He.
Qed.

(** The cache record round-trips and the collector reads it the same way.  For
    every exit code and pair of digests, [decode_ac_record] gives back what
    [encode_ac_record] was given; and on every input, whatever its origin, the digests
    a hit would read are exactly those the collector's [parse_lrr1] marks, so a record
    that can be replayed always has its blobs marked. *)
Theorem ac_record_roundtrip code o e :
  i32 code -> digest_wf o -> digest_wf e ->
  decode_ac_record (encode_ac_record code o e) = Some (code, o, e) /\
  forall bs, parse_lrr1 bs = (fun '(_, o, e) => (o, e)) <$> decode_ac_record bs.
Proof.
intros Hc Ho He. split; [by apply decode_encode_ac|].
intros bs. unfold parse_lrr1, decode_ac_record, AC_RECORD_LEN, AC_MAGIC. by repeat (case_bool_decide; simpl).
Qed.

Lemma ac_record_roundtrip_witness :
  decode_ac_record (encode_ac_record (-1) (replicate 32 x01) (replicate 32 x02)) =
    Some ((-1)%Z, replicate 32 x01, replicate 32 x02).
Proof.
apply (ac_record_roundtrip (-1) (replicate 32 x01) (replicate 32 x02)); [unfold i32; lia|reflexivity|reflexivity].
Defined.

(** * The explicit environment in the key *)

Definition pair_le (a b : bytes * bytes) : Prop := bytes_lt a.1 b.1 \/ (a.1 = b.1 /\ bytes_le a.2 b.2).

Lemma pair_leb_spec a b : pair_leb a b = true <-> pair_le a b.
Proof.
unfold pair_leb, pair_le, bytes_lt. destruct (bytes_cmp a.1 b.1) eqn:E.
- apply bytes_cmp_eq in E. rewrite bytes_leb_spec. naive_solver.
- naive_solver.
- split; [done|]. intros [|[E' _]]; [done|]. by rewrite E', bytes_cmp_refl in E.
Qed.

#[export] Instance pair_le_trans : Transitive pair_le.
Proof.
intros a b c [H|[E H]] [H'|[E' H']].
- left. by etrans.
- left. by rewrite <- E'.
- left. by rewrite E.
- right. split; [congruence|by etrans].
Qed.

#[export] Instance pair_le_total : Total pair_le.
Proof.
intros a b. unfold pair_le, bytes_lt. rewrite (bytes_cmp_antisym a.1 b.1).
destruct (bytes_cmp a.1 b.1) eqn:E; simpl; [|by auto..]. apply bytes_cmp_eq in E.
destruct (bytes_le_total a.2 b.2); auto.
Qed.

#[export] Instance pair_le_antisym : AntiSymm (=) pair_le.
Proof.
intros [k v] [k' v'] [H|[E H]] [H'|[E' H']]; simpl in *; subst.
- exfalso. apply (irreflexivity bytes_lt k). by etrans.
- by apply (irreflexivity bytes_lt) in H.
- by apply (irreflexivity bytes_lt) in H'.
- f_equal. by apply (anti_symm bytes_le).
Qed.

Lemma sort_pairs_unique (l1 l2 : list (bytes * bytes)) : l1 ≡ₚ l2 -> sort_by pair_leb l1 = sort_by pair_leb l2.
Proof.
intros H. apply (StronglySorted_unique pair_le); [apply sort_by_sorted; first [apply pair_leb_spec|apply _]..|].
by rewrite !sort_by_perm.
Qed.

(** Pairs a process environment can hold. *)
Definition env_pair_wf (kv : bytes * bytes) : Prop := x3d ∉ kv.1 /\ x00 ∉ kv.1 /\ x00 ∉ kv.2.

#[export] Instance env_pair_wf_dec kv : Decision (env_pair_wf kv) := ltac:(unfold env_pair_wf; apply _).

(** Text up to a separator it does not contain. *)
Lemma app_sep_inj (x : byte) (a b a' b' : bytes) : x ∉ a -> x ∉ a' -> a ++ x :: b = a' ++ x :: b' -> a = a' /\ b = b'.
Proof.
revert a'. induction a as [|y a IH]; intros [|y' a'] Ha Ha' E; cbn [app] in E.
- by injection E as ->.
- injection E as <- _. destruct Ha'. by constructor.
- injection E as -> _. destruct Ha. by constructor.
- injection E as -> E. apply not_elem_of_cons in Ha as [_ Ha], Ha' as [_ Ha']. by destruct (IH a' Ha Ha' E) as [-> ->].
Qed.

Definition env_text (l : list (bytes * bytes)) : bytes := mjoin ((fun '(k, v) => k ++ x3d :: v ++ [x00]) <$> l).

Lemma env_text_inj l1 l2 : Forall env_pair_wf l1 -> Forall env_pair_wf l2 -> env_text l1 = env_text l2 -> l1 = l2.
Proof.
intros H1. revert l2. induction H1 as [|[k v] l1 (Hk & Hk0 & Hv) _ IH]; intros l2 H2.
- destruct H2 as [|[k v] l2 _ _]; [done|]. unfold env_text. rewrite join_fmap_cons. intros E. by destruct k.
- destruct H2 as [|[k' v'] l2 (Hk' & Hk0' & Hv') H2]; unfold env_text; rewrite !join_fmap_cons; [by destruct k|].
  rewrite <- !app_assoc. cbn [app]. intros E. simpl in *. rewrite <- !app_assoc in E. cbn [app] in E.
  apply app_sep_inj in E as [-> E]; [|done|done]. apply app_sep_inj in E as [-> E]; [|done|done].
  f_equal. by apply IH.
Qed.

Lemma contribute_text env :
  mjoin (contribute_env_explicit env) =
    match env with [] => [] | _ => (x03 :: str "env_explicit" ++ [x00]) ++ env_text (sort_by pair_leb env) end.
Proof.
unfold contribute_env_explicit. destruct env as [|kv env]; [done|]. rewrite join_cons. f_equal.
unfold env_text. generalize (sort_by pair_leb (kv :: env)) as l. induction l as [|[k v] l IH]; [done|].
rewrite join_fmap_cons, bind_cons, join_app, IH. simpl. by rewrite <- !app_assoc.
Qed.

(** The explicit environment is in the key exactly as a multiset.  For pairs a
    process environment can hold, two runs feed the same bytes for [-e] and
    [--env-file] exactly when they have the same pairs up to order: the order on the
    command line never changes the key, any other difference does. *)
Theorem env_explicit_key_exact e1 e2 :
  Forall env_pair_wf e1 -> Forall env_pair_wf e2 ->
  mjoin (contribute_env_explicit e1) = mjoin (contribute_env_explicit e2) <-> e1 ≡ₚ e2.
Proof.
intros H1 H2. rewrite !contribute_text. split.
- intros E. assert (sort_by pair_leb e1 = sort_by pair_leb e2) as Es.
  { destruct e1 as [|kv1 e1], e2 as [|kv2 e2]; [done|discriminate E|discriminate E|].
    apply app_inv_head in E. apply env_text_inj; [by rewrite sort_by_perm..|done]. }
  by rewrite <- (sort_by_perm pair_leb e1), Es, sort_by_perm.
- intros Hp. rewrite (sort_pairs_unique _ _ Hp). destruct e1, e2; try done.
  + by apply Permutation_nil_cons in Hp.
  + symmetry in Hp. by apply Permutation_nil_cons in Hp.
Qed.

Lemma env_explicit_key_exact_witness :
  mjoin (contribute_env_explicit [(str "B", str "1"); (str "A", str "x=y")]) =
  mjoin (contribute_env_explicit [(str "A", str "x=y"); (str "B", str "1")]).
Proof.
apply (env_explicit_key_exact [(str "B", str "1"); (str "A", str "x=y")] [(str "A", str "x=y"); (str "B", str "1")]).
- apply (bool_decide_eq_true_1 _). vm_compute. reflexivity.
- apply (bool_decide_eq_true_1 _). vm_compute. reflexivity.
- apply Permutation_swap.
Defined.

(** * The key *)

(** The two ways of computing the key agree.  For a run without mounts, secrets
    and configs the store path [assemble_key] and the fast path [build_key] are the
    same computation in every world, so which one is taken never changes the key. *)
Theorem assemble_key_fast_path `{B3 : Blake3} root rung canonicalize walk env_of getenv triple proc_cwd spec h w :
  needs_store_key spec = false ->
  assemble_key root rung canonicalize walk env_of getenv triple proc_cwd spec h w =
  build_key canonicalize walk env_of getenv triple proc_cwd spec w.
Proof.
unfold needs_store_key. rewrite !orb_false_iff, !negb_false_iff, !bool_decide_eq_true, !length_zero_iff_nil.
intros [[Em Es] Ec]. unfold assemble_key, build_key. rewrite Em, Es, Ec. unfold contribute_to_key.
cbv [mbind IO_mbind mret IO_mret map_io]. simpl.
destruct (base_chunks _ _ _ _ _ _ spec w) as [[cs|e|] w1]; [|done..]. by rewrite !app_nil_r.
Qed.

(** * Hits *)

Lemma get_bytes_ret `{B3 : Blake3} root d w c w' :
  get_bytes root d w = (Ret c, w') ->
  of_bytes c = d /\ file_at (w_fs w) (object_path root d) = Some c /\ w_fs w' = w_fs w.
Proof.
unfold get_bytes. intros (e & w1 & [-> ->]%exists_ret & H)%bind_ret. destruct (node_exists _ _); [|done].
apply bind_ret in H as (bs & w1 & [Hf Hw]%read_ret & H). case_bool_decide; [|done]. by injection H as <- <-.
Qed.

(** What a hit saw on disk: a record, and two blobs with its digests. *)
Definition recorded `{Blake3} (root : path) (fs : gmap path node) (out : RunOutcome) : Prop :=
  exists bs stdout_d stderr_d,
    file_at fs (ac_path root (o_key out)) = Some bs /\
    decode_ac_record bs = Some (o_exit out, stdout_d, stderr_d) /\
    of_bytes (o_stdout out) = stdout_d /\ of_bytes (o_stderr out) = stderr_d /\
    file_at fs (object_path root stdout_d) = Some (o_stdout out) /\
    file_at fs (object_path root stderr_d) = Some (o_stderr out).

Lemma try_ret {A : Type} (m : IO A) w a w' : try_ m w = (Ret (Ok a), w') -> m w = (Ret a, w').
Proof. unfold try_. destruct (m w) as [[]]; by intros [= <- <-]. Qed.

Lemma replay_ret `{B3 : Blake3} root key w out w' :
  replay root key w = (Ret (Some out), w') ->
  w_fs w' = w_fs w /\ o_key out = key /\ o_hit out = true /\ recorded root (w_fs w) out.
Proof.
intros (r & w1 & H1 & H)%bind_ret. destruct r as [[bs|]|e]; [|done..].
apply try_ret in H1. apply bind_ret in H1 as (e & w0 & [-> ->]%exists_ret & H1). destruct (node_exists _ _); [|done].
apply bind_ret in H1 as (bs' & w2 & [Hbs Hw2]%read_ret & H1). injection H1 as <- <-.
destruct (decode_ac_record bs') as [[[code so] se]|] eqn:Ed; [|done].
apply bind_ret in H as (ro & w3 & H3 & H). apply bind_ret in H as (re & w4 & H4 & H).
destruct ro as [stdout|]; [|done]. destruct re as [stderr|]; [|done]. injection H as <- <-.
apply try_ret, get_bytes_ret in H3 as (Ho & Hfo & Hw3), H4 as (He & Hfe & Hw4).
split; [congruence|]. split; [done|]. split; [done|]. exists bs', so, se. cbn.
split_and!; congruence.
Qed.

(** C25: a hit is what the cache holds, and runs nothing.  Whatever fails on the way, if
    a memoised run reports a hit then the run is reproducible, the exit code and the
    two outputs are those of a record stored under its key whose blobs are in the
    store with the recorded digests, and the outcome is the same whatever the command
    would have done: it was not executed. *)
Theorem memo_hit_sound `{B3 : Blake3} root rung canonicalize walk env_of getenv triple proc_cwd exec spec limits ulimits w out w' :
  run_memoized_with root rung canonicalize walk env_of getenv triple proc_cwd exec spec limits ulimits w = (Ret out, w') ->
  o_hit out = true ->
  non_reproducible spec = false /\ recorded root (w_fs w') out /\
  forall exec', run_memoized_with root rung canonicalize walk env_of getenv triple proc_cwd exec' spec limits ulimits w = (Ret out, w').
Proof.
unfold run_memoized_with. intros (u & w1 & H1 & H)%bind_ret Hhit. apply bind_ret in H as (key & w2 & H2 & H).
apply bind_ret in H as (hit & w3 & H3 & H). destruct hit as [out'|].
- injection H as -> ->. destruct (non_reproducible spec) eqn:En; [done|]. split; [done|].
  destruct (replay_ret _ _ _ _ _ H3) as (Hw & _ & _ & Hrec). rewrite Hw. split; [done|].
  intros exec'. cbv [mbind IO_mbind]. by rewrite H1, H2, H3.
- apply bind_ret in H as (o & w4 & _ & H). apply bind_ret in H as (u' & w5 & _ & H). by injection H as <- _.
Qed.

(** * Misses *)

Section miss.
Context `{B3 : Blake3} `{BL : !Blake3Laws B3} (root : path) (Hroot : tmp_path root = false).

Lemma ac_path_not_object key d : ac_path root key <> object_path root d.
Proof. by intros [? _]%sharded_eq. Qed.

(** A record that was written can be read back. *)
Lemma record_ret key o w u w' :
  objects_ok root (w_fs w) -> record root key o w = (Ret u, w') ->
  pub (w_fs w') (ac_path root key) =
    Some (encode_ac_record (exit_code o) (of_bytes (out_stdout o)) (of_bytes (out_stderr o))) /\
  present root (w_fs w') (of_bytes (out_stdout o)) /\ present root (w_fs w') (of_bytes (out_stderr o)).
Proof.
intros Hok (so & w1 & H1 & (se & w2 & H2 & H3)%bind_ret)%bind_ret.
destruct (put_bytes_present root Hroot _ _ _ _ Hok H1) as [-> P1].
pose proof (keeps_ret_state root _ _ _ _ (put_bytes_grows root Hroot (out_stdout o)) H1) as G1.
pose proof (grows_ok root _ _ G1 Hok) as Hok1.
destruct (put_bytes_present root Hroot _ _ _ _ Hok1 H2) as [-> P2].
pose proof (keeps_ret_state root _ _ _ _ (put_bytes_grows root Hroot (out_stderr o)) H2) as G2.
pose proof (grows_ok root _ _ G2 Hok1) as Hok2.
pose proof (commits_ret _ _ _ w2 _ w' (ac_put_commits root key _ (fun _ => True) Hroot) I H3) as Hput.
assert (forall d, present root (w_fs w2) d -> present root (w_fs w') d) as Hp.
{ intros d (c & Hc & Hd). exists c. split; [|done]. rewrite Hput, decide_False; [done|].
  intros E. by apply (ac_path_not_object key d). }
split; [rewrite Hput; by rewrite decide_True|]. split; [|by apply Hp].
apply Hp. by eapply (grows_present root); [|exact G2|].
Qed.

Lemma present_read fs d : present root fs d -> exists c, file_at fs (object_path root d) = Some c /\ of_bytes c = d.
Proof. intros (c & Hc & Hd). exists c. by rewrite <- pub_file_at by (by apply object_path_tmp). Qed.

Lemma get_bytes_calm d c w :
  w_faults w = [] -> file_at (w_fs w) (object_path root d) = Some c -> of_bytes c = d -> get_bytes root d w = (Ret c, w).
Proof.
intros Hw Hc Hd. unfold get_bytes. cbv [mbind IO_mbind exists_ get_fs mret IO_mret].
rewrite (node_exists_file _ _ _ Hc), (read_calm _ _ _ Hw Hc). by rewrite bool_decide_eq_true_2.
Qed.

(** Replaying a record without faults. *)
Lemma replay_calm key code stdout_d stderr_d w :
  w_faults w = [] -> i32 code -> digest_wf stdout_d -> digest_wf stderr_d ->
  pub (w_fs w) (ac_path root key) = Some (encode_ac_record code stdout_d stderr_d) ->
  present root (w_fs w) stdout_d -> present root (w_fs w) stderr_d ->
  exists stdout stderr, replay root key w = (Ret (Some (mkRunOutcome key true code stdout stderr)), w) /\
    of_bytes stdout = stdout_d /\ of_bytes stderr = stderr_d.
Proof.
intros Hw Hc Ho He Hac (so & Hso & Eo)%present_read (se & Hse & Ee)%present_read.
rewrite pub_file_at in Hac by (by apply sharded_tmp). exists so, se. split; [|done].
unfold replay, try_, ac_get. cbv [mbind IO_mbind exists_ get_fs mret IO_mret].
rewrite (node_exists_file _ _ _ Hac), (read_calm _ _ _ Hw Hac). rewrite decode_encode_ac by done.
rewrite (get_bytes_calm _ _ _ Hw Hso Eo), (get_bytes_calm _ _ _ Hw Hse Ee). done.
Qed.

End miss.

(** Steps that leave the objects valid. *)
Definition objects_kept `{Blake3} (root : path) : relation (gmap path node) :=
  fun fs fs' => objects_ok root fs -> objects_ok root fs'.

#[export] Instance objects_kept_preorder `{Blake3} root : PreOrder (objects_kept root).
Proof. unfold objects_kept. split; [intros fs; auto|intros f1 f2 f3; auto]. Qed.

(** Steps that touch no object. *)
Lemma touches_objects_kept `{B3 : Blake3} root T fs fs' :
  (forall d n, ~ T (object_path root d) n) -> touches T fs fs' -> objects_kept root fs fs'.
Proof.
intros HT H. assert (forall d, fs' !! object_path root d = fs !! object_path root d) as E.
{ intros d. destruct (H (object_path root d)) as [|Ht]; [done|]. by apply HT in Ht. }
intros [Hok Hd]. split; [intros d c|intros d]; unfold pub, file_at; rewrite E; [apply Hok|apply Hd].
Qed.

Lemma replay_objects_kept `{B3 : Blake3} root key w o w' :
  replay root key w = (o, w') -> objects_kept root (w_fs w) (w_fs w').
Proof.
intros E. apply (touches_objects_kept root (fun _ _ => False)); [intros d n []|].
assert (keeps (on_fs (touches (fun _ _ => False))) (replay root key)) as H.
{ unfold replay, ac_get, get_bytes. solve_keeps. }
specialize (H w). by rewrite E in H.
Qed.

(** A recorded run replays.  Whatever failed on the way, if a reproducible run
    missed, exited with 0, stayed within the output cap and returned, then from then on
    a run of the same specification whose key comes out the same, in a world without
    I/O faults in which the record and the objects are still as they were, is a hit
    with exit code 0 and outputs with the same digests, and runs nothing. *)
Theorem memo_replay `{B3 : Blake3} `{BL : !Blake3Laws B3} root rung canonicalize walk env_of getenv triple proc_cwd
    exec spec limits ulimits w out w1 exec' w2 w3 :
  tmp_path root = false ->
  objects_ok root (w_fs w) ->
  keeps (on_fs (objects_kept root)) (run_key root rung canonicalize walk env_of getenv triple proc_cwd spec) ->
  keeps (on_fs (objects_kept root)) (run_child root rung proc_cwd exec spec limits ulimits) ->
  run_memoized_with root rung canonicalize walk env_of getenv triple proc_cwd exec spec limits ulimits w = (Ret out, w1) ->
  o_hit out = false -> non_reproducible spec = false -> o_exit out = 0%Z ->
  (Z.of_nat (length (o_stdout out)) <= OUTPUT_CAP_BYTES)%Z -> (Z.of_nat (length (o_stderr out)) <= OUTPUT_CAP_BYTES)%Z ->
  run_key root rung canonicalize walk env_of getenv triple proc_cwd spec w2 = (Ret (o_key out), w3) ->
  w_faults w3 = [] -> pub (w_fs w3) (ac_path root (o_key out)) = pub (w_fs w1) (ac_path root (o_key out)) ->
  (forall d, pub (w_fs w3) (object_path root d) = pub (w_fs w1) (object_path root d)) ->
  exists stdout stderr,
    run_memoized_with root rung canonicalize walk env_of getenv triple proc_cwd exec' spec limits ulimits w2 =
      (Ret (mkRunOutcome (o_key out) true 0 stdout stderr), w3) /\
    of_bytes stdout = of_bytes (o_stdout out) /\ of_bytes stderr = of_bytes (o_stderr out).
Proof.
intros Hroot Hok Hk Hchild Hrun Hhit Hrep Hexit Hso Hse Hkey Hcalm Hpac Hpub. unfold run_memoized_with in *. rewrite Hrep in *.
apply bind_ret in Hrun as (u & v1 & H1 & Hrun). apply bind_ret in Hrun as (key & v2 & H2 & Hrun).
apply bind_ret in Hrun as (hit & v3 & H3 & Hrun). destruct hit as [out'|].
{ injection Hrun as -> ->. destruct (replay_ret _ _ _ _ _ H3) as (_ & _ & Ht & _). congruence. }
apply bind_ret in Hrun as (o & v4 & H4 & Hrun). apply bind_ret in Hrun as (u' & v5 & H5 & Hrun).
injection Hrun as <- <-. cbn in *.
assert (cacheable spec o = true) as Hc.
{ unfold cacheable. rewrite Hrep, bool_decide_eq_true_2 by done. simpl. by rewrite !(proj2 (Z.leb_le _ _)). }
rewrite Hc in H5.
assert (objects_ok root (w_fs v4)) as Hok4.
{ assert (w_fs v1 = w_fs w) as E1 
    by (destruct (check_native_support limits); [by injection H1 as _ <-|discriminate H1]).
  specialize (Hk v1). rewrite H2 in Hk. specialize (Hchild v3). rewrite H4 in Hchild. apply Hchild.
  apply (replay_objects_kept root key v2 _ v3 H3). apply Hk. by rewrite E1. }
destruct (record_ret root Hroot key o v4 u' v5 Hok4 H5) as (Hac & Po & Pe). rewrite Hexit in Hac.
destruct (replay_calm root Hroot key 0 (of_bytes (out_stdout o)) (of_bytes (out_stderr o)) w3 Hcalm) as (so & se & Hre & Eo & Ee).
- unfold i32. lia.
- apply blake3_length.
- apply blake3_length.
- by rewrite Hpac.
- destruct Po as (c & Hc' & Hd). exists c. by rewrite Hpub.
- destruct Pe as (c & Hc' & Hd). exists c. by rewrite Hpub.
- exists so, se. split; [|done]. assert (u = tt) as -> by (by destruct u).
  assert (lift (check_native_support limits) w2 = (Ret tt, w2)) as H1'.
  { destruct (check_native_support limits) as [[]|]; [done|]. by unfold lift, throw in H1. }
  cbv [mbind IO_mbind]. by rewrite H1', Hkey, Hre.
Qed.

(** What may not be replayed is never recorded.  Under every schedule of failures,
    if the child's output is not cacheable, because the run has a host bind, a named
    volume or a tmpfs, or because the child failed or wrote too much, then no cache
    record changes, provided computing the key and running the child do not write to
    the cache themselves. *)
Theorem memo_never_records `{B3 : Blake3} root rung canonicalize walk env_of getenv triple proc_cwd exec spec limits ulimits w :
  let ac p := exists k, p = ac_path root k in
  (forall v o v', run_child root rung proc_cwd exec spec limits ulimits v = (Ret o, v') -> cacheable spec o = false) ->
  keeps (on_fs (pub_except (fun p => ~ ac p))) (run_key root rung canonicalize walk env_of getenv triple proc_cwd spec) ->
  keeps (on_fs (pub_except (fun p => ~ ac p))) (run_child root rung proc_cwd exec spec limits ulimits) ->
  let r := run_memoized_with root rung canonicalize walk env_of getenv triple proc_cwd exec spec limits ulimits w in
  forall k, pub (w_fs r.2) (ac_path root k) = pub (w_fs w) (ac_path root k).
Proof.
intros ac Hno Hkey Hchild r k.
assert (keeps (on_fs (pub_except (fun p => ~ ac p)))
  (run_memoized_with root rung canonicalize walk env_of getenv triple proc_cwd exec spec limits ulimits)) as H.
{ unfold run_memoized_with. apply keeps_bind; [apply _|apply keeps_lift; apply _|]. intros _.
  apply keeps_bind; [apply _|done|]. intros key. apply keeps_bind; [apply _| |].
  { apply keeps_except. unfold replay. pose proof (ac_get_pub root key). solve_keeps. }
  intros [out|]; [apply keeps_ret; apply _|]. intros v. specialize (Hchild v). cbv [mbind IO_mbind].
  destruct (run_child root rung proc_cwd exec spec limits ulimits v) as [[o|e|] v'] eqn:E; [|exact Hchild..].
  by rewrite (Hno _ _ _ E). }
apply H. intros Hn. apply Hn. by exists k.
Qed.

(** * Concrete runs *)

Definition demo_spec (ep : option (list bytes)) : RunSpec :=
  mkRunSpec (str "/work") [] [str "hello"] [] [] [] [] [] [] None None None None limits_default [] [] [] ep None false
    None [] [] [] false false false false None None None None [] [] [].

(** A child that prints its argument vector. *)
Definition demo_exec (c : Child) : IO Output := mret (mkOutput (Some 0%Z) None (mjoin (ch_argv c)) []).

Definition demo_env (_ : path) : index_env := mkIndexEnv (Ok [str "index"; str "w"]) 1 1 5.

Abbreviation demo_memo f := (f demo_root Copy (fun p => Ok p) (fun _ => []) demo_env (fun _ => None)
  (str "linux-x86_64") []).

Definition demo_first : RunOutcome * World :=
  match demo_memo run_memoized_with demo_exec (demo_spec None) limits_default [] (restart demo_fs) with
  | (Ret out, w) => (out, w)
  | (_, w) => (mkRunOutcome [] false 1 [] [], w)
  end.

Lemma demo_first_run :
  demo_memo run_memoized_with demo_exec (demo_spec None) limits_default [] (restart demo_fs) = (Ret demo_first.1, demo_first.2).
Proof.
unfold demo_first. destruct (demo_memo run_memoized_with demo_exec (demo_spec None) limits_default [] (restart demo_fs)) as [[]] eqn:E;
  [done|exfalso..]; apply (f_equal fst) in E; vm_compute in E; discriminate E.
Qed.

(** The entrypoint is not in the key.  Two runs that differ only in their
    entrypoint, hence in the program executed, have the same key: after the first has
    run, the second is answered from the cache with the first one's output. *)
Theorem entrypoint_false_hit :
  let r1 := demo_memo run_memoized_with demo_exec (demo_spec (Some [str "echo "])) limits_default [] (restart demo_fs) in
  let r2 := demo_memo run_memoized_with demo_exec (demo_spec (Some [str "rm "])) limits_default [] (restart (w_fs r1.2)) in
  (exists key, r1.1 = Ret (mkRunOutcome key false 0 (str "echo hello") []) /\
     r2.1 = Ret (mkRunOutcome key true 0 (str "echo hello") [])) /\
  effective_argv (entrypoint (demo_spec (Some [str "rm "]))) (command (demo_spec None)) = [str "rm "; str "hello"].
Proof.
split; [|reflexivity]. eexists. split; vm_compute; reflexivity.
Qed.

Lemma keeps_lift_bind {A B : Type} R (a : A) (k : A -> IO B) : keeps R (k a) -> keeps R (lift (Ok a) ≫= k).
Proof. intros H w. apply H. Qed.

(** Where the demo's index lives. *)
Definition demo_index_zone (p : path) (_ : option node) : Prop := p = [] \/ head p = Some (str "index").

Lemma demo_key_touches spec :
  mounts spec = [] -> secrets spec = [] -> configs spec = [] ->
  keeps (on_fs (touches demo_index_zone))
    (run_key demo_root Copy (fun p => Ok p) (fun _ => []) demo_env (fun _ => None) (str "linux-x86_64") [] spec).
Proof.
intros Hm Hs Hc. unfold run_key, needs_store_key. rewrite Hm, Hs, Hc. simpl.
assert (forall q, may_write demo_index_zone (str "index" :: q)) as Hw by (intros q n _; by right).
assert (forall q, demo_index_zone (str "index" :: q) None) as Hd by (intros q; by right).
pose proof (Hw [str "w"]). pose proof (Hw [index_tmp_name 1 1]). pose proof (Hd [index_tmp_name 1 1]).
assert (keeps (on_fs (touches demo_index_zone)) (create_dir_all [str "index"])).
{ apply create_dir_all_touches. intros q [k Hk]. destruct q as [|c q]; [by left|right]. by injection Hk as <-. }
assert (forall ix, keeps (on_fs (touches demo_index_zone)) (save_for ix (Ok [str "index"; str "w"]) 1 1 5)) as Hsave.
{ intros ix. unfold save_for. apply keeps_lift_bind. cbn [parent_path removelast app]. unfold fsync_dir. solve_keeps. }
unfold build_key, base_chunks, input_chunks, load_for, scan_tree, demo_env.
cbn [ie_at ie_pid ie_tmp ie_now_ns]. solve_keeps.
Qed.

Lemma demo_index_not_store q n : ~ demo_index_zone (demo_root ++ q) n.
Proof. by intros [?|[=]]. Qed.

Lemma demo_index_kept : keeps (on_fs (objects_kept demo_root))
  (run_key demo_root Copy (fun p => Ok p) (fun _ => []) demo_env (fun _ => None) (str "linux-x86_64") [] (demo_spec None)).
Proof.
intros w. eapply touches_objects_kept; [|by apply demo_key_touches].
intros d n. unfold object_path. rewrite sharded_slot. apply demo_index_not_store.
Qed.

(** A demo child leaves the file system alone. *)
Lemma demo_child_keeps R `{!PreOrder R} out :
  keeps (on_fs R) (run_child demo_root Copy [] (fun c => mret (out c)) (demo_spec None)
    limits_default []).
Proof. intros w. change (R (w_fs w) (w_fs w)). reflexivity. Qed.

Lemma demo_key_pub w q :
  pub (w_fs (run_key demo_root Copy (fun p => Ok p) (fun _ => []) demo_env (fun _ => None) (str "linux-x86_64") []
    (demo_spec None) w).2) (demo_root ++ q) = pub (w_fs w) (demo_root ++ q).
Proof.
pose proof (demo_key_touches (demo_spec None) eq_refl eq_refl eq_refl w) as H. revert H. unfold on_fs.
generalize (w_fs (run_key demo_root Copy (fun p => Ok p) (fun _ => []) demo_env (fun _ => None) (str "linux-x86_64") []
  (demo_spec None) w).2) as f. intros f H. destruct (H (demo_root ++ q)) as [E|E]; [|by apply demo_index_not_store in E].
unfold pub, file_at. by rewrite E.
Qed.

Definition demo_second : World := restart (w_fs demo_first.2).
Definition demo_second_key : World :=
  (run_key demo_root Copy (fun p => Ok p) (fun _ => []) demo_env (fun _ => None) (str "linux-x86_64") [] (demo_spec None) demo_second).2.

Lemma memo_replay_witness :
  exists stdout stderr,
    demo_memo run_memoized_with (fun _ => throw (Io OtherKind)) (demo_spec None) limits_default [] demo_second =
      (Ret (mkRunOutcome (o_key demo_first.1) true 0 stdout stderr), demo_second_key) /\
    of_bytes stdout = of_bytes (str "hello") /\ of_bytes stderr = of_bytes [].
Proof.
assert (o_stdout demo_first.1 = str "hello") as Eo by (vm_compute; reflexivity).
assert (o_stderr demo_first.1 = []) as Ee by (vm_compute; reflexivity). rewrite <- Eo, <- Ee.
eapply (memo_replay demo_root Copy (fun p => Ok p) (fun _ => []) demo_env (fun _ => None) (str "linux-x86_64") [] demo_exec (demo_spec None) limits_default [] (restart demo_fs) demo_first.1 demo_first.2
  (fun _ => throw (Io OtherKind)) demo_second demo_second_key).
- reflexivity.
- split; [apply demo_fs_ok|]. intros d E. apply demo_fs_lookup in E as [[E|E] _]; unfold object_path in E;
    rewrite sharded_slot in E; [done|discriminate E].
- apply demo_index_kept.
- apply (demo_child_keeps _ (fun c => mkOutput (Some 0%Z) None (mjoin (ch_argv c)) [])).
- apply demo_first_run.
- vm_compute. reflexivity.
- reflexivity.
- vm_compute. reflexivity.
- vm_compute. discriminate.
- vm_compute. discriminate.
- unfold demo_second_key. refine (run_split (run_key _ _ _ _ _ _ _ _ _) demo_second _ _). vm_compute. reflexivity.
- vm_compute. reflexivity.
- unfold ac_path. rewrite sharded_slot. apply (demo_key_pub demo_second).
- intros d. unfold object_path. rewrite sharded_slot. apply (demo_key_pub demo_second).
Defined.

Lemma memo_hit_sound_witness :
  let r := demo_memo run_memoized_with demo_exec (demo_spec None) limits_default [] demo_second in
  r.1 = Ret (mkRunOutcome (o_key demo_first.1) true 0 (str "hello") []) /\
  recorded demo_root (w_fs r.2) (mkRunOutcome (o_key demo_first.1) true 0 (str "hello") []).
Proof.
intros r. assert (r.1 = Ret (mkRunOutcome (o_key demo_first.1) true 0 (str "hello") [])) as E by (vm_compute; reflexivity).
split; [exact E|]. eapply (memo_hit_sound demo_root Copy (fun p => Ok p) (fun _ => []) demo_env (fun _ => None)
  (str "linux-x86_64") [] demo_exec (demo_spec None) limits_default [] demo_second);
  [apply run_split; exact E|reflexivity].
Defined.

Lemma assemble_key_fast_path_witness :
  assemble_key demo_root Copy (fun p => Ok p) (fun _ => []) demo_env (fun _ => None) (str "linux-x86_64") []
    (demo_spec None) false demo_second =
  build_key (fun p => Ok p) (fun _ => []) demo_env (fun _ => None) (str "linux-x86_64") [] (demo_spec None) demo_second.
Proof. apply assemble_key_fast_path. reflexivity. Defined.

(** A run that fails is not recorded. *)
Definition demo_fail (c : Child) : IO Output := mret (mkOutput None (Some 9%Z) (mjoin (ch_argv c)) []).

Lemma memo_never_records_witness :
  let r := demo_memo run_memoized_with demo_fail (demo_spec None) limits_default [] (restart demo_fs) in
  (exists key, r.1 = Ret (mkRunOutcome key false 137 (str "hello") [])) /\
  forall k, pub (w_fs r.2) (ac_path demo_root k) = pub demo_fs (ac_path demo_root k).
Proof.
intros r. split; [eexists; vm_compute; reflexivity|].
apply (memo_never_records demo_root Copy (fun p => Ok p) (fun _ => []) demo_env (fun _ => None)
  (str "linux-x86_64") [] demo_fail (demo_spec None) limits_default [] (restart demo_fs)).
- intros v o v' H. unfold run_child in H. repeat (apply bind_ret in H as (? & ? & _ & H)). by injection H as <- _.
- intros w p Hp. destruct (demo_key_touches (demo_spec None) eq_refl eq_refl eq_refl w p) as [E|E].
  + unfold pub, file_at. unfold on_fs in *. by rewrite E.
  + destruct Hp. intros [k ->]. unfold ac_path in E. rewrite sharded_slot in E. by apply demo_index_not_store in E.
- apply (demo_child_keeps _ (fun c => mkOutput None (Some 9%Z) (mjoin (ch_argv c)) [])).
Defined.
