(* ===== verification/Packet.v ===== *)
(** Network packets as the embedded servers read and write them
    (crates/lightr-run/src/vswitch/dhcp/build.rs and parse.rs, dns/wire.rs): big-endian
    fields, the IPv4 header checksum, and the Ethernet, IPv4 and UDP layers.  A MAC
    address is its six bytes, an IPv4 address its four octets. *)

From S2P Require Import Prelude.

(** * Big-endian fields *)

Definition be_bytes (n : nat) (z : Z) : bytes := reverse (le_bytes n z).
Definition be_val (l : bytes) : Z := le_val (reverse l).

(** [buf[a..a + n]], for bounds that were checked. *)
Definition field (a n : nat) (buf : bytes) : bytes := take n (drop a buf).

Definition be16 (b : bytes) : Z := be_val (take 2 b).
Definition be32 (b : bytes) : Z := be_val (take 4 b).

(** [read_u16]: [None] out of bounds. *)
Definition read_u16 (buf : bytes) (at_ : nat) : option Z :=
  if bool_decide (at_ + 2 <= length buf) then Some (be_val (field at_ 2 buf)) else None.

Lemma length_be_bytes n z : length (be_bytes n z) = n.
Proof. unfold be_bytes. by rewrite length_reverse, length_le_bytes. Qed.

Lemma be_val_be_bytes n z : be_val (be_bytes n z) = (z mod 256 ^ Z.of_nat n)%Z.
Proof. unfold be_val, be_bytes. by rewrite reverse_involutive, le_val_le_bytes. Qed.

Lemma be_val_u16 z : u16 z -> be_val (be_bytes 2 z) = z.
Proof. intros H. rewrite be_val_be_bytes. apply Z.mod_small. unfold u16 in H. lia. Qed.

Lemma be_bytes_2 z : exists a b, be_bytes 2 z = [a; b].
Proof.
pose proof (length_be_bytes 2 z) as H. destruct (be_bytes 2 z) as [|a [|b [|]]]; simplify_eq/=. by exists a, b.
Qed.

Lemma be_val_2_range a b : (0 <= be_val [a; b] < 2 ^ 16)%Z.
Proof. unfold be_val. exact (le_val_range (reverse [a; b])). Qed.

(** * The checksum *)

(** The 16-bit words; an odd last byte counts as the high half of one. *)
Fixpoint sum16 (l : bytes) : Z :=
  match l with
  | a :: b :: l => (be_val [a; b] + sum16 l)%Z
  | [a] => Z.shiftl (bval a) 8
  | [] => 0%Z
  end.

(** [while sum >> 16 != 0 { sum = (sum & 0xffff) + (sum >> 16) }]. *)
Fixpoint fold16 (fuel : nat) (sum : Z) : Z :=
  match fuel with
  | O => sum
  | S fuel =>
      if (Z.shiftr sum 16 =? 0)%Z then sum
      else fold16 fuel (Z.land sum 65535 + Z.shiftr sum 16)
  end.

(** A u32 is folded at most twice; [fold16_sum] shows that the loop has ended. *)
Definition ipv4_checksum (header : bytes) : Z := (65535 - fold16 3 (sum16 header))%Z.

(** * Layers *)

Definition ETHERTYPE_IPV4 : Z := 2048.
Definition IP_PROTO_UDP : byte := x11.

Definition build_udp (src_port dst_port : Z) (payload : bytes) : bytes :=
  be_bytes 2 src_port ++ be_bytes 2 dst_port ++ be_bytes 2 (Z.of_nat (8 + length payload)) ++ [x00; x00] ++ payload.

(** The header up to the checksum and after it. *)
Definition ipv4_front (total_len : Z) (proto : byte) : bytes :=
  [x45; x00] ++ be_bytes 2 total_len ++ [x00; x00] ++ [x40; x00] ++ [x40; proto].

Definition build_ipv4 (src dst : bytes) (proto : byte) (payload : bytes) : bytes :=
  let front := ipv4_front (Z.of_nat (20 + length payload)) proto in
  let csum := ipv4_checksum (front ++ [x00; x00] ++ src ++ dst) in
  front ++ be_bytes 2 csum ++ src ++ dst ++ payload.

Definition build_ethernet (src dst : bytes) (ethertype : Z) (payload : bytes) : bytes :=
  dst ++ src ++ be_bytes 2 ethertype ++ payload.

(** CIDR prefix to netmask: [u32::MAX << (32 - p)], wrapped at 32 bits. *)
Definition prefix_to_mask (prefix : Z) : bytes :=
  let p := Z.min prefix 32 in
  be_bytes 4 (if (p =? 0)%Z then 0 else Z.land (Z.shiftl (2 ^ 32 - 1) (32 - p)) (2 ^ 32 - 1)).

(** * The checksum is correct *)

(** Folding is reduction modulo 65535 into 1..65535. *)
Definition ones (s : Z) : Z := if (s =? 0)%Z then 0%Z else ((s - 1) mod 65535 + 1)%Z.

Lemma fold_step s : Z.land s 65535 = (s mod 2 ^ 16)%Z /\ Z.shiftr s 16 = (s / 2 ^ 16)%Z.
Proof. split; [apply (Z.land_ones s 16); lia|apply Z.shiftr_div_pow2; lia]. Qed.

Lemma ones_fold s : (0 <= s)%Z -> ones (s mod 2 ^ 16 + s / 2 ^ 16) = ones s.
Proof.
intros H. pose proof (Z.div_mod s (2 ^ 16)) as E. assert (0 <= s / 2 ^ 16)%Z by (apply Z.div_pos; lia).
pose proof (Z.mod_pos_bound s (2 ^ 16)). unfold ones. set (q := (s / 2 ^ 16)%Z) in *. set (r := (s mod 2 ^ 16)%Z) in *.
destruct (Z.eqb_spec (r + q) 0), (Z.eqb_spec s 0); [done|lia|lia|]. f_equal.
replace (s - 1)%Z with ((r + q - 1) + q * 65535)%Z by lia. by rewrite Z.mod_add.
Qed.

Lemma ones_small s : (0 <= s < 2 ^ 16)%Z -> ones s = s.
Proof.
intros H. unfold ones. destruct (Z.eqb_spec s 0); [done|]. rewrite Z.mod_small by lia. lia.
Qed.

Lemma ones_range s : (0 <= s)%Z -> (0 <= ones s < 2 ^ 16)%Z.
Proof.
intros H. unfold ones. case_match; [lia|]. pose proof (Z.mod_pos_bound (s - 1) 65535). lia.
Qed.

Lemma fold16_unfold fuel s :
  fold16 (S fuel) s = if (s / 2 ^ 16 =? 0)%Z then s else fold16 fuel (s mod 2 ^ 16 + s / 2 ^ 16).
Proof. cbn [fold16]. destruct (fold_step s) as [-> ->]. done. Qed.

(** The loop ends with three tests on every 32-bit sum, at the one's complement sum. *)
Lemma fold16_sum s : (0 <= s < 2 ^ 32)%Z -> fold16 3 s = ones s.
Proof.
assert (forall fuel s, (0 <= s < 2 ^ 16)%Z -> fold16 fuel s = ones s) as H0.
{ intros [|fuel] t Ht; [symmetry; by apply ones_small|]. rewrite fold16_unfold, Z.div_small by lia. symmetry. by apply ones_small. }
intros Hs. rewrite fold16_unfold. assert (0 <= s / 2 ^ 16 < 2 ^ 16)%Z by (split; [apply Z.div_pos|apply Z.div_lt_upper_bound]; lia).
pose proof (Z.mod_pos_bound s (2 ^ 16)).
destruct (Z.eqb_spec (s / 2 ^ 16) 0) as [E|E]; [apply (H0 0); pose proof (Z.div_mod s (2 ^ 16)); lia|].
rewrite <- (ones_fold s) by lia. set (t := (s mod 2 ^ 16 + s / 2 ^ 16)%Z) in *. assert (0 < t < 2 ^ 17)%Z as Ht by lia.
rewrite fold16_unfold. destruct (Z.eqb_spec (t / 2 ^ 16) 0) as [E2|E2].
- symmetry. apply ones_small. pose proof (Z.div_mod t (2 ^ 16)). pose proof (Z.mod_pos_bound t (2 ^ 16)). lia.
- rewrite <- (ones_fold t) by lia. apply H0. assert (t / 2 ^ 16 < 2)%Z by (apply Z.div_lt_upper_bound; lia).
  assert (0 <= t / 2 ^ 16)%Z by (apply Z.div_pos; lia). pose proof (Z.div_mod t (2 ^ 16)). pose proof (Z.mod_pos_bound t (2 ^ 16)). lia.
Qed.

(** Completing a sum to a multiple of 65535. *)
Lemma ones_complement s : (0 <= s)%Z -> ones (s + (65535 - ones s)) = 65535%Z.
Proof.
intros H. unfold ones at 2. destruct (Z.eqb_spec s 0) as [->|Hn]; [reflexivity|].
pose proof (Z.div_mod (s - 1) 65535). pose proof (Z.mod_pos_bound (s - 1) 65535).
set (q := ((s - 1) / 65535)%Z) in *. set (r := ((s - 1) mod 65535)%Z) in *. assert (0 <= q)%Z by (apply Z.div_pos; lia).
unfold ones. destruct (Z.eqb_spec (s + (65535 - (r + 1))) 0); [lia|].
replace (s + (65535 - (r + 1)) - 1)%Z with (65534 + q * 65535)%Z by lia. rewrite Z.mod_add by lia. reflexivity.
Qed.

Lemma sum16_app a b : Nat.Even (length a) -> sum16 (a ++ b) = (sum16 a + sum16 b)%Z.
Proof.
intros [n Hn]. revert a Hn. induction n as [|n IH]; intros a Hn.
- destruct a; [done|simpl in Hn; lia].
- destruct a as [|x [|y a]]; simpl in Hn; [lia|lia|]. cbn [app sum16]. rewrite IH by lia. lia.
Qed.

Lemma sum16_range l : (0 <= sum16 l <= 65535 * Z.of_nat (length l))%Z.
Proof.
remember (length l) as n eqn:E. revert l E. induction n as [n IH] using lt_wf_ind; intros l ->.
destruct l as [|a [|b l]]; simpl; [lia| |].
- pose proof (bval_range a). rewrite Z.shiftl_mul_pow2 by lia. lia.
- pose proof (be_val_2_range a b). specialize (IH (length l) ltac:(simpl; lia) l eq_refl). lia.
Qed.

(** A header whose checksum field is zero, and the same with the checksum in it. *)
Lemma checksum_verifies front rest :
  Nat.Even (length front) -> (Z.of_nat (length (front ++ rest)) < 60000)%Z ->
  fold16 3 (sum16 (front ++ be_bytes 2 (ipv4_checksum (front ++ [x00; x00] ++ rest)) ++ rest)) = 65535%Z.
Proof.
intros He Hlen. set (s := sum16 (front ++ [x00; x00] ++ rest)).
assert (s = sum16 front + sum16 rest)%Z as Es by (unfold s; by rewrite sum16_app).
pose proof (sum16_range front). pose proof (sum16_range rest). rewrite length_app in Hlen.
assert (0 <= s < 2 ^ 32 - 65535)%Z as Hs by lia.
assert (ipv4_checksum (front ++ [x00; x00] ++ rest) = 65535 - ones s)%Z as Ec
  by (unfold ipv4_checksum; fold s; by rewrite fold16_sum by lia).
pose proof (ones_range s ltac:(lia)). rewrite Ec. set (c := (65535 - ones s)%Z) in *.
destruct (be_bytes_2 c) as (a & b & Eb). assert (be_val [a; b] = c) as Ev by (rewrite <- Eb; apply be_val_u16; unfold u16; lia).
rewrite Eb, sum16_app by done. cbn [app sum16]. rewrite Ev.
replace (sum16 front + (c + sum16 rest))%Z with (s + (65535 - ones s))%Z by (unfold c; lia).
rewrite fold16_sum by lia. apply ones_complement. lia.
Qed.

(** The header of a built packet: 20 bytes that sum to all ones. *)
Lemma build_ipv4_checksum src dst proto payload :
  length src = 4 -> length dst = 4 ->
  fold16 3 (sum16 (take 20 (build_ipv4 src dst proto payload))) = 65535%Z.
Proof.
intros Hs Hd. unfold build_ipv4. set (front := ipv4_front _ proto).
assert (length front = 10) as Hf by (unfold front, ipv4_front; rewrite !length_app, length_be_bytes; reflexivity).
rewrite !app_assoc. rewrite (take_app_length' _ payload) by (rewrite !length_app, length_be_bytes; lia).
rewrite <- !app_assoc. apply checksum_verifies; [rewrite Hf; by exists 5|].
rewrite !length_app. lia.
Qed.

(** * The wire format

    The reference for what the servers parse: an Ethernet frame with an IPv4 packet with a
    UDP datagram, every field free that the code does not read, with options in the IP
    header, bytes of the packet after the datagram and bytes of the frame after the
    packet. *)

Definition byte_at (i : nat) (buf : bytes) : byte := nth i buf x00.

Record datagram := mkDatagram {
  dg_dst_mac : bytes; dg_src_mac : bytes;
  dg_tos : byte; dg_mid : bytes; dg_csum : bytes; dg_src_ip : bytes; dg_dst_ip : bytes; dg_opts : bytes;
  dg_src_port : Z; dg_dst_port : Z; dg_ucsum : bytes; dg_payload : bytes;
  dg_slack : bytes; dg_trailer : bytes }.

Definition dg_ihl (d : datagram) : nat := 20 + length (dg_opts d).
Definition dg_udp_len (d : datagram) : nat := 8 + length (dg_payload d).
Definition dg_total (d : datagram) : nat := dg_ihl d + dg_udp_len d + length (dg_slack d).

Record datagram_wf (d : datagram) : Prop := {
  wf_dst_mac : length (dg_dst_mac d) = 6; wf_src_mac : length (dg_src_mac d) = 6;
  wf_mid : length (dg_mid d) = 5; wf_csum : length (dg_csum d) = 2;
  wf_src_ip : length (dg_src_ip d) = 4; wf_dst_ip : length (dg_dst_ip d) = 4;
  wf_opts : exists k, k <= 10 /\ length (dg_opts d) = 4 * k;
  wf_src_port : u16 (dg_src_port d); wf_dst_port : u16 (dg_dst_port d);
  wf_ucsum : length (dg_ucsum d) = 2;
  wf_total : u16 (Z.of_nat (dg_total d)) }.

Definition udp_bytes (d : datagram) : bytes :=
  be_bytes 2 (dg_src_port d) ++ be_bytes 2 (dg_dst_port d) ++ be_bytes 2 (Z.of_nat (dg_udp_len d)) ++ dg_ucsum d ++
  dg_payload d ++ dg_slack d.

Definition ip_bytes (d : datagram) : bytes :=
  [byte_of_Z (64 + Z.of_nat (dg_ihl d) / 4); dg_tos d] ++ be_bytes 2 (Z.of_nat (dg_total d)) ++ dg_mid d ++
  [IP_PROTO_UDP] ++ dg_csum d ++ dg_src_ip d ++ dg_dst_ip d ++ dg_opts d ++ udp_bytes d ++ dg_trailer d.

Definition frame_bytes (d : datagram) : bytes :=
  dg_dst_mac d ++ dg_src_mac d ++ be_bytes 2 ETHERTYPE_IPV4 ++ ip_bytes d.

(** The layers of a frame, peeled with the checks both parsers make. *)
Definition peel (frame : bytes) : option datagram :=
  if bool_decide (length frame < 14) then None else
  if negb (be16 (field 12 2 frame) =? ETHERTYPE_IPV4)%Z then None else
  let l3 := drop 14 frame in
  if bool_decide (length l3 < 20) then None else
  let vihl := bval (byte_at 0 l3) in
  let ihl := Z.to_nat (Z.land vihl 15) * 4 in
  if negb (Z.shiftr vihl 4 =? 4)%Z || bool_decide (ihl < 20) || bool_decide (length l3 < ihl) then None else
  if negb (bool_decide (byte_at 9 l3 = IP_PROTO_UDP)) then None else
  let total := Z.to_nat (be16 (field 2 2 l3)) in
  if bool_decide (total < ihl) || bool_decide (length l3 < total) then None else
  let l4 := field ihl (total - ihl) l3 in
  if bool_decide (length l4 < 8) then None else
  let udp_len := Z.to_nat (be16 (field 4 2 l4)) in
  if bool_decide (udp_len < 8) || bool_decide (length l4 < udp_len) then None else
  Some (mkDatagram (field 0 6 frame) (field 6 6 frame) (byte_at 1 l3) (field 4 5 l3) (field 10 2 l3) (field 12 4 l3)
          (field 16 4 l3) (field 20 (ihl - 20) l3) (be16 (field 0 2 l4)) (be16 (field 2 2 l4)) (field 6 2 l4)
          (field 8 (udp_len - 8) l4) (drop udp_len l4) (drop total l3)).

Lemma be_bytes_be_val n l : length l = n -> be_bytes n (be_val l) = l.
Proof.
intros H. unfold be_bytes, be_val. rewrite le_bytes_le_val' by (by rewrite length_reverse). apply reverse_involutive.
Qed.

Lemma be16_u16 l : length l = 2 -> u16 (be16 l).
Proof. destruct l as [|a [|b [|]]]; try done. intros _. apply (be_val_2_range a b). Qed.

Lemma be16_app z r : u16 z -> be16 (be_bytes 2 z ++ r) = z.
Proof.
intros H. unfold be16. rewrite take_app_length' by (by rewrite length_be_bytes). by apply be_val_u16.
Qed.

Lemma high_bit flags : negb (Z.land flags 0x8000 =? 0)%Z = Z.testbit flags 15.
Proof.
change 0x8000%Z with (2 ^ 15)%Z. destruct (Z.testbit flags 15) eqn:E.
- apply negb_true_iff, Z.eqb_neq. intros E0. apply (f_equal (fun z => Z.testbit z 15)) in E0.
  rewrite Z.land_spec, E, Z.pow2_bits_true in E0 by lia. done.
- apply negb_false_iff, Z.eqb_eq, Z.bits_inj'. intros n Hn. rewrite Z.land_spec, Z.pow2_bits_eqb, Z.bits_0 by lia.
  destruct (Z.eqb_spec 15 n) as [<-|]; [by rewrite E|apply andb_false_r].
Qed.

Lemma length_field a n l : a + n <= length l -> length (field a n l) = n.
Proof. intros H. unfold field. rewrite length_take, length_drop. lia. Qed.

(** A slice at the length of what comes before it. *)
Lemma field_app a l r n m : length l = a -> length m = n -> field a n (l ++ m ++ r) = m.
Proof. intros Hl Hm. unfold field. rewrite drop_app_length' by done. by rewrite take_app_length'. Qed.

Lemma field_shift k a n l r : length l = k -> field (k + a) n (l ++ r) = field a n r.
Proof. intros H. unfold field. by rewrite <- drop_drop, drop_app_length'. Qed.

Lemma vihl_split b : Z.shiftr (bval b) 4 = 4%Z -> byte_of_Z (64 + Z.land (bval b) 15) = b.
Proof.
revert b. apply (byte_forall (fun b => Z.shiftr (bval b) 4 = 4%Z -> byte_of_Z (64 + Z.land (bval b) 15) = b)).
vm_compute. reflexivity.
Qed.

Lemma vihl_join k : (0 <= k < 16)%Z -> Z.shiftr (bval (byte_of_Z (64 + k))) 4 = 4%Z /\ Z.land (bval (byte_of_Z (64 + k))) 15 = k.
Proof.
intros H. rewrite bval_byte_of_Z, Z.mod_small by lia. rewrite (Z.land_ones _ 4), Z.shiftr_div_pow2 by lia.
change (2 ^ 4)%Z with 16%Z. replace (64 + k)%Z with (k + 4 * 16)%Z by lia.
rewrite Z.div_add, Z.mod_add, Z.div_small, Z.mod_small by lia. lia.
Qed.

(** What peeling computes of an encoded frame. *)
Lemma udp_bytes_fields d :
  datagram_wf d ->
  let l4 := udp_bytes d in
  length l4 = dg_udp_len d + length (dg_slack d) /\ be16 (field 0 2 l4) = dg_src_port d /\
  be16 (field 2 2 l4) = dg_dst_port d /\ be16 (field 4 2 l4) = Z.of_nat (dg_udp_len d) /\ field 6 2 l4 = dg_ucsum d /\
  field 8 (length (dg_payload d)) l4 = dg_payload d /\ drop (dg_udp_len d) l4 = dg_slack d.
Proof.
intros [_ _ _ _ _ _ _ Hs Hd Hu Ht]. unfold udp_bytes, dg_udp_len in *.
assert (u16 (Z.of_nat (8 + length (dg_payload d)))) as Hl by (unfold u16, dg_total, dg_udp_len in *; lia).
set (n := Z.of_nat (8 + length (dg_payload d))) in *. pose proof (be_val_u16 _ Hs) as Es. pose proof (be_val_u16 _ Hd) as Ed. pose proof (be_val_u16 _ Hl) as El.
destruct (be_bytes_2 (dg_src_port d)) as (a & b & Eab), (be_bytes_2 (dg_dst_port d)) as (a' & b' & Eab'), (be_bytes_2 n) as (a'' & b'' & Eab'').
rewrite Eab in *. rewrite Eab' in *. rewrite Eab'' in *. destruct (dg_ucsum d) as [|c [|c' [|]]]; try done.
split; [by rewrite !length_app|]. split; [done|]. split; [done|]. split; [done|]. split; [done|]. split.
- unfold field. cbn [app drop]. by rewrite ?drop_0, take_app_length'.
- cbn [app drop Nat.add]. by rewrite ?drop_0, drop_app_length'.
Qed.

Lemma ip_bytes_fields d :
  datagram_wf d ->
  let l3 := ip_bytes d in
  length l3 = dg_total d + length (dg_trailer d) /\ Z.shiftr (bval (byte_at 0 l3)) 4 = 4%Z /\
  Z.to_nat (Z.land (bval (byte_at 0 l3)) 15) * 4 = dg_ihl d /\ byte_at 1 l3 = dg_tos d /\
  be16 (field 2 2 l3) = Z.of_nat (dg_total d) /\ field 4 5 l3 = dg_mid d /\ byte_at 9 l3 = IP_PROTO_UDP /\
  field 10 2 l3 = dg_csum d /\ field 12 4 l3 = dg_src_ip d /\ field 16 4 l3 = dg_dst_ip d /\
  field 20 (length (dg_opts d)) l3 = dg_opts d /\ field (dg_ihl d) (dg_total d - dg_ihl d) l3 = udp_bytes d /\
  drop (dg_total d) l3 = dg_trailer d.
Proof.
intros Hwf. destruct (udp_bytes_fields d Hwf) as (Hl4 & _). destruct Hwf as [_ _ Hm Hc Hs Hd (k & Hk & Ho) _ _ _ Ht].
pose proof (be_val_u16 _ Ht) as Et. unfold ip_bytes. destruct (be_bytes_2 (Z.of_nat (dg_total d))) as (a & b & Eab). rewrite Eab in *.
assert (dg_ihl d = 20 + 4 * k) as Hi by (unfold dg_ihl; lia).
assert (Z.of_nat (dg_ihl d) / 4 = 5 + Z.of_nat k)%Z as Ei by (rewrite Hi; rewrite Nat2Z.inj_add, Nat2Z.inj_mul; symmetry; apply Z.div_unique with 0%Z; lia).
rewrite Ei. destruct (vihl_join (5 + Z.of_nat k) ltac:(lia)) as [Hv1 Hv2].
assert (dg_total d = dg_ihl d + length (udp_bytes d)) as Htot by (unfold dg_total; lia).
set (v := byte_of_Z _) in *. clearbody v. set (l4 := udp_bytes d) in *. clearbody l4.
destruct (dg_mid d) as [|m1 [|m2 [|m3 [|m4 [|m5 [|]]]]]]; try done. destruct (dg_csum d) as [|c [|c' [|]]]; try done.
destruct (dg_src_ip d) as [|s1 [|s2 [|s3 [|s4 [|]]]]]; try done. destruct (dg_dst_ip d) as [|t1 [|t2 [|t3 [|t4 [|]]]]]; try done.
assert (dg_ihl d = 20 + length (dg_opts d)) as Hi' by done.
split; [cbn [app length]; rewrite !length_app; lia|]. split; [exact Hv1|]. split; [cbn [app byte_at nth]; rewrite Hv2; lia|].
split; [done|]. split; [exact Et|]. repeat (split; [done|]).
split; [unfold field; cbn [app drop]; by rewrite ?drop_0, take_app_length'|].
replace (dg_total d - dg_ihl d) with (length l4) by lia. rewrite Htot, Hi'. cbn [Nat.add]. unfold field. cbn [app drop].
split; [by rewrite ?drop_0, drop_app_length', take_app_length'|]. rewrite ?drop_0, app_assoc. rewrite drop_app_length' by (by rewrite length_app). done.
Qed.

Lemma peel_frame d : datagram_wf d -> peel (frame_bytes d) = Some d.
Proof.
intros Hwf. destruct (ip_bytes_fields d Hwf) as (L3 & V1 & V2 & F1 & F2 & F3 & F4 & F5 & F6 & F7 & F8 & F9 & F10).
destruct (udp_bytes_fields d Hwf) as (L4 & G1 & G2 & G3 & G4 & G5 & G6).
assert (drop 14 (frame_bytes d) = ip_bytes d /\ field 0 6 (frame_bytes d) = dg_dst_mac d /\ field 6 6 (frame_bytes d) = dg_src_mac d /\
  be16 (field 12 2 (frame_bytes d)) = ETHERTYPE_IPV4 /\ length (frame_bytes d) = 14 + length (ip_bytes d)) as (E14 & E0 & E6 & E12 & LF).
{ unfold frame_bytes. destruct Hwf as [Hd Hs _ _ _ _ _ _ _ _ _]. generalize (ip_bytes d). intros r.
  destruct (dg_dst_mac d) as [|? [|? [|? [|? [|? [|? [|]]]]]]]; try done. destruct (dg_src_mac d) as [|? [|? [|? [|? [|? [|? [|]]]]]]]; try done. }
assert (20 <= dg_ihl d) by (unfold dg_ihl; lia). assert (dg_ihl d + 8 <= dg_total d) by (unfold dg_total, dg_udp_len; lia).
unfold peel. rewrite E12, E14, V1, V2, F2, F4, Nat2Z.id, F9, G3, Nat2Z.id.
rewrite (bool_decide_true (IP_PROTO_UDP = IP_PROTO_UDP)) by done. rewrite !bool_decide_false by (unfold dg_udp_len in *; lia). cbn [negb orb Z.eqb].
replace (dg_ihl d - 20) with (length (dg_opts d)) by (unfold dg_ihl; lia).
replace (dg_udp_len d - 8) with (length (dg_payload d)) by (unfold dg_udp_len; lia).
rewrite E0, E6, F1, F3, F5, F6, F7, F8, F10, G1, G2, G4, G5, G6. by destruct d.
Qed.

Lemma take_field n l : take n l = field 0 n l.
Proof. unfold field. by rewrite drop_0. Qed.

Lemma split_field a n l : a + n <= length l -> drop a l = field a n l ++ drop (a + n) l.
Proof. intros H. unfold field. rewrite <- drop_drop. symmetry. apply take_drop. Qed.

Lemma byte_at_drop a l : a < length l -> drop a l = byte_at a l :: drop (S a) l.
Proof.
revert a. induction l as [|x l IH]; intros a Ha; simpl in Ha; [lia|]. destruct a as [|a]; [done|]. simpl. apply IH. lia.
Qed.

Lemma be16_field a l : a + 2 <= length l -> be_bytes 2 (be16 (field a 2 l)) = field a 2 l.
Proof.
intros H. pose proof (length_field a 2 l H). unfold be16. rewrite take_ge by lia. by apply be_bytes_be_val.
Qed.

(** A list of known length, as its elements. *)
Ltac explode H :=
  match type of H with
  | length ?l = 0 => let l' := fresh "l" in revert H; generalize l; intros l' H; destruct l'; [|discriminate H]; clear H
  | length ?l = S _ =>
      let l' := fresh "l" in let b := fresh "b" in
      revert H; generalize l; intros l' H; destruct l' as [|b l']; [discriminate H|]; cbn [length] in H; apply eq_add_S in H; explode H
  end.

(** The guards that a parse passed, as propositions. *)
Ltac passed_in H :=
  repeat match type of H with (if ?c then None else _) = Some _ => destruct c eqn:?; [discriminate H|] end;
  repeat match goal with
    | G : negb _ = false |- _ => apply negb_false_iff in G
    | G : (_ || _) = false |- _ => apply orb_false_iff in G as [? ?]
    | G : bool_decide _ = false |- _ => apply bool_decide_eq_false in G
    | G : bool_decide _ = true |- _ => apply bool_decide_eq_true in G
    | G : (_ =? _)%Z = true |- _ => apply Z.eqb_eq in G
    end.

Lemma udp_reassemble l4 ulen :
  8 <= ulen <= length l4 -> be16 (field 4 2 l4) = Z.of_nat ulen ->
  l4 = be_bytes 2 (be16 (field 0 2 l4)) ++ be_bytes 2 (be16 (field 2 2 l4)) ++ be_bytes 2 (Z.of_nat ulen) ++ field 6 2 l4 ++
       field 8 (ulen - 8) l4 ++ drop ulen l4.
Proof.
intros Hu <-. rewrite !be16_field by lia. rewrite <- (drop_0 l4) at 1.
rewrite (split_field 0 2), (split_field 2 2), (split_field 4 2), (split_field 6 2), (split_field 8 (ulen - 8)) by lia.
by replace (8 + (ulen - 8)) with ulen by lia.
Qed.

Lemma ip_reassemble l3 ihl total :
  20 <= ihl <= total -> total <= length l3 -> be16 (field 2 2 l3) = Z.of_nat total ->
  l3 = [byte_at 0 l3; byte_at 1 l3] ++ be_bytes 2 (Z.of_nat total) ++ field 4 5 l3 ++ [byte_at 9 l3] ++ field 10 2 l3 ++
       field 12 4 l3 ++ field 16 4 l3 ++ field 20 (ihl - 20) l3 ++ field ihl (total - ihl) l3 ++ drop total l3.
Proof.
intros Hi Ht <-. rewrite be16_field by lia. rewrite <- (drop_0 l3) at 1.
rewrite (byte_at_drop 0), (byte_at_drop 1), (split_field 2 2), (split_field 4 5), (byte_at_drop 9), (split_field 10 2), (split_field 12 4),
  (split_field 16 4), (split_field 20 (ihl - 20)) by lia.
replace (20 + (ihl - 20)) with ihl by lia. rewrite (split_field ihl (total - ihl)) by lia. by replace (ihl + (total - ihl)) with total by lia.
Qed.

Lemma peel_sound frame d : peel frame = Some d -> datagram_wf d /\ frame = frame_bytes d.
Proof.
unfold peel. set (l3 := drop 14 frame). set (vihl := bval (byte_at 0 l3)). set (ihl := Z.to_nat (Z.land vihl 15) * 4).
set (total := Z.to_nat (be16 (field 2 2 l3))). set (l4 := field ihl (total - ihl) l3). set (ulen := Z.to_nat (be16 (field 4 2 l4))). cbv zeta. intros H.
passed_in H. injection H as <-.
assert (length l4 = total - ihl) as L4 by (apply length_field; lia).
assert (be16 (field 2 2 l3) = Z.of_nat total) as Et by (pose proof (be16_u16 (field 2 2 l3) ltac:(apply length_field; lia)); unfold total, u16 in *; lia).
assert (be16 (field 4 2 l4) = Z.of_nat ulen) as Eu by (pose proof (be16_u16 (field 4 2 l4) ltac:(apply length_field; lia)); unfold ulen, u16 in *; lia).
assert (Z.land vihl 15 = vihl mod 16)%Z as El by (apply (Z.land_ones _ 4); lia). pose proof (Z.mod_pos_bound vihl 16 ltac:(lia)).
assert (5 <= Z.land vihl 15 < 16)%Z as Hv by lia.
set (d := mkDatagram _ _ _ _ _ _ _ _ _ _ _ _ _ _).
assert (dg_ihl d = ihl) as Di by (unfold dg_ihl, d; cbn [dg_opts]; rewrite length_field by lia; lia).
assert (dg_udp_len d = ulen) as Du by (unfold dg_udp_len, d; cbn [dg_payload]; rewrite length_field by lia; lia).
assert (dg_total d = total) as Dt by (unfold dg_total; rewrite Di, Du; unfold d; cbn [dg_slack]; rewrite length_drop; lia).
assert (length frame = 14 + length l3) as LF by (unfold l3; rewrite length_drop; lia).
split.
- split; unfold d; cbn [dg_dst_mac dg_src_mac dg_mid dg_csum dg_src_ip dg_dst_ip dg_opts dg_src_port dg_dst_port dg_ucsum];
    try (apply length_field; lia); try (apply be16_u16, length_field; lia).
  + exists (Z.to_nat (Z.land vihl 15) - 5). rewrite length_field by lia. unfold ihl. lia.
  + fold d. rewrite Dt, <- Et. apply be16_u16, length_field. lia.
- unfold frame_bytes, ip_bytes, udp_bytes. rewrite Di, Du, Dt.
  replace (Z.of_nat ihl / 4)%Z with (Z.land vihl 15) by (unfold ihl; rewrite Nat2Z.inj_mul, Z.div_mul by lia; lia).
  unfold d; cbn [dg_dst_mac dg_src_mac dg_mid dg_csum dg_src_ip dg_dst_ip dg_opts dg_src_port dg_dst_port dg_ucsum dg_tos dg_payload dg_slack dg_trailer].
  unfold vihl. rewrite vihl_split by done. fold vihl. rewrite <- udp_reassemble by (done || lia).
  replace IP_PROTO_UDP with (byte_at 9 l3). rewrite <- ip_reassemble by (done || lia).
  replace ETHERTYPE_IPV4 with (be16 (field 12 2 frame)). rewrite be16_field by lia.
  rewrite <- (drop_0 frame) at 1. rewrite (split_field 0 6), (split_field 6 6), (split_field 12 2) by lia. done.
Qed.

(** Peeling succeeds on the frames of the format and on no other, and returns their fields. *)
Lemma peel_exact frame d : peel frame = Some d <-> datagram_wf d /\ frame = frame_bytes d.
Proof. split; [apply peel_sound|]. intros [H ->]. by apply peel_frame. Qed.

(** A frame the builders make is the datagram of its arguments. *)
Definition built (src_mac dst_mac src dst : bytes) (src_port dst_port : Z) (payload : bytes) : datagram :=
  let total := Z.of_nat (20 + (8 + length payload)) in
  mkDatagram dst_mac src_mac x00 [x00; x00; x40; x00; x40]
    (be_bytes 2 (ipv4_checksum (ipv4_front total IP_PROTO_UDP ++ [x00; x00] ++ src ++ dst))) src dst []
    src_port dst_port [x00; x00] payload [] [].

Lemma length_build_udp sp dp payload : length (build_udp sp dp payload) = 8 + length payload.
Proof. unfold build_udp. rewrite !length_app, !length_be_bytes. cbn [length]. lia. Qed.

Lemma build_frame sm dm src dst sp dp payload :
  build_ethernet sm dm ETHERTYPE_IPV4 (build_ipv4 src dst IP_PROTO_UDP (build_udp sp dp payload)) = frame_bytes (built sm dm src dst sp dp payload).
Proof.
unfold build_ethernet, frame_bytes, ip_bytes, udp_bytes, build_ipv4. rewrite length_build_udp.
unfold built, dg_total, dg_ihl, dg_udp_len. cbn [dg_dst_mac dg_src_mac dg_mid dg_csum dg_src_ip dg_dst_ip dg_opts dg_src_port dg_dst_port dg_ucsum dg_tos dg_payload dg_slack dg_trailer].
replace (20 + length (@nil byte) + (8 + length payload) + length (@nil byte)) with (20 + (8 + length payload)) by (cbn [length]; lia).
unfold ipv4_front, build_udp. rewrite !app_nil_r, <- !app_assoc. done.
Qed.

Lemma built_wf sm dm src dst sp dp payload :
  length sm = 6 -> length dm = 6 -> length src = 4 -> length dst = 4 -> u16 sp -> u16 dp ->
  (Z.of_nat (length payload) < 65508)%Z -> datagram_wf (built sm dm src dst sp dp payload).
Proof.
intros. split; cbn [built dg_dst_mac dg_src_mac dg_mid dg_csum dg_src_ip dg_dst_ip dg_opts dg_src_port dg_dst_port dg_ucsum]; try done.
- exists 0. cbn [length]. lia.
- unfold u16, dg_total, dg_ihl, dg_udp_len. cbn [built dg_opts dg_payload dg_slack length]. lia.
Qed.

(** The IP header of a built frame. *)
Lemma build_ethernet_ip sm dm ethertype ip :
  length sm = 6 -> length dm = 6 -> field 14 20 (build_ethernet sm dm ethertype ip) = take 20 ip.
Proof.
intros H1 H2. unfold field, build_ethernet. rewrite !app_assoc. rewrite drop_app_length'; [done|]. rewrite !length_app, length_be_bytes. lia.
Qed.
