(* ===== verification/Dhcp.v ===== *)
(** The embedded DHCP server (crates/lightr-run/src/vswitch/dhcp): the lease store, the
    parser of requests and the builder of replies. *)

From S2P Require Import Prelude Packet.

(** * Constants *)

Definition DHCP_CLIENT_PORT : Z := 68.
Definition DHCP_SERVER_PORT : Z := 67.
Definition BOOTP_FIXED_LEN : nat := 236.
Definition DHCP_MAGIC_COOKIE : Z := 0x63825363.
Definition BOOTREQUEST : byte := x01.
Definition BOOTREPLY : byte := x02.
Definition HTYPE_ETHERNET : byte := x01.
Definition HLEN_ETHERNET : byte := x06.
Definition BOOTP_FLAG_BROADCAST : Z := 0x8000.
Definition OPT_PAD : byte := x00.
Definition OPT_SUBNET_MASK : byte := x01.
Definition OPT_ROUTER : byte := x03.
Definition OPT_DNS : byte := x06.
Definition OPT_LEASE_TIME : byte := x33.
Definition OPT_MESSAGE_TYPE : byte := x35.
Definition OPT_SERVER_ID : byte := x36.
Definition OPT_END : byte := xff.
Definition DHCP_DISCOVER : byte := x01.
Definition DHCP_OFFER : byte := x02.
Definition DHCP_REQUEST : byte := x03.
Definition DHCP_ACK : byte := x05.
Definition LEASE_SECS : Z := 3600.
Definition GATEWAY_MAC : bytes := [x02; x00; x00; x00; x00; x01].
Definition BROADCAST_MAC : bytes := replicate 6 xff.
Definition BROADCAST_IP : bytes := replicate 4 xff.

(** * Data *)

Record Subnet := mkSubnet { base : bytes; prefix : Z; gateway : bytes }.

Abbreviation LeaseStore := (gmap bytes bytes).

Definition lease_insert (leases : LeaseStore) (mac ip : bytes) : LeaseStore := <[mac := ip]> leases.
Definition lease_get (leases : LeaseStore) (mac : bytes) : option bytes := leases !! mac.

Record DhcpRequest := mkDhcpRequest {
  chaddr : bytes; xid : bytes; secs : bytes; broadcast : bool; giaddr : bytes; msg_type : byte }.

(** * Parsing *)

(** The walk over the options; each turn consumes at least one byte. *)
Fixpoint option_53_go (fuel : nat) (options : bytes) : option byte :=
  match fuel with
  | O => None
  | S fuel =>
      match options with
      | [] => None
      | code :: r =>
          if bool_decide (code = OPT_END) then None
          else if bool_decide (code = OPT_PAD) then option_53_go fuel r
          else
            match r with
            | [] => None
            | len_byte :: r =>
                let len := Z.to_nat (bval len_byte) in
                if bool_decide (length r < len) then None
                else if bool_decide (code = OPT_MESSAGE_TYPE)
                then if negb (bool_decide (len = 1)) then None else head r
                else option_53_go fuel (drop len r)
            end
      end
  end.

Definition parse_option_53 (options : bytes) : option byte := option_53_go (length options) options.

Definition parse_bootp (bootp : bytes) : option DhcpRequest :=
  if bool_decide (length bootp < BOOTP_FIXED_LEN + 4) then None else
  let op := byte_at 0 bootp in
  let htype := byte_at 1 bootp in
  let hlen := byte_at 2 bootp in
  if negb (bool_decide (op = BOOTREQUEST)) || negb (bool_decide (htype = HTYPE_ETHERNET))
     || negb (bool_decide (hlen = HLEN_ETHERNET)) then None else
  let xid := field 4 4 bootp in
  let secs := field 8 2 bootp in
  let flags := be16 (field 10 2 bootp) in
  let broadcast := negb (Z.land flags BOOTP_FLAG_BROADCAST =? 0)%Z in
  let giaddr := field 24 4 bootp in
  let chaddr := field 28 6 bootp in
  if negb (be32 (field BOOTP_FIXED_LEN 4 bootp) =? DHCP_MAGIC_COOKIE)%Z then None else
  let options := drop (BOOTP_FIXED_LEN + 4) bootp in
  msg_type ← parse_option_53 options;
  Some (mkDhcpRequest chaddr xid secs broadcast giaddr msg_type).

Definition parse_dhcp (frame : bytes) : option DhcpRequest :=
  if bool_decide (length frame < 14) then None else
  let ethertype := be16 (field 12 2 frame) in
  if negb (ethertype =? ETHERTYPE_IPV4)%Z then None else
  let l3 := drop 14 frame in
  if bool_decide (length l3 < 20) then None else
  let version := Z.shiftr (bval (byte_at 0 l3)) 4 in
  let ihl_words := Z.land (bval (byte_at 0 l3)) 15 in
  if negb (version =? 4)%Z || (ihl_words <? 5)%Z then None else
  let ip_hdr_len := Z.to_nat ihl_words * 4 in
  if bool_decide (length l3 < ip_hdr_len) then None else
  if negb (bool_decide (byte_at 9 l3 = IP_PROTO_UDP)) then None else
  let total_len := Z.to_nat (be16 (field 2 2 l3)) in
  if bool_decide (total_len < ip_hdr_len) || bool_decide (length l3 < total_len) then None else
  let l4 := field ip_hdr_len (total_len - ip_hdr_len) l3 in
  if bool_decide (length l4 < 8) then None else
  let src_port := be16 (field 0 2 l4) in
  let dst_port := be16 (field 2 2 l4) in
  if negb (src_port =? DHCP_CLIENT_PORT)%Z || negb (dst_port =? DHCP_SERVER_PORT)%Z then None else
  let udp_len := Z.to_nat (be16 (field 4 2 l4)) in
  if bool_decide (udp_len < 8) || bool_decide (length l4 < udp_len) then None else
  let bootp := field 8 (udp_len - 8) l4 in
  parse_bootp bootp.

(** * Building *)

Definition push_opt (buf : bytes) (code : byte) (value : bytes) : bytes :=
  buf ++ [code; byte_of_Z (Z.of_nat (length value))] ++ value.

Definition build_bootp_reply (req : DhcpRequest) (reply_type : byte) (yiaddr : bytes) (subnet : Subnet) (dns_ip : bytes) : bytes :=
  let flags := if broadcast req then BOOTP_FLAG_BROADCAST else 0%Z in
  let b := [BOOTREPLY; HTYPE_ETHERNET; HLEN_ETHERNET; x00] ++ xid req ++ secs req ++ be_bytes 2 flags ++ replicate 4 x00 ++
           yiaddr ++ gateway subnet ++ giaddr req ++ chaddr req ++ replicate 202 x00 in
  let b := b ++ be_bytes 4 DHCP_MAGIC_COOKIE in
  let b := push_opt b OPT_MESSAGE_TYPE [reply_type] in
  let b := push_opt b OPT_SERVER_ID (gateway subnet) in
  let b := push_opt b OPT_LEASE_TIME (be_bytes 4 LEASE_SECS) in
  let b := push_opt b OPT_SUBNET_MASK (prefix_to_mask (prefix subnet)) in
  let b := push_opt b OPT_ROUTER (gateway subnet) in
  let b := push_opt b OPT_DNS dns_ip in
  b ++ [OPT_END].

Definition build_reply (req : DhcpRequest) (reply_type : byte) (yiaddr : bytes) (subnet : Subnet) (dns_ip : bytes) : bytes :=
  let bootp := build_bootp_reply req reply_type yiaddr subnet dns_ip in
  let dst_mac := if broadcast req then BROADCAST_MAC else chaddr req in
  let dst_ip := if broadcast req then BROADCAST_IP else yiaddr in
  let src_ip := gateway subnet in
  let udp := build_udp DHCP_SERVER_PORT DHCP_CLIENT_PORT bootp in
  let ip := build_ipv4 src_ip dst_ip IP_PROTO_UDP udp in
  build_ethernet GATEWAY_MAC dst_mac ETHERTYPE_IPV4 ip.

(** * The handler *)

Definition dhcp_handle (frame : bytes) (leases : LeaseStore) (subnet : Subnet) (dns_ip : bytes) : option bytes :=
  req ← parse_dhcp frame;
  reply_type ← (if bool_decide (msg_type req = DHCP_DISCOVER) then Some DHCP_OFFER
                else if bool_decide (msg_type req = DHCP_REQUEST) then Some DHCP_ACK else None);
  yiaddr ← lease_get leases (chaddr req);
  Some (build_reply req reply_type yiaddr subnet dns_ip).

(** * The format of requests *)

(** The options before the message type: pads, and options that are neither a pad, the end
    nor the message type. *)
Inductive opt := Pad | Tlv (code : byte) (value : bytes).

Definition opt_bytes (o : opt) : bytes :=
  match o with
  | Pad => [OPT_PAD]
  | Tlv code value => code :: byte_of_Z (Z.of_nat (length value)) :: value
  end.

Definition opt_other (o : opt) : Prop :=
  match o with
  | Pad => True
  | Tlv code value => code <> OPT_PAD /\ code <> OPT_END /\ code <> OPT_MESSAGE_TYPE /\ length value < 256
  end.

Definition opts_bytes (os : list opt) : bytes := mjoin (opt_bytes <$> os).

Record bootp_msg := mkBootp {
  bm_hops : byte; bm_xid : bytes; bm_secs : bytes; bm_flags : Z; bm_addrs : bytes; bm_giaddr : bytes; bm_chaddr : bytes;
  bm_rest : bytes; bm_opts : list opt; bm_type : byte; bm_tail : bytes }.

Record bootp_wf (m : bootp_msg) : Prop := {
  bw_xid : length (bm_xid m) = 4; bw_secs : length (bm_secs m) = 2; bw_flags : u16 (bm_flags m);
  bw_addrs : length (bm_addrs m) = 12; bw_giaddr : length (bm_giaddr m) = 4; bw_chaddr : length (bm_chaddr m) = 6;
  bw_rest : length (bm_rest m) = 202; bw_opts : Forall opt_other (bm_opts m) }.

Definition bootp_bytes (m : bootp_msg) : bytes :=
  [BOOTREQUEST; HTYPE_ETHERNET; HLEN_ETHERNET; bm_hops m] ++ bm_xid m ++ bm_secs m ++ be_bytes 2 (bm_flags m) ++ bm_addrs m ++
  bm_giaddr m ++ bm_chaddr m ++ bm_rest m ++ be_bytes 4 DHCP_MAGIC_COOKIE ++
  opts_bytes (bm_opts m) ++ [OPT_MESSAGE_TYPE; x01; bm_type m] ++ bm_tail m.

(** What the server reads of it: the high bit of the flags asks for a broadcast. *)
Definition request_of (m : bootp_msg) : DhcpRequest :=
  mkDhcpRequest (bm_chaddr m) (bm_xid m) (bm_secs m) (Z.testbit (bm_flags m) 15) (bm_giaddr m) (bm_type m).

(** ** Options *)

Lemma bval_len (value : bytes) : length value < 256 -> Z.to_nat (bval (byte_of_Z (Z.of_nat (length value)))) = length value.
Proof. intros H. rewrite bval_byte_of_Z, Z.mod_small; lia. Qed.

Lemma option_53_find fuel os t rest :
  Forall opt_other os -> length (opts_bytes os ++ [OPT_MESSAGE_TYPE; x01; t] ++ rest) <= fuel ->
  option_53_go fuel (opts_bytes os ++ [OPT_MESSAGE_TYPE; x01; t] ++ rest) = Some t.
Proof.
intros Hos. revert fuel. induction Hos as [|o os Ho Hos IH]; intros [|fuel] Hf; [simpl in Hf; lia|reflexivity|simpl in Hf; rewrite length_app in Hf; simpl in Hf; lia|].
unfold opts_bytes in *. rewrite fmap_cons, join_cons in *. rewrite <- !app_assoc in *. rewrite !length_app in Hf.
destruct o as [|code value].
- cbn [opt_bytes app option_53_go]. rewrite bool_decide_false, bool_decide_true by done. apply IH. rewrite !length_app. cbn [opt_bytes length] in *. lia.
- destruct Ho as (Hp & He & Hm & Hlen). cbn [opt_bytes app option_53_go]. rewrite !bool_decide_false by done.
  rewrite bval_len by done. rewrite bool_decide_false by (rewrite length_app; lia). rewrite (bool_decide_false (code = _)) by done. rewrite drop_app_length. apply IH. rewrite !length_app. cbn [opt_bytes length] in *. lia.
Qed.

Lemma option_53_found fuel options t :
  option_53_go fuel options = Some t ->
  exists os rest, Forall opt_other os /\ options = opts_bytes os ++ [OPT_MESSAGE_TYPE; x01; t] ++ rest.
Proof.
revert options. induction fuel as [|fuel IH]; intros options H; [done|]. destruct options as [|code r]; [done|]. cbn [option_53_go] in H.
case_bool_decide; [done|]. case_bool_decide.
{ subst. destruct (IH _ H) as (os & rest & Hos & ->). exists (Pad :: os), rest. split; [by constructor|]. done. }
destruct r as [|lb r]; [done|]. case_bool_decide; [done|]. case_bool_decide.
- subst. case_bool_decide as Hl; [|done]. destruct r as [|t' r]; [done|]. injection H as ->. exists [], r. split; [done|].
  cbn. do 2 f_equal. apply bval_inj. change (bval x01) with 1%Z. lia.
- destruct (IH _ H) as (os & rest & Hos & E). set (n := Z.to_nat (bval lb)) in *. exists (Tlv code (take n r) :: os), rest.
  pose proof (bval_range lb). assert (length (take n r) = n) as Ln by (rewrite length_take; lia). split.
  + constructor; [|done]. repeat split; try done. rewrite Ln. lia.
  + unfold opts_bytes. rewrite fmap_cons, join_cons. fold (opts_bytes os). rewrite <- app_assoc, <- E. cbn [opt_bytes app]. rewrite Ln.
    do 2 f_equal; [|by rewrite take_drop]. unfold n. rewrite Z2Nat.id, byte_of_Z_bval; [done|lia].
Qed.

Lemma parse_option_53_exact options t :
  parse_option_53 options = Some t <->
  exists os rest, Forall opt_other os /\ options = opts_bytes os ++ [OPT_MESSAGE_TYPE; x01; t] ++ rest.
Proof.
split; [apply option_53_found|]. intros (os & rest & Hos & ->). by apply option_53_find.
Qed.

(** ** Messages *)

Lemma be_val_cookie : be_val (be_bytes 4 DHCP_MAGIC_COOKIE) = DHCP_MAGIC_COOKIE.
Proof. reflexivity. Qed.

Lemma parse_bootp_bytes m : bootp_wf m -> parse_bootp (bootp_bytes m) = Some (request_of m).
Proof.
intros [H1 H2 H3 H4 H5 H6 H7 H8]. unfold bootp_bytes.
set (opts := opts_bytes (bm_opts m) ++ [OPT_MESSAGE_TYPE; x01; bm_type m] ++ bm_tail m).
assert (parse_option_53 opts = Some (bm_type m)) as Ho by (by apply option_53_find). clearbody opts.
set (fixed := [BOOTREQUEST; HTYPE_ETHERNET; HLEN_ETHERNET; bm_hops m] ++ bm_xid m ++ bm_secs m ++ be_bytes 2 (bm_flags m) ++ bm_addrs m ++ bm_giaddr m ++ bm_chaddr m ++ bm_rest m).
replace (_ ++ _) with (fixed ++ be_bytes 4 DHCP_MAGIC_COOKIE ++ opts) by (unfold fixed; by rewrite <- !app_assoc).
assert (length fixed = 236) as Hf by (unfold fixed; rewrite !length_app, length_be_bytes; cbn [length]; lia).
unfold parse_bootp. rewrite bool_decide_false by (rewrite !length_app, Hf, length_be_bytes; unfold BOOTP_FIXED_LEN; lia).
unfold BOOTP_FIXED_LEN. rewrite (field_app 236) by (done || apply length_be_bytes). unfold be32. rewrite take_ge by (by rewrite length_be_bytes). rewrite be_val_cookie.
rewrite app_assoc, drop_app_length' by (by rewrite length_app, Hf, length_be_bytes). rewrite Ho. unfold fixed, request_of. rewrite <- !app_assoc.
unfold BOOTP_FLAG_BROADCAST. rewrite <- high_bit.
replace (Z.land (bm_flags m) _) with (Z.land (be_val (be_bytes 2 (bm_flags m))) 0x8000) by (by rewrite be_val_u16).
pose proof (length_be_bytes 2 (bm_flags m)) as Hb.
generalize (bm_rest m ++ be_bytes 4 DHCP_MAGIC_COOKIE ++ opts). intros r. explode H1. explode H2. explode H4. explode H5. explode H6. explode Hb. reflexivity.
Qed.

Lemma bootp_reassemble b :
  240 <= length b ->
  b = [byte_at 0 b; byte_at 1 b; byte_at 2 b; byte_at 3 b] ++ field 4 4 b ++ field 8 2 b ++ field 10 2 b ++ field 12 12 b ++
      field 24 4 b ++ field 28 6 b ++ field 34 202 b ++ field 236 4 b ++ drop 240 b.
Proof.
intros H. rewrite <- (drop_0 b) at 1.
rewrite (byte_at_drop 0), (byte_at_drop 1), (byte_at_drop 2), (byte_at_drop 3), (split_field 4 4), (split_field 8 2), (split_field 10 2), (split_field 12 12),
  (split_field 24 4), (split_field 28 6), (split_field 34 202), (split_field 236 4) by lia. done.
Qed.

Lemma parse_bootp_exact b req : parse_bootp b = Some req <-> exists m, bootp_wf m /\ b = bootp_bytes m /\ req = request_of m.
Proof.
split; [|intros (m & Hm & -> & ->); by apply parse_bootp_bytes].
unfold parse_bootp. cbv zeta. unfold BOOTP_FIXED_LEN. intros H. passed_in H.
destruct (parse_option_53 _) as [t|] eqn:Ho; [|done]. apply parse_option_53_exact in Ho as (os & rest & Hos & Ed). injection H as <-.
assert (be_bytes 4 DHCP_MAGIC_COOKIE = field 236 4 b) as Ec.
{ replace DHCP_MAGIC_COOKIE with (be32 (field 236 4 b)). unfold be32. rewrite take_ge by (rewrite length_field; lia).
  apply be_bytes_be_val, length_field. lia. }
exists (mkBootp (byte_at 3 b) (field 4 4 b) (field 8 2 b) (be16 (field 10 2 b)) (field 12 12 b) (field 24 4 b) (field 28 6 b) (field 34 202 b) os t rest).
assert (u16 (be16 (field 10 2 b))) as Hu by (apply be16_u16, length_field; lia). split; [|split].
- split; cbn [bm_xid bm_secs bm_flags bm_addrs bm_giaddr bm_chaddr bm_rest bm_opts]; try (apply length_field; lia); done.
- unfold bootp_bytes. cbn [bm_hops bm_xid bm_secs bm_flags bm_addrs bm_giaddr bm_chaddr bm_rest bm_opts bm_type bm_tail].
  rewrite be16_field by lia. rewrite Ec. rewrite (bootp_reassemble b) at 1 by lia. change (236 + 4) with 240 in Ed. rewrite Ed. congruence.
- unfold request_of. cbn [bm_hops bm_xid bm_secs bm_flags bm_addrs bm_giaddr bm_chaddr bm_rest bm_opts bm_type bm_tail]. unfold BOOTP_FLAG_BROADCAST. by rewrite high_bit.
Qed.

(** The parser is peeling, the two ports, and the message. *)
Lemma parse_dhcp_peel frame :
  parse_dhcp frame =
  match peel frame with
  | Some d => if (dg_src_port d =? DHCP_CLIENT_PORT)%Z && (dg_dst_port d =? DHCP_SERVER_PORT)%Z then parse_bootp (dg_payload d) else None
  | None => None
  end.
Proof.
unfold parse_dhcp, peel. cbv zeta.
set (l3 := drop 14 frame). set (vihl := bval (byte_at 0 l3)). set (ihl := Z.to_nat (Z.land vihl 15) * 4).
set (total := Z.to_nat (be16 (field 2 2 l3))). set (l4 := field ihl (total - ihl) l3). set (ulen := Z.to_nat (be16 (field 4 2 l4))).
assert ((Z.land vihl 15 <? 5)%Z = bool_decide (ihl < 20)) as ->.
{ unfold ihl. assert (0 <= Z.land vihl 15)%Z by (apply Z.land_nonneg; lia). case_bool_decide; lia. }
destruct (bool_decide (length frame < 14)); [done|]. destruct (negb (be16 (field 12 2 frame) =? ETHERTYPE_IPV4)%Z); [done|].
destruct (bool_decide (length l3 < 20)); [done|]. destruct (negb (Z.shiftr vihl 4 =? 4)%Z), (bool_decide (ihl < 20)); cbn [orb]; try done.
destruct (bool_decide (length l3 < ihl)); [done|]. destruct (negb _); [done|]. destruct (_ || _); [done|]. destruct (bool_decide (length l4 < 8)); [done|].
destruct (bool_decide (ulen < 8) || bool_decide (length l4 < ulen)); [by destruct (_ || _)|].
cbn [dg_src_port dg_dst_port dg_payload].
by destruct (be16 (field 0 2 l4) =? DHCP_CLIENT_PORT)%Z, (be16 (field 2 2 l4) =? DHCP_SERVER_PORT)%Z.
Qed.

(** ** The parser and the handler are exact *)

Definition dhcp_frame (frame : bytes) (m : bootp_msg) : Prop :=
  exists d, datagram_wf d /\ frame = frame_bytes d /\ dg_src_port d = DHCP_CLIENT_PORT /\ dg_dst_port d = DHCP_SERVER_PORT /\
    bootp_wf m /\ dg_payload d = bootp_bytes m.

Lemma parse_dhcp_exact frame req : parse_dhcp frame = Some req <-> exists m, dhcp_frame frame m /\ req = request_of m.
Proof.
rewrite parse_dhcp_peel. split.
- destruct (peel frame) as [d|] eqn:Hp; [|done]. apply peel_exact in Hp as [Hwf ->].
  destruct (Z.eqb_spec (dg_src_port d) DHCP_CLIENT_PORT), (Z.eqb_spec (dg_dst_port d) DHCP_SERVER_PORT); try done.
  cbn [andb]. intros (m & Hm & Hb & ->)%parse_bootp_exact. exists m. split; [|done]. by exists d.
- intros (m & (d & Hwf & -> & Hs & Hd & Hm & Hp) & ->). rewrite peel_frame by done. rewrite Hs, Hd, Hp. by apply parse_bootp_bytes.
Qed.

Definition reply_to (t : byte) : option byte :=
  if bool_decide (t = DHCP_DISCOVER) then Some DHCP_OFFER else if bool_decide (t = DHCP_REQUEST) then Some DHCP_ACK else None.

(** The server answers the DHCP requests of the wire format and nothing else: the
    frame is an IPv4/UDP datagram from port 68 to port 67, with any IP options and any
    padding, that carries a BOOTREQUEST with the magic cookie and, before any end marker
    and any malformed option, a message type; the type is DISCOVER (answered OFFER) or
    REQUEST (answered ACK); and the client address has a lease, which is what the reply
    gives out. *)
Theorem dhcp_handle_exact frame leases subnet dns_ip reply :
  dhcp_handle frame leases subnet dns_ip = Some reply <->
  exists m t ip, dhcp_frame frame m /\ reply_to (bm_type m) = Some t /\ leases !! bm_chaddr m = Some ip /\
    reply = build_reply (request_of m) t ip subnet dns_ip.
Proof.
unfold dhcp_handle, lease_get. split.
- destruct (parse_dhcp frame) as [req|] eqn:Hp; [|done]. apply parse_dhcp_exact in Hp as (m & Hm & ->). cbn [mbind option_bind].
  change (msg_type (request_of m)) with (bm_type m). fold (reply_to (bm_type m)). destruct (reply_to (bm_type m)) as [t|] eqn:Ht; [|done]. cbn [mbind option_bind].
  change (chaddr (request_of m)) with (bm_chaddr m). destruct (leases !! bm_chaddr m) as [ip|] eqn:Hl; [|done]. intros [= <-]. by exists m, t, ip.
- intros (m & t & ip & Hf & Ht & Hl & ->). rewrite (proj2 (parse_dhcp_exact frame (request_of m))) by (by exists m). cbn [mbind option_bind].
  change (msg_type (request_of m)) with (bm_type m). fold (reply_to (bm_type m)). rewrite Ht. cbn [mbind option_bind].
  change (chaddr (request_of m)) with (bm_chaddr m). by rewrite Hl.
Qed.

(** ** Replies *)

(** The options of a reply. *)
Definition reply_opts (t : byte) (subnet : Subnet) (dns_ip : bytes) : list opt :=
  [Tlv OPT_MESSAGE_TYPE [t]; Tlv OPT_SERVER_ID (gateway subnet); Tlv OPT_LEASE_TIME (be_bytes 4 LEASE_SECS);
   Tlv OPT_SUBNET_MASK (prefix_to_mask (prefix subnet)); Tlv OPT_ROUTER (gateway subnet); Tlv OPT_DNS dns_ip].

Lemma length_prefix_to_mask p : length (prefix_to_mask p) = 4.
Proof. apply length_be_bytes. Qed.

Definition mask_ok (p : Z) : bool := (be_val (prefix_to_mask p) =? 2 ^ 32 - 2 ^ (32 - p))%Z.

Lemma prefix_to_mask_val p : (0 <= p <= 32)%Z -> be_val (prefix_to_mask p) = (2 ^ 32 - 2 ^ (32 - p))%Z.
Proof.
intros H. assert (forallb mask_ok (seqZ 0 33) = true) as Hall by (vm_compute; reflexivity). rewrite forallb_forall in Hall.
apply Z.eqb_eq, Hall, list_elem_of_In, elem_of_seqZ. lia.
Qed.

Lemma push_opt_bytes b code value : push_opt b code value = b ++ opt_bytes (Tlv code value).
Proof. reflexivity. Qed.

Lemma build_bootp_reply_bytes req t ip subnet dns_ip :
  build_bootp_reply req t ip subnet dns_ip =
  [BOOTREPLY; HTYPE_ETHERNET; HLEN_ETHERNET; x00] ++ xid req ++ secs req ++
  be_bytes 2 (if broadcast req then BOOTP_FLAG_BROADCAST else 0%Z) ++ replicate 4 x00 ++ ip ++ gateway subnet ++ giaddr req ++
  chaddr req ++ replicate 202 x00 ++ be_bytes 4 DHCP_MAGIC_COOKIE ++ opts_bytes (reply_opts t subnet dns_ip) ++ [OPT_END].
Proof.
unfold build_bootp_reply. cbv zeta. rewrite !push_opt_bytes. unfold opts_bytes, reply_opts. rewrite !fmap_cons, !join_cons, fmap_nil.
cbn [mjoin list_join app]. rewrite app_nil_r, <- !app_assoc. done.
Qed.

Lemma length_reply_opts t subnet dns_ip :
  length (gateway subnet) = 4 -> length dns_ip = 4 -> length (opts_bytes (reply_opts t subnet dns_ip)) = 33.
Proof.
intros Hg Hd. unfold opts_bytes, reply_opts. rewrite !fmap_cons, !join_cons, fmap_nil. rewrite !length_app. cbn [opt_bytes length mjoin list_join].
rewrite length_be_bytes, length_prefix_to_mask. lia.
Qed.

Record request_wf (req : DhcpRequest) : Prop := {
  rw_chaddr : length (chaddr req) = 6; rw_xid : length (xid req) = 4; rw_secs : length (secs req) = 2; rw_giaddr : length (giaddr req) = 4 }.

Lemma length_build_bootp_reply req t ip subnet dns_ip :
  request_wf req -> length ip = 4 -> length (gateway subnet) = 4 -> length dns_ip = 4 ->
  length (build_bootp_reply req t ip subnet dns_ip) = 274.
Proof.
intros [? ? ? ?] ? ? ?. rewrite build_bootp_reply_bytes. rewrite !length_app, length_reply_opts, !length_be_bytes, !length_replicate by done. cbn [length]. lia.
Qed.

Lemma build_reply_peel req t ip subnet dns_ip :
  request_wf req -> length ip = 4 -> length (gateway subnet) = 4 -> length dns_ip = 4 ->
  let d := built GATEWAY_MAC (if broadcast req then BROADCAST_MAC else chaddr req) (gateway subnet) (if broadcast req then BROADCAST_IP else ip)
             DHCP_SERVER_PORT DHCP_CLIENT_PORT (build_bootp_reply req t ip subnet dns_ip) in
  build_reply req t ip subnet dns_ip = frame_bytes d /\ datagram_wf d.
Proof.
intros Hr Hi Hg Hd. split; [apply build_frame|]. apply built_wf; try done.
- destruct (broadcast req); [done|apply Hr].
- by destruct (broadcast req).
- rewrite length_build_bootp_reply by done. lia.
Qed.

Lemma bootp_reply_fields req t ip subnet dns_ip :
  request_wf req -> length ip = 4 -> length (gateway subnet) = 4 ->
  let b := build_bootp_reply req t ip subnet dns_ip in
  byte_at 0 b = BOOTREPLY /\ field 4 4 b = xid req /\ field 8 2 b = secs req /\
  field 10 2 b = (if broadcast req then [x80; x00] else [x00; x00]) /\ field 16 4 b = ip /\ field 20 4 b = gateway subnet /\
  field 24 4 b = giaddr req /\ field 28 6 b = chaddr req /\ field 236 4 b = be_bytes 4 DHCP_MAGIC_COOKIE /\
  drop 240 b = opts_bytes (reply_opts t subnet dns_ip) ++ [OPT_END].
Proof.
intros [H1 H2 H3 H4] Hi Hg. cbv zeta. rewrite build_bootp_reply_bytes. generalize (opts_bytes (reply_opts t subnet dns_ip) ++ [OPT_END]). intros r.
explode H1. explode H2. explode H3. explode H4. explode Hi. explode Hg. by destruct (broadcast req).
Qed.

Lemma request_of_wf m : bootp_wf m -> request_wf (request_of m).
Proof. intros []. by split. Qed.

(** A reply is a datagram a client accepts: 316 bytes with a correct IP header
    checksum, from the gateway on port 67 to port 68, broadcast exactly when the client's
    flag asks for it and otherwise to the client; it echoes the transaction, the flag, the
    relay and the client address, gives out the lease, and its options are the message
    type, the server, one hour, the netmask of the subnet's prefix, the router and the
    name server.  Served back to the server it is not answered. *)
Theorem dhcp_reply_valid frame m t ip subnet dns_ip leases :
  dhcp_frame frame m -> length ip = 4 -> length (gateway subnet) = 4 -> length dns_ip = 4 -> (0 <= prefix subnet <= 32)%Z ->
  let req := request_of m in
  let reply := build_reply req t ip subnet dns_ip in
  length reply = 316 /\ fold16 3 (sum16 (field 14 20 reply)) = 65535%Z /\
  (exists d, peel reply = Some d /\ dg_src_mac d = GATEWAY_MAC /\ dg_src_ip d = gateway subnet /\
     (dg_src_port d, dg_dst_port d) = (DHCP_SERVER_PORT, DHCP_CLIENT_PORT) /\
     (dg_dst_mac d, dg_dst_ip d) = (if Z.testbit (bm_flags m) 15 then (BROADCAST_MAC, BROADCAST_IP) else (bm_chaddr m, ip)) /\
     let b := dg_payload d in
     byte_at 0 b = BOOTREPLY /\ field 4 4 b = bm_xid m /\ field 8 2 b = bm_secs m /\
     field 10 2 b = (if Z.testbit (bm_flags m) 15 then [x80; x00] else [x00; x00]) /\
     field 16 4 b = ip /\ field 20 4 b = gateway subnet /\ field 24 4 b = bm_giaddr m /\ field 28 6 b = bm_chaddr m /\
     field 236 4 b = be_bytes 4 DHCP_MAGIC_COOKIE /\ drop 240 b = opts_bytes (reply_opts t subnet dns_ip) ++ [OPT_END]) /\
  be_val (prefix_to_mask (prefix subnet)) = (2 ^ 32 - 2 ^ (32 - prefix subnet))%Z /\
  dhcp_handle reply leases subnet dns_ip = None.
Proof.
intros (d0 & _ & _ & _ & _ & Hm & _) Hi Hg Hd Hp. pose proof (request_of_wf m Hm) as Hr. cbv zeta.
destruct (build_reply_peel (request_of m) t ip subnet dns_ip Hr Hi Hg Hd) as [Eb Hwf]. cbv zeta in Eb, Hwf.
pose proof (length_build_bootp_reply (request_of m) t ip subnet dns_ip Hr Hi Hg Hd) as Lb.
split; [|split; [|split; [|split]]].
- unfold build_reply, build_ethernet, build_ipv4, ipv4_front. rewrite !length_app, length_build_udp, !length_be_bytes, Lb, Hg. cbn [length].
  destruct (broadcast _); [reflexivity|]. rewrite Hi. destruct Hr as [-> _ _ _]. reflexivity.
- unfold build_reply. cbv zeta. rewrite build_ethernet_ip; [|done|destruct (broadcast _); [done|apply Hr]]. apply build_ipv4_checksum; [done|by destruct (broadcast _)].
- eexists. rewrite Eb. split; [by apply peel_frame|]. cbn [built dg_src_mac dg_src_ip dg_src_port dg_dst_port dg_dst_mac dg_dst_ip dg_payload].
  change (broadcast (request_of m)) with (Z.testbit (bm_flags m) 15). do 3 (split; [done|]). split; [by destruct (Z.testbit _ _)|]. by apply (bootp_reply_fields (request_of m)).
- by apply prefix_to_mask_val.
- unfold dhcp_handle. rewrite parse_dhcp_peel, Eb, peel_frame by done. done.
Qed.

(** ** A client's DISCOVER *)

Definition sample_msg : bootp_msg :=
  mkBootp x00 [xde; xad; xbe; xef] [x00; x02] 0x8000 (replicate 12 x00) (replicate 4 x00) [x52; x55; x0a; x45; x00; x02] (replicate 202 x00)
    [Tlv x0c (str "web"); Pad] DHCP_DISCOVER [OPT_END].

Definition sample_frame : bytes :=
  frame_bytes (built [x52; x55; x0a; x45; x00; x02] BROADCAST_MAC (replicate 4 x00) BROADCAST_IP DHCP_CLIENT_PORT DHCP_SERVER_PORT (bootp_bytes sample_msg)).

Definition sample_subnet : Subnet := mkSubnet [x0a; x45; x00; x00] 24 [x0a; x45; x00; x01].

Lemma sample_dhcp_frame : dhcp_frame sample_frame sample_msg.
Proof.
eexists. split; [|split; [reflexivity|]].
- apply built_wf; reflexivity || by_eval.
- do 2 (split; [reflexivity|]). split; [|reflexivity]. split; try reflexivity; [by_eval|]. repeat constructor; try done; by_eval.
Qed.

Example sample_offered :
  exists reply, dhcp_handle sample_frame {[ [x52; x55; x0a; x45; x00; x02] := [x0a; x45; x00; x02] ]} sample_subnet (gateway sample_subnet) = Some reply /\
    field 58 4 reply = [x0a; x45; x00; x02] /\ dhcp_handle sample_frame ∅ sample_subnet (gateway sample_subnet) = None.
Proof. eexists. split; [vm_compute; reflexivity|]. split; vm_compute; reflexivity. Qed.

Lemma dhcp_reply_valid_witness :
  dhcp_frame sample_frame sample_msg /\
  length (build_reply (request_of sample_msg) DHCP_OFFER [x0a; x45; x00; x02] sample_subnet [x0a; x45; x00; x01]) = 316.
Proof.
split; [exact sample_dhcp_frame|].
apply (dhcp_reply_valid sample_frame sample_msg DHCP_OFFER [x0a; x45; x00; x02] sample_subnet [x0a; x45; x00; x01] ∅ sample_dhcp_frame);
  try reflexivity. by_eval.
Defined.
