(* ===== verification/Dns.v ===== *)
(** The embedded DNS responder (crates/lightr-run/src/vswitch/dns): the parser of queries,
    the answers from the name table, and the relay of what the table does not own.  The
    exchange with the host's resolver is an argument. *)

From S2P Require Import Prelude Text Packet.

(** * Constants *)

Definition DNS_PORT : Z := 53.
Definition DNS_HDR_LEN : nat := 12.
Definition QTYPE_A : Z := 1.
Definition QCLASS_IN : Z := 1.
Definition ANSWER_TTL : Z := 60.

(** * Data *)

(** Names are strings, as their UTF-8 bytes. *)
Abbreviation NameTable := (gmap bytes bytes).

Record ParsedQuery := mkParsedQuery {
  src_mac : bytes; dst_mac : bytes; src_ip : bytes; dst_ip : bytes; src_port : Z;
  qid : Z; qname : bytes; qtype : Z; qclass : Z; question : bytes }.

(** * Parsing *)

(** [name.push(b as char)]: the code point [b], one byte of UTF-8 below 128 and two above. *)
Definition push_char (name : bytes) (b : byte) : bytes :=
  name ++ (if (bval b <? 128)%Z then [b]
           else [byte_of_Z (192 + Z.shiftr (bval b) 6); byte_of_Z (128 + Z.land (bval b) 63)]).

Fixpoint qname_go (fuel : nat) (dns name : bytes) (pos : nat) : option (bytes * nat) :=
  match fuel with
  | O => None
  | S fuel =>
      lb ← dns !! pos;
      let len := bval lb in
      if (len =? 0)%Z then Some (name, pos + 1) else
      if negb (Z.land len 0xc0 =? 0)%Z then None else
      let pos := pos + 1 in
      let len := Z.to_nat len in
      if bool_decide (length dns < pos + len) then None else
      let label := field pos len dns in
      let name := match name with [] => name | _ => name ++ str "." end in
      let name := fold_left push_char label name in
      let pos := pos + len in
      if bool_decide (255 < length name) then None else qname_go fuel dns name pos
  end.

(** Each turn moves past at least one byte. *)
Definition parse_qname (dns : bytes) (start : nat) : option (bytes * nat) := qname_go (S (length dns)) dns [] start.

Definition parse_query (frame : bytes) : option ParsedQuery :=
  if bool_decide (length frame < 14) then None else
  let dst_mac := field 0 6 frame in
  let src_mac := field 6 6 frame in
  ethertype ← read_u16 frame 12;
  if negb (ethertype =? ETHERTYPE_IPV4)%Z then None else
  let ip := drop 14 frame in
  vihl ← head ip;
  if negb (Z.shiftr (bval vihl) 4 =? 4)%Z then None else
  let ihl := Z.to_nat (Z.land (bval vihl) 15) * 4 in
  if bool_decide (ihl < 20) || bool_decide (length ip < ihl) then None else
  if negb (bool_decide (byte_at 9 ip = IP_PROTO_UDP)) then None else
  ip_total ← Z.to_nat <$> read_u16 ip 2;
  if bool_decide (ip_total < ihl) || bool_decide (length ip < ip_total) then None else
  let src_ip := field 12 4 ip in
  let dst_ip := field 16 4 ip in
  let udp := field ihl (ip_total - ihl) ip in
  if bool_decide (length udp < 8) then None else
  src_port ← read_u16 udp 0;
  dst_port ← read_u16 udp 2;
  if negb (dst_port =? DNS_PORT)%Z then None else
  udp_len ← Z.to_nat <$> read_u16 udp 4;
  if bool_decide (udp_len < 8) || bool_decide (length udp < udp_len) then None else
  let dns := field 8 (udp_len - 8) udp in
  if bool_decide (length dns < DNS_HDR_LEN) then None else
  id ← read_u16 dns 0;
  flags ← read_u16 dns 2;
  if negb (Z.land flags 0x8000 =? 0)%Z then None else
  let opcode := Z.land (Z.shiftr flags 11) 0x0f in
  if negb (opcode =? 0)%Z then None else
  qdcount ← read_u16 dns 4;
  if negb (qdcount =? 1)%Z then None else
  let q_start := DNS_HDR_LEN in
  '(qname, after_name) ← parse_qname dns q_start;
  qtype ← read_u16 dns after_name;
  qclass ← read_u16 dns (after_name + 2);
  let q_end := after_name + 4 in
  if bool_decide (length dns < q_end) then None else
  let question := field q_start (q_end - q_start) dns in
  Some (mkParsedQuery src_mac dst_mac src_ip dst_ip src_port id qname qtype qclass question).

(** [trim_end_matches('.')] strips every trailing dot. *)
Fixpoint trim_dots (rev_name : bytes) : bytes :=
  match rev_name with
  | x2e :: r => trim_dots r
  | _ => rev_name
  end.

Definition normalize_name (name : bytes) : bytes := to_ascii_lowercase (reverse (trim_dots (reverse name))).

(** * Building *)

Definition encapsulate (dns src_mac dst_mac src_ip dst_ip : bytes) (dst_port : Z) : bytes :=
  let udp_len := 8 + length dns in
  let ip_total := 20 + udp_len in
  let eth := dst_mac ++ src_mac ++ be_bytes 2 ETHERTYPE_IPV4 in
  let front := [x45; x00] ++ be_bytes 2 (Z.of_nat ip_total) ++ be_bytes 2 0 ++ be_bytes 2 0x4000 ++ [x40; IP_PROTO_UDP] in
  let csum := ipv4_checksum (front ++ be_bytes 2 0 ++ src_ip ++ dst_ip) in
  eth ++ front ++ be_bytes 2 csum ++ src_ip ++ dst_ip ++
  be_bytes 2 DNS_PORT ++ be_bytes 2 dst_port ++ be_bytes 2 (Z.of_nat udp_len) ++ be_bytes 2 0 ++ dns.

Definition build_response (q : ParsedQuery) (ip : bytes) : bytes :=
  let dns := be_bytes 2 (qid q) ++ be_bytes 2 0x8080 ++ be_bytes 2 1 ++ be_bytes 2 1 ++ be_bytes 2 0 ++ be_bytes 2 0 ++
             question q ++
             be_bytes 2 0xC00C ++ be_bytes 2 QTYPE_A ++ be_bytes 2 QCLASS_IN ++ be_bytes 4 ANSWER_TTL ++ be_bytes 2 4 ++ ip in
  encapsulate dns (dst_mac q) (src_mac q) (dst_ip q) (src_ip q) (src_port q).

Definition build_nodata (q : ParsedQuery) : bytes :=
  let dns := be_bytes 2 (qid q) ++ be_bytes 2 0x8080 ++ be_bytes 2 1 ++ be_bytes 2 0 ++ be_bytes 2 0 ++ be_bytes 2 0 ++ question q in
  encapsulate dns (dst_mac q) (src_mac q) (dst_ip q) (src_ip q) (src_port q).

(** * The relay *)

Definition extract_dns_payload (frame : bytes) : option bytes :=
  if bool_decide (length frame < 14) then None else
  let ip := drop 14 frame in
  b ← head ip;
  let ihl := Z.to_nat (Z.land (bval b) 15) * 4 in
  ip_total ← Z.to_nat <$> read_u16 ip 2;
  if bool_decide (length ip < ip_total) || bool_decide (ihl < 20) || bool_decide (ip_total < ihl + 8) then None else
  let udp := field ihl (ip_total - ihl) ip in
  udp_len ← Z.to_nat <$> read_u16 udp 4;
  if bool_decide (udp_len < 8) || bool_decide (length udp < udp_len) then None else
  Some (field 8 (udp_len - 8) udp).

Section handle.
(** One exchange with a resolver: the datagram it answered with, [None] when binding,
    sending or receiving failed or timed out.  The receive buffer holds 1500 bytes. *)
Variable exchange : bytes -> bytes -> option bytes.

Definition relay_upstream (frame : bytes) (q : ParsedQuery) (server : bytes) : option bytes :=
  dns_payload ← extract_dns_payload frame;
  buf ← take 1500 <$> exchange server dns_payload;
  let n := length buf in
  if bool_decide (n < DNS_HDR_LEN) then None else
  id' ← read_u16 buf 0;
  if negb (id' =? qid q)%Z then None else
  Some (encapsulate buf (dst_mac q) (src_mac q) (dst_ip q) (src_ip q) (src_port q)).

Definition dns_handle (frame : bytes) (names : NameTable) (upstream : option bytes) : option bytes :=
  parsed ← parse_query frame;
  let in_class := (qclass parsed =? QCLASS_IN)%Z in
  let owned := in_class && bool_decide (is_Some (names !! normalize_name (qname parsed))) in
  if owned then
    let key := normalize_name (qname parsed) in
    if (qtype parsed =? QTYPE_A)%Z
    then ip ← names !! key; Some (build_response parsed ip)
    else Some (build_nodata parsed)
  else
    match upstream with
    | Some server => relay_upstream frame parsed server
    | None => None
    end.
End handle.

(** * The format of queries *)

Definition utf8_of (b : byte) : bytes := push_char [] b.
Definition chars (label : bytes) : bytes := mjoin (utf8_of <$> label).

(** The labels with dots between them. *)
Fixpoint dotted (labels : list bytes) : bytes :=
  match labels with
  | [] => []
  | [l] => chars l
  | l :: ls => chars l ++ str "." ++ dotted ls
  end.

Definition label_ok (l : bytes) : Prop := 1 <= length l <= 63.
Definition label_bytes (l : bytes) : bytes := byte_of_Z (Z.of_nat (length l)) :: l.
Definition labels_bytes (ls : list bytes) : bytes := mjoin (label_bytes <$> ls) ++ [x00].

Record dns_msg := mkDnsMsg {
  dm_id : Z; dm_flags : Z; dm_counts : bytes; dm_labels : list bytes; dm_type : Z; dm_class : Z; dm_tail : bytes }.

(** The response bit and the opcode are the five high bits of the flags. *)
Record dns_wf (m : dns_msg) : Prop := {
  dw_id : u16 (dm_id m); dw_flags : (0 <= dm_flags m < 2 ^ 11)%Z; dw_counts : length (dm_counts m) = 6;
  dw_labels : Forall label_ok (dm_labels m); dw_name : length (dotted (dm_labels m)) <= 255;
  dw_type : u16 (dm_type m); dw_class : u16 (dm_class m) }.

Definition question_bytes (m : dns_msg) : bytes := labels_bytes (dm_labels m) ++ be_bytes 2 (dm_type m) ++ be_bytes 2 (dm_class m).

Definition dns_bytes (m : dns_msg) : bytes :=
  be_bytes 2 (dm_id m) ++ be_bytes 2 (dm_flags m) ++ be_bytes 2 1 ++ dm_counts m ++ question_bytes m ++ dm_tail m.

Definition query_of (d : datagram) (m : dns_msg) : ParsedQuery :=
  mkParsedQuery (dg_src_mac d) (dg_dst_mac d) (dg_src_ip d) (dg_dst_ip d) (dg_src_port d)
    (dm_id m) (dotted (dm_labels m)) (dm_type m) (dm_class m) (question_bytes m).

(** ** Names *)

Lemma push_chars label name : fold_left push_char label name = name ++ chars label.
Proof.
revert name. induction label as [|b label IH]; intros name; [by rewrite app_nil_r|]. cbn [fold_left]. rewrite IH. unfold chars.
rewrite fmap_cons, join_cons, app_assoc. done.
Qed.

Lemma utf8_of_length b : 1 <= length (utf8_of b).
Proof. unfold utf8_of, push_char. case_match; cbn [app length]; lia. Qed.

Lemma chars_length label : length label <= length (chars label).
Proof.
induction label as [|b label IH]; [done|]. unfold chars. rewrite fmap_cons, join_cons, length_app. cbn [length]. pose proof (utf8_of_length b).
unfold chars in IH. lia.
Qed.

(** The name accumulated so far, and the labels still to come. *)
Definition add_label (name l : bytes) : bytes := match name with [] => chars l | _ => name ++ str "." ++ chars l end.
Definition add_labels (name : bytes) (ls : list bytes) : bytes :=
  match name, ls with
  | [], _ => dotted ls
  | _, [] => name
  | _, _ => name ++ str "." ++ dotted ls
  end.

Lemma add_label_nonempty name l : label_ok l -> add_label name l <> [].
Proof.
intros [H _]. pose proof (chars_length l). intros E%(f_equal length). unfold add_label in E. destruct name; rewrite ?length_app in E; cbn [length] in E; lia.
Qed.

Lemma add_labels_cons name l ls : label_ok l -> add_labels name (l :: ls) = add_labels (add_label name l) ls.
Proof.
intros Hl. pose proof (add_label_nonempty name l Hl) as Hn. unfold add_labels at 2. destruct (add_label name l) as [|c r] eqn:E; [done|]. rewrite <- E. clear Hn E.
unfold add_labels, add_label. destruct name as [|x name], ls as [|l' ls]; try done. cbn [dotted]. by rewrite <- !app_assoc.
Qed.

Lemma add_labels_length name ls : length name <= length (add_labels name ls).
Proof. unfold add_labels. destruct name, ls; rewrite ?length_app; cbn [length]; lia. Qed.

Lemma label_byte_ok l : label_ok l -> let lb := byte_of_Z (Z.of_nat (length l)) in
  (bval lb =? 0)%Z = false /\ (Z.land (bval lb) 0xc0 =? 0)%Z = true /\ Z.to_nat (bval lb) = length l.
Proof.
intros [H1 H2]. cbv zeta. rewrite bval_byte_of_Z, Z.mod_small by lia. split; [apply Z.eqb_neq; lia|]. split; [|lia]. apply Z.eqb_eq, Z.bits_inj'. intros n Hn.
rewrite Z.land_spec, Z.bits_0. destruct (decide (n < 6)%Z) as [Hs|Hs].
- assert (n = 0 \/ n = 1 \/ n = 2 \/ n = 3 \/ n = 4 \/ n = 5)%Z as Hc by lia. destruct Hc as [->|[->|[->|[->|[->| ->]]]]]; apply andb_false_r.
- rewrite (Z.bits_above_log2 _ n); [done|lia|]. apply Z.log2_lt_pow2; [lia|]. apply Z.lt_le_trans with (2 ^ 6)%Z; [lia|]. apply Z.pow_le_mono_r; lia.
Qed.

Lemma label_byte_inv lb : (bval lb =? 0)%Z = false -> (Z.land (bval lb) 0xc0 =? 0)%Z = true -> (1 <= bval lb <= 63)%Z.
Proof.
revert lb. apply (byte_forall (fun lb => (bval lb =? 0)%Z = false -> (Z.land (bval lb) 0xc0 =? 0)%Z = true -> (1 <= bval lb <= 63)%Z)).
vm_compute. reflexivity.
Qed.

(** One turn of the walk on a label. *)
Lemma qname_turn fuel dns name pos l rest :
  label_ok l -> drop pos dns = label_bytes l ++ rest ->
  qname_go (S fuel) dns name pos =
  if bool_decide (255 < length (add_label name l)) then None else qname_go fuel dns (add_label name l) (pos + S (length l)).
Proof.
intros Hl Hd. destruct (label_byte_ok l Hl) as (E1 & E2 & E3). cbv zeta in E1, E2, E3.
assert (dns !! pos = Some (byte_of_Z (Z.of_nat (length l)))) as Hp by (rewrite <- (Nat.add_0_r pos), <- lookup_drop, Hd; done).
assert (length dns = pos + S (length l) + length rest) as Ln.
{ pose proof (f_equal length Hd) as E. rewrite length_drop in E. cbn [label_bytes app length] in E. rewrite length_app in E.
  apply lookup_lt_Some in Hp. lia. }
assert (field (pos + 1) (length l) dns = l) as Hf.
{ unfold field. rewrite <- drop_drop, Hd. cbn [label_bytes app drop]. rewrite drop_0. by apply take_app_length'. }
cbn [qname_go]. rewrite Hp. cbn [mbind option_bind]. rewrite E1, E2, E3, Hf. cbn [negb]. rewrite bool_decide_false by lia.
rewrite push_chars. replace (match name with [] => name | _ => name ++ str "." end ++ chars l) with (add_label name l)
  by (unfold add_label; destruct name; [done|]; by rewrite <- app_assoc).
by replace (pos + 1 + length l) with (pos + S (length l)) by lia.
Qed.

Lemma qname_find fuel dns name pos ls rest :
  Forall label_ok ls -> length (add_labels name ls) <= 255 -> drop pos dns = labels_bytes ls ++ rest -> length ls < fuel ->
  qname_go fuel dns name pos = Some (add_labels name ls, pos + length (labels_bytes ls)).
Proof.
intros Hls. revert fuel name pos. induction Hls as [|l ls Hl Hls IH]; intros [|fuel] name pos Hn Hd Hf; try (cbn [length] in Hf; lia).
- assert (dns !! pos = Some x00) as Hp by (rewrite <- (Nat.add_0_r pos), <- lookup_drop, Hd; done).
  cbn [qname_go]. rewrite Hp. by destruct name.
- unfold labels_bytes in *. rewrite fmap_cons, join_cons in *. rewrite <- !app_assoc in *. rewrite add_labels_cons in * by done.
  rewrite (qname_turn fuel dns name pos l _ Hl Hd). rewrite bool_decide_false by (pose proof (add_labels_length (add_label name l) ls); lia).
  rewrite IH with (pos := pos + S (length l)); [|done| |cbn [length] in Hf; lia].
  + do 2 f_equal. rewrite (length_app (label_bytes l)). cbn [label_bytes length]. lia.
  + rewrite <- drop_drop, Hd. by rewrite drop_app_length'.
Qed.

Lemma qname_found fuel dns name pos r e :
  qname_go fuel dns name pos = Some (r, e) -> length name <= 255 ->
  exists ls, Forall label_ok ls /\ r = add_labels name ls /\ length r <= 255 /\ drop pos dns = labels_bytes ls ++ drop e dns /\
    e = pos + length (labels_bytes ls).
Proof.
revert name pos. induction fuel as [|fuel IH]; intros name pos H Hn; [done|].
destruct (dns !! pos) as [lb|] eqn:Hp; [|by cbn [qname_go] in H; rewrite Hp in H].
pose proof (lookup_lt_Some _ _ _ Hp) as Hlt. pose proof (drop_S _ _ _ Hp) as Hd.
destruct (bval lb =? 0)%Z eqn:E1.
{ cbn [qname_go] in H. rewrite Hp in H. cbn [mbind option_bind] in H. rewrite E1 in H. injection H as <- <-. exists []. split; [done|]. split; [by destruct name|]. split; [done|].
  split; [|done]. rewrite Hd, Nat.add_1_r. cbn. f_equal. apply bval_inj. by apply Z.eqb_eq. }
destruct (Z.land (bval lb) 0xc0 =? 0)%Z eqn:E2; [|cbn [qname_go] in H; rewrite Hp in H; cbn [mbind option_bind] in H; by rewrite E1, E2 in H].
pose proof (label_byte_inv lb E1 E2) as Hr. set (n := Z.to_nat (bval lb)) in *.
destruct (decide (length dns < pos + 1 + n)) as [Hl|Hl].
{ cbn [qname_go] in H. rewrite Hp in H. cbn [mbind option_bind] in H. rewrite E1, E2 in H. cbn [negb] in H. fold n in H. by rewrite bool_decide_true in H by lia. }
set (l := field (pos + 1) n dns). assert (length l = n) as Ll by (apply length_field; lia).
assert (label_ok l) as Hok by (unfold label_ok; lia).
assert (drop pos dns = label_bytes l ++ drop (pos + S (length l)) dns) as Hd'.
{ rewrite Hd, <- Nat.add_1_r, (split_field (pos + 1) n) by lia. fold l. unfold label_bytes. cbn [app]. f_equal.
  - rewrite Ll. unfold n. rewrite Z2Nat.id by lia. by rewrite byte_of_Z_bval.
  - do 2 f_equal. lia. }
rewrite (qname_turn fuel dns name pos l _ Hok Hd') in H. case_bool_decide; [done|]. destruct (IH _ _ H ltac:(lia)) as (ls & Hls & -> & Hlen & Hdr & ->).
exists (l :: ls). split; [by constructor|]. rewrite add_labels_cons by done. split; [done|]. split; [done|].
unfold labels_bytes in *. rewrite fmap_cons, join_cons. split.
- rewrite Hd', Hdr. rewrite <- !app_assoc. done.
- rewrite (length_app (label_bytes l ++ _)), (length_app (label_bytes l)), length_app. cbn [label_bytes length]. lia.
Qed.

Lemma labels_bytes_length ls : length ls < length (labels_bytes ls).
Proof.
unfold labels_bytes. rewrite length_app. cbn [length]. enough (length ls <= length (mjoin (label_bytes <$> ls))) by lia.
induction ls as [|l ls IH]; [done|]. rewrite fmap_cons, join_cons, length_app. cbn [label_bytes length]. lia.
Qed.

Lemma parse_qname_exact dns start name e :
  parse_qname dns start = Some (name, e) <->
  exists ls, Forall label_ok ls /\ name = dotted ls /\ length name <= 255 /\ drop start dns = labels_bytes ls ++ drop e dns /\
    e = start + length (labels_bytes ls).
Proof.
unfold parse_qname. split.
- intros H. by destruct (qname_found _ _ [] _ _ _ H (Nat.le_0_l _)) as (ls & ?); exists ls.
- intros (ls & Hls & -> & Hn & Hd & ->). apply (qname_find _ dns [] start ls _ Hls Hn Hd). pose proof (labels_bytes_length ls).
  pose proof (f_equal length Hd) as E. rewrite length_app, !length_drop in E. lia.
Qed.

(** ** Messages *)

(** What the parser does with the payload of a datagram. *)
Definition parse_msg (d : datagram) : option ParsedQuery :=
  let dns := dg_payload d in
  if bool_decide (length dns < DNS_HDR_LEN) then None else
  id ← read_u16 dns 0;
  flags ← read_u16 dns 2;
  if negb (Z.land flags 0x8000 =? 0)%Z then None else
  if negb (Z.land (Z.shiftr flags 11) 0x0f =? 0)%Z then None else
  qdcount ← read_u16 dns 4;
  if negb (qdcount =? 1)%Z then None else
  '(qname, after_name) ← parse_qname dns DNS_HDR_LEN;
  qtype ← read_u16 dns after_name;
  qclass ← read_u16 dns (after_name + 2);
  if bool_decide (length dns < after_name + 4) then None else
  Some (mkParsedQuery (dg_src_mac d) (dg_dst_mac d) (dg_src_ip d) (dg_dst_ip d) (dg_src_port d) id qname qtype qclass
          (field DNS_HDR_LEN (after_name + 4 - DNS_HDR_LEN) dns)).

Lemma read_u16_in buf a : a + 2 <= length buf -> read_u16 buf a = Some (be16 (field a 2 buf)).
Proof.
intros H. unfold read_u16, be16. rewrite bool_decide_true by done. rewrite take_ge; [done|]. rewrite length_field; lia.
Qed.

Lemma head_byte_at buf : 1 <= length buf -> head buf = Some (byte_at 0 buf).
Proof. by destruct buf; [cbn [length]; lia|]. Qed.

Lemma parse_query_peel frame :
  parse_query frame =
  match peel frame with
  | Some d => if (dg_dst_port d =? DNS_PORT)%Z then parse_msg d else None
  | None => None
  end.
Proof.
unfold parse_query, peel, parse_msg. cbv zeta.
set (l3 := drop 14 frame). set (vihl := bval (byte_at 0 l3)). set (ihl := Z.to_nat (Z.land vihl 15) * 4).
set (total := Z.to_nat (be16 (field 2 2 l3))). set (l4 := field ihl (total - ihl) l3). set (ulen := Z.to_nat (be16 (field 4 2 l4))).
destruct (bool_decide_reflect (length frame < 14)); [done|]. rewrite (read_u16_in frame 12) by lia. cbn [mbind option_bind].
destruct (negb (be16 (field 12 2 frame) =? ETHERTYPE_IPV4)%Z); [done|].
assert (ihl <= 60) as Hihl by (unfold ihl; assert (Z.land vihl 15 = vihl mod 16)%Z by (apply (Z.land_ones _ 4); lia); pose proof (Z.mod_pos_bound vihl 16 ltac:(lia)); lia).
destruct (bool_decide_reflect (length l3 < 20)) as [Hshort|].
{ destruct (head l3) as [v|] eqn:Hh; [|done]. cbn [mbind option_bind]. destruct (negb _); [done|].
  assert (byte_at 0 l3 = v) as Hv by (clear - Hh; by destruct l3; simplify_eq/=).
  replace (Z.to_nat (Z.land (bval v) 15) * 4) with ihl by (unfold ihl, vihl; by rewrite Hv).
  destruct (bool_decide_reflect (ihl < 20)); [done|]. by rewrite (bool_decide_true (length _ < ihl)) by lia. }
rewrite head_byte_at by lia. cbn [mbind option_bind]. fold vihl. destruct (negb (Z.shiftr vihl 4 =? 4)%Z); [done|]. cbn [orb]. fold ihl.
destruct (_ || _); [done|]. destruct (negb _); [done|]. rewrite (read_u16_in l3 2) by lia. cbn [fmap option_fmap option_map mbind option_bind]. fold total. fold l4.
destruct (_ || _); [done|]. destruct (bool_decide_reflect (length l4 < 8)); [done|]. rewrite (read_u16_in l4 0), (read_u16_in l4 2), (read_u16_in l4 4) by lia. cbn [fmap option_fmap option_map mbind option_bind]. fold ulen.
destruct (bool_decide (ulen < 8) || bool_decide (length l4 < ulen)); [by destruct (negb _)|]. cbn [dg_dst_port dg_payload dg_src_mac dg_dst_mac dg_src_ip dg_dst_ip dg_src_port].
by destruct (be16 (field 2 2 l4) =? DNS_PORT)%Z.
Qed.

(** A query has neither the response bit nor an opcode: the five high bits are clear. *)
Lemma query_flags flags :
  u16 flags -> (negb (Z.land flags 0x8000 =? 0) = false /\ negb (Z.land (Z.shiftr flags 11) 0x0f =? 0) = false <-> flags < 2 ^ 11)%Z.
Proof.
intros [H0 H1]. rewrite high_bit, negb_false_iff, Z.eqb_eq. rewrite (Z.land_ones _ 4), Z.shiftr_div_pow2 by lia.
pose proof (Z.testbit_spec' flags 15 ltac:(lia)) as Hb. pose proof (Z.div_mod flags (2 ^ 15)) as D15. pose proof (Z.div_mod flags (2 ^ 11)) as D11.
pose proof (Z.mod_pos_bound flags (2 ^ 15)). pose proof (Z.mod_pos_bound flags (2 ^ 11)).
assert (0 <= flags / 2 ^ 15 < 2)%Z as B15 by (split; [apply Z.div_pos|apply Z.div_lt_upper_bound]; lia).
rewrite (Z.mod_small _ 2) in Hb by lia. split.
- intros [E E']. rewrite E in Hb. cbn [Z.b2z] in Hb. assert (0 <= flags / 2 ^ 11 < 2 ^ 4)%Z by (split; [apply Z.div_pos|apply Z.div_lt_upper_bound]; lia).
  rewrite Z.mod_small in E' by lia. lia.
- intros Hlt. rewrite (Z.div_small flags (2 ^ 11)) by lia. rewrite (Z.div_small flags (2 ^ 15)) in Hb by lia. split; [|done]. by destruct (Z.testbit flags 15).
Qed.

Lemma length_question m : length (question_bytes m) = length (labels_bytes (dm_labels m)) + 4.
Proof. unfold question_bytes. rewrite !length_app, !length_be_bytes. lia. Qed.

Lemma be16_self z : u16 z -> be16 (be_bytes 2 z) = z.
Proof. intros H. rewrite <- (app_nil_r (be_bytes 2 z)). by apply be16_app. Qed.

Lemma parse_msg_bytes d m : dns_wf m -> dg_payload d = dns_bytes m -> parse_msg d = Some (query_of d m).
Proof.
intros Hm Hp. destruct Hm as [Hid Hfl Hc Hls Hn Ht Hcl]. unfold parse_msg, query_of. rewrite Hp. cbv zeta. unfold DNS_HDR_LEN.
set (dns := dns_bytes m). set (head := be_bytes 2 (dm_id m) ++ be_bytes 2 (dm_flags m) ++ be_bytes 2 1 ++ dm_counts m).
assert (length head = 12) as Lh by (unfold head; rewrite !length_app, !length_be_bytes; lia).
assert (dns = head ++ question_bytes m ++ dm_tail m) as Ed by (unfold dns, dns_bytes, head; by rewrite <- !app_assoc).
assert (length dns = 12 + length (question_bytes m) + length (dm_tail m)) as Ld by (rewrite Ed, !length_app; lia). pose proof (length_question m) as Lq.
rewrite bool_decide_false by lia. rewrite (read_u16_in dns 0), (read_u16_in dns 2), (read_u16_in dns 4) by lia. cbn [mbind option_bind].
assert (field 0 2 dns = be_bytes 2 (dm_id m)) as -> by (apply (field_app 0 []); [done|apply length_be_bytes]).
assert (field 2 2 dns = be_bytes 2 (dm_flags m)) as -> by (apply (field_app 2); apply length_be_bytes).
assert (field 4 2 dns = be_bytes 2 1) as -> by (unfold dns, dns_bytes; rewrite app_assoc; apply (field_app 4); [rewrite length_app, !length_be_bytes; done|apply length_be_bytes]).
assert (u16 (dm_flags m)) as Hfu by (unfold u16; lia). rewrite !be16_self by (done || by_eval).
destruct (proj2 (query_flags (dm_flags m) Hfu) ltac:(lia)) as [-> ->]. cbn [negb Z.eqb Pos.eqb].
assert (drop 12 dns = question_bytes m ++ dm_tail m) as Ed12 by (rewrite Ed; by rewrite drop_app_length').
set (e := 12 + length (labels_bytes (dm_labels m))).
assert (drop e dns = be_bytes 2 (dm_type m) ++ be_bytes 2 (dm_class m) ++ dm_tail m) as Ede.
{ unfold e. rewrite <- drop_drop, Ed12. unfold question_bytes. rewrite <- !app_assoc. by rewrite drop_app_length'. }
rewrite (proj2 (parse_qname_exact dns 12 (dotted (dm_labels m)) e)).
2: { exists (dm_labels m). do 3 (split; [done|]). split; [|done]. rewrite Ed12, Ede. unfold question_bytes. by rewrite <- !app_assoc. }
cbn [mbind option_bind]. rewrite (read_u16_in dns e), (read_u16_in dns (e + 2)) by (unfold e; lia). cbn [mbind option_bind].
rewrite bool_decide_false by (unfold e; lia). do 2 f_equal.
- unfold field. rewrite Ede, take_app_length' by (by rewrite length_be_bytes). by apply be16_self.
- unfold field. rewrite <- drop_drop, Ede, drop_app_length', take_app_length' by (by rewrite length_be_bytes). by apply be16_self.
- unfold field. rewrite Ed12. replace (e + 4 - 12) with (length (question_bytes m)) by (unfold e; lia). by apply take_app_length'.
Qed.

Lemma read_u16_some buf a z : read_u16 buf a = Some z -> a + 2 <= length buf /\ z = be16 (field a 2 buf) /\ u16 z.
Proof.
intros H. assert (a + 2 <= length buf) as Ha by (unfold read_u16 in H; by case_bool_decide). rewrite read_u16_in in H by done. injection H as <-.
split; [done|]. split; [done|]. apply be16_u16, length_field. done.
Qed.

Lemma parse_msg_sound d q : parse_msg d = Some q -> exists m, dns_wf m /\ dg_payload d = dns_bytes m /\ q = query_of d m.
Proof.
unfold parse_msg. set (dns := dg_payload d). cbv zeta. unfold DNS_HDR_LEN. destruct (bool_decide_reflect (length dns < 12)) as [|Hl]; [done|].
destruct (read_u16 dns 0) as [id|] eqn:E0; [|done]. destruct (read_u16 dns 2) as [flags|] eqn:E2; [|done]. cbn [mbind option_bind].
destruct (negb (Z.land flags 0x8000 =? 0)%Z) eqn:F1; [done|]. destruct (negb (Z.land (Z.shiftr flags 11) 0x0f =? 0)%Z) eqn:F2; [done|].
destruct (read_u16 dns 4) as [qd|] eqn:E4; [|done]. cbn [mbind option_bind]. destruct (Z.eqb_spec qd 1) as [->|]; [|done]. cbn [negb].
destruct (parse_qname dns 12) as [[name e]|] eqn:Eq; [|done]. apply parse_qname_exact in Eq as (ls & Hls & -> & Hn & Hd & He). cbn [mbind option_bind].
destruct (read_u16 dns e) as [ty|] eqn:Et; [|done]. destruct (read_u16 dns (e + 2)) as [cl|] eqn:Ec; [|done]. cbn [mbind option_bind].
destruct (bool_decide_reflect (length dns < e + 4)) as [|Hl']; [done|]. intros [= <-].
apply read_u16_some in E0 as (_ & -> & U0), E2 as (_ & -> & U2), E4 as (_ & Q4 & _), Et as (_ & -> & Ut), Ec as (_ & -> & Uc).
set (m := mkDnsMsg (be16 (field 0 2 dns)) (be16 (field 2 2 dns)) (field 6 6 dns) ls (be16 (field e 2 dns)) (be16 (field (e + 2) 2 dns)) (drop (e + 4) dns)).
assert (question_bytes m = field 12 (e + 4 - 12) dns) as Hq.
{ unfold question_bytes, m; cbn [dm_labels dm_type dm_class]. rewrite !be16_field by lia. unfold field at 3. rewrite Hd, (split_field e 2), (split_field (e + 2) 2) by lia.
  rewrite !app_assoc, take_app_length'; [done|]. rewrite !length_app, !length_field by lia. lia. }
exists m. split; [|split].
- split; try done; [|apply length_field; lia]. unfold m; cbn [dm_flags]. destruct U2. split; [done|]. by apply query_flags.
- unfold dns_bytes. rewrite Hq. unfold m; cbn [dm_id dm_flags dm_counts dm_tail]. rewrite Q4, !be16_field by lia.
  rewrite <- (drop_0 dns) at 1. rewrite (split_field 0 2), (split_field 2 2), (split_field 4 2), (split_field 6 6), (split_field 12 (e + 4 - 12)) by lia.
  by replace (12 + (e + 4 - 12)) with (e + 4) by lia.
- unfold query_of. by rewrite Hq.
Qed.

(** ** The parser is exact *)

Definition dns_frame (frame : bytes) (d : datagram) (m : dns_msg) : Prop :=
  datagram_wf d /\ frame = frame_bytes d /\ dg_dst_port d = DNS_PORT /\ dns_wf m /\ dg_payload d = dns_bytes m.

Lemma parse_query_bytes frame d m : dns_frame frame d m -> parse_query frame = Some (query_of d m).
Proof. intros (Hwf & -> & Hd & Hm & Hp). rewrite parse_query_peel, peel_frame by done. rewrite Hd. by apply parse_msg_bytes. Qed.

(** The parser accepts the DNS queries of the wire format and no other frame: an
    IPv4/UDP datagram to port 53, with any IP options and any padding, whose payload is a
    standard query with one question, the name in labels of 1 to 63 octets and not
    compressed.  It returns the addresses, the dotted name, the type and class and the
    octets of the question. *)
Theorem parse_query_exact frame q :
  parse_query frame = Some q <-> exists d m, dns_frame frame d m /\ q = query_of d m.
Proof.
split.
- rewrite parse_query_peel. destruct (peel frame) as [d|] eqn:Hp; [|done]. apply peel_exact in Hp as [Hwf ->]. destruct (Z.eqb_spec (dg_dst_port d) DNS_PORT) as [Hd|]; [|done].
  intros (m & Hm & Hb & ->)%parse_msg_sound. by exists d, m.
- intros (d & m & Hf & ->). by apply parse_query_bytes.
Qed.

(** ** Answers *)

Lemma length_labels_bytes ls : Forall label_ok ls -> length (labels_bytes ls) <= length (dotted ls) + 2.
Proof.
intros H. unfold labels_bytes. rewrite length_app. cbn [length]. enough (length (mjoin (label_bytes <$> ls)) <= length (dotted ls) + 1) by lia.
induction H as [|l ls Hl Hls IH]; [cbn; lia|]. rewrite fmap_cons, join_cons, length_app. cbn [label_bytes length]. pose proof (chars_length l).
destruct ls as [|l' ls].
- cbn [fmap list_fmap mjoin list_join length dotted] in *. lia.
- change (dotted (l :: l' :: ls)) with (chars l ++ str "." ++ dotted (l' :: ls)). rewrite !length_app. cbn [str length] in *. change (length (str ".")) with 1. lia.
Qed.

(** The reply goes back the way the query came. *)
Definition back (d : datagram) (payload : bytes) : datagram :=
  built (dg_dst_mac d) (dg_src_mac d) (dg_dst_ip d) (dg_src_ip d) DNS_PORT (dg_src_port d) payload.

Lemma encapsulate_built dns sm dm si di port : encapsulate dns sm dm si di port = frame_bytes (built sm dm si di DNS_PORT port dns).
Proof.
rewrite <- build_frame. unfold encapsulate, build_ethernet, build_ipv4. rewrite length_build_udp. unfold ipv4_front, build_udp. cbv zeta. rewrite <- !app_assoc. done.
Qed.

Lemma back_wf d payload : datagram_wf d -> (Z.of_nat (length payload) < 65508)%Z -> datagram_wf (back d payload).
Proof. intros [] H. apply built_wf; done. Qed.

(** The header of a reply: the id, a response without error, one question, [n] answers. *)
Definition reply_head (m : dns_msg) (n : Z) : bytes :=
  be_bytes 2 (dm_id m) ++ be_bytes 2 0x8080 ++ be_bytes 2 1 ++ be_bytes 2 n ++ be_bytes 2 0 ++ be_bytes 2 0.

(** An A record for the name at offset 12. *)
Definition a_record (ip : bytes) : bytes :=
  be_bytes 2 0xC00C ++ be_bytes 2 QTYPE_A ++ be_bytes 2 QCLASS_IN ++ be_bytes 4 ANSWER_TTL ++ be_bytes 2 4 ++ ip.

Definition answer (m : dns_msg) (ip : bytes) : bytes := reply_head m 1 ++ question_bytes m ++ a_record ip.
Definition nodata (m : dns_msg) : bytes := reply_head m 0 ++ question_bytes m.

Lemma build_response_back d m ip : build_response (query_of d m) ip = frame_bytes (back d (answer m ip)).
Proof.
unfold build_response, back, answer, reply_head, a_record. rewrite <- encapsulate_built. cbv zeta. rewrite <- !app_assoc. done.
Qed.

Lemma build_nodata_back d m : build_nodata (query_of d m) = frame_bytes (back d (nodata m)).
Proof. unfold build_nodata, back, nodata, reply_head. rewrite <- encapsulate_built. cbv zeta. rewrite <- !app_assoc. done. Qed.

Lemma length_reply_head m n : length (reply_head m n) = 12.
Proof. unfold reply_head. rewrite !length_app, !length_be_bytes. done. Qed.

Lemma question_short m : dns_wf m -> length (question_bytes m) <= 261.
Proof. intros [_ _ _ Hl Hn _ _]. rewrite length_question. pose proof (length_labels_bytes _ Hl). lia. Qed.

Lemma read_u16_field buf a n pre z post : buf = pre ++ be_bytes 2 z ++ post -> length pre = a -> n = a -> u16 z -> read_u16 buf n = Some z.
Proof.
intros -> Hp -> Hz. rewrite read_u16_in by (rewrite !length_app, length_be_bytes; lia). rewrite (field_app a) by (done || apply length_be_bytes). by rewrite be16_self.
Qed.

Lemma extract_frame d : datagram_wf d -> extract_dns_payload (frame_bytes d) = Some (dg_payload d).
Proof.
intros Hwf. destruct (ip_bytes_fields d Hwf) as (L3 & V1 & V2 & F1 & F2 & F3 & F4 & F5 & F6 & F7 & F8 & F9 & F10).
destruct (udp_bytes_fields d Hwf) as (L4 & G1 & G2 & G3 & G4 & G5 & G6). unfold extract_dns_payload.
assert (drop 14 (frame_bytes d) = ip_bytes d /\ length (frame_bytes d) = 14 + length (ip_bytes d)) as [-> Lf].
{ unfold frame_bytes. destruct Hwf. rewrite !app_assoc. split.
  - rewrite drop_app_length'; [done|]. rewrite !length_app, length_be_bytes. lia.
  - rewrite !length_app, length_be_bytes. lia. }
assert (20 <= dg_ihl d) by (unfold dg_ihl; lia). assert (8 <= dg_udp_len d) by (unfold dg_udp_len; lia). assert (dg_total d = dg_ihl d + dg_udp_len d + length (dg_slack d)) by done.
rewrite bool_decide_false by lia. rewrite head_byte_at by lia. cbn [mbind option_bind]. rewrite (read_u16_in (ip_bytes d) 2) by lia.
cbn [fmap option_fmap option_map mbind option_bind]. rewrite V2, F2, Nat2Z.id, F9. rewrite !bool_decide_false by lia. cbn [orb].
rewrite (read_u16_in (udp_bytes d) 4) by lia. cbn [fmap option_fmap option_map mbind option_bind]. rewrite G3, Nat2Z.id. rewrite !bool_decide_false by lia. cbn [orb].
replace (dg_udp_len d - 8) with (length (dg_payload d)) by (unfold dg_udp_len; lia). by rewrite G5.
Qed.

(** A response is not a query, whatever port it goes to. *)
Lemma response_not_query d m n rest : u16 (dm_id m) -> datagram_wf (back d (reply_head m n ++ rest)) ->
  parse_query (frame_bytes (back d (reply_head m n ++ rest))) = None.
Proof.
intros Hid Hwf. rewrite parse_query_peel, peel_frame by done. case_match; [|done]. unfold parse_msg, back, built. cbn [dg_payload].
case_match; [done|]. destruct (read_u16 _ 0); [|done]. cbn [mbind option_bind].
rewrite (read_u16_field _ 2 2 (be_bytes 2 (dm_id m)) 0x8080 (be_bytes 2 1 ++ be_bytes 2 n ++ be_bytes 2 0 ++ be_bytes 2 0 ++ rest)); [done| |apply length_be_bytes|done|by_eval].
unfold reply_head. by rewrite <- !app_assoc.
Qed.

Lemma back_checksum d payload : datagram_wf d -> fold16 3 (sum16 (field 14 20 (frame_bytes (back d payload)))) = 65535%Z.
Proof. intros []. unfold back. rewrite <- build_frame, build_ethernet_ip by done. by apply build_ipv4_checksum. Qed.

Section answers.
Context (exchange : bytes -> bytes -> option bytes).

Lemma dns_not_owned frame d m names upstream :
  dns_frame frame d m -> (dm_class m = QCLASS_IN -> names !! normalize_name (dotted (dm_labels m)) = None) ->
  dns_handle exchange frame names upstream =
  match upstream with Some server => relay_upstream exchange frame (query_of d m) server | None => None end.
Proof.
intros Hf Hn. unfold dns_handle. rewrite (parse_query_bytes frame d m) by done.
cbn [mbind option_bind query_of qclass qname qtype].
assert ((dm_class m =? QCLASS_IN)%Z && bool_decide (is_Some (names !! normalize_name (dotted (dm_labels m)))) = false) as ->; [|done].
destruct (Z.eqb_spec (dm_class m) QCLASS_IN) as [E|]; [|done]. rewrite (Hn E). by rewrite bool_decide_false by (by intros [? ?]).
Qed.

(** C31: a query of class IN for a name in the table is answered from it and never
    relayed: type A with the address as the only record, every other type with no record
    and no error.  The reply is a valid datagram with a correct header checksum, sent back
    the way the query came, with the query's id and question; and it is not itself a query
    to the responder. *)
Theorem dns_owned_answered frame d m names upstream ip :
  dns_frame frame d m -> dm_class m = QCLASS_IN -> names !! normalize_name (dotted (dm_labels m)) = Some ip -> length ip = 4 ->
  let payload := if (dm_type m =? QTYPE_A)%Z then answer m ip else nodata m in
  exists reply, dns_handle exchange frame names upstream = Some reply /\ peel reply = Some (back d payload) /\
    fold16 3 (sum16 (field 14 20 reply)) = 65535%Z /\ forall names' upstream', dns_handle exchange reply names' upstream' = None.
Proof.
intros Hf Hcl Hn Hip. pose proof Hf as (Hwf & _ & _ & Hm & _). cbv zeta. exists (frame_bytes (back d (if (dm_type m =? QTYPE_A)%Z then answer m ip else nodata m))).
pose proof (question_short m Hm). assert (datagram_wf (back d (if (dm_type m =? QTYPE_A)%Z then answer m ip else nodata m))) as Hbw.
{ apply back_wf; [done|]. case_match; unfold answer, nodata, a_record; rewrite !length_app, length_reply_head, ?length_be_bytes; lia. }
split; [|split; [by apply peel_frame|split; [by apply back_checksum|]]].
- unfold dns_handle. rewrite (parse_query_bytes frame d m) by done. cbn [mbind option_bind query_of qclass qname qtype].
  rewrite Hcl, Hn. cbn [andb Z.eqb Pos.eqb QCLASS_IN]. rewrite bool_decide_true by done. destruct (dm_type m =? QTYPE_A)%Z.
  + cbn [mbind option_bind]. f_equal. apply (build_response_back d m).
  + f_equal. apply (build_nodata_back d m).
- intros names' upstream'. unfold dns_handle. destruct Hm. unfold answer, nodata in *. destruct (dm_type m =? QTYPE_A)%Z; by rewrite response_not_query.
Qed.

(** A query for a name the table does not own is left to the switch when there is no
    resolver, and otherwise relayed: the resolver gets the payload as it came, and its
    answer, cut at 1500 bytes, goes back exactly when it has a header and the query's
    transaction id. *)
Theorem dns_other_relayed frame d m names server :
  dns_frame frame d m -> (dm_class m = QCLASS_IN -> names !! normalize_name (dotted (dm_labels m)) = None) ->
  dns_handle exchange frame names None = None /\
  dns_handle exchange frame names (Some server) =
    match exchange server (dns_bytes m) with
    | Some r =>
        if bool_decide (12 <= length r) && (be16 (field 0 2 r) =? dm_id m)%Z then Some (frame_bytes (back d (take 1500 r))) else None
    | None => None
    end.
Proof.
intros Hf Hn. pose proof Hf as (Hwf & Ef & _ & Hm & Hp). rewrite !(dns_not_owned frame d m) by done.
split; [done|]. unfold relay_upstream. rewrite Ef, extract_frame, Hp by done. cbn [mbind option_bind]. destruct (exchange server (dns_bytes m)) as [r|]; [|done].
cbn [fmap option_fmap option_map mbind option_bind]. unfold DNS_HDR_LEN.
assert (bool_decide (length (take 1500 r) < 12) = negb (bool_decide (12 <= length r))) as -> by (rewrite length_take; repeat case_bool_decide; cbn [negb]; try done; lia).
destruct (bool_decide_reflect (12 <= length r)); [|done]. cbn [negb andb]. rewrite read_u16_in by (rewrite length_take; lia). cbn [mbind option_bind].
assert (field 0 2 (take 1500 r) = field 0 2 r) as -> by (unfold field; rewrite !drop_0, take_take; f_equal; lia).
destruct (_ =? _)%Z; [|done]. cbn [negb]. f_equal. apply encapsulate_built.
Qed.
End answers.

(** ** A query for a member *)

Definition sample_query (ty : Z) : dns_msg := mkDnsMsg 0x1234 0x0100 (replicate 6 x00) [str "WEB"] ty QCLASS_IN [].
Definition sample_dg (ty : Z) : datagram :=
  built [x52; x55; x0a; x45; x00; x02] [x02; x00; x00; x00; x00; x01] [x0a; x45; x00; x02] [x08; x08; x08; x08] 40000 DNS_PORT (dns_bytes (sample_query ty)).
Definition sample_names : NameTable := {[ str "web" := [x0a; x45; x00; x03] ]}.

Lemma sample_dns_frame ty : u16 ty -> dns_frame (frame_bytes (sample_dg ty)) (sample_dg ty) (sample_query ty).
Proof.
intros Hty. split; [|split; [done|split; [done|split; [|done]]]].
- unfold sample_dg.
  apply built_wf. 1-4: reflexivity. 1-2: by_eval.
  unfold dns_bytes. rewrite !length_app, length_question, !length_be_bytes. vm_compute. reflexivity.
- split; [by_eval|by_eval|reflexivity|apply Forall_singleton; unfold label_ok; by_eval|by_eval|exact Hty|by_eval].
Qed.

Lemma dns_owned_answered_witness :
  dns_frame (frame_bytes (sample_dg 28)) (sample_dg 28) (sample_query 28) /\
  exists reply, dns_handle (fun _ _ => None) (frame_bytes (sample_dg 28)) sample_names None = Some reply /\
    peel reply = Some (back (sample_dg 28) (nodata (sample_query 28))).
Proof.
assert (dns_frame (frame_bytes (sample_dg 28)) (sample_dg 28) (sample_query 28)) as Hf by (apply sample_dns_frame; by_eval). split; [exact Hf|].
destruct (dns_owned_answered (fun _ _ => None) (frame_bytes (sample_dg 28)) (sample_dg 28) (sample_query 28) sample_names None [x0a; x45; x00; x03] Hf)
  as (reply & H1 & H2 & _); [reflexivity|vm_compute; reflexivity|reflexivity|]. exists reply. split; [exact H1|exact H2].
Defined.

Lemma dns_other_relayed_witness :
  dns_frame (frame_bytes (sample_dg 1)) (sample_dg 1) (sample_query 1) /\
  dns_handle (fun _ q => Some (q ++ a_record [x01; x02; x03; x04])) (frame_bytes (sample_dg 1)) ∅ (Some [x09; x09; x09; x09]) <> None.
Proof.
assert (dns_frame (frame_bytes (sample_dg 1)) (sample_dg 1) (sample_query 1)) as Hf by (apply sample_dns_frame; by_eval). split; [exact Hf|].
set (ex := fun _ q => Some (q ++ a_record [x01; x02; x03; x04])).
destruct (dns_other_relayed ex (frame_bytes (sample_dg 1)) (sample_dg 1) (sample_query 1) ∅ [x09; x09; x09; x09] Hf) as [_ E]; [intros _; apply lookup_empty|].
rewrite E. vm_compute. discriminate.
Defined.
