(* ===== verification/VSwitch.v ===== *)
(** The userspace switch of one network (crates/lightr-run/src/vswitch/switch.rs and
    mod.rs): the learning table, the ARP reply for the gateway, the routing of one frame,
    and the threads of the members as a machine whose steps are the critical sections of
    the code. *)

From S2P Require Import Prelude Text Packet Dhcp Dns.

(** * The learning switch (switch.rs) *)

Abbreviation PortId := nat.
Abbreviation MacTable := (gmap bytes PortId).

Inductive ForwardDecision := Unicast (p : PortId) | Flood | Drop.

#[export] Instance ForwardDecision_eq_dec : EqDecision ForwardDecision.
Proof. solve_decision. Defined.

Definition forward (frame : bytes) (from : PortId) (table : MacTable) : ForwardDecision * MacTable :=
  if bool_decide (length frame < 14) then (Drop, table) else
  let dst_mac := field 0 6 frame in
  let src_mac := field 6 6 frame in
  let table := <[src_mac := from]> table in
  let is_broadcast := bool_decide (dst_mac = replicate 6 xff) in
  let is_multicast := (Z.land (bval (byte_at 0 dst_mac)) 1 =? 1)%Z in
  if is_broadcast || is_multicast then (Flood, table) else
  match table !! dst_mac with
  | Some port => (Unicast port, table)
  | None => (Flood, table)
  end.

Definition arp_gateway_reply (frame gateway_ip gateway_mac : bytes) : option bytes :=
  if bool_decide (length frame < 42) then None else
  if negb (bool_decide (field 12 2 frame = [x08; x06])) then None else
  if negb (bool_decide (field 14 8 frame = [x00; x01; x08; x00; x06; x04; x00; x01])) then None else
  let tpa := field 38 4 frame in
  if negb (bool_decide (tpa = gateway_ip)) then None else
  let req_mac := field 22 6 frame in
  let req_ip := field 28 4 frame in
  let r := req_mac ++ gateway_mac ++ [x08; x06] in
  let r := r ++ [x00; x01; x08; x00; x06; x04; x00; x02] in
  Some (r ++ gateway_mac ++ gateway_ip ++ req_mac ++ req_ip).

(** * State (mod.rs) *)

(** A socket is the descriptor the member came with. *)
Abbreviation Sock := nat.

Record PortSocket := mkPort { sock : option Sock; pname : bytes }.

Record Shared := mkShared {
  macs : MacTable; leases : LeaseStore; names : NameTable; ports : list PortSocket;
  subnet : Subnet; sgateway : bytes; upstream : option bytes }.

(** [VSwitch::start]: no member yet; the resolver is the host's. *)
Definition start (sub : Subnet) (host_upstream : option bytes) : Shared := mkShared ∅ ∅ ∅ [] sub (gateway sub) host_upstream.

Definition with_macs (m : MacTable) (s : Shared) : Shared := mkShared m (leases s) (names s) (ports s) (subnet s) (sgateway s) (upstream s).
Definition with_ports (p : list PortSocket) (s : Shared) : Shared := mkShared (macs s) (leases s) (names s) p (subnet s) (sgateway s) (upstream s).

(** The three critical sections of [add_member]. *)
Definition push_port (fd : Sock) (name : bytes) (s : Shared) : Shared := with_ports (ports s ++ [mkPort (Some fd) name]) s.
Definition seed_lease (mac ip : bytes) (s : Shared) : Shared :=
  mkShared (macs s) (lease_insert (leases s) mac ip) (names s) (ports s) (subnet s) (sgateway s) (upstream s).
Definition seed_name (name ip : bytes) (s : Shared) : Shared :=
  mkShared (macs s) (leases s) (<[to_ascii_lowercase name := ip]> (names s)) (ports s) (subnet s) (sgateway s) (upstream s).

(** [add_member] up to the spawn, in one piece; it returns the port. *)
Definition add_member (fd : Sock) (mac ip name : bytes) (s : Shared) : PortId * Shared :=
  (length (ports s), seed_name name ip (seed_lease mac ip (push_port fd name s))).

Definition remove_member (name : bytes) (s : Shared) : Shared :=
  with_ports ((fun p => if bool_decide (pname p = name) then mkPort None (pname p) else p) <$> ports s) s.

(** The sockets [teardown] drops; the stop flag and the joins are the machine's. *)
Definition teardown_ports (s : Shared) : Shared := with_ports ((fun p => mkPort None (pname p)) <$> ports s) s.

(** * Routing one frame *)

Definition flood_targets (my_port : PortId) (ports : list PortSocket) : list PortId :=
  filter (fun p => p <> my_port /\ is_Some (ports !! p ≫= sock)) (seq 0 (length ports)).

Definition route (exchange : bytes -> bytes -> option bytes) (frame : bytes) (my_port : PortId) (s : Shared) : list (PortId * bytes) * Shared :=
  match dhcp_handle frame (leases s) (subnet s) (sgateway s) with
  | Some reply => ([(my_port, reply)], s)
  | None =>
      match dns_handle exchange frame (names s) (upstream s) with
      | Some reply => ([(my_port, reply)], s)
      | None =>
          match arp_gateway_reply frame (sgateway s) GATEWAY_MAC with
          | Some reply => ([(my_port, reply)], s)
          | None =>
              let '(decision, m) := forward frame my_port (macs s) in
              let s := with_macs m s in
              match decision with
              | Unicast port => ([(port, frame)], s)
              | Flood => ((fun p => (p, frame)) <$> flood_targets my_port (ports s), s)
              | Drop => ([], s)
              end
          end
      end
  end.

(** The socket [deliver] sends to, when its clone succeeds. *)
Definition target (s : Shared) (port : PortId) : option Sock := ports s !! port ≫= sock.

(** The datagrams [deliver] sends when no clone fails. *)
Definition deliver (s : Shared) (sends : list (PortId * bytes)) : list (Sock * bytes) :=
  omap (fun '(port, frame) => (fun fd => (fd, frame)) <$> target s port) sends.

(** * Learning is remembering *)

(** The table after a history of frames, and the port a reader of the history would name:
    that of the last well-formed frame from the address. *)
Definition learn (h : list (PortId * bytes)) : MacTable := fold_left (fun t '(p, f) => (forward f p t).2) h ∅.

Definition from_mac (mac : bytes) : PortId * bytes -> option PortId :=
  fun '(p, f) => if bool_decide (14 <= length f /\ field 6 6 f = mac) then Some p else None.

Definition seen_on (mac : bytes) (h : list (PortId * bytes)) : option PortId := last (omap (from_mac mac) h).

Lemma forward_table f p t : (forward f p t).2 = if bool_decide (length f < 14) then t else <[field 6 6 f := p]> t.
Proof. unfold forward. case_bool_decide; [done|]. destruct (_ || _); [done|]. by destruct (_ !! _). Qed.

Lemma seen_on_snoc mac h p f : seen_on mac (h ++ [(p, f)]) = match from_mac mac (p, f) with Some q => Some q | None => seen_on mac h end.
Proof.
unfold seen_on. rewrite omap_app. cbn [omap list_omap]. destruct (from_mac mac (p, f)) as [q|]; [by rewrite last_snoc|by rewrite app_nil_r].
Qed.

Lemma learn_seen h mac : learn h !! mac = seen_on mac h.
Proof.
induction h as [|[p f] h IH] using rev_ind; [done|]. rewrite seen_on_snoc. unfold learn in *. rewrite fold_left_app. cbn [fold_left]. rewrite forward_table.
unfold from_mac. destruct (bool_decide_reflect (length f < 14)); [by rewrite bool_decide_false by lia|]. destruct (decide (field 6 6 f = mac)) as [<-|Hn].
- rewrite lookup_insert_eq, bool_decide_true by (split; [lia|done]). done.
- rewrite lookup_insert_ne by done. rewrite bool_decide_false by tauto. done.
Qed.

(** The group bit covers the broadcast address. *)
Lemma group_bit dst : length dst = 6 ->
  bool_decide (dst = replicate 6 xff) || (Z.land (bval (byte_at 0 dst)) 1 =? 1)%Z = Z.testbit (bval (byte_at 0 dst)) 0.
Proof.
intros H. destruct dst as [|b dst]; [done|]. assert ((Z.land (bval b) 1 =? 1)%Z = Z.testbit (bval b) 0) as E.
{ clear. revert b. apply (byte_forall (fun b => (Z.land (bval b) 1 =? 1)%Z = Z.testbit (bval b) 0)). vm_compute. reflexivity. }
cbn [byte_at nth]. rewrite E. case_bool_decide as Hb; [|done]. injection Hb as -> _. reflexivity.
Qed.

(** The switch forwards by memory alone.  After any history of frames, a frame goes to
    the port where its destination was last seen as a source, this frame counted; it is
    flooded when the destination is a group or broadcast address or was never seen; and it
    is dropped, and teaches nothing, exactly when it is shorter than an Ethernet header. *)
Theorem forward_last_seen h f p :
  (forward f p (learn h)).1 =
  if bool_decide (length f < 14) then Drop
  else if Z.testbit (bval (byte_at 0 f)) 0 then Flood
  else match seen_on (field 0 6 f) (h ++ [(p, f)]) with Some q => Unicast q | None => Flood end.
Proof.
unfold forward. case_bool_decide as Hs; [done|]. rewrite group_bit by (apply length_field; lia).
replace (byte_at 0 (field 0 6 f)) with (byte_at 0 f) by (unfold field; rewrite drop_0; destruct f; done).
destruct (Z.testbit _ _); [done|]. rewrite <- learn_seen.
assert (learn (h ++ [(p, f)]) = <[field 6 6 f := p]> (learn h)) as ->
  by (unfold learn; rewrite fold_left_app; cbn [fold_left]; by rewrite forward_table, bool_decide_false).
by destruct (_ !! _).
Qed.

(** * ARP *)

(** An ARP packet of the given operation, and the bytes after it. *)
Definition arp_frame (dm sm : bytes) (op : byte) (sha spa tha tpa rest : bytes) : bytes :=
  dm ++ sm ++ [x08; x06] ++ [x00; x01; x08; x00; x06; x04; x00; op] ++ sha ++ spa ++ tha ++ tpa ++ rest.

Lemma arp_reassemble f : 42 <= length f ->
  f = field 0 6 f ++ field 6 6 f ++ field 12 2 f ++ field 14 8 f ++ field 22 6 f ++ field 28 4 f ++ field 32 6 f ++ field 38 4 f ++ drop 42 f.
Proof.
intros H. rewrite <- (drop_0 f) at 1. rewrite (split_field 0 6), (split_field 6 6), (split_field 12 2), (split_field 14 8), (split_field 22 6), (split_field 28 4),
  (split_field 32 6), (split_field 38 4) by lia. done.
Qed.

Lemma arp_frame_fields dm sm op sha spa tha tpa rest :
  length dm = 6 -> length sm = 6 -> length sha = 6 -> length spa = 4 -> length tha = 6 -> length tpa = 4 ->
  let f := arp_frame dm sm op sha spa tha tpa rest in
  length f = 42 + length rest /\ field 12 2 f = [x08; x06] /\ field 14 8 f = [x00; x01; x08; x00; x06; x04; x00; op] /\
  field 22 6 f = sha /\ field 28 4 f = spa /\ field 38 4 f = tpa.
Proof. intros H1 H2 H3 H4 H5 H6. unfold arp_frame. explode H1. explode H2. explode H3. explode H4. explode H5. explode H6. done. Qed.

(** The switch answers exactly the ARP requests for the gateway's address, whatever
    follows the packet, with the gateway's hardware address, to the sender the packet
    names; the answer is not answered again. *)
Theorem arp_reply_exact frame gip gmac r :
  length gip = 4 -> length gmac = 6 ->
  (arp_gateway_reply frame gip gmac = Some r <->
   exists dm sm sha spa tha rest, length dm = 6 /\ length sm = 6 /\ length sha = 6 /\ length spa = 4 /\ length tha = 6 /\
     frame = arp_frame dm sm x01 sha spa tha gip rest /\ r = arp_frame sha gmac x02 gmac gip sha spa []) /\
  (arp_gateway_reply frame gip gmac = Some r -> forall gip' gmac', arp_gateway_reply r gip' gmac' = None).
Proof.
intros Hg Hm. split; [split|].
- unfold arp_gateway_reply. cbv zeta. intros H. passed_in H. injection H as <-.
  exists (field 0 6 frame), (field 6 6 frame), (field 22 6 frame), (field 28 4 frame), (field 32 6 frame), (drop 42 frame).
  repeat (split; [apply length_field; lia|]). split; [|unfold arp_frame; by rewrite <- !app_assoc, app_nil_r].
  rewrite (arp_reassemble frame) at 1 by lia. unfold arp_frame. congruence.
- intros (dm & sm & sha & spa & tha & rest & H1 & H2 & H3 & H4 & H5 & -> & ->).
  destruct (arp_frame_fields dm sm x01 sha spa tha gip rest H1 H2 H3 H4 H5 Hg) as (L & F1 & F2 & F3 & F4 & F5). unfold arp_gateway_reply. rewrite F1, F2, F3, F4, F5.
  rewrite bool_decide_false by lia. rewrite !bool_decide_true by done. cbn [negb]. cbv zeta. f_equal. unfold arp_frame. by rewrite <- !app_assoc, app_nil_r.
- unfold arp_gateway_reply at 1. cbv zeta. intros H. passed_in H. injection H as <-. intros gip' gmac'.
  match goal with |- arp_gateway_reply ?x _ _ = _ => replace x with (arp_frame (field 22 6 frame) gmac x02 gmac gip (field 22 6 frame) (field 28 4 frame) [])
    by (unfold arp_frame; by rewrite <- !app_assoc, app_nil_r) end.
  destruct (arp_frame_fields (field 22 6 frame) gmac x02 gmac gip (field 22 6 frame) (field 28 4 frame) []) as (L & F1 & F2 & _); try done; try (apply length_field; lia).
  unfold arp_gateway_reply. rewrite F1, F2. case_bool_decide; [done|]. done.
Qed.

Lemma arp_reply_exact_witness :
  exists r, arp_gateway_reply (arp_frame BROADCAST_MAC [x00; x11; x22; x33; x44; x55] x01 [x00; x11; x22; x33; x44; x55] [x0a; x45; x51; x02] (replicate 6 x00)
      [x0a; x45; x51; x01] []) [x0a; x45; x51; x01] GATEWAY_MAC = Some r /\ arp_gateway_reply r [x0a; x45; x51; x01] GATEWAY_MAC = None.
Proof.
eexists. split; [vm_compute; reflexivity|].
apply (arp_reply_exact (arp_frame BROADCAST_MAC [x00; x11; x22; x33; x44; x55] x01 [x00; x11; x22; x33; x44; x55] [x0a; x45; x51; x02] (replicate 6 x00)
      [x0a; x45; x51; x01] []) [x0a; x45; x51; x01] GATEWAY_MAC); vm_compute; reflexivity.
Defined.

(** * The threads *)

(** Where a member's thread is: about to look at the stop flag, blocked in [recv], holding
    a frame before each lock that [route] takes, or delivering.  A socket is cloned under
    the lock and used after it. *)
Inductive pc :=
  | Looping
  | Receiving
  | AtDhcp (f : bytes)
  | AtDns (f : bytes)
  | AtSwitch (f : bytes)
  | AtFlood (f : bytes)
  | Delivering (sends : list (PortId * bytes))
  | Sending (fd : Sock) (g : bytes) (rest : list (PortId * bytes))
  | Exited.

(** An [add_member] under way, after each of its locks. *)
Inductive adding :=
  | NeedLease (p : PortId) (mac ip name : bytes)
  | NeedName (p : PortId) (ip name : bytes)
  | NeedSpawn (p : PortId).

Record machine := mkMachine {
  sh : Shared; stop : bool; threads : gmap PortId pc; pending : list adding;
  received : list (PortId * bytes); sent : list (Sock * bytes) }.

Definition with_sh (s : Shared) (m : machine) : machine := mkMachine s (stop m) (threads m) (pending m) (received m) (sent m).
Definition with_pc (p : PortId) (c : pc) (m : machine) : machine := mkMachine (sh m) (stop m) (<[p := c]> (threads m)) (pending m) (received m) (sent m).
Definition with_pending (l : list adding) (m : machine) : machine := mkMachine (sh m) (stop m) (threads m) l (received m) (sent m).

(** The frame is answered, or goes on to the next stage. *)
Definition answer_or (p : PortId) (reply : option bytes) (next : pc) : pc :=
  match reply with Some r => Delivering [(p, r)] | None => next end.

Definition after_forward (p : PortId) (f : bytes) (d : ForwardDecision) : pc :=
  match d with Unicast q => Delivering [(q, f)] | Flood => AtFlood f | Drop => Delivering [] end.

(** What a step is, for the properties that restrict the environment. *)
Inductive label := LAdd (fd : Sock) | LRemove (name : bytes) | LStop | LTau.

Inductive step : machine -> label -> machine -> Prop :=
  | step_add m fd mac ip name :
      step m (LAdd fd) (with_pending (NeedLease (length (ports (sh m))) mac ip name :: pending m) (with_sh (push_port fd name (sh m)) m))
  | step_lease m l1 l2 p mac ip name :
      pending m = l1 ++ NeedLease p mac ip name :: l2 ->
      step m LTau (with_pending (l1 ++ NeedName p ip name :: l2) (with_sh (seed_lease mac ip (sh m)) m))
  | step_name m l1 l2 p ip name :
      pending m = l1 ++ NeedName p ip name :: l2 ->
      step m LTau (with_pending (l1 ++ NeedSpawn p :: l2) (with_sh (seed_name name ip (sh m)) m))
  | step_spawn m l1 l2 p :
      pending m = l1 ++ NeedSpawn p :: l2 -> step m LTau (with_pending (l1 ++ l2) (with_pc p Looping m))
  | step_spawn_failed m l1 l2 p :
      pending m = l1 ++ NeedSpawn p :: l2 -> step m LTau (with_pending (l1 ++ l2) m)
  | step_remove m name : step m (LRemove name) (with_sh (remove_member name (sh m)) m)
  | step_stop m : step m LStop (mkMachine (sh m) true (threads m) (pending m) (received m) (sent m))
  | step_drop_sockets m : stop m = true -> step m LTau (with_sh (teardown_ports (sh m)) m)
  | step_check m p :
      threads m !! p = Some Looping -> step m LTau (with_pc p (if stop m then Exited else Receiving) m)
  | step_timeout m p : threads m !! p = Some Receiving -> step m LTau (with_pc p Looping m)
  | step_recv_error m p : threads m !! p = Some Receiving -> step m LTau (with_pc p Exited m)
  | step_recv m p f :
      threads m !! p = Some Receiving -> f <> [] -> (Z.of_nat (length f) <= 64 * 1024)%Z ->
      step m LTau (mkMachine (sh m) (stop m) (<[p := AtDhcp f]> (threads m)) (pending m) (received m ++ [(p, f)]) (sent m))
  | step_dhcp m p f :
      threads m !! p = Some (AtDhcp f) ->
      step m LTau (with_pc p (answer_or p (dhcp_handle f (leases (sh m)) (subnet (sh m)) (sgateway (sh m))) (AtDns f)) m)
  | step_dns m p f exchange :
      threads m !! p = Some (AtDns f) ->
      step m LTau (with_pc p (answer_or p (dns_handle exchange f (names (sh m)) (upstream (sh m)))
                     (answer_or p (arp_gateway_reply f (sgateway (sh m)) GATEWAY_MAC) (AtSwitch f))) m)
  | step_switch m p f :
      threads m !! p = Some (AtSwitch f) ->
      step m LTau (with_pc p (after_forward p f (forward f p (macs (sh m))).1) (with_sh (with_macs (forward f p (macs (sh m))).2 (sh m)) m))
  | step_flood m p f :
      threads m !! p = Some (AtFlood f) ->
      step m LTau (with_pc p (Delivering ((fun q => (q, f)) <$> flood_targets p (ports (sh m)))) m)
  | step_clone m p q g rest fd :
      threads m !! p = Some (Delivering ((q, g) :: rest)) -> target (sh m) q = Some fd ->
      step m LTau (with_pc p (Sending fd g rest) m)
  | step_skip m p q g rest :
      threads m !! p = Some (Delivering ((q, g) :: rest)) -> step m LTau (with_pc p (Delivering rest) m)
  | step_send m p fd g rest :
      threads m !! p = Some (Sending fd g rest) ->
      step m LTau (mkMachine (sh m) (stop m) (<[p := Delivering rest]> (threads m)) (pending m) (received m) (sent m ++ [(fd, g)]))
  | step_delivered m p :
      threads m !! p = Some (Delivering []) -> step m LTau (with_pc p Looping m).

(** Runs, with the labels of their steps. *)
Inductive run : machine -> list label -> machine -> Prop :=
  | run_nil m : run m [] m
  | run_cons m l m' ls m'' : step m l m' -> run m' ls m'' -> run m (l :: ls) m''.

Definition boot (sub : Subnet) (up : option bytes) : machine := mkMachine (start sub up) false ∅ [] [] [].

(** ** The invariant *)

(** The descriptors of the members in the order of their ports. *)
Definition added (ls : list label) : list Sock := omap (fun l => match l with LAdd fd => Some fd | _ => None end) ls.

(** A reply of the embedded servers to a frame. *)
Definition answers (f g : bytes) : Prop :=
  (exists ls sub ip, dhcp_handle f ls sub ip = Some g) \/ (exists ex ns up, dns_handle ex f ns up = Some g) \/
  (exists ip, arp_gateway_reply f ip GATEWAY_MAC = Some g).

(** Why a thread may send [g] to port [q]: it carries a frame it received, or an answer to
    one, and the answer only back to its own port. *)
Definition caused (rcv : list (PortId * bytes)) (p q : PortId) (g : bytes) : Prop :=
  exists f, (p, f) ∈ rcv /\ (g = f \/ (q = p /\ answers f g)).

Definition send_ok (n : nat) (rcv : list (PortId * bytes)) (p : PortId) : PortId * bytes -> Prop :=
  fun '(q, g) => q < n /\ caused rcv p q g.

Definition pc_ok (fds : list Sock) (rcv : list (PortId * bytes)) (p : PortId) (c : pc) : Prop :=
  match c with
  | AtDhcp f | AtDns f | AtSwitch f | AtFlood f => (p, f) ∈ rcv
  | Delivering sends => Forall (send_ok (length fds) rcv p) sends
  | Sending fd g rest => (exists q, fds !! q = Some fd /\ caused rcv p q g) /\ Forall (send_ok (length fds) rcv p) rest
  | Looping | Receiving | Exited => True
  end.

Definition adding_port (a : adding) : PortId := match a with NeedLease p _ _ _ | NeedName p _ _ | NeedSpawn p => p end.

Record inv (fds : list Sock) (m : machine) : Prop := {
  inv_ports : length (ports (sh m)) = length fds;
  inv_socks : forall q fd, target (sh m) q = Some fd -> fds !! q = Some fd;
  inv_macs : forall mac q, macs (sh m) !! mac = Some q -> q < length fds;
  inv_pending : Forall (fun a => adding_port a < length fds) (pending m);
  inv_threads : forall p c, threads m !! p = Some c -> p < length fds /\ pc_ok fds (received m) p c;
  inv_sent : forall fd g, (fd, g) ∈ sent m -> exists p q, fds !! q = Some fd /\ caused (received m) p q g }.

Lemma caused_mono rcv rcv' p q g : rcv ⊆ rcv' -> caused rcv p q g -> caused rcv' p q g.
Proof. intros H (f & Hf & Hg). exists f. split; [by apply H|done]. Qed.

Lemma sends_mono n n' rcv rcv' p l : n <= n' -> rcv ⊆ rcv' -> Forall (send_ok n rcv p) l -> Forall (send_ok n' rcv' p) l.
Proof. intros Hn Hr H. eapply Forall_impl; [exact H|]. intros [q g] [Hq Hc]. split; [lia|by eapply caused_mono]. Qed.

Lemma pc_ok_mono fds fds' rcv rcv' p c : fds `prefix_of` fds' -> rcv ⊆ rcv' -> pc_ok fds rcv p c -> pc_ok fds' rcv' p c.
Proof.
intros Hp Hr. pose proof (prefix_length _ _ Hp) as Hl. destruct c; cbn [pc_ok]; try done; try (by intros H; apply Hr); try by apply sends_mono; [lia|].
intros [(q & Hq & Hc) Hs]. split; [|by eapply sends_mono]. exists q. split; [exact (prefix_lookup_Some _ _ _ _ Hq Hp)|by eapply caused_mono].
Qed.

(** A thread moves on: the rest of the state only grows. *)
Lemma inv_thread fds m p c rcv :
  inv fds m -> p < length fds -> received m ⊆ rcv -> pc_ok fds rcv p c ->
  inv fds (mkMachine (sh m) (stop m) (<[p := c]> (threads m)) (pending m) rcv (sent m)).
Proof.
intros [H1 H2 H3 H4 H5 H6] Hp Hr Hc. split; cbn [sh threads pending received sent]; try done.
- intros p' c'. rewrite lookup_insert_Some. intros [[<- <-]|[_ H]]; [done|]. destruct (H5 p' c' H). split; [done|]. by eapply pc_ok_mono.
- intros fd g H. destruct (H6 fd g H) as (p' & q & Hq & Hca). exists p', q. split; [done|]. by eapply caused_mono.
Qed.

Lemma inv_with_pc fds m p c c0 : inv fds m -> threads m !! p = Some c0 -> pc_ok fds (received m) p c -> inv fds (with_pc p c m).
Proof. intros Hi Hp Hc. apply (inv_thread fds m p c (received m)); try done. by eapply inv_threads. Qed.

Lemma inv_with_sh fds m s :
  inv fds m -> length (ports s) = length fds -> (forall q fd, target s q = Some fd -> fds !! q = Some fd) ->
  (forall mac q, macs s !! mac = Some q -> q < length fds) -> inv fds (with_sh s m).
Proof. intros [H1 H2 H3 H4 H5 H6] A B C. by split. Qed.

Lemma inv_with_pending fds m l : inv fds m -> Forall (fun a => adding_port a < length fds) l -> inv fds (with_pending l m).
Proof. intros [H1 H2 H3 H4 H5 H6] A. by split. Qed.

(** Taking sockets away, whatever the choice. *)
Lemma target_fmap s g q fd :
  (forall p, sock (g p) = sock p \/ sock (g p) = None) -> target (with_ports (g <$> ports s) s) q = Some fd -> target s q = Some fd.
Proof.
intros Hg. unfold target. cbn [with_ports ports]. rewrite list_lookup_fmap.
destruct (ports s !! q) as [x|]; cbn; [|done].
destruct (Hg x) as [->| ->]; by intros.
Qed.

Lemma answer_or_ok fds rcv p f r c :
  p < length fds -> (p, f) ∈ rcv -> (forall g, r = Some g -> answers f g) -> pc_ok fds rcv p c -> pc_ok fds rcv p (answer_or p r c).
Proof.
intros Hp Hf Hr Hc. destruct r as [g|]; [|done]. cbn [answer_or pc_ok]. apply Forall_singleton. split; [done|]. exists f. split; [done|]. right. split; [done|by apply Hr].
Qed.

Lemma forward_in_range f p t n q mac :
  (forall mac q, t !! mac = Some q -> q < n) -> p < n -> (forward f p t).2 !! mac = Some q -> q < n.
Proof.
intros Ht Hp. rewrite forward_table. case_match; [apply Ht|]. rewrite lookup_insert_Some. intros [[_ <-]|[_ Hx]]; [done|by eapply Ht].
Qed.

Lemma forward_unicast f p t q : (forward f p t).1 = Unicast q -> exists mac, (forward f p t).2 !! mac = Some q.
Proof.
unfold forward. case_bool_decide; [done|]. destruct (_ || _); [done|]. destruct (_ !! field 0 6 f) as [q'|] eqn:E; [|done]. intros [= ->]. by exists (field 0 6 f).
Qed.

Lemma elem_of_flood_targets p ps q : q ∈ flood_targets p ps <-> q <> p /\ is_Some (ps !! q ≫= sock).
Proof.
unfold flood_targets. rewrite list_elem_of_filter, elem_of_seq. split; [tauto|]. intros [Hq Hs]. split; [done|].
destruct (ps !! q) eqn:E; [|by destruct Hs]. apply lookup_lt_Some in E. lia.
Qed.

Lemma inv_add fds m fd mac ip name :
  inv fds m -> inv (fds ++ [fd]) (with_pending (NeedLease (length (ports (sh m))) mac ip name :: pending m) (with_sh (push_port fd name (sh m)) m)).
Proof.
intros [H1 H2 H3 H4 H5 H6]. assert (length (fds ++ [fd]) = S (length fds)) as Hl by (rewrite length_app; cbn [length]; lia).
split; cbn [with_pending with_sh sh threads pending received sent push_port with_ports ports macs].
- rewrite length_app, Hl. cbn [length]. lia.
- intros q fd'. unfold target. cbn [push_port with_ports ports]. destruct (decide (q < length (ports (sh m)))) as [Hq|Hq].
  + rewrite lookup_app_l by done. intros H. rewrite lookup_app_l by lia. by apply H2.
  + rewrite lookup_app_r by lia. destruct (q - length (ports (sh m))) as [|k] eqn:E; [|by destruct k]. cbn. intros [= ->].
    rewrite lookup_app_r by lia. by replace (q - length fds) with 0 by lia.
- intros mac' q H. apply H3 in H. lia.
- constructor; [cbn [adding_port]; lia|]. eapply Forall_impl; [exact H4|]. cbn beta. lia.
- intros p c H. destruct (H5 p c H) as [Hp Hc]. split; [lia|]. eapply pc_ok_mono; [by apply prefix_app_r|done|done].
- intros fd' g H. destruct (H6 fd' g H) as (p & q & Hq & Hc). exists p, q. split; [by apply lookup_app_l_Some|done].
Qed.

Lemma inv_send fds m p fd g rest :
  inv fds m -> threads m !! p = Some (Sending fd g rest) ->
  inv fds (mkMachine (sh m) (stop m) (<[p := Delivering rest]> (threads m)) (pending m) (received m) (sent m ++ [(fd, g)])).
Proof.
intros Hi Ht. destruct (inv_threads _ _ Hi _ _ Ht) as [Hp [(q & Hq & Hc) Hs]].
destruct (inv_thread fds m p (Delivering rest) (received m) Hi Hp (fun _ H => H) Hs) as [H1 H2 H3 H4 H5 H6]. split; try done. cbn [sent received] in *.
intros fd' g' [H|H]%elem_of_app; [by apply H6|]. apply list_elem_of_singleton in H as [= -> ->]. by exists p, q.
Qed.

Lemma step_inv fds m l m' : inv fds m -> step m l m' -> inv (fds ++ added [l]) m'.
Proof.
intros Hi Hs. pose proof (inv_pending _ _ Hi) as Hpe. destruct Hs as [m fd mac ip name|m l1 l2 p mac ip name E|m l1 l2 p ip name E|m l1 l2 p E|m l1 l2 p E| | | | | | | m p f E|m p f E|m p f ex E|m p f E|m p f E|m p q g rest fd E Et|m p q g rest E| |];
  cbn [added omap list_omap]; rewrite ?app_nil_r; try rewrite E, Forall_app, Forall_cons in Hpe;
  try (by apply inv_add); try (by apply inv_send); try (by eapply inv_with_pc);
  try match goal with E : threads _ !! p = Some _ |- _ => destruct (inv_threads _ _ Hi _ _ E) as [Hp Hc] end.
- apply inv_with_pending; [by apply inv_with_sh; apply Hi|]. rewrite Forall_app, Forall_cons. exact Hpe.
- apply inv_with_pending; [by apply inv_with_sh; apply Hi|]. rewrite Forall_app, Forall_cons. exact Hpe.
- apply inv_with_pending; [|rewrite Forall_app; tauto]. apply (inv_thread fds m p Looping (received m)); try done. apply Hpe.
- apply inv_with_pending; [done|]. rewrite Forall_app. tauto.
- apply inv_with_sh; try apply Hi; [by cbn; rewrite length_fmap; apply Hi|]. intros q fd H. apply (inv_socks _ _ Hi). eapply target_fmap; [|exact H]. intros x. cbn beta. destruct (bool_decide _); auto.
- by destruct Hi.
- apply inv_with_sh; try apply Hi; [by cbn; rewrite length_fmap; apply Hi|]. intros q fd Hq. apply (inv_socks _ _ Hi). eapply target_fmap; [|exact Hq]. auto.
- eapply inv_with_pc; [done|done|]. by destruct (stop m).
- apply inv_thread; [done|done|set_solver|]. cbn [pc_ok]. set_solver.
- eapply inv_with_pc; [done|done|]. apply (answer_or_ok _ _ _ f); try done. intros g Hg. left. eauto.
- eapply inv_with_pc; [done|done|]. apply (answer_or_ok _ _ _ f); try done; [intros g Hg; right; left; eauto|]. apply (answer_or_ok _ _ _ f); try done.
  intros g Hg. right; right; eauto.
- set (s := with_macs _ (sh m)). assert (inv fds (with_sh s m)) as Hi'.
  { apply inv_with_sh; try apply Hi. intros mac q. cbn [s with_macs macs]. apply forward_in_range; [apply (inv_macs _ _ Hi)|done]. }
  eapply inv_with_pc; [done|done|]. unfold after_forward. destruct (forward f p (macs (sh m))).1 eqn:Ef; cbn [pc_ok]; try done.
  apply Forall_singleton. destruct (forward_unicast _ _ _ _ Ef) as [mac Hm]. split; [by apply (inv_macs _ _ Hi' mac)|]. exists f. auto.
- eapply inv_with_pc; [done|done|]. cbn [pc_ok]. apply Forall_fmap, Forall_forall. intros q [Hq [fd Hf]]%elem_of_flood_targets.
  split; [by eapply lookup_lt_Some, (inv_socks _ _ Hi)|]. exists f. auto.
- eapply inv_with_pc; [done|done|]. cbn [pc_ok] in *. apply Forall_cons in Hc as [[Hq Hca] Hr]. split; [|done]. exists q. split; [by apply (inv_socks _ _ Hi)|done].
- eapply inv_with_pc; [done|done|]. cbn [pc_ok] in *. by apply Forall_cons in Hc as [_ Hr].
Qed.

Lemma run_inv fds m ls m' : inv fds m -> run m ls m' -> inv (fds ++ added ls) m'.
Proof.
intros Hi Hr. revert fds Hi. induction Hr as [m|m l m' ls m'' Hs Hr IH]; intros fds Hi; [by rewrite app_nil_r|].
replace (fds ++ added (l :: ls)) with ((fds ++ added [l]) ++ added ls) by (rewrite <- app_assoc; unfold added; by rewrite <- omap_app).
by eapply IH, step_inv.
Qed.

Lemma boot_inv sub up : inv [] (boot sub up).
Proof. split; cbn; try done. intros ? ? H. by apply elem_of_nil in H. Qed.


(** ** A removed member *)

(** No port leads to the socket and no thread holds a clone of it. *)
Definition detached (fd : Sock) (m : machine) : Prop :=
  (forall q, target (sh m) q <> Some fd) /\ (forall p g rest, threads m !! p <> Some (Sending fd g rest)).

Definition sent_to (fd : Sock) (m : machine) : list bytes := omap (fun '(fd', g) => if bool_decide (fd' = fd) then Some g else None) (sent m).

Lemma target_push fd' name s q fd : target (push_port fd' name s) q = Some fd -> fd = fd' \/ target s q = Some fd.
Proof.
unfold target. cbn [push_port with_ports ports]. destruct (decide (q < length (ports s))) as [Hq|Hq]; [rewrite lookup_app_l by done; auto|].
rewrite lookup_app_r by lia. destruct (q - length (ports s)) as [|k]; [|by destruct k]. cbn. intros [= ->]. auto.
Qed.

(** A thread that does not take up a clone of the socket. *)
Lemma detached_pc fd m p c : detached fd m -> (forall g rest, c <> Sending fd g rest) -> detached fd (with_pc p c m).
Proof.
intros [H1 H2] Hc. split; [done|]. intros p' g rest. cbn [with_pc threads]. rewrite lookup_insert_Some. intros [[_ E]|[_ E]]; [by eapply Hc|by eapply H2].
Qed.

Lemma detached_sh fd m s : detached fd m -> (forall q, target s q = Some fd -> target (sh m) q = Some fd) -> detached fd (with_sh s m).
Proof. intros [H1 H2] H. split; [|done]. intros q E. by eapply H1, H. Qed.

Lemma detached_step fd m l m' : detached fd m -> l <> LAdd fd -> step m l m' -> detached fd m' /\ sent_to fd m' = sent_to fd m.
Proof.
intros Hd Hl Hs. destruct Hs as [m fd' mac ip name| | | | |m name| |m Hst| | | |m p f E|m p f E|m p f ex E|m p f E| |m p q g rest fd' E Et| |m p fd' g rest E|];
  try (split; [exact Hd|done]); try (split; [by apply detached_pc|done]).
- split; [|done]. destruct Hd as [H1 H2]. split; [|done]. intros q [->|H]%target_push; [done|by eapply H1].
- split; [|done]. apply detached_sh; [done|]. intros q. apply target_fmap. intros x. cbn beta. destruct (bool_decide _); auto.
- split; [|done]. apply detached_sh; [done|]. intros q. apply target_fmap. auto.
- split; [|done]. apply detached_pc; [done|]. by destruct (stop m).
- split; [|done]. apply detached_pc; [done|]. by destruct (dhcp_handle _ _ _ _).
- split; [|done]. apply detached_pc; [done|]. by destruct (dns_handle _ _ _ _); [|destruct (arp_gateway_reply _ _ _)].
- split; [|done]. apply detached_pc; [by apply detached_sh|]. by destruct (forward _ _ _).1.
- split; [|done]. apply detached_pc; [done|]. intros g' rest' [= -> _ _]. by destruct Hd as [H1 _]; eapply H1.
- split; [by apply (detached_pc fd m p (Delivering rest))|]. unfold sent_to. cbn [sent]. rewrite omap_app. cbn [omap list_omap].
  rewrite bool_decide_false; [by rewrite app_nil_r|]. intros ->. destruct Hd as [_ H2]. by eapply H2.
Qed.

Lemma detached_run fd m ls m' : detached fd m -> LAdd fd ∉ ls -> run m ls m' -> sent_to fd m' = sent_to fd m.
Proof.
intros Hd Hl Hr. induction Hr as [|m l m' ls m'' Hs Hr IH]; [done|]. apply not_elem_of_cons in Hl as [Hl Hls].
destruct (detached_step fd m l m' Hd) as [Hd' <-]; [congruence|done|]. by apply IH.
Qed.

(** C30: a removed member gets nothing more: once [remove_member] has dropped the socket,
    and unless a thread had cloned it before, no continuation of the run sends to it, with
    whatever stale entries the learning table and the deliveries under way still have, as
    long as the descriptor does not join again. *)
Theorem removed_unreachable m name fd ls m' :
  (forall q p, ports (sh m) !! q = Some p -> sock p = Some fd -> pname p = name) ->
  (forall p g rest, threads m !! p <> Some (Sending fd g rest)) ->
  LAdd fd ∉ ls -> run (with_sh (remove_member name (sh m)) m) ls m' -> sent_to fd m' = sent_to fd m.
Proof.
intros Hn Ht Hl Hr. apply (detached_run fd (with_sh (remove_member name (sh m)) m) ls m'); [|done|done]. split; [|done].
intros q. unfold target. cbn [with_sh sh remove_member with_ports ports]. rewrite list_lookup_fmap. destruct (ports (sh m) !! q) as [x|] eqn:E; cbn; [|done].
case_bool_decide as Hx; cbn; [done|]. intros Hs. by eapply Hx, Hn.
Qed.

(** ** One frame, undisturbed *)

Definition in_thread (s : Shared) (st : bool) (t : gmap PortId pc) (pe : list adding) (rcv : list (PortId * bytes)) (out : list (Sock * bytes))
  (p : PortId) (c : pc) : machine := mkMachine s st (<[p := c]> t) pe rcv out.

(** A step of the thread that only moves it on. *)
Lemma run_tau m m' m'' ls : step m LTau m' -> run m' ls m'' -> run m (LTau :: ls) m''.
Proof. by apply run_cons. Qed.

Lemma with_pc_in_thread s st t pe rcv out p c c' : with_pc p c' (in_thread s st t pe rcv out p c) = in_thread s st t pe rcv out p c'.
Proof. unfold with_pc, in_thread. cbn [sh stop threads pending received sent]. by rewrite insert_insert_eq. Qed.

Section undisturbed.
Context (st : bool) (t : gmap PortId pc) (pe : list adding) (p : PortId).

(** A move within the thread. *)
Lemma move_run s rcv out c c' ls m'' :
  step (in_thread s st t pe rcv out p c) LTau (with_pc p c' (in_thread s st t pe rcv out p c)) ->
  run (in_thread s st t pe rcv out p c') ls m'' -> run (in_thread s st t pe rcv out p c) (LTau :: ls) m''.
Proof. rewrite with_pc_in_thread. apply run_tau. Qed.

Lemma deliver_run s rcv out sends :
  exists n, run (in_thread s st t pe rcv out p (Delivering sends)) (replicate n LTau) (in_thread s st t pe rcv (out ++ deliver s sends) p Looping).
Proof.
revert out. induction sends as [|[q g] sends IH]; intros out.
- exists 1. rewrite app_nil_r. eapply move_run; [|constructor]. apply step_delivered. apply lookup_insert_eq.
- unfold deliver. cbn [omap list_omap]. fold (deliver s sends). destruct (target s q) as [fd|] eqn:Et; cbn [fmap option_fmap option_map].
  + destruct (IH (out ++ [(fd, g)])) as [n Hn]. rewrite <- app_assoc in Hn. exists (S (S n)). eapply move_run; [eapply step_clone; [apply lookup_insert_eq|exact Et]|].
    eapply run_tau; [eapply step_send, lookup_insert_eq|]. cbn [in_thread sh stop threads pending received sent]. rewrite insert_insert_eq. exact Hn.
  + destruct (IH out) as [n Hn]. exists (S n). eapply move_run; [eapply step_skip, lookup_insert_eq|exact Hn].
Qed.

Lemma switch_run s rcv out f :
  let '(d, mt) := forward f p (macs s) in
  let s' := with_macs mt s in
  let sends := match d with Unicast q => [(q, f)] | Flood => (fun q => (q, f)) <$> flood_targets p (ports s') | Drop => [] end in
  exists n, run (in_thread s st t pe rcv out p (AtSwitch f)) (replicate n LTau) (in_thread s' st t pe rcv (out ++ deliver s' sends) p Looping).
Proof.
destruct (forward f p (macs s)) as [d mt] eqn:Ef. cbv zeta. set (s' := with_macs mt s).
assert (step (in_thread s st t pe rcv out p (AtSwitch f)) LTau (in_thread s' st t pe rcv out p (after_forward p f d))) as Hs.
{ pose proof (step_switch (in_thread s st t pe rcv out p (AtSwitch f)) p f (lookup_insert_eq _ _ _)) as H. cbn [in_thread sh] in H. rewrite Ef in H. cbn [fst snd] in H.
  unfold with_pc, with_sh, in_thread in *. cbn [sh stop threads pending received sent] in *. by rewrite insert_insert_eq in H. }
destruct d as [q| |]; cbn [after_forward] in Hs.
- destruct (deliver_run s' rcv out [(q, f)]) as [n Hn]. exists (S n). by eapply run_tau.
- destruct (deliver_run s' rcv out ((fun q => (q, f)) <$> flood_targets p (ports s'))) as [n Hn]. exists (S (S n)). eapply run_tau; [exact Hs|].
  eapply move_run; [eapply step_flood, lookup_insert_eq|exact Hn].
- destruct (deliver_run s' rcv out []) as [n Hn]. exists (S n). by eapply run_tau.
Qed.
End undisturbed.

(** The threads implement [route] and [deliver]: a thread that receives a frame and is
    not disturbed ends, after finitely many critical sections, in front of its next
    [recv], with the state [route] computes and with the datagrams [deliver] makes of the
    sends of [route] as the only new output. *)
Theorem route_run exchange s st t pe rcv out p f :
  f <> [] -> (Z.of_nat (length f) <= 64 * 1024)%Z ->
  let '(sends, s') := route exchange f p s in
  exists n, run (in_thread s st t pe rcv out p Receiving) (replicate n LTau) (in_thread s' st t pe (rcv ++ [(p, f)]) (out ++ deliver s' sends) p Looping).
Proof.
intros Hne Hlen. destruct (route exchange f p s) as [sends s'] eqn:Er.
enough (exists n, run (in_thread s st t pe (rcv ++ [(p, f)]) out p (AtDhcp f)) (replicate n LTau) (in_thread s' st t pe (rcv ++ [(p, f)]) (out ++ deliver s' sends) p Looping)) as [n Hn].
{ exists (S n). eapply run_tau; [by apply (step_recv _ p f); [apply lookup_insert_eq|..]|]. cbn [in_thread sh stop threads pending received sent]. by rewrite insert_insert_eq. }
assert (forall n c, step (in_thread s st t pe (rcv ++ [(p, f)]) out p (AtDhcp f)) LTau (with_pc p c (in_thread s st t pe (rcv ++ [(p, f)]) out p (AtDhcp f))) ->
  run (in_thread s st t pe (rcv ++ [(p, f)]) out p c) (replicate n LTau) (in_thread s' st t pe (rcv ++ [(p, f)]) (out ++ deliver s' sends) p Looping) ->
  exists n, run (in_thread s st t pe (rcv ++ [(p, f)]) out p (AtDhcp f)) (replicate n LTau) (in_thread s' st t pe (rcv ++ [(p, f)]) (out ++ deliver s' sends) p Looping)) as Hgo.
{ intros n c H1 H2. exists (S n). by eapply move_run. }
pose proof (step_dhcp (in_thread s st t pe (rcv ++ [(p, f)]) out p (AtDhcp f)) p f (lookup_insert_eq _ _ _)) as H1. cbn [in_thread sh] in H1.
unfold route in Er. destruct (dhcp_handle f (leases s) (subnet s) (sgateway s)) as [r|].
{ injection Er as <- <-. destruct (deliver_run st t pe p s (rcv ++ [(p, f)]) out [(p, r)]) as [n Hn]. by eapply Hgo. }
pose proof (step_dns (in_thread s st t pe (rcv ++ [(p, f)]) out p (AtDns f)) p f exchange (lookup_insert_eq _ _ _)) as H2. cbn [in_thread sh] in H2.
enough (exists n, run (in_thread s st t pe (rcv ++ [(p, f)]) out p (AtDns f)) (replicate n LTau) (in_thread s' st t pe (rcv ++ [(p, f)]) (out ++ deliver s' sends) p Looping))
  as [n Hn] by (by eapply Hgo).
destruct (dns_handle exchange f (names s) (upstream s)) as [r|].
{ injection Er as <- <-. destruct (deliver_run st t pe p s (rcv ++ [(p, f)]) out [(p, r)]) as [n Hn]. exists (S n). by eapply move_run. }
cbn [answer_or] in H2. destruct (arp_gateway_reply f (sgateway s) GATEWAY_MAC) as [r|].
{ injection Er as <- <-. destruct (deliver_run st t pe p s (rcv ++ [(p, f)]) out [(p, r)]) as [n Hn]. exists (S n). by eapply move_run. }
pose proof (switch_run st t pe p s (rcv ++ [(p, f)]) out f) as H3. destruct (forward f p (macs s)) as [d mt]. cbv zeta in H3. destruct H3 as [n Hn].
exists (S n). eapply move_run; [exact H2|]. destruct d; injection Er as <- <-; exact Hn.
Qed.

(** ** The names that resolve *)

Definition member_names (s : Shared) : list bytes := pname <$> ports s.

Definition adding_name (s : Shared) (a : adding) : Prop :=
  match a with NeedLease _ _ _ name | NeedName _ _ name => name ∈ member_names s | NeedSpawn _ => True end.

Definition names_ok (m : machine) : Prop :=
  (forall k ip, names (sh m) !! k = Some ip -> k ∈ to_ascii_lowercase <$> member_names (sh m)) /\ Forall (adding_name (sh m)) (pending m).

Lemma names_ok_grow m s l :
  names_ok m -> names s = names (sh m) -> member_names (sh m) ⊆ member_names s -> Forall (adding_name s) l ->
  names_ok (with_pending l (with_sh s m)).
Proof.
intros [H1 _] En Hm Hl. split; [|done]. cbn [with_pending with_sh sh]. rewrite En. intros k ip H. apply H1, list_elem_of_fmap in H as (x & -> & Hx). apply list_elem_of_fmap. eauto.
Qed.

Lemma member_names_fmap s g : (forall p, pname (g p) = pname p) -> member_names (with_ports (g <$> ports s) s) = member_names s.
Proof. intros H. unfold member_names. cbn [with_ports ports]. rewrite <- list_fmap_compose. apply list_fmap_ext. intros. apply H. Qed.

Lemma names_ok_same m s : names_ok m -> names s = names (sh m) -> member_names s = member_names (sh m) -> names_ok (with_sh s m).
Proof.
intros [H1 H2] En Em. split; cbn [with_sh sh pending]; [by rewrite En, Em|]. eapply Forall_impl; [exact H2|]. intros a. unfold adding_name. by rewrite Em.
Qed.

Lemma names_step m l m' : names_ok m -> step m l m' -> names_ok m'.
Proof.
intros Hi Hs. pose proof Hi as [Hn Hp]. destruct Hs as [m fd mac ip name|m l1 l2 p mac ip name E|m l1 l2 p ip name E|m l1 l2 p E|m l1 l2 p E|m name| |m Hst| | | | | | |m p f E| | | | |];
  try exact Hi; try (rewrite E, Forall_app, Forall_cons in Hp).
- assert (member_names (push_port fd name (sh m)) = member_names (sh m) ++ [name]) as Em by (unfold member_names; cbn; by rewrite fmap_app).
  apply names_ok_grow; [done|done|rewrite Em; set_solver|]. constructor; [cbn [adding_name]; rewrite Em; set_solver|].
  eapply Forall_impl; [exact Hp|]. intros [] H; cbn [adding_name] in *; try done; rewrite Em; set_solver.
- apply names_ok_grow; [done|done|done|]. by rewrite Forall_app, Forall_cons.
- split; cbn [with_pending with_sh sh pending].
  + intros k ip'. cbn [seed_name names]. rewrite lookup_insert_Some. intros [[<- <-]|[_ H]]; [|by apply Hn in H]. apply list_elem_of_fmap. exists name. split; [done|]. apply Hp.
  + rewrite Forall_app, Forall_cons. by destruct Hp as (? & ? & ?).
- split; [exact Hn|]. cbn. rewrite Forall_app. tauto.
- split; [exact Hn|]. cbn. rewrite Forall_app. tauto.
- apply names_ok_same; [done|done|]. apply member_names_fmap. intros x. by destruct (bool_decide _).
- apply names_ok_same; [done|done|]. by apply member_names_fmap.
Qed.

Lemma names_run m ls m' : names_ok m -> run m ls m' -> names_ok m'.
Proof. intros Hi Hr. induction Hr; [done|]. by eapply IHHr, names_step. Qed.

(** Only the names members join with resolve.  In every reachable state a query for a
    name that no member has, up to case, is left unanswered when the host has no resolver,
    so the aliases a member was given do not resolve. *)
Theorem alias_unanswered sub up ls m exchange frame d q :
  run (boot sub up) ls m -> dns_frame frame d q ->
  normalize_name (dotted (dm_labels q)) ∉ to_ascii_lowercase <$> member_names (sh m) ->
  dns_handle exchange frame (names (sh m)) None = None.
Proof.
intros Hr Hf Hn. assert (names_ok (boot sub up)) as Hb by (split; [by intros|constructor]). destruct (names_run _ _ _ Hb Hr) as [H1 _].
rewrite (dns_not_owned exchange frame d q); [done|done|]. intros _. destruct (names (sh m) !! _) as [ip|] eqn:E; [|done]. by apply H1 in E.
Qed.

(** ** A run *)

(** A member joins with port 0, receives a frame and floods it to nobody. *)
Lemma sample_run : exists n m, run (boot sample_subnet None) (LAdd 7 :: replicate n LTau) m /\ names (sh m) = sample_names /\ pname <$> ports (sh m) = [str "Web"].
Proof.
exists 2. eexists. split; [|split].
- eapply run_cons; [apply (step_add _ 7 [x52; x55; x0a; x45; x00; x02] [x0a; x45; x00; x03] (str "Web"))|].
  eapply run_cons; [by apply (step_lease _ [] [])|]. eapply run_cons; [by apply (step_name _ [] [])|]. constructor.
- cbn [with_pending with_sh sh seed_name seed_lease push_port with_ports boot start names]. unfold sample_names.
  assert (to_ascii_lowercase (str "Web") = str "web") as -> by (vm_compute; reflexivity). by rewrite insert_empty.
- reflexivity.
Qed.


Definition sample_machine : machine := mkMachine (push_port 7 (str "web") (start sample_subnet None)) false {[ 1 := Delivering [(0, str "hello")] ]} [] [(1, str "hello")] [].

Lemma removed_unreachable_witness :
  exists m', run (with_sh (remove_member (str "web") (sh sample_machine)) sample_machine) [LTau] m' /\ sent_to 7 m' = [].
Proof.
assert (run (with_sh (remove_member (str "web") (sh sample_machine)) sample_machine) [LTau] (with_pc 1 (Delivering []) (with_sh (remove_member (str "web") (sh sample_machine)) sample_machine))) as Hr
  by (eapply run_cons; [by apply (step_skip _ 1 0 (str "hello"))|constructor]).
eexists. split; [exact Hr|]. apply (removed_unreachable sample_machine (str "web") 7 [LTau] _); [| | |exact Hr].
- intros [|q] p H Hs; [by injection H as <-|by destruct q].
- intros p g rest. cbn [sample_machine threads]. rewrite lookup_singleton_Some. by intros [_ ?].
- intros H%list_elem_of_singleton. discriminate H.
Defined.

Lemma route_run_witness :
  exists n, run (in_thread (start sample_subnet None) false ∅ [] [] [] 0 Receiving) (replicate n LTau)
    (in_thread (start sample_subnet None) false ∅ [] [(0, [x00])] [] 0 Looping).
Proof.
pose proof (route_run (fun _ _ => None) (start sample_subnet None) false ∅ [] [] [] 0 [x00]) as H.
assert (route (fun _ _ => None) [x00] 0 (start sample_subnet None) = ([], start sample_subnet None)) as E by (vm_compute; reflexivity).
rewrite E in H. apply H; [discriminate|by_eval].
Defined.

Lemma alias_unanswered_witness :
  exists m, names (sh m) = sample_names /\
    dns_handle (fun _ _ => None) (frame_bytes (built [x52; x55; x0a; x45; x00; x02] [x02; x00; x00; x00; x00; x01] [x0a; x45; x00; x02] [x0a; x45; x00; x01] 40000 DNS_PORT
      (dns_bytes (mkDnsMsg 7 0x0100 (replicate 6 x00) [str "frontend"] 1 1 [])))) (names (sh m)) None = None.
Proof.
destruct sample_run as (n & m & Hr & Hn & Hp). exists m. split; [exact Hn|].
eapply (alias_unanswered sample_subnet None _ m (fun _ _ => None) _ _ (mkDnsMsg 7 0x0100 (replicate 6 x00) [str "frontend"] 1 1 []) Hr).
- split; [|split; [reflexivity|split; [reflexivity|split; [|reflexivity]]]].
  + apply built_wf. 1-4: reflexivity. 1-2: by_eval. vm_compute. reflexivity.
  + split; [by_eval|by_eval|reflexivity|apply Forall_singleton; unfold label_ok; by_eval|by_eval|by_eval|by_eval].
- unfold member_names. rewrite Hp. by_eval.
Defined.
