(* ===== verification/DockerIgnore.v ===== *)
(** The build context filter (crates/lightr-build/src/build/dockerignore.rs): the rules of
    a [.dockerignore] file, the wildcard matcher of one path segment and the matcher of
    whole paths. *)

From S2P Require Import Prelude Text.

(** * Rules *)

Record Rule := mkRule { segments : list bytes; exception : bool }.
Record DockerIgnore := mkIgnore { rules : list Rule; active : bool }.

(** [DockerIgnore::default()], the matcher of a context without the file. *)
Definition inactive : DockerIgnore := mkIgnore [] false.

(** [split(['/', '\\'])] without empty and [.] segments; [clean_pattern] and [split_rel]
    are the same code. *)
Definition backslash_to_slash (s : bytes) : bytes := (fun b => if bool_decide (b = x5c) then x2f else b) <$> s.

Definition clean_pattern (body : bytes) : list bytes :=
  filter (fun s => s <> [] /\ s <> str ".") (split_on x2f (backslash_to_slash body)).

Definition split_rel (rel : bytes) : list bytes := clean_pattern rel.

(** [trim_end_matches('\r')]. *)
Fixpoint drop_while (c : byte) (s : bytes) : bytes :=
  match s with
  | b :: r => if bool_decide (b = c) then drop_while c r else s
  | [] => []
  end.

Definition trim_end_byte (c : byte) (s : bytes) : bytes := reverse (drop_while c (reverse s)).

Definition parse_line (raw : bytes) : option Rule :=
  let line := trim_end_byte x0d raw in
  if bool_decide (line = []) || starts_with (str "#") line then None else
  let '(exception, body) := match strip_prefix (str "!") line with Some rest => (true, rest) | None => (false, line) end in
  let body := trim body in
  if bool_decide (body = []) then None else
  let segments := clean_pattern body in
  if bool_decide (segments = []) then None else Some (mkRule segments exception).

Definition parse (text : bytes) : DockerIgnore := mkIgnore (omap parse_line (lines text)) true.

(** What [read_to_string] of the file gave; a file that cannot be read is absent. *)
Definition load (file : option bytes) : DockerIgnore := match file with Some text => parse text | None => inactive end.

(** * One segment *)

Definition STAR : bytes := [x2a].
Definition QUEST : bytes := [x3f].

(** How the loop over the name ends: by [return false], or at an index of the pattern. *)
Inductive outcome := Rejected | AtEnd (pi : nat).

(** The loop, one turn at a time; [None] when the turns given are used up. *)
Fixpoint segment_loop (turns : nat) (p n : list bytes) (pi ni : nat) (star : option nat) (mark : nat) : option outcome :=
  match turns with
  | O => None
  | S turns =>
      if bool_decide (ni < length n) then
        if bool_decide (pi < length p) && (bool_decide (p !! pi = Some QUEST) || bool_decide (p !! pi = n !! ni))
        then segment_loop turns p n (pi + 1) (ni + 1) star mark
        else if bool_decide (pi < length p) && bool_decide (p !! pi = Some STAR)
        then segment_loop turns p n (pi + 1) ni (Some pi) ni
        else match star with
        | Some s => segment_loop turns p n (s + 1) (mark + 1) star (mark + 1)
        | None => Some Rejected
        end
      else Some (AtEnd pi)
  end.

(** [while pi < p.len() && p[pi] == '*' { pi += 1 }]. *)
Fixpoint skip_stars (p : list bytes) : nat :=
  match p with
  | c :: p => if bool_decide (c = STAR) then S (skip_stars p) else 0
  | [] => 0
  end.

(** Each turn advances in the name, or in the pattern, or restarts one further on. *)
Definition segment_turns (p n : list bytes) : nat := (length n + 1) * (length p + length n + 2).

Definition segment_match (pat name : bytes) : bool :=
  let p := chars_of pat in
  let n := chars_of name in
  match segment_loop (segment_turns p n) p n 0 0 None 0 with
  | Some (AtEnd pi) => bool_decide (pi + skip_stars (drop pi p) = length p)
  | _ => false
  end.

(** * Paths *)

Fixpoint match_from (pattern path : list bytes) (allow_prefix : bool) {struct pattern} : bool :=
  match pattern with
  | [] => bool_decide (path = []) || allow_prefix
  | p0 :: rest =>
      if bool_decide (p0 = str "**") then
        (fix absorb (path : list bytes) : bool :=
           match_from rest path allow_prefix || match path with [] => false | _ :: path => absorb path end) path
      else match path with
      | [] => false
      | s :: path => segment_match p0 s && match_from rest path allow_prefix
      end
  end.

Definition rule_matches (pattern path : list bytes) : bool := match_from pattern path true.

Definition matches (ign : DockerIgnore) (rel : bytes) : bool :=
  let path_segs := split_rel rel in
  fold_left (fun excluded rule => if rule_matches (segments rule) path_segs then negb (exception rule) else excluded) (rules ign) false.

(** [trim_start_matches("./")]. *)
Fixpoint drop_dot_slash (s : bytes) : bytes :=
  match s with
  | x2e :: x2f :: r => drop_dot_slash r
  | _ => s
  end.

Definition is_excluded (ign : DockerIgnore) (rel : bytes) : bool :=
  if negb (active ign) then false else
  let norm := drop_while x2f (drop_dot_slash rel) in
  if bool_decide (norm = str ".dockerignore") || bool_decide (norm = str "Dockerfile") then true
  else matches ign norm.

(** * What the wildcards mean *)

(** A star is any run of characters, a question mark any one character. *)
Inductive glob : list bytes -> list bytes -> Prop :=
  | glob_nil : glob [] []
  | glob_star p n run : glob p n -> glob (STAR :: p) (run ++ n)
  | glob_quest p c n : glob p n -> glob (QUEST :: p) (c :: n)
  | glob_char p c n : c <> STAR -> glob p n -> glob (c :: p) (c :: n).

(** A double star is any number of segments. *)
Inductive path_match : list bytes -> list bytes -> Prop :=
  | pm_nil : path_match [] []
  | pm_any ps skipped path : path_match ps path -> path_match (str "**" :: ps) (skipped ++ path)
  | pm_seg p ps s path : p <> str "**" -> glob (chars_of p) (chars_of s) -> path_match ps path -> path_match (p :: ps) (s :: path).

(** A rule speaks of what it matches and of everything below that. *)
Definition covers (pattern path : list bytes) : Prop := exists above below, path = above ++ below /\ path_match pattern above.

(** * The loop matches the wildcards *)

(** A character of the pattern against one of the name, stars aside. *)
Definition lit (c d : bytes) : Prop := c = QUEST \/ c = d.

#[export] Instance lit_dec c d : Decision (lit c d) := ltac:(unfold lit; apply _).

Lemma glob_star_iff p n : glob (STAR :: p) n <-> exists run m, n = run ++ m /\ glob p m.
Proof.
split; [|intros (run & m & -> & H); by constructor]. inversion 1; subst; [eauto|done].
Qed.

Lemma glob_step c p d n : c <> STAR -> glob (c :: p) (d :: n) <-> lit c d /\ glob p n.
Proof.
intros Hc. split.
- inversion 1; subst; [done|by split; [left|]|by split; [right|]].
- intros [[-> | ->] H]; by constructor.
Qed.

Lemma glob_lit_inv q r m :
  STAR ∉ q -> glob (q ++ r) m <-> exists w m', m = w ++ m' /\ Forall2 lit q w /\ glob r m'.
Proof.
intros Hq. revert m. induction q as [|c q IH]; intros m.
- split; [by intros H; exists [], m|]. intros (w & m' & -> & Hw & H). by inversion Hw; subst.
- apply not_elem_of_cons in Hq as [Hc Hq]. cbn [app]. split.
  + destruct m as [|d m]; [by inversion 1; subst; [destruct run|..]|]. rewrite glob_step by done. intros [Hl H]. apply IH in H as (w & m' & -> & Hw & H); [|done].
    exists (d :: w), m'. split; [done|]. split; [by constructor|done].
  + intros (w & m' & -> & Hw & H). inversion Hw as [|? d ? w' Hl Hw']; subst. cbn [app]. apply glob_step; [done|]. split; [done|]. apply IH; [done|]. by exists w', m'.
Qed.

Lemma glob_star_suffix p run m : glob (STAR :: p) m -> glob (STAR :: p) (run ++ m).
Proof. rewrite !glob_star_iff. intros (x & y & -> & H). exists (run ++ x), y. by rewrite app_assoc. Qed.

(** A later star makes an earlier one obsolete: the leftmost match is enough. *)
Lemma glob_two_stars q r w m :
  STAR ∉ q -> Forall2 lit q w -> glob (STAR :: q ++ STAR :: r) (w ++ m) <-> glob (STAR :: r) m.
Proof.
intros Hq Hw. split.
- rewrite glob_star_iff. intros (run & y & E & H). apply glob_lit_inv in H as (w' & m' & -> & Hw' & H); [|done].
  pose proof (Forall2_length _ _ _ Hw). pose proof (Forall2_length _ _ _ Hw').
  assert (exists z, m = z ++ m') as [z ->]; [|by apply glob_star_suffix].
  rewrite app_assoc in E. apply (f_equal (drop (length w))) in E. rewrite drop_app_length in E. subst m.
  exists (drop (length w) (run ++ w')). rewrite drop_app_le; [done|]. rewrite length_app. lia.
- intros H. apply glob_star_iff. exists [], (w ++ m). split; [done|]. apply glob_lit_inv; [done|]. by exists w, m.
Qed.

(** A star-free pattern after the last star has to match the end of the name. *)
Lemma glob_last_star q r w : STAR ∉ q -> Forall2 lit q w -> glob (STAR :: q ++ r) w <-> glob r [].
Proof.
intros Hq Hw. pose proof (Forall2_length _ _ _ Hw) as Hl. split.
- rewrite glob_star_iff. intros (run & y & -> & H). apply glob_lit_inv in H as (w' & m' & -> & Hw' & H); [|done].
  pose proof (Forall2_length _ _ _ Hw'). rewrite !length_app in Hl. destruct m'; [done|]. cbn [length] in Hl. lia.
- intros H. apply glob_star_iff. exists [], w. split; [done|]. apply glob_lit_inv; [done|]. exists w, []. by rewrite app_nil_r.
Qed.

(** Where the pattern and the name disagree. *)
Definition clash (r m : list bytes) : Prop :=
  match r with c :: _ => c <> STAR /\ c <> QUEST /\ head m <> Some c | [] => True end /\ m <> [].

Lemma glob_clash r m : clash r m -> ~ glob r m.
Proof.
intros [H Hm] Hg. destruct m as [|d m]; [done|]. destruct r as [|c r]; [by inversion Hg|]. destruct H as (Hc & Hq & Hh).
apply glob_step in Hg as [[->| ->] _]; done.
Qed.

Lemma glob_star_clash q r w m :
  STAR ∉ q -> Forall2 lit q w -> clash r m -> forall d n', w ++ m = d :: n' -> glob (STAR :: q ++ r) (w ++ m) <-> glob (STAR :: q ++ r) n'.
Proof.
intros Hq Hw Hc d n' E. split.
- rewrite !glob_star_iff. intros (run & y & E' & H). destruct run as [|x run].
  + exfalso. cbn [app] in E'. subst y. apply glob_lit_inv in H as (w' & m' & E' & Hw' & H); [|done].
    apply app_inj_1 in E' as [-> ->]; [by eapply glob_clash|]. apply Forall2_length in Hw, Hw'. lia.
  + rewrite E in E'. injection E' as -> ->. eauto.
- intros H. rewrite E. by apply (glob_star_suffix _ [d]).
Qed.

Lemma glob_nil_stars r : glob r [] <-> skip_stars r = length r.
Proof.
induction r as [|c r IH]; [split; [done|constructor]|]. cbn [skip_stars length]. case_bool_decide as E.
- subst. rewrite glob_star_iff. split.
  + intros (run & m & E & H). symmetry in E. apply app_nil in E as [-> ->]. f_equal. by apply IH.
  + intros E. exists [], []. split; [done|]. apply IH. lia.
- split; [|lia]. inversion 1; subst; done.
Qed.

(** ** The loop *)

Section loop.
Context (p n : list bytes) (Hn : STAR ∉ n).

(** Before each turn: what is left decides the match; with a star, the part of the pattern
    after it matches the part of the name after the mark so far. *)
Definition loop_inv (pi ni : nat) (star : option nat) (mark : nat) : Prop :=
  pi <= length p /\ ni <= length n /\ mark <= ni /\
  match star with
  | None => glob p n <-> glob (drop pi p) (drop ni n)
  | Some s =>
      exists q w, drop s p = STAR :: q ++ drop pi p /\ drop mark n = w ++ drop ni n /\ Forall2 lit q w /\ STAR ∉ q /\
        pi = s + 1 + length q /\ ni = mark + length w /\ (glob p n <-> glob (drop s p) (drop mark n))
  end.

Definition turns_left (pi ni mark : nat) : nat :=
  (length n - mark) * (length p + length n + 2) + (length p - pi) + (length n - ni).

Definition accepted (o : outcome) : Prop :=
  match o with Rejected => False | AtEnd pi => pi <= length p /\ glob (drop pi p) [] end.

Lemma inv_advance pi ni star mark c d :
  loop_inv pi ni star mark -> p !! pi = Some c -> n !! ni = Some d -> lit c d -> c <> STAR -> loop_inv (pi + 1) (ni + 1) star mark.
Proof.
intros (Hp & Hni & Hm & H) Ep En Hl Hc. pose proof (drop_S _ _ _ Ep) as Dp. pose proof (drop_S _ _ _ En) as Dn.
apply lookup_lt_Some in Ep, En. rewrite !Nat.add_1_r. split; [lia|]. split; [lia|]. split; [lia|]. destruct star as [s|].
- destruct H as (q & w & E1 & E2 & Hw & Hq & E3 & E4 & Hg). exists (q ++ [c]), (w ++ [d]). rewrite <- !app_assoc. cbn [app]. rewrite <- Dp, <- Dn.
  split; [done|]. split; [done|]. split; [apply Forall2_app; [done|]; constructor; [done|constructor]|].
  split; [rewrite not_elem_of_app, list_elem_of_singleton; split; [done|congruence]|]. rewrite !length_app. cbn [length]. split; [lia|]. split; [lia|done].
- rewrite H, Dp, Dn, glob_step by done. split; [by intros [_ ?]|by intros ?].
Qed.

Lemma inv_star pi ni star mark :
  loop_inv pi ni star mark -> p !! pi = Some STAR -> loop_inv (pi + 1) ni (Some pi) ni.
Proof.
intros (Hp & Hni & Hm & H) Ep. pose proof (drop_S _ _ _ Ep) as Dp. apply lookup_lt_Some in Ep. split; [lia|]. split; [lia|]. split; [lia|].
exists [], []. cbn [app length]. rewrite Nat.add_1_r. split; [done|]. split; [done|]. split; [constructor|]. split; [apply not_elem_of_nil|]. split; [lia|]. split; [lia|].
destruct star as [s|]; [|done]. destruct H as (q & w & E1 & E2 & Hw & Hq & E3 & E4 & Hg). rewrite Hg, E1, E2, Dp. by apply glob_two_stars.
Qed.

Lemma inv_retry pi ni s mark :
  loop_inv pi ni (Some s) mark -> clash (drop pi p) (drop ni n) -> ni < length n -> loop_inv (s + 1) (mark + 1) (Some s) (mark + 1).
Proof.
intros (Hp & Hni & Hm & q & w & E1 & E2 & Hw & Hq & E3 & E4 & Hg) Hc Hlt. split; [lia|]. split; [lia|]. split; [lia|].
assert (mark < length n) as Hlm by lia. destruct (lookup_lt_is_Some_2 n mark Hlm) as [d Hd]. pose proof (drop_S _ _ _ Hd) as Dn.
assert (drop (s + 1) p = q ++ drop pi p) as Ds by (rewrite <- drop_drop, E1; done).
exists [], []. cbn [app length]. split; [by rewrite E1, Ds|]. split; [done|]. split; [constructor|]. split; [apply not_elem_of_nil|]. split; [lia|]. split; [lia|].
rewrite Hg, E1, E2, Nat.add_1_r. apply (glob_star_clash q _ w _ Hq Hw Hc d). by rewrite <- E2.
Qed.

Lemma loop_correct turns pi ni star mark :
  loop_inv pi ni star mark -> turns_left pi ni mark < turns ->
  exists o, segment_loop turns p n pi ni star mark = Some o /\ (accepted o <-> glob p n).
Proof.
revert pi ni star mark. induction turns as [|turns IH]; intros pi ni star mark Hinv Ht; [lia|]. pose proof Hinv as (Hp & Hni & Hm & H). cbn [segment_loop].
case_bool_decide as Hlt; cycle 1.
{ exists (AtEnd pi). split; [done|]. cbn [accepted]. assert (drop ni n = []) as Dn by (apply drop_ge; lia). destruct star as [s|]; [|rewrite H, Dn; tauto].
  destruct H as (q & w & E1 & E2 & Hw & Hq & E3 & E4 & ->). rewrite E1, E2, Dn, app_nil_r, glob_last_star by done. tauto. }
destruct (lookup_lt_is_Some_2 n ni Hlt) as [d Hd]. assert (d <> STAR) as Hds by (intros ->; by apply Hn, list_elem_of_lookup; exists ni). rewrite Hd.
unfold turns_left in *. destruct (p !! pi) as [c|] eqn:Ep.
- pose proof (lookup_lt_Some _ _ _ Ep) as Hlp. rewrite (bool_decide_true (pi < length p)) by done. cbn [andb].
  destruct (decide (lit c d)) as [Hl|Hl].
  + replace (bool_decide (Some c = Some QUEST) || bool_decide (Some c = Some d)) with true
      by (symmetry; apply orb_true_iff; rewrite !bool_decide_eq_true; destruct Hl as [->| ->]; auto).
    apply IH; [|lia]. eapply inv_advance; try done. destruct Hl as [->| ->]; done.
  + rewrite !bool_decide_false by (intros [= ->]; apply Hl; unfold lit; auto). cbn [orb]. case_bool_decide as Hs.
    * injection Hs as ->. apply IH; [by eapply inv_star|]. nia.
    * assert (clash (drop pi p) (drop ni n)) as Hcl.
      { rewrite (drop_S _ _ _ Ep), (drop_S _ _ _ Hd). split; [|done]. cbn [head]. split; [congruence|]. split; intros E; apply Hl; unfold lit; [auto|injection E; auto]. }
      destruct star as [s|]; [|exists Rejected; split; [done|]; rewrite H; split; [done|by apply glob_clash]].
      apply IH; [by eapply inv_retry|]. assert (length n - mark = S (length n - (mark + 1))) as E by lia. rewrite E in Ht. lia.
- apply lookup_ge_None in Ep. rewrite (bool_decide_false (pi < length p)) by lia. cbn [andb].
  assert (clash (drop pi p) (drop ni n)) as Hcl by (rewrite (drop_ge p pi), (drop_S _ _ _ Hd) by done; by split).
  destruct star as [s|]; [|exists Rejected; split; [done|]; rewrite H; split; [done|by apply glob_clash]].
  apply IH; [by eapply inv_retry|]. assert (length n - mark = S (length n - (mark + 1))) as E by lia. rewrite E in Ht. lia.
Qed.
End loop.

Lemma segment_match_glob pat name :
  STAR ∉ chars_of name -> segment_match pat name = true <-> glob (chars_of pat) (chars_of name).
Proof.
intros Hn. unfold segment_match. set (p := chars_of pat). set (n := chars_of name) in *.
destruct (loop_correct p n Hn (segment_turns p n) 0 0 None 0) as (o & -> & Ho).
- split; [lia|]. split; [lia|]. split; [lia|]. by rewrite !drop_0.
- unfold turns_left, segment_turns. lia.
- rewrite <- Ho. destruct o as [|pi]; [done|]. cbn [accepted]. rewrite bool_decide_eq_true, glob_nil_stars, length_drop.
  assert (skip_stars (drop pi p) <= length (drop pi p)) as Hle.
  { clear. induction (drop pi p) as [|c r IH]; [done|]. cbn [skip_stars length]. case_bool_decide; lia. }
  rewrite length_drop in Hle. lia.
Qed.

(** * Paths and rules *)

Lemma match_from_any rest path a :
  match_from (str "**" :: rest) path a = match_from rest path a || match path with [] => false | _ :: path => match_from (str "**" :: rest) path a end.
Proof. by destruct path. Qed.

Lemma match_from_seg p0 rest path a :
  p0 <> str "**" ->
  match_from (p0 :: rest) path a = match path with [] => false | s :: path => segment_match p0 s && match_from rest path a end.
Proof. intros H. cbn [match_from]. by rewrite bool_decide_false. Qed.

Lemma covers_any ps path :
  covers (str "**" :: ps) path <-> covers ps path \/ exists s path', path = s :: path' /\ covers (str "**" :: ps) path'.
Proof.
split.
- intros (above & below & -> & H). inversion H as [|? skipped path' H'|]; subst; [|done]. destruct skipped as [|s skipped].
  + left. exists path', below. done.
  + right. exists s, (skipped ++ path' ++ below). split; [by rewrite <- app_assoc|]. exists (skipped ++ path'), below. split; [by rewrite <- app_assoc|by constructor].
- intros [(above & below & -> & H)|(s & path' & -> & above & below & -> & H)].
  + exists above, below. split; [done|]. by apply (pm_any ps []).
  + inversion H as [|? skipped path0 H'|]; subst; [|done]. exists (s :: skipped ++ path0), below. split; [done|]. by apply (pm_any ps (s :: skipped)).
Qed.

Lemma covers_seg p ps path :
  p <> str "**" -> covers (p :: ps) path <-> exists s path', path = s :: path' /\ glob (chars_of p) (chars_of s) /\ covers ps path'.
Proof.
intros Hp. split.
- intros (above & below & -> & H). inversion H as [| |? ? s path' _ Hg Hm]; subst; [done|]. exists s, (path' ++ below). split; [done|]. split; [done|]. by exists path', below.
- intros (s & path' & -> & Hg & above & below & -> & H). exists (s :: above), below. split; [done|by constructor].
Qed.

(** No character of a segment is itself a star. *)
Definition plain (path : list bytes) : Prop := Forall (fun s => STAR ∉ chars_of s) path.

Lemma rule_matches_covers pattern path : plain path -> rule_matches pattern path = true <-> covers pattern path.
Proof.
unfold rule_matches. revert path. induction pattern as [|p0 rest IH]; intros path Hp.
{ cbn [match_from]. rewrite orb_true_r. split; [|done]. intros _. exists [], path. split; [done|constructor]. }
destruct (decide (p0 = str "**")) as [->|Hne].
- induction Hp as [|s path Hs Hp IHp]; rewrite match_from_any, covers_any, orb_true_iff.
  + rewrite IH by constructor. naive_solver.
  + rewrite IH by (by constructor). rewrite IHp. naive_solver.
- rewrite match_from_seg, covers_seg by done. destruct Hp as [|s path Hs Hp]; [naive_solver|]. rewrite andb_true_iff, segment_match_glob, IH by done. naive_solver.
Qed.

(** The last rule that covers the path decides. *)
Definition decided (rs : list Rule) (path : list bytes) : Prop :=
  exists earlier r later, rs = earlier ++ r :: later /\ covers (segments r) path /\ exception r = false /\
    Forall (fun r' => ~ covers (segments r') path) later.

Lemma last_match_decides rs path :
  plain path ->
  fold_left (fun excluded rule => if rule_matches (segments rule) path then negb (exception rule) else excluded) rs false = true <-> decided rs path.
Proof.
intros Hp. induction rs as [|r rs IH] using rev_ind.
{ split; [done|]. intros (e & r & l & E & _). by destruct e. }
rewrite fold_left_app. cbn [fold_left]. pose proof (rule_matches_covers (segments r) path Hp) as Hr. destruct (rule_matches (segments r) path).
- assert (covers (segments r) path) as Hc by (by apply Hr). rewrite negb_true_iff. split.
  + intros He. exists rs, r, []. done.
  + intros (e & r' & l & E & Hc' & He & Hl). destruct l as [|r'' l] using rev_ind; [by apply app_inj_tail in E as [_ <-]|].
    rewrite app_comm_cons, app_assoc in E. apply app_inj_tail in E as [_ <-]. apply Forall_app in Hl as [_ [Hl _]%Forall_cons]. by destruct Hl.
- assert (~ covers (segments r) path) as Hc by (intros Hc%Hr; done). rewrite IH. split.
  + intros (e & r' & l & -> & Hc' & He & Hl). exists e, r', (l ++ [r]). split; [by rewrite <- app_assoc|]. do 2 (split; [done|]). apply Forall_app. by split; [|apply Forall_singleton].
  + intros (e & r' & l & E & Hc' & He & Hl). destruct l as [|r'' l _] using rev_ind; [by apply app_inj_tail in E as [_ <-]|].
    rewrite app_comm_cons, app_assoc in E. apply app_inj_tail in E as [-> <-]. apply Forall_app in Hl as [Hl _]. by exists e, r', l.
Qed.

Definition normal (rel : bytes) : bytes := drop_while x2f (drop_dot_slash rel).


Definition demo_ignore : bytes := str "# logs" ++ [x0a] ++ str "**/*.log" ++ [x0d; x0a] ++ str "!keep.log" ++ [x0a] ++ str "build/".

Example demo_excluded :
  is_excluded (parse demo_ignore) <$> [str "a/b/x.log"; str "keep.log"; str "./build/out/a.o"; str "src/main.rs"; str "Dockerfile"] =
  [true; false; true; false; true].
Proof. vm_compute. reflexivity. Qed.


(** A star in a file name defeats the wildcard: the pattern [*] covers every name, but
    the loop takes the star of the name [*x] for the one of the pattern and leaves the
    file in the context. *)
Theorem star_name_not_excluded :
  covers [str "*"] [str "*x"] /\ is_excluded (parse (str "*")) (str "*x") = false /\ is_excluded (parse (str "*")) (str "x") = true.
Proof.
split; [|split; vm_compute; reflexivity]. exists [str "*x"], []. split; [done|]. apply pm_seg; [done| |constructor].
change (glob [STAR] ([STAR; [x78]] ++ [])). constructor. constructor.
Qed.
