(* ===== verification/Vars.v ===== *)
(** Variable interpolation (crates/lightr-build/src/build/vars.rs) and its use by compose
    files (compose/interp.rs): [$VAR], [${VAR}], the six modifiers, the escapes, and the
    parser of [.env] files. *)

From S2P Require Import Prelude Text Error.

(** * The engine (vars.rs) *)

Record VarScope := mkScope { args : gmap bytes bytes; env : gmap bytes bytes }.

(** The environment wins over the build arguments. *)
Definition get (scope : VarScope) (name : bytes) : option bytes :=
  match env scope !! name with Some v => Some v | None => args scope !! name end.

Definition value_or_empty (scope : VarScope) (name : bytes) : bytes := default [] (get scope name).

(** Characters are the bytes that encode them. *)
Definition DOLLAR : bytes := str "$".
Definition BACKSLASH : bytes := [x5c].
Definition OPEN : bytes := str "{".
Definition CLOSE : bytes := str "}".
Definition COLON : bytes := str ":".

Definition is_ascii_alphabetic (b : byte) : bool := is_ascii_lowercase b || is_ascii_uppercase b.

Definition is_name_start (c : bytes) : bool :=
  match c with [b] => bool_decide (b = x5f) || is_ascii_alphabetic b | _ => false end.
Definition is_name_char (c : bytes) : bool :=
  match c with [b] => bool_decide (b = x5f) || is_ascii_alphanumeric b | _ => false end.

(** The longest run of name characters, and what follows it. *)
Fixpoint read_bare_name (cs : list bytes) : bytes * list bytes :=
  match cs with
  | c :: r => if is_name_char c then let '(name, rest) := read_bare_name r in (c ++ name, rest) else ([], cs)
  | [] => ([], [])
  end.

Definition unclosed (name : bytes) : LightrError := InvalidManifest (str "unclosed variable reference: ${" ++ name).

Fixpoint read_word (name : bytes) (cs : list bytes) : Result (bytes * list bytes) :=
  match cs with
  | [] => Err (unclosed name)
  | c :: r => if bool_decide (c = CLOSE) then Ok ([], r) else '(word, rest) ← read_word name r; Ok (c ++ word, rest)
  end.

Definition apply_modifier (name : bytes) (colon : bool) (operator word : bytes) (scope : VarScope) : Result bytes :=
  let value := get scope name in
  let unset_or_empty := match value with None => true | Some v => colon && bool_decide (v = []) end in
  if bool_decide (operator = str "-") then Ok (if unset_or_empty then word else default [] value)
  else if bool_decide (operator = str "+") then Ok (if unset_or_empty then [] else word)
  else if bool_decide (operator = str "?") then
    if unset_or_empty then
      let detail := if negb (bool_decide (word = [])) then word
                    else if colon then str "parameter null or not set" else str "parameter not set" in
      Err (InvalidManifest (str "${" ++ name ++ str "}: " ++ detail))
    else Ok (default [] value)
  else Err (InvalidManifest (str "${" ++ name ++ str "}: unsupported operator '" ++ operator ++ str "'")).

(** The reference after its opening brace; with what follows it. *)
Definition expand_braced (cs : list bytes) (scope : VarScope) : Result (bytes * list bytes) :=
  let '(name, cs) := read_bare_name cs in
  match cs with
  | [] => Err (unclosed name)
  | op :: cs =>
      if bool_decide (op = CLOSE) then Ok (value_or_empty scope name, cs) else
      let colon := bool_decide (op = COLON) in
      '(operator, cs) ← (if colon then match cs with [] => Err (unclosed name) | o :: cs => Ok (o, cs) end else Ok (op, cs));
      '(word, cs) ← read_word name cs;
      v ← apply_modifier name colon operator word scope;
      Ok (v, cs)
  end.

(** The loop; each turn takes at least one character. *)
Fixpoint interpolate_go (turns : nat) (cs : list bytes) (scope : VarScope) (escape : bool) : Result bytes :=
  match turns with
  | O => Ok []
  | S turns =>
      match cs with
      | [] => Ok []
      | c :: cs =>
          if bool_decide (c = BACKSLASH) && escape then
            match cs with
            | d :: r => if bool_decide (d = DOLLAR) then out ← interpolate_go turns r scope escape; Ok (DOLLAR ++ out)
                        else out ← interpolate_go turns cs scope escape; Ok (BACKSLASH ++ out)
            | [] => Ok BACKSLASH
            end
          else if bool_decide (c = DOLLAR) then
            match cs with
            | d :: r =>
                if bool_decide (d = OPEN) then
                  '(v, r) ← expand_braced r scope;
                  out ← interpolate_go turns r scope escape;
                  Ok (v ++ out)
                else if is_name_start d then
                  let '(name, r) := read_bare_name cs in
                  out ← interpolate_go turns r scope escape;
                  Ok (value_or_empty scope name ++ out)
                else out ← interpolate_go turns cs scope escape; Ok (DOLLAR ++ out)
            | [] => Ok DOLLAR
            end
          else out ← interpolate_go turns cs scope escape; Ok (c ++ out)
      end
  end.

Definition interpolate (s : bytes) (scope : VarScope) (escape : bool) : Result bytes :=
  if negb (contains x24 s) then Ok s
  else let cs := chars_of s in interpolate_go (length cs) cs scope escape.

(** * Compose files (compose/interp.rs) *)

(** [yaml.split("$$")], with the characters of the pieces. *)
Fixpoint split_dollars (s : bytes) : list bytes :=
  match s with
  | [] => [[]]
  | b :: s' =>
      match s' with
      | c :: r => if bool_decide (b = x24 /\ c = x24) then [] :: split_dollars r
                  else match split_dollars s' with piece :: pieces => (b :: piece) :: pieces | [] => [[b]] end
      | [] => [[b]]
      end
  end.

Fixpoint interpolate_rest (segments : list bytes) (scope : VarScope) : Result bytes :=
  match segments with
  | [] => Ok []
  | seg :: segments =>
      out ← interpolate seg scope false;
      rest ← interpolate_rest segments scope;
      Ok (DOLLAR ++ out ++ rest)
  end.

Definition interpolate_compose (yaml : bytes) (scope : VarScope) : Result bytes :=
  match split_dollars yaml with
  | [] => Ok []
  | first :: segments =>
      out ← interpolate first scope false;
      rest ← interpolate_rest segments scope;
      Ok (out ++ rest)
  end.

(** ** Environment files *)

Definition unquote_env (s : bytes) : bytes :=
  match s with
  | first :: r =>
      match reverse r with
      | last :: mid => if bool_decide (first = x22 /\ last = x22) || bool_decide (first = x27 /\ last = x27) then reverse mid else s
      | [] => s
      end
  | [] => s
  end.

Definition dotenv_line (raw : bytes) : option (bytes * bytes) :=
  let line := trim raw in
  if bool_decide (line = []) || starts_with (str "#") line then None else
  let line := default line (strip_prefix (str "export ") line) in
  '(key, value) ← split_once x3d line;
  let key := trim key in
  if bool_decide (key = []) then None else Some (key, unquote_env (trim value)).

Definition parse_dotenv (text : bytes) : list (bytes * bytes) := omap dotenv_line (lines text).

(** The process environment overwrites the file; a file that cannot be read is absent. *)
Definition scope_from_project_dir (dotenv : option bytes) (vars : list (bytes * bytes)) : VarScope :=
  let env := match dotenv with Some text => foldl (fun m '(k, v) => <[k := v]> m) ∅ (parse_dotenv text) | None => ∅ end in
  mkScope ∅ (foldl (fun m '(k, v) => <[k := v]> m) env vars).

(** * The documented grammar *)

Inductive piece :=
  | Char (c : bytes)
  | Escaped
  | Bare (name : list bytes)
  | Braced (name : list bytes)
  | Modified (name : list bytes) (colon : bool) (op : bytes) (word : list bytes).

Definition show (p : piece) : list bytes :=
  match p with
  | Char c => [c]
  | Escaped => [BACKSLASH; DOLLAR]
  | Bare name => DOLLAR :: name
  | Braced name => DOLLAR :: OPEN :: name ++ [CLOSE]
  | Modified name colon op word => DOLLAR :: OPEN :: name ++ (if colon then [COLON] else []) ++ op :: word ++ [CLOSE]
  end.

Definition shows (ps : list piece) : list bytes := mjoin (show <$> ps).

(** Whether the variable counts as set: with a colon, an empty value does not. *)
Definition is_set (scope : VarScope) (colon : bool) (name : bytes) : bool :=
  match get scope name with Some [] => negb colon | Some _ => true | None => false end.

(** What a piece expands to. *)
Definition eval (scope : VarScope) (p : piece) : Result bytes :=
  match p with
  | Char c => Ok c
  | Escaped => Ok DOLLAR
  | Bare name | Braced name => Ok (value_or_empty scope (mjoin name))
  | Modified name colon op word =>
      let n := mjoin name in
      let w := mjoin word in
      let set := is_set scope colon n in
      if bool_decide (op = str "-") then Ok (if set then value_or_empty scope n else w)
      else if bool_decide (op = str "+") then Ok (if set then w else [])
      else if bool_decide (op = str "?") then
        if set then Ok (value_or_empty scope n)
        else Err (InvalidManifest (str "${" ++ n ++ str "}: " ++
               match w with [] => if colon then str "parameter null or not set" else str "parameter not set" | _ => w end))
      else Err (InvalidManifest (str "${" ++ n ++ str "}: unsupported operator '" ++ op ++ str "'"))
  end.

(** The first character of what follows. *)
Definition next_is (f : bytes -> bool) (cs : list bytes) : bool := match cs with c :: _ => f c | [] => false end.

(** A piece in front of the characters [after]. *)
Definition piece_ok (escape : bool) (p : piece) (after : list bytes) : Prop :=
  match p with
  | Char c =>
      (c = DOLLAR -> next_is (fun d => bool_decide (d = OPEN) || is_name_start d) after = false) /\
      (c = BACKSLASH -> escape = true -> next_is (fun d => bool_decide (d = DOLLAR)) after = false)
  | Escaped => escape = true
  | Bare name => next_is is_name_start name = true /\ forallb is_name_char name = true /\ next_is is_name_char after = false
  | Braced name => forallb is_name_char name = true
  | Modified name colon op word =>
      forallb is_name_char name = true /\ CLOSE ∉ word /\ (colon = false -> is_name_char op = false /\ op <> CLOSE /\ op <> COLON)
  end.

(** A reference without its closing brace, to the end of the text. *)
Definition open_ref (name : list bytes) (rest : list bytes) : Prop :=
  forallb is_name_char name = true /\
  match rest with
  | [] => True
  | op :: word =>
      if bool_decide (op = COLON) then match word with [] => True | _ :: word => CLOSE ∉ word end
      else is_name_char op = false /\ op <> CLOSE /\ CLOSE ∉ word
  end.

Inductive tail := Done | Open (name rest : list bytes).

Definition show_tail (t : tail) : list bytes := match t with Done => [] | Open name rest => DOLLAR :: OPEN :: name ++ rest end.

Fixpoint text_ok (escape : bool) (ps : list piece) (t : tail) : Prop :=
  match ps with
  | [] => match t with Done => True | Open name rest => open_ref name rest end
  | p :: ps => piece_ok escape p (shows ps ++ show_tail t) /\ text_ok escape ps t
  end.

Fixpoint meaning (scope : VarScope) (ps : list piece) (t : tail) : Result bytes :=
  match ps with
  | [] => match t with Done => Ok [] | Open name _ => Err (unclosed (mjoin name)) end
  | p :: ps => v ← eval scope p; out ← meaning scope ps t; Ok (v ++ out)
  end.

(** * The engine implements the grammar *)

Lemma read_name name cs :
  forallb is_name_char name = true -> next_is is_name_char cs = false -> read_bare_name (name ++ cs) = (mjoin name, cs).
Proof.
intros Hn Hc. induction name as [|c name IH].
- destruct cs as [|c cs]; [done|]. cbn [app read_bare_name next_is] in *. by rewrite Hc.
- cbn [forallb] in Hn. apply andb_true_iff in Hn as [Hb Hn]. cbn [app read_bare_name]. rewrite Hb, (IH Hn). by rewrite join_cons.
Qed.

Lemma read_name_split cs : exists name rest, cs = name ++ rest /\ forallb is_name_char name = true /\ next_is is_name_char rest = false.
Proof.
induction cs as [|c cs (name & rest & -> & Hn & Hr)]; [by exists [], []|]. destruct (is_name_char c) eqn:E.
- exists (c :: name), rest. cbn [forallb]. by rewrite E, Hn.
- by exists [], (c :: name ++ rest).
Qed.

Lemma read_word_close name word cs : CLOSE ∉ word -> read_word name (word ++ CLOSE :: cs) = Ok (mjoin word, cs).
Proof.
intros Hw. induction word as [|c word IH]; cbn [app read_word]; [by rewrite bool_decide_true|].
apply not_elem_of_cons in Hw as [Hc Hw]. rewrite bool_decide_false by done. rewrite IH by done. by rewrite join_cons.
Qed.

Lemma read_word_open name word : CLOSE ∉ word -> read_word name word = Err (unclosed name).
Proof.
intros Hw. induction word as [|c word IH]; cbn [read_word]; [done|]. apply not_elem_of_cons in Hw as [Hc Hw].
rewrite bool_decide_false by done. by rewrite IH.
Qed.

Lemma modifier_eval scope name colon op word :
  apply_modifier (mjoin name) colon op (mjoin word) scope = eval scope (Modified name colon op word).
Proof.
unfold apply_modifier, eval, is_set, value_or_empty. cbv zeta. set (n := mjoin name). set (w := mjoin word). clearbody n w.
assert (match get scope n with Some v => colon && bool_decide (v = []) | None => true end =
  negb match get scope n with Some [] => negb colon | Some _ => true | None => false end) as ->.
{ destruct (get scope n) as [[|b v]|]; [|by rewrite andb_false_r|done]. by destruct colon. }
destruct (match get scope n with Some [] => _ | Some _ => _ | None => _ end); cbn [negb]; [done|]. repeat (case_bool_decide; [done|]). by destruct w.
Qed.

Lemma expand_closed scope name cs :
  forallb is_name_char name = true -> expand_braced (name ++ CLOSE :: cs) scope = Ok (value_or_empty scope (mjoin name), cs).
Proof. intros Hn. unfold expand_braced. rewrite read_name by done. by rewrite bool_decide_true. Qed.

Lemma expand_modified scope name colon op word cs :
  forallb is_name_char name = true -> CLOSE ∉ word -> (colon = false -> is_name_char op = false /\ op <> CLOSE /\ op <> COLON) ->
  expand_braced (name ++ (if colon then [COLON] else []) ++ op :: word ++ CLOSE :: cs) scope = v ← eval scope (Modified name colon op word); Ok (v, cs).
Proof.
intros Hn Hw Ho. unfold expand_braced. destruct colon; cbn [app].
- rewrite read_name by done. rewrite bool_decide_false by done. rewrite bool_decide_true by done. cbn [mbind Result_mbind]. rewrite read_word_close by done.
  cbn [mbind Result_mbind]. by rewrite modifier_eval.
- destruct (Ho eq_refl) as (H1 & H2 & H3). rewrite read_name by done. rewrite !bool_decide_false by done. cbn [mbind Result_mbind].
  rewrite read_word_close by done. cbn [mbind Result_mbind]. by rewrite modifier_eval.
Qed.

Lemma expand_open scope name rest : open_ref name rest -> expand_braced (name ++ rest) scope = Err (unclosed (mjoin name)).
Proof.
intros [Hn Hr]. unfold expand_braced. destruct rest as [|op word].
{ rewrite (read_name name []) by done. done. }
case_bool_decide as E.
- subst op. rewrite read_name by done. rewrite bool_decide_false, bool_decide_true by done. destruct word as [|o word]; [done|]. cbn [mbind Result_mbind]. by rewrite read_word_open.
- destruct Hr as (H1 & H2 & H3). rewrite read_name by done. rewrite !bool_decide_false by done. cbn [mbind Result_mbind]. by rewrite read_word_open.
Qed.

Lemma next_is_cons f c cs : next_is f (c :: cs) = f c.
Proof. done. Qed.

(** One piece is one turn of the loop. *)
Lemma piece_turn turns scope escape p after :
  piece_ok escape p after ->
  interpolate_go (S turns) (show p ++ after) scope escape = v ← eval scope p; out ← interpolate_go turns after scope escape; Ok (v ++ out).
Proof.
intros Hp. destruct p as [c| |name|name|name colon op word]; cbn [show app]; cbn [piece_ok] in Hp.
- destruct Hp as [Hd Hb]. cbn [interpolate_go eval mbind Result_mbind]. destruct (bool_decide_reflect (c = BACKSLASH)) as [->|Hc].
  + destruct escape; cbn [andb].
    * specialize (Hb eq_refl eq_refl). destruct after as [|d after]; [by destruct turns|]. cbn [next_is] in Hb. by rewrite Hb.
    * by rewrite bool_decide_false.
  + cbn [andb]. case_bool_decide as E; [|done]. subst c. specialize (Hd eq_refl). destruct after as [|d after]; [by destruct turns|].
    cbn [next_is] in Hd. apply orb_false_iff in Hd as [-> ->]. done.
- subst escape. reflexivity.
- destruct Hp as (Hs & Hn & Ha). destruct name as [|c name]; [done|]. cbn [next_is] in Hs. cbn [interpolate_go app].
  rewrite (bool_decide_false (DOLLAR = BACKSLASH)), (bool_decide_true (DOLLAR = DOLLAR)) by done. cbn [andb].
  rewrite (bool_decide_false (c = OPEN)) by (by intros ->). rewrite Hs. rewrite app_comm_cons, read_name by done. done.
- cbn [interpolate_go]. rewrite (bool_decide_false (DOLLAR = BACKSLASH)), (bool_decide_true (DOLLAR = DOLLAR)), (bool_decide_true (OPEN = OPEN)) by done. cbn [andb].
  rewrite <- app_assoc. cbn [app]. by rewrite expand_closed.
- destruct Hp as (Hn & Hw & Ho). cbn [interpolate_go]. rewrite (bool_decide_false (DOLLAR = BACKSLASH)), (bool_decide_true (DOLLAR = DOLLAR)), (bool_decide_true (OPEN = OPEN)) by done. cbn [andb].
  rewrite <- !app_assoc. cbn [app]. rewrite <- app_assoc. cbn [app]. rewrite expand_modified by done. by destruct (eval scope _).
Qed.

Lemma show_nonempty p : 1 <= length (show p).
Proof. destruct p; cbn [show length]; lia. Qed.

Lemma engine_meaning turns scope escape ps t :
  text_ok escape ps t -> length (shows ps ++ show_tail t) <= turns -> interpolate_go turns (shows ps ++ show_tail t) scope escape = meaning scope ps t.
Proof.
revert turns. induction ps as [|p ps IH]; intros turns Hok Hl.
- destruct t as [|name rest]; [by destruct turns|]. cbn [text_ok] in Hok. destruct turns as [|turns]; [cbn in Hl; lia|].
  cbn [shows fmap list_fmap mjoin list_join app show_tail interpolate_go]. rewrite (bool_decide_false (DOLLAR = BACKSLASH)), (bool_decide_true (DOLLAR = DOLLAR)), (bool_decide_true (OPEN = OPEN)) by done.
  cbn [andb]. by rewrite expand_open.
- destruct Hok as [Hp Hok]. unfold shows in *. rewrite fmap_cons, join_cons, <- app_assoc in *. rewrite length_app in Hl.
  pose proof (show_nonempty p) as Hne. destruct turns as [|turns]; [lia|].
  rewrite piece_turn by done. cbn [meaning]. rewrite IH; [done|done|lia].
Qed.

Lemma shows_cons p ps t : shows (p :: ps) ++ show_tail t = show p ++ shows ps ++ show_tail t.
Proof. unfold shows. by rewrite fmap_cons, join_cons, <- app_assoc. Qed.

(** Every text is pieces and a tail: first one reference after its opening brace. *)
Lemma braced_shape escape (r : list bytes) :
  (exists p cs, DOLLAR :: OPEN :: r = show p ++ cs /\ forall after, piece_ok escape p after) \/
  (exists name rest, r = name ++ rest /\ open_ref name rest).
Proof.
destruct (read_name_split r) as (name & rest & -> & Hn & Hr). destruct rest as [|op w]; [by right; exists name, []|]. cbn [next_is] in Hr.
destruct (decide (op = CLOSE)) as [->|Hc].
{ left. exists (Braced name), w. split; [|by intros]. cbn [show]. by rewrite <- !app_comm_cons, <- app_assoc. }
destruct (decide (op = COLON)) as [->|Hc'].
- destruct w as [|o w]; [by right; exists name, [COLON]|]. destruct (decide (CLOSE ∈ w)) as [Hw|Hw].
  + apply list_elem_of_split_l in Hw as (word & cs & -> & Hw). left. exists (Modified name true o word), cs. split; [|by intros].
    cbn [show]. rewrite <- !app_comm_cons, <- !app_assoc. cbn [app]. by rewrite <- app_assoc.
  + right. exists name, (COLON :: o :: w). done.
- destruct (decide (CLOSE ∈ w)) as [Hw|Hw].
  + apply list_elem_of_split_l in Hw as (word & cs & -> & Hw). left. exists (Modified name false op word), cs. split; [|by intros].
    cbn [show]. rewrite <- !app_comm_cons, <- !app_assoc. cbn [app]. by rewrite <- app_assoc.
  + right. exists name, (op :: w). split; [done|]. split; [done|]. rewrite bool_decide_false by done. done.
Qed.

Lemma text_shape escape cs : exists ps t, text_ok escape ps t /\ cs = shows ps ++ show_tail t.
Proof.
remember (length cs) as k eqn:Ek. revert cs Ek. induction k as [k IH] using lt_wf_ind; intros cs ->.
assert (forall p after, cs = show p ++ after -> piece_ok escape p after -> exists ps t, text_ok escape ps t /\ cs = shows ps ++ show_tail t) as Hgo.
{ intros p after -> Hp. destruct (IH (length after)) with (cs := after) as (ps & t & Hok & E); [|done|].
  - rewrite length_app. pose proof (show_nonempty p). lia.
  - exists (p :: ps), t. rewrite shows_cons, <- E. split; [split; [by rewrite <- E|done]|done]. }
destruct cs as [|c cs]; [by exists [], Done|].
destruct (decide (c = BACKSLASH /\ escape = true /\ next_is (fun d => bool_decide (d = DOLLAR)) cs = true)) as [(-> & He & Hd)|Hb].
{ destruct cs as [|d cs]; [done|]. apply bool_decide_eq_true in Hd as ->. by apply (Hgo Escaped cs). }
destruct (decide (c = DOLLAR)) as [->|Hc]; cycle 1.
{ apply (Hgo (Char c) cs eq_refl). split; [done|]. intros -> He. by apply not_true_iff_false; intros ?; apply Hb. }
destruct (next_is (fun d => bool_decide (d = OPEN) || is_name_start d) cs) eqn:Hn; [|by apply (Hgo (Char DOLLAR) cs eq_refl)].
destruct cs as [|d cs]; [done|]. cbn [next_is] in Hn. destruct (decide (d = OPEN)) as [->|Ho].
- destruct (braced_shape escape cs) as [(p & after & E & Hp)|(name & rest & -> & Ho)]; [by apply (Hgo p after)|].
  by exists [], (Open name rest).
- rewrite bool_decide_false in Hn by done. cbn [orb] in Hn. destruct (read_name_split (d :: cs)) as (name & rest & E & Hnm & Hr).
  apply (Hgo (Bare name) rest); [by rewrite E|]. destruct name as [|x name].
  + exfalso. cbn [app] in E. subst rest. cbn [next_is] in Hr. assert (is_name_char d = true) as Hd; [|congruence].
    destruct d as [|b [|]]; [done| |done]. cbn [is_name_start is_name_char] in *. unfold is_ascii_alphabetic, is_ascii_alphanumeric in *.
    apply orb_true_iff. apply orb_true_iff in Hn as [->|Hn]; [by left|right]. apply orb_true_iff in Hn as [->| ->]; rewrite ?orb_true_r; done.
  + injection E as -> ->. done.
Qed.

(** The characters of a text are the text. *)
Lemma chars_of_join s : mjoin (chars_of s) = s.
Proof.
remember (length s) as k eqn:Ek. revert s Ek. induction k as [k IH] using lt_wf_ind; intros s ->.
assert (forall r, length r < length s -> mjoin (chars_of r) = r) as H by (intros r Hr; by apply (IH (length r))).
destruct s as [|b [|c [|d [|e s]]]]; cbn [chars_of]; repeat case_match; rewrite ?join_cons; cbn [mjoin list_join]; try done;
  cbn [app]; rewrite ?H by (cbn [length]; lia); done.
Qed.

Lemma elem_of_chars s c b : c ∈ chars_of s -> b ∈ c -> b ∈ s.
Proof.
intros Hc Hb. rewrite <- (chars_of_join s). apply list_elem_of_join. exists c. done.
Qed.

(** Without a dollar the pieces are characters, and they stand for themselves. *)
Lemma meaning_plain scope escape ps t :
  text_ok escape ps t -> DOLLAR ∉ shows ps ++ show_tail t -> meaning scope ps t = Ok (mjoin (shows ps ++ show_tail t)).
Proof.
intros Hok Hd. induction ps as [|p ps IH].
- destruct t as [|name rest]; [done|]. exfalso. apply Hd. cbn. apply list_elem_of_here.
- destruct Hok as [Hp Hok]. rewrite shows_cons in *. apply not_elem_of_app in Hd as [Hdp Hd]. cbn [meaning]. rewrite (IH Hok Hd).
  destruct p; [cbn [show eval mbind Result_mbind app]; by rewrite join_cons|..]; exfalso; apply Hdp; cbn [show]; first [by apply list_elem_of_here|by apply list_elem_of_further, list_elem_of_here].
Qed.

(** C32: [interpolate] is the documented language, on every text.  A text is a sequence of
    plain characters, escaped dollars (when escapes are on), references [$NAME] and
    [${NAME}], and references with a modifier, perhaps followed by a reference that is
    never closed; and the result is the concatenation of what these stand for, the first
    error first: values or nothing for unset variables, the word or the value as the
    modifier says, [?] failing with its word, other operators failing, and an unclosed
    reference failing. *)
Theorem interpolate_exact s scope escape r :
  interpolate s scope escape = r <->
  exists ps t, text_ok escape ps t /\ chars_of s = shows ps ++ show_tail t /\ r = meaning scope ps t.
Proof.
assert (forall ps t, text_ok escape ps t -> chars_of s = shows ps ++ show_tail t -> interpolate s scope escape = meaning scope ps t) as H.
{ intros ps t Hok E. unfold interpolate. destruct (bool_decide_reflect (x24 ∈ s)) as [Hd|Hd].
  - unfold contains. rewrite bool_decide_true by done. cbn [negb]. rewrite E. by apply engine_meaning.
  - unfold contains. rewrite bool_decide_false by done. cbn [negb]. rewrite (meaning_plain scope escape), <- E, chars_of_join; [done|done|].
    rewrite <- E. intros Hc. apply Hd. apply (elem_of_chars s DOLLAR x24 Hc). apply list_elem_of_here. }
split; [|intros (ps & t & Hok & E & ->); by apply H]. intros <-. destruct (text_shape escape (chars_of s)) as (ps & t & Hok & E). exists ps, t. auto.
Qed.

Definition demo_scope : VarScope := mkScope {[ str "TAG" := str "1.2" ]} {[ str "USER" := [] ]}.

Example interpolate_demo :
  (fun s => interpolate (str s) demo_scope true) <$> ["img:${TAG:-latest}"; "$USER-${USER:-root}-${USER-root}"; "\$5 ${TAG+set}"; "${NOPE}"; "${NOPE:?missing}"; "${TAG"]%string =
  [Ok (str "img:1.2"); Ok (str "-root-"); Ok (str "$5 set"); Ok []; Err (InvalidManifest (str "${NOPE}: missing")); Err (unclosed (str "TAG"))].
Proof. vm_compute. reflexivity. Qed.

(** ** Compose *)

(** A segment that the split leaves whole, and behind which it cuts. *)
Definition whole (seg : bytes) : Prop := split_dollars seg = [seg] /\ last seg <> Some x24.

Fixpoint join_dollars (segs : list bytes) : bytes :=
  match segs with
  | [] => []
  | [seg] => seg
  | seg :: segs => seg ++ str "$$" ++ join_dollars segs
  end.

Lemma split_dollars_nonempty s : split_dollars s <> [].
Proof. destruct s as [|b [|c r]]; cbn [split_dollars]; [done|done|]. case_bool_decide; [done|]. by destruct (match r with [] => _ | _ => _ end). Qed.

Lemma split_dollars_cons b c r : ~ (b = x24 /\ c = x24) ->
  split_dollars (b :: c :: r) = match split_dollars (c :: r) with piece :: pieces => (b :: piece) :: pieces | [] => [[b]] end.
Proof. intros H. cbn [split_dollars]. by rewrite bool_decide_false. Qed.

Lemma split_dollars_app seg rest : whole seg -> split_dollars (seg ++ str "$$" ++ rest) = seg :: split_dollars rest.
Proof.
intros [Hs Hl]. induction seg as [|b seg IH]; [done|]. destruct seg as [|c seg].
- assert (b <> x24) as Hb by (intros ->; done). cbn [app str]. change (str "$$" ++ rest) with (x24 :: x24 :: rest).
  rewrite split_dollars_cons by (intros [? _]; done). done.
- assert (~ (b = x24 /\ c = x24)) as Hbc by (intros [-> ->]; cbn [split_dollars] in Hs; by rewrite bool_decide_true in Hs).
  rewrite split_dollars_cons in Hs by done. change ((b :: c :: seg) ++ str "$$" ++ rest) with (b :: c :: seg ++ str "$$" ++ rest).
  rewrite split_dollars_cons by done. rewrite app_comm_cons, IH; [done| |].
  + pose proof (split_dollars_nonempty (c :: seg)). destruct (split_dollars (c :: seg)) as [|x xs]; [done|]. by injection Hs as -> ->.
  + by rewrite last_cons_cons in Hl.
Qed.

(** In a compose file [$$] is a dollar that starts no reference.  Of a document cut at
    its [$$], the parts are interpolated one by one, with backslashes left alone, and put
    together with a dollar in place of each [$$]; the first failing part fails the whole. *)
Theorem compose_exact first segs scope :
  Forall whole (first :: segs) ->
  interpolate_compose (join_dollars (first :: segs)) scope =
  outs ← mapM (fun seg => interpolate seg scope false) (first :: segs); Ok (mjoin (match outs with [] => [] | o :: os => o :: ((fun o => DOLLAR ++ o) <$> os) end)).
Proof.
intros Hw. unfold interpolate_compose.
assert (split_dollars (join_dollars (first :: segs)) = first :: segs) as ->.
{ clear scope. revert first Hw. induction segs as [|seg segs IH]; intros first Hw; apply Forall_cons in Hw as [Hf Hw]; [by destruct Hf|].
  change (join_dollars (first :: seg :: segs)) with (first ++ str "$$" ++ join_dollars (seg :: segs)). by rewrite split_dollars_app, IH. }
clear Hw. cbn [mapM]. destruct (interpolate first scope false) as [o|e]; [|done]. cbn [mbind Result_mbind].
assert (forall segs, interpolate_rest segs scope = os ← mapM (fun seg => interpolate seg scope false) segs; Ok (mjoin ((fun o => DOLLAR ++ o) <$> os))) as ->.
{ clear. intros segs. induction segs as [|seg segs IH]; [done|]. cbn [interpolate_rest mapM]. destruct (interpolate seg scope false) as [o|e]; [|done]. cbn [mbind Result_mbind].
  rewrite IH. destruct (mapM _ segs) as [os|e]; [|done]. cbn. by rewrite <- app_assoc. }
destruct (mapM _ segs) as [os|e]; [|done]. cbn. done.
Qed.

Lemma compose_exact_witness : interpolate_compose (str "cost: $$5 for ${TAG}") demo_scope = Ok (str "cost: $5 for 1.2").
Proof.
assert (str "cost: $$5 for ${TAG}" = join_dollars [str "cost: "; str "5 for ${TAG}"]) as -> by (vm_compute; reflexivity).
rewrite (compose_exact (str "cost: ") [str "5 for ${TAG}"] demo_scope); [vm_compute; reflexivity|].
repeat constructor; vm_compute; congruence.
Defined.

(** A literal dollar in a default is not possible: the document is cut at [$$] before
    the references are read, so [${A:-$$5}] is an unclosed reference even when [A] is
    set. *)
Theorem compose_dollar_in_default_fails :
  interpolate_compose (str "${A:-$$5}") (mkScope ∅ {[ str "A" := str "1" ]}) = Err (unclosed (str "A")).
Proof. vm_compute. reflexivity. Qed.

(** ** Precedence *)

(** The last value of a key in a list of pairs. *)
Definition last_value (k : bytes) (l : list (bytes * bytes)) : option bytes :=
  last (omap (fun '(k', v) => if bool_decide (k' = k) then Some v else None) l).

Lemma foldl_insert_lookup (m : gmap bytes bytes) l k :
  foldl (fun m '(k, v) => <[k := v]> m) m l !! k = match last_value k l with Some v => Some v | None => m !! k end.
Proof.
unfold last_value. induction l as [|[k' v] l IH] using rev_ind; [done|]. rewrite foldl_snoc, omap_app. cbn [omap list_omap].
case_bool_decide as E.
- subst. by rewrite lookup_insert_eq, last_snoc.
- rewrite lookup_insert_ne by done. by rewrite app_nil_r.
Qed.

(** In a compose project a variable is the last one of its name in the process
    environment, else the last one in the [.env] file, else unset. *)
Theorem scope_precedence dotenv vars k :
  get (scope_from_project_dir dotenv vars) k =
  match last_value k vars with
  | Some v => Some v
  | None => dotenv ≫= fun text => last_value k (parse_dotenv text)
  end.
Proof.
unfold get, scope_from_project_dir. cbn [env args]. rewrite lookup_empty, foldl_insert_lookup.
destruct (last_value k vars); [done|]. destruct dotenv as [text|]; cbn; [|by rewrite lookup_empty].
rewrite foldl_insert_lookup, lookup_empty. by destruct (last_value k (parse_dotenv text)).
Qed.
