(* ===== verification/Dockerfile.v ===== *)
(** The Dockerfile parser (crates/lightr-build/src/build/parse): directives, continuation
    lines, the instructions and their flags, and the quoting of key-value pairs.  The
    JSON parser of the exec forms is an argument. *)

From S2P Require Import Prelude Text Error.

(** * The syntax tree (ast.rs) *)

Inductive CmdForm := Exec (argv : list bytes) | Shell (s : bytes).

Record HealthcheckOpts := mkOpts {
  interval : option bytes; timeout : option bytes; start_period : option bytes; start_interval : option bytes; retries : option bytes }.

Inductive Healthcheck := HcNone | HcCmd (opts : HealthcheckOpts) (cmd : CmdForm).

Record Directives := mkDirectives { syntax : option bytes; escape : option bytes }.

Inductive Instr :=
  | From (image_ref : bytes) (platform stage : option bytes)
  | Run (argv : list bytes) (form : CmdForm)
  | Cmd (argv : list bytes) (form : CmdForm)
  | Entrypoint (argv : list bytes) (form : CmdForm)
  | Label (pairs : list (bytes * bytes))
  | Expose (ports : list bytes)
  | Env (pairs : list (bytes * bytes))
  | Add (src : list bytes) (dest : bytes) (chown chmod : option bytes)
  | Copy (src : list bytes) (dest : bytes) (from chown chmod : option bytes)
  | Volume (paths : list bytes)
  | User (user : bytes)
  | Workdir (path : bytes)
  | Arg (name : bytes) (default_ : option bytes)
  | Onbuild (instr : Instr)
  | Stopsignal (signal : bytes)
  | HealthcheckI (check : Healthcheck)
  | ShellI (shell : list bytes).

Record BuildStep := mkStep { instr : Instr; raw : bytes }.

Definition invalid {A} (msg : bytes) : Result A := Err (InvalidManifest msg).

(** * Flags (flags.rs) *)

(** The leading [--key[=value]] tokens, and the rest. *)
Fixpoint split_flag_tokens (toks : list bytes) : list (bytes * bytes) * list bytes :=
  match toks with
  | [] => ([], [])
  | tok :: rest =>
      match strip_prefix (str "--") tok with
      | Some flag => let '(fs, pos) := split_flag_tokens rest in (default (flag, []) (split_once x3d flag) :: fs, pos)
      | None => ([], toks)
      end
  end.

Definition split_flags (rest : bytes) : list (bytes * bytes) * list bytes := split_flag_tokens (split_ascii_whitespace rest).

Fixpoint validate_flags (flags : list (bytes * bytes)) (instruction : bytes) (allowed : list bytes) : Result unit :=
  match flags with
  | [] => Ok tt
  | (name, value) :: flags =>
      if negb (bool_decide (name ∈ allowed)) then invalid (instruction ++ str ": unknown flag --" ++ name)
      else if bool_decide (value = []) then invalid (instruction ++ str ": flag --" ++ name ++ str " requires =<value>")
      else validate_flags flags instruction allowed
  end.

(** * Instructions (instr.rs) *)

Definition find_flag (flags : list (bytes * bytes)) (name : bytes) : option bytes := snd <$> find (fun kv => bool_decide (kv.1 = name)) flags.

Definition parse_from (rest : bytes) : Result Instr :=
  let '(flags, positional) := split_flags rest in
  _ ← validate_flags flags (str "FROM") [str "platform"];
  let platform := find_flag flags (str "platform") in
  let rest := join_words positional in
  match split_ascii_whitespace rest with
  | [] => invalid (str "FROM requires an image reference")
  | [image_ref] => Ok (From image_ref platform None)
  | image_ref :: as_ :: stage :: _ =>
      if eq_ignore_ascii_case as_ (str "AS") then Ok (From image_ref platform (Some stage))
      else invalid (str "FROM: expected `<image> [AS <name>]`, got: " ++ rest)
  | _ => invalid (str "FROM: expected `<image> [AS <name>]`, got: " ++ rest)
  end.

Definition src_dest (positional : list bytes) (verb : bytes) : Result (list bytes * bytes) :=
  match reverse positional with
  | dest :: s :: r => Ok (reverse (s :: r), dest)
  | _ => invalid (verb ++ str " requires at least src dest")
  end.

Definition parse_add (rest : bytes) : Result Instr :=
  let '(flags, positional) := split_flags rest in
  _ ← validate_flags flags (str "ADD") [str "chown"; str "chmod"];
  let chown := find_flag flags (str "chown") in
  let chmod := find_flag flags (str "chmod") in
  '(src, dest) ← src_dest positional (str "ADD");
  Ok (Add src dest chown chmod).

Definition parse_copy (rest : bytes) : Result Instr :=
  let '(flags, positional) := split_flags rest in
  _ ← validate_flags flags (str "COPY") [str "from"; str "chown"; str "chmod"];
  let from := find_flag flags (str "from") in
  let chown := find_flag flags (str "chown") in
  let chmod := find_flag flags (str "chmod") in
  '(src, dest) ← src_dest positional (str "COPY");
  Ok (Copy src dest from chown chmod).

Definition parse_arg (rest : bytes) : Instr :=
  match split_once x3d rest with
  | Some (name, dflt) => Arg (trim name) (Some (trim dflt))
  | None => Arg (trim rest) None
  end.

Definition non_empty (rest verb : bytes) : Result bytes :=
  let t := trim rest in
  if bool_decide (t = []) then invalid (verb ++ str " requires an argument") else Ok t.

(** ** Quoting *)

Definition SQUOTE : byte := x27.
Definition DQUOTE : byte := x22.
Definition BACKSLASH : byte := x5c.

(** A single-quoted run, after its opening quote: the text and what follows. *)
Fixpoint single_quoted (s : bytes) : option (bytes * bytes) :=
  match s with
  | [] => None
  | b :: s => if bool_decide (b = SQUOTE) then Some ([], s) else '(t, r) ← single_quoted s; Some (b :: t, r)
  end.

(** A double-quoted run, in which a backslash escapes a quote and a backslash. *)
Fixpoint double_quoted (s : bytes) : option (bytes * bytes) :=
  match s with
  | [] => None
  | b :: s =>
      if bool_decide (b = DQUOTE) then Some ([], s)
      else if bool_decide (b = BACKSLASH) then
        match s with
        | [] => None
        | e :: s =>
            '(t, r) ← double_quoted s;
            Some (if bool_decide (e = DQUOTE) || bool_decide (e = BACKSLASH) then e :: t else BACKSLASH :: e :: t, r)
        end
      else '(t, r) ← double_quoted s; Some (b :: t, r)
  end.

(** The loop over the characters: [cur] is the token so far, [None] between tokens.  Each
    turn takes at least one byte. *)
Fixpoint tokenize_go (turns : nat) (whole : bytes) (cur : option bytes) (s : bytes) : Result (list bytes) :=
  match turns with
  | O => Ok (match cur with Some t => [t] | None => [] end)
  | S turns =>
      match s with
      | [] => Ok (match cur with Some t => [t] | None => [] end)
      | b :: s =>
          if is_ascii_whitespace b then
            match cur with
            | Some t => ts ← tokenize_go turns whole None s; Ok (t :: ts)
            | None => tokenize_go turns whole None s
            end
          else if bool_decide (b = SQUOTE) then
            match single_quoted s with
            | Some (t, r) => tokenize_go turns whole (Some (default [] cur ++ t)) r
            | None => invalid (str "ENV/LABEL: unterminated single quote in: " ++ whole)
            end
          else if bool_decide (b = DQUOTE) then
            match double_quoted s with
            | Some (t, r) => tokenize_go turns whole (Some (default [] cur ++ t)) r
            | None => invalid (str "ENV/LABEL: unterminated double quote in: " ++ whole)
            end
          else tokenize_go turns whole (Some (default [] cur ++ [b])) s
      end
  end.

Definition tokenize_quoted (s : bytes) : Result (list bytes) := tokenize_go (length s) s None s.

(** [matches!(tok.find('='), Some(i) if i > 0)]. *)
Definition has_key (tok : bytes) : bool :=
  match split_once x3d tok with Some (_ :: _, _) => true | _ => false end.

Fixpoint token_pairs (tokens : list bytes) : Result (list (bytes * bytes)) :=
  match tokens with
  | [] => Ok []
  | tok :: tokens =>
      match split_once x3d tok with
      | None => invalid (str "ENV/LABEL: expected KEY=VALUE, got: " ++ tok)
      | Some (k, v) =>
          let key := trim k in
          if bool_decide (key = []) then invalid (str "ENV/LABEL: empty key in KEY=VALUE")
          else ps ← token_pairs tokens; Ok ((key, v) :: ps)
      end
  end.

Definition parse_kv_pairs (rest : bytes) : Result (list (bytes * bytes)) :=
  let t := trim rest in
  if bool_decide (t = []) then invalid (str "LABEL/ENV requires a key") else
  tokens ← tokenize_quoted t;
  let first_has_eq := match head tokens with Some tok => has_key tok | None => false end in
  if negb first_has_eq then
    let '(k, v) := match split_once_ws t with Some (a, b) => (trim a, trim b) | None => (t, []) end in
    Ok [(k, v)]
  else token_pairs tokens.

(** Drop the leading [--flag] tokens; each turn drops one. *)
Fixpoint first_ws (s : bytes) : bytes :=
  match ws_strip s with
  | Some _ => s
  | None => match s with [] => [] | _ :: s => first_ws s end
  end.

Fixpoint strip_flags_go (turns : nat) (rest : bytes) : bytes :=
  match turns with
  | O => rest
  | S turns =>
      match strip_prefix (str "--") rest with
      | Some stripped => strip_flags_go turns (trim_start (first_ws stripped))
      | None => rest
      end
  end.

Definition strip_leading_flags (s : bytes) : bytes := let rest := trim s in strip_flags_go (length rest) rest.

Definition set_opt (k v : bytes) (o : HealthcheckOpts) : option HealthcheckOpts :=
  if bool_decide (k = str "interval") then Some (mkOpts (Some v) (timeout o) (start_period o) (start_interval o) (retries o))
  else if bool_decide (k = str "timeout") then Some (mkOpts (interval o) (Some v) (start_period o) (start_interval o) (retries o))
  else if bool_decide (k = str "start-period") then Some (mkOpts (interval o) (timeout o) (Some v) (start_interval o) (retries o))
  else if bool_decide (k = str "start-interval") then Some (mkOpts (interval o) (timeout o) (start_period o) (Some v) (retries o))
  else if bool_decide (k = str "retries") then Some (mkOpts (interval o) (timeout o) (start_period o) (start_interval o) (Some v))
  else None.

Fixpoint healthcheck_opts (flags : list (bytes * bytes)) (o : HealthcheckOpts) : Result HealthcheckOpts :=
  match flags with
  | [] => Ok o
  | (k, v) :: flags =>
      match set_opt k v o with
      | Some o => healthcheck_opts flags o
      | None => invalid (str "HEALTHCHECK: unknown flag --" ++ k)
      end
  end.

Section json.
(** [serde_json::from_str::<Vec<String>>]. *)
Variable json_array : bytes -> option (list bytes).

Definition cmd_form (rest : bytes) : CmdForm :=
  let t := trim rest in
  if starts_with (str "[") t then match json_array t with Some v => Exec v | None => Shell t end else Shell t.

Definition cmd_argv (rest : bytes) : list bytes :=
  match cmd_form rest with
  | Exec v => v
  | Shell s => [str "/bin/sh"; str "-c"; s]
  end.

Definition parse_run (rest : bytes) : Result Instr :=
  match head (split_ascii_whitespace rest) ≫= strip_prefix (str "--") with
  | Some flag =>
      let name := match split_once x3d flag with Some (name, _) => name | None => flag end in
      invalid (if bool_decide (name = str "mount") then str "RUN: unsupported flag --mount" else str "RUN: unknown flag --" ++ name)
  | None => Ok (Run (cmd_argv rest) (cmd_form rest))
  end.

Definition parse_shell (rest : bytes) : Result Instr :=
  let t := trim rest in
  match json_array t with
  | None => invalid (str "SHELL requires JSON-array exec form, got: " ++ rest)
  | Some [] => invalid (str "SHELL requires a non-empty JSON array")
  | Some shell => Ok (ShellI shell)
  end.

Definition parse_healthcheck (rest : bytes) : Result Instr :=
  let t := trim rest in
  if eq_ignore_ascii_case t (str "NONE") then Ok (HealthcheckI HcNone) else
  let '(flags, _) := split_flags t in
  opts ← healthcheck_opts flags (mkOpts None None None None None);
  let after_flags := strip_leading_flags t in
  let '(kw, cmd_rest) := match split_once_ws after_flags with Some (k, r) => (k, trim r) | None => (after_flags, []) end in
  if negb (eq_ignore_ascii_case kw (str "CMD")) then invalid (str "HEALTHCHECK: expected CMD or NONE, got: " ++ rest)
  else Ok (HealthcheckI (HcCmd opts (cmd_form cmd_rest))).

Definition parse_paths (rest : bytes) : list bytes :=
  let t := trim rest in
  match (if starts_with (str "[") t then json_array t else None) with
  | Some v => v
  | None => split_ascii_whitespace t
  end.

(** * The dispatcher (mod.rs) *)

Definition KNOWN_VERBS : list bytes :=
  [str "FROM"; str "RUN"; str "CMD"; str "LABEL"; str "EXPOSE"; str "ENV"; str "ADD"; str "COPY"; str "ENTRYPOINT"; str "VOLUME";
   str "USER"; str "WORKDIR"; str "ARG"; str "ONBUILD"; str "STOPSIGNAL"; str "HEALTHCHECK"; str "SHELL"; str "MAINTAINER"].

Definition result_map {A B} (f : A -> B) (r : Result A) : Result B := match r with Ok a => Ok (f a) | Err e => Err e end.

(** The verb and the trimmed rest of a line. *)
Definition split_verb (line : bytes) : bytes * bytes :=
  match split_once_ws line with Some (k, r) => (k, trim r) | None => (line, []) end.

(** Everything but [ONBUILD]. *)
Definition parse_plain (verb upper rest : bytes) : Result Instr :=
  if bool_decide (upper = str "FROM") then parse_from rest
  else if bool_decide (upper = str "RUN") then parse_run rest
  else if bool_decide (upper = str "CMD") then Ok (Cmd (cmd_argv rest) (cmd_form rest))
  else if bool_decide (upper = str "ENTRYPOINT") then Ok (Entrypoint (cmd_argv rest) (cmd_form rest))
  else if bool_decide (upper = str "LABEL") then result_map Label (parse_kv_pairs rest)
  else if bool_decide (upper = str "ENV") then result_map Env (parse_kv_pairs rest)
  else if bool_decide (upper = str "EXPOSE") then Ok (Expose (split_ascii_whitespace rest))
  else if bool_decide (upper = str "ADD") then parse_add rest
  else if bool_decide (upper = str "COPY") then parse_copy rest
  else if bool_decide (upper = str "VOLUME") then Ok (Volume (parse_paths rest))
  else if bool_decide (upper = str "USER") then result_map User (non_empty rest (str "USER"))
  else if bool_decide (upper = str "WORKDIR") then result_map Workdir (non_empty rest (str "WORKDIR"))
  else if bool_decide (upper = str "ARG") then Ok (parse_arg rest)
  else if bool_decide (upper = str "STOPSIGNAL") then result_map Stopsignal (non_empty rest (str "STOPSIGNAL"))
  else if bool_decide (upper = str "HEALTHCHECK") then parse_healthcheck rest
  else if bool_decide (upper = str "SHELL") then parse_shell rest
  else if bool_decide (upper = str "MAINTAINER") then invalid (str "unsupported instruction: MAINTAINER (deprecated; use LABEL)")
  else invalid (str "unsupported instruction: " ++ upper).

(** [ONBUILD] recurses once: its instruction is no [ONBUILD]. *)
Fixpoint parse_instruction_go (depth : nat) (line : bytes) : Result Instr :=
  let '(verb, rest) := split_verb line in
  let upper := to_ascii_uppercase verb in
  if negb (bool_decide (upper ∈ KNOWN_VERBS)) then invalid (str "unsupported instruction: " ++ verb)
  else if bool_decide (upper = str "ONBUILD") then
    let inner_verb := to_ascii_uppercase (match split_once_ws rest with Some (k, _) => k | None => rest end) in
    if bool_decide (inner_verb ∈ [str "ONBUILD"; str "FROM"; str "MAINTAINER"])
    then invalid (str "ONBUILD " ++ inner_verb ++ str " is not allowed")
    else match depth with
    | O => invalid []
    | S depth => result_map Onbuild (parse_instruction_go depth rest)
    end
  else parse_plain verb upper rest.

Definition parse_instruction (line : bytes) : Result Instr := parse_instruction_go 1 line.

(** ** Lines *)

Fixpoint directives_go (ls : list bytes) (d : Directives) : Directives :=
  match ls with
  | [] => d
  | raw :: ls =>
      let line := trim raw in
      if bool_decide (line = []) then d else
      match strip_prefix (str "#") line with
      | None => d
      | Some comment =>
          match split_once x3d (trim comment) with
          | None => d
          | Some (k, v) =>
              let k := to_ascii_lowercase (trim k) in
              if bool_decide (k = str "syntax") then directives_go ls (mkDirectives (Some (trim v)) (escape d))
              else if bool_decide (k = str "escape") then directives_go ls (mkDirectives (syntax d) (head (chars_of (trim v))))
              else d
          end
      end
  end.

Definition scan_directives (text : bytes) : Directives * bytes := (directives_go (lines text) (mkDirectives None None), text).

(** [s.strip_suffix(p)] through the reversed text. *)
Definition strip_suffix (p s : bytes) : option bytes := reverse <$> strip_prefix (reverse p) (reverse s).

Fixpoint join_go (ls : list bytes) (esc current : bytes) (continuing : bool) : list bytes :=
  match ls with
  | [] => if continuing && negb (bool_decide (current = [])) then [current] else []
  | raw :: ls =>
      let is_comment := starts_with (str "#") (trim_start raw) in
      if continuing && is_comment then join_go ls esc current continuing else
      match (if is_comment then None else strip_suffix esc (trim_end raw)) with
      | Some body => join_go ls esc (current ++ body ++ str " ") true
      | None => (current ++ raw) :: join_go ls esc [] false
      end
  end.

Definition join_continuations (text esc : bytes) : list bytes := join_go (lines text) esc [] false.

Fixpoint parse_steps (logical : list bytes) : Result (list BuildStep) :=
  match logical with
  | [] => Ok []
  | line :: logical =>
      let trimmed := trim line in
      if bool_decide (trimmed = []) || starts_with (str "#") trimmed then parse_steps logical
      else
        i ← parse_instruction trimmed;
        steps ← parse_steps logical;
        Ok (mkStep i trimmed :: steps)
  end.

Definition parse_dockerfile_full (text : bytes) : Result (Directives * list BuildStep) :=
  let '(directives, body) := scan_directives text in
  let esc := default [BACKSLASH] (escape directives) in
  let logical := join_continuations body esc in
  steps ← parse_steps logical;
  Ok (directives, steps).

Definition parse_dockerfile (text : bytes) : Result (list BuildStep) := result_map snd (parse_dockerfile_full text).
End json.

(** One level of [ONBUILD] is enough: more depth changes nothing. *)
Lemma onbuild_depth json_array depth line : parse_instruction_go json_array (S depth) line = parse_instruction json_array line.
Proof.
assert (forall d d' l, to_ascii_uppercase (split_verb l).1 <> str "ONBUILD" -> parse_instruction_go json_array d l = parse_instruction_go json_array d' l) as Hp.
{ intros d d' l Hl. destruct d, d'; cbn [parse_instruction_go]; destruct (split_verb l) as [v r]; cbn [fst] in Hl; by rewrite (bool_decide_false (_ = str "ONBUILD")). }
unfold parse_instruction. generalize 0. intros d'. cbn [parse_instruction_go]. destruct (split_verb line) as [verb rest]. destruct (negb _); [done|].
destruct (bool_decide (to_ascii_uppercase verb = _)); [|done]. case_bool_decide as Hi; [done|]. f_equal. apply Hp.
intros E. apply Hi. unfold split_verb in E. destruct (split_once_ws rest) as [[k r]|]; cbn [fst] in E; rewrite E; set_solver.
Qed.

(** * Rendering *)

(** ** Quoted pairs *)

Definition quote_byte (b : byte) : bytes := if bool_decide (b = DQUOTE) || bool_decide (b = BACKSLASH) then [BACKSLASH; b] else [b].
Definition quoted (v : bytes) : bytes := DQUOTE :: mjoin (quote_byte <$> v) ++ [DQUOTE].
Definition render_pair (kv : bytes * bytes) : bytes := kv.1 ++ x3d :: quoted kv.2.
Definition render_pairs (pairs : list (bytes * bytes)) : bytes := join_words (render_pair <$> pairs).

(** A key: printable, without an equals sign and without quotes. *)
Definition key_byte (b : byte) : bool := is_ascii_graphic b && negb (bool_decide (b = x3d)) && negb (bool_decide (b = SQUOTE)) && negb (bool_decide (b = DQUOTE)).
Definition key_ok (k : bytes) : Prop := k <> [] /\ forallb key_byte k = true.

Lemma double_quoted_render v r : double_quoted (mjoin (quote_byte <$> v) ++ DQUOTE :: r) = Some (v, r).
Proof.
induction v as [|b v IH]; [done|]. rewrite fmap_cons, join_cons, <- app_assoc. unfold quote_byte at 1.
destruct (bool_decide (b = DQUOTE) || bool_decide (b = BACKSLASH)) eqn:E; cbn [app double_quoted].
- rewrite (bool_decide_false (BACKSLASH = DQUOTE)), (bool_decide_true (BACKSLASH = BACKSLASH)) by done. rewrite IH. cbn [mbind option_bind]. by rewrite E.
- apply orb_false_iff in E as [-> ->]. rewrite IH. done.
Qed.

Lemma tokenize_key_byte turns whole cur b s : key_byte b = true \/ b = x3d ->
  tokenize_go (S turns) whole cur (b :: s) = tokenize_go turns whole (Some (default [] cur ++ [b])) s.
Proof.
intros Hb. assert (is_ascii_whitespace b = false /\ b <> SQUOTE /\ b <> DQUOTE) as (H1 & H2 & H3).
{ destruct Hb as [Hb| ->]; [|done]. unfold key_byte in Hb. rewrite !andb_true_iff, !negb_true_iff, !bool_decide_eq_false in Hb. destruct Hb as [[[Hg _] Hs] Hd].
  by rewrite graphic_not_ws. }
cbn [tokenize_go]. by rewrite H1, !bool_decide_false.
Qed.

Lemma tokenize_key turns whole cur k s : forallb key_byte k = true ->
  length (k ++ s) <= turns -> tokenize_go turns whole (Some cur) (k ++ s) = tokenize_go (turns - length k) whole (Some (cur ++ k)) s.
Proof.
revert turns cur. induction k as [|b k IH]; intros turns cur Hk Hl; [by rewrite app_nil_r, Nat.sub_0_r|].
cbn [forallb] in Hk. apply andb_true_iff in Hk as [Hb Hk]. destruct turns as [|turns]; [cbn [app length] in Hl; lia|].
cbn [app]. rewrite tokenize_key_byte by auto. cbn [default]. rewrite IH by (done || cbn [app length] in Hl; lia). by rewrite <- app_assoc.
Qed.

Lemma tokenize_pair turns whole kv s :
  key_ok kv.1 -> length (render_pair kv ++ s) <= turns ->
  exists turns', length s <= turns' /\ tokenize_go turns whole None (render_pair kv ++ s) = tokenize_go turns' whole (Some (kv.1 ++ x3d :: kv.2)) s.
Proof.
destruct kv as [k v]. cbn [fst snd]. intros [Hne Hk] Hl. destruct k as [|b k]; [done|]. cbn [forallb] in Hk. apply andb_true_iff in Hk as [Hb Hk].
unfold render_pair, quoted in *. cbn [fst snd app] in *. destruct turns as [|turns]; [cbn [length] in Hl; lia|]. rewrite tokenize_key_byte by auto. cbn [default app].
rewrite <- !app_assoc in *. cbn [app length] in *. rewrite tokenize_key by (done || lia). rewrite length_app in Hl. cbn [app length] in *.
destruct (turns - length k) as [|t1] eqn:E1; [lia|]. rewrite tokenize_key_byte by auto. destruct t1 as [|t2]; [lia|].
exists t2. rewrite !length_app in Hl. cbn [length] in Hl. split; [lia|]. cbn [tokenize_go]. change (is_ascii_whitespace DQUOTE) with false.
rewrite (bool_decide_false (DQUOTE = SQUOTE)), (bool_decide_true (DQUOTE = DQUOTE)) by done. cbn iota.
rewrite <- (app_assoc (mjoin _)). cbn [app]. rewrite double_quoted_render. cbn [default]. 
  match goal with |- tokenize_go _ _ (Some ?a) _ = tokenize_go _ _ (Some ?b) _ => replace a with b; [done|] end. simpl. by rewrite <- app_assoc.
Qed.

Definition pair_token (kv : bytes * bytes) : bytes := kv.1 ++ x3d :: kv.2.

Lemma tokenize_pairs turns whole pairs :
  Forall (fun kv => key_ok kv.1) pairs -> length (render_pairs pairs) <= turns ->
  tokenize_go turns whole None (render_pairs pairs) = Ok (pair_token <$> pairs).
Proof.
intros Hp. revert turns. induction Hp as [|kv pairs Hk Hp IH]; intros turns Hl; [by destruct turns|]. unfold render_pairs in *. rewrite fmap_cons in *. destruct pairs as [|kv' pairs].
- cbn [fmap list_fmap join_words] in *. rewrite <- (app_nil_r (render_pair kv)) in *. destruct (tokenize_pair turns whole kv [] Hk Hl) as (t & _ & ->). by destruct t.
- rewrite fmap_cons, join_words_cons in *. destruct (tokenize_pair turns whole kv _ Hk Hl) as (t & Ht & ->). rewrite <- fmap_cons in *.
  cbn [length] in Ht. destruct t as [|t]; [lia|]. cbn [tokenize_go]. change (is_ascii_whitespace x20) with true. cbn iota. rewrite IH by lia. done.
Qed.

Lemma key_not_eq k : forallb key_byte k = true -> x3d ∉ k.
Proof.
rewrite forallb_forall. intros H Hin. apply list_elem_of_In, H in Hin. by vm_compute in Hin.
Qed.

Lemma key_graphic k : forallb key_byte k = true -> forallb is_ascii_graphic k = true.
Proof. rewrite !forallb_forall. intros H b Hb. apply H in Hb. unfold key_byte in Hb. by rewrite !andb_true_iff in Hb; destruct Hb as [[[? _] _] _]. Qed.

Lemma token_pairs_ok pairs : Forall (fun kv => key_ok kv.1) pairs -> token_pairs (pair_token <$> pairs) = Ok pairs.
Proof.
induction 1 as [|[k v] pairs [Hne Hk] Hp IH]; [done|]. rewrite fmap_cons. cbn [token_pairs]. unfold pair_token at 1. cbn [fst snd] in *.
rewrite split_once_app by (by apply key_not_eq). rewrite trim_tidy by (by apply graphic_tidy, key_graphic). rewrite bool_decide_false by done. by rewrite IH.
Qed.

Lemma render_pair_tidy kv : key_ok kv.1 -> tidy (render_pair kv).
Proof.
intros [Hne Hk]. destruct kv as [k v]. cbn [fst] in *. unfold render_pair, quoted. cbn [fst snd]. split.
- destruct k as [|b k]; [done|]. cbn [app]. cbn [forallb] in Hk. apply andb_true_iff in Hk as [Hb _]. unfold key_byte in Hb. by rewrite !andb_true_iff in Hb; destruct Hb as [[[? _] _] _].
- exists DQUOTE. split; [|done]. rewrite app_comm_cons, app_comm_cons, app_assoc. apply last_snoc.
Qed.

Lemma join_words_tidy ws : ws <> [] -> Forall tidy ws -> tidy (join_words ws).
Proof.
intros Hne Hws. induction Hws as [|w ws Hw Hws IH]; [done|]. destruct ws as [|w' ws]; [done|]. change (join_words (w :: w' :: ws)) with (w ++ str " " ++ join_words (w' :: ws)).
apply tidy_app; [done|]. by apply IH.
Qed.

Lemma kv_roundtrip pairs : pairs <> [] -> Forall (fun kv => key_ok kv.1) pairs -> parse_kv_pairs (render_pairs pairs) = Ok pairs.
Proof.
intros Hne Hp. unfold parse_kv_pairs. assert (tidy (render_pairs pairs)) as Ht.
{ apply join_words_tidy; [by destruct pairs|]. apply Forall_fmap. eapply Forall_impl; [exact Hp|]. intros kv. apply render_pair_tidy. }
rewrite trim_tidy by done. rewrite bool_decide_false by (intros E; rewrite E in Ht; by destruct Ht). unfold tokenize_quoted. rewrite tokenize_pairs by done.
cbn [mbind Result_mbind]. destruct pairs as [|[k v] pairs]; [done|]. rewrite fmap_cons. cbn [head]. unfold has_key at 1. unfold pair_token at 1. cbn [fst snd].
pose proof (Forall_inv Hp) as [Hk1 Hk2]. cbn [fst] in *. rewrite split_once_app by (by apply key_not_eq). destruct k; [done|]. cbn [negb]. rewrite <- fmap_cons. by apply token_pairs_ok.
Qed.

(** ** Instructions *)

Definition flag (name : bytes) (v : option bytes) : list (bytes * bytes) := match v with Some v => [(name, v)] | None => [] end.
Definition flag_token (kv : bytes * bytes) : bytes := str "--" ++ kv.1 ++ x3d :: kv.2.

(** Printable words; an operand does not look like a flag. *)
Definition gword (w : bytes) : Prop := w <> [] /\ forallb is_ascii_graphic w = true.
Definition operand (w : bytes) : Prop := gword w /\ strip_prefix (str "--") w = None.
Definition flag_ok (v : option bytes) : Prop := match v with Some v => gword v | None => True end.

(** A shell command: trimmed, and not a JSON array. *)
Definition command_ok (s : bytes) : Prop := tidy s /\ starts_with (str "[") s = false.

Definition shell_argv (s : bytes) : list bytes := [str "/bin/sh"; str "-c"; s].

(** The operands of an instruction. *)
Definition operands (i : Instr) : bytes :=
  match i with
  | From img p st => join_words ((flag_token <$> flag (str "platform") p) ++ img :: match st with Some s => [str "AS"; s] | None => [] end)
  | Run _ (Shell s) | Cmd _ (Shell s) | Entrypoint _ (Shell s) => s
  | Label pairs | Env pairs => render_pairs pairs
  | Expose ws | Volume ws => join_words ws
  | Add src dest ch cm => join_words ((flag_token <$> flag (str "chown") ch ++ flag (str "chmod") cm) ++ src ++ [dest])
  | Copy src dest fr ch cm => join_words ((flag_token <$> flag (str "from") fr ++ flag (str "chown") ch ++ flag (str "chmod") cm) ++ src ++ [dest])
  | User s | Workdir s | Stopsignal s => s
  | Arg name (Some d) => name ++ x3d :: d
  | Arg name None => name
  | _ => []
  end.

Definition verb_of (i : Instr) : bytes :=
  match i with
  | From _ _ _ => str "FROM" | Run _ _ => str "RUN" | Cmd _ _ => str "CMD" | Entrypoint _ _ => str "ENTRYPOINT"
  | Label _ => str "LABEL" | Expose _ => str "EXPOSE" | Env _ => str "ENV" | Add _ _ _ _ => str "ADD" | Copy _ _ _ _ _ => str "COPY"
  | Volume _ => str "VOLUME" | User _ => str "USER" | Workdir _ => str "WORKDIR" | Arg _ _ => str "ARG" | Onbuild _ => str "ONBUILD"
  | Stopsignal _ => str "STOPSIGNAL" | HealthcheckI _ => str "HEALTHCHECK" | ShellI _ => str "SHELL"
  end.

Fixpoint render (i : Instr) : bytes :=
  match i with
  | Onbuild i => str "ONBUILD" ++ x20 :: render i
  | i => verb_of i ++ x20 :: operands i
  end.

(** What the operands have to be. *)
Definition operands_ok (i : Instr) : Prop :=
  match i with
  | From img p st => operand img /\ flag_ok p /\ match st with Some s => gword s | None => True end
  | Run argv (Shell s) => command_ok s /\ argv = shell_argv s /\ strip_prefix (str "--") s = None
  | Cmd argv (Shell s) | Entrypoint argv (Shell s) => command_ok s /\ argv = shell_argv s
  | Label pairs | Env pairs => pairs <> [] /\ Forall (fun kv => key_ok kv.1) pairs
  | Expose ws => ws <> [] /\ Forall gword ws
  | Volume ws => ws <> [] /\ Forall gword ws /\ starts_with (str "[") (join_words ws) = false
  | Add src dest ch cm => src <> [] /\ Forall operand (src ++ [dest]) /\ flag_ok ch /\ flag_ok cm
  | Copy src dest fr ch cm => src <> [] /\ Forall operand (src ++ [dest]) /\ flag_ok fr /\ flag_ok ch /\ flag_ok cm
  | User s | Workdir s | Stopsignal s => tidy s
  | Arg name d => gword name /\ x3d ∉ name /\ match d with Some d => tidy d | None => True end
  | _ => False
  end.

Fixpoint canonical (i : Instr) : Prop :=
  match i with
  | Onbuild i => operands_ok i /\ match i with From _ _ _ => False | _ => True end
  | i => operands_ok i
  end.

Lemma gword_word w : gword w -> word w.
Proof. intros [? ?]. by apply graphic_word. Qed.

Lemma gword_tidy w : gword w -> tidy w.
Proof. intros [? ?]. by apply graphic_tidy. Qed.

Lemma flag_token_gword kv : forallb is_ascii_graphic kv.1 = true -> gword kv.2 -> gword (flag_token kv).
Proof.
intros H1 [H2 H3]. split; [done|]. unfold flag_token. rewrite !forallb_app, H1. cbn [forallb]. by rewrite H3.
Qed.

Lemma split_flag_tokens_ok fs pos :
  Forall (fun kv => x3d ∉ kv.1) fs -> match pos with w :: _ => strip_prefix (str "--") w = None | [] => True end ->
  split_flag_tokens ((flag_token <$> fs) ++ pos) = (fs, pos).
Proof.
intros Hf Hp. induction Hf as [|[k v] fs Hk Hf IH].
- destruct pos as [|w pos]; [done|]. cbn [fmap list_fmap app split_flag_tokens]. by rewrite Hp.
- rewrite fmap_cons. cbn [app split_flag_tokens]. unfold flag_token at 1. rewrite strip_prefix_app, IH. cbn [fst snd] in *. by rewrite split_once_app.
Qed.

Lemma split_flags_ok fs pos :
  Forall (fun kv => x3d ∉ kv.1 /\ forallb is_ascii_graphic kv.1 = true /\ gword kv.2) fs -> Forall gword pos ->
  match pos with w :: _ => strip_prefix (str "--") w = None | [] => True end ->
  split_flags (join_words ((flag_token <$> fs) ++ pos)) = (fs, pos).
Proof.
intros Hf Hp Hh. unfold split_flags. rewrite words_join.
- apply split_flag_tokens_ok; [|done]. eapply Forall_impl; [exact Hf|]. by intros kv (? & _).
- apply Forall_app. split; [|eapply Forall_impl; [exact Hp|]; apply gword_word]. apply Forall_fmap. eapply Forall_impl; [exact Hf|].
  intros kv (_ & ? & ?). by apply gword_word, flag_token_gword.
Qed.

Lemma flag_forall name v : x3d ∉ name -> forallb is_ascii_graphic name = true -> flag_ok v ->
  Forall (fun kv => x3d ∉ kv.1 /\ forallb is_ascii_graphic kv.1 = true /\ gword kv.2) (flag name v).
Proof. intros H1 H2 Hv. destruct v as [v|]; [|constructor]. apply Forall_singleton. done. Qed.

Lemma validate_ok fs instruction allowed :
  Forall (fun kv => kv.1 ∈ allowed /\ kv.2 <> []) fs -> validate_flags fs instruction allowed = Ok tt.
Proof.
induction 1 as [|[k v] fs [Ha Hv] Hf IH]; [done|]. cbn [validate_flags fst snd] in *. by rewrite bool_decide_true, bool_decide_false, IH.
Qed.

Lemma flag_allowed name v (allowed : list bytes) : name ∈ allowed -> flag_ok v -> Forall (fun kv => kv.1 ∈ allowed /\ kv.2 <> []) (flag name v).
Proof. intros Ha Hv. destruct v as [v|]; [|constructor]. apply Forall_singleton. by destruct Hv. Qed.

Lemma src_dest_ok src dest verb : src <> [] -> src_dest (src ++ [dest]) verb = Ok (src, dest).
Proof.
intros H. unfold src_dest. rewrite reverse_app. change (reverse [dest] ++ reverse src) with (dest :: reverse src). destruct (reverse src) as [|s r] eqn:E; [by apply (f_equal reverse) in E; rewrite reverse_involutive in E|].
by rewrite <- E, reverse_involutive.
Qed.

(** ** The operands are read back *)

Lemma parse_from_render img p st : operands_ok (From img p st) -> parse_from (operands (From img p st)) = Ok (From img p st).
Proof.
intros ([Hi Hd] & Hp & Hs). unfold parse_from. cbn [operands].
assert (Forall gword (img :: match st with Some s => [str "AS"; s] | None => [] end)) as Hg.
{ constructor; [done|]. destruct st as [s|]; [|constructor]. repeat constructor; try done; apply Hs. }
rewrite split_flags_ok; [|apply flag_forall; [by_eval|done|done]|done|done]. rewrite validate_ok by (by apply flag_allowed; [set_solver|]). cbn [mbind Result_mbind].
rewrite words_join by (eapply Forall_impl; [exact Hg|]; apply gword_word). by destruct p, st.
Qed.

Lemma parse_add_render src dest ch cm : operands_ok (Add src dest ch cm) -> parse_add (operands (Add src dest ch cm)) = Ok (Add src dest ch cm).
Proof.
intros (Hs & Ho & H1 & H2). unfold parse_add. cbn [operands]. rewrite split_flags_ok.
- rewrite validate_ok by (apply Forall_app; split; apply flag_allowed; done || set_solver). cbn [mbind Result_mbind]. rewrite src_dest_ok by done. by destruct ch, cm.
- apply Forall_app. split; (apply flag_forall; [by_eval|done|done]).
- eapply Forall_impl; [exact Ho|]. by intros w [? _].
- destruct src as [|s src]; [done|]. by apply Forall_inv in Ho as [_ ?].
Qed.

Lemma parse_copy_render src dest fr ch cm :
  operands_ok (Copy src dest fr ch cm) -> parse_copy (operands (Copy src dest fr ch cm)) = Ok (Copy src dest fr ch cm).
Proof.
intros (Hs & Ho & H0 & H1 & H2). unfold parse_copy. cbn [operands]. rewrite split_flags_ok.
- rewrite validate_ok by (rewrite !Forall_app; split; [|split]; apply flag_allowed; done || set_solver). cbn [mbind Result_mbind]. rewrite src_dest_ok by done. by destruct fr, ch, cm.
- rewrite !Forall_app. split; [|split]; (apply flag_forall; [by_eval|done|done]).
- eapply Forall_impl; [exact Ho|]. by intros w [? _].
- destruct src as [|s src]; [done|]. by apply Forall_inv in Ho as [_ ?].
Qed.

Lemma parse_arg_render name d : operands_ok (Arg name d) -> parse_arg (operands (Arg name d)) = Arg name d.
Proof.
intros (Hn & He & Hd). unfold parse_arg. cbn [operands]. destruct d as [d|].
- rewrite split_once_app by done. by rewrite !trim_tidy by (done || by apply gword_tidy).
- rewrite split_once_none by done. by rewrite trim_tidy by (by apply gword_tidy).
Qed.

Lemma non_empty_render s verb : tidy s -> non_empty s verb = Ok s.
Proof. intros H. unfold non_empty. rewrite trim_tidy by done. rewrite bool_decide_false; [done|]. intros ->. by destruct H. Qed.

Section instructions.
Context (json_array : bytes -> option (list bytes)).

Lemma cmd_form_render s : command_ok s -> cmd_form json_array s = Shell s.
Proof. intros [Ht Hs]. unfold cmd_form. by rewrite trim_tidy, Hs. Qed.

Lemma cmd_argv_render s : command_ok s -> cmd_argv json_array s = shell_argv s.
Proof. intros H. unfold cmd_argv. by rewrite cmd_form_render. Qed.

Lemma first_word s w ws : split_ascii_whitespace s = w :: ws -> tidy s -> strip_prefix (str "--") s = None -> strip_prefix (str "--") w = None.
Proof.
intros E Ht Hs. destruct (strip_prefix (str "--") w) as [r|] eqn:Ew; [|done]. exfalso. apply strip_prefix_Some in Ew. subst w.
assert (exists s', s = (str "--" ++ r) ++ s') as [s' ->]; [|by rewrite <- app_assoc, strip_prefix_app in Hs].
destruct Ht as [Hh _]. unfold split_ascii_whitespace in E. destruct s as [|b s]; [done|]. cbn [words_go] in E. rewrite graphic_not_ws in E by done.
assert (forall cur s, cur <> [] -> exists w ws s', words_go cur s = w :: ws /\ reverse cur ++ s = w ++ s') as Hgo.
{ clear. intros cur s. revert cur. induction s as [|b s IH]; intros cur Hc; cbn [words_go].
  - destruct cur; [done|]. by eexists _, _, [].
  - destruct (is_ascii_whitespace b).
    + destruct cur; [done|]. by eexists _, _, (b :: s).
    + destruct (IH (b :: cur)) as (w & ws & s' & -> & E); [done|]. rewrite reverse_cons, <- app_assoc in E. by exists w, ws, s'. }
destruct (Hgo [b] s) as (w & ws' & s' & E' & E2); [done|]. rewrite E in E'. injection E' as <- <-. exists s'. exact E2.
Qed.

Lemma parse_run_render s : command_ok s -> strip_prefix (str "--") s = None -> parse_run json_array s = Ok (Run (shell_argv s) (Shell s)).
Proof.
intros Hs Hd. unfold parse_run. destruct (split_ascii_whitespace s) as [|w ws] eqn:E; cbn [head mbind option_bind].
- by rewrite cmd_argv_render, cmd_form_render.
- rewrite (first_word s w ws) by (done || apply Hs). by rewrite cmd_argv_render, cmd_form_render.
Qed.

(** An instruction that is not an [ONBUILD]. *)
Lemma parse_plain_render i : operands_ok i -> parse_plain json_array (verb_of i) (verb_of i) (operands i) = Ok i.
Proof.
intros H. destruct i as [img p st|argv [|s]|argv [|s]|argv [|s]|pairs|ws|pairs|src dest ch cm|src dest fr ch cm|ws|s|s|name d| |s| |]; try done; cbn [verb_of].
- exact (parse_from_render img p st H).
- destruct H as (H1 & -> & H2). exact (parse_run_render s H1 H2).
- destruct H as (H1 & ->). change (Ok (Cmd (cmd_argv json_array s) (cmd_form json_array s)) = Ok (Cmd (shell_argv s) (Shell s))). by rewrite cmd_argv_render, cmd_form_render.
- destruct H as (H1 & ->). change (Ok (Entrypoint (cmd_argv json_array s) (cmd_form json_array s)) = Ok (Entrypoint (shell_argv s) (Shell s))). by rewrite cmd_argv_render, cmd_form_render.
- destruct H as [H1 H2]. change (result_map Label (parse_kv_pairs (render_pairs pairs)) = Ok (Label pairs)). by rewrite kv_roundtrip.
- destruct H as [H1 H2]. change (Ok (Expose (split_ascii_whitespace (join_words ws))) = Ok (Expose ws)). rewrite words_join; [done|]. eapply Forall_impl; [exact H2|]. apply gword_word.
- destruct H as [H1 H2]. change (result_map Env (parse_kv_pairs (render_pairs pairs)) = Ok (Env pairs)). by rewrite kv_roundtrip.
- exact (parse_add_render src dest ch cm H).
- exact (parse_copy_render src dest fr ch cm H).
- destruct H as (H1 & H2 & H3). change (Ok (Volume (parse_paths json_array (join_words ws))) = Ok (Volume ws)). unfold parse_paths.
  rewrite trim_tidy, H3, words_join; [done|eapply Forall_impl; [exact H2|]; apply gword_word|]. apply join_words_tidy; [done|]. eapply Forall_impl; [exact H2|]. apply gword_tidy.
- change (result_map User (non_empty s (str "USER")) = Ok (User s)). by rewrite non_empty_render.
- change (result_map Workdir (non_empty s (str "WORKDIR")) = Ok (Workdir s)). by rewrite non_empty_render.
- change (Ok (parse_arg (operands (Arg name d))) = Ok (Arg name d)). by rewrite parse_arg_render.
- change (result_map Stopsignal (non_empty s (str "STOPSIGNAL")) = Ok (Stopsignal s)). by rewrite non_empty_render.
Qed.

Lemma operands_tidy i : operands_ok i -> tidy (operands i).
Proof.
assert (forall fs ws, ws <> [] -> Forall gword ws -> Forall (fun kv => x3d ∉ kv.1 /\ forallb is_ascii_graphic kv.1 = true /\ gword kv.2) fs -> tidy (join_words ((flag_token <$> fs) ++ ws))) as Hj.
{ intros fs ws Hne Hw Hf. apply join_words_tidy; [by destruct fs|]. apply Forall_app. split; [|eapply Forall_impl; [exact Hw|]; apply gword_tidy].
  apply Forall_fmap. eapply Forall_impl; [exact Hf|]. intros kv (_ & ? & ?). by apply gword_tidy, flag_token_gword. }
assert (forall pairs, pairs <> [] -> Forall (fun kv => key_ok kv.1) pairs -> tidy (render_pairs pairs)) as Hkv.
{ intros pairs Hne Hp. apply join_words_tidy; [by destruct pairs|]. apply Forall_fmap. eapply Forall_impl; [exact Hp|]. intros kv. apply render_pair_tidy. }
destruct i as [img p st|argv [|s]|argv [|s]|argv [|s]|pairs|ws|pairs|src dest ch cm|src dest fr ch cm|ws|s|s|name [d|]| |s| |]; cbn [operands_ok operands]; try done.
- intros ([Hi _] & Hp & Hs). apply Hj; [done| |apply flag_forall; [by_eval|done|done]]. constructor; [done|]. destruct st as [s|]; [|constructor]. repeat constructor; try done; apply Hs.
- by intros ([? _] & _).
- by intros ([? _] & _).
- by intros ([? _] & _).
- intros [? ?]. by apply Hkv.
- intros [? ?]. by apply (Hj []).
- intros [? ?]. by apply Hkv.
- intros (Hs & Ho & H1 & H2). apply Hj; [by destruct src|eapply Forall_impl; [exact Ho|]; by intros w [? _]|]. apply Forall_app. split; (apply flag_forall; [by_eval|done|done]).
- intros (Hs & Ho & H0 & H1 & H2). apply Hj; [by destruct src|eapply Forall_impl; [exact Ho|]; by intros w [? _]|]. rewrite !Forall_app. split; [|split]; (apply flag_forall; [by_eval|done|done]).
- intros (? & ? & _). by apply (Hj []).
- intros (Hn & _ & Hd). change (x3d :: d) with ([x3d] ++ d). by apply tidy_app; [apply gword_tidy|].
- intros (Hn & _). by apply gword_tidy.
Qed.

(** ** Lines are read back *)

Lemma verb_word i : forallb (fun b => negb (is_ascii_whitespace b)) (verb_of i) = true.
Proof. by destruct i. Qed.

Lemma verb_upper i : to_ascii_uppercase (verb_of i) = verb_of i.
Proof. by destruct i. Qed.

Lemma verb_known i : verb_of i ∈ KNOWN_VERBS.
Proof. destruct i; by_eval. Qed.

Lemma split_verb_render i rest : tidy rest -> split_verb (verb_of i ++ x20 :: rest) = (verb_of i, rest).
Proof. intros Ht. unfold split_verb. rewrite split_once_ws_word by apply verb_word. by rewrite trim_tidy. Qed.

Lemma tidy_verb i rest : tidy rest -> tidy (verb_of i ++ x20 :: rest).
Proof. intros Ht. change (x20 :: rest) with ([x20] ++ rest). apply tidy_app; [|done]. apply graphic_tidy; by destruct i. Qed.

Lemma render_plain i : operands_ok i -> render i = verb_of i ++ x20 :: operands i.
Proof. by destruct i. Qed.

Lemma parse_go_plain depth i : operands_ok i -> parse_instruction_go json_array depth (render i) = Ok i.
Proof.
intros H. rewrite render_plain by done. destruct depth; cbn [parse_instruction_go]; rewrite split_verb_render by (by apply operands_tidy);
  rewrite verb_upper, bool_decide_true by apply verb_known; cbn [negb]; rewrite bool_decide_false by (by destruct i); by apply parse_plain_render.
Qed.

Lemma canonical_tidy i : canonical i -> tidy (render i).
Proof.
assert (forall i, operands_ok i -> tidy (render i)) as H by (intros j Hj; rewrite render_plain by done; by apply tidy_verb, operands_tidy).
destruct i; try apply H. cbn [canonical render]. intros [Hi _]. by apply (tidy_verb (Onbuild i)), H.
Qed.

Lemma parse_render_line i : canonical i -> parse_instruction json_array (render i) = Ok i.
Proof.
unfold parse_instruction. destruct i as [| | | | | | | | | | | | |j| | |]; try apply parse_go_plain. cbn [canonical render]. intros [Hj Hf].
assert (tidy (render j)) as Ht by (rewrite render_plain by done; by apply tidy_verb, operands_tidy).
generalize 0. intros depth. cbn [parse_instruction_go]. rewrite (split_verb_render (Onbuild j)) by done. rewrite (verb_upper (Onbuild j)), (bool_decide_true (_ ∈ KNOWN_VERBS)) by apply verb_known. cbn [negb verb_of].
rewrite (bool_decide_true (str "ONBUILD" = str "ONBUILD")) by done. assert (split_once_ws (render j) = Some (verb_of j, operands j)) as -> by (rewrite render_plain by done; apply split_once_ws_word, verb_word). rewrite verb_upper.
rewrite bool_decide_false by (destruct j; try done; by_eval). by rewrite (parse_go_plain depth j).
Qed.

(** One instruction per line. *)
Definition unlines (ls : list bytes) : bytes := mjoin ((fun l => l ++ [x0a]) <$> ls).

(** A line that is neither broken nor continued. *)
Definition line_ok (l : bytes) : Prop := x0a ∉ l /\ last l <> Some x5c.

Lemma split_unlines ls : Forall (fun l => x0a ∉ l) ls -> split_on x0a (unlines ls) = ls ++ [[]].
Proof.
induction 1 as [|l ls Hl Hls IH]; [done|]. unfold unlines. rewrite fmap_cons, join_cons, <- app_assoc. cbn [app]. fold (unlines ls). by rewrite split_on_app, IH.
Qed.

Lemma strip_cr_tidy l : tidy l -> strip_cr l = l.
Proof.
intros [_ (b & Hl & Hg)]. unfold strip_cr. apply last_Some in Hl as [r ->]. rewrite reverse_app. change (reverse [b] ++ reverse r) with (b :: reverse r).
destruct (decide (b = x0d)) as [->|Hb]; [done|]. by destruct b.
Qed.

Lemma lines_unlines ls : Forall (fun l => x0a ∉ l /\ tidy l) ls -> lines (unlines ls) = ls.
Proof.
intros H. unfold lines. rewrite split_unlines by (eapply Forall_impl; [exact H|]; by intros l [? _]).
induction H as [|l ls [_ Ht] Hls IH]; [done|]. cbn [app]. destruct (ls ++ [[]]) as [|x xs] eqn:E; [by destruct ls|]. change (strip_cr l :: lines_of (x :: xs) = l :: ls).
by rewrite strip_cr_tidy, IH.
Qed.

Lemma trim_end_tidy l : tidy l -> trim_end l = l.
Proof.
intros [_ (b & Hl & Hg)]. unfold trim_end. apply last_Some in Hl as [r ->]. rewrite strip_while_none, reverse_involutive; [done|].
rewrite reverse_app. by apply ws_strip_graphic.
Qed.

Lemma trim_start_tidy l : tidy l -> trim_start l = l.
Proof. intros [Hh _]. destruct l as [|b l]; [done|]. unfold trim_start. apply strip_while_none. by apply ws_strip_graphic. Qed.

Lemma no_continuation l : tidy l -> last l <> Some x5c -> strip_suffix [BACKSLASH] (trim_end l) = None.
Proof.
intros Ht Hl. rewrite trim_end_tidy by done. unfold strip_suffix. destruct Ht as [_ (b & Hb & _)]. rewrite Hb in Hl. apply last_Some in Hb as [r ->].
rewrite reverse_app. change (strip_prefix (reverse [BACKSLASH]) (reverse [b] ++ reverse r)) with (if bool_decide (BACKSLASH = b) then Some (reverse r) else None).
rewrite bool_decide_false; [done|]. intros <-. done.
Qed.

Lemma join_plain ls : Forall (fun l => tidy l /\ last l <> Some x5c) ls -> join_go ls [BACKSLASH] [] false = ls.
Proof.
induction 1 as [|l ls [Ht Hl] Hls IH]; [done|]. cbn [join_go andb]. rewrite no_continuation, IH by done. by destruct (starts_with _ _).
Qed.

Lemma render_not_comment i : canonical i -> starts_with (str "#") (render i) = false.
Proof. intros _. by destruct i. Qed.

Lemma parse_steps_render instrs : Forall canonical instrs -> parse_steps json_array (render <$> instrs) = Ok ((fun i => mkStep i (render i)) <$> instrs).
Proof.
induction 1 as [|i instrs Hi His IH]; [done|]. rewrite fmap_cons. cbn [parse_steps]. rewrite trim_tidy by (by apply canonical_tidy). rewrite render_not_comment by done.
rewrite bool_decide_false by (intros E; apply canonical_tidy in Hi; rewrite E in Hi; by destruct Hi). cbn [orb]. rewrite parse_render_line by done. cbn [mbind Result_mbind]. by rewrite IH.
Qed.

End instructions.

(** ** Continued lines *)

(** What may stand between the first and the last line of an instruction. *)
Inductive middle := Part (body : bytes) | Comment (text : bytes).

Definition comment_line (l : bytes) : bool := starts_with (str "#") (trim_start l).
Definition middle_line (m : middle) : bytes := match m with Part body => body ++ [BACKSLASH] | Comment text => text end.
Definition middle_ok (m : middle) : Prop := match m with Part body => comment_line (body ++ [BACKSLASH]) = false | Comment text => comment_line text = true end.
Definition middle_body (m : middle) : bytes := match m with Part body => body ++ str " " | Comment _ => [] end.

Lemma strip_escape body : strip_suffix [BACKSLASH] (trim_end (body ++ [BACKSLASH])) = Some body.
Proof.
unfold trim_end. rewrite strip_while_none, reverse_involutive by (rewrite reverse_app; by apply ws_strip_graphic).
unfold strip_suffix. rewrite reverse_app. change (reverse [BACKSLASH]) with [BACKSLASH]. rewrite strip_prefix_app. cbn [fmap option_fmap option_map]. by rewrite reverse_involutive.
Qed.

Lemma join_middles ms last_line rest cur :
  Forall middle_ok ms -> comment_line last_line = false -> strip_suffix [BACKSLASH] (trim_end last_line) = None ->
  join_go ((middle_line <$> ms) ++ last_line :: rest) [BACKSLASH] cur true = (cur ++ mjoin (middle_body <$> ms) ++ last_line) :: join_go rest [BACKSLASH] [] false.
Proof.
intros Hms Hc Hl. revert cur. induction Hms as [|m ms Hm Hms IH]; intros cur.
- cbn [fmap list_fmap app join_go andb mjoin list_join]. fold (comment_line last_line). rewrite Hc. cbn [andb]. by rewrite Hl.
- rewrite fmap_cons. cbn [app join_go andb]. fold (comment_line (middle_line m)). destruct m as [body|text]; cbn [middle_ok middle_line] in *.
  + rewrite Hm. cbn [andb]. rewrite strip_escape, IH. rewrite fmap_cons, join_cons. cbn [middle_body]. by rewrite <- !app_assoc.
  + rewrite Hm. cbn [andb]. rewrite IH, fmap_cons, join_cons. done.
Qed.

(** An instruction continued over several lines is one line again: the parts are joined
    with a blank in place of each escape and line break, and comment lines between them are
    dropped. *)
Theorem continuation_joined first ms last_line rest :
  comment_line (first ++ [BACKSLASH]) = false -> Forall middle_ok ms -> comment_line last_line = false ->
  strip_suffix [BACKSLASH] (trim_end last_line) = None ->
  join_go ((first ++ [BACKSLASH]) :: (middle_line <$> ms) ++ last_line :: rest) [BACKSLASH] [] false =
  (first ++ str " " ++ mjoin (middle_body <$> ms) ++ last_line) :: join_go rest [BACKSLASH] [] false.
Proof.
intros Hf Hms Hc Hl. cbn [join_go andb]. fold (comment_line (first ++ [BACKSLASH])). rewrite Hf, strip_escape, join_middles by done. cbn [app]. by rewrite <- !app_assoc.
Qed.

Lemma continuation_joined_witness :
  join_go [str "RUN a &&" ++ [BACKSLASH]; str "# why"; str "b &&" ++ [BACKSLASH]; str "c"] [BACKSLASH] [] false = [str "RUN a && b && c"].
Proof.
exact (continuation_joined (str "RUN a &&") [Comment (str "# why"); Part (str "b &&")] (str "c") [] eq_refl
  ltac:(repeat constructor) eq_refl eq_refl).
Defined.

(** ** Examples *)

Definition demo_instrs : list Instr :=
  [From (str "alpine:3") (Some (str "linux/amd64")) (Some (str "base")); Env [(str "GREETING", str "say "++[DQUOTE]++str "hi"++[DQUOTE]); (str "B", [])];
   Copy [str "src"; str "Cargo.toml"] (str "/app/") (Some (str "base")) None (Some (str "0644")); Run (shell_argv (str "cargo build")) (Shell (str "cargo build"));
   Onbuild (User (str "app")); Expose [str "80/tcp"]].


(** [FROM] accepts any words after the stage name and ignores them, although only an
    image with or without a stage is documented as valid. *)
Theorem from_extra_words_ignored json_array :
  parse_instruction json_array (str "FROM alpine AS base --platform=x oops") = Ok (From (str "alpine") None (Some (str "base"))).
Proof. vm_compute. reflexivity. Qed.

(** An apostrophe in the old form of [ENV] is rejected: the value is documented as the
    rest of the line without quoting, but the line is cut into quoted tokens first. *)
Theorem env_apostrophe_rejected json_array :
  parse_instruction json_array (str "ENV MOTD it's fine") = invalid (str "ENV/LABEL: unterminated single quote in: MOTD it's fine") /\
  parse_instruction json_array (str "ENV MOTD its fine") = Ok (Env [(str "MOTD", str "its fine")]).
Proof. split; vm_compute; reflexivity. Qed.
