(* ===== verification/Ports.v ===== *)
(** The port mappings of compose files (crates/lightr-build/src/build/compose/ports.rs):
    short and long syntax, ranges, addresses and protocols.  A YAML value is a string, an
    unsigned number or something else. *)

From S2P Require Import Prelude Text Error.

(** * Data *)

Inductive Value := VString (s : bytes) | VU64 (n : Z) | VOther.

Record PortLong := mkLong {
  l_target : option Z; l_published : option Z; l_protocol : option bytes; l_host_ip : option bytes; l_mode : option bytes }.

Inductive PortSpec := Long (m : PortLong) | Short (v : Value).

Record ParsedPort := mkPort { host_ip : bytes; published : option Z; target : Z; proto : bytes }.

Definition DEFAULT_HOST_IP : bytes := str "127.0.0.1".
Definition DEFAULT_PROTO : bytes := str "tcp".

Definition bad (spec : bytes) : LightrError := InvalidManifest (str "bad port: " ++ spec).

(** * Parsing *)

Definition parse_u16 : bytes -> option Z := parse_uint (2 ^ 16 - 1).

Definition parse_range (field spec : bytes) : Result (list Z) :=
  let field := trim field in
  match split_once x2d field with
  | Some (lo, hi) =>
      lo ← ok_or (parse_u16 (trim lo)) (bad spec);
      hi ← ok_or (parse_u16 (trim hi)) (bad spec);
      if (hi <? lo)%Z then Err (bad spec) else Ok (seqZ lo (hi - lo + 1))
  | None => p ← ok_or (parse_u16 field) (bad spec); Ok [p]
  end.

(** [trim_matches(c)]. *)
Fixpoint drop_byte (c : byte) (s : bytes) : bytes :=
  match s with
  | b :: r => if bool_decide (b = c) then drop_byte c r else s
  | [] => []
  end.

Definition trim_byte (c : byte) (s : bytes) : bytes := reverse (drop_byte c (reverse (drop_byte c s))).

(** [parts.join(":")]. *)
Fixpoint join_colon (parts : list bytes) : bytes :=
  match parts with
  | [] => []
  | [p] => p
  | p :: parts => p ++ x3a :: join_colon parts
  end.

(** The address, the host field and the container field. *)
Definition fields (body spec : bytes) : Result (bytes * option bytes * bytes) :=
  match reverse (split_on x3a body) with
  | cont :: host :: ip_rev =>
      match ip_rev with
      | [] => Ok (DEFAULT_HOST_IP, Some host, cont)
      | _ => Ok (join_colon (reverse ip_rev), Some host, cont)
      end
  | [cont] => Ok (DEFAULT_HOST_IP, None, cont)
  | [] => Err (bad spec)
  end.

Definition parse_spec (spec : bytes) : Result (list ParsedPort) :=
  '(body, proto) ←
    match split_once x2f spec with
    | Some (b, p) =>
        let p := to_ascii_lowercase (trim p) in
        if bool_decide (p = []) then Err (bad spec) else Ok (trim b, p)
    | None => Ok (spec, DEFAULT_PROTO)
    end;
  '(host_ip, host_field, cont_field) ← fields body spec;
  cont_range ← parse_range cont_field spec;
  match host_field with
  | None => Ok ((fun c => mkPort host_ip None c proto) <$> cont_range)
  | Some hf =>
      if bool_decide (trim hf = []) then Ok ((fun c => mkPort host_ip None c proto) <$> cont_range)
      else
        host_range ← parse_range hf spec;
        if negb (bool_decide (length host_range = length cont_range)) then
          Err (InvalidManifest (str "bad port: " ++ spec ++ str " (host range len " ++ dec (Z.of_nat (length host_range)) ++
                 str " != container range len " ++ dec (Z.of_nat (length cont_range)) ++ str ")"))
        else Ok (zip_with (fun h c => mkPort host_ip (Some h) c proto) host_range cont_range)
  end.

Definition parse_short (v : Value) : Result (list ParsedPort) :=
  raw ← match v with
        | VString s => Ok s
        | VU64 n => Ok (dec n)
        | VOther => Err (bad (str "<non-scalar short port>"))
        end;
  let spec := trim (trim_byte x22 (trim raw)) in
  if bool_decide (spec = []) then Err (bad raw) else parse_spec spec.

Definition parse_long (m : PortLong) : Result ParsedPort :=
  target ← ok_or (l_target m) (InvalidManifest (str "bad port: long form missing target"));
  let keep (s : bytes) : option bytes := if bool_decide (s = []) then None else Some s in
  let proto := default DEFAULT_PROTO (p ← l_protocol m; keep (to_ascii_lowercase (trim p))) in
  let host_ip := default DEFAULT_HOST_IP (s ← l_host_ip m; keep (trim s)) in
  Ok (mkPort host_ip (l_published m) target proto).

Fixpoint parse_ports (ports : list PortSpec) : Result (list ParsedPort) :=
  match ports with
  | [] => Ok []
  | p :: ports =>
      ps ← match p with Short v => parse_short v | Long m => q ← parse_long m; Ok [q] end;
      rest ← parse_ports ports;
      Ok (ps ++ rest)
  end.

(** * The short syntax *)

(** A range of ports, one port when its ends are equal. *)
Definition show_range (r : Z * Z) : bytes := if (r.1 =? r.2)%Z then dec r.1 else dec r.1 ++ x2d :: dec r.2.
Definition range_ok (r : Z * Z) : Prop := (0 <= r.1 <= r.2)%Z /\ u16 r.2.
Definition range_list (r : Z * Z) : list Z := seqZ r.1 (r.2 - r.1 + 1).

Record short_port := mkShort { s_ip : option bytes; s_host : option (Z * Z); s_cont : Z * Z; s_proto : option bytes }.

Definition show_body (p : short_port) : bytes :=
  match s_ip p, s_host p with
  | None, None => show_range (s_cont p)
  | None, Some h => show_range h ++ x3a :: show_range (s_cont p)
  | Some ip, None => ip ++ x3a :: x3a :: show_range (s_cont p)
  | Some ip, Some h => ip ++ x3a :: show_range h ++ x3a :: show_range (s_cont p)
  end.

Definition show_short (p : short_port) : bytes :=
  show_body p ++ match s_proto p with Some q => x2f :: q | None => [] end.

(** Printable text without a slash and without quotes. *)
Definition plain_byte (b : byte) : bool := is_ascii_graphic b && negb (bool_decide (b = x2f)) && negb (bool_decide (b = x22)).

Definition short_ok (p : short_port) : Prop :=
  match s_ip p with Some ip => ip <> [] /\ forallb plain_byte ip = true | None => True end /\
  match s_host p with Some h => range_ok h | None => True end /\ range_ok (s_cont p) /\
  match s_proto p with Some q => q <> [] /\ forallb plain_byte q = true /\ to_ascii_lowercase q = q | None => True end.

(** What it stands for: one mapping per port of the container, in order. *)
Definition expand (p : short_port) : Result (list ParsedPort) :=
  let ip := default DEFAULT_HOST_IP (s_ip p) in
  let proto := default DEFAULT_PROTO (s_proto p) in
  match s_host p with
  | None => Ok ((fun c => mkPort ip None c proto) <$> range_list (s_cont p))
  | Some h =>
      if (h.2 - h.1 =? (s_cont p).2 - (s_cont p).1)%Z
      then Ok (zip_with (fun h c => mkPort ip (Some h) c proto) (range_list h) (range_list (s_cont p)))
      else Err (InvalidManifest (str "bad port: " ++ show_short p ++ str " (host range len " ++ dec (h.2 - h.1 + 1) ++
                  str " != container range len " ++ dec ((s_cont p).2 - (s_cont p).1 + 1) ++ str ")"))
  end.

(** ** The short syntax is read back *)

Lemma join_colon_cons x y ys : join_colon (x :: y :: ys) = x ++ x3a :: join_colon (y :: ys).
Proof. done. Qed.

Lemma join_split s : join_colon (split_on x3a s) = s.
Proof.
induction s as [|b s IH]; [done|]. cbn [split_on]. pose proof (split_on_nonempty x3a s) as Hne.
destruct (split_on x3a s) as [|x xs]; [done|]. case_bool_decide as E.
- subst b. by rewrite join_colon_cons, IH.
- destruct xs as [|y ys]; [by rewrite <- IH|]. rewrite join_colon_cons in *. by rewrite <- IH.
Qed.

Lemma digits_plain d c : forallb is_ascii_digit d = true -> is_ascii_digit c = false -> c ∉ d.
Proof. rewrite forallb_forall. intros H Hc Hin. apply list_elem_of_In, H in Hin. congruence. Qed.

Lemma dec_plain n : forallb plain_byte (dec n) = true.
Proof.
pose proof (dec_digits n) as H. rewrite forallb_forall in *. intros b Hb. apply H in Hb.
revert b Hb. clear. intros b. revert b. apply (byte_forall (fun b => is_ascii_digit b = true -> plain_byte b = true)). vm_compute. reflexivity.
Qed.

Lemma dec_nonempty n : u64 n -> dec n <> [].
Proof. intros H E. pose proof (parse_u64_dec n H) as P. by rewrite E in P. Qed.

Lemma plain_graphic s : forallb plain_byte s = true -> forallb is_ascii_graphic s = true.
Proof. rewrite !forallb_forall. intros H b Hb. apply H in Hb. unfold plain_byte in Hb. by rewrite !andb_true_iff in Hb; destruct Hb as [[? _] _]. Qed.

Lemma plain_no s : forallb plain_byte s = true -> x2f ∉ s /\ x22 ∉ s.
Proof. rewrite forallb_forall. intros H. split; intros Hin%list_elem_of_In%H; by vm_compute in Hin. Qed.

Lemma plain_trim s : forallb plain_byte s = true -> trim s = s.
Proof. intros H. by apply trim_graphic, plain_graphic. Qed.

Lemma parse_u16_dec n : u16 n -> parse_u16 (dec n) = Some n.
Proof. intros H. apply parse_uint_dec; unfold u16, u64 in *; lia. Qed.

Lemma range_u16 r : range_ok r -> u16 r.1 /\ u16 r.2.
Proof. intros [H1 H2]. unfold u16 in *. split; [lia|done]. Qed.

Lemma parse_show_range r spec : range_ok r -> parse_range (show_range r) spec = Ok (range_list r).
Proof.
intros Hr. destruct (range_u16 r Hr) as [H1 H2]. destruct r as [lo hi]. cbn [fst snd] in *. unfold parse_range, show_range, range_list. cbn [fst snd].
assert (forall n, x2d ∉ dec n) as Hd by (intros n; apply digits_plain; [apply dec_digits|done]).
destruct (Z.eqb_spec lo hi) as [<-|Hne].
- rewrite plain_trim by apply dec_plain. rewrite split_once_none by apply Hd. rewrite parse_u16_dec by done. cbn. replace (lo - lo + 1)%Z with 1%Z by lia. done.
- rewrite plain_trim by (rewrite forallb_app, dec_plain; cbn [forallb]; by rewrite dec_plain). rewrite split_once_app by apply Hd.
  rewrite !plain_trim by apply dec_plain. rewrite !parse_u16_dec by done. cbn [ok_or mbind Result_mbind]. destruct Hr as [[_ Hle] _]. cbn [fst snd] in Hle.
  rewrite (proj2 (Z.ltb_ge hi lo)) by lia. done.
Qed.

Lemma show_range_plain r : forallb plain_byte (show_range r) = true.
Proof. unfold show_range. case_match; [apply dec_plain|]. rewrite forallb_app, dec_plain. cbn [forallb]. by rewrite dec_plain. Qed.

Lemma show_range_nonempty r : range_ok r -> show_range r <> [].
Proof.
intros Hr. destruct (range_u16 r Hr) as [H1 _]. assert (dec r.1 <> []) as Hne by (apply dec_nonempty; unfold u16, u64 in *; lia).
unfold show_range. case_match; [done|]. by destruct (dec r.1).
Qed.

Lemma show_range_no_colon r : x3a ∉ show_range r.
Proof.
unfold show_range. assert (forall n, x3a ∉ dec n) as Hd by (intros n; apply digits_plain; [apply dec_digits|done]).
case_match; [apply Hd|]. rewrite not_elem_of_app, not_elem_of_cons. split; [apply Hd|]. split; [done|apply Hd].
Qed.

Lemma show_body_plain p : short_ok p -> forallb plain_byte (show_body p) = true.
Proof.
intros (Hi & Hh & Hc & _). unfold show_body. destruct (s_ip p) as [ip|], (s_host p) as [h|]; rewrite ?forallb_app; cbn [forallb]; rewrite ?forallb_app; cbn [forallb];
  rewrite ?show_range_plain; try destruct Hi as [_ ->]; done.
Qed.

Lemma show_body_nonempty p : short_ok p -> show_body p <> [].
Proof.
intros (Hi & Hh & Hc & _). apply show_range_nonempty in Hc. unfold show_body.
destruct (s_ip p) as [[|b ip]|], (s_host p) as [h|]; [by destruct Hi..|done|done| |done]. by destruct (show_range h).
Qed.

Lemma fields_show p spec :
  fields (show_body p) spec = Ok (default DEFAULT_HOST_IP (s_ip p), match s_host p with Some h => Some (show_range h) | None => match s_ip p with Some _ => Some [] | None => None end end, show_range (s_cont p)).
Proof.
unfold fields, show_body. destruct (s_ip p) as [ip|], (s_host p) as [h|]; cbn [default].
- rewrite split_on_concat, split_on_app, (split_on_piece _ (show_range (s_cont p))) by apply show_range_no_colon. rewrite reverse_app. change (reverse [show_range h; show_range (s_cont p)]) with [show_range (s_cont p); show_range h].
  cbn [app]. destruct (reverse (split_on x3a ip)) as [|x xs] eqn:E; [by apply (f_equal reverse) in E; rewrite reverse_involutive in E; apply split_on_nonempty in E|].
  rewrite <- E, reverse_involutive, join_split. done.
- rewrite split_on_concat. change (x3a :: show_range (s_cont p)) with ([] ++ x3a :: show_range (s_cont p)). rewrite split_on_app, (split_on_piece _ (show_range (s_cont p))) by (apply show_range_no_colon || apply not_elem_of_nil).
  rewrite reverse_app. change (reverse [[]; show_range (s_cont p)]) with [show_range (s_cont p); []].
  cbn [app]. destruct (reverse (split_on x3a ip)) as [|x xs] eqn:E; [by apply (f_equal reverse) in E; rewrite reverse_involutive in E; apply split_on_nonempty in E|].
  rewrite <- E, reverse_involutive, join_split. done.
- rewrite split_on_app, split_on_piece by apply show_range_no_colon. done.
- rewrite split_on_piece by apply show_range_no_colon. done.
Qed.


Lemma trim_byte_id c s : c ∉ s -> trim_byte c s = s.
Proof.
assert (forall s, c ∉ s -> drop_byte c s = s) as H.
{ intros [|b r]; [done|]. rewrite not_elem_of_cons. intros [Hb _]. cbn [drop_byte]. by rewrite bool_decide_eq_false_2. }
intros Hc. unfold trim_byte. rewrite (H s) by done. rewrite H by (by rewrite elem_of_reverse). apply reverse_involutive.
Qed.

Lemma range_length r : range_ok r -> Z.of_nat (length (range_list r)) = (r.2 - r.1 + 1)%Z.
Proof. intros [[_ H] _]. unfold range_list. rewrite length_seqZ. lia. Qed.

Lemma range_lengths h c :
  range_ok h -> range_ok c -> bool_decide (length (range_list h) = length (range_list c)) = (h.2 - h.1 =? c.2 - c.1)%Z.
Proof.
intros Hh%range_length Hc%range_length. destruct (Z.eqb_spec (h.2 - h.1) (c.2 - c.1)).
- apply bool_decide_eq_true_2. lia.
- apply bool_decide_eq_false_2. lia.
Qed.

Lemma show_short_graphic p : short_ok p -> forallb is_ascii_graphic (show_short p) = true /\ x22 ∉ show_short p /\ show_short p <> [].
Proof.
intros Hp. pose proof (show_body_plain p Hp) as Hb. pose proof (show_body_nonempty p Hp) as Hne. destruct Hp as (_ & _ & _ & Hq). unfold show_short.
repeat split; [| |by destruct (show_body p)].
- rewrite forallb_app, plain_graphic by done. destruct (s_proto p) as [q|]; [|done]. cbn [forallb]. rewrite plain_graphic by apply Hq. done.
- rewrite not_elem_of_app. split; [by apply plain_no|]. destruct (s_proto p) as [q|]; [|apply not_elem_of_nil].
  rewrite not_elem_of_cons. split; [done|]. apply plain_no, Hq.
Qed.

(** The protocol is what follows the only slash. *)
Lemma split_proto p :
  short_ok p ->
  split_once x2f (show_short p) = match s_proto p with Some q => Some (show_body p, q) | None => None end.
Proof.
intros Hp. destruct (plain_no _ (show_body_plain p Hp)) as [Hs _]. unfold show_short. destruct (s_proto p).
- by apply split_once_app.
- rewrite app_nil_r. by apply split_once_none.
Qed.

Lemma parse_spec_show p : short_ok p -> parse_spec (show_short p) = expand p.
Proof.
intros Hp. unfold parse_spec. rewrite split_proto by done.
assert (forall q, match s_proto p with Some q => q <> [] /\ forallb plain_byte q = true /\ to_ascii_lowercase q = q | None => True end ->
  s_proto p = Some q -> to_ascii_lowercase (trim q) = q /\ q <> []) as Hq.
{ intros q H E. rewrite E in H. destruct H as (H1 & H2 & H3). by rewrite plain_trim. }
transitivity ('(host_ip, host_field, cont_field) ← fields (show_body p) (show_short p);
  cont_range ← parse_range cont_field (show_short p);
  match host_field with
  | None => Ok ((fun c => mkPort host_ip None c (default DEFAULT_PROTO (s_proto p))) <$> cont_range)
  | Some hf =>
      if bool_decide (trim hf = []) then Ok ((fun c => mkPort host_ip None c (default DEFAULT_PROTO (s_proto p))) <$> cont_range)
      else
        host_range ← parse_range hf (show_short p);
        if negb (bool_decide (length host_range = length cont_range)) then
          Err (InvalidManifest (str "bad port: " ++ show_short p ++ str " (host range len " ++ dec (Z.of_nat (length host_range)) ++
                 str " != container range len " ++ dec (Z.of_nat (length cont_range)) ++ str ")"))
        else Ok (zip_with (fun h c => mkPort host_ip (Some h) c (default DEFAULT_PROTO (s_proto p))) host_range cont_range)
  end).
{ pose proof (show_body_plain p Hp) as Hb. destruct Hp as (_ & _ & _ & H). destruct (s_proto p) as [q|] eqn:Ep.
  - destruct (Hq q H eq_refl) as [-> Hne]. cbn zeta. rewrite bool_decide_eq_false_2 by done. rewrite plain_trim by done. done.
  - unfold show_short. rewrite Ep, app_nil_r. done. }
rewrite fields_show. cbn [mbind Result_mbind]. destruct Hp as (_ & Hh & Hc & _). rewrite parse_show_range by done. cbn [mbind Result_mbind].
unfold expand. destruct (s_host p) as [h|].
- rewrite plain_trim by apply show_range_plain. rewrite bool_decide_eq_false_2 by (by apply show_range_nonempty).
  rewrite parse_show_range by done. cbn [mbind Result_mbind]. rewrite range_lengths, !range_length by done. by destruct (_ =? _)%Z.
- by destruct (s_ip p).
Qed.

(** Reading a short port mapping is exact: from an optional address, which may itself
    contain colons, an optional range of host ports, a range of container ports and an
    optional protocol, the text with those parts is read as one mapping for every port of
    the container, in order and paired with the host ports, with the defaults for what is
    left out; host and container ranges of different lengths are an error that names both. *)
Theorem ports_short_exact p : short_ok p -> parse_short (VString (show_short p)) = expand p.
Proof.
intros Hp. destruct (show_short_graphic p Hp) as (Hg & Hq & Hne). unfold parse_short. cbn [mbind Result_mbind].
rewrite (trim_graphic (show_short p)), trim_byte_id, (trim_graphic (show_short p)) by done.
rewrite bool_decide_eq_false_2 by done. by apply parse_spec_show.
Qed.

Lemma ports_short_exact_witness :
  parse_short (VString (str "[::1]:3000-3001:80-81/udp")) =
    Ok [mkPort (str "[::1]") (Some 3000%Z) 80%Z (str "udp"); mkPort (str "[::1]") (Some 3001%Z) 81%Z (str "udp")].
Proof.
assert (short_ok (mkShort (Some (str "[::1]")) (Some (3000, 3001)%Z) (80, 81)%Z (Some (str "udp")))) as H
  by (repeat split; try done; vm_compute; congruence).
pose proof (ports_short_exact _ H) as P. change (show_short _) with (str "[::1]:3000-3001:80-81/udp") in P. rewrite P. reflexivity.
Defined.
