(* ===== verification/Wp.v ===== *)
(** Weakest preconditions for the file-system monad, for proofs that follow a computation
    call by call with failures and a successful end at once.  [wp q fs m Q]: from the tree
    [fs], [m] ends in an outcome and a tree that satisfy [Q]; with [q] no call fails. *)

From S2P Require Import Prelude Error Fs FsFacts OwnedTemp Calm.

Definition quiet (q : bool) (w : World) : Prop := q = true -> w_faults w = [].

Definition wp {A : Type} (q : bool) (fs : gmap path node) (m : IO A) (Q : outcome A -> gmap path node -> Prop) : Prop :=
  forall w, w_fs w = fs -> quiet q w -> Q (m w).1 (w_fs (m w).2) /\ quiet q (m w).2.

Section rules.
Context (q : bool).
Implicit Types (fs : gmap path node) (e : LightrError) (p : path).

Lemma wp_mono {A : Type} fs (m : IO A) (Q Q' : outcome A -> gmap path node -> Prop) :
  wp q fs m Q -> (forall o fs', Q o fs' -> Q' o fs') -> wp q fs m Q'.
Proof. intros H HQ w Hw Hq. destruct (H w Hw Hq). auto. Qed.

Lemma wp_ret {A : Type} fs (a : A) (Q : outcome A -> gmap path node -> Prop) : Q (Ret a) fs -> wp q fs (mret a) Q.
Proof. by intros H w <- Hq. Qed.

Lemma wp_throw {A : Type} fs e (Q : outcome A -> gmap path node -> Prop) : Q (Throw e) fs -> wp q fs (throw e) Q.
Proof. by intros H w <- Hq. Qed.

Lemma wp_lift {A : Type} fs (r : Result A) (Q : outcome A -> gmap path node -> Prop) :
  match r with Ok a => Q (Ret a) fs | Err e => Q (Throw e) fs end -> wp q fs (lift r) Q.
Proof. destruct r; [apply wp_ret|apply wp_throw]. Qed.

(** What follows runs from where the first part returned; an error and a kill end both. *)
Lemma wp_bind {A B : Type} fs (m : IO A) (k : A -> IO B) (Q : outcome B -> gmap path node -> Prop) :
  wp q fs m (fun o fs1 => match o with Ret a => wp q fs1 (k a) Q | Throw e => Q (Throw e) fs1 | Crashed => Q Crashed fs1 end) ->
  wp q fs (m ≫= k) Q.
Proof.
intros H w Hw Hq. destruct (H w Hw Hq) as [H1 H2]. cbv [mbind IO_mbind].
destruct (m w) as [[a|e|] w1]; cbn [fst snd] in *; [by apply H1|done..].
Qed.

(** An error caught as a value. *)
Lemma wp_try {A : Type} fs (m : IO A) (Q : outcome (Result A) -> gmap path node -> Prop) :
  wp q fs m (fun o fs1 => match o with Ret a => Q (Ret (Ok a)) fs1 | Throw e => Q (Ret (Err e)) fs1 | Crashed => Q Crashed fs1 end) ->
  wp q fs (try_ m) Q.
Proof. intros H w Hw Hq. destruct (H w Hw Hq) as [H1 H2]. unfold try_. by destruct (m w) as [[a|e|] w1]. Qed.

Lemma wp_get_fs fs (Q : outcome (gmap path node) -> gmap path node -> Prop) : Q (Ret fs) fs -> wp q fs get_fs Q.
Proof. by intros H w <- Hq. Qed.

(** The process id is whatever it is. *)
Lemma wp_any {A : Type} fs (g : World -> A) (Q : outcome A -> gmap path node -> Prop) :
  (forall a, Q (Ret a) fs) -> wp q fs (fun w => (Ret (g w), w)) Q.
Proof. intros H w <- Hq. split; [apply H|done]. Qed.

Lemma wp_exists p fs (Q : outcome bool -> gmap path node -> Prop) : Q (Ret (node_exists fs p)) fs -> wp q fs (exists_ p) Q.
Proof. by intros H w <- Hq. Qed.

Lemma wp_sys {A : Type} (f : gmap path node -> Result A * gmap path node) (part : nat -> gmap path node -> gmap path node) fs (Q : outcome A -> gmap path node -> Prop) :
  match f fs with (Ok a, fs') => Q (Ret a) fs' | (Err e, fs') => Q (Throw e) fs' end ->
  (q = false -> forall n, Q (Throw (Io OtherKind)) (part n fs) /\ Q Crashed (part n fs)) ->
  wp q fs (sys f part) Q.
Proof.
intros Hf Hp w <- Hq. unfold sys, quiet in *.
assert (q = false \/ w_faults w = []) as Hc by (destruct q; auto).
destruct (w_faults w) as [|[|n|n] l]; cbn [tail].
- destruct (f (w_fs w)) as [[a|e] fs']; by split.
- destruct Hc as [-> |?]; [|done]. destruct (f (w_fs w)) as [[a|e] fs']; by split.
- destruct Hc as [-> |?]; [|done]. split; [by apply (Hp eq_refl n)|done].
- destruct Hc as [-> |?]; [|done]. split; [by apply (Hp eq_refl n)|done].
Qed.

Lemma wp_sys0 {A : Type} (f : gmap path node -> Result A * gmap path node) fs (Q : outcome A -> gmap path node -> Prop) :
  match f fs with (Ok a, fs') => Q (Ret a) fs' | (Err e, fs') => Q (Throw e) fs' end ->
  (q = false -> Q (Throw (Io OtherKind)) fs /\ Q Crashed fs) ->
  wp q fs (sys0 f) Q.
Proof. intros Hf Hp. apply wp_sys; auto. Qed.

(** A call that leaves the tree alone. *)
Lemma wp_sync fs (Q : outcome unit -> gmap path node -> Prop) : Q (Ret tt) fs -> (q = false -> Q (Throw (Io OtherKind)) fs /\ Q Crashed fs) -> wp q fs sync Q.
Proof. intros H1 H2. by apply wp_sys0. Qed.

Lemma wp_read p (c : bytes) fs (Q : outcome bytes -> gmap path node -> Prop) :
  file_at fs p = Some c -> Q (Ret c) fs -> (q = false -> Q (Throw (Io OtherKind)) fs /\ Q Crashed fs) -> wp q fs (read p) Q.
Proof. unfold file_at. intros Hc H1 H2. apply wp_sys0; [|done]. by repeat (case_match; simplify_eq). Qed.

(** A frame holds at every end. *)
Lemma wp_keeps {A : Type} (R : relation (gmap path node)) fs (m : IO A) (Q : outcome A -> gmap path node -> Prop) :
  keeps (on_fs R) m -> wp q fs m Q -> wp q fs m (fun o fs' => Q o fs' /\ R fs fs').
Proof. intros HR H w Hw Hq. destruct (H w Hw Hq). repeat split; [done| |done]. rewrite <- Hw. apply HR. Qed.

(** Without faults, the run is known. *)
Lemma wp_does {A : Type} fs (m : IO A) (r : Result A) fs' (Q : outcome A -> gmap path node -> Prop) :
  does m fs r fs' -> (q = true -> Q (match r with Ok a => Ret a | Err e => Throw e end) fs') ->
  (q = false -> wp false fs m Q) -> wp q fs m Q.
Proof.
intros Hd H1 H2. destruct q; [|by apply H2]. intros w Hw Hq.
destruct (Hd w (Hq eq_refl) Hw) as (w1 & E & E1 & E2). rewrite E. destruct r; cbn [fst snd]; rewrite E1; by split; [apply H1|intros _].
Qed.

End rules.

(** What a run from a given world shows. *)
Lemma wp_run {A : Type} (fs : gmap path node) (m : IO A) (Q : outcome A -> gmap path node -> Prop) (w : World) :
  wp (bool_decide (w_faults w = [])) fs m Q -> w_fs w = fs -> Q (m w).1 (w_fs (m w).2).
Proof. intros H Hw. apply H; [done|]. intros E. by apply bool_decide_eq_true in E. Qed.

(** A run without failures that can only return. *)
Lemma wp_returns {A : Type} (fs : gmap path node) (m : IO A) (P : A -> gmap path node -> Prop) (w : World) :
  wp true fs m (fun o fs' => exists a, o = Ret a /\ P a fs') -> w_fs w = fs -> w_faults w = [] ->
  exists a w', m w = (Ret a, w') /\ P a (w_fs w') /\ w_faults w' = [].
Proof.
intros H Hw Hf. destruct (H w Hw (fun _ => Hf)) as [(a & E & HP) Hq]. destruct (m w) as [o w']. cbn [fst snd] in *. subst o.
exists a, w'. by repeat split; [|apply Hq].
Qed.
