(* ===== verification/Owners.v ===== *)
(** The owners of named volumes (crates/lightr-store/src/store/volume.rs): every run that uses
    a volume is recorded in [.lightr/owners.json] of the volume, with a witness in the
    directory of the run, and a volume is removed only when all of its owners are known to be
    dead.  serde_json is the class [OwnerJson]; what /proc says of a process is an argument. *)

From Stdlib Require Import ZArith Lia.
From S2P Require Import Prelude Text Error Digest Limits Fs FsFacts OwnedTemp Calm Cas Layout Hydrate Volume Wp.

(** * Data *)

Inductive VolumeOwner :=
  | Pending (nonce : bytes) (coordinator_pid : Z) (coordinator_start_token : bytes)
  | Active (nonce run_id : bytes) (pid : Z) (process_start_token mount_id : bytes).

#[export] Instance VolumeOwner_eq_dec : EqDecision VolumeOwner.
Proof. solve_decision. Defined.

Definition nonce_of (o : VolumeOwner) : bytes := match o with Pending n _ _ | Active n _ _ _ _ => n end.

Record OwnersFile := mkOwners { version : Z; owners : list VolumeOwner }.
Record RunOwnerRecord := mkRecord { r_volume : bytes; r_owner : VolumeOwner; terminal : bool }.

Class OwnerJson := {
  owners_to_vec : OwnersFile -> option bytes;
  owners_from_slice : bytes -> option OwnersFile;
  record_to_vec : RunOwnerRecord -> option bytes;
  record_from_slice : bytes -> option RunOwnerRecord;
}.

(** What the Rust types of the fields admit. *)
Definition owner_repr (o : VolumeOwner) : Prop :=
  match o with
  | Pending n p t => utf8_valid n = true /\ (-2 ^ 31 <= p < 2 ^ 31)%Z /\ utf8_valid t = true
  | Active n r p t m => utf8_valid n = true /\ utf8_valid r = true /\ (-2 ^ 31 <= p < 2 ^ 31)%Z /\ utf8_valid t = true /\ utf8_valid m = true
  end.
Definition owners_repr (f : OwnersFile) : Prop := (0 <= version f < 256)%Z /\ Forall owner_repr (owners f).
Definition record_repr (r : RunOwnerRecord) : Prop := utf8_valid (r_volume r) = true /\ owner_repr (r_owner r).

(** What serde documents of derived implementations: writing a value of the types succeeds, and
    reading what was written gives it back. *)
Class OwnerJsonLaws (J : OwnerJson) : Prop := {
  owners_json f b : owners_to_vec f = Some b -> owners_from_slice b = Some f;
  owners_written f : owners_repr f -> is_Some (owners_to_vec f);
  record_json r b : record_to_vec r = Some b -> record_from_slice b = Some r;
  record_written r : record_repr r -> is_Some (record_to_vec r);
}.

(** * Paths *)

Definition owner_dir (root : path) (name : bytes) : path := volume_dir root name ++ [str ".lightr"].
Definition OWNERS : bytes := str "owners.json".
Definition OWNERS_TMP : bytes := str "owners.json.tmp".
Definition OWNER_LOCK : bytes := str "lock".
Definition RUN_OWNER : bytes := str "volume-owner.json".
Definition RUN_OWNER_TMP : bytes := str "volume-owner.json.tmp".
Definition owners_path (root : path) (name : bytes) : path := owner_dir root name ++ [OWNERS].
Definition run_owner_path (run_dir : path) : path := run_dir ++ [RUN_OWNER].

(** * The identity of a process *)

(** [s.rsplit_once(c)], the part after it. *)
Definition after_last (c : byte) (s : bytes) : option bytes :=
  if bool_decide (c ∈ s) then last (split_on c s) else None.

(** [s.split_whitespace()]. *)
Fixpoint ws_words (fuel : nat) (cur s : bytes) : list bytes :=
  match fuel with
  | 0 => []
  | S fuel =>
      match s with
      | [] => match cur with [] => [] | _ => [reverse cur] end
      | b :: r =>
          match ws_strip s with
          | Some r' => match cur with [] => ws_words fuel [] r' | _ => reverse cur :: ws_words fuel [] r' end
          | None => ws_words fuel (b :: cur) r
          end
      end
  end.
Definition split_whitespace (s : bytes) : list bytes := ws_words (S (length s)) [] s.

Definition malformed_stat (pid : Z) : LightrError := InvalidManifest (str "malformed /proc/" ++ dec pid ++ str "/stat").

(** [stat]: what reading [/proc/<pid>/stat] gives. *)
Definition process_start_token (stat : Z -> Result bytes) (pid : Z) : Result bytes :=
  if (pid <=? 0)%Z then Err (InvalidRef (str "invalid process pid"))
  else
    match stat pid with
    | Err e => Err e
    | Ok text =>
        if negb (utf8_valid text) then Err (Io InvalidData)
        else
          match after_last x29 text with
          | None => Err (malformed_stat pid)
          | Some rest =>
              match split_whitespace rest !! 19%nat with
              | None => Err (malformed_stat pid)
              | Some start => if forallb is_ascii_digit start then Ok (str "linux:" ++ dec pid ++ str ":" ++ start) else Err (malformed_stat pid)
              end
          end
    end.

Definition process_dead (stat : Z -> Result bytes) (pid : Z) (token : bytes) : Result bool :=
  match process_start_token stat pid with
  | Ok observed => Ok (negb (bool_decide (observed = token)))
  | Err (Io NotFoundKind) => Ok true
  | Err _ => Err (InvalidRef (str "process observation ambiguous"))
  end.

Definition is_ascii_hexdigit (b : byte) : bool := in_range x30 x39 b || in_range x41 x46 b || in_range x61 x66 b.
Definition valid_nonce (nonce : bytes) : bool := (length nonce =? 64)%nat && forallb is_ascii_hexdigit nonce.

(** * The owners file *)

Definition malformed_owners (name : bytes) : LightrError := InvalidManifest (str "volume " ++ name ++ str ": malformed .lightr/owners.json").
Definition ambiguous (name : bytes) : LightrError := InvalidRef (str "volume " ++ name ++ str ": owner recovery ambiguous").
Definition pending_lost (name : bytes) : LightrError := InvalidRef (str "volume " ++ name ++ str ": pending owner lost").
Definition in_use_error (name : bytes) : LightrError := InvalidRef (str "volume is in use: " ++ name).

Definition well_formed (f : OwnersFile) : bool := bool_decide (version f = 1%Z) && forallb (fun o => valid_nonce (nonce_of o)) (owners f).

(** [owner_lock]; blocking and the release are not modelled. *)
Definition owner_lock (root : path) (name : bytes) : IO unit :=
  _ ← lift (name_validate name);
  _ ← create_dir_all (owner_dir root name);
  _ ← open_create (owner_dir root name ++ [OWNER_LOCK]);
  sync.

(** A file written beside its place and renamed onto it. *)
Definition replace_file (dir : path) (tmp dest data : bytes) : IO unit :=
  _ ← file_create (dir ++ [tmp]);
  _ ← write_all (dir ++ [tmp]) data;
  _ ← sync;
  _ ← rename (dir ++ [tmp]) (dir ++ [dest]);
  _ ← open_read dir;
  sync.

Section ledger.
Context `{B3 : Blake3} `{J : OwnerJson} (stat : Z -> Result bytes).

Definition read_owners (root : path) (name : bytes) : IO OwnersFile :=
  e ← exists_ (owners_path root name);
  if negb (e : bool) then mret (mkOwners 1 [])
  else
    bs ← read (owners_path root name);
    match owners_from_slice bs with
    | None => throw (malformed_owners name)
    | Some f => if well_formed f then mret f else throw (malformed_owners name)
    end.

Definition write_owners (root : path) (name : bytes) (f : OwnersFile) : IO unit :=
  if negb (well_formed f) then throw (InvalidManifest (str "invalid volume owners v1"))
  else
    _ ← create_dir_all (owner_dir root name);
    bs ← lift (ok_or (owners_to_vec f) (Io OtherKind));
    replace_file (owner_dir root name) OWNERS_TMP OWNERS bs.

Definition write_run_owner (run_dir : path) (volume : bytes) (owner : VolumeOwner) (terminal : bool) : IO unit :=
  _ ← create_dir_all run_dir;
  bs ← lift (ok_or (record_to_vec (mkRecord volume owner terminal)) (Io OtherKind));
  replace_file run_dir RUN_OWNER_TMP RUN_OWNER bs.

Definition read_run_owner (run_dir : path) : IO RunOwnerRecord :=
  bs ← read (run_owner_path run_dir);
  lift (ok_or (record_from_slice bs) (InvalidManifest (str "malformed volume-owner.json"))).

(** [fresh_nonce], with the clock and the counter of the process. *)
Definition fresh_nonce (pid now counter : Z) : bytes := to_hex (blake3_hash (dec pid ++ str ":" ++ dec now ++ str ":" ++ dec counter)).

(** ** Owners come and go *)

(** [pid]: the process that runs this.  The error of a rollback that fails joins two messages;
    here it keeps its kind only. *)
Definition begin_locked (root : path) (name : bytes) (run_dir : path) (pid now counter : Z) : IO VolumeOwner :=
  f ← read_owners root name;
  token ← lift (process_start_token stat pid);
  let owner := Pending (fresh_nonce pid now counter) pid token in
  let grown := mkOwners (version f) (owners f ++ [owner]) in
  _ ← write_owners root name grown;
  r ← try_ (write_run_owner run_dir name owner false);
  match r with
  | Ok _ => mret owner
  | Err error =>
      rb ← try_ (write_owners root name (mkOwners (version f) (List.filter (fun c => negb (bool_decide (nonce_of c = nonce_of owner))) (owners grown))));
      match rb with
      | Ok _ => throw error
      | Err _ => throw (InvalidRef (str "named-volume pending rollback failed"))
      end
  end.

Definition begin_owner (root : path) (name : bytes) (run_dir : path) (pid now counter : Z) : IO VolumeOwner :=
  _ ← owner_lock root name;
  begin_locked root name run_dir pid now counter.

Definition is_pending (nonce : bytes) (o : VolumeOwner) : bool := match o with Pending n _ _ => bool_decide (n = nonce) | Active _ _ _ _ _ => false end.

Fixpoint position (p : VolumeOwner -> bool) (l : list VolumeOwner) : option nat :=
  match l with [] => None | o :: l => if p o then Some 0 else S <$> position p l end.

Definition activate_owner (root : path) (name : bytes) (run_dir : path) (pending_nonce run_id : bytes) (pid : Z) (mount_id : bytes) : IO VolumeOwner :=
  _ ← owner_lock root name;
  f ← read_owners root name;
  index ← lift (ok_or (position (is_pending pending_nonce) (owners f)) (pending_lost name));
  token ← lift (process_start_token stat pid);
  let owner := Active pending_nonce run_id pid token mount_id in
  _ ← write_owners root name (mkOwners (version f) (<[index := owner]> (owners f)));
  r ← try_ (write_run_owner run_dir name owner false);
  match r with
  | Ok _ => mret owner
  | Err error => _ ← write_owners root name f; throw error
  end.

Definition abandon_pending (root : path) (name nonce : bytes) : IO unit :=
  _ ← owner_lock root name;
  f ← read_owners root name;
  let kept := List.filter (fun o => negb (is_pending nonce o)) (owners f) in
  if bool_decide (length kept = length (owners f)) then throw (pending_lost name) else write_owners root name (mkOwners (version f) kept).

Definition terminal_run_owner (run_dir : path) : IO unit :=
  record ← read_run_owner run_dir;
  write_run_owner run_dir (r_volume record) (r_owner record) true.

Definition same_active (nonce run_id token : bytes) (o : VolumeOwner) : bool :=
  match o with Active n r _ t _ => bool_decide (n = nonce) && bool_decide (r = run_id) && bool_decide (t = token) | Pending _ _ _ => false end.

Definition release_owner (root : path) (name : bytes) (run_dir : path) : IO unit :=
  record ← read_run_owner run_dir;
  if negb (bool_decide (r_volume record = name)) || negb (terminal record) then throw (InvalidRef (str "volume " ++ name ++ str ": terminal owner record required"))
  else
    match r_owner record with
    | Pending _ _ _ => throw (InvalidRef (str "volume " ++ name ++ str ": active owner required"))
    | Active nonce run_id _ token _ =>
        _ ← owner_lock root name;
        f ← read_owners root name;
        let kept := List.filter (fun o => negb (same_active nonce run_id token o)) (owners f) in
        if bool_decide (length kept = length (owners f)) then throw (InvalidRef (str "volume " ++ name ++ str ": active owner lost"))
        else write_owners root name (mkOwners (version f) kept)
    end.

(** ** Recovery *)

(** The records of the runs that are about the volume and the nonce, in the order of the
    directory; more than one, or none, is ambiguous. *)
Fixpoint witnesses (home : path) (volume nonce : bytes) (runs : list bytes) (matched : option RunOwnerRecord) : IO RunOwnerRecord :=
  match runs with
  | [] => lift (ok_or matched (ambiguous volume))
  | run :: runs =>
      r ← try_ (read_run_owner (home ++ [str "run"; run]));
      match r with
      | Err _ => witnesses home volume nonce runs matched
      | Ok record =>
          if bool_decide (r_volume record = volume) && bool_decide (nonce_of (r_owner record) = nonce) then
            match matched with Some _ => throw (ambiguous volume) | None => witnesses home volume nonce runs (Some record) end
          else witnesses home volume nonce runs matched
      end
  end.

Definition find_pending_witness (home : path) (volume nonce : bytes) : IO RunOwnerRecord :=
  r ← try_ (read_dir (home ++ [str "run"]));
  match r with Err _ => throw (ambiguous volume) | Ok runs => witnesses home volume nonce runs None end.

(** Whether the status of a run says that it has exited; [read_to_string] fails on other text
    than UTF-8. *)
Definition has_exited (run_dir : path) : IO bool :=
  r ← try_ (read (run_dir ++ [str "status"]));
  mret (match r with Ok status => utf8_valid status && starts_with (str "exited ") (trim_start status) | Err _ => false end).

(** Whether an owner stays. *)
Definition recover_one (home : path) (name : bytes) (all : list VolumeOwner) (owner : VolumeOwner) : IO bool :=
  match owner with
  | Active _ run_id pid token _ =>
      let run_dir := join (home ++ [str "run"]) run_id in
      r ← try_ (read_run_owner run_dir);
      match r with
      | Err _ => throw (ambiguous name)
      | Ok record =>
          if negb (bool_decide (r_volume record = name)) || negb (bool_decide (r_owner record = owner)) then throw (ambiguous name)
          else
            gone ← (if terminal record then has_exited run_dir else mret false);
            if gone : bool then mret false
            else
              dead ← lift (process_dead stat pid token);
              mret (negb dead)
      end
  | Pending nonce pid token =>
      let active_same_nonce := existsb (fun c => match c with Active n _ _ _ _ => bool_decide (n = nonce) | Pending _ _ _ => false end) all in
      record ← find_pending_witness home name nonce;
      if negb (bool_decide (r_owner record = owner)) then throw (ambiguous name)
      else if active_same_nonce then mret true
      else
        dead ← lift (process_dead stat pid token);
        mret (negb dead)
  end.

Fixpoint recover_all (home : path) (name : bytes) (all l : list VolumeOwner) : IO (list VolumeOwner) :=
  match l with
  | [] => mret []
  | o :: l =>
      stays ← recover_one home name all o;
      keep ← recover_all home name all l;
      mret (if stays : bool then o :: keep else keep)
  end.

Definition recover_locked (root : path) (name : bytes) (home : path) : IO unit :=
  f ← read_owners root name;
  keep ← recover_all home name (owners f) (owners f);
  if bool_decide (keep = owners f) then mret tt else write_owners root name (mkOwners (version f) keep).

Definition recover (root : path) (name : bytes) (home : path) : IO unit :=
  _ ← owner_lock root name;
  recover_locked root name home.

(** ** Removal *)

Definition remove (root : path) (name : bytes) (in_use : bool) : IO unit :=
  _ ← lift (name_validate name);
  e ← exists_ (volume_dir root name);
  if negb (e : bool) then throw (RefNotFound (str "no such volume: " ++ name))
  else if in_use then throw (in_use_error name)
  else if bool_decide (root = []) then throw (ambiguous name)
  else
    _ ← owner_lock root name;
    _ ← recover_locked root name (parent_path root);
    f ← read_owners root name;
    if negb (bool_decide (owners f = [])) then throw (in_use_error name) else remove_dir_all (volume_dir root name).

Fixpoint prune_all (root : path) (infos : list VolumeInfo) : IO (list bytes) :=
  match infos with
  | [] => mret []
  | info :: infos =>
      r ← try_ (remove root (vi_name info) false);
      match r with
      | Ok _ => removed ← prune_all root infos; mret (vi_name info :: removed)
      | Err (InvalidRef _) => prune_all root infos
      | Err e => throw e
      end
  end.

Definition prune (root : path) : IO (list bytes) :=
  infos ← list_volumes root;
  removed ← prune_all root infos;
  mret (sort_by bytes_leb removed).

Definition owner_runtime_supported (pid : Z) : IO unit :=
  _ ← lift (process_start_token stat pid);
  mret tt.
End ledger.

(** * A volume in use

    What holds of a volume from when a run owns it: its data is that of [fs0], the owner is
    recorded, and no witness says that the run has ended. *)

Section in_use.
Context `{B3 : Blake3} `{J : OwnerJson} `{!OwnerJsonLaws J} (root : path) (name : bytes) (o : VolumeOwner) (fs0 : gmap path node).
Implicit Types (fs : gmap path node) (p q : path).

Definition is_data p : Prop := volume_dir root name `prefix_of` p /\ ~ owner_dir root name `prefix_of` p.

Record owned fs : Prop := {
  ow_data p : is_data p -> fs !! p = fs0 !! p;
  ow_dirs p : p `prefix_of` owner_dir root name -> fs !! p = Some NDir;
  ow_file : exists b f, file_at fs (owners_path root name) = Some b /\ owners_from_slice b = Some f /\ o ∈ owners f;
  ow_live run_dir b r : file_at fs (run_owner_path run_dir) = Some b -> record_from_slice b = Some r -> nonce_of (r_owner r) = nonce_of o -> terminal r = false }.

Definition stays : relation (gmap path node) := fun fs fs' => owned fs -> owned fs'.
#[local] Instance stays_preorder : PreOrder stays.
Proof. split; [by intros fs H|]. intros f1 f2 f3 H1 H2 H. auto. Qed.

(** ** Paths *)

Lemma owner_dir_not_data : ~ is_data (owner_dir root name).
Proof. by intros [_ []]. Qed.

Lemma same_volume n p : volume_dir root name `prefix_of` p -> p `prefix_of` volume_dir root n \/ volume_dir root n `prefix_of` p -> n = name.
Proof.
unfold volume_dir. intros H1 H2. assert (volumes_root root ++ [name] `prefix_of` volumes_root root ++ [n] \/ volumes_root root ++ [n] `prefix_of` volumes_root root ++ [name]) as H.
{ destruct H2 as [H2|H2]; [left; by etrans|]. destruct (prefix_weak_total _ _ _ H1 H2); auto. }
destruct H as [[k E]|[k E]]; rewrite <- app_assoc in E; apply app_inv_head in E; by injection E.
Qed.

Lemma below_volume n p : volume_dir root n `prefix_of` owner_dir root n ++ p.
Proof. unfold owner_dir. rewrite <- app_assoc. by apply prefix_app_r. Qed.

Lemma other_not_data n p : volume_dir root n `prefix_of` p -> n <> name -> ~ is_data p.
Proof. intros Hp Hn [H _]. apply Hn. apply (same_volume n p H). by right. Qed.

(** What is written in the owners' directory of a volume is no data. *)
Lemma in_owner_dir n p : ~ is_data (owner_dir root n ++ p).
Proof.
destruct (decide (n = name)) as [->|Hn]; [intros [_ H]; apply H; by apply prefix_app_r|].
apply (other_not_data n); [apply below_volume|done].
Qed.

Lemma dirs_above n p : p `prefix_of` owner_dir root n -> ~ is_data p \/ p `prefix_of` owner_dir root name.
Proof.
intros Hp. destruct (decide (n = name)) as [->|Hn]; [by right|left]. intros [H _]. apply Hn. apply (same_volume n (owner_dir root n)); [by etrans|].
right. rewrite <- (app_nil_r (owner_dir root n)). apply below_volume.
Qed.

Lemma snoc_last (p p' : path) (c c' : bytes) : c <> c' -> p ++ [c] <> p' ++ [c'].
Proof. by intros Hc [_ ?]%app_inj_tail. Qed.

(** ** Changes elsewhere *)

Lemma owned_insert fs p n : owned fs -> fs !! p <> Some NDir -> ~ is_data p -> p <> owners_path root name -> (forall d, p <> run_owner_path d) -> owned (<[p := n]> fs).
Proof.
intros [H1 H2 H3 H4] Hd Hp Ho Hr. split.
- intros q Hq. rewrite lookup_insert_ne by (by intros ->). by apply H1.
- intros q Hq. rewrite lookup_insert_ne; [by apply H2|]. intros ->. by apply Hd, H2.
- destruct H3 as (b & f & E & ?). exists b, f. by rewrite file_at_insert, decide_False by done.
- intros d b r. rewrite file_at_insert, decide_False by done. apply H4.
Qed.

Lemma owned_mkdir fs p : owned fs -> fs !! p = None -> ~ is_data p \/ p `prefix_of` owner_dir root name -> owned (<[p := NDir]> fs).
Proof.
intros [H1 H2 H3 H4] Hn Hp. assert (~ is_data p) as Hp' by (destruct Hp as [|Hp]; [done|]; by rewrite (H2 p Hp) in Hn). split.
- intros q Hq. rewrite lookup_insert_ne by (by intros ->). by apply H1.
- intros q Hq. rewrite lookup_insert. case_decide; [done|]. by apply H2.
- destruct H3 as (b & f & E & ?). exists b, f. rewrite file_at_insert, decide_False; [done|]. intros <-. unfold file_at in E. by rewrite Hn in E.
- intros d b r. rewrite file_at_insert. case_decide; [done|]. apply H4.
Qed.

Lemma owned_delete fs p : owned fs -> ~ p `prefix_of` owner_dir root name -> ~ is_data p -> p <> owners_path root name -> owned (delete p fs).
Proof.
intros [H1 H2 H3 H4] Hd Hp Ho. split.
- intros q Hq. rewrite lookup_delete_ne by (by intros ->). by apply H1.
- intros q Hq. rewrite lookup_delete_ne; [by apply H2|]. by intros ->.
- destruct H3 as (b & f & E & ?). exists b, f. by rewrite file_at_delete, decide_False by done.
- intros d b r. rewrite file_at_delete. case_decide; [done|]. apply H4.
Qed.

(** ** Computations that keep it, and what they return *)

Definition safe {A : Type} (P : A -> Prop) (m : IO A) : Prop :=
  forall fs, owned fs -> wp false fs m (fun out fs' => owned fs' /\ forall a, out = Ret a -> P a).

Lemma safe_bind {A B : Type} (P : A -> Prop) (Q : B -> Prop) (m : IO A) (k : A -> IO B) : safe P m -> (forall a, P a -> safe Q (k a)) -> safe Q (m ≫= k).
Proof.
intros Hm Hk fs Ho. apply wp_bind. eapply wp_mono; [by apply Hm|]. intros [a|e|] fs' [Ho' HP]; [|by split..]. apply Hk; auto.
Qed.
Lemma safe_ret {A : Type} (P : A -> Prop) a : P a -> safe P (mret a).
Proof. intros H fs Ho. apply wp_ret. split; [done|]. by intros ? [= <-]. Qed.
Lemma safe_throw {A : Type} (P : A -> Prop) e : safe P (throw e).
Proof. intros fs Ho. by apply wp_throw. Qed.
Lemma safe_lift {A : Type} (P : A -> Prop) (r : Result A) : (forall a, r = Ok a -> P a) -> safe P (lift r).
Proof. intros H. destruct r; [by apply safe_ret, H|apply safe_throw]. Qed.
Lemma safe_try {A : Type} (P : A -> Prop) (m : IO A) : safe P m -> safe (fun r => forall a, r = Ok a -> P a) (try_ m).
Proof.
intros H fs Ho. apply wp_try. eapply wp_mono; [by apply H|]. intros [a|e|] fs' [Ho' HP]; split; try done.
- intros r [= <-] a' [= <-]. by apply HP.
- by intros r [= <-] a' E.
Qed.
Lemma safe_weaken {A : Type} (P Q : A -> Prop) (m : IO A) : safe P m -> (forall a, P a -> Q a) -> safe Q m.
Proof. intros H HPQ fs Ho. eapply wp_mono; [by apply H|]. intros out fs' [? HP]. split; auto. Qed.
Lemma safe_keeps {A : Type} (m : IO A) : keeps (on_fs stays) m -> safe (fun _ => True) m.
Proof. intros H fs Ho w Hw _. split; [|done]. split; [|done]. apply (H w). by rewrite Hw. Qed.
Lemma safe_try_any {A : Type} (m : IO A) : safe (fun _ => True) m -> safe (fun _ => True) (try_ m).
Proof. intros H. by eapply safe_weaken; [apply safe_try|]. Qed.
Lemma safe_bind_any {A B : Type} (Q : B -> Prop) (m : IO A) (k : A -> IO B) : safe (fun _ => True) m -> (forall a, safe Q (k a)) -> safe Q (m ≫= k).
Proof. intros Hm Hk. by apply (safe_bind (fun _ => True)). Qed.

(** ** Calls *)

Lemma reads_stay {A : Type} (f : gmap path node -> Result A * gmap path node) : (forall fs, (f fs).2 = fs) -> keeps (on_fs stays) (sys0 f).
Proof. intros H. apply keeps_sys0; [apply _|]. intros fs. by rewrite H. Qed.
Lemma read_stays p : keeps (on_fs stays) (read p).
Proof. apply reads_stay. intros fs. by repeat case_match. Qed.
Lemma read_dir_stays p : keeps (on_fs stays) (read_dir p).
Proof. apply reads_stay. intros fs. by repeat case_match. Qed.
Lemma open_read_stays p : keeps (on_fs stays) (open_read p).
Proof. apply reads_stay. intros fs. by repeat case_match. Qed.
Lemma sync_stays : keeps (on_fs stays) sync.
Proof. by apply reads_stay. Qed.
#[local] Hint Resolve read_stays read_dir_stays open_read_stays sync_stays : keeps.

Lemma create_dir_all_stays q : (forall p, p `prefix_of` q -> ~ is_data p \/ p `prefix_of` owner_dir root name) -> keeps (on_fs stays) (create_dir_all q).
Proof.
intros Hq. unfold create_dir_all. assert (forall rest base, q = base ++ rest -> keeps (on_fs stays) (mkdir_below base rest)) as H; [|by apply H].
induction rest as [|c rest IH]; intros base E; cbn [mkdir_below]; [apply keeps_ret, _|]. apply keeps_bind; [apply _|apply keeps_get_fs, _|]. intros fs. apply keeps_bind; [apply _| |].
- destruct (fs !! (base ++ [c])) as [[]|]; [apply keeps_throw, _|apply keeps_ret, _|apply keeps_throw, _|]. apply keeps_sys0; [apply _|]. intros fs1.
  destruct (fs1 !! (base ++ [c])) eqn:E1; [reflexivity|]. destruct (is_dir _ _); [|reflexivity]. intros Ho. apply owned_mkdir; [done|done|]. apply Hq. rewrite E. exists rest. by rewrite <- app_assoc.
- intros _. apply IH. by rewrite <- app_assoc.
Qed.

(** A file that is neither data nor a record. *)
Definition scratch p : Prop := ~ is_data p /\ p <> owners_path root name /\ forall d, p <> run_owner_path d.

Lemma open_create_stays p : scratch p -> keeps (on_fs stays) (open_create p).
Proof.
intros (H1 & H2 & H3). apply keeps_sys0; [apply _|]. intros fs. destruct (fs !! p) as [[]|] eqn:E; try reflexivity. destruct (is_dir _ _); [|reflexivity].
intros Ho. apply owned_insert; [done|by rewrite E|done..].
Qed.

Lemma owned_scratch fs p n : owned fs -> fs !! p <> Some NDir -> scratch p -> owned (<[p := n]> fs).
Proof. intros Ho Hd (H1 & H2 & H3). by apply owned_insert. Qed.

Lemma owned_append fs p d : owned fs -> scratch p -> owned (append_at p d fs).
Proof. intros Ho Hs. unfold append_at. destruct (fs !! p) as [[]|] eqn:E; try done. apply owned_scratch; [done|by rewrite E|done]. Qed.

Lemma safe_create p : scratch p -> forall fs, owned fs -> wp false fs (file_create p) (fun out fs' => owned fs' /\ (out = Ret tt -> exists m, fs' !! p = Some (NFile [] m))).
Proof.
intros Hs fs Ho. apply wp_sys0; [|intros _; split; (split; [done|done])]. destruct (fs !! p) as [[x m| |t]|] eqn:E; cbn; [|by split..|].
- split; [apply owned_scratch; [done|by rewrite E|done]|]. intros _. exists m. apply lookup_insert_eq.
- destruct (is_dir _ _); cbn; [|by split]. split; [apply owned_scratch; [done|by rewrite E|done]|]. intros _. exists CREATE_MODE. apply lookup_insert_eq.
Qed.

Lemma safe_replace dir (tmp dest data : bytes) :
  scratch (dir ++ [tmp]) -> tmp <> dest -> (forall fs m, owned fs -> fs !! (dir ++ [dest]) <> Some NDir -> owned (<[dir ++ [dest] := NFile data m]> fs)) ->
  safe (fun _ => True) (replace_file dir tmp dest data).
Proof.
intros Hs Hne Hput fs Ho. unfold replace_file. apply wp_bind. eapply wp_mono; [by apply safe_create|]. intros [[]|e|] fs1 [Ho1 H1]; [|by split..]. destruct (H1 eq_refl) as [m Hm].
assert (forall d, append_at (dir ++ [tmp]) d fs1 = <[dir ++ [tmp] := NFile d m]> fs1) as Happ by (intros d; unfold append_at; by rewrite Hm).
apply wp_bind, wp_sys; [|intros _ n; split; (split; [by apply owned_append|done])]. cbv beta iota. pose proof (owned_append fs1 (dir ++ [tmp]) data Ho1 Hs) as Ho2. rewrite Happ in *.
set (fs2 := <[dir ++ [tmp] := NFile data m]> fs1) in *. apply wp_bind, wp_sync; [|intros _; split; (split; [done|done])]. apply wp_bind, wp_sys0; [|intros _; split; (split; [done|done])].
assert (fs2 !! (dir ++ [tmp]) = Some (NFile data m)) as E2 by apply lookup_insert_eq. rewrite E2.
assert (owned (delete (dir ++ [tmp]) fs2)) as Ho3.
{ destruct Hs as (Hs1 & Hs2 & Hs3). apply owned_delete; [done| |done|done]. intros Hp. by rewrite (ow_dirs _ Ho2 _ Hp) in E2. }
assert (delete (dir ++ [tmp]) fs2 !! (dir ++ [dest]) = fs2 !! (dir ++ [dest])) as Ed by (apply lookup_delete_ne; by apply snoc_last).
assert (forall fs', owned fs' -> wp false fs' (_ ← open_read dir; sync) (fun _ fs'' => owned fs'' /\ forall a : unit, Ret a = Ret a -> True)) as Hend.
{ intros fs' Ho'. eapply wp_mono; [apply (safe_keeps (_ ← open_read dir; sync)); [solve_keeps|done]|]. by intros out fs'' [? _]. }
assert (fs2 !! (dir ++ [dest]) <> Some NDir ->
  wp false (<[dir ++ [dest] := NFile data m]> (delete (dir ++ [tmp]) fs2)) (_ ← open_read dir; sync) (fun out fs'' => owned fs'' /\ forall a, out = Ret a -> True)) as Hfin.
{ intros Hn. eapply wp_mono; [apply Hend, Hput; [done|by rewrite Ed]|]. by intros out fs'' [? _]. }
destruct (fs2 !! (dir ++ [dest])) as [[x m'| |t]|] eqn:E; [destruct (is_dir _ _)|idtac|destruct (is_dir _ _)|destruct (is_dir _ _)]; cbn [fst snd]; try (by split); by apply Hfin.
Qed.

(** ** The owners file *)

Lemma owner_scratch n c : c <> OWNERS -> c <> RUN_OWNER -> scratch (owner_dir root n ++ [c]).
Proof. intros H1 H2. split; [apply in_owner_dir|]. split; [by apply snoc_last|]. intros d. by apply snoc_last. Qed.

Lemma owner_lock_stays n : keeps (on_fs stays) (owner_lock root n).
Proof.
unfold owner_lock. apply keeps_bind; [apply _|apply keeps_lift, _|intros _]. apply keeps_bind; [apply _|apply create_dir_all_stays, dirs_above|intros _].
apply keeps_bind; [apply _|by apply open_create_stays, owner_scratch|intros _]. apply sync_stays.
Qed.

(** The owner is among those that are read of its volume. *)
Definition has_owner (n : bytes) (l : list VolumeOwner) : Prop := n = name -> o ∈ l.

Lemma safe_read_owners n : safe (fun f => has_owner n (owners f)) (read_owners root n).
Proof.
intros fs Ho. unfold read_owners. apply wp_bind, wp_exists. destruct (decide (n = name)) as [->|Hn].
- destruct (ow_file _ Ho) as (b & f & E & Ef & Hin). rewrite (node_exists_file _ _ _ E). cbn [negb]. apply wp_bind, (wp_read _ _ b); [done| |intros _; split; (split; [done|done])].
  rewrite Ef. destruct (well_formed f); [|by apply wp_throw]. apply wp_ret. split; [done|]. by intros a [= <-] _.
- eapply wp_mono; [apply (safe_keeps (if negb (node_exists fs (owners_path root n)) then mret (mkOwners 1 []) else _)); [|done]; solve_keeps|]. intros out fs' [? _]. split; [done|]. intros a _ E. by destruct Hn.
Qed.

Lemma owners_path_ne n : n <> name -> owners_path root n <> owners_path root name.
Proof. intros Hn [E _]%app_inj_tail. apply app_inj_tail in E as [E _]. unfold volume_dir in E. by apply app_inj_tail in E as [_ ?]. Qed.

Lemma safe_write_owners n f : has_owner n (owners f) -> safe (fun _ => True) (write_owners root n f).
Proof.
intros Hf. unfold write_owners. destruct (well_formed f); cbn [negb]; [|apply safe_throw]. apply safe_bind_any; [apply safe_keeps, create_dir_all_stays, dirs_above|intros _].
apply (safe_bind (fun b => owners_to_vec f = Some b)); [apply safe_lift; intros b; by destruct (owners_to_vec f); cbn; [intros [= ->]|]|]. intros b Eb.
apply safe_replace; [by apply owner_scratch|done|]. intros fs m Ho Hd. destruct (decide (n = name)) as [->|Hn].
- change (owner_dir root name ++ [OWNERS]) with (owners_path root name) in *. pose proof (in_owner_dir name [OWNERS]) as Hnd. destruct Ho as [H1 H2 H3 H4]. split.
  + intros q Hq. rewrite lookup_insert_ne; [by apply H1|]. by intros <-.
  + intros q Hq. rewrite lookup_insert_ne; [by apply H2|]. intros <-. by apply Hd, H2.
  + exists b, f. rewrite file_at_insert, decide_True by done. split; [done|]. split; [by apply owners_json|by apply Hf].
  + intros d b' r. rewrite file_at_insert, decide_False; [apply H4|]. by apply snoc_last.
- apply owned_insert; [done|done|apply in_owner_dir|by apply owners_path_ne|]. intros d. by apply snoc_last.
Qed.

(** ** The witnesses *)

(** The directory of a run is neither in the volume nor among the volumes. *)
Definition outside_volume (d : path) : Prop := ~ volume_dir root name `prefix_of` d /\ d <> volumes_root root.

Lemma outside_not_data d c : outside_volume d -> ~ is_data (d ++ [c]).
Proof.
intros [H1 H2] [Hp _]. apply prefix_snoc_inv in Hp as [E|Hp]; [|done]. unfold volume_dir in E. by apply app_inj_tail in E as [<- _].
Qed.

Lemma safe_write_run_owner d v owner term : outside_volume d -> nonce_of owner <> nonce_of o \/ term = false -> safe (fun _ => True) (write_run_owner d v owner term).
Proof.
intros Hd Hr. unfold write_run_owner. apply safe_bind_any; [apply safe_keeps, create_dir_all_stays; intros p Hp; left; intros [H _]; apply (proj1 Hd); by transitivity p|intros _].
apply (safe_bind (fun b => record_to_vec (mkRecord v owner term) = Some b)); [apply safe_lift; intros b; by destruct (record_to_vec _); cbn; [intros [= ->]|]|]. intros b Eb%record_json.
apply safe_replace; [split; [by apply outside_not_data|split; [by apply snoc_last|intros d'; by apply snoc_last]]|done|].
intros fs m Ho Hn. pose proof (outside_not_data d RUN_OWNER Hd) as Hnd. destruct Ho as [H1 H2 H3 H4]. split.
- intros q Hq. rewrite lookup_insert_ne; [by apply H1|]. by intros <-.
- intros q Hq. rewrite lookup_insert_ne; [by apply H2|]. intros <-. by apply Hn, H2.
- destruct H3 as (b' & f & E & ?). exists b', f. rewrite file_at_insert, decide_False; [done|]. by apply snoc_last.
- intros d' b' r. rewrite file_at_insert. case_decide as E; [|apply H4]. intros [= <-] Er Enon. rewrite Eb in Er. injection Er as <-. by destruct Hr.
Qed.

Lemma safe_read_run_owner d : safe (fun r => nonce_of (r_owner r) = nonce_of o -> terminal r = false) (read_run_owner d).
Proof.
intros fs Ho. unfold read_run_owner. apply wp_bind, wp_sys0; [|intros _; split; (split; [done|done])].
destruct (fs !! run_owner_path d) as [[x m| |t]|] eqn:E; cbn [fst snd]; try (by split). apply wp_lift. destruct (record_from_slice x) as [r|] eqn:Er; cbn; [|by split].
split; [done|]. intros a [= <-]. apply (ow_live _ Ho d x r); [|done]. unfold file_at. by rewrite E.
Qed.

(** ** Recovery and removal *)

Context (stat : Z -> Result bytes).

(** The process of the owner has not been seen dead. *)
Definition alive : Prop := match o with Pending _ pid token | Active _ _ pid token _ => process_dead stat pid token <> Ok true end.

Lemma safe_has_exited d : safe (fun _ => True) (has_exited d).
Proof. apply safe_keeps. unfold has_exited. solve_keeps. Qed.

Lemma safe_witnesses home v n runs : forall matched, safe (fun _ => True) (witnesses home v n runs matched).
Proof.
induction runs as [|run runs IH]; intros matched; cbn [witnesses]; [by apply safe_lift|].
apply safe_bind_any; [apply safe_try_any; by eapply safe_weaken; [apply safe_read_run_owner|]|]. intros [r|e]; [|apply IH].
destruct (_ && _); [|apply IH]. destruct matched; [apply safe_throw|apply IH].
Qed.

Lemma safe_find_pending_witness home v n : safe (fun _ => True) (find_pending_witness home v n).
Proof. unfold find_pending_witness. apply safe_bind_any; [apply safe_keeps; solve_keeps|]. intros [runs|e]; [apply safe_witnesses|apply safe_throw]. Qed.

Lemma safe_dead pid token : safe (fun b => process_dead stat pid token = Ok b) (lift (process_dead stat pid token)).
Proof. by apply safe_lift. Qed.

Lemma safe_recover_one home n all owner : alive -> safe (fun s => owner = o -> s = true) (recover_one stat home n all owner).
Proof.
intros Ha. assert (forall z t b, (owner = o -> process_dead stat z t <> Ok true) -> process_dead stat z t = Ok b -> owner = o -> negb b = true) as Hdead.
{ intros z t [] H E Eo; [|done]. by destruct (H Eo). }
unfold alive in Ha. destruct owner as [nc p t|nc run p t mnt] eqn:Eow; cbn [recover_one].
- apply safe_bind_any; [apply safe_find_pending_witness|]. intros r. destruct (negb _); [apply safe_throw|]. destruct (existsb _ _); [by apply safe_ret|].
  apply (safe_bind _ _ _ _ (safe_dead p t)). intros b Eb. apply safe_ret. apply (Hdead p t b); [|done]. by intros Eo; rewrite <- Eo in Ha.
- apply (safe_bind _ _ _ _ (safe_try _ _ (safe_read_run_owner _))). intros [r|e] Hr; [|apply safe_throw]. specialize (Hr r eq_refl).
  destruct (negb (bool_decide (r_volume r = n)) || _) eqn:Em; [apply safe_throw|]. apply orb_false_iff in Em as [_ Em]. apply negb_false_iff, bool_decide_eq_true in Em.
  apply (safe_bind (fun g => Active nc run p t mnt = o -> g = false)).
  + destruct (terminal r); [|by apply safe_ret]. eapply safe_weaken; [apply safe_has_exited|]. intros a _ Eo. assert (true = false) as [=]. apply Hr. by rewrite Em, Eo.
  + intros [] Hg; [apply safe_ret; intros Eo; by specialize (Hg Eo)|]. apply (safe_bind _ _ _ _ (safe_dead p t)). intros b Eb. apply safe_ret. apply (Hdead p t b); [|done]. by intros Eo; rewrite <- Eo in Ha.
Qed.

Lemma safe_recover_all home n all l : alive -> safe (fun keep => o ∈ l -> o ∈ keep) (recover_all stat home n all l).
Proof.
intros Ha. induction l as [|x l IH]; cbn [recover_all]; [by apply safe_ret|]. apply (safe_bind _ _ _ _ (safe_recover_one home n all x Ha)). intros s Hs.
apply (safe_bind _ _ _ _ IH). intros keep Hk. apply safe_ret. intros [->|Hin]%elem_of_cons; [rewrite (Hs eq_refl); by left|]. destruct s; [right|]; auto.
Qed.

Lemma safe_recover_locked n home : alive -> safe (fun _ => True) (recover_locked stat root n home).
Proof.
intros Ha. unfold recover_locked. apply (safe_bind _ _ _ _ (safe_read_owners n)). intros f Hf. apply (safe_bind _ _ _ _ (safe_recover_all home n (owners f) (owners f) Ha)). intros keep Hk.
case_bool_decide; [by apply safe_ret|]. apply safe_write_owners. intros En. auto.
Qed.

Lemma remove_other_stays n : n <> name -> keeps (on_fs stays) (remove_dir_all (volume_dir root n)).
Proof.
intros Hn. assert (forall ps fs, Forall (fun p => volume_dir root n `prefix_of` p) ps -> stays fs (delete_all ps fs)) as Hdel.
{ induction ps as [|p ps IH]; intros fs Hps; [reflexivity|]. apply Forall_cons in Hps as [Hp Hps]. intros Ho. apply (IH _ Hps). apply owned_delete; [done| |by eapply other_not_data|].
  - intros Hpre. apply Hn. apply (same_volume n (owner_dir root name)); [unfold owner_dir; by apply prefix_app_r|right; by transitivity p].
  - intros ->. apply Hn. apply (same_volume n (owners_path root name)); [unfold owners_path; apply below_volume|by right]. }
assert (forall fs, Forall (fun p => volume_dir root n `prefix_of` p) (nodes_below fs (volume_dir root n))) as Hb.
{ intros fs. unfold nodes_below. rewrite (sort_by_perm _ _). apply Forall_forall. intros p [Hp _]%list_elem_of_filter. done. }
apply keeps_sys; [apply _| |].
- intros fs. destruct (fs !! volume_dir root n) as [[]|] eqn:E; try reflexivity; [apply Hdel, Hb|]. apply (Hdel [_]). by constructor.
- intros k fs. destruct (fs !! volume_dir root n) as [[]|]; try reflexivity. apply Hdel. by apply Forall_take.
Qed.

Lemma safe_remove n in_use : alive -> safe (fun _ => True) (remove stat root n in_use).
Proof.
intros Ha. unfold remove. apply safe_bind_any; [by apply safe_lift|intros _]. apply safe_bind_any; [apply safe_keeps; solve_keeps|]. intros e.
destruct (negb e); [apply safe_throw|]. destruct in_use; [apply safe_throw|]. case_bool_decide; [apply safe_throw|].
apply safe_bind_any; [apply safe_keeps, owner_lock_stays|intros _]. apply safe_bind_any; [by apply safe_recover_locked|intros _]. apply (safe_bind _ _ _ _ (safe_read_owners n)). intros f Hf.
destruct (decide (owners f = [])) as [E|Hne]; [|rewrite bool_decide_eq_false_2 by done; apply safe_throw]. rewrite bool_decide_eq_true_2 by done. cbn [negb].
apply safe_keeps, remove_other_stays. intros En. specialize (Hf En). rewrite E in Hf. by apply not_elem_of_nil in Hf.
Qed.

Lemma safe_prune : alive -> safe (fun _ => True) (prune stat root).
Proof.
intros Ha. unfold prune. apply safe_bind_any; [apply safe_keeps; unfold list_volumes, list_one, read_info; solve_keeps|]. intros infos. apply safe_bind_any; [|intros r; by apply safe_ret].
induction infos as [|info infos IH]; cbn [prune_all]; [by apply safe_ret|]. apply safe_bind_any; [by apply safe_try_any, safe_remove|]. intros [[]|e].
- apply safe_bind_any; [done|intros r; by apply safe_ret].
- destruct e; try apply safe_throw. apply IH.
Qed.

(** ** Other runs *)

Lemma safe_begin n d pid now counter : outside_volume d -> fresh_nonce pid now counter <> nonce_of o -> safe (fun _ => True) (begin_owner stat root n d pid now counter).
Proof.
intros Hd Hn. unfold begin_owner, begin_locked. apply safe_bind_any; [apply safe_keeps, owner_lock_stays|intros _]. apply (safe_bind _ _ _ _ (safe_read_owners n)). intros f Hf.
apply safe_bind_any; [by apply safe_lift|intros token]. cbv zeta. apply safe_bind_any; [apply safe_write_owners; intros En; apply elem_of_app; left; auto|intros _].
apply safe_bind_any; [apply safe_try_any, safe_write_run_owner; auto|]. intros [[]|e]; [by apply safe_ret|].
apply safe_bind_any; [|intros [[]|e']; apply safe_throw]. apply safe_try_any, safe_write_owners. intros En. apply list_elem_of_In, filter_In. split; [apply list_elem_of_In, elem_of_app; left; auto|].
cbn [nonce_of]. rewrite bool_decide_eq_false_2; [done|]. by intros E; apply Hn.
Qed.

Lemma position_Some h l i : position h l = Some i -> exists x, l !! i = Some x /\ h x = true.
Proof.
revert i. induction l as [|x l IH]; intros i; cbn; [done|]. destruct (h x) eqn:E; [intros [= <-]; by exists x|]. destruct (position h l) as [j|]; [|done]. intros [= <-]. by apply IH.
Qed.

Lemma safe_activate n d nonce run_id pid mount : outside_volume d -> nonce <> nonce_of o -> safe (fun _ => True) (activate_owner stat root n d nonce run_id pid mount).
Proof.
intros Hd Hn. unfold activate_owner. apply safe_bind_any; [apply safe_keeps, owner_lock_stays|intros _]. apply (safe_bind _ _ _ _ (safe_read_owners n)). intros f Hf.
apply (safe_bind (fun i => exists x, owners f !! i = Some x /\ is_pending nonce x = true)).
{ apply safe_lift. intros i. destruct (position _ _) as [j|] eqn:E; [|done]. intros [= <-]. by apply position_Some. }
intros i (x & Hx & Ex). apply safe_bind_any; [by apply safe_lift|intros token]. cbv zeta. apply safe_bind_any; [|intros _].
- apply safe_write_owners. intros En. destruct (list_elem_of_lookup_1 _ _ (Hf En)) as [j Hj]. assert (j <> i) as Hne.
  { intros ->. rewrite Hx in Hj. injection Hj as ->. destruct o; [|done]. cbn in Ex, Hn. apply bool_decide_eq_true in Ex. by apply Hn. }
  cbn [owners]. apply (list_elem_of_lookup_2 _ j). by rewrite list_lookup_insert_ne.
- apply safe_bind_any; [apply safe_try_any, safe_write_run_owner; auto|]. intros [[]|e]; [by apply safe_ret|]. apply safe_bind_any; [by apply safe_write_owners|intros _; apply safe_throw].
Qed.

Lemma safe_drop n f (g : VolumeOwner -> bool) e : has_owner n (owners f) -> g o = false ->
  safe (fun _ => True) (let kept := List.filter (fun x => negb (g x)) (owners f) in if bool_decide (length kept = length (owners f)) then throw e else write_owners root n (mkOwners (version f) kept)).
Proof.
intros Hf Hg. cbv zeta. case_bool_decide; [apply safe_throw|]. apply safe_write_owners. intros En. apply list_elem_of_In, filter_In. rewrite Hg. split; [|done]. by apply list_elem_of_In, Hf.
Qed.

Lemma safe_abandon n nonce : nonce <> nonce_of o -> safe (fun _ => True) (abandon_pending root n nonce).
Proof.
intros Hn. unfold abandon_pending. apply safe_bind_any; [apply safe_keeps, owner_lock_stays|intros _]. apply (safe_bind _ _ _ _ (safe_read_owners n)). intros f Hf.
apply safe_drop; [done|]. destruct o; [|done]. cbn in *. apply bool_decide_eq_false_2. congruence.
Qed.

Lemma safe_release n d : safe (fun _ => True) (release_owner root n d).
Proof.
unfold release_owner. apply (safe_bind _ _ _ _ (safe_read_run_owner d)). intros r Hr. destruct (terminal r) eqn:Et; [|rewrite orb_true_r; apply safe_throw].
destruct (_ || _); [apply safe_throw|]. destruct (r_owner r) as [|nonce run pid token mnt] eqn:Eo; [apply safe_throw|].
apply safe_bind_any; [apply safe_keeps, owner_lock_stays|intros _]. apply (safe_bind _ _ _ _ (safe_read_owners n)). intros f Hf. apply safe_drop; [done|].
destruct o as [|n' r' p' t' m']; [done|]. cbn in *. rewrite (bool_decide_eq_false_2 (n' = nonce)); [done|]. intros E. by specialize (Hr (eq_sym E)).
Qed.

Lemma safe_recover n home : alive -> safe (fun _ => True) (recover stat root n home).
Proof. intros Ha. unfold recover. apply safe_bind_any; [apply safe_keeps, owner_lock_stays|intros _]. by apply safe_recover_locked. Qed.

Lemma safe_create_volume now n labels : safe (fun _ => True) (Volume.create root now n labels).
Proof.
unfold Volume.create. apply safe_bind_any; [by apply safe_lift|intros _]. apply (safe_bind (fun e => n = name -> e = true)).
- intros fs Ho. apply wp_exists. split; [done|]. intros a [= <-] ->. unfold node_exists. rewrite (ow_dirs _ Ho); [done|]. unfold owner_dir. by apply prefix_app_r.
- intros [] He; [apply safe_throw|]. assert (n <> name) as Hn by (intros E; by specialize (He E)). cbv zeta.
  apply safe_bind_any; [apply safe_keeps, create_dir_all_stays|intros _].
  { intros p Hp. left. intros [H _]. apply Hn. apply (same_volume n (data_dir root n)); [by transitivity p|right; unfold data_dir; by apply prefix_app_r]. }
  assert (scratch (meta_path root n)) as Hs.
  { split; [apply (other_not_data n); [unfold meta_path; by apply prefix_app_r|done]|]. split; [by apply snoc_last|intros d; by apply snoc_last]. }
  apply safe_bind_any; [intros fs Ho; eapply wp_mono; [by apply safe_create|]; by intros out fs' [? _]|intros _].
  apply safe_bind_any; [|intros _; by apply safe_ret]. apply safe_keeps, keeps_sys; [apply _|intros fs Ho; by apply owned_append|intros k fs Ho; by apply owned_append].
Qed.

(** The end of a run is noted in its own directory. *)
Lemma safe_finish d fs : owned fs -> outside_volume d -> (forall b r, file_at fs (run_owner_path d) = Some b -> record_from_slice b = Some r -> nonce_of (r_owner r) <> nonce_of o) ->
  wp false fs (terminal_run_owner d) (fun _ fs' => owned fs').
Proof.
intros Ho Hd Hr. unfold terminal_run_owner, read_run_owner. apply wp_bind, wp_bind, wp_sys0; [|by intros _].
destruct (fs !! run_owner_path d) as [[x m| |t]|] eqn:E; cbn [fst snd]; try done. apply wp_lift. destruct (record_from_slice x) as [r|] eqn:Er; cbn; [|done].
assert (nonce_of (r_owner r) <> nonce_of o) as Hne by (apply (Hr x); [unfold file_at; by rewrite E|done]).
eapply wp_mono; [apply (safe_write_run_owner d (r_volume r) (r_owner r) true); auto|]. by intros out fs' [? _].
Qed.
End in_use.

(** * How a volume comes into use *)

Section establish.
Context `{B3 : Blake3} `{J : OwnerJson} `{!OwnerJsonLaws J} (root : path) (name : bytes) (k : bytes).
Implicit Types (fs : gmap path node) (p q : path).

(** No witness with the nonce says that its run has ended. *)
Definition live fs : Prop := forall d b r, file_at fs (run_owner_path d) = Some b -> record_from_slice b = Some r -> nonce_of (r_owner r) = k -> terminal r = false.

(** Directories are added, nothing else. *)
Definition grown q : relation (gmap path node) := fun fs fs' => forall p, fs' !! p = fs !! p \/ p `prefix_of` q /\ fs !! p = None /\ fs' !! p = Some NDir.

#[local] Instance grown_preorder q : PreOrder (grown q).
Proof.
split; [by left|]. intros f1 f2 f3 H1 H2 p. destruct (H1 p) as [E1|(Hp & N1 & D1)], (H2 p) as [E2|(Hp' & N2 & D2)]; [left; congruence|right; repeat split; congruence|right; repeat split; congruence|congruence].
Qed.

Lemma create_dir_all_grown q : keeps (on_fs (grown q)) (create_dir_all q).
Proof.
unfold create_dir_all. assert (forall rest base, q = base ++ rest -> keeps (on_fs (grown q)) (mkdir_below base rest)) as H; [|by apply H].
induction rest as [|c rest IH]; intros base E; cbn [mkdir_below]; [apply keeps_ret, _|]. apply keeps_bind; [apply _|apply keeps_get_fs, _|]. intros fs. apply keeps_bind; [apply _| |].
- destruct (fs !! (base ++ [c])) as [[]|]; [apply keeps_throw, _|apply keeps_ret, _|apply keeps_throw, _|]. apply keeps_sys0; [apply _|]. intros fs1.
  destruct (fs1 !! (base ++ [c])) eqn:E1; [reflexivity|]. destruct (is_dir _ _); [|reflexivity]. intros p. cbn. rewrite lookup_insert. case_decide as Ep; [subst p; right|by left].
  split; [|done]. rewrite E. exists rest. by rewrite <- app_assoc.
- intros _. apply IH. by rewrite <- app_assoc.
Qed.

Lemma grown_file q fs fs' p b : grown q fs fs' -> file_at fs p = Some b -> file_at fs' p = Some b.
Proof. intros H. unfold file_at. destruct (H p) as [-> |(_ & -> & _)]; done. Qed.
Lemma grown_live q fs fs' : grown q fs fs' -> live fs -> live fs'.
Proof. intros H Hl d b r E. apply (Hl d). unfold file_at in *. destruct (H (run_owner_path d)) as [E'|(_ & _ & E')]; rewrite E' in E; done. Qed.

(** Replacing a file, exactly. *)
Lemma wp_replace dir (tmp dest data : bytes) fs : tmp <> dest ->
  wp false fs (replace_file dir tmp dest data) (fun out fs' =>
    (forall p, p <> dir ++ [tmp] -> p <> dir ++ [dest] -> fs' !! p = fs !! p) /\
    (fs' !! (dir ++ [dest]) = fs !! (dir ++ [dest]) \/ file_at fs' (dir ++ [dest]) = Some data) /\ (out = Ret tt -> file_at fs' (dir ++ [dest]) = Some data)).
Proof.
intros Hne. assert (dir ++ [dest] <> dir ++ [tmp]) as Hne' by (intros H; by apply (snoc_last dir dir tmp dest Hne)). unfold replace_file. set (Q := fun (out : outcome unit) fs' => _).
set (T := fun fs1 => forall p, p <> dir ++ [tmp] -> fs1 !! p = fs !! p). assert (forall fs1 out, T fs1 -> out <> Ret tt -> Q out fs1) as HT.
{ intros fs1 out H Ho. split; [intros p Hp _; by apply H|]. split; [left; by apply H|done]. }
assert (forall fs1 n, T fs1 -> T (<[dir ++ [tmp] := n]> fs1)) as HTi by (intros fs1 n H p Hp; rewrite lookup_insert_ne by done; by apply H).
assert (T fs) as HT0 by done.
apply wp_bind, wp_sys0; [|intros _; split; by apply HT].
assert (forall fs1 m, T fs1 -> fs1 !! (dir ++ [tmp]) = Some (NFile [] m) -> wp false fs1 (_ ← write_all (dir ++ [tmp]) data; _ ← sync; _ ← rename (dir ++ [tmp]) (dir ++ [dest]); _ ← open_read dir; sync) Q) as Hrest.
{ intros fs1 m HT1 Hm. assert (forall d, append_at (dir ++ [tmp]) d fs1 = <[dir ++ [tmp] := NFile d m]> fs1) as Happ by (intros d; unfold append_at; by rewrite Hm).
  apply wp_bind, wp_sys; [|intros _ n; rewrite Happ; split; apply HT; [by apply HTi|done|by apply HTi|done]]. cbv beta iota. rewrite Happ.
  apply wp_bind, wp_sync; [|intros _; split; apply HT; [by apply HTi|done|by apply HTi|done]].
  apply wp_bind, wp_sys0; [|intros _; split; apply HT; [by apply HTi|done|by apply HTi|done]]. rewrite lookup_insert_eq, (lookup_insert_ne _ (dir ++ [tmp])) by done.
  set (fs2 := <[dir ++ [dest] := NFile data m]> (delete (dir ++ [tmp]) (<[dir ++ [tmp] := NFile data m]> fs1))).
  assert (forall out, Q out fs2) as Hdone.
  { assert (file_at fs2 (dir ++ [dest]) = Some data) as Hf by (unfold file_at, fs2; by rewrite lookup_insert_eq). intros out. split; [|by split; [right|]].
    intros p H1 H2. unfold fs2. rewrite lookup_insert_ne, lookup_delete_ne, lookup_insert_ne by done. by apply HT1. }
  assert (wp false fs2 (_ ← open_read dir; sync) Q) as Hend.
  { apply wp_bind, wp_sys0; [|intros _; split; apply Hdone]. destruct (fs2 !! dir) as [[]|]; cbn; try apply Hdone; apply wp_sync; [apply Hdone|intros _; split; apply Hdone|apply Hdone|intros _; split; apply Hdone]. }
  destruct (fs1 !! (dir ++ [dest])) as [[]|]; [destruct (is_dir _ _)|idtac|destruct (is_dir _ _)|destruct (is_dir _ _)]; cbn [fst snd io_err]; try done; (apply HT; [by apply HTi|done]). }
destruct (fs !! (dir ++ [tmp])) as [[x m| |t]|] eqn:E; cbn [fst snd io_err]; [|by apply HT|by apply HT|].
- eapply Hrest; [by apply HTi|apply lookup_insert_eq].
- destruct (is_dir _ _); cbn [fst snd io_err]; [|by apply HT]. eapply Hrest; [by apply HTi|apply lookup_insert_eq].
Qed.

Definition live_step : relation (gmap path node) := fun fs fs' => live fs -> live fs'.
#[local] Instance live_step_preorder : PreOrder live_step.
Proof. split; [by intros fs H|]. intros f1 f2 f3 H1 H2 H. auto. Qed.

Lemma owner_live_lock n : keeps (on_fs live_step) (owner_lock root n).
Proof.
unfold owner_lock. apply keeps_bind; [apply _|apply keeps_lift, _|intros _]. apply keeps_bind; [apply _|intros w; exact (grown_live _ _ _ (create_dir_all_grown _ w))|intros _].
apply keeps_bind; [apply _| |intros _; apply keeps_sys0; [apply _|reflexivity]]. apply keeps_sys0; [apply _|]. intros fs. destruct (fs !! _) as [[]|] eqn:E; try reflexivity. destruct (is_dir _ _); [|reflexivity].
intros Hl d b r. cbn. rewrite file_at_insert, decide_False; [apply Hl|]. by apply snoc_last.
Qed.

Lemma wp_publish_owners f fs :
  live fs -> wp false fs (write_owners root name f) (fun out fs' => live fs' /\ (out = Ret tt -> exists b, file_at fs' (owners_path root name) = Some b /\ owners_from_slice b = Some f)).
Proof.
intros Hl. unfold write_owners. destruct (well_formed f); cbn [negb]; [|by apply wp_throw]. apply wp_bind. intros w Hw _. split; [|done]. pose proof (create_dir_all_grown (owner_dir root name) w) as Hg.
unfold on_fs in Hg. rewrite Hw in Hg. pose proof (grown_live _ _ _ Hg Hl) as Hl1. destruct (create_dir_all _ w).1 as [[]|e|]; [|by split..]. set (fs1 := w_fs _) in *.
apply wp_bind, wp_lift. destruct (owners_to_vec f) as [b|] eqn:Eb; cbn [ok_or]; [|by split]. eapply wp_mono; [by apply wp_replace|]. intros out fs' (Hp & _ & Hr). split.
- intros d b' r. unfold file_at. rewrite Hp by (by apply snoc_last). apply Hl1.
- intros E. exists b. split; [by apply Hr|by apply owners_json].
Qed.

Lemma wp_publish_witness d v owner b fs :
  live fs -> file_at fs (owners_path root name) = Some b -> outside_volume root name d ->
  wp false fs (write_run_owner d v owner false) (fun _ fs' => live fs' /\ file_at fs' (owners_path root name) = Some b).
Proof.
intros Hl Hb Hd. unfold write_run_owner. apply wp_bind. intros w Hw _. split; [|done]. pose proof (create_dir_all_grown d w) as Hg.
unfold on_fs in Hg. rewrite Hw in Hg. pose proof (grown_live _ _ _ Hg Hl) as Hl1. pose proof (grown_file _ _ _ _ _ Hg Hb) as Hb1. destruct (create_dir_all _ w).1 as [[]|e|]; [|by split..]. set (fs1 := w_fs _) in *.
apply wp_bind, wp_lift. destruct (record_to_vec _) as [rb|] eqn:Er; cbn [ok_or]; [|by split]. apply record_json in Er. eapply wp_mono; [by apply wp_replace|]. intros out fs' (Hp & Hd' & _). split.
- intros d' b' r. destruct (decide (run_owner_path d' = d ++ [RUN_OWNER])) as [E|Hne].
  + rewrite E. destruct Hd' as [Eq| ->]; [unfold file_at; rewrite Eq; apply Hl1|]. intros [= <-] E2. rewrite Er in E2. by injection E2 as <-.
  + unfold file_at. rewrite Hp; [apply Hl1|by apply snoc_last|done].
- unfold file_at in *. rewrite Hp; [done|by apply snoc_last|by apply snoc_last].
Qed.

Lemma wf_owned o fs : fs_wf fs -> live fs -> nonce_of o = k -> (exists b f, file_at fs (owners_path root name) = Some b /\ owners_from_slice b = Some f /\ o ∈ owners f) -> owned root name o fs fs.
Proof.
intros Hwf Hl Hk (b & f & Hb & Hf). split; [done| |by exists b, f|by rewrite Hk]. intros p Hp. apply (fs_wf_ancestor _ (owner_dir root name)); [done| |done].
unfold file_at in Hb. destruct (fs !! owners_path root name) as [n|] eqn:E; [|done]. by apply (proj2 Hwf) in E.
Qed.

Lemma replace_wf dir tmp dest data : keeps (on_fs wf_step) (replace_file dir tmp dest data).
Proof. unfold replace_file. solve_keeps. Qed.
End establish.

#[export] Hint Resolve replace_wf : keeps.

Section use.
Context `{B3 : Blake3} `{J : OwnerJson} `{!OwnerJsonLaws J} (stat : Z -> Result bytes) (root : path) (name : bytes).
Implicit Types (fs : gmap path node) (o a : VolumeOwner).

(** What holds when a run has taken the volume. *)
Definition taken (k : bytes) (out : outcome VolumeOwner) fs : Prop :=
  forall a, out = Ret a -> nonce_of a = k /\ live k fs /\ exists b f, file_at fs (owners_path root name) = Some b /\ owners_from_slice b = Some f /\ a ∈ owners f.

Lemma wp_lock_read k fs (g : OwnersFile -> IO VolumeOwner) :
  live k fs -> (forall f fs1, live k fs1 -> wp false fs1 (g f) (taken k)) -> wp false fs (_ ← owner_lock root name; f ← read_owners root name; g f) (taken k).
Proof.
intros Hl Hg. apply wp_bind. intros w Hw _. split; [|done]. pose proof (owner_live_lock root k name w) as Hl1. unfold on_fs, live_step in Hl1. rewrite Hw in Hl1. specialize (Hl1 Hl).
destruct (owner_lock root name w).1 as [[]|e|]; [|done..]. set (fs1 := w_fs (owner_lock root name w).2) in *. apply wp_bind.
assert (wp false fs1 (read_owners root name) (fun _ fs' => fs' = fs1)) as Hread.
{ unfold read_owners. apply wp_bind, wp_exists. destruct (negb _); [by apply wp_ret|]. apply wp_bind, wp_sys0; [|done]. destruct (fs1 !! _) as [[]|]; cbn [fst snd io_err]; try done.
  destruct (owners_from_slice _) as [f|]; [|by apply wp_throw]. destruct (well_formed f); [by apply wp_ret|by apply wp_throw]. }
eapply wp_mono; [exact Hread|]. intros [f|e|] fs' ->; [by apply Hg|done..].
Qed.

Lemma wp_take a f d fs (h : LightrError -> IO VolumeOwner) :
  live (nonce_of a) fs -> a ∈ owners f -> outside_volume root name d -> (forall e w x, (h e w).1 <> Ret x) ->
  wp false fs (_ ← write_owners root name f; r ← try_ (write_run_owner d name a false); match r with Ok _ => mret a | Err e => h e end) (taken (nonce_of a)).
Proof.
intros Hl Ha Hd Hh. apply wp_bind. eapply wp_mono; [by apply (wp_publish_owners root name (nonce_of a))|]. intros [[]|e|] fs2 [Hl2 Hf2]; [|done..]. destruct (Hf2 eq_refl) as (b & Hb & Ef).
apply wp_bind, wp_try. eapply wp_mono; [by apply (wp_publish_witness root name (nonce_of a) d name a b)|]. intros [[]|e|] fs3 [Hl3 Hb3]; [|idtac|done].
- apply wp_ret. intros x [= <-]. split; [done|]. split; [done|]. by exists b, f.
- intros w _ _. split; [|done]. intros x E. by destruct (Hh e w x).
Qed.

Lemma begin_wf d pid now counter : keeps (on_fs wf_step) (begin_owner stat root name d pid now counter).
Proof. unfold begin_owner, begin_locked, owner_lock, read_owners, write_owners, write_run_owner. solve_keeps. Qed.
Lemma activate_wf d nonce run_id pid mount : keeps (on_fs wf_step) (activate_owner stat root name d nonce run_id pid mount).
Proof. unfold activate_owner, owner_lock, read_owners, write_owners, write_run_owner. solve_keeps. Qed.

Lemma taken_owned (m : IO VolumeOwner) k o w w' : m w = (Ret o, w') -> keeps (on_fs wf_step) m -> fs_wf (w_fs w) -> wp false (w_fs w) m (taken k) -> owned root name o (w_fs w') (w_fs w').
Proof.
intros E Hk Hwf H. pose proof (Hk w Hwf) as Hwf'. destruct (H w eq_refl) as [H' _]; [done|]. rewrite E in H', Hwf'. destruct (H' o eq_refl) as (Hn & Hl' & Hfile). by eapply wf_owned.
Qed.

Lemma ends_throw {A B : Type} (m : IO A) (g : A -> IO B) w x : (forall y w', (g y w').1 <> Ret x) -> ((m ≫= g) w).1 <> Ret x.
Proof. intros H. cbv [mbind IO_mbind]. destruct (m w) as [[a|e|] w1]; [apply H|done..]. Qed.

(** When [begin_owner] has returned, the volume is in use. *)
Lemma begin_owned d pid now counter o w w' :
  begin_owner stat root name d pid now counter w = (Ret o, w') -> fs_wf (w_fs w) -> outside_volume root name d -> live (fresh_nonce pid now counter) (w_fs w) ->
  owned root name o (w_fs w') (w_fs w').
Proof.
intros E Hwf Hd Hl. eapply taken_owned; [exact E|apply begin_wf|done|]. unfold begin_owner, begin_locked. apply wp_lock_read; [exact Hl|]. intros f fs1 Hl1.
apply wp_bind, wp_lift. destruct (process_start_token stat pid) as [token|e]; [|done]. cbv zeta. set (a0 := Pending _ _ _). apply (wp_take a0); [done| |done|].
- cbn [owners]. apply elem_of_app. right. by apply list_elem_of_singleton.
- intros e w1 x. apply ends_throw. by intros [[]|e'] w2.
Qed.

(** So it is when [activate_owner] has. *)
Lemma activate_owned d nonce run_id pid mount o w w' :
  activate_owner stat root name d nonce run_id pid mount w = (Ret o, w') -> fs_wf (w_fs w) -> outside_volume root name d -> live nonce (w_fs w) ->
  owned root name o (w_fs w') (w_fs w').
Proof.
intros E Hwf Hd Hl. eapply taken_owned; [exact E|apply activate_wf|done|]. unfold activate_owner. apply wp_lock_read; [exact Hl|]. intros f fs1 Hl1.
apply wp_bind, wp_lift. destruct (position _ _) as [i|] eqn:Ei; cbn [ok_or]; [|done]. apply position_Some in Ei as (x & Hx & _).
apply wp_bind, wp_lift. destruct (process_start_token stat pid) as [token|e]; [|done]. cbv zeta. set (a0 := Active _ _ _ _ _). apply (wp_take a0); [done| |done|].
- cbn [owners]. apply (list_elem_of_lookup_2 _ i), list_lookup_insert_eq. by eapply lookup_lt_Some.
- intros e w1 y. by apply ends_throw.
Qed.
End use.

(** * Runs and commands *)

Inductive vol_cmd :=
  | Begin (n : bytes) (d : path) (pid now counter : Z) | Activate (n : bytes) (d : path) (nonce run_id : bytes) (pid : Z) (mount : bytes) | Abandon (n nonce : bytes)
  | Finish (d : path) | Release (n : bytes) (d : path) | Recover (n : bytes) (home : path)
  | Remove (n : bytes) (in_use : bool) | Prune | CreateVolume (now : Z) (n : bytes) (labels : list (bytes * bytes)) | InspectVolume (n : bytes) | ListVolumes.

Section kept.
Context `{B3 : Blake3} `{J : OwnerJson} `{!OwnerJsonLaws J} (root : path) (name : bytes) (o : VolumeOwner).
Implicit Types (fs : gmap path node).

Definition run_cmd (stat : Z -> Result bytes) (c : vol_cmd) : IO unit :=
  match c with
  | Begin n d pid now counter => _ ← begin_owner stat root n d pid now counter; mret tt
  | Activate n d nonce run_id pid mount => _ ← activate_owner stat root n d nonce run_id pid mount; mret tt
  | Abandon n nonce => abandon_pending root n nonce
  | Finish d => terminal_run_owner d
  | Release n d => release_owner root n d
  | Recover n home => recover stat root n home
  | Remove n in_use => remove stat root n in_use
  | Prune => _ ← prune stat root; mret tt
  | CreateVolume now n labels => _ ← Volume.create root now n labels; mret tt
  | InspectVolume n => _ ← Volume.inspect root n; mret tt
  | ListVolumes => _ ← list_volumes root; mret tt
  end.

(** The command is not that of the run that owns the volume: it neither activates nor abandons
    nor ends it, and the directory of its run is not in the volume. *)
Definition of_other_run fs (c : vol_cmd) : Prop :=
  match c with
  | Begin _ d pid now counter => outside_volume root name d /\ fresh_nonce pid now counter <> nonce_of o
  | Activate _ d nonce _ _ _ => outside_volume root name d /\ nonce <> nonce_of o
  | Abandon _ nonce => nonce <> nonce_of o
  | Finish d => outside_volume root name d /\ forall b r, file_at fs (run_owner_path d) = Some b -> record_from_slice b = Some r -> nonce_of (r_owner r) <> nonce_of o
  | _ => True
  end.

(** Commands of other runs, any number of them, each with failures and kills of its own, while
    the process of the owner is not seen dead. *)
Inductive meanwhile fs : gmap path node -> Prop :=
  | mw_start : meanwhile fs fs
  | mw_step stat c w : meanwhile fs (w_fs w) -> alive o stat -> of_other_run (w_fs w) c -> meanwhile fs (w_fs (run_cmd stat c w).2).

Lemma safe_run fs0 stat c fs : owned root name o fs0 fs -> alive o stat -> of_other_run fs c -> wp false fs (run_cmd stat c) (fun _ fs' => owned root name o fs0 fs').
Proof.
intros Ho Ha Hc. assert (forall A (m : IO A), safe root name o fs0 (fun _ => True) m -> wp false fs (_ ← m; mret tt) (fun _ fs' => owned root name o fs0 fs')) as Hd.
{ intros A m H. eapply wp_mono; [apply (safe_bind_any root name o fs0 (fun _ => True) m (fun _ => mret tt)); [done|intros a; by apply safe_ret|done]|]. by intros out fs' [? _]. }
assert (forall m : IO unit, safe root name o fs0 (fun _ => True) m -> wp false fs m (fun _ fs' => owned root name o fs0 fs')) as Hu by (intros m H; eapply wp_mono; [by apply H|]; by intros out fs' [? _]).
destruct c; cbn [run_cmd of_other_run] in *.
- destruct Hc. apply Hd. by apply safe_begin.
- destruct Hc. apply Hd. by apply safe_activate.
- apply Hu. by apply safe_abandon.
- destruct Hc. by apply safe_finish.
- apply Hu, safe_release.
- apply Hu. by apply safe_recover.
- apply Hu. by apply safe_remove.
- apply Hd. by apply safe_prune.
- apply Hd, safe_create_volume.
- apply Hd, safe_keeps. unfold Volume.inspect, read_info. pose proof (read_stays root name o fs0). pose proof (stays_preorder root name o fs0). solve_keeps.
- apply Hd, safe_keeps. unfold list_volumes, list_one, read_info. pose proof (read_stays root name o fs0). pose proof (read_dir_stays root name o fs0). pose proof (stays_preorder root name o fs0). solve_keeps.
Qed.

Lemma meanwhile_owned fs0 fs fs' : owned root name o fs0 fs -> meanwhile fs fs' -> owned root name o fs0 fs'.
Proof. intros Ho. induction 1 as [|stat c w _ IH Ha Hc]; [done|]. pose proof (safe_run fs0 stat c _ IH Ha Hc) as H. by apply (H w). Qed.
End kept.

(** A run takes the volume: [begin_owner] or [activate_owner] returns its owner, with a nonce
    that no run which has ended used. *)
Inductive takes `{B3 : Blake3} `{J : OwnerJson} (root : path) (name : bytes) (o : VolumeOwner) (w w' : World) : Prop :=
  | takes_begin stat d pid now counter :
      begin_owner stat root name d pid now counter w = (Ret o, w') -> outside_volume root name d -> live (fresh_nonce pid now counter) (w_fs w) -> takes root name o w w'
  | takes_activate stat d nonce run_id pid mount :
      activate_owner stat root name d nonce run_id pid mount w = (Ret o, w') -> outside_volume root name d -> live nonce (w_fs w) -> takes root name o w w'.

(** C10: a volume in use is not removed.  Once [begin_owner] or [activate_owner] has returned an owner,
    no commands of other runs, [remove], [prune] and recovery among them, in any number and order,
    each failing or killed at any call, change the data of the volume or drop the owner, as long as
    its process is not seen dead. *)
Theorem volume_in_use_kept `{B3 : Blake3} `{J : OwnerJson} `{!OwnerJsonLaws J} (root : path) (name : bytes) (o : VolumeOwner) (w w' : World) (fs : gmap path node) :
  takes root name o w w' -> fs_wf (w_fs w) -> meanwhile root name o (w_fs w') fs ->
  (forall p, is_data root name p -> fs !! p = w_fs w' !! p) /\
  exists b f, file_at fs (owners_path root name) = Some b /\ owners_from_slice b = Some f /\ o ∈ owners f.
Proof.
intros Ht Hwf Hm. assert (owned root name o (w_fs w') (w_fs w')) as Ho by (destruct Ht; [by eapply begin_owned|by eapply activate_owned]).
destruct (meanwhile_owned root name o _ _ _ Ho Hm) as [H1 _ H3 _]. by split.
Qed.

(** ** The identity of a process *)

Lemma after_last_app c a b : c ∉ b -> after_last c (a ++ c :: b) = Some b.
Proof.
intros Hb. unfold after_last. rewrite bool_decide_eq_true_2 by set_solver. induction a as [|x a IH]; cbn [app split_on].
- rewrite bool_decide_eq_true_2 by done. assert (split_on c b = [b]) as ->; [|done]. induction b as [|y b IHb]; [done|]. cbn [split_on]. apply not_elem_of_cons in Hb as [Hy Hb].
  rewrite bool_decide_eq_false_2 by done. by rewrite IHb.
- case_bool_decide; [cbn; destruct (split_on c (a ++ c :: b)) eqn:E; [by destruct a; cbn in E; repeat case_match|by rewrite last_cons_cons]|].
  destruct (split_on c (a ++ c :: b)) as [|piece [|piece' pieces]] eqn:E; [done| |by rewrite last_cons_cons in IH |- *].
  exfalso. clear -E. assert (2 <= length (split_on c (a ++ c :: b))) as H; [|rewrite E in H; cbn in H; lia]. clear E. induction a as [|z a IH]; cbn [app split_on].
  + rewrite bool_decide_eq_true_2 by done. cbn. destruct (split_on c b) eqn:Eb; [by destruct b; cbn in Eb; repeat case_match|cbn; lia].
  + case_bool_decide; [cbn; lia|]. destruct (split_on c (a ++ c :: b)); cbn in *; lia.
Qed.

(** The name of a program, whatever it contains, does not shift the field that identifies its
    process. *)
Lemma token_ignores_name stat pid head fields :
  (0 < pid)%Z -> stat pid = Ok (head ++ x29 :: fields) -> utf8_valid (head ++ x29 :: fields) = true -> x29 ∉ fields ->
  process_start_token stat pid =
    match split_whitespace fields !! 19%nat with
    | Some start => if forallb is_ascii_digit start then Ok (str "linux:" ++ dec pid ++ str ":" ++ start) else Err (malformed_stat pid)
    | None => Err (malformed_stat pid)
    end.
Proof.
intros Hp Hs Hu Hf. unfold process_start_token. rewrite (proj2 (Z.leb_gt _ _) Hp), Hs, Hu. cbn [negb]. rewrite after_last_app by done. by destruct (_ !! 19%nat).
Qed.

(** * Examples *)

Definition owner_tuple (o : VolumeOwner) : bytes * Z * bytes + bytes * bytes * Z * bytes * bytes :=
  match o with Pending n p t => inl (n, p, t) | Active n r p t m => inr (n, r, p, t, m) end.
Definition tuple_owner (x : bytes * Z * bytes + bytes * bytes * Z * bytes * bytes) : VolumeOwner :=
  match x with inl (n, p, t) => Pending n p t | inr (n, r, p, t, m) => Active n r p t m end.

#[export] Instance toy_owner_json : OwnerJson := {|
  owners_to_vec f := toy_to (version f, List.map owner_tuple (owners f));
  owners_from_slice b := match toy_from (A := Z * list (bytes * Z * bytes + bytes * bytes * Z * bytes * bytes)) b with Some (v, l) => Some (mkOwners v (List.map tuple_owner l)) | None => None end;
  record_to_vec r := toy_to (r_volume r, owner_tuple (r_owner r), terminal r);
  record_from_slice b := match toy_from (A := bytes * (bytes * Z * bytes + bytes * bytes * Z * bytes * bytes) * bool) b with Some (v, o, t) => Some (mkRecord v (tuple_owner o) t) | None => None end;
|}.

Lemma tuple_owner_of o : tuple_owner (owner_tuple o) = o.
Proof. by destruct o. Qed.

#[export] Instance toy_owner_json_laws : OwnerJsonLaws toy_owner_json.
Proof.
split; cbn; try (intros ? _; by eexists).
- intros [v l] b E. destruct (toy_round (v, List.map owner_tuple l)) as (b' & E1 & E2). cbn in *. rewrite E in E1. injection E1 as <-. rewrite E2. rewrite map_map. do 2 f_equal.
  rewrite <- (map_id l) at 2. apply map_ext, tuple_owner_of.
- intros [v o t] b E. destruct (toy_round (v, owner_tuple o, t)) as (b' & E1 & E2). cbn in *. rewrite E in E1. injection E1 as <-. rewrite E2. by rewrite tuple_owner_of.
Qed.

(** A process with a misleading name; no other process is there. *)
Definition demo_stat (pid : Z) : Result bytes :=
  if (pid =? 7)%Z then Ok (str "7 (a) b) S 1 2 3 4 5 6 7 8 9 10 11 12 13 14 15 16 17 18 4242 20") else Err (Io NotFoundKind).
Definition no_process (pid : Z) : Result bytes := Err (Io NotFoundKind).

Definition demo_run : path := [str "run"; str "r1"].
Definition calm (fs : gmap path node) : World := mkWorld fs [] 7 0.
Definition with_volume : World := (Volume.create demo_root 1700000000 (str "db") [] (calm demo_volumes)).2.
Definition demo_begin (w : World) : outcome VolumeOwner * World := begin_owner demo_stat demo_root (str "db") demo_run 7 0 0 w.
Definition demo_owner : VolumeOwner := Pending (fresh_nonce 7 0 0) 7 (str "linux:7:4242").
Definition in_use_world : World := (demo_begin with_volume).2.

(** [remove], failing at its sixth call, and then [prune]. *)
Definition removal_fails : World := mkWorld (w_fs in_use_world) (replicate 5 FOk ++ [FErr 0]) 8 0.
Definition after_remove : World := calm (w_fs (run_cmd demo_root demo_stat (Remove (str "db") false) removal_fails).2).

Lemma volume_in_use_kept_witness :
  takes demo_root (str "db") demo_owner with_volume in_use_world /\ (remove demo_stat demo_root (str "db") false in_use_world).1 = Throw (in_use_error (str "db")) /\
  w_fs (run_cmd demo_root demo_stat Prune after_remove).2 !! data_dir demo_root (str "db") = Some NDir.
Proof.
assert (takes demo_root (str "db") demo_owner with_volume in_use_world) as Ht.
{ apply (takes_begin _ _ _ _ _ demo_stat demo_run 7 0 0).
  - change (demo_begin with_volume = (Ret demo_owner, (demo_begin with_volume).2)). apply run_split. vm_compute. reflexivity.
  - split; [by_eval|vm_compute; discriminate].
  - intros d b r E. exfalso. assert (map_Forall (fun p _ => last p <> Some RUN_OWNER) (w_fs with_volume)) as H by by_eval. unfold file_at in E.
    destruct (w_fs with_volume !! run_owner_path d) as [n|] eqn:En; [|discriminate E]. apply (H _ _ En). unfold run_owner_path. apply last_snoc. }
split; [exact Ht|]. split; [vm_compute; reflexivity|].
destruct (volume_in_use_kept demo_root (str "db") demo_owner with_volume in_use_world (w_fs (run_cmd demo_root demo_stat Prune after_remove).2) Ht) as [H _].
- apply fs_wf_check; [vm_compute; reflexivity|by_eval].
- apply mw_step; [|vm_compute; discriminate|exact I]. change (w_fs after_remove) with (w_fs (run_cmd demo_root demo_stat (Remove (str "db") false) removal_fails).2).
  apply mw_step; [|vm_compute; discriminate|exact I]. apply mw_start.
- rewrite H; [vm_compute; reflexivity|]. split; by_eval.
Defined.

(** The whole life of an owner, and the removal of the volume after it. *)
Example lifecycle :
  ((_ ← activate_owner demo_stat demo_root (str "db") demo_run (fresh_nonce 7 0 0) (str "r1") 7 (str "db:/data");
    early ← try_ (release_owner demo_root (str "db") demo_run);
    _ ← terminal_run_owner demo_run;
    busy ← try_ (remove demo_stat demo_root (str "db") false);
    _ ← release_owner demo_root (str "db") demo_run;
    _ ← remove demo_stat demo_root (str "db") false;
    mret (early, busy)) in_use_world).1 =
  Ret (Err (InvalidRef (str "volume db: terminal owner record required")), Err (in_use_error (str "db"))).
Proof. vm_compute. reflexivity. Qed.

(** A volume that is removed after the run has looked at it and before it takes it comes back
    as a directory without data: [begin_owner] succeeds, the volume cannot be inspected, and
    its name cannot be used again. *)
Theorem removed_before_begin :
  let w := (remove demo_stat demo_root (str "db") false with_volume).2 in
  (Volume.inspect demo_root (str "db") with_volume).1 <> Throw (Io NotFoundKind) /\ (remove demo_stat demo_root (str "db") false with_volume).1 = Ret tt /\
  (demo_begin w).1 = Ret demo_owner /\ (Volume.inspect demo_root (str "db") (demo_begin w).2).1 = Throw (Io NotFoundKind) /\
  (Volume.create demo_root 1700000001 (str "db") [] (demo_begin w).2).1 = Throw (InvalidRef (str "volume already exists: db")).
Proof. cbv zeta. split; [vm_compute; discriminate|]. repeat split; vm_compute; reflexivity. Qed.

(** A run that is killed between its two records leaves an owner that no recovery can judge:
    although its process is gone the volume can be neither removed nor pruned. *)
Definition killed_in_begin : World := (demo_begin (mkWorld (w_fs with_volume) (replicate 7 FOk ++ [FCrash 0]) 7 0)).2.

Theorem killed_begin_blocks_removal :
  (demo_begin (mkWorld (w_fs with_volume) (replicate 7 FOk ++ [FCrash 0]) 7 0)).1 = Crashed /\
  (remove no_process demo_root (str "db") false (calm (w_fs killed_in_begin))).1 = Throw (ambiguous (str "db")) /\
  (recover no_process demo_root (str "db") [] (calm (w_fs killed_in_begin))).1 = Throw (ambiguous (str "db")) /\
  (prune no_process demo_root (calm (w_fs killed_in_begin))).1 = Ret [].
Proof. repeat split; vm_compute; reflexivity. Qed.
