(* ===== verification/Network.v ===== *)
(** The network registry (crates/lightr-run/src/network: types.rs, alloc.rs, fsutil.rs,
    registry.rs, ipam.rs, bridge.rs) and the commands over it: the addresses of the members
    of a network, kept in two JSON files under a lock.  serde_json is the class [NetJson];
    the clock of the staging names is an argument. *)

From S2P Require Import Prelude Text Error Digest Fs FsFacts OwnedTemp Calm Hydrate Dhcp Wp.

(** * Data (types.rs) *)

Record Member := mkMember {
  m_name : bytes; m_aliases : list bytes; m_mac : bytes; m_ip : bytes; m_ports : list (Z * Z) }.

(** serde_json on the two on-disk shapes; writing can fail. *)
Class NetJson := {
  subnet_to_vec : Subnet -> option bytes;
  subnet_from_slice : bytes -> option Subnet;
  members_to_vec : list Member -> option bytes;
  members_from_slice : bytes -> option (list Member);
}.

(** What the Rust types of the fields admit: arrays of their lengths, ports of 16 bits,
    strings in UTF-8. *)
Definition member_repr (m : Member) : Prop :=
  utf8_valid (m_name m) = true /\ Forall (fun a => utf8_valid a = true) (m_aliases m) /\
  length (m_mac m) = 6 /\ length (m_ip m) = 4 /\ Forall (fun p => u16 p.1 /\ u16 p.2) (m_ports m).

Definition subnet_repr (s : Subnet) : Prop := length (base s) = 4 /\ length (gateway s) = 4 /\ (0 <= prefix s < 256)%Z.

(** What serde documents of derived implementations: writing such a value succeeds, and
    reading gives it back. *)
Class NetJsonLaws (J : NetJson) : Prop := {
  subnet_json : forall s, subnet_repr s -> exists b, subnet_to_vec s = Some b /\ subnet_from_slice b = Some s;
  members_json : forall ms, Forall member_repr ms -> exists b, members_to_vec ms = Some b /\ members_from_slice b = Some ms;
}.

(** * Allocation (alloc.rs) *)

Section alloc.
Context `{B3 : Blake3}.

(** [h.as_bytes()[i]]; the hash has 32 bytes. *)
Definition hash_byte (h : digest) (i : nat) : byte := default x00 (h !! i).

Definition subnet_for (id : bytes) : Subnet :=
  let k := hash_byte (blake3_hash id) 0 in
  mkSubnet [x0a; x45; k; x00] 24 [x0a; x45; k; x01].

Definition mac_for (name : bytes) : bytes :=
  let b := blake3_hash name in
  [x0a; x00; x00; hash_byte b 0; hash_byte b 1; hash_byte b 2].
End alloc.

(** * Files (fsutil.rs) *)

(** [FlockGuard::acquire]; blocking and the release are not modelled. *)
Definition acquire (lock_path : path) (exclusive : bool) : IO unit :=
  _ ← open_create lock_path;
  sync.

Definition process_id : IO Z := fun w => (Ret (w_pid w), w).

(** [format!(".tmp-{}-{}", pid, nanos)]. *)
Definition net_tmp (pid nanos : Z) : bytes := str ".tmp-" ++ dec pid ++ str "-" ++ dec nanos.

(** [atomic_write] of this crate: the staging file is not reserved and not removed. *)
Definition net_atomic_write (now : Z) (parent dest : path) (data : bytes) : IO unit :=
  _ ← create_dir_all parent;
  pid ← process_id;
  let tmp := parent ++ [net_tmp pid now] in
  _ ← write_staged tmp data;
  _ ← rename tmp dest;
  fsync_dir parent.

(** * The registry (registry.rs) *)

Record NetworkRegistry := mkReg { reg_dir : path; reg_subnet : Subnet }.

Definition LOCK : bytes := str ".lock".
Definition SUBNET : bytes := str "subnet.json".
Definition MEMBERS : bytes := str "members.json".

Definition net_root (home : path) : path := home ++ [str "net"].
Definition dir_for (home : path) (id : bytes) : path := join (net_root home) id.
Definition lock_path (r : NetworkRegistry) : path := reg_dir r ++ [LOCK].
Definition subnet_path (r : NetworkRegistry) : path := reg_dir r ++ [SUBNET].
Definition members_path (r : NetworkRegistry) : path := reg_dir r ++ [MEMBERS].

(** The host addresses of the loop [2u8..=254]. *)
Definition host_ip (s : Subnet) (host : Z) : bytes := take 3 (base s) ++ [byte_of_Z host].
Definition hosts : list Z := seqZ 2 253.

Definition next_free_ip (r : NetworkRegistry) (members : list Member) : Result bytes :=
  let s := reg_subnet r in
  ok_or (find (fun c => negb (bool_decide (c = gateway s)) && forallb (fun m => negb (bool_decide (m_ip m = c))) members)
              (host_ip s <$> hosts))
        (Io OtherKind).

Section registry.
Context `{B3 : Blake3} `{J : NetJson}.

Definition read_members (r : NetworkRegistry) : IO (list Member) :=
  e ← exists_ (members_path r);
  if negb (e : bool) then mret [] else
  bs ← read (members_path r);
  lift (ok_or (members_from_slice bs) (Io InvalidData)).

Definition write_members (now : Z) (r : NetworkRegistry) (members : list Member) : IO unit :=
  bs ← lift (ok_or (members_to_vec members) (Io OtherKind));
  net_atomic_write now (reg_dir r) (members_path r) bs.

Definition open (home : path) (id : bytes) : IO NetworkRegistry :=
  let dir := dir_for home id in
  let subnet_path := dir ++ [SUBNET] in
  e ← exists_ subnet_path;
  if negb (e : bool) then throw (Io NotFoundKind) else
  bs ← read subnet_path;
  sub ← lift (ok_or (subnet_from_slice bs) (Io InvalidData));
  mret (mkReg dir sub).

(** [now] and [now'] are the clock at the two writes. *)
Definition create (now now' : Z) (home : path) (id : bytes) : IO NetworkRegistry :=
  let dir := dir_for home id in
  e ← exists_ (dir ++ [SUBNET]);
  if (e : bool) then open home id else
  _ ← create_dir_all dir;
  let reg := mkReg dir (subnet_for id) in
  _ ← acquire (lock_path reg) true;
  e ← exists_ (dir ++ [SUBNET]);
  if (e : bool) then open home id else
  sub_bytes ← lift (ok_or (subnet_to_vec (reg_subnet reg)) (Io OtherKind));
  _ ← net_atomic_write now (reg_dir reg) (subnet_path reg) sub_bytes;
  _ ← write_members now' reg [];
  mret reg.

Definition join_network (now : Z) (r : NetworkRegistry) (name : bytes) (aliases : list bytes) (ports : list (Z * Z)) : IO Member :=
  _ ← acquire (lock_path r) true;
  members ← read_members r;
  match find (fun m => bool_decide (m_name m = name)) members with
  | Some existing => mret existing
  | None =>
      ip ← lift (next_free_ip r members);
      let member := mkMember name aliases (mac_for name) ip ports in
      _ ← write_members now r (members ++ [member]);
      mret member
  end.

Definition leave (now : Z) (r : NetworkRegistry) (name : bytes) : IO nat :=
  _ ← acquire (lock_path r) true;
  members ← read_members r;
  let members := filter (fun m => m_name m <> name) members in
  _ ← write_members now r members;
  mret (length members).

Definition members_of (r : NetworkRegistry) : IO (list Member) :=
  _ ← acquire (lock_path r) false;
  read_members r.

Definition list_networks (home : path) : IO (list bytes) :=
  let root := net_root home in
  e ← exists_ root;
  if negb (e : bool) then mret [] else
  names ← read_dir root;
  fs ← get_fs;
  mret (sort_by bytes_leb
    (filter (fun c => is_dir fs (root ++ [c]) && node_exists fs (root ++ [c] ++ [SUBNET]) && utf8_valid c = true) names)).

(** [BridgeCreate::create_network] (bridge.rs). *)
Definition create_network (now now' : Z) (home : path) (name : bytes) (driver : option bytes) : IO unit :=
  let drv := default (str "bridge") driver in
  if negb (bool_decide (drv = str "bridge")) && negb (bool_decide (drv = str "overlay")) then throw (Io InvalidInput) else
  _ ← create now now' home name;
  mret tt.
End registry.

(** [IpamAllocator::is_available] (ipam.rs). *)
Definition is_available (s : Subnet) (candidate : bytes) (taken : list bytes) : bool :=
  if bool_decide (candidate = gateway s) then false else
  if bool_decide (candidate !! 3 = Some x00) then false else
  if bool_decide (candidate !! 3 = Some xff) then false else
  forallb (fun t => negb (bool_decide (t = candidate))) taken.

(** * The commands *)

(** What the processes that use a network do: a run joins the network it names
    (run/svz.rs), a finished run leaves it ([detach] of vswitch/switch_host.rs), the switch
    and [network inspect] read the members. *)
#[export] Instance Member_eq_dec : EqDecision Member.
Proof. solve_decision. Defined.

Inductive net_op :=
  | Attach (name : bytes) (aliases : list bytes) (ports : list (Z * Z))
  | Detach (name : bytes)
  | Inspect.

Inductive answer := AMember (m : Member) | ACount (n : nat) | AMembers (ms : list Member) | AError (k : ErrorKind).

Section commands.
Context `{B3 : Blake3} `{J : NetJson}.

Definition attach (t1 t2 t3 : Z) (home : path) (id name : bytes) (aliases : list bytes) (ports : list (Z * Z)) : IO Member :=
  reg ← create t1 t2 home id;
  join_network t3 reg name aliases ports.

Definition detach (now : Z) (home : path) (id name : bytes) : IO nat :=
  reg ← open home id;
  leave now reg name.

Definition inspect_members (home : path) (id : bytes) : IO (list Member) :=
  reg ← open home id;
  members_of reg.

Definition net_impl (t1 t2 t3 : Z) (home : path) (id : bytes) (op : net_op) : IO answer :=
  match op with
  | Attach n al po => m ← attach t1 t2 t3 home id n al po; mret (AMember m)
  | Detach n => k ← detach t1 home id n; mret (ACount k)
  | Inspect => ms ← inspect_members home id; mret (AMembers ms)
  end.

(** [network rm] (lightr-cli's handlers/network.rs) up to its last call, and that call,
    which no lock covers. *)
Definition PREDEFINED : list (bytes * bytes) := [(str "bridge", str "bridge"); (str "host", str "host"); (str "none", str "null")].
Definition is_predefined (name : bytes) : bool := bool_decide (name ∈ PREDEFINED.*1).

Definition rm_check (home : path) (name : bytes) : IO unit :=
  if is_predefined name then
    throw (InvalidRef (str "network '" ++ name ++ str "' is a predefined network and cannot be removed"))
  else
    r ← try_ (open home name);
    reg ← match r with Ok reg => mret reg | Err _ => throw (RefNotFound (str "network " ++ name)) end;
    members ← members_of reg;
    if negb (bool_decide (members = [])) then throw (Io OtherKind) else mret tt.

Definition rm_remove (home : path) (name : bytes) : IO unit := remove_dir_all (dir_for home name).

Definition rm_one (home : path) (name : bytes) : IO unit := _ ← rm_check home name; rm_remove home name.
End commands.

(** * The files of a network *)

Definition own_name (c : bytes) : Prop := is_tmp_name c = true \/ c ∈ [LOCK; SUBNET; MEMBERS].

(** A file, or nothing. *)
Definition leaf (fs : gmap path node) (p : path) : Prop := match fs !! p with None | Some (NFile _ _) => True | _ => False end.

Section tree.
Context (dir : path).
Implicit Types (fs : gmap path node) (c : bytes).

(** A tree in which the network can be or is: the directories above it are directories or
    free, and the registry's names in it are files or free. *)
Record net_tree (fs : gmap path node) : Prop := {
  nt_wf : fs_wf fs;
  nt_dirs : dirs_ok dir fs;
  nt_leaf c : own_name c -> leaf fs (dir ++ [c]);
}.

(** Nothing else changed. *)
Definition outside : relation (gmap path node) := fun fs fs' =>
  forall p, ~ p `prefix_of` dir -> (forall c, own_name c -> p <> dir ++ [c]) -> fs' !! p = fs !! p.

(** The tree [fs], reached from [fs0], with the given contents of the two files. *)
Record net_at (fs0 : gmap path node) (st : bytes -> option bytes) (fs : gmap path node) : Prop := {
  at_tree : net_tree fs;
  at_out : outside fs0 fs;
  at_files c : c ∈ [SUBNET; MEMBERS] -> file_at fs (dir ++ [c]) = st c;
}.

Definition upd (c : bytes) (data : bytes) (st : bytes -> option bytes) : bytes -> option bytes :=
  fun x => if decide (x = c) then Some data else st x.

Lemma own_tmp pid now : own_name (net_tmp pid now).
Proof. left. unfold is_tmp_name, net_tmp. rewrite take_app_length' by reflexivity. by rewrite bool_decide_eq_true_2. Qed.

Lemma tmp_not_file pid now c : c ∈ [LOCK; SUBNET; MEMBERS] -> net_tmp pid now <> c.
Proof. intros Hc E. rewrite <- E, !elem_of_cons, elem_of_nil in Hc. naive_solver. Qed.

Lemma snoc_not_prefix c : ~ dir ++ [c] `prefix_of` dir.
Proof. intros [k E]. apply (f_equal length) in E. rewrite !length_app in E. cbn in E. lia. Qed.

Lemma leaf_not_dir fs p : leaf fs p -> fs !! p <> Some NDir.
Proof. unfold leaf. by intros H E; rewrite E in H. Qed.

Lemma dir_of_file fs c x m : fs_wf fs -> fs !! (dir ++ [c]) = Some (NFile x m) -> fs !! dir = Some NDir.
Proof. intros [_ H]. apply H. Qed.

(** A name of the registry is written or removed. *)
Lemma net_at_write fs0 st fs c x m :
  net_at fs0 st fs -> fs !! dir = Some NDir -> own_name c ->
  net_at fs0 (if decide (c ∈ [SUBNET; MEMBERS]) then upd c x st else st) (<[dir ++ [c] := NFile x m]> fs) /\
  <[dir ++ [c] := NFile x m]> fs !! dir = Some NDir.
Proof.
intros [[Hwf Hok Hl] Ho Hf] Hd Hc. assert (dir ++ [c] <> dir) as Hne by apply snoc_ne.
assert (<[dir ++ [c] := NFile x m]> fs !! dir = Some NDir) as Hd' by (by rewrite lookup_insert_ne).
split; [|done]. split; [split| |].
- apply fs_wf_insert; [done|by apply leaf_not_dir, Hl|by rewrite parent_snoc].
- intros p Hp. rewrite lookup_insert_ne; [by apply Hok|]. intros <-. by apply (snoc_not_prefix c).
- intros c' Hc'. unfold leaf. rewrite lookup_insert. case_decide; [done|]. by apply Hl.
- intros p Hp Hpc. rewrite lookup_insert_ne; [by apply Ho|]. intros <-. by apply (Hpc c).
- intros c' Hc'. rewrite file_at_insert. destruct (decide (dir ++ [c'] = dir ++ [c])) as [E|E].
  + apply app_inv_head in E as [= ->]. rewrite decide_True by done. unfold upd. by rewrite decide_True.
  + rewrite Hf by done. case_decide; [|done]. unfold upd. rewrite decide_False; [done|]. by intros ->.
Qed.

Lemma net_at_unlink fs0 st fs c :
  net_at fs0 st fs -> fs !! dir = Some NDir -> own_name c -> c ∉ [SUBNET; MEMBERS] ->
  net_at fs0 st (delete (dir ++ [c]) fs) /\ delete (dir ++ [c]) fs !! dir = Some NDir.
Proof.
intros [[Hwf Hok Hl] Ho Hf] Hd Hc Hn. assert (dir ++ [c] <> dir) as Hne by apply snoc_ne.
split; [|by rewrite lookup_delete_ne]. split; [split| |].
- pose proof (Hl c Hc) as Hlc. apply fs_wf_delete; [done|by intros [_ ?]%app_nil|].
  intros c'. destruct (fs !! ((dir ++ [c]) ++ [c'])) eqn:E; [|done]. apply Hwf in E. by apply leaf_not_dir in Hlc.
- intros p Hp. rewrite lookup_delete_ne; [by apply Hok|]. intros <-. by apply (snoc_not_prefix c).
- intros c' Hc'. unfold leaf. rewrite lookup_delete. case_decide; [done|]. by apply Hl.
- intros p Hp Hpc. rewrite lookup_delete_ne; [by apply Ho|]. intros <-. by apply (Hpc c).
- intros c' Hc'. rewrite file_at_delete. case_decide as E; [|by apply Hf]. by apply app_inv_head in E as [= ->].
Qed.

Lemma net_at_mkdir fs0 st fs p :
  net_at fs0 st fs -> p `prefix_of` dir -> fs !! p = None -> fs !! parent_path p = Some NDir -> p <> [] ->
  net_at fs0 st (<[p := NDir]> fs).
Proof.
intros [[Hwf Hok Hl] Ho Hf] Hp Hn Hpar Hne. assert (forall c, dir ++ [c] <> p) as Hpc by (intros c <-; by apply (snoc_not_prefix c)).
split; [split| |].
- by apply fs_wf_insert; [|rewrite Hn|].
- intros p' Hp'. rewrite lookup_insert. case_decide; [by right|]. by apply Hok.
- intros c Hc. unfold leaf. rewrite lookup_insert_ne by (intros E; by apply (Hpc c)). by apply Hl.
- intros p' Hp' Hc. rewrite lookup_insert_ne by congruence. by apply Ho.
- intros c Hc. rewrite file_at_insert, decide_False by apply Hpc. by apply Hf.
Qed.

(** ** Calls *)

Context (q : bool) (fs0 : gmap path node).

(** The ends of a computation that may fail before it has done anything to the files. *)
Definition fails {A : Type} (P : gmap path node -> Prop) (Q : outcome A -> gmap path node -> Prop) : Prop :=
  q = false -> forall fs e, P fs -> Q (Throw e) fs /\ Q Crashed fs.

Lemma wp_mkdirs (st : bytes -> option bytes) fs (Q : outcome unit -> gmap path node -> Prop) :
  net_at fs0 st fs -> (forall fs', net_at fs0 st fs' -> fs' !! dir = Some NDir -> Q (Ret tt) fs') -> fails (net_at fs0 st) Q ->
  wp q fs (create_dir_all dir) Q.
Proof.
intros Hat HQ Hf. unfold create_dir_all.
assert (forall rest done fs, dir = done ++ rest -> net_at fs0 st fs -> fs !! done = Some NDir -> wp q fs (mkdir_below done rest) Q) as H.
{ clear fs Hat. induction rest as [|c rest IH]; intros done_ fs E Hat Hd; cbn [mkdir_below].
  - rewrite app_nil_r in E. subst. apply wp_ret. by apply HQ.
  - apply wp_bind, wp_get_fs. assert (done_ ++ [c] `prefix_of` dir) as Hp by (exists rest; rewrite E, <- app_assoc; done).
    assert (dir = (done_ ++ [c]) ++ rest) as E' by (by rewrite <- app_assoc). apply wp_bind.
    destruct (nt_dirs _ (at_tree _ _ _ Hat) _ Hp) as [Hn|Hn]; rewrite Hn.
    + assert (net_at fs0 st (<[done_ ++ [c] := NDir]> fs)) as Hat'.
      { apply net_at_mkdir; [done|done|done|by rewrite parent_snoc|]. by intros [_ ?]%app_nil. }
      apply wp_sys0; [|intros Hq; exact (Hf Hq _ _ Hat)]. rewrite Hn, parent_snoc, (proj2 (is_dir_true fs done_) Hd).
      apply IH; [done|done|]. apply lookup_insert_eq.
    + apply wp_ret. by apply IH. }
apply H; [done|done|]. apply (at_tree _ _ _ Hat).
Qed.

(** Taking the lock leaves the files alone. *)
Lemma wp_acquire (st : bytes -> option bytes) (ex : bool) fs (Q : outcome unit -> gmap path node -> Prop) :
  net_at fs0 st fs -> fs !! dir = Some NDir ->
  (forall fs', net_at fs0 st fs' -> fs' !! dir = Some NDir -> Q (Ret tt) fs') -> fails (net_at fs0 st) Q ->
  wp q fs (acquire (dir ++ [LOCK]) ex) Q.
Proof.
intros Hat Hd HQ Hf. apply wp_bind. assert (own_name LOCK) as Hown by (right; apply list_elem_of_here).
apply wp_sys0; [|intros Hq; exact (Hf Hq _ _ Hat)]. pose proof (nt_leaf _ (at_tree _ _ _ Hat) LOCK Hown) as Hl. unfold leaf in Hl.
assert (forall fs', net_at fs0 st fs' -> fs' !! dir = Some NDir -> wp q fs' sync Q) as Hs.
{ intros fs' H1 H2. apply wp_sync; [by apply HQ|intros Hq; by apply (Hf Hq)]. }
destruct (fs !! (dir ++ [LOCK])) as [[x m| |t]|] eqn:E; [by apply Hs|done|done|].
rewrite parent_snoc, (proj2 (is_dir_true fs dir) Hd). destruct (net_at_write fs0 st fs LOCK [] CREATE_MODE Hat Hd Hown) as [H1 H2].
rewrite decide_False in H1 by (rewrite !elem_of_cons, elem_of_nil; naive_solver). by apply Hs.
Qed.

(** The staged file is renamed onto its destination. *)
Lemma wp_net_publish (st : bytes -> option bytes) (t c data : bytes) (m : Z) fs (Q : outcome unit -> gmap path node -> Prop) :
  net_at fs0 st fs -> fs !! dir = Some NDir -> own_name t -> t ∉ [SUBNET; MEMBERS] -> c ∈ [SUBNET; MEMBERS] ->
  fs !! (dir ++ [t]) = Some (NFile data m) ->
  (forall fs', net_at fs0 (upd c data st) fs' -> fs' !! dir = Some NDir -> Q (Ret tt) fs') ->
  fails (net_at fs0 st) Q -> fails (net_at fs0 (upd c data st)) Q ->
  wp q fs (_ ← rename (dir ++ [t]) (dir ++ [c]); fsync_dir dir) Q.
Proof.
intros Hat Hd Ht Htf Hc Hfile HQ Hold Hnew. apply wp_bind, wp_sys0; [|intros Hq; exact (Hold Hq _ _ Hat)]. rewrite Hfile.
assert (own_name c) as Hoc by (right; by apply list_elem_of_further).
pose proof (leaf_not_dir _ _ (nt_leaf _ (at_tree _ _ _ Hat) c Hoc)) as Hnd.
destruct (net_at_unlink fs0 st _ t Hat Hd Ht Htf) as [Hat2 Hd2].
destruct (net_at_write fs0 st _ c data m Hat2 Hd2 Hoc) as [Hat3 Hd3]. rewrite decide_True in Hat3 by done.
set (fs3 := <[dir ++ [c] := NFile data m]> (delete (dir ++ [t]) fs)) in *.
rewrite parent_snoc, (proj2 (is_dir_true fs dir) Hd). fold fs3.
assert (wp q fs3 (fsync_dir dir) Q) as Hend.
{ apply wp_bind, wp_sys0; [|intros Hq; exact (Hnew Hq _ _ Hat3)]. rewrite Hd3. apply wp_sync; [by apply HQ|intros Hq; exact (Hnew Hq _ _ Hat3)]. }
by destruct (fs !! (dir ++ [c])) as [[]|].
Qed.

(** The staged file is written; whatever was left of an earlier one is overwritten. *)
Lemma wp_net_stage (st : bytes -> option bytes) (t data : bytes) fs (Q : outcome unit -> gmap path node -> Prop) :
  net_at fs0 st fs -> fs !! dir = Some NDir -> own_name t -> t ∉ [SUBNET; MEMBERS] ->
  (forall fs' m, net_at fs0 st fs' -> fs' !! dir = Some NDir -> fs' !! (dir ++ [t]) = Some (NFile data m) -> Q (Ret tt) fs') ->
  fails (net_at fs0 st) Q -> wp q fs (write_staged (dir ++ [t]) data) Q.
Proof.
intros Hat Hd Ht Htf HQ Hf. unfold write_staged. apply wp_bind, wp_sys0; [|intros Hq; exact (Hf Hq _ _ Hat)].
assert (forall fs x m, net_at fs0 st fs -> fs !! dir = Some NDir ->
  net_at fs0 st (<[dir ++ [t] := NFile x m]> fs) /\ <[dir ++ [t] := NFile x m]> fs !! dir = Some NDir) as Hput.
{ clear fs Hat Hd. intros fs x m Hat Hd. pose proof (net_at_write fs0 st fs t x m Hat Hd Ht) as H. by rewrite decide_False in H. }
assert (forall fs, net_at fs0 st fs -> fs !! dir = Some NDir -> (exists m, fs !! (dir ++ [t]) = Some (NFile [] m)) ->
  wp q fs (_ ← write_all (dir ++ [t]) data; sync) Q) as Hrest.
{ clear fs Hat Hd. intros fs Hat Hd [m Hm].
  assert (forall d, append_at (dir ++ [t]) d fs = <[dir ++ [t] := NFile d m]> fs) as Happ by (intros d; unfold append_at; by rewrite Hm).
  apply wp_bind, wp_sys; [|intros Hq n; rewrite Happ; exact (Hf Hq _ _ (proj1 (Hput fs _ m Hat Hd)))].
  cbv beta iota. rewrite Happ. destruct (Hput fs data m Hat Hd) as [Hat1 Hd1].
  apply wp_sync; [|intros Hq; exact (Hf Hq _ _ Hat1)]. by eapply HQ, lookup_insert_eq. }
pose proof (nt_leaf _ (at_tree _ _ _ Hat) t Ht) as Hl. unfold leaf in Hl.
destruct (fs !! (dir ++ [t])) as [[x m| |g]|] eqn:E; [|done|done|].
- destruct (Hput fs [] m Hat Hd) as [H1 H2]. apply Hrest; [done|done|]. exists m. apply lookup_insert_eq.
- rewrite parent_snoc, (proj2 (is_dir_true fs dir) Hd). destruct (Hput fs [] CREATE_MODE Hat Hd) as [H1 H2].
  apply Hrest; [done|done|]. eexists. apply lookup_insert_eq.
Qed.

(** A file is replaced at once: an interrupted write leaves the old content or the new. *)
Lemma wp_net_write (st : bytes -> option bytes) (now : Z) c (data : bytes) fs (Q : outcome unit -> gmap path node -> Prop) :
  net_at fs0 st fs -> c ∈ [SUBNET; MEMBERS] ->
  (forall fs', net_at fs0 (upd c data st) fs' -> fs' !! dir = Some NDir -> Q (Ret tt) fs') ->
  fails (fun fs' => net_at fs0 st fs' \/ net_at fs0 (upd c data st) fs') Q ->
  wp q fs (net_atomic_write now dir (dir ++ [c]) data) Q.
Proof.
intros Hat Hc HQ Hf. assert (fails (net_at fs0 st) Q) as Hold by (intros Hq fs' e H; apply (Hf Hq); by left).
assert (fails (net_at fs0 (upd c data st)) Q) as Hnew by (intros Hq fs' e H; apply (Hf Hq); by right).
unfold net_atomic_write. apply wp_bind, (wp_mkdirs st); [done| |exact Hold]. clear fs Hat. intros fs Hat Hd.
apply wp_bind, wp_any. intros pid. cbv zeta. pose proof (own_tmp pid now) as Ht.
assert (net_tmp pid now ∉ [SUBNET; MEMBERS]) as Htf.
{ intros H. apply (tmp_not_file pid now (net_tmp pid now)); [|done]. by apply list_elem_of_further. }
apply wp_bind, (wp_net_stage st); [done|done|done|done| |exact Hold]. intros fs' m Hat' Hd' Hfile. by apply (wp_net_publish st (net_tmp pid now) c data m).
Qed.
End tree.

(** * Addresses *)

Lemma hosts_spec h : h ∈ hosts <-> (2 <= h <= 254)%Z.
Proof. unfold hosts. rewrite elem_of_seqZ. lia. Qed.

Section addresses.
Context (s : Subnet).

Lemma host_ip_inj h h' : h ∈ hosts -> h' ∈ hosts -> host_ip s h = host_ip s h' -> h = h'.
Proof.
rewrite !hosts_spec. unfold host_ip. intros Hh Hh' E%app_inv_head. injection E as E. apply (f_equal bval) in E.
rewrite !bval_byte_of_Z, !Z.mod_small in E by lia. done.
Qed.

Lemma host_ips_nodup : NoDup (host_ip s <$> hosts).
Proof. apply NoDup_fmap_2_strong; [intros h h' ??; by apply host_ip_inj|apply NoDup_seqZ]. Qed.

(** Distinct addresses of members, all of them hosts of the subnet. *)
Definition addressed (ms : list Member) : Prop := NoDup (m_ip <$> ms) /\ forall m, m ∈ ms -> exists h, h ∈ hosts /\ m_ip m = host_ip s h.

(** The lowest host that no member has. *)
Definition lowest_free (ips : list bytes) (h : Z) : Prop :=
  h ∈ hosts /\ host_ip s h ∉ ips /\ forall h', (2 <= h' < h)%Z -> host_ip s h' ∈ ips.

Lemma find_host (ips : list bytes) (l : list Z) (P : bytes -> bool) :
  (forall c, P c = true <-> c ∉ ips) ->
  match find P (host_ip s <$> l) with
  | Some c => exists l1 h l2, l = l1 ++ h :: l2 /\ c = host_ip s h /\ host_ip s h ∉ ips /\ Forall (fun h => host_ip s h ∈ ips) l1
  | None => Forall (fun h => host_ip s h ∈ ips) l
  end.
Proof.
intros HP. induction l as [|h l IH]; [by constructor|]. rewrite fmap_cons. cbn [find]. destruct (P (host_ip s h)) eqn:E.
- exists [], h, l. apply HP in E. by repeat split.
- assert (host_ip s h ∈ ips) as Hin by (destruct (decide (host_ip s h ∈ ips)) as [|Hn%HP]; [done|congruence]).
  destruct (find P (host_ip s <$> l)).
  + destruct IH as (l1 & h' & l2 & -> & -> & Hn & Hl). exists (h :: l1), h', l2. repeat split; [done|by constructor].
  + by constructor.
Qed.

Lemma seqZ_split (lo n : Z) (l1 l2 : list Z) (h : Z) : seqZ lo n = l1 ++ h :: l2 -> forall h', (lo <= h' < h)%Z -> h' ∈ l1.
Proof.
intros E h' Hh. assert (l1 = seqZ lo (Z.of_nat (length l1)) /\ h = lo + Z.of_nat (length l1))%Z as [El Eh].
{ assert (seqZ lo n !! length l1 = Some h) as Hl by (rewrite E; by apply list_lookup_middle).
  apply lookup_seqZ in Hl as [-> Hlen]. split; [|done]. apply list_eq. intros i.
  destruct (decide (i < length l1)%nat) as [Hi|Hi].
  - transitivity (seqZ lo n !! i); [rewrite E; by rewrite lookup_app_l|]. rewrite !lookup_seqZ_lt by lia. done.
  - rewrite !lookup_ge_None_2; [done| |lia]. rewrite length_seqZ. lia. }
rewrite El, elem_of_seqZ. lia.
Qed.
End addresses.

(** The first free address is the lowest; there is none exactly when all are taken. *)
Lemma next_free_ip_spec r ms :
  (forall h, h ∈ hosts -> host_ip (reg_subnet r) h <> gateway (reg_subnet r)) ->
  match next_free_ip r ms with
  | Ok ip => exists h, lowest_free (reg_subnet r) (m_ip <$> ms) h /\ ip = host_ip (reg_subnet r) h
  | Err e => e = Io OtherKind /\ forall h, h ∈ hosts -> host_ip (reg_subnet r) h ∈ m_ip <$> ms
  end.
Proof.
intros Hg. unfold next_free_ip. set (s := reg_subnet r) in *.
set (P := fun c => negb (bool_decide (c = gateway s)) && forallb (fun m => negb (bool_decide (m_ip m = c))) ms).
assert (forall l, (forall h, h ∈ l -> h ∈ hosts) -> find P (host_ip s <$> l) =
  find (fun c => bool_decide (c ∉ m_ip <$> ms)) (host_ip s <$> l)) as Heq.
{ induction l as [|h l IH]; intros Hl; [done|]. rewrite fmap_cons. cbn [find]. rewrite IH by (intros; apply Hl; by constructor).
  assert (P (host_ip s h) = bool_decide (host_ip s h ∉ m_ip <$> ms)) as ->; [|done].
  unfold P. rewrite bool_decide_eq_false_2 by (apply Hg, Hl; by constructor). cbn [negb andb].
  apply eq_true_iff_eq. rewrite forallb_forall, bool_decide_eq_true, list_elem_of_fmap. split.
  - intros H (m & E & Hm%list_elem_of_In). specialize (H m Hm). by rewrite <- E, bool_decide_eq_true_2 in H.
  - intros H m Hm%list_elem_of_In. rewrite bool_decide_eq_false_2; [done|]. intros E. apply H. eauto. }
rewrite Heq by done. pose proof (find_host s (m_ip <$> ms) hosts (fun c => bool_decide (c ∉ m_ip <$> ms)) (fun c => bool_decide_eq_true _)) as H.
destruct (find _ _); cbn [ok_or].
- destruct H as (l1 & h & l2 & E & -> & Hn & Hl). exists h. split; [|done]. split; [rewrite E; set_solver|]. split; [done|].
  intros h' Hh. rewrite Forall_forall in Hl. by apply Hl, (seqZ_split 2 253 l1 l2 h).
- split; [done|]. by rewrite Forall_forall in H.
Qed.

(** It is an address that the allocator of ipam.rs calls available. *)
Lemma next_free_available r ms ip :
  length (base (reg_subnet r)) = 4 -> (forall h, h ∈ hosts -> host_ip (reg_subnet r) h <> gateway (reg_subnet r)) ->
  next_free_ip r ms = Ok ip -> is_available (reg_subnet r) ip (m_ip <$> ms) = true.
Proof.
intros Hb Hg E. pose proof (next_free_ip_spec r ms Hg) as H. rewrite E in H. destruct H as (h & (Hh & Hf & _) & ->). unfold is_available.
rewrite bool_decide_eq_false_2 by (by apply Hg).
assert (host_ip (reg_subnet r) h !! 3 = Some (byte_of_Z h)) as -> by (apply list_lookup_middle; rewrite length_take; lia).
apply hosts_spec in Hh. assert (bval (byte_of_Z h) = h) as Hv by (rewrite bval_byte_of_Z; apply Z.mod_small; lia).
rewrite !bool_decide_eq_false_2 by (intros [= Eb]; rewrite Eb in Hv; vm_compute in Hv; lia).
apply forallb_forall. intros t Ht%list_elem_of_In. rewrite bool_decide_eq_false_2; [done|]. by intros ->.
Qed.

(** An address of another subnet is available, too. *)
Example available_elsewhere : is_available (mkSubnet [x0a; x45; x04; x00] 24 [x0a; x45; x04; x01]) [x08; x08; x08; x08] [] = true.
Proof. reflexivity. Qed.

(** All addresses are taken exactly when there are 253 members. *)
Lemma full_count s ms : addressed s ms -> (forall h, h ∈ hosts -> host_ip s h ∈ m_ip <$> ms) <-> length ms = 253.
Proof.
intros [Hnd Hin]. assert (length (host_ip s <$> hosts) = 253) as Hlen by (rewrite length_fmap; unfold hosts; by rewrite length_seqZ).
assert (m_ip <$> ms ⊆+ host_ip s <$> hosts) as Hsub.
{ apply NoDup_submseteq; [done|]. intros ip (m & -> & Hm)%list_elem_of_fmap. destruct (Hin m Hm) as (h & Hh & ->). by apply list_elem_of_fmap_2. }
pose proof (submseteq_length _ _ Hsub) as Hle. rewrite length_fmap, Hlen in Hle. split.
- intros Hall. assert (host_ip s <$> hosts ⊆+ m_ip <$> ms) as Hsub'.
  { apply NoDup_submseteq; [apply host_ips_nodup|]. intros ip (h & -> & Hh)%list_elem_of_fmap. by apply Hall. }
  apply submseteq_length in Hsub'. rewrite Hlen, length_fmap in Hsub'. lia.
- intros E h Hh. assert (m_ip <$> ms ≡ₚ host_ip s <$> hosts) as ->; [|by apply list_elem_of_fmap_2].
  apply submseteq_length_Permutation; [done|]. rewrite (length_fmap m_ip), Hlen. lia.
Qed.

(** * What the registry promises *)

(** The members of a network by name; [None] before the network exists. *)
Abbreviation net := (option (gmap bytes Member)).

Definition ips (g : gmap bytes Member) : list bytes := m_ip <$> (map_to_list g).*2.

Section promise.
Context `{B3 : Blake3} (id : bytes).

(** A join: a known name keeps its record, a new one gets the address that its hash and the
    lowest free host give. *)
Definition joins (g : gmap bytes Member) (n : bytes) (al : list bytes) (po : list (Z * Z)) (m : Member) (g' : gmap bytes Member) : Prop :=
  (g !! n = Some m /\ g' = g) \/
  (g !! n = None /\ exists h, lowest_free (subnet_for id) (ips g) h /\
    m = mkMember n al (mac_for n) (host_ip (subnet_for id) h) po /\ g' = <[n := m]> g).

Inductive net_spec : net_op -> net -> answer -> net -> Prop :=
  | spec_attach n al po a m g' : joins (default ∅ a) n al po m g' -> net_spec (Attach n al po) a (AMember m) (Some g')
  | spec_full n al po a : default ∅ a !! n = None -> size (default ∅ a) = 253 ->
      net_spec (Attach n al po) a (AError OtherKind) (Some (default ∅ a))
  | spec_detach n g : net_spec (Detach n) (Some g) (ACount (size (delete n g))) (Some (delete n g))
  | spec_inspect g ms : (fun m => (m_name m, m)) <$> ms ≡ₚ map_to_list g -> net_spec Inspect (Some g) (AMembers ms) (Some g)
  | spec_no_detach n : net_spec (Detach n) None (AError NotFoundKind) None
  | spec_no_inspect : net_spec Inspect None (AError NotFoundKind) None.

(** Where an interrupted command can leave the network: where it was, created and empty, or
    where the command takes it. *)
Definition interrupted (op : net_op) (a a' : net) : Prop :=
  a' = a \/ (exists n al po, op = Attach n al po /\ a' = Some (default ∅ a)) \/ exists ans, net_spec op a ans a'.

(** How a command may end; with [q] no call fails. *)
Definition ends (q : bool) (op : net_op) (a : net) (o : outcome answer) (a' : net) : Prop :=
  match o with
  | Ret ans => net_spec op a ans a' /\ forall k, ans <> AError k
  | Throw e => (exists k, e = Io k /\ net_spec op a (AError k) a') \/ (q = false /\ interrupted op a a')
  | Crashed => q = false /\ interrupted op a a'
  end.

(** What the arguments' Rust types admit. *)
Definition op_repr (op : net_op) : Prop :=
  match op with
  | Attach n al po => utf8_valid n = true /\ Forall (fun a => utf8_valid a = true) al /\ Forall (fun p => u16 p.1 /\ u16 p.2) po
  | _ => True
  end.

(** ** Representation *)

Definition keyed (m : Member) : bytes * Member := (m_name m, m).

Definition sound (ms : list Member) : Prop :=
  NoDup (m_name <$> ms) /\ addressed (subnet_for id) ms /\ (forall m, m ∈ ms -> m_mac m = mac_for (m_name m)) /\ Forall member_repr ms.

Definition roster (ms : list Member) : gmap bytes Member := list_to_map (keyed <$> ms).

Lemma keyed_fst ms : (keyed <$> ms).*1 = m_name <$> ms.
Proof. rewrite <- list_fmap_compose. done. Qed.

Lemma keyed_snd ms : (keyed <$> ms).*2 = ms.
Proof. induction ms as [|m ms IH]; [done|]. by rewrite !fmap_cons, IH. Qed.

Lemma roster_list ms : NoDup (m_name <$> ms) -> map_to_list (roster ms) ≡ₚ keyed <$> ms.
Proof. intros H. apply map_to_list_to_map. by rewrite keyed_fst. Qed.

Lemma roster_ips ms : NoDup (m_name <$> ms) -> ips (roster ms) ≡ₚ m_ip <$> ms.
Proof. intros H. unfold ips. by rewrite roster_list, keyed_snd. Qed.

Lemma roster_size ms : NoDup (m_name <$> ms) -> size (roster ms) = length ms.
Proof. intros H. rewrite <- (length_map_to_list (roster ms)), roster_list by done. apply length_fmap. Qed.

Lemma roster_find ms n : roster ms !! n = find (fun m => bool_decide (m_name m = n)) ms.
Proof.
induction ms as [|m ms IH]; [done|]. unfold roster. rewrite fmap_cons. cbn [list_to_map find]. unfold keyed at 1. cbn [list_to_map foldr uncurry].
rewrite lookup_insert. case_decide as E; [by rewrite bool_decide_eq_true_2|]. rewrite bool_decide_eq_false_2 by done. exact IH.
Qed.

Lemma roster_snoc ms m : roster ms !! m_name m = None -> roster (ms ++ [m]) = <[m_name m := m]> (roster ms).
Proof.
intros Hn. unfold roster in *. rewrite fmap_app, list_to_map_app. rewrite insert_union_singleton_r by done. cbn. by rewrite insert_empty.
Qed.

Lemma roster_filter ms n : roster (filter (fun m => m_name m <> n) ms) = delete n (roster ms).
Proof.
apply map_eq. intros k. rewrite lookup_delete, !roster_find. induction ms as [|m ms IH]; [by case_decide|].
rewrite filter_cons. cbn [find]. destruct (decide (m_name m <> n)) as [Hm|Hm].
- cbn [find]. rewrite IH. destruct (bool_decide_reflect (m_name m = k)); [|done]. subst. by rewrite decide_False by done.
- apply dec_stable in Hm. rewrite IH. case_decide; [done|]. by rewrite bool_decide_eq_false_2 by congruence.
Qed.

Lemma lowest_free_perm s l l' h : l ≡ₚ l' -> lowest_free s l h -> lowest_free s l' h.
Proof. intros E (H1 & H2 & H3). split; [done|]. split; [by rewrite <- E|]. intros h' Hh. rewrite <- E. auto. Qed.

Lemma host_not_gateway h : h ∈ hosts -> host_ip (subnet_for id) h <> gateway (subnet_for id).
Proof.
rewrite hosts_spec. unfold host_ip, subnet_for. cbn. intros Hh [= E]. apply (f_equal bval) in E. rewrite bval_byte_of_Z, Z.mod_small in E by lia.
change (bval x01) with 1%Z in E. lia.
Qed.

Lemma sound_nil : sound [].
Proof. repeat split; try constructor; intros m Hm; by apply not_elem_of_nil in Hm. Qed.

Lemma sound_filter ms n : sound ms -> sound (filter (fun m => m_name m <> n) ms).
Proof.
intros (H1 & [H2 H3] & H4 & H5). assert (forall A (f : Member -> A), NoDup (f <$> ms) -> NoDup (f <$> filter (fun m => m_name m <> n) ms)) as Hf.
{ intros A f Hd. by eapply sublist_NoDup, fmap_sublist, sublist_filter. }
split; [by apply Hf|]. split; [split; [by apply Hf|]|split; [|apply Forall_forall; rewrite Forall_forall in H5]]; intros m [_ Hm]%list_elem_of_filter; auto.
Qed.

Lemma sound_snoc ms n al po h :
  sound ms -> roster ms !! n = None -> lowest_free (subnet_for id) (m_ip <$> ms) h -> op_repr (Attach n al po) ->
  sound (ms ++ [mkMember n al (mac_for n) (host_ip (subnet_for id) h) po]).
Proof.
intros (H1 & [H2 H3] & H4 & H5) Hn (Hh & Hf & _) (Ru & Ra & Rp). set (m0 := mkMember _ _ _ _ _).
assert (n ∉ m_name <$> ms) as Hnn.
{ intros (m & -> & Hm)%list_elem_of_fmap. rewrite roster_find in Hn. eapply find_none in Hn; [|by apply list_elem_of_In].
  by rewrite bool_decide_eq_true_2 in Hn. }
assert (forall A (f : Member -> A), f m0 ∉ f <$> ms -> NoDup (f <$> ms) -> NoDup (f <$> (ms ++ [m0]))) as Hsnoc.
{ intros A f Hnot Hd. rewrite fmap_app. apply NoDup_app. split; [done|]. split; [|apply NoDup_singleton].
  intros x Hx. cbn. rewrite list_elem_of_singleton. by intros ->. }
split; [by apply Hsnoc|]. split; [split; [by apply Hsnoc|]|split].
- intros m [Hm | ->%list_elem_of_singleton]%elem_of_app; [by apply H3|]. by exists h.
- intros m [Hm | ->%list_elem_of_singleton]%elem_of_app; [by apply H4|done].
- apply Forall_app. split; [done|]. constructor; [|constructor]. by repeat split.
Qed.
End promise.

(** * The code keeps the promise *)

Section refinement.
Context `{B3 : Blake3} `{J : NetJson} `{JL : !NetJsonLaws J}.
Context (home : path) (id : bytes).
Abbreviation dir := (dir_for home id).
Abbreviation reg := (mkReg (dir_for home id) (subnet_for id)).

(** The contents of the two files stand for a network. *)
Definition created (st : bytes -> option bytes) : Prop := exists b, st SUBNET = Some b /\ subnet_from_slice b = Some (subnet_for id).

Definition stored (st : bytes -> option bytes) (g : gmap bytes Member) : Prop :=
  exists ms, sound id ms /\ g = roster ms /\
    match st MEMBERS with Some b => members_from_slice b = Some ms | None => ms = [] end.

Definition net_rel (a : net) (st : bytes -> option bytes) : Prop :=
  match a with
  | None => st SUBNET = None /\ st MEMBERS = None
  | Some g => created st /\ stored st g
  end.

Lemma slot_exists fs0 st fs c : net_at dir fs0 st fs -> c ∈ [SUBNET; MEMBERS] -> node_exists fs (dir ++ [c]) = bool_decide (is_Some (st c)).
Proof.
intros Hat Hc. rewrite <- (at_files _ _ _ _ Hat c Hc). unfold file_at, node_exists.
assert (own_name c) as Ho by (right; by apply list_elem_of_further).
pose proof (nt_leaf _ _ (at_tree _ _ _ _ Hat) c Ho) as Hl. unfold leaf in Hl. destruct (fs !! (dir ++ [c])) as [[]|]; try done.
Qed.

Lemma created_dir fs0 st fs : net_at dir fs0 st fs -> created st -> fs !! dir = Some NDir.
Proof.
intros Hat (b & Hb & _). rewrite <- (at_files _ _ _ _ Hat SUBNET) in Hb by apply list_elem_of_here. unfold file_at in Hb.
destruct (fs !! (dir ++ [SUBNET])) as [[x m| |]|] eqn:E; try done. by eapply dir_of_file, E; apply Hat.
Qed.

Section calls.
Context (q : bool) (fs0 : gmap path node).
Implicit Types (st : bytes -> option bytes) (fs : gmap path node) (g : gmap bytes Member).

(** Interrupted, with the files standing for [a]. *)
Abbreviation stands a := (fun fs => exists st, net_at dir fs0 st fs /\ net_rel a st).

Lemma wp_read_slot st fs (c b : bytes) (Q : outcome bytes -> gmap path node -> Prop) :
  net_at dir fs0 st fs -> c ∈ [SUBNET; MEMBERS] -> st c = Some b -> Q (Ret b) fs ->
  fails q (net_at dir fs0 st) Q -> wp q fs (read (dir ++ [c])) Q.
Proof.
intros Hat Hc Hb HQ Hf. apply (wp_read q _ b); [by rewrite (at_files _ _ _ _ Hat c Hc)|done|]. intros Hq. by apply (Hf Hq).
Qed.

Lemma wp_open st fs (a : net) (Q : outcome NetworkRegistry -> gmap path node -> Prop) :
  net_at dir fs0 st fs -> net_rel a st ->
  match a with Some _ => Q (Ret reg) fs | None => Q (Throw (Io NotFoundKind)) fs end ->
  fails q (net_at dir fs0 st) Q -> wp q fs (open home id) Q.
Proof.
intros Hat Hr HQ Hf. unfold open. cbv zeta. apply wp_bind, wp_exists. rewrite (slot_exists fs0 st) by (done || apply list_elem_of_here).
destruct a as [g|]; cbn [net_rel] in Hr.
- destruct Hr as [(b & Hb & Hs) _]. rewrite Hb. cbn [negb]. rewrite bool_decide_eq_true_2 by eauto. cbn [negb].
  apply wp_bind, (wp_read_slot st _ _ b); [done|apply list_elem_of_here|done| |].
  + apply wp_bind, wp_lift. rewrite Hs. cbn [ok_or]. by apply wp_ret.
  + intros Hq fs' e H. by apply (Hf Hq).
- destruct Hr as [-> _]. rewrite bool_decide_eq_false_2 by (by intros []). cbn [negb]. by apply wp_throw.
Qed.

Lemma wp_read_members st fs g (Q : outcome (list Member) -> gmap path node -> Prop) :
  net_at dir fs0 st fs -> stored st g -> (forall ms, sound id ms -> g = roster ms -> Q (Ret ms) fs) ->
  fails q (net_at dir fs0 st) Q -> wp q fs (read_members reg) Q.
Proof.
intros Hat (ms & Hs & Hg & Hm) HQ Hf. unfold read_members, members_path. cbn [reg_dir]. apply wp_bind, wp_exists.
assert (MEMBERS ∈ [SUBNET; MEMBERS]) as Hin by (apply list_elem_of_further, list_elem_of_here).
rewrite (slot_exists fs0 st) by done. destruct (st MEMBERS) as [b|] eqn:E.
- rewrite bool_decide_eq_true_2 by eauto. cbn [negb]. apply wp_bind, (wp_read_slot st _ _ b); [done|done|done| |].
  + apply wp_lift. rewrite Hm. cbn [ok_or]. by apply HQ.
  + intros Hq fs' e H. by apply (Hf Hq).
- subst ms. rewrite bool_decide_eq_false_2 by (by intros []). cbn [negb]. apply wp_ret. by apply HQ.
Qed.

(** Writing a sound list of members moves the network to that list, or not. *)
Lemma wp_write_members st (now : Z) fs (a : net) (ms : list Member) (Q : outcome unit -> gmap path node -> Prop) :
  net_at dir fs0 st fs -> net_rel a st -> created st -> sound id ms ->
  (forall st' fs', net_at dir fs0 st' fs' -> net_rel (Some (roster ms)) st' -> Q (Ret tt) fs') ->
  fails q (stands a) Q -> fails q (stands (Some (roster ms))) Q -> wp q fs (write_members now reg ms) Q.
Proof.
intros Hat Hr Hc Hs HQ Hold Hnew. destruct (members_json ms) as (b & Hb & Hb'); [apply Hs|]. unfold write_members. apply wp_bind, wp_lift.
rewrite Hb. cbn [ok_or]. assert (net_rel (Some (roster ms)) (upd MEMBERS b st)) as Hr'.
{ split; [exact Hc|]. exists ms. split; [done|]. split; [done|]. unfold upd. by rewrite decide_True. }
apply (wp_net_write dir q fs0 st); [done|apply list_elem_of_further, list_elem_of_here| |].
- intros fs' H _. by apply (HQ (upd MEMBERS b st)).
- intros Hq fs' e [H|H]; [apply (Hold Hq)|apply (Hnew Hq)]; eauto.
Qed.

Lemma wp_create st (t1 t2 : Z) fs (a : net) (Q : outcome NetworkRegistry -> gmap path node -> Prop) :
  net_at dir fs0 st fs -> net_rel a st ->
  (forall st' fs', net_at dir fs0 st' fs' -> net_rel (Some (default ∅ a)) st' -> Q (Ret reg) fs') ->
  fails q (stands a) Q -> fails q (stands (Some (default ∅ a))) Q -> wp q fs (create t1 t2 home id) Q.
Proof.
intros Hat Hr HQ Hold Hnew. unfold create. cbv zeta. apply wp_bind, wp_exists. rewrite (slot_exists fs0 st) by (done || apply list_elem_of_here).
destruct a as [g|]; cbn [default] in *.
{ pose proof Hr as [(b & Hb & _) _]. rewrite Hb, bool_decide_eq_true_2 by eauto.
  eapply wp_open; [done|exact Hr|by apply (HQ st)|]. intros Hq fs' e H. apply (Hold Hq). eauto. }
pose proof Hr as [HS HM]. rewrite HS, bool_decide_eq_false_2 by (by intros []).
assert (forall (A : Type) (Q' : outcome A -> gmap path node -> Prop), fails q (stands None) Q' -> fails q (net_at dir fs0 st) Q') as Hst.
{ intros A Q' H Hq fs' e Hat'. apply (H Hq). eauto. }
apply wp_bind, (wp_mkdirs dir q fs0 st); [done| |by apply Hst]. clear fs Hat. intros fs Hat Hd.
apply wp_bind, (wp_acquire dir q fs0 st); [done|done| |by apply Hst]. clear fs Hat Hd. intros fs Hat Hd.
apply wp_bind, wp_exists. rewrite (slot_exists fs0 st) by (done || apply list_elem_of_here). rewrite HS, bool_decide_eq_false_2 by (by intros []).
destruct (subnet_json (subnet_for id)) as (b & Hb & Hb'); [by repeat split|]. apply wp_bind, wp_lift. cbn [reg_subnet]. rewrite Hb. cbn [ok_or].
assert (created (upd SUBNET b st)) as Hcr by (exists b; split; [unfold upd; by rewrite decide_True|done]).
assert (net_rel (Some ∅) (upd SUBNET b st)) as Hr1.
{ split; [done|]. exists []. split; [apply sound_nil|]. split; [done|]. unfold upd. rewrite decide_False by done. by rewrite HM. }
apply wp_bind, (wp_net_write dir q fs0 st); [done|apply list_elem_of_here| |].
- clear fs Hat Hd. intros fs Hat Hd. apply wp_bind, (wp_write_members (upd SUBNET b st) _ _ (Some ∅) []); [done|done|done|apply sound_nil| |exact Hnew|exact Hnew].
  intros st' fs' H1 H2. apply wp_ret. by apply (HQ st').
- intros Hq fs' e [H|H]; [apply (Hold Hq)|apply (Hnew Hq)]; eauto.
Qed.

Lemma wp_join st (now : Z) fs g (n : bytes) (al : list bytes) (po : list (Z * Z)) (Q : outcome Member -> gmap path node -> Prop) :
  net_at dir fs0 st fs -> net_rel (Some g) st -> op_repr (Attach n al po) ->
  (forall m g' fs', joins id g n al po m g' -> stands (Some g') fs' -> Q (Ret m) fs') ->
  (g !! n = None -> size g = 253 -> forall fs', stands (Some g) fs' -> Q (Throw (Io OtherKind)) fs') ->
  (forall g', g' = g \/ (exists m, joins id g n al po m g') -> fails q (stands (Some g')) Q) ->
  wp q fs (join_network now reg n al po) Q.
Proof.
intros Hat Hr Hop HQ Hfull Hf. unfold join_network, lock_path. cbn [reg_dir].
assert (forall (A : Type) (Q' : outcome A -> gmap path node -> Prop), fails q (stands (Some g)) Q' -> fails q (net_at dir fs0 st) Q') as Hst.
{ intros A Q' H Hq fs' e Hat'. apply (H Hq). eauto. }
apply wp_bind, (wp_acquire dir q fs0 st); [done|by apply (created_dir fs0 st), Hr| |apply Hst, Hf; by left].
clear fs Hat. intros fs Hat _. apply wp_bind, (wp_read_members st _ g); [done|apply Hr| |apply Hst, Hf; by left].
intros ms Hs Hg. rewrite <- roster_find, <- Hg. destruct (g !! n) as [m|] eqn:En.
{ apply wp_ret. apply (HQ m g); [by left|eauto]. }
apply wp_bind, wp_lift. pose proof (next_free_ip_spec reg ms (host_not_gateway id)) as Hip. cbn [reg_subnet] in Hip.
destruct (next_free_ip reg ms) as [ip|e].
- destruct Hip as (h & Hh & ->). set (m := mkMember n al (mac_for n) (host_ip (subnet_for id) h) po).
  assert (joins id g n al po m (roster (ms ++ [m]))) as Hj.
  { right. split; [done|]. exists h. split; [|split; [done|]].
    - eapply lowest_free_perm; [|exact Hh]. rewrite Hg. symmetry. apply roster_ips, Hs.
    - rewrite Hg. apply roster_snoc. by rewrite <- Hg. }
  apply wp_bind, (wp_write_members st _ _ (Some g) (ms ++ [m])); [done|done|apply Hr| | | |].
  + apply sound_snoc; [done|by rewrite <- Hg|done|done].
  + intros st' fs' H1 H2. apply wp_ret. apply (HQ m _ _ Hj). eauto.
  + apply Hf. by left.
  + apply Hf. right. eauto.
- destruct Hip as [-> Hall]. apply Hfull; [done| |eauto]. rewrite Hg, roster_size by apply Hs.
  apply (full_count (subnet_for id) ms); [apply Hs|done].
Qed.

Lemma wp_leave st (now : Z) fs g (n : bytes) (Q : outcome nat -> gmap path node -> Prop) :
  net_at dir fs0 st fs -> net_rel (Some g) st ->
  (forall fs', stands (Some (delete n g)) fs' -> Q (Ret (size (delete n g))) fs') ->
  fails q (stands (Some g)) Q -> fails q (stands (Some (delete n g))) Q ->
  wp q fs (leave now reg n) Q.
Proof.
intros Hat Hr HQ Hold Hnew. unfold leave, lock_path. cbn [reg_dir].
assert (forall (A : Type) (Q' : outcome A -> gmap path node -> Prop), fails q (stands (Some g)) Q' -> fails q (net_at dir fs0 st) Q') as Hst.
{ intros A Q' H Hq fs' e Hat'. apply (H Hq). eauto. }
apply wp_bind, (wp_acquire dir q fs0 st); [done|by apply (created_dir fs0 st), Hr| |by apply Hst].
clear fs Hat. intros fs Hat _. apply wp_bind, (wp_read_members st _ g); [done|apply Hr| |by apply Hst].
intros ms Hs Hg. cbv zeta. assert (roster (filter (fun m => m_name m <> n) ms) = delete n g) as Ed by (rewrite Hg; apply roster_filter).
pose proof (sound_filter id ms n Hs) as Hs'. rewrite <- Ed in *.
apply wp_bind, (wp_write_members st _ _ (Some g) (filter (fun m => m_name m <> n) ms)); [done|done|apply Hr|done| |done|done].
intros st' fs' H1 H2. apply wp_ret. rewrite <- roster_size by apply Hs'. apply HQ. eauto.
Qed.

Lemma wp_members st fs g (Q : outcome (list Member) -> gmap path node -> Prop) :
  net_at dir fs0 st fs -> net_rel (Some g) st ->
  (forall ms fs', sound id ms -> g = roster ms -> stands (Some g) fs' -> Q (Ret ms) fs') ->
  fails q (stands (Some g)) Q -> wp q fs (members_of reg) Q.
Proof.
intros Hat Hr HQ Hf. unfold members_of, lock_path. cbn [reg_dir].
assert (fails q (net_at dir fs0 st) Q) as Hst by (intros Hq fs' e Hat'; apply (Hf Hq); eauto).
apply wp_bind, (wp_acquire dir q fs0 st); [done|by apply (created_dir fs0 st), Hr| |exact Hst].
clear fs Hat. intros fs Hat _. apply (wp_read_members st _ g); [done|apply Hr| |exact Hst]. intros ms Hs Hg. apply HQ; eauto.
Qed.

Lemma wp_impl st (t1 t2 t3 : Z) fs (a : net) (op : net_op) :
  net_at dir fs0 st fs -> net_rel a st -> op_repr op ->
  wp q fs (net_impl t1 t2 t3 home id op) (fun o fs' => exists a', stands a' fs' /\ ends id q op a o a').
Proof.
intros Hat Hr Hop. destruct op as [n al po|n|]; cbn [net_impl].
- unfold attach. apply wp_bind, wp_bind, (wp_create st _ _ _ a); [done|done| | |].
  + clear st fs Hat Hr. intros st fs Hat Hr. apply (wp_join st _ _ (default ∅ a)); [done|done|done| | |].
    * intros m g' fs' Hj Hs. apply wp_ret. exists (Some g'). split; [done|]. by split; [constructor|].
    * intros H1 H2 fs' Hs. exists (Some (default ∅ a)). split; [done|]. left. eexists. split; [done|]. by constructor.
    * intros g' Hg' Hq fs' e Hs. assert (interrupted id (Attach n al po) a (Some g')) as Hi.
      { destruct Hg' as [->|[m Hj]]; [right; left; eauto|]. right. right. eexists. by constructor. }
      split; exists (Some g'); (split; [done|]); [by right|by split].
  + intros Hq fs' e Hs. split; exists a; (split; [done|]); [right; split; [done|by left]|split; [done|by left]].
  + intros Hq fs' e Hs. assert (interrupted id (Attach n al po) a (Some (default ∅ a))) as Hi by (right; left; eauto).
    split; exists (Some (default ∅ a)); (split; [done|]); [by right|by split].
- assert (forall g, q = false -> forall fs' e, stands (Some g) fs' -> interrupted id (Detach n) a (Some g) ->
    (exists a', stands a' fs' /\ ends id q (Detach n) a (Throw e) a') /\ (exists a', stands a' fs' /\ ends id q (Detach n) a Crashed a')) as Hi.
  { intros g Hq fs' e Hs H. split; exists (Some g); (split; [done|]); [by right|by split]. }
  unfold detach. apply wp_bind, wp_bind, (wp_open st _ a); [done|done| |].
  + destruct a as [g|].
    * apply (wp_leave st _ _ g); [done|done| | |].
      -- intros fs' Hs. apply wp_ret. eexists. split; [exact Hs|]. by split; [constructor|].
      -- intros Hq fs' e Hs. apply (Hi g Hq fs' e Hs). by left.
      -- intros Hq fs' e Hs. apply (Hi _ Hq fs' e Hs). right. right. eexists. constructor.
    * exists None. split; [eauto|]. left. eexists. split; [done|constructor].
  + intros Hq fs' e H. split; exists a; (split; [eauto|]); [right; split; [done|by left]|split; [done|by left]].
- unfold inspect_members. apply wp_bind, wp_bind, (wp_open st _ a); [done|done| |].
  + destruct a as [g|].
    * apply (wp_members st _ g); [done|done| |].
      -- intros ms fs' Hs Hg Hst. apply wp_ret. eexists. split; [exact Hst|]. split; [|done]. constructor. rewrite Hg. symmetry. apply roster_list, Hs.
      -- intros Hq fs' e Hs. split; exists (Some g); (split; [done|]); [right; split; [done|by left]|split; [done|by left]].
    * exists None. split; [eauto|]. left. eexists. split; [done|constructor].
  + intros Hq fs' e H. split; exists a; (split; [eauto|]); [right; split; [done|by left]|split; [done|by left]].
Qed.
End calls.

(** The tree holds the network [a], and the registry's names are free or files. *)
Definition represents (a : net) (fs : gmap path node) : Prop := exists st, net_at dir fs st fs /\ net_rel a st.

Lemma stands_represents fs0 st fs a : net_at dir fs0 st fs -> net_rel a st -> represents a fs /\ outside dir fs0 fs.
Proof. intros [Ht Ho Hf] Hr. split; [|done]. exists st. split; [|done]. split; [done| |done]. by intros p _ _. Qed.

Lemma impl_refines (t1 t2 t3 : Z) (a : net) (op : net_op) (w : World) :
  represents a (w_fs w) -> op_repr op ->
  exists a', represents a' (w_fs (net_impl t1 t2 t3 home id op w).2) /\
    ends id (bool_decide (w_faults w = [])) op a (net_impl t1 t2 t3 home id op w).1 a' /\
    outside dir (w_fs w) (w_fs (net_impl t1 t2 t3 home id op w).2).
Proof.
intros (st & Hat & Hr) Hop.
pose proof (wp_impl (bool_decide (w_faults w = [])) (w_fs w) st t1 t2 t3 _ a op Hat Hr Hop) as H. apply wp_run in H; [|done].
destruct H as (a' & (st' & Hat' & Hr') & He). exists a'. destruct (stands_represents _ _ _ _ Hat' Hr'). done.
Qed.

(** One command by some process, under its own schedule of failures. *)
Definition net_step (ok : net_op -> Prop) (fs fs' : gmap path node) : Prop :=
  exists op t1 t2 t3 w, ok op /\ op_repr op /\ w_fs w = fs /\ w_fs (net_impl t1 t2 t3 home id op w).2 = fs'.

(** Whatever a command does, it ends where its specification or an interruption of it
    ends. *)
Lemma ends_interrupted q op a o a' : ends id q op a o a' -> interrupted id op a a'.
Proof. destruct o as [ans|e|]; cbn [ends]; [intros [H _]|intros [(k & _ & H)|[_ H]]|intros [_ H]]; try done; right; right; eauto. Qed.

Lemma steps_represent ok fs fs' a : represents a fs -> rtc (net_step ok) fs fs' -> exists a', represents a' fs'.
Proof.
intros Ha Hs. revert a Ha. induction Hs as [fs|f1 f2 f3 (op & t1 & t2 & t3 & w & _ & Hop & <- & <-) _ IH]; intros a Ha; [eauto|].
destruct (impl_refines t1 t2 t3 a op w Ha Hop) as (a' & Ha' & _). by apply (IH a').
Qed.

Lemma interrupted_keeps op n a a' m :
  interrupted id op a a' -> op <> Detach n -> default ∅ a !! n = Some m -> default ∅ a' !! n = Some m.
Proof.
intros H Hop Hm. destruct H as [->|[(? & ? & ? & _ & ->)|[ans H]]]; [done|done|].
inversion H; subst; cbn [default Datatypes.id] in *; try done.
- match goal with Hj : joins _ _ _ _ _ _ _ |- _ => destruct Hj as [[_ ->]|(Hnone & h & _ & _ & ->)] end; [done|].
  rewrite lookup_insert_ne; [done|]. congruence.
- rewrite lookup_delete_ne; [done|]. congruence.
Qed.
End refinement.

(** * Theorems *)

Section theorems.
Context `{B3 : Blake3} `{J : NetJson} `{JL : !NetJsonLaws J}.

(** C26: the registry is a crash-safe allocator of addresses.  A run that attaches, a run that
    detaches and a reader, each under its own schedule of I/O failures and possibly killed
    at any call, take the network from one consistent state to another: the one that the
    command specifies when it returns, and otherwise that one, the one before, or the
    created and still empty network.  Without failures every command ends as specified: a
    known name keeps its member, a new one gets the lowest free host address, attaching
    fails exactly when all 253 addresses are taken, and detaching or reading fails exactly
    when there is no network.  No other file changes. *)
Theorem registry_refines (home : path) (id : bytes) (t1 t2 t3 : Z) (a : net) (op : net_op) (w : World) :
  represents home id a (w_fs w) -> op_repr op ->
  exists a', represents home id a' (w_fs (net_impl t1 t2 t3 home id op w).2) /\
    ends id (bool_decide (w_faults w = [])) op a (net_impl t1 t2 t3 home id op w).1 a' /\
    outside (dir_for home id) (w_fs w) (w_fs (net_impl t1 t2 t3 home id op w).2).
Proof. apply impl_refines. Qed.

(** C27: at every moment the members of a network have distinct names and distinct addresses
    in its subnet, none of them the gateway's, and the hardware address their name hashes
    to: whatever commands ran before, in whatever order, failing or killed anywhere. *)
Theorem addresses_unique (home : path) (id : bytes) (a : net) (fs fs' : gmap path node) (w w' : World) (ms : list Member) :
  represents home id a fs -> rtc (net_step home id (fun _ => True)) fs fs' ->
  w_fs w = fs' -> inspect_members home id w = (Ret ms, w') ->
  NoDup (m_name <$> ms) /\ NoDup (m_ip <$> ms) /\
  forall m, m ∈ ms -> m_mac m = mac_for (m_name m) /\ m_ip m <> gateway (subnet_for id) /\
    exists h, (2 <= h <= 254)%Z /\ m_ip m = host_ip (subnet_for id) h.
Proof.
intros Ha Hs Hw E. destruct (steps_represent home id _ fs fs' a Ha Hs) as (a' & st & Hat & Hr). clear Ha Hs. subst fs'.
assert (wp (bool_decide (w_faults w = [])) (w_fs w) (inspect_members home id) (fun o _ => match o with Ret ms => sound id ms | _ => True end)) as H.
{ unfold inspect_members. apply wp_bind, (wp_open home id _ (w_fs w) st _ a'); [done|done| |by intros _].
  destruct a' as [g|]; [|done]. apply (wp_members home id _ (w_fs w) st _ g); [done|done| |by intros _]. by intros. }
apply wp_run in H; [|done]. rewrite E in H. destruct H as (H1 & [H2 H3] & H4 & _). split; [done|]. split; [done|].
intros m Hm. split; [by apply H4|]. destruct (H3 m Hm) as (h & Hh & Eh). rewrite Eh. split; [by apply host_not_gateway|].
exists h. by rewrite <- hosts_spec.
Qed.

(** An address is stable.  A member keeps its whole record as long as no command detaches
    its name: commands for other names, repeated joins and failures in between do not
    change it. *)
Theorem address_stable (home : path) (id : bytes) (g : gmap bytes Member) (n : bytes) (m : Member) (fs fs' : gmap path node) :
  represents home id (Some g) fs -> g !! n = Some m -> rtc (net_step home id (fun op => op <> Detach n)) fs fs' ->
  exists g', represents home id (Some g') fs' /\ g' !! n = Some m.
Proof.
intros Hg Hm Hs. assert (exists a', represents home id a' fs' /\ default ∅ a' !! n = Some m) as (a' & Ha' & Hm').
{ assert (default ∅ (Some g) !! n = Some m) as Hm0 by done. revert Hg Hm0. generalize (Some g). clear g Hm.
  induction Hs as [fs|f1 f2 f3 (op & t1 & t2 & t3 & w & Hok & Hop & <- & <-) _ IH]; intros a Ha Hm; [eauto|].
  destruct (impl_refines home id t1 t2 t3 a op w Ha Hop) as (a' & Ha' & He & _). apply (IH a'); [done|].
  eapply interrupted_keeps; [by eapply ends_interrupted|done|done]. }
destruct a' as [g'|]; [eauto|]. cbn [default] in Hm'. by rewrite lookup_empty in Hm'.
Qed.

(** A tree in which the network's directory is free holds no network yet. *)
Lemma fresh_represents (home : path) (id : bytes) (fs : gmap path node) :
  fs_wf fs -> dirs_ok (dir_for home id) fs -> fs !! dir_for home id = None -> represents home id None fs.
Proof.
intros Hwf Hok Hd. assert (forall c, fs !! (dir_for home id ++ [c]) = None) as Hn.
{ intros c. destruct (fs !! (dir_for home id ++ [c])) as [x|] eqn:E; [|done]. apply Hwf in E. congruence. }
exists (fun _ => None). split; [|done]. split; [split; [done|done|]| |].
- intros c _. unfold leaf. by rewrite Hn.
- by intros p _ _.
- intros c _. unfold file_at. by rewrite Hn.
Qed.

Lemma represents_dir (home : path) (id : bytes) (g : gmap bytes Member) (fs : gmap path node) : represents home id (Some g) fs -> fs !! dir_for home id = Some NDir.
Proof. intros (st & Hat & [Hc _]). by apply (created_dir home id fs st). Qed.

Lemma wp_rm_check (home : path) (id : bytes) (fs : gmap path node) :
  represents home id (Some ∅) fs -> is_predefined id = false ->
  wp true fs (rm_check home id) (fun o fs' => exists u, o = Ret u /\ represents home id (Some ∅) fs').
Proof.
intros (st & Hat & Hr) Hid. unfold rm_check. rewrite Hid.
apply wp_bind, wp_try, (wp_open home id true fs st fs (Some ∅)); [done|done| |done].
apply wp_bind, wp_ret, wp_bind, (wp_members home id true fs st fs ∅); [done|done| |done].
intros ms fs' Hs Hg (st' & Hat' & Hr'). assert (ms = []) as ->.
{ apply length_zero_iff_nil. rewrite <- roster_size by apply Hs. by rewrite <- Hg, map_size_empty. }
cbn. apply wp_ret. exists tt. split; [done|]. by apply (stands_represents home id fs st').
Qed.

Lemma wp_attach_empty (home : path) (id : bytes) (t1 t2 t3 : Z) (n : bytes) (al : list bytes) (po : list (Z * Z)) (fs : gmap path node) :
  represents home id (Some ∅) fs -> op_repr (Attach n al po) ->
  wp true fs (attach t1 t2 t3 home id n al po) (fun o fs' => exists m, o = Ret m /\ m_name m = n /\ represents home id (Some {[ n := m ]}) fs').
Proof.
intros (st & Hat & Hr) Hop. unfold attach. apply wp_bind, (wp_create home id true fs st t1 t2 fs (Some ∅)); [done|done| |done|done].
intros st' fs' Hat' Hr'. apply (wp_join home id true fs st' t3 fs' ∅); [done|done|done| | |done].
- intros m g' fs2 Hj (st2 & Hat2 & Hr2). exists m. split; [done|]. destruct Hj as [[E _]|(_ & h & _ & Em & ->)]; [by rewrite lookup_empty in E|].
  subst m. split; [done|]. rewrite insert_empty in Hr2. by apply (stands_represents home id fs st2).
- intros _ E. by rewrite map_size_empty in E.
Qed.

(** [network rm] can remove a network that is in use.  It looks at the members under the
    lock, but removes the directory after the lock is gone: a run that attaches in between
    succeeds, and then its network and its membership are gone. *)
Theorem rm_race (home : path) (id : bytes) (t1 t2 t3 : Z) (n : bytes) (al : list bytes) (po : list (Z * Z)) (w0 : World) (pid : Z) :
  represents home id (Some ∅) (w_fs w0) -> w_faults w0 = [] -> is_predefined id = false -> op_repr (Attach n al po) ->
  exists w1 m w2 w3,
    rm_check home id w0 = (Ret tt, w1) /\
    attach t1 t2 t3 home id n al po (mkWorld (w_fs w1) [] pid 0) = (Ret m, w2) /\
    rm_remove home id (mkWorld (w_fs w2) [] (w_pid w1) (w_next w1)) = (Ret tt, w3) /\
    inspect_members home id w3 = (Throw (Io NotFoundKind), w3).
Proof.
intros Hr0 Hq0 Hid Hop. destruct (wp_returns _ _ (fun _ fs' => represents home id (Some ∅) fs') w0 (wp_rm_check home id _ Hr0 Hid) eq_refl Hq0) as ([] & w1 & E1 & Hr1 & _).
destruct (wp_returns _ _ _ (mkWorld (w_fs w1) [] pid 0) (wp_attach_empty home id t1 t2 t3 n al po _ Hr1 Hop) eq_refl eq_refl) as (m & w2 & E2 & [_ Hr2] & _).
pose proof (does_remove_dir_all _ _ (represents_dir home id _ _ Hr2)) as Hd.
destruct (Hd (mkWorld (w_fs w2) [] (w_pid w1) (w_next w1)) eq_refl eq_refl) as (w3 & E3 & Hfs3 & _).
exists w1, m, w2, w3. do 3 (split; [done|]). unfold inspect_members, open. cbv [mbind IO_mbind exists_ get_fs mret IO_mret].
assert (node_exists (w_fs w3) (dir_for home id ++ [SUBNET]) = false) as ->; [|done].
unfold node_exists. rewrite Hfs3, delete_below_lookup, decide_True by (by apply prefix_app_r). done.
Qed.
End theorems.

(** * Examples *)

Definition member_tuple (m : Member) := (m_name m, m_aliases m, m_mac m, m_ip m, m_ports m).
Definition tuple_member (t : bytes * list bytes * bytes * bytes * list (Z * Z)) : Member :=
  let '(n, al, mac, ip, po) := t in mkMember n al mac ip po.

#[export] Instance toy_json : NetJson := {|
  subnet_to_vec s := toy_to (base s, prefix s, gateway s);
  subnet_from_slice b := match toy_from (A := bytes * Z * bytes) b with Some (x, p, g) => Some (mkSubnet x p g) | None => None end;
  members_to_vec ms := toy_to (List.map member_tuple ms);
  members_from_slice b := option_map (List.map tuple_member) (toy_from (A := list (bytes * list bytes * bytes * bytes * list (Z * Z))) b);
|}.

#[export] Instance toy_json_laws : NetJsonLaws toy_json.
Proof.
split.
- intros [x p g] _. destruct (toy_round (x, p, g)) as (b & H1 & H2). exists b. split; [exact H1|]. cbn [subnet_from_slice toy_json]. by rewrite H2.
- intros ms _. destruct (toy_round (List.map member_tuple ms)) as (b & H1 & H2). exists b. split; [exact H1|]. cbn [members_from_slice toy_json].
  rewrite H2. cbn. f_equal. rewrite map_map. rewrite <- (map_id ms) at 2. apply map_ext. by intros [].
Qed.

(** An empty home directory, a network, and two runs. *)
Definition net_home : path := [str "home"].
Definition net_fs : gmap path node := {[ [] := NDir; net_home := NDir ]}.
Definition net_world (fs : gmap path node) : World := mkWorld fs [] 7 0.
Definition web : net_op := Attach (str "web") [str "www"] [(8080, 80)%Z].
Definition after_web : gmap path node := w_fs (net_impl 1 2 3 net_home (str "mesh") web (net_world net_fs)).2.

Lemma net_fs_fresh : represents net_home (str "mesh") None net_fs.
Proof.
apply fresh_represents; [apply fs_wf_check; [reflexivity|by_eval]| |reflexivity].
intros p Hp. unfold net_fs. rewrite lookup_insert, lookup_singleton. repeat case_decide; auto.
Qed.

Lemma web_ok : op_repr web.
Proof. split; [done|]. split; repeat constructor; vm_compute; congruence. Qed.

Lemma registry_refines_witness :
  exists a', represents net_home (str "mesh") a' after_web /\
    net_spec (str "mesh") web None (AMember (mkMember (str "web") [str "www"] (mac_for (str "web")) [x0a; x45; x04; x02] [(8080, 80)%Z])) a'.
Proof.
destruct (registry_refines net_home (str "mesh") 1 2 3 None web (net_world net_fs) net_fs_fresh web_ok) as (a' & Ha & He & _).
exists a'. split; [exact Ha|].
assert ((net_impl 1 2 3 net_home (str "mesh") web (net_world net_fs)).1 =
  Ret (AMember (mkMember (str "web") [str "www"] (mac_for (str "web")) [x0a; x45; x04; x02] [(8080, 80)%Z]))) as E by (vm_compute; reflexivity).
rewrite E in He. apply He.
Defined.

Lemma web_step ok : ok web -> net_step net_home (str "mesh") ok net_fs after_web.
Proof. intros H. exists web, 1%Z, 2%Z, 3%Z, (net_world net_fs). split; [done|]. split; [apply web_ok|done]. Qed.

Lemma addresses_unique_witness :
  exists ms w', inspect_members net_home (str "mesh") (net_world after_web) = (Ret ms, w') /\ length ms = 1 /\ NoDup (m_ip <$> ms).
Proof.
destruct (inspect_members net_home (str "mesh") (net_world after_web)) as [o w'] eqn:E.
assert (match o with Ret ms => length ms = 1 | _ => False end) as Ho.
{ replace o with (inspect_members net_home (str "mesh") (net_world after_web)).1 by (by rewrite E). vm_compute. reflexivity. }
destruct o as [ms|e|]; [|destruct Ho|destruct Ho]. exists ms, w'. split; [reflexivity|]. split; [exact Ho|].
apply (addresses_unique net_home (str "mesh") None net_fs after_web (net_world after_web) w' ms net_fs_fresh); [|done|exact E].
apply rtc_once. by apply web_step.
Defined.

Lemma address_stable_witness :
  exists g', represents net_home (str "mesh") (Some g') after_web /\ is_Some (g' !! str "web").
Proof.
destruct (impl_refines net_home (str "mesh") 1 2 3 None web (net_world net_fs) net_fs_fresh web_ok) as (a' & Ha & He & _).
assert (exists m, (net_impl 1 2 3 net_home (str "mesh") web (net_world net_fs)).1 = Ret (AMember m)) as [m E] by (eexists; vm_compute; reflexivity).
rewrite E in He. destruct He as [He _]. inversion He as [n al po a m' g' Hj| | | | |]; subst.
assert (g' !! str "web" = Some m) as Hm.
{ destruct Hj as [[Hm ->]|(_ & h & _ & _ & ->)]; [done|]. apply lookup_insert_eq. }
destruct (address_stable net_home (str "mesh") g' (str "web") m after_web after_web Ha Hm) as (g2 & H1 & H2); [apply rtc_refl|].
exists g2. split; [exact H1|]. rewrite H2. eauto.
Defined.

Definition empty_mesh : gmap path node := w_fs (create 1 2 net_home (str "mesh") (net_world net_fs)).2.

Lemma empty_mesh_represents : represents net_home (str "mesh") (Some ∅) empty_mesh.
Proof.
destruct net_fs_fresh as (st & Hat & Hr).
assert (wp true net_fs (create 1 2 net_home (str "mesh")) (fun _ fs' => represents net_home (str "mesh") (Some ∅) fs')) as H.
{ apply (wp_create net_home (str "mesh") true net_fs st 1 2 net_fs None); [done|done| |done|done].
  intros st' fs' Hat' Hr'. by apply (stands_represents net_home (str "mesh") net_fs st'). }
exact (proj1 (H (net_world net_fs) eq_refl (fun _ => eq_refl))).
Qed.

Lemma rm_race_witness :
  exists w1 m w2 w3,
    rm_check net_home (str "mesh") (net_world empty_mesh) = (Ret tt, w1) /\
    attach 3 4 5 net_home (str "mesh") (str "web") [] [] (mkWorld (w_fs w1) [] 8 0) = (Ret m, w2) /\
    rm_remove net_home (str "mesh") (mkWorld (w_fs w2) [] (w_pid w1) (w_next w1)) = (Ret tt, w3) /\
    inspect_members net_home (str "mesh") w3 = (Throw (Io NotFoundKind), w3).
Proof.
apply (rm_race net_home (str "mesh") 3 4 5 (str "web") [] [] (net_world empty_mesh) 8 empty_mesh_represents eq_refl); [vm_compute; reflexivity|].
split; [vm_compute; reflexivity|]. split; constructor.
Defined.
