(* ===== verification/NetSwitch.v ===== *)
(** The network registry and the switch together (crates/lightr-run/src/vswitch/switch_host.rs):
    the message with which a member attaches, and the addresses that the switch's DHCP and
    DNS servers then give out. *)

From S2P Require Import Prelude Text Error Digest Fs FsFacts Calm Wp Dhcp Dns VSwitch Network.

(** * The attach message *)

Definition encode_meta (mac ip name : bytes) : bytes := mac ++ ip ++ [byte_of_Z (Z.of_nat (length name))] ++ name.

Definition decode_meta (buf : bytes) : option (bytes * bytes * bytes) :=
  if bool_decide (length buf < 11) then None else
  let mac := take 6 buf in
  let ip := take 4 (drop 6 buf) in
  let nlen := Z.to_nat (bval (default x00 (buf !! 10))) in
  if bool_decide (11 + nlen <= length buf) then
    let name := take nlen (drop 11 buf) in
    if utf8_valid name then Some (mac, ip, name) else None
  else None.

(** The switch host adds the member of a well-formed message; other messages are dropped. *)
Definition accept (fd : Sock) (meta : bytes) (s : Shared) : Shared :=
  match decode_meta meta with
  | Some (mac, ip, name) => (add_member fd mac ip name s).2
  | None => s
  end.

(** The members attach one after the other. *)
Definition attach_all (ms : list (Sock * Member)) (s : Shared) : Shared :=
  foldl (fun s '(fd, m) => accept fd (encode_meta (m_mac m) (m_ip m) (m_name m)) s) s ms.

(** * What the switch then answers *)

(** The message is read back as it was written, as long as the name has at most 255 bytes. *)
Lemma meta_read (mac ip name : bytes) :
  length mac = 6 -> length ip = 4 -> length name <= 255 -> utf8_valid name = true ->
  decode_meta (encode_meta mac ip name) = Some (mac, ip, name).
Proof.
intros Hm Hi Hn Hu. unfold decode_meta, encode_meta. set (n := byte_of_Z _).
assert (bval n = Z.of_nat (length name)) as En by (unfold n; rewrite bval_byte_of_Z; apply Z.mod_small; lia).
rewrite bool_decide_eq_false_2 by (rewrite !length_app; cbn [length]; lia).
rewrite (take_app_length' mac) by lia. rewrite (drop_app_length' mac _ 6) by lia. rewrite (take_app_length' ip) by lia.
assert ((mac ++ ip ++ [n] ++ name) !! 10 = Some n) as ->.
{ rewrite app_assoc. apply list_lookup_middle. rewrite length_app. lia. }
cbn [default Datatypes.id]. assert (drop 11 (mac ++ ip ++ [n] ++ name) = name) as ->.
{ rewrite !app_assoc. apply drop_app_length'. rewrite !length_app. cbn [length]. lia. }
change (default x00 (Some n)) with n. rewrite En, Nat2Z.id.
rewrite bool_decide_eq_true_2 by (rewrite !length_app; cbn [length]; lia). rewrite take_ge by lia. by rewrite Hu.
Qed.

(** What a list of attached members leaves in the tables: the last one with a key wins. *)
Lemma accept_meta fd m s :
  member_repr m -> length (m_name m) <= 255 ->
  accept fd (encode_meta (m_mac m) (m_ip m) (m_name m)) s = (add_member fd (m_mac m) (m_ip m) (m_name m) s).2.
Proof. intros (H1 & _ & H2 & H3 & _) H. unfold accept. by rewrite meta_read. Qed.

Definition attachable (m : Member) : Prop := member_repr m /\ length (m_name m) <= 255.

Lemma attach_all_cons fd m ms s :
  attachable m -> attach_all ((fd, m) :: ms) s = attach_all ms (add_member fd (m_mac m) (m_ip m) (m_name m) s).2.
Proof. intros [H1 H2]. unfold attach_all. cbn [foldl]. by rewrite accept_meta. Qed.

(** Keys of the members that follow decide. *)
Lemma attach_all_other ms s k :
  Forall attachable ms.*2 ->
  (k ∉ m_mac <$> ms.*2 -> lease_get (leases (attach_all ms s)) k = lease_get (leases s) k) /\
  (k ∉ (fun m => to_ascii_lowercase (m_name m)) <$> ms.*2 -> names (attach_all ms s) !! k = names s !! k).
Proof.
revert s. induction ms as [|[fd m] ms IH]; intros s Hok; [done|]. cbn [fmap list_fmap snd] in *. apply Forall_cons in Hok as [Hm Hok].
rewrite attach_all_cons by done. destruct (IH (add_member fd (m_mac m) (m_ip m) (m_name m) s).2 Hok) as [H1 H2].
split; intros [Hk Hr]%not_elem_of_cons; [rewrite H1 by done|rewrite H2 by done]; cbn; unfold lease_insert, lease_get; by rewrite lookup_insert_ne.
Qed.

Lemma attach_all_lookup ms fd m s :
  Forall attachable ms.*2 -> (fd, m) ∈ ms ->
  (NoDup (m_mac <$> ms.*2) -> lease_get (leases (attach_all ms s)) (m_mac m) = Some (m_ip m)) /\
  (NoDup ((fun m => to_ascii_lowercase (m_name m)) <$> ms.*2) -> names (attach_all ms s) !! to_ascii_lowercase (m_name m) = Some (m_ip m)).
Proof.
revert s. induction ms as [|[fd' m'] ms IH]; intros s Hok Hin; [by apply not_elem_of_nil in Hin|].
cbn [fmap list_fmap snd] in *. apply Forall_cons in Hok as [Hm Hok]. rewrite attach_all_cons by done.
apply elem_of_cons in Hin as [[= -> ->]|Hin].
- destruct (attach_all_other ms (add_member fd' (m_mac m') (m_ip m') (m_name m') s).2 (m_mac m') Hok) as [H1 _].
  destruct (attach_all_other ms (add_member fd' (m_mac m') (m_ip m') (m_name m') s).2 (to_ascii_lowercase (m_name m')) Hok) as [_ H2].
  split; intros [Hn _]%NoDup_cons; [rewrite H1 by done|rewrite H2 by done]; cbn; unfold lease_insert, lease_get; by rewrite lookup_insert_eq.
- destruct (IH (add_member fd' (m_mac m') (m_ip m') (m_name m') s).2 Hok Hin) as [H1 H2]. split; intros [_ Hn]%NoDup_cons; auto.
Qed.

Section theorems.
Context `{B3 : Blake3}.


Context `{J : NetJson} `{JL : !NetJsonLaws J}.

(** Two names whose hashes agree in three bytes share one hardware address, and nothing
    notices: both attach to a network, with different addresses, but the switch then offers
    the second one's address to the first. *)
Theorem mac_collision (home : path) (id : bytes) (up : option bytes) (t1 t2 t3 t4 t5 t6 : Z) (n1 n2 : bytes) (w : World) (fd1 fd2 : Sock) :
  represents home id (Some ∅) (w_fs w) -> w_faults w = [] ->
  op_repr (Attach n1 [] []) -> op_repr (Attach n2 [] []) -> length n1 <= 255 -> length n2 <= 255 ->
  n1 <> n2 -> mac_for n1 = mac_for n2 ->
  exists m1 w1 m2 w2,
    attach t1 t2 t3 home id n1 [] [] w = (Ret m1, w1) /\ attach t4 t5 t6 home id n2 [] [] w1 = (Ret m2, w2) /\
    m_ip m1 <> m_ip m2 /\
    let s := attach_all [(fd1, m1); (fd2, m2)] (start (subnet_for id) up) in
    lease_get (leases s) (m_mac m1) = Some (m_ip m2).
Proof.
intros Hr Hq H1 H2 L1 L2 Hne Hmac.
destruct (wp_returns _ _ _ w (wp_attach_empty home id t1 t2 t3 n1 [] [] _ Hr H1) eq_refl Hq) as (m1 & w1 & E1 & [Hn1 Hr1] & Hq1).
assert (wp true (w_fs w1) (attach t4 t5 t6 home id n2 [] []) (fun o fs' => exists m, o = Ret m /\ joins id {[ n1 := m1 ]} n2 [] [] m (<[n2 := m]> {[ n1 := m1 ]}))) as Hw2.
{ destruct Hr1 as (st & Hat & Hst). unfold attach. apply wp_bind, (wp_create home id true (w_fs w1) st t4 t5 _ (Some {[ n1 := m1 ]})); [done|done| |done|done].
  intros st' fs' Hat' Hst'. apply (wp_join home id true (w_fs w1) st' t6 fs' {[ n1 := m1 ]}); [done|done|done| | |done].
  - intros m g' fs2 Hj _. exists m. split; [done|]. assert (g' = <[n2 := m]> {[ n1 := m1 ]}) as <-; [|done].
    destruct Hj as [[E _]|(_ & h & _ & _ & ->)]; [by rewrite lookup_singleton_ne in E|done].
  - intros _ E. by rewrite map_size_singleton in E. }
destruct (wp_returns _ _ _ w1 Hw2 eq_refl Hq1) as (m2 & w2 & E2 & Hj & _). exists m1, w1, m2, w2. split; [done|]. split; [done|].
destruct Hj as [[E _]|(_ & h & (Hh & Hf & _) & -> & _)]; [by rewrite lookup_singleton_ne in E|].
assert (m_mac m1 = mac_for n1 /\ member_repr m1) as [Hm1 Hrep1].
{ destruct Hr1 as (st & _ & _ & (ms & Hs & Eg & _)). assert (m1 ∈ ms) as Hin.
  { assert (roster ms !! n1 = Some m1) as Hl by (rewrite <- Eg; apply lookup_singleton_eq). rewrite roster_find in Hl. apply find_some in Hl as [Hl _]. by apply list_elem_of_In. }
  destruct Hs as (_ & _ & Hmacs & Hreps). rewrite Forall_forall in Hreps. split; [rewrite <- Hn1|]; auto. }
split.
- intros E. apply Hf. unfold ips. rewrite map_to_list_singleton. cbn [fmap list_fmap snd]. cbn [m_ip] in E. rewrite E. apply list_elem_of_here.
- intros s. unfold s. rewrite !attach_all_cons; [|split; [split; [apply H2|repeat split; constructor]|done]|split; [done|by rewrite Hn1]].
  unfold attach_all. cbn. unfold lease_get, lease_insert. by rewrite Hm1, Hmac, lookup_insert_eq.
Qed.
End theorems.

(** * Examples *)

(** Under the stand-in hash the names [web1] and [web2] share a hardware address. *)
Lemma mac_collision_witness :
  exists m1 w1 m2 w2,
    attach 1 2 3 net_home (str "mesh") (str "web1") [] [] (net_world empty_mesh) = (Ret m1, w1) /\
    attach 4 5 6 net_home (str "mesh") (str "web2") [] [] w1 = (Ret m2, w2) /\ m_ip m1 <> m_ip m2 /\
    lease_get (leases (attach_all [(3, m1); (4, m2)] (start (subnet_for (str "mesh")) None))) (m_mac m1) = Some (m_ip m2).
Proof.
apply (mac_collision net_home (str "mesh") None 1 2 3 4 5 6 (str "web1") (str "web2") (net_world empty_mesh) 3 4 empty_mesh_represents eq_refl);
  [split; [reflexivity|split; constructor]|split; [reflexivity|split; constructor]|by_eval|by_eval|discriminate|vm_compute; reflexivity].
Defined.

Definition mesh_demo : list (Sock * Member) :=
  [(3, mkMember (str "db") [] (mac_for (str "db")) [x0a; x45; x04; x02] []); (4, mkMember (str "web") [] (mac_for (str "web")) [x0a; x45; x04; x03] [])].

