(* ===== verification/Stack.v ===== *)
(** The start of a compose stack (crates/lightr-build/src/build/compose): which services are
    active (up.rs), in which order the supervisor starts them (supervise_deps.rs), and how
    it waits for their dependencies (supervise_deps.rs, supervise.rs).  The records have the
    fields these functions read. *)

From S2P Require Import Prelude Text Error.

(** * Data (model.rs) *)

Inductive DepCondition := Started | Healthy | Completed.

Definition dep_condition_parse (s : option bytes) : DepCondition :=
  if bool_decide (s = Some (str "service_healthy")) then Healthy
  else if bool_decide (s = Some (str "service_completed_successfully")) then Completed
  else Started.

Record Service := mkService { profiles : list bytes; spec_name : bytes; spec_depends_on : list (bytes * DepCondition) }.

Record ServiceSpec := mkSpec {
  name : bytes; command : list bytes; eager : bool; depends_on : list (bytes * DepCondition); run_dir : option bytes }.

(** * Active services (up.rs) *)

Definition profile_selected (svc : Service) (active : gset bytes) : bool :=
  bool_decide (profiles svc = []) || existsb (fun p => bool_decide (p ∈ active)) (profiles svc).

(** A map collected from an iterator: the last of equal keys stays. *)
Definition by_name (services : list Service) : gmap bytes Service :=
  foldl (fun m s => <[spec_name s := s]> m) ∅ services.

(** The dependencies of one service that are declared. *)
Definition pulled (services : list Service) (n : bytes) : list bytes :=
  match by_name services !! n with
  | Some svc => filter (fun d => is_Some (by_name services !! d)) (spec_depends_on svc).*1
  | None => []
  end.

(** One round of the loop over the names selected so far, and whether it added one. *)
Definition activate_round (services : list Service) (selected : gset bytes) : gset bytes * bool :=
  foldl (fun '(sel, added) d => if bool_decide (d ∈ sel) then (sel, added) else ({[ d ]} ∪ sel, true))
        (selected, false) (elements selected ≫= pulled services).

(** [None] when the rounds given are used up. *)
Fixpoint activate (rounds : nat) (services : list Service) (selected : gset bytes) : option (gset bytes) :=
  match rounds with
  | O => None
  | S rounds =>
      let '(selected, added) := activate_round services selected in
      if added then activate rounds services selected else Some selected
  end.

Definition active_service_names (services : list Service) (active : gset bytes) : option (gset bytes) :=
  activate (S (length services)) services
    (list_to_set (spec_name <$> filter (fun s => profile_selected s active = true) services)).

(** * Start order (supervise_deps.rs) *)

Definition index_of (services : list ServiceSpec) : gmap bytes nat :=
  foldl (fun m '(i, s) => <[name s := i]> m) ∅ (imap (fun i s => (i, s)) services).

(** The edges in the order of the two loops: dependency, dependent. *)
Definition edges (services : list ServiceSpec) : list (nat * nat) :=
  mjoin (imap (fun i s => omap (fun '(dep, _) => (fun d => (d, i)) <$> index_of services !! dep) (depends_on s)) services).

(** The counts and the lists of dependents that the loops build. *)
Definition add_edge (st : list nat * list (list nat)) (e : nat * nat) : list nat * list (list nat) :=
  (alter S e.2 st.1, alter (fun l => l ++ [e.2]) e.1 st.2).

Definition build (services : list ServiceSpec) : list nat * list (list nat) :=
  foldl add_edge (replicate (length services) 0, replicate (length services) []) (edges services).

(** The inner loop; [None] where the index or the subtraction would panic. *)
Fixpoint release (ds : list nat) (indegree queue : list nat) : option (list nat * list nat) :=
  match ds with
  | [] => Some (indegree, queue)
  | j :: ds =>
      match indegree !! j with
      | Some (S k) => release ds (<[j := k]> indegree) (if bool_decide (k = 0) then queue ++ [j] else queue)
      | _ => None
      end
  end.

(** The outer loop; [None] also when the turns given are used up. *)
Fixpoint drain (turns : nat) (dependents : list (list nat)) (queue order indegree : list nat) : option (list nat) :=
  match queue with
  | [] => Some order
  | i :: queue =>
      match turns with
      | O => None
      | S turns =>
          ds ← dependents !! i;
          '(indegree, queue) ← release ds indegree queue;
          drain turns dependents queue (order ++ [i]) indegree
      end
  end.

(** [stuck.join(", ")]. *)
Fixpoint join_comma (l : list bytes) : bytes :=
  match l with [] => [] | [s] => s | s :: l => s ++ str ", " ++ join_comma l end.

Definition cycle_error (services : list ServiceSpec) (stuck : list nat) : LightrError :=
  InvalidManifest (str "compose depends_on cycle among services: " ++
    join_comma (sort_by bytes_leb (omap (fun i => name <$> services !! i) stuck))).

(** [None] is a panic. *)
Definition topo_order (services : list ServiceSpec) : option (Result (list nat)) :=
  let n := length services in
  let '(indegree, dependents) := build services in
  let queue := filter (fun i => indegree !! i = Some 0) (seq 0 n) in
  order ← drain n dependents queue [] indegree;
  Some (if bool_decide (length order = n) then Ok order
        else Err (cycle_error services (filter (fun i => i ∉ order) (seq 0 n)))).

(** * Starting the eager services (supervise_deps.rs, supervise.rs) *)

Section start.
(** What the health file and the status file of a run directory say at the t-th poll, and the
    spawning of a service, which gives the run directory it is recorded with. *)
Variable healthy completed : nat -> bytes -> bool.
Variable spawn : ServiceSpec -> Result bytes.

Definition dep_condition_met (t : nat) (dir : bytes) (cond : DepCondition) : bool :=
  match cond with Started => true | Healthy => healthy t dir | Completed => completed t dir end.

(** The live [spec.json] is the list [live]. *)
Definition dep_run_dir (live : list ServiceSpec) (dep : bytes) : option bytes :=
  find (fun s => bool_decide (name s = dep)) live ≫= run_dir.

Definition dep_ready (t : nat) (live : list ServiceSpec) (dep : bytes) (cond : DepCondition) : bool :=
  match dep_run_dir live dep with Some dir => dep_condition_met t dir cond | None => false end.

(** The derived [Debug] of a condition. *)
Definition show_condition (cond : DepCondition) : bytes :=
  match cond with Started => str "Started" | Healthy => str "Healthy" | Completed => str "Completed" end.

Definition timed_out (dep : bytes) (cond : DepCondition) (svc : bytes) : LightrError :=
  InvalidManifest (str "compose depends_on wait for " ++ dep ++ str " (" ++ show_condition cond ++ str ") timed out; refusing to start " ++ svc).

(** The polls of one dependency; [rem] are the polls before the deadline. *)
Fixpoint wait_dep (rem t : nat) (live : list ServiceSpec) (svc dep : bytes) (cond : DepCondition) : Result (nat * nat) :=
  if dep_ready t live dep cond then Ok (rem, t)
  else match rem with
  | O => Err (timed_out dep cond svc)
  | S rem => wait_dep rem (S t) live svc dep cond
  end.

Fixpoint wait_deps (rem t : nat) (live : list ServiceSpec) (svc : bytes) (deps : list (bytes * DepCondition)) : Result nat :=
  match deps with
  | [] => Ok t
  | (dep, cond) :: deps => '(rem, t) ← wait_dep rem t live svc dep cond; wait_deps rem t live svc deps
  end.

(** The run directory is recorded with every service of the name, the first one stays. *)
Definition record_run (svc : ServiceSpec) (dir : bytes) (live : list ServiceSpec) : list ServiceSpec :=
  (fun s => if bool_decide (name s = name svc)
            then mkSpec (name s) (command s) (eager s) (depends_on s) (Some (default dir (run_dir s))) else s) <$> live.

Definition starts (svc : ServiceSpec) : bool := eager svc && negb (bool_decide (command svc = [])).

(** The loop over the order, with the services it started and the polls at which it did; an
    index outside the list would panic. *)
Fixpoint start_loop (polls : nat) (services live : list ServiceSpec) (t : nat) (order : list nat) : option (Result (list (nat * nat))) :=
  match order with
  | [] => Some (Ok [])
  | i :: order =>
      svc ← services !! i;
      if starts svc then
        match wait_deps polls t live (name svc) (depends_on svc) with
        | Err e => Some (Err e)
        | Ok t =>
            match spawn svc with
            | Err e => Some (Err e)
            | Ok dir =>
                r ← start_loop polls services (record_run svc dir live) t order;
                Some (match r with Ok rest => Ok ((i, t) :: rest) | Err e => Err e end)
            end
        end
      else start_loop polls services live t order
  end.

Definition eager_start (polls : nat) (services : list ServiceSpec) : option (Result (list (nat * nat))) :=
  r ← topo_order services;
  match r with
  | Err e => Some (Err e)
  | Ok order => start_loop polls services services 0 order
  end.
End start.

(** * The active services are a closure *)

(** The services a selection pulls in. *)
Definition pulls (services : list Service) (a b : bytes) : Prop := b ∈ pulled services a.

Lemma by_name_dom (services : list Service) : dom (by_name services) = list_to_set (spec_name <$> services).
Proof.
unfold by_name. assert (forall (acc : gmap bytes Service), dom (foldl (fun m s => <[spec_name s := s]> m) acc services) = dom acc ∪ list_to_set (spec_name <$> services)) as H.
{ induction services as [|s l IH]; intros acc; [set_solver|]. cbn [foldl fmap list_fmap]. rewrite IH, dom_insert_L, list_to_set_cons. set_solver. }
rewrite H, dom_empty_L. set_solver.
Qed.

Lemma by_name_size (services : list Service) : size (dom (by_name services)) <= length services.
Proof.
rewrite by_name_dom. induction services as [|s l IH]; [cbn; by rewrite size_empty|]. cbn [fmap list_fmap length]. rewrite list_to_set_cons, size_union_alt, size_singleton.
etrans; [apply Nat.add_le_mono_l, (subseteq_size _ (list_to_set (spec_name <$> l))); set_solver|]. cbn. lia.
Qed.

Lemma pulled_declared (services : list Service) (a b : bytes) : pulls services a b -> b ∈ dom (by_name services).
Proof.
unfold pulls, pulled. destruct (by_name services !! a); [|by intros ?%not_elem_of_nil]. intros [H _]%list_elem_of_filter. by apply elem_of_dom.
Qed.

(** A round adds what the selection pulls in, and says whether that was new. *)
Lemma activate_round_spec (services : list Service) (sel : gset bytes) :
  exists sel' added, activate_round services sel = (sel', added) /\
    (forall b, b ∈ sel' <-> b ∈ sel \/ exists a, a ∈ sel /\ pulls services a b) /\
    (if added then sel ⊂ sel' else sel' = sel).
Proof.
unfold activate_round. set (f := fun '(sel0, added) d => _).
assert (forall l (acc : gset bytes) (added : bool), sel ⊆ acc -> (if added then sel ⊂ acc else acc = sel) ->
  exists sel' added', foldl f (acc, added) l = (sel', added') /\ (forall b, b ∈ sel' <-> b ∈ acc \/ b ∈ l) /\ (if added' then sel ⊂ sel' else sel' = sel)) as H.
{ induction l as [|d l IH]; intros acc added Hsub Hadd; [exists acc, added; set_solver|]. cbn [foldl f].
  destruct (bool_decide_reflect (d ∈ acc)) as [Hd|Hd].
  - destruct (IH acc added Hsub Hadd) as (sel' & added' & E & H1 & H2). exists sel', added'. split; [done|]. split; [|done]. set_solver.
  - destruct (IH ({[ d ]} ∪ acc) true) as (sel' & added' & E & H1 & H2); [set_solver|set_solver|].
    exists sel', added'. split; [done|]. split; [|done]. set_solver. }
destruct (H (elements sel ≫= pulled services) sel false) as (sel' & added & E & H1 & H2); [done|done|].
exists sel', added. split; [done|]. split; [|done]. intros b. rewrite H1, list_elem_of_bind. setoid_rewrite elem_of_elements. unfold pulls. naive_solver.
Qed.

Lemma activate_spec (services : list Service) (rounds : nat) (sel : gset bytes) :
  sel ⊆ dom (by_name services) -> size (dom (by_name services)) - size sel < rounds ->
  exists sel', activate rounds services sel = Some sel' /\ forall b, b ∈ sel' <-> exists a, a ∈ sel /\ rtc (pulls services) a b.
Proof.
revert sel. induction rounds as [|rounds IH]; intros sel Hsub Hlt; [lia|]. cbn [activate].
destruct (activate_round_spec services sel) as (sel1 & added & -> & H1 & H2).
assert (sel1 ⊆ dom (by_name services)) as Hsub1 by (intros b [Hb|(a & _ & Hb)]%H1; [by apply Hsub|by eapply pulled_declared]).
destruct added.
- pose proof (subset_size _ _ H2). pose proof (subseteq_size _ _ Hsub1). destruct (IH sel1 Hsub1) as (sel' & E & Hiff); [lia|].
  exists sel'. split; [done|]. intros b. rewrite Hiff. split.
  + intros (a & [Ha|(c & Hc & Hca)]%H1 & Hr); [eauto|]. exists c. split; [done|]. by eapply rtc_l.
  + intros (a & Ha & Hr). exists a. split; [apply H1; by left|done].
- subst sel1. exists sel. split; [done|]. intros b. split; [intros Hb; exists b; split; [done|constructor]|].
  intros (a & Ha & Hr). induction Hr as [|a c b Hac _ IHr]; [done|]. apply IHr, H1. right. eauto.
Qed.

(** The services that a set of profiles activates are computed in full.  The fixpoint
    loop ends within one round more than there are services, and a name is active exactly when
    a chain of dependencies on declared services leads to it from a service whose own
    profiles select it. *)
Theorem active_services_exact (services : list Service) (active : gset bytes) :
  exists sel, active_service_names services active = Some sel /\
    forall b, b ∈ sel <-> exists s, s ∈ services /\ profile_selected s active = true /\ rtc (pulls services) (spec_name s) b.
Proof.
unfold active_service_names. set (roots := list_to_set _).
assert (forall a, a ∈ roots <-> exists s, s ∈ services /\ profile_selected s active = true /\ a = spec_name s) as Hroots.
{ intros a. unfold roots. rewrite elem_of_list_to_set, list_elem_of_fmap. setoid_rewrite list_elem_of_filter. naive_solver. }
destruct (activate_spec services (S (length services)) roots) as (sel & E & Hiff).
- intros a (s & Hs & _ & ->)%Hroots. rewrite by_name_dom. apply elem_of_list_to_set. by apply list_elem_of_fmap_2.
- pose proof (by_name_size services). lia.
- exists sel. split; [done|]. intros b. rewrite Hiff. setoid_rewrite Hroots. naive_solver.
Qed.

(** * The start order is topological *)

(** How often a value occurs. *)
Definition occurs (j : nat) (l : list nat) : nat := length (filter (fun x => x = j) l).

Lemma occurs_cons j x l : occurs j (x :: l) = (if decide (x = j) then 1 else 0) + occurs j l.
Proof. unfold occurs. rewrite filter_cons. by case_decide. Qed.

Lemma occurs_pos j l : j ∈ l <-> occurs j l <> 0.
Proof.
induction l as [|x l IH]; [split; [by intros ?%not_elem_of_nil|done]|]. rewrite elem_of_cons, occurs_cons, IH.
case_decide; [subst; split; [lia|by left]|]. split; [by intros [->|]|by right].
Qed.

(** The inner loop lowers each count by the number of edges, and queues what reaches zero,
    once. *)
Lemma release_spec ds ind queue :
  (forall j, j ∈ ds -> exists v, ind !! j = Some v /\ occurs j ds <= v) ->
  exists ind' new, release ds ind queue = Some (ind', queue ++ new) /\ length ind' = length ind /\
    (forall j v, ind !! j = Some v -> ind' !! j = Some (v - occurs j ds)) /\
    NoDup new /\ (forall j, j ∈ new <-> j ∈ ds /\ ind !! j = Some (occurs j ds)).
Proof.
revert ind queue. induction ds as [|j ds IH]; intros ind queue Hds.
{ exists ind, []. cbn [release]. rewrite app_nil_r. split; [done|]. split; [done|]. split; [intros j v ->; unfold occurs; cbn; f_equal; lia|].
  split; [constructor|]. intros j. split; [by intros ?%not_elem_of_nil|by intros [?%not_elem_of_nil _]]. }
destruct (Hds j (list_elem_of_here _ _)) as (v & Hv & Hle). rewrite occurs_cons, decide_True in Hle by done.
destruct v as [|k]; [lia|]. cbn [release]. rewrite Hv.
set (ind1 := <[j := k]> ind). assert (j < length ind) as Hj by (by eapply lookup_lt_Some).
assert (forall x, ind1 !! x = if decide (x = j) then Some k else ind !! x) as Hind1.
{ intros x. unfold ind1. destruct (decide (x = j)) as [->|]; [by rewrite list_lookup_insert_eq|by rewrite list_lookup_insert_ne]. }
destruct (IH ind1 (if bool_decide (k = 0) then queue ++ [j] else queue)) as (ind' & new & E & Hlen & Hval & Hnd & Hnew).
{ intros x Hx. destruct (Hds x (list_elem_of_further _ _ _ Hx)) as (w & Hw & Hwle). rewrite occurs_cons in Hwle. rewrite Hind1.
  destruct (decide (x = j)) as [->|Hne]; [exists k; split; [done|]; rewrite decide_True in Hwle by done; simplify_eq; lia|]. rewrite decide_False in Hwle by done. exists w. split; [done|lia]. }
assert (forall x v, ind !! x = Some v -> ind' !! x = Some (v - occurs x (j :: ds))) as Hval'.
{ intros x w Hw. rewrite occurs_cons. destruct (decide (j = x)) as [<-|Hne].
  - rewrite (Hval j k) by (rewrite Hind1; by rewrite decide_True). rewrite Hv in Hw. injection Hw as <-. f_equal; lia.
  - rewrite (Hval x w) by (rewrite Hind1; by rewrite decide_False). f_equal; lia. }
assert (k = 0 -> j ∉ ds) as Hk0 by (intros ->; rewrite occurs_pos; lia).
assert (forall x, x ∈ (if bool_decide (k = 0) then [j] else []) ++ new <-> x ∈ j :: ds /\ ind !! x = Some (occurs x (j :: ds))) as Hnew'.
{ intros x. rewrite elem_of_app, Hnew, Hind1, occurs_cons, elem_of_cons. destruct (decide (x = j)) as [->|Hne].
  - rewrite decide_True by done. rewrite Hv. destruct (bool_decide_reflect (k = 0)) as [->|Hk].
    + specialize (Hk0 eq_refl). rewrite list_elem_of_singleton. assert (occurs j ds = 0) as -> by (destruct (occurs j ds) eqn:Eo; [done|]; exfalso; apply Hk0, occurs_pos; lia). naive_solver.
    + rewrite elem_of_nil. split; [intros [[]|[Hd [= ->]]]; split; [by left|done]|]. intros [_ [= E']]. right. split; [|by rewrite E']. apply occurs_pos. lia.
  - rewrite decide_False by done. destruct (bool_decide (k = 0)); rewrite ?list_elem_of_singleton, ?elem_of_nil; naive_solver. }
exists ind', ((if bool_decide (k = 0) then [j] else []) ++ new). split.
{ rewrite E. f_equal. f_equal. case_bool_decide; [by rewrite <- app_assoc|done]. }
split; [rewrite Hlen; unfold ind1; apply length_insert|]. split; [done|]. split; [|done].
case_bool_decide as Ek; [|done]. apply NoDup_cons. split; [|done]. rewrite Hnew. intros [Hd _]. by apply Hk0.
Qed.

Section kahn.
Context (n : nat) (E : list (nat * nat)).
Hypothesis HE : forall e, e ∈ E -> e.1 < n /\ e.2 < n.

(** The edges into a service from services that are not yet in the order. *)
Definition waiting (order : list nat) (j : nat) : nat := length (filter (fun e => e.2 = j /\ e.1 ∉ order) E).
Definition out_of (i : nat) : list nat := (filter (fun e => e.1 = i) E).*2.

Lemma waiting_step order i j : i ∉ order -> waiting order j = occurs j (out_of i) + waiting (order ++ [i]) j.
Proof.
intros Hi. unfold waiting, out_of. clear HE. induction E as [|[d k] l IH]; [done|]. rewrite !filter_cons. cbn [fst snd].
destruct (decide (d = i)) as [->|Hd].
- rewrite fmap_cons, occurs_cons. cbn [snd]. rewrite (decide_False (P := k = j /\ i ∉ order ++ [i])) by (rewrite elem_of_app, list_elem_of_singleton; naive_solver).
  destruct (decide (k = j)) as [->|Hk].
  + rewrite decide_True by done. cbn [length]. rewrite IH. lia.
  + rewrite decide_False by naive_solver. rewrite IH. lia.
- assert (k = j /\ d ∉ order ++ [i] <-> k = j /\ d ∉ order) as Hiff by (rewrite elem_of_app, list_elem_of_singleton; naive_solver).
  rewrite (decide_ext _ _ _ _ Hiff). case_decide; cbn [length]; rewrite IH; lia.
Qed.

Lemma waiting_zero order j : waiting order j = 0 <-> forall d, (d, j) ∈ E -> d ∈ order.
Proof.
unfold waiting. rewrite length_zero_iff_nil. split.
- intros H d Hd. destruct (decide (d ∈ order)) as [|Hn]; [done|]. assert ((d, j) ∈ filter (fun e => e.2 = j /\ e.1 ∉ order) E) as Hin by (by apply list_elem_of_filter).
  rewrite H in Hin. by apply not_elem_of_nil in Hin.
- intros H. destruct (filter _ E) as [|[d k] l] eqn:Ef; [done|]. assert ((d, k) ∈ filter (fun e => e.2 = j /\ e.1 ∉ order) E) as Hin by (rewrite Ef; apply list_elem_of_here).
  apply list_elem_of_filter in Hin as [[Hk Hn] Hin]. cbn in *. subst. by apply H in Hin.
Qed.

Lemma out_of_elem i j : j ∈ out_of i <-> (i, j) ∈ E.
Proof.
unfold out_of. rewrite list_elem_of_fmap. split.
- intros ([d k] & -> & [Hd Hin]%list_elem_of_filter). cbn in *. by subst.
- intros H. exists (i, j). split; [done|]. by apply list_elem_of_filter.
Qed.

(** The state of the outer loop. *)
Record kahn_inv (queue order indegree : list nat) : Prop := {
  ki_nodup : NoDup (order ++ queue);
  ki_bound i : i ∈ order ++ queue -> i < n;
  ki_count j : j < n -> indegree !! j = Some (waiting order j);
  ki_ready j : j < n -> (j ∈ order ++ queue <-> waiting order j = 0);
  ki_before k i d : order !! k = Some i -> (d, i) ∈ E -> d ∈ take k order;
}.

Lemma kahn_step i queue order indegree :
  kahn_inv (i :: queue) order indegree ->
  exists indegree' new, release (out_of i) indegree queue = Some (indegree', queue ++ new) /\ kahn_inv (queue ++ new) (order ++ [i]) indegree'.
Proof.
intros [Hnd Hb Hc Hr Hbef].
assert (i ∈ order ++ i :: queue) as Hin by (rewrite elem_of_app; right; apply list_elem_of_here).
assert (i < n) as Hi by (by apply Hb). assert (waiting order i = 0) as Hwi by (by apply Hr).
apply NoDup_app in Hnd as (Hno & Hdis & [Hiq Hnq]%NoDup_cons). assert (i ∉ order) as Hio by (intros H; apply (Hdis i H), list_elem_of_here).
destruct (release_spec (out_of i) indegree queue) as (ind' & new & Er & Hlen & Hval & Hnn & Hnew).
{ intros j Hj. apply out_of_elem, HE in Hj as [_ Hj]. cbn in Hj. rewrite (Hc j Hj). eexists. split; [done|]. rewrite (waiting_step order i j Hio). lia. }
exists ind', new. split; [done|].
assert (forall j, j < n -> ind' !! j = Some (waiting (order ++ [i]) j)) as Hc'.
{ intros j Hj. rewrite (Hval j _ (Hc j Hj)), (waiting_step order i j Hio). f_equal. lia. }
assert (forall j, j ∈ new <-> j < n /\ waiting order j <> 0 /\ waiting (order ++ [i]) j = 0) as Hnew'.
{ intros j. rewrite Hnew. split.
  - intros [Hj Hv]. pose proof Hj as Hj'. apply out_of_elem, HE in Hj' as [_ Hjn]. cbn in Hjn. split; [done|].
    rewrite (Hc j Hjn) in Hv. injection Hv as Hv. apply occurs_pos in Hj. rewrite (waiting_step order i j Hio) in Hv |- *. lia.
  - intros (Hjn & Hw & Hw'). rewrite (Hc j Hjn). rewrite (waiting_step order i j Hio) in Hw |- *. rewrite Hw' in *. split; [apply occurs_pos; lia|f_equal; lia]. }
split.
- rewrite <- app_assoc. cbn. apply NoDup_app. split; [done|]. split.
  + intros x Hx. rewrite elem_of_cons, elem_of_app. intros [->|[Hxq|Hxn]]; [done|apply (Hdis x Hx); by apply list_elem_of_further|].
    apply Hnew' in Hxn as (Hxb & Hw & _). apply Hw, Hr; [done|]. rewrite elem_of_app. by left.
  + apply NoDup_cons. split.
    * rewrite elem_of_app, Hnew'. intros [?|(_ & Hw & _)]; done.
    * apply NoDup_app. split; [done|]. split; [|done]. intros x Hx Hxn. apply Hnew' in Hxn as (Hxb & Hw & _).
      apply Hw, Hr; [done|]. rewrite elem_of_app, elem_of_cons. auto.
- intros x. rewrite !elem_of_app, list_elem_of_singleton. intros [[Hx| ->]|[Hx|Hx]]; [apply Hb; rewrite elem_of_app; by left|done| |by apply Hnew'].
  apply Hb. rewrite elem_of_app, elem_of_cons. auto.
- done.
- intros j Hj. rewrite <- app_assoc. rewrite !elem_of_app, list_elem_of_singleton, Hnew'. specialize (Hr j Hj). rewrite elem_of_app, elem_of_cons in Hr.
  pose proof (waiting_step order i j Hio) as Hs. split.
  + intros [H|[->|[H|(_ & _ & H)]]]; [|lia| |done]; (assert (waiting order j = 0) as Hz by (apply Hr; auto)); lia.
  + intros Hz. destruct (decide (waiting order j = 0)) as [Hw|Hw]; [|right; right; right; done]. apply Hr in Hw. tauto.
- intros k x d Hk Hd. destruct (decide (k < length order)) as [Hlt|Hge].
  + rewrite lookup_app_l in Hk by done. rewrite take_app_le by lia. by eapply Hbef.
  + rewrite lookup_app_r in Hk by lia. apply list_lookup_singleton_Some in Hk as [Hk <-].
    rewrite take_app_length' by lia. rewrite waiting_zero in Hwi. by apply Hwi.
Qed.
End kahn.

(** What the two building loops leave. *)
Lemma build_spec n E :
  (forall e, e ∈ E -> e.1 < n /\ e.2 < n) ->
  let st := foldl add_edge (replicate n 0, replicate n []) E in
  forall j, j < n -> st.1 !! j = Some (occurs j E.*2) /\ st.2 !! j = Some (out_of E j).
Proof.
intros HE st. unfold st. clear st. induction E as [|[d k] E IH] using rev_ind; intros j Hj.
{ cbn. by rewrite !lookup_replicate_2. }
rewrite foldl_snoc. destruct (IH (fun e He => HE e (proj2 (elem_of_app _ _ _) (or_introl He))) j Hj) as [H1 H2].
set (st := foldl add_edge _ E) in *. unfold add_edge. cbn [fst snd].
unfold out_of, occurs in *. rewrite fmap_app, !filter_app, length_app, fmap_app. cbn [fmap list_fmap snd]. rewrite !filter_cons, !filter_nil. cbn [fst snd]. split.
- destruct (decide (k = j)) as [->|Hk]; [rewrite list_lookup_alter_eq, H1; cbn; f_equal; lia|]. rewrite list_lookup_alter_ne by done. rewrite H1. cbn. f_equal. lia.
- destruct (decide (d = j)) as [->|Hd]; [by rewrite list_lookup_alter_eq, H2|]. rewrite list_lookup_alter_ne by done. rewrite H2. cbn. by rewrite app_nil_r.
Qed.

(** The loop ends within [n] turns: every turn moves one service into the order. *)
Lemma drain_spec n E dependents turns queue order indegree :
  (forall e, e ∈ E -> e.1 < n /\ e.2 < n) -> (forall j, j < n -> dependents !! j = Some (out_of E j)) ->
  kahn_inv n E queue order indegree -> n <= turns + length order ->
  exists order' indegree', drain turns dependents queue order indegree = Some order' /\ kahn_inv n E [] order' indegree'.
Proof.
intros HE Hdep. revert queue order indegree. induction turns as [|turns IH]; intros [|i queue] order ind Hinv Hn; cbn [drain]; [by eauto| |by eauto|].
- exfalso. assert (order ++ i :: queue ⊆+ seq 0 n) as Hs%submseteq_length.
  { apply NoDup_submseteq; [apply Hinv|]. intros x Hx%(ki_bound _ _ _ _ _ Hinv). apply elem_of_seq. lia. }
  rewrite length_app, length_seq in Hs. cbn in Hs. lia.
- assert (i < n) as Hi by (apply (ki_bound _ _ _ _ _ Hinv); rewrite elem_of_app; right; apply list_elem_of_here).
  rewrite (Hdep i Hi). cbn [mbind option_bind]. destruct (kahn_step n E HE i queue order ind Hinv) as (ind' & new & -> & Hinv').
  cbn [mbind option_bind]. apply IH; [done|]. rewrite length_app. cbn. lia.
Qed.

(** [i] depends on [d]. *)
Definition depends (services : list ServiceSpec) (i d : nat) : Prop := (d, i) ∈ edges services.

Lemma index_of_bound services m i : index_of services !! m = Some i -> exists s, services !! i = Some s /\ name s = m.
Proof.
unfold index_of. assert (forall l (acc : gmap bytes nat), (forall m i, acc !! m = Some i -> exists s, services !! i = Some s /\ name s = m) ->
  (forall p, p ∈ l -> services !! p.1 = Some p.2) ->
  forall m i, foldl (fun m '(i, s) => <[name s := i]> m) acc l !! m = Some i -> exists s, services !! i = Some s /\ name s = m) as H.
{ induction l as [|[k s] l IH]; intros acc Hacc Hl m' i'; [apply Hacc|]. cbn [foldl]. apply IH.
  - intros m0 i0. rewrite lookup_insert. case_decide as Ed; [|apply Hacc]. intros [= <-]. exists s. split; [|done].
    apply (Hl (k, s)), list_elem_of_here.
  - intros p Hp. by apply Hl, list_elem_of_further. }
apply H; [by intros ?? ?%lookup_empty_Some|]. intros p Hp. apply elem_of_lookup_imap in Hp as (k & s & -> & Hs). done.
Qed.

Lemma edges_elem services d i :
  (d, i) ∈ edges services <-> exists s dep c, services !! i = Some s /\ (dep, c) ∈ depends_on s /\ index_of services !! dep = Some d.
Proof.
unfold edges. rewrite list_elem_of_join. split.
- intros (l & Hin & Hl). apply elem_of_lookup_imap in Hl as (k & s & -> & Hs). apply list_elem_of_omap in Hin as ([dep c] & Hd & Hf).
  destruct (index_of services !! dep) as [d'|] eqn:Ei; [|done]. injection Hf as -> ->. eauto 10.
- intros (s & dep & c & Hs & Hd & Hi). eexists. split; [|apply elem_of_lookup_imap; exists i, s; split; [reflexivity|done]].
  apply list_elem_of_omap. exists (dep, c). split; [done|]. by rewrite Hi.
Qed.

Lemma edges_bound services e : e ∈ edges services -> e.1 < length services /\ e.2 < length services.
Proof.
destruct e as [d i]. rewrite edges_elem. intros (s & dep & c & Hs & _ & (s' & Hs' & _)%index_of_bound). cbn. split; by eapply lookup_lt_Some.
Qed.

(** A finite set in which everything depends on something in it has a cycle. *)
Lemma stuck_cycle (R : relation nat) (l : list nat) :
  l <> [] -> (forall i, i ∈ l -> exists d, d ∈ l /\ R i d) -> exists i, i ∈ l /\ tc R i i.
Proof.
revert R. induction l as [|x l IH]; intros R Hl HR; [done|].
destruct (HR x (list_elem_of_here _ _)) as (y & [->|Hy]%elem_of_cons & Hxy); [exists x; split; [apply list_elem_of_here|by apply tc_once]|].
destruct (IH (fun i d => R i d \/ (R i x /\ R x d))) as (i & Hi & Hc).
- intros ->. by apply not_elem_of_nil in Hy.
- intros i Hi. destruct (HR i (list_elem_of_further _ _ _ Hi)) as (d & [->|Hd]%elem_of_cons & Hid); [exists y; eauto|eauto].
- exists i. split; [by apply list_elem_of_further|]. clear Hi. revert Hc. generalize i at 1 3. intros j Hc. induction Hc as [a b [H|[H1 H2]]|a b c [H|[H1 H2]] _ IHc]; [by apply tc_once|by eapply tc_l, tc_once|by eapply tc_l|by eapply tc_l, tc_l].
Qed.

Lemma waiting_nil E j : waiting E [] j = occurs j E.*2.
Proof.
unfold waiting, occurs. induction E as [|[d k] E IH]; [done|]. rewrite fmap_cons, !filter_cons. cbn [snd fst].
rewrite (decide_ext (k = j /\ d ∉ []) (k = j)) by (split; [tauto|intros; split; [done|apply not_elem_of_nil]]). case_decide; cbn [length]; by rewrite IH.
Qed.

Lemma topo_drains services :
  exists order ind, topo_order services = Some (if bool_decide (length order = length services) then Ok order
      else Err (cycle_error services (filter (fun i => i ∉ order) (seq 0 (length services))))) /\
    kahn_inv (length services) (edges services) [] order ind.
Proof.
set (n := length services). pose proof (build_spec n (edges services) (edges_bound services)) as Hb. cbv zeta in Hb.
unfold topo_order. fold n. unfold build. fold n. destruct (foldl add_edge (replicate n 0, replicate n []) (edges services)) as [ind deps]. cbn [fst snd] in Hb.
destruct (drain_spec n (edges services) deps n (filter (fun i => ind !! i = Some 0) (seq 0 n)) [] ind (edges_bound services)) as (order & ind' & E & Hinv).
- intros j Hj. by apply Hb.
- split; cbn [app].
  + apply NoDup_filter, NoDup_seq.
  + intros i [_ Hi%elem_of_seq]%list_elem_of_filter. lia.
  + intros j Hj. rewrite waiting_nil. by apply Hb.
  + intros j Hj. rewrite list_elem_of_filter, elem_of_seq, waiting_nil, (proj1 (Hb j Hj)). split; [by intros [[= ->] _]|intros ->; split; [done|lia]].
  + by intros k i d Hk.
- cbn. lia.
- exists order, ind'. rewrite E. done.
Qed.

Lemma topo_sub services order ind : kahn_inv (length services) (edges services) [] order ind -> NoDup order /\ order ⊆+ seq 0 (length services).
Proof.
intros Hinv. assert (NoDup order) as Hnd by (pose proof (ki_nodup _ _ _ _ _ Hinv) as H; by rewrite app_nil_r in H). split; [done|].
apply NoDup_submseteq; [done|]. intros i Hi. apply elem_of_seq. assert (i < length services); [|lia]. apply (ki_bound _ _ _ _ _ Hinv). by rewrite app_nil_r.
Qed.

(** Positions decrease along dependencies, so a complete order excludes cycles. *)
Lemma topo_acyclic services order ind :
  kahn_inv (length services) (edges services) [] order ind -> length order = length services -> forall i, ~ tc (depends services) i i.
Proof.
intros Hinv Hlen i Hi. destruct (topo_sub _ _ _ Hinv) as [Hnd Hsub].
assert (order ≡ₚ seq 0 (length services)) as Hp by (apply submseteq_length_Permutation; [done|rewrite length_seq; lia]).
assert (forall i d, tc (depends services) i d -> forall k, order !! k = Some i -> exists k', k' < k /\ order !! k' = Some d) as Hpos.
{ induction 1 as [x d Hd|x d y Hd _ IH]; intros k Hk; (assert (d ∈ take k order) as Hin by (by eapply (ki_before _ _ _ _ _ Hinv)));
    apply elem_of_take in Hin as (k' & Hk' & Hlt); [by exists k'|]. destruct (IH k' Hk') as (k2 & ? & ?). exists k2. split; [lia|done]. }
assert (i ∈ order) as [k Hk]%list_elem_of_lookup.
{ rewrite Hp, elem_of_seq. inversion Hi; subst; match goal with H : depends _ i _ |- _ => apply edges_bound in H as [_ H]; cbn in H end; lia. }
destruct (Hpos i i Hi k Hk) as (k' & Hlt & Hk'). assert (k = k') by (by eapply NoDup_lookup). lia.
Qed.

(** What is left out of the order depends on what is left out. *)
Lemma topo_left services order ind :
  kahn_inv (length services) (edges services) [] order ind -> length order <> length services ->
  let stuck := filter (fun i => i ∉ order) (seq 0 (length services)) in
  stuck <> [] /\ (forall i, i ∈ stuck -> exists d, d ∈ stuck /\ depends services i d) /\ exists i, i ∈ stuck /\ tc (depends services) i i.
Proof.
intros Hinv Hlen stuck. destruct (topo_sub _ _ _ Hinv) as [Hnd Hsub]. set (n := length services) in *.
assert (stuck <> []) as Hne.
{ intros Es. apply Hlen. assert (seq 0 n ⊆+ order) as Hsub'%submseteq_length.
  { apply NoDup_submseteq; [apply NoDup_seq|]. intros i Hi. destruct (decide (i ∈ order)) as [|Hn]; [done|].
    assert (i ∈ stuck) as Hs by (by apply list_elem_of_filter). rewrite Es in Hs. by apply not_elem_of_nil in Hs. }
  apply submseteq_length in Hsub. rewrite length_seq in *. lia. }
assert (forall i, i ∈ stuck -> exists d, d ∈ stuck /\ depends services i d) as Hdep.
{ intros i [Hn Hi%elem_of_seq]%list_elem_of_filter. assert (i < n) as Hi' by lia.
  assert (waiting (edges services) order i <> 0) as Hw.
  { intros Hz. apply Hn. apply (ki_ready _ _ _ _ _ Hinv) in Hz; [|done]. by rewrite app_nil_r in Hz. }
  unfold waiting in Hw. destruct (filter _ (edges services)) as [|[d j] l] eqn:Ef; [done|].
  assert ((d, j) ∈ filter (fun e => e.2 = i /\ e.1 ∉ order) (edges services)) as [[<- Hd] Hin]%list_elem_of_filter by (rewrite Ef; apply list_elem_of_here).
  exists d. split; [|done]. apply list_elem_of_filter. split; [done|]. apply elem_of_seq. apply edges_bound in Hin as [Hd' _]. cbn in Hd'. lia. }
split; [done|]. split; [done|]. by apply stuck_cycle.
Qed.

Lemma topo_ok_acyclic services order : topo_order services = Some (Ok order) -> forall i, ~ tc (depends services) i i.
Proof.
destruct (topo_drains services) as (order' & ind & -> & Hinv). intros H. destruct (bool_decide_reflect (length order' = length services)); [by eapply topo_acyclic|done].
Qed.

(** C36: the supervisor's start order is correct and complete.  It never panics and always
    ends.  Either it is an order of all the services in which every service comes after
    everything it depends on, and then there is no cycle; or it is an error that names
    services each of which depends on another of them, and then there is a cycle.
    Dependencies on services that are not declared do not count. *)
Theorem topo_order_exact services :
  (exists order, topo_order services = Some (Ok order) /\ order ≡ₚ seq 0 (length services) /\
    (forall k i d, order !! k = Some i -> depends services i d -> d ∈ take k order) /\ forall i, ~ tc (depends services) i i) \/
  (exists stuck, topo_order services = Some (Err (cycle_error services stuck)) /\ stuck <> [] /\
    (forall i, i ∈ stuck -> exists d, d ∈ stuck /\ depends services i d) /\ exists i, i ∈ stuck /\ tc (depends services) i i).
Proof.
destruct (topo_drains services) as (order & ind & E & Hinv). set (n := length services) in *.
destruct (topo_sub _ _ _ Hinv) as [Hnd Hsub]. fold n in Hsub.
destruct (bool_decide_reflect (length order = n)) as [Hlen|Hlen]; [left|right].
- assert (order ≡ₚ seq 0 n) as Hp by (apply submseteq_length_Permutation; [done|rewrite length_seq; lia]).
  exists order. split; [done|]. split; [done|]. split; [intros k i d Hk Hd; by eapply (ki_before _ _ _ _ _ Hinv)|].
  by eapply topo_acyclic.
- destruct (topo_left services order ind Hinv Hlen) as (Hne & Hdep & Hcyc). eexists. split; [done|]. by split.
Qed.

(** ** Starting *)

Section started.
Context (healthy completed : nat -> bytes -> bool) (spawn : ServiceSpec -> Result bytes) (services : list ServiceSpec).

Lemma wait_dep_ready rem t live svc dep cond rem' t' :
  wait_dep healthy completed rem t live svc dep cond = Ok (rem', t') -> t <= t' /\ dep_ready healthy completed t' live dep cond = true.
Proof.
revert t. induction rem as [|rem IH]; intros t; cbn [wait_dep]; destruct (dep_ready healthy completed t live dep cond) eqn:E; try done.
- intros [= <- <-]. done.
- intros [= <- <-]. done.
- intros [H1 H2]%IH. split; [lia|done].
Qed.

Lemma wait_deps_ready rem t live svc deps t' :
  wait_deps healthy completed rem t live svc deps = Ok t' ->
  t <= t' /\ forall dep cond, (dep, cond) ∈ deps -> exists t0, t <= t0 <= t' /\ dep_ready healthy completed t0 live dep cond = true.
Proof.
revert rem t. induction deps as [|[dep cond] deps IH]; intros rem t; cbn [wait_deps].
{ intros [= <-]. split; [done|]. by intros ?? ?%not_elem_of_nil. }
destruct (wait_dep healthy completed rem t live svc dep cond) as [[rem1 t1]|e] eqn:E; [|done]. cbn [mbind Result_mbind]. intros [H1 H2]%IH.
apply wait_dep_ready in E as [E1 E2]. split; [lia|]. intros dep' cond' [[= -> ->]|Hin]%elem_of_cons; [exists t1; split; [lia|done]|].
destruct (H2 dep' cond' Hin) as (t0 & ? & ?). exists t0. split; [lia|done].
Qed.

(** A recorded run directory is one of a started service of the name. *)
Lemma record_run_dir svc dir live dep d :
  dep_run_dir (record_run svc dir live) dep = Some d -> dep_run_dir live dep = Some d \/ (dep = name svc /\ dir = d).
Proof.
unfold dep_run_dir, record_run. induction live as [|s live IH]; [done|]. rewrite fmap_cons. cbn [find].
destruct (bool_decide_reflect (name s = name svc)) as [Es|Es]; cbn [name].
- destruct (bool_decide_reflect (name s = dep)) as [<-|Ed]; [|apply IH]. cbn. destruct (run_dir s); cbn; intros [= ->]; [by left|by right].
- destruct (bool_decide (name s = dep)); [by left|apply IH].
Qed.

(** A service that the loop started: which one, and with which run directory. *)
Definition ran (tr : list (nat * nat)) (dep d : bytes) : Prop :=
  exists j tj s, (j, tj) ∈ tr /\ services !! j = Some s /\ starts s = true /\ name s = dep /\ spawn s = Ok d.

(** Every dependency of a started service ran before it, and its condition held. *)
Definition deps_ran (prior : list (nat * nat)) (i t : nat) : Prop :=
  exists s, services !! i = Some s /\ starts s = true /\
    forall dep cond, (dep, cond) ∈ depends_on s ->
      exists d t0, ran prior dep d /\ t0 <= t /\ dep_condition_met healthy completed t0 d cond = true.

Lemma ran_app tr tr' dep d : ran tr dep d -> ran (tr ++ tr') dep d.
Proof. intros (j & tj & s & Hin & H). exists j, tj, s. split; [rewrite elem_of_app; by left|done]. Qed.

Lemma start_loop_spec polls order prior live t trace :
  start_loop healthy completed spawn polls services live t order = Some (Ok trace) ->
  (forall dep d, dep_run_dir live dep = Some d -> ran prior dep d) ->
  trace.*1 = filter (fun i => starts <$> services !! i = Some true) order /\
  forall k i ti, trace !! k = Some (i, ti) -> deps_ran (prior ++ take k trace) i ti.
Proof.
revert prior live t trace. induction order as [|i order IH]; intros prior live t trace; cbn [start_loop].
{ intros [= <-] _. split; [done|]. by intros k i ti. }
rewrite filter_cons. destruct (services !! i) as [svc|] eqn:Es; [|done]. cbn [mbind option_bind fmap option_fmap option_map].
destruct (starts svc) eqn:Est; [rewrite decide_True by done|rewrite decide_False by done; by apply IH].
destruct (wait_deps healthy completed polls t live (name svc) (depends_on svc)) as [t1|e] eqn:Ew; [|done].
destruct (spawn svc) as [dir|e] eqn:Esp; [|done]. destruct (start_loop _ _ _ _ _ (record_run svc dir live) t1 order) as [[rest|e]|] eqn:El; [|done|done].
cbn [mbind option_bind]. intros [= <-] Hlive. apply wait_deps_ready in Ew as [Ht Hw].
destruct (IH (prior ++ [(i, t1)]) (record_run svc dir live) t1 rest El) as [H1 H2].
{ intros dep d [Hd|[-> <-]]%record_run_dir; [by apply ran_app, Hlive|]. exists i, t1, svc. split; [rewrite elem_of_app; right; apply list_elem_of_here|done]. }
split; [by rewrite fmap_cons, H1|]. intros [|k] i' ti' Hk; cbn [lookup list_lookup take] in *.
- injection Hk as <- <-. rewrite app_nil_r. exists svc. split; [done|]. split; [done|]. intros dep cond Hin.
  destruct (Hw dep cond Hin) as (t0 & Ht0 & Hr). unfold dep_ready in Hr. destruct (dep_run_dir live dep) as [d|] eqn:Ed; [|done].
  exists d, t0. split; [by apply Hlive|]. split; [lia|done].
- specialize (H2 k i' ti' Hk). by rewrite <- app_assoc in H2.
Qed.

(** A successful start is a run of the loop over an order of all the services. *)
Lemma eager_start_ok polls trace :
  Forall (fun s => run_dir s = None) services ->
  eager_start healthy completed spawn polls services = Some (Ok trace) ->
  trace.*1 ≡ₚ filter (fun i => starts <$> services !! i = Some true) (seq 0 (length services)) /\
  forall k i ti, trace !! k = Some (i, ti) -> deps_ran (take k trace) i ti.
Proof.
intros Hnone. unfold eager_start. destruct (topo_drains services) as (order & ind & E & Hinv). rewrite E. cbn [mbind option_bind].
destruct (bool_decide_reflect (length order = length services)) as [Hlen|]; [|done]. intros Hs.
destruct (start_loop_spec polls order [] services 0 trace Hs) as [H1 H2].
{ intros dep d. unfold dep_run_dir. destruct (find _ services) as [s|] eqn:Ef; [|done]. apply find_some in Ef as [Hin _]. cbn.
  rewrite Forall_forall in Hnone. rewrite Hnone by (by apply list_elem_of_In). done. }
split; [|exact H2]. rewrite H1. apply filter_Permutation. apply submseteq_length_Permutation; [by apply topo_sub in Hinv as []|rewrite length_seq; lia].
Qed.

(** Over an order of services of the stack the loop does not panic. *)
Lemma start_loop_total polls live t order :
  (forall i, i ∈ order -> i < length services) -> is_Some (start_loop healthy completed spawn polls services live t order).
Proof.
revert live t. induction order as [|i order IH]; intros live t Hi; cbn [start_loop]; [done|].
destruct (lookup_lt_is_Some_2 services i (Hi i (list_elem_of_here _ _))) as [svc ->]. cbn [mbind option_bind].
assert (forall j, j ∈ order -> j < length services) as Hi' by (intros j Hj; by apply Hi, list_elem_of_further).
destruct (starts svc); [|by apply IH]. destruct (wait_deps _ _ _ _ _ _ _); [|done]. destruct (spawn svc) as [dir|]; [|done].
match goal with |- is_Some (?x ≫= _) => assert (is_Some x) as [r ->] by (by apply IH) end. done.
Qed.

Lemma eager_start_total polls : is_Some (eager_start healthy completed spawn polls services).
Proof.
unfold eager_start. destruct (topo_drains services) as (order & ind & -> & Hinv). cbn [mbind option_bind]. case_bool_decide; [|done].
apply start_loop_total. intros i Hi. apply (ki_bound _ _ _ _ _ Hinv). by rewrite app_nil_r.
Qed.

(** C37: the supervisor starts a stack in dependency order.  The start never panics, and when
    it succeeds it has started exactly the eager services with a command, each once, and each
    after every service it depends on was started and had met the condition of the
    dependency. *)
Theorem start_respects_depends polls :
  Forall (fun s => run_dir s = None) services ->
  exists r, eager_start healthy completed spawn polls services = Some r /\
    forall trace, r = Ok trace ->
      trace.*1 ≡ₚ filter (fun i => starts <$> services !! i = Some true) (seq 0 (length services)) /\
      forall k i ti, trace !! k = Some (i, ti) -> deps_ran (take k trace) i ti.
Proof.
intros Hnone. destruct (eager_start_total polls) as [r E]. exists r. split; [done|]. intros trace ->. by eapply eager_start_ok.
Qed.

(** A dependency that the supervisor does not start stops the whole stack.  The order
    ignores a dependency on a service that is not in the stack, but the wait does not: when
    an eager service depends on a name that no eager service with a command has, because it
    is external or started on demand, the start fails, whatever the services do. *)
Theorem unstarted_dependency_fails polls i s dep cond :
  Forall (fun s => run_dir s = None) services ->
  services !! i = Some s -> starts s = true -> (dep, cond) ∈ depends_on s ->
  (forall s', s' ∈ services -> starts s' = true -> name s' <> dep) ->
  exists e, eager_start healthy completed spawn polls services = Some (Err e).
Proof.
intros Hnone Hi Hs Hd Hno. destruct (eager_start_total polls) as [[trace|e] E]; [|eauto]. exfalso.
destruct (eager_start_ok polls trace Hnone E) as [Hp Hran].
assert (i ∈ trace.*1) as ([j ti] & -> & [k Hk]%list_elem_of_lookup)%list_elem_of_fmap.
{ rewrite Hp. apply list_elem_of_filter. rewrite Hi. cbn. rewrite Hs. split; [done|]. apply elem_of_seq. apply lookup_lt_Some in Hi. lia. }
destruct (Hran k _ _ Hk) as (s' & Hs' & _ & Hdeps). cbn in Hi. simplify_eq.
destruct (Hdeps dep cond Hd) as (d & t0 & (j' & tj & s0 & _ & Hj' & Hst & Hn & _) & _). eapply Hno; [by eapply list_elem_of_lookup_2|done|done].
Qed.
(** ** Starting completes *)

Lemma index_of_total (l : list ServiceSpec) s : s ∈ l -> is_Some (index_of l !! name s).
Proof.
intros [i Hi]%list_elem_of_lookup. unfold index_of.
assert (forall (es : list (nat * ServiceSpec)) (acc : gmap bytes nat), is_Some (acc !! name s) \/ (exists j, (j, s) ∈ es) ->
  is_Some (foldl (fun m '(i, s) => <[name s := i]> m) acc es !! name s)) as H.
{ induction es as [|[j s'] es IH]; intros acc [Ha|[k Hk]]; cbn [foldl]; [done|by apply not_elem_of_nil in Hk| |].
  - apply IH. left. rewrite lookup_insert. case_decide; [eauto|done].
  - apply elem_of_cons in Hk as [[= -> ->]|Hk]; apply IH; [left; rewrite lookup_insert_eq; eauto|right; eauto]. }
apply H. right. exists i. apply elem_of_lookup_imap. eauto.
Qed.

Lemma record_run_names svc dir live : name <$> record_run svc dir live = name <$> live.
Proof. unfold record_run. rewrite <- list_fmap_compose. apply list_fmap_ext. intros i s _. cbn. by destruct (bool_decide _). Qed.

Lemma find_named live n : n ∈ name <$> live -> exists s, find (fun s => bool_decide (name s = n)) live = Some s.
Proof.
intros (s & -> & Hs)%list_elem_of_fmap. destruct (find _ live) as [s'|] eqn:E; [eauto|]. eapply find_none in E; [|by apply list_elem_of_In]. cbn in E. by rewrite bool_decide_eq_true_2 in E.
Qed.

(** A run that is recorded is found, and stays so. *)
Lemma record_run_found svc dir live n :
  (n = name svc /\ n ∈ name <$> live) \/ is_Some (dep_run_dir live n) -> is_Some (dep_run_dir (record_run svc dir live) n).
Proof.
unfold dep_run_dir, record_run. induction live as [|s live IH]; [by intros [[_ ?%not_elem_of_nil]|[]]|]. rewrite !fmap_cons. cbn [find].
destruct (bool_decide_reflect (name s = name svc)) as [Es|Es]; cbn [name].
- destruct (bool_decide_reflect (name s = n)) as [En|En]; cbn; [eauto|]. intros [[-> Hin]|H]; [done|]. apply IH. by right.
- destruct (bool_decide_reflect (name s = n)) as [En|En]; cbn; [intros [[-> _]|H]; [done|done]|].
  intros [[-> Hin]|H]; apply IH; [left; split; [done|]|by right]. apply elem_of_cons in Hin as [?|?]; [by destruct Es|done].
Qed.

Section ready.
(** From a poll on, every health file and status file says what it should. *)
Context (ready : nat) (Hhealthy : forall t dir, ready <= t -> healthy t dir = true) (Hcompleted : forall t dir, ready <= t -> completed t dir = true).

Lemma wait_dep_completes rem t live svc dep cond :
  is_Some (dep_run_dir live dep) -> ready <= t + rem -> exists rem' t', wait_dep healthy completed rem t live svc dep cond = Ok (rem', t') /\ t' + rem' = t + rem.
Proof.
intros [dir Hdir]. revert t. induction rem as [|rem IH]; intros t Ht; cbn [wait_dep]; unfold dep_ready; rewrite Hdir.
- assert (dep_condition_met healthy completed t dir cond = true) as -> by (destruct cond; cbn; [done|apply Hhealthy; lia|apply Hcompleted; lia]). eauto.
- destruct (dep_condition_met healthy completed t dir cond); [eauto|]. destruct (IH (S t)) as (rem' & t' & E & Hs); [lia|]. exists rem', t'. split; [exact E|lia].
Qed.

Lemma wait_deps_completes rem t live svc deps :
  (forall dep cond, (dep, cond) ∈ deps -> is_Some (dep_run_dir live dep)) -> ready <= t + rem -> exists t', wait_deps healthy completed rem t live svc deps = Ok t'.
Proof.
revert rem t. induction deps as [|[dep cond] deps IH]; intros rem t Hd Ht; cbn [wait_deps]; [eauto|].
destruct (wait_dep_completes rem t live svc dep cond) as (rem' & t' & -> & Hs); [eapply Hd, list_elem_of_here|done|]. cbn [mbind Result_mbind].
apply IH; [|lia]. intros dep' cond' Hin. eapply Hd. by apply list_elem_of_further.
Qed.

Lemma start_loop_completes polls order done_ live t :
  ready <= polls -> name <$> live = name <$> services ->
  (forall i s, i ∈ order -> services !! i = Some s -> starts s = true -> exists dir, spawn s = Ok dir) ->
  (forall j s, j ∈ done_ -> services !! j = Some s -> starts s = true -> is_Some (dep_run_dir live (name s))) ->
  (forall k i s, order !! k = Some i -> services !! i = Some s -> starts s = true -> forall dep cond, (dep, cond) ∈ depends_on s ->
     exists d sd, d ∈ done_ ++ take k order /\ services !! d = Some sd /\ starts sd = true /\ name sd = dep) ->
  (forall i, i ∈ order -> i < length services) ->
  exists trace, start_loop healthy completed spawn polls services live t order = Some (Ok trace).
Proof.
intros Hp. revert done_ live t. induction order as [|i order IH]; intros done_ live t Hnames Hspawn Hdone Hdeps Hlt; cbn [start_loop]; [eauto|].
destruct (lookup_lt_is_Some_2 services i (Hlt i (list_elem_of_here _ _))) as [svc Hsvc]. rewrite Hsvc. cbn [mbind option_bind].
assert (forall j, j ∈ order -> j < length services) as Hlt' by (intros; by apply Hlt, list_elem_of_further).
assert (forall j s, j ∈ order -> services !! j = Some s -> starts s = true -> exists dir, spawn s = Ok dir) as Hspawn' by (intros j s Hj; apply Hspawn; by apply list_elem_of_further).
assert (forall k j s, order !! k = Some j -> services !! j = Some s -> starts s = true -> forall dep cond, (dep, cond) ∈ depends_on s ->
  exists d sd, d ∈ (done_ ++ [i]) ++ take k order /\ services !! d = Some sd /\ starts sd = true /\ name sd = dep) as Hdeps'.
{ intros k j s Hk Hj Hs dep cond Hin. rewrite <- app_assoc. by apply (Hdeps (S k) j s Hk Hj Hs dep cond). }
destruct (starts svc) eqn:Est.
- destruct (wait_deps_completes polls t live (name svc) (depends_on svc)) as [t1 ->]; [|lia|].
  { intros dep cond Hin. destruct (Hdeps 0 i svc eq_refl Hsvc Est dep cond Hin) as (d & sd & Hd & Hsd & Hst & <-). rewrite app_nil_r in Hd. by eapply Hdone. }
  destruct (Hspawn i svc (list_elem_of_here _ _) Hsvc Est) as [dir ->].
  destruct (IH (done_ ++ [i]) (record_run svc dir live) t1) as [trace ->]; [by rewrite record_run_names|done| |done|done|by eexists].
  intros j s [Hj| ->%list_elem_of_singleton]%elem_of_app Hs Hst; apply record_run_found; [right; by eapply Hdone|].
  left. simplify_eq. split; [done|]. rewrite Hnames. apply list_elem_of_fmap_2. by eapply list_elem_of_lookup_2.
- apply (IH (done_ ++ [i])); [done|done| |done|done]. intros j s [Hj| ->%list_elem_of_singleton]%elem_of_app Hs Hst; [by eapply Hdone|congruence].
Qed.

End ready.
End started.

(** * Examples *)

Module Example.
Definition svc (n : String.string) (e : bool) (deps : list (bytes * DepCondition)) : ServiceSpec :=
  mkSpec (str n) [str "run"] e deps None.

(** A web service that waits for a healthy database, which comes second in the file. *)
Definition stack : list ServiceSpec := [svc "web" true [(str "db", Healthy)]; svc "db" true []; svc "cache" false []].
Definition healthy (t : nat) (dir : bytes) : bool := bool_decide (2 <= t).
Definition spawn (s : ServiceSpec) : Result bytes := Ok (str "/run/" ++ name s).

(** The database starts at once, the web service at the second poll. *)
Example stack_starts : eager_start healthy (fun _ _ => false) spawn 600 stack = Some (Ok [(1, 0); (0, 2)]).
Proof. vm_compute. reflexivity. Qed.

(** The same stack, waiting for a service that is only started on demand. *)
Definition lazy_stack : list ServiceSpec := [svc "web" true [(str "cache", Started)]; svc "cache" false []].
End Example.

Lemma start_respects_depends_witness :
  [1; 0] ≡ₚ filter (fun i => starts <$> Example.stack !! i = Some true) (seq 0 3) /\
  deps_ran Example.healthy (fun _ _ => false) Example.spawn Example.stack [(1, 0)] 0 2.
Proof.
destruct (start_respects_depends Example.healthy (fun _ _ => false) Example.spawn Example.stack 600) as (r & E & Hr).
- repeat constructor.
- rewrite Example.stack_starts in E. injection E as <-. destruct (Hr _ eq_refl) as [Hp Hd]. split; [exact Hp|exact (Hd 1 0 2 eq_refl)].
Defined.

Lemma unstarted_dependency_fails_witness :
  exists e, eager_start (fun _ _ => true) (fun _ _ => true) Example.spawn 3 Example.lazy_stack = Some (Err e).
Proof.
apply (unstarted_dependency_fails (fun _ _ => true) (fun _ _ => true) Example.spawn Example.lazy_stack 3 0
         (Example.svc "web" true [(str "cache", Started)]) (str "cache") Started).
- repeat constructor.
- reflexivity.
- reflexivity.
- apply list_elem_of_here.
- intros s' [->|[->|[]%not_elem_of_nil]%elem_of_cons]%elem_of_cons Hs Hn; [discriminate Hn|discriminate Hs].
Defined.

