(* ===== verification/Bpf.v ===== *)
(** The classic-BPF code generator of the seccomp compiler
    (crates/lightr-engine/src/engine/seccomp/bpf.rs), the machine its output runs on (the
    interpreter of the module's tests, which is the kernel's for these instructions), and the
    proof that the generated program decides what the rules say. *)

From Stdlib Require Import ZArith Lia.
From S2P Require Import Prelude Error.

(** * Instructions (mod.rs) *)

Definition BPF_LD : Z := 0x00.
Definition BPF_W : Z := 0x00.
Definition BPF_ABS : Z := 0x20.
Definition BPF_JMP : Z := 0x05.
Definition BPF_JA : Z := 0x00.
Definition BPF_JEQ : Z := 0x10.
Definition BPF_JGT : Z := 0x20.
Definition BPF_JGE : Z := 0x30.
Definition BPF_JSET : Z := 0x40.
Definition BPF_ALU : Z := 0x04.
Definition BPF_AND : Z := 0x50.
Definition BPF_K : Z := 0x00.
Definition BPF_RET : Z := 0x06.

Definition SECCOMP_DATA_NR_OFFSET : Z := 0.
Definition SECCOMP_DATA_ARCH_OFFSET : Z := 4.
Definition SECCOMP_DATA_ARGS_OFFSET : Z := 16.
Definition SECCOMP_MAX_ARGS : Z := 6.
Definition X32_SYSCALL_BIT : Z := 0x40000000.
Definition SECCOMP_RET_KILL_PROCESS : Z := 0x80000000.

Record sock_filter := mkInsn { code : Z; jt : Z; jf : Z; k : Z }.

#[export] Instance sock_filter_eq_dec : EqDecision sock_filter.
Proof. solve_decision. Defined.

Definition stmt (code k : Z) : sock_filter := mkInsn code 0 0 k.
Definition jump (code k jt jf : Z) : sock_filter := mkInsn code jt jf k.

Definition err_unsupported {A} : Result A := Err (Io InvalidData).

(** * Rules and the builder (bpf.rs) *)

Inductive ArgOp := Eq | Ne | Lt | Le | Gt | Ge | MaskedEq.

#[export] Instance ArgOp_eq_dec : EqDecision ArgOp.
Proof. solve_decision. Defined.

Record ArgCondition := mkArg {
  low_offset : Z; high_offset : Z; value_low : Z; value_high : Z;
  value_two_low : Z; value_two_high : Z; op : ArgOp }.

Record Rule := mkRule { nr : Z; action : Z; args : list ArgCondition }.

Definition Label := nat.

Record BpfBuilder := mkBuilder {
  prog : list sock_filter; labels : list (option nat); patches : list (nat * Label) }.

(** A method of the builder: it passes the state on, or panics at an index. *)
Definition B (A : Type) : Type := BpfBuilder -> option (A * BpfBuilder).
#[export] Instance B_mret : MRet B := fun A a b => Some (a, b).
#[export] Instance B_mbind : MBind B := fun A A' f m b => '(a, b') ← m b; f a b'.

Definition new : BpfBuilder := mkBuilder [] [] [].

Definition label : B Label := fun b =>
  Some (length (labels b), mkBuilder (prog b) (labels b ++ [None]) (patches b)).

Definition bind (l : Label) : B unit := fun b =>
  if bool_decide (l < length (labels b))
  then Some ((), mkBuilder (prog b) (<[l := Some (length (prog b))]> (labels b)) (patches b))
  else None.

Definition push (insn : sock_filter) : B unit := fun b =>
  Some ((), mkBuilder (prog b ++ [insn]) (labels b) (patches b)).

Definition jump_to (l : Label) : B unit := fun b =>
  let at_ := length (prog b) in
  '(_, b) ← push (stmt (Z.lor BPF_JMP BPF_JA) 0) b;
  Some ((), mkBuilder (prog b) (labels b) (patches b ++ [(at_, l)])).

(** One patch: [None] where an index would panic. *)
Definition patch (labels : list (option nat)) (prog : list sock_filter) (p : nat * Label) : option (Result (list sock_filter)) :=
  let '(at_, l) := p in
  target ← labels !! l;
  match target with
  | None => Some err_unsupported
  | Some target =>
      if bool_decide (target < at_ + 1) then Some err_unsupported
      else
        let offset := Z.of_nat (target - (at_ + 1)) in
        if bool_decide (u32 offset) then
          insn ← prog !! at_;
          Some (Ok (<[at_ := mkInsn (code insn) (jt insn) (jf insn) offset]> prog))
        else Some err_unsupported
  end.

Fixpoint patch_all (labels : list (option nat)) (prog : list sock_filter) (ps : list (nat * Label)) : option (Result (list sock_filter)) :=
  match ps with
  | [] => Some (Ok prog)
  | p :: ps =>
      r ← patch labels prog p;
      match r with Ok prog => patch_all labels prog ps | Err e => Some (Err e) end
  end.

Definition finish (b : BpfBuilder) : option (Result (list sock_filter)) := patch_all (labels b) (prog b) (patches b).

(** * Code generation (bpf.rs) *)

Definition LD_ABS : Z := Z.lor (Z.lor BPF_LD BPF_W) BPF_ABS.
Definition JMP_K (test : Z) : Z := Z.lor (Z.lor BPF_JMP test) BPF_K.
Definition RET_K : Z := Z.lor BPF_RET BPF_K.
Definition AND_K : Z := Z.lor (Z.lor BPF_ALU BPF_AND) BPF_K.

Definition emit_eq_word (offset value : Z) (fail : Label) : B unit :=
  _ ← push (stmt LD_ABS offset);
  _ ← push (jump (JMP_K BPF_JEQ) value 1 0);
  jump_to fail.

Definition emit_masked_eq_word (offset value mask : Z) (fail : Label) : B unit :=
  _ ← push (stmt LD_ABS offset);
  _ ← push (stmt AND_K mask);
  _ ← push (jump (JMP_K BPF_JEQ) value 1 0);
  jump_to fail.

(** The operators that reach [emit_ordered] are the four orders; [low_fail_op] of another one
    is [unreachable!]. *)
Definition emit_ordered (arg : ArgCondition) (next fail : Label) : B unit :=
  let high_greater_passes := bool_decide (op arg = Gt \/ op arg = Ge) in
  low_fail_op ← (match op arg with
    | Lt => mret BPF_JGE | Le => mret BPF_JGT | Gt => mret BPF_JGT | Ge => mret BPF_JGE
    | _ => fun _ => None end : B Z);
  let low_true_passes := bool_decide (op arg = Gt \/ op arg = Ge) in
  _ ← push (stmt LD_ABS (high_offset arg));
  _ ← push (jump (JMP_K BPF_JGT) (value_high arg) 0 1);
  _ ← (if high_greater_passes then jump_to next else jump_to fail);
  _ ← push (jump (JMP_K BPF_JEQ) (value_high arg) 1 0);
  _ ← (if high_greater_passes then jump_to fail else jump_to next);
  _ ← push (stmt LD_ABS (low_offset arg));
  _ ← push (jump (JMP_K low_fail_op) (value_low arg) (if low_true_passes then 1 else 0) (if low_true_passes then 0 else 1));
  jump_to fail.

Definition emit_condition (arg : ArgCondition) (next fail : Label) : B unit :=
  match op arg with
  | Eq =>
      _ ← emit_eq_word (high_offset arg) (value_high arg) fail;
      emit_eq_word (low_offset arg) (value_low arg) fail
  | Ne =>
      _ ← push (stmt LD_ABS (high_offset arg));
      _ ← push (jump (JMP_K BPF_JEQ) (value_high arg) 1 0);
      _ ← jump_to next;
      _ ← push (stmt LD_ABS (low_offset arg));
      _ ← push (jump (JMP_K BPF_JEQ) (value_low arg) 0 1);
      jump_to fail
  | MaskedEq =>
      _ ← emit_masked_eq_word (high_offset arg) (value_high arg) (value_two_high arg) fail;
      emit_masked_eq_word (low_offset arg) (value_low arg) (value_two_low arg) fail
  | Lt | Le | Gt | Ge => emit_ordered arg next fail
  end.

(** The loop over the conditions of a rule. *)
Fixpoint emit_args (l : list ArgCondition) (fail : Label) : B unit :=
  match l with
  | [] => mret ()
  | arg :: l =>
      next ← label;
      _ ← emit_condition arg next fail;
      _ ← bind next;
      emit_args l fail
  end.

Definition emit_rule (rule : Rule) (here next_rule : Label) : B unit :=
  _ ← bind here;
  _ ← push (stmt LD_ABS SECCOMP_DATA_NR_OFFSET);
  _ ← push (jump (JMP_K BPF_JEQ) (nr rule) 1 0);
  _ ← jump_to next_rule;
  _ ← emit_args (args rule) next_rule;
  push (stmt RET_K (action rule)).

(** [(0..=n).map(|_| b.label()).collect()]. *)
Fixpoint make_labels (n : nat) : B (list Label) :=
  match n with
  | O => mret []
  | S n => l ← label; ls ← make_labels n; mret (l :: ls)
  end.

(** [rule_labels[i]], with the panic. *)
Definition label_at (ls : list Label) (i : nat) : B Label := fun b => l ← ls !! i; Some (l, b).

Fixpoint emit_rules (rules : list Rule) (index : nat) (rule_labels : list Label) : B unit :=
  match rules with
  | [] => mret ()
  | rule :: rules =>
      here ← label_at rule_labels index;
      next_rule ← label_at rule_labels (S index);
      _ ← emit_rule rule here next_rule;
      emit_rules rules (S index) rule_labels
  end.

Definition emit_program (audit_arch default_ret : Z) (rules : list Rule) : B unit :=
  _ ← push (stmt LD_ABS SECCOMP_DATA_ARCH_OFFSET);
  _ ← push (jump (JMP_K BPF_JEQ) audit_arch 1 0);
  _ ← push (stmt RET_K SECCOMP_RET_KILL_PROCESS);
  _ ← push (stmt LD_ABS SECCOMP_DATA_NR_OFFSET);
  _ ← push (jump (JMP_K BPF_JSET) X32_SYSCALL_BIT 0 1);
  _ ← push (stmt RET_K SECCOMP_RET_KILL_PROCESS);
  rule_labels ← make_labels (S (length rules));
  _ ← emit_rules rules 0 rule_labels;
  last ← label_at rule_labels (length rules);
  _ ← bind last;
  push (stmt RET_K default_ret).

(** [None] is a panic. *)
Definition compile_rules (audit_arch default_ret : Z) (rules : list Rule) : option (Result (list sock_filter)) :=
  '(_, b) ← emit_program audit_arch default_ret rules new;
  finish b.

(** * The machine (tests.rs) *)

Record seccomp_data := mkData { d_arch : Z; d_nr : Z; d_args : list Z }.

(** The word a load reads; [None] is a panic. *)
Definition load (d : seccomp_data) (offset : Z) : option Z :=
  if bool_decide (offset = SECCOMP_DATA_NR_OFFSET) then Some (d_nr d)
  else if bool_decide (offset = SECCOMP_DATA_ARCH_OFFSET) then Some (d_arch d)
  else if bool_decide (SECCOMP_DATA_ARGS_OFFSET <= offset < SECCOMP_DATA_ARGS_OFFSET + 48)%Z then
    let arg_offset := (offset - SECCOMP_DATA_ARGS_OFFSET)%Z in
    arg ← d_args d !! Z.to_nat (arg_offset / 8);
    if bool_decide (arg_offset mod 8 = 0)%Z then Some (arg mod 2 ^ 32)%Z
    else if bool_decide (arg_offset mod 8 = 4)%Z then Some (Z.shiftr arg 32 mod 2 ^ 32)%Z
    else None
  else None.

(** One turn of the loop: a new program counter and accumulator, or a result. *)
Definition step (d : seccomp_data) (insn : sock_filter) (pc : nat) (acc : Z) : option ((nat * Z) + Z) :=
  let branch (t : bool) := Some (inl (pc + 1 + Z.to_nat (if t then jt insn else jf insn), acc)) in
  if bool_decide (code insn = LD_ABS) then acc ← load d (k insn); Some (inl (pc + 1, acc))
  else if bool_decide (code insn = AND_K) then Some (inl (pc + 1, Z.land acc (k insn)))
  else if bool_decide (code insn = JMP_K BPF_JEQ) then branch (acc =? k insn)%Z
  else if bool_decide (code insn = JMP_K BPF_JGT) then branch (k insn <? acc)%Z
  else if bool_decide (code insn = JMP_K BPF_JGE) then branch (k insn <=? acc)%Z
  else if bool_decide (code insn = JMP_K BPF_JSET) then branch (negb (Z.land acc (k insn) =? 0)%Z)
  else if bool_decide (code insn = Z.lor BPF_JMP BPF_JA) then Some (inl (pc + 1 + Z.to_nat (k insn), acc))
  else if bool_decide (code insn = RET_K) then Some (inr (k insn))
  else None.

(** [None] is a panic, or no result within the turns given. *)
Fixpoint run_from (turns : nat) (prog : list sock_filter) (d : seccomp_data) (pc : nat) (acc : Z) : option Z :=
  match turns with
  | O => None
  | S turns =>
      insn ← prog !! pc;
      r ← step d insn pc acc;
      match r with inl (pc, acc) => run_from turns prog d pc acc | inr ret => Some ret end
  end.

Definition run_bpf_args (turns : nat) (prog : list sock_filter) (d : seccomp_data) : option Z := run_from turns prog d 0 0.

Example compile_small :
  (r ← compile_rules 0xC00000B7 0x7fff0000 [mkRule 63 0x50001 [mkArg 16 20 3 0 0 0 Eq; mkArg 24 28 9 0 0 0 Lt]];
   match r with Ok p => Some (length p, run_bpf_args (length p) p (mkData 0xC00000B7 63 [3; 4; 0; 0; 0; 0]%Z), run_bpf_args (length p) p (mkData 0xC00000B7 63 [3; 9; 0; 0; 0; 0]%Z)) | _ => None end)
  = Some (25, Some 0x50001%Z, Some 0x7fff0000%Z).
Proof. vm_compute. reflexivity. Qed.

(** * Symbolic code

    What the builder holds, with its jumps still naming labels. *)

Inductive sym := I (i : sock_filter) | J (l : Label).

Definition skeleton (c : sym) : sock_filter := match c with I i => i | J _ => stmt (Z.lor BPF_JMP BPF_JA) 0 end.

Fixpoint jumps (at_ : nat) (cs : list sym) : list (nat * Label) :=
  match cs with
  | [] => []
  | I _ :: cs => jumps (S at_) cs
  | J l :: cs => (at_, l) :: jumps (S at_) cs
  end.

Lemma jumps_app at_ cs cs' : jumps at_ (cs ++ cs') = jumps at_ cs ++ jumps (at_ + length cs) cs'.
Proof.
revert at_. induction cs as [|[i|l] cs IH]; intros at_; cbn [app jumps length]; [by rewrite Nat.add_0_r| |]; rewrite IH; by rewrite Nat.add_succ_r.
Qed.

(** The builder that holds symbolic code. *)
Definition holding (cs : list sym) (ls : list (option nat)) : BpfBuilder := mkBuilder (skeleton <$> cs) ls (jumps 0 cs).

(** A method that only appends code. *)
Definition emits (m : B unit) (cs : list sym) : Prop := forall c0 ls, m (holding c0 ls) = Some ((), holding (c0 ++ cs) ls).

Lemma emits_push i : emits (push i) [I i].
Proof. intros c0 ls. unfold push, holding. cbn. by rewrite fmap_app, jumps_app, app_nil_r. Qed.

Lemma emits_jump l : emits (jump_to l) [J l].
Proof. intros c0 ls. unfold jump_to, push, holding. cbn. by rewrite fmap_app, jumps_app, length_fmap. Qed.

Lemma emits_seq m m' cs cs' : emits m cs -> emits m' cs' -> emits (_ ← m; m') (cs ++ cs').
Proof. intros H H' c0 ls. unfold mbind, B_mbind. rewrite H. cbn. rewrite H'. by rewrite app_assoc. Qed.

Create HintDb bpf.
#[export] Hint Resolve emits_push emits_jump emits_seq : bpf.

(** The code of a condition. *)
Definition eq_word_code (offset value : Z) (fail : Label) : list sym :=
  [I (stmt LD_ABS offset); I (jump (JMP_K BPF_JEQ) value 1 0); J fail].

Definition masked_word_code (offset value mask : Z) (fail : Label) : list sym :=
  [I (stmt LD_ABS offset); I (stmt AND_K mask); I (jump (JMP_K BPF_JEQ) value 1 0); J fail].

Definition ordered_code (arg : ArgCondition) (test : Z) (greater : bool) (next fail : Label) : list sym :=
  [I (stmt LD_ABS (high_offset arg)); I (jump (JMP_K BPF_JGT) (value_high arg) 0 1); J (if greater then next else fail);
   I (jump (JMP_K BPF_JEQ) (value_high arg) 1 0); J (if greater then fail else next);
   I (stmt LD_ABS (low_offset arg));
   I (jump (JMP_K test) (value_low arg) (if greater then 1 else 0) (if greater then 0 else 1)); J fail].

Definition cond_code (arg : ArgCondition) (next fail : Label) : list sym :=
  match op arg with
  | Eq => eq_word_code (high_offset arg) (value_high arg) fail ++ eq_word_code (low_offset arg) (value_low arg) fail
  | Ne =>
      [I (stmt LD_ABS (high_offset arg)); I (jump (JMP_K BPF_JEQ) (value_high arg) 1 0); J next;
       I (stmt LD_ABS (low_offset arg)); I (jump (JMP_K BPF_JEQ) (value_low arg) 0 1); J fail]
  | MaskedEq =>
      masked_word_code (high_offset arg) (value_high arg) (value_two_high arg) fail ++
      masked_word_code (low_offset arg) (value_low arg) (value_two_low arg) fail
  | Lt => ordered_code arg BPF_JGE false next fail
  | Le => ordered_code arg BPF_JGT false next fail
  | Gt => ordered_code arg BPF_JGT true next fail
  | Ge => ordered_code arg BPF_JGE true next fail
  end.

Lemma emits_eq m cs cs' : emits m cs' -> cs = cs' -> emits m cs.
Proof. by intros ? ->. Qed.

Lemma emit_condition_code arg next fail : emits (emit_condition arg next fail) (cond_code arg next fail).
Proof.
unfold emit_condition, cond_code, emit_ordered, ordered_code. destruct (op arg);
  unfold emit_eq_word, emit_masked_eq_word; try rewrite !bool_decide_eq_true_2 by eauto; try rewrite !bool_decide_eq_false_2 by naive_solver;
  (eapply emits_eq; [repeat first [apply emits_seq|apply emits_push|apply emits_jump]|reflexivity]).
Qed.

(** The instructions of a condition do not depend on its labels. *)
Definition cond_size (arg : ArgCondition) : nat := length (cond_code arg 0 0).

Lemma cond_size_eq arg next fail : length (cond_code arg next fail) = cond_size arg.
Proof. unfold cond_size, cond_code. by destruct (op arg). Qed.

Fixpoint args_code (fresh : Label) (l : list ArgCondition) (fail : Label) : list sym :=
  match l with
  | [] => []
  | arg :: l => cond_code arg fresh fail ++ args_code (S fresh) l fail
  end.

(** Where the labels of the conditions are bound. *)
Fixpoint args_labels (at_ : nat) (l : list ArgCondition) : list (option nat) :=
  match l with
  | [] => []
  | arg :: l => Some (at_ + cond_size arg) :: args_labels (at_ + cond_size arg) l
  end.

Definition args_size (l : list ArgCondition) : nat := sum_list (cond_size <$> l).

Lemma args_code_length fresh l fail : length (args_code fresh l fail) = args_size l.
Proof.
unfold args_size. revert fresh. induction l as [|arg l IH]; intros fresh; [done|]. cbn [args_code]. by rewrite length_app, IH, cond_size_eq.
Qed.

Lemma args_labels_length at_ l : length (args_labels at_ l) = length l.
Proof. revert at_. induction l as [|arg l IH]; intros at_; [done|]. cbn. by rewrite IH. Qed.

Lemma emit_args_code l fail c0 ls :
  emit_args l fail (holding c0 ls) = Some ((), holding (c0 ++ args_code (length ls) l fail) (ls ++ args_labels (length c0) l)).
Proof.
revert c0 ls. induction l as [|arg l IH]; intros c0 ls; cbn [emit_args args_code args_labels]; [by rewrite !app_nil_r|].
unfold mbind, B_mbind. unfold label. cbn [labels holding mbind option_bind]. change (mkBuilder _ (ls ++ [None]) _) with (holding c0 (ls ++ [None])).
rewrite emit_condition_code. cbn [mbind option_bind]. unfold bind. cbn [labels holding prog]. rewrite bool_decide_eq_true_2 by (rewrite length_app; cbn; lia).
cbn [mbind option_bind]. rewrite length_fmap, length_app, cond_size_eq. rewrite insert_app_r_alt, Nat.sub_diag by lia. cbn [insert list_insert patches].
change (mkBuilder (skeleton <$> ?c) ?ls (jumps 0 ?c)) with (holding c ls). etrans; [apply IH|]. rewrite !length_app, cond_size_eq, <- !app_assoc. cbn [length app].
by rewrite Nat.add_1_r.
Qed.

(** ** Rules *)

Definition rule_code (fresh : Label) (rule : Rule) (next_rule : Label) : list sym :=
  [I (stmt LD_ABS SECCOMP_DATA_NR_OFFSET); I (jump (JMP_K BPF_JEQ) (nr rule) 1 0); J next_rule] ++
  args_code fresh (args rule) next_rule ++ [I (stmt RET_K (action rule))].

Definition rule_size (rule : Rule) : nat := 4 + args_size (args rule).

Lemma rule_code_length fresh rule next_rule : length (rule_code fresh rule next_rule) = rule_size rule.
Proof. unfold rule_code, rule_size. rewrite !length_app, args_code_length. cbn. lia. Qed.

Fixpoint rules_code (fresh : Label) (rules : list Rule) (index : nat) : list sym :=
  match rules with
  | [] => []
  | rule :: rules => rule_code fresh rule (S index) ++ rules_code (fresh + length (args rule)) rules (S index)
  end.

Definition rules_size (rules : list Rule) : nat := sum_list (rule_size <$> rules).

Lemma rules_code_length fresh rules index : length (rules_code fresh rules index) = rules_size rules.
Proof.
unfold rules_size. revert fresh index. induction rules as [|r rules IH]; intros fresh index; [done|]. cbn [rules_code]. by rewrite length_app, IH, rule_code_length.
Qed.

(** Where the rules start, and the labels inside them. *)
Fixpoint rule_starts (at_ : nat) (rules : list Rule) : list (option nat) :=
  match rules with
  | [] => []
  | rule :: rules => Some at_ :: rule_starts (at_ + rule_size rule) rules
  end.

Fixpoint inner_labels (at_ : nat) (rules : list Rule) : list (option nat) :=
  match rules with
  | [] => []
  | rule :: rules => args_labels (at_ + 3) (args rule) ++ inner_labels (at_ + rule_size rule) rules
  end.

Lemma rule_starts_length at_ rules : length (rule_starts at_ rules) = length rules.
Proof. revert at_. induction rules as [|r rules IH]; intros at_; [done|]. cbn. by rewrite IH. Qed.

Lemma emit_rule_code rule here next_rule c0 ls :
  here < length ls ->
  emit_rule rule here next_rule (holding c0 ls) =
    Some ((), holding (c0 ++ rule_code (length ls) rule next_rule) (<[here := Some (length c0)]> ls ++ args_labels (length c0 + 3) (args rule))).
Proof.
intros Hlt. unfold emit_rule, mbind, B_mbind, bind. cbn [labels holding prog patches]. rewrite bool_decide_eq_true_2 by done. cbn [mbind option_bind].
rewrite length_fmap. change (mkBuilder (skeleton <$> ?c) ?ls (jumps 0 ?c)) with (holding c ls).
rewrite !emits_push. cbn [mbind option_bind]. rewrite emits_push. cbn [mbind option_bind]. rewrite emits_jump. cbn [mbind option_bind].
rewrite emit_args_code. cbn [mbind option_bind]. rewrite emits_push, length_insert, !length_app. cbn [length]. unfold rule_code. rewrite <- !app_assoc. cbn [app].
by rewrite <- !Nat.add_assoc.
Qed.

Lemma emit_rules_code rules n index c0 done_ extra :
  length done_ = index -> n = index + S (length rules) ->
  emit_rules rules index (seq 0 n) (holding c0 (done_ ++ replicate (S (length rules)) None ++ extra)) =
    Some ((), holding (c0 ++ rules_code (n + length extra) rules index)
                      (done_ ++ rule_starts (length c0) rules ++ [None] ++ extra ++ inner_labels (length c0) rules)).
Proof.
revert index c0 done_ extra. induction rules as [|rule rules IH]; intros index c0 done_ extra Hd Hn; cbn [emit_rules rules_code rule_starts inner_labels].
{ by rewrite !app_nil_r. }
unfold mbind at 1 2 3, B_mbind at 1 2 3, label_at. rewrite !lookup_seq_lt by (cbn in Hn; lia). cbn [mbind option_bind Nat.add].
rewrite emit_rule_code by (rewrite length_app; cbn; lia). cbn [mbind option_bind].
assert (length (done_ ++ replicate (S (S (length rules))) None ++ extra) = n + length extra) as Hlen by (rewrite !length_app, length_replicate; cbn in Hn; lia).
cbn [length]. rewrite Hlen. rewrite insert_app_r_alt by lia. rewrite Hd, Nat.sub_diag. cbn [replicate app insert list_insert]. rewrite <- Hd.
replace (done_ ++ Some (length c0) :: None :: replicate (length rules) None ++ extra) with ((done_ ++ [Some (length c0)]) ++ replicate (S (length rules)) None ++ extra) by (by rewrite <- app_assoc).
rewrite <- (app_assoc (done_ ++ [_])), <- (app_assoc (replicate _ _)). rewrite Hd. etrans; [apply IH|].
- rewrite length_app. cbn. lia.
- cbn in Hn. lia.
- rewrite !length_app, rule_code_length, args_labels_length, <- !app_assoc. cbn [app]. by rewrite Nat.add_assoc.
Qed.

(** ** The whole program *)

Definition guard_code (audit_arch : Z) : list sym :=
  [I (stmt LD_ABS SECCOMP_DATA_ARCH_OFFSET); I (jump (JMP_K BPF_JEQ) audit_arch 1 0); I (stmt RET_K SECCOMP_RET_KILL_PROCESS);
   I (stmt LD_ABS SECCOMP_DATA_NR_OFFSET); I (jump (JMP_K BPF_JSET) X32_SYSCALL_BIT 0 1); I (stmt RET_K SECCOMP_RET_KILL_PROCESS)].

Definition program_code (audit_arch default_ret : Z) (rules : list Rule) : list sym :=
  guard_code audit_arch ++ rules_code (S (length rules)) rules 0 ++ [I (stmt RET_K default_ret)].

Definition program_labels (rules : list Rule) : list (option nat) :=
  rule_starts 6 rules ++ [Some (6 + rules_size rules)] ++ inner_labels 6 rules.

Definition program_size (rules : list Rule) : nat := 7 + rules_size rules.

Lemma program_code_length audit_arch default_ret rules : length (program_code audit_arch default_ret rules) = program_size rules.
Proof. unfold program_code, program_size. rewrite !length_app, rules_code_length. cbn. lia. Qed.

Lemma make_labels_code n c0 ls : make_labels n (holding c0 ls) = Some (seq (length ls) n, holding c0 (ls ++ replicate n None)).
Proof.
revert ls. induction n as [|n IH]; intros ls; cbn [make_labels]; [by rewrite app_nil_r|]. unfold mbind, B_mbind, label. cbn [labels holding mbind option_bind].
change (mkBuilder _ (ls ++ [None]) _) with (holding c0 (ls ++ [None])). rewrite IH. cbn. rewrite length_app. cbn. by rewrite <- app_assoc, Nat.add_1_r.
Qed.

Lemma emit_program_code audit_arch default_ret rules :
  emit_program audit_arch default_ret rules new = Some ((), holding (program_code audit_arch default_ret rules) (program_labels rules)).
Proof.
change new with (holding [] []). unfold emit_program.
do 6 (unfold mbind at 1, B_mbind at 1; rewrite emits_push; cbn [mbind option_bind app]).
unfold mbind at 1, B_mbind at 1. rewrite make_labels_code. cbn [mbind option_bind app length].
unfold mbind at 1, B_mbind at 1.
pose proof (emit_rules_code rules (S (length rules)) 0 (guard_code audit_arch) [] [] eq_refl eq_refl) as E. rewrite app_nil_r in E. cbn [app] in E.
change (guard_code audit_arch) with [I (stmt LD_ABS SECCOMP_DATA_ARCH_OFFSET); I (jump (JMP_K BPF_JEQ) audit_arch 1 0); I (stmt RET_K SECCOMP_RET_KILL_PROCESS);
   I (stmt LD_ABS SECCOMP_DATA_NR_OFFSET); I (jump (JMP_K BPF_JSET) X32_SYSCALL_BIT 0 1); I (stmt RET_K SECCOMP_RET_KILL_PROCESS)] in E.
rewrite E. clear E. cbn [mbind option_bind]. unfold mbind at 1, B_mbind at 1, label_at. rewrite lookup_seq_lt by lia. cbn [mbind option_bind Nat.add].
unfold mbind at 1, B_mbind at 1, bind. cbn [labels holding prog patches]. rewrite bool_decide_eq_true_2 by (rewrite length_app, rule_starts_length; cbn; lia). cbn [mbind option_bind].
change (mkBuilder (skeleton <$> ?c) ?ls (jumps 0 ?c)) with (holding c ls). rewrite emits_push. f_equal. f_equal. f_equal.
- unfold program_code. rewrite Nat.add_0_r. by rewrite <- app_assoc.
- unfold program_labels. rewrite length_fmap, length_app, rules_code_length. cbn [length].
  rewrite insert_app_r_alt by (rewrite rule_starts_length; lia). by rewrite rule_starts_length, Nat.sub_diag.
Qed.

(** ** Patching *)

Definition resolve_one (ls : list (option nat)) (at_ : nat) (c : sym) : sock_filter :=
  match c with
  | I i => i
  | J l => stmt (Z.lor BPF_JMP BPF_JA) (match ls !! l with Some (Some t) => Z.of_nat (t - (at_ + 1)) | _ => 0 end)
  end.

Fixpoint resolve (ls : list (option nat)) (at_ : nat) (cs : list sym) : list sock_filter :=
  match cs with [] => [] | c :: cs => resolve_one ls at_ c :: resolve ls (S at_) cs end.

Lemma resolve_length ls at_ cs : length (resolve ls at_ cs) = length cs.
Proof. revert at_. induction cs as [|c cs IH]; intros at_; cbn; [done|by rewrite IH]. Qed.

Lemma resolve_lookup ls at_ cs n : resolve ls at_ cs !! n = resolve_one ls (at_ + n) <$> cs !! n.
Proof.
revert at_ n. induction cs as [|c cs IH]; intros at_ [|n]; cbn [resolve lookup list_lookup]; [done|done|cbn; by rewrite Nat.add_0_r|].
etrans; [apply IH|]. by rewrite Nat.add_succ_r.
Qed.

(** Every jump goes forward, to a bound label within the program. *)
Definition forward (ls : list (option nat)) (total at_ : nat) (cs : list sym) : Prop :=
  forall n l, cs !! n = Some (J l) -> exists t, ls !! l = Some (Some t) /\ at_ + n < t < total.

Lemma forward_cons ls total at_ c cs : forward ls total at_ (c :: cs) -> forward ls total (S at_) cs.
Proof. intros H n l Hn. destruct (H (S n) l Hn) as (t & ? & ?). exists t. split; [done|lia]. Qed.

Lemma patch_all_resolve ls total at_ cs pre :
  forward ls total at_ cs -> length pre = at_ ->
  exists r, patch_all ls (pre ++ (skeleton <$> cs)) (jumps at_ cs) = Some r /\
    match r with Ok p => p = pre ++ resolve ls at_ cs | Err e => e = Io InvalidData /\ (2 ^ 32 < Z.of_nat total)%Z end.
Proof.
revert at_ pre. induction cs as [|c cs IH]; intros at_ pre Hf Hpre; cbn [jumps fmap list_fmap resolve]; [eexists; split; [reflexivity|done]|].
assert (forall i, pre ++ i :: (skeleton <$> cs) = (pre ++ [i]) ++ (skeleton <$> cs)) as Happ by (intros i; by rewrite <- app_assoc).
destruct c as [i|l]; cbn [jumps skeleton resolve_one].
- rewrite Happ. destruct (IH (S at_) (pre ++ [i])) as (r & E & Hr); [by eapply forward_cons|rewrite length_app; cbn; lia|].
  exists r. split; [exact E|]. destruct r as [p|e]; [by rewrite <- app_assoc in Hr|done].
- destruct (Hf 0 l eq_refl) as (t & Hl & Ht1 & Ht2). cbn [patch_all]. unfold patch at 1. rewrite Hl. cbn [mbind option_bind].
  rewrite bool_decide_eq_false_2 by lia. destruct (bool_decide_reflect (u32 (Z.of_nat (t - (at_ + 1))))) as [Hu|Hu]; cbn [mbind option_bind].
  2:{ eexists. split; [reflexivity|]. split; [done|]. unfold u32 in Hu. lia. }
  rewrite lookup_app_r, Hpre, Nat.sub_diag by lia. cbn [lookup list_lookup mbind option_bind code jt jf stmt].
  rewrite insert_app_r_alt, Hpre, Nat.sub_diag by lia. cbn [insert list_insert].
  destruct (IH (S at_) (pre ++ [stmt (Z.lor BPF_JMP BPF_JA) (Z.of_nat (t - (at_ + 1)))])) as (r & E & Hr); [by eapply forward_cons|rewrite length_app; cbn; lia|].
  rewrite <- app_assoc in E. exists r. split; [exact E|]. destruct r as [p|e]; [|done]. rewrite <- app_assoc in Hr. exact Hr.
Qed.

(** ** The jumps of the program go forward *)

Lemma forward_app ls total at_ cs cs' : forward ls total at_ cs -> forward ls total (at_ + length cs) cs' -> forward ls total at_ (cs ++ cs').
Proof.
intros H H' n l Hn. apply lookup_app_Some in Hn as [Hn|[Hle Hn]]; [by apply H|]. destruct (H' _ l Hn) as (t & ? & ?). exists t. split; [done|lia].
Qed.

Lemma forward_insns ls total at_ (insns : list sock_filter) : forward ls total at_ (I <$> insns).
Proof. intros n l Hn. rewrite list_lookup_fmap in Hn. by destruct (insns !! n). Qed.

(** Labels of the conditions are bound where the code after the condition starts. *)
Lemma args_labels_lookup at_ l n arg :
  l !! n = Some arg -> args_labels at_ l !! n = Some (Some (at_ + args_size (take n l) + cond_size arg)).
Proof.
revert at_ n. induction l as [|a l IH]; intros at_ [|n] Hn; [done|done| |]; cbn [args_labels lookup list_lookup take] in *.
- injection Hn as ->. cbn. by rewrite Nat.add_0_r.
- etrans; [by apply IH|]. cbn. do 2 f_equal. unfold args_size. cbn. lia.
Qed.

Lemma cond_jumps arg next fail n l : cond_code arg next fail !! n = Some (J l) -> (l = next \/ l = fail) /\ n < cond_size arg.
Proof.
intros H. split; [|rewrite <- (cond_size_eq arg next fail); by eapply lookup_lt_Some]. unfold cond_code in H. destruct (op arg);
  do 8 (destruct n as [|n]; [cbn in H; (discriminate H || (injection H as <-; auto))|]); by destruct n.
Qed.

Lemma args_forward ls total at_ fresh l fail tf :
  ls !! fail = Some (Some tf) -> at_ + args_size l < tf < total -> (forall n, n < length l -> ls !! (fresh + n) = args_labels at_ l !! n) ->
  forward ls total at_ (args_code fresh l fail).
Proof.
intros Hf. revert at_ fresh. induction l as [|arg l IH]; intros at_ fresh Ht Hls; cbn [args_code]; [by intros n l|].
assert (args_size (arg :: l) = cond_size arg + args_size l) as Hsz by done.
apply forward_app.
- intros n l' [[->| ->] Hn]%cond_jumps; [|exists tf; split; [done|lia]].
  exists (at_ + cond_size arg). split; [|lia]. specialize (Hls 0 ltac:(cbn; lia)). by rewrite Nat.add_0_r in Hls.
- rewrite cond_size_eq. apply IH; [lia|]. intros n Hn. specialize (Hls (S n) ltac:(cbn; lia)). by rewrite Nat.add_succ_r in Hls.
Qed.

(** The labels of a suffix of the rules that starts at [at_]. *)
Record labelled (ls : list (option nat)) (at_ fresh index : nat) (rules : list Rule) : Prop := {
  lb_rules i : i <= length rules -> ls !! (index + i) = (rule_starts at_ rules ++ [Some (at_ + rules_size rules)]) !! i;
  lb_inner n : n < length (inner_labels at_ rules) -> ls !! (fresh + n) = inner_labels at_ rules !! n }.

Lemma program_labelled rules : labelled (program_labels rules) 6 (S (length rules)) 0 rules.
Proof.
unfold program_labels. rewrite app_assoc. split.
- intros i Hi. rewrite lookup_app_l; [done|]. rewrite length_app, rule_starts_length. cbn. lia.
- intros n _. rewrite lookup_app_r by (rewrite length_app, rule_starts_length; cbn; lia). f_equal. rewrite length_app, rule_starts_length. cbn. lia.
Qed.

Section suffix.
Context (ls : list (option nat)) (at_ fresh index : nat) (rule : Rule) (rules : list Rule).
Hypothesis H : labelled ls at_ fresh index (rule :: rules).

Lemma labelled_tail : labelled ls (at_ + rule_size rule) (fresh + length (args rule)) (S index) rules.
Proof.
split.
- intros i Hi. pose proof (lb_rules _ _ _ _ _ H (S i) ltac:(cbn; lia)) as E. rewrite <- Nat.add_succ_comm in E. rewrite E. cbn [rule_starts app lookup list_lookup]. change (rules_size (rule :: rules)) with (rule_size rule + rules_size rules). by rewrite Nat.add_assoc.
- intros n Hn. pose proof (lb_inner _ _ _ _ _ H (length (args rule) + n)) as E. cbn [inner_labels] in E.
  rewrite length_app, args_labels_length, lookup_app_r in E by (rewrite args_labels_length; lia). rewrite args_labels_length, Nat.add_sub_swap, Nat.sub_diag in E by done.
  rewrite <- Nat.add_assoc. apply E. lia.
Qed.

Lemma labelled_next : ls !! (S index) = Some (Some (at_ + rule_size rule)).
Proof.
pose proof (lb_rules _ _ _ _ _ H 1 ltac:(cbn; lia)) as E. rewrite Nat.add_1_r in E. rewrite E. cbn. destruct rules; cbn; [|done]. by rewrite Nat.add_0_r.
Qed.

Lemma labelled_args n : n < length (args rule) -> ls !! (fresh + n) = args_labels (at_ + 3) (args rule) !! n.
Proof.
intros Hn. rewrite (lb_inner _ _ _ _ _ H) by (cbn [inner_labels]; rewrite length_app, args_labels_length; lia). cbn [inner_labels].
by rewrite lookup_app_l by (by rewrite args_labels_length).
Qed.
End suffix.

Lemma rules_forward ls total at_ fresh index rules :
  labelled ls at_ fresh index rules -> at_ + rules_size rules < total -> forward ls total at_ (rules_code fresh rules index).
Proof.
revert at_ fresh index. induction rules as [|rule rules IH]; intros at_ fresh index H Ht; cbn [rules_code]; [by intros n l|].
assert (rules_size (rule :: rules) = rule_size rule + rules_size rules) as Hsz by done.
apply forward_app; [|rewrite rule_code_length; apply IH; [by apply labelled_tail|lia]].
unfold rule_code. apply forward_app; [|apply forward_app].
- intros n l Hn. destruct n as [|[|[|n]]]; try discriminate Hn. injection Hn as <-.
  exists (at_ + rule_size rule). split; [by eapply labelled_next|]. unfold rule_size in *. lia.
- eapply args_forward; [by eapply labelled_next| |cbn [length]; apply (labelled_args _ _ _ _ _ _ H)]. unfold rule_size in *. cbn [length]. lia.
- apply (forward_insns _ _ _ [_]).
Qed.

Lemma program_forward audit_arch default_ret rules :
  forward (program_labels rules) (program_size rules) 0 (program_code audit_arch default_ret rules).
Proof.
unfold program_code. apply forward_app; [apply (forward_insns _ _ _ [_; _; _; _; _; _])|]. apply forward_app; [|apply (forward_insns _ _ _ [_])].
cbn [length Nat.add]. apply rules_forward; [apply program_labelled|]. unfold program_size. cbn [length guard_code Nat.add]. lia.
Qed.

(** What [compile_rules] returns: the resolved code, unless a jump does not fit in 32 bits. *)
Lemma compile_rules_code audit_arch default_ret rules :
  exists r, compile_rules audit_arch default_ret rules = Some r /\
    match r with
    | Ok p => p = resolve (program_labels rules) 0 (program_code audit_arch default_ret rules)
    | Err e => e = Io InvalidData /\ (2 ^ 32 < Z.of_nat (program_size rules))%Z
    end.
Proof.
unfold compile_rules. rewrite emit_program_code. cbn [mbind option_bind]. unfold finish. cbn [labels prog patches holding].
destruct (patch_all_resolve (program_labels rules) (program_size rules) 0 (program_code audit_arch default_ret rules) []) as (r & E & Hr);
  [apply program_forward|done|]. exists r. split; [exact E|]. by destruct r.
Qed.

(** * Running the code *)

Section machine.
Context (P : list sock_filter) (ls : list (option nat)) (d : seccomp_data).

(** The run from a program point ends with a result. *)
Inductive yields : nat -> Z -> Z -> Prop :=
  | yields_ret pc acc insn r : P !! pc = Some insn -> step d insn pc acc = Some (inr r) -> yields pc acc r
  | yields_step pc acc insn pc' acc' r :
      P !! pc = Some insn -> step d insn pc acc = Some (inl (pc', acc')) -> yields pc' acc' r -> yields pc acc r.

Lemma step_forward insn pc acc pc' acc' : step d insn pc acc = Some (inl (pc', acc')) -> pc < pc'.
Proof.
unfold step. destruct (bool_decide (code insn = LD_ABS)); [destruct (load d (k insn)); [|done]; intros [= <- <-]; lia|].
repeat (destruct (bool_decide _); [first [done|intros [= <- <-]; lia]|]); done.
Qed.

(** The program counter only grows, so as many turns as there are instructions are enough. *)
Lemma yields_run pc acc r turns : yields pc acc r -> length P - pc <= turns -> run_from turns P d pc acc = Some r.
Proof.
intros H. revert turns. induction H as [pc acc insn r Hi Hs|pc acc insn pc' acc' r Hi Hs _ IH]; intros turns Ht; pose proof (lookup_lt_Some _ _ _ Hi);
  (destruct turns as [|turns]; [lia|]); cbn [run_from]; rewrite Hi; cbn [mbind option_bind]; rewrite Hs; cbn [mbind option_bind]; [done|].
apply IH. apply step_forward in Hs. lia.
Qed.

(** The resolved code at a program point. *)
Definition code_at (pc : nat) (cs : list sym) : Prop := forall n c, cs !! n = Some c -> P !! (pc + n) = Some (resolve_one ls (pc + n) c).

Lemma code_at_app_l pc cs cs' : code_at pc (cs ++ cs') -> code_at pc cs.
Proof. intros H n c Hn. apply H. by apply lookup_app_l_Some. Qed.

Lemma code_at_app_r pc cs cs' : code_at pc (cs ++ cs') -> code_at (pc + length cs) cs'.
Proof.
intros H n c Hn. rewrite <- Nat.add_assoc. apply H. rewrite lookup_app_r by lia. by replace (length cs + n - length cs) with n by lia.
Qed.

Lemma code_at_insn pc cs n i p : code_at pc cs -> cs !! n = Some (I i) -> p = pc + n -> P !! p = Some i.
Proof. intros H Hn ->. by rewrite (H n _ Hn). Qed.

Lemma code_at_jump pc cs n l p t : code_at pc cs -> cs !! n = Some (J l) -> ls !! l = Some (Some t) -> p = pc + n -> P !! p = Some (stmt (Z.lor BPF_JMP BPF_JA) (Z.of_nat (t - (p + 1)))).
Proof. intros H Hn Hl ->. rewrite (H n _ Hn). cbn. by rewrite Hl. Qed.

Lemma yields_ld p off v acc r : P !! p = Some (stmt LD_ABS off) -> load d off = Some v -> yields (p + 1) v r -> yields p acc r.
Proof. intros Hp Hv Hy. eapply yields_step; [exact Hp| |exact Hy]. unfold step. cbn [code stmt k]. rewrite bool_decide_eq_true_2 by done. by rewrite Hv. Qed.

Lemma yields_and p m acc r : P !! p = Some (stmt AND_K m) -> yields (p + 1) (Z.land acc m) r -> yields p acc r.
Proof. intros Hp Hy. eapply yields_step; [exact Hp|reflexivity|exact Hy]. Qed.

Lemma yields_jeq p v a b acc r : P !! p = Some (jump (JMP_K BPF_JEQ) v a b) -> yields (p + 1 + Z.to_nat (if (acc =? v)%Z then a else b)) acc r -> yields p acc r.
Proof. intros Hp Hy. eapply yields_step; [exact Hp|reflexivity|exact Hy]. Qed.

Lemma yields_jgt p v a b acc r : P !! p = Some (jump (JMP_K BPF_JGT) v a b) -> yields (p + 1 + Z.to_nat (if (v <? acc)%Z then a else b)) acc r -> yields p acc r.
Proof. intros Hp Hy. eapply yields_step; [exact Hp|reflexivity|exact Hy]. Qed.

Lemma yields_jge p v a b acc r : P !! p = Some (jump (JMP_K BPF_JGE) v a b) -> yields (p + 1 + Z.to_nat (if (v <=? acc)%Z then a else b)) acc r -> yields p acc r.
Proof. intros Hp Hy. eapply yields_step; [exact Hp|reflexivity|exact Hy]. Qed.

Lemma yields_jset p v a b acc r : P !! p = Some (jump (JMP_K BPF_JSET) v a b) -> yields (p + 1 + Z.to_nat (if negb (Z.land acc v =? 0)%Z then a else b)) acc r -> yields p acc r.
Proof. intros Hp Hy. eapply yields_step; [exact Hp|reflexivity|exact Hy]. Qed.

Lemma yields_ja p t acc r : P !! p = Some (stmt (Z.lor BPF_JMP BPF_JA) (Z.of_nat (t - (p + 1)))) -> p < t -> yields t acc r -> yields p acc r.
Proof.
intros Hp Ht Hy. eapply yields_step; [exact Hp|reflexivity|]. cbn [k stmt]. rewrite Nat2Z.id. by replace (p + 1 + (t - (p + 1))) with t by lia.
Qed.

Lemma yields_return p v acc : P !! p = Some (stmt RET_K v) -> yields p acc v.
Proof. intros Hp. eapply yields_ret; [exact Hp|reflexivity]. Qed.

(** ** Conditions *)

(** What the code of a condition decides, on the two words of the argument. *)
Definition cond_words (arg : ArgCondition) (hi lo : Z) : bool :=
  match op arg with
  | Eq => (hi =? value_high arg)%Z && (lo =? value_low arg)%Z
  | Ne => negb (hi =? value_high arg)%Z || negb (lo =? value_low arg)%Z
  | MaskedEq => (Z.land hi (value_two_high arg) =? value_high arg)%Z && (Z.land lo (value_two_low arg) =? value_low arg)%Z
  | Lt => negb (value_high arg <? hi)%Z && (negb (hi =? value_high arg)%Z || negb (value_low arg <=? lo)%Z)
  | Le => negb (value_high arg <? hi)%Z && (negb (hi =? value_high arg)%Z || negb (value_low arg <? lo)%Z)
  | Gt => (value_high arg <? hi)%Z || ((hi =? value_high arg)%Z && (value_low arg <? lo)%Z)
  | Ge => (value_high arg <? hi)%Z || ((hi =? value_high arg)%Z && (value_low arg <=? lo)%Z)
  end.

(** Symbolic execution: fetch an instruction of the code in [Hc], step over it, and split on
    the test of a branch. *)
Ltac bpf_fetch Hc tac :=
  first [tac 0 Hc|tac 1 Hc|tac 2 Hc|tac 3 Hc|tac 4 Hc|tac 5 Hc|tac 6 Hc|tac 7 Hc].
Ltac bpf_insn n Hc := solve [eapply (code_at_insn _ _ n _ _ Hc); [reflexivity|lia]].
Ltac bpf_target n Hc := solve [eapply (code_at_jump _ _ n _ _ _ Hc); [reflexivity|eassumption|lia]].
Ltac bpf_case := match goal with |- context [Z.to_nat (if ?b then _ else _)] => destruct b eqn:? end; cbn [Z.to_nat Pos.to_nat Pos.iter_op Init.Nat.add].
Ltac bpf_step Hc :=
  first [ eapply yields_ld; [bpf_fetch Hc bpf_insn|eassumption|]
        | eapply yields_and; [bpf_fetch Hc bpf_insn|]
        | eapply yields_jeq; [bpf_fetch Hc bpf_insn|bpf_case]
        | eapply yields_jgt; [bpf_fetch Hc bpf_insn|bpf_case]
        | eapply yields_jge; [bpf_fetch Hc bpf_insn|bpf_case]
        | eapply yields_ja; [bpf_fetch Hc bpf_target|lia|] ].

Section condition.
Context (arg : ArgCondition) (next fail : Label) (pc tf : nat) (hi lo : Z).
Hypothesis Hc : code_at pc (cond_code arg next fail).
Hypothesis Hnext : ls !! next = Some (Some (pc + cond_size arg)).
Hypothesis Hfail : ls !! fail = Some (Some tf).
Hypothesis Hlt : pc + cond_size arg <= tf.
Hypothesis Hhi : load d (high_offset arg) = Some hi.
Hypothesis Hlo : load d (low_offset arg) = Some lo.

(** The code of a condition goes on after itself or at the failure label. *)
Lemma cond_run acc r :
  (forall acc, yields (if cond_words arg hi lo then pc + cond_size arg else tf) acc r) -> yields pc acc r.
Proof.
unfold cond_size, cond_code, cond_words in *. destruct (op arg); cbn [length app eq_word_code masked_word_code ordered_code] in *; intros Hk.
all: repeat bpf_step Hc; repeat match goal with E : _ = true |- _ => rewrite E in Hk; clear E | E : _ = false |- _ => rewrite E in Hk; clear E end; cbn [andb orb negb] in Hk;
  match goal with |- yields ?p ?a _ => specialize (Hk a); match type of Hk with yields ?q _ _ => replace p with q by lia; exact Hk end end.
Qed.
End condition.

(** ** Rules *)

(** Both words of the argument can be read. *)
Definition readable (arg : ArgCondition) : Prop := is_Some (load d (high_offset arg)) /\ is_Some (load d (low_offset arg)).

Definition arg_matches (arg : ArgCondition) : bool :=
  match load d (high_offset arg), load d (low_offset arg) with
  | Some hi, Some lo => cond_words arg hi lo
  | _, _ => false
  end.

Definition rule_matches (rule : Rule) : bool := (d_nr d =? nr rule)%Z && forallb arg_matches (args rule).

(** The action of the first rule that matches. *)
Definition first_match (default_ret : Z) (rules : list Rule) : Z :=
  match List.find rule_matches rules with Some rule => action rule | None => default_ret end.

Lemma args_run l fresh fail pc tf acc r :
  code_at pc (args_code fresh l fail) -> (forall n, n < length l -> ls !! (fresh + n) = args_labels pc l !! n) ->
  ls !! fail = Some (Some tf) -> pc + args_size l <= tf -> Forall readable l ->
  (forall acc, yields (if forallb arg_matches l then pc + args_size l else tf) acc r) -> yields pc acc r.
Proof.
revert fresh pc acc. induction l as [|arg l IH]; intros fresh pc acc Hc Hls Hf Hlt Hr Hk; cbn [args_code] in Hc.
{ specialize (Hk acc). cbn in Hk. by rewrite Nat.add_0_r in Hk. }
apply Forall_cons in Hr as [[[hi Hhi] [lo Hlo]] Hr]. assert (args_size (arg :: l) = cond_size arg + args_size l) as Hsz by done.
assert (arg_matches arg = cond_words arg hi lo) as Ha by (unfold arg_matches; by rewrite Hhi, Hlo).
eapply (cond_run arg fresh fail pc tf hi lo); [by eapply code_at_app_l| |done|lia|done|done|].
{ specialize (Hls 0 ltac:(cbn; lia)). by rewrite Nat.add_0_r in Hls. }
intros acc'. cbn [forallb] in Hk. rewrite Ha in Hk. destruct (cond_words arg hi lo); [|by apply Hk].
apply (IH (S fresh)); [|..]; [| |done|lia|done|].
- apply code_at_app_r in Hc. by rewrite cond_size_eq in Hc.
- intros n Hn. specialize (Hls (S n) ltac:(cbn; lia)). by rewrite Nat.add_succ_r in Hls.
- cbn [andb] in Hk. rewrite Hsz, Nat.add_assoc in Hk. exact Hk.
Qed.

Lemma rule_run rule rules fresh index pc acc r :
  code_at pc (rule_code fresh rule (S index)) -> labelled ls pc fresh index (rule :: rules) -> Forall readable (args rule) ->
  (rule_matches rule = true -> r = action rule) -> (rule_matches rule = false -> forall acc, yields (pc + rule_size rule) acc r) -> yields pc acc r.
Proof.
intros Hc Hl Hr Ht Hf. pose proof (labelled_next _ _ _ _ _ _ Hl) as Hnext. unfold rule_matches in *. unfold rule_code in Hc.
assert (load d SECCOMP_DATA_NR_OFFSET = Some (d_nr d)) as Hnr by done. unfold rule_size in *.
pose proof (code_at_app_l _ _ _ Hc) as Hc0. apply code_at_app_r in Hc. cbn [length] in Hc.
pose proof (code_at_app_l _ _ _ Hc) as Hc1. apply code_at_app_r in Hc. rewrite args_code_length in Hc.
bpf_step Hc0. bpf_step Hc0.
- replace (pc + 1 + 1 + Z.to_nat 1) with (pc + 3) by lia. eapply args_run; [exact Hc1|apply (labelled_args _ _ _ _ _ _ Hl)|exact Hnext|lia|done|].
  intros acc'. cbn [andb] in *. destruct (forallb arg_matches (args rule)); [|by apply Hf].
  rewrite Ht by done. apply yields_return. apply (code_at_insn _ _ 0 _ _ Hc); [done|lia].
- bpf_step Hc0. by apply Hf.
Qed.

Lemma rules_run rules default_ret fresh index pc acc :
  code_at pc (rules_code fresh rules index ++ [I (stmt RET_K default_ret)]) -> labelled ls pc fresh index rules ->
  Forall (fun rule => Forall readable (args rule)) rules -> yields pc acc (first_match default_ret rules).
Proof.
revert fresh index pc acc. induction rules as [|rule rules IH]; intros fresh index pc acc Hc Hl Hr; cbn [rules_code] in Hc.
{ apply yields_return. by eapply (code_at_insn _ _ 0 _ _ Hc). }
apply Forall_cons in Hr as [Hr Hrs]. rewrite <- app_assoc in Hc. unfold first_match. cbn [List.find].
eapply (rule_run rule rules fresh index); [by eapply code_at_app_l|done|done|by intros ->|]. intros ->. intros acc'.
apply code_at_app_r in Hc. rewrite rule_code_length in Hc. eapply IH; [exact Hc|by apply labelled_tail|done].
Qed.

(** The decision of a filter. *)
Definition filter_decision (audit_arch default_ret : Z) (rules : list Rule) : Z :=
  if (d_arch d =? audit_arch)%Z then
    if (Z.land (d_nr d) X32_SYSCALL_BIT =? 0)%Z then first_match default_ret rules else SECCOMP_RET_KILL_PROCESS
  else SECCOMP_RET_KILL_PROCESS.

Lemma program_run audit_arch default_ret rules :
  code_at 0 (program_code audit_arch default_ret rules) -> ls = program_labels rules ->
  Forall (fun rule => Forall readable (args rule)) rules -> yields 0 0 (filter_decision audit_arch default_ret rules).
Proof.
intros Hc Hls Hr. unfold program_code in Hc. pose proof (code_at_app_l _ _ _ Hc) as Hg. apply code_at_app_r in Hc. unfold filter_decision.
assert (load d SECCOMP_DATA_NR_OFFSET = Some (d_nr d)) as Hnr by done. assert (load d SECCOMP_DATA_ARCH_OFFSET = Some (d_arch d)) as Harch by done.
bpf_step Hg. eapply yields_jeq; [bpf_fetch Hg bpf_insn|]. destruct (d_arch d =? audit_arch)%Z; [|apply yields_return; bpf_fetch Hg bpf_insn].
eapply yields_ld; [bpf_fetch Hg bpf_insn|exact Hnr|]. eapply yields_jset; [bpf_fetch Hg bpf_insn|].
destruct (Z.land (d_nr d) X32_SYSCALL_BIT =? 0)%Z; cbn [negb]; [|apply yields_return; bpf_fetch Hg bpf_insn].
eapply rules_run; [exact Hc|rewrite Hls; exact (program_labelled rules)|done].
Qed.
End machine.

Lemma compile_rules_run audit_arch default_ret rules p d :
  compile_rules audit_arch default_ret rules = Some (Ok p) -> Forall (fun rule => Forall (readable d) (args rule)) rules ->
  run_bpf_args (length p) p d = Some (filter_decision d audit_arch default_ret rules).
Proof.
intros E Hr. destruct (compile_rules_code audit_arch default_ret rules) as (r & E' & Hp). rewrite E in E'. injection E' as <-. subst p.
eapply yields_run; [|lia]. eapply program_run; [|reflexivity|done]. intros n c Hn. cbn [Nat.add]. by rewrite resolve_lookup, Hn.
Qed.

(** * The kernel's check

    A filter is accepted when every instruction is a known one, loads are aligned and within
    [seccomp_data], jumps stay within the program, and the last instruction returns. *)

Definition insn_typed (i : sock_filter) : Prop :=
  u32 (k i) /\ u8 (jt i) /\ u8 (jf i) /\
  (code i ∈ [LD_ABS; AND_K; JMP_K BPF_JEQ; JMP_K BPF_JGT; JMP_K BPF_JGE; JMP_K BPF_JSET; Z.lor BPF_JMP BPF_JA; RET_K]) /\
  (code i = LD_ABS -> (k i mod 4 = 0 /\ k i < 64)%Z).

Definition jumps_within (total pc : nat) (i : sock_filter) : Prop :=
  (code i = Z.lor BPF_JMP BPF_JA -> pc + 1 + Z.to_nat (k i) < total) /\
  (code i <> Z.lor BPF_JMP BPF_JA -> code i <> RET_K -> pc + 1 + Z.to_nat (jt i) < total /\ pc + 1 + Z.to_nat (jf i) < total).

Definition check_classic (p : list sock_filter) : Prop :=
  (forall pc i, p !! pc = Some i -> insn_typed i /\ jumps_within (length p) pc i) /\ exists i, last p = Some i /\ code i = RET_K.

(** Code whose instructions are typed and whose branches stay within it. *)
Definition tame (cs : list sym) : Prop :=
  forall n i, cs !! n = Some (I i) ->
    insn_typed i /\ code i <> Z.lor BPF_JMP BPF_JA /\ n + 1 + Z.to_nat (jt i) <= length cs /\ n + 1 + Z.to_nat (jf i) <= length cs.

Lemma tame_app cs cs' : tame cs -> tame cs' -> tame (cs ++ cs').
Proof.
intros H H' n i Hn. rewrite length_app. apply lookup_app_Some in Hn as [Hn|[Hle Hn]].
- destruct (H _ _ Hn) as (? & ? & ? & ?). split; [done|split; [done|lia]].
- destruct (H' _ _ Hn) as (? & ? & ? & ?). split; [done|split; [done|lia]].
Qed.

(** A load from the argument area, and values of the machine's width. *)
Definition arg_typed (arg : ArgCondition) : Prop :=
  (high_offset arg mod 4 = 0 /\ 0 <= high_offset arg < 64 /\ low_offset arg mod 4 = 0 /\ 0 <= low_offset arg < 64)%Z /\
  u32 (value_low arg) /\ u32 (value_high arg) /\ u32 (value_two_low arg) /\ u32 (value_two_high arg).

Lemma ld_typed off : (off mod 4 = 0)%Z -> (0 <= off < 64)%Z -> insn_typed (stmt LD_ABS off).
Proof. intros H1 H2. split; [unfold u32; cbn; lia|]. split; [by compute|]. split; [by compute|]. split; [apply list_elem_of_here|intros _; split; [exact H1|apply H2]]. Qed.

Lemma jump_typed test v a b : test ∈ [BPF_JEQ; BPF_JGT; BPF_JGE; BPF_JSET] -> u32 v -> u8 a -> u8 b -> insn_typed (jump (JMP_K test) v a b).
Proof.
intros Ht Hv Ha Hb. split; [done|]. split; [done|]. split; [done|]. rewrite !elem_of_cons, elem_of_nil in *. cbn [code jump].
destruct Ht as [->|[->|[->|[->|[]]]]]; (split; [auto 10|by intros ?]).
Qed.

Lemma and_typed m : u32 m -> insn_typed (stmt AND_K m).
Proof. intros Hm. split; [done|]. split; [by compute|]. split; [by compute|]. split; [rewrite !elem_of_cons; auto|by intros ?]. Qed.

Lemma ret_typed v : u32 v -> insn_typed (stmt RET_K v).
Proof. intros Hv. split; [done|]. split; [by compute|]. split; [by compute|]. split; [rewrite !elem_of_cons; auto 10|by intros ?]. Qed.

#[export] Hint Resolve ld_typed jump_typed and_typed ret_typed tame_app : bpf.

Lemma cond_tame arg next fail : arg_typed arg -> tame (cond_code arg next fail).
Proof.
intros ((? & ? & ? & ?) & ? & ? & ? & ?). assert (u8 0) by by compute. assert (u8 1) by by compute.
unfold cond_code. destruct (op arg); intros n i Hn;
  (do 8 (destruct n as [|n]; [cbn in Hn; (discriminate Hn || (injection Hn as <-; split; [first [by apply ld_typed|by apply and_typed|apply jump_typed; [rewrite !elem_of_cons; auto|done..]]|split; [done|cbn; lia]]))|])); destruct n; discriminate Hn.
Qed.

Definition rule_typed (rule : Rule) : Prop := u32 (nr rule) /\ u32 (action rule) /\ Forall arg_typed (args rule).

Lemma args_tame fresh l fail : Forall arg_typed l -> tame (args_code fresh l fail).
Proof.
intros H. revert fresh. induction H as [|arg l Ha _ IH]; intros fresh; cbn [args_code]; [by intros n i|]. apply tame_app; [by apply cond_tame|apply IH].
Qed.

Lemma rule_tame fresh rule next_rule : rule_typed rule -> tame (rule_code fresh rule next_rule).
Proof.
intros (Hn & Ha & Hargs). assert (u8 0) by by compute. assert (u8 1) by by compute. apply tame_app; [|apply tame_app; [by apply args_tame|]].
- intros n i Hi. destruct n as [|[|[|n]]]; try discriminate Hi; injection Hi as <-; (split; [|split; [done|cbn; lia]]).
  + by apply ld_typed.
  + apply jump_typed; [rewrite !elem_of_cons; auto|done..].
- intros n i Hi. destruct n as [|n]; [|discriminate Hi]. injection Hi as <-. split; [by apply ret_typed|split; [done|cbn; lia]].
Qed.

Lemma rules_tame fresh rules index : Forall rule_typed rules -> tame (rules_code fresh rules index).
Proof.
intros H. revert fresh index. induction H as [|rule rules Hr _ IH]; intros fresh index; cbn [rules_code]; [by intros n i|]. apply tame_app; [by apply rule_tame|apply IH].
Qed.

Lemma guard_tame audit_arch : u32 audit_arch -> tame (guard_code audit_arch).
Proof.
intros H. assert (u8 0) by by compute. assert (u8 1) by by compute. assert (u32 SECCOMP_RET_KILL_PROCESS) by by compute. assert (u32 X32_SYSCALL_BIT) by by compute.
intros n i Hi. do 6 (destruct n as [|n]; [injection Hi as <-; (split; [first [by apply ld_typed|by apply ret_typed|apply jump_typed; [rewrite !elem_of_cons; auto|done..]]|split; [done|cbn; lia]])|]). discriminate Hi.
Qed.

Lemma compile_rules_checked audit_arch default_ret rules p :
  compile_rules audit_arch default_ret rules = Some (Ok p) -> u32 audit_arch -> u32 default_ret -> Forall rule_typed rules -> (Z.of_nat (length p) <= 2 ^ 32)%Z ->
  check_classic p /\ length p = program_size rules.
Proof.
intros E Ha Hd Hr Hlen. destruct (compile_rules_code audit_arch default_ret rules) as (r & E' & Hp). rewrite E in E'. injection E' as <-. subst p.
rewrite resolve_length, program_code_length in *. split; [|done].
pose proof (program_forward audit_arch default_ret rules) as Hf. set (ls := program_labels rules) in *. set (total := program_size rules) in *.
assert (total = S (length (guard_code audit_arch ++ rules_code (S (length rules)) rules 0))) as Ht by (rewrite length_app, rules_code_length; done).
assert (tame (guard_code audit_arch ++ rules_code (S (length rules)) rules 0)) as Htame by (apply tame_app; [by apply guard_tame|by apply rules_tame]).
unfold program_code in *. rewrite app_assoc in *. set (body := guard_code audit_arch ++ rules_code (S (length rules)) rules 0) in *.
split; [|exists (stmt RET_K default_ret); split; [|done]].
2:{ rewrite last_lookup, resolve_length, resolve_lookup, length_app. cbn [length]. rewrite Nat.add_1_r. cbn [pred]. by rewrite lookup_app_r, Nat.sub_diag by lia. }
intros pc i. rewrite resolve_lookup, resolve_length, length_app. cbn [Nat.add length]. rewrite Nat.add_1_r, <- Ht.
destruct ((body ++ [I (stmt RET_K default_ret)]) !! pc) as [[i'|l]|] eqn:Epc; cbn [fmap option_fmap option_map resolve_one]; [| |done]; intros [= <-].
- apply lookup_app_Some in Epc as [Epc|[_ Epc]].
  + destruct (Htame _ _ Epc) as (H1 & H2 & H3 & H4). split; [done|]. split; [done|]. intros _ _. lia.
  + destruct (pc - length body); [|discriminate Epc]. injection Epc as <-. split; [by apply ret_typed|]. split; [done|by intros _ []].
- destruct (Hf _ _ Epc) as (t & -> & Ht1 & Ht2). split; [|split; [intros _; cbn [k stmt]; rewrite Nat2Z.id; lia|by intros []]].
  split; [unfold u32; cbn [k stmt]; lia|]. split; [by compute|]. split; [by compute|]. split; [rewrite !elem_of_cons; auto 10|by intros ?].
Qed.
