(* ===== verification/Syscalls.v ===== *)
(** The syscall tables of the seccomp compiler (syscalls.rs) and the names of its built-in
    profile (seccomp_default.json). *)

From Stdlib Require Import ZArith.
From S2P Require Import Prelude.

(** The numbers [libc::SYS_*] of the libc crate, by name. *)
Class Libc := SYS : bytes -> Z.

(** The names of the x86_64 table; each stands for the constant of its name. *)
Definition x86_64_names : list bytes := str <$> [
  "accept"; "accept4"; "access"; "adjtimex"; "alarm"; "arch_prctl"; "bind"; "brk"; "capget";
  "capset"; "chdir"; "chmod"; "chown"; "chroot"; "clock_adjtime"; "clock_getres"; "clock_gettime";
  "clock_nanosleep"; "clone"; "clone3"; "close"; "close_range"; "connect"; "copy_file_range";
  "creat"; "dup"; "dup2"; "dup3"; "epoll_create"; "epoll_create1"; "epoll_ctl"; "epoll_ctl_old";
  "epoll_pwait"; "epoll_pwait2"; "epoll_wait"; "epoll_wait_old"; "eventfd"; "eventfd2"; "execve";
  "execveat"; "exit"; "exit_group"; "faccessat"; "faccessat2"; "fadvise64"; "fallocate";
  "fanotify_mark"; "fchdir"; "fchmod"; "fchmodat"; "fchown"; "fchownat"; "fcntl"; "fdatasync";
  "fgetxattr"; "flistxattr"; "flock"; "fork"; "fremovexattr"; "fsetxattr"; "fstat"; "fstatfs";
  "fsync"; "ftruncate"; "futex"; "futex_waitv"; "futimesat"; "getcpu"; "getcwd"; "getdents";
  "getdents64"; "getegid"; "geteuid"; "getgid"; "getgroups"; "getitimer"; "getpeername"; "getpgid";
  "getpgrp"; "getpid"; "getppid"; "getpriority"; "get_robust_list"; "getrandom"; "getresgid";
  "getresuid"; "getrlimit"; "getrusage"; "getsid"; "getsockname"; "getsockopt"; "gettid";
  "gettimeofday"; "getuid"; "getxattr"; "inotify_add_watch"; "inotify_init"; "inotify_init1";
  "inotify_rm_watch"; "io_cancel"; "io_destroy"; "io_getevents"; "io_setup"; "io_submit";
  "io_uring_enter"; "io_uring_register"; "io_uring_setup"; "ioctl"; "ioprio_get"; "ioprio_set";
  "kcmp"; "keyctl"; "kill"; "landlock_add_rule"; "landlock_create_ruleset";
  "landlock_restrict_self"; "lchown"; "lgetxattr"; "link"; "linkat"; "listen"; "listxattr";
  "llistxattr"; "lremovexattr"; "lseek"; "lsetxattr"; "lstat"; "madvise"; "mbind"; "membarrier";
  "memfd_create"; "mincore"; "mkdir"; "mkdirat"; "mknod"; "mknodat"; "mlock"; "mlock2"; "mlockall";
  "mmap"; "mount"; "move_mount"; "mprotect"; "mq_getsetattr"; "mq_notify"; "mq_open";
  "mq_timedreceive"; "mq_timedsend"; "mq_unlink"; "mremap"; "msgctl"; "msgget"; "msgrcv"; "msgsnd";
  "msync"; "munlock"; "munlockall"; "munmap"; "name_to_handle_at"; "nanosleep"; "newfstatat";
  "open"; "openat"; "openat2"; "pause"; "personality"; "pidfd_getfd"; "pidfd_open";
  "pidfd_send_signal"; "pipe"; "pipe2"; "pivot_root"; "pkey_alloc"; "pkey_free"; "pkey_mprotect";
  "poll"; "ppoll"; "prctl"; "pread64"; "preadv"; "preadv2"; "prlimit64"; "process_madvise";
  "process_mrelease"; "process_vm_readv"; "process_vm_writev"; "pselect6"; "ptrace"; "pwrite64";
  "pwritev"; "pwritev2"; "read"; "readahead"; "readlink"; "readlinkat"; "readv"; "reboot";
  "recvfrom"; "recvmmsg"; "recvmsg"; "remap_file_pages"; "removexattr"; "rename"; "renameat";
  "renameat2"; "restart_syscall"; "rmdir"; "rseq"; "rt_sigaction"; "rt_sigpending";
  "rt_sigprocmask"; "rt_sigqueueinfo"; "rt_sigreturn"; "rt_sigsuspend"; "rt_sigtimedwait";
  "rt_tgsigqueueinfo"; "sched_get_priority_max"; "sched_get_priority_min"; "sched_getaffinity";
  "sched_getattr"; "sched_getparam"; "sched_getscheduler"; "sched_rr_get_interval";
  "sched_setaffinity"; "sched_setattr"; "sched_setparam"; "sched_setscheduler"; "sched_yield";
  "seccomp"; "select"; "semctl"; "semget"; "semop"; "semtimedop"; "sendfile"; "sendmmsg";
  "sendmsg"; "sendto"; "set_robust_list"; "set_tid_address"; "setfsgid"; "setfsuid"; "setgid";
  "setgroups"; "setitimer"; "setns"; "setpgid"; "setpriority"; "setregid"; "setresgid";
  "setresuid"; "setreuid"; "setrlimit"; "setsid"; "setsockopt"; "settimeofday"; "setuid";
  "setxattr"; "shmat"; "shmctl"; "shmdt"; "shmget"; "shutdown"; "sigaltstack"; "signalfd";
  "signalfd4"; "socket"; "socketpair"; "splice"; "stat"; "statfs"; "statx"; "symlink"; "symlinkat";
  "sync"; "sync_file_range"; "syncfs"; "sysinfo"; "syslog"; "tee"; "tgkill"; "time";
  "timer_create"; "timer_delete"; "timer_getoverrun"; "timer_gettime"; "timer_settime";
  "timerfd_create"; "timerfd_gettime"; "timerfd_settime"; "times"; "tkill"; "truncate"; "umask";
  "uname"; "unlink"; "unlinkat"; "utime"; "utimensat"; "utimes"; "vfork"; "vmsplice"; "wait4";
  "waitid"; "write"; "writev"
]%string.

Definition aarch64_table : list (bytes * Z) := (fun '(n, i) => (str n, i)) <$> [
  ("accept", 202%Z); ("accept4", 242%Z); ("adjtimex", 171%Z); ("bind", 200%Z); ("brk", 214%Z);
  ("capget", 90%Z); ("capset", 91%Z); ("chdir", 49%Z); ("clock_adjtime", 266%Z);
  ("clock_getres", 114%Z); ("clock_gettime", 113%Z); ("clock_nanosleep", 115%Z); ("clone", 220%Z);
  ("clone3", 435%Z); ("close", 57%Z); ("close_range", 436%Z); ("connect", 203%Z);
  ("copy_file_range", 285%Z); ("dup", 23%Z); ("dup3", 24%Z); ("epoll_create1", 20%Z);
  ("epoll_ctl", 21%Z); ("epoll_pwait", 22%Z); ("epoll_pwait2", 441%Z); ("eventfd2", 19%Z);
  ("execve", 221%Z); ("execveat", 281%Z); ("exit", 93%Z); ("exit_group", 94%Z);
  ("faccessat", 48%Z); ("faccessat2", 439%Z); ("fallocate", 47%Z); ("fanotify_mark", 263%Z);
  ("fchdir", 50%Z); ("fchmod", 52%Z); ("fchmodat", 53%Z); ("fchown", 55%Z); ("fchownat", 54%Z);
  ("fcntl", 25%Z); ("fdatasync", 83%Z); ("fgetxattr", 10%Z); ("flistxattr", 13%Z); ("flock", 32%Z);
  ("fremovexattr", 16%Z); ("fsetxattr", 7%Z); ("fstat", 80%Z); ("fstatfs", 44%Z); ("fsync", 82%Z);
  ("ftruncate", 46%Z); ("futex", 98%Z); ("futex_waitv", 449%Z); ("get_robust_list", 100%Z);
  ("getcpu", 168%Z); ("getcwd", 17%Z); ("getdents64", 61%Z); ("getegid", 177%Z);
  ("geteuid", 175%Z); ("getgid", 176%Z); ("getgroups", 158%Z); ("getitimer", 102%Z);
  ("getpeername", 205%Z); ("getpgid", 155%Z); ("getpid", 172%Z); ("getppid", 173%Z);
  ("getpriority", 141%Z); ("getrandom", 278%Z); ("getresgid", 150%Z); ("getresuid", 148%Z);
  ("getrusage", 165%Z); ("getsid", 156%Z); ("getsockname", 204%Z); ("getsockopt", 209%Z);
  ("gettid", 178%Z); ("gettimeofday", 169%Z); ("getuid", 174%Z); ("getxattr", 8%Z);
  ("inotify_add_watch", 27%Z); ("inotify_init1", 26%Z); ("inotify_rm_watch", 28%Z);
  ("io_cancel", 3%Z); ("io_destroy", 1%Z); ("io_getevents", 4%Z); ("io_setup", 0%Z);
  ("io_submit", 2%Z); ("ioctl", 29%Z); ("ioprio_get", 31%Z); ("ioprio_set", 30%Z); ("kcmp", 272%Z);
  ("keyctl", 219%Z); ("kill", 129%Z); ("landlock_add_rule", 445%Z);
  ("landlock_create_ruleset", 444%Z); ("landlock_restrict_self", 446%Z); ("lgetxattr", 9%Z);
  ("linkat", 37%Z); ("listen", 201%Z); ("listxattr", 11%Z); ("llistxattr", 12%Z);
  ("lremovexattr", 15%Z); ("lseek", 62%Z); ("lsetxattr", 6%Z); ("madvise", 233%Z);
  ("mbind", 235%Z); ("membarrier", 283%Z); ("memfd_create", 279%Z); ("mincore", 232%Z);
  ("mkdirat", 34%Z); ("mknodat", 33%Z); ("mlock", 228%Z); ("mlock2", 284%Z); ("mlockall", 230%Z);
  ("mmap", 222%Z); ("mprotect", 226%Z); ("mq_getsetattr", 185%Z); ("mq_notify", 184%Z);
  ("mq_open", 180%Z); ("mq_timedreceive", 183%Z); ("mq_timedsend", 182%Z); ("mq_unlink", 181%Z);
  ("mremap", 216%Z); ("msgctl", 187%Z); ("msgget", 186%Z); ("msgrcv", 188%Z); ("msgsnd", 189%Z);
  ("msync", 227%Z); ("munlock", 229%Z); ("munlockall", 231%Z); ("munmap", 215%Z);
  ("name_to_handle_at", 264%Z); ("nanosleep", 101%Z); ("newfstatat", 79%Z); ("openat", 56%Z);
  ("openat2", 437%Z); ("pidfd_open", 434%Z); ("pidfd_send_signal", 424%Z); ("pipe2", 59%Z);
  ("pkey_alloc", 289%Z); ("pkey_free", 290%Z); ("pkey_mprotect", 288%Z); ("ppoll", 73%Z);
  ("prctl", 167%Z); ("pread64", 67%Z); ("preadv", 69%Z); ("preadv2", 286%Z); ("prlimit64", 261%Z);
  ("process_madvise", 440%Z); ("process_mrelease", 448%Z); ("process_vm_readv", 270%Z);
  ("process_vm_writev", 271%Z); ("pselect6", 72%Z); ("ptrace", 117%Z); ("pwrite64", 68%Z);
  ("pwritev", 70%Z); ("pwritev2", 287%Z); ("read", 63%Z); ("readahead", 213%Z);
  ("readlinkat", 78%Z); ("readv", 65%Z); ("reboot", 142%Z); ("recvfrom", 207%Z);
  ("recvmmsg", 243%Z); ("recvmsg", 212%Z); ("remap_file_pages", 234%Z); ("removexattr", 14%Z);
  ("renameat2", 276%Z); ("restart_syscall", 128%Z); ("rseq", 293%Z); ("rt_sigaction", 134%Z);
  ("rt_sigpending", 136%Z); ("rt_sigprocmask", 135%Z); ("rt_sigqueueinfo", 138%Z);
  ("rt_sigreturn", 139%Z); ("rt_sigsuspend", 133%Z); ("rt_sigtimedwait", 137%Z);
  ("rt_tgsigqueueinfo", 240%Z); ("sched_get_priority_max", 125%Z);
  ("sched_get_priority_min", 126%Z); ("sched_getaffinity", 123%Z); ("sched_getattr", 275%Z);
  ("sched_getparam", 121%Z); ("sched_getscheduler", 120%Z); ("sched_rr_get_interval", 127%Z);
  ("sched_setaffinity", 122%Z); ("sched_setattr", 274%Z); ("sched_setparam", 118%Z);
  ("sched_setscheduler", 119%Z); ("sched_yield", 124%Z); ("seccomp", 277%Z); ("semctl", 191%Z);
  ("semget", 190%Z); ("semop", 193%Z); ("semtimedop", 192%Z); ("sendmmsg", 269%Z);
  ("sendmsg", 211%Z); ("sendto", 206%Z); ("set_robust_list", 99%Z); ("set_tid_address", 96%Z);
  ("setfsgid", 152%Z); ("setfsuid", 151%Z); ("setgid", 144%Z); ("setgroups", 159%Z);
  ("setitimer", 103%Z); ("setns", 268%Z); ("setpgid", 154%Z); ("setpriority", 140%Z);
  ("setregid", 143%Z); ("setresgid", 149%Z); ("setresuid", 147%Z); ("setreuid", 145%Z);
  ("setsid", 157%Z); ("setsockopt", 208%Z); ("settimeofday", 170%Z); ("setuid", 146%Z);
  ("setxattr", 5%Z); ("shmat", 196%Z); ("shmctl", 195%Z); ("shmdt", 197%Z); ("shmget", 194%Z);
  ("shutdown", 210%Z); ("sigaltstack", 132%Z); ("signalfd4", 74%Z); ("socket", 198%Z);
  ("socketpair", 199%Z); ("splice", 76%Z); ("statfs", 43%Z); ("statx", 291%Z); ("symlinkat", 36%Z);
  ("sync", 81%Z); ("syncfs", 267%Z); ("sysinfo", 179%Z); ("syslog", 116%Z); ("tee", 77%Z);
  ("tgkill", 131%Z); ("timer_create", 107%Z); ("timer_delete", 111%Z); ("timer_getoverrun", 109%Z);
  ("timer_gettime", 108%Z); ("timer_settime", 110%Z); ("timerfd_create", 85%Z);
  ("timerfd_gettime", 87%Z); ("timerfd_settime", 86%Z); ("times", 153%Z); ("tkill", 130%Z);
  ("truncate", 45%Z); ("umask", 166%Z); ("uname", 160%Z); ("unlinkat", 35%Z); ("utimensat", 88%Z);
  ("vmsplice", 75%Z); ("wait4", 260%Z); ("waitid", 95%Z); ("write", 64%Z); ("writev", 66%Z)
]%string.

(** The names the built-in profile allows. *)
Definition DEFAULT_NAMES : list bytes := str <$> [
  "accept"; "accept4"; "access"; "adjtimex"; "alarm"; "arch_prctl"; "bind"; "brk"; "capget";
  "capset"; "chdir"; "chmod"; "chown"; "clock_adjtime"; "clock_getres"; "clock_gettime";
  "clock_nanosleep"; "clone"; "clone3"; "personality"; "close"; "close_range"; "connect";
  "copy_file_range"; "creat"; "dup"; "dup2"; "dup3"; "epoll_create"; "epoll_create1"; "epoll_ctl";
  "epoll_ctl_old"; "epoll_pwait"; "epoll_pwait2"; "epoll_wait"; "epoll_wait_old"; "eventfd";
  "eventfd2"; "execve"; "execveat"; "exit"; "exit_group"; "faccessat"; "faccessat2"; "fadvise64";
  "fallocate"; "fanotify_mark"; "fchdir"; "fchmod"; "fchmodat"; "fchown"; "fchownat"; "fcntl";
  "fdatasync"; "fgetxattr"; "flistxattr"; "flock"; "fork"; "fremovexattr"; "fsetxattr"; "fstat";
  "fstatfs"; "fsync"; "ftruncate"; "futex"; "futex_waitv"; "futimesat"; "get_robust_list";
  "getcpu"; "getcwd"; "getdents"; "getdents64"; "getegid"; "geteuid"; "getgid"; "getgroups";
  "getitimer"; "getpeername"; "getpgid"; "getpgrp"; "getpid"; "getppid"; "getpriority";
  "getrandom"; "getresgid"; "getresuid"; "getrlimit"; "getrusage"; "getsid"; "getsockname";
  "getsockopt"; "gettid"; "gettimeofday"; "getuid"; "getxattr"; "inotify_add_watch";
  "inotify_init"; "inotify_init1"; "inotify_rm_watch"; "io_cancel"; "io_destroy"; "io_getevents";
  "io_setup"; "io_submit"; "ioctl"; "ioprio_get"; "ioprio_set"; "kill"; "landlock_add_rule";
  "landlock_create_ruleset"; "landlock_restrict_self"; "lchown"; "lgetxattr"; "link"; "linkat";
  "listen"; "listxattr"; "llistxattr"; "lremovexattr"; "lseek"; "lsetxattr"; "lstat"; "madvise";
  "mbind"; "membarrier"; "memfd_create"; "mincore"; "mkdir"; "mkdirat"; "mknod"; "mknodat";
  "mlock"; "mlock2"; "mlockall"; "mmap"; "mprotect"; "mq_getsetattr"; "mq_notify"; "mq_open";
  "mq_timedreceive"; "mq_timedsend"; "mq_unlink"; "mremap"; "msgctl"; "msgget"; "msgrcv"; "msgsnd";
  "msync"; "munlock"; "munlockall"; "munmap"; "name_to_handle_at"; "nanosleep"; "newfstatat";
  "open"; "openat"; "openat2"; "pause"; "pidfd_open"; "pidfd_send_signal"; "pipe"; "pipe2";
  "pkey_alloc"; "pkey_free"; "pkey_mprotect"; "poll"; "ppoll"; "prctl"; "pread64"; "preadv";
  "preadv2"; "prlimit64"; "process_mrelease"; "pselect6"; "pwrite64"; "pwritev"; "pwritev2";
  "read"; "readahead"; "readlink"; "readlinkat"; "readv"; "recvfrom"; "recvmmsg"; "recvmsg";
  "remap_file_pages"; "removexattr"; "rename"; "renameat"; "renameat2"; "restart_syscall"; "rmdir";
  "rseq"; "rt_sigaction"; "rt_sigpending"; "rt_sigprocmask"; "rt_sigqueueinfo"; "rt_sigreturn";
  "rt_sigsuspend"; "rt_sigtimedwait"; "rt_tgsigqueueinfo"; "sched_get_priority_max";
  "sched_get_priority_min"; "sched_getaffinity"; "sched_getattr"; "sched_getparam";
  "sched_getscheduler"; "sched_rr_get_interval"; "sched_setaffinity"; "sched_setattr";
  "sched_setparam"; "sched_setscheduler"; "sched_yield"; "seccomp"; "select"; "semctl"; "semget";
  "semop"; "semtimedop"; "sendfile"; "sendmmsg"; "sendmsg"; "sendto"; "set_robust_list";
  "set_tid_address"; "setfsgid"; "setfsuid"; "setgid"; "setgroups"; "setitimer"; "setpgid";
  "setpriority"; "setregid"; "setresgid"; "setresuid"; "setreuid"; "setrlimit"; "setsid";
  "setsockopt"; "setuid"; "setxattr"; "shmat"; "shmctl"; "shmdt"; "shmget"; "shutdown";
  "sigaltstack"; "signalfd"; "signalfd4"; "socket"; "socketpair"; "splice"; "stat"; "statfs";
  "statx"; "symlink"; "symlinkat"; "sync"; "sync_file_range"; "syncfs"; "sysinfo"; "syslog"; "tee";
  "tgkill"; "time"; "timer_create"; "timer_delete"; "timer_getoverrun"; "timer_gettime";
  "timer_settime"; "timerfd_create"; "timerfd_gettime"; "timerfd_settime"; "times"; "tkill";
  "truncate"; "umask"; "uname"; "unlink"; "unlinkat"; "utime"; "utimensat"; "utimes"; "vfork";
  "vmsplice"; "wait4"; "waitid"; "write"; "writev"
]%string.

Inductive SeccompArch := X86_64 | Aarch64.

Definition x86_64_syscall_nr `{Libc} (name : bytes) : option Z :=
  if bool_decide (name ∈ x86_64_names) then Some (SYS name) else None.

(** A [match] over the names of the table. *)
Definition aarch64_syscall_nr (name : bytes) : option Z :=
  snd <$> List.find (fun e => bool_decide (e.1 = name)) aarch64_table.

Definition syscall_nr `{Libc} (target : SeccompArch) (name : bytes) : option Z :=
  match target with X86_64 => x86_64_syscall_nr name | Aarch64 => aarch64_syscall_nr name end.

(** The table names no syscall twice and no number twice. *)
Lemma aarch64_table_unique : NoDup aarch64_table.*1 /\ NoDup aarch64_table.*2.
Proof. split; apply (bool_decide_unpack _); vm_compute; exact I. Qed.

Lemma aarch64_table_u32 : Forall (fun e => u32 e.2) aarch64_table.
Proof. apply (bool_decide_unpack _). vm_compute. exact I. Qed.

Lemma syscall_nr_u32 `{Libc} target name nr : (forall n, u32 (SYS n)) -> syscall_nr target name = Some nr -> u32 nr.
Proof.
intros HSYS Hn. destruct target; cbn [syscall_nr] in Hn.
- unfold x86_64_syscall_nr in Hn. case_bool_decide; [|done]. by injection Hn as <-.
- unfold aarch64_syscall_nr in Hn. destruct (List.find _ aarch64_table) as [e|] eqn:Ef; [|done]. injection Hn as <-.
  apply find_some in Ef as [Hin%list_elem_of_In _]. pose proof aarch64_table_u32 as Ht. rewrite Forall_forall in Ht. by apply Ht.
Qed.
