(* ===== verification/Seccomp.v ===== *)
(** The seccomp profile compiler (crates/lightr-engine/src/engine/seccomp/mod.rs): a profile
    becomes rules, the rules a program of [Bpf].  The profile is the value that the JSON
    parser returns. *)

From Stdlib Require Import ZArith Lia.
From S2P Require Import Prelude Error Bpf Syscalls.

Definition AUDIT_ARCH_X86_64 : Z := 0xC000003E.
Definition AUDIT_ARCH_AARCH64 : Z := 0xC00000B7.
Definition audit_arch (target : SeccompArch) : Z :=
  match target with X86_64 => AUDIT_ARCH_X86_64 | Aarch64 => AUDIT_ARCH_AARCH64 end.
Definition oci_arch_name (target : SeccompArch) : bytes :=
  match target with X86_64 => str "SCMP_ARCH_X86_64" | Aarch64 => str "SCMP_ARCH_AARCH64" end.

Definition SECCOMP_MAX_FILTER_INSNS : nat := 4096.
Definition SECCOMP_RET_KILL_THREAD : Z := 0x00000000.
Definition SECCOMP_RET_ERRNO : Z := 0x00050000.
Definition SECCOMP_RET_ALLOW : Z := 0x7fff0000.

(** * Profiles *)

Record OciArg := mkOciArg { index : Z; value : Z; value_two : option Z; op_name : bytes }.

(** The values of [includes], [excludes] and [archMap] are only tested for presence; they are
    kept as their text. *)
Record OciSyscall := mkOciSyscall {
  names : list bytes; sc_action : bytes; errno_ret : option Z; sc_args : list OciArg;
  includes : option bytes; excludes : option bytes }.

Record OciSeccomp := mkOciSeccomp {
  default_action : bytes; default_errno_ret : option Z; architectures : list bytes;
  arch_map : option bytes; syscalls : list OciSyscall }.

Definition action_ret (action : bytes) (errno_ret : option Z) : option Z :=
  if bool_decide (action = str "SCMP_ACT_ALLOW" /\ errno_ret = None) then Some SECCOMP_RET_ALLOW
  else if bool_decide (action = str "SCMP_ACT_ERRNO") then
    let errno := default 1%Z errno_ret in
    if bool_decide (0xffff < errno)%Z then None else Some (Z.lor SECCOMP_RET_ERRNO errno)
  else if bool_decide ((action = str "SCMP_ACT_KILL" \/ action = str "SCMP_ACT_KILL_THREAD") /\ errno_ret = None) then Some SECCOMP_RET_KILL_THREAD
  else if bool_decide (action = str "SCMP_ACT_KILL_PROCESS" /\ errno_ret = None) then Some SECCOMP_RET_KILL_PROCESS
  else None.

Definition parse_op (s : bytes) : option ArgOp :=
  if bool_decide (s = str "SCMP_CMP_EQ") then Some Eq
  else if bool_decide (s = str "SCMP_CMP_NE") then Some Ne
  else if bool_decide (s = str "SCMP_CMP_LT") then Some Lt
  else if bool_decide (s = str "SCMP_CMP_LE") then Some Le
  else if bool_decide (s = str "SCMP_CMP_GT") then Some Gt
  else if bool_decide (s = str "SCMP_CMP_GE") then Some Ge
  else if bool_decide (s = str "SCMP_CMP_MASKED_EQ") then Some MaskedEq
  else None.

(** [z as u32]. *)
Definition as_u32 (z : Z) : Z := (z mod 2 ^ 32)%Z.

Definition parse_arg (arg : OciArg) : Result ArgCondition :=
  if bool_decide (SECCOMP_MAX_ARGS <= index arg)%Z then err_unsupported
  else match parse_op (op_name arg) with
  | None => err_unsupported
  | Some op =>
      if eqb (bool_decide (op = MaskedEq)) (bool_decide (is_Some (value_two arg))) then
        let offset := (SECCOMP_DATA_ARGS_OFFSET + index arg * 8)%Z in
        let value_two := default 0%Z (value_two arg) in
        Ok (mkArg offset (offset + 4) (as_u32 (value arg)) (as_u32 (Z.shiftr (value arg) 32))
                  (as_u32 value_two) (as_u32 (Z.shiftr value_two 32)) op)
      else err_unsupported
  end.

(** [iter().map(f).collect::<Result<Vec<_>>>()]. *)
Fixpoint collect {A A'} (f : A -> Result A') (l : list A) : Result (list A') :=
  match l with
  | [] => Ok []
  | a :: l => a' ← f a; l' ← collect f l; Ok (a' :: l')
  end.

Section compiler.
Context `{Libc} (target : SeccompArch).

Definition name_rule (ret : Z) (args : list ArgCondition) (name : bytes) : Result Rule :=
  match syscall_nr target name with
  | None => err_unsupported
  | Some nr => if bool_decide (u32 nr) then Ok (mkRule nr ret args) else err_unsupported
  end.

(** The rules of one entry. *)
Definition entry_rules (sc : OciSyscall) : Result (list Rule) :=
  if bool_decide (is_Some (includes sc)) || bool_decide (is_Some (excludes sc)) then err_unsupported
  else match action_ret (sc_action sc) (errno_ret sc) with
  | None => err_unsupported
  | Some ret =>
      if bool_decide (names sc = []) then err_unsupported
      else args ← collect parse_arg (sc_args sc); collect (name_rule ret args) (names sc)
  end.

(** [None] is a panic. *)
Definition compile (profile : OciSeccomp) : option (Result (list sock_filter)) :=
  if bool_decide (is_Some (arch_map profile)) then Some err_unsupported
  else if existsb (fun arch => negb (bool_decide (arch = oci_arch_name target))) (architectures profile) then Some err_unsupported
  else match action_ret (default_action profile) (default_errno_ret profile) with
  | None => Some err_unsupported
  | Some default_ret =>
      match collect entry_rules (syscalls profile) with
      | Err e => Some (Err e)
      | Ok rules =>
          r ← compile_rules (audit_arch target) default_ret (mjoin rules);
          match r with
          | Err e => Some (Err e)
          | Ok prog => if bool_decide (SECCOMP_MAX_FILTER_INSNS < length prog) then Some err_unsupported else Some (Ok prog)
          end
      end
  end.

Definition DEFAULT_PROFILE : OciSeccomp :=
  mkOciSeccomp (str "SCMP_ACT_ERRNO") (Some 1%Z) [str "SCMP_ARCH_X86_64"] None
    [mkOciSyscall DEFAULT_NAMES (str "SCMP_ACT_ALLOW") None [] None None].

(** The names that are not in the table of the target are dropped. *)
Definition compile_default : option (Result (list sock_filter)) :=
  compile (mkOciSeccomp (default_action DEFAULT_PROFILE) (default_errno_ret DEFAULT_PROFILE) [] (arch_map DEFAULT_PROFILE)
    ((fun sc => mkOciSyscall (filter (fun name => is_Some (syscall_nr target name)) (names sc)) (sc_action sc) (errno_ret sc)
                  (sc_args sc) (includes sc) (excludes sc)) <$> syscalls DEFAULT_PROFILE)).
End compiler.

(** * What a profile means *)

(** The comparison of a 64-bit argument; the mask of a masked comparison is [valueTwo]. *)
Definition cmp64 (op : ArgOp) (x v v2 : Z) : bool :=
  match op with
  | Eq => (x =? v)%Z
  | Ne => negb (x =? v)%Z
  | Lt => (x <? v)%Z
  | Le => (x <=? v)%Z
  | Gt => (v <? x)%Z
  | Ge => (v <=? x)%Z
  | MaskedEq => (Z.land x v2 =? v)%Z
  end.

Definition arg_holds (d : seccomp_data) (a : OciArg) : bool :=
  match parse_op (op_name a), d_args d !! Z.to_nat (index a) with
  | Some op, Some x => cmp64 op x (value a) (default 0%Z (value_two a))
  | _, _ => false
  end.

(** A call the kernel reports, and a profile with the widths of its Rust types. *)
Definition data_wf (d : seccomp_data) : Prop := u32 (d_arch d) /\ u32 (d_nr d) /\ length (d_args d) = 6 /\ Forall u64 (d_args d).
Definition arg_wf (a : OciArg) : Prop := u32 (index a) /\ u64 (value a) /\ u64 (default 0%Z (value_two a)).
Definition errno_wf (e : option Z) : Prop := u32 (default 0%Z e).
Definition profile_wf (p : OciSeccomp) : Prop :=
  errno_wf (default_errno_ret p) /\ Forall (fun sc => errno_wf (errno_ret sc) /\ Forall arg_wf (sc_args sc)) (syscalls p).

Section meaning.
Context `{Libc} (target : SeccompArch).

Definition entry_applies (d : seccomp_data) (e : OciSyscall * bytes) : bool :=
  bool_decide (syscall_nr target e.2 = Some (d_nr d)) && forallb (arg_holds d) (sc_args e.1).

(** The entries in order, one for each name. *)
Definition entries (p : OciSeccomp) : list (OciSyscall * bytes) := syscalls p ≫= fun sc => (fun n => (sc, n)) <$> names sc.

(** Calls of another ABI are killed; otherwise the first entry that applies decides. *)
Definition profile_decision (p : OciSeccomp) (d : seccomp_data) : option Z :=
  if (d_arch d =? audit_arch target)%Z then
    if (Z.land (d_nr d) X32_SYSCALL_BIT =? 0)%Z then
      match List.find (entry_applies d) (entries p) with
      | Some (sc, _) => action_ret (sc_action sc) (errno_ret sc)
      | None => action_ret (default_action p) (default_errno_ret p)
      end
    else Some SECCOMP_RET_KILL_PROCESS
  else Some SECCOMP_RET_KILL_PROCESS.

(** The profiles the compiler supports. *)
Definition arg_supported (a : OciArg) : bool :=
  (index a <? SECCOMP_MAX_ARGS)%Z &&
  match parse_op (op_name a) with
  | Some op => eqb (bool_decide (op = MaskedEq)) (bool_decide (is_Some (value_two a)))
  | None => false
  end.

Definition entry_supported (sc : OciSyscall) : bool :=
  negb (bool_decide (is_Some (includes sc))) && negb (bool_decide (is_Some (excludes sc))) &&
  bool_decide (is_Some (action_ret (sc_action sc) (errno_ret sc))) && negb (bool_decide (names sc = [])) &&
  forallb arg_supported (sc_args sc) &&
  forallb (fun n => match syscall_nr target n with Some nr => bool_decide (u32 nr) | None => false end) (names sc).

Definition profile_supported (p : OciSeccomp) : bool :=
  negb (bool_decide (is_Some (arch_map p))) && forallb (fun a => bool_decide (a = oci_arch_name target)) (architectures p) &&
  bool_decide (is_Some (action_ret (default_action p) (default_errno_ret p))) && forallb entry_supported (syscalls p).

(** The instructions of a condition, an entry and a profile. *)
Definition arg_insns (a : OciArg) : nat :=
  match parse_op (op_name a) with Some (Eq | Ne) => 6 | Some _ => 8 | None => 0 end.
Definition entry_insns (sc : OciSyscall) : nat := length (names sc) * (4 + sum_list (arg_insns <$> sc_args sc)).
Definition profile_insns (p : OciSeccomp) : nat := 7 + sum_list (entry_insns <$> syscalls p).
End meaning.

(** * Arguments *)

Lemma collect_ok {A A'} (f : A -> Result A') l l' : collect f l = Ok l' <-> Forall2 (fun a a' => f a = Ok a') l l'.
Proof.
revert l'. induction l as [|a l IH]; intros l'; cbn [collect].
- split; [intros [= <-]; constructor|by intros ->%Forall2_nil_inv_l].
- rewrite Result_bind_ok. setoid_rewrite Result_bind_ok. setoid_rewrite IH. split.
  + intros (a' & Ha & l2 & Hl & [= <-]). by constructor.
  + intros (a' & l2 & Ha & Hl & ->)%Forall2_cons_inv_l. eauto 10.
Qed.

Lemma collect_total {A A'} (f : A -> Result A') (ok : A -> bool) l :
  (forall a, if ok a then is_ok (f a) = true else f a = err_unsupported) ->
  if forallb ok l then is_ok (collect f l) = true else collect f l = err_unsupported.
Proof.
intros Hf. induction l as [|a l IH]; cbn [forallb collect]; [done|]. specialize (Hf a). destruct (ok a); cbn [andb]; [|by rewrite Hf].
destruct (f a) as [a'|]; [|done]. cbn [mbind Result_mbind]. destruct (forallb ok l); [by destruct (collect f l)|by rewrite IH].
Qed.

(** The two words of a 64-bit value. *)
Definition word_hi (x : Z) : Z := as_u32 (Z.shiftr x 32).
Definition word_lo (x : Z) : Z := as_u32 x.

Lemma words_split x : u64 x -> (x = word_hi x * 2 ^ 32 + word_lo x)%Z /\ u32 (word_hi x) /\ u32 (word_lo x).
Proof.
unfold u64, u32, word_hi, word_lo, as_u32. rewrite Z.shiftr_div_pow2 by lia. intros Hx.
pose proof (Z.div_mod x (2 ^ 32) ltac:(lia)). pose proof (Z.mod_pos_bound x (2 ^ 32) ltac:(lia)).
rewrite (Z.mod_small (x / 2 ^ 32)); [lia|]. lia.
Qed.

Lemma words_land x m : word_hi (Z.land x m) = Z.land (word_hi x) (word_hi m) /\ word_lo (Z.land x m) = Z.land (word_lo x) (word_lo m).
Proof.
unfold word_hi, word_lo, as_u32. rewrite Z.shiftr_land, <- !Z.land_ones by lia. split; apply Z.bits_inj'; intros n Hn; rewrite !Z.land_spec; by destruct (Z.testbit (Z.ones 32) n); rewrite ?andb_true_r, ?andb_false_r.
Qed.

Lemma words_inj x y : u64 x -> u64 y -> x = y <-> word_hi x = word_hi y /\ word_lo x = word_lo y.
Proof. intros [Hx _]%words_split [Hy _]%words_split. split; [by intros ->|]. intros [H1 H2]. rewrite Hx, Hy, H1, H2. done. Qed.

Lemma land_u64 x m : u64 x -> u64 m -> u64 (Z.land x m).
Proof.
unfold u64. intros Hx Hm. split; [apply Z.land_nonneg; lia|]. destruct (Z.eq_dec (Z.land x m) 0%Z) as [->|Hn]; [lia|].
apply Z.log2_lt_pow2; [pose proof (Z.land_nonneg x m); lia|]. eapply Z.le_lt_trans; [apply Z.log2_land; lia|].
destruct (Z.eq_dec x 0%Z) as [->|]; [rewrite Z.land_0_l in Hn; lia|]. apply Z.min_lt_iff. left. apply Z.log2_lt_pow2; lia.
Qed.

(** Comparing words is comparing the values. *)
Lemma cond_words_cmp a c x :
  parse_arg a = Ok c -> arg_wf a -> u64 x -> cond_words c (word_hi x) (word_lo x) = cmp64 (op c) x (value a) (default 0%Z (value_two a)).
Proof.
unfold parse_arg. case_bool_decide; [done|]. destruct (parse_op (op_name a)) as [o|]; [|done]. destruct (eqb _ _); [|done].
intros [= <-] (_ & Hv & Hv2) Hx. unfold cond_words, cmp64. cbn [op value_low value_high value_two_low value_two_high].
fold (word_hi (value a)) (word_lo (value a)) (word_hi (default 0%Z (value_two a))) (word_lo (default 0%Z (value_two a))).
destruct (words_split _ Hv) as (Ev & Hvh & Hvl). destruct (words_split _ Hx) as (Ex & Hxh & Hxl). unfold u32 in *.
destruct o.
7:{ apply eq_true_iff_eq. rewrite andb_true_iff, !Z.eqb_eq. destruct (words_land x (default 0%Z (value_two a))) as [<- <-]. symmetry. apply words_inj; [by apply land_u64|done]. }
all: apply eq_true_iff_eq; rewrite ?andb_true_iff, ?orb_true_iff, ?andb_true_iff, ?negb_true_iff, ?Z.eqb_eq, ?Z.eqb_neq, ?Z.ltb_lt, ?Z.leb_le, ?Z.ltb_ge, ?Z.leb_gt; lia.
Qed.

Lemma parse_arg_ok a c :
  parse_arg a = Ok c -> parse_op (op_name a) = Some (op c) /\ (index a < 6)%Z /\
    low_offset c = (16 + index a * 8)%Z /\ high_offset c = (16 + index a * 8 + 4)%Z.
Proof.
unfold parse_arg. case_bool_decide as Hi; [done|]. destruct (parse_op (op_name a)) as [o|]; [|done]. destruct (eqb _ _); [|done]. intros [= <-].
cbn. split; [done|]. unfold SECCOMP_MAX_ARGS in Hi. split; [lia|done].
Qed.

Lemma load_word d i o x :
  (0 <= i < 6)%Z -> (o = 0 \/ o = 4)%Z -> d_args d !! Z.to_nat i = Some x ->
  load d (16 + i * 8 + o) = Some (if bool_decide (o = 0)%Z then word_lo x else word_hi x).
Proof.
intros Hi Ho Hx. unfold load, SECCOMP_DATA_NR_OFFSET, SECCOMP_DATA_ARCH_OFFSET, SECCOMP_DATA_ARGS_OFFSET.
rewrite (bool_decide_eq_false_2 (_ = 0)%Z), (bool_decide_eq_false_2 (_ = 4)%Z), (bool_decide_eq_true_2 (_ <= _ < _)%Z) by lia.
replace (16 + i * 8 + o - 16)%Z with (o + i * 8)%Z by lia. rewrite Z.div_add, Z.mod_add by lia. rewrite (Z.div_small o 8), (Z.mod_small o 8), Z.add_0_l, Hx by lia.
cbn [mbind option_bind]. by destruct Ho as [-> | ->].
Qed.

(** The loads of a condition read the words of its argument. *)
Lemma parse_arg_loads a c d :
  parse_arg a = Ok c -> arg_wf a -> data_wf d ->
  exists x, u64 x /\ d_args d !! Z.to_nat (index a) = Some x /\ load d (high_offset c) = Some (word_hi x) /\ load d (low_offset c) = Some (word_lo x).
Proof.
intros (_ & Hi & Hlo & Hhi)%parse_arg_ok ((Hi0 & _) & _) (_ & _ & Hlen & Hargs).
destruct (lookup_lt_is_Some_2 (d_args d) (Z.to_nat (index a))) as [x Hx]; [lia|]. exists x. split; [by eapply Forall_lookup_1|]. split; [done|].
rewrite Hhi, Hlo. split; [by rewrite (load_word d (index a) 4 x) by auto|]. replace (16 + index a * 8)%Z with (16 + index a * 8 + 0)%Z by lia. by rewrite (load_word d (index a) 0 x) by auto.
Qed.

Lemma parse_arg_matches a c d : parse_arg a = Ok c -> arg_wf a -> data_wf d -> readable d c /\ arg_matches d c = arg_holds d a.
Proof.
intros Hc Ha Hd. destruct (parse_arg_loads a c d Hc Ha Hd) as (x & Hx & Hl & Hhi & Hlo). split; [by split; eexists|].
unfold arg_matches, arg_holds. rewrite Hhi, Hlo, Hl, (proj1 (parse_arg_ok _ _ Hc)). by apply cond_words_cmp.
Qed.

Lemma as_u32_u32 z : u32 (as_u32 z).
Proof. unfold as_u32, u32. apply Z.mod_pos_bound. lia. Qed.

Lemma parse_arg_typed a c : parse_arg a = Ok c -> arg_wf a -> arg_typed c /\ cond_size c = arg_insns a.
Proof.
intros Hc ((Hi0 & _) & _). destruct (parse_arg_ok _ _ Hc) as (Hop & Hi & Hlo & Hhi). split.
- unfold parse_arg in Hc. case_bool_decide; [done|]. destruct (parse_op (op_name a)) as [o|]; [|done]. destruct (eqb _ _); [|done]. injection Hc as <-.
  split; [|split; [|split; [|split]]; apply as_u32_u32]. cbn [high_offset low_offset]. unfold SECCOMP_DATA_ARGS_OFFSET.
  replace (16 + index a * 8 + 4)%Z with ((5 + index a * 2) * 4)%Z by lia. replace (16 + index a * 8)%Z with ((4 + index a * 2) * 4)%Z by lia.
  rewrite !Z.mod_mul by lia. lia.
- unfold arg_insns. rewrite Hop. unfold cond_size, cond_code. by destruct (op c).
Qed.

(** ** Rules of a profile *)

Lemma lor_u32 a b : u32 a -> u32 b -> u32 (Z.lor a b).
Proof.
unfold u32. intros Ha Hb. assert (0 <= Z.lor a b)%Z by (apply Z.lor_nonneg; lia). split; [done|]. destruct (Z.eq_dec (Z.lor a b) 0%Z) as [->|Hn]; [lia|].
assert (forall x, (0 <= x < 2 ^ 32)%Z -> (Z.log2 x < 32)%Z) as Hlog.
{ intros x Hx. destruct (Z.eq_dec x 0%Z) as [->|]; [cbn; lia|]. apply Z.log2_lt_pow2; lia. }
apply Z.log2_lt_pow2; [lia|]. rewrite Z.log2_lor by lia. apply Z.max_lub_lt; by apply Hlog.
Qed.

Lemma action_ret_u32 a e r : action_ret a e = Some r -> errno_wf e -> u32 r.
Proof.
unfold action_ret, errno_wf. intros Hr He. destruct (bool_decide _); [injection Hr as <-; by compute|]. destruct (bool_decide _).
{ destruct (bool_decide _); [done|]. injection Hr as <-. apply lor_u32; [by compute|]. by destruct e. }
destruct (bool_decide _); [injection Hr as <-; by compute|]. destruct (bool_decide _); [injection Hr as <-; by compute|done].
Qed.

Section correct.
Context `{Libc} (target : SeccompArch).

(** A rule that stands for an entry and a name. *)
Record stands (e : OciSyscall * bytes) (rule : Rule) : Prop := {
  st_nr : syscall_nr target e.2 = Some (nr rule);
  st_u32 : u32 (nr rule);
  st_action : action_ret (sc_action e.1) (errno_ret e.1) = Some (action rule);
  st_args : Forall2 (fun a c => parse_arg a = Ok c) (sc_args e.1) (args rule) }.

Lemma entry_rules_stand sc rules : entry_rules target sc = Ok rules -> Forall2 stands ((fun n => (sc, n)) <$> names sc) rules.
Proof.
unfold entry_rules. destruct (_ || _); [done|]. destruct (action_ret (sc_action sc) (errno_ret sc)) as [ret|] eqn:Ea; [|done].
destruct (bool_decide (names sc = [])); [done|]. rewrite Result_bind_ok. intros (args & Hargs%collect_ok & Hnames%collect_ok). apply Forall2_fmap_l.
eapply Forall2_impl; [exact Hnames|]. intros n rule Hn. unfold name_rule in Hn. destruct (syscall_nr target n) as [k|] eqn:Ek; [|done].
case_bool_decide as Hk; [|done]. injection Hn as <-. by split.
Qed.

Lemma profile_rules_stand p rules : collect (entry_rules target) (syscalls p) = Ok rules -> Forall2 stands (entries p) (mjoin rules).
Proof.
unfold entries. intros H2%collect_ok. induction H2 as [|sc rs l ls Hsc _ IH]; cbn; [constructor|]. apply Forall2_app; [by apply entry_rules_stand|exact IH].
Qed.

(** Each entry applies when its rule matches. *)
Lemma stands_matches d e rule :
  stands e rule -> data_wf d -> Forall arg_wf (sc_args e.1) ->
  entry_applies target d e = rule_matches d rule /\ Forall (readable d) (args rule).
Proof.
intros [Hnr Hu Ha Hargs] Hd Hwf. unfold entry_applies, rule_matches. rewrite Hnr.
assert (forallb (arg_holds d) (sc_args e.1) = forallb (arg_matches d) (args rule) /\ Forall (readable d) (args rule)) as [-> Hr].
{ clear Hnr Ha. induction Hargs as [|a c l l' Hc _ IH]; [by split|]. apply Forall_cons in Hwf as [Hwf1 Hwf]. destruct (IH Hwf) as [E1 E2].
  destruct (parse_arg_matches a c d Hc Hwf1 Hd) as [E3 E4]. cbn [forallb]. rewrite E4, E1. split; [done|by constructor]. }
split; [|done]. f_equal. case_bool_decide as E; symmetry; [apply Z.eqb_eq|apply Z.eqb_neq]; congruence.
Qed.
Lemma find_stands d es rs :
  Forall2 stands es rs -> data_wf d -> Forall (fun e => Forall arg_wf (sc_args e.1)) es ->
  match List.find (entry_applies target d) es, List.find (rule_matches d) rs with
  | Some (sc, _), Some rule => action_ret (sc_action sc) (errno_ret sc) = Some (action rule)
  | None, None => True
  | _, _ => False
  end.
Proof.
intros H2 Hd. induction H2 as [|e rule es rs Hst _ IH]; intros Hwf; cbn [List.find]; [done|]. apply Forall_cons in Hwf as [Hwf1 Hwf].
destruct (stands_matches d e rule Hst Hd Hwf1) as [-> _]. destruct (rule_matches d rule); [destruct e; apply (st_action _ _ Hst)|by apply IH].
Qed.

Lemma entries_wf p : profile_wf p -> Forall (fun e => errno_wf (errno_ret e.1) /\ Forall arg_wf (sc_args e.1)) (entries p).
Proof.
intros [_ H2]. unfold entries. induction H2 as [|sc l Hsc _ IH]; cbn; [constructor|]. apply Forall_app. split; [|exact IH]. apply Forall_fmap.
by apply Forall_true.
Qed.

Lemma compile_ok p prog :
  compile target p = Some (Ok prog) ->
  exists default_ret rules, action_ret (default_action p) (default_errno_ret p) = Some default_ret /\ Forall2 stands (entries p) rules /\
    compile_rules (audit_arch target) default_ret rules = Some (Ok prog) /\ length prog <= SECCOMP_MAX_FILTER_INSNS.
Proof.
unfold compile. destruct (bool_decide _); [done|]. destruct (existsb _ _); [done|]. destruct (action_ret _ _) as [default_ret|]; [|done].
destruct (collect _ _) as [rules|e] eqn:Ec; [|done]. destruct (compile_rules _ _ _) as [[prog'|e]|] eqn:Er; [|done|done]. cbn [mbind option_bind].
case_bool_decide as Hlen; [done|]. intros [= <-]. exists default_ret, (mjoin rules). split; [done|]. split; [by apply profile_rules_stand|]. split; [done|lia].
Qed.

(** The compiled program decides what the profile says. *)
Lemma compile_decides p prog d :
  profile_wf p -> data_wf d -> compile target p = Some (Ok prog) ->
  exists r, run_bpf_args (length prog) prog d = Some r /\ profile_decision target p d = Some r.
Proof.
intros Hp Hd (default_ret & rules & Hdef & Hst & Hc & _)%compile_ok. pose proof (entries_wf p Hp) as Hwf.
assert (Forall (fun e => Forall arg_wf (sc_args e.1)) (entries p)) as Hargs by (eapply Forall_impl; [exact Hwf|by intros e []]).
eexists. split; [eapply compile_rules_run; [exact Hc|]|].
- clear Hc Hwf. induction Hst as [|e rule es rs He _ IH]; [constructor|]. apply Forall_cons in Hargs as [Ha Hargs]. constructor; [by eapply stands_matches|by apply IH].
- unfold profile_decision, filter_decision, first_match. destruct (_ =? _)%Z; [|done]. destruct (_ =? _)%Z; [|done].
  pose proof (find_stands d (entries p) rules Hst Hd Hargs) as Hf. destruct (List.find _ (entries p)) as [[sc n]|]; destruct (List.find _ rules); done.
Qed.

Lemma stands_typed e rule : stands e rule -> errno_wf (errno_ret e.1) -> Forall arg_wf (sc_args e.1) ->
  rule_typed rule /\ rule_size rule = 4 + sum_list (arg_insns <$> sc_args e.1).
Proof.
intros [Hnr Hu Ha Hargs] He Hwf. apply action_ret_u32 in Ha; [|done]. unfold rule_typed, rule_size, args_size.
assert (Forall arg_typed (args rule) /\ sum_list (cond_size <$> args rule) = sum_list (arg_insns <$> sc_args e.1)) as [H1 H2]; [|rewrite H2; done].
clear Hnr Ha. induction Hargs as [|a c l l' Hc _ IH]; [by split|]. apply Forall_cons in Hwf as [Hwf1 Hwf]. destruct (IH Hwf) as [E1 E2].
destruct (parse_arg_typed a c Hc Hwf1) as [E3 E4]. split; [by constructor|]. cbn. by rewrite E4, E2.
Qed.

Lemma rules_typed p rules : profile_wf p -> Forall2 stands (entries p) rules -> Forall rule_typed rules /\ program_size rules = profile_insns p.
Proof.
intros Hp Hst. pose proof (entries_wf p Hp) as Hwf.
assert (Forall rule_typed rules /\ rules_size rules = sum_list ((fun e => 4 + sum_list (arg_insns <$> sc_args e.1)) <$> entries p)) as [H1 H2].
{ unfold rules_size. induction Hst as [|e rule es rs He _ IH]; [by split|]. apply Forall_cons in Hwf as [[Hw1 Hw2] Hwf]. destruct (IH Hwf) as [E1 E2].
  destruct (stands_typed e rule He Hw1 Hw2) as [E3 E4]. split; [by constructor|]. rewrite !fmap_cons. cbn [sum_list sum_list_with foldr]. rewrite E4. cbn in *. lia. }
split; [done|]. unfold program_size, profile_insns. rewrite H2. f_equal. unfold entries, entry_insns. clear. induction (syscalls p) as [|sc l IH]; [done|].
cbn [mbind list_bind]. rewrite fmap_app, sum_list_with_app. rewrite IH. cbn [fmap list_fmap]. cbn. f_equal. induction (names sc) as [|n ns IHn]; [done|]. cbn. rewrite IHn. done.
Qed.

(** C9: the programs are well-typed for the kernel: every instruction is one it knows, with
    operands of their widths, every load is aligned and within the call data, every jump goes
    to an instruction of the program, the last instruction returns, and there are at most
    4096 of them, as many as the profile asks for. *)
Theorem seccomp_program_checked p prog :
  profile_wf p -> compile target p = Some (Ok prog) -> check_classic prog /\ length prog <= SECCOMP_MAX_FILTER_INSNS /\ length prog = profile_insns p.
Proof.
intros Hp (default_ret & rules & Hdef & Hst & Hc & Hlen)%compile_ok. destruct (rules_typed p rules Hp Hst) as [Ht Hs].
destruct (compile_rules_checked (audit_arch target) default_ret rules prog Hc) as [H1 H2]; [by destruct target; compute| |done|unfold SECCOMP_MAX_FILTER_INSNS in Hlen; lia|].
- destruct Hp. by eapply action_ret_u32.
- split; [done|]. split; [done|]. by rewrite H2.
Qed.
Lemma parse_arg_total a : if arg_supported a then is_ok (parse_arg a) = true else parse_arg a = err_unsupported.
Proof.
unfold arg_supported, parse_arg, SECCOMP_MAX_ARGS. destruct (bool_decide_reflect (6 <= index a)%Z) as [Hi|Hi]; [rewrite (proj2 (Z.ltb_ge (index a) 6)) by lia; done|].
rewrite (proj2 (Z.ltb_lt (index a) 6)) by lia. cbn [andb]. destruct (parse_op (op_name a)); [|done]. by destruct (eqb _ _).
Qed.

Lemma entry_rules_total sc : if entry_supported target sc then is_ok (entry_rules target sc) = true else entry_rules target sc = err_unsupported.
Proof.
unfold entry_supported, entry_rules. destruct (bool_decide (is_Some (includes sc))), (bool_decide (is_Some (excludes sc))); cbn [negb andb orb]; try done.
destruct (action_ret (sc_action sc) (errno_ret sc)) as [ret|]; [rewrite bool_decide_eq_true_2 by eauto|rewrite bool_decide_eq_false_2 by (by intros []); done]. cbn [andb].
destruct (bool_decide (names sc = [])); cbn [negb andb]; [done|].
pose proof (collect_total parse_arg arg_supported (sc_args sc) parse_arg_total) as Hargs. destruct (forallb arg_supported (sc_args sc)); cbn [andb]; [|by rewrite Hargs].
destruct (collect parse_arg (sc_args sc)) as [args|]; [|done]. cbn [mbind Result_mbind].
apply (collect_total (name_rule target ret args)). intros n. unfold name_rule. destruct (syscall_nr target n); [|done]. by destruct (bool_decide _).
Qed.

(** Supported profiles compile, up to the limit. *)
Lemma compile_accepts p :
  profile_wf p ->
  if profile_supported target p && bool_decide (profile_insns p <= SECCOMP_MAX_FILTER_INSNS)
  then exists prog, compile target p = Some (Ok prog) else compile target p = Some err_unsupported.
Proof.
intros Hp. unfold profile_supported, compile. destruct (bool_decide (is_Some (arch_map p))); cbn [negb andb]; [done|].
assert (forall l, existsb (fun arch => negb (bool_decide (arch = oci_arch_name target))) l = negb (forallb (fun a => bool_decide (a = oci_arch_name target)) l)) as ->.
{ induction l as [|a l IH]; [done|]. cbn [existsb forallb]. rewrite IH. by destruct (bool_decide _). }
destruct (forallb _ (architectures p)); cbn [negb andb]; [|done].
destruct (action_ret (default_action p) (default_errno_ret p)) as [ret|]; [rewrite (bool_decide_eq_true_2 (is_Some _)) by eauto|rewrite (bool_decide_eq_false_2 (is_Some None)) by (by intros []); done]. cbn [andb].
pose proof (collect_total (entry_rules target) (entry_supported target) (syscalls p) entry_rules_total) as Hc. destruct (forallb _ (syscalls p)); cbn [andb]; [|by rewrite Hc].
destruct (collect _ _) as [rules|] eqn:Ec; [|done]. destruct (rules_typed p (mjoin rules) Hp (profile_rules_stand _ _ Ec)) as [_ Hs]. rewrite <- Hs.
destruct (compile_rules_code (audit_arch target) ret (mjoin rules)) as (r & -> & Hr). cbn [mbind option_bind]. unfold SECCOMP_MAX_FILTER_INSNS in *.
destruct r as [prog|e].
- assert (length prog = program_size (mjoin rules)) as -> by (by rewrite Hr, resolve_length, program_code_length). case_bool_decide; [rewrite bool_decide_eq_false_2 by lia; eauto|by rewrite bool_decide_eq_true_2 by lia].
- destruct Hr as [-> Hbig]. by rewrite bool_decide_eq_false_2 by lia.
Qed.

(** C8: the seccomp compiler is correct.  A program it returns decides every call as the
    profile says: calls of a foreign architecture or of the x32 ABI kill the process, any
    other call gets the action of the first entry, in the order of the profile, that names
    the call and whose conditions hold of the 64-bit arguments, or else the default action.
    The run ends within as many turns as there are instructions and never leaves the
    program. *)
Theorem seccomp_compile_correct p prog d :
  profile_wf p -> data_wf d -> compile target p = Some (Ok prog) ->
  exists r, run_bpf_args (length prog) prog d = Some r /\ profile_decision target p d = Some r.
Proof. apply compile_decides. Qed.


(** ** The built-in profile *)

(** What the built-in profile allows. *)
Definition default_allows (nr : Z) : bool := existsb (fun n => bool_decide (syscall_nr target n = Some nr)) DEFAULT_NAMES.

Definition default_names : list bytes := filter (fun name => is_Some (syscall_nr target name)) DEFAULT_NAMES.

Definition default_filtered : OciSeccomp :=
  mkOciSeccomp (str "SCMP_ACT_ERRNO") (Some 1%Z) [] None [mkOciSyscall default_names (str "SCMP_ACT_ALLOW") None [] None None].

Lemma default_filtered_eq : compile_default target = compile target default_filtered.
Proof. reflexivity. Qed.

Lemma default_filtered_wf : profile_wf default_filtered.
Proof. split; [by compute|]. repeat constructor; by compute. Qed.

Lemma default_decision d :
  d_arch d = audit_arch target -> Z.land (d_nr d) X32_SYSCALL_BIT = 0%Z ->
  profile_decision target default_filtered d = Some (if default_allows (d_nr d) then SECCOMP_RET_ALLOW else Z.lor SECCOMP_RET_ERRNO 1).
Proof.
intros Ha Hx. unfold profile_decision. rewrite Ha, Hx, !Z.eqb_refl. unfold entries, default_filtered. cbn [syscalls mbind list_bind names]. rewrite app_nil_r.
set (sc := mkOciSyscall _ _ _ _ _ _). unfold default_allows, default_names. induction DEFAULT_NAMES as [|n l IH]; [done|]. rewrite filter_cons. cbn [existsb].
destruct (bool_decide_reflect (syscall_nr target n = Some (d_nr d))) as [E|E]; cbn [orb].
- rewrite decide_True by (rewrite E; eauto). cbn [fmap list_fmap List.find]. unfold entry_applies at 1. cbn [fst snd]. rewrite bool_decide_eq_true_2 by done. reflexivity.
- case_decide; [|exact IH]. cbn [fmap list_fmap List.find]. unfold entry_applies at 1. cbn [fst snd]. rewrite bool_decide_eq_false_2 by done. exact IH.
Qed.

Lemma default_supported : (forall n, u32 (SYS n)) -> profile_supported target default_filtered && bool_decide (profile_insns default_filtered <= SECCOMP_MAX_FILTER_INSNS) = true.
Proof.
intros HSYS. apply andb_true_intro. split.
- unfold profile_supported. cbn [default_filtered arch_map architectures default_action default_errno_ret syscalls forallb]. unfold entry_supported. cbn [includes excludes sc_action errno_ret names sc_args].
  rewrite (bool_decide_eq_false_2 (default_names = [])); [cbn [negb andb forallb]|].
  + rewrite (bool_decide_eq_false_2 (is_Some None)) by (by intros []). change (bool_decide (is_Some (action_ret (str "SCMP_ACT_ALLOW") None))) with true.
    cbn [negb andb]. rewrite !andb_true_r. apply forallb_forall. intros n [[nr Hn] _]%list_elem_of_In%list_elem_of_filter. rewrite Hn. apply bool_decide_eq_true_2.
    by eapply syscall_nr_u32.
  + intros E. assert (str "accept" ∈ default_names) as Hin; [|rewrite E in Hin; by apply not_elem_of_nil in Hin]. apply list_elem_of_filter. split.
    * destruct target; cbn [syscall_nr]; [unfold x86_64_syscall_nr; rewrite bool_decide_eq_true_2 by (apply list_elem_of_here); eauto|eexists; vm_compute; reflexivity].
    * apply list_elem_of_here.
- apply bool_decide_eq_true_2. unfold profile_insns, entry_insns, default_filtered, SECCOMP_MAX_FILTER_INSNS. cbn [syscalls fmap list_fmap sum_list sum_list_with names sc_args].
  assert (length default_names <= length DEFAULT_NAMES) as Hle by apply length_filter. assert (length DEFAULT_NAMES = 289) as E by (vm_compute; reflexivity).
  rewrite E in Hle. clear E. generalize dependent (length default_names). intros n Hle. unfold sum_list_with, sum_list. cbn. lia.
Qed.

(** The built-in profile allows exactly what it lists.  It compiles on both
    architectures, and its program allows a native call when its number is that of one of
    the listed names in the table of the target, and fails every other one with EPERM. *)
Theorem default_profile_exact d :
  (forall n, u32 (SYS n)) -> data_wf d -> d_arch d = audit_arch target -> Z.land (d_nr d) X32_SYSCALL_BIT = 0%Z ->
  exists prog, compile_default target = Some (Ok prog) /\
    run_bpf_args (length prog) prog d = Some (if default_allows (d_nr d) then SECCOMP_RET_ALLOW else Z.lor SECCOMP_RET_ERRNO 1).
Proof.
intros HSYS Hd Ha Hx. rewrite default_filtered_eq. pose proof (compile_accepts default_filtered default_filtered_wf) as Hc.
rewrite default_supported in Hc by done. destruct Hc as [prog Hc]. exists prog. split; [done|].
destruct (compile_decides default_filtered prog d default_filtered_wf Hd Hc) as (r & -> & Hr). by rewrite default_decision in Hr.
Qed.
End correct.

(** * Masked comparisons

    libseccomp and the profiles of container runtimes write the mask of SCMP_CMP_MASKED_EQ in
    [value] and the expected bits in [valueTwo]; the compiler reads them the other way
    round. *)

(** The condition as container runtimes read it. *)
Definition runtime_masked (x value value_two : Z) : bool := (Z.land x value =? value_two)%Z.

(** The entry of the moby default profile that allows [clone] without new namespaces. *)
Definition moby_clone : OciSyscall :=
  mkOciSyscall [str "clone"] (str "SCMP_ACT_ALLOW") None [mkOciArg 0 2114060288 (Some 0%Z) (str "SCMP_CMP_MASKED_EQ")] None None.
Definition moby_clone_profile : OciSeccomp := mkOciSeccomp (str "SCMP_ACT_ERRNO") None [] None [moby_clone].

Lemma moby_clone_profile_wf : profile_wf moby_clone_profile.
Proof. split; [by compute|]. constructor; [|constructor]. split; [by compute|]. constructor; [|constructor]. by split; [compute|split; compute]. Qed.

(** The entry of the moby profile that allows [clone] for calls that create no namespace
    compiles and allows nothing: every call of [clone] fails with EPERM, also one whose flags
    the entry is there to allow. *)
Theorem masked_eq_operands_swapped `{Libc} flags rest :
  u64 flags -> length rest = 5 -> Forall u64 rest -> runtime_masked flags 2114060288 0 = true ->
  exists prog, compile Aarch64 moby_clone_profile = Some (Ok prog) /\
    run_bpf_args (length prog) prog (mkData AUDIT_ARCH_AARCH64 220 (flags :: rest)) = Some (Z.lor SECCOMP_RET_ERRNO 1).
Proof.
intros Hf Hlen Hr _. pose proof (compile_accepts Aarch64 moby_clone_profile moby_clone_profile_wf) as Hc.
assert (profile_supported Aarch64 moby_clone_profile && bool_decide (profile_insns moby_clone_profile <= SECCOMP_MAX_FILTER_INSNS) = true) as E by (vm_compute; reflexivity).
rewrite E in Hc. clear E. destruct Hc as [prog Hc]. exists prog. split; [exact Hc|].
destruct (compile_decides Aarch64 moby_clone_profile prog (mkData AUDIT_ARCH_AARCH64 220 (flags :: rest)) moby_clone_profile_wf) as (r & -> & Hd); [|exact Hc|]; clear Hc.
- split; [by compute|]. split; [by compute|]. split; [cbn; lia|by constructor].
- rewrite <- Hd. unfold profile_decision. cbn [d_arch d_nr audit_arch]. rewrite Z.eqb_refl.
  assert (entry_applies Aarch64 (mkData AUDIT_ARCH_AARCH64 220 (flags :: rest)) (moby_clone, str "clone") = false) as Hno.
  { unfold entry_applies. apply andb_false_intro2. cbn [fst moby_clone sc_args forallb]. unfold arg_holds. change (parse_op _) with (Some MaskedEq).
    change (d_args _ !! _) with (Some flags). cbn [default value_two value cmp64]. by rewrite Z.land_0_r. }
  unfold entries. cbn [moby_clone_profile syscalls mbind list_bind fmap list_fmap names moby_clone app List.find]. fold moby_clone. rewrite Hno. reflexivity.
Qed.

(** * Examples *)

Module Example.
Definition libc : Libc := fun _ => 0%Z.

(** [ioctl] on the standard streams is allowed, anything else fails. *)
Definition profile : OciSeccomp :=
  mkOciSeccomp (str "SCMP_ACT_ERRNO") (Some 38%Z) [str "SCMP_ARCH_AARCH64"] None
    [mkOciSyscall [str "read"; str "ioctl"] (str "SCMP_ACT_ALLOW") None [mkOciArg 0 3 None (str "SCMP_CMP_LT")] None None].
Definition call (n fd : Z) : seccomp_data := mkData AUDIT_ARCH_AARCH64 n [fd; 0; 0; 0; 0; 0]%Z.

Lemma profile_ok : profile_wf profile.
Proof. split; [by compute|]. constructor; [|constructor]. split; [by compute|]. constructor; [|constructor]. by split; [compute|split; compute]. Qed.

Lemma call_ok n fd : u32 n -> u64 fd -> data_wf (call n fd).
Proof. intros Hn Hfd. split; [by compute|]. split; [done|]. split; [done|]. constructor; [done|]. do 5 (constructor; [by compute|]). constructor. Qed.

Definition prog : list sock_filter := match @compile libc Aarch64 profile with Some (Ok p) => p | _ => [] end.

Lemma prog_compiled : @compile libc Aarch64 profile = Some (Ok prog).
Proof. vm_compute. reflexivity. Qed.
End Example.

Lemma seccomp_compile_correct_witness :
  exists r, run_bpf_args (length Example.prog) Example.prog (Example.call 29 2) = Some r /\ @profile_decision Example.libc Aarch64 Example.profile (Example.call 29 2) = Some r.
Proof.
apply (@seccomp_compile_correct Example.libc Aarch64 Example.profile Example.prog (Example.call 29 2)).
- exact Example.profile_ok.
- apply Example.call_ok; vm_compute; split; discriminate || reflexivity.
- exact Example.prog_compiled.
Defined.

Lemma seccomp_program_checked_witness : check_classic Example.prog /\ length Example.prog <= SECCOMP_MAX_FILTER_INSNS /\ length Example.prog = profile_insns Example.profile.
Proof. apply (@seccomp_program_checked Example.libc Aarch64 Example.profile Example.prog); [exact Example.profile_ok|exact Example.prog_compiled]. Defined.


(** [ptrace], number 117, is not in the built-in profile. *)
Lemma default_profile_exact_witness :
  exists prog, @compile_default Example.libc Aarch64 = Some (Ok prog) /\ run_bpf_args (length prog) prog (Example.call 117 0) = Some 0x50001%Z.
Proof.
destruct (@default_profile_exact Example.libc Aarch64 (Example.call 117 0)) as (prog & Hc & Hr).
- intros n. vm_compute. split; discriminate || reflexivity.
- apply Example.call_ok; vm_compute; split; discriminate || reflexivity.
- reflexivity.
- reflexivity.
- exists prog. split; [exact Hc|]. rewrite Hr. vm_compute. reflexivity.
Defined.

Lemma masked_eq_operands_swapped_witness :
  exists prog, @compile Example.libc Aarch64 moby_clone_profile = Some (Ok prog) /\
    run_bpf_args (length prog) prog (mkData AUDIT_ARCH_AARCH64 220 [17; 0; 0; 0; 0; 0]%Z) = Some (Z.lor SECCOMP_RET_ERRNO 1).
Proof.
apply (@masked_eq_operands_swapped Example.libc 17%Z [0; 0; 0; 0; 0]%Z).
- vm_compute; split; discriminate || reflexivity.
- reflexivity.
- do 5 (constructor; [vm_compute; split; discriminate || reflexivity|]). constructor.
- reflexivity.
Defined.
