(* ===== verification/Layer.v ===== *)
(** Unpacking image layers (crates/lightr-oci/src/oci/layer/apply.rs, layer/mod.rs, util.rs).
    An archive is untrusted, so here paths are resolved the way the kernel does: symbolic
    links on the way are followed, and [.] and [..] mean what they mean there.  The tar
    reader is outside: an archive is the list of entries it yields. *)

From S2P Require Import Prelude Text Error Fs.

(** * Paths ([std::path]) *)

Inductive Component := RootDir | CurDir | ParentDir | Normal (name : bytes).

#[export] Instance Component_eq_dec : EqDecision Component.
Proof. solve_decision. Defined.

Definition component_of (s : bytes) : option Component :=
  if bool_decide (s = [] \/ s = str ".") then None
  else if bool_decide (s = str "..") then Some ParentDir else Some (Normal s).

(** [Path::components]: a [.] only shows at the start of a relative path. *)
Definition path_components (s : bytes) : list Component :=
  let parts := split_on x2f s in
  (if starts_with [x2f] s then [RootDir] else if bool_decide (head parts = Some (str ".")) then [CurDir] else []) ++ omap component_of parts.

(** The components of a collected path, as names. *)
Definition name_of (c : Component) : bytes :=
  match c with Normal n => n | ParentDir => str ".." | CurDir => str "." | RootDir => [] end.

(** [base.join(p)] of a path of components. *)
Definition join_components (base : path) (cs : list Component) : path :=
  match cs with
  | RootDir :: cs => name_of <$> cs
  | cs => base ++ (name_of <$> cs)
  end.

(** [OsStr::to_string_lossy]: each maximal ill-formed part becomes U+FFFD. *)
Definition REPLACEMENT : bytes := [xef; xbf; xbd].

(** The second byte that may follow a lead byte. *)
Definition second_ok (b c : byte) : bool :=
  if in_range xc2 xdf b then utf8_cont c
  else if bool_decide (b = xe0) then in_range xa0 xbf c
  else if bool_decide (b = xed) then in_range x80 x9f c
  else if in_range xe1 xef b then utf8_cont c
  else if bool_decide (b = xf0) then in_range x90 xbf c
  else if in_range xf1 xf3 b then utf8_cont c
  else if bool_decide (b = xf4) then in_range x80 x8f c
  else false.

Fixpoint to_string_lossy (l : bytes) : bytes :=
  match l with
  | [] => []
  | b :: l1 =>
      if in_range x00 x7f b then b :: to_string_lossy l1
      else match l1 with
      | [] => REPLACEMENT
      | c :: l2 =>
          if second_ok b c then
            if in_range xc2 xdf b then b :: c :: to_string_lossy l2
            else match l2 with
            | [] => REPLACEMENT
            | d :: l3 =>
                if utf8_cont d then
                  if in_range xe0 xef b then b :: c :: d :: to_string_lossy l3
                  else match l3 with
                  | [] => REPLACEMENT
                  | e :: l4 => if utf8_cont e then b :: c :: d :: e :: to_string_lossy l4 else REPLACEMENT ++ to_string_lossy l3
                  end
                else REPLACEMENT ++ to_string_lossy l2
            end
          else REPLACEMENT ++ to_string_lossy l1
      end
  end.

(** * The kernel's path resolution *)

Definition link_start (cur : path) (target : bytes) : path := if starts_with [x2f] target then [] else cur.

(** Follow the links of the components [rest] from the directory [cur]; the last component is
    only followed with [follow].  [None]: a missing directory or too many links. *)
Fixpoint walk (links : nat) (fs : gmap path node) (follow : bool) (cur : path) (rest : list bytes) {struct links} : option path :=
  (fix go (cur : path) (rest : list bytes) {struct rest} : option path :=
    match rest with
    | [] => Some cur
    | c :: rest =>
        if bool_decide (c = [] \/ c = str ".") then go cur rest
        else if bool_decide (c = str "..") then if is_dir fs cur || bool_decide (cur = []) then go (removelast cur) rest else None
        else match fs !! (cur ++ [c]) with
        | Some (NSymlink target) =>
            if bool_decide (rest = []) && negb follow then Some (cur ++ [c])
            else match links with
            | O => None
            | S links => walk links fs follow (link_start cur target) (split_on x2f target ++ rest)
            end
        | _ => go (cur ++ [c]) rest
        end
    end) cur rest.

(** The kernel's limit on links. *)
Definition MAXSYMLINKS : nat := 40.

Definition resolve_path (fs : gmap path node) (follow : bool) (p : path) : option path := walk MAXSYMLINKS fs follow [] p.

(** A call at a path. *)
Definition at_path {A} (follow : bool) (p : path) (call : path -> IO A) : IO A :=
  fs ← get_fs;
  match resolve_path fs follow p with
  | Some q => call q
  | None => throw (Io OtherKind)
  end.

(** [Path::is_dir] and [Path::exists] follow links. *)
Definition is_dir_at (fs : gmap path node) (p : path) : bool :=
  match resolve_path fs true p with Some q => is_dir fs q | None => false end.
Definition exists_at (fs : gmap path node) (p : path) : bool :=
  match resolve_path fs true p with Some q => bool_decide (is_Some (fs !! q)) | None => false end.

(** [fs::symlink_metadata]: the node itself. *)
Definition symlink_metadata (p : path) : IO node :=
  at_path false p (fun q => sys0 (fun fs =>
    match fs !! q with
    | Some n => (Ok n, fs)
    | None => match fs !! parent_path q with
              | Some (NFile _ _) => io_err NotADirectory fs
              | _ => io_err NotFoundKind fs
              end
    end)).

(** [fs::create_dir_all]: what is a directory already, links followed, is left alone. *)
Fixpoint make_dirs_below (base : path) (rest : list bytes) : IO unit :=
  match rest with
  | [] => mret tt
  | c :: rest =>
      fs ← get_fs;
      _ ← (if is_dir_at fs (base ++ [c]) then mret tt else at_path false (base ++ [c]) mkdir);
      make_dirs_below (base ++ [c]) rest
  end.
Definition make_dirs (p : path) : IO unit := make_dirs_below [] p.

(** Everything below a directory, which itself cannot be removed by the name given. *)
Definition clear_dir (p : path) : IO unit :=
  let below fs := filter (fun q => q <> p) (nodes_below fs p) in
  sys (fun fs => match fs !! p with Some NDir => (Err (Io InvalidInput), delete_all (below fs) fs) | _ => io_err NotADirectory fs end)
      (fun n fs => match fs !! p with Some NDir => delete_all (take n (below fs)) fs | _ => fs end).

(** [fs::remove_dir_all] does not follow a last link; the final [rmdir] of a path that ends
    in [.] or [..] fails, after the children are gone. *)
Definition remove_tree (p : path) : IO unit :=
  if bool_decide (last p = Some (str ".") \/ last p = Some (str "..")) then at_path true p clear_dir
  else at_path false p remove_dir_all.

Definition unlink (p : path) : IO unit := at_path false p remove_file.

(** [fs::write]: follows a last link. *)
Definition write_file (p : path) (data : bytes) : IO unit :=
  at_path true p (fun q => _ ← file_create q; write_all q data).

(** [symlink] refuses an empty target. *)
Definition make_symlink (target : bytes) (p : path) : IO unit := if bool_decide (target = []) then throw (Io NotFoundKind) else symlink target p.

(** [fs::copy] follows links at both ends; copied onto itself, a file is truncated. *)
Definition copy_at (src dest : path) : IO unit :=
  at_path true src (fun s => at_path true dest (fun d => if bool_decide (s = d) then file_create d else copy_file s d)).

(** * Entries (apply.rs) *)

(** The messages of the errors are kept without the paths they quote. *)

Inductive EntryType := TDirectory | TRegular | TContinuous | TSymlink | TLink | TOther.

(** What the tar reader gives for an entry; each access can fail. *)
Record TarEntry := mkEntry {
  e_path : Result bytes; e_type : EntryType; e_link_name : Result (option bytes); e_mode : Result Z; e_data : Result bytes }.

Record WhiteoutOp := mkWhiteout { wo_parent : path; wo_name : option bytes }.

Inductive PendingEntry :=
  | Regular (dest : path) (data : bytes) (mode : Z)
  | Symlink (dest : path) (link_target : bytes)
  | Hardlink (dest : path) (declared_target : list Component).

(** The four buckets. *)
Record CollectedOps := mkOps {
  dirs : list path; whiteouts : list WhiteoutOp; pending : list PendingEntry; whited_out_paths : list path }.

Definition no_ops : CollectedOps := mkOps [] [] [] [].
Definition push_dir (d : path) (o : CollectedOps) : CollectedOps := mkOps (dirs o ++ [d]) (whiteouts o) (pending o) (whited_out_paths o).
Definition push_whiteout (w : WhiteoutOp) (o : CollectedOps) : CollectedOps := mkOps (dirs o) (whiteouts o ++ [w]) (pending o) (whited_out_paths o).
Definition push_pending (p : PendingEntry) (o : CollectedOps) : CollectedOps := mkOps (dirs o) (whiteouts o) (pending o ++ [p]) (whited_out_paths o).
Definition insert_whited (p : path) (o : CollectedOps) : CollectedOps := mkOps (dirs o) (whiteouts o) (pending o) (p :: whited_out_paths o).

Definition path_is_safe (cs : list Component) : bool :=
  forallb (fun c => match c with ParentDir | RootDir => false | _ => true end) cs.

(** [skip_while(|c| matches!(c, CurDir)).collect()]. *)
Fixpoint skip_curdir (cs : list Component) : list Component :=
  match cs with CurDir :: cs => skip_curdir cs | _ => cs end.

(** [rel.file_name()]. *)
Definition last_name (rel : list Component) : option bytes :=
  match last rel with Some (Normal n) => Some n | _ => None end.

(** [parent.join(name)] as it compares: the components of the result. *)
Definition join_name (parent : path) (name : bytes) : path :=
  if bool_decide (name = [] \/ name = str ".") then parent else parent ++ [name].

(** The whiteout that a file name stands for, if it does. *)
Definition push_whiteout_name (parent : path) (fname : bytes) (o : CollectedOps) : option CollectedOps :=
  if bool_decide (fname = str ".wh..wh..opq") then Some (push_whiteout (mkWhiteout parent None) o)
  else match strip_prefix (str ".wh.") fname with
  | Some n => Some (push_whiteout (mkWhiteout parent (Some n)) (insert_whited (join_name parent n) o))
  | None => None
  end.

Definition unsafe_path : LightrError := InvalidManifest (str "unsafe layer path").

(** One turn of the loop of [collect_ops], after the deadline test. *)
Definition collect_entry (tempdir : path) (entry : Result TarEntry) (o : CollectedOps) : Result CollectedOps :=
  e ← entry;
  p ← e_path e;
  let cs := path_components p in
  if negb (path_is_safe cs) then Err unsafe_path
  else
    let rel := skip_curdir cs in
    if bool_decide (rel = []) then Ok o
    else
      let fname := default [] (to_string_lossy <$> last_name rel) in
      let parent_in_temp := join_components tempdir (removelast rel) in
      let dest := join_components tempdir rel in
      match e_type e with
      | TDirectory =>
          match push_whiteout_name parent_in_temp fname o with
          | Some o => Ok o
          | None => Ok (push_dir dest o)
          end
      | TRegular | TContinuous =>
          match push_whiteout_name parent_in_temp fname o with
          | Some o => Ok o
          | None => mode ← e_mode e; data ← e_data e; Ok (push_pending (Regular dest data mode) o)
          end
      | TSymlink =>
          l ← e_link_name e;
          let link_target := default [] l in
          if path_is_safe (path_components link_target) then Ok (push_pending (Symlink dest link_target) o)
          else Err (InvalidManifest (str "unsafe layer symlink target"))
      | TLink =>
          l ← e_link_name e;
          Ok (push_pending (Hardlink dest (skip_curdir (path_components (default [] l)))) o)
      | TOther => Ok o
      end.

Section apply.
(** Whether the deadline has passed when an entry is counted. *)
Variable expired : Z -> bool.

Definition timed_out : LightrError := InvalidManifest (str "layer extraction timed out").

Fixpoint collect_from (tempdir : path) (entries : list (Result TarEntry)) (entry_count : Z) (o : CollectedOps) : Result (CollectedOps * Z) :=
  match entries with
  | [] => Ok (o, entry_count)
  | entry :: entries =>
      let entry_count := (entry_count + 1)%Z in
      if bool_decide (Z.land entry_count 0xFF = 0)%Z && expired entry_count then Err timed_out
      else o ← collect_entry tempdir entry o; collect_from tempdir entries entry_count o
  end.

(** [archive.entries()] itself can fail. *)
Definition collect_ops (archive : Result (list (Result TarEntry))) (tempdir : path) (entry_count : Z) : Result (CollectedOps * Z) :=
  entries ← archive; collect_from tempdir entries entry_count no_ops.

(** ** Pass 2 *)

Definition strip_prefix_path (base p : path) : option path :=
  if bool_decide (base `prefix_of` p) then Some (drop (length base) p) else None.

Definition traverses_symlink : LightrError := InvalidManifest (str "layer path traverses symlink").

Fixpoint reject_below (current : path) (relative : list bytes) : IO unit :=
  match relative with
  | [] => mret tt
  | c :: relative =>
      if bool_decide (c = str "..") then throw unsafe_path
      else
        let current := current ++ [c] in
        r ← try_ (symlink_metadata current);
        match r with
        | Ok (NSymlink _) => throw traverses_symlink
        | Ok _ => reject_below current relative
        | Err (Io NotFoundKind) => mret tt
        | Err e => throw e
        end
  end.

Definition reject_symlink_components (tempdir p : path) : IO unit :=
  match strip_prefix_path tempdir p with
  | None => throw (InvalidManifest (str "layer path outside tempdir"))
  | Some relative => reject_below tempdir relative
  end.

Definition remove_symlink (p : path) : IO unit :=
  r ← try_ (symlink_metadata p);
  match r with
  | Ok (NSymlink _) => unlink p
  | Ok _ => mret tt
  | Err (Io NotFoundKind) => mret tt
  | Err e => throw e
  end.

(** [if target.is_dir() { remove_dir_all } else { remove_file }], errors ignored. *)
Definition remove_any (p : path) : IO unit :=
  fs ← get_fs;
  if is_dir_at fs p then ignore (remove_tree p) else ignore (unlink p).

Definition apply_dir (tempdir d : path) : IO unit := _ ← reject_symlink_components tempdir d; make_dirs d.

Definition apply_whiteout (tempdir : path) (wo : WhiteoutOp) : IO unit :=
  match wo_name wo with
  | Some name => _ ← reject_symlink_components tempdir (wo_parent wo); remove_any (wo_parent wo ++ [name])
  | None =>
      _ ← reject_symlink_components tempdir (wo_parent wo);
      _ ← make_dirs (wo_parent wo);
      names ← at_path true (wo_parent wo) read_dir;
      for_each names (fun c => remove_any (wo_parent wo ++ [c]))
  end.

(** [if let Some(p) = dest.parent()]: a destination always has one. *)
Definition make_parent (tempdir dest : path) : IO unit := apply_dir tempdir (parent_path dest).

Definition apply_pending (tempdir : path) (whited : list path) (pe : PendingEntry) : IO unit :=
  match pe with
  | Regular dest data mode =>
      if bool_decide (dest ∈ whited) then mret tt
      else
        _ ← make_parent tempdir dest;
        _ ← remove_symlink dest;
        _ ← write_file dest data;
        at_path true dest (fun q => set_permissions q mode)
  | Symlink dest link_target =>
      if bool_decide (dest ∈ whited) then mret tt
      else
        _ ← make_parent tempdir dest;
        _ ← ignore (unlink dest);
        at_path false dest (fun q => make_symlink link_target q)
  | Hardlink _ _ => mret tt
  end.

Definition apply_hardlink (tempdir : path) (whited : list path) (pe : PendingEntry) : IO unit :=
  match pe with
  | Hardlink dest declared_target =>
      if bool_decide (dest ∈ whited) then mret tt
      else
        let src := join_components tempdir declared_target in
        _ ← reject_symlink_components tempdir src;
        fs ← get_fs;
        if exists_at fs src then
          _ ← make_parent tempdir dest;
          _ ← remove_symlink dest;
          copy_at src dest
        else throw (InvalidManifest (str "hardlink target not found"))
  | _ => mret tt
  end.

Definition apply_ops (tempdir : path) (o : CollectedOps) : IO unit :=
  _ ← for_each (dirs o) (apply_dir tempdir);
  _ ← for_each (whiteouts o) (apply_whiteout tempdir);
  _ ← for_each (pending o) (apply_pending tempdir (whited_out_paths o));
  for_each (pending o) (apply_hardlink tempdir (whited_out_paths o)).

(** The layers in order; [open_reader] and the tar reader give [archives]. *)
Fixpoint apply_from (tempdir : path) (archives : list (Result (list (Result TarEntry)))) (entry_count : Z) : IO unit :=
  match archives with
  | [] => mret tt
  | archive :: archives =>
      '(o, entry_count) ← lift (collect_ops archive tempdir entry_count);
      _ ← apply_ops tempdir o;
      apply_from tempdir archives entry_count
  end.

Definition apply_layers (tempdir : path) (archives : list (Result (list (Result TarEntry)))) : IO unit := apply_from tempdir archives 0.
End apply.
