(* ===== verification/LayerSafe.v ===== *)
(** Unpacking stays inside its directory ([Layer]): whatever an archive contains, whichever
    calls fail, nothing outside is changed, except through one whiteout name. *)

From S2P Require Import Prelude Text Error Fs FsFacts OwnedTemp Calm Confine Wp Layer.

(** * Names and resolution *)

Definition plain_name (c : bytes) : Prop := c <> [] /\ c <> str "." /\ c <> str "..".

(** No component of the path is a link. *)
Definition real (fs : gmap path node) (p : path) : Prop := forall q t, q `prefix_of` p -> fs !! q <> Some (NSymlink t).

Lemma real_prefix fs p q : real fs p -> q `prefix_of` p -> real fs q.
Proof. intros H Hq q' t Hq'. apply H. by etrans. Qed.

Lemma walk_step links fs follow cur c rest :
  plain_name c -> (forall t, fs !! (cur ++ [c]) <> Some (NSymlink t)) \/ (rest = [] /\ follow = false) ->
  walk links fs follow cur (c :: rest) = if bool_decide (rest = []) then Some (cur ++ [c]) else walk links fs follow (cur ++ [c]) rest.
Proof.
intros (H1 & H2 & H3) Hl. assert (bool_decide (c = [] \/ c = str ".") = false) as E1 by (apply bool_decide_eq_false; intros [|]; done).
assert (bool_decide (c = str "..") = false) as E2 by (by apply bool_decide_eq_false).
assert ((fs !! (cur ++ [c]) = None \/ exists n, fs !! (cur ++ [c]) = Some n /\ forall t, n <> NSymlink t) \/ exists t, fs !! (cur ++ [c]) = Some (NSymlink t)) as Hn.
{ destruct (fs !! (cur ++ [c])) as [[]|]; [left; right; by eexists|left; right; by eexists|right; by eexists|by left; left]. }
destruct rest as [|r rest].
- rewrite bool_decide_eq_true_2 by done. destruct Hn as [[E|(n & E & Hn)]|[t E]].
  + destruct links; cbn [walk]; by rewrite E1, E2, E.
  + destruct links; cbn [walk]; rewrite E1, E2, E; (destruct n as [| |t]; [done|done|by destruct (Hn t)]).
  + destruct Hl as [Hl|[_ ->]]; [by destruct (Hl t)|]. destruct links; cbn [walk]; by rewrite E1, E2, E.
- rewrite bool_decide_eq_false_2 by done. destruct Hn as [[E|(n & E & Hn)]|[t E]].
  + destruct links; cbn [walk]; by rewrite E1, E2, E.
  + destruct links; cbn [walk]; rewrite E1, E2, E; (destruct n as [| |t]; [done|done|by destruct (Hn t)]).
  + destruct Hl as [Hl|[? _]]; [by destruct (Hl t)|done].
Qed.

Lemma walk_real_app links fs follow cur rest more :
  Forall plain_name rest -> real fs (cur ++ rest) -> walk links fs follow cur (rest ++ more) = walk links fs follow (cur ++ rest) more.
Proof.
intros Hp. revert cur. induction Hp as [|c rest Hc Hrest IH]; intros cur Hr; [by rewrite app_nil_r|]. cbn [app].
rewrite walk_step; [|done|left; intros t; apply Hr; rewrite (cons_middle c cur rest), app_assoc; by apply prefix_app_r].
assert (walk links fs follow (cur ++ [c]) (rest ++ more) = walk links fs follow ((cur ++ [c]) ++ rest) more) as E by (apply IH; by rewrite <- app_assoc).
rewrite <- app_assoc in E. case_bool_decide as En; [|exact E]. rewrite En in E. by destruct links.
Qed.

(** A real path of plain names is where it says. *)
Lemma walk_real links fs follow cur rest :
  Forall plain_name rest -> real fs (cur ++ rest) -> walk links fs follow cur rest = Some (cur ++ rest).
Proof.
intros Hp. revert cur. induction Hp as [|c rest Hc Hrest IH]; intros cur Hr; [by destruct links; rewrite app_nil_r|].
rewrite walk_step; [|done|left; intros t; apply Hr; rewrite (cons_middle c cur rest), app_assoc; by apply prefix_app_r].
case_bool_decide as E; [by subst|]. rewrite IH; [by rewrite <- app_assoc|by rewrite <- app_assoc].
Qed.

Lemma resolve_real fs follow p : Forall plain_name p -> real fs p -> resolve_path fs follow p = Some p.
Proof. intros Hp Hr. by apply walk_real. Qed.

Lemma resolve_real_app fs follow p more : Forall plain_name p -> real fs p -> resolve_path fs follow (p ++ more) = walk MAXSYMLINKS fs follow p more.
Proof. intros Hp Hr. by apply (walk_real_app _ _ _ []). Qed.

(** The last component is not followed. *)
Lemma resolve_leaf fs p c : Forall plain_name p -> plain_name c -> real fs p -> resolve_path fs false (p ++ [c]) = Some (p ++ [c]).
Proof.
intros Hp Hc Hr. unfold resolve_path. assert (forall rest cur, Forall plain_name rest -> real fs (cur ++ rest) -> walk MAXSYMLINKS fs false cur (rest ++ [c]) = Some (cur ++ rest ++ [c])) as H.
{ induction rest as [|d rest IH]; intros cur Hrest Hr'; cbn [app].
  - rewrite walk_step; [by rewrite bool_decide_eq_true_2|done|by right].
  - apply Forall_cons in Hrest as [Hd Hrest]. rewrite walk_step; [|done|left; intros t; apply Hr'; rewrite (cons_middle d cur rest), app_assoc; by apply prefix_app_r].
    rewrite bool_decide_eq_false_2 by (by destruct rest). rewrite IH; [by rewrite <- app_assoc|done|by rewrite <- app_assoc]. }
by apply (H p []).
Qed.

(** A trailing [.] or nothing names the directory. *)
Lemma resolve_dot fs follow p c : Forall plain_name p -> c = [] \/ c = str "." -> real fs p -> resolve_path fs follow (p ++ [c]) = Some p.
Proof.
intros Hp Hc Hr. unfold resolve_path. assert (forall rest cur, Forall plain_name rest -> real fs (cur ++ rest) -> walk MAXSYMLINKS fs follow cur (rest ++ [c]) = Some (cur ++ rest)) as H.
{ induction rest as [|d rest IH]; intros cur Hrest Hr'; cbn [app].
  - rewrite app_nil_r. unfold MAXSYMLINKS. cbn [walk]. by rewrite bool_decide_eq_true_2.
  - apply Forall_cons in Hrest as [Hd Hrest]. rewrite walk_step; [|done|left; intros t; apply Hr'; rewrite (cons_middle d cur rest), app_assoc; by apply prefix_app_r].
    rewrite bool_decide_eq_false_2 by (by destruct rest). rewrite IH; [by rewrite <- app_assoc|done|by rewrite <- app_assoc]. }
by apply (H p []).
Qed.

(** * Trees below a missing node *)

Lemma missing_below fs p q : fs_wf fs -> fs !! p = None -> p `prefix_of` q -> fs !! q = None.
Proof.
intros [_ Hwf] Hp [r ->]. induction r as [|c r IH] using rev_ind; [by rewrite app_nil_r|].
destruct (fs !! (p ++ r ++ [c])) as [n|] eqn:E; [|done]. rewrite app_assoc in E. apply Hwf in E. congruence.
Qed.

(** A path that goes through a missing node leads nowhere. *)
Lemma walk_missing fs cur rest :
  fs_wf fs -> fs !! cur = None -> cur <> [] ->
  match walk MAXSYMLINKS fs true cur rest with Some q => fs !! q = None | None => True end.
Proof.
intros Hwf. unfold MAXSYMLINKS. revert cur. induction rest as [|c rest IH]; intros cur Hcur Hne; [done|]. cbn [walk].
destruct (bool_decide (c = [] \/ c = str ".")); [by apply IH|]. destruct (bool_decide (c = str "..")).
- unfold is_dir. rewrite Hcur. rewrite !bool_decide_eq_false_2 by done. done.
- assert (fs !! (cur ++ [c]) = None) as E by (eapply missing_below; [done|exact Hcur|by apply prefix_app_r]). rewrite E. apply IH; [done|by destruct cur].
Qed.

(** ** Removing trees keeps a tree *)

Lemma sorted_later (l : list path) (n i j : nat) a b :
  StronglySorted (fun a b : path => length b <= length a) l -> l !! i = Some a -> l !! j = Some b -> i < j -> length b <= length a.
Proof.
intros Hs. revert i j. induction Hs as [|x l Hl IH Hx]; intros [|i] [|j] Ha Hb Hij; try lia; [done|done|..].
- cbn in Ha. injection Ha as ->. rewrite Forall_forall in Hx. apply Hx. by eapply list_elem_of_lookup_2.
- by apply (IH i j); [..|lia].
Qed.

Lemma nodes_below_sorted fs p : StronglySorted (fun a b : path => length b <= length a) (nodes_below fs p).
Proof.
unfold nodes_below. apply sort_by_sorted.
- intros a b. apply Nat.leb_le.
- intros a b c. lia.
- intros a b. lia.
Qed.

(** Deleting children before parents leaves a tree at every moment. *)
Lemma delete_sorted_wf fs (l : list path) n :
  StronglySorted (fun a b : path => length b <= length a) l -> [] ∉ l -> (forall q c, q ∈ l -> is_Some (fs !! (q ++ [c])) -> q ++ [c] ∈ l) ->
  fs_wf fs -> fs_wf (delete_all (take n l) fs).
Proof.
intros Hs Hroot Hcl [Hr Hwf]. split.
- rewrite delete_all_lookup, decide_False; [done|]. intros Hin. apply Hroot. apply elem_of_take in Hin as (i & Hi & _). by eapply list_elem_of_lookup_2.
- intros q c nd. rewrite !delete_all_lookup. case_decide as Hqc; [done|]. intros Hnd. rewrite decide_False; [by eapply Hwf|].
  intros (i & Hi & Hlt)%elem_of_take. assert (q ++ [c] ∈ l) as [j Hj]%list_elem_of_lookup by (apply Hcl; [by eapply list_elem_of_lookup_2|eauto]).
  apply Hqc, elem_of_take. exists j. split; [done|]. destruct (decide (j < n)); [done|].
  assert (length (q ++ [c]) <= length q) as Hle by (eapply (sorted_later l n i j); [done|done|done|lia]). rewrite length_app in Hle. cbn in Hle. lia.
Qed.

Lemma sorted_filter (P : path -> Prop) `{forall q, Decision (P q)} (l : list path) :
  StronglySorted (fun a b : path => length b <= length a) l -> StronglySorted (fun a b : path => length b <= length a) (filter P l).
Proof.
induction 1 as [|x l Hl IH Hx]; [constructor|]. rewrite filter_cons. case_decide; [|done]. constructor; [done|].
rewrite Forall_forall in *. intros y [_ Hy]%list_elem_of_filter. by apply Hx.
Qed.

Lemma below_closed fs p q c : q ∈ nodes_below fs p -> is_Some (fs !! (q ++ [c])) -> q ++ [c] ∈ nodes_below fs p.
Proof. intros [Hq _]%elem_of_nodes_below Hs. apply elem_of_nodes_below. split; [|done]. etrans; [exact Hq|by apply prefix_app_r]. Qed.

Lemma below_not_root fs p : p <> [] -> [] ∉ nodes_below fs p.
Proof. intros Hp [Hq _]%elem_of_nodes_below. by apply prefix_nil_inv in Hq. Qed.

Lemma remove_dir_all_wf p : p <> [] -> keeps (on_fs wf_step) (remove_dir_all p).
Proof.
intros Hp. apply keeps_sys; [apply _|intros fs Hwf|intros n fs Hwf].
- destruct (fs !! p) as [[]|] eqn:E; cbn; [done| |by eapply fs_wf_delete_leaf|done].
  rewrite <- (firstn_all (nodes_below fs p)). apply delete_sorted_wf; [apply nodes_below_sorted|by apply below_not_root|apply below_closed|done].
- destruct (fs !! p) as [[]|] eqn:E; cbn; [done| |done|done]. apply delete_sorted_wf; [apply nodes_below_sorted|by apply below_not_root|apply below_closed|done].
Qed.

Lemma clear_dir_wf p : p <> [] -> keeps (on_fs wf_step) (clear_dir p).
Proof.
intros Hp. assert (forall fs n, fs_wf fs -> fs_wf (delete_all (take n (filter (fun q => q <> p) (nodes_below fs p))) fs)) as Hd.
{ intros fs n Hwf. apply delete_sorted_wf; [apply sorted_filter, nodes_below_sorted|intros [_ Hin]%list_elem_of_filter; by apply below_not_root in Hin| |done].
  intros q c [Hq Hin]%list_elem_of_filter Hs. apply list_elem_of_filter. split; [|by apply below_closed]. apply elem_of_nodes_below in Hin as [[r ->] _].
  intros E. apply (f_equal length) in E. rewrite !length_app in E. cbn in E. lia. }
apply keeps_sys; [apply _|intros fs Hwf|intros n fs Hwf].
- destruct (fs !! p) as [[]|] eqn:E; cbn; [done| |done|done]. specialize (Hd fs (length (filter (fun q => q <> p) (nodes_below fs p))) Hwf). by rewrite firstn_all in Hd.
- destruct (fs !! p) as [[]|] eqn:E; cbn; [done| |done|done]. by apply Hd.
Qed.

#[local] Opaque resolve_path.

(** * Confinement *)

Section confined.
Context (tempdir : path) (Htemp : Forall plain_name tempdir) (Hne : tempdir <> []).
Implicit Types (fs : gmap path node) (p q : path) (e : LightrError) (T : path -> option node -> Prop).

(** What a step may do to a node: only inside, with plain names, and the directory itself is
    only ever a directory or gone. *)
Definition zone_in (p : path) (n : option node) : Prop :=
  tempdir `prefix_of` p /\ (n <> None -> Forall plain_name p) /\ (p = tempdir -> n = None \/ n = Some NDir).

(** The steps that create no link. *)
Definition zone_nolink (p : path) (n : option node) : Prop := zone_in p n /\ forall t, n <> Some (NSymlink t).

Record inv (fs : gmap path node) : Prop := {
  inv_wf : fs_wf fs;
  inv_above q : q `prefix_of` tempdir -> q <> tempdir -> fs !! q = Some NDir;
  inv_temp : fs !! tempdir = None \/ fs !! tempdir = Some NDir;
  inv_names p : tempdir `prefix_of` p -> is_Some (fs !! p) -> Forall plain_name p }.

Lemma zone_weaken fs fs' : touches zone_nolink fs fs' -> touches zone_in fs fs'.
Proof. intros H p. destruct (H p) as [|[? _]]; [by left|by right]. Qed.

Lemma inv_step fs fs' : inv fs -> touches zone_in fs fs' -> fs_wf fs' -> inv fs'.
Proof.
intros [H1 H2 H3 H4] Ht Hwf. split; [done| | |].
- intros q Hq Hn. destruct (Ht q) as [->|[Hp _]]; [by apply H2|]. destruct Hn. by apply (anti_symm prefix).
- destruct (Ht tempdir) as [->|(_ & _ & Hz)]; [done|by apply Hz].
- intros p Hp Hs. destruct (Ht p) as [E|(_ & Hz & _)]; [apply H4; [done|by rewrite <- E]|]. apply Hz. intros E. rewrite E in Hs. by destruct Hs.
Qed.

Lemma inv_real fs : inv fs -> real fs tempdir.
Proof.
intros H q t Hq. destruct (decide (q = tempdir)) as [->|Hn]; [destruct (inv_temp _ H) as [-> | ->]; done|]. by rewrite (inv_above _ H q).
Qed.

Lemma real_step fs fs' p : real fs p -> touches zone_nolink fs fs' -> real fs' p.
Proof. intros Hr Ht q t Hq. destruct (Ht q) as [->|[_ Hz]]; [by apply Hr|apply Hz]. Qed.

(** A computation that stays inside, from a tree in order. *)
Definition conf {A : Type} (T : path -> option node -> Prop) (fs : gmap path node) (m : IO A) (Q : outcome A -> gmap path node -> Prop) : Prop :=
  wp false fs m (fun o fs' => (inv fs' /\ touches T fs fs') /\ Q o fs').

Lemma conf_prim {A : Type} T fs (m : IO A) :
  (forall p n, T p n -> zone_in p n) -> inv fs -> keeps (on_fs (touches T)) m -> keeps (on_fs wf_step) m -> conf T fs m (fun _ _ => True).
Proof.
intros HT Hi Ht Hwf w <- _. split; [|by intros]. specialize (Ht w). specialize (Hwf w (inv_wf _ Hi)). unfold on_fs in *.
split; [split; [|done]|done]. eapply inv_step; [exact Hi| |done]. intros p. destruct (Ht p); [by left|right; by apply HT].
Qed.

Lemma conf_mono {A : Type} T fs (m : IO A) (Q Q' : outcome A -> gmap path node -> Prop) :
  conf T fs m Q -> (forall o fs', inv fs' -> touches T fs fs' -> Q o fs' -> Q' o fs') -> conf T fs m Q'.
Proof. intros H HQ. eapply wp_mono; [exact H|]. intros o fs' [[H1 H2] H3]. auto. Qed.

Lemma conf_bind {A B : Type} T fs (m : IO A) (k : A -> IO B) (Q : outcome A -> gmap path node -> Prop) (Q' : outcome B -> gmap path node -> Prop) :
  conf T fs m Q -> (forall a fs1, inv fs1 -> touches T fs fs1 -> Q (Ret a) fs1 -> conf T fs1 (k a) Q') ->
  (forall e fs1, Q (Throw e) fs1 -> Q' (Throw e) fs1) -> (forall fs1, Q Crashed fs1 -> Q' Crashed fs1) -> conf T fs (m ≫= k) Q'.
Proof.
intros Hm Hk He Hc. apply wp_bind. eapply wp_mono; [exact Hm|]. intros o fs1 [[H1 H2] H3]. destruct o as [a|e|].
- eapply wp_mono; [by apply (Hk a fs1)|]. intros o fs2 [[H4 H5] H6]. split; [split; [done|by etrans]|done].
- auto.
- auto.
Qed.

(** Only the tree matters. *)
Lemma conf_seq {A B : Type} T fs (m : IO A) (k : A -> IO B) :
  conf T fs m (fun _ _ => True) -> (forall a fs1, inv fs1 -> touches T fs fs1 -> conf T fs1 (k a) (fun _ _ => True)) -> conf T fs (m ≫= k) (fun _ _ => True).
Proof. intros Hm Hk. eapply conf_bind; [exact Hm|by auto..]. Qed.

Lemma conf_ret {A : Type} T fs (a : A) (Q : outcome A -> gmap path node -> Prop) : inv fs -> Q (Ret a) fs -> conf T fs (mret a) Q.
Proof. intros Hi HQ. apply wp_ret. split; [split; [done|reflexivity]|done]. Qed.

Lemma conf_throw {A : Type} T fs e (Q : outcome A -> gmap path node -> Prop) : inv fs -> Q (Throw e) fs -> conf T fs (throw e) Q.
Proof. intros Hi HQ. apply wp_throw. split; [split; [done|reflexivity]|done]. Qed.

Lemma conf_weaken {A : Type} fs (m : IO A) Q : conf zone_nolink fs m Q -> conf zone_in fs m Q.
Proof. intros H. eapply wp_mono; [exact H|]. intros o fs' [[H1 H2] H3]. split; [split; [done|by apply zone_weaken]|done]. Qed.

Lemma conf_try {A : Type} T fs (m : IO A) (Q : outcome (Result A) -> gmap path node -> Prop) :
  conf T fs m (fun o fs' => match o with Ret a => Q (Ret (Ok a)) fs' | Throw e => Q (Ret (Err e)) fs' | Crashed => Q Crashed fs' end) -> conf T fs (try_ m) Q.
Proof. intros H. apply wp_try. eapply wp_mono; [exact H|]. by intros [] fs' [H1 H2]. Qed.

Lemma conf_ignore {A : Type} T fs (m : IO A) : conf T fs m (fun _ _ => True) -> conf T fs (ignore m) (fun _ _ => True).
Proof.
intros H. apply conf_seq; [apply conf_try; eapply conf_mono; [exact H|by intros []]|]. intros a fs1 Hi _. by apply conf_ret.
Qed.

Lemma conf_get {A : Type} T fs (k : gmap path node -> IO A) Q : conf T fs (k fs) Q -> conf T fs (fs' ← get_fs; k fs') Q.
Proof. intros H. apply wp_bind, wp_get_fs. exact H. Qed.

Lemma conf_at {A : Type} T follow p q (call : path -> IO A) fs Q :
  resolve_path fs follow p = Some q -> conf T fs (call q) Q -> conf T fs (at_path follow p call) Q.
Proof. intros E H. apply conf_get. by rewrite E. Qed.

Lemma conf_for_each {A : Type} T (P : gmap path node -> Prop) (l : list A) (f : A -> IO unit) fs :
  inv fs -> P fs -> (forall fs1 fs2, P fs1 -> touches T fs1 fs2 -> P fs2) ->
  (forall a fs1, a ∈ l -> inv fs1 -> P fs1 -> conf T fs1 (f a) (fun _ _ => True)) -> conf T fs (for_each l f) (fun _ _ => True).
Proof.
intros Hi HP Hstep. revert fs Hi HP. induction l as [|a l IH]; intros fs Hi HP Hf; cbn [for_each]; [by apply conf_ret|].
apply conf_seq; [apply Hf; [apply list_elem_of_here|done..]|]. intros [] fs1 Hi1 Ht1. apply IH; [done|by eapply Hstep|]. intros b fs2 Hb. apply Hf. by apply list_elem_of_further.
Qed.

(** ** Single calls *)

Definition inside (p : path) : Prop := exists rel, p = tempdir ++ rel /\ Forall plain_name rel.

Lemma inside_plain p : inside p -> Forall plain_name p /\ tempdir `prefix_of` p.
Proof. intros (rel & -> & Hr). split; [by apply Forall_app|by apply prefix_app_r]. Qed.

Lemma inside_zone p n : inside p -> p <> tempdir -> (forall t, n <> Some (NSymlink t)) -> zone_nolink p n.
Proof. intros [H1 H2]%inside_plain Hp Hn. split; [|done]. split; [done|]. split; [done|]. by intros ->. Qed.

Lemma inside_zone_dir p n : inside p -> n = None \/ n = Some NDir -> zone_nolink p n.
Proof. intros [H1 H2]%inside_plain Hn. split; [split; [done|split; done]|]. by destruct Hn as [-> | ->]. Qed.

Lemma zone_below p q : tempdir `prefix_of` p -> p `prefix_of` q -> zone_nolink q None.
Proof. intros H1 H2. split; [|done]. split; [by etrans|]. split; [done|by left]. Qed.

Definition may_file T p : Prop := forall c m, T p (Some (NFile c m)).

Ltac touch_file :=
  intros; cbn; repeat (case_match; simplify_eq/=); try reflexivity; first [ by apply touches_insert; auto | by apply touches_delete ].

Lemma file_create_inside T p : may_file T p -> keeps (on_fs (touches T)) (file_create p).
Proof. intros Hp. apply keeps_sys0; [apply _|]. touch_file. Qed.
Lemma set_permissions_inside T p m : may_file T p -> keeps (on_fs (touches T)) (set_permissions p m).
Proof. intros Hp. apply keeps_sys0; [apply _|]. touch_file. Qed.
Lemma write_all_inside T p d : may_file T p -> keeps (on_fs (touches T)) (write_all p d).
Proof. intros Hp. apply keeps_sys; [apply _|unfold append_at; touch_file..]. Qed.
Lemma copy_file_inside T a b : may_file T b -> keeps (on_fs (touches T)) (copy_file a b).
Proof. intros Hb. apply keeps_sys; [apply _|touch_file|touch_file]. Qed.
Lemma symlink_inside T t p : T p (Some (NSymlink t)) -> keeps (on_fs (touches T)) (symlink t p).
Proof. intros Hp. apply keeps_sys0; [apply _|]. touch_file. Qed.

Lemma delete_all_touches T fs (l : list path) : (forall q, q ∈ l -> T q None) -> touches T fs (delete_all l fs).
Proof. intros H q. rewrite delete_all_lookup. case_decide; [right; by apply H|by left]. Qed.

Lemma remove_dir_all_inside p : tempdir `prefix_of` p -> keeps (on_fs (touches zone_nolink)) (remove_dir_all p).
Proof.
intros Hp. assert (forall fs q, q ∈ nodes_below fs p -> zone_nolink q None) as Hz by (intros fs q [Hq _]%elem_of_nodes_below; by eapply zone_below).
apply keeps_sys; [apply _|intros fs|intros n fs]; destruct (fs !! p) as [[]|]; cbn; try reflexivity.
- apply delete_all_touches, Hz.
- apply touches_delete. by eapply zone_below.
- apply delete_all_touches. intros q (i & Hi & _)%elem_of_take. eapply Hz, list_elem_of_lookup_2, Hi.
Qed.

Lemma clear_dir_inside p : tempdir `prefix_of` p -> keeps (on_fs (touches zone_nolink)) (clear_dir p).
Proof.
intros Hp. assert (forall fs q, q ∈ filter (fun q => q <> p) (nodes_below fs p) -> zone_nolink q None) as Hz by (intros fs q [_ [Hq _]%elem_of_nodes_below]%list_elem_of_filter; by eapply zone_below).
apply keeps_sys; [apply _|intros fs|intros n fs]; destruct (fs !! p) as [[]|]; cbn; try reflexivity.
- apply delete_all_touches, Hz.
- apply delete_all_touches. intros q (i & Hi & _)%elem_of_take. eapply Hz, list_elem_of_lookup_2, Hi.
Qed.

Lemma temp_not_nil p : tempdir `prefix_of` p -> p <> [].
Proof. intros Hp ->. apply prefix_nil_inv in Hp. done. Qed.

Lemma conf_nolink {A : Type} fs (m : IO A) : inv fs -> keeps (on_fs (touches zone_nolink)) m -> keeps (on_fs wf_step) m -> conf zone_nolink fs m (fun _ _ => True).
Proof. intros. apply conf_prim; [by intros p n []|done..]. Qed.

Lemma inside_file p : inside p -> p <> tempdir -> may_file zone_nolink p.
Proof. intros Hp Hn c m. by apply inside_zone. Qed.

(** ** Looking at a node *)

Lemma conf_lstat p fs :
  inv fs -> resolve_path fs false p = Some p ->
  conf zone_nolink fs (symlink_metadata p) (fun o fs' => fs' = fs /\ (forall n, o = Ret n -> fs !! p = Some n) /\ (o = Throw (Io NotFoundKind) -> fs !! p = None)).
Proof.
intros Hi E. apply (conf_at _ _ p p); [exact E|]. apply wp_sys0.
- destruct (fs !! p) as [n|] eqn:El; [|destruct (fs !! parent_path p) as [[]|]]; (split; [split; [done|reflexivity]|split; [done|split; [intros ? [=]; congruence|intros [=]; done]]]).
- intros _. split; (split; [split; [done|reflexivity]|split; [done|split; [by intros ? [=]|by intros [=]]]]).
Qed.

(** ** The check of a path *)

(** What the check of a path below [cur] has seen: no links down to the end, or down to a
    missing node. *)
Definition checked fs (cur rel : path) : Prop :=
  (Forall plain_name rel /\ real fs (cur ++ rel)) \/
  exists a c b, rel = a ++ c :: b /\ Forall plain_name (a ++ [c]) /\ real fs (cur ++ a) /\ fs !! (cur ++ a ++ [c]) = None.

Definition named (c : bytes) : Prop := c <> [] /\ c <> str ".".

Lemma real_snoc fs p (c : bytes) : real fs p -> (forall t, fs !! (p ++ [c]) <> Some (NSymlink t)) -> real fs (p ++ [c]).
Proof. intros Hr Hc q t [-> |Hq]%prefix_snoc_inv; [apply Hc|by apply Hr]. Qed.

Lemma inside_snoc p (c : bytes) : inside p -> plain_name c -> inside (p ++ [c]) /\ p ++ [c] <> tempdir.
Proof.
intros (r & -> & Hr) Hc. split; [exists (r ++ [c]); split; [by rewrite app_assoc|apply Forall_app; auto]|].
intros E. apply (f_equal length) in E. rewrite !length_app in E. cbn in E. lia.
Qed.

(** The node that [symlink_metadata] found, or that there is none. *)
Definition seen fs p (o : outcome (Result node)) (fs' : gmap path node) : Prop :=
  fs' = fs /\ forall r, o = Ret r -> match r with Ok n => fs !! p = Some n | Err e => e = Io NotFoundKind -> fs !! p = None end.

Lemma conf_try_lstat fs p : inv fs -> resolve_path fs false p = Some p -> conf zone_nolink fs (try_ (symlink_metadata p)) (seen fs p).
Proof.
intros Hi E. apply conf_try. eapply conf_mono; [by apply conf_lstat|]. intros o fs1 _ _ (-> & H1 & H2).
destruct o as [n|e|]; (split; [done|]); intros r [= <-]; [by apply H1|intros ->; by apply H2].
Qed.

Lemma checked_cons fs cur (c : bytes) rel : plain_name c -> checked fs (cur ++ [c]) rel -> checked fs cur (c :: rel).
Proof.
intros Hc [[H1 H2]|(a & d & b & -> & H1 & H2 & H3)].
- left. split; [by constructor|]. by rewrite <- app_assoc in H2.
- right. exists (c :: a), d, b. rewrite <- app_assoc in H2, H3. split; [done|]. split; [by constructor|]. done.
Qed.

Lemma conf_reject_below fs cur rel :
  inv fs -> inside cur -> real fs cur -> Forall named rel ->
  conf zone_nolink fs (reject_below cur rel) (fun o fs' => fs' = fs /\ (o = Ret tt -> checked fs cur rel)).
Proof.
intros Hi. revert cur. induction rel as [|c rel IH]; intros cur Hin Hr Hn; cbn [reject_below].
{ apply conf_ret; [done|]. split; [done|]. intros _. left. by rewrite app_nil_r. }
apply Forall_cons in Hn as [[Hc1 Hc2] Hn]. case_bool_decide as Hc3; [by apply conf_throw|]. assert (plain_name c) as Hc by done.
destruct (inside_snoc cur c Hin Hc) as [Hin' _].
assert (resolve_path fs false (cur ++ [c]) = Some (cur ++ [c])) as E by (apply resolve_leaf; [by apply inside_plain in Hin as []|done|done]).
assert (forall n, fs !! (cur ++ [c]) = Some n -> (forall t, n <> NSymlink t) -> conf zone_nolink fs (reject_below (cur ++ [c]) rel) (fun o fs' => fs' = fs /\ (o = Ret tt -> checked fs cur (c :: rel)))) as Hgo.
{ intros n El Hl. eapply conf_mono; [apply IH; [done|apply real_snoc; [done|intros t; rewrite El; intros [= ->]; by apply (Hl t)]|done]|].
  intros o fs1 _ _ [-> Hck]. split; [done|]. intros ->. apply checked_cons; auto. }
eapply conf_bind; [by apply conf_try_lstat| |by intros e fs1 [-> _]|by intros fs1 [-> _]].
intros r fs1 _ _ [-> Hres]. specialize (Hres r eq_refl). destruct r as [n|e].
- destruct n as [| |t]; [by eapply Hgo|by eapply Hgo|by apply conf_throw].
- destruct e as [| | | | | | | |kind]; try by apply conf_throw. destruct kind; try by apply conf_throw.
  apply conf_ret; [done|]. split; [done|]. intros _. right. exists [], c, rel. split; [done|]. split; [by constructor|]. rewrite app_nil_r. split; [done|by apply Hres].
Qed.

(** A checked path of plain names is real. *)
Lemma checked_real fs cur rel : inv fs -> checked fs cur rel -> Forall plain_name rel -> real fs (cur ++ rel).
Proof.
intros Hi [[_ H]|(a & c & b & -> & _ & Hr & Hm)] _; [done|]. intros q t Hq E.
destruct (decide (q `prefix_of` cur ++ a)) as [Hqa|Hqa]; [by apply (Hr q t)|].
assert (cur ++ a ++ [c] `prefix_of` q) as Hb.
{ assert (cur ++ a ++ [c] `prefix_of` cur ++ a ++ c :: b) as Hc by (rewrite (cons_middle c a b), !app_assoc; by apply prefix_app_r).
  destruct (prefix_weak_total q _ _ Hq Hc) as [H|H]; [|done]. rewrite app_assoc in H. apply prefix_snoc_inv in H as [->|]; [by rewrite app_assoc|done]. }
pose proof (missing_below fs _ q (inv_wf _ Hi) Hm Hb). congruence.
Qed.

(** A checked path that exists is real, with plain names. *)
Lemma checked_exists fs rel : inv fs -> checked fs tempdir rel -> exists_at fs (tempdir ++ rel) = true -> Forall plain_name rel /\ real fs (tempdir ++ rel).
Proof.
intros Hi [H|(a & c & b & -> & Hp & Hr & Hm)] Hex; [done|]. exfalso. revert Hex. unfold exists_at.
assert (real fs ((tempdir ++ a) ++ [c])) as Hr' by (apply real_snoc; [done|intros t; rewrite <- app_assoc; congruence]).
replace (tempdir ++ a ++ c :: b) with ((tempdir ++ a ++ [c]) ++ b) by (by rewrite <- !app_assoc).
rewrite resolve_real_app; [|apply Forall_app; auto|by rewrite <- app_assoc in Hr'].
pose proof (walk_missing fs (tempdir ++ a ++ [c]) b (inv_wf _ Hi) Hm) as Hw. destruct (walk _ _ _ _ _) as [q|]; [|done].
rewrite Hw; [by rewrite bool_decide_eq_false_2 by (by intros [])|]. by destruct tempdir.
Qed.

Lemma plain_named (l : path) : Forall plain_name l -> Forall named l.
Proof. intros H. eapply Forall_impl; [exact H|]. by intros c (? & ? & _). Qed.

Lemma conf_reject fs p :
  inv fs -> inside p -> conf zone_nolink fs (reject_symlink_components tempdir p) (fun o fs' => fs' = fs /\ (o = Ret tt -> real fs p)).
Proof.
intros Hi (rel & -> & Hrel). unfold reject_symlink_components, strip_prefix_path. rewrite bool_decide_eq_true_2 by (by apply prefix_app_r). rewrite drop_app_length.
eapply conf_mono; [apply conf_reject_below; [done|exists []; by rewrite app_nil_r|by apply inv_real|by apply plain_named]|].
intros o fs1 _ _ [-> Hc]. split; [done|]. intros Ho. apply checked_real; auto.
Qed.

Lemma conf_make_dirs_below fs base rest :
  inv fs -> inside (base ++ rest) -> real fs (base ++ rest) -> conf zone_nolink fs (make_dirs_below base rest) (fun _ _ => True).
Proof.
revert fs base. induction rest as [|c rest IH]; intros fs base Hi Hin Hr; cbn [make_dirs_below]; [by apply conf_ret|]. apply conf_get.
assert (base ++ [c] `prefix_of` base ++ c :: rest) as Hpre by (rewrite (cons_middle c base rest), app_assoc; by apply prefix_app_r).
destruct (inside_plain _ Hin) as [Hpl Htp].
assert (Forall plain_name (base ++ [c])) as Hpl' by (destruct Hpre as [k Hk]; rewrite Hk in Hpl; by apply Forall_app in Hpl as []).
assert (forall follow, resolve_path fs follow (base ++ [c]) = Some (base ++ [c])) as Hres by (intros; apply resolve_real; [done|by eapply real_prefix]).
apply conf_seq.
- unfold is_dir_at. rewrite Hres. destruct (is_dir fs (base ++ [c])) eqn:Ed; [by apply conf_ret|]. eapply conf_at; [apply Hres|].
  apply conf_nolink; [done| |apply mkdir_wf]. apply mkdir_touches, inside_zone_dir; [|by right].
  destruct (prefix_weak_total _ _ _ Hpre Htp) as [H|[k Hk]].
  + destruct (decide (base ++ [c] = tempdir)) as [Et|Et]; [rewrite Et; exists []; by rewrite app_nil_r|]. pose proof (inv_above _ Hi _ H Et) as E. unfold is_dir in Ed. by rewrite E in Ed.
  + exists k. split; [done|]. rewrite Hk in Hpl'. by apply Forall_app in Hpl' as [].
- intros [] fs1 Hi1 Ht1. apply IH; [done|by rewrite <- app_assoc|]. rewrite <- app_assoc. by eapply real_step.
Qed.

Lemma conf_apply_dir fs p : inv fs -> inside p -> conf zone_nolink fs (apply_dir tempdir p) (fun o fs' => o = Ret tt -> real fs' p).
Proof.
intros Hi Hin. unfold apply_dir. eapply conf_bind; [by apply conf_reject| |by intros e fs1 [-> _]|by intros fs1 [-> _]].
intros [] fs1 _ _ [-> Hr]. specialize (Hr eq_refl). eapply conf_mono; [apply (conf_make_dirs_below fs [] p); done|].
intros o fs1 _ Ht _ _. by eapply real_step.
Qed.

(** ** Removing *)

Lemma conf_unlink fs p q : inv fs -> resolve_path fs false p = Some q -> inside q -> conf zone_nolink fs (unlink p) (fun _ _ => True).
Proof.
intros Hi E Hq. unfold unlink. eapply conf_at; [exact E|]. apply conf_nolink; [done| |apply remove_file_wf].
apply remove_file_touches, inside_zone_dir; [done|by left].
Qed.

Lemma conf_remove_any fs p (name : bytes) :
  inv fs -> inside p -> real fs p -> name <> str ".." -> conf zone_nolink fs (remove_any (p ++ [name])) (fun _ _ => True).
Proof.
intros Hi Hin Hr Hn. destruct (inside_plain _ Hin) as [Hpl Htp]. unfold remove_any. apply conf_get.
assert (exists q, resolve_path fs false (p ++ [name]) = Some q /\ inside q) as (q & Eq & Hq).
{ destruct (decide (name = [] \/ name = str ".")) as [Hd|Hd]; [exists p; split; [by apply resolve_dot|done]|].
  assert (plain_name name) as Hp by (split; [tauto|split; [tauto|done]]). exists (p ++ [name]). split; [by apply resolve_leaf|by apply inside_snoc]. }
destruct (inside_plain _ Hq) as [_ Htq].
destruct (is_dir_at fs (p ++ [name])); apply conf_ignore; [|by eapply conf_unlink].
unfold remove_tree. case_bool_decide as El.
- rewrite last_snoc in El. assert (name = str ".") as -> by (by destruct El as [[= ->]|[= ->]]).
  eapply conf_at; [apply resolve_dot; [done|by right|done]|]. apply conf_nolink; [done|by apply clear_dir_inside|apply clear_dir_wf; by apply temp_not_nil].
- eapply conf_at; [exact Eq|]. apply conf_nolink; [done|by apply remove_dir_all_inside|apply remove_dir_all_wf; by apply temp_not_nil].
Qed.

(** A whiteout whose name is not [..]. *)
Lemma conf_whiteout fs wo :
  inv fs -> inside (wo_parent wo) -> wo_name wo <> Some (str "..") -> conf zone_nolink fs (apply_whiteout tempdir wo) (fun _ _ => True).
Proof.
intros Hi Hin Hn. unfold apply_whiteout. destruct (wo_name wo) as [name|].
- eapply conf_bind; [by apply conf_reject| |done|done]. intros [] fs1 _ _ [-> Hr]. apply conf_remove_any; [done|done|by apply Hr|congruence].
- eapply conf_bind; [by apply conf_reject| |done|done]. intros [] fs1 _ _ [-> Hr]. specialize (Hr eq_refl).
  apply conf_seq; [by apply (conf_make_dirs_below fs [] (wo_parent wo))|]. intros [] fs1 Hi1 Ht1. assert (real fs1 (wo_parent wo)) as Hr1 by (by eapply real_step).
  destruct (inside_plain _ Hin) as [Hpl Htp].
  eapply (conf_bind _ _ _ _ (fun o fs' => forall l, o = Ret l -> fs' = fs1 /\ forall c, c ∈ l -> is_Some (fs1 !! (wo_parent wo ++ [c])))); [| |done|done].
  + eapply conf_at; [by apply resolve_real|]. apply wp_sys0; [|by intros _; split; (split; [split; [done|reflexivity]|by intros])].
    destruct (fs1 !! wo_parent wo) as [[]|] eqn:E; cbn; (split; [split; [done|reflexivity]|]); intros l [= <-]. split; [done|]. intros c Hc. by apply elem_of_children.
  + intros l fs2 _ _ H2. destruct (H2 l eq_refl) as [-> Hl].
    apply (conf_for_each _ (fun fs' => real fs' (wo_parent wo))); [done|done|intros fs3 fs4 H3 H4; by eapply real_step|].
    intros c fs3 Hc Hi3 Hr3. apply conf_remove_any; [done|done|done|]. apply Hl, (inv_names _ Hi1) in Hc; [|etrans; [exact Htp|by apply prefix_app_r]].
    apply Forall_app in Hc as [_ Hc]. apply Forall_singleton in Hc as (_ & _ & Hc). done.
Qed.

(** ** Files and links *)

Definition leaf (dest : path) : Prop := exists p c, dest = p ++ [c] /\ inside p /\ plain_name c.

Lemma leaf_inside dest : leaf dest -> inside dest /\ dest <> tempdir.
Proof. intros (p & c & -> & Hp & Hc). by apply inside_snoc. Qed.

Lemma leaf_resolve fs dest : leaf dest -> real fs (parent_path dest) -> resolve_path fs false dest = Some dest.
Proof. intros (p & c & -> & Hp & Hc). rewrite parent_snoc. intros Hr. apply resolve_leaf; [by apply inside_plain in Hp as []|done|done]. Qed.

Lemma conf_make_parent fs dest : inv fs -> leaf dest -> conf zone_nolink fs (make_parent tempdir dest) (fun o fs' => o = Ret tt -> real fs' (parent_path dest)).
Proof. intros Hi (p & c & -> & Hp & Hc). unfold make_parent. rewrite parent_snoc. by apply conf_apply_dir. Qed.

(** After the link is gone, the destination is real. *)
Lemma conf_remove_symlink fs dest :
  inv fs -> leaf dest -> real fs (parent_path dest) -> conf zone_nolink fs (remove_symlink dest) (fun o fs' => o = Ret tt -> real fs' dest).
Proof.
intros Hi Hd Hr. pose proof (leaf_resolve fs dest Hd Hr) as Er. destruct (leaf_inside _ Hd) as [Hin Hnt]. destruct Hd as (p & c & -> & Hp & Hc). rewrite parent_snoc in Hr.
assert (forall fs', real fs' p -> (forall t, fs' !! (p ++ [c]) <> Some (NSymlink t)) -> real fs' (p ++ [c])) as Hreal by (intros; by apply real_snoc).
unfold remove_symlink. eapply conf_bind; [by apply conf_try_lstat| |done|done]. intros r fs1 _ _ [-> Hres]. specialize (Hres r eq_refl). destruct r as [n|e].
- destruct n as [| |t]; [apply conf_ret; [done|]; intros _; apply Hreal; [done|congruence]..|].
  eapply conf_mono with (Q := fun o fs' => o = Ret tt -> fs' !! (p ++ [c]) = None).
  + unfold unlink. eapply conf_at; [by apply resolve_leaf; [by apply inside_plain in Hp as []|done|done]|].
    assert (conf zone_nolink fs (remove_file (p ++ [c])) (fun _ _ => True)) as Hc0.
    { apply conf_nolink; [done| |apply remove_file_wf]. apply remove_file_touches, inside_zone_dir; [done|by left]. }
    intros w Hw Hq. destruct (Hc0 w Hw Hq) as [[H1 _] H2]. split; [|done]. split; [done|]. intros Ho.
    pose proof (sys_ret _ _ w tt _ (run_split (remove_file (p ++ [c])) w _ Ho)) as Hf. cbn beta in Hf. rewrite Hw, Hres in Hf. injection Hf as <-. by rewrite lookup_delete_eq.
  + intros o fs1 _ Ht Ho E. apply Hreal; [by eapply real_step|]. intros t'. by rewrite Ho.
- destruct e as [| | | | | | | |kind]; try by apply conf_throw. destruct kind; try by apply conf_throw.
  apply conf_ret; [done|]. intros _. apply Hreal; [done|]. by rewrite Hres.
Qed.

Lemma conf_write_file fs dest data : inv fs -> leaf dest -> real fs dest -> conf zone_nolink fs (write_file dest data) (fun _ _ => True).
Proof.
intros Hi Hd Hr. destruct (leaf_inside _ Hd) as [Hin Hnt]. unfold write_file. eapply conf_at; [apply resolve_real; [by apply inside_plain in Hin as []|done]|].
apply conf_seq; [apply conf_nolink; [done|by apply file_create_inside, inside_file|apply file_create_wf]|].
intros [] fs1 Hi1 _. apply conf_nolink; [done|by apply write_all_inside, inside_file|apply write_all_wf].
Qed.

Lemma conf_pending fs whited pe :
  inv fs -> match pe with Regular dest _ _ | Symlink dest _ | Hardlink dest _ => leaf dest end ->
  conf zone_in fs (apply_pending tempdir whited pe) (fun _ _ => True).
Proof.
intros Hi Hd. destruct pe as [dest data mode|dest target|dest target]; cbn [apply_pending]; [| |by apply conf_ret]; (case_bool_decide; [by apply conf_ret|]);
  destruct (leaf_inside _ Hd) as [Hin Hnt]; assert (Forall plain_name dest) as Hpl by (by apply inside_plain in Hin as []).
- apply conf_weaken. eapply conf_bind; [by apply conf_make_parent| |done|done]. intros [] fs1 Hi1 _ Hr1. specialize (Hr1 eq_refl).
  eapply conf_bind; [by apply conf_remove_symlink| |done|done]. intros [] fs2 Hi2 _ Hr2. specialize (Hr2 eq_refl).
  apply conf_seq; [by apply conf_write_file|]. intros [] fs3 Hi3 Ht3. eapply conf_at; [apply resolve_real; [done|by eapply real_step]|].
  apply conf_nolink; [done|by apply set_permissions_inside, inside_file|apply set_permissions_wf].
- eapply conf_bind; [apply conf_weaken; by apply conf_make_parent| |done|done]. intros [] fs1 Hi1 _ Hr1. specialize (Hr1 eq_refl).
  eapply (conf_bind _ _ _ _ (fun _ fs' => real fs' (parent_path dest))); [| |done|done].
  + apply conf_weaken. eapply conf_mono; [apply conf_ignore; eapply conf_unlink; [done|by apply leaf_resolve|done]|]. intros o fs2 _ Ht2 _. by eapply real_step.
  + intros [] fs2 Hi2 _ Hr2. eapply conf_at; [by apply leaf_resolve|]. unfold make_symlink. case_bool_decide; [by apply conf_throw|].
    apply conf_prim; [done|done| |apply symlink_wf]. apply symlink_inside. split; [by apply inside_plain|]. split; [done|]. by intros ->.
Qed.

(** The components of a link target that is joined. *)
Definition target_ok (cs : list Component) : Prop := Forall (fun c => named (name_of c)) (match cs with RootDir :: cs => cs | cs => cs end).

Lemma join_named cs rel : target_ok cs -> join_components tempdir cs = tempdir ++ rel -> Forall named rel.
Proof.
unfold join_components, target_ok. intros Hcs E.
assert (Forall named (name_of <$> match cs with RootDir :: cs => cs | cs => cs end)) as Hn by (by apply Forall_fmap).
destruct cs as [|[| | |n] cs]; first [rewrite E in Hn; by apply Forall_app in Hn as []|apply app_inv_head in E; by rewrite <- E].
Qed.

Lemma conf_hardlink fs whited pe :
  inv fs -> match pe with Hardlink dest target => leaf dest /\ target_ok target | _ => True end ->
  conf zone_nolink fs (apply_hardlink tempdir whited pe) (fun _ _ => True).
Proof.
intros Hi Hd. destruct pe as [| |dest target]; cbn [apply_hardlink]; [by apply conf_ret..|]. case_bool_decide; [by apply conf_ret|]. destruct Hd as [Hd Ht].
set (src := join_components tempdir target) in *. destruct (leaf_inside _ Hd) as [Hin Hnt].
eapply (conf_bind _ _ _ _ (fun o fs' => fs' = fs /\ (o = Ret tt -> exists_at fs src = true -> inside src /\ real fs src))); [| |done|done].
- unfold reject_symlink_components, strip_prefix_path. case_bool_decide as Hp; [|by apply conf_throw]. destruct Hp as [rel Hrel]. rewrite Hrel, drop_app_length.
  assert (Forall named rel) as Hn by (by eapply join_named).
  eapply conf_mono; [apply conf_reject_below; [done|exists []; by rewrite app_nil_r|by apply inv_real|done]|].
  intros o fs1 _ _ [-> Hc]. split; [done|]. intros Ho Hex. destruct (checked_exists fs rel Hi (Hc Ho) Hex) as [H1 H2]. split; [by exists rel|done].
- intros [] fs1 _ _ [-> Hs]. specialize (Hs eq_refl). apply conf_get. destruct (exists_at fs src); [|by apply conf_throw]. destruct (Hs eq_refl) as [Hsin Hsr]. clear Hs.
  eapply (conf_bind _ _ _ _ (fun o fs' => real fs' src /\ (o = Ret tt -> real fs' (parent_path dest)))); [| |done|done].
  { eapply conf_mono; [by apply conf_make_parent|]. intros o fs1 _ Ht1 Hr1. split; [by eapply real_step|done]. }
  intros [] fs1 Hi1 _ [Hs1 Hr1]. specialize (Hr1 eq_refl).
  eapply (conf_bind _ _ _ _ (fun o fs' => real fs' src /\ (o = Ret tt -> real fs' dest))); [| |done|done].
  { eapply conf_mono; [by apply conf_remove_symlink|]. intros o fs2 _ Ht2 Hr2. split; [by eapply real_step|done]. }
  intros [] fs2 Hi2 _ [Hs2 Hr2]. specialize (Hr2 eq_refl). unfold copy_at.
  eapply conf_at; [apply resolve_real; [by apply inside_plain in Hsin as []|done]|]. eapply conf_at; [apply resolve_real; [by apply inside_plain in Hin as []|done]|].
  case_bool_decide; apply conf_nolink; [done|by apply file_create_inside, inside_file|apply file_create_wf|done|by apply copy_file_inside, inside_file|apply copy_file_wf].
Qed.

(** ** Whole layers *)

Definition pending_ok (pe : PendingEntry) : Prop :=
  match pe with Regular dest _ _ | Symlink dest _ => leaf dest | Hardlink dest target => leaf dest /\ target_ok target end.

Record ops_ok (o : CollectedOps) : Prop := {
  ok_dirs : Forall inside (dirs o);
  ok_whiteouts : Forall (fun wo => inside (wo_parent wo) /\ wo_name wo <> Some (str "..")) (whiteouts o);
  ok_pending : Forall pending_ok (pending o) }.

Lemma conf_apply_ops fs o : inv fs -> ops_ok o -> conf zone_in fs (apply_ops tempdir o) (fun _ _ => True).
Proof.
intros Hi [Hd Hw Hp]. rewrite Forall_forall in Hd; rewrite Forall_forall in Hw; rewrite Forall_forall in Hp. unfold apply_ops.
apply conf_seq; [apply (conf_for_each _ (fun _ => True)); [done|done|done|intros d fs1 Hin Hi1 _; apply conf_weaken; eapply conf_mono; [by apply conf_apply_dir; [|apply Hd]|done]]|].
intros [] fs1 Hi1 _. apply conf_seq; [apply (conf_for_each _ (fun _ => True)); [done|done|done|intros wo fs2 Hin Hi2 _; apply conf_weaken; by apply conf_whiteout; [|apply Hw..]]|].
intros [] fs2 Hi2 _. apply conf_seq; [apply (conf_for_each _ (fun _ => True)); [done|done|done|intros pe fs3 Hin Hi3 _; apply conf_pending; [done|]; specialize (Hp pe Hin); destruct pe; [done..|by destruct Hp]]|].
intros [] fs3 Hi3 _. apply (conf_for_each _ (fun _ => True)); [done|done|done|]. intros pe fs4 Hin Hi4 _. apply conf_weaken, conf_hardlink; [done|]. specialize (Hp pe Hin). by destruct pe.
Qed.

Lemma path_components_normal s c n : c ∈ path_components s -> c = Normal n -> plain_name n.
Proof.
unfold path_components. intros Hc ->. apply elem_of_app in Hc as [Hc|Hc].
- repeat case_match; rewrite ?list_elem_of_singleton, ?elem_of_nil in Hc; done.
- apply list_elem_of_omap in Hc as (x & _ & Hx). unfold component_of in Hx. case_bool_decide as H1; [done|]. case_bool_decide as H2; [done|]. injection Hx as ->.
  split; [|split; [|done]]; intros ->; apply H1; auto.
Qed.

Lemma skip_curdir_incl cs c : c ∈ skip_curdir cs -> c ∈ cs.
Proof. induction cs as [|[] cs IH]; cbn [skip_curdir]; try done. intros H. by apply list_elem_of_further, IH. Qed.

(** Only a leading [.] or [/] is not a name. *)
Lemma path_components_tail s : Forall (fun c => c <> RootDir /\ c <> CurDir) (omap component_of (split_on x2f s)).
Proof.
apply Forall_forall. intros c (x & _ & Hx)%list_elem_of_omap. unfold component_of in Hx. repeat case_bool_decide; simplify_eq; done.
Qed.

Lemma skip_curdir_id cs : Forall (fun c => c <> RootDir /\ c <> CurDir) cs -> skip_curdir cs = cs.
Proof. destruct 1 as [|[] cs [? ?] _]; done. Qed.

(** A safe path is its names. *)
Lemma safe_components s : path_is_safe (path_components s) = true ->
  exists names, skip_curdir (path_components s) = Normal <$> names /\ Forall plain_name names.
Proof.
intros Hs. assert (forall c, c ∈ skip_curdir (path_components s) -> exists n, c = Normal n /\ plain_name n) as H.
{ intros c Hc. assert (c ∈ path_components s) as Hin by (by apply skip_curdir_incl). unfold path_is_safe in Hs. rewrite forallb_forall in Hs.
  pose proof (Hs c ltac:(by apply list_elem_of_In)) as Hsafe. destruct c as [| | |n]; [done| |done|exists n; split; [done|by eapply path_components_normal]].
  exfalso. pose proof (path_components_tail s) as Ht. unfold path_components in Hc. rewrite Forall_forall in Ht.
  assert (skip_curdir ((if starts_with [x2f] s then [RootDir] else if bool_decide (head (split_on x2f s) = Some (str ".")) then [CurDir] else []) ++ omap component_of (split_on x2f s)) ⊆
          RootDir :: omap component_of (split_on x2f s)) as Hsub.
  { destruct (starts_with [x2f] s); [done|]. destruct (bool_decide _); cbn [app skip_curdir]; rewrite skip_curdir_id by (apply path_components_tail); set_solver. }
  apply Hsub in Hc. apply elem_of_cons in Hc as [?|Hc]; [done|]. by destruct (Ht _ Hc). }
exists (omap (fun c => match c with Normal n => Some n | _ => None end) (skip_curdir (path_components s))).
induction (skip_curdir (path_components s)) as [|c cs IH]; [by split|]. destruct (H c (list_elem_of_here _ _)) as (n & -> & Hn).
destruct IH as [IH1 IH2]; [intros c Hc; apply H; by apply list_elem_of_further|]. cbn. split; [by f_equal|by constructor].
Qed.

(** The last name of an entry that removes the directory above. *)
Definition dotdot_whiteout (entry : Result TarEntry) : bool :=
  match entry with
  | Ok e => match e_path e with
            | Ok p => bool_decide (to_string_lossy <$> last_name (skip_curdir (path_components p)) = Some (str ".wh..."))
            | Err _ => false
            end
  | Err _ => false
  end.

Lemma strip_wh fname n : strip_prefix (str ".wh.") fname = Some n -> fname = str ".wh." ++ n.
Proof. apply strip_prefix_Some. Qed.

Lemma hardlink_target_ok s : target_ok (skip_curdir (path_components s)).
Proof.
unfold target_ok, path_components. assert (Forall (fun c => named (name_of c)) (omap component_of (split_on x2f s))) as H.
{ apply Forall_forall. intros c (x & _ & Hx)%list_elem_of_omap. unfold component_of in Hx. case_bool_decide as H1; [done|]. case_bool_decide as H2; injection Hx as <-; cbn [name_of]; [by split|].
  split; intros ->; apply H1; auto. }
destruct (starts_with [x2f] s); [exact H|]. destruct (bool_decide _); cbn [app skip_curdir]; rewrite skip_curdir_id by (apply path_components_tail);
  (destruct (omap component_of (split_on x2f s)) as [|[] cs] eqn:E; [done|by apply Forall_cons in H as [_ H]|done..]).
Qed.

Lemma collect_entry_ok entry o o' :
  ops_ok o -> dotdot_whiteout entry = false -> collect_entry tempdir entry o = Ok o' -> ops_ok o'.
Proof.
intros [Hd Hw Hp] Hdd. unfold collect_entry. destruct entry as [e|]; [|done]. cbn [mbind Result_mbind dotdot_whiteout] in *. destruct (e_path e) as [p|]; [|done]. cbn [mbind Result_mbind].
destruct (path_is_safe (path_components p)) eqn:Es; [|done]. destruct (safe_components p Es) as (names & En & Hn). rewrite En in *. cbn [negb].
destruct (bool_decide_reflect (Normal <$> names = [])) as [Hne'|Hne']; [intros [= <-]; by split|]. destruct names as [|c names _] using rev_ind; [done|]. apply Forall_app in Hn as [Hn Hc]. apply Forall_cons in Hc as [Hc _].
rewrite fmap_app in *. cbn [fmap list_fmap] in *. rewrite removelast_last. unfold last_name in *. rewrite last_snoc in *. cbn [fmap option_fmap option_map default Datatypes.id] in *.
assert (forall cs : path, join_components tempdir (Normal <$> cs) = tempdir ++ cs) as Hj.
{ intros cs. assert (name_of <$> (Normal <$> cs) = cs) as E by (rewrite <- list_fmap_compose; apply list_fmap_id). destruct cs; cbn; [by rewrite app_nil_r|by f_equal; cbn in E; rewrite E]. }
change [Normal c] with (Normal <$> [c]). rewrite <- fmap_app, !Hj.
assert (inside (tempdir ++ names)) as Hin by (by exists names). assert (leaf (tempdir ++ names ++ [c])) as Hl by (exists (tempdir ++ names), c; split; [by rewrite app_assoc|by split]).
assert (forall o1, push_whiteout_name (tempdir ++ names) (to_string_lossy c) o = Some o1 -> ops_ok o1) as Hwh.
{ intros o1. unfold push_whiteout_name. destruct (bool_decide (to_string_lossy c = _)); [intros [= <-]; split; cbn; [done|apply Forall_app; split; [done|]; by apply Forall_singleton|done]|].
  destruct (strip_prefix (str ".wh.") (to_string_lossy c)) as [n|] eqn:E; [|done]. intros [= <-]. apply strip_wh in E. split; cbn; [done|apply Forall_app; split; [done|]|done].
  apply Forall_singleton. split; [done|]. cbn. intros [= ->]. apply bool_decide_eq_false in Hdd. apply Hdd. by rewrite E. }
destruct (e_type e).
- destruct (push_whiteout_name _ _ o) as [o1|] eqn:E; intros [= <-]; [by apply Hwh|]. split; cbn; [apply Forall_app; split; [done|apply Forall_singleton; by apply leaf_inside]|done|done].
- destruct (push_whiteout_name _ _ o) as [o1|] eqn:E; [intros [= <-]; by apply Hwh|]. destruct (e_mode e); [|done]. destruct (e_data e); [|done]. intros [= <-]. split; cbn; [done|done|apply Forall_app; split; [done|by apply Forall_singleton]].
- destruct (push_whiteout_name _ _ o) as [o1|] eqn:E; [intros [= <-]; by apply Hwh|]. destruct (e_mode e); [|done]. destruct (e_data e); [|done]. intros [= <-]. split; cbn; [done|done|apply Forall_app; split; [done|by apply Forall_singleton]].
- destruct (e_link_name e) as [l|]; [|done]. cbn [mbind Result_mbind]. destruct (path_is_safe (path_components (default [] l))); [|done]. intros [= <-]. split; cbn; [done|done|apply Forall_app; split; [done|by apply Forall_singleton]].
- destruct (e_link_name e) as [l|]; [|done]. cbn [mbind Result_mbind]. intros [= <-]. split; cbn; [done|done|apply Forall_app; split; [done|apply Forall_singleton; split; [done|apply hardlink_target_ok]]].
- intros [= <-]. by split.
Qed.

Lemma collect_from_ok expired entries count o o' count' :
  ops_ok o -> Forall (fun x => dotdot_whiteout x = false) entries -> collect_from expired tempdir entries count o = Ok (o', count') -> ops_ok o'.
Proof.
intros Ho Hdd. revert count o Ho. induction Hdd as [|e entries He _ IH]; intros count o Ho; cbn [collect_from]; [by intros [= <- _]|].
destruct (_ && _); [done|]. destruct (collect_entry tempdir e o) as [o1|] eqn:E; [|done]. cbn [mbind Result_mbind]. apply IH. by eapply collect_entry_ok.
Qed.

Definition no_dotdot (archives : list (Result (list (Result TarEntry)))) : Prop :=
  Forall (fun a => match a with Ok entries => Forall (fun x => dotdot_whiteout x = false) entries | Err _ => True end) archives.

Lemma conf_apply_from expired fs archives count : inv fs -> no_dotdot archives -> conf zone_in fs (apply_from expired tempdir archives count) (fun _ _ => True).
Proof.
intros Hi Hdd. revert fs count Hi. induction Hdd as [|a archives Ha _ IH]; intros fs count Hi; cbn [apply_from]; [by apply conf_ret|].
destruct (collect_ops expired a tempdir count) as [[o count']|e] eqn:E; [|by apply (conf_throw _ _ e)].
change (conf zone_in fs (_ ← apply_ops tempdir o; apply_from expired tempdir archives count') (fun _ _ => True)).
apply conf_seq; [|intros [] fs1 Hi1 _; by apply IH]. apply conf_apply_ops; [done|]. unfold collect_ops in E. destruct a as [entries|]; [|done]. cbn [mbind Result_mbind] in E.
eapply collect_from_ok; [|exact Ha|exact E]. split; constructor.
Qed.

(** C7: unpacking an image stays inside its directory.  Whatever the archives contain, links
    that lead elsewhere, absolute names and targets, files where directories should be, and
    whichever calls fail or wherever the process is killed, a path that is not below the
    directory is as it was, as long as no entry is a whiteout of the name [..]. *)
Theorem layers_confined expired archives w p :
  inv (w_fs w) -> no_dotdot archives -> ~ tempdir `prefix_of` p ->
  w_fs (apply_layers expired tempdir archives w).2 !! p = w_fs w !! p.
Proof.
intros Hi Hdd Hp. destruct (conf_apply_from expired _ archives 0%Z Hi Hdd w eq_refl) as [[[_ Ht] _] _]; [by intros|].
destruct (Ht p) as [E|[Hz _]]; [exact E|done].
Qed.
End confined.

(** * Where unpacking does not do what it should *)

Definition entry (t : EntryType) (name : String.string) (data : bytes) : Result TarEntry :=
  Ok (mkEntry (Ok (str name)) t (Ok None) (Ok 420%Z) (Ok data)).

(** C24: a whiteout of the name [..] leaves the directory.  An archive with one entry, the
    file [.wh...], passes every check, and unpacking it succeeds and removes everything
    beside the directory and the directory itself: its parent is emptied. *)
Theorem whiteout_dotdot_escapes base t w expired :
  Forall plain_name (base ++ [t]) -> inv (base ++ [t]) (w_fs w) -> w_fs w !! (base ++ [t]) = Some NDir -> w_faults w = [] ->
  exists w', apply_layers expired (base ++ [t]) [Ok [entry TRegular ".wh..." []]] w = (Ret tt, w') /\
    forall p, base `prefix_of` p -> p <> base -> w_fs w' !! p = None.
Proof.
intros Hpl Hi Ht Hf. set (tempdir := base ++ [t]) in *. set (fs := w_fs w) in *.
assert (real fs tempdir) as Hr by (by apply inv_real). assert (fs !! base = Some NDir) as Hb by (eapply (inv_wf _ _ Hi); exact Ht).
assert (resolve_path fs true (tempdir ++ [str ".."]) = Some base) as Er.
{ rewrite resolve_real_app by done. unfold MAXSYMLINKS. cbn [walk]. rewrite (bool_decide_eq_false_2 (str ".." = [] \/ _)) by (by intros [|]). rewrite (bool_decide_eq_true_2 (str ".." = str "..")) by done.
  unfold is_dir. rewrite bool_decide_eq_true_2 by done. cbn [orb]. unfold tempdir. by rewrite removelast_last. }
set (fs' := delete_all (filter (fun q => q <> base) (nodes_below fs base)) fs).
assert (does (apply_layers expired tempdir [Ok [entry TRegular ".wh..." []]]) fs (Ok tt) fs') as D.
{ unfold apply_layers. cbn [apply_from].
  assert (collect_ops expired (Ok [entry TRegular ".wh..." []]) tempdir 0 = Ok (mkOps [] [mkWhiteout tempdir (Some (str ".."))] [] [tempdir ++ [str ".."]], 1%Z)) as ->.
  { unfold collect_ops. cbn [mbind Result_mbind collect_from]. change (bool_decide (Z.land (0 + 1) 255 = 0)%Z) with false. cbn [andb]. unfold collect_entry. cbn [mbind Result_mbind entry e_path e_type].
    change (path_components (str ".wh...")) with [Normal (str ".wh...")]. cbn [path_is_safe forallb negb skip_curdir]. cbn. rewrite app_nil_r. reflexivity. }
  eapply does_bind; [apply does_lift|]. cbn [fst snd]. eapply does_bind; [|apply does_ret]. unfold apply_ops. cbn [dirs whiteouts pending whited_out_paths for_each].
  eapply does_bind; [apply does_ret|]. eapply does_bind; [|eapply does_bind; [apply does_ret|apply does_ret]]. eapply does_bind; [|apply does_ret].
  unfold apply_whiteout. cbn [wo_name wo_parent]. eapply does_bind.
  { unfold reject_symlink_components, strip_prefix_path. rewrite bool_decide_eq_true_2 by done. rewrite drop_all. apply does_ret. }
  unfold remove_any. eapply does_bind; [apply does_get_fs|]. cbn beta. unfold is_dir_at. rewrite Er. unfold is_dir. rewrite bool_decide_eq_true_2 by done.
  eapply does_ignore. unfold remove_tree. rewrite bool_decide_eq_true_2 by (right; by rewrite last_snoc). unfold at_path. eapply does_bind; [apply does_get_fs|]. cbn beta. rewrite Er.
  unfold clear_dir. apply does_sys_eq. rewrite Hb. reflexivity. }
destruct (D w Hf eq_refl) as (w' & E & E1 & _). exists w'. split; [exact E|]. intros p Hp Hpn. rewrite E1. unfold fs'. rewrite delete_all_lookup. case_decide as Hd; [done|].
destruct (fs !! p) eqn:Ep; [|done]. destruct Hd. apply list_elem_of_filter. split; [done|]. apply elem_of_nodes_below. split; [done|by rewrite Ep].
Qed.

(** A tree of directories [/tmp/t], with a neighbour. *)
Module Example.
Definition tmp : path := [str "tmp"; str "t"].
Definition tree : gmap path node :=
  list_to_map [([], NDir); ([str "tmp"], NDir); (tmp, NDir); ([str "tmp"; str "other"], NFile (str "x") 420)].
Definition world (faults : list fault) (fs : gmap path node) : World := mkWorld fs faults 1 0.

Lemma tree_inv : inv tmp tree.
Proof.
split.
- apply fs_wf_check; [reflexivity|by_eval].
- intros q Hq Hn. destruct q as [|a [|b [|c q]]]; [vm_compute; reflexivity| | |].
  + destruct Hq as [k Hk]. injection Hk as <- _. vm_compute. reflexivity.
  + destruct Hq as [k Hk]. injection Hk as <- <- _. done.
  + destruct Hq as [k Hk]. by injection Hk.
- right. vm_compute. reflexivity.
- intros p _ [n Hp]. apply elem_of_list_to_map_2 in Hp. repeat (apply elem_of_cons in Hp as [Hp|Hp]; [injection Hp as -> _; repeat (constructor; [by compute|]); constructor|]). by apply not_elem_of_nil in Hp.
Qed.

Lemma tmp_plain : Forall plain_name tmp.
Proof. repeat (constructor; [by compute|]). constructor. Qed.

(** A layer that makes [a] opaque, adds the directory [a/b], and adds and whites out [c]. *)
Definition layer : list (Result TarEntry) :=
  [entry TDirectory "a/" []; entry TRegular "a/.wh..wh..opq" []; entry TDirectory "a/b/" []; entry TRegular "c" (str "data"); entry TRegular ".wh.c" []].

(** A layer that deletes [secret] of the layer below. *)
Definition below : list (Result TarEntry) := [entry TRegular "secret" (str "key")].
Definition above : list (Result TarEntry) := [entry TRegular ".wh.secret" []].
End Example.

(** Whiteouts hide what their own layer adds.  They are meant for the layers below and to
    be applied before anything is added, but the directories of a layer are made before its
    whiteouts are applied, so an opaque directory loses the directories that the same layer
    adds to it.  A file that a layer both adds and whites out is not there. *)
Theorem whiteouts_hit_own_layer :
  let '(r, w) := apply_layers (fun _ => false) Example.tmp [Ok Example.layer] (Example.world [] Example.tree) in
  r = Ret tt /\ w_fs w !! (Example.tmp ++ [str "a"]) = Some NDir /\ w_fs w !! (Example.tmp ++ [str "a"; str "b"]) = None /\
  w_fs w !! (Example.tmp ++ [str "c"]) = None.
Proof. vm_compute. repeat split. Qed.

(** An I/O error while a whiteout is applied is ignored: unpacking succeeds and the file
    that the upper layer deletes is still in the tree. *)
Theorem whiteout_failure_ignored :
  exists faults, let '(r, w) := apply_layers (fun _ => false) Example.tmp [Ok Example.below; Ok Example.above] (Example.world faults Example.tree) in
  r = Ret tt /\ file_at (w_fs w) (Example.tmp ++ [str "secret"]) = Some (str "key").
Proof. exists [FOk; FOk; FOk; FOk; FErr 0]. vm_compute. repeat split. Qed.

Lemma layers_confined_witness :
  w_fs (apply_layers (fun _ => false) Example.tmp [Ok Example.layer] (Example.world [FOk; FErr 0] Example.tree)).2 !! [str "tmp"; str "other"] = Some (NFile (str "x") 420%Z).
Proof.
rewrite (layers_confined Example.tmp Example.tmp_plain ltac:(discriminate) (fun _ => false) [Ok Example.layer] (Example.world [FOk; FErr 0] Example.tree) [str "tmp"; str "other"]).
- vm_compute. reflexivity.
- exact Example.tree_inv.
- repeat (constructor; [repeat (constructor; [reflexivity|]); constructor|]). constructor.
- intros [k Hk]. discriminate Hk.
Defined.

Lemma whiteout_dotdot_escapes_witness :
  exists w', apply_layers (fun _ => false) Example.tmp [Ok [entry TRegular ".wh..." []]] (Example.world [] Example.tree) = (Ret tt, w') /\
    forall p, [str "tmp"] `prefix_of` p -> p <> [str "tmp"] -> w_fs w' !! p = None.
Proof.
apply (whiteout_dotdot_escapes [str "tmp"] (str "t") (Example.world [] Example.tree) (fun _ => false)).
- exact Example.tmp_plain.
- exact Example.tree_inv.
- vm_compute. reflexivity.
- reflexivity.
Defined.
