(* ===== verification/BuildCfg.v ===== *)
(** What a build knows beside the file system: the ARG scopes (args.rs), the platform of a
    stage (platform.rs), the table of finished stages (exec_stage.rs), the target of
    [--target] (target.rs), the image-config sidecar and the argv it gives (imgcfg.rs), and
    the pure helpers of COPY and ADD (exec_fs.rs, exec_fs_tar.rs, exec_add_url.rs), all of
    crates/lightr-build/src/build.

    serde_json's codec of the sidecar is the argument [to_json], [from_json]. *)

From S2P Require Import Prelude Text Error Cursor Digest RefRecord Fs FsFacts OwnedTemp Cas Layout Refs ImgMeta Hydrate Layer DockerIgnore Vars Dockerfile.

(** * ARG (args.rs) *)

Abbreviation ArgOverrides := (gmap bytes bytes).

(** [collect] into a map: a later pair of the same key wins. *)
Definition collect_pairs (l : list (bytes * bytes)) : gmap bytes bytes := foldl (fun m '(k, v) => <[k := v]> m) ∅ l.

Definition overrides_from_pairs (build_args : list (bytes * bytes)) : ArgOverrides := collect_pairs build_args.

Record ArgState := mkArgState { seen_from : bool; global : gmap bytes bytes }.

Definition arg_state_default : ArgState := mkArgState false ∅.

Definition enter_stage (st : ArgState) : ArgState := mkArgState true (global st).

(** The state and the scope after [ARG name[=default]]. *)
Definition arg_apply (st : ArgState) (name : bytes) (default_ : option bytes) (overrides : ArgOverrides) (stage_args : gmap bytes bytes) :
    ArgState * gmap bytes bytes :=
  let value :=
    match overrides !! name with
    | Some v => Some v
    | None =>
        match default_ with
        | Some v => Some v
        | None => if seen_from st then global st !! name else None
        end
    end in
  match value with
  | Some v => (if seen_from st then st else mkArgState false (<[name := v]> (global st)), <[name := v]> stage_args)
  | None => (st, delete name stage_args)
  end.

Definition arg_sync (st : ArgState) (step_instr : Instr) (overrides : ArgOverrides) (stage_args : gmap bytes bytes) :
    ArgState * gmap bytes bytes :=
  match step_instr with
  | From _ _ _ => (enter_stage st, ∅)
  | Arg name default_ => arg_apply st name default_ overrides stage_args
  | _ => (st, stage_args)
  end.

(** * Platforms (platform.rs) *)

Definition host_arch (ARCH : bytes) : bytes :=
  if bool_decide (ARCH = str "x86_64") then str "amd64" else if bool_decide (ARCH = str "aarch64") then str "arm64" else ARCH.

Definition host_platform (ARCH : bytes) : bytes := str "linux/" ++ host_arch ARCH.

Definition normalize (p : bytes) : bytes :=
  let p := to_ascii_lowercase (trim p) in
  if contains x2f p then p else str "linux/" ++ p.

(** [splitn(3, '/')], its first two parts. *)
Definition os_arch (p : bytes) : option (bytes * bytes) :=
  '(os, rest) ← split_once x2f p;
  Some (os, match split_once x2f rest with Some (arch, _) => arch | None => rest end).

Definition platforms_match (requested actual : bytes) : bool :=
  let r := normalize requested in
  let a := normalize actual in
  if bool_decide (r = a) then true else
  match os_arch r, os_arch a with
  | Some r, Some a => bool_decide (r = a)
  | _, _ => false
  end.

Definition resolve_platform (ARCH : bytes) (flag : option bytes) : bytes :=
  match flag with Some p => normalize p | None => host_platform ARCH end.

Definition platform_mismatch (req image_ref actual : bytes) : LightrError :=
  InvalidManifest (str "FROM --platform=" ++ req ++ str ": base image " ++ image_ref ++ str " is " ++ actual).

Definition validate_against_base `{Blake3} (root : path) (image_ref : bytes) (requested : option bytes) : IO unit :=
  match requested with
  | None => mret tt
  | Some req =>
      if bool_decide (image_ref = str "scratch") then mret tt else
      rec ← image_manifest_get root image_ref;
      match rec with
      | Some rec =>
          if bool_decide (trim (platform rec) = []) then mret tt
          else if platforms_match req (platform rec) then mret tt
          else throw (platform_mismatch req image_ref (platform rec))
      | None => mret tt
      end
  end.

(** * Stages (exec_stage.rs, target.rs) *)

Record StageTable := mkStages { by_index : list digest; by_name : gmap bytes digest }.

Definition stages_default : StageTable := mkStages [] ∅.

Definition stage_record (t : StageTable) (name : option bytes) (d : digest) : StageTable :=
  mkStages (by_index t ++ [d]) (match name with Some n => <[to_ascii_lowercase n := d]> (by_name t) | None => by_name t end).

Definition bad_index (from : bytes) : LightrError := InvalidManifest (str "COPY --from: invalid stage index " ++ from).
Definition no_index (from : bytes) : LightrError := InvalidManifest (str "COPY --from=" ++ from ++ str ": no such prior stage").
Definition no_stage (from : bytes) : LightrError := InvalidManifest (str "COPY --from=" ++ from ++ str ": unknown stage name").

(** A reference made of digits only is an index. *)
Definition stage_resolve (t : StageTable) (from : bytes) : Result digest :=
  if negb (bool_decide (from = [])) && forallb is_ascii_digit from then
    idx ← ok_or (parse_u64 from) (bad_index from);
    ok_or (by_index t !! Z.to_nat idx) (no_index from)
  else ok_or (by_name t !! to_ascii_lowercase from) (no_stage from).

Definition stage_name_of (s : BuildStep) : option bytes := match instr s with From _ _ (Some n) => Some n | _ => None end.

Definition validate_target (target : option bytes) (steps : list BuildStep) : Result (option bytes) :=
  match target with
  | None => Ok None
  | Some t =>
      let target_lc := to_ascii_lowercase t in
      if existsb (fun n => eq_ignore_ascii_case n target_lc) (omap stage_name_of steps) then Ok (Some target_lc)
      else Err (InvalidManifest (str "build --target " ++ t ++ str ": no such stage"))
  end.

(** * The image config (imgcfg.rs) *)

Definition IMAGE_CONFIG_FILE : bytes := str ".lightr-image.json".

Record ImageHealthcheck := mkImageHealthcheck {
  hc_test : list bytes; hc_interval : option bytes; hc_timeout : option bytes; hc_start_period : option bytes; hc_retries : option bytes }.

Record ImageConfig := mkImageConfig {
  ic_entrypoint : option (list bytes);
  ic_cmd : option (list bytes);
  ic_env : list (bytes * bytes);
  ic_workdir : option bytes;
  ic_user : option bytes;
  ic_expose : list bytes;
  ic_volume : list bytes;
  ic_labels : list (bytes * bytes);
  ic_healthcheck : option ImageHealthcheck;
  ic_stop_signal : option bytes;
  ic_shell : option (list bytes);
  ic_onbuild : list bytes;
}.

Definition config_default : ImageConfig := mkImageConfig None None [] None None [] [] [] None None None [].

Definition effective_argv (cfg : ImageConfig) (override_cmd : list bytes) : list bytes :=
  default [] (ic_entrypoint cfg) ++ (if bool_decide (override_cmd = []) then default [] (ic_cmd cfg) else override_cmd).

Section config_file.
Context (to_json : ImageConfig -> option bytes) (from_json : bytes -> option ImageConfig).

(** A sidecar that is missing, unreadable or malformed is the default. *)
Definition config_of (r : Result bytes) : ImageConfig :=
  match r with Ok bs => default config_default (from_json bs) | Err _ => config_default end.

Definition config_load (root : path) : IO ImageConfig :=
  r ← try_ (read (root ++ [IMAGE_CONFIG_FILE]));
  mret (config_of r).

Definition config_save (cfg : ImageConfig) (root : path) : IO unit :=
  bs ← lift (ok_or (to_json cfg) (InvalidManifest (str "image config serialize")));
  _ ← file_create (root ++ [IMAGE_CONFIG_FILE]);
  write_all (root ++ [IMAGE_CONFIG_FILE]) bs.

End config_file.

(** * The flags of COPY and ADD (exec_fs.rs) *)

Record CopyMeta := mkCopyMeta { cm_mode : option Z; cm_uid : option Z; cm_gid : option Z }.

Definition is_octal (b : byte) : bool := in_range x30 x37 b.

(** [u32::from_str_radix(s, 8)]. *)
Definition parse_octal (s : bytes) : option Z :=
  let d := strip_plus s in
  if bool_decide (d = []) then None
  else if forallb is_octal d then
    let v := foldl (fun acc b => acc * 8 + digit_val b)%Z 0%Z d in
    if (v <? 2 ^ 32)%Z then Some v else None
  else None.

Definition copy_meta_parse (chown chmod : option bytes) : Result CopyMeta :=
  mode ← match chmod with
         | Some s => m ← ok_or (parse_octal (trim s)) (InvalidManifest (str "COPY --chmod: invalid octal mode " ++ s)); Ok (Some m)
         | None => Ok None
         end;
  let '(uid, gid) :=
    match chown with
    | Some s =>
        let '(u, g) := match split_once x3a s with Some (u, g) => (u, Some g) | None => (s, None) end in
        (parse_u32 (trim u), g ≫= fun g => parse_u32 (trim g))
    | None => (None, None)
    end in
  Ok (mkCopyMeta mode uid gid).

(** [glob_match] is the loop of the build-context filter, on one path component. *)
Definition glob_match (pat name : bytes) : bool := segment_match pat name.

Definition has_glob (token : bytes) : bool := contains x2a token || contains x3f token.

(** * Archives (exec_fs_tar.rs) and URLs (exec_add_url.rs) *)

Inductive ArchiveKind := Tar | TarGz | TarBz2 | TarXz.

Definition ends_with (suffix s : bytes) : bool := starts_with (reverse suffix) (reverse s).

Definition archive_kind (p : path) : option ArchiveKind :=
  f ← last p;
  let name := to_ascii_lowercase (to_string_lossy f) in
  if ends_with (str ".tar.gz") name || ends_with (str ".tgz") name then Some TarGz
  else if ends_with (str ".tar.bz2") name || ends_with (str ".tbz2") name then Some TarBz2
  else if ends_with (str ".tar.xz") name || ends_with (str ".txz") name then Some TarXz
  else if ends_with (str ".tar") name then Some Tar
  else None.

Definition is_remote (token : bytes) : bool :=
  let t := trim_start token in
  starts_with (str "http://") t || starts_with (str "https://") t.

(** [s.split(pat)] for a text pattern; at most one turn per byte. *)
Fixpoint split_text_go (turns : nat) (pat cur s : bytes) : list bytes :=
  match turns with
  | O => [reverse cur]
  | S turns =>
      match strip_prefix pat s, s with
      | Some rest, _ => reverse cur :: split_text_go turns pat [] rest
      | None, b :: s => split_text_go turns pat (b :: cur) s
      | None, [] => [reverse cur]
      end
  end.

Definition split_text (pat s : bytes) : list bytes := split_text_go (S (length s)) pat [] s.

(** [s.split(['?', '#']).next()]. *)
Fixpoint before_query (s : bytes) : bytes :=
  match s with
  | [] => []
  | b :: s => if bool_decide (b = x3f) || bool_decide (b = x23) then [] else b :: before_query s
  end.

Definition url_file_name (url : bytes) : Result bytes :=
  let after_scheme := default url (split_text (str "://") url !! 1) in
  let path_only := before_query after_scheme in
  ok_or (last (filter (fun s => s <> []) (split_on x2f path_only)))
    (InvalidManifest (str "ADD: cannot derive a file name from URL " ++ url)).

Definition MAX_ADD_URL_BYTES : Z := 256 * 1024 * 1024.

(** * Text (exec.rs, exec_fs.rs) *)

Definition onbuild_trigger (raw : bytes) : bytes :=
  let t := trim_start raw in
  match split_once_ws t with
  | Some (kw, rest) => if eq_ignore_ascii_case kw (str "ONBUILD") then trim_start rest else trim_end t
  | None => trim_end t
  end.

Definition CLOCK_OR_NET : list bytes :=
  [str "date"; str "curl"; str "wget"; str "fetch"; str "apt-get"; str "apk"; str "yum"; str "pip"; str "npm"; str "cargo install"].

(** [s.contains(pat)] for a non-empty text pattern. *)
Fixpoint contains_text (pat s : bytes) : bool :=
  starts_with pat s || match s with [] => false | _ :: s => contains_text pat s end.

Definition step_reads_clock_or_net (argv : list bytes) : bool :=
  let cmd := join_words argv in
  existsb (fun p => contains_text p cmd) CLOCK_OR_NET.

Definition default_shell : list bytes := [str "/bin/sh"; str "-c"].

(** The environment of a RUN: declared ARGs in key order, then the accumulated ENV. *)
Definition merge_run_env (args accumulated_env : list (bytes * bytes)) : list (bytes * bytes) := args ++ accumulated_env.

Definition build_run_env (args : gmap bytes bytes) (accumulated_env : list (bytes * bytes)) : list (bytes * bytes) :=
  merge_run_env (sort_by (fun a b => bytes_leb a.1 b.1) (map_to_list args)) accumulated_env.
