(* ===== verification/BuildKey.v ===== *)
(** The memo key of a build step (crates/lightr-build/src/build/memo.rs) and the placing of
    the sources of COPY and ADD (exec_fs.rs, exec_fs_tar.rs): the two readings of the build
    context that have to agree.

    A source path is carried as written and looked up as the kernel does it, links and [..]
    resolved; paths below the work directory are taken as written.  The tar and decompression
    crates are the argument [unpack]; the owner of a file is not part of the modelled tree. *)

From S2P Require Import Prelude Text Error Cursor Digest Fs FsFacts OwnedTemp Calm Cas Layout Refs Hydrate Memo Layer DockerIgnore Vars Dockerfile BuildCfg.

(** * Paths *)

(** The text of a relative path. *)
Fixpoint rel_text (p : path) : bytes :=
  match p with
  | [] => []
  | [c] => c
  | c :: p => c ++ x2f :: rel_text p
  end.

(** The order of [PathBuf]: component by component. *)
Fixpoint path_leb (a b : path) : bool :=
  match a, b with
  | [], _ => true
  | _ :: _, [] => false
  | x :: a, y :: b =>
      match bytes_cmp x y with
      | Lt => true
      | Gt => false
      | Eq => path_leb a b
      end
  end.

(** [p.strip_prefix(base)]. *)
Fixpoint path_strip (base p : path) : option path :=
  match base, p with
  | [], _ => Some p
  | b :: base, c :: p => if bool_decide (b = c) then path_strip base p else None
  | _ :: _, [] => None
  end.

(** Where the kernel finds [p] when it does not follow a last link. *)
Definition lookup_place (fs : gmap path node) (p : path) : Result path :=
  match last p with
  | None => Ok []
  | Some c =>
      if bool_decide (c = str "..") then Memo.resolve MAXSYMLINKS fs [] p
      else d ← Memo.resolve MAXSYMLINKS fs [] (parent_path p); Ok (d ++ [c])
  end.

(** [fs::symlink_metadata]. *)
Definition symlink_metadata (p : path) : IO (path * node) :=
  sys0 (fun fs =>
    match lookup_place fs p with
    | Err e => (Err e, fs)
    | Ok q => match fs !! q with Some n => (Ok (q, n), fs) | None => io_err NotFoundKind fs end
    end).

(** [fs::read_dir], with the place of the directory. *)
Definition read_dir_follow (p : path) : IO (path * list bytes) :=
  sys0 (fun fs =>
    match Memo.resolve MAXSYMLINKS fs [] p with
    | Err e => (Err e, fs)
    | Ok q =>
        match fs !! q with
        | Some NDir => (Ok (q, children fs q), fs)
        | Some _ => io_err NotADirectory fs
        | None => io_err NotFoundKind fs
        end
    end).

(** [fs::read_link] at a place. *)
Definition read_link (p : path) : IO bytes :=
  sys0 (fun fs =>
    match fs !! p with
    | Some (NSymlink t) => (Ok t, fs)
    | Some _ => io_err InvalidInput fs
    | None => io_err NotFoundKind fs
    end).

(** [Path::is_file] and [Path::is_dir] follow links; an error is [false]. *)
Definition node_follow (p : path) : IO (option (path * node)) :=
  r ← try_ (metadata p);
  mret (match r with Ok x => Some x | Err _ => None end).

(** [iter().any(f)] with an [f] that looks at the file system. *)
Fixpoint any_io {A} (f : A -> IO bool) (l : list A) : IO bool :=
  match l with
  | [] => mret false
  | a :: l => b ← f a; if (b : bool) then mret true else any_io f l
  end.

(** Is the path excluded from the context? *)
Definition context_excluded (context_root : path) (ign : DockerIgnore) (p : path) : bool :=
  match path_strip context_root p with
  | Some rel =>
      let s := to_string_lossy (rel_text rel) in
      negb (bool_decide (s = [])) && is_excluded ign s
  | None => false
  end.

(** * The key (memo.rs) *)

Definition BUILD_KEY_DOMAIN : bytes := str "lightr/build/v2".

(** [b"\x00name\x00"]. *)
Definition sep (name : bytes) : bytes := x00 :: name ++ [x00].

(** Every entry below [dir], in no particular order. *)
Fixpoint collect_dir_paths (fuel : nat) (dir : path) : IO (list path) :=
  match fuel with
  | O => throw (Io OtherKind)
  | S fuel =>
      '(at_, names) ← read_dir_follow dir;
      found ← map_io (fun c =>
        n ← lstat (at_ ++ [c]);
        below ← match n with NDir => collect_dir_paths fuel (dir ++ [c]) | _ => mret [] end;
        mret ((dir ++ [c]) :: below)) names;
      mret (mjoin found)
  end.

Section key.
Context `{B3 : Blake3} (context_dir : path) (ign : DockerIgnore).

Definition skipped (p : path) : bool := active ign && context_excluded context_dir ign p.

(** What a source adds to the hasher.  No path of a finite tree is longer than the number of
    its nodes: [hash_copy_source_filtered] gives that many levels. *)
Fixpoint hash_source_go (fuel : nat) (p : path) : IO (list bytes) :=
  match fuel with
  | O => throw (Io OtherKind)
  | S fuel =>
      if skipped p then mret [] else
      r ← try_ (symlink_metadata p);
      match r with
      | Err _ => mret [sep (str "missing")]
      | Ok (at_, NSymlink _) => target ← read_link at_; mret [str "L"; target]
      | Ok (at_, NFile _ _) => d ← of_file at_; mret [str "F"; d]
      | Ok (_, NDir) =>
          entries ← collect_dir_paths fuel p;
          let entries := List.filter (fun child => negb (skipped child)) entries in
          let entries := sort_by path_leb entries in
          chunks ← map_io (fun child =>
            cs ← hash_source_go fuel child;
            mret (rel_text (drop (length p) child) :: [x00] :: cs)) entries;
          mret (str "D" :: mjoin chunks)
      end
  end.

Definition hash_copy_source_filtered (p : path) : IO (list bytes) :=
  fs ← get_fs;
  hash_source_go (S (S (size fs))) p.

Definition flag_chunks (name : bytes) (flag : option bytes) (scope : VarScope) (escape : bool) : IO (list bytes) :=
  match flag with
  | Some c => v ← lift (interpolate c scope escape); mret [sep name; v]
  | None => mret []
  end.

Definition canonical_step_text (step : BuildStep) (scope : VarScope) (escape : bool) : Result bytes := interpolate (raw step) scope escape.

Definition shell_chunks (step : BuildStep) (current_shell : list bytes) : list bytes :=
  match instr step with
  | Run _ (Shell _) => sep (str "shell") :: mjoin ((fun tok => [tok; [x00]]) <$> current_shell)
  | _ => []
  end.

Definition source_chunks (step : BuildStep) (scope : VarScope) (escape : bool) : IO (list bytes) :=
  match instr step with
  | Copy src _ _ chown chmod | Add src _ chown chmod =>
      css ← map_io (fun s => t ← lift (interpolate s scope escape); hash_copy_source_filtered (join context_dir t)) src;
      o ← flag_chunks (str "chown") chown scope escape;
      m ← flag_chunks (str "chmod") chmod scope escape;
      mret (mjoin css ++ o ++ m)
  | _ => mret []
  end.

(** The input of the hash, update by update. *)
Definition step_chunks (prev_layer_root : option digest) (step : BuildStep) (scope : VarScope) (escape : bool) (current_shell : list bytes)
    (from_stage_digest : option digest) (platform : bytes) : IO (list bytes) :=
  text ← lift (canonical_step_text step scope escape);
  srcs ← source_chunks step scope escape;
  mret ([BUILD_KEY_DOMAIN; default (replicate 32 x00) prev_layer_root; sep (str "platform"); platform; text]
    ++ shell_chunks step current_shell ++ srcs
    ++ match from_stage_digest with Some d => [sep (str "from-stage"); d] | None => [] end).

Definition step_key (prev_layer_root : option digest) (step : BuildStep) (scope : VarScope) (escape : bool) (current_shell : list bytes)
    (from_stage_digest : option digest) (platform : bytes) : IO digest :=
  chunks ← step_chunks prev_layer_root step scope escape current_shell from_stage_digest platform;
  mret (Memo.finish chunks).

End key.

(** * Placing sources (exec_fs.rs, exec_fs_tar.rs) *)

(** The context root and its filter, when the filter has rules. *)
Abbreviation IgnoreFilter := (option (path * DockerIgnore)).

Definition filtered_out (p : path) (filter : IgnoreFilter) : bool :=
  match filter with Some (root, ign) => context_excluded root ign p | None => false end.

(** [libc::chown]: refused or not; owners are not in the tree. *)
Definition chown (p : path) : IO unit :=
  sys0 (fun fs => match fs !! p with Some _ => (Ok tt, fs) | None => io_err NotFoundKind fs end).

Definition apply_meta (p : path) (meta : CopyMeta) : IO unit :=
  _ ← match cm_mode meta with Some mode => set_permissions p mode | None => mret tt end;
  match cm_uid meta, cm_gid meta with
  | None, None => mret tt
  | _, _ => chown p
  end.

(** The source tree is finite: one level per node is enough. *)
Fixpoint copy_dir_go (fuel : nat) (src dest : path) (meta : CopyMeta) (filter : IgnoreFilter) : IO unit :=
  match fuel with
  | O => throw (Io OtherKind)
  | S fuel =>
      '(at_, names) ← read_dir_follow src;
      for_each names (fun c =>
        if filtered_out (src ++ [c]) filter then mret tt else
        n ← lstat (at_ ++ [c]);
        let target := dest ++ [c] in
        match n with
        | NDir =>
            _ ← create_dir_all target;
            _ ← copy_dir_go fuel (src ++ [c]) target meta filter;
            apply_meta target meta
        | NFile _ _ => _ ← copy_file (at_ ++ [c]) target; apply_meta target meta
        | NSymlink _ => mret tt
        end)
  end.

Definition copy_dir_recursive_meta (src dest : path) (meta : CopyMeta) (filter : IgnoreFilter) : IO unit :=
  fs ← get_fs;
  copy_dir_go (S (size fs)) src dest meta filter.

Definition expand_glob (context_dir : path) (token : bytes) : IO (list path) :=
  if negb (has_glob token) then mret [join context_dir token] else
  match last (components token) with
  | Some pat =>
      if bool_decide (pat = str "..") then mret [join context_dir token] else
      let dir := parent_path (join context_dir token) in
      r ← try_ (read_dir_follow dir);
      mret match r with
           | Ok (_, names) => sort_by path_leb ((fun name => dir ++ [name]) <$> List.filter (fun name => glob_match pat (to_string_lossy name)) names)
           | Err _ => []
           end
  | None => mret [join context_dir token]
  end.

Section place.
Context (unpack : ArchiveKind -> bytes -> path -> IO unit).

Definition meta_is_empty (meta : CopyMeta) : bool :=
  match cm_mode meta, cm_uid meta, cm_gid meta with None, None, None => true | _, _, _ => false end.

Fixpoint apply_meta_below (fuel : nat) (root : path) (meta : CopyMeta) : IO unit :=
  match fuel with
  | O => throw (Io OtherKind)
  | S fuel =>
      names ← read_dir root;
      for_each names (fun c =>
        n ← lstat (root ++ [c]);
        _ ← match n with NDir => apply_meta_below fuel (root ++ [c]) meta | _ => mret tt end;
        apply_meta (root ++ [c]) meta)
  end.

Definition apply_meta_recursive (root : path) (meta : CopyMeta) : IO unit :=
  if meta_is_empty meta then mret tt else
  fs ← get_fs;
  apply_meta_below (S (size fs)) root meta.

Definition extract_archive (src dest : path) (kind : ArchiveKind) (meta : CopyMeta) : IO unit :=
  _ ← create_dir_all dest;
  content ← read src;
  _ ← unpack kind content dest;
  apply_meta_recursive dest meta.

Definition place_one_into_dir (src_path dest_dir : path) (meta : CopyMeta) (extract : bool) (filter : IgnoreFilter) : IO unit :=
  n ← node_follow src_path;
  match n with
  | Some (at_, NFile _ _) =>
      match (if extract then archive_kind src_path else None) with
      | Some kind => extract_archive at_ dest_dir kind meta
      | None =>
          match last src_path with
          | Some f =>
              if bool_decide (f = str "..") then throw (InvalidManifest (str "COPY/ADD: source has no file name")) else
              _ ← copy_file at_ (dest_dir ++ [f]);
              apply_meta (dest_dir ++ [f]) meta
          | None => throw (InvalidManifest (str "COPY/ADD: source has no file name"))
          end
      end
  | Some (_, NDir) => copy_dir_recursive_meta src_path dest_dir meta filter
  | _ => mret tt
  end.

Definition is_archive_file (s : path) : IO bool :=
  n ← node_follow s;
  mret (match n with Some (_, NFile _ _) => bool_decide (is_Some (archive_kind s)) | _ => false end).

(** [None] is the panic of [sources[0]] on an empty list. *)
Definition place_sources (work_dir : path) (sources : list path) (dest : bytes) (meta : CopyMeta) (extract : bool) (filter : IgnoreFilter) :
    IO (option unit) :=
  let dest_path := work_dir ++ components dest in
  any_archive ← (if extract then any_io is_archive_file sources else mret false);
  let dest_is_dir := ends_with (str "/") dest || bool_decide (1 < length sources) || any_archive in
  if dest_is_dir then
    _ ← create_dir_all dest_path;
    _ ← for_each sources (fun s => place_one_into_dir s dest_path meta extract filter);
    mret (Some tt)
  else
    _ ← create_dir_all (parent_path dest_path);
    match sources with
    | [] => mret None
    | src_path :: _ =>
        n ← node_follow src_path;
        _ ← match n with
            | Some (at_, NFile _ _) => _ ← copy_file at_ dest_path; apply_meta dest_path meta
            | Some (_, NDir) =>
                _ ← create_dir_all dest_path;
                _ ← copy_dir_recursive_meta src_path dest_path meta filter;
                apply_meta dest_path meta
            | _ => mret tt
            end;
        mret (Some tt)
    end.

End place.
