(* ===== verification/BuildExec.v ===== *)
(** The Dockerfile build (crates/lightr-build/src/build): the bodies of the instructions
    (exec_instr*.rs), the replay of a cached layer and the loop of [build_target] (exec.rs).

    The loop keeps the layer of the last step, what the instructions read and change, and the
    stages built so far; the tree is in the file system.  Arguments stand for the code of
    other packages: the engine that runs a command ([exec]), HTTP ([http_get]), the archive
    crates ([unpack]), serde_json, the directory walk of a snapshot ([walk]), the clock and
    the names of temporary directories.  [None] as a result is a panic. *)

From S2P Require Import Prelude Text Error Cursor Digest Manifest RefRecord Fs FsFacts OwnedTemp Calm Cas Layout Refs Ac ImgMeta IndexCodec Scan Hydrate Snapshot Memo DockerIgnore Vars Dockerfile BuildCfg BuildKey.

Record BuildReport := mkBuildReport { br_name : bytes; br_root : digest; br_steps : Z; br_cached_steps : Z }.

(** The part of [BuildCtx] that changes, and the number of temporary directories made. *)
Record BuildVars := mkVars {
  b_scope : VarScope;
  b_args : ArgState;
  b_env : list (bytes * bytes);
  b_workdir : bytes;
  b_shell : list bytes;
  b_guards : nat;
}.

(** What the loop of [build_target] keeps. *)
Record Loop := mkLoop {
  l_vars : BuildVars;
  prev_layer_root : option digest;
  cached_steps : Z;
  total : Z;
  stages : StageTable;
  current_stage_name : option bytes;
  stage_in_progress : bool;
  active_platform : bytes;
}.

Inductive HttpReply :=
  | HttpStatus (status : Z) (text : bytes)
  | HttpTransport
  | HttpBroken (received : bytes)
  | HttpBody (body : bytes).

(** A step goes on with the next, ends the build at the target, or panics. *)
Inductive turn := Next (l : Loop) | Stop (l : Loop) | Panic.

Definition interp_vec (v : list bytes) (scope : VarScope) (escape : bool) : Result (list bytes) :=
  mapM (fun s => interpolate s scope escape) v.

(** The entries of a directory removed, links as links. *)
Definition clear_dir (p : path) : IO unit :=
  names ← read_dir p;
  for_each names (fun c =>
    fs ← get_fs;
    if is_dir fs (p ++ [c]) then remove_dir_all (p ++ [c]) else remove_file (p ++ [c])).

(** [push] when it is not there yet. *)
Definition push_new (l : list bytes) (p : bytes) : list bytes := if bool_decide (p ∈ l) then l else l ++ [p].

(** [retain] the other keys, then [push]. *)
Definition set_pair (l : list (bytes * bytes)) (key val : bytes) : list (bytes * bytes) :=
  List.filter (fun kv => negb (bool_decide (kv.1 = key))) l ++ [(key, val)].

Section build.
Context `{B3 : Blake3} (root : path) (rung : CowRung).
Context (to_json : ImageConfig -> option bytes) (from_json : bytes -> option ImageConfig) (json_array : bytes -> option (list bytes)).
Context (unpack : ArchiveKind -> bytes -> path -> IO unit) (http_get : bytes -> HttpReply).
Context (exec : path -> list bytes -> list (bytes * bytes) -> IO Z).
Context (walk : gmap path node -> path -> list walk_item) (env_of : path -> index_env) (clock : Z -> Z) (version : bytes).
Context (ARCH : bytes) (temp : nat -> path).

(** [TempDirGuard]: made exclusively, removed when it goes out of scope. *)
Definition with_guard {A} (n : nat) (f : path -> IO A) : IO A :=
  _ ← mkdir (temp n);
  finally (f (temp n)) (remove_dir_all (temp n)).

(** [materialize_from_digest]. *)
Definition put_entry (dest : path) (e : Entry) : IO unit :=
  match e with
  | Dir p => create_dir_all (join dest p)
  | File p mode _ d =>
      _ ← make_dirs dest e;
      materialize_file root d (join dest p) mode rung
  | Symlink p target =>
      _ ← make_dirs dest e;
      symlink target (join dest p)
  end.

Definition materialize_from_digest (dest : path) (manifest_digest : digest) : IO unit :=
  e ← exists_ dest;
  _ ← (if (e : bool) then clear_dir dest else create_dir_all dest);
  manifest_bytes ← get_bytes root manifest_digest;
  m ← lift (Manifest.decode manifest_bytes);
  for_each (entries m) (put_entry dest).

Section instructions.
Context (context_dir work_dir : path) (ign : DockerIgnore) (escape : bool) (overrides : ArgOverrides).

Definition interp (v : BuildVars) (s : bytes) : IO bytes := lift (interpolate s (b_scope v) escape).
Definition interps (v : BuildVars) (l : list bytes) : IO (list bytes) := lift (interp_vec l (b_scope v) escape).

(** Load the config, change it, save it. *)
Definition record_config (f : ImageConfig -> ImageConfig) : IO unit :=
  cfg ← config_load from_json work_dir;
  config_save to_json (f cfg) work_dir.

(** ** FROM (exec_instr_from.rs) *)

Definition exec_from (v : BuildVars) (i : Instr) (image_ref : bytes) : IO BuildVars :=
  image_ref ← interp v image_ref;
  requested ← match i with From _ (Some p) _ => p ← interp v p; mret (Some p) | _ => mret None end;
  _ ← validate_against_base root image_ref requested;
  _ ← clear_dir work_dir;
  _ ← (if bool_decide (image_ref = str "scratch") then mret tt else _ ← hydrate root rung work_dir image_ref; mret tt);
  base ← config_load from_json work_dir;
  let '(st, stage_args) := arg_sync (b_args v) i overrides (args (b_scope v)) in
  mret (mkVars (mkScope stage_args (collect_pairs (ic_env base))) st (ic_env base) (b_workdir v) default_shell (b_guards v)).

(** ** RUN, SHELL (exec_instr_run.rs) *)

Definition run_argv (v : BuildVars) (form : CmdForm) : IO (list bytes) :=
  match form with
  | Exec argv => interps v argv
  | Shell s => cmd ← interp v s; mret (b_shell v ++ [cmd])
  end.

Definition exec_run (v : BuildVars) (form : CmdForm) : IO BuildVars :=
  argv ← run_argv v form;
  cwd ← (if bool_decide (b_workdir v = str "/") || bool_decide (b_workdir v = []) then mret work_dir
         else let cwd := work_dir ++ components (b_workdir v) in _ ← create_dir_all cwd; mret cwd);
  code ← exec cwd argv (build_run_env (args (b_scope v)) (b_env v));
  if bool_decide (code = 0%Z) then mret v else throw (InvalidManifest (str "RUN step exited with code " ++ dec code)).

Definition exec_shell (v : BuildVars) (shell : list bytes) : IO BuildVars :=
  shell ← interps v shell;
  mret (mkVars (b_scope v) (b_args v) (b_env v) (b_workdir v) shell (b_guards v)).

(** ** COPY, ADD (exec_instr_copy.rs, exec_add_url.rs) *)

Definition ctx_filter : IgnoreFilter := if active ign then Some (context_dir, ign) else None.

Definition resolve_token (at_ : path) (verb : bytes) (relative : bool) (token : bytes) : IO (list path) :=
  let token := if relative then drop_while x2f token else token in
  matched ← expand_glob at_ token;
  if has_glob token && bool_decide (matched = []) then throw (InvalidManifest (verb ++ str ": no source files match " ++ token)) else
  mret (if negb relative && active ign then List.filter (fun m => negb (context_excluded at_ ign m)) matched else matched).

Definition resolve_sources_in (at_ : path) (v : BuildVars) (src : list bytes) (verb : bytes) (relative : bool) : IO (list path) :=
  raw_src ← interps v src;
  matched ← map_io (resolve_token at_ verb relative) raw_src;
  mret (mjoin matched).

Definition resolve_sources (v : BuildVars) (src : list bytes) (verb : bytes) : IO (list path) :=
  resolve_sources_in context_dir v src verb false.

Definition next_guard (v : BuildVars) : BuildVars :=
  mkVars (b_scope v) (b_args v) (b_env v) (b_workdir v) (b_shell v) (S (b_guards v)).

Definition exec_copy (t : StageTable) (v : BuildVars) (src : list bytes) (dest : bytes) (from chown chmod : option bytes) : IO (option BuildVars) :=
  meta ← lift (copy_meta_parse chown chmod);
  dest ← interp v dest;
  match from with
  | Some from_ref =>
      from_ref ← interp v from_ref;
      d ← lift (stage_resolve t from_ref);
      done ← with_guard (b_guards v) (fun stage =>
        _ ← materialize_from_digest stage d;
        sources ← resolve_sources_in stage v src (str "COPY --from") true;
        place_sources unpack work_dir sources dest meta false None);
      mret (_ ← done; Some (next_guard v))
  | None =>
      sources ← resolve_sources v src (str "COPY");
      done ← place_sources unpack work_dir sources dest meta false ctx_filter;
      mret (_ ← done; Some v)
  end.

Definition fetch_into (url : bytes) (dir : path) : IO path :=
  name ← lift (url_file_name url);
  let target := join dir name in
  match http_get url with
  | HttpStatus status text => throw (Registry status (str "ADD " ++ url ++ str ": " ++ text))
  | HttpTransport => throw (Io OtherKind)
  | HttpBroken received =>
      _ ← file_create target;
      _ ← write_all target received;
      throw (Io OtherKind)
  | HttpBody body =>
      _ ← file_create target;
      _ ← write_all target (take (Z.to_nat (MAX_ADD_URL_BYTES + 1)) body);
      if (MAX_ADD_URL_BYTES <? Z.of_nat (length body))%Z then
        _ ← ignore (remove_file target);
        throw (InvalidManifest (str "ADD " ++ url ++ str ": body exceeds the limit"))
      else mret target
  end.

(** The URLs, interpolated, and the other tokens as they are. *)
Definition split_tokens (v : BuildVars) (src : list bytes) : IO (list bytes * list bytes) :=
  ts ← interps v src;
  mret (List.filter is_remote ts, (fun ts => ts.1) <$> List.filter (fun ts => negb (is_remote ts.2)) (zip src ts)).

Definition add_urls (v : BuildVars) (urls : list bytes) (dest : bytes) (meta : CopyMeta) : IO (option BuildVars) :=
  match urls with
  | [] => mret (Some v)
  | _ =>
      done ← with_guard (b_guards v) (fun dl =>
        fetched ← map_io (fun url => fetch_into url dl) urls;
        place_sources unpack work_dir fetched dest meta false None);
      mret (_ ← done; Some (next_guard v))
  end.

Definition add_locals (v : BuildVars) (tokens : list bytes) (dest : bytes) (meta : CopyMeta) : IO (option BuildVars) :=
  match tokens with
  | [] => mret (Some v)
  | _ =>
      sources ← resolve_sources v tokens (str "ADD");
      done ← place_sources unpack work_dir sources dest meta true ctx_filter;
      mret (_ ← done; Some v)
  end.

Definition exec_add (v : BuildVars) (src : list bytes) (dest : bytes) (chown chmod : option bytes) : IO (option BuildVars) :=
  meta ← lift (copy_meta_parse chown chmod);
  dest ← interp v dest;
  '(urls, locals) ← split_tokens v src;
  v1 ← add_urls v urls dest meta;
  match v1 with
  | Some v1 => add_locals v1 locals dest meta
  | None => mret None
  end.

(** ** ENV, LABEL, ARG (exec_instr_env.rs) *)

(** Each value is interpolated in the scope the pairs before it have made. *)
Fixpoint env_pairs (v : BuildVars) (pairs : list (bytes * bytes)) : IO BuildVars :=
  match pairs with
  | [] => mret v
  | (key, raw_val) :: pairs =>
      val ← interp v raw_val;
      env_pairs (mkVars (mkScope (args (b_scope v)) (<[key := val]> (env (b_scope v)))) (b_args v) (set_pair (b_env v) key val)
        (b_workdir v) (b_shell v) (b_guards v)) pairs
  end.

Definition set_env (l : list (bytes * bytes)) (c : ImageConfig) : ImageConfig :=
  mkImageConfig (ic_entrypoint c) (ic_cmd c) l (ic_workdir c) (ic_user c) (ic_expose c) (ic_volume c) (ic_labels c) (ic_healthcheck c) (ic_stop_signal c) (ic_shell c) (ic_onbuild c).

Definition exec_env (v : BuildVars) (pairs : list (bytes * bytes)) : IO BuildVars :=
  v1 ← env_pairs v pairs;
  _ ← record_config (set_env (b_env v1));
  mret v1.

Definition interp_pairs (v : BuildVars) (pairs : list (bytes * bytes)) : IO (list (bytes * bytes)) :=
  map_io (fun '(key, raw_val) => val ← interp v raw_val; mret (key, val)) pairs.

Definition add_labels (pairs : list (bytes * bytes)) (c : ImageConfig) : ImageConfig :=
  mkImageConfig (ic_entrypoint c) (ic_cmd c) (ic_env c) (ic_workdir c) (ic_user c) (ic_expose c) (ic_volume c)
    (foldl (fun l '(k, x) => set_pair l k x) (ic_labels c) pairs) (ic_healthcheck c) (ic_stop_signal c) (ic_shell c) (ic_onbuild c).

Definition exec_label (v : BuildVars) (pairs : list (bytes * bytes)) : IO BuildVars :=
  cfg ← config_load from_json work_dir;
  pairs ← interp_pairs v pairs;
  _ ← config_save to_json (add_labels pairs cfg) work_dir;
  mret v.

Definition exec_arg (v : BuildVars) (i : Instr) : IO BuildVars :=
  let '(st, stage_args) := arg_sync (b_args v) i overrides (args (b_scope v)) in
  mret (mkVars (mkScope stage_args (env (b_scope v))) st (b_env v) (b_workdir v) (b_shell v) (b_guards v)).

(** ** The config records (exec_instr_cfg.rs) *)

Definition set_entrypoint (argv : list bytes) (c : ImageConfig) : ImageConfig :=
  mkImageConfig (Some argv) (ic_cmd c) (ic_env c) (ic_workdir c) (ic_user c) (ic_expose c) (ic_volume c) (ic_labels c) (ic_healthcheck c) (ic_stop_signal c) (ic_shell c) (ic_onbuild c).
Definition set_cmd (argv : list bytes) (c : ImageConfig) : ImageConfig :=
  mkImageConfig (ic_entrypoint c) (Some argv) (ic_env c) (ic_workdir c) (ic_user c) (ic_expose c) (ic_volume c) (ic_labels c) (ic_healthcheck c) (ic_stop_signal c) (ic_shell c) (ic_onbuild c).
Definition set_workdir (p : bytes) (c : ImageConfig) : ImageConfig :=
  mkImageConfig (ic_entrypoint c) (ic_cmd c) (ic_env c) (Some p) (ic_user c) (ic_expose c) (ic_volume c) (ic_labels c) (ic_healthcheck c) (ic_stop_signal c) (ic_shell c) (ic_onbuild c).
Definition set_user (u : bytes) (c : ImageConfig) : ImageConfig :=
  mkImageConfig (ic_entrypoint c) (ic_cmd c) (ic_env c) (ic_workdir c) (Some u) (ic_expose c) (ic_volume c) (ic_labels c) (ic_healthcheck c) (ic_stop_signal c) (ic_shell c) (ic_onbuild c).
Definition add_expose (ps : list bytes) (c : ImageConfig) : ImageConfig :=
  mkImageConfig (ic_entrypoint c) (ic_cmd c) (ic_env c) (ic_workdir c) (ic_user c) (foldl push_new (ic_expose c) ps) (ic_volume c) (ic_labels c) (ic_healthcheck c) (ic_stop_signal c) (ic_shell c) (ic_onbuild c).
Definition add_volume (ps : list bytes) (c : ImageConfig) : ImageConfig :=
  mkImageConfig (ic_entrypoint c) (ic_cmd c) (ic_env c) (ic_workdir c) (ic_user c) (ic_expose c) (foldl push_new (ic_volume c) ps) (ic_labels c) (ic_healthcheck c) (ic_stop_signal c) (ic_shell c) (ic_onbuild c).
Definition set_healthcheck (h : ImageHealthcheck) (c : ImageConfig) : ImageConfig :=
  mkImageConfig (ic_entrypoint c) (ic_cmd c) (ic_env c) (ic_workdir c) (ic_user c) (ic_expose c) (ic_volume c) (ic_labels c) (Some h) (ic_stop_signal c) (ic_shell c) (ic_onbuild c).
Definition set_stop_signal (s : bytes) (c : ImageConfig) : ImageConfig :=
  mkImageConfig (ic_entrypoint c) (ic_cmd c) (ic_env c) (ic_workdir c) (ic_user c) (ic_expose c) (ic_volume c) (ic_labels c) (ic_healthcheck c) (Some s) (ic_shell c) (ic_onbuild c).
Definition add_onbuild (t : bytes) (c : ImageConfig) : ImageConfig :=
  mkImageConfig (ic_entrypoint c) (ic_cmd c) (ic_env c) (ic_workdir c) (ic_user c) (ic_expose c) (ic_volume c) (ic_labels c) (ic_healthcheck c) (ic_stop_signal c) (ic_shell c) (ic_onbuild c ++ [t]).

Definition exec_entrypoint (v : BuildVars) (argv : list bytes) : IO BuildVars :=
  argv ← interps v argv; _ ← record_config (set_entrypoint argv); mret v.

Definition exec_user (v : BuildVars) (user : bytes) : IO BuildVars :=
  user ← interp v user; _ ← record_config (set_user user); mret v.

Definition exec_expose (v : BuildVars) (ports : list bytes) : IO BuildVars :=
  cfg ← config_load from_json work_dir;
  ports ← map_io (interp v) ports;
  _ ← config_save to_json (add_expose ports cfg) work_dir;
  mret v.

Definition exec_stopsignal (v : BuildVars) (signal : bytes) : IO BuildVars :=
  signal ← interp v signal; _ ← record_config (set_stop_signal signal); mret v.

Definition exec_volume (v : BuildVars) (paths : list bytes) : IO BuildVars :=
  cfg ← config_load from_json work_dir;
  paths ← map_io (interp v) paths;
  _ ← config_save to_json (add_volume paths cfg) work_dir;
  mret v.

Definition exec_workdir (v : BuildVars) (p : bytes) : IO BuildVars :=
  p ← interp v p;
  _ ← create_dir_all (work_dir ++ components p);
  _ ← record_config (set_workdir p);
  mret (mkVars (b_scope v) (b_args v) (b_env v) p (b_shell v) (b_guards v)).

Definition exec_cmd (v : BuildVars) (argv : list bytes) : IO BuildVars :=
  argv ← interps v argv; _ ← record_config (set_cmd argv); mret v.

Definition image_healthcheck (check : Healthcheck) : ImageHealthcheck :=
  match check with
  | HcNone => mkImageHealthcheck [str "NONE"] None None None None
  | HcCmd opts cmd =>
      let test := match cmd with Exec argv => str "CMD" :: argv | Shell s => [str "CMD-SHELL"; s] end in
      mkImageHealthcheck test (interval opts) (timeout opts) (start_period opts) (retries opts)
  end.

Definition exec_healthcheck (v : BuildVars) (check : Healthcheck) : IO BuildVars :=
  _ ← record_config (set_healthcheck (image_healthcheck check)); mret v.

Definition exec_onbuild (v : BuildVars) (trigger : bytes) : IO BuildVars :=
  _ ← record_config (add_onbuild trigger); mret v.

(** ** The dispatch of the loop *)

Definition dispatch (t : StageTable) (v : BuildVars) (step : BuildStep) : IO (option BuildVars) :=
  let ok (m : IO BuildVars) : IO (option BuildVars) := v ← m; mret (Some v) in
  match instr step with
  | From image_ref _ _ => ok (exec_from v (instr step) image_ref)
  | Run _ form => ok (exec_run v form)
  | Copy src dest from chown chmod => exec_copy t v src dest from chown chmod
  | Add src dest chown chmod => exec_add v src dest chown chmod
  | Env pairs => ok (exec_env v pairs)
  | Workdir p => ok (exec_workdir v p)
  | Cmd argv _ => ok (exec_cmd v argv)
  | Entrypoint argv _ => ok (exec_entrypoint v argv)
  | User user => ok (exec_user v user)
  | Expose ports => ok (exec_expose v ports)
  | Stopsignal signal => ok (exec_stopsignal v signal)
  | Volume paths => ok (exec_volume v paths)
  | Label pairs => ok (exec_label v pairs)
  | Arg _ _ => ok (exec_arg v (instr step))
  | ShellI shell => ok (exec_shell v shell)
  | HealthcheckI check => ok (exec_healthcheck v check)
  | Onbuild _ => ok (exec_onbuild v (onbuild_trigger (raw step)))
  end.

(** * The loop (exec.rs) *)

(** What a cached layer leaves: the variables are derived again from the layer's config and
    from the instruction. *)
Definition replay_vars (v : BuildVars) (i : Instr) (layer_env : list (bytes * bytes)) : Result BuildVars :=
  let '(st, stage_args) := arg_sync (b_args v) i overrides (args (b_scope v)) in
  let scope := mkScope stage_args (collect_pairs layer_env) in
  workdir ← match i with Workdir p => interpolate p scope escape | _ => Ok (b_workdir v) end;
  shell ← match i with
          | From _ _ _ => Ok default_shell
          | ShellI shell => interp_vec shell scope escape
          | _ => Ok (b_shell v)
          end;
  Ok (mkVars scope st layer_env workdir shell (b_guards v)).

Definition replay_layer (v : BuildVars) (i : Instr) (cached_root : digest) : IO BuildVars :=
  _ ← materialize_from_digest work_dir cached_root;
  cfg ← config_load from_json work_dir;
  lift (replay_vars v i (ic_env cfg)).

(** A FROM ends the stage before it and starts one; [true] when the ended stage is the
    target. *)
Definition enter_from (target_lc : option bytes) (l : Loop) (platform stage : option bytes) : Result (Loop * bool) :=
  let ended := stage_in_progress l in
  let stages := match prev_layer_root l with
                | Some d => if ended then stage_record (stages l) (current_stage_name l) d else stages l
                | None => stages l
                end in
  let prev := if ended then None else prev_layer_root l in
  let reached := match target_lc, current_stage_name l with
                 | Some want, Some done => ended && eq_ignore_ascii_case done want
                 | _, _ => false
                 end in
  if reached then
    Ok (mkLoop (l_vars l) prev (cached_steps l) (total l - 1) stages (current_stage_name l) ended (active_platform l), true)
  else
    flag ← match platform with
           | Some p => p ← interpolate p (b_scope (l_vars l)) escape; Ok (Some p)
           | None => Ok None
           end;
    Ok (mkLoop (l_vars l) prev (cached_steps l) (total l) stages stage true (resolve_platform ARCH flag), false).

Definition stage_boundary (target_lc : option bytes) (l : Loop) (i : Instr) : Result (Loop * bool) :=
  match i with
  | From _ platform stage => enter_from target_lc l platform stage
  | _ => Ok (l, false)
  end.

Definition count_step (l : Loop) : Loop :=
  mkLoop (l_vars l) (prev_layer_root l) (cached_steps l) (total l + 1) (stages l) (current_stage_name l) (stage_in_progress l) (active_platform l).

(** A layer is done: replayed ([cached] is 1) or made. *)
Definition layer_done (l : Loop) (v : BuildVars) (d : digest) (cached : Z) : Loop :=
  mkLoop v (Some d) (cached_steps l + cached) (total l) (stages l) (current_stage_name l) (stage_in_progress l) (active_platform l).

Definition source_stage (l : Loop) (i : Instr) : Result (option digest) :=
  match i with
  | Copy _ _ (Some from) _ _ =>
      from ← interpolate from (b_scope (l_vars l)) escape;
      d ← stage_resolve (stages l) from;
      Ok (Some d)
  | _ => Ok None
  end.

Definition make_layer (name : bytes) (l : Loop) (step : BuildStep) (key : digest) : IO turn :=
  o ← dispatch (stages l) (l_vars l) step;
  match o with
  | None => mret Panic
  | Some v =>
      fs ← get_fs;
      snap ← snapshot root rung work_dir (walk fs work_dir) (env_of work_dir) name (clock (total l)) version;
      _ ← ac_put root key (sr_root snap);
      mret (Next (layer_done l v (sr_root snap) 0))
  end.

Definition build_step (name : bytes) (target_lc : option bytes) (l : Loop) (step : BuildStep) : IO turn :=
  '(l, reached) ← lift (stage_boundary target_lc (count_step l) (instr step));
  if (reached : bool) then mret (Stop l) else
  from_stage ← lift (source_stage l (instr step));
  key ← step_key context_dir ign (prev_layer_root l) step (b_scope (l_vars l)) escape (b_shell (l_vars l)) from_stage (active_platform l);
  cached ← ac_get root key;
  match cached with
  | Some d =>
      if bool_decide (length d = 32) then
        v ← replay_layer (l_vars l) (instr step) d;
        mret (Next (layer_done l v d 1))
      else make_layer name l step key
  | None => make_layer name l step key
  end.

Fixpoint build_steps (name : bytes) (target_lc : option bytes) (l : Loop) (steps : list BuildStep) : IO (option Loop) :=
  match steps with
  | [] => mret (Some l)
  | step :: steps =>
      t ← build_step name target_lc l step;
      match t with
      | Next l => build_steps name target_lc l steps
      | Stop l => mret (Some l)
      | Panic => mret None
      end
  end.

(** The stage in progress is recorded, and the root of the report chosen. *)
Definition last_stages (l : Loop) : StageTable :=
  match prev_layer_root l with
  | Some d => if stage_in_progress l then stage_record (stages l) (current_stage_name l) d else stages l
  | None => stages l
  end.

Definition final_root (target_lc : option bytes) (l : Loop) : Result digest :=
  match target_lc with
  | Some want => stage_resolve (last_stages l) want
  | None => ok_or (prev_layer_root l) (InvalidManifest (str "empty Dockerfile"))
  end.

End instructions.

Definition vars_start : BuildVars := mkVars (mkScope ∅ ∅) arg_state_default [] (str "/") default_shell 1.

Definition loop_start : Loop := mkLoop vars_start None 0 0 stages_default None false (host_platform ARCH).

Definition read_text (p : path) : IO bytes :=
  bs ← read p;
  if utf8_valid bs then mret bs else throw (Io InvalidData).

Definition load_ignore (context_dir : path) : IO DockerIgnore :=
  r ← try_ (read_text (context_dir ++ [str ".dockerignore"]));
  mret (DockerIgnore.load (match r with Ok t => Some t | Err _ => None end)).

(** The directory 0 is the work directory. *)
Definition build_target (context_dir dockerfile : path) (name : bytes) (build_args : list (bytes * bytes)) (target : option bytes) :
    IO (option BuildReport) :=
  let overrides := overrides_from_pairs build_args in
  ign ← load_ignore context_dir;
  text ← read_text dockerfile;
  '(directives, steps) ← lift (parse_dockerfile_full json_array text);
  let escape := bool_decide (default [x5c] (escape directives) = [x5c]) in
  target_lc ← lift (validate_target target steps);
  with_guard 0 (fun work_dir =>
    o ← build_steps context_dir work_dir ign escape overrides name target_lc loop_start steps;
    match o with
    | None => mret None
    | Some l =>
        d ← lift (final_root target_lc l);
        mret (Some (mkBuildReport name d (total l) (cached_steps l)))
    end).

Definition build (context_dir dockerfile : path) (name : bytes) (build_args : list (bytes * bytes)) : IO (option BuildReport) :=
  build_target context_dir dockerfile name build_args None.

End build.
