(* ===== verification/BuildLaw.v ===== *)
(** What holds of a build: a replayed layer leaves the build in the state that making it did,
    and [--target] builds the stages up to the one it names and no further. *)

From S2P Require Import Prelude Text Error Cursor Digest Manifest RefRecord Fs FsFacts OwnedTemp Calm Cas Layout Refs Ac ImgMeta IndexCodec Scan Hydrate Snapshot Memo DockerIgnore Vars Dockerfile BuildCfg BuildKey BuildExec.

(** * Runs without failures stay so *)

Definition calm : relation World := fun w w' => w_faults w = [] -> w_faults w' = [].

#[export] Instance calm_preorder : PreOrder calm.
Proof. split; unfold calm; [by intros ?|intros ? ? ? H1 H2 H; auto]. Qed.

Lemma calm_sys {A : Type} (f : gmap path node -> Result A * gmap path node) part : keeps calm (sys f part).
Proof. intros w Hw. unfold sys. rewrite Hw. by destruct (f (w_fs w)) as [[a|e] fs]. Qed.

Lemma calm_sys0 {A : Type} (f : gmap path node -> Result A * gmap path node) : keeps calm (sys0 f).
Proof. apply calm_sys. Qed.

#[export] Hint Resolve calm_sys calm_sys0 : keeps.

Lemma calm_create_dir_all p : keeps calm (create_dir_all p).
Proof.
unfold create_dir_all. generalize (@nil bytes). induction p as [|c p IH]; intros base; cbn [mkdir_below]; [solve_keeps|].
unfold mkdir. solve_keeps.
Qed.

#[export] Hint Resolve calm_create_dir_all : keeps.

(** The file-system calls of the build, down to single calls. *)
Ltac calm_calls :=
  cbv beta zeta delta [read read_dir file_create write_all set_permissions remove_file remove_dir_all copy_file symlink mkdir sync open_read
    clone_into cow_reflink cow_copy_range try_cow_at_rung create_parent cow_or_copy cow_copy_file set_mode of_file
    get_bytes materialize_file ref_get check_dest make_dirs put_file_entry put_symlink hydrate hydrate_impl image_manifest_get
    validate_against_base clear_dir put_entry materialize_from_digest config_load config_save];
  solve_keeps.

Lemma calm_hydrate `{B3 : Blake3} root rung dest name : keeps calm (hydrate root rung dest name).
Proof. calm_calls. Qed.

Lemma calm_clear_dir p : keeps calm (clear_dir p).
Proof. calm_calls. Qed.

Lemma calm_validate `{B3 : Blake3} root image_ref requested : keeps calm (validate_against_base root image_ref requested).
Proof. calm_calls. Qed.

Lemma calm_materialize `{B3 : Blake3} root rung dest d : keeps calm (materialize_from_digest root rung dest d).
Proof. calm_calls. Qed.

Lemma create_dir_all_files p : keeps (on_fs (fun fs fs' => forall q, file_at fs' q = file_at fs q)) (create_dir_all p).
Proof.
assert (PreOrder (fun fs fs' : gmap path node => forall q, file_at fs' q = file_at fs q)) by (split; [done|intros ? ? ? H1 H2 q; by rewrite H2]).
unfold create_dir_all. generalize (@nil bytes). induction p as [|c p IH]; intros base; cbn [mkdir_below]; [solve_keeps|].
solve_keeps. apply keeps_sys0; [done|]. intros fs. unfold io_err. case_match eqn:E; [done|]. case_match; [|done].
intros q. cbn [snd]. rewrite file_at_insert. case_decide as Hq; [|done]. subst q. unfold file_at. by rewrite E.
Qed.

(** * The environment of a layer *)

Lemma collect_snoc l k x : collect_pairs (l ++ [(k, x)]) = <[k := x]> (collect_pairs l).
Proof. unfold collect_pairs. by rewrite foldl_app. Qed.

(** The last pair of a key decides. *)
Lemma collect_filter l k : delete k (collect_pairs (List.filter (fun kv => negb (bool_decide (kv.1 = k))) l)) = delete k (collect_pairs l).
Proof.
induction l as [|[k' x] l IH] using rev_ind; [done|]. rewrite List.filter_app. cbn [List.filter fst].
case_bool_decide as E; cbn [negb]; rewrite ?app_nil_r, ?collect_snoc.
- subst k'. by rewrite delete_insert_eq, IH.
- by rewrite !(delete_insert_ne _ k k'), IH by done.
Qed.

(** [retain] and [push] set the key. *)
Lemma collect_set_pair l k x : collect_pairs (set_pair l k x) = <[k := x]> (collect_pairs l).
Proof.
unfold set_pair. rewrite collect_snoc. rewrite <- (insert_delete_eq (collect_pairs l)), <- collect_filter. by rewrite insert_delete_eq.
Qed.

Section replay.
Context `{B3 : Blake3} (root : path) (rung : CowRung).
Context (to_json : ImageConfig -> option bytes) (from_json : bytes -> option ImageConfig).
Context (Hjson : forall c bs, to_json c = Some bs -> from_json bs = Some c).
Context (unpack : ArchiveKind -> bytes -> path -> IO unit) (http_get : bytes -> HttpReply).
Context (exec : path -> list bytes -> list (bytes * bytes) -> IO Z) (temp : nat -> path).
Context (context_dir work_dir : path) (ign : DockerIgnore) (escape : bool) (overrides : ArgOverrides).

Definition sidecar : path := work_dir ++ [IMAGE_CONFIG_FILE].

(** The config in the work directory. *)
Definition config_at (fs : gmap path node) : ImageConfig :=
  config_of from_json (match file_at fs sidecar with Some bs => Ok bs | None => Err (Io NotFoundKind) end).

(** The environment in memory is the one in the config file, and the scope is made of it. *)
Definition tracked (v : BuildVars) (fs : gmap path node) : Prop :=
  env (b_scope v) = collect_pairs (b_env v) /\ ic_env (config_at fs) = b_env v.

Definition with_guards (n : nat) (v : BuildVars) : BuildVars :=
  mkVars (b_scope v) (b_args v) (b_env v) (b_workdir v) (b_shell v) n.

(** RUN, COPY and ADD can write any file of the image. *)
Definition writes_files (i : Instr) : bool := match i with Run _ _ | Copy _ _ _ _ _ | Add _ _ _ _ => true | _ => false end.

Lemma config_load_calm w : w_faults w = [] ->
  exists w1, config_load from_json work_dir w = (Ret (config_at (w_fs w)), w1) /\ w_fs w1 = w_fs w /\ w_faults w1 = [].
Proof.
intros Hw. unfold config_load, config_at, sidecar. cbv [mbind IO_mbind try_ read sys0 sys]. rewrite Hw. unfold file_at.
destruct (w_fs w !! (work_dir ++ [IMAGE_CONFIG_FILE])) as [[c m| |t]|]; eexists; repeat split; done.
Qed.

Lemma config_save_ret cfg w u w' : config_save to_json cfg work_dir w = (Ret u, w') -> config_at (w_fs w') = cfg.
Proof.
unfold config_save. intros (bs & w1 & E1 & H)%bind_ret. apply bind_ret in H as (? & w2 & E2 & H).
apply sys_ret in E2, H. fold sidecar in *.
destruct (to_json cfg) as [bs'|] eqn:Ej; cbn [ok_or lift] in E1; [|discriminate]. injection E1 as <- <-.
injection H as _ H. unfold config_at. rewrite <- H. unfold append_at.
assert (exists m, w_fs w2 !! sidecar = Some (NFile [] m)) as [m Em].
{ unfold io_err in E2. repeat case_match; try discriminate; injection E2 as _ <-; rewrite lookup_insert_eq; eauto. }
rewrite Em. unfold file_at. rewrite lookup_insert_eq. cbn [app config_of]. by rewrite (Hjson _ _ Ej).
Qed.

Lemma record_config_ret f w u w' : w_faults w = [] -> record_config to_json from_json work_dir f w = (Ret u, w') ->
  config_at (w_fs w') = f (config_at (w_fs w)).
Proof.
intros Hw. unfold record_config. intros (cfg & w1 & E & H)%bind_ret. destruct (config_load_calm w Hw) as (w2 & E2 & _). rewrite E2 in E. injection E as <- <-.
by apply config_save_ret in H.
Qed.

(** ** What each instruction does to the variables and the config *)

Local Abbreviation replayed v i fs := (replay_vars escape overrides v i (ic_env (config_at fs))).

(** An instruction that changes neither. *)
Lemma replay_same v i fs :
  env (b_scope v) = collect_pairs (b_env v) -> ic_env (config_at fs) = b_env v ->
  match i with From _ _ _ | Arg _ _ | Workdir _ | ShellI _ => False | _ => True end ->
  replayed v i fs = Ok v.
Proof.
intros Hs He Hi. unfold replay_vars. rewrite He, <- Hs. by destruct v as [[]], i.
Qed.

Lemma env_pairs_ret pairs : forall v w v1 w1,
  env_pairs escape v pairs w = (Ret v1, w1) -> env (b_scope v) = collect_pairs (b_env v) ->
  w1 = w /\ env (b_scope v1) = collect_pairs (b_env v1) /\
  v1 = mkVars (mkScope (args (b_scope v)) (env (b_scope v1))) (b_args v) (b_env v1) (b_workdir v) (b_shell v) (b_guards v).
Proof.
induction pairs as [|[k r] pairs IH]; intros v w v1 w1; cbn [env_pairs].
- intros [= <- <-] Hs. destruct v as [[]]. by cbn in *.
- intros (x & w2 & E & H)%bind_ret Hs. unfold interp in E. destruct (interpolate r (b_scope v) escape); [|discriminate]. injection E as <- <-.
  apply IH in H; cbn in *; [done|]. by rewrite collect_set_pair, Hs.
Qed.

Lemma exec_env_replay v pairs w v1 w' :
  w_faults w = [] -> tracked v (w_fs w) -> exec_env to_json from_json work_dir escape v pairs w = (Ret v1, w') ->
  tracked v1 (w_fs w') /\ replayed v (Env pairs) (w_fs w') = Ok v1.
Proof.
intros Hw [Hs He] H. unfold exec_env in H. apply bind_ret in H as (v2 & w1 & E & H). apply bind_ret in H as (u & w2 & E2 & [= <- <-]).
apply env_pairs_ret in E as (-> & Hs2 & Hv); [|done]. apply record_config_ret in E2; [|done].
assert (ic_env (config_at (w_fs w2)) = b_env v2) as He2 by by rewrite E2. split; [by split|].
unfold replay_vars. rewrite He2, <- Hs2. cbn. by rewrite <- Hv.
Qed.

Lemma exec_workdir_replay v p w v1 w' :
  w_faults w = [] -> tracked v (w_fs w) -> exec_workdir to_json from_json work_dir escape v p w = (Ret v1, w') ->
  tracked v1 (w_fs w') /\ replayed v (Workdir p) (w_fs w') = Ok v1.
Proof.
intros Hw [Hs He] H. unfold exec_workdir, interp in H. apply bind_ret in H as (x & w1 & E & H).
destruct (interpolate p (b_scope v) escape) as [x'|] eqn:Ei; [|discriminate]. injection E as <- <-.
apply bind_ret in H as (u & w2 & E2 & H). apply bind_ret in H as (u' & w3 & E3 & [= <- <-]).
pose proof (calm_create_dir_all (work_dir ++ components x') w Hw) as Hw2. pose proof (create_dir_all_files (work_dir ++ components x') w) as Hf.
rewrite E2 in Hw2, Hf. cbn [snd] in *. apply record_config_ret in E3; [|done].
assert (ic_env (config_at (w_fs w3)) = b_env v) as He3 by (rewrite E3; unfold config_at; rewrite Hf; exact He).
split; [by split|]. unfold replay_vars. rewrite He3, <- Hs. cbn. destruct v as [[]]. cbn in *. by rewrite Ei.
Qed.

Lemma exec_from_replay v image_ref platform stage w v1 w' :
  w_faults w = [] -> exec_from root rung from_json work_dir escape overrides v (From image_ref platform stage) image_ref w = (Ret v1, w') ->
  tracked v1 (w_fs w') /\ replayed v (From image_ref platform stage) (w_fs w') = Ok v1.
Proof.
intros Hw H. unfold exec_from, interp in H. apply bind_ret in H as (x & w1 & E & H).
destruct (interpolate image_ref (b_scope v) escape) as [x'|] eqn:Ei; [|discriminate]. injection E as <- <-.
apply bind_ret in H as (req & w1 & E & H). assert (w1 = w) as ->.
{ destruct platform as [p|]; [|by injection E]. apply bind_ret in E as (? & ? & E & [= _ ->]). by destruct (interpolate p (b_scope v) escape); [injection E|]. }
apply bind_ret in H as (u1 & w1 & E1 & H). apply bind_ret in H as (u2 & w2 & E2 & H). apply bind_ret in H as (u3 & w3 & E3 & H). apply bind_ret in H as (cfg & w4 & E4 & H).
pose proof (calm_validate root x' req w Hw) as H1. rewrite E1 in H1. pose proof (calm_clear_dir work_dir w1 H1) as H2. rewrite E2 in H2.
assert (w_faults w3 = []) as H3.
{ destruct (bool_decide (x' = str "scratch")); [by injection E3 as _ <-|]. apply bind_ret in E3 as (? & w5 & E5 & [= _ <-]).
  pose proof (calm_hydrate root rung work_dir x' w2 H2) as H5. by rewrite E5 in H5. }
destruct (config_load_calm w3 H3) as (w5 & E5 & Hf & _). rewrite E5 in E4. injection E4 as <- <-. cbn [arg_sync] in H. injection H as <- <-.
split; [split; [done|]|]; cbn; rewrite Hf; [done|]. by unfold replay_vars.
Qed.

(** COPY and ADD leave the variables. *)
Lemma exec_copy_vars t v src dest from chown chmod w v1 w' :
  exec_copy root rung unpack temp context_dir work_dir ign escape t v src dest from chown chmod w = (Ret (Some v1), w') -> v1 = with_guards (b_guards v1) v.
Proof.
unfold exec_copy. intros (meta & w1 & _ & H)%bind_ret. apply bind_ret in H as (d & w2 & _ & H). destruct from as [f|].
- apply bind_ret in H as (? & w3 & _ & H). apply bind_ret in H as (? & w4 & _ & H). apply bind_ret in H as ([[]|] & w5 & _ & [= <- _]). done.
- apply bind_ret in H as (? & w3 & _ & H). apply bind_ret in H as ([[]|] & w5 & _ & [= <- _]). by destruct v.
Qed.

Lemma exec_add_vars v src dest chown chmod w v1 w' :
  exec_add unpack http_get temp context_dir work_dir ign escape v src dest chown chmod w = (Ret (Some v1), w') -> v1 = with_guards (b_guards v1) v.
Proof.
unfold exec_add. intros (meta & w1 & _ & H)%bind_ret. apply bind_ret in H as (d & w2 & _ & H). apply bind_ret in H as ([urls locals] & w3 & _ & H).
apply bind_ret in H as (o & w4 & E & H). destruct o as [v2|]; [|discriminate].
assert (v2 = with_guards (b_guards v2) v) as Hv.
{ unfold add_urls in E. destruct urls; [injection E as <- _; by destruct v|]. by apply bind_ret in E as ([[]|] & w5 & _ & [= <- _]). }
unfold add_locals in H. destruct locals; [by injection H as <- _|]. apply bind_ret in H as (? & w5 & _ & H). by apply bind_ret in H as ([[]|] & w6 & _ & [= <- _]).
Qed.

(** The state after an instruction is the one its replay derives. *)
Definition agrees (v : BuildVars) (i : Instr) (v1 : BuildVars) (fs : gmap path node) : Prop :=
  tracked v1 fs /\ replayed v i fs = Ok (with_guards (b_guards v) v1).

Definition plain_instr (i : Instr) : bool := match i with From _ _ _ | Arg _ _ | Workdir _ | ShellI _ => false | _ => true end.

Lemma agrees_intro v i v1 fs : tracked v1 fs /\ replayed v i fs = Ok v1 -> b_guards v1 = b_guards v -> agrees v i v1 fs.
Proof. intros [H1 H2] Hg. split; [done|]. rewrite H2, <- Hg. by destruct v1. Qed.

Lemma agrees_plain v i n fs :
  env (b_scope v) = collect_pairs (b_env v) -> ic_env (config_at fs) = b_env v -> plain_instr i = true -> agrees v i (with_guards n v) fs.
Proof. intros Hs He Hi. split; [by split|]. rewrite replay_same; [by destruct v|done..|]. by destruct i. Qed.

Lemma agrees_plain_same v i fs :
  env (b_scope v) = collect_pairs (b_env v) -> ic_env (config_at fs) = b_env v -> plain_instr i = true -> agrees v i v fs.
Proof. intros Hs He Hi. pose proof (agrees_plain v i (b_guards v) fs Hs He Hi) as H. by destruct v. Qed.

(** The config is changed by [f], after something that leaves the file system. *)
Lemma agrees_record v i f w w' u :
  w_faults w = [] -> tracked v (w_fs w) -> plain_instr i = true -> (forall c, ic_env (f c) = ic_env c) ->
  record_config to_json from_json work_dir f w = (Ret u, w') -> agrees v i v (w_fs w').
Proof. intros Hw [Hs He] Hi Hf H. apply record_config_ret in H; [|done]. apply agrees_plain_same; [done| |done]. by rewrite H, Hf. Qed.

Lemma interp_ret v s w x w1 : interp escape v s w = (Ret x, w1) -> w1 = w.
Proof. unfold interp. by destruct (interpolate s (b_scope v) escape) as [y|e]; [intros [= _ <-]|]. Qed.

Lemma interps_ret v l w x w1 : interps escape v l w = (Ret x, w1) -> w1 = w.
Proof. unfold interps. by destruct (interp_vec l (b_scope v) escape) as [y|e]; [intros [= _ <-]|]. Qed.

Lemma map_interp_ret {A B : Type} (f : A -> IO B) l w x w1 :
  (forall a w y w1, f a w = (Ret y, w1) -> w1 = w) -> map_io f l w = (Ret x, w1) -> w1 = w.
Proof.
intros Hf. revert w x w1. induction l as [|a l IH]; intros w x w1; cbn [map_io]; [by intros [= _ <-]|].
intros (y & w2 & E & H)%bind_ret. apply Hf in E as ->. apply bind_ret in H as (ys & w3 & E & [= _ <-]). by apply IH in E.
Qed.

(** An argument is interpolated and recorded. *)
Lemma agrees_interp_record {A : Type} v i (m : IO A) (f : A -> ImageConfig -> ImageConfig) w w' v1 :
  w_faults w = [] -> tracked v (w_fs w) -> plain_instr i = true -> (forall x c, ic_env (f x c) = ic_env c) ->
  (forall w x w1, m w = (Ret x, w1) -> w1 = w) ->
  (x ← m; _ ← record_config to_json from_json work_dir (f x); mret v : IO BuildVars) w = (Ret v1, w') ->
  agrees v i v1 (w_fs w').
Proof.
intros Hw Ht Hi Hf Hm (x & w1 & E & H)%bind_ret. apply Hm in E as ->. apply bind_ret in H as (u & w2 & E & [= <- <-]).
eapply agrees_record; [done|done|done| |exact E]. intros c. apply Hf.
Qed.

(** The three that load, interpolate and save. *)
Lemma agrees_load_save {A : Type} v i (m : IO A) (f : A -> ImageConfig -> ImageConfig) w w' v1 :
  w_faults w = [] -> tracked v (w_fs w) -> plain_instr i = true -> (forall x c, ic_env (f x c) = ic_env c) ->
  (forall w x w1, m w = (Ret x, w1) -> w1 = w) ->
  (cfg ← config_load from_json work_dir; x ← m; _ ← config_save to_json (f x cfg) work_dir; mret v : IO BuildVars) w = (Ret v1, w') ->
  agrees v i v1 (w_fs w').
Proof.
intros Hw [Hs He] Hi Hf Hm (cfg & w1 & E & H)%bind_ret. destruct (config_load_calm w Hw) as (w2 & E2 & _). rewrite E2 in E. injection E as <- <-.
apply bind_ret in H as (x & w3 & _ & H). apply bind_ret in H as (u & w4 & E & [= <- <-]). apply config_save_ret in E.
apply agrees_plain_same; [done| |done]. by rewrite E, Hf.
Qed.

(** What a step leaves in the variables and in the config file. *)
Lemma dispatch_replay t v step w v1 w' :
  w_faults w = [] -> tracked v (w_fs w) -> dispatch root rung to_json from_json unpack http_get exec temp context_dir work_dir ign escape overrides t v step w = (Ret (Some v1), w') ->
  (writes_files (instr step) = true -> file_at (w_fs w') sidecar = file_at (w_fs w) sidecar) ->
  agrees v (instr step) v1 (w_fs w').
Proof.
intros Hw Ht H Hk. destruct Ht as [Hs He] eqn:Et. clear Et.
assert (writes_files (instr step) = true -> ic_env (config_at (w_fs w')) = b_env v) as Hke by (intros Hi; unfold config_at; by rewrite Hk).
unfold dispatch in H. destruct (instr step) eqn:Hi; try (apply bind_ret in H as (x & w1 & E & [= -> ->])).
- apply agrees_intro; [by eapply exec_from_replay|]. unfold exec_from in E. repeat (apply bind_ret in E as (? & ? & _ & E)). by injection E as <- _.
- unfold exec_run in E. apply bind_ret in E as (av & w2 & _ & E). apply bind_ret in E as (cwd & w3 & _ & E). apply bind_ret in E as (code & w4 & _ & E).
  case_bool_decide; [|discriminate]. injection E as <- _. by apply agrees_plain_same; [|apply Hke|].
- by eapply (agrees_interp_record v _ (interps escape v argv) set_cmd); [..|intros ? ? ?; apply interps_ret|exact E].
- by eapply (agrees_interp_record v _ (interps escape v argv) set_entrypoint); [..|intros ? ? ?; apply interps_ret|exact E].
- eapply (agrees_load_save v (Label _) (interp_pairs escape v pairs) add_labels); [..|exact E]; try done. intros ? ? ?. apply map_interp_ret. intros [k r] ? ? ? (y & ? & Ey & [= _ <-])%bind_ret. by apply interp_ret in Ey.
- eapply (agrees_load_save v (Expose _) (map_io (interp escape v) ports) add_expose); [..|exact E]; try done. intros ? ? ?. apply map_interp_ret. intros. by eapply interp_ret.
- apply agrees_intro; [by eapply exec_env_replay|]. unfold exec_env in E. apply bind_ret in E as (v2 & w2 & E & H). apply bind_ret in H as (? & ? & _ & [= <- _]).
  apply env_pairs_ret in E as (_ & _ & ->); done.
- apply exec_add_vars in H as ->. by apply agrees_plain; [|apply Hke|].
- apply exec_copy_vars in H as ->. by apply agrees_plain; [|apply Hke|].
- eapply (agrees_load_save v (Volume _) (map_io (interp escape v) paths) add_volume); [..|exact E]; try done. intros ? ? ?. apply map_interp_ret. intros. by eapply interp_ret.
- by eapply (agrees_interp_record v _ (interp escape v user) set_user); [..|intros ? ? ?; apply interp_ret|exact E].
- apply agrees_intro; [by eapply exec_workdir_replay|]. unfold exec_workdir in E. repeat (apply bind_ret in E as (? & ? & _ & E)). by injection E as <- _.
- unfold exec_arg in E. destruct (arg_sync (b_args v) _ overrides (args (b_scope v))) as [st sargs] eqn:Ea. injection E as <- <-.
  apply agrees_intro; [|done]. split; [by split|]. unfold replay_vars. by rewrite Ea, He, <- Hs.
- apply bind_ret in E as (u & w2 & E & [= <- <-]). by eapply agrees_record; [done|done|done| |exact E].
- by eapply (agrees_interp_record v _ (interp escape v signal) set_stop_signal); [..|intros ? ? ?; apply interp_ret|exact E].
- apply bind_ret in E as (u & w2 & E & [= <- <-]). by eapply agrees_record; [done|done|done| |exact E].
- unfold exec_shell, interps in E. apply bind_ret in E as (sh & w2 & E & [= <- <-]). destruct (interp_vec shell (b_scope v) escape) as [sh'|] eqn:Es; [|discriminate].
  injection E as <- <-. apply agrees_intro; [|done]. split; [by split|]. unfold replay_vars. cbn [arg_sync]. rewrite He, <- Hs. cbn. destruct v as [[]]. cbn in *. by rewrite Es.
Qed.

End replay.

(** C11: a replayed layer leaves the build as making it did.  In a run without failures, with a
    JSON codec that reads back what it wrote: when an instruction is executed from variables
    that agree with the config file of the work directory, the variables after it agree with
    the config file after it; and when the same instruction is later answered from the cache,
    from the same variables, by a layer with that config, the replay derives exactly the
    variables of the execution: scope, ARG state, environment, working directory and shell.
    A RUN, COPY or ADD is assumed not to rewrite the config file itself. *)
Theorem replay_agrees `{B3 : Blake3} root rung to_json from_json unpack http_get exec temp context_dir work_dir ign escape overrides t v step w v1 w' :
  (forall c bs, to_json c = Some bs -> from_json bs = Some c) ->
  w_faults w = [] -> tracked from_json work_dir v (w_fs w) ->
  dispatch root rung to_json from_json unpack http_get exec temp context_dir work_dir ign escape overrides t v step w = (Ret (Some v1), w') ->
  (writes_files (instr step) = true -> file_at (w_fs w') (sidecar work_dir) = file_at (w_fs w) (sidecar work_dir)) ->
  tracked from_json work_dir v1 (w_fs w') /\
  forall d w2 w3, w_faults w2 = [] -> materialize_from_digest root rung work_dir d w2 = (Ret tt, w3) ->
    config_at from_json work_dir (w_fs w3) = config_at from_json work_dir (w_fs w') ->
    (replay_layer root rung from_json work_dir escape overrides v (instr step) d w2).1 = Ret (with_guards (b_guards v) v1).
Proof.
intros Hjson Hw Ht H Hk. eapply dispatch_replay in H as [H1 H2]; [|done..]. split; [done|]. intros d w2 w3 Hw2 Hm Hc.
unfold replay_layer. cbv [mbind IO_mbind]. rewrite Hm.
pose proof (calm_materialize root rung work_dir d w2 Hw2) as H3. rewrite Hm in H3.
destruct (config_load_calm from_json work_dir w3 H3) as (w4 & -> & _). by rewrite Hc, H2.
Qed.

(** * Stages *)

Definition stage_of (s : BuildStep) : option (option bytes) := match instr s with From _ _ st => Some st | _ => None end.
Definition stage_list (steps : list BuildStep) : list (option bytes) := omap stage_of steps.

(** The steps of the first [k] stages, with what comes before the first. *)
Fixpoint steps_of_stages (k : nat) (steps : list BuildStep) : nat :=
  match steps with
  | [] => 0
  | s :: steps =>
      match stage_of s, k with
      | Some _, O => 0
      | Some _, S k => S (steps_of_stages k steps)
      | None, k => S (steps_of_stages k steps)
      end
  end.

Definition is_named (want : bytes) (st : option bytes) : bool := match st with Some n => eq_ignore_ascii_case n want | None => false end.

(** The stage a build is for: the first of the target's name, or the last one. *)
Definition wanted (target_lc : option bytes) (ss : list (option bytes)) (k : nat) : Prop :=
  match target_lc with
  | Some want => (exists st, ss !! k = Some st /\ is_named want st = true) /\ Forall (fun st => is_named want st = false) (take k ss)
  | None => S k = length ss
  end.

Definition passes (target_lc : option bytes) (st : option bytes) : Prop := match target_lc with Some want => is_named want st = false | None => True end.

(** What the loop knows after the steps [done]. *)
Record at_steps (target_lc : option bytes) (done : list BuildStep) (l : Loop) : Prop := {
  as_total : total l = Z.of_nat (length done);
  as_progress : stage_in_progress l = bool_decide (stage_list done <> []);
  as_table : S (length (by_index (stages l))) = length (stage_list done) \/ (stage_list done = [] /\ by_index (stages l) = []);
  as_name : stage_list done <> [] -> last (stage_list done) = Some (current_stage_name l);
  as_prev : done <> [] -> is_Some (prev_layer_root l);
  as_passed : Forall (passes target_lc) (removelast (stage_list done));
}.

(** What a build that ends has: the wanted stage recorded last. *)
Definition ends_at (target_lc : option bytes) (steps : list BuildStep) (l : Loop) : Prop :=
  exists k d, wanted target_lc (stage_list steps) k /\ total l = Z.of_nat (steps_of_stages (S k) steps) /\
    length (by_index (last_stages l)) = S k /\ last (by_index (last_stages l)) = Some d /\
    match target_lc with
    | Some want => by_name (last_stages l) !! to_ascii_lowercase want = Some d
    | None => prev_layer_root l = Some d
    end.

Section stages.
Context `{B3 : Blake3} (root : path) (rung : CowRung).
Context (to_json : ImageConfig -> option bytes) (from_json : bytes -> option ImageConfig).
Context (unpack : ArchiveKind -> bytes -> path -> IO unit) (http_get : bytes -> HttpReply).
Context (exec : path -> list bytes -> list (bytes * bytes) -> IO Z).
Context (walk : gmap path node -> path -> list walk_item) (env_of : path -> index_env) (clock : Z -> Z) (version : bytes).
Context (ARCH : bytes) (temp : nat -> path).
Context (context_dir work_dir : path) (ign : DockerIgnore) (escape : bool) (overrides : ArgOverrides) (name : bytes) (target_lc : option bytes).

Local Abbreviation boundary := (stage_boundary ARCH escape target_lc).
Local Abbreviation step_of := (build_step root rung to_json from_json unpack http_get exec walk env_of clock version ARCH temp context_dir work_dir ign escape overrides name target_lc).
Local Abbreviation steps_of := (build_steps root rung to_json from_json unpack http_get exec walk env_of clock version ARCH temp context_dir work_dir ign escape overrides name target_lc).

(** A step passes the boundary and sets the layer, or ends the build at the boundary. *)
Lemma build_step_turn l step w o w' : step_of l step w = (Ret o, w') ->
  match o with
  | Next l1 => exists lb v d c, boundary (count_step l) (instr step) = Ok (lb, false) /\ l1 = layer_done lb v d c
  | Stop l1 => boundary (count_step l) (instr step) = Ok (l1, true)
  | Panic => True
  end.
Proof.
unfold build_step. intros ([lb reached] & w1 & E & H)%bind_ret.
destruct (boundary (count_step l) (instr step)) as [[lb' r']|]; [|discriminate]. injection E as -> -> ->.
destruct reached; [by injection H as <- _|]. apply bind_ret in H as (fsd & w2 & _ & H). apply bind_ret in H as (key & w3 & _ & H). apply bind_ret in H as (cached & w4 & _ & H).
assert (forall key, make_layer root rung to_json from_json unpack http_get exec walk env_of clock version temp context_dir work_dir ign escape overrides name lb step key w4 = (Ret o, w') ->
  match o with Next l1 => exists lb' v d c, Ok (lb, false) = Ok (lb', false) /\ l1 = layer_done lb' v d c | Stop l1 => False | Panic => True end) as Hmake.
{ unfold make_layer. intros k ([v|] & w5 & _ & H1)%bind_ret; [|by injection H1 as <- _].
  apply bind_ret in H1 as (fs & w6 & _ & H1). apply bind_ret in H1 as (snap & w7 & _ & H1). apply bind_ret in H1 as (? & w8 & _ & [= <- _]). eauto 6. }
destruct cached as [d|]; [destruct (bool_decide (length d = 32))|].
- apply bind_ret in H as (v & w5 & _ & [= <- _]). eauto 6.
- apply Hmake in H. by destruct o.
- apply Hmake in H. by destruct o.
Qed.

Lemma stage_list_snoc done s : stage_list (done ++ [s]) = stage_list done ++ match stage_of s with Some st => [st] | None => [] end.
Proof. unfold stage_list. rewrite omap_app. by destruct (stage_of s) eqn:E; cbn; rewrite E. Qed.

Lemma removelast_snoc {A} (l : list A) a : removelast (l ++ [a]) = l.
Proof. rewrite removelast_app by done. cbn. by rewrite app_nil_r. Qed.

Lemma forall_last {A} (P : A -> Prop) l a : last l = Some a -> Forall P (removelast l) -> P a -> Forall P l.
Proof. intros H. destruct l as [|b l _] using rev_ind; [done|]. rewrite last_snoc in H. injection H as ->. rewrite removelast_snoc, Forall_app. by repeat constructor. Qed.

(** The name the boundary compares. *)
Lemma passes_current l : (match target_lc, current_stage_name l with Some want, Some done => eq_ignore_ascii_case done want | _, _ => false end) = false ->
  passes target_lc (current_stage_name l).
Proof. unfold passes, is_named. by destruct target_lc, (current_stage_name l). Qed.

Lemma at_steps_next done l s lb v d c :
  at_steps target_lc done l -> boundary (count_step l) (instr s) = Ok (lb, false) -> at_steps target_lc (done ++ [s]) (layer_done lb v d c).
Proof.
intros [Ht Hp Htab Hn Hd Hpass] Hb. assert (Z.of_nat (length (done ++ [s])) = (total l + 1)%Z) as Hlen by (rewrite Ht, length_app; cbn; lia).
pose proof (stage_list_snoc done s) as Hss. unfold stage_of in Hss. unfold stage_boundary in Hb.
destruct (instr s) as [image platform stage| | | | | | | | | | | | | | | |] eqn:Ei;
  try (injection Hb as <-; rewrite app_nil_r in Hss; split; rewrite ?Hss; cbn; [lia|done|done|done|by eauto|done]).
unfold enter_from in Hb. cbn [stage_in_progress prev_layer_root count_step current_stage_name stages total] in Hb.
destruct (match target_lc, current_stage_name l with Some want, Some done => stage_in_progress l && eq_ignore_ascii_case done want | _, _ => false end) eqn:Er; [discriminate|].
assert (exists p, lb = mkLoop (l_vars l) (if stage_in_progress l then None else prev_layer_root l) (cached_steps l) (total l + 1)
  (match prev_layer_root l with Some d => if stage_in_progress l then stage_record (stages l) (current_stage_name l) d else stages l | None => stages l end) stage true p) as [p ->].
{ destruct platform as [p|]; [|injection Hb as <-; eauto]. cbn in Hb. destruct (interpolate p (b_scope (l_vars l)) escape); [|discriminate]. injection Hb as <-. eauto. }
clear Hb. destruct (decide (stage_list done = [])) as [E0|E0].
- rewrite E0 in *. rewrite bool_decide_false in Hp by tauto. rewrite Hp. destruct Htab as [|[_ Htab]]; [done|].
  split; rewrite ?Hss; cbn; [lia|done| |done|eauto|constructor]. left. destruct (prev_layer_root l); by rewrite Htab.
- rewrite bool_decide_true in Hp by done. rewrite Hp in *. destruct Htab as [Htab|[? _]]; [|done].
  assert (done <> []) as [d0 Hd0]%Hd by by intros ->. rewrite Hd0.
  assert (stage_list done ++ [stage] <> []) as Hne by by destruct (stage_list done).
  split; rewrite ?Hss; cbn.
  + lia.
  + by rewrite bool_decide_true.
  + left. rewrite !length_app. cbn. lia.
  + intros _. by rewrite last_snoc.
  + eauto.
  + rewrite removelast_snoc. eapply forall_last; [by apply Hn|done|]. by apply passes_current.
Qed.

(** The steps up to a FROM that is not among the first [k] stages. *)
Lemma steps_of_stages_from done s rest : is_Some (stage_of s) -> steps_of_stages (length (stage_list done)) (done ++ s :: rest) = length done.
Proof.
intros [st Hs]. unfold stage_list. induction done as [|a done IH]; cbn [app steps_of_stages omap list_omap length]; [by rewrite Hs|].
destruct (stage_of a); cbn [length]; by rewrite IH.
Qed.

Lemma steps_of_stages_all done : steps_of_stages (length (stage_list done)) done = length done.
Proof.
unfold stage_list. induction done as [|a done IH]; cbn [steps_of_stages omap list_omap length]; [done|]. destruct (stage_of a); cbn [length]; by rewrite IH.
Qed.

Lemma last_split {A} (l : list A) a : last l = Some a -> l = removelast l ++ [a].
Proof. intros H. destruct l as [|b l _] using rev_ind; [done|]. rewrite last_snoc in H. injection H as ->. by rewrite removelast_snoc. Qed.

Lemma wanted_last want ss n rest :
  last ss = Some (Some n) -> eq_ignore_ascii_case n want = true -> Forall (passes (Some want)) (removelast ss) -> wanted (Some want) (ss ++ rest) (pred (length ss)).
Proof.
intros Hl Hn Hp. apply last_split in Hl. set (front := removelast ss) in *. rewrite Hl, length_app, Nat.add_comm. cbn [length Nat.add pred]. rewrite <- app_assoc. split.
- exists (Some n). split; [by apply list_lookup_middle|done].
- rewrite take_app_length. by eapply Forall_impl.
Qed.

Lemma recorded_name t want n d : eq_ignore_ascii_case n want = true -> by_name (stage_record t (Some n) d) !! to_ascii_lowercase want = Some d.
Proof. intros H%bool_decide_eq_true. cbn. by rewrite H, lookup_insert_eq. Qed.

Lemma at_steps_stop done l s rest l1 :
  at_steps target_lc done l -> boundary (count_step l) (instr s) = Ok (l1, true) -> ends_at target_lc (done ++ s :: rest) l1.
Proof.
intros [Ht Hp Htab Hn Hd Hpass] Hb. unfold stage_boundary in Hb.
destruct (instr s) as [image platform stage| | | | | | | | | | | | | | | |] eqn:Ei; try discriminate.
unfold enter_from in Hb. cbn [stage_in_progress prev_layer_root count_step current_stage_name stages total] in Hb.
destruct target_lc as [want|]; [|by destruct platform as [p|]; cbn in Hb; [destruct (interpolate p (b_scope (l_vars l)) escape)|]].
destruct (current_stage_name l) as [n|] eqn:En; [|by destruct platform as [p|]; cbn in Hb; [destruct (interpolate p (b_scope (l_vars l)) escape)|]].
destruct (stage_in_progress l) eqn:Eprog; [|by destruct platform as [p|]; cbn in Hb; [destruct (interpolate p (b_scope (l_vars l)) escape)|]].
destruct (eq_ignore_ascii_case n want) eqn:Eq; cbn [andb] in Hb; [|by destruct platform as [p|]; cbn in Hb; [destruct (interpolate p (b_scope (l_vars l)) escape)|]].
symmetry in Hp. apply bool_decide_eq_true in Hp. destruct Htab as [Htab|[? _]]; [|done].
assert (done <> []) as [d Hd0]%Hd by by intros ->. rewrite Hd0 in Hb. injection Hb as <-.
exists (pred (length (stage_list done))), d. assert (S (pred (length (stage_list done))) = length (stage_list done)) as -> by (destruct (stage_list done); done).
unfold last_stages. cbn [prev_layer_root stages total].
split; [unfold stage_list at 1; rewrite omap_app; apply wanted_last with n; [by apply Hn|done..]|].
rewrite steps_of_stages_from by (unfold stage_of; rewrite Ei; eauto). split; [lia|]. cbn [by_index stage_record].
rewrite length_app, last_snoc. split; [cbn; lia|]. split; [done|]. by apply recorded_name.
Qed.

Lemma at_steps_end steps l : at_steps target_lc steps l -> stage_list steps <> [] ->
  (forall want, target_lc = Some want -> Exists (fun st => is_named want st = true) (stage_list steps)) -> ends_at target_lc steps l.
Proof.
intros [Ht Hp Htab Hn Hd Hpass] Hne Hex. rewrite bool_decide_true in Hp by done. destruct Htab as [Htab|[? _]]; [|done]. specialize (Hn Hne).
assert (steps <> []) as [d Hd0]%Hd by by intros ->.
exists (pred (length (stage_list steps))), d. assert (S (pred (length (stage_list steps))) = length (stage_list steps)) as Hlen by (destruct (stage_list steps); done).
unfold last_stages. rewrite Hd0, Hp, Hlen, steps_of_stages_all. cbn [by_index stage_record]. rewrite length_app, last_snoc.
assert (forall want, target_lc = Some want -> exists n, current_stage_name l = Some n /\ eq_ignore_ascii_case n want = true) as Hname.
{ intros want Hw. specialize (Hex _ Hw). rewrite Hw in Hpass. rewrite (last_split _ _ Hn), Exists_app in Hex. destruct Hex as [Hex|Hex].
  - apply Exists_exists in Hex as (st & Hin & Hst). rewrite Forall_forall in Hpass. apply Hpass in Hin. cbn in Hin. by rewrite Hst in Hin.
  - apply Exists_cons in Hex as [Hex|Hex]; [|by apply Exists_nil in Hex]. unfold is_named in Hex. destruct (current_stage_name l); [eauto|discriminate]. }
split; [|split; [done|split; [cbn; lia|split; [done|]]]]; destruct target_lc as [want|]; try done.
- destruct (Hname want eq_refl) as (n & En & Eq). rewrite En in Hn. pose proof (wanted_last want _ n [] Hn Eq Hpass) as H. by rewrite app_nil_r in H.
- destruct (Hname want eq_refl) as (n & -> & Eq). by apply recorded_name.
Qed.

Lemma build_steps_end steps : forall done l w l1 w', at_steps target_lc done l -> steps_of l steps w = (Ret (Some l1), w') ->
  stage_list (done ++ steps) <> [] -> (forall want, target_lc = Some want -> Exists (fun st => is_named want st = true) (stage_list (done ++ steps))) ->
  ends_at target_lc (done ++ steps) l1.
Proof.
induction steps as [|s steps IH]; intros done l w l1 w' Ha; cbn [build_steps].
- intros [= <- <-]. rewrite app_nil_r. by apply at_steps_end.
- intros (o & w1 & E & H)%bind_ret Hne Hex. apply build_step_turn in E. destruct o as [l2|l2|].
  + destruct E as (lb & v & d & c & Eb & ->). rewrite cons_middle, app_assoc in Hne, Hex |- *. eapply IH; [by eapply at_steps_next|done..].
  + injection H as <- _. by eapply at_steps_stop.
  + discriminate.
Qed.

End stages.

Lemma at_start ARCH target_lc : at_steps target_lc [] (loop_start ARCH).
Proof. split; [done|done|by right|done|done|constructor]. Qed.

Lemma validate_target_named target steps want :
  validate_target target steps = Ok (Some want) -> Exists (fun st => is_named want st = true) (stage_list steps).
Proof.
unfold validate_target. destruct target as [t|]; [|discriminate]. destruct (existsb _ _) eqn:E; [|discriminate]. intros [= <-].
apply existsb_exists in E as (n & Hin & Hn). apply Exists_exists. exists (Some n). split; [|done].
apply list_elem_of_In, list_elem_of_omap in Hin as (s & Hs & Hsn). apply list_elem_of_omap. exists s. split; [done|].
unfold stage_name_of in Hsn. unfold stage_of. by destruct (instr s) as [? ? [?|]| | | | | | | | | | | | | | | |]; simplify_eq.
Qed.

