(* ===== verification/BuildIgnore.v ===== *)
(** What the build context excludes is not in the key of a step: the hash of a source is a
    function of the nodes that are not excluded. *)

From S2P Require Import Prelude Text Error Cursor Digest Fs FsFacts OwnedTemp Calm Cas Layout Refs Hydrate Memo DockerIgnore Vars Dockerfile BuildCfg BuildKey.

Lemma bind_run {A B : Type} (m : IO A) (k : A -> IO B) w a w1 : m w = (Ret a, w1) -> (m ≫= k) w = k a w1.
Proof. cbv [mbind IO_mbind]. by intros ->. Qed.

(** * The order of paths *)

Definition path_le (a b : path) : Prop := path_leb a b = true.

#[export] Instance path_le_total : Total path_le.
Proof.
intros a. induction a as [|x a IH]; intros [|y b]; unfold path_le; cbn; [by left|by left|by right|].
rewrite (bytes_cmp_antisym x y). destruct (bytes_cmp x y) eqn:E; cbn; [apply IH|by left|by right].
Qed.

#[export] Instance path_le_trans : Transitive path_le.
Proof.
intros a. unfold path_le. induction a as [|x a IH]; intros [|y b] [|z c]; cbn; try done.
destruct (bytes_cmp x y) eqn:E1; [|destruct (bytes_cmp y z) eqn:E2|done]; try done.
- apply bytes_cmp_eq in E1 as ->. destruct (bytes_cmp y z); [apply IH|done..].
- apply bytes_cmp_eq in E2 as <-. by rewrite E1.
- by rewrite (bytes_lt_trans x y z E1 E2 : bytes_cmp x z = Lt).
Qed.

#[export] Instance path_le_antisym : AntiSymm (=) path_le.
Proof.
intros a. unfold path_le. induction a as [|x a IH]; intros [|y b]; cbn; try done.
rewrite (bytes_cmp_antisym x y). destruct (bytes_cmp x y) eqn:E; cbn; try done.
apply bytes_cmp_eq in E as ->. intros H1 H2. f_equal. by apply IH.
Qed.

(** Sorting forgets the order in which a directory was read. *)
Lemma sort_paths_unique (l1 l2 : list path) : l1 ≡ₚ l2 -> sort_by path_leb l1 = sort_by path_leb l2.
Proof.
intros H. apply (StronglySorted_unique path_le); [apply sort_by_sorted; [done|apply _..]|apply sort_by_sorted; [done|apply _..]|].
by rewrite !sort_by_perm.
Qed.

(** * Plain trees *)

(** A tree of directories, files and links whose names are no [..]. *)
Definition plain_tree (fs : gmap path node) : Prop := fs_wf fs /\ map_Forall (fun p _ => str ".." ∉ p) fs.

Lemma wf_above fs p q n : fs_wf fs -> fs !! (p ++ q) = Some n -> q <> [] -> fs !! p = Some NDir.
Proof.
intros [_ Hp]. revert n. induction q as [|c q IH] using rev_ind; intros n; [done|]. rewrite app_assoc. intros Hq%Hp _.
destruct (decide (q = [])) as [->|Hne]; [by rewrite app_nil_r in Hq|by apply (IH NDir)].
Qed.

(** A path of a tree has fewer components than the tree has nodes. *)
Lemma wf_length fs p : fs_wf fs -> is_Some (fs !! p) -> length p < size fs.
Proof.
intros Hwf [n Hn]. set (l := (fun i => take i p) <$> seq 0 (S (length p))).
assert (length l <= length (map_to_list fs).*1) as H.
{ apply submseteq_length, NoDup_submseteq.
  - apply NoDup_fmap_2_strong; [|apply NoDup_seq]. intros i j [_ Hi]%elem_of_seq [_ Hj]%elem_of_seq E. apply (f_equal length) in E. rewrite !length_take in E. lia.
  - intros q (i & -> & Hi)%list_elem_of_fmap. destruct (decide (drop i p = [])) as [E|E].
    + apply list_elem_of_fmap. exists (p, n). split; [|by apply elem_of_map_to_list]. cbn. rewrite <- (take_drop i p) at 2. by rewrite E, app_nil_r.
    + apply list_elem_of_fmap. exists (take i p, NDir). split; [done|]. apply elem_of_map_to_list. eapply wf_above; [done|by rewrite take_drop|done]. }
unfold l in H. rewrite !length_fmap, length_seq, length_map_to_list in H. lia.
Qed.

Lemma resolve_here links fs p n : plain_tree fs -> fs !! p = Some n -> (forall t, n <> NSymlink t) -> Memo.resolve links fs [] p = Ok p.
Proof.
intros [Hwf Hdd] Hp Hn. assert (str ".." ∉ p) as Hd by by apply (Hdd p n).
assert (forall rest at_, at_ ++ rest = p -> Memo.resolve links fs at_ rest = Ok p) as H; [|by apply H].
induction rest as [|c rest IH]; intros at_ E; [rewrite app_nil_r in E; subst; by destruct links|].
assert (c <> str "..") as Hc by (intros ->; apply Hd; rewrite <- E; set_solver).
assert (Memo.resolve links fs at_ (c :: rest) = match fs !! (at_ ++ [c]) with
  | Some NDir => Memo.resolve links fs (at_ ++ [c]) rest
  | Some (NFile _ _) => if bool_decide (length rest = 0) then Ok (at_ ++ [c]) else Err (Io NotADirectory)
  | x => Memo.resolve links fs at_ (c :: rest) end) as ->.
{ destruct links; cbn [Memo.resolve]; rewrite bool_decide_false by done; by repeat case_match. }
rewrite cons_middle, app_assoc in E. destruct rest as [|c' rest].
- rewrite app_nil_r in E. rewrite E, Hp. destruct n as [co m| |t]; [done| |by destruct (Hn t)]. apply IH. by rewrite app_nil_r.
- rewrite (wf_above fs (at_ ++ [c]) (c' :: rest) n); [by apply IH|done|by rewrite E|done].
Qed.

Lemma place_here fs p : plain_tree fs -> is_Some (fs !! p) -> lookup_place fs p = Ok p.
Proof.
intros Hpl [n Hn]. unfold lookup_place. destruct p as [|c p _] using rev_ind; [done|]. rewrite last_snoc.
rewrite bool_decide_false by (intros ->; apply (proj2 Hpl _ _ Hn); set_solver).
rewrite parent_snoc, (resolve_here _ fs p NDir); [done|done|by eapply (wf_above fs p [c] n (proj1 Hpl) Hn)|done].
Qed.

Lemma does_symlink_metadata fs p n : plain_tree fs -> fs !! p = Some n -> does (symlink_metadata p) fs (Ok (p, n)) fs.
Proof. intros Hpl Hn. apply does_sys0. rewrite place_here by eauto. by rewrite Hn. Qed.

Lemma does_read_dir_follow fs p : plain_tree fs -> fs !! p = Some NDir -> does (read_dir_follow p) fs (Ok (p, children fs p)) fs.
Proof. intros Hpl Hn. apply does_sys0. rewrite (resolve_here _ fs p NDir) by done. by rewrite Hn. Qed.

Lemma does_lstat fs p n : fs !! p = Some n -> does (lstat p) fs (Ok n) fs.
Proof. intros Hn. apply does_sys0. by rewrite Hn. Qed.

(** * What is hashed, as a function of the tree *)

(** The nodes below [p] are at most [n] levels deep. *)
Definition height (fs : gmap path node) (p : path) (n : nat) : Prop := forall q, is_Some (fs !! (p ++ q)) -> length q < n.

Lemma height_below fs p n q : height fs p (S n) -> q <> [] -> height fs (p ++ q) n.
Proof. intros H Hq r Hr. rewrite <- app_assoc in Hr. apply H in Hr. rewrite length_app in Hr. destruct q; [done|]. cbn in Hr. lia. Qed.

Fixpoint paths_below (fuel : nat) (fs : gmap path node) (dir : path) : list path :=
  match fuel with
  | O => []
  | S fuel => mjoin ((fun c => (dir ++ [c]) :: match fs !! (dir ++ [c]) with Some NDir => paths_below fuel fs (dir ++ [c]) | _ => [] end) <$> children fs dir)
  end.

Lemma does_collect fuel : forall fs dir, plain_tree fs -> fs !! dir = Some NDir -> height fs dir fuel ->
  does (collect_dir_paths fuel dir) fs (Ok (paths_below fuel fs dir)) fs.
Proof.
induction fuel as [|fuel IH]; intros fs dir Hpl Hd Hh; [assert (length (@nil bytes) < 0) by (apply Hh; rewrite app_nil_r; eauto); lia|].
cbn [collect_dir_paths]. eapply does_bind; [by apply does_read_dir_follow|]. cbn beta iota.
eapply does_bind; [|apply does_ret]. apply does_map_io. intros c [n Hc]%elem_of_children.
eapply does_bind; [by apply does_lstat|]. rewrite Hc. destruct n; try (eapply does_bind; [apply does_ret|apply does_ret]).
eapply does_bind; [apply IH; [done|done|by apply height_below]|apply does_ret].
Qed.

Lemma elem_of_paths_below fuel : forall fs dir q, fs_wf fs -> height fs dir fuel ->
  q ∈ paths_below fuel fs dir <-> is_Some (fs !! q) /\ exists r, r <> [] /\ q = dir ++ r.
Proof.
induction fuel as [|fuel IH]; intros fs dir q Hwf Hh; cbn [paths_below].
- split; [by intros ?%not_elem_of_nil|]. intros [Hq (r & _ & ->)]. apply Hh in Hq. lia.
- rewrite list_elem_of_join. split.
  + intros (l & Hq & (c & -> & [n Hc]%elem_of_children)%list_elem_of_fmap). apply elem_of_cons in Hq as [-> |Hq]; [split; [eauto|by exists [c]]|].
    cbn beta in Hq. rewrite Hc in Hq. destruct n; [by apply not_elem_of_nil in Hq| |by apply not_elem_of_nil in Hq]. apply IH in Hq as [Hq (r & Hr & ->)]; [|done|by apply height_below].
    split; [done|]. exists (c :: r). split; [done|]. by rewrite <- app_assoc.
  + intros [[n Hq] ([|c r] & Hr & ->)]; [done|]. rewrite cons_middle, app_assoc in Hq |- *.
    assert (is_Some (fs !! (dir ++ [c]))) as Hc by (destruct r as [|b r]; [rewrite app_nil_r in Hq; eauto|exists NDir; by apply (wf_above fs (dir ++ [c]) (b :: r) n)]).
    eexists. split; [|apply list_elem_of_fmap; exists c; split; [reflexivity|by apply elem_of_children]].
    destruct r as [|b r]; [rewrite app_nil_r; left|]. right. rewrite (wf_above fs (dir ++ [c]) (b :: r) n) by done.
    apply IH; [done|by apply height_below|]. split; [eauto|]. by exists (b :: r).
Qed.

Lemma NoDup_paths_below fuel : forall fs dir, fs_wf fs -> height fs dir fuel -> NoDup (paths_below fuel fs dir).
Proof.
induction fuel as [|fuel IH]; intros fs dir Hwf Hh; cbn [paths_below]; [constructor|].
assert (forall c, NoDup ((dir ++ [c]) :: match fs !! (dir ++ [c]) with Some NDir => paths_below fuel fs (dir ++ [c]) | _ => [] end)) as H1.
{ intros c. assert (height fs (dir ++ [c]) fuel) as Hc by by apply height_below. case_match; [|by repeat constructor; set_solver]. case_match; try by repeat constructor; set_solver.
  constructor; [|by apply IH]. intros (_ & r & Hr & E)%elem_of_paths_below; [|done..]. destruct r; [done|]. apply (f_equal length) in E. rewrite !length_app in E. cbn in E. lia. }
assert (forall c q, q ∈ (dir ++ [c]) :: match fs !! (dir ++ [c]) with Some NDir => paths_below fuel fs (dir ++ [c]) | _ => [] end -> exists r, q = dir ++ c :: r) as H2.
{ intros c q [-> |Hq]%elem_of_cons; [by exists []|]. case_match; [|by apply not_elem_of_nil in Hq]. case_match; try by apply not_elem_of_nil in Hq.
  apply elem_of_paths_below in Hq as (_ & r & _ & ->); [|done|by apply height_below]. exists r. by rewrite <- app_assoc. }
pose proof (children_NoDup fs dir) as Hn. induction Hn as [|c l Hc Hn IHl]; [constructor|]. rewrite join_fmap_cons. apply NoDup_app. split; [apply H1|]. split; [|done].
intros q (r & ->)%H2 (l' & Hq & (c' & -> & Hc')%list_elem_of_fmap)%list_elem_of_join. apply H2 in Hq as (r' & E). apply app_inv_head in E. by injection E as -> _.
Qed.

Section key.
Context `{B3 : Blake3} (context_dir : path) (ign : DockerIgnore).
Local Abbreviation hidden := (skipped context_dir ign).

Fixpoint source_hash (fuel : nat) (fs : gmap path node) (p : path) : list bytes :=
  match fuel with
  | O => []
  | S fuel =>
      if hidden p then [] else
      match fs !! p with
      | None => [sep (str "missing")]
      | Some (NSymlink t) => [str "L"; t]
      | Some (NFile c _) => [str "F"; of_bytes c]
      | Some NDir =>
          str "D" :: mjoin ((fun child => rel_text (drop (length p) child) :: [x00] :: source_hash fuel fs child)
            <$> sort_by path_leb (List.filter (fun child => negb (hidden child)) (paths_below fuel fs p)))
      end
  end.

Lemma does_hash fuel : forall fs p, plain_tree fs -> (hidden p = true \/ is_Some (fs !! p)) -> height fs p fuel ->
  does (hash_source_go context_dir ign (S fuel) p) fs (Ok (source_hash (S fuel) fs p)) fs.
Proof.
induction fuel as [|fuel IH]; intros fs p Hpl Hp Hh; cbn [hash_source_go source_hash]; (destruct (hidden p); [apply does_ret|]); (destruct Hp as [?|[n Hn]]; [done|]).
{ assert (length (@nil bytes) < 0) by (apply Hh; rewrite app_nil_r; eauto). lia. }
eapply does_bind; [apply does_try; by apply does_symlink_metadata|]. cbn beta iota. rewrite Hn. destruct n as [c m| |t].
- eapply does_bind; [|apply does_ret]. unfold of_file. eapply does_bind; [apply does_read; unfold file_at; by rewrite Hn|apply does_ret].
- eapply does_bind; [by apply (does_collect (S fuel))|]. cbn zeta. eapply does_bind; [|apply does_ret]. apply does_map_io.
  intros q Hq. rewrite sort_by_perm in Hq. apply list_elem_of_In, filter_In in Hq as [Hq _]. apply list_elem_of_In, elem_of_paths_below in Hq as (Hs & r & Hr & ->); [|apply Hpl|done].
  eapply does_bind; [|apply does_ret]. apply IH; [done|by right|by apply height_below].
- eapply does_bind; [|apply does_ret]. apply does_sys0. by rewrite Hn.
Qed.

(** The hash depends on what is not hidden, and on no more fuel than the tree is deep. *)
Lemma source_hash_agree fs1 fs2 : plain_tree fs1 -> plain_tree fs2 ->
  (forall q, hidden (context_dir ++ q) = false -> fs1 !! (context_dir ++ q) = fs2 !! (context_dir ++ q)) ->
  forall fuel1 fuel2 q, height fs1 (context_dir ++ q) fuel1 -> height fs2 (context_dir ++ q) fuel2 ->
  (hidden (context_dir ++ q) = true \/ is_Some (fs1 !! (context_dir ++ q))) ->
  source_hash (S fuel1) fs1 (context_dir ++ q) = source_hash (S fuel2) fs2 (context_dir ++ q).
Proof.
intros Hp1 Hp2 Ha. induction fuel1 as [|fuel1 IH]; intros fuel2 q H1 H2 Hq; cbn [source_hash]; destruct (hidden (context_dir ++ q)) eqn:Hh; try done; destruct Hq as [?|Hq]; try done.
{ assert (length (@nil bytes) < 0) by (apply H1; by rewrite app_nil_r). lia. }
rewrite <- (Ha q Hh). destruct Hq as [n Hn]. rewrite Hn. destruct n as [c m| |t]; [done| |done].
destruct fuel2 as [|fuel2]. { assert (length (@nil bytes) < 0) by (apply H2; rewrite app_nil_r, <- (Ha q Hh); eauto). lia. }
assert (sort_by path_leb (List.filter (fun child => negb (hidden child)) (paths_below (S fuel1) fs1 (context_dir ++ q))) =
  sort_by path_leb (List.filter (fun child => negb (hidden child)) (paths_below (S fuel2) fs2 (context_dir ++ q)))) as <-.
{ apply sort_paths_unique, NoDup_Permutation; [apply NoDup_ListNoDup, List.NoDup_filter, NoDup_ListNoDup, NoDup_paths_below; [apply Hp1|done]..| |].
  - apply NoDup_ListNoDup, List.NoDup_filter, NoDup_ListNoDup, NoDup_paths_below; [apply Hp2|done].
  - intros x. rewrite !list_elem_of_In, !filter_In, <- !list_elem_of_In, !elem_of_paths_below by (apply Hp1 || apply Hp2 || done).
    split; intros [[Hs (r & Hr & ->)] Hv]; (split; [|done]); (split; [|eauto]); rewrite <- app_assoc in *; apply negb_true_iff in Hv; by rewrite Ha in * || by rewrite <- Ha in *. }
f_equal. f_equal. apply list_fmap_ext. intros i x Hx. apply list_elem_of_lookup_2 in Hx. rewrite sort_by_perm in Hx. apply list_elem_of_In, filter_In in Hx as [Hx _].
apply list_elem_of_In, elem_of_paths_below in Hx as (Hs & r & Hr & ->); [|apply Hp1|done]. do 2 f_equal. rewrite <- app_assoc. apply IH.
- rewrite app_assoc. by apply height_below.
- rewrite app_assoc. by apply height_below.
- right. by rewrite app_assoc.
Qed.
Lemma wf_height fs p : fs_wf fs -> height fs p (S (size fs)).
Proof. intros Hwf q Hq. apply wf_length in Hq; [|done]. rewrite length_app in Hq. lia. Qed.

(** The sources of a step are names below the context, excluded or there. *)
Definition source_tokens (i : Instr) : list bytes := match i with Dockerfile.Copy src _ _ _ _ | Add src _ _ _ => src | _ => [] end.

Definition sources_present (step : BuildStep) (scope : VarScope) (escape : bool) (fs : gmap path node) : Prop :=
  forall s, s ∈ source_tokens (instr step) -> exists t, interpolate s scope escape = Ok t /\ is_absolute t = false /\
    (hidden (join context_dir t) = true \/ is_Some (fs !! join context_dir t)).

Definition token_hash (scope : VarScope) (escape : bool) (fs : gmap path node) (s : bytes) : list bytes :=
  match interpolate s scope escape with Ok t => source_hash (S (S (size fs))) fs (join context_dir t) | Err _ => [] end.

Lemma does_tokens step scope escape fs : plain_tree fs -> sources_present step scope escape fs ->
  does (map_io (fun s => t ← lift (interpolate s scope escape); hash_copy_source_filtered context_dir ign (join context_dir t)) (source_tokens (instr step)))
    fs (Ok (token_hash scope escape fs <$> source_tokens (instr step))) fs.
Proof.
intros Hpl Hs. apply does_map_io. intros s Hin. destruct (Hs s Hin) as (t & E & _ & Ht). unfold token_hash. rewrite E.
eapply does_bind; [apply does_ret|]. unfold hash_copy_source_filtered. eapply does_bind; [apply does_get_fs|]. apply does_hash; [done|done|by apply wf_height, Hpl].
Qed.

Lemma token_hash_agree fs1 fs2 step scope escape s : plain_tree fs1 -> plain_tree fs2 ->
  (forall q, hidden (context_dir ++ q) = false -> fs1 !! (context_dir ++ q) = fs2 !! (context_dir ++ q)) ->
  sources_present step scope escape fs1 -> s ∈ source_tokens (instr step) -> token_hash scope escape fs1 s = token_hash scope escape fs2 s.
Proof.
intros Hp1 Hp2 Ha Hs Hin. destruct (Hs s Hin) as (t & E & Habs & Ht). unfold token_hash. rewrite E. unfold join in *. rewrite Habs in *.
apply source_hash_agree; [done|done|done|apply wf_height, Hp1|apply wf_height, Hp2|done].
Qed.

Lemma sources_present_agree fs1 fs2 step scope escape :
  (forall q, hidden (context_dir ++ q) = false -> fs1 !! (context_dir ++ q) = fs2 !! (context_dir ++ q)) ->
  sources_present step scope escape fs1 -> sources_present step scope escape fs2.
Proof.
intros Ha Hs s Hin. destruct (Hs s Hin) as (t & E & Habs & Ht). exists t. split; [done|]. split; [done|]. unfold join in *. rewrite Habs in *.
destruct (hidden (context_dir ++ components t)) eqn:Hh; [by left|]. right. rewrite <- Ha by done. by destruct Ht.
Qed.

(** What is left of the chunks once the sources are hashed does not look at the world. *)
Lemma flags_outcome chown chmod css scope escape (w1 w2 : World) :
  let rest : IO (list bytes) := o ← flag_chunks (str "chown") chown scope escape; m ← flag_chunks (str "chmod") chmod scope escape; mret (mjoin css ++ o ++ m) in
  (rest w1).1 = (rest w2).1.
Proof.
cbv zeta. unfold flag_chunks. cbv [mbind IO_mbind lift]. destruct chown as [c|]; [destruct (interpolate c scope escape)|]; try done;
  (destruct chmod as [m|]; [by destruct (interpolate m scope escape)|done]).
Qed.

Lemma source_chunks_agree step scope escape w1 w2 :
  w_faults w1 = [] -> w_faults w2 = [] -> plain_tree (w_fs w1) -> plain_tree (w_fs w2) ->
  (forall q, hidden (context_dir ++ q) = false -> w_fs w1 !! (context_dir ++ q) = w_fs w2 !! (context_dir ++ q)) ->
  sources_present step scope escape (w_fs w1) ->
  (source_chunks context_dir ign step scope escape w1).1 = (source_chunks context_dir ign step scope escape w2).1.
Proof.
intros Hf1 Hf2 Hp1 Hp2 Ha Hs. pose proof (sources_present_agree _ _ _ _ _ Ha Hs) as Hs2.
destruct (does_tokens step scope escape (w_fs w1) Hp1 Hs w1 Hf1 eq_refl) as (v1 & E1 & _). destruct (does_tokens step scope escape (w_fs w2) Hp2 Hs2 w2 Hf2 eq_refl) as (v2 & E2 & _).
assert (token_hash scope escape (w_fs w1) <$> source_tokens (instr step) = token_hash scope escape (w_fs w2) <$> source_tokens (instr step)) as Eh.
{ apply list_fmap_ext. intros i s Hi. apply list_elem_of_lookup_2 in Hi. by eapply token_hash_agree. }
rewrite <- Eh in E2. unfold source_chunks. destruct (instr step); try done; cbn [source_tokens] in *;
  [pose proof (flags_outcome chown chmod (token_hash scope escape (w_fs w1) <$> src) scope escape v1 v2) as H..];
  rewrite (bind_run _ _ _ _ _ E1), (bind_run _ _ _ _ _ E2); exact H.
Qed.
End key.

(** C12: what [.dockerignore] excludes is not in the key of a step.  For two runs without
    failures over trees that agree on every path of the context that is not excluded, and
    whatever the excluded files and directories are: a step whose sources are relative names,
    excluded or present, has the same key in both, so adding, changing or removing an excluded
    file leaves the cached layer in use. *)
Theorem ignored_not_keyed `{B3 : Blake3} context_dir ign prev step scope escape shell from_stage platform w1 w2 :
  w_faults w1 = [] -> w_faults w2 = [] -> plain_tree (w_fs w1) -> plain_tree (w_fs w2) ->
  (forall q, skipped context_dir ign (context_dir ++ q) = false -> w_fs w1 !! (context_dir ++ q) = w_fs w2 !! (context_dir ++ q)) ->
  sources_present context_dir ign step scope escape (w_fs w1) ->
  (step_key context_dir ign prev step scope escape shell from_stage platform w1).1 =
  (step_key context_dir ign prev step scope escape shell from_stage platform w2).1.
Proof.
intros Hf1 Hf2 Hp1 Hp2 Ha Hs. pose proof (source_chunks_agree context_dir ign step scope escape w1 w2 Hf1 Hf2 Hp1 Hp2 Ha Hs) as H.
unfold step_key, step_chunks. cbv [mbind IO_mbind lift]. destruct (canonical_step_text step scope escape); [|done].
cbv [mret IO_mret] in *. destruct (source_chunks context_dir ign step scope escape w1) as [o1 v1], (source_chunks context_dir ign step scope escape w2) as [o2 v2].
cbn [fst] in H. subst o2. by destruct o1.
Qed.
