(* ===== verification/BuildRuns.v ===== *)
(** Builds run on concrete contexts: the stand-ins for the other packages, and what the
    builds of small Dockerfiles do. *)

From S2P Require Import Prelude Text Error Cursor Digest Manifest RefRecord Fs FsFacts OwnedTemp Calm Cas Layout Refs Ac ImgMeta IndexCodec Scan Hydrate Snapshot Memo DockerIgnore Vars Dockerfile BuildCfg BuildKey BuildExec BuildLaw BuildIgnore.

(** Two sums over the bytes: no cryptographic hash, and without collisions on these runs. *)
Definition poly_hash (b : bytes) : digest :=
  let '(s, t) := foldl (fun '(s, t) c => let s := (s + bval c + 1)%Z in (s, t + s)%Z) (0, 0)%Z b in
  le_bytes 4 s ++ le_bytes 4 t ++ replicate 24 x00.

Definition poly_blake3 : Blake3 := {|
  Hasher := bytes;
  hasher_new := [];
  hasher_update := fun h b => h ++ b;
  hasher_finalize := poly_hash;
  blake3_hash := poly_hash;
|}.

Lemma poly_blake3_laws : Blake3Laws poly_blake3.
Proof.
split.
- intros b. cbn [blake3_hash poly_blake3]. unfold poly_hash. case_match. by rewrite !length_app, !length_le_bytes.
- intros chunks. cbn [hasher_finalize hasher_update hasher_new blake3_hash poly_blake3]. by rewrite foldl_app_mjoin.
Qed.

(** A codec for the sidecar: its fields as lists of texts. *)
Definition opt_texts (o : option (list bytes)) : list bytes := match o with Some l => [] :: l | None => [] end.
Definition of_opt_texts (l : list bytes) : option (list bytes) := match l with _ :: l => Some l | [] => None end.
Definition opt_text (o : option bytes) : list bytes := match o with Some s => [s] | None => [] end.
Definition of_opt_text (l : list bytes) : option bytes := head l.
Fixpoint pair_texts (l : list (bytes * bytes)) : list bytes := match l with (k, v) :: l => k :: v :: pair_texts l | [] => [] end.
Fixpoint of_pair_texts (l : list bytes) : list (bytes * bytes) := match l with k :: v :: l => (k, v) :: of_pair_texts l | _ => [] end.

Definition config_texts (c : ImageConfig) : list (list bytes) :=
  [opt_texts (ic_entrypoint c); opt_texts (ic_cmd c); pair_texts (ic_env c); opt_text (ic_workdir c); opt_text (ic_user c); ic_expose c;
   ic_volume c; pair_texts (ic_labels c); opt_text (ic_stop_signal c); opt_texts (ic_shell c); ic_onbuild c] ++
  match ic_healthcheck c with
  | Some h => [hc_test h; opt_text (hc_interval h); opt_text (hc_timeout h); opt_text (hc_start_period h); opt_text (hc_retries h)]
  | None => []
  end.

Definition of_config_texts (l : list (list bytes)) : option ImageConfig :=
  match l with
  | ep :: cmd :: env :: wd :: user :: ex :: vol :: lab :: stop :: sh :: onb :: hc =>
      Some (mkImageConfig (of_opt_texts ep) (of_opt_texts cmd) (of_pair_texts env) (of_opt_text wd) (of_opt_text user) ex vol (of_pair_texts lab)
        (match hc with
         | [test; i; t; s; r] => Some (mkImageHealthcheck test (of_opt_text i) (of_opt_text t) (of_opt_text s) (of_opt_text r))
         | _ => None
         end) (of_opt_text stop) (of_opt_texts sh) onb)
  | _ => None
  end.

Lemma of_opt_opt_texts o : of_opt_texts (opt_texts o) = o.
Proof. by destruct o. Qed.
Lemma of_opt_opt_text o : of_opt_text (opt_text o) = o.
Proof. by destruct o. Qed.
Lemma of_pair_pair_texts l : of_pair_texts (pair_texts l) = l.
Proof. induction l as [|[k v] l IH]; [done|]. cbn [pair_texts of_pair_texts]. by rewrite IH. Qed.

Lemma config_texts_round c : of_config_texts (config_texts c) = Some c.
Proof.
destruct c as [? ? ? ? ? ? ? ? [[]|] ? ? ?]; cbn -[of_opt_texts opt_texts of_opt_text opt_text of_pair_texts pair_texts];
  by rewrite ?of_opt_opt_texts, ?of_opt_opt_text, ?of_pair_pair_texts.
Qed.

Definition demo_to_json (c : ImageConfig) : option bytes := toy_to (config_texts c).
Definition demo_from_json (b : bytes) : option ImageConfig := toy_from b ≫= of_config_texts.

Lemma demo_json_round c : exists b, demo_to_json c = Some b /\ demo_from_json b = Some c.
Proof.
unfold demo_to_json, demo_from_json. destruct (toy_round (config_texts c)) as (b & E1 & E2). exists b. rewrite E2. split; [done|]. apply config_texts_round.
Qed.

(** A walk that yields every node below the root; the inode tells contents apart. *)
Definition demo_item (fs : gmap path node) (dir p : path) (n : node) : option walk_item :=
  rel ← path_strip dir p;
  let item k s t := mkWalkItem (rel_text rel) (Some (k, s)) t (Some (bool_decide (children fs p = []))) (match n with NFile c _ => Ok (poly_hash c) | _ => Err (Io OtherKind) end) in
  if bool_decide (rel = []) then None else
  Some match n with
       | NFile c m => item MFile (mkStat 1 (le_val (poly_hash c)) (Z.of_nat (length c)) m) (Err (Io OtherKind))
       | NDir => item MDir (mkStat 1 1 0 493) (Err (Io OtherKind))
       | NSymlink t => item MSymlink (mkStat 1 1 0 511) (Ok t)
       end.

Definition demo_walk (fs : gmap path node) (dir : path) : list walk_item :=
  omap (fun '(p, n) => demo_item fs dir p n) (map_to_list fs).

Definition store : path := [str "store"].
Definition ctx : path := [str "ctx"].
Definition tmp_name (n : nat) : path := [str "tmp"; str "lightr-build-" ++ dec (Z.of_nat n)].

(** A command [w FILE TEXT] writes the text, [pe FILE KEY] the variable's value, below the
    directory it runs in. *)
Definition demo_exec (cwd : path) (argv : list bytes) (env : list (bytes * bytes)) : IO Z :=
  let put f t := _ ← file_create (cwd ++ components f); _ ← write_all (cwd ++ components f) t; mret 0%Z in
  match argv with
  | [_; _; cmd] =>
      match split_ascii_whitespace cmd with
      | [op; f; t] =>
          if bool_decide (op = str "w") then put f t
          else put f (default [] (snd <$> last (filter (fun kv => kv.1 = t) env)))
      | _ => mret 1%Z
      end
  | _ => mret 1%Z
  end.

Definition demo_env_of (_ : path) : index_env := mkIndexEnv (Ok [str "index"; str "w"]) 1 1 5.

Definition run_build (name : bytes) (build_args : list (bytes * bytes)) (target : option bytes) : IO (option BuildReport) :=
  @build_target poly_blake3 store Cas.Copy demo_to_json demo_from_json (fun _ => None) (fun _ _ _ => mret tt) (fun _ => HttpTransport)
    demo_exec demo_walk demo_env_of (fun t => t) (str "1") (str "x86_64") tmp_name ctx (ctx ++ [str "Dockerfile"]) name build_args target.

Definition NL : bytes := [x0a].

Definition demo_fs (dockerfile : list bytes) (files : list (bytes * node)) : gmap path node :=
  foldl (fun fs '(f, n) => <[ctx ++ components f := n]> fs)
    {[ [] := NDir; store := NDir; ctx := NDir; [str "tmp"] := NDir; ctx ++ [str "Dockerfile"] := NFile (mjoin ((fun l => l ++ NL) <$> dockerfile)) 420 ]}
    files.

(** The report of a build, the root a name refers to, and a file of a layer. *)
Definition report_of (r : Fs.outcome (option BuildReport) * World) : option BuildReport := match r.1 with Ret (Some rep) => Some rep | _ => None end.

Definition ref_root (name : bytes) (fs : gmap path node) : option digest :=
  match (@ref_get poly_blake3 store name (restart fs)).1 with Ret (Some rec) => Some (RefRecord.root rec) | _ => None end.

Definition file_of_entry (p : bytes) (e : Entry) : option (Z * digest) :=
  match e with File q mode _ d => if bool_decide (q = p) then Some (mode, d) else None | _ => None end.

Definition layer_file (d : digest) (p : bytes) (fs : gmap path node) : option (bytes * Z) :=
  match (@get_bytes poly_blake3 store d (restart fs)).1 with
  | Ret mb =>
      match Manifest.decode mb with
      | Ok m =>
          '(mode, fd) ← head (omap (file_of_entry p) (entries m));
          match (@get_bytes poly_blake3 store fd (restart fs)).1 with Ret c => Some (c, mode) | _ => None end
      | Err _ => None
      end
  | _ => None
  end.

(** Steps, cached steps, and the content and mode of a file of the image. *)
Definition built (r : Fs.outcome (option BuildReport) * World) (f : bytes) : option (Z * Z * option (bytes * Z)) :=
  (fun rep => (br_steps rep, br_cached_steps rep, layer_file (br_root rep) f (w_fs r.2))) <$> report_of r.

Definition with_file (f : bytes) (n : node) (fs : gmap path node) : gmap path node := <[ctx ++ components f := n]> fs.

(** A build, and another one after a change. *)
Definition first_build (fs : gmap path node) : Fs.outcome (option BuildReport) * World := run_build (str "img") [] None (restart fs).
Definition rebuild (fs : gmap path node) (change : gmap path node -> gmap path node) (name : bytes) (build_args : list (bytes * bytes)) :
    Fs.outcome (option BuildReport) * World :=
  run_build name build_args None (restart (change (w_fs (first_build fs).2))).

Definition text_file (s : bytes) : node := NFile s 420.

(** * The name of the image *)

(** The name is given to a layer when the layer is made.  A build whose steps are all
    replayed gives its name to nothing: the build reports success and the ref is not there. *)
Theorem replayed_build_not_named :
  let fs := demo_fs [str "FROM scratch"; str "RUN w a A"] [] in
  let r := rebuild fs id (str "other") [] in
  built (first_build fs) (str "a") = Some (2%Z, 0%Z, Some (str "A", 420%Z)) /\
  built r (str "a") = Some (2%Z, 2%Z, Some (str "A", 420%Z)) /\
  ref_root (str "other") (w_fs r.2) = None.
Proof. vm_compute. auto. Qed.

(** The name stays with the last layer that was made, of whichever stage: here the second
    stage is replayed, the report is about its layer, and the name refers to the first stage's. *)
Theorem name_on_other_stage :
  let r := first_build (demo_fs [str "FROM scratch"; str "RUN w one 1"; str "FROM scratch"] []) in
  built r (str "one") = Some (3%Z, 1%Z, None) /\
  (d ← ref_root (str "img") (w_fs r.2); layer_file d (str "one") (w_fs r.2)) = Some (str "1", 420%Z).
Proof. vm_compute. auto. Qed.

(** A build that fails has given the name to the last layer it made. *)
Theorem failed_build_moves_name :
  let r := first_build (demo_fs [str "FROM scratch"; str "RUN nonsense"] []) in
  report_of r = None /\ bool_decide (is_Some (ref_root (str "img") (w_fs r.2))) = true.
Proof. vm_compute. auto. Qed.

(** * Inputs that are not in the key *)

Definition work : path := [str "work"].
Definition no_scope : VarScope := mkScope ∅ ∅.
Definition vars0 : BuildVars := vars_start.

(** The key of a step over a context, with any hash, and the step executed. *)
Definition key_over `{Blake3} (ign : DockerIgnore) (fs : gmap path node) (step : BuildStep) : Fs.outcome digest :=
  (step_key ctx ign None step no_scope true default_shell None (str "linux/amd64") (restart fs)).1.

Definition dispatch_on (ign : DockerIgnore) (t : StageTable) (v : BuildVars) (step : BuildStep) : IO (option BuildVars) :=
  @dispatch poly_blake3 store Cas.Copy demo_to_json demo_from_json (fun _ _ _ => mret tt) (fun _ => HttpTransport) demo_exec tmp_name ctx work ign true ∅ t v step.

Definition executed (ign : DockerIgnore) (fs : gmap path node) (step : BuildStep) : Fs.outcome (option BuildVars) * World :=
  dispatch_on ign stages_default vars0 step (restart fs).

Definition work_file (r : Fs.outcome (option BuildVars) * World) (f : bytes) : option node := w_fs r.2 !! (work ++ components f).

Definition context (files : list (bytes * node)) : gmap path node := <[work := NDir]> (demo_fs [] files).

Definition copy_step (src dest : bytes) : BuildStep := mkStep (Dockerfile.Copy [src] dest None None None) (str "COPY " ++ src ++ str " " ++ dest).

(** The files a wildcard names are not in the key: with any hash the two contexts have the
    same key, and the copies differ. *)
Theorem glob_source_not_keyed `{B3 : Blake3} :
  let fs1 := context [(str "a.txt", text_file (str "A"))] in
  let fs2 := context [(str "a.txt", text_file (str "B"))] in
  let step := copy_step (str "*.txt") (str "/d/") in
  key_over inactive fs1 step = key_over inactive fs2 step /\
  work_file (executed inactive fs1 step) (str "d/a.txt") = Some (text_file (str "A")) /\
  work_file (executed inactive fs2 step) (str "d/a.txt") = Some (text_file (str "B")).
Proof. vm_compute. auto. Qed.

(** A linked source is copied as the file it leads to, and is in the key by its target's name. *)
Theorem linked_source_not_keyed `{B3 : Blake3} :
  let fs1 := context [(str "a.txt", text_file (str "A")); (str "l", NSymlink (str "a.txt"))] in
  let fs2 := context [(str "a.txt", text_file (str "B")); (str "l", NSymlink (str "a.txt"))] in
  let step := copy_step (str "l") (str "/a") in
  key_over inactive fs1 step = key_over inactive fs2 step /\
  work_file (executed inactive fs1 step) (str "a") = Some (text_file (str "A")) /\
  work_file (executed inactive fs2 step) (str "a") = Some (text_file (str "B")).
Proof. vm_compute. auto. Qed.

(** The mode of a file is copied and is not in the key. *)
Theorem mode_not_keyed `{B3 : Blake3} :
  let fs1 := context [(str "a.sh", NFile (str "A") 420)] in
  let fs2 := context [(str "a.sh", NFile (str "A") 493)] in
  let step := copy_step (str "a.sh") (str "/a.sh") in
  key_over inactive fs1 step = key_over inactive fs2 step /\
  work_file (executed inactive fs1 step) (str "a.sh") = Some (NFile (str "A") 420) /\
  work_file (executed inactive fs2 step) (str "a.sh") = Some (NFile (str "A") 493).
Proof. vm_compute. auto. Qed.

(** Of the base, only the text of the FROM is in its key: not the layer the base's name
    refers to, nor anything else of the store. *)
Theorem base_not_keyed `{B3 : Blake3} context_dir ign prev image platform stage raw scope escape shell plat w1 w2 :
  let key := step_key context_dir ign prev (mkStep (From image platform stage) raw) scope escape shell None plat in
  (key w1).1 = (key w2).1.
Proof.
cbv zeta. unfold step_key, step_chunks, canonical_step_text, source_chunks. cbn [instr Dockerfile.raw]. cbv [mbind IO_mbind lift].
by destruct (interpolate raw scope escape).
Qed.

(** A RUN has the build arguments in its environment; they are not in its key when its text
    does not name them. *)
Theorem build_arg_not_keyed `{B3 : Blake3} context_dir ign prev argv form raw args1 args2 env_ escape shell plat w :
  contains x24 raw = false ->
  (step_key context_dir ign prev (mkStep (Run argv form) raw) (mkScope args1 env_) escape shell None plat w).1 =
  (step_key context_dir ign prev (mkStep (Run argv form) raw) (mkScope args2 env_) escape shell None plat w).1 /\
  build_run_env {[ str "X" := str "1" ]} [] <> build_run_env {[ str "X" := str "2" ]} [].
Proof.
intros Hr. split; [|by vm_compute]. unfold step_key, step_chunks, canonical_step_text, source_chunks. cbn [instr Dockerfile.raw]. unfold interpolate. by rewrite Hr.
Qed.

(** The ENV of a layer is in its config file, hence in the key of the steps after it. *)
Theorem env_in_layer :
  let env x := executed inactive (context []) (mkStep (Env [(str "X", x)]) (str "ENV X=" ++ x)) in
  work_file (env (str "1")) IMAGE_CONFIG_FILE <> None /\ work_file (env (str "1")) IMAGE_CONFIG_FILE <> work_file (env (str "2")) IMAGE_CONFIG_FILE.
Proof. vm_compute. split; congruence. Qed.

(** A source of [COPY --from] is in the key as a path of the host: the chunks hashed for it
    are those of a file that is not copied. *)
Theorem from_source_keyed_on_host `{B3 : Blake3} :
  let step := mkStep (Dockerfile.Copy [str "/x"] (str "/y") (Some (str "one")) None None) (str "COPY --from=one /x /y") in
  let chunks fs := (source_chunks ctx inactive step no_scope true (restart fs)).1 in
  chunks (<[ [str "x"] := text_file (str "h") ]> (context [])) = Ret [str "F"; of_bytes (str "h")] /\
  chunks (context []) = Ret [sep (str "missing")].
Proof. vm_compute. auto. Qed.

(** * Instructions *)

(** A source that the build context excludes leaves nothing to copy, and the build panics. *)
Theorem ignored_source_panics :
  (executed (DockerIgnore.parse (str "*.sh")) (context [(str "a.sh", text_file (str "A"))]) (copy_step (str "a.sh") (str "/a.sh"))).1 = Ret None.
Proof. vm_compute. reflexivity. Qed.

(** What an exception takes back below an excluded directory is in the key and is not copied. *)
Theorem exception_below_excluded_dir :
  let ign := DockerIgnore.parse (str "b" ++ NL ++ str "!b/keep" ++ NL) in
  let fs c := context [(str "b", NDir); (str "b/keep", text_file c)] in
  let step := copy_step (str ".") (str "/d") in
  @key_over poly_blake3 ign (fs (str "K")) step <> @key_over poly_blake3 ign (fs (str "L")) step /\
  (executed ign (fs (str "K")) step).1 = Ret (Some vars0) /\ work_file (executed ign (fs (str "K")) step) (str "d/b") = None.
Proof. vm_compute. split; [congruence|auto]. Qed.

(** Links in a copied directory are left out. *)
Theorem copied_dir_drops_links :
  let fs := context [(str "s", NDir); (str "s/a", text_file (str "A")); (str "s/l", NSymlink (str "a"))] in
  let r := executed inactive fs (copy_step (str "s") (str "/d")) in
  r.1 = Ret (Some vars0) /\ work_file r (str "d/a") = Some (text_file (str "A")) /\ work_file r (str "d/l") = None.
Proof. vm_compute. auto. Qed.

(** A source that is not there is no error: the instruction copies nothing. *)
Theorem missing_source_silent :
  let r := executed inactive (context []) (copy_step (str "a") (str "/a")) in
  r.1 = Ret (Some vars0) /\ work_file r (str "a") = None.
Proof. vm_compute. auto. Qed.

(** Two platforms that differ in the variant both name are taken for the same. *)
Theorem platform_variants_match : platforms_match (str "linux/arm/v6") (str "linux/arm/v7") = true.
Proof. vm_compute. reflexivity. Qed.

(** The working directory of a stage is that of the stage before it, made or replayed. *)
Theorem workdir_crosses_stages `{B3 : Blake3} root rung from_json work_dir escape overrides v image platform stage w v1 w' layer_env :
  exec_from root rung from_json work_dir escape overrides v (From image platform stage) image w = (Ret v1, w') ->
  b_workdir v1 = b_workdir v /\ exists v2, replay_vars escape overrides v (From image platform stage) layer_env = Ok v2 /\ b_workdir v2 = b_workdir v.
Proof.
intros H. split; [|by eexists]. unfold exec_from in H. repeat (apply bind_ret in H as (? & ? & _ & H)). by injection H as <- _.
Qed.

(** A variable in [--chmod] is expanded in the key and not in the instruction. *)
Theorem chmod_variable_rejected :
  let fs := context [(str "a", text_file (str "A"))] in
  let step := mkStep (Dockerfile.Copy [str "a"] (str "/a") None None (Some (str "${M}"))) (str "COPY --chmod=${M} a /a") in
  let v := mkVars (mkScope {[ str "M" := str "755" ]} ∅) arg_state_default [] (str "/") default_shell 1 in
  (flag_chunks (str "chmod") (Some (str "${M}")) (b_scope v) true (restart fs)).1 = Ret [sep (str "chmod"); str "755"] /\
  (dispatch_on inactive stages_default v step (restart fs)).1 = Throw (InvalidManifest (str "COPY --chmod: invalid octal mode ${M}")).
Proof. vm_compute. auto. Qed.

(** A stage whose name is a number is not the stage [--target] selects by that name. *)
Theorem numeric_target_fails d :
  final_root (Some (str "1")) (mkLoop vars0 None 0 2 (stage_record stages_default (Some (str "1")) d) (Some (str "1")) true (str "linux/amd64"))
  = Err (no_index (str "1")).
Proof. vm_compute. reflexivity. Qed.

(** * The theorems on concrete steps *)

Lemma tracked_start fs : file_at fs (sidecar work) = None -> tracked demo_from_json work vars0 fs.
Proof. intros H. unfold tracked, config_at. by rewrite H. Qed.

Definition env_step : BuildStep := mkStep (Env [(str "X", str "1"); (str "Y", str "$X")]) (str "ENV X=1 Y=$X").
Definition env_world : World := restart (context []).
Definition env_run : Fs.outcome (option BuildVars) * World := dispatch_on inactive stages_default vars0 env_step env_world.
Definition env_vars : BuildVars := match env_run.1 with Ret (Some v) => v | _ => vars0 end.

Lemma env_run_ret : dispatch_on inactive stages_default vars0 env_step env_world = (Ret (Some env_vars), env_run.2).
Proof. apply run_split. vm_compute. reflexivity. Qed.

Lemma replay_agrees_witness :
  b_env env_vars = [(str "X", str "1"); (str "Y", str "1")] /\
  (tracked demo_from_json work env_vars (w_fs env_run.2) /\
   forall d w2 w3, w_faults w2 = [] -> @materialize_from_digest poly_blake3 store Cas.Copy work d w2 = (Ret tt, w3) ->
     config_at demo_from_json work (w_fs w3) = config_at demo_from_json work (w_fs env_run.2) ->
     (@replay_layer poly_blake3 store Cas.Copy demo_from_json work true ∅ vars0 (instr env_step) d w2).1 = Ret (with_guards (b_guards vars0) env_vars)).
Proof.
split; [vm_compute; reflexivity|].
apply (@replay_agrees poly_blake3 store Cas.Copy demo_to_json demo_from_json (fun _ _ _ => mret tt) (fun _ => HttpTransport) demo_exec tmp_name ctx work inactive true ∅
  stages_default vars0 env_step env_world env_vars env_run.2).
- intros c bs H. destruct (demo_json_round c) as (b & E1 & E2). congruence.
- reflexivity.
- apply tracked_start. vm_compute. reflexivity.
- exact env_run_ret.
- discriminate.
Defined.

Definition two_stages : list BuildStep :=
  [mkStep (From (str "scratch") None (Some (str "one"))) (str "FROM scratch AS one"); mkStep (From (str "scratch") None None) (str "FROM scratch")].
Definition run_steps (target_lc : option bytes) : IO (option Loop) :=
  @build_steps poly_blake3 store Cas.Copy demo_to_json demo_from_json (fun _ _ _ => mret tt) (fun _ => HttpTransport) demo_exec demo_walk demo_env_of (fun t => t)
    (str "1") (str "x86_64") tmp_name ctx work inactive true ∅ (str "img") target_lc (loop_start (str "x86_64")) two_stages.
Definition target_run : Fs.outcome (option Loop) * World := run_steps (Some (str "one")) (restart (context [])).
Definition target_loop : Loop := match target_run.1 with Ret (Some l) => l | _ => loop_start [] end.

Lemma target_run_ret : run_steps (Some (str "one")) (restart (context [])) = (Ret (Some target_loop), target_run.2).
Proof. apply run_split. vm_compute. reflexivity. Qed.


(** The key of [COPY . /d] with a log file in the context that the context excludes, and without. *)
Definition log_ignore : DockerIgnore := DockerIgnore.parse (str "*.log").
Definition log_context : gmap path node := context [(str "a.txt", text_file (str "A"))].
Definition log_path : path := ctx ++ [str "x.log"].
Definition copy_all : BuildStep := copy_step (str ".") (str "/d").

Lemma plain_check fs : fs_wf fs -> bool_decide (map_Forall (fun p (_ : node) => str ".." ∉ p) fs) = true -> plain_tree fs.
Proof. intros Hwf H%bool_decide_eq_true. by split. Qed.

Lemma ignored_not_keyed_witness :
  skipped ctx log_ignore log_path = true /\
  @key_over poly_blake3 log_ignore log_context copy_all = @key_over poly_blake3 log_ignore (<[log_path := text_file (str "L")]> log_context) copy_all.
Proof.
split; [vm_compute; reflexivity|]. unfold key_over.
apply (@ignored_not_keyed poly_blake3 ctx log_ignore None copy_all no_scope true default_shell None (str "linux/amd64")
  (restart log_context) (restart (<[log_path := text_file (str "L")]> log_context))).
- reflexivity.
- reflexivity.
- apply plain_check; [apply fs_wf_check; [vm_compute; reflexivity|by_eval]|vm_compute; reflexivity].
- apply plain_check; [apply fs_wf_check; [vm_compute; reflexivity|by_eval]|vm_compute; reflexivity].
- intros q Hq. cbn [w_fs restart]. rewrite lookup_insert_ne; [done|]. intros E. rewrite <- E in Hq. vm_compute in Hq. discriminate Hq.
- intros s Hs. cbn in Hs. apply list_elem_of_singleton in Hs as ->. exists (str "."). split; [vm_compute; reflexivity|]. split; [vm_compute; reflexivity|].
  right. vm_compute. eexists. reflexivity.
Defined.
