(* ===== verification/B64.v ===== *)
(** Base64 and the channel framing of the CRI streaming server (crates/lightr-cri/crates/
    lightr-cri-stream/src/b64.rs, channel.rs). *)

From Stdlib Require Import ZArith Lia.
From S2P Require Import Prelude.

(** * Base64 *)

Definition STD_ALPHABET : bytes := str "ABCDEFGHIJKLMNOPQRSTUVWXYZabcdefghijklmnopqrstuvwxyz0123456789+/".
Definition URL_ALPHABET : bytes := str "ABCDEFGHIJKLMNOPQRSTUVWXYZabcdefghijklmnopqrstuvwxyz0123456789-_".

(** [alphabet[((n >> k) & 0x3f) as usize]]; the index is below 64. *)
Definition letter (alphabet : bytes) (n k : Z) : byte := nth (Z.to_nat (Z.land (Z.shiftr n k) 0x3f)) alphabet x00.

Definition PAD : byte := x3d.

Fixpoint encode_with (alphabet : bytes) (pad : bool) (input : bytes) : bytes :=
  match input with
  | c0 :: c1 :: c2 :: rest =>
      let n := Z.lor (Z.lor (Z.shiftl (bval c0) 16) (Z.shiftl (bval c1) 8)) (bval c2) in
      letter alphabet n 18 :: letter alphabet n 12 :: letter alphabet n 6 :: letter alphabet n 0 :: encode_with alphabet pad rest
  | [c0] =>
      let n := Z.shiftl (bval c0) 16 in
      [letter alphabet n 18; letter alphabet n 12] ++ if pad then [PAD; PAD] else []
  | [c0; c1] =>
      let n := Z.lor (Z.shiftl (bval c0) 16) (Z.shiftl (bval c1) 8) in
      [letter alphabet n 18; letter alphabet n 12; letter alphabet n 6] ++ if pad then [PAD] else []
  | [] => []
  end.

Definition encode_url_nopad (input : bytes) : bytes := encode_with URL_ALPHABET false input.
Definition encode_std (input : bytes) : bytes := encode_with STD_ALPHABET true input.

(** [alphabet.iter().position(|&c| c == b)] *)
Fixpoint position (b : byte) (l : bytes) : option Z :=
  match l with
  | [] => None
  | c :: l => if bool_decide (c = b) then Some 0%Z else Z.succ <$> position b l
  end.

Definition decode_value (alphabet : bytes) (b : byte) : option Z := position b alphabet.

(** The accumulator is a [u32]: what a shift moves out of it is lost. *)
Fixpoint decode_from (acc nbits : Z) (input : bytes) : option bytes :=
  match input with
  | [] => Some []
  | b :: input =>
      if bool_decide (b = PAD \/ b = x0d \/ b = x0a) then decode_from acc nbits input
      else
        v ← decode_value STD_ALPHABET b;
        let acc := Z.lor (Z.shiftl acc 6 mod 2 ^ 32) v in
        let nbits := (nbits + 6)%Z in
        if bool_decide (8 <= nbits)%Z then
          let nbits := (nbits - 8)%Z in
          out ← decode_from acc nbits input; Some (byte_of_Z (Z.shiftr acc nbits) :: out)
        else decode_from acc nbits input
  end.

Definition decode_std (input : bytes) : option bytes := decode_from 0 0 input.

(** * Channels *)

Definition STDIN : Z := 0.
Definition STDOUT : Z := 1.
Definition STDERR : Z := 2.
Definition ERROR : Z := 3.
Definition RESIZE : Z := 4.

Definition encode_binary (channel : Z) (payload : bytes) : bytes := byte_of_Z channel :: payload.
Definition decode_binary (frame : bytes) : option (Z * bytes) :=
  match frame with c :: rest => Some (bval c, rest) | [] => None end.

(** [b'0' + channel]: the channels are at most 9. *)
Definition encode_base64 (channel : Z) (payload : bytes) : bytes := byte_of_Z (48 + channel) :: encode_std payload.
Definition decode_base64 (frame : bytes) : option (Z * bytes) :=
  match frame with
  | first :: rest =>
      if is_ascii_digit first then payload ← decode_std rest; Some (digit_val first, payload) else None
  | [] => None
  end.

(** * Round trips *)

(** The sextet that a letter stands for. *)
Definition sextet (n k : Z) : Z := ((n / 2 ^ k) mod 64)%Z.

Lemma sextet_range n k : (0 <= sextet n k < 64)%Z.
Proof. apply Z.mod_pos_bound. lia. Qed.

Lemma letter_eq alphabet n k : (0 <= k)%Z -> letter alphabet n k = nth (Z.to_nat (sextet n k)) alphabet x00.
Proof. intros Hk. unfold letter, sextet. by rewrite (Z.land_ones _ 6), Z.shiftr_div_pow2 by lia. Qed.

Lemma alphabet_position : forall i, (0 <= i < 64)%Z -> decode_value STD_ALPHABET (nth (Z.to_nat i) STD_ALPHABET x00) = Some i /\
  nth (Z.to_nat i) STD_ALPHABET x00 <> PAD /\ nth (Z.to_nat i) STD_ALPHABET x00 <> x0d /\ nth (Z.to_nat i) STD_ALPHABET x00 <> x0a.
Proof.
assert (Forall (fun i => decode_value STD_ALPHABET (nth (Z.to_nat i) STD_ALPHABET x00) = Some i /\
  nth (Z.to_nat i) STD_ALPHABET x00 <> PAD /\ nth (Z.to_nat i) STD_ALPHABET x00 <> x0d /\ nth (Z.to_nat i) STD_ALPHABET x00 <> x0a) (seqZ 0 64)) as H by by_eval.
intros i Hi. rewrite Forall_forall in H. apply H, elem_of_seqZ. lia.
Qed.

(** The accumulator after one more letter, and the bits of it that are used. *)
Definition shift_in (acc v : Z) : Z := ((acc * 64) mod 2 ^ 32 + v)%Z.

Lemma shift_in_lor acc v : (0 <= v < 64)%Z -> Z.lor (Z.shiftl acc 6 mod 2 ^ 32) v = shift_in acc v.
Proof.
intros Hv. unfold shift_in. rewrite Z.shiftl_mul_pow2 by lia. change (2 ^ 6)%Z with 64%Z.
assert ((acc * 64) mod 2 ^ 32 = Z.shiftl (acc mod 2 ^ 26) 6)%Z as E.
{ rewrite Z.shiftl_mul_pow2 by lia. change (2 ^ 32)%Z with (2 ^ 26 * 64)%Z. rewrite Z.mul_mod_distr_r by lia. done. }
rewrite E, lor_shiftl by lia. rewrite Z.shiftl_mul_pow2 by lia. done.
Qed.

Lemma shift_in_low acc v : (0 <= v < 64)%Z -> (shift_in acc v mod 64 = v)%Z.
Proof. intros Hv. unfold shift_in. change (2 ^ 32)%Z with 4294967296%Z. Z.to_euclidean_division_equations. lia. Qed.

Lemma shift_in_two acc v : (0 <= v < 64)%Z -> (shift_in acc v mod 4096 = (acc mod 64) * 64 + v)%Z.
Proof. intros Hv. unfold shift_in. change (2 ^ 32)%Z with 4294967296%Z. Z.to_euclidean_division_equations. lia. Qed.

(** One letter of the input. *)
Lemma decode_letter acc nbits n k rest : (0 <= k)%Z ->
  decode_from acc nbits (letter STD_ALPHABET n k :: rest) =
  let acc := shift_in acc (sextet n k) in
  if bool_decide (8 <= nbits + 6)%Z then out ← decode_from acc (nbits - 2) rest; Some (byte_of_Z (Z.shiftr acc (nbits - 2)) :: out)
  else decode_from acc (nbits + 6) rest.
Proof.
intros Hk. cbn [decode_from]. rewrite letter_eq by done. destruct (alphabet_position _ (sextet_range n k)) as (E & H1 & H2 & H3).
rewrite bool_decide_eq_false_2 by (by intros [|[]]). rewrite E. cbn [mbind option_bind]. rewrite shift_in_lor by apply sextet_range. replace (nbits + 6 - 8)%Z with (nbits - 2)%Z by lia. done.
Qed.

Lemma byte_eq z (c : byte) : (z mod 256 = bval c)%Z -> byte_of_Z z = c.
Proof. intros H. apply bval_inj. by rewrite bval_byte_of_Z. Qed.

(** The bytes that two letters in a row complete. *)
Lemma first_byte acc v0 v1 (c : byte) : (0 <= v0 < 64)%Z -> (0 <= v1 < 64)%Z -> (v0 * 4 + v1 / 16 = bval c)%Z ->
  byte_of_Z (Z.shiftr (shift_in (shift_in acc v0) v1) 4) = c.
Proof.
intros H0 H1 E. apply byte_eq. rewrite Z.shiftr_div_pow2 by lia. pose proof (shift_in_two (shift_in acc v0) v1 H1) as E2. rewrite shift_in_low in E2 by done.
pose proof (bval_range c). generalize dependent (shift_in (shift_in acc v0) v1). intros z E2. change (2 ^ 4)%Z with 16%Z. Z.to_euclidean_division_equations. lia.
Qed.

Lemma second_byte acc v1 v2 (c : byte) : (0 <= v1 < 64)%Z -> (0 <= v2 < 64)%Z -> ((v1 mod 16) * 16 + v2 / 4 = bval c)%Z ->
  byte_of_Z (Z.shiftr (shift_in (shift_in acc v1) v2) 2) = c.
Proof.
intros H0 H1 E. apply byte_eq. rewrite Z.shiftr_div_pow2 by lia. pose proof (shift_in_two (shift_in acc v1) v2 H1) as E2. rewrite shift_in_low in E2 by done.
pose proof (bval_range c). generalize dependent (shift_in (shift_in acc v1) v2). intros z E2. change (2 ^ 2)%Z with 4%Z. Z.to_euclidean_division_equations. lia.
Qed.

Lemma third_byte acc v2 v3 (c : byte) : (0 <= v2 < 64)%Z -> (0 <= v3 < 64)%Z -> ((v2 mod 4) * 64 + v3 = bval c)%Z ->
  byte_of_Z (Z.shiftr (shift_in (shift_in acc v2) v3) 0) = c.
Proof.
intros H0 H1 E. apply byte_eq. rewrite Z.shiftr_0_r. pose proof (shift_in_two (shift_in acc v2) v3 H1) as E2. rewrite shift_in_low in E2 by done.
pose proof (bval_range c). generalize dependent (shift_in (shift_in acc v2) v3). intros z E2. Z.to_euclidean_division_equations. lia.
Qed.

(** The sextets of three bytes. *)
Lemma sextets a b c : (0 <= a < 256)%Z -> (0 <= b < 256)%Z -> (0 <= c < 256)%Z ->
  let n := Z.lor (Z.lor (Z.shiftl a 16) (Z.shiftl b 8)) c in
  sextet n 18 = (a / 4)%Z /\ sextet n 12 = ((a mod 4) * 16 + b / 16)%Z /\ sextet n 6 = ((b mod 16) * 4 + c / 64)%Z /\ sextet n 0 = (c mod 64)%Z.
Proof.
intros Ha Hb Hc. cbn zeta. rewrite <- Z.lor_assoc, (lor_shiftl b c 8), lor_shiftl by (try change (2 ^ 16)%Z with 65536%Z; try change (2 ^ 8)%Z with 256%Z; lia).
unfold sextet. change (2 ^ 16)%Z with 65536%Z. change (2 ^ 8)%Z with 256%Z. change (2 ^ 18)%Z with 262144%Z. change (2 ^ 12)%Z with 4096%Z. change (2 ^ 6)%Z with 64%Z. change (2 ^ 0)%Z with 1%Z.
repeat split; Z.to_euclidean_division_equations; lia.
Qed.

Lemma decode_pad acc nbits l : Forall (fun b => b = PAD) l -> decode_from acc nbits l = Some [].
Proof. induction 1 as [|b l -> _ IH]; [done|]. cbn [decode_from]. by rewrite bool_decide_eq_true_2 by (by left). Qed.

Lemma decode_two acc n rest :
  decode_from acc 0 (letter STD_ALPHABET n 18 :: letter STD_ALPHABET n 12 :: rest) =
  let acc := shift_in (shift_in acc (sextet n 18)) (sextet n 12) in out ← decode_from acc 4 rest; Some (byte_of_Z (Z.shiftr acc 4) :: out).
Proof. rewrite decode_letter by lia. cbn zeta. rewrite bool_decide_eq_false_2 by lia. rewrite decode_letter by lia. cbn zeta. by rewrite bool_decide_eq_true_2 by lia. Qed.

Lemma decode_third acc n rest :
  decode_from acc 4 (letter STD_ALPHABET n 6 :: rest) =
  let acc := shift_in acc (sextet n 6) in out ← decode_from acc 2 rest; Some (byte_of_Z (Z.shiftr acc 2) :: out).
Proof. rewrite decode_letter by lia. cbn zeta. by rewrite bool_decide_eq_true_2 by lia. Qed.

Lemma decode_fourth acc n rest :
  decode_from acc 2 (letter STD_ALPHABET n 0 :: rest) =
  let acc := shift_in acc (sextet n 0) in out ← decode_from acc 0 rest; Some (byte_of_Z (Z.shiftr acc 0) :: out).
Proof. rewrite decode_letter by lia. cbn zeta. by rewrite bool_decide_eq_true_2 by lia. Qed.

Lemma decode_encode pad input acc : decode_from acc 0 (encode_with STD_ALPHABET pad input) = Some input.
Proof.
revert acc. induction input as [input IH] using (induction_ltof1 _ length). intros acc.
assert (forall a b, (0 <= a < 256)%Z -> (0 <= b < 256)%Z -> (a / 4 * 4 + ((a mod 4) * 16 + b / 16) / 16 = a)%Z) as D0 by (clear; intros; Z.to_euclidean_division_equations; lia).
assert (forall a b c, (0 <= a < 256)%Z -> (0 <= b < 256)%Z -> (0 <= c < 256)%Z -> (((a mod 4) * 16 + b / 16) mod 16 * 16 + ((b mod 16) * 4 + c / 64) / 4 = b)%Z) as D1 by (clear; intros; Z.to_euclidean_division_equations; lia).
assert (forall b c, (0 <= b < 256)%Z -> (0 <= c < 256)%Z -> (((b mod 16) * 4 + c / 64) mod 4 * 64 + c mod 64 = c)%Z) as D2 by (clear; intros; Z.to_euclidean_division_equations; lia).
destruct input as [|c0 [|c1 [|c2 rest]]]; [done| | |]; cbn [encode_with app]; cbn zeta; rewrite decode_two; cbn zeta; pose proof (bval_range c0) as R0.
- destruct (sextets (bval c0) 0 0) as (E0 & E1 & _); [lia..|]. rewrite Z.shiftl_0_l, !Z.lor_0_r in E0, E1.
  rewrite (first_byte _ _ _ c0); [|apply sextet_range..|rewrite E0, E1; by apply D0]. rewrite decode_pad by (by destruct pad; repeat constructor). done.
- pose proof (bval_range c1) as R1. destruct (sextets (bval c0) (bval c1) 0) as (E0 & E1 & E2 & _); [lia..|]. rewrite Z.lor_0_r in E0, E1, E2.
  rewrite (first_byte _ _ _ c0); [|apply sextet_range..|rewrite E0, E1; by apply D0]. rewrite decode_third. cbn zeta.
  rewrite (second_byte _ _ _ c1); [|apply sextet_range..|rewrite E1, E2; by apply D1]. rewrite decode_pad by (by destruct pad; repeat constructor). done.
- pose proof (bval_range c1) as R1. pose proof (bval_range c2) as R2. destruct (sextets (bval c0) (bval c1) (bval c2)) as (E0 & E1 & E2 & E3); [done..|].
  rewrite (first_byte _ _ _ c0); [|apply sextet_range..|rewrite E0, E1; by apply D0]. rewrite decode_third. cbn zeta.
  rewrite (second_byte _ _ _ c1); [|apply sextet_range..|rewrite E1, E2; by apply D1]. rewrite decode_fourth. cbn zeta.
  rewrite (third_byte _ _ _ c2); [|apply sextet_range..|rewrite E2, E3; by apply D2]. rewrite IH by (unfold ltof; cbn; lia). done.
Qed.

(** Channel messages survive both framings of the WebSocket protocol, for every channel
    of one digit and every payload. *)
Theorem channel_roundtrip channel payload : (0 <= channel <= 9)%Z ->
  decode_binary (encode_binary channel payload) = Some (channel, payload) /\
  decode_base64 (encode_base64 channel payload) = Some (channel, payload).
Proof.
intros Hc. split.
- cbn. rewrite bval_byte_of_Z, Z.mod_small by lia. done.
- unfold decode_base64, encode_base64, encode_std, decode_std. rewrite digit_byte_is_digit, decode_encode, digit_byte_val by lia. done.
Qed.

Lemma channel_roundtrip_witness : decode_base64 (encode_base64 STDOUT (str "hello")) = Some (STDOUT, str "hello").
Proof. apply (channel_roundtrip STDOUT (str "hello")). unfold STDOUT. lia. Defined.

(** ** Tokens *)

Lemma length_encode_url input : length input = 6 -> length (encode_url_nopad input) = 8.
Proof. intros H. do 6 (destruct input as [|? input]; [done|]). destruct input; [done|]. discriminate H. Qed.

(** The letters of a text, as those of the standard alphabet. *)
Definition translate (s : bytes) : bytes :=
  (fun b => match position b URL_ALPHABET with Some i => nth (Z.to_nat i) STD_ALPHABET x00 | None => b end) <$> s.

Lemma translate_letter : forall i, (0 <= i < 64)%Z -> translate [nth (Z.to_nat i) URL_ALPHABET x00] = [nth (Z.to_nat i) STD_ALPHABET x00].
Proof.
assert (Forall (fun i => translate [nth (Z.to_nat i) URL_ALPHABET x00] = [nth (Z.to_nat i) STD_ALPHABET x00]) (seqZ 0 64)) as H by by_eval.
intros i Hi. rewrite Forall_forall in H. apply H, elem_of_seqZ. lia.
Qed.

(** Distinct random bytes give distinct tokens. *)
Lemma encode_url_inj a b : encode_url_nopad a = encode_url_nopad b -> a = b.
Proof.
assert (forall x, translate (encode_url_nopad x) = encode_with STD_ALPHABET false x) as T.
{ assert (forall n k l, (0 <= k)%Z -> translate (letter URL_ALPHABET n k :: l) = letter STD_ALPHABET n k :: translate l) as L.
  { intros n k l Hk. rewrite !letter_eq by done. unfold translate. rewrite fmap_cons. f_equal.
    pose proof (translate_letter _ (sextet_range n k)) as H. by injection H. }
  intros x. unfold encode_url_nopad. induction x as [x IH] using (induction_ltof1 _ length).
  destruct x as [|c0 [|c1 [|c2 rest]]]; [done| | |]; cbn [encode_with app]; cbn zeta; rewrite !L by lia; [done|done|].
  rewrite IH by (unfold ltof; cbn; lia). done. }
intros H. apply (f_equal translate) in H. rewrite !T in H. apply (f_equal (decode_from 0 0)) in H. rewrite !decode_encode in H. by injection H.
Qed.
