(* ===== verification/Spdy.v ===== *)
(** The framing of the CRI streaming server (crates/lightr-cri/crates/lightr-cri-stream/src/
    spdy/): SPDY/3.1 frames (frame.rs), header blocks (headers.rs), the negotiation of the
    protocol version (mod.rs), and the reading of frames from a connection ([read_frame] of
    conn.rs). *)

From Stdlib Require Import ZArith Lia.
From S2P Require Import Prelude Text Error Packet.

(** * Frames *)

Definition SPDY_VERSION : Z := 3.
Definition TYPE_SYN_STREAM : Z := 1.
Definition TYPE_SYN_REPLY : Z := 2.
Definition TYPE_RST_STREAM : Z := 3.
Definition TYPE_SETTINGS : Z := 4.
Definition TYPE_PING : Z := 6.
Definition TYPE_GOAWAY : Z := 7.
Definition TYPE_HEADERS : Z := 8.
Definition TYPE_WINDOW_UPDATE : Z := 9.
Definition FLAG_FIN : Z := 0x01.
Definition RST_REFUSED_STREAM : Z := 3.

(** Header blocks are compressed. *)
Inductive Frame :=
  | SynStream (stream_id assoc_stream_id priority flags : Z) (header_block : bytes)
  | SynReply (stream_id flags : Z) (header_block : bytes)
  | RstStream (stream_id status : Z)
  | Settings (payload : bytes)
  | Ping (id : Z)
  | GoAway (last_good_stream_id status : Z)
  | Headers (stream_id flags : Z) (header_block : bytes)
  | WindowUpdate (stream_id delta : Z)
  | Data (stream_id flags : Z) (data : bytes).

#[export] Instance Frame_eq_dec : EqDecision Frame.
Proof. solve_decision. Defined.

Inductive ParseResult := PFrame (f : Frame) (n : nat) | NeedMore | PError (e : bytes).

Definition be_u32 (b : bytes) : Z := be_val (take 4 b).
Definition MASK31 : Z := 0x7fffffff.

(** The frame of a control payload, once the header has been read. *)
Definition parse_control (ftype flags : Z) (payload : bytes) : Frame + bytes :=
  if bool_decide (ftype = TYPE_SYN_STREAM) then
    if bool_decide (length payload < 10) then inr (str "short SYN_STREAM")
    else inl (SynStream (Z.land (be_u32 (field 0 4 payload)) MASK31) (Z.land (be_u32 (field 4 4 payload)) MASK31)
                (Z.shiftr (bval (byte_at 8 payload)) 5) flags (drop 10 payload))
  else if bool_decide (ftype = TYPE_SYN_REPLY) then
    if bool_decide (length payload < 4) then inr (str "short SYN_REPLY")
    else inl (SynReply (Z.land (be_u32 (field 0 4 payload)) MASK31) flags (drop 4 payload))
  else if bool_decide (ftype = TYPE_RST_STREAM) then
    if bool_decide (length payload < 8) then inr (str "short RST_STREAM")
    else inl (RstStream (Z.land (be_u32 (field 0 4 payload)) MASK31) (be_u32 (field 4 4 payload)))
  else if bool_decide (ftype = TYPE_SETTINGS) then inl (Settings payload)
  else if bool_decide (ftype = TYPE_PING) then
    if bool_decide (length payload < 4) then inr (str "short PING") else inl (Ping (be_u32 (field 0 4 payload)))
  else if bool_decide (ftype = TYPE_GOAWAY) then
    if bool_decide (length payload < 8) then inr (str "short GOAWAY")
    else inl (GoAway (Z.land (be_u32 (field 0 4 payload)) MASK31) (be_u32 (field 4 4 payload)))
  else if bool_decide (ftype = TYPE_HEADERS) then
    if bool_decide (length payload < 4) then inr (str "short HEADERS")
    else inl (Headers (Z.land (be_u32 (field 0 4 payload)) MASK31) flags (drop 4 payload))
  else if bool_decide (ftype = TYPE_WINDOW_UPDATE) then
    if bool_decide (length payload < 8) then inr (str "short WINDOW_UPDATE")
    else inl (WindowUpdate (Z.land (be_u32 (field 0 4 payload)) MASK31) (Z.land (be_u32 (field 4 4 payload)) MASK31))
  else inr (str "unknown control frame type " ++ dec ftype).

(** The length field: three bytes, the most significant one first. *)
Definition length24 (a b c : byte) : nat :=
  Z.to_nat (Z.lor (Z.lor (Z.shiftl (bval a) 16) (Z.shiftl (bval b) 8)) (bval c)).

Definition parse_frame (buf : bytes) : ParseResult :=
  if bool_decide (length buf < 8) then NeedMore
  else
    let total := 8 + length24 (byte_at 5 buf) (byte_at 6 buf) (byte_at 7 buf) in
    if bool_decide (length buf < total) then NeedMore
    else
      let payload := field 8 (total - 8) buf in
      let flags := bval (byte_at 4 buf) in
      if bool_decide (Z.land (bval (byte_at 0 buf)) 0x80 = 0)%Z then
        PFrame (Data (Z.land (be_u32 (field 0 4 buf)) MASK31) flags payload) total
      else
        let version := Z.lor (Z.shiftl (Z.land (bval (byte_at 0 buf)) 0x7f) 8) (bval (byte_at 1 buf)) in
        if bool_decide (version <> SPDY_VERSION) then PError (str "unsupported SPDY version " ++ dec version)
        else
          let ftype := Z.lor (Z.shiftl (bval (byte_at 2 buf)) 8) (bval (byte_at 3 buf)) in
          match parse_control ftype flags payload with
          | inl f => PFrame f total
          | inr e => PError e
          end.

Definition control_header (ftype flags : Z) (length : nat) : bytes :=
  [byte_of_Z (Z.lor 0x80 (Z.shiftr SPDY_VERSION 8)); byte_of_Z (Z.land SPDY_VERSION 0xff)] ++ be_bytes 2 ftype ++
  [byte_of_Z flags; byte_of_Z (Z.shiftr (Z.of_nat length) 16); byte_of_Z (Z.shiftr (Z.of_nat length) 8); byte_of_Z (Z.of_nat length)].

Definition id_bytes (id : Z) : bytes := be_bytes 4 (Z.land id MASK31).

Definition serialize (f : Frame) : bytes :=
  match f with
  | SynReply stream_id flags header_block =>
      control_header TYPE_SYN_REPLY flags (4 + length header_block) ++ id_bytes stream_id ++ header_block
  | SynStream stream_id assoc_stream_id priority flags header_block =>
      control_header TYPE_SYN_STREAM flags (10 + length header_block) ++ id_bytes stream_id ++ id_bytes assoc_stream_id ++
      [byte_of_Z (Z.shiftl priority 5); byte_of_Z 0] ++ header_block
  | Headers stream_id flags header_block =>
      control_header TYPE_HEADERS flags (4 + length header_block) ++ id_bytes stream_id ++ header_block
  | RstStream stream_id status => control_header TYPE_RST_STREAM 0 8 ++ id_bytes stream_id ++ be_bytes 4 status
  | Ping id => control_header TYPE_PING 0 4 ++ be_bytes 4 id
  | GoAway last status => control_header TYPE_GOAWAY 0 8 ++ id_bytes last ++ be_bytes 4 status
  | Settings payload => control_header TYPE_SETTINGS 0 (length payload) ++ payload
  | WindowUpdate stream_id delta => control_header TYPE_WINDOW_UPDATE 0 8 ++ id_bytes stream_id ++ id_bytes delta
  | Data stream_id flags data =>
      id_bytes stream_id ++ [byte_of_Z flags; byte_of_Z (Z.shiftr (Z.of_nat (length data)) 16);
                             byte_of_Z (Z.shiftr (Z.of_nat (length data)) 8); byte_of_Z (Z.of_nat (length data))] ++ data
  end.

(** * Header blocks *)

Definition header := (bytes * bytes)%type.

Definition header_bytes (h : header) : bytes :=
  be_bytes 4 (Z.of_nat (length h.1)) ++ h.1 ++ be_bytes 4 (Z.of_nat (length h.2)) ++ h.2.

Definition serialize_headers (headers : list header) : bytes :=
  be_bytes 4 (Z.of_nat (length headers)) ++ mjoin (header_bytes <$> headers).

(** [buf.get(pos..pos + len)]; the positions are below 2^33, so [checked_add] on a 64-bit
    [usize] does not fail. *)
Definition read_bytes (buf : bytes) (pos len : nat) : option (bytes * nat) :=
  if bool_decide (pos + len <= length buf) then Some (field pos len buf, pos + len) else None.

Definition read_u32 (buf : bytes) (pos : nat) : option (Z * nat) :=
  '(b, pos) ← read_bytes buf pos 4; Some (be_val b, pos).

Definition from_utf8 (b : bytes) : option bytes := if utf8_valid b then Some b else None.

Fixpoint read_headers (count : nat) (buf : bytes) (pos : nat) : option (list header) :=
  match count with
  | 0 => Some []
  | S count =>
      '(name_len, pos) ← read_u32 buf pos;
      '(name, pos) ← read_bytes buf pos (Z.to_nat name_len);
      '(value_len, pos) ← read_u32 buf pos;
      '(value, pos) ← read_bytes buf pos (Z.to_nat value_len);
      name ← from_utf8 name; value ← from_utf8 value;
      rest ← read_headers count buf pos;
      Some ((name, value) :: rest)
  end.

Definition deserialize_headers (buf : bytes) : option (list header) :=
  '(count, pos) ← read_u32 buf 0;
  if bool_decide (1024 < count)%Z then None else read_headers (Z.to_nat count) buf pos.

Definition get (headers : list header) (name : bytes) : option bytes :=
  snd <$> List.find (fun h => eq_ignore_ascii_case h.1 name) headers.

(** * Versions of the exec and attach protocol *)

Definition SPDY_EXEC_PROTOCOLS : list bytes :=
  str <$> ["channel.k8s.io"; "v2.channel.k8s.io"; "v3.channel.k8s.io"; "v4.channel.k8s.io"; "v5.channel.k8s.io"]%string.

Definition offered_versions (header : bytes) : list bytes :=
  filter (fun s => s <> []) (trim <$> (split_on x2c header ≫= split_on x20)).

Definition negotiate_exec_protocol (header : bytes) : option bytes :=
  List.find (fun sv => bool_decide (sv ∈ offered_versions header)) (reverse SPDY_EXEC_PROTOCOLS).

(** * Compression

    The header codecs are zlib streams with the state of a connection.  [decompress] is [None]
    when zlib reports an error. *)

Class Zlib := mkZlib {
  zin : Type; zout : Type; zin_new : zin; zout_new : zout;
  decompress : zin -> bytes -> option bytes * zin;
  compress : zout -> bytes -> bytes * zout }.

(** * Reading frames from a connection

    What the reads of the connection return, in order: some bytes, or an error; after the
    last of them the end of the stream. *)

Inductive read := RBytes (b : bytes) | RErr (k : ErrorKind).

Fixpoint read_frame (stream : list read) (buf : bytes) : Result (option Frame) * bytes * list read :=
  match parse_frame buf with
  | PFrame f n => (Ok (Some f), drop n buf, stream)
  | PError _ => (Err (Io InvalidData), buf, stream)
  | NeedMore =>
      match stream with
      | [] => (Ok None, buf, [])
      | RErr k :: stream => (Err (Io k), buf, stream)
      | RBytes b :: stream => if bool_decide (b = []) then (Ok None, buf, stream) else read_frame stream (buf ++ b)
      end
  end.

(** The frames that a loop over [read_frame] sees before it stops. *)
Fixpoint read_loop (fuel : nat) (stream : list read) (buf : bytes) : list Frame :=
  match fuel with
  | 0 => []
  | S fuel =>
      match read_frame stream buf with
      | (Ok (Some f), buf, stream) => f :: read_loop fuel stream buf
      | _ => []
      end
  end.

Definition read_size (r : read) : nat := match r with RBytes b => length b | RErr _ => 0 end.

(** A frame is at least eight bytes, so one turn per byte is enough. *)
Definition frames_of (stream : list read) : list Frame := read_loop (S (sum_list (read_size <$> stream))) stream [].

(** * Facts about the framing *)

Lemma length24_eq n : (Z.of_nat n < 2 ^ 24)%Z ->
  length24 (byte_of_Z (Z.shiftr (Z.of_nat n) 16)) (byte_of_Z (Z.shiftr (Z.of_nat n) 8)) (byte_of_Z (Z.of_nat n)) = n.
Proof.
intros Hn. unfold length24. rewrite !bval_byte_of_Z, !Z.shiftr_div_pow2, <- Z.lor_assoc by lia.
assert (0 <= Z.of_nat n)%Z as H0 by lia. rewrite <- (Nat2Z.id n) at 4. f_equal. generalize dependent (Z.of_nat n). intros z Hz H0.
rewrite (lor_shiftl _ (z mod 256) 8) by (try apply Z.mod_pos_bound; lia).
change (2 ^ 8)%Z with 256%Z. change (2 ^ 16)%Z with 65536%Z. pose proof (Z.mod_pos_bound (z / 256) 256 ltac:(lia)). pose proof (Z.mod_pos_bound z 256 ltac:(lia)).
rewrite lor_shiftl by (change (2 ^ 16)%Z with 65536%Z; lia). change (2 ^ 16)%Z with 65536%Z.
Z.to_euclidean_division_equations. lia.
Qed.

(** The first eight bytes and the payload decide a frame. *)
Definition decide_frame (b0 b1 b2 b3 flags : byte) (payload : bytes) : Frame + bytes :=
  if bool_decide (Z.land (bval b0) 0x80 = 0)%Z then inl (Data (Z.land (be_val [b0; b1; b2; b3]) MASK31) (bval flags) payload)
  else
    let version := Z.lor (Z.shiftl (Z.land (bval b0) 0x7f) 8) (bval b1) in
    if bool_decide (version <> SPDY_VERSION) then inr (str "unsupported SPDY version " ++ dec version)
    else parse_control (Z.lor (Z.shiftl (bval b2) 8) (bval b3)) (bval flags) payload.

Lemma parse_frame_eq b0 b1 b2 b3 flags l0 l1 l2 r :
  parse_frame (b0 :: b1 :: b2 :: b3 :: flags :: l0 :: l1 :: l2 :: r) =
  let n := length24 l0 l1 l2 in
  if bool_decide (length r < n) then NeedMore
  else match decide_frame b0 b1 b2 b3 flags (take n r) with inl f => PFrame f (8 + n) | inr e => PError e end.
Proof.
unfold parse_frame. rewrite bool_decide_eq_false_2 by (cbn; lia). cbn [byte_at nth]. cbn zeta.
destruct (bool_decide_reflect (length r < length24 l0 l1 l2)) as [H|H].
- by rewrite bool_decide_eq_true_2 by (cbn; lia).
- rewrite bool_decide_eq_false_2 by (cbn; lia). unfold decide_frame. replace (8 + length24 l0 l1 l2 - 8) with (length24 l0 l1 l2) by lia.
  cbn [byte_at nth]. unfold field at 2 3. cbn [drop take]. unfold be_u32, field. cbn [drop take].
  case_bool_decide; [done|]. case_bool_decide; [done|]. done.
Qed.

Lemma eight (buf : bytes) : 8 <= length buf -> exists b0 b1 b2 b3 flags l0 l1 l2 r, buf = b0 :: b1 :: b2 :: b3 :: flags :: l0 :: l1 :: l2 :: r.
Proof. intros H. do 8 (destruct buf as [|? buf]; [cbn in H; lia|]). by repeat eexists. Qed.

(** What was decided stays decided when more bytes arrive. *)
Lemma parse_frame_stable (buf more : bytes) : parse_frame buf <> NeedMore -> parse_frame (buf ++ more) = parse_frame buf.
Proof.
intros H. destruct (decide (length buf < 8)) as [Hs|Hs]; [by unfold parse_frame in H at 1; rewrite bool_decide_eq_true_2 in H|].
destruct (eight buf ltac:(lia)) as (b0 & b1 & b2 & b3 & fl & l0 & l1 & l2 & r & ->). cbn [app]. rewrite !parse_frame_eq in *. cbn zeta in *.
rewrite length_app. destruct (bool_decide_reflect (length r < length24 l0 l1 l2)) as [Hr|Hr]; [done|]. rewrite bool_decide_eq_false_2 by lia. by rewrite take_app_le by lia.
Qed.

Lemma parse_frame_progress buf f n : parse_frame buf = PFrame f n -> 8 <= n <= length buf.
Proof.
intros H. destruct (decide (length buf < 8)) as [Hs|Hs]; [by unfold parse_frame in H; rewrite bool_decide_eq_true_2 in H|].
destruct (eight buf ltac:(lia)) as (b0 & b1 & b2 & b3 & fl & l0 & l1 & l2 & r & ->). rewrite parse_frame_eq in H. cbn zeta in H.
destruct (bool_decide_reflect (length r < length24 l0 l1 l2)) as [Hr|Hr]; [done|]. destruct (decide_frame _ _ _ _ _ _); [|done]. injection H as _ <-. cbn. lia.
Qed.

(** A frame that fits its format: identifiers of 31 bits, a priority of 3, a length of 24. *)
Definition u31 (z : Z) : Prop := (0 <= z < 2 ^ 31)%Z.

Definition frame_wf (f : Frame) : Prop :=
  match f with
  | SynStream s a p fl h => u31 s /\ u31 a /\ (0 <= p < 8)%Z /\ u8 fl /\ (Z.of_nat (10 + length h) < 2 ^ 24)%Z
  | SynReply s fl h | Headers s fl h => u31 s /\ u8 fl /\ (Z.of_nat (4 + length h) < 2 ^ 24)%Z
  | RstStream s status | GoAway s status => u31 s /\ u32 status
  | Settings payload => (Z.of_nat (length payload) < 2 ^ 24)%Z
  | Ping id => u32 id
  | WindowUpdate s delta => u31 s /\ u31 delta
  | Data s fl data => u31 s /\ u8 fl /\ (Z.of_nat (length data) < 2 ^ 24)%Z
  end.

Lemma mask31 z : u31 z -> Z.land z MASK31 = z.
Proof. intros H. unfold MASK31. change 0x7fffffff%Z with (Z.ones 31). rewrite Z.land_ones by lia. by apply Z.mod_small. Qed.

Lemma be_val_u32 z : u32 z -> be_val (be_bytes 4 z) = z.
Proof. intros H. rewrite be_val_be_bytes. by apply Z.mod_small. Qed.

Lemma be_u32_at a z l r : length l = a -> u32 z -> be_u32 (field a 4 (l ++ be_bytes 4 z ++ r)) = z.
Proof. intros Hl Hz. rewrite field_app by (done || apply length_be_bytes). unfold be_u32. rewrite take_ge by (by rewrite length_be_bytes). by apply be_val_u32. Qed.

Lemma id_at a z l r : length l = a -> u31 z -> Z.land (be_u32 (field a 4 (l ++ id_bytes z ++ r))) MASK31 = z.
Proof. intros Hl Hz. unfold id_bytes. rewrite (mask31 z Hz), be_u32_at; [by apply mask31|done|unfold u31, u32 in *; lia]. Qed.

Lemma length_id_bytes z : length (id_bytes z) = 4.
Proof. apply length_be_bytes. Qed.

Lemma parse_control_header t fl n payload rest :
  u16 t -> u8 fl -> length payload = n -> (Z.of_nat n < 2 ^ 24)%Z ->
  parse_frame (control_header t fl n ++ payload ++ rest) = match parse_control t fl payload with inl f => PFrame f (8 + n) | inr e => PError e end.
Proof.
intros Ht Hf Hl Hn. unfold control_header. change (be_bytes 2 t) with [byte_of_Z (t / 256); byte_of_Z t]. cbn [app].
rewrite parse_frame_eq, length24_eq by done. cbn zeta. rewrite bool_decide_eq_false_2 by (rewrite length_app; lia). rewrite take_app_length' by done.
unfold decide_frame. rewrite bool_decide_eq_false_2 by (by vm_compute). rewrite bool_decide_eq_false_2 by (intros H; by vm_compute in H).
rewrite !bval_byte_of_Z. unfold u16, u8 in *. rewrite (Z.mod_small fl), (Z.mod_small (t / 256)) by (try (Z.to_euclidean_division_equations; lia); done).
rewrite lor_shiftl by (try apply Z.mod_pos_bound; lia). replace (t / 256 * 2 ^ 8 + t mod 256)%Z with t; [done|]. change (2 ^ 8)%Z with 256%Z. pose proof (Z.div_mod t 256). lia.
Qed.

Lemma low_half : forall b, (bval b < 128)%Z -> Z.land (bval b) 0x80 = 0%Z.
Proof. apply (byte_forall (fun b => (bval b < 128)%Z -> Z.land (bval b) 0x80 = 0%Z)). vm_compute. reflexivity. Qed.

Lemma data_header z fl n payload rest :
  u31 z -> u8 fl -> length payload = n -> (Z.of_nat n < 2 ^ 24)%Z ->
  parse_frame (id_bytes z ++ [byte_of_Z fl; byte_of_Z (Z.shiftr (Z.of_nat n) 16); byte_of_Z (Z.shiftr (Z.of_nat n) 8); byte_of_Z (Z.of_nat n)] ++ payload ++ rest) =
  PFrame (Data z fl payload) (8 + n).
Proof.
intros Hz Hf Hl Hn. unfold id_bytes. rewrite mask31 by done.
change (be_bytes 4 z) with [byte_of_Z (z / 256 / 256 / 256); byte_of_Z (z / 256 / 256); byte_of_Z (z / 256); byte_of_Z z]. cbn [app].
rewrite parse_frame_eq, length24_eq by done. cbn zeta. rewrite bool_decide_eq_false_2 by (rewrite length_app; lia). rewrite take_app_length' by done.
unfold decide_frame. change [byte_of_Z (z / 256 / 256 / 256); byte_of_Z (z / 256 / 256); byte_of_Z (z / 256); byte_of_Z z] with (be_bytes 4 z).
unfold u31, u8 in *. rewrite be_val_u32, (mask31 z), (bval_byte_of_Z fl), (Z.mod_small fl) by (unfold u32, u31; lia). rewrite bool_decide_eq_true_2; [done|].
assert (bval (byte_of_Z (z / 256 / 256 / 256)) < 128)%Z as Hb; [|by apply low_half].
rewrite bval_byte_of_Z, !Z.div_div, Z.mod_small by (lia || (split; [apply Z.div_pos; lia|apply Z.div_lt_upper_bound; lia])). apply Z.div_lt_upper_bound; lia.
Qed.

Lemma length_control_header t fl n : length (control_header t fl n) = 8.
Proof. unfold control_header. rewrite !length_app, length_be_bytes. done. Qed.

Lemma parse_control_frame t fl n payload rest f :
  u16 t -> u8 fl -> length payload = n -> (Z.of_nat n < 2 ^ 24)%Z -> parse_control t fl payload = inl f ->
  parse_frame ((control_header t fl n ++ payload) ++ rest) = PFrame f (length (control_header t fl n ++ payload)).
Proof. intros Ht Hf Hl Hn H. rewrite <- app_assoc, parse_control_header, H by done. by rewrite length_app, length_control_header, Hl. Qed.

(** The words of a payload. *)
Lemma first_id s r : u31 s -> Z.land (be_u32 (field 0 4 (id_bytes s ++ r))) MASK31 = s.
Proof. by apply (id_at 0 s []). Qed.

Lemma second_id s a r : u31 a -> Z.land (be_u32 (field 4 4 (id_bytes s ++ id_bytes a ++ r))) MASK31 = a.
Proof. apply id_at, length_id_bytes. Qed.

Lemma second_word s z r : u32 z -> be_u32 (field 4 4 (id_bytes s ++ be_bytes 4 z ++ r)) = z.
Proof. apply be_u32_at, length_id_bytes. Qed.

Lemma priority_bits p : (0 <= p < 8)%Z -> Z.shiftr (bval (byte_of_Z (Z.shiftl p 5))) 5 = p.
Proof.
intros H. rewrite Z.shiftl_mul_pow2, bval_byte_of_Z, Z.mod_small, Z.shiftr_div_pow2 by lia. by apply Z.div_mul.
Qed.

(** Choose the branch of [parse_control] by the type; the payload is long enough. *)
Ltac pick_type :=
  unfold parse_control; repeat (rewrite bool_decide_eq_false_2 by discriminate); rewrite bool_decide_eq_true_2 by reflexivity;
  rewrite ?bool_decide_eq_false_2 by (rewrite ?length_app, ?length_id_bytes, ?length_be_bytes; cbn; lia).

Lemma parse_serialize f rest : frame_wf f -> parse_frame (serialize f ++ rest) = PFrame f (length (serialize f)).
Proof.
destruct f as [s a p fl h|s fl h|s status|payload|id|s status|s fl h|s delta|s fl data]; cbn [frame_wf serialize]; intros Hwf; destruct_and?;
  try (apply parse_control_frame; [done|done|by rewrite ?length_app, ?length_id_bytes, ?length_be_bytes|cbn; lia|pick_type]).
- rewrite first_id, second_id by done. do 2 f_equal. by apply priority_bits.
- rewrite first_id by done. done.
- rewrite first_id by done. rewrite <- (app_nil_r (be_bytes 4 status)), second_word by done. done.
- done.
- do 2 f_equal. rewrite <- (app_nil_r (be_bytes 4 id)). by apply (be_u32_at 0 id []).
- rewrite first_id by done. rewrite <- (app_nil_r (be_bytes 4 status)), second_word by done. done.
- rewrite first_id by done. done.
- rewrite first_id by done. rewrite <- (app_nil_r (id_bytes delta)), second_id by done. done.
- rewrite <- !app_assoc, data_header by done. by rewrite !length_app, length_id_bytes.
Qed.

(** ** Streams of frames *)

Definition chunk (b : bytes) : Prop := b <> [].

Lemma read_frame_enough stream b f rest :
  frame_wf f -> Forall chunk stream -> b ++ mjoin stream = serialize f ++ rest ->
  exists b' stream', read_frame (RBytes <$> stream) b = (Ok (Some f), b', RBytes <$> stream') /\ b' ++ mjoin stream' = rest /\ Forall chunk stream'.
Proof.
intros Hf. revert b. induction stream as [|c stream IH]; intros b Hs E.
- cbn in E. rewrite app_nil_r in E. subst b. exists rest, []. cbn. rewrite parse_serialize by done. by rewrite drop_app_length, app_nil_r.
- apply Forall_cons in Hs as [Hc Hs]. cbn [fmap list_fmap read_frame]. destruct (parse_frame b) as [f' n| |e] eqn:Ep.
  + assert (parse_frame (b ++ mjoin (c :: stream)) = PFrame f' n) as Ep' by (rewrite parse_frame_stable; [done|by rewrite Ep]).
    rewrite E, parse_serialize in Ep' by done. injection Ep' as <- <-. exists (drop (length (serialize f)) b), (c :: stream). split; [done|]. split; [|by constructor].
    apply parse_frame_progress in Ep as [_ Hle]. rewrite <- drop_app_le, E by done. apply drop_app_length.
  + rewrite bool_decide_eq_false_2 by done. apply IH; [done|]. by rewrite <- app_assoc.
  + assert (parse_frame (b ++ mjoin (c :: stream)) = PError e) as Ep' by (rewrite parse_frame_stable; [done|by rewrite Ep]).
    by rewrite E, parse_serialize in Ep' by done.
Qed.

Lemma read_frame_end stream : Forall chunk stream -> mjoin stream = [] -> read_frame (RBytes <$> stream) [] = (Ok None, [], []).
Proof. intros Hs E. destruct stream as [|c stream]; [done|]. apply Forall_cons in Hs as [Hc _]. apply app_nil in E as [-> _]. done. Qed.

Lemma read_loop_frames fs fuel stream b :
  Forall frame_wf fs -> Forall chunk stream -> b ++ mjoin stream = mjoin (serialize <$> fs) -> length fs < fuel ->
  read_loop fuel (RBytes <$> stream) b = fs.
Proof.
revert fuel stream b. induction fs as [|f fs IH]; intros [|fuel] stream b Hf Hs E Hfuel; cbn in Hfuel; [lia| |lia|].
- apply app_nil in E as [-> E]. cbn [read_loop]. by rewrite read_frame_end.
- apply Forall_cons in Hf as [Hf Hfs]. rewrite fmap_cons, join_cons in E. destruct (read_frame_enough stream b f _ Hf Hs E) as (b' & stream' & Er & E' & Hs').
  cbn [read_loop]. rewrite Er. f_equal. apply IH; [done|done|done|lia].
Qed.

Lemma serialize_size f : 8 <= length (serialize f).
Proof. destruct f; cbn [serialize]; rewrite !length_app, ?length_control_header, ?length_id_bytes; cbn; lia. Qed.

(** C22: the reader loses nothing.  Whatever pieces a connection delivers the bytes of a
    sequence of frames in, the loop over [read_frame] sees exactly these frames and then the
    end of the stream. *)
Theorem spdy_stream_exact fs stream :
  Forall frame_wf fs -> Forall chunk stream -> mjoin stream = mjoin (serialize <$> fs) ->
  frames_of (RBytes <$> stream) = fs.
Proof.
intros Hf Hs E. apply read_loop_frames; [done|done|done|].
assert (sum_list (read_size <$> (RBytes <$> stream)) = length (mjoin stream)) as ->.
{ clear. induction stream as [|c l IH]; [done|]. cbn. rewrite length_app. f_equal. exact IH. }
rewrite E. clear. induction fs as [|f fs IH]; [cbn; lia|]. rewrite fmap_cons, join_cons, length_app. pose proof (serialize_size f). cbn [length]. lia.
Qed.

(** ** Header blocks *)

Definition text_wf (s : bytes) : Prop := utf8_valid s = true /\ (Z.of_nat (length s) < 2 ^ 32)%Z.
Definition headers_wf (hs : list header) : Prop := length hs <= 1024 /\ Forall (fun h => text_wf h.1 /\ text_wf h.2) hs.

Lemma read_bytes_at pre b r pos : pos = length pre -> read_bytes (pre ++ b ++ r) pos (length b) = Some (b, length (pre ++ b)).
Proof. intros ->. unfold read_bytes. rewrite bool_decide_eq_true_2 by (rewrite !length_app; lia). by rewrite field_app, length_app. Qed.

Lemma read_u32_at pre z r pos : pos = length pre -> u32 z -> read_u32 (pre ++ be_bytes 4 z ++ r) pos = Some (z, length (pre ++ be_bytes 4 z)).
Proof.
intros Hp Hz. unfold read_u32. pose proof (read_bytes_at pre (be_bytes 4 z) r pos Hp) as H. rewrite length_be_bytes in H. rewrite H. cbn. by rewrite be_val_u32.
Qed.

Lemma length_u32 (s : bytes) : text_wf s -> u32 (Z.of_nat (length s)).
Proof. intros [_ H]. unfold u32. lia. Qed.

Lemma read_headers_at hs pre rest :
  Forall (fun h => text_wf h.1 /\ text_wf h.2) hs -> read_headers (length hs) (pre ++ mjoin (header_bytes <$> hs) ++ rest) (length pre) = Some hs.
Proof.
revert pre. induction hs as [|[n v] hs IH]; intros pre Hwf; [done|]. apply Forall_cons in Hwf as [[Hn Hv] Hwf]. cbn [fst snd] in *.
rewrite fmap_cons, join_cons. unfold header_bytes at 1. cbn [fst snd length read_headers]. rewrite <- !app_assoc.
rewrite read_u32_at by (done || by apply length_u32). cbn [mbind option_bind]. rewrite Nat2Z.id.
rewrite (app_assoc pre), read_bytes_at by done. cbn [mbind option_bind].
rewrite (app_assoc _ n), read_u32_at by (done || by apply length_u32). cbn [mbind option_bind]. rewrite Nat2Z.id.
rewrite (app_assoc _ (be_bytes 4 _)), read_bytes_at by done. cbn [mbind option_bind]. unfold from_utf8.
destruct Hn as [-> _], Hv as [-> _]. cbn [mbind option_bind]. rewrite (app_assoc _ v), IH by done. done.
Qed.

(** Header blocks survive the wire, whatever follows them. *)
Lemma headers_roundtrip hs rest : headers_wf hs -> deserialize_headers (serialize_headers hs ++ rest) = Some hs.
Proof.
intros [Hc Hwf]. unfold deserialize_headers, serialize_headers. rewrite <- app_assoc.
pose proof (read_u32_at [] (Z.of_nat (length hs)) (mjoin (header_bytes <$> hs) ++ rest) 0 eq_refl ltac:(unfold u32; lia)) as H. cbn [app] in H. rewrite H. cbn [mbind option_bind].
rewrite bool_decide_eq_false_2 by lia. rewrite Nat2Z.id. by apply read_headers_at.
Qed.

(** ** Witnesses *)

Module SpdyExample.
Definition frames : list Frame := [SynStream 1 0 3 0 (str "block"); Data 1 FLAG_FIN (str "x"); Ping 7].
Definition pieces : list bytes := let b := mjoin (serialize <$> frames) in [take 3 b; take 11 (drop 3 b); drop 14 b].
End SpdyExample.

Lemma spdy_stream_exact_witness : frames_of (RBytes <$> SpdyExample.pieces) = SpdyExample.frames.
Proof.
apply spdy_stream_exact.
- repeat constructor; by vm_compute.
- repeat (constructor; [by vm_compute|]). constructor.
- vm_compute. reflexivity.
Defined.
