(* ===== verification/StreamServer.v ===== *)
(** The CRI streaming server (crates/lightr-cri/crates/lightr-cri-stream/src/): the registry of
    single-use tokens (token.rs), the handlers that turn a token into a session (server.rs),
    and the negotiation of WebSocket protocols (ws.rs, portforward.rs). *)

From Stdlib Require Import ZArith Lia.
From S2P Require Import Prelude Text B64 Spdy.

(** * Sessions *)

Inductive StreamVerb := Exec | Attach | PortForward.

#[export] Instance StreamVerb_eq_dec : EqDecision StreamVerb.
Proof. solve_decision. Defined.

Record StreamParams := mkParams {
  container : option bytes; sandbox : option bytes; cmd : list bytes; tty : bool; stdin : bool;
  ports : list Z; dial_target : option bytes; netns_path : option bytes }.

#[export] Instance StreamParams_eq_dec : EqDecision StreamParams.
Proof. solve_decision. Defined.

(** * The registry

    Instants are nanoseconds of a monotonic clock; [duration_since] is zero when the other
    instant is later. *)

Definition duration_since (now earlier : Z) : Z := Z.max 0 (now - earlier).
Definition TTL : Z := 60 * 1000000000.
Definition MAX_INFLIGHT : Z := 1000.

Record Entry := mkEntry { verb : StreamVerb; params : StreamParams; minted_at : Z }.

Abbreviation TokenRegistry := (gmap bytes Entry).

(** Six bytes of [/dev/urandom], or an I/O error, for each attempt. *)
Definition urandom := nat -> option bytes.

Definition random_token (rnd : urandom) (attempt : nat) : option bytes := encode_url_nopad <$> rnd attempt.

Fixpoint mint_tries (tries attempt : nat) (rnd : urandom) (now : Z) (v : StreamVerb) (p : StreamParams) (map : TokenRegistry) : option bytes * TokenRegistry :=
  match tries with
  | 0 => (None, map)
  | S tries =>
      match random_token rnd attempt with
      | None => (None, map)
      | Some tok =>
          match map !! tok with
          | None => (Some tok, <[tok := mkEntry v p now]> map)
          | Some _ => mint_tries tries (S attempt) rnd now v p map
          end
      end
  end.

Definition fresh_at (now : Z) (e : Entry) : bool := bool_decide (duration_since now (minted_at e) < TTL)%Z.

Definition mint (now : Z) (rnd : urandom) (v : StreamVerb) (p : StreamParams) (map : TokenRegistry) : option bytes * TokenRegistry :=
  let map := filter (fun te => fresh_at now te.2 = true) map in
  if bool_decide (MAX_INFLIGHT <= Z.of_nat (size map))%Z then (None, map) else mint_tries 8 0 rnd now v p map.

Definition consume (now : Z) (token : bytes) (map : TokenRegistry) : option (StreamVerb * StreamParams) * TokenRegistry :=
  match map !! token with
  | None => (None, map)
  | Some entry =>
      (if bool_decide (TTL <= duration_since now (minted_at entry))%Z then None else Some (verb entry, params entry), delete token map)
  end.

(** * Requests and their answers *)

(** What the handlers look at in a request: the header values that are text, whether it asks
    for a WebSocket, and the token of the path. *)
Record Request := mkRequest {
  path : bytes; token : bytes; upgrade_header : option bytes; websocket : bool;
  x_stream_protocol_version : option bytes; sec_websocket_protocol : option bytes; query : option bytes }.

(** A session is described by what its task is started with. *)
Inductive Session :=
  | SpdyExec (proto : bytes) (v : StreamVerb) (p : StreamParams)
  | WsExec (proto : bytes) (v : StreamVerb) (p : StreamParams)
  | SpdyPortForward (dial_host : bytes) (netns : option bytes)
  | WsPortForward (proto : bytes) (ports : list Z) (dial_host : bytes) (netns : option bytes).

Inductive Response := NotFound | BadRequest | Forbidden (versions : list bytes) | SwitchingProtocols (s : Session).

Definition SPDY_PROTOCOL_V4 : bytes := str "v4.channel.k8s.io".
Definition SPDY_PORTFORWARD : bytes := str "portforward.k8s.io".

Definition ALLOWED_PROTOCOLS : list bytes :=
  str <$> ["v5.channel.k8s.io"; "v5.base64.channel.k8s.io"; "v4.channel.k8s.io"; "v4.base64.channel.k8s.io"; "channel.k8s.io"; "base64.channel.k8s.io"]%string.
Definition PF_ALLOWED : list bytes := str <$> ["v4.portforward.k8s.io"; "portforward.k8s.io"]%string.

(** [offered.split(',').any(|p| p.trim() == cand)] *)
Definition offers (offered cand : bytes) : bool := existsb (fun p => bool_decide (trim p = cand)) (split_on x2c offered).

Definition first_offered (allowed : list bytes) (offered : bytes) : bytes := default [] (List.find (offers offered) allowed).

Definition negotiate (offered : option bytes) : bytes :=
  match offered with None => [] | Some offered => first_offered ALLOWED_PROTOCOLS offered end.

Definition pick_pf_protocol (offered : bytes) : bytes := first_offered PF_ALLOWED offered.

Definition parse_ports (query : bytes) : list Z :=
  split_on x26 query ≫= fun pair =>
    match split_once x3d pair with
    | None => []
    | Some (k, v) =>
        if bool_decide (k = str "port" \/ k = str "ports") then
          split_on x2c v ≫= fun tok => match parse_uint (2 ^ 16 - 1) (trim tok) with Some p => [p] | None => [] end
        else []
    end.

Definition wants_spdy (req : Request) : bool :=
  match upgrade_header req with Some v => eq_ignore_ascii_case v (str "SPDY/3.1") | None => false end.

Definition spdy_exec_upgrade (req : Request) (v : StreamVerb) (p : StreamParams) : Response :=
  match x_stream_protocol_version req with
  | Some h =>
      match negotiate_exec_protocol h with
      | Some proto => SwitchingProtocols (SpdyExec proto v p)
      | None => Forbidden SPDY_EXEC_PROTOCOLS
      end
  | None => SwitchingProtocols (SpdyExec SPDY_PROTOCOL_V4 v p)
  end.

Definition spdy_portforward_upgrade (req : Request) (dial_host : bytes) (netns : option bytes) : Response :=
  if match x_stream_protocol_version req with Some h => offers h SPDY_PORTFORWARD | None => true end
  then SwitchingProtocols (SpdyPortForward dial_host netns)
  else Forbidden [SPDY_PORTFORWARD].

Definition path_verb (req : Request) : StreamVerb := if starts_with (str "/attach/") (path req) then Attach else Exec.

(** What the exec and attach handler does once it has the session of the token. *)
Definition upgrade_exec (req : Request) (v : StreamVerb) (p : StreamParams) : Response :=
  if wants_spdy req then spdy_exec_upgrade req v p
  else if websocket req then SwitchingProtocols (WsExec (negotiate (sec_websocket_protocol req)) v p)
  else BadRequest.

Definition exec_attach (now : Z) (req : Request) (registry : TokenRegistry) : Response * TokenRegistry :=
  match consume now (token req) registry with
  | (None, registry) => (NotFound, registry)
  | (Some (v, p), registry) =>
      if bool_decide (v <> path_verb req) then (NotFound, registry) else (upgrade_exec req v p, registry)
  end.

Definition upgrade_portforward (req : Request) (p : StreamParams) : Response :=
  let netns := netns_path p in
  let dial_host := match netns with Some _ => str "127.0.0.1" | None => default (str "127.0.0.1") (dial_target p) end in
  if wants_spdy req then spdy_portforward_upgrade req dial_host netns
  else if websocket req then
    let proto := match sec_websocket_protocol req with Some o => pick_pf_protocol o | None => [] end in
    SwitchingProtocols (WsPortForward proto (parse_ports (default [] (query req))) dial_host netns)
  else BadRequest.

Definition portforward_handler (now : Z) (req : Request) (registry : TokenRegistry) : Response * TokenRegistry :=
  match consume now (token req) registry with
  | (None, registry) => (NotFound, registry)
  | (Some (v, p), registry) =>
      if bool_decide (v <> PortForward) then (NotFound, registry) else (upgrade_portforward req p, registry)
  end.

(** * Histories

    The registry is behind a lock and each call reads the clock under it, so concurrent calls
    happen one after the other at instants that do not decrease.  A history lists them, the
    latest one first. *)

Inductive call := Mint (rnd : urandom) (v : StreamVerb) (p : StreamParams) | ExecRequest (req : Request) | PortForwardRequest (req : Request).
Inductive outcome := Minted (t : option bytes) | Answered (r : Response).

Definition event := (Z * call * outcome)%type.
Definition time (e : event) : Z := e.1.1.

Definition perform (now : Z) (c : call) (m : TokenRegistry) : outcome * TokenRegistry :=
  match c with
  | Mint rnd v p => let '(t, m) := mint now rnd v p m in (Minted t, m)
  | ExecRequest req => let '(r, m) := exec_attach now req m in (Answered r, m)
  | PortForwardRequest req => let '(r, m) := portforward_handler now req m in (Answered r, m)
  end.

Inductive runs : list event -> TokenRegistry -> Prop :=
  | runs_nil : runs [] ∅
  | runs_call h m now c o m' : runs h m -> Forall (fun e => time e <= now)%Z h -> perform now c m = (o, m') -> runs ((now, c, o) :: h) m'.

(** The token that a request presents. *)
Definition presents (c : call) : option bytes :=
  match c with Mint _ _ _ => None | ExecRequest req | PortForwardRequest req => Some (token req) end.

(** The token law: what presenting a token at an instant is good for, by the latest event that
    concerns it.  It was minted less than a minute ago and not presented since. *)
Fixpoint live (h : list event) (t : bytes) (now : Z) : option (StreamVerb * StreamParams) :=
  match h with
  | [] => None
  | (at_, c, o) :: h =>
      match c, o with
      | Mint _ v p, Minted (Some t') =>
          if bool_decide (t' = t) then if bool_decide (now - at_ < TTL)%Z then Some (v, p) else None else live h t now
      | _, _ => if bool_decide (presents c = Some t) then None else live h t now
      end
  end.

(** What the registry would answer. *)
Definition held (now : Z) (t : bytes) (m : TokenRegistry) : option (StreamVerb * StreamParams) :=
  e ← m !! t; if fresh_at now e then Some (verb e, params e) else None.

Lemma consume_held now t m : consume now t m = (held now t m, delete t m).
Proof.
unfold consume, held, fresh_at. destruct (m !! t) as [e|] eqn:E; cbn; [|by rewrite delete_id].
destruct (bool_decide_reflect (duration_since now (minted_at e) < TTL)%Z); [by rewrite bool_decide_eq_false_2 by lia|by rewrite bool_decide_eq_true_2 by lia].
Qed.

Lemma held_delete now t t' m : held now t (delete t' m) = if bool_decide (t' = t) then None else held now t m.
Proof. unfold held. case_bool_decide as H; [subst; by rewrite lookup_delete_eq|by rewrite lookup_delete_ne]. Qed.

Lemma fresh_later now now' e : (now <= now')%Z -> fresh_at now' e = true -> fresh_at now e = true.
Proof. unfold fresh_at, duration_since. rewrite !bool_decide_eq_true. lia. Qed.

Lemma held_sweep now now' t m : (now <= now')%Z -> held now' t (filter (fun te => fresh_at now te.2 = true) m) = held now' t m.
Proof.
intros Hle. unfold held. rewrite map_lookup_filter. destruct (m !! t) as [e|]; [|done]. cbn. destruct (decide (fresh_at now e = true)) as [H|H]; cbn.
- by rewrite option_guard_True.
- rewrite option_guard_False by done. cbn. destruct (fresh_at now' e) eqn:E; [|done]. destruct H. by eapply fresh_later.
Qed.

Lemma mint_tries_spec tries attempt rnd now v p m t m' :
  mint_tries tries attempt rnd now v p m = (t, m') ->
  match t with
  | Some tok => m !! tok = None /\ m' = <[tok := mkEntry v p now]> m /\ exists i, encode_url_nopad <$> rnd i = Some tok
  | None => m' = m
  end.
Proof.
revert attempt. induction tries as [|tries IH]; intros attempt H; cbn in H; [by injection H as <- <-|].
destruct (random_token rnd attempt) as [tok|] eqn:Er; [|by injection H as <- <-]. destruct (m !! tok) eqn:Em; [by apply IH in H|]. injection H as <- <-. eauto.
Qed.

Lemma held_mint now now' rnd v p m t m' tok :
  (now <= now')%Z -> mint now rnd v p m = (t, m') ->
  held now' tok m' = (if bool_decide (t = Some tok) then if bool_decide (now' - now < TTL)%Z then Some (v, p) else None else held now' tok m).
Proof.
intros Hle. unfold mint. case_bool_decide as Hc; intros H.
- injection H as <- <-. by rewrite held_sweep.
- apply mint_tries_spec in H. destruct t as [tok'|]; [|subst; by rewrite held_sweep]. destruct H as (_ & -> & _).
  case_bool_decide as Ht.
  + injection Ht as ->. unfold held. rewrite lookup_insert_eq. cbn. unfold fresh_at, duration_since. cbn. unfold TTL.
    destruct (bool_decide_reflect (now' - now < 60 * 1000000000)%Z); [by rewrite bool_decide_eq_true_2 by lia|by rewrite bool_decide_eq_false_2 by lia].
  + rewrite <- (held_sweep now now' tok m Hle). unfold held. rewrite lookup_insert_ne by congruence. done.
Qed.

Lemma request_registry now c m o m' t : perform now c m = (o, m') -> presents c = Some t -> m' = delete t m.
Proof.
destruct c as [rnd v p|req|req]; cbn; [done|..]; unfold exec_attach, portforward_handler; rewrite consume_held; intros H Ht; injection Ht as <-;
  destruct (held now (token req) m) as [[v p]|]; try case_bool_decide; by injection H as _ <-.
Qed.

Lemma held_live h m t now : runs h m -> Forall (fun e => time e <= now)%Z h -> held now t m = live h t now.
Proof.
intros H. revert t now. induction H as [|h m at_ c o m' Hr IH Hle Hp]; intros t now Hn; [done|]. apply Forall_cons in Hn as [Ht Hn]. cbn in Ht.
destruct c as [rnd v p|req|req].
- cbn in Hp. destruct (mint at_ rnd v p m) as [tok m1] eqn:Em. injection Hp as <- <-. rewrite (held_mint _ _ _ _ _ _ _ _ t Ht Em). cbn.
  rewrite <- IH by done. destruct tok as [tok|]; [|rewrite !bool_decide_eq_false_2 by done; done].
  destruct (bool_decide_reflect (tok = t)) as [->|Hne]; [by rewrite bool_decide_eq_true_2|by rewrite bool_decide_eq_false_2 by congruence].
- rewrite (request_registry _ _ _ _ _ _ Hp eq_refl), held_delete. cbn. rewrite <- IH by done. destruct o; repeat case_bool_decide; congruence.
- rewrite (request_registry _ _ _ _ _ _ Hp eq_refl), held_delete. cbn. rewrite <- IH by done. destruct o; repeat case_bool_decide; congruence.
Qed.

Lemma mint_size now rnd v p m t m' : mint now rnd v p m = (t, m') -> (Z.of_nat (size m') <= MAX_INFLIGHT)%Z \/ size m' <= size m.
Proof.
unfold mint. assert (size (filter (fun te : bytes * Entry => fresh_at now te.2 = true) m) <= size m) as Hs by (apply map_size_filter).
case_bool_decide as Hc; intros H; [injection H as <- <-; by right|]. apply mint_tries_spec in H. destruct t as [tok|]; [|subst; by right].
destruct H as (Hn & -> & _). left. rewrite map_size_insert_None by done. lia.
Qed.

Lemma runs_size h m : runs h m -> (Z.of_nat (size m) <= MAX_INFLIGHT)%Z.
Proof.
induction 1 as [|h m now c o m' _ IH _ Hp]; [by rewrite map_size_empty|]. destruct c as [rnd v p|req|req].
- cbn in Hp. destruct (mint now rnd v p m) as [t m1] eqn:Em. injection Hp as _ <-. apply mint_size in Em. lia.
- rewrite (request_registry _ _ _ _ _ _ Hp eq_refl). etrans; [apply inj_le, map_subseteq_size, delete_subseteq|done].
- rewrite (request_registry _ _ _ _ _ _ Hp eq_refl). etrans; [apply inj_le, map_subseteq_size, delete_subseteq|done].
Qed.

(** C21: a token opens one session.  After any history of calls, the handlers answer a request
    by the token law alone: they start a session exactly when the presented token was minted
    less than a minute ago and not presented since, the session has the verb and the
    parameters it was minted with, and the route fits the verb.  At no time are more than a
    thousand tokens held. *)
Theorem token_law h m now req :
  runs h m -> Forall (fun e => time e <= now)%Z h ->
  (exec_attach now req m).1 = (match live h (token req) now with
    | Some (v, p) => if bool_decide (v = path_verb req) then upgrade_exec req v p else NotFound
    | None => NotFound end) /\
  (portforward_handler now req m).1 = (match live h (token req) now with
    | Some (PortForward, p) => upgrade_portforward req p
    | _ => NotFound end) /\
  (Z.of_nat (size m) <= MAX_INFLIGHT)%Z.
Proof.
intros Hr Ht. split; [|split; [|by eapply runs_size]].
- unfold exec_attach. rewrite consume_held, (held_live h) by done. destruct (live h (token req) now) as [[v p]|]; [|done]. by repeat case_bool_decide.
- unfold portforward_handler. rewrite consume_held, (held_live h) by done. destruct (live h (token req) now) as [[[] p]|]; done.
Qed.

Lemma mint_tries_none tries attempt rnd now v p m m' :
  mint_tries tries attempt rnd now v p m = (None, m') ->
  (exists i, attempt <= i < attempt + tries /\ random_token rnd i = None) \/
  forall i, attempt <= i < attempt + tries -> exists tok, random_token rnd i = Some tok /\ is_Some (m !! tok).
Proof.
revert attempt. induction tries as [|tries IH]; intros attempt H; cbn in H; [right; lia|].
destruct (random_token rnd attempt) as [tok|] eqn:Er; [|left; exists attempt; split; [lia|done]]. destruct (m !! tok) as [e|] eqn:Em; [|done].
destruct (IH _ H) as [(i & Hi & Hn)|Hall]; [left; exists i; split; [lia|done]|right]. intros i Hi. destruct (decide (i = attempt)) as [->|]; [exists tok; rewrite Em; eauto|apply Hall; lia].
Qed.

Lemma held_swept now t m : is_Some (filter (fun te => fresh_at now te.2 = true) m !! t) -> is_Some (held now t m).
Proof. intros [e H]. apply map_lookup_filter_Some in H as [H1 H2]. unfold held. rewrite H1. cbn in *. by rewrite H2. Qed.

(** Minting refuses only for a reason.  It returns a token of eight letters that was not
    live, unless a thousand tokens are live, the random source fails, or eight tokens in a
    row that it yields are live. *)
Theorem mint_fresh now rnd v p m :
  (forall i b, rnd i = Some b -> length b = 6) ->
  match (mint now rnd v p m).1 with
  | Some tok => length tok = 8 /\ held now tok m = None
  | None =>
      (MAX_INFLIGHT <= Z.of_nat (size (filter (fun te => fresh_at now te.2 = true) m)))%Z \/
      (exists i, i < 8 /\ random_token rnd i = None) \/
      forall i, i < 8 -> exists tok, random_token rnd i = Some tok /\ is_Some (held now tok m)
  end.
Proof.
intros Hrnd. destruct (mint now rnd v p m) as [[tok|] m'] eqn:Em; unfold mint in Em; case_bool_decide as Hc; try discriminate; cbn.
- apply mint_tries_spec in Em as (Hn & _ & i & Hi). apply fmap_Some in Hi as (b & Hb & ->). split; [by eapply length_encode_url, Hrnd|].
  rewrite <- (held_sweep now now) by lia. unfold held. by rewrite Hn.
- by left.
- right. destruct (mint_tries_none _ _ _ _ _ _ _ _ Em) as [(i & Hi & Hn)|Hall]; [left; exists i; split; [lia|done]|right].
  intros i Hi. destruct (Hall i ltac:(lia)) as (tok & Ht & Hs). exists tok. split; [done|]. by apply held_swept.
Qed.

(** * Witnesses *)

Module StreamExample.
Definition params : StreamParams := mkParams (Some (str "c0")) None [str "sh"] false true [] None None.
Definition rnd : urandom := fun i => Some (le_bytes 6 (Z.of_nat i)).
Definition tok : bytes := encode_url_nopad (le_bytes 6 0).
Definition req : Request := mkRequest (str "/exec/" ++ tok) tok (Some (str "SPDY/3.1")) false (Some (str "v5.channel.k8s.io")) None None.
Definition registry : TokenRegistry := {[ tok := mkEntry Exec params 5 ]}.
Definition history : list event := [(5%Z, Mint rnd Exec params, Minted (Some tok))].

Lemma history_runs : runs history registry.
Proof.
eapply runs_call; [constructor|constructor|]. cbn [perform]. unfold mint. rewrite map_filter_empty, map_size_empty, bool_decide_eq_false_2 by (unfold MAX_INFLIGHT; lia). cbn [mint_tries].
change (random_token rnd 0) with (Some tok). cbn iota beta. pose proof (lookup_empty (M := gmap bytes) (A := Entry) tok) as ->. done.
Qed.
End StreamExample.

Lemma token_law_witness :
  (exec_attach 9 StreamExample.req StreamExample.registry).1 = SwitchingProtocols (SpdyExec (str "v5.channel.k8s.io") Exec StreamExample.params).
Proof.
destruct (token_law StreamExample.history StreamExample.registry 9 StreamExample.req StreamExample.history_runs) as [-> _].
- repeat constructor. cbn. lia.
- vm_compute. reflexivity.
Defined.

Lemma mint_fresh_witness : length StreamExample.tok = 8 /\ held 0 StreamExample.tok ∅ = None.
Proof.
pose proof (mint_fresh 0 StreamExample.rnd Exec StreamExample.params ∅) as H.
assert ((mint 0 StreamExample.rnd Exec StreamExample.params ∅).1 = Some StreamExample.tok) as E by (vm_compute; reflexivity).
rewrite E in H. apply H. intros i b Hb. injection Hb as <-. apply length_le_bytes.
Defined.
