(* ===== verification/PortForward.v ===== *)
(** Port forwarding over SPDY ([run_portforward] and [spawn_tcp_to_spdy] of crates/lightr-cri/
    crates/lightr-cri-stream/src/spdy/conn.rs): each data stream of the client is connected to
    the forwarded port. *)

From Stdlib Require Import ZArith Lia.
From S2P Require Import Prelude Text Spdy.

(** * Interleavings of tasks that write frames under one lock *)

Inductive interleaving {A} : list (list A) -> list A -> Prop :=
  | interleaving_nil ls : Forall (fun l => l = []) ls -> interleaving ls []
  | interleaving_step ls i x l out : ls !! i = Some (x :: l) -> interleaving (<[i := l]> ls) out -> interleaving ls (x :: out).

(** When only one task writes elements of a kind, they come out in its order. *)
Lemma interleaving_project {A} (P : A -> bool) ls out i l :
  interleaving ls out -> ls !! i = Some l -> (forall j l', ls !! j = Some l' -> j <> i -> List.filter P l' = []) -> List.filter P out = List.filter P l.
Proof.
intros H. revert l. induction H as [ls Hn|ls j x l' out Hj _ IH]; intros l Hl Hother.
- rewrite Forall_forall in Hn. by rewrite (Hn l) by (by eapply list_elem_of_lookup_2).
- assert (j < length ls) as Hlt by (by eapply lookup_lt_Some). destruct (decide (j = i)) as [->|Hne].
  + rewrite Hl in Hj. injection Hj as ->. cbn [List.filter]. rewrite (IH l'); [done|by apply list_lookup_insert_eq|].
    intros j l2 Hj Hne. rewrite list_lookup_insert_ne in Hj by done. by eapply Hother.
  + pose proof (Hother _ _ Hj Hne) as Hx. cbn [List.filter] in *. destruct (P x); [done|]. apply IH; [by rewrite list_lookup_insert_ne|].
    intros j' l2 Hj' Hne'. destruct (decide (j' = j)) as [->|Hjj]; [rewrite list_lookup_insert_eq in Hj' by done; by injection Hj' as <-|].
    rewrite list_lookup_insert_ne in Hj' by done. by eapply Hother.
Qed.

(** * The state of a session *)

(** A connection to the backend is named by the number of the dial that made it. *)
Record Pair := mkPair { port : Z; data_stream : option Z; error_stream : option Z; tcp : option nat }.

Inductive effect :=
  | WriteFrame (f : Frame)
  | Dialled (port : Z) (ok : bool)
  | StartPump (sock : nat) (stream_id : Z)
  | TcpWrite (sock : nat) (data : bytes)
  | TcpShutdown (sock : nat).

Section session.
Context {zlib : Zlib}.

(** Whether the nth dial of the session, to a port, succeeds. *)
Context (dial : nat -> Z -> bool).

Record PfState := mkPf { pairs : gmap bytes Pair; data_route : gmap Z bytes; decomp : zin; comp : zout; dials : nat }.

Definition pf_new : PfState := mkPf ∅ ∅ zin_new zout_new 0.

Definition syn_reply (stream_id : Z) (st : PfState) : list effect * PfState :=
  let '(compressed, comp) := compress (comp st) (serialize_headers []) in
  ([WriteFrame (SynReply stream_id 0 compressed)], mkPf (pairs st) (data_route st) (decomp st) comp (dials st)).

Definition read_hdr (header_block : bytes) (st : PfState) : list header * PfState :=
  let '(b, z) := decompress (decomp st) header_block in
  (default [] (b ≫= deserialize_headers), mkPf (pairs st) (data_route st) z (comp st) (dials st)).

Definition stream_type (hdr : list header) : bytes := default [] (get hdr (str "streamType")).
Definition port_of (hdr : list header) : Z := default 0%Z (get hdr (str "port") ≫= parse_uint (2 ^ 16 - 1)).
Definition request_id (hdr : list header) : bytes := default (str "port-" ++ dec (port_of hdr)) (get hdr (str "requestID")).

(** [pairs.entry(req_id).or_insert(..)], with the port filled in. *)
Definition entry_of (hdr : list header) (st : PfState) : Pair :=
  let e := default (mkPair (port_of hdr) None None None) (pairs st !! request_id hdr) in
  if bool_decide (port e = 0)%Z then mkPair (port_of hdr) (data_stream e) (error_stream e) (tcp e) else e.

Definition on_syn (stream_id : Z) (header_block : bytes) (st : PfState) : list effect * PfState :=
  let '(hdr, st) := read_hdr header_block st in
  let '(replied, st) := syn_reply stream_id st in
  let req_id := request_id hdr in
  let e := entry_of hdr st in
  if bool_decide (stream_type hdr = str "error") then
    (replied, mkPf (<[req_id := mkPair (port e) (data_stream e) (Some stream_id) (tcp e)]> (pairs st)) (data_route st) (decomp st) (comp st) (dials st))
  else
    let route := <[stream_id := req_id]> (data_route st) in
    let sock := dials st in
    if dial sock (port e) then
      (replied ++ [Dialled (port e) true; StartPump sock stream_id],
       mkPf (<[req_id := mkPair (port e) (Some stream_id) (error_stream e) (Some sock)]> (pairs st)) route (decomp st) (comp st) (S sock))
    else
      (replied ++ [Dialled (port e) false] ++
       match error_stream e with Some eid => [WriteFrame (Data eid FLAG_FIN (str "dial failed"))] | None => [] end ++
       [WriteFrame (RstStream stream_id RST_REFUSED_STREAM)] ++
       match error_stream e with Some eid => [WriteFrame (RstStream eid RST_REFUSED_STREAM)] | None => [] end,
       mkPf (<[req_id := mkPair (port e) (Some stream_id) (error_stream e) (tcp e)]> (pairs st)) route (decomp st) (comp st) (S sock)).

(** The errors of the writes are ignored. *)
Definition on_data (stream_id flags : Z) (data : bytes) (st : PfState) : list effect :=
  match req ← data_route st !! stream_id; pair ← pairs st !! req; tcp pair with
  | Some sock => TcpWrite sock data :: if bool_decide (Z.land flags FLAG_FIN <> 0)%Z then [TcpShutdown sock] else []
  | None => []
  end.

(** One turn of the loop; [None] is [break]. *)
Definition on_frame (f : Frame) (st : PfState) : option (list effect * PfState) :=
  match f with
  | SynStream stream_id _ _ _ header_block => Some (on_syn stream_id header_block st)
  | Data stream_id flags data => Some (on_data stream_id flags data st, st)
  | Ping id => Some ([WriteFrame (Ping id)], st)
  | RstStream _ _ | GoAway _ _ => None
  | _ => Some ([], st)
  end.

Fixpoint run_frames (fs : list Frame) (st : PfState) : list effect :=
  match fs with
  | [] => []
  | f :: fs => match on_frame f st with Some (es, st) => es ++ run_frames fs st | None => [] end
  end.

(** The loop reads a frame, handles it, and reads on; reading does not depend on the
    handling. *)
Definition run_portforward (stream : list read) : list effect := run_frames (frames_of stream) pf_new.

(** The task that sends what the backend writes, until it closes or the client's connection
    breaks ([sent] says which frames can be written). *)
Fixpoint spawn_tcp_to_spdy (stream_id : Z) (reads : list read) (sent : nat -> bool) (n : nat) : list Frame :=
  match reads with
  | [] | RErr _ :: _ => [Data stream_id FLAG_FIN []]
  | RBytes b :: reads =>
      if bool_decide (b = []) then [Data stream_id FLAG_FIN []]
      else Data stream_id 0 b :: if sent n then spawn_tcp_to_spdy stream_id reads sent (S n) else []
  end.

(** * What a session does, stream by stream *)

(** The frames of a client with their headers read, up to the one that ends the session. *)
Inductive msg := MSyn (id : Z) (hdr : list header) | MData (id flags : Z) (data : bytes) | MOther.

Fixpoint decoded (z : zin) (fs : list Frame) : list msg :=
  match fs with
  | [] => []
  | SynStream id _ _ _ header_block :: fs =>
      let '(b, z) := decompress z header_block in MSyn id (default [] (b ≫= deserialize_headers)) :: decoded z fs
  | Data id flags data :: fs => MData id flags data :: decoded z fs
  | RstStream _ _ :: _ | GoAway _ _ :: _ => []
  | _ :: fs => MOther :: decoded z fs
  end.

Definition is_data (hdr : list header) : bool := negb (bool_decide (stream_type hdr = str "error")).

(** The data streams, each with its request. *)
Fixpoint data_syns (ms : list msg) : list (Z * bytes) :=
  match ms with
  | [] => []
  | MSyn id hdr :: ms => if is_data hdr then (id, request_id hdr) :: data_syns ms else data_syns ms
  | _ :: ms => data_syns ms
  end.

(** What the client sends on a stream, as calls on a connection. *)
Fixpoint stream_calls (k : nat) (s : Z) (ms : list msg) : list effect :=
  match ms with
  | [] => []
  | MData id flags data :: ms =>
      (if bool_decide (id = s) then TcpWrite k data :: if bool_decide (Z.land flags FLAG_FIN <> 0)%Z then [TcpShutdown k] else [] else []) ++ stream_calls k s ms
  | _ :: ms => stream_calls k s ms
  end.

(** The messages after the one that opens a data stream. *)
Fixpoint after_syn (s : Z) (ms : list msg) : list msg :=
  match ms with
  | [] => []
  | MSyn id hdr :: ms => if bool_decide (id = s) && is_data hdr then ms else after_syn s ms
  | _ :: ms => after_syn s ms
  end.

Definition on_sock (k : nat) (e : effect) : bool :=
  match e with TcpWrite k' _ | TcpShutdown k' => bool_decide (k' = k) | _ => false end.
Definition sock_calls (k : nat) (es : list effect) : list effect := List.filter (on_sock k) es.

Lemma sock_calls_app k a b : sock_calls k (a ++ b) = sock_calls k a ++ sock_calls k b.
Proof. apply List.filter_app. Qed.

(** The data streams opened so far: identifier, request, and whether the dial succeeded. *)
Abbreviation opened := (list (Z * bytes * bool)).

Record pf_inv (o : opened) (st : PfState) : Prop := {
  pf_dials : dials st = length o;
  pf_open : forall k s r (ok : bool), o !! k = Some (s, r, ok) -> data_route st !! s = Some r /\ exists p : Pair, pairs st !! r = Some p /\ tcp p = if ok then Some k else None;
  pf_route : forall s r, data_route st !! s = Some r -> exists k ok, o !! k = Some (s, r, ok);
  pf_pairs : forall r (p : Pair), pairs st !! r = Some p -> r ∈ o.*1.*2 \/ tcp p = None }.

(** No stream and no request is used twice for data. *)
Definition distinct (o : opened) (ms : list msg) : Prop :=
  NoDup (o.*1.*1 ++ (data_syns ms).*1) /\ NoDup (o.*1.*2 ++ (data_syns ms).*2).

Lemma entry_of_tcp hdr st : tcp (entry_of hdr st) = (p ← pairs st !! request_id hdr; tcp p).
Proof. unfold entry_of. destruct (pairs st !! request_id hdr) as [p|]; cbn; by case_bool_decide. Qed.

Lemma opened_tcp o st hdr : pf_inv o st -> request_id hdr ∉ o.*1.*2 -> tcp (entry_of hdr st) = None.
Proof. intros Hi Hr. rewrite entry_of_tcp. destruct (pairs st !! request_id hdr) as [p|] eqn:E; [|done]. cbn. by destruct (pf_pairs _ _ Hi _ _ E). Qed.

Lemma opened_request k s r ok (o : opened) : o !! k = Some (s, r, ok) -> r ∈ o.*1.*2 /\ s ∈ o.*1.*1.
Proof. intros H%list_elem_of_lookup_2. split; apply list_elem_of_fmap; (exists (s, r)); split; try done; apply list_elem_of_fmap; by exists (s, r, ok). Qed.

(** Opening a data stream. *)
Lemma inv_open (o : opened) st id r (p : Pair) (ok : bool) z c :
  pf_inv o st -> id ∉ o.*1.*1 -> r ∉ o.*1.*2 -> tcp p = (if ok then Some (length o) else None) ->
  pf_inv (o ++ [(id, r, ok)]) (mkPf (<[r := p]> (pairs st)) (<[id := r]> (data_route st)) z c (S (dials st))).
Proof.
intros Hi Hid Hr Hp. split; cbn.
- rewrite length_app, (pf_dials _ _ Hi). cbn. lia.
- intros k s r' ok' [H|[Hk H]]%lookup_app_Some.
  + destruct (opened_request _ _ _ _ _ H) as [Hr' Hs']. destruct (pf_open _ _ Hi _ _ _ _ H) as [H1 H2]. rewrite !lookup_insert_ne by (intros ->; done). done.
  + apply list_lookup_singleton_Some in H as [Hk0 H]. injection H as <- <- <-. rewrite !lookup_insert_eq. split; [done|]. exists p. split; [done|]. rewrite Hp. destruct ok; [|done]. f_equal. lia.
- intros s r' [[<- <-]|[Hne H]]%lookup_insert_Some.
  + exists (length o), ok. by rewrite list_lookup_middle.
  + destruct (pf_route _ _ Hi _ _ H) as (k & ok' & Hk). exists k, ok'. by apply lookup_app_l_Some.
- intros r' p' [[<- <-]|[Hne H]]%lookup_insert_Some; rewrite !fmap_app; [left; apply elem_of_app; right; by apply list_elem_of_singleton|].
  destruct (pf_pairs _ _ Hi _ _ H); [left; apply elem_of_app; by left|by right].
Qed.

(** Opening an error stream changes no connection. *)
Lemma inv_error (o : opened) st r (p : Pair) z c :
  pf_inv o st -> tcp p = (e ← pairs st !! r; tcp e) -> pf_inv o (mkPf (<[r := p]> (pairs st)) (data_route st) z c (dials st)).
Proof.
intros Hi Hp. split; cbn; [apply Hi| |apply Hi|].
- intros k s r' ok H. destruct (pf_open _ _ Hi _ _ _ _ H) as (H1 & p' & H2 & H3). split; [done|].
  destruct (decide (r' = r)) as [->|Hne]; [exists p; rewrite lookup_insert_eq, Hp, H2; done|]. exists p'. by rewrite lookup_insert_ne by done.
- intros r' p' [[<- <-]|[Hne H]]%lookup_insert_Some; [|by apply (pf_pairs _ _ Hi)]. rewrite Hp. destruct (pairs st !! r) as [e|] eqn:E; [|by right]. by apply (pf_pairs _ _ Hi).
Qed.

(** The client is told that a stream is not connected. *)
Definition refused (id : Z) (es : list effect) : Prop := WriteFrame (RstStream id RST_REFUSED_STREAM) ∈ es.

(** The connections and the streams they are pumped to. *)
Definition started (es : list effect) : list (nat * Z) := omap (fun e => match e with StartPump k s => Some (k, s) | _ => None end) es.
Definition pumps (es : list effect) (k : nat) (s : Z) : Prop := (k, s) ∈ started es.

Lemma on_syn_data id h st o :
  let '(b, z) := decompress (decomp st) h in let hdr := default [] (b ≫= deserialize_headers) in
  pf_inv o st -> is_data hdr = true -> id ∉ o.*1.*1 -> request_id hdr ∉ o.*1.*2 ->
  exists es st' ok, on_syn id h st = (es, st') /\ pf_inv (o ++ [(id, request_id hdr, ok)]) st' /\ decomp st' = z /\
    (forall k, sock_calls k es = []) /\ started es = (if ok then [(length o, id)] else []) /\ (ok = false -> refused id es).
Proof.
destruct (decompress (decomp st) h) as [b z] eqn:Ez. cbn zeta. set (hdr := default [] _). intros Hi Hd Hid Hr.
unfold on_syn, read_hdr. rewrite Ez. fold hdr. unfold syn_reply. cbn [comp]. destruct (compress (comp st) (serialize_headers [])) as [block c] eqn:Ec.
unfold is_data in Hd. destruct (bool_decide (stream_type hdr = str "error")); [done|]. cbn [dials pairs data_route decomp].
set (st1 := mkPf (pairs st) (data_route st) z c (dials st)). assert (pf_inv o st1) as Hi1 by (by destruct Hi). change (dials st) with (dials st1).
pose proof (opened_tcp o st1 hdr Hi1 Hr) as Ht. change (mkPf (pairs st) (data_route st) z c (dials st)) with st1. destruct (dial (dials st1) (port (entry_of hdr st1))).
- eexists _, _, true. split; [done|]. split; [apply (inv_open o st1); [done|done|done|cbn; by rewrite (pf_dials _ _ Hi)]|]. split; [done|]. split; [done|]. split; [|done]. cbn. by rewrite (pf_dials _ _ Hi).
- eexists _, _, false. split; [done|]. split; [apply (inv_open o st1); [done|done|done|by rewrite <- Ht]|]. split; [done|]. split; [intros k; by destruct (error_stream (entry_of hdr st1))|].
  split; [|intros _; unfold refused; rewrite !elem_of_app; right; right; right; left; apply list_elem_of_here].
  by destruct (error_stream (entry_of hdr st1)).
Qed.

Lemma on_syn_error id h st o :
  let '(b, z) := decompress (decomp st) h in let hdr := default [] (b ≫= deserialize_headers) in
  pf_inv o st -> is_data hdr = false ->
  exists es st', on_syn id h st = (es, st') /\ pf_inv o st' /\ decomp st' = z /\ (forall k, sock_calls k es = []) /\ started es = [].
Proof.
destruct (decompress (decomp st) h) as [b z] eqn:Ez. cbn zeta. set (hdr := default [] _). intros Hi Hd.
unfold on_syn, read_hdr. rewrite Ez. fold hdr. unfold syn_reply. cbn [comp]. destruct (compress (comp st) (serialize_headers [])) as [block c] eqn:Ec.
unfold is_data in Hd. destruct (bool_decide (stream_type hdr = str "error")); [|done].
eexists _, _. split; [done|]. split; [|split; [done|split; done]].
set (st1 := mkPf (pairs st) (data_route st) z c (dials st)). assert (pf_inv o st1) as Hi1 by (by destruct Hi). apply (inv_error o st1); [done|]. apply (entry_of_tcp hdr st1).
Qed.

(** What a data frame does. *)
Lemma on_data_calls (o : opened) st s flags data k s' r (ok : bool) :
  pf_inv o st -> NoDup o.*1.*1 -> o !! k = Some (s', r, ok) ->
  sock_calls k (on_data s flags data st) = if ok then stream_calls k s' [MData s flags data] else [].
Proof.
intros Hi Hnd Hk. cbn [stream_calls]. rewrite app_nil_r. unfold on_data. destruct (data_route st !! s) as [r'|] eqn:Er; cbn [mbind option_bind].
- destruct (pf_route _ _ Hi _ _ Er) as (k' & ok' & Hk'). destruct (pf_open _ _ Hi _ _ _ _ Hk') as (_ & p & -> & Hp). cbn [mbind option_bind]. rewrite Hp.
  destruct (decide (s = s')) as [->|Hne].
  + assert (k' = k) as ->.
    { apply (NoDup_lookup o.*1.*1 _ _ s' Hnd); by rewrite !list_lookup_fmap, ?Hk', ?Hk. }
    rewrite Hk in Hk'. injection Hk' as <- <-. rewrite (bool_decide_eq_true_2 (s' = s')) by done. destruct ok; [|done]. unfold sock_calls. cbn [List.filter on_sock]. rewrite (bool_decide_eq_true_2 (k = k)) by done.
    destruct (bool_decide (Z.land flags FLAG_FIN <> 0)%Z); cbn [List.filter on_sock]; by rewrite ?(bool_decide_eq_true_2 (k = k)) by done.
  + rewrite (bool_decide_eq_false_2 (s = s')) by done. assert (k' <> k) as Hkk by congruence. destruct ok'; [|by destruct ok]. unfold sock_calls. cbn [List.filter on_sock]. rewrite (bool_decide_eq_false_2 (k' = k)) by done.
    destruct (bool_decide (Z.land flags FLAG_FIN <> 0)%Z); cbn [List.filter on_sock]; rewrite ?(bool_decide_eq_false_2 (k' = k)) by done; by destruct ok.
- destruct (pf_open _ _ Hi _ _ _ _ Hk) as [Hr _]. rewrite (bool_decide_eq_false_2 (s = s')) by congruence. by destruct ok.
Qed.

Lemma on_data_other o st s flags data k : pf_inv o st -> length o <= k -> sock_calls k (on_data s flags data st) = [].
Proof.
intros Hi Hk. unfold on_data. destruct (data_route st !! s) as [r|] eqn:Er; [|done]. cbn [mbind option_bind].
destruct (pf_route _ _ Hi _ _ Er) as (k' & ok & Hk'). destruct (pf_open _ _ Hi _ _ _ _ Hk') as (_ & p & -> & Hp). cbn [mbind option_bind]. rewrite Hp. destruct ok; [|done].
apply lookup_lt_Some in Hk'. unfold sock_calls. cbn [List.filter on_sock]. rewrite (bool_decide_eq_false_2 (k' = k)) by lia. destruct (bool_decide (Z.land flags FLAG_FIN <> 0)%Z); cbn [List.filter on_sock]; by rewrite ?(bool_decide_eq_false_2 (k' = k)) by lia.
Qed.

Lemma distinct_open o ms id hdr :
  is_data hdr = true -> distinct o (MSyn id hdr :: ms) -> id ∉ o.*1.*1 /\ request_id hdr ∉ o.*1.*2 /\ forall ok, distinct (o ++ [(id, request_id hdr, ok)]) ms.
Proof.
unfold distinct. cbn [data_syns]. intros ->. rewrite !fmap_cons. cbn [fst snd]. intros [H1 H2].
split; [|split]; [apply NoDup_app in H1 as (_ & H & _); intros Hin; by apply (H _ Hin), list_elem_of_here|apply NoDup_app in H2 as (_ & H & _); intros Hin; by apply (H _ Hin), list_elem_of_here|].
intros ok. rewrite !fmap_app, <- !app_assoc. done.
Qed.

Lemma distinct_skip o ms m : (match m with MSyn _ hdr => is_data hdr = false | _ => True end) -> distinct o (m :: ms) -> distinct o ms.
Proof. unfold distinct. destruct m as [id hdr| |]; cbn [data_syns]; [intros ->|..]; done. Qed.

Definition quiet_effects (es : list effect) : Prop := (forall k, sock_calls k es = []) /\ started es = [].

(** One turn of the loop, whatever the frame. *)
Definition turn_of (m : msg) (o o' : opened) (st : PfState) (es : list effect) : Prop :=
  match m with
  | MSyn id hdr =>
      if is_data hdr then exists ok, o' = o ++ [(id, request_id hdr, ok)] /\ (forall k, sock_calls k es = []) /\ started es = (if ok then [(length o, id)] else []) /\ (ok = false -> refused id es)
      else o' = o /\ quiet_effects es
  | MData s flags data => o' = o /\ es = on_data s flags data st
  | MOther => o' = o /\ quiet_effects es
  end.

Lemma turn f fs st o : pf_inv o st -> distinct o (decoded (decomp st) (f :: fs)) ->
  (on_frame f st = None /\ decoded (decomp st) (f :: fs) = []) \/
  exists es st' m o', on_frame f st = Some (es, st') /\ decoded (decomp st) (f :: fs) = m :: decoded (decomp st') fs /\
    pf_inv o' st' /\ distinct o' (decoded (decomp st') fs) /\ turn_of m o o' st es.
Proof.
intros Hi Hd.
assert (forall es, quiet_effects es -> on_frame f st = Some (es, st) -> decoded (decomp st) (f :: fs) = MOther :: decoded (decomp st) fs ->
  exists es st' m o', on_frame f st = Some (es, st') /\ decoded (decomp st) (f :: fs) = m :: decoded (decomp st') fs /\
    pf_inv o' st' /\ distinct o' (decoded (decomp st') fs) /\ turn_of m o o' st es) as other.
{ intros es Hq E1 E2. exists es, st, MOther, o. rewrite E2 in Hd. by apply distinct_skip in Hd. }
assert (quiet_effects []) as Hq0 by done.
destruct f as [id a p fl h|id fl h|id status|payload|id|id status|id fl h|id delta|id fl data];
  [|right; by apply (other [])|by left|right; by apply (other [])| |by left|right; by apply (other [])|right; by apply (other [])|].
- right. cbn [decoded on_frame] in *. destruct (decompress (decomp st) h) as [b z] eqn:Ez. set (hdr := default [] _) in *. destruct (is_data hdr) eqn:Ed.
  + destruct (distinct_open _ _ _ _ Ed Hd) as (Hid & Hr & Hd'). pose proof (on_syn_data id h st o) as Hs. rewrite Ez in Hs. cbn zeta in Hs. fold hdr in Hs.
    destruct (Hs Hi Ed Hid Hr) as (es & st' & ok & -> & Hi' & <- & Hc & Hp & Hrf). exists es, st', (MSyn id hdr), (o ++ [(id, request_id hdr, ok)]).
    split; [done|]. split; [done|]. split; [done|]. split; [done|]. cbn [turn_of]. rewrite Ed. by exists ok.
  + apply distinct_skip in Hd; [|done]. pose proof (on_syn_error id h st o) as Hs. rewrite Ez in Hs. cbn zeta in Hs. fold hdr in Hs.
    destruct (Hs Hi Ed) as (es & st' & -> & Hi' & <- & Hc & Hp). exists es, st', (MSyn id hdr), o. split; [done|]. split; [done|]. split; [done|]. split; [done|]. cbn [turn_of]. by rewrite Ed.
- right. by apply (other [WriteFrame (Ping id)]).
- right. exists (on_data id fl data st), st, (MData id fl data), o. apply distinct_skip in Hd; done.
Qed.

Lemma on_data_no_pump s flags data st : started (on_data s flags data st) = [].
Proof. unfold on_data. destruct (_ ≫= _) as [sock|]; [|done]. by destruct (bool_decide _). Qed.

Lemma started_app a b : started (a ++ b) = started a ++ started b.
Proof. apply omap_app. Qed.

Lemma pumps_app a b k s : pumps (a ++ b) k s <-> pumps a k s \/ pumps b k s.
Proof. unfold pumps. rewrite started_app. apply elem_of_app. Qed.

Lemma pumps_none es k s : started es = [] -> ~ pumps es k s.
Proof. unfold pumps. intros ->. apply not_elem_of_nil. Qed.

Lemma pumps_one es (ok : bool) n id k s : started es = (if ok then [(n, id)] else []) -> pumps es k s <-> ok = true /\ k = n /\ s = id.
Proof.
unfold pumps. intros ->. destruct ok; [|split; [intros H; by apply not_elem_of_nil in H|by intros []]]. rewrite list_elem_of_singleton. split; [intros H; by injection H|by intros (_ & -> & ->)].
Qed.

Lemma run_pumps fs st o k s :
  pf_inv o st -> distinct o (decoded (decomp st) fs) -> pumps (run_frames fs st) k s -> length o <= k /\ s ∈ (data_syns (decoded (decomp st) fs)).*1.
Proof.
revert st o. induction fs as [|f fs IH]; intros st o Hi Hd Hp; [by apply not_elem_of_nil in Hp|]. cbn [run_frames] in Hp.
destruct (turn f fs st o Hi Hd) as [[E _]|(es & st' & m & o' & E & Em & Hi' & Hd' & Ht)]; rewrite E in Hp; [by apply not_elem_of_nil in Hp|]. rewrite Em.
apply pumps_app in Hp. destruct m as [id hdr|id fl data|]; cbn [turn_of data_syns] in *.
- destruct (is_data hdr).
  + destruct Ht as (ok & -> & _ & Hpump & _). rewrite fmap_cons. cbn [fst]. destruct Hp as [Hp|Hp]; [destruct (proj1 (pumps_one _ _ _ _ k s Hpump) Hp) as (_ & Ek & Es); rewrite Ek, Es; split; [done|apply list_elem_of_here]|].
    destruct (IH _ _ Hi' Hd' Hp) as [H1 H2]. rewrite length_app in H1. cbn in H1. split; [lia|by apply list_elem_of_further].
  + destruct Ht as (-> & _ & Hq). destruct Hp as [Hp|Hp]; [by apply (pumps_none _ _ _ Hq) in Hp|]. by apply IH.
- destruct Ht as (-> & ->). destruct Hp as [Hp|Hp]; [by apply (pumps_none _ _ _ (on_data_no_pump _ _ _ _)) in Hp|]. by apply IH.
- destruct Ht as (-> & _ & Hq). destruct Hp as [Hp|Hp]; [by apply (pumps_none _ _ _ Hq) in Hp|]. by apply IH.
Qed.

(** A stream that is open keeps its connection. *)
Lemma run_open fs st o k s r (ok : bool) :
  pf_inv o st -> distinct o (decoded (decomp st) fs) -> o !! k = Some (s, r, ok) ->
  sock_calls k (run_frames fs st) = if ok then stream_calls k s (decoded (decomp st) fs) else [].
Proof.
revert st o. induction fs as [|f fs IH]; intros st o Hi Hd Hk; [by destruct ok|]. cbn [run_frames].
destruct (turn f fs st o Hi Hd) as [[E1 E2]|(es & st' & m & o' & E & Em & Hi' & Hd' & Ht)]; [rewrite E1, E2; by destruct ok|]. rewrite E, Em, sock_calls_app.
assert (NoDup o.*1.*1) as Hnd by (destruct Hd as [Hd _]; by apply NoDup_app in Hd as [Hd _]).
destruct m as [id hdr|id fl data|]; cbn [turn_of] in Ht.
- destruct (is_data hdr); [destruct Ht as (ok' & -> & -> & _)|destruct Ht as (-> & -> & _)]; cbn [app stream_calls]; (eapply IH; [exact Hi'|exact Hd'|]); [by apply lookup_app_l_Some|done].
- destruct Ht as (-> & ->). rewrite (on_data_calls o st id fl data k s r ok), (IH st' o) by done. cbn [stream_calls]. rewrite app_nil_r. by destruct ok.
- destruct Ht as (-> & -> & _). cbn [app stream_calls]. by eapply IH.
Qed.

(** A stream that is opened gets a connection of its own. *)
Lemma run_fresh fs st o k s :
  pf_inv o st -> distinct o (decoded (decomp st) fs) -> length o <= k -> pumps (run_frames fs st) k s ->
  sock_calls k (run_frames fs st) = stream_calls k s (after_syn s (decoded (decomp st) fs)).
Proof.
revert st o. induction fs as [|f fs IH]; intros st o Hi Hd Hk Hp; [by apply not_elem_of_nil in Hp|]. cbn [run_frames] in *.
destruct (turn f fs st o Hi Hd) as [[E1 _]|(es & st' & m & o' & E & Em & Hi' & Hd' & Ht)]; [rewrite E1 in Hp; by apply not_elem_of_nil in Hp|]. rewrite E in Hp. rewrite E, Em, sock_calls_app.
apply pumps_app in Hp. destruct m as [id hdr|id fl data|]; cbn [turn_of after_syn] in *.
- destruct (is_data hdr) eqn:Ed; cbn [andb].
  + destruct Ht as (ok & -> & -> & Hpump & _). cbn [app]. destruct Hp as [Hp|Hp].
    * destruct (proj1 (pumps_one _ _ _ _ k s Hpump) Hp) as (-> & Ek & Es). rewrite Ek, Es. rewrite bool_decide_eq_true_2 by done. cbn [andb]. apply (run_open fs st' _ _ _ (request_id hdr) true Hi' Hd'). by rewrite list_lookup_middle.
    * destruct (run_pumps _ _ _ _ _ Hi' Hd' Hp) as [Hle Hin]. assert (id <> s) as Hne.
      { intros ->. destruct Hd' as [Hd' _]. apply NoDup_app in Hd' as (_ & Hd' & _). apply (Hd' s); [|done]. rewrite !fmap_app. apply elem_of_app. right. by apply list_elem_of_singleton. }
      rewrite bool_decide_eq_false_2 by done. cbn [andb]. by apply (IH _ (o ++ [(id, request_id hdr, ok)])).
  + destruct Ht as (-> & -> & Hq). rewrite andb_false_r. destruct Hp as [Hp|Hp]; [by apply (pumps_none _ _ _ Hq) in Hp|]. by apply (IH _ o).
- destruct Ht as (-> & ->). rewrite (on_data_other o) by done. destruct Hp as [Hp|Hp]; [by apply (pumps_none _ _ _ (on_data_no_pump _ _ _ _)) in Hp|]. by apply (IH _ o).
- destruct Ht as (-> & -> & Hq). destruct Hp as [Hp|Hp]; [by apply (pumps_none _ _ _ Hq) in Hp|]. by apply (IH _ o).
Qed.

Lemma run_idle fs st o k :
  pf_inv o st -> distinct o (decoded (decomp st) fs) -> length o <= k -> (forall s, ~ pumps (run_frames fs st) k s) -> sock_calls k (run_frames fs st) = [].
Proof.
revert st o. induction fs as [|f fs IH]; intros st o Hi Hd Hk Hp; [done|]. cbn [run_frames] in *.
destruct (turn f fs st o Hi Hd) as [[E1 _]|(es & st' & m & o' & E & Em & Hi' & Hd' & Ht)]; [by rewrite E1|]. rewrite E in Hp |- *. rewrite sock_calls_app.
assert (forall s, ~ pumps (run_frames fs st') k s) as Hp' by (intros s Hs; apply (Hp s), pumps_app; by right). destruct m as [id hdr|id fl data|]; cbn [turn_of] in Ht.
- destruct (is_data hdr); [|destruct Ht as (-> & -> & _); cbn [app]; by apply (IH _ o)]. destruct Ht as (ok & -> & -> & Hpump & _). cbn [app].
  destruct (decide (k = length o)) as [->|Hne].
  + assert (ok = false) as -> by (destruct ok; [destruct (Hp id); apply pumps_app; left; by apply (pumps_one _ true _ _ _ _ Hpump)|done]).
    apply (run_open fs st' _ _ id (request_id hdr) false Hi' Hd'). by rewrite list_lookup_middle.
  + apply (IH _ (o ++ [(id, request_id hdr, ok)])); [done|done| |done]. rewrite length_app. cbn. lia.
- destruct Ht as (-> & ->). rewrite (on_data_other o) by done. by apply (IH _ o).
- destruct Ht as (-> & -> & _). cbn [app]. by apply (IH _ o).
Qed.

(** Every data stream is connected, or refused. *)
Lemma run_answers fs st o k s r :
  pf_inv o st -> distinct o (decoded (decomp st) fs) -> data_syns (decoded (decomp st) fs) !! k = Some (s, r) ->
  pumps (run_frames fs st) (length o + k) s \/ refused s (run_frames fs st).
Proof.
revert st o k. induction fs as [|f fs IH]; intros st o k Hi Hd Hk; [done|]. cbn [run_frames].
destruct (turn f fs st o Hi Hd) as [[E1 E2]|(es & st' & m & o' & E & Em & Hi' & Hd' & Ht)]; [by rewrite E2 in Hk|]. rewrite E. rewrite Em in Hk.
unfold refused. rewrite pumps_app, elem_of_app. destruct m as [id hdr|id fl data|]; cbn [turn_of data_syns] in *.
- destruct (is_data hdr).
  + destruct Ht as (ok & -> & _ & Hpump & Hrf). destruct k as [|k]; cbn in Hk.
    * injection Hk as <- _. destruct ok; [left; left; apply (pumps_one _ true _ _ _ _ Hpump); by rewrite Nat.add_0_r|right; left; by apply Hrf].
    * destruct (IH _ _ k Hi' Hd' Hk) as [H1|H1]; [|right; by right]. rewrite length_app in H1. cbn in H1. left. right. by replace (length o + S k) with (length o + 1 + k) by lia.
  + destruct Ht as (-> & _). destruct (IH _ _ k Hi' Hd' Hk); [left|right]; by right.
- destruct Ht as (-> & _). destruct (IH _ _ k Hi' Hd' Hk); [left|right]; by right.
- destruct Ht as (-> & _). destruct (IH _ _ k Hi' Hd' Hk); [left|right]; by right.
Qed.

Lemma pf_inv_new : pf_inv [] pf_new.
Proof. split; [done|done|intros s r H; discriminate H|intros r p H; discriminate H]. Qed.


(** ** From the connections to the client *)

Definition written (es : list effect) : list Frame := omap (fun e => match e with WriteFrame f => Some f | _ => None end) es.
Definition data_on (s : Z) (f : Frame) : bool := match f with Data s' _ _ => bool_decide (s' = s) | _ => false end.

Fixpoint error_syns (ms : list msg) : list Z :=
  match ms with
  | [] => []
  | MSyn id hdr :: ms => if is_data hdr then error_syns ms else id :: error_syns ms
  | _ :: ms => error_syns ms
  end.

Lemma written_app a b : written (a ++ b) = written a ++ written b.
Proof. apply omap_app. Qed.

(** The pumped streams are data streams, each at most once. *)
Lemma started_streams fs st o :
  pf_inv o st -> distinct o (decoded (decomp st) fs) -> (started (run_frames fs st)).*2 `sublist_of` (data_syns (decoded (decomp st) fs)).*1.
Proof.
revert st o. induction fs as [|f fs IH]; intros st o Hi Hd; [done|]. cbn [run_frames].
destruct (turn f fs st o Hi Hd) as [[E1 _]|(es & st' & m & o' & E & Em & Hi' & Hd' & Ht)]; [rewrite E1; apply sublist_nil_l|]. rewrite E, Em, started_app, fmap_app.
specialize (IH _ _ Hi' Hd'). destruct m as [id hdr|id fl data|]; cbn [turn_of data_syns] in *.
- destruct (is_data hdr); [|by destruct Ht as (_ & _ & ->)]. destruct Ht as (ok & _ & _ & -> & _). rewrite fmap_cons. cbn [fst]. destruct ok; [by apply sublist_skip|by apply sublist_cons].
- destruct Ht as (_ & ->). by rewrite on_data_no_pump.
- by destruct Ht as (_ & _ & ->).
Qed.

(** The loop itself writes data only on error streams. *)
Lemma entry_of_error hdr st e : error_stream (entry_of hdr st) = Some e -> exists p, pairs st !! request_id hdr = Some p /\ error_stream p = Some e.
Proof. unfold entry_of. destruct (pairs st !! request_id hdr) as [p|]; cbn; case_bool_decide; cbn; eauto; done. Qed.

Definition errors_in (E : list Z) (st : PfState) : Prop := forall r p e, pairs st !! r = Some p -> error_stream p = Some e -> e ∈ E.

Lemma on_syn_errors id h st E :
  let '(b, z) := decompress (decomp st) h in let hdr := default [] (b ≫= deserialize_headers) in
  errors_in E st -> (is_data hdr = false -> id ∈ E) ->
  exists es st', on_syn id h st = (es, st') /\ errors_in E st' /\ decomp st' = z /\ forall f s, f ∈ written es -> data_on s f = true -> s ∈ E.
Proof.
destruct (decompress (decomp st) h) as [b z] eqn:Ez. cbn zeta. set (hdr := default [] _). intros He Hid.
unfold on_syn, read_hdr. rewrite Ez. fold hdr. unfold syn_reply. cbn [comp]. destruct (compress (comp st) (serialize_headers [])) as [block c] eqn:Ec.
cbn [pairs data_route decomp comp dials]. set (st1 := mkPf (pairs st) (data_route st) z c (dials st)).
assert (forall e, error_stream (entry_of hdr st1) = Some e -> e ∈ E) as Hee by (intros e (p & H1 & H2)%entry_of_error; by eapply He).
assert (forall p route n, (forall e, error_stream p = Some e -> e ∈ E) -> errors_in E (mkPf (<[request_id hdr := p]> (pairs st)) route z c n)) as Hin.
{ intros p route n Hp r q e H. cbn in H. apply lookup_insert_Some in H as [[_ <-]|[_ Hq]]; [apply Hp|by eapply He]. }
unfold is_data in Hid. destruct (bool_decide (stream_type hdr = str "error")); [|destruct (dial _ _)]; (eexists _, _; split; [done|]; split; [apply Hin; cbn|split; [done|]]).
- intros e [= <-]. by apply Hid.
- intros f s Hf Hd. cbn in Hf. apply list_elem_of_singleton in Hf as ->. done.
- done.
- intros f s Hf Hd. cbn in Hf. apply list_elem_of_singleton in Hf as ->. done.
- done.
- intros f s Hf Hd. destruct (error_stream (entry_of hdr st1)) as [e|]; cbn in Hf; repeat (apply elem_of_cons in Hf as [->|Hf]); try done; try (by apply not_elem_of_nil in Hf).
  cbn in Hd. apply bool_decide_eq_true in Hd as <-. by apply Hee.
Qed.

Lemma loop_data fs st E f s :
  errors_in E st -> (forall e, e ∈ error_syns (decoded (decomp st) fs) -> e ∈ E) -> f ∈ written (run_frames fs st) -> data_on s f = true -> s ∈ E.
Proof.
revert st. induction fs as [|g fs IH]; intros st He Hs Hf Hd; [by apply not_elem_of_nil in Hf|]. cbn [run_frames] in Hf.
destruct g as [id a p fl h|id fl h|id status|payload|id|id status|id fl h|id delta|id fl data]; cbn [on_frame decoded error_syns] in *;
  try (by apply not_elem_of_nil in Hf); try (by apply (IH st)).
- pose proof (on_syn_errors id h st E) as Ho. destruct (decompress (decomp st) h) as [b z]. set (hdr := default [] _) in *. cbn zeta in Ho. cbn [error_syns] in Hs.
  destruct Ho as (es & st' & E1 & He' & Ez & Hw); [done|intros Hn; rewrite Hn in Hs; by apply Hs, list_elem_of_here|]. rewrite E1, written_app in Hf. apply elem_of_app in Hf as [Hf|Hf]; [by eapply Hw|].
  apply (IH st'); [done| |done|done]. rewrite Ez. intros e Hin. apply Hs. destruct (is_data hdr); [done|by apply list_elem_of_further].
- cbn in Hf. apply elem_of_cons in Hf as [->|Hf]; [done|]. by apply (IH st).
- rewrite written_app in Hf. apply elem_of_app in Hf as [Hf|Hf]; [|by apply (IH st)]. exfalso. revert Hf. unfold on_data. destruct (_ ≫= _); [|by intros Hf%not_elem_of_nil].
  destruct (bool_decide _); intros Hf; cbn in Hf; by apply not_elem_of_nil in Hf.
Qed.

Lemma pump_stream s reads sent n f : f ∈ spawn_tcp_to_spdy s reads sent n -> exists fl d, f = Data s fl d.
Proof.
revert n. induction reads as [|[b|e] reads IH]; intros n; cbn; [intros H%list_elem_of_singleton; eauto| |intros H%list_elem_of_singleton; eauto].
case_bool_decide; [intros H1%list_elem_of_singleton; eauto|]. intros [->|H1]%elem_of_cons; [eauto|]. destruct (sent n); [by eapply IH|by apply not_elem_of_nil in H1].
Qed.

Lemma filter_none {A} (P : A -> bool) l : (forall x, x ∈ l -> P x = false) -> List.filter P l = [].
Proof. induction l as [|x l IH]; intros H; [done|]. cbn. rewrite (H x (list_elem_of_here _ _)). apply IH. intros y Hy. by apply H, list_elem_of_further. Qed.

Lemma filter_all {A} (P : A -> bool) l : (forall x, x ∈ l -> P x = true) -> List.filter P l = l.
Proof. induction l as [|x l IH]; intros H; [done|]. cbn. rewrite (H x (list_elem_of_here _ _)). f_equal. apply IH. intros y Hy. by apply H, list_elem_of_further. Qed.

(** The tasks of a session that write to the client: the loop, and a pump for each connection,
    given what the connections yield. *)
Definition writers (reads : nat -> list read) (es : list effect) : list (list Frame) :=
  written es :: ((fun ks => spawn_tcp_to_spdy ks.2 (reads ks.1) (fun _ => true) 0) <$> started es).

End session.

(** * Two connections of one request *)

Module PfExample.
(** A codec that does not compress. *)
Definition plain : Zlib := mkZlib unit unit tt tt (fun z b => (Some b, z)) (fun z b => (b, z)).

Definition open_stream (id : Z) (headers : list (String.string * String.string)) : Frame :=
  SynStream id 0 0 0 (serialize_headers ((fun h => (str h.1, str h.2)) <$> headers)).

(** A request with both of its streams, and some data. *)
Definition session : list Frame :=
  [open_stream 1 [("streamType", "error"); ("port", "80"); ("requestID", "0")]%string;
   open_stream 3 [("streamType", "data"); ("port", "80"); ("requestID", "0")]%string;
   Data 3 0 (str "GET /"); Data 3 FLAG_FIN []].

(** Two connections to one port, by a client that does not send request identifiers. *)
Definition without_requests : list Frame :=
  [open_stream 1 [("streamType", "data"); ("port", "80")]%string; Data 1 0 (str "first");
   open_stream 3 [("streamType", "data"); ("port", "80")]%string; Data 1 0 (str "secret")].

Definition deliver (fs : list Frame) : list read := [RBytes (mjoin (serialize <$> fs))].
End PfExample.

(** Without request identifiers two connections to one port are mixed up.  What the client
    sends on the first stream, after the second one is open, is written to the connection of
    the second. *)
Theorem shared_request_mixes_streams :
  let es := @run_portforward PfExample.plain (fun _ _ => true) (PfExample.deliver PfExample.without_requests) in
  started es = [(0, 1%Z); (1, 3%Z)] /\ sock_calls 0 es = [TcpWrite 0 (str "first")] /\ sock_calls 1 es = [TcpWrite 1 (str "secret")].
Proof. vm_compute. repeat split. Qed.


