(* ===== verification/ExecSession.v ===== *)
(** Exec and attach over SPDY ([run_exec] and [spawn_output] of crates/lightr-cri/crates/
    lightr-cri-stream/src/spdy/conn.rs, [exit_status_json] of status.rs): the tasks of a
    session as a transition system.  A step is what a task does between two points where
    another one can run: a frame written under the lock of the writer, an access to a shared
    map under its lock, a read. *)

From Stdlib Require Import ZArith Lia.
From S2P Require Import Prelude Text B64 Spdy.

(** * The status at the end of a session *)

Definition quoted (s : String.string) : bytes := x22 :: str s ++ [x22].

(** [i32::to_string] *)
Definition show_i32 (z : Z) : bytes := if bool_decide (z < 0)%Z then x2d :: dec (- z) else dec z.

Definition exit_status_json (exit_code : Z) : bytes :=
  str "{" ++ quoted "metadata" ++ str ":{}," ++ quoted "status" ++ str ":" ++
  if bool_decide (exit_code = 0)%Z then quoted "Success" ++ str "}"
  else
    quoted "Failure" ++ str "," ++ quoted "message" ++ str ":" ++
    [x22] ++ str "command terminated with non-zero exit code: error executing command, exit status " ++ show_i32 exit_code ++ [x22] ++ str "," ++
    quoted "reason" ++ str ":" ++ quoted "NonZeroExitCode" ++ str "," ++
    quoted "details" ++ str ":{" ++ quoted "causes" ++ str ":[{" ++ quoted "type" ++ str ":" ++ quoted "ExitCode" ++ str "," ++
    quoted "message" ++ str ":" ++ [x22] ++ show_i32 exit_code ++ [x22] ++ str "}]}}".

(** * The tasks *)

(** An output of the process: not provided, not yet claimed by a stream (with what it will
    yield), or pumped to a stream: what was sent, what is left, and whether its end was
    reached. *)
Inductive slot := Absent | Raw (chunks : list bytes) | Pump (id : Z) (sent rest : list bytes) (finished : bool).

(** Where the read loop is: waiting for a frame, or opening a stream. *)
Inductive reader_pc := RIdle | RInsert (id role : Z) | RSpawn (id role : Z) | RRegister (role : Z).

(** Where the completion is. *)
Inductive completion := Start | Barrier | Gate | Select | Draining (taken : list Z) | Drained | Emitted | Finished.

Section session.
Context {zlib : Zlib}.

Record state := mkState {
  (* the read loop *)
  inbox : list Frame; zst : zin; pc : reader_pc; roles : gmap Z Z; stdin_open : bool; stdin_got : list bytes; stopped : bool;
  (* what the tasks share *)
  out : slot; err : slot; tasks : list Z; by_role : gmap Z Z; wire : list Frame; zst_out : zout;
  (* the completion: the detach signal, the exit of the process, and whether a wait was cut short *)
  armed : bool; detached : bool; exited : bool; phase : completion; cut : bool }.

(** The parameters of a session: the verb and the flags of the request, whether the factory
    opened a session, and of its process the input, the outputs and the exit code. *)
Context (is_attach tty stdin has_session stdin_file : bool) (exit_code : Z).
Context (stdout_file stderr_file : option (list bytes)).

Definition slot_of (f : option (list bytes)) : slot := match f with Some chunks => Raw chunks | None => Absent end.

Definition init (frames : list Frame) : state :=
  mkState frames zin_new RIdle ∅ stdin_file [] false (slot_of stdout_file) (slot_of stderr_file) [] ∅ [] zout_new false false false Start false.

(** ** Updates *)

Definition set_reader (s : state) (inbox : list Frame) (zst : zin) (pc : reader_pc) (roles : gmap Z Z) : state :=
  mkState inbox zst pc roles (stdin_open s) (stdin_got s) (stopped s) (out s) (err s) (tasks s) (by_role s) (wire s) (zst_out s) (armed s) (detached s) (exited s) (phase s) (cut s).
Definition set_pc (s : state) (pc : reader_pc) : state := set_reader s (inbox s) (zst s) pc (roles s).
Definition set_inbox (s : state) (inbox : list Frame) : state := set_reader s inbox (zst s) (pc s) (roles s).
Definition set_stdin (s : state) (opened : bool) (got : list bytes) : state :=
  mkState (inbox s) (zst s) (pc s) (roles s) opened got (stopped s) (out s) (err s) (tasks s) (by_role s) (wire s) (zst_out s) (armed s) (detached s) (exited s) (phase s) (cut s).
Definition set_stopped (s : state) : state :=
  mkState (inbox s) (zst s) (pc s) (roles s) (stdin_open s) (stdin_got s) true (out s) (err s) (tasks s) (by_role s) (wire s) (zst_out s) (armed s) (detached s) (exited s) (phase s) (cut s).
Definition set_outputs (s : state) (out err : slot) (tasks : list Z) : state :=
  mkState (inbox s) (zst s) (pc s) (roles s) (stdin_open s) (stdin_got s) (stopped s) out err tasks (by_role s) (wire s) (zst_out s) (armed s) (detached s) (exited s) (phase s) (cut s).
Definition set_by_role (s : state) (by_role : gmap Z Z) : state :=
  mkState (inbox s) (zst s) (pc s) (roles s) (stdin_open s) (stdin_got s) (stopped s) (out s) (err s) (tasks s) by_role (wire s) (zst_out s) (armed s) (detached s) (exited s) (phase s) (cut s).
Definition write_frames (s : state) (fs : list Frame) : state :=
  mkState (inbox s) (zst s) (pc s) (roles s) (stdin_open s) (stdin_got s) (stopped s) (out s) (err s) (tasks s) (by_role s) (wire s ++ fs) (zst_out s) (armed s) (detached s) (exited s) (phase s) (cut s).
Definition set_zout (s : state) (z : zout) : state :=
  mkState (inbox s) (zst s) (pc s) (roles s) (stdin_open s) (stdin_got s) (stopped s) (out s) (err s) (tasks s) (by_role s) (wire s) z (armed s) (detached s) (exited s) (phase s) (cut s).
Definition set_signals (s : state) (armed detached exited : bool) : state :=
  mkState (inbox s) (zst s) (pc s) (roles s) (stdin_open s) (stdin_got s) (stopped s) (out s) (err s) (tasks s) (by_role s) (wire s) (zst_out s) armed detached exited (phase s) (cut s).
Definition set_phase (s : state) (phase : completion) (cut' : bool) : state :=
  mkState (inbox s) (zst s) (pc s) (roles s) (stdin_open s) (stdin_got s) (stopped s) (out s) (err s) (tasks s) (by_role s) (wire s) (zst_out s) (armed s) (detached s) (exited s) phase (cut s || cut').

(** [client_closed.notify_waiters()] wakes only a waiter that is already registered. *)
Definition notify_closed (s : state) : state := set_signals s (armed s) (detached s || armed s) (exited s).

(** ** The read loop *)

Definition role_of (hdr : list header) : Z :=
  match get hdr (str "streamType") with
  | Some t =>
      if bool_decide (t = str "stdin") then STDIN else if bool_decide (t = str "stdout") then STDOUT
      else if bool_decide (t = str "stderr") then STDERR else if bool_decide (t = str "error") then ERROR
      else if bool_decide (t = str "resize") then RESIZE else 0xff%Z
  | None => 0xff%Z
  end.

Definition syn_reply (id : Z) (s : state) : state :=
  let '(compressed, z) := compress (zst_out s) (serialize_headers []) in set_zout (write_frames s [SynReply id 0 compressed]) z.

(** Data for a stream: input of the process, or (not modelled) the size of its terminal. *)
Definition on_data (id flags : Z) (data : bytes) (s : state) : state :=
  let s := if bool_decide (roles s !! id = Some STDIN) && stdin_open s then set_stdin s true (stdin_got s ++ [data]) else s in
  if bool_decide (Z.land flags FLAG_FIN <> 0)%Z then
    let s := if bool_decide (roles s !! id = Some STDIN) then set_stdin s false (stdin_got s) else s in
    if is_attach then notify_closed s else s
  else s.

Definition read_step (s : state) : option state :=
  if stopped s then None else
  match pc s with
  | RIdle =>
      match inbox s with
      | [] => Some (notify_closed (set_stopped s))
      | f :: fs =>
          match f with
          | SynStream id _ _ _ header_block =>
              let '(b, z) := decompress (zst s) header_block in
              let role := role_of (default [] (b ≫= deserialize_headers)) in
              Some (syn_reply id (set_reader s fs z (RInsert id role) (roles s)))
          | Data id flags data => Some (on_data id flags data (set_inbox s fs))
          | Ping id => Some (write_frames (set_inbox s fs) [Ping id])
          | RstStream _ _ | GoAway _ _ => Some (notify_closed (set_stopped (set_inbox s fs)))
          | _ => Some (set_inbox s fs)
          end
      end
  | RInsert id role => Some (set_by_role (set_reader s (inbox s) (zst s) (RSpawn id role) (<[id := role]> (roles s))) (<[role := id]> (by_role s)))
  | RSpawn id role =>
      if bool_decide (role = STDOUT) then
        match out s with
        | Raw chunks => Some (set_pc (set_outputs s (Pump id [] chunks false) (err s) (tasks s)) (RRegister role))
        | _ => Some (set_pc s RIdle)
        end
      else if bool_decide (role = STDERR) then
        match err s with
        | Raw chunks => Some (set_pc (set_outputs s (out s) (Pump id [] chunks false) (tasks s)) (RRegister role))
        | _ => Some (set_pc s RIdle)
        end
      else Some (set_pc s RIdle)
  | RRegister role => Some (set_pc (set_outputs s (out s) (err s) (tasks s ++ [role])) RIdle)
  end.

(** ** The pumps

    One read of an output and the frame for it; at the end of the file the task ends. *)

Definition pump_step (p : slot) : option (slot * list Frame) :=
  match p with
  | Pump id sent (c :: rest) false => Some (Pump id (sent ++ [c]) rest false, [Data id 0 c])
  | Pump id sent [] false => Some (Pump id sent [] true, [])
  | _ => None
  end.

(** ** The completion *)

Definition expected_roles : list Z := [ERROR; STDOUT] ++ (if stdin then [STDIN] else []) ++ (if tty then [] else [STDERR]).

Definition has_file (f : option (list bytes)) : bool := match f with Some _ => true | None => false end.
Definition expected_pumps : nat := (if has_file stdout_file then 1 else 0) + (if negb tty && has_file stderr_file then 1 else 0).

Definition all_opened (s : state) : bool := forallb (fun r => bool_decide (is_Some (by_role s !! r))) expected_roles.

Definition finished (s : state) (role : Z) : bool :=
  match (if bool_decide (role = STDOUT) then out s else err s) with Pump _ _ _ true => true | _ => false end.

(** The frames that end the session: the end of each output, then the status. *)
Definition completion_frames (s : state) : list Frame :=
  match by_role s !! STDOUT with Some id => [Data id FLAG_FIN []] | None => [] end ++
  match by_role s !! STDERR with Some id => [Data id FLAG_FIN []] | None => [] end ++
  match by_role s !! ERROR with Some id => [Data id FLAG_FIN (exit_status_json (if is_attach then 0 else exit_code))] | None => [] end.

(** What can happen next: a task runs, the process exits, or a bounded wait ends. *)
Inductive label := Read | PumpOut | PumpErr | Exit | Complete | Timeout | Detach.

(** At the end of [run_exec] every task is aborted and the connection closed. *)
Definition ended (s : state) : bool := match phase s with Finished => true | _ => false end.

Definition step (l : label) (s : state) : option state :=
  if ended s then None else
  match l with
  | Read => read_step s
  | PumpOut => '(p, fs) ← pump_step (out s); Some (write_frames (set_outputs s p (err s) (tasks s)) fs)
  | PumpErr => '(p, fs) ← pump_step (err s); Some (write_frames (set_outputs s (out s) p (tasks s)) fs)
  | Exit => if exited s then None else Some (set_signals s (armed s) (detached s) true)
  | Complete =>
      match phase s with
      | Start => if has_session then Some (set_phase (set_signals s true (detached s) (exited s)) Barrier false) else Some (set_phase s Emitted false)
      | Barrier => if all_opened s then Some (set_phase s Gate false) else None
      | Gate => if bool_decide (expected_pumps <= length (tasks s)) then Some (set_phase s Select false) else None
      | Select => Some (set_phase (set_outputs s (out s) (err s) []) (Draining (tasks s)) false)
      | Draining taken => if forallb (finished s) taken then Some (set_phase s Drained false) else None
      | Drained => if is_attach || exited s then Some (set_phase (write_frames s (completion_frames s)) Emitted false) else None
      | Emitted => if stopped s then Some (set_phase s Finished false) else None
      | Finished => None
      end
  | Timeout =>
      match phase s with
      | Barrier => Some (set_phase s Gate true)
      | Gate => Some (set_phase s Select true)
      | Emitted => Some (set_phase s Finished false)
      | _ => None
      end
  | Detach =>
      if is_attach && detached s then
        match phase s with
        | Barrier | Gate | Select | Draining _ => Some (set_phase s Drained true)
        | _ => None
        end
      else None
  end.

Fixpoint run (ls : list label) (s : state) : option state :=
  match ls with [] => Some s | l :: ls => s ← step l s; run ls s end.

Definition reachable (frames : list Frame) (s : state) : Prop := exists ls, run ls (init frames) = Some s.

(** * Clients that open their streams as the protocol says *)

(** The streams that a client opens, with their roles. *)
Fixpoint syns (z : zin) (fs : list Frame) : list (Z * Z) :=
  match fs with
  | [] => []
  | SynStream id _ _ _ header_block :: fs =>
      let '(b, z) := decompress z header_block in (id, role_of (default [] (b ≫= deserialize_headers))) :: syns z fs
  | _ :: fs => syns z fs
  end.

Definition is_output (role : Z) : bool := bool_decide (role = STDOUT \/ role = STDERR).

(** Every stream has its own identifier, each output at most one stream, and with a terminal
    there is no stream for errors. *)
Record conforming (l : list (Z * Z)) : Prop := {
  conf_ids : NoDup l.*1;
  conf_outputs : NoDup (List.filter is_output l.*2);
  conf_tty : tty = true -> STDERR ∉ l.*2 }.

(** * What holds in every state of a session *)

Definition opening (s : state) : list (Z * Z) := match pc s with RInsert id role => [(id, role)] | _ => [] end.
Definition future (s : state) : list (Z * Z) := opening s ++ syns (zst s) (inbox s).

Definition slot_ok (s : state) (role : Z) (file : option (list bytes)) (p : slot) : Prop :=
  match p with
  | Absent => file = None
  | Raw chunks => file = Some chunks
  | Pump id sent rest fin => file = Some (sent ++ rest) /\ by_role s !! role = Some id /\ (fin = true -> rest = [])
  end.

Definition pumped (p : slot) : Prop := match p with Pump _ _ _ _ => True | _ => False end.
Definition slot_at (s : state) (role : Z) : slot := if bool_decide (role = STDOUT) then out s else err s.

(** The pumps that were registered and not yet awaited. *)
Definition registered (s : state) : list Z := tasks s ++ match phase s with Draining taken => taken | _ => [] end.

(** What a pump has sent on a stream. *)
Definition sent_by (p : slot) (id : Z) : list Frame :=
  match p with Pump id' sent _ _ => if bool_decide (id' = id) then Data id 0 <$> sent else [] | _ => [] end.

Definition data_on (id : Z) (f : Frame) : bool := match f with Data id' _ _ => bool_decide (id' = id) | _ => false end.
Definition any_data (f : Frame) : bool := match f with Data _ _ _ => true | _ => false end.

Definition awaited : list Z := (if has_file stdout_file then [STDOUT] else []) ++ (if negb tty && has_file stderr_file then [STDERR] else []).
Definition drained (s : state) : Prop := forall role, role ∈ awaited -> finished s role = true.

Definition wire_ok (s : state) : Prop := forall id, List.filter (data_on id) (wire s) = sent_by (out s) id ++ sent_by (err s) id.

(** The frames of a completed session. *)
Definition completed (frames : list Frame) (w : list Frame) : Prop :=
  exists pre post o e r, w = pre ++ [Data o FLAG_FIN []] ++ (if tty then [] else [Data r FLAG_FIN []]) ++ [Data e FLAG_FIN (exit_status_json exit_code)] ++ post /\
    List.filter (data_on o) pre = (Data o 0 <$> default [] stdout_file) /\
    (tty = false -> List.filter (data_on r) pre = (Data r 0 <$> default [] stderr_file)) /\
    List.filter any_data post = [] /\
    (o, STDOUT) ∈ syns zin_new frames /\ (e, ERROR) ∈ syns zin_new frames /\ (tty = false -> (r, STDERR) ∈ syns zin_new frames).

(** What the completion has established, unless a wait was cut short. *)
Definition phase_ok (frames : list Frame) (s : state) : Prop :=
  match phase s with
  | Start | Barrier => wire_ok s
  | Gate => wire_ok s /\ all_opened s = true
  | Select => wire_ok s /\ all_opened s = true /\ awaited ⊆ tasks s
  | Draining taken => wire_ok s /\ all_opened s = true /\ awaited ⊆ taken
  | Drained => wire_ok s /\ all_opened s = true /\ drained s
  | Emitted | Finished => drained s /\ completed frames (wire s)
  end.

Record inv (frames : list Frame) (s : state) : Prop := {
  inv_conf : conforming (future s);
  inv_fresh : forall id r, (id, r) ∈ future s -> roles s !! id = None /\ (is_output r = true -> by_role s !! r = None);
  inv_roles : forall r id, by_role s !! r = Some id -> roles s !! id = Some r;
  inv_syns : (forall id r, (id, r) ∈ future s -> (id, r) ∈ syns zin_new frames) /\ (forall r id, by_role s !! r = Some id -> (id, r) ∈ syns zin_new frames);
  inv_spawn : forall id r, pc s = RSpawn id r -> is_output r = true -> by_role s !! r = Some id;
  inv_out : slot_ok s STDOUT stdout_file (out s);
  inv_err : slot_ok s STDERR stderr_file (err s);
  inv_registered : NoDup (registered s);
  inv_pumped : forall r, r ∈ registered s \/ pc s = RRegister r -> is_output r = true /\ pumped (slot_at s r);
  inv_register : forall r, pc s = RRegister r -> r ∉ registered s;
  inv_tty : tty = true -> by_role s !! STDERR = None;
  inv_phase : cut s = false -> phase_ok frames s }.

Lemma any_data_on id w : List.filter any_data w = [] -> List.filter (data_on id) w = [].
Proof. induction w as [|f w IH]; [done|]. destruct f; cbn; try done; by apply IH. Qed.

Lemma completed_more frames w w' : completed frames w -> List.filter any_data w' = [] -> completed frames (w ++ w').
Proof.
intros (pre & post & o & e & r & -> & H1 & H2 & H3 & H4) Hw. exists pre, (post ++ w'), o, e, r. split; [by rewrite <- !app_assoc|]. split; [done|]. split; [done|]. split; [|done].
by rewrite List.filter_app, H3, Hw.
Qed.

(** Steps that leave the outputs and the roles alone. *)
Lemma inv_frame frames s s' w :
  inv frames s -> future s' = future s -> roles s' = roles s -> by_role s' = by_role s -> out s' = out s -> err s' = err s -> tasks s' = tasks s ->
  phase s' = phase s -> cut s' = cut s -> wire s' = wire s ++ w -> List.filter any_data w = [] ->
  (forall id r, pc s' = RSpawn id r -> pc s = RSpawn id r) -> (forall r, pc s' = RRegister r -> pc s = RRegister r) -> inv frames s'.
Proof.
intros [] Hf Er Eb Eo Ee Et Ep Ec Ew Hw Hsp Hreg.
assert (registered s' = registered s) as Eg by (unfold registered; by rewrite Et, Ep).
assert (forall r, slot_at s' r = slot_at s r) as Es by (intros r; unfold slot_at; by rewrite Eo, Ee).
assert (wire_ok s -> wire_ok s') as Hwire by (intros H id; rewrite Ew, Eo, Ee, List.filter_app, (any_data_on _ w Hw), app_nil_r; apply H).
assert (all_opened s' = all_opened s) as Ea by (unfold all_opened; by rewrite Eb).
assert (drained s -> drained s') as Hdr by (intros H r Hr; unfold finished; rewrite Eo, Ee; by apply H).
split; rewrite ?Hf, ?Er, ?Eb, ?Eg, ?Eo, ?Ee; try done.
- intros id r H. apply inv_spawn0. by apply Hsp.
- unfold slot_ok in *. by rewrite Eb.
- unfold slot_ok in *. by rewrite Eb.
- intros r [H|H]; rewrite Es; apply inv_pumped0; [by left|right; by apply Hreg].
- intros r H. by apply inv_register0, Hreg.
- rewrite Ec. intros Hcut. specialize (inv_phase0 Hcut). unfold phase_ok in *. rewrite Ep, Ea, Et, Ew. destruct (phase s); destruct_and?; split_and?; auto using completed_more.
Qed.

Lemma output_roles r : is_output r = true <-> r = STDOUT \/ r = STDERR.
Proof. apply bool_decide_eq_true. Qed.

Lemma conforming_tail x l : conforming (x :: l) -> conforming l.
Proof.
intros [H1 H2 H3]. split.
- by apply NoDup_cons in H1 as [_ H1].
- rewrite fmap_cons in H2. cbn in H2. destruct (is_output x.2); [by apply NoDup_cons in H2 as [_ H2]|done].
- intros Ht Hin. by apply (H3 Ht), list_elem_of_further.
Qed.

(** A stream and its role become known. *)
Lemma inv_insert frames s id role :
  inv frames s -> pc s = RInsert id role ->
  inv frames (set_by_role (set_reader s (inbox s) (zst s) (RSpawn id role) (<[id := role]> (roles s))) (<[role := id]> (by_role s))).
Proof.
intros [] Hpc. set (s' := set_by_role _ _).
assert (future s = (id, role) :: future s') as Ef by (unfold future, opening, s'; by rewrite Hpc).
rewrite Ef in *. destruct (inv_fresh0 id role (list_elem_of_here _ _)) as [Hid Hrole].
assert (forall r i, is_output r = true -> by_role s !! r = Some i -> <[role := id]> (by_role s) !! r = Some i) as Hkeep.
{ intros r i Ho Hr. rewrite lookup_insert_ne; [done|]. intros ->. by rewrite (Hrole Ho) in Hr. }
split; try done.
- by eapply conforming_tail.
- intros id' r' Hin. destruct (inv_fresh0 id' r' (list_elem_of_further _ _ _ Hin)) as [H1 H2]. cbn. destruct inv_conf0 as [N1 N2 _]. split.
  + rewrite lookup_insert_ne; [done|]. intros ->. apply NoDup_cons in N1 as [N1 _]. apply N1, list_elem_of_fmap. by exists (id', r').
  + intros Ho. rewrite lookup_insert_ne; [by apply H2|]. intros ->. rewrite fmap_cons in N2. cbn in N2. rewrite Ho in N2. apply NoDup_cons in N2 as [N2 _].
    apply N2, list_elem_of_In, List.filter_In. split; [|done]. apply list_elem_of_In, list_elem_of_fmap. by exists (id', r').
- cbn. intros r i [[<- <-]|[Hne Hr]]%lookup_insert_Some; [by rewrite lookup_insert_eq|]. rewrite lookup_insert_ne; [by apply inv_roles0|]. intros ->. apply inv_roles0 in Hr. congruence.
- destruct inv_syns0 as [S1 S2]. split; [intros i r Hin; by apply S1, list_elem_of_further|]. cbn. intros r i [[<- <-]|[_ Hr]]%lookup_insert_Some; [apply S1, list_elem_of_here|by apply S2].
- cbn. intros i r [= <- <-] _. by rewrite lookup_insert_eq.
- cbn. unfold slot_ok in *. destruct (out s); [done|done|]. destruct inv_out0 as (H1 & H2 & H3). split; [done|]. split; [by apply Hkeep|done].
- cbn. unfold slot_ok in *. destruct (err s); [done|done|]. destruct inv_err0 as (H1 & H2 & H3). split; [done|]. split; [by apply Hkeep|done].
- cbn. intros r [H|H]; [|done]. apply inv_pumped0. by left.
- cbn. intros Ht. rewrite lookup_insert_ne; [by apply inv_tty0|]. intros ->. destruct inv_conf0 as [_ _ N3]. by apply (N3 Ht), list_elem_of_here.
- intros Hcut. specialize (inv_phase0 Hcut). unfold phase_ok in *. change (phase s') with (phase s). assert (all_opened s = true -> all_opened s' = true) as Ha.
  { unfold all_opened. rewrite !forallb_forall. intros H r Hr. specialize (H r Hr). rewrite bool_decide_eq_true in *. cbn. apply lookup_insert_is_Some. destruct (decide (role = r)); [by left|by right]. }
  change (tasks s') with (tasks s). change (wire_ok s') with (wire_ok s). change (drained s') with (drained s). destruct (phase s) eqn:Ep; destruct_and?; split_and?; auto.
Qed.

(** The pump of an output is started. *)
Lemma inv_start frames s id role p' o e :
  inv frames s -> pc s = RSpawn id role -> is_output role = true ->
  (role = STDOUT /\ (exists chunks, out s = Raw chunks /\ p' = Pump id [] chunks false) /\ o = p' /\ e = err s) \/
  (role = STDERR /\ (exists chunks, err s = Raw chunks /\ p' = Pump id [] chunks false) /\ e = p' /\ o = out s) ->
  inv frames (set_pc (set_outputs s o e (tasks s)) (RRegister role)).
Proof.
intros [] Hpc Ho Hcase. set (s' := set_pc _ _).
assert (future s' = future s) as Ef by (unfold future, opening, s'; by rewrite Hpc).
pose proof (inv_spawn0 id role Hpc Ho) as Hbr.
assert (forall r, pumped (slot_at s r) -> pumped (slot_at s' r)) as Hkeep.
{ intros r. unfold slot_at, s'. cbn. destruct Hcase as [(-> & (c & E & ->) & -> & ->)|(-> & (c & E & ->) & -> & ->)]; case_bool_decide; rewrite ?E; done. }
assert (forall r, is_output r = true -> pumped (slot_at s r) -> r <> role) as Hdiff.
{ intros r Hr Hp ->. revert Hp. unfold slot_at. destruct Hcase as [(-> & (c & E & _) & _)|(-> & (c & E & _) & _)]; cbn; by rewrite E. }
assert (forall i, sent_by (out s') i ++ sent_by (err s') i = sent_by (out s) i ++ sent_by (err s) i) as Hsent.
{ intros i. unfold s'. cbn. destruct Hcase as [(-> & (c & E & ->) & -> & ->)|(-> & (c & E & ->) & -> & ->)]; rewrite E; cbn; by case_bool_decide. }
assert (forall r, finished s r = true -> finished s' r = true) as Hfin.
{ intros r. unfold finished, s'. cbn. destruct Hcase as [(-> & (c & E & ->) & -> & ->)|(-> & (c & E & ->) & -> & ->)]; case_bool_decide; rewrite ?E; done. }
split; try done; rewrite ?Ef; try done.
- unfold s'. cbn. destruct Hcase as [(-> & (c & E & ->) & -> & ->)|(-> & (c & E & ->) & -> & ->)]; [|done]. rewrite E in inv_out0. cbn in *. split; [done|]. split; [done|done].
- unfold s'. cbn. destruct Hcase as [(-> & (c & E & ->) & -> & ->)|(-> & (c & E & ->) & -> & ->)]; [done|]. rewrite E in inv_err0. cbn in *. split; [done|]. split; [done|done].
- intros r [H|H].
  + destruct (inv_pumped0 r (or_introl H)) as [H1 H2]. split; [done|by apply Hkeep].
  + cbn in H. injection H as <-. split; [done|]. unfold slot_at, s'. cbn. by destruct Hcase as [(-> & (c & E & ->) & -> & ->)|(-> & (c & E & ->) & -> & ->)].
- cbn. intros r [= <-] Hin. change (role ∈ registered s) in Hin. destruct (inv_pumped0 role (or_introl Hin)) as [H1 H2]. by apply (Hdiff role H1 H2).
- intros Hcut. specialize (inv_phase0 Hcut). unfold phase_ok in *. change (phase s') with (phase s). change (tasks s') with (tasks s). change (all_opened s') with (all_opened s).
  assert (wire_ok s -> wire_ok s') as Hw by (intros H i; rewrite Hsent; apply H). assert (drained s -> drained s') as Hd by (intros H r Hr; by apply Hfin, H).
  destruct (phase s) eqn:Ep; destruct_and?; split_and?; auto.
Qed.

(** A started pump is registered. *)
Lemma inv_registers frames s role : inv frames s -> pc s = RRegister role -> inv frames (set_pc (set_outputs s (out s) (err s) (tasks s ++ [role])) RIdle).
Proof.
intros [] Hpc. set (s' := set_pc _ _). assert (future s' = future s) as Ef by (unfold future, opening, s'; by rewrite Hpc).
assert (registered s' ≡ₚ role :: registered s) as Eg by (unfold registered, s'; cbn; rewrite <- app_assoc; cbn; symmetry; apply Permutation_middle).
pose proof (inv_register0 role Hpc) as Hnot. destruct (inv_pumped0 role (or_intror Hpc)) as [Ho Hp].
split; try done; rewrite ?Ef; try done.
- rewrite Eg. by apply NoDup_cons.
- intros r [H|H]; [|done]. rewrite Eg in H. apply elem_of_cons in H as [->|H]; [done|]. apply inv_pumped0. by left.
- intros Hcut. specialize (inv_phase0 Hcut). unfold phase_ok in *. change (phase s') with (phase s). change (wire_ok s') with (wire_ok s). change (all_opened s') with (all_opened s). change (drained s') with (drained s).
  assert (awaited ⊆ tasks s -> awaited ⊆ tasks s') as Hr by (intros H; unfold s'; cbn; set_solver). destruct (phase s) eqn:Ep; destruct_and?; split_and?; auto.
Qed.

Lemma pump_step_inv p p' fs : pump_step p = Some (p', fs) -> exists id sent rest,
  (exists c, p = Pump id sent (c :: rest) false /\ p' = Pump id (sent ++ [c]) rest false /\ fs = [Data id 0 c]) \/
  (rest = [] /\ p = Pump id sent [] false /\ p' = Pump id sent [] true /\ fs = []).
Proof. destruct p as [| |id sent [|c rest] []]; intros H; try discriminate; injection H as <- <-; exists id, sent; [exists []; by right|exists rest; left; by exists c]. Qed.

Lemma pump_step_sent p p' fs i : pump_step p = Some (p', fs) -> sent_by p' i = sent_by p i ++ List.filter (data_on i) fs.
Proof.
intros (id & sent & rest & [(c & -> & -> & ->)|(-> & -> & -> & ->)])%pump_step_inv; cbn; [|by rewrite app_nil_r]. case_bool_decide as E; cbn; [|done]. subst. by rewrite fmap_app.
Qed.

Lemma pump_step_ok s role file p p' fs : pump_step p = Some (p', fs) -> slot_ok s role file p -> slot_ok s role file p' /\ exists chunks id, file = Some chunks /\ by_role s !! role = Some id.
Proof.
intros (id & sent & rest & [(c & -> & -> & ->)|(-> & -> & -> & ->)])%pump_step_inv (H1 & H2 & _); cbn; (split; [|eauto]); [rewrite <- app_assoc|]; done.
Qed.

(** A pump sends a piece, or ends. *)
Lemma inv_pump frames s role p' fs o e :
  inv frames s -> pump_step (slot_at s role) = Some (p', fs) ->
  (role = STDOUT /\ o = p' /\ e = err s) \/ (role = STDERR /\ o = out s /\ e = p') ->
  inv frames (write_frames (set_outputs s o e (tasks s)) fs).
Proof.
intros [] Hstep Hcase. set (s' := write_frames _ _).
assert (slot_ok s STDOUT stdout_file o /\ slot_ok s STDERR stderr_file e) as [Hso Hse].
{ destruct Hcase as [(-> & -> & ->)|(-> & -> & ->)]; cbn in Hstep; split; try done; by eapply pump_step_ok. }
assert (forall r, pumped (slot_at s r) -> pumped (slot_at s' r)) as Hkeep.
{ intros r. unfold slot_at, s'. cbn. apply pump_step_inv in Hstep as (i & sn & rs & Hs). destruct Hcase as [(-> & -> & ->)|(-> & -> & ->)]; case_bool_decide; try done; by destruct Hs as [(c & _ & -> & _)|(_ & _ & -> & _)]. }
assert (wire_ok s -> wire_ok s') as Hw.
{ intros H i. unfold s'. cbn. rewrite List.filter_app, H. pose proof (pump_step_sent _ _ _ i Hstep) as Hi. destruct Hcase as [(-> & -> & ->)|(-> & -> & ->)]; cbn in Hi; rewrite Hi; [|by rewrite <- app_assoc].
  rewrite <- !app_assoc. f_equal. destruct (List.filter (data_on i) fs) eqn:Ef; [by rewrite app_nil_r|].
  assert (sent_by (err s) i = []) as ->; [|by rewrite app_nil_r]. apply pump_step_inv in Hstep as (i' & sn & rs & Hs). cbn in Hs. destruct (err s) as [| |i2 sn2 rs2 fin2] eqn:Eerr; [done..|]. cbn. case_bool_decide as E2; [|done]. subst i2.
  assert (i' = i) as -> by (destruct Hs as [(c & _ & _ & ->)|(_ & _ & _ & ->)]; [|done]; cbn in Ef; by case_bool_decide).
  exfalso. destruct inv_err0 as (_ & He & _). apply inv_roles0 in He. assert (by_role s !! STDOUT = Some i) as Hout by (destruct Hs as [(c & Eo & _)|(_ & Eo & _)]; change (slot_at s STDOUT) with (out s) in Eo; rewrite Eo in inv_out0; apply inv_out0).
  apply inv_roles0 in Hout. rewrite He in Hout. discriminate Hout. }
assert (drained s -> False) as Hnd.
{ intros H. assert (role ∈ awaited) as Hr.
  { unfold awaited. rewrite elem_of_app. destruct Hcase as [(-> & -> & ->)|(-> & -> & ->)]; cbn in Hstep.
    - destruct (pump_step_ok s STDOUT _ _ _ _ Hstep inv_out0) as (_ & c & id & -> & _). left. apply list_elem_of_here.
    - destruct (pump_step_ok s STDERR _ _ _ _ Hstep inv_err0) as (_ & c & id & -> & Hb). right. destruct tty; [by rewrite inv_tty0 in Hb|]. apply list_elem_of_here. }
  specialize (H _ Hr). unfold finished in H. unfold slot_at in Hstep. apply pump_step_inv in Hstep as (i & sn & rs & [(c & Hs & _)|(_ & Hs & _)]); by rewrite Hs in H. }
split; try done.
- intros r H. destruct (inv_pumped0 r H) as [H1 H2]. split; [done|by apply Hkeep].
- intros Hcut. specialize (inv_phase0 Hcut). unfold phase_ok in *. change (phase s') with (phase s). change (tasks s') with (tasks s). change (all_opened s') with (all_opened s).
  destruct (phase s) eqn:Ep; destruct_and?; split_and?; auto; by destruct Hnd.
Qed.

(** Steps of the completion. *)
Lemma inv_moves frames s s' :
  inv frames s -> inbox s' = inbox s -> zst s' = zst s -> pc s' = pc s -> roles s' = roles s -> by_role s' = by_role s -> out s' = out s -> err s' = err s ->
  NoDup (registered s') -> registered s' ⊆ registered s -> (cut s' = false -> cut s = false -> phase_ok frames s -> phase_ok frames s') -> cut s || cut s' = cut s' -> inv frames s'.
Proof.
intros [] E1 E2 E3 E4 E5 E6 E7 Hnd Hsub Hph Hc. assert (future s' = future s) as Ef by (unfold future, opening; by rewrite E1, E2, E3).
assert (forall r, slot_at s' r = slot_at s r) as Es by (intros r; unfold slot_at; by rewrite E6, E7).
split; rewrite ?Ef, ?E3, ?E4, ?E5, ?E6, ?E7; try done.
- unfold slot_ok in *. by rewrite E5.
- unfold slot_ok in *. by rewrite E5.
- intros r [H|H]; rewrite Es; apply inv_pumped0; [left; by apply Hsub|by right].
- intros r H Hin. by apply (inv_register0 r H), Hsub.
- intros Hcut. rewrite Hcut, orb_false_r in Hc. apply Hph; [done|done|by apply inv_phase0].
Qed.

Lemma all_awaited frames s : inv frames s -> (match phase s with Draining _ => False | _ => True end) -> expected_pumps <= length (tasks s) -> awaited ⊆ tasks s.
Proof.
intros [] Hph Hlen. assert (registered s = tasks s) as Er by (unfold registered; destruct (phase s); by rewrite ?app_nil_r). rewrite Er in *.
assert (tasks s ⊆ awaited) as Hsub.
{ intros r Hr. destruct (inv_pumped0 r (or_introl Hr)) as [Ho Hp]. unfold awaited. rewrite elem_of_app. apply output_roles in Ho as [->| ->]; unfold slot_at in Hp; cbn in Hp.
  - left. destruct (out s); [done..|]. destruct inv_out0 as (-> & _). apply list_elem_of_here.
  - right. destruct (err s); [done..|]. destruct inv_err0 as (-> & Hb & _). destruct tty; [by rewrite inv_tty0 in Hb|]. apply list_elem_of_here. }
assert (length awaited = expected_pumps) as Hl by (unfold awaited, expected_pumps; rewrite length_app; by destruct (has_file stdout_file), (negb tty && has_file stderr_file)).
assert (tasks s ≡ₚ awaited) as Hperm; [|intros r Hr; by rewrite Hperm]. apply submseteq_length_Permutation; [|lia]. by apply NoDup_submseteq.
Qed.

Lemma opened_role s r : all_opened s = true -> r ∈ expected_roles -> exists id, by_role s !! r = Some id.
Proof. unfold all_opened. rewrite forallb_forall. intros H Hr. specialize (H r ltac:(by apply list_elem_of_In)). by apply bool_decide_eq_true in H as [id H]; exists id. Qed.

Lemma drained_sent s role file p id :
  slot_ok s role file p -> by_role s !! role = Some id -> (has_file file = true -> exists i a b, p = Pump i a b true) -> sent_by p id = (Data id 0 <$> default [] file).
Proof.
intros Hs Hb Hf. destruct file as [chunks|]; [|destruct p; cbn in *; [done|done|by destruct Hs]]. destruct (Hf eq_refl) as (i & a & b & ->). destruct Hs as (E & Hb' & Hfin). injection E as ->.
rewrite Hb in Hb'. injection Hb' as <-. cbn. rewrite bool_decide_eq_true_2 by done. by rewrite (Hfin eq_refl), app_nil_r.
Qed.

Lemma other_slot s role role' file p id :
  slot_ok s role' file p -> (forall r i, by_role s !! r = Some i -> roles s !! i = Some r) -> by_role s !! role = Some id -> role <> role' -> sent_by p id = [].
Proof.
intros Hs Hr Hb Hne. destruct p as [| |i a b fin]; [done..|]. destruct Hs as (_ & Hb' & _). cbn. case_bool_decide as E; [|done]. subst i. apply Hr in Hb, Hb'. congruence.
Qed.

Lemma drained_pump s role (file : option (list bytes)) p :
  drained s -> p = slot_at s role -> role ∈ awaited -> exists i a b, p = Pump i a b true.
Proof. intros Hd -> Hr. specialize (Hd _ Hr). unfold finished in Hd. unfold slot_at. destruct (if bool_decide _ then _ else _) as [| |i a b []]; try done. eauto. Qed.

Lemma emit_completed frames s :
  is_attach = false -> inv frames s -> wire_ok s -> all_opened s = true -> drained s -> completed frames (wire s ++ completion_frames s).
Proof.
intros Hat [] Hw Ha Hd. destruct (opened_role s STDOUT Ha) as [o Ho]; [by apply list_elem_of_further, list_elem_of_here|]. destruct (opened_role s ERROR Ha) as [e He]; [by apply list_elem_of_here|].
assert (exists r, (tty = false -> by_role s !! STDERR = Some r)) as [r Hr].
{ destruct tty eqn:Et; [by exists 0%Z|]. destruct (opened_role s STDERR Ha) as [r Hr]; [|by exists r]. unfold expected_roles. rewrite Et, !elem_of_app. right. right. apply list_elem_of_here. }
exists (wire s), [], o, e, r. split; [|split; [|split; [|split; [done|split; [by apply inv_syns0|split; [by apply inv_syns0|intros Ht; by apply inv_syns0, Hr]]]]]].
- f_equal. unfold completion_frames. rewrite Ho, He, Hat. destruct tty eqn:Et; [by rewrite inv_tty0|by rewrite Hr].
- rewrite Hw, (other_slot s STDOUT STDERR stderr_file (err s)), app_nil_r by (done || discriminate). apply (drained_sent s STDOUT); [done|done|]. intros Hf. apply (drained_pump s STDOUT stdout_file); [done|done|].
  unfold awaited. rewrite Hf. apply list_elem_of_here.
- intros Ht. rewrite Hw, (other_slot s STDERR STDOUT stdout_file (out s)) by (done || discriminate || by apply Hr). apply (drained_sent s STDERR); [done|by apply Hr|]. intros Hf. apply (drained_pump s STDERR stderr_file); [done|done|].
  unfold awaited. rewrite Hf, Ht, elem_of_app. right. apply list_elem_of_here.
Qed.

Lemma inv_complete frames s s' :
  is_attach = false -> has_session = true -> inv frames s -> step Complete s = Some s' -> inv frames s'.
Proof.
intros Hat Hse Hi. pose proof (inv_registered _ _ Hi) as Hnd. unfold step. destruct (ended s); [done|]. destruct (phase s) as [| | | |taken| | |] eqn:Ep; rewrite ?Hse, ?Hat; cbn [orb].
- intros [= <-]. eapply inv_moves; try done; try (unfold registered in *; cbn; rewrite ?Ep in *; done); [|cbn; by destruct (cut s)]. unfold phase_ok. cbn. rewrite Ep. done.
- destruct (all_opened s) eqn:Ea; [|done]. intros [= <-]. eapply inv_moves; try done; try (unfold registered in *; cbn; rewrite ?Ep in *; done); [|cbn; by destruct (cut s)]. unfold phase_ok. cbn. rewrite Ep. done.
- case_bool_decide as Hb; [|done]. intros [= <-]. eapply inv_moves; try done; try (unfold registered in *; cbn; rewrite ?Ep in *; done); [|cbn; by destruct (cut s)]. unfold phase_ok. cbn. rewrite Ep. intros _ _ [H1 H2]. split; [done|]. split; [done|].
  eapply all_awaited; [done|by rewrite Ep|done].
- intros [= <-]. eapply inv_moves; try done; try (unfold registered in *; cbn; rewrite ?Ep, ?app_nil_r in *; done); [|cbn; by destruct (cut s)]. unfold phase_ok. cbn. rewrite Ep. done.
- destruct (forallb (finished s) taken) eqn:Ef; [|done]. intros [= <-]. assert (registered s = tasks s ++ taken) as Er by (unfold registered; by rewrite Ep).
  eapply inv_moves; try done; [..|cbn; by destruct (cut s)].
  + unfold registered. cbn. rewrite app_nil_r. rewrite Er in Hnd. by apply NoDup_app in Hnd as [Hnd _].
  + rewrite Er. unfold registered. cbn. rewrite app_nil_r. set_solver.
  + unfold phase_ok. cbn. rewrite Ep. intros _ _ (H1 & H2 & H3). split; [done|]. split; [done|]. intros r Hr. rewrite forallb_forall in Ef. apply Ef, list_elem_of_In. by apply H3.
- destruct (exited s); [|done]. intros [= <-]. eapply inv_moves; try done; try (unfold registered in *; cbn; rewrite ?Ep in *; done); [|cbn; by destruct (cut s)]. unfold phase_ok. cbn. rewrite Ep. intros _ _ (H1 & H2 & H3).
  split; [done|]. by apply emit_completed.
- destruct (stopped s); [|done]. intros [= <-]. eapply inv_moves; try done; try (unfold registered in *; cbn; rewrite ?Ep in *; done); [|cbn; by destruct (cut s)]. unfold phase_ok. cbn. rewrite Ep. done.
- done.
Qed.

Lemma inv_timeout frames s s' : inv frames s -> step Timeout s = Some s' -> inv frames s'.
Proof.
intros Hi. pose proof (inv_registered _ _ Hi) as Hnd. unfold step. destruct (ended s); [done|]. destruct (phase s) as [| | | |taken| | |] eqn:Ep; try done; intros [= <-];
  (eapply inv_moves; try done; try (unfold registered in *; cbn; rewrite ?Ep in *; done); [|cbn; by destruct (cut s)]); unfold phase_ok; cbn; rewrite Ep; [| |done]; by destruct (cut s).
Qed.

Lemma inv_on_data frames s id flags data fs :
  inv frames s -> pc s = RIdle -> inbox s = Data id flags data :: fs -> inv frames (on_data id flags data (set_inbox s fs)).
Proof.
intros Hi Hpc Hin. apply (inv_frame frames s _ []); try done; unfold on_data, notify_closed, future, opening; rewrite ?app_nil_r;
  repeat match goal with |- context [if ?b then _ else _] => destruct b end; cbn; rewrite ?Hpc, ?Hin, ?app_nil_r; done.
Qed.

Lemma inv_read frames s s' : inv frames s -> step Read s = Some s' -> inv frames s'.
Proof.
intros Hi. unfold step. destruct (ended s); [done|]. unfold read_step. destruct (stopped s); [done|]. destruct (pc s) as [|id role|id role|role] eqn:Hpc.
- assert (forall t, inv frames (set_inbox s t) -> inv frames (notify_closed (set_stopped (set_inbox s t)))) as Hstop.
  { intros t Ht. by apply (inv_frame frames _ _ [] Ht); cbn; rewrite ?app_nil_r. }
  destruct (inbox s) as [|f fs] eqn:Hin.
  + intros [= <-]. by apply (inv_frame frames s _ [] Hi); cbn; rewrite ?app_nil_r.
  + assert (syns (zst s) (f :: fs) = syns (zst s) fs -> inv frames (set_inbox s fs)) as Hskip.
    { intros E. apply (inv_frame frames s _ [] Hi); cbn; rewrite ?app_nil_r; try done. unfold future, opening. cbn. by rewrite Hin, E. }
    destruct f as [id a p fl h|id fl h|id status|payload|id|id status|id fl h|id delta|id fl data];
      try (intros [= <-]; by apply Hskip); try (intros [= <-]; by apply Hstop, Hskip).
    * destruct (decompress (zst s) h) as [b z] eqn:Ez. intros [= <-]. unfold syn_reply. cbn [zst_out set_reader]. destruct (compress (zst_out s) (serialize_headers [])) as [block zo].
      apply (inv_frame frames s _ [SynReply id 0 block] Hi); try done. unfold future, opening. cbn. rewrite Hpc, Hin. cbn. by rewrite Ez.
    * intros [= <-]. apply (inv_frame frames _ _ [Ping id] (Hskip eq_refl)); done.
    * intros [= <-]. by apply inv_on_data.
- intros [= <-]. by apply inv_insert.
- assert (inv frames (set_pc s RIdle)) as Hidle by (apply (inv_frame frames s _ [] Hi); try done; [unfold future, opening; cbn; by rewrite Hpc|cbn; by rewrite app_nil_r]).
  case_bool_decide as H1; [|case_bool_decide as H2; [|by intros [= <-]]].
  + destruct (out s) as [|chunks|] eqn:Eo; [by intros [= <-]| |by intros [= <-]]. intros [= <-]. apply (inv_start frames s id role (Pump id [] chunks false)); [done|done|apply output_roles; by left|]. left. split; [done|]. split; [by exists chunks|done].
  + destruct (err s) as [|chunks|] eqn:Ee; [by intros [= <-]| |by intros [= <-]]. intros [= <-]. apply (inv_start frames s id role (Pump id [] chunks false)); [done|done|apply output_roles; by right|]. right. split; [done|]. split; [by exists chunks|done].
- intros [= <-]. by apply inv_registers.
Qed.

Lemma inv_steps frames l s s' : is_attach = false -> has_session = true -> inv frames s -> step l s = Some s' -> inv frames s'.
Proof.
intros Hat Hse Hi. destruct l.
- by apply inv_read.
- unfold step. destruct (ended s); [done|]. destruct (pump_step (out s)) as [[p fs]|] eqn:E; [|done]. intros [= <-]. apply (inv_pump frames s STDOUT p fs p (err s)); [done|done|by left].
- unfold step. destruct (ended s); [done|]. destruct (pump_step (err s)) as [[p fs]|] eqn:E; [|done]. intros [= <-]. apply (inv_pump frames s STDERR p fs (out s) p); [done|done|by right].
- unfold step. destruct (ended s); [done|]. destruct (exited s); [done|]. intros [= <-]. by apply (inv_frame frames s _ [] Hi); cbn; rewrite ?app_nil_r.
- by apply inv_complete.
- by apply inv_timeout.
- unfold step. destruct (ended s); [done|]. by rewrite Hat.
Qed.

Lemma inv_init frames : conforming (syns zin_new frames) -> inv frames (init frames).
Proof.
intros Hc. split; try done.
- unfold slot_ok, init, slot_of. cbn. by destruct stdout_file.
- unfold slot_ok, init, slot_of. cbn. by destruct stderr_file.
- constructor.
- intros r [H|H]; [by apply not_elem_of_nil in H|done].
- intros _ id. cbn. unfold sent_by, slot_of. by destruct stdout_file, stderr_file.
Qed.

Lemma inv_run frames ls s s' : is_attach = false -> has_session = true -> inv frames s -> run ls s = Some s' -> inv frames s'.
Proof.
intros Hat Hse. revert s. induction ls as [|l ls IH]; intros s Hi; cbn; [by intros [= <-]|]. destruct (step l s) as [s1|] eqn:E; [|done]. cbn. apply IH. by eapply inv_steps.
Qed.

(** C17: an exec session delivers all output and then the status.  In every interleaving of the
    read loop, the pumps, the process and the completion, with a client that opens the streams
    of the protocol and no wait cut short: when the session has ended, the client got on the
    stream of each output exactly what the process wrote to it and then the end of the stream,
    and after all of that the status with the exit code of the process on the error stream;
    nothing is sent on any stream after it. *)
Theorem exec_delivers_all frames s :
  is_attach = false -> has_session = true -> conforming (syns zin_new frames) -> reachable frames s -> cut s = false ->
  (phase s = Emitted \/ phase s = Finished) -> completed frames (wire s).
Proof.
intros Hat Hse Hc [ls Hr] Hcut Hp. pose proof (inv_run frames ls _ _ Hat Hse (inv_init frames Hc) Hr) as Hi.
pose proof (inv_phase _ _ Hi Hcut) as H. unfold phase_ok in H. destruct Hp as [E|E]; rewrite E in H; apply H.
Qed.

(** ** Progress

    A step of the session itself: no wait is cut short, and the client neither closes its side
    nor resets a stream. *)

Definition productive (l : label) (s : state) : bool :=
  match l with
  | Read => negb (bool_decide (inbox s = [])) || match pc s with RIdle => false | _ => true end
  | PumpOut | PumpErr | Exit | Complete => true
  | Timeout | Detach => false
  end.

Fixpoint busy (ls : list label) (s : state) : option state :=
  match ls with [] => Some s | l :: ls => if productive l s then s ← step l s; busy ls s else None end.

Definition stuck (s : state) : Prop := forall l, productive l s = true -> step l s = None.

Definition pc_weight (p : reader_pc) : nat := match p with RIdle => 0 | RInsert _ _ => 3 | RSpawn _ _ => 2 | RRegister _ => 1 end.
Definition slot_weight (p : slot) : nat :=
  match p with Absent => 0 | Raw chunks => 2 + length chunks | Pump _ _ rest false => 1 + length rest | Pump _ _ _ true => 0 end.
Definition phase_weight (p : completion) : nat :=
  match p with Start => 7 | Barrier => 6 | Gate => 5 | Select => 4 | Draining _ => 3 | Drained => 2 | Emitted => 1 | Finished => 0 end.
Definition weight (s : state) : nat :=
  4 * length (inbox s) + pc_weight (pc s) + slot_weight (out s) + slot_weight (err s) + (if exited s then 0 else 1) + phase_weight (phase s).

Lemma on_data_frame id flags data s :
  let s' := on_data id flags data s in
  inbox s' = inbox s /\ pc s' = pc s /\ out s' = out s /\ err s' = err s /\ exited s' = exited s /\ phase s' = phase s /\
  tasks s' = tasks s /\ by_role s' = by_role s /\ stopped s' = stopped s /\ zst s' = zst s.
Proof. unfold on_data, notify_closed. cbn zeta. repeat match goal with |- context [if ?b then _ else _] => destruct b end; done. Qed.

Lemma pump_weight p p' fs : pump_step p = Some (p', fs) -> slot_weight p' < slot_weight p.
Proof. intros (id & sent & rest & [(c & -> & -> & ->)|(-> & -> & -> & ->)])%pump_step_inv; cbn; lia. Qed.

Lemma step_weight l s s' : productive l s = true -> step l s = Some s' -> weight s' < weight s.
Proof.
intros Hp. unfold step, weight. destruct (ended s) eqn:Een; [done|]. destruct l; try done.
- unfold read_step. cbn in Hp. destruct (stopped s); [done|]. destruct (pc s) as [|id role|id role|role] eqn:Hpc.
  + destruct (inbox s) as [|f fs]; [done|]. destruct f; try (intros [= <-]; cbn; rewrite Hpc; cbn; lia).
    * destruct (decompress _ _). intros [= <-]. unfold syn_reply. cbn [zst_out set_reader]. destruct (compress _ _). cbn. lia.
    * intros [= <-]. match goal with |- context [on_data ?i ?f ?d ?t] => destruct (on_data_frame i f d t) as (-> & -> & -> & -> & -> & -> & _) end. cbn. rewrite Hpc. cbn. lia.
  + intros [= <-]. cbn. lia.
  + destruct (out s) eqn:Eo, (err s) eqn:Ee; repeat case_bool_decide; intros [= <-]; cbn; rewrite ?Eo, ?Ee; cbn; lia.
  + intros [= <-]. cbn. lia.
- destruct (pump_step (out s)) as [[p fs]|] eqn:E; [|done]. intros [= <-]. apply pump_weight in E. cbn. lia.
- destruct (pump_step (err s)) as [[p fs]|] eqn:E; [|done]. intros [= <-]. apply pump_weight in E. cbn. lia.
- destruct (exited s); [done|]. intros [= <-]. cbn. lia.
- destruct (phase s); [destruct has_session|destruct (all_opened s)|destruct (bool_decide _)| |destruct (forallb _ _)|destruct (is_attach || exited s)|destruct (stopped s)|]; try done; intros [= <-]; cbn; lia.
Qed.

Lemma busy_bound ls s s' : busy ls s = Some s' -> length ls + weight s' <= weight s.
Proof.
revert s. induction ls as [|l ls IH]; intros s; cbn [busy length]; [intros [= ->]; lia|]. destruct (productive l s) eqn:Ep; [|done].
destruct (step l s) as [s1|] eqn:Es; [|done]. cbn [mbind option_bind]. intros H%IH. pose proof (step_weight _ _ _ Ep Es). lia.
Qed.

(** What the client still has to do is in its frames. *)
Record lively (s : state) : Prop := {
  lively_roles : forall r, r ∈ expected_roles -> is_Some (by_role s !! r) \/ r ∈ (future s).*2;
  lively_stopped : stopped s = true -> inbox s = [] /\ pc s = RIdle;
  lively_frames : Forall (fun f => match f with RstStream _ _ | GoAway _ _ => False | _ => True end) (inbox s);
  lively_raw : forall r, is_output r = true -> is_Some (by_role s !! r) -> (exists chunks, slot_at s r = Raw chunks) -> exists id, pc s = RSpawn id r;
  lively_pumped : forall r, is_output r = true -> pumped (slot_at s r) -> phase_weight (phase s) <= 2 \/ pc s = RRegister r \/ r ∈ registered s }.

Lemma stuck_emitted frames s :
  is_attach = false -> has_session = true -> inv frames s -> lively s -> stuck s -> phase s = Emitted \/ phase s = Finished.
Proof.
intros Hat Hse Hi [L1 L2 _ L3 L4] Hst. assert (ended s = false \/ phase s = Finished) as [Hen|?] by (unfold ended; destruct (phase s); auto); [|by right].
assert (inbox s = [] /\ pc s = RIdle) as [Hin Hpc].
{ destruct (stopped s) eqn:Es; [by apply L2|]. pose proof (Hst Read) as H. cbn [productive] in H. unfold step in H. rewrite Hen in H. unfold read_step in H. rewrite Es in H.
  destruct (pc s) eqn:Hpc; [|specialize (H ltac:(apply orb_true_r)); exfalso..].
  - destruct (inbox s) as [|f fs] eqn:Hin; [done|]. rewrite bool_decide_eq_false_2 in H by done. specialize (H eq_refl). exfalso. destruct f; try discriminate. by destruct (decompress _ _).
  - discriminate.
  - repeat case_match; discriminate.
  - discriminate. }
assert (future s = []) as Hf by (unfold future, opening; by rewrite Hpc, Hin).
assert (forall r, r ∈ expected_roles -> is_Some (by_role s !! r)) as Hall by (intros r Hr; destruct (L1 r Hr) as [H|H]; [done|rewrite Hf in H; by apply not_elem_of_nil in H]).
pose proof (Hst Complete eq_refl) as HC. unfold step in HC. rewrite Hen in HC. destruct (phase s) as [| | | |taken| | |] eqn:Ep; rewrite ?Hse in HC; try discriminate HC; auto; exfalso.
- assert (all_opened s = true) as Ha by (unfold all_opened; apply forallb_forall; intros r Hr; by apply bool_decide_eq_true, Hall, list_elem_of_In). by rewrite Ha in HC.
- assert (awaited ⊆ registered s) as Hsub.
  { intros r Hr. assert (is_output r = true /\ r ∈ expected_roles /\ slot_at s r <> Absent) as (Ho & Hex & Hab).
    { unfold awaited in Hr. apply elem_of_app in Hr as [Hr|Hr].
      - destruct (has_file stdout_file) eqn:Ef; [|by apply not_elem_of_nil in Hr]. apply list_elem_of_singleton in Hr as ->. split; [done|]. split; [by apply list_elem_of_further, list_elem_of_here|].
        change (slot_at s STDOUT) with (out s). intros Ho. pose proof (inv_out _ _ Hi) as H. rewrite Ho in H. cbn in H. by rewrite H in Ef.
      - destruct tty eqn:Et; cbn [negb andb] in Hr; [by apply not_elem_of_nil in Hr|]. destruct (has_file stderr_file) eqn:Ef; [|by apply not_elem_of_nil in Hr]. apply list_elem_of_singleton in Hr as ->. split; [done|].
        split; [unfold expected_roles; rewrite Et, !elem_of_app; right; right; apply list_elem_of_here|]. change (slot_at s STDERR) with (err s). intros Ho. pose proof (inv_err _ _ Hi) as H. rewrite Ho in H. cbn in H. by rewrite H in Ef. }
    destruct (slot_at s r) as [|chunks|] eqn:Es; [done| |].
    - destruct (L3 r Ho (Hall r Hex)) as [id H]; [by exists chunks|]. by rewrite Hpc in H.
    - destruct (L4 r Ho) as [H|[H|H]]; [by rewrite Es|cbn in H; lia|by rewrite Hpc in H|done]. }
  unfold registered in Hsub. rewrite Ep, app_nil_r in Hsub. assert (length awaited <= length (tasks s)) as Hl.
  { apply submseteq_length, NoDup_submseteq; [|done]. unfold awaited. destruct (has_file stdout_file), (negb tty && has_file stderr_file); by_eval. }
  assert (length awaited = expected_pumps) as El by (unfold awaited, expected_pumps; rewrite length_app; by destruct (has_file stdout_file), (negb tty && has_file stderr_file)).
  rewrite bool_decide_eq_true_2 in HC by lia. discriminate HC.
- assert (forallb (finished s) taken = true) as Hfin; [|by rewrite Hfin in HC]. apply forallb_forall. intros r Hr%list_elem_of_In.
  destruct (inv_pumped _ _ Hi r) as [Ho Hp]; [left; unfold registered; rewrite Ep; apply elem_of_app; by right|].
  pose proof (Hst PumpOut eq_refl) as H1. pose proof (Hst PumpErr eq_refl) as H2. unfold step in H1, H2. rewrite Hen in H1, H2. unfold finished. fold (slot_at s r).
  apply output_roles in Ho as [->| ->]; [change (slot_at s STDOUT) with (out s) in *; destruct (out s) as [| |? ? [] []]|change (slot_at s STDERR) with (err s) in *; destruct (err s) as [| |? ? [] []]]; done.
- rewrite Hat in HC. cbn [orb] in HC. destruct (exited s) eqn:Ee; [done|]. pose proof (Hst Exit eq_refl) as H. unfold step in H. by rewrite Hen, Ee in H.
Qed.

Lemma lively_moves s s' :
  lively s -> by_role s' = by_role s -> future s' = future s -> inbox s' `suffix_of` inbox s -> (stopped s' = true -> inbox s' = [] /\ pc s' = RIdle) ->
  (forall r chunks, slot_at s' r = Raw chunks -> slot_at s r = Raw chunks) -> (forall r, pumped (slot_at s' r) -> pumped (slot_at s r)) ->
  (forall id r, pc s = RSpawn id r -> pc s' = RSpawn id r) -> (forall r, pc s = RRegister r -> pc s' = RRegister r) ->
  (phase_weight (phase s) <= 2 -> phase_weight (phase s') <= 2) -> (phase_weight (phase s') <= 2 \/ forall r, r ∈ registered s -> r ∈ registered s') -> lively s'.
Proof.
intros [L1 L2 L2' L3 L4] Eb Ef [k Ek] Hs Hraw Hpump Hsp Hreg Hw Hin. split.
- intros r Hr. rewrite Eb, Ef. by apply L1.
- exact Hs.
- rewrite Ek in L2'. by apply Forall_app in L2' as [_ L2'].
- intros r Ho Hb [chunks Hc]. rewrite Eb in Hb. destruct (L3 r Ho Hb) as [id H]; [eauto|]. eauto.
- intros r Ho Hp. destruct (L4 r Ho (Hpump r Hp)) as [H|[H|H]]; [left; by apply Hw|right; left; by apply Hreg|]. destruct Hin as [Hin|Hin]; [by left|right; right; by apply Hin].
Qed.

Lemma slot_at_set r o e s ts : slot_at (set_outputs s o e ts) r = if bool_decide (r = STDOUT) then o else e.
Proof. done. Qed.

Lemma lively_pump s p' fs role o e :
  lively s -> pump_step (slot_at s role) = Some (p', fs) ->
  (role = STDOUT /\ o = p' /\ e = err s) \/ (role = STDERR /\ o = out s /\ e = p') -> lively (write_frames (set_outputs s o e (tasks s)) fs).
Proof.
intros HL (id & sent & rest & Hp)%pump_step_inv Hcase.
assert (pumped (slot_at s role) /\ pumped p') as [Hs Hp'] by (destruct Hp as [(c & -> & -> & _)|(_ & -> & -> & _)]; done).
assert (forall r, slot_at (set_outputs s o e (tasks s)) r = slot_at s r \/ (slot_at (set_outputs s o e (tasks s)) r = p' /\ pumped (slot_at s r))) as Hat.
{ intros r. rewrite slot_at_set. destruct Hcase as [(-> & -> & ->)|(-> & -> & ->)]; case_bool_decide as Hr; unfold slot_at at 1; rewrite ?Hr; [by right; subst|left; by rewrite bool_decide_eq_false_2|by left|]. right. split; [done|]. unfold slot_at in *. rewrite bool_decide_eq_false_2 by done. exact Hs. }
eapply lively_moves; [exact HL|done|done|done|apply HL| | |done|done|done|by right]; intros r.
- intros chunks. destruct (Hat r) as [H|[H _]]; [by rewrite <- H|]. change (slot_at (write_frames ?a _) r) with (slot_at a r). rewrite H. intros E. by rewrite E in Hp'.
- destruct (Hat r) as [H|[_ H]]; [by rewrite <- H|done].
Qed.

(** The stream of a role is open and its output, if any, has its pump. *)
Lemma lively_spawned s id role : lively s -> pc s = RSpawn id role -> stopped s = false -> (is_output role = true -> forall c, slot_at s role <> Raw c) -> lively (set_pc s RIdle).
Proof.
intros [L1 L2 L2' L3 L4] Hpc Es Hno. split.
- intros r Hr. destruct (L1 r Hr) as [H|H]; [by left|right]. assert (future (set_pc s RIdle) = future s) as ->; [|done]. unfold future, opening. cbn. by rewrite Hpc.
- cbn. by rewrite Es.
- done.
- intros r Ho Hb [c Hc]. destruct (L3 r Ho Hb) as [i H]; [by exists c|]. rewrite Hpc in H. injection H as -> ->. by destruct (Hno Ho c).
- intros r Ho Hp. destruct (L4 r Ho Hp) as [H|[H|H]]; [by left|by rewrite Hpc in H|by right; right].
Qed.

Lemma lively_starts s id role chunks o e :
  lively s -> pc s = RSpawn id role -> stopped s = false -> is_output role = true -> slot_at s role = Raw chunks ->
  (role = STDOUT /\ o = Pump id [] chunks false /\ e = err s) \/ (role = STDERR /\ o = out s /\ e = Pump id [] chunks false) ->
  lively (set_pc (set_outputs s o e (tasks s)) (RRegister role)).
Proof.
intros [L1 L2 L2' L3 L4] Hpc Es Ho Hraw Hcase. set (s' := set_pc _ _).
assert (slot_at s' role = Pump id [] chunks false /\ forall r, is_output r = true -> r <> role -> slot_at s' r = slot_at s r) as [H1 H2].
{ unfold slot_at, s'. cbn. destruct Hcase as [(-> & -> & ->)|(-> & -> & ->)]; (split; [done|]); intros r [->| ->]%output_roles Hne; done. }
split.
- intros r Hr. destruct (L1 r Hr) as [H|H]; [by left|right]. assert (future s' = future s) as ->; [|done]. unfold future, opening. cbn. by rewrite Hpc.
- cbn. by rewrite Es.
- done.
- intros r Hor Hb Hc. destruct (decide (r = role)) as [->|Hne]; [rewrite H1 in Hc; by destruct Hc|]. rewrite (H2 r Hor Hne) in Hc. destruct (L3 r Hor Hb Hc) as [i H]. rewrite Hpc in H. by injection H as _ ->.
- intros r Hor Hp. destruct (decide (r = role)) as [->|Hne]; [by right; left|]. rewrite (H2 r Hor Hne) in Hp. destruct (L4 r Hor Hp) as [H|[H|H]]; [by left|by rewrite Hpc in H|by right; right].
Qed.

Lemma lively_registers s role : lively s -> pc s = RRegister role -> stopped s = false -> lively (set_pc (set_outputs s (out s) (err s) (tasks s ++ [role])) RIdle).
Proof.
intros [L1 L2 L2' L3 L4] Hpc Es. split.
- intros r Hr. destruct (L1 r Hr) as [H|H]; [by left|right]. unfold future, opening in *. by rewrite Hpc in H.
- cbn. by rewrite Es.
- done.
- intros r Ho Hb Hc. destruct (L3 r Ho Hb Hc) as [i H]. by rewrite Hpc in H.
- intros r Ho Hp. unfold registered in *. cbn. destruct (L4 r Ho Hp) as [H|[H|H]]; [by left|right; right|right; right]; rewrite !elem_of_app in *; [|tauto].
  rewrite Hpc in H. injection H as ->. left. right. apply list_elem_of_here.
Qed.

Lemma lively_read s s' : lively s -> productive Read s = true -> step Read s = Some s' -> lively s'.
Proof.
intros HL Hp. pose proof HL as [L1 L2 L2' L3 L4]. unfold step. destruct (ended s); [done|]. unfold read_step. destruct (stopped s) eqn:Es; [done|]. cbn in Hp. destruct (pc s) as [|id role|id role|role] eqn:Hpc.
- destruct (inbox s) as [|f fs] eqn:Hin; [done|]. apply Forall_cons in L2' as [Hf _].
  assert (syns (zst s) (f :: fs) = syns (zst s) fs -> lively (set_inbox s fs)) as Hskip.
  { intros E. apply (lively_moves s); try done; cbn; [unfold future, opening; cbn; by rewrite Hin, E|rewrite Hin; by exists [f]|by rewrite Es|by right]. }
  destruct f as [id a p fl h|id fl h|id status|payload|id|id status|id fl h|id delta|id fl data]; try done; try (intros [= <-]; by apply Hskip).
  + destruct (decompress (zst s) h) as [b z] eqn:Ez. intros [= <-]. unfold syn_reply. cbn [zst_out set_reader]. destruct (compress (zst_out s) (serialize_headers [])) as [block zo].
    apply (lively_moves s); try done; cbn; rewrite ?Hpc; try done; [unfold future, opening; cbn; rewrite Hpc, Hin; cbn; by rewrite Ez|rewrite Hin; by exists [SynStream id a p fl h]|by rewrite Es|by right].
  + intros [= <-]. apply (lively_moves (set_inbox s fs)); try done; [by apply Hskip|cbn; by rewrite Es|by right].
  + intros [= <-]. destruct (on_data_frame id fl data (set_inbox s fs)) as (E1 & E2 & E3 & E4 & E5 & E6 & E7 & E8 & E9 & E10).
    apply (lively_moves (set_inbox s fs)); unfold future, opening, slot_at, registered; rewrite ?E1, ?E2, ?E3, ?E4, ?E6, ?E7, ?E8, ?E9, ?E10; try done; [by apply Hskip|cbn; by rewrite Es|by right].
- intros [= <-]. set (s' := set_by_role _ _). assert (future s = (id, role) :: future s') as Ef by (unfold future, opening, s'; by rewrite Hpc). split.
  + intros r Hr. cbn. destruct (decide (role = r)) as [->|Hne]; [left; rewrite lookup_insert_eq; eauto|]. rewrite lookup_insert_ne by done. destruct (L1 r Hr) as [H|H]; [by left|right].
    rewrite Ef, fmap_cons in H. by apply elem_of_cons in H as [H|H]; [destruct Hne|].
  + cbn. by rewrite Es.
  + done.
  + cbn. intros r Ho Hb Hraw. destruct (decide (role = r)) as [->|Hne]; [by exists id|]. rewrite lookup_insert_ne in Hb by done. by destruct (L3 r Ho Hb Hraw) as [i H].
  + intros r Ho Hpm. destruct (L4 r Ho Hpm) as [H|[H|H]]; [by left|done|by right; right].
- clear Hp. repeat case_bool_decide; subst.
  + destruct (out s) as [|c|] eqn:Eo; intros [= <-]; [|by apply (lively_starts s id STDOUT c); auto|]; apply (lively_spawned s id STDOUT); try done; intros _ c'; change (slot_at s STDOUT) with (out s); by rewrite Eo.
  + destruct (err s) as [|c|] eqn:Eo; intros [= <-]; [|by apply (lively_starts s id STDERR c); auto|]; apply (lively_spawned s id STDERR); try done; intros _ c'; change (slot_at s STDERR) with (err s); by rewrite Eo.
  + intros [= <-]. apply (lively_spawned s id role); try done. by intros [?|?]%output_roles.
- intros [= <-]. by apply lively_registers.
Qed.

Lemma lively_complete s s' : has_session = true -> lively s -> step Complete s = Some s' -> lively s'.
Proof.
intros Hse HL. unfold step. destruct (ended s); [done|]. destruct (phase s) as [| | | |taken| | |] eqn:Ep; rewrite ?Hse; repeat case_match; try done; intros [= <-].
all: apply (lively_moves s); try done; cbn; rewrite ?Ep; try apply HL; try (cbn; lia).
all: unfold registered; cbn; rewrite Ep; right; intros r; rewrite ?app_nil_r; tauto.
Qed.

Lemma lively_step l s s' : has_session = true -> lively s -> productive l s = true -> step l s = Some s' -> lively s'.
Proof.
intros Hse HL Hp. destruct l; try done.
- by apply lively_read.
- unfold step. destruct (ended s); [done|]. destruct (pump_step (out s)) as [[p fs]|] eqn:E; [|done]. intros [= <-]. apply (lively_pump s p fs STDOUT); auto.
- unfold step. destruct (ended s); [done|]. destruct (pump_step (err s)) as [[p fs]|] eqn:E; [|done]. intros [= <-]. apply (lively_pump s p fs STDERR); auto.
- unfold step. destruct (ended s); [done|]. destruct (exited s); [done|]. intros [= <-]. apply (lively_moves s); try done; [apply HL|by right].
- by apply lively_complete.
Qed.

(** The client opens every stream that the request asks for and resets nothing. *)
Definition opens_all (frames : list Frame) : Prop :=
  (forall r, r ∈ expected_roles -> r ∈ (syns zin_new frames).*2) /\
  Forall (fun f => match f with RstStream _ _ | GoAway _ _ => False | _ => True end) frames.

Lemma lively_init frames : opens_all frames -> lively (init frames).
Proof.
intros [H1 H2]. split; try done.
- intros r Hr. right. by apply H1.
- intros r _ [id H]. done.
- intros r Ho. unfold slot_at, init, slot_of. cbn. by destruct (bool_decide _), stdout_file, stderr_file.
Qed.

Lemma uncut_step l s s' : productive l s = true -> step l s = Some s' -> cut s' = cut s.
Proof.
intros Hp. unfold step. destruct (ended s); [done|]. destruct l; try done.
- unfold read_step. destruct (stopped s); [done|]. destruct (pc s); [|by intros [= <-]| |by intros [= <-]].
  + destruct (inbox s) as [|f fs]; [by intros [= <-]|]. destruct f; try (by intros [= <-]).
    * destruct (decompress _ _). intros [= <-]. unfold syn_reply. cbn [zst_out set_reader]. by destruct (compress _ _).
    * intros [= <-]. unfold on_data, notify_closed. cbn zeta. by repeat match goal with |- context [if ?b then _ else _] => destruct b end.
  + repeat case_match; by intros [= <-].
- destruct (pump_step (out s)) as [[p fs]|]; [|done]. by intros [= <-].
- destruct (pump_step (err s)) as [[p fs]|]; [|done]. by intros [= <-].
- destruct (exited s); [done|]. by intros [= <-].
- repeat case_match; try done; intros [= <-]; apply orb_false_r.
Qed.

Lemma busy_run ls s s' : busy ls s = Some s' -> run ls s = Some s'.
Proof. revert s. induction ls as [|l ls IH]; intros s; cbn; [done|]. destruct (productive l s); [|done]. destruct (step l s) as [s1|]; [|done]. apply IH. Qed.

Lemma busy_keeps ls s s' : has_session = true -> lively s -> busy ls s = Some s' -> lively s' /\ cut s' = cut s.
Proof.
intros Hse. revert s. induction ls as [|l ls IH]; intros s HL; cbn; [by intros [= <-]|]. destruct (productive l s) eqn:Ep; [|done].
destruct (step l s) as [s1|] eqn:Es; [|done]. cbn. intros [H ->]%IH; [|by eapply lively_step]. split; [done|]. by eapply uncut_step.
Qed.

(** C18: an exec session comes to its end.  With a client that opens the streams of its request,
    resets nothing and keeps its side open, and no wait cut short, the tasks take only finitely
    many steps whatever their order, and when no task can take another step the outputs are
    delivered in full and the status is sent: no interleaving leaves the session waiting. *)
Theorem exec_completes frames ls s :
  is_attach = false -> has_session = true -> conforming (syns zin_new frames) -> opens_all frames -> busy ls (init frames) = Some s ->
  length ls <= weight (init frames) /\ (stuck s -> (phase s = Emitted \/ phase s = Finished) /\ completed frames (wire s)).
Proof.
intros Hat Hse Hc Ho Hb. pose proof (busy_bound _ _ _ Hb) as Hl. split; [lia|]. intros Hst.
destruct (busy_keeps _ _ _ Hse (lively_init frames Ho) Hb) as [HL Hcut]. pose proof (inv_run frames ls _ _ Hat Hse (inv_init frames Hc) (busy_run _ _ _ Hb)) as Hi.
pose proof (stuck_emitted frames s Hat Hse Hi HL Hst) as Hp. split; [done|]. pose proof (inv_phase _ _ Hi Hcut) as H. unfold phase_ok in H. destruct Hp as [E|E]; rewrite E in H; apply H.
Qed.
End session.

(** * Sessions that end otherwise *)

(** A session that cannot be opened ends without a word.  When the factory fails, the only
    frames that the client ever gets are the replies to its own frames: there is no status and
    no message. *)
Theorem open_failure_silent {zlib : Zlib} is_attach tty stdin exit_code frames s :
  reachable is_attach tty stdin false false exit_code None None frames s ->
  Forall (fun f => match f with SynReply _ _ _ | Ping _ => True | _ => False end) (wire s).
Proof.
intros [ls Hr]. set (reply := fun f => _).
assert (forall s s' l, out s = Absent -> err s = Absent -> (phase s = Start \/ phase s = Emitted \/ phase s = Finished) -> Forall reply (wire s) ->
  step is_attach tty stdin false exit_code None None l s = Some s' -> out s' = Absent /\ err s' = Absent /\ (phase s' = Start \/ phase s' = Emitted \/ phase s' = Finished) /\ Forall reply (wire s')) as Hstep.
{ clear. intros s s' l Ho He Hp Hw. unfold step. destruct (ended s); [done|]. destruct l.
  - unfold read_step. destruct (stopped s); [done|]. destruct (pc s).
    + destruct (inbox s) as [|f fs]; [by intros [= <-]|]. destruct f; try (by intros [= <-]).
      * destruct (decompress _ _). intros [= <-]. unfold syn_reply. cbn [zst_out set_reader]. destruct (compress _ _). cbn. split_and!; try done. apply Forall_app_2; [done|]. by constructor.
      * intros [= <-]. cbn. split_and!; try done. apply Forall_app_2; [done|]. by constructor.
      * intros [= <-]. unfold on_data, notify_closed. repeat match goal with |- context [if ?b then _ else _] => destruct b end; done.
    + by intros [= <-].
    + rewrite Ho, He. repeat case_bool_decide; by intros [= <-].
    + by intros [= <-].
  - by rewrite Ho.
  - by rewrite He.
  - destruct (exited s); [done|]. by intros [= <-].
  - destruct Hp as [E|[E|E]]; rewrite E; [|destruct (stopped s); [|done]|done]; intros [= <-]; cbn; split_and!; try done; auto.
  - destruct Hp as [E|[E|E]]; rewrite E; [done| |done]. intros [= <-]. cbn. split_and!; try done. auto.
  - destruct Hp as [E|[E|E]]; rewrite E; by destruct (is_attach && detached s). }
assert (forall ls s0, out s0 = Absent -> err s0 = Absent -> (phase s0 = Start \/ phase s0 = Emitted \/ phase s0 = Finished) -> Forall reply (wire s0) ->
  run is_attach tty stdin false exit_code None None ls s0 = Some s -> Forall reply (wire s)) as Hrun.
{ clear Hr ls. induction ls as [|l ls IH]; intros s0 Ho He Hp Hw; cbn; [by intros [= <-]|]. destruct (step _ _ _ _ _ _ _ l s0) as [s1|] eqn:E; [|done]. cbn.
  destruct (Hstep s0 s1 l Ho He Hp Hw E) as (H1 & H2 & H3 & H4). by apply IH. }
apply (Hrun ls (init false None None frames)); [done|done|by left|by constructor|exact Hr].
Qed.

Module ExecExample.
Definition plain : Zlib := mkZlib unit unit tt tt (fun z b => (Some b, z)) (fun z b => (b, z)).
Definition open_stream (id : Z) (t : String.string) : Frame := SynStream id 0 0 0 (serialize_headers [(str "streamType", str t)]).
(** The streams of a client that does not want a terminal. *)
Definition client : list Frame := [open_stream 1 "error"; open_stream 3 "stdout"; open_stream 5 "stderr"].
(** The process exits at once; the completion waits for the streams and the pumps. *)
Definition schedule : list label :=
  [Exit; Complete] ++ replicate 11 Read ++ [Complete; Complete; Complete; PumpOut; PumpErr; PumpOut; PumpOut; Complete; Complete; Read; Complete].

Definition final : @state plain :=
  match @run plain false false false true 7 (Some [str "a"; str "b"]) (Some []) schedule (@init plain true (Some [str "a"; str "b"]) (Some []) client) with Some s => s | None => @init plain true None None [] end.

Lemma final_runs : @run plain false false false true 7 (Some [str "a"; str "b"]) (Some []) schedule (@init plain true (Some [str "a"; str "b"]) (Some []) client) = Some final.
Proof.
unfold final. assert (match @run plain false false false true 7 (Some [str "a"; str "b"]) (Some []) schedule (@init plain true (Some [str "a"; str "b"]) (Some []) client) with Some _ => True | None => False end) as H by (vm_compute; exact I). by destruct (@run plain false false false true 7 (Some [str "a"; str "b"]) (Some []) schedule (@init plain true (Some [str "a"; str "b"]) (Some []) client)).
Qed.
End ExecExample.

(** A client that leaves at once can keep an attach session.  The signal that the client
    is gone is lost when it comes before the completion waits for it; then only the container
    can end the session, by ending its output. *)
Theorem attach_detach_lost exit_code chunks :
  exists s, @reachable ExecExample.plain true false false true false exit_code (Some chunks) None [ExecExample.open_stream 1 "stdout"] s /\
    stopped s = true /\ phase s = Draining [STDOUT] /\ out s = Pump 1 [] chunks false /\
    forall l, l <> PumpOut -> l <> Exit -> @step ExecExample.plain true false false true exit_code (Some chunks) None l s = None.
Proof.
eexists. split; [exists [Read; Read; Read; Read; Read; Complete; Timeout; Complete; Complete]; vm_compute; reflexivity|].
split; [done|]. split; [done|]. split; [done|]. intros l H1 H2. by destruct l.
Qed.

Lemma exec_delivers_all_witness : @completed ExecExample.plain false 7 (Some [str "a"; str "b"]) (Some []) ExecExample.client (@wire ExecExample.plain ExecExample.final).
Proof.
apply (@exec_delivers_all ExecExample.plain false false false true true 7 (Some [str "a"; str "b"]) (Some []) ExecExample.client ExecExample.final).
- reflexivity.
- reflexivity.
- split; [by_eval|by_eval|discriminate].
- exists ExecExample.schedule. exact ExecExample.final_runs.
- vm_compute. reflexivity.
- right. vm_compute. reflexivity.
Defined.

Lemma open_failure_silent_witness :
  exists s, @reachable ExecExample.plain false false false false false 0 None None [Ping 4] s /\
    Forall (fun f => match f with SynReply _ _ _ | Ping _ => True | _ => False end) (@wire ExecExample.plain s).
Proof.
eexists. split; [exists [Read]; reflexivity|]. apply (open_failure_silent (zlib := ExecExample.plain) false false false 0 [Ping 4]). exists [Read]. reflexivity.
Defined.

Lemma exec_completes_witness :
  exists s, @busy ExecExample.plain false false false true 7 (Some [str "a"; str "b"]) (Some []) (take 22 ExecExample.schedule) (@init ExecExample.plain true (Some [str "a"; str "b"]) (Some []) ExecExample.client) = Some s /\
    22 <= @weight ExecExample.plain (@init ExecExample.plain true (Some [str "a"; str "b"]) (Some []) ExecExample.client) /\
    @completed ExecExample.plain false 7 (Some [str "a"; str "b"]) (Some []) ExecExample.client (@wire ExecExample.plain s).
Proof.
eexists. split; [vm_compute; reflexivity|].
match goal with |- _ /\ completed _ _ _ _ _ (wire ?s) =>
  destruct (@exec_completes ExecExample.plain false false false true true 7 (Some [str "a"; str "b"]) (Some []) ExecExample.client (take 22 ExecExample.schedule) s) as [H1 H2] end.
- reflexivity.
- reflexivity.
- split; [by_eval|by_eval|discriminate].
- split; [|by repeat constructor]. intros r Hr. vm_compute in Hr |- *. set_solver.
- vm_compute. reflexivity.
- split; [exact H1|]. apply H2. intros []; intros Hp; try reflexivity; discriminate Hp.
Defined.
