(* ===== verification/CriVocab.v ===== *)
(** The vocabulary of the CRI backend (crates/lightr-cri-backend/src/: vocab.rs, the records
    and predicates of util.rs and sandbox.rs, container_query.rs): configurations and their
    validation, records, the status that is reported of a record, filters and listings. *)

From Stdlib Require Import ZArith Lia.
From S2P Require Import Prelude Text Error.

(** * Data *)

Record DnsConfig := mkDns { servers : list bytes; searches : list bytes; dns_options : list bytes }.
Inductive Protocol := Tcp | Udp | Sctp.
Record PortMapping := mkPm { protocol : Protocol; container_port : Z; host_port : Z; host_ip : bytes }.
Record HostAlias := mkAlias { alias_ip : bytes; hostnames : list bytes }.

Record SandboxConfig := mkSandboxConfig {
  sb_name : bytes; sb_uid : bytes; sb_namespace : bytes; sb_attempt : Z; sb_labels : gmap bytes bytes; sb_annotations : gmap bytes bytes;
  log_directory : bytes; hostname : bytes; host_network : bool; dns : option DnsConfig; port_mappings : list PortMapping; host_aliases : list HostAlias }.

Inductive SandboxState := Ready | NotReady.

Record Mount := mkMount { container_path : bytes; host_path : bytes; readonly : bool }.
Inductive ProfileType := RuntimeDefault | Unconfined | Localhost.
Record SecurityProfile := mkProfile { profile_type : ProfileType; localhost_ref : bytes }.
Record Capabilities := mkCaps { cap_add : list bytes; cap_drop : list bytes }.
Record SecurityContext := mkSecurity {
  apparmor : option SecurityProfile; seccomp : option SecurityProfile; capabilities : option Capabilities; run_as_user : option Z; run_as_group : option Z }.

Record ContainerConfig := mkContainerConfig {
  ct_name : bytes; ct_attempt : Z; image_ref : bytes; command : list bytes; args : list bytes; working_dir : bytes; envs : list (bytes * bytes); mounts : list Mount;
  ct_labels : gmap bytes bytes; ct_annotations : gmap bytes bytes; log_path : bytes; tty : bool; stdin : bool; security : option SecurityContext }.

Inductive ContainerState := Created | Running | Exited | Unknown.

#[export] Instance SandboxState_eq_dec : EqDecision SandboxState.
Proof. solve_decision. Defined.
#[export] Instance ContainerState_eq_dec : EqDecision ContainerState.
Proof. solve_decision. Defined.

(** What is written to disk of a pod and of a container. *)
Record SandboxRecord := mkSandboxRecord {
  sb_id : bytes; sb_config : SandboxConfig; sb_state : SandboxState; sb_created : Z; ip : option bytes; netns_path : option bytes }.

Record ContainerRecord := mkContainerRecord {
  ct_id : bytes; ct_sandbox : bytes; ct_config : ContainerConfig; ct_state : ContainerState; ct_created : Z; started_at : Z; finished_at : Z;
  exit_code : Z; reason : bytes; message : bytes; pid : Z; engine : bytes; cgroup_name : bytes }.

Record ContainerStatus := mkContainerStatus {
  st_id : bytes; st_sandbox : bytes; st_config : ContainerConfig; st_state : ContainerState; st_created : Z; st_started : Z; st_finished : Z;
  st_exit_code : Z; st_reason : bytes; st_message : bytes }.

(** The text of an [io::Error] is dropped. *)
Inductive BackendError :=
  | NotFoundErr (m : bytes) | AlreadyExistsErr (m : bytes) | InvalidArgument (m : bytes) | FailedPrecondition (m : bytes) | InUse (m : bytes) | Internal (m : bytes) | IoErr.

Record SandboxFilter := mkSandboxFilter { f_sb_id : option bytes; f_sb_state : option SandboxState; f_sb_labels : gmap bytes bytes }.
Record ContainerFilter := mkContainerFilter { f_id : option bytes; f_sandbox : option bytes; f_state : option ContainerState; f_labels : gmap bytes bytes }.

(** * Addresses

    [str::parse::<IpAddr>], as far as whether a text is accepted: each reader returns what is
    left of the text. *)

Definition hex_digit (b : byte) : option Z :=
  if in_range x30 x39 b then Some (bval b - 48)%Z else if in_range x61 x66 b then Some (bval b - 87)%Z else if in_range x41 x46 b then Some (bval b - 55)%Z else None.
Definition dec_digit (b : byte) : option Z := if in_range x30 x39 b then Some (bval b - 48)%Z else None.

(** The digits at the front of a text, their value and their number. *)
Fixpoint read_digits (digit : byte -> option Z) (radix acc : Z) (count : nat) (s : bytes) : Z * nat * bytes :=
  match s with
  | b :: rest => match digit b with Some d => read_digits digit radix (acc * radix + d)%Z (S count) rest | None => (acc, count, s) end
  | [] => (acc, count, s)
  end.

Definition read_number (digit : byte -> option Z) (radix : Z) (max_digits : nat) (zero_prefix : bool) (max : Z) (s : bytes) : option bytes :=
  let '(value, count, rest) := read_digits digit radix 0 0 s in
  if bool_decide (max_digits < count) || bool_decide (count = 0) then None
  else if negb zero_prefix && bool_decide (head s = Some x30) && bool_decide (1 < count) then None
  else if bool_decide (value <= max)%Z then Some rest else None.

Definition read_given_char (c : byte) (s : bytes) : option bytes :=
  match s with b :: rest => if bool_decide (b = c) then Some rest else None | [] => None end.

Definition read_separator (c : byte) (index : nat) (inner : bytes -> option bytes) (s : bytes) : option bytes :=
  match index with 0 => inner s | S _ => read_given_char c s ≫= inner end.

Fixpoint read_octets (index count : nat) (s : bytes) : option bytes :=
  match count with
  | 0 => Some s
  | S count => read_separator x2e index (read_number dec_digit 10 3 false 255) s ≫= read_octets (S index) count
  end.
Definition read_ipv4_addr (s : bytes) : option bytes := read_octets 0 4 s.

(** Up to [limit] groups from the [i]-th on: how many were read, whether the last two were an
    embedded IPv4 address, and the rest. *)
Fixpoint read_groups (n i limit : nat) (s : bytes) : nat * bool * bytes :=
  match n with
  | 0 => (limit, false, s)
  | S n =>
      match (if bool_decide (i < limit - 1) then read_separator x3a i read_ipv4_addr s else None) with
      | Some rest => (i + 2, true, rest)
      | None =>
          match read_separator x3a i (read_number hex_digit 16 4 true 65535) s with
          | Some rest => read_groups n (S i) limit rest
          | None => (i, false, s)
          end
      end
  end.

Definition read_ipv6_addr (s : bytes) : option bytes :=
  let '(head_size, head_ipv4, rest) := read_groups 8 0 8 s in
  if bool_decide (head_size = 8) then Some rest
  else if head_ipv4 then None
  else
    rest ← read_given_char x3a rest ≫= read_given_char x3a;
    let limit := 8 - (head_size + 1) in Some (read_groups limit 0 limit rest).2.

Definition is_ip_addr (s : bytes) : bool :=
  match (match read_ipv4_addr s with Some rest => Some rest | None => read_ipv6_addr s end) with Some [] => true | _ => false end.

(** * Validation *)

Definition valid_label (label : bytes) : bool :=
  negb (bool_decide (label = [])) && bool_decide (length label <= 63) && negb (bool_decide (head label = Some x2d)) && negb (bool_decide (last label = Some x2d)) &&
  forallb (fun b => is_ascii_alphanumeric b || bool_decide (b = x2d)) label.

Definition valid_hostname (name : bytes) : bool :=
  negb (bool_decide (name = [])) && bool_decide (length name <= 253) && forallb valid_label (split_on x2e name).

Definition alias_validate (a : HostAlias) : bytes + unit :=
  if negb (is_ip_addr (alias_ip a)) then inl (str "host alias IP must be a valid IPv4 or IPv6 address")
  else if bool_decide (hostnames a = []) || existsb (fun n => negb (valid_hostname n)) (hostnames a) then inl (str "host alias must contain valid hostnames")
  else inr ().

Fixpoint aliases_validate (l : list HostAlias) : bytes + unit :=
  match l with [] => inr () | a :: l => match alias_validate a with inl m => inl m | inr _ => aliases_validate l end end.
Definition sandbox_validate (c : SandboxConfig) : bytes + unit := aliases_validate (host_aliases c).

Definition security_validate (s : SecurityContext) : bytes + unit :=
  match run_as_group s, run_as_user s with Some _, None => inl (str "run_as_group requires run_as_user") | _, _ => inr () end.
Definition container_validate (c : ContainerConfig) : bytes + unit := match security c with Some s => security_validate s | None => inr () end.

(** * Status *)

(** [Path::new(dir).join(rel)], as text. *)
Definition path_join (dir rel : bytes) : bytes :=
  if bool_decide (head rel = Some x2f) || bool_decide (dir = []) then rel else if bool_decide (last dir = Some x2f) then dir ++ rel else dir ++ [x2f] ++ rel.

Definition with_log_path (c : ContainerConfig) (p : bytes) : ContainerConfig :=
  mkContainerConfig (ct_name c) (ct_attempt c) (image_ref c) (command c) (args c) (working_dir c) (envs c) (mounts c) (ct_labels c) (ct_annotations c) p (tty c) (stdin c) (security c).

Definition rec_to_status (rec : ContainerRecord) (sandbox_log_dir : bytes) : ContainerStatus :=
  let '(r, m) :=
    if bool_decide (ct_state rec = Exited) then
      (if bool_decide (exit_code rec = 0)%Z then str "Completed" else str "Error", if bool_decide (message rec = []) then reason rec else message rec)
    else (reason rec, message rec) in
  let config := ct_config rec in
  let config := if negb (bool_decide (log_path config = [])) && negb (bool_decide (sandbox_log_dir = [])) then with_log_path config (path_join sandbox_log_dir (log_path config)) else config in
  mkContainerStatus (ct_id rec) (ct_sandbox rec) config (ct_state rec) (ct_created rec) (started_at rec) (finished_at rec) (exit_code rec) r m.

(** * Filters and listings *)

Definition labels_match (labels selector : gmap bytes bytes) : bool := bool_decide (map_Forall (fun k v => labels !! k = Some v) selector).
Definition opt_match {A} `{EqDecision A} (o : option A) (a : A) : bool := match o with Some x => bool_decide (x = a) | None => true end.

Definition sandbox_matches (rec : SandboxRecord) (f : SandboxFilter) : bool :=
  opt_match (f_sb_id f) (sb_id rec) && opt_match (f_sb_state f) (sb_state rec) && labels_match (sb_labels (sb_config rec)) (f_sb_labels f).

Definition container_matches (rec : ContainerRecord) (f : ContainerFilter) : bool :=
  opt_match (f_id f) (ct_id rec) && opt_match (f_sandbox f) (ct_sandbox rec) && opt_match (f_state f) (ct_state rec) && labels_match (ct_labels (ct_config rec)) (f_labels f).

(** The values of a [BTreeMap], in the order of their keys. *)
Definition values {A} (m : gmap bytes A) : list A := (sort_by (fun a b => bytes_leb a.1 b.1) (map_to_list m)).*2.

Record Cache := mkCache { containers : gmap bytes ContainerRecord; sandboxes : gmap bytes SandboxRecord }.

Definition sandbox_log_dir (c : Cache) (sandbox : bytes) : bytes := match sandboxes c !! sandbox with Some s => log_directory (sb_config s) | None => [] end.

Definition container_status (c : Cache) (id : bytes) : BackendError + ContainerStatus :=
  match containers c !! id with
  | Some rec => inr (rec_to_status rec (sandbox_log_dir c (ct_sandbox rec)))
  | None => inl (NotFoundErr (str "container " ++ id))
  end.

Definition list_containers (c : Cache) (f : ContainerFilter) : list ContainerStatus :=
  (fun r => rec_to_status r (sandbox_log_dir c (ct_sandbox r))) <$> List.filter (fun r => container_matches r f) (values (containers c)).

(** A [SandboxStatus] has the fields of the record. *)
Definition sandbox_status (c : Cache) (id : bytes) : BackendError + SandboxRecord :=
  match sandboxes c !! id with Some rec => inr rec | None => inl (NotFoundErr (str "sandbox " ++ id)) end.
Definition list_sandboxes (c : Cache) (f : SandboxFilter) : list SandboxRecord := List.filter (fun r => sandbox_matches r f) (values (sandboxes c)).

(** * Identifiers

    [<prefix><nanos>-<counter>] *)
Definition make_id (prefix : bytes) (nanos counter : Z) : bytes := prefix ++ dec nanos ++ [x2d] ++ dec counter.

(** [signal_or_code]: how a process ended, as the exit code and the reason of its record. *)
Inductive ExitStatus := Signalled (sig : Z) | Code (c : Z).
Definition signal_or_code (s : ExitStatus) : Z * bytes :=
  match s with Signalled sig => ((128 + sig)%Z, str "killed-by-signal-" ++ dec sig) | Code c => (c, []) end.

Lemma dec_no_dash n : x2d ∉ dec n.
Proof. intros H%list_elem_of_In. pose proof (dec_digits n) as Hd. rewrite forallb_forall in Hd. by apply Hd in H. Qed.

Lemma split_at_inj {A} (x : A) a a' b b' : x ∉ a -> x ∉ a' -> a ++ x :: b = a' ++ x :: b' -> a = a' /\ b = b'.
Proof.
revert a'. induction a as [|y a IH]; intros [|y' a'] Ha Ha'; cbn; [by intros [= <-]|intros [= <- _]; by destruct Ha'; left|intros [= -> _]; by destruct Ha; left|].
apply not_elem_of_cons in Ha as [_ Ha], Ha' as [_ Ha']. intros [= -> E]. destruct (IH a' Ha Ha' E) as [-> ->]. done.
Qed.

Lemma make_id_inj p n c n' c' : u64 n -> u64 c -> u64 n' -> u64 c' -> make_id p n c = make_id p n' c' -> n = n' /\ c = c'.
Proof.
intros Hn Hc Hn' Hc' H%app_inv_head. apply split_at_inj in H as [H1%dec_inj H2%dec_inj]; auto using dec_no_dash.
Qed.

(** * Examples *)

Example ip_v4 : is_ip_addr (str "10.0.0.10") = true /\ is_ip_addr (str "10.0.0.010") = false /\ is_ip_addr (str "256.0.0.1") = false.
Proof. by vm_compute. Qed.
Example ip_v6 : is_ip_addr (str "::1") = true /\ is_ip_addr (str "fe80::1:2") = true /\ is_ip_addr (str "1:2:3:4:5:6:7:8") = true /\ is_ip_addr (str "1:2:3:4:5:6:7::") = true /\
  is_ip_addr (str "::ffff:1.2.3.4") = true /\ is_ip_addr (str "1:2:3") = false /\ is_ip_addr (str "1::2::3") = false /\ is_ip_addr (str "1.2.3.4::") = false.
Proof. by vm_compute. Qed.
