(* ===== verification/CriBackend.v ===== *)
(** The lifecycle of pods and containers (crates/lightr-cri-backend/src/: sandbox.rs,
    container.rs, container_start.rs, container_wait.rs, container_setup.rs).  A call of the
    interface is a program over atomic operations: a critical section of the cache, a record
    written to disk, a system call.  The machine runs the programs of all calls in any
    interleaving, with the processes of the containers, the threads that wait for them, and
    restarts of the backend at any moment. *)

From Stdlib Require Import ZArith Lia.
From S2P Require Import Prelude Text Error CriVocab.

(** * Programs *)

(** The outcome of waiting on the readiness pipe. *)
Inductive readiness := ReadyEof | ReadyBytes (msg : bytes) | ReadyTimeout.

Inductive op : Set -> Type :=
  (* a critical section of the cache, with the time read in it *)
  | Locked {B : Set} (f : Z -> Cache -> B * Cache) : op B
  (* the record files *)
  | PersistContainer (r : ContainerRecord) : op (BackendError + unit)
  | PersistSandbox (r : SandboxRecord) : op (BackendError + unit)
  | RemoveContainerFile (id : bytes) : op unit
  | RemoveSandboxFile (id : bytes) : op unit
  (* clock and identifiers *)
  | Now : op Z
  | FetchId (prefix : bytes) (nanos : Z) (pod : option bytes) : op bytes
  (* the network of a pod *)
  | CniSetup (id : bytes) : op (BackendError + (option bytes * option bytes))
  (* a system call that can fail and changes nothing that is modelled *)
  | Syscall (what : bytes) : op (BackendError + bytes)
  (* processes *)
  | LockSpawn : op unit
  | UnlockSpawn : op unit
  | Spawn (id : bytes) : op (bytes + Z)
  | WaitReady (pid : Z) : op readiness
  | ChildWait (pid : Z) : op unit
  | Kill (pid sig : Z) : op unit
  | WaitExited (id : bytes) : op bool
  | StartReaper (pid : Z) : op unit.

Inductive prog (A : Type) : Type :=
  | Ret (a : A)
  | Do {B : Set} (o : op B) (k : B -> prog A).
Arguments Ret {A} a.
Arguments Do {A B} o k.

#[export] Instance prog_mret : MRet prog := fun A => Ret.
Fixpoint bind {A B} (k : A -> prog B) (p : prog A) : prog B := match p with Ret a => k a | Do o k' => Do o (fun b => bind k (k' b)) end.
#[export] Instance prog_mbind : MBind prog := fun A B => bind.

Definition perform {B : Set} (o : op B) : prog B := Do o Ret.
Definition ok {A} (a : A) : prog (BackendError + A) := Ret (inr a).
Definition throw {A} (e : BackendError) : prog (BackendError + A) := Ret (inl e).

(** [p?] *)
Definition try_then {A B} (p : prog (BackendError + A)) (k : A -> prog (BackendError + B)) : prog (BackendError + B) :=
  r ← p; match r with inl e => throw e | inr a => k a end.
Notation "x ←? p ; k" := (try_then p (fun x => k)) (at level 20, p at level 100, k at level 200, only parsing).

(** * Access to the cache and the records *)

Definition with_containers (c : Cache) (m : gmap bytes ContainerRecord) : Cache := mkCache m (sandboxes c).
Definition with_sandboxes (c : Cache) (m : gmap bytes SandboxRecord) : Cache := mkCache (containers c) m.

Definition peek {B : Set} (f : Cache -> B) : prog B := perform (Locked (fun _ c => (f c, c))).
Definition change (f : Cache -> Cache) : prog unit := perform (Locked (fun _ c => ((), f c))).

(** [get_mut] and an update of the entry; the snapshot of the new record. *)
Definition update (id : bytes) (g : Z -> ContainerRecord -> ContainerRecord) : prog (option ContainerRecord) :=
  perform (Locked (fun t c =>
    match containers c !! id with
    | Some r => (Some (g t r), with_containers c (<[id := g t r]> (containers c)))
    | None => (None, c)
    end)).

Definition persist (r : ContainerRecord) : prog (BackendError + unit) := perform (PersistContainer r).

Definition no_container {A} (id : bytes) : prog (BackendError + A) := throw (NotFoundErr (str "container " ++ id)).

Definition new_id (prefix : bytes) (pod : option bytes) : prog bytes := n ← perform Now; perform (FetchId prefix n pod).

(** * Pods *)

Definition run_sandbox (cfg : SandboxConfig) : prog (BackendError + bytes) :=
  match sandbox_validate cfg with
  | inl msg => throw (InvalidArgument msg)
  | inr _ =>
      id ← new_id (str "sb-") None;
      net ←? (if host_network cfg then ok (None, None) else perform (CniSetup id));
      t ← perform Now;
      let rec := mkSandboxRecord id cfg Ready t net.1 net.2 in
      _ ←? perform (PersistSandbox rec);
      _ ← change (fun c => with_sandboxes c (<[id := rec]> (sandboxes c)));
      ok id
  end.

Definition not_ready (r : SandboxRecord) : SandboxRecord := mkSandboxRecord (sb_id r) (sb_config r) NotReady (sb_created r) (ip r) (netns_path r).

Definition stop_sandbox (id : bytes) : prog (BackendError + unit) :=
  snap ← perform (Locked (fun _ c =>
    match sandboxes c !! id with
    | None => (None, c)
    | Some r => if bool_decide (sb_state r = NotReady) then (None, c) else (Some (not_ready r), with_sandboxes c (<[id := not_ready r]> (sandboxes c)))
    end));
  match snap with None => ok () | Some r => perform (PersistSandbox r) end.

Definition ensure_sandbox_ready (sandbox : bytes) : prog (BackendError + unit) :=
  r ← peek (fun c => sandboxes c !! sandbox);
  match r with
  | None => throw (NotFoundErr (str "sandbox " ++ sandbox))
  | Some sb => if bool_decide (sb_state sb = Ready) then ok () else throw (FailedPrecondition (str "sandbox " ++ sandbox ++ str " is not Ready"))
  end.

(** * Containers *)

Definition create_container (sandbox : bytes) (cfg : ContainerConfig) : prog (BackendError + bytes) :=
  match container_validate cfg with
  | inl msg => throw (InvalidArgument msg)
  | inr _ =>
      _ ←? ensure_sandbox_ready sandbox;
      id ← new_id (str "ct-") (Some sandbox);
      t ← perform Now;
      let rec := mkContainerRecord id sandbox cfg Created t 0 0 0 [] [] 0 [] [] in
      _ ←? persist rec;
      _ ← change (fun c => with_containers c (<[id := rec]> (containers c)));
      ok id
  end.

(** ** Starting *)

Definition synth_resolv_conf (d : DnsConfig) : option bytes :=
  if bool_decide (servers d = []) && bool_decide (searches d = []) && bool_decide (dns_options d = []) then None
  else Some (mjoin ((fun s => str "nameserver " ++ s ++ [x0a]) <$> servers d) ++
    (if bool_decide (searches d = []) then [] else str "search " ++ join_words (searches d) ++ [x0a]) ++
    (if bool_decide (dns_options d = []) then [] else str "options " ++ join_words (dns_options d) ++ [x0a])).

Definition map_apparmor (p : option SecurityProfile) : option bytes :=
  match p with
  | Some p => match profile_type p with Localhost => Some (localhost_ref p) | Unconfined => Some (str "unconfined") | RuntimeDefault => None end
  | None => None
  end.

Definition map_seccomp_profile (p : option SecurityProfile) : BackendError + option bytes :=
  match p with
  | None => inr None
  | Some p =>
      match profile_type p with
      | Localhost =>
          if bool_decide (head (localhost_ref p) = Some x2f) then inr (Some (localhost_ref p)) else inl (InvalidArgument (str "localhost seccomp profile must be an absolute path"))
      | Unconfined => inr (Some (str "unconfined"))
      | RuntimeDefault => inr (Some (str "default"))
      end
  end.

(** The fields of the descriptor that are always the same are left out. *)
Record RunDescriptor := mkRunDescriptor {
  d_rootfs : bytes; d_argv : list bytes; d_cwd : bytes; d_env : list (bytes * bytes); d_netns : bytes; d_cgroup : bytes; d_cap_add : list bytes; d_cap_drop : list bytes;
  d_apparmor : option bytes; d_seccomp : option bytes; d_mounts : list Mount; d_resolv_conf : option bytes; d_hostname : option bytes }.

Fixpoint resolve_mounts (ms : list Mount) : prog (BackendError + list Mount) :=
  match ms with
  | [] => ok []
  | m :: ms =>
      resolved ←? perform (Syscall (str "canonicalize"));
      rest ←? resolve_mounts ms;
      ok (mkMount (container_path m) resolved (readonly m) :: rest)
  end.

Definition build_ns_plan (rec : ContainerRecord) (argv : list bytes) : prog (BackendError + RunDescriptor) :=
  sb ← peek (fun c => sandboxes c !! ct_sandbox rec);
  match sb with
  | None => throw (Internal (str "build_ns_plan called without a pod sandbox"))
  | Some sb =>
      match netns_path sb with
      | None => throw (Internal (str "build_ns_plan called without a pod netns"))
      | Some netns =>
          _ ←? perform (Syscall (str "engine_for"));
          rootfs ←? perform (Syscall (str "hydrate_rootfs"));
          let sec := security (ct_config rec) in
          let caps := sec ≫= capabilities in
          match map_seccomp_profile (sec ≫= seccomp) with
          | inl e => throw e
          | inr sc =>
              ms ←? resolve_mounts (mounts (ct_config rec));
              ok (mkRunDescriptor rootfs argv (working_dir (ct_config rec)) (envs (ct_config rec)) netns (str "lightr-cri-" ++ ct_id rec)
                (match caps with Some c => cap_add c | None => [] end) (match caps with Some c => cap_drop c | None => [] end)
                (map_apparmor (sec ≫= apparmor)) sc ms (dns (sb_config sb) ≫= synth_resolv_conf)
                (if bool_decide (hostname (sb_config sb) = []) then None else Some (hostname (sb_config sb))))
          end
      end
  end.

Definition start_argv (c : ContainerConfig) : list bytes :=
  if bool_decide (command c = []) && bool_decide (args c = []) then [str "tail"; str "-f"; str "/dev/null"] else command c ++ args c.

Definition open_cri_log (log_dir log_path : bytes) : prog (BackendError + unit) :=
  if bool_decide (log_dir = []) || bool_decide (log_path = []) then ok ()
  else r ← perform (Syscall (str "open_cri_log")); match r with inl _ => throw IoErr | inr _ => ok () end.

Definition netns_of (c : Cache) (sandbox : bytes) : option bytes := match sandboxes c !! sandbox with Some s => netns_path s | None => None end.

Definition join_container_netns (sandbox : bytes) : prog (BackendError + unit) :=
  p ← peek (fun c => netns_of c sandbox);
  match p with None => ok () | Some _ => _ ←? perform (Syscall (str "join_netns")); ok () end.

(** *** The changes of a record *)

Definition with_state (s : ContainerState) (started finished code : Z) (why msg : bytes) (p : Z) (eng cg : bytes) (r : ContainerRecord) : ContainerRecord :=
  mkContainerRecord (ct_id r) (ct_sandbox r) (ct_config r) s (ct_created r) started finished code why msg p eng cg.

Definition start_intent (s : ContainerState) (started : Z) (r : ContainerRecord) : ContainerRecord :=
  with_state s started (finished_at r) (exit_code r) (str "starting") (message r) 0 (engine r) (cgroup_name r) r.

Definition failed (code : Z) (why msg : bytes) (t : Z) (r : ContainerRecord) : ContainerRecord :=
  with_state Exited (started_at r) t code why msg (pid r) (engine r) (cgroup_name r) r.

Definition now_running (ns : option RunDescriptor) (child : Z) (r : ContainerRecord) : ContainerRecord :=
  with_state Running (started_at r) (finished_at r) (exit_code r) [] (message r) child
    (match ns with Some _ => str "ns" | None => engine r end) (match ns with Some d => d_cgroup d | None => cgroup_name r end) r.

Definition stopped (grace t : Z) (r : ContainerRecord) : ContainerRecord :=
  with_state Exited (started_at r) t (if bool_decide (0 < grace)%Z then 143 else 137) (str "stopped") (message r) (pid r) (engine r) (cgroup_name r) r.

Definition reaped (code : Z) (why : bytes) (t : Z) (r : ContainerRecord) : ContainerRecord :=
  with_state Exited (started_at r) t code why (message r) (pid r) (engine r) (cgroup_name r) r.

(** The update of an entry that has to be there, and its record on disk. *)
Definition record_change (id : bytes) (g : Z -> ContainerRecord -> ContainerRecord) : prog (BackendError + unit) :=
  snap ← update id g; match snap with Some r => persist r | None => no_container id end.

(** The record of a failure: an entry that is gone and a failing write are ignored. *)
Definition record_failure (id : bytes) (code : Z) (why msg : bytes) : prog unit :=
  snap ← update id (failed code why msg); match snap with Some r => _ ← persist r; mret () | None => mret () end.

(** The messages leave out the length of the timeout. *)
Definition wait_exec_ready (id : bytes) (child : Z) : prog (BackendError + unit) :=
  r ← perform (WaitReady child);
  match r with
  | ReadyEof => ok ()
  | ReadyBytes msg =>
      _ ← perform (ChildWait child);
      _ ← record_failure id 127 (str "exec-failed") msg;
      throw (Internal (str "container " ++ id ++ str " failed to start (exec failed): " ++ msg))
  | ReadyTimeout =>
      _ ← perform (Kill child 9);
      _ ← perform (ChildWait child);
      _ ← record_failure id (-1) (str "start-timeout") (str "container did not signal exec readiness");
      throw (Internal (str "container " ++ id ++ str " start timed out"))
  end.

Definition with_spawn_lock {A} (p : prog A) : prog A := _ ← perform LockSpawn; a ← p; _ ← perform UnlockSpawn; mret a.

(** From the spawning of the process to the end of the call. *)
Definition launch (id : bytes) (ns : option RunDescriptor) : prog (BackendError + unit) :=
  with_spawn_lock (
    sp ← perform (Spawn id);
    match sp with
    | inl e =>
        _ ← record_failure id (-1) (str "spawn-failed") e;
        throw (Internal (str "spawn container " ++ id ++ str ": " ++ e))
    | inr child =>
        _ ←? (match ns with Some _ => wait_exec_ready id child | None => ok () end);
        _ ←? record_change id (fun _ => now_running ns child);
        _ ← perform (StartReaper child);
        ok ()
    end).

Definition show_state (s : ContainerState) : bytes :=
  match s with Created => str "Created" | Running => str "Running" | Exited => str "Exited" | Unknown => str "Unknown" end.

Definition start_container (id : bytes) : prog (BackendError + unit) :=
  r ← peek (fun c => containers c !! id);
  match r with
  | None => no_container id
  | Some rec =>
      if negb (bool_decide (ct_state rec = Created)) then throw (FailedPrecondition (str "container " ++ id ++ str " is in state " ++ show_state (ct_state rec) ++ str ", must be Created to start"))
      else
        log_dir ← peek (fun c => sandbox_log_dir c (ct_sandbox rec));
        _ ←? open_cri_log log_dir (log_path (ct_config rec));
        match start_argv (ct_config rec) with
        | [] => throw (InvalidArgument (str "empty command"))
        | argv =>
            netns ← peek (fun c => netns_of c (ct_sandbox rec));
            ns ←? (match netns with
                   | Some _ => d ←? build_ns_plan rec argv; _ ←? perform (Syscall (str "pipe")); _ ←? perform (Syscall (str "current_exe")); ok (Some d)
                   | None => _ ←? join_container_netns (ct_sandbox rec); ok None
                   end);
            t ← perform Now;
            _ ←? record_change id (fun _ => start_intent (match ns with Some _ => Created | None => Running end) t);
            launch id ns
        end
  end.

(** ** Stopping and removing *)

Definition cgroup_stop (id : bytes) (grace : Z) : prog unit :=
  if bool_decide (0 < grace)%Z then
    _ ← perform (Kill 0 15);
    _ ← perform (WaitExited id);
    _ ← perform (Kill 0 9);
    _ ← perform (WaitExited id);
    mret ()
  else
    _ ← perform (Kill 0 9);
    _ ← perform (WaitExited id);
    mret ().

Definition stop_container (id : bytes) (grace : Z) : prog (BackendError + unit) :=
  r ← peek (fun c => containers c !! id);
  match r with
  | None => ok ()
  | Some rec =>
      match ct_state rec with
      | Created | Exited | Unknown => ok ()
      | Running =>
          if bool_decide (engine rec = str "ns") && negb (bool_decide (cgroup_name rec = [])) then _ ← cgroup_stop id grace; ok ()
          else if bool_decide (0 < pid rec)%Z then
            if bool_decide (0 < grace)%Z then
              _ ← perform (Kill (pid rec) 15);
              gone ← perform (WaitExited id);
              if gone : bool then ok ()
              else
                _ ← perform (Kill (pid rec) 9);
                _ ← perform (WaitExited id);
                ok ()
            else
              _ ← perform (Kill (pid rec) 9);
              _ ← perform (WaitExited id);
              ok ()
          else
            snap ← perform (Locked (fun t c =>
              match containers c !! id with
              | Some r => if bool_decide (ct_state r = Running) then (Some (stopped grace t r), with_containers c (<[id := stopped grace t r]> (containers c))) else (None, c)
              | None => (None, c)
              end));
            match snap with Some r => persist r | None => ok () end
      end
  end.

Definition remove_container (id : bytes) : prog (BackendError + unit) :=
  r ← peek (fun c => containers c !! id);
  match r with
  | None => ok ()
  | Some rec =>
      _ ←? (if bool_decide (ct_state rec = Running) then stop_container id 0 else ok ());
      _ ← change (fun c => with_containers c (delete id (containers c)));
      _ ← perform (RemoveContainerFile id);
      ok ()
  end.

(** ** Removing a pod *)

Fixpoint remove_all (ids : list bytes) : prog (BackendError + unit) :=
  match ids with
  | [] => ok ()
  | cid :: ids =>
      _ ←? stop_container cid 0;
      _ ←? remove_container cid;
      remove_all ids
  end.

(** The containers of a pod that is there, and its network. *)
Definition pod_contents (c : Cache) (id : bytes) : option (list bytes * option bytes) :=
  match sandboxes c !! id with
  | None => None
  | Some sb => Some (ct_id <$> List.filter (fun r => bool_decide (ct_sandbox r = id)) (values (containers c)), netns_path sb)
  end.

Definition remove_sandbox (id : bytes) : prog (BackendError + unit) :=
  _ ←? stop_sandbox id;
  s ← peek (fun c => pod_contents c id);
  match s with
  | None => ok ()
  | Some (container_ids, netns) =>
      _ ←? remove_all container_ids;
      _ ← (match netns with Some _ => _ ← perform (Syscall (str "cni_teardown")); mret () | None => mret () end);
      gone ← perform (Locked (fun _ c =>
        match sandboxes c !! id with None => (true, c) | Some _ => (false, with_sandboxes c (delete id (sandboxes c))) end));
      if gone : bool then ok ()
      else
        _ ← perform (RemoveSandboxFile id);
        ok ()
  end.

(** * The machine *)

(** The thread that waits for a process: not started, waiting, the process has ended (at the
    time given), its record is written. *)
Inductive reaper := NoReaper | Waiting | Ended (t : Z) | Reaped.

(** A process: the container it was spawned for, whether its workload has been executed, and
    how it ended. *)
Record proc := mkProc { p_ctr : bytes; p_execed : bool; p_exit : option ExitStatus; p_reaper : reaper }.

(** [owner] and [faulted] are there for the statements only: the pod that an identifier was
    issued for, and whether a write or removal of a record has failed. *)
Record world := mkWorld {
  cache : Cache; disk : Cache; procs : gmap Z proc; spawning : bool; clock : Z; boot : Z; counter : Z; cni_on : bool;
  owner : gmap bytes bytes; faulted : bool }.

Definition set_cache (w : world) (c : Cache) : world := mkWorld c (disk w) (procs w) (spawning w) (clock w) (boot w) (counter w) (cni_on w) (owner w) (faulted w).
Definition set_disk (w : world) (d : Cache) : world := mkWorld (cache w) d (procs w) (spawning w) (clock w) (boot w) (counter w) (cni_on w) (owner w) (faulted w).
Definition set_procs (w : world) (p : gmap Z proc) : world := mkWorld (cache w) (disk w) p (spawning w) (clock w) (boot w) (counter w) (cni_on w) (owner w) (faulted w).
Definition set_spawning (w : world) (b : bool) : world := mkWorld (cache w) (disk w) (procs w) b (clock w) (boot w) (counter w) (cni_on w) (owner w) (faulted w).
Definition set_clock (w : world) (t : Z) : world := mkWorld (cache w) (disk w) (procs w) (spawning w) t (boot w) (counter w) (cni_on w) (owner w) (faulted w).
Definition issue (w : world) (id pod : bytes) : world := mkWorld (cache w) (disk w) (procs w) (spawning w) (clock w) (boot w) (counter w + 1) (cni_on w) (<[id := pod]> (owner w)) (faulted w).
Definition fault (w : world) : world := mkWorld (cache w) (disk w) (procs w) (spawning w) (clock w) (boot w) (counter w) (cni_on w) (owner w) true.

(** What is not determined by the state: whether the disk does its work, whether another
    operation succeeds, the time, a number and a text. *)
Record choice := mkChoice { io_ok : bool; go : bool; at_time : Z; val : Z; text : bytes }.

Definition NETNS_DIR : bytes := str "/run/netns".
Definition ns_name (id : bytes) : bytes := NETNS_DIR ++ str "/lightr-" ++ take 24 id.

(** The clock does not run backwards and stays within an i64. *)
Definition tick (c : choice) (w : world) : option world :=
  if bool_decide (clock w <= at_time c < 2 ^ 63)%Z then Some (set_clock w (at_time c)) else None.

Definition on_disk (c : choice) (w : world) (d : Cache) : (BackendError + unit) * world :=
  if io_ok c then (inr (), set_disk w d) else (inl IoErr, fault w).

Definition exec {B : Set} (o : op B) (c : choice) (w : world) : option (B * world) :=
  match o in op B return option (B * world) with
  | Locked f => w ← tick c w; let '(b, cache') := f (at_time c) (cache w) in Some (b, set_cache w cache')
  | PersistContainer r => Some (on_disk c w (with_containers (disk w) (<[ct_id r := r]> (containers (disk w)))))
  | PersistSandbox r => Some (on_disk c w (with_sandboxes (disk w) (<[sb_id r := r]> (sandboxes (disk w)))))
  | RemoveContainerFile id => Some ((), (on_disk c w (with_containers (disk w) (delete id (containers (disk w))))).2)
  | RemoveSandboxFile id => Some ((), (on_disk c w (with_sandboxes (disk w) (delete id (sandboxes (disk w))))).2)
  | Now => w ← tick c w; Some (at_time c, w)
  | FetchId prefix n pod =>
      let id := make_id prefix n (counter w) in
      if bool_decide (counter w < 2 ^ 64)%Z then Some (id, issue w id (default id pod)) else None
  | CniSetup id =>
      if cni_on w then
        if go c then Some (inr (if bool_decide (text c = []) then None else Some (text c), Some (ns_name id)), w) else Some (inl (Internal (str "CNI setup for sandbox " ++ id ++ str ": " ++ text c)), w)
      else Some (inr (None, None), w)
  | Syscall what => Some (if go c then inr (text c) else inl (Internal (what ++ str ": " ++ text c)), w)
  | LockSpawn => if spawning w then None else Some ((), set_spawning w true)
  | UnlockSpawn => Some ((), set_spawning w false)
  | Spawn id =>
      if go c then
        match procs w !! val c with
        | None => if bool_decide (0 < val c)%Z then Some (inr (val c), set_procs w (<[val c := mkProc id false None NoReaper]> (procs w))) else None
        | Some _ => None
        end
      else Some (inl (text c), w)
  | WaitReady child =>
      p ← procs w !! child;
      if go c then (if p_execed p || bool_decide (is_Some (p_exit p)) then Some (ReadyEof, w) else None)
      else if bool_decide (text c = []) then Some (ReadyTimeout, w) else if p_execed p then None else Some (ReadyBytes (text c), w)
  | ChildWait child => p ← procs w !! child; match p_exit p with Some _ => Some ((), w) | None => None end
  | Kill _ _ => Some ((), w)
  | WaitExited id =>
      let running := match containers (cache w) !! id with Some r => bool_decide (ct_state r = Running) | None => false end in
      if go c then (if running then None else Some (true, w)) else (if running then Some (false, w) else None)
  | StartReaper child =>
      match procs w !! child with
      | Some p => Some ((), set_procs w (<[child := mkProc (p_ctr p) (p_execed p) (p_exit p) Waiting]> (procs w)))
      | None => Some ((), w)
      end
  end.

(** ** The thread that waits for a process *)

Definition set_reaper (w : world) (child : Z) (p : proc) (r : reaper) : world := set_procs w (<[child := mkProc (p_ctr p) (p_execed p) (p_exit p) r]> (procs w)).

Definition reaper_wait (child t : Z) (w : world) : option world :=
  p ← procs w !! child;
  match p_reaper p, p_exit p with
  | Waiting, Some _ => if bool_decide (clock w <= t < 2 ^ 63)%Z then Some (set_clock (set_reaper w child p (Ended t)) t) else None
  | _, _ => None
  end.

(** The cache is locked while the record is written. *)
Definition reaper_record (child : Z) (io : bool) (w : world) : option world :=
  p ← procs w !! child;
  match p_reaper p, p_exit p with
  | Ended t, Some status =>
      let w := set_reaper w child p Reaped in
      match containers (cache w) !! p_ctr p with
      | Some r =>
          if bool_decide (ct_state r = Running) then
            let '(code, why) := signal_or_code status in
            let r' := reaped code why t r in
            let w := set_cache w (with_containers (cache w) (<[p_ctr p := r']> (containers (cache w)))) in
            Some (if io then set_disk w (with_containers (disk w) (<[p_ctr p := r']> (containers (disk w)))) else fault w)
          else Some w
      | None => Some w
      end
  | _, _ => None
  end.

(** ** Restarts *)

Definition pid_alive (w : world) (child : Z) : bool := match procs w !! child with Some p => bool_decide (p_exit p = None) | None => false end.

Definition reconcile (w : world) (t : Z) (r : ContainerRecord) : option ContainerRecord :=
  if bool_decide (ct_state r = Running) then
    if bool_decide (0 < pid r)%Z && negb (pid_alive w (pid r)) then
      Some (with_state Exited (started_at r) t (-1) (str "lost-exit-reaped-elsewhere") (message r) (pid r) (engine r) (cgroup_name r) r)
    else if bool_decide (pid r = 0)%Z then
      Some (with_state Exited (started_at r) t (-1) (str "lost-start-window") (message r) (pid r) (engine r) (cgroup_name r) r)
    else None
  else None.

Definition reload (w : world) (t : Z) (r : ContainerRecord) : ContainerRecord := default r (reconcile w t r).

(** [load_container_cache] and [load_sandbox_cache]: a record that cannot be read is skipped. *)
Definition load_containers (w : world) (t : Z) (readable : bytes -> bool) : gmap bytes ContainerRecord :=
  reload w t <$> filter (fun kr => readable kr.1 = true) (containers (disk w)).
Definition load_sandboxes (w : world) (readable : bytes -> bool) : gmap bytes SandboxRecord := filter (fun kr => readable kr.1 = true) (sandboxes (disk w)).

(** The records that were reconciled are written back, where the disk does its work. *)
Definition write_back (w : world) (t : Z) (readable io : bytes -> bool) : gmap bytes ContainerRecord :=
  map_imap (fun id r => Some (if readable id && io id then reload w t r else r)) (containers (disk w)).

Definition restart (w : world) (t : Z) (readable io : bytes -> bool) : option world :=
  if bool_decide (clock w < t < 2 ^ 63)%Z then
    let c := mkCache (load_containers w t readable) (load_sandboxes w readable) in
    let d := mkCache (write_back w t readable io) (sandboxes (disk w)) in
    let fine := bool_decide (map_Forall (fun id _ => readable id && io id = true) (containers (disk w))) && bool_decide (map_Forall (fun id _ => readable id = true) (sandboxes (disk w))) in
    Some (mkWorld c d ((fun p => mkProc (p_ctr p) (p_execed p) (p_exit p) NoReaper) <$> procs w) false t t 0 (cni_on w) (owner w) (faulted w || negb fine))
  else None.

(** ** Calls *)

Inductive request :=
  | RunSandbox (cfg : SandboxConfig) | StopSandbox (id : bytes) | RemoveSandbox (id : bytes)
  | CreateContainer (sandbox : bytes) (cfg : ContainerConfig) | StartContainer (id : bytes) | StopContainer (id : bytes) (grace : Z) | RemoveContainer (id : bytes).

Definition reply := (BackendError + option bytes)%type.

Definition no_id (p : prog (BackendError + unit)) : prog reply := r ← p; mret (match r with inl e => inl e | inr _ => inr None end).
Definition with_id (p : prog (BackendError + bytes)) : prog reply := r ← p; mret (match r with inl e => inl e | inr id => inr (Some id) end).

Definition serve (req : request) : prog reply :=
  match req with
  | RunSandbox cfg => with_id (run_sandbox cfg)
  | StopSandbox id => no_id (stop_sandbox id)
  | RemoveSandbox id => no_id (remove_sandbox id)
  | CreateContainer sandbox cfg => with_id (create_container sandbox cfg)
  | StartContainer id => no_id (start_container id)
  | StopContainer id grace => no_id (stop_container id grace)
  | RemoveContainer id => no_id (remove_container id)
  end.

(** A call in progress: the pod it is about, and what it still has to do. *)
Record thread := mkThread { t_req : request; t_pod : option bytes; t_prog : prog reply }.
Record machine := mkMachine { mem : world; threads : list thread; replies : list (request * reply) }.

Definition pod_of (w : world) (req : request) : option bytes :=
  match req with
  | RunSandbox _ => None
  | StopSandbox id | RemoveSandbox id | CreateContainer id _ => Some id
  | StartContainer id | StopContainer id _ | RemoveContainer id => owner w !! id
  end.

(** A call that makes a pod is about that pod once it has its identifier. *)
Definition pod_after {B : Set} (o : op B) (pod : option bytes) : B -> option bytes :=
  match o in op B return B -> option bytes with
  | FetchId _ _ _ => fun id => match pod with None => Some id | Some p => Some p end
  | _ => fun _ => pod
  end.

Inductive label :=
  | Call (req : request) | Run (i : nat) (c : choice) | Return (i : nat)
  | ExitProc (child : Z) (status : ExitStatus) | ExecProc (child : Z) | ReapWait (child t : Z) | ReapRecord (child : Z) (io : bool)
  | Restart (t : Z) (readable io : bytes -> bool).

Definition run_thread (th : thread) (c : choice) (w : world) : option (thread * world) :=
  match t_prog th with
  | Ret _ => None
  | Do o k => match exec o c w with Some (b, w) => Some (mkThread (t_req th) (pod_after o (t_pod th) b) (k b), w) | None => None end
  end.

Definition step (l : label) (m : machine) : option machine :=
  match l with
  | Call req => Some (mkMachine (mem m) (threads m ++ [mkThread req (pod_of (mem m) req) (serve req)]) (replies m))
  | Run i c => th ← threads m !! i; '(th, w) ← run_thread th c (mem m); Some (mkMachine w (<[i := th]> (threads m)) (replies m))
  | Return i => th ← threads m !! i; match t_prog th with Ret r => Some (mkMachine (mem m) (delete i (threads m)) (replies m ++ [(t_req th, r)])) | Do _ _ => None end
  | ExitProc child status =>
      p ← procs (mem m) !! child;
      match p_exit p with
      | Some _ => None
      | None => Some (mkMachine (set_procs (mem m) (<[child := mkProc (p_ctr p) (p_execed p) (Some status) (p_reaper p)]> (procs (mem m)))) (threads m) (replies m))
      end
  | ExecProc child =>
      p ← procs (mem m) !! child;
      match p_exit p with
      | Some _ => None
      | None => Some (mkMachine (set_procs (mem m) (<[child := mkProc (p_ctr p) true (p_exit p) (p_reaper p)]> (procs (mem m)))) (threads m) (replies m))
      end
  | ReapWait child t => w ← reaper_wait child t (mem m); Some (mkMachine w (threads m) (replies m))
  | ReapRecord child io => w ← reaper_record child io (mem m); Some (mkMachine w (threads m) (replies m))
  | Restart t readable io => w ← restart (mem m) t readable io; Some (mkMachine w [] (replies m))
  end.

Definition empty_cache : Cache := mkCache ∅ ∅.
Definition machine0 (cni : bool) : machine := mkMachine (mkWorld empty_cache empty_cache ∅ false 1 1 0 cni ∅ false) [] [].

Fixpoint steps (ls : list label) (m : machine) : option machine := match ls with [] => Some m | l :: ls => m ← step l m; steps ls m end.
