(* ===== verification/CriLogic.v ===== *)
(** Rely and guarantee for the programs of the CRI backend: what a call can count on while
    others run between its operations, and what it does to them in turn. *)

From Stdlib Require Import ZArith Lia.
From S2P Require Import Prelude Text Error CriVocab CriBackend.

(** Operations that change nothing but the clock and the lock around spawning. *)
Definition silent {B : Set} (o : op B) : Prop :=
  match o with
  | Locked f => forall t c, (f t c).2 = c
  | Now | CniSetup _ | Syscall _ | LockSpawn | UnlockSpawn | WaitReady _ | ChildWait _ | Kill _ _ | WaitExited _ => True
  | _ => False
  end.

(** The worlds that differ only in them. *)
Record same_but_clock (w w' : world) : Prop := {
  sbc_cache : cache w' = cache w; sbc_disk : disk w' = disk w; sbc_procs : procs w' = procs w; sbc_clock : (clock w <= clock w')%Z /\ (clock w' = clock w \/ clock w' < 2 ^ 63)%Z;
  sbc_boot : boot w' = boot w; sbc_counter : counter w' = counter w; sbc_cni : cni_on w' = cni_on w; sbc_owner : owner w' = owner w; sbc_faulted : faulted w' = faulted w }.

Lemma tick_same c w w' : tick c w = Some w' -> same_but_clock w w' /\ clock w' = at_time c /\ (clock w <= at_time c < 2 ^ 63)%Z.
Proof. unfold tick. case_bool_decide; [|done]. intros [= <-]. repeat split; cbn; lia || done. Qed.

Lemma same_refl w : same_but_clock w w.
Proof. split; done || lia. Qed.

Lemma silent_same {B : Set} (o : op B) c w b w' : silent o -> exec o c w = Some (b, w') -> same_but_clock w w'.
Proof.
intros Hs. destruct o; try done; cbn [exec] in *.
- destruct (tick c w) as [w1|] eqn:Et; [|done]. cbn. destruct (f (at_time c) (cache w1)) as [b' c'] eqn:Ef. intros [= <- <-].
  apply tick_same in Et as (H & _). assert (c' = cache w1) as -> by (change c' with (b', c').2; rewrite <- Ef; apply Hs). split; cbn; apply H.
- destruct (tick c w) as [w1|] eqn:Et; [|done]. cbn. intros [= <- <-]. by apply tick_same in Et as (H & _).
- destruct (cni_on w); [destruct (go c)|]; intros [= <- <-]; apply same_refl.
- intros [= <- <-]. apply same_refl.
- destruct (spawning w); [done|]. intros [= <- <-]. split; cbn; done || lia.
- intros [= <- <-]. split; cbn; done || lia.
- destruct (procs w !! pid) as [p|]; [|done]. cbn. destruct (go c); repeat case_match; try done; intros [= <- <-]; apply same_refl.
- destruct (procs w !! pid) as [p|]; [|done]. cbn. case_match; [|done]. intros [= <- <-]. apply same_refl.
- intros [= <- <-]. apply same_refl.
- repeat case_match; try done; intros [= <- <-]; apply same_refl.
Qed.

Section rely_guarantee.
(** What the others may do, what the call may do, and what always holds. *)
Context (R G : world -> world -> Prop) (I : world -> Prop).
Context (R_refl : forall w, I w -> R w w) (R_trans : forall w1 w2 w3, R w1 w2 -> R w2 w3 -> R w1 w3).
Context (same_R : forall w w', same_but_clock w w' -> R w w') (same_G : forall w w', same_but_clock w w' -> G w w') (same_I : forall w w', same_but_clock w w' -> I w -> I w').

Fixpoint rg {A} (Q : A -> world -> Prop) (p : prog A) (w : world) : Prop :=
  match p with
  | Ret a => forall w1, R w w1 -> I w1 -> Q a w1
  | Do o k => forall w1, R w w1 -> I w1 -> forall c b w2, exec o c w1 = Some (b, w2) -> G w1 w2 /\ I w2 /\ rg Q (k b) w2
  end.

Definition triple {A} (Pre : world -> Prop) (p : prog A) (Q : A -> world -> Prop) : Prop := forall w, I w -> Pre w -> rg Q p w.
Definition stable (Pre : world -> Prop) : Prop := forall w w1, Pre w -> R w w1 -> I w1 -> Pre w1.

Lemma rg_later {A} (Q : A -> world -> Prop) p w w1 : rg Q p w -> R w w1 -> rg Q p w1.
Proof. destruct p as [a|B o k]; cbn; intros H Hr w2 Hr2; apply H; by eapply R_trans. Qed.

Lemma rg_mono {A} (Q Q' : A -> world -> Prop) p w : rg Q p w -> (forall a w1, I w1 -> Q a w1 -> Q' a w1) -> rg Q' p w.
Proof.
intros H HQ. revert w H. induction p as [a|B o k IH]; intros w; cbn; [auto|]. intros H w1 Hr Hi c b w2 E. destruct (H w1 Hr Hi c b w2 E) as (? & ? & ?). auto.
Qed.

Lemma rg_bind {A B} (Q : A -> world -> Prop) (Q' : B -> world -> Prop) p (k : A -> prog B) w :
  I w -> rg Q p w -> (forall a w1, I w1 -> Q a w1 -> rg Q' (k a) w1) -> rg Q' (bind k p) w.
Proof.
intros Hi H Hk. revert w Hi H. induction p as [a|C o k' IH]; intros w Hi; cbn.
- intros H. apply Hk; [done|]. by apply H; [apply R_refl|].
- intros H w1 Hr Hi1 c b w2 E. destruct (H w1 Hr Hi1 c b w2 E) as (? & ? & ?). auto.
Qed.

Lemma t_bind {A B} Pre (Q : A -> world -> Prop) (Q' : B -> world -> Prop) p (k : A -> prog B) :
  triple Pre p Q -> (forall a, triple (Q a) (k a) Q') -> triple Pre (p ≫= k) Q'.
Proof. intros H Hk w Hi Hp. apply (rg_bind Q); [done|by apply H|]. intros a w1 Hi1 HQ. by apply Hk. Qed.

Lemma t_try {A B} Pre (Q : BackendError + A -> world -> Prop) (Q' : BackendError + B -> world -> Prop) p (k : A -> prog (BackendError + B)) :
  triple Pre p Q -> (forall e w, I w -> Q (inl e) w -> stable (Q (inl e)) /\ Q' (inl e) w) -> (forall a, triple (Q (inr a)) (k a) Q') -> triple Pre (try_then p k) Q'.
Proof.
intros H He Hk. apply (t_bind _ Q); [done|]. intros [e|a]; [|apply Hk]. intros w Hi HQ w1 Hr Hi1. destruct (He e w Hi HQ) as [Hs _]. apply He; [done|]. by eapply Hs.
Qed.

Lemma t_ret {A} Pre (Q : A -> world -> Prop) a : stable Pre -> (forall w, I w -> Pre w -> Q a w) -> triple Pre (Ret a) Q.
Proof. intros Hs H w Hi Hp w1 Hr Hi1. apply H; [done|]. by eapply Hs. Qed.

Lemma t_pre {A} (Pre Pre' : world -> Prop) p (Q : A -> world -> Prop) : triple Pre' p Q -> (forall w, I w -> Pre w -> Pre' w) -> triple Pre p Q.
Proof. intros H Hp w Hi HP. apply H; auto. Qed.

Lemma t_post {A} Pre p (Q Q' : A -> world -> Prop) : triple Pre p Q -> (forall a w, I w -> Q a w -> Q' a w) -> triple Pre p Q'.
Proof. intros H HQ w Hi HP. eapply rg_mono; [by apply H|done]. Qed.

Lemma t_silent {A} {B : Set} Pre (o : op B) (k : B -> prog A) Q :
  silent o -> stable Pre -> (forall b, triple (fun w => Pre w /\ exists c w1, exec o c w1 = Some (b, w) /\ Pre w1 /\ same_but_clock w1 w) (k b) Q) -> triple Pre (Do o k) Q.
Proof.
intros Ho Hs Hk w Hi HP w1 Hr Hi1 c b w2 E. pose proof (silent_same o c w1 b w2 Ho E) as Hsame. split; [by apply same_G|]. split; [by eapply same_I|].
assert (Pre w1) as HP1 by (by eapply Hs). apply Hk; [by eapply same_I|]. split; [|by exists c, w1]. eapply Hs; [exact HP1|by apply same_R|by eapply same_I].
Qed.

Lemma t_silent' {A} {B : Set} Pre (o : op B) (k : B -> prog A) Q : silent o -> stable Pre -> (forall b, triple Pre (k b) Q) -> triple Pre (Do o k) Q.
Proof. intros Ho Hs Hk. apply t_silent; [done|done|]. intros b. eapply t_pre; [apply Hk|]. by intros w _ [? _]. Qed.

(** A critical section that only reads. *)
Lemma t_peek {A} {B : Set} Pre (f : Cache -> B) (k : B -> prog A) Q :
  stable Pre -> (forall b, triple (fun w => Pre w /\ b = f (cache w)) (k b) Q) -> triple Pre (peek f ≫= k) Q.
Proof.
intros Hs Hk. change (triple Pre (Do (Locked (fun _ c => (f c, c))) k) Q). apply t_silent; [done|done|]. intros b. eapply t_pre; [apply Hk|].
intros w _ [HP (c & w1 & E & _ & Hsame)]. split; [done|]. cbn in E. destruct (tick c w1) as [w1'|] eqn:Et; [|done]. injection E as <- <-. done.
Qed.

Lemma stable_and (P1 P2 : world -> Prop) : stable P1 -> stable P2 -> stable (fun w => P1 w /\ P2 w).
Proof. intros H1 H2 w w1 [? ?] Hr Hi. split; [by eapply H1|by eapply H2]. Qed.
Lemma stable_imp (P1 : Prop) (P2 : world -> Prop) : stable P2 -> stable (fun w => P1 -> P2 w).
Proof. intros H w w1 HP Hr Hi H1. eapply H; eauto. Qed.
Lemma stable_pure (P1 : Prop) : stable (fun _ => P1).
Proof. by intros w w1 H _ _. Qed.
End rely_guarantee.
