(* ===== verification/CriPods.v ===== *)
(** Calls on one pod do not interfere with those on another: the invariant of the backend, what
    a call on a pod may do to the rest, and what the rest may do to the pod. *)

From Stdlib Require Import ZArith Lia.
From S2P Require Import Prelude Text Error CriVocab CriBackend CriLogic.

Abbreviation cc w := (containers (cache w)).
Abbreviation cd w := (containers (disk w)).
Abbreviation sc w := (sandboxes (cache w)).
Abbreviation sd w := (sandboxes (disk w)).

(** * The invariant *)

Definition rec_ok (w : world) (id : bytes) (r : ContainerRecord) : Prop := ct_id r = id /\ owner w !! id = Some (ct_sandbox r).
Definition sb_ok (w : world) (id : bytes) (r : SandboxRecord) : Prop := sb_id r = id /\ owner w !! id = Some id /\ (cni_on w = false -> netns_path r = None).

(** The processes of a container. *)
Definition none_of (w : world) (id : bytes) : Prop := forall k p, procs w !! k = Some p -> p_ctr p <> id.
Definition few (w : world) (id : bytes) : Prop := forall k k' p p', procs w !! k = Some p -> procs w !! k' = Some p' -> p_ctr p = id -> p_ctr p' = id -> k = k'.

(** A container has at most one process, and none while a record says that it is to be
    started. *)
Definition once (w : world) (id : bytes) : Prop :=
  few w id /\ forall r, cc w !! id = Some r \/ cd w !! id = Some r -> ct_state r = Created -> none_of w id.

(** An identifier carries the time and the counter of its issue. *)
Definition issued (w : world) (id : bytes) : Prop :=
  exists pre n c, (pre = str "sb-" \/ pre = str "ct-") /\ id = make_id pre n c /\ (0 <= n <= clock w)%Z /\ (0 <= c < 2 ^ 64)%Z /\ (n < boot w \/ c < counter w)%Z.

Record GI (w : world) : Prop := {
  gi_cc : map_Forall (rec_ok w) (cc w); gi_cd : map_Forall (rec_ok w) (cd w); gi_sc : map_Forall (sb_ok w) (sc w); gi_sd : map_Forall (sb_ok w) (sd w);
  gi_procs : map_Forall (fun k p => is_Some (owner w !! p_ctr p)) (procs w);
  gi_owner : map_Forall (fun id pod => issued w id /\ is_Some (owner w !! pod)) (owner w);
  gi_time : (0 <= boot w <= clock w)%Z /\ (clock w < 2 ^ 63)%Z /\ (0 <= counter w <= 2 ^ 64)%Z;
  gi_once : cni_on w = false -> forall id, once w id }.

(** * What a pod can count on *)

Definition no_reaper (w : world) (id : bytes) : Prop := forall k p, procs w !! k = Some p -> p_ctr p = id -> p_reaper p = NoReaper.

(** The records of a container stay, or the thread that waits for its process records the
    end. *)
Definition entry_rel (w1 w2 : world) (id : bytes) : Prop :=
  (cc w2 !! id = cc w1 !! id /\ cd w2 !! id = cd w1 !! id) \/
  (exists r r', cc w1 !! id = Some r /\ ct_state r = Running /\ ~ no_reaper w1 id /\ cc w2 !! id = Some r' /\ ct_state r' = Exited /\
    (cd w2 !! id = Some r' \/ cd w2 !! id = cd w1 !! id /\ faulted w2 = true)).

Definition proc_rel (p p' : proc) : Prop := p_ctr p' = p_ctr p /\ (p_reaper p' = NoReaper <-> p_reaper p = NoReaper).

Record R (P : bytes) (w1 w2 : world) : Prop := {
  r_sc : sc w2 !! P = sc w1 !! P; r_sd : sd w2 !! P = sd w1 !! P;
  r_own : owner w1 ⊆ owner w2; r_new : forall id, owner w2 !! id = Some P -> owner w1 !! id = Some P;
  r_ct : forall id, owner w1 !! id = Some P -> entry_rel w1 w2 id;
  r_pr1 : forall k p, procs w1 !! k = Some p -> owner w1 !! p_ctr p = Some P -> exists p', procs w2 !! k = Some p' /\ proc_rel p p';
  r_pr2 : forall k p', procs w2 !! k = Some p' -> owner w1 !! p_ctr p' = Some P -> exists p, procs w1 !! k = Some p /\ proc_rel p p';
  r_boot : boot w2 = boot w1; r_clock : (clock w1 <= clock w2)%Z; r_cni : cni_on w2 = cni_on w1; r_flt : faulted w1 = true -> faulted w2 = true }.

(** * What a call on a pod may do *)

Record G (P : bytes) (w1 w2 : world) : Prop := {
  g_sb : forall S, S <> P -> sc w2 !! S = sc w1 !! S /\ sd w2 !! S = sd w1 !! S;
  g_own : owner w1 ⊆ owner w2; g_new : forall id S, owner w2 !! id = Some S -> S <> P -> owner w1 !! id = Some S;
  g_ct : forall id S, owner w1 !! id = Some S -> S <> P -> cc w2 !! id = cc w1 !! id /\ cd w2 !! id = cd w1 !! id;
  g_pr : forall k p S, owner w1 !! p_ctr p = Some S -> S <> P -> procs w1 !! k = Some p <-> procs w2 !! k = Some p;
  g_boot : boot w2 = boot w1; g_clock : (clock w1 <= clock w2)%Z; g_cni : cni_on w2 = cni_on w1; g_flt : faulted w1 = true -> faulted w2 = true }.

Lemma G_R P S w1 w2 : S <> P -> G P w1 w2 -> R S w1 w2.
Proof.
intros Hne []. split; try done; try (by apply g_sb0).
- intros id H. by eapply g_new0.
- intros id H. left. by eapply g_ct0.
- intros k p H Ho. exists p. split; [|done]. by apply (g_pr0 k p S Ho Hne).
- intros k p H Ho. exists p. split; [|done]. by apply (g_pr0 k p S Ho Hne).
Qed.

Lemma R_refl P w : R P w w.
Proof. split; try done; [by intros id H; left|by intros k p H _; exists p|by intros k p H _; exists p]. Qed.

Lemma no_reaper_back P w1 w2 id : R P w1 w2 -> owner w1 !! id = Some P -> no_reaper w1 id -> no_reaper w2 id.
Proof. intros Hr Ho H k p' Hk E. subst id. destruct (r_pr2 _ _ _ Hr k p' Hk Ho) as (p & H1 & Hc & Hn). apply Hn. by apply (H k p). Qed.

Lemma R_trans P w1 w2 w3 : R P w1 w2 -> R P w2 w3 -> R P w1 w3.
Proof.
intros H1 H2. pose proof H1 as []. pose proof H2 as [].
assert (forall id, owner w1 !! id = Some P -> owner w2 !! id = Some P) as Hown by (intros id H; by eapply lookup_weaken).
split; try congruence; try lia; auto.
- by etrans.
- intros id Ho. destruct (r_ct0 id Ho) as [[C1 D1]|(r & r' & C1 & Er & Hre & C2 & Er' & HD)]; destruct (r_ct1 id (Hown id Ho)) as [[C3 D3]|(q & q' & C3 & Eq & Hqe & C4 & Eq' & HE)].
  + left. split; congruence.
  + right. exists q, q'. split; [by rewrite <- C1|]. split; [done|]. split; [intros Hn; apply Hqe; by eapply no_reaper_back|]. split; [done|]. split; [done|].
    destruct HE as [HE|[HE HF]]; [by left|right]. by rewrite HE, D1.
  + right. exists r, r'. split; [done|]. split; [done|]. split; [done|]. rewrite C3, D3. split; [done|]. split; [done|]. destruct HD as [HD|[HD HF]]; [by left|right; auto].
  + rewrite C2 in C3. injection C3 as <-. by rewrite Er' in Eq.
- intros k p Hk Ho. destruct (r_pr3 k p Hk Ho) as (p' & Hk' & E & Hn). destruct (r_pr5 k p' Hk') as (p'' & ? & E' & ?); [rewrite E; auto|]. exists p''. split; [done|]. split; [congruence|tauto].
- intros k p'' Hk Ho. destruct (r_pr6 k p'' Hk) as (p' & Hk' & E & Hn); [auto|]. rewrite E in Ho. destruct (r_pr4 k p' Hk' Ho) as (p & ? & E' & ?). exists p. split; [done|]. split; [congruence|tauto].
Qed.

Lemma same_R P w w' : same_but_clock w w' -> R P w w'.
Proof.
intros [H1 H2 H3 [H4 _] H5 H6 H7 H8 H9]. split; rewrite ?H1, ?H2, ?H3, ?H5, ?H7, ?H8, ?H9; try done.
- intros id Ho. left. by rewrite H1, H2.
- intros k p Hk _. by exists p.
- intros k p Hk _. by exists p.
Qed.
Lemma same_G P w w' : same_but_clock w w' -> G P w w'.
Proof. intros [H1 H2 H3 [H4 _] H5 H6 H7 H8 H9]. split; rewrite ?H1, ?H2, ?H3, ?H5, ?H7, ?H8, ?H9; done. Qed.
Lemma issued_later w w' id : (clock w <= clock w')%Z -> boot w' = boot w -> (counter w <= counter w')%Z -> issued w id -> issued w' id.
Proof. intros Hk Hb Hc (pre & n & c & H1 & H2 & H3 & H4 & H5). exists pre, n, c. repeat split; try done; lia. Qed.

Lemma same_GI w w' : same_but_clock w w' -> GI w -> GI w'.
Proof.
intros [H1 H2 H3 [H4 H4'] H5 H6 H7 H8 H9] []. split; unfold rec_ok, sb_ok, once, few, none_of in *; rewrite ?H1, ?H2, ?H3, ?H5, ?H6, ?H7, ?H8; try done; [|lia].
eapply map_Forall_impl; [exact gi_owner0|]. intros id pod [Hid Hp]. split; [|done]. apply (issued_later w); [done|done|lia|done].
Qed.

Abbreviation tri P := (triple (R P) (G P) GI).
Abbreviation stab P := (stable (R P) GI).

(** * Pods at rest *)

Definition ctr_quiet (w : world) (id : bytes) : Prop :=
  (faulted w = false -> cd w !! id = cc w !! id) /\ (forall r, cc w !! id = Some r -> ct_state r = Created -> no_reaper w id).
Definition sb_quiet (P : bytes) (w : world) : Prop := faulted w = false -> sd w !! P = sc w !! P.

Definition Quiet (P : bytes) (w : world) : Prop := sb_quiet P w /\ forall id, owner w !! id = Some P -> ctr_quiet w id.

(** All of a pod but one container, or but the record of the pod. *)
Definition Others (P id : bytes) (w : world) : Prop := sb_quiet P w /\ forall id', id' <> id -> owner w !! id' = Some P -> ctr_quiet w id'.
Definition Contents (P : bytes) (w : world) : Prop := forall id, owner w !! id = Some P -> ctr_quiet w id.

Lemma not_faulted P w1 w2 : R P w1 w2 -> faulted w2 = false -> faulted w1 = false.
Proof. intros Hr H. destruct (faulted w1) eqn:E; [|done]. by rewrite (r_flt _ _ _ Hr E) in H. Qed.

Lemma ctr_quiet_later P w1 w2 id : R P w1 w2 -> owner w1 !! id = Some P -> ctr_quiet w1 id -> ctr_quiet w2 id.
Proof.
intros Hr Ho [H1 H2]. destruct (r_ct _ _ _ Hr id Ho) as [[C D]|(r & r' & C1 & Er & Hre & C2 & Er' & HD)].
- split; rewrite C, ?D; [intros F; apply H1; by eapply not_faulted|]. intros r Hc Es. eapply no_reaper_back; [done|done|by eapply H2].
- split; [intros F|intros q Hq Es]; rewrite C2 in *; [|injection Hq as <-; by rewrite Er' in Es]. destruct HD as [->|[_ HF]]; [done|by rewrite HF in F].
Qed.

Lemma sb_quiet_stable P : stab P (sb_quiet P).
Proof. intros w1 w2 H Hr _ F. rewrite (r_sc _ _ _ Hr), (r_sd _ _ _ Hr). apply H. by eapply not_faulted. Qed.
Lemma Contents_stable P : stab P (Contents P).
Proof. intros w1 w2 H Hr _ id Ho. apply (r_new _ _ _ Hr) in Ho. eapply ctr_quiet_later; [done|done|by apply H]. Qed.
Lemma Quiet_stable P : stab P (Quiet P).
Proof. intros w1 w2 [H1 H2] Hr Hi. split; [by eapply sb_quiet_stable|by eapply Contents_stable]. Qed.
Lemma Others_stable P id : stab P (Others P id).
Proof.
intros w1 w2 [H1 H2] Hr Hi. split; [by eapply sb_quiet_stable|]. intros id' Hne Ho. apply (r_new _ _ _ Hr) in Ho. eapply ctr_quiet_later; [done|done|by apply H2].
Qed.
Lemma owner_stable P id S : stab P (fun w => owner w !! id = Some S).
Proof. intros w1 w2 H Hr _. eapply lookup_weaken; [done|apply Hr]. Qed.
Lemma faulted_stable P : stab P (fun w => faulted w = true).
Proof. intros w1 w2 H Hr _. by apply (r_flt _ _ _ Hr). Qed.
Lemma no_reaper_stable P id : stab P (fun w => owner w !! id = Some P /\ no_reaper w id).
Proof. intros w1 w2 [Ho H] Hr Hi. split; [by eapply owner_stable|by eapply no_reaper_back]. Qed.
Lemma none_of_stable P id : stab P (fun w => owner w !! id = Some P /\ none_of w id).
Proof.
intros w1 w2 [Ho H] Hr Hi. split; [by eapply owner_stable|]. intros k p' Hk E. subst id. destruct (r_pr2 _ _ _ Hr k p' Hk Ho) as (p & H1 & Hc & _). by apply (H k p H1).
Qed.

(** The records of a container that has no thread waiting for its process. *)
Definition Held (P id : bytes) (c d : option ContainerRecord) (w : world) : Prop :=
  Others P id w /\ (owner w !! id = Some P /\ no_reaper w id) /\ cc w !! id = c /\ cd w !! id = d.

Lemma Held_stable P id c d : stab P (Held P id c d).
Proof.
intros w1 w2 (H1 & [Ho Hn] & Hc & Hd) Hr Hi. split; [by eapply Others_stable|]. split; [by eapply no_reaper_stable|].
destruct (r_ct _ _ _ Hr id Ho) as [[C D]|(r & r' & _ & _ & Hre & _)]; [by rewrite C, D|done].
Qed.

Lemma Held_Quiet P id c d w : Held P id c d w -> (faulted w = false -> d = c) -> Quiet P w.
Proof.
intros ([H1 H2] & [Ho Hn] & Hc & Hd) E. split; [done|]. intros id' Ho'. destruct (decide (id' = id)) as [->|Hne]; [|by apply H2]. split; [by rewrite Hc, Hd|done].
Qed.

Lemma Quiet_Others P id w : Quiet P w -> Others P id w.
Proof. intros [H1 H2]. split; [done|]. intros id' _ Ho. by apply H2. Qed.

Lemma Others_Quiet P id w : Others P id w -> ctr_quiet w id -> Quiet P w.
Proof. intros [H1 H2] H. split; [done|]. intros id' Ho. destruct (decide (id' = id)) as [->|Hne]; [done|by apply H2]. Qed.

(** * Changes *)

Lemma G_trans P w1 w2 w3 : G P w1 w2 -> G P w2 w3 -> G P w1 w3.
Proof.
intros H1 H2. pose proof H1 as []. pose proof H2 as [].
assert (forall id S, owner w1 !! id = Some S -> owner w2 !! id = Some S) as Hown by (intros id S H; by eapply lookup_weaken).
split; try congruence; try lia; auto.
- intros S Hne. destruct (g_sb0 S Hne), (g_sb1 S Hne). split; congruence.
- by etrans.
- intros id S H Hne. destruct (g_ct0 id S H Hne), (g_ct1 id S (Hown _ _ H) Hne). split; congruence.
- intros k p S H Hne. rewrite (g_pr0 k p S H Hne). apply (g_pr1 k p S); auto.
Qed.

Definition at_cc (w : world) (m : gmap bytes ContainerRecord) : world := set_cache w (with_containers (cache w) m).
Definition at_cd (w : world) (m : gmap bytes ContainerRecord) : world := set_disk w (with_containers (disk w) m).
Definition at_sc (w : world) (m : gmap bytes SandboxRecord) : world := set_cache w (with_sandboxes (cache w) m).
Definition at_sd (w : world) (m : gmap bytes SandboxRecord) : world := set_disk w (with_sandboxes (disk w) m).

Lemma G_containers P w id m1 m2 :
  owner w !! id = Some P -> (forall id', id' <> id -> m1 !! id' = cc w !! id') -> (forall id', id' <> id -> m2 !! id' = cd w !! id') -> G P w (at_cd (at_cc w m1) m2).
Proof. intros Ho H1 H2. split; try done; cbn. intros id' S Ho' Hne. assert (id' <> id) as Hid by (intros ->; congruence). by rewrite H1, H2. Qed.

Lemma G_sandboxes P w m1 m2 : (forall S, S <> P -> m1 !! S = sc w !! S) -> (forall S, S <> P -> m2 !! S = sd w !! S) -> G P w (at_sd (at_sc w m1) m2).
Proof. intros H1 H2. split; try done; cbn. intros S Hne. by rewrite H1, H2. Qed.

Lemma cache_eta c m : m = containers c -> with_containers c m = c.
Proof. intros ->. by destruct c. Qed.
Lemma world_cc w : at_cc w (cc w) = w.
Proof. unfold at_cc. destruct w as [c d]. cbn. by rewrite cache_eta. Qed.
Lemma world_cd w : at_cd w (cd w) = w.
Proof. unfold at_cd. destruct w as [c d]. cbn. by rewrite cache_eta. Qed.
Lemma world_sc w : at_sc w (sc w) = w.
Proof. unfold at_sc, with_sandboxes. by destruct w as [[] d]. Qed.
Lemma world_sd w : at_sd w (sd w) = w.
Proof. unfold at_sd, with_sandboxes. by destruct w as [c []]. Qed.

Lemma G_cc P w id m : owner w !! id = Some P -> (forall id', id' <> id -> m !! id' = cc w !! id') -> G P w (at_cc w m).
Proof. intros Ho H. rewrite <- (world_cd (at_cc w m)). by apply (G_containers P w id). Qed.
Lemma G_cd P w id m : owner w !! id = Some P -> (forall id', id' <> id -> m !! id' = cd w !! id') -> G P w (at_cd w m).
Proof. intros Ho H. rewrite <- (world_cc w) at 2. by apply (G_containers P w id). Qed.
Lemma G_sc P w m : (forall S, S <> P -> m !! S = sc w !! S) -> G P w (at_sc w m).
Proof. intros H. rewrite <- (world_sd (at_sc w m)). by apply G_sandboxes. Qed.
Lemma G_sd P w m : (forall S, S <> P -> m !! S = sd w !! S) -> G P w (at_sd w m).
Proof. intros H. rewrite <- (world_sc w) at 2. by apply G_sandboxes. Qed.

Lemma GI_cc w m : GI w -> map_Forall (rec_ok w) m -> (cni_on w = false -> forall id r, m !! id = Some r -> ct_state r = Created -> none_of w id) -> GI (at_cc w m).
Proof.
intros [] Hm Hn. split; try done. cbn. intros Hc id. destruct (gi_once0 Hc id) as [H1 H2]. split; [done|]. intros r [H|H] Es; [by eapply Hn|by apply (H2 r); [right|]].
Qed.
Lemma GI_cd w m : GI w -> map_Forall (rec_ok w) m -> (cni_on w = false -> forall id r, m !! id = Some r -> ct_state r = Created -> none_of w id) -> GI (at_cd w m).
Proof.
intros [] Hm Hn. split; try done. cbn. intros Hc id. destruct (gi_once0 Hc id) as [H1 H2]. split; [done|]. intros r [H|H] Es; [by apply (H2 r); [left|]|by eapply Hn].
Qed.
Lemma GI_sc w m : GI w -> map_Forall (sb_ok w) m -> GI (at_sc w m).
Proof. intros [] Hm. by split. Qed.
Lemma GI_sd w m : GI w -> map_Forall (sb_ok w) m -> GI (at_sd w m).
Proof. intros [] Hm. by split. Qed.

Lemma fault_R P w : R P w (fault w).
Proof. split; try done; [by intros id H; left|by intros k p H _; exists p|by intros k p H _; exists p]. Qed.
Lemma fault_G P w : G P w (fault w).
Proof. by split. Qed.
Lemma fault_GI w : GI w -> GI (fault w).
Proof. intros []. by split. Qed.
Create HintDb cri.
#[export] Hint Resolve fault_R fault_G fault_GI R_refl : cri.

(** * Rules *)

Lemma P_bind {A B} P Pre (Q : A -> world -> Prop) (Q' : B -> world -> Prop) p (k : A -> prog B) :
  tri P Pre p Q -> (forall a, tri P (Q a) (k a) Q') -> tri P Pre (p ≫= k) Q'.
Proof. apply t_bind. intros w _. apply R_refl. Qed.

Lemma P_try {A B} P Pre (Q : BackendError + A -> world -> Prop) (Q' : BackendError + B -> world -> Prop) p (k : A -> prog (BackendError + B)) :
  tri P Pre p Q -> (forall e w, GI w -> Q (inl e) w -> stab P (Q (inl e)) /\ Q' (inl e) w) -> (forall a, tri P (Q (inr a)) (k a) Q') -> tri P Pre (try_then p k) Q'.
Proof. apply t_try. intros w _. apply R_refl. Qed.

Lemma P_silent {A} {B : Set} P Pre (o : op B) (k : B -> prog A) Q : silent o -> stab P Pre -> (forall b, tri P Pre (k b) Q) -> tri P Pre (perform o ≫= k) Q.
Proof. intros Ho Hs Hk. change (tri P Pre (Do o k) Q). apply t_silent'; [apply same_R|apply same_G|apply same_GI|done|done|done]. Qed.

Lemma P_peek {A} {B : Set} P Pre (f : Cache -> B) (k : B -> prog A) Q :
  stab P Pre -> (forall b, tri P (fun w => Pre w /\ b = f (cache w)) (k b) Q) -> tri P Pre (peek f ≫= k) Q.
Proof. apply t_peek; [apply same_R|apply same_G|apply same_GI]. Qed.

Lemma P_locked {A} {B : Set} P Pre (f : Z -> Cache -> B * Cache) (k : B -> prog A) Mid Q :
  stab P Pre -> (forall w t, GI w -> Pre w -> G P w (set_cache w (f t (cache w)).2) /\ GI (set_cache w (f t (cache w)).2) /\ Mid (f t (cache w)).1 (set_cache w (f t (cache w)).2)) ->
  (forall b, tri P (Mid b) (k b) Q) -> tri P Pre (perform (Locked f) ≫= k) Q.
Proof.
intros Hs H Hk. change (tri P Pre (Do (Locked f) k) Q). intros w Hi HP w1 Hr Hi1 c b w2. cbn. destruct (tick c w1) as [w1'|] eqn:Et; [|done]. cbn.
destruct (f (at_time c) (cache w1')) as [b' c'] eqn:Ef. intros [= <- <-]. apply tick_same in Et as (Hsame & _).
assert (GI w1') as Hi' by (by eapply same_GI). assert (Pre w1') as HP' by (eapply Hs; [|by apply same_R|done]; by eapply Hs).
destruct (H w1' (at_time c) Hi' HP') as (H1 & H2 & H3). rewrite Ef in H1, H2, H3. cbn in H1, H2, H3. split; [eapply G_trans; [by apply same_G|done]|]. split; [done|]. by apply Hk.
Qed.

Lemma P_ret {A} P Pre (Q : A -> world -> Prop) a : stab P Pre -> (forall w, GI w -> Pre w -> Q a w) -> tri P Pre (Ret a) Q.
Proof. apply t_ret. Qed.

(** Writing and removing records. *)
Lemma P_persist {A} P Pre r (k : BackendError + unit -> prog A) Mid Q :
  stab P Pre -> (forall w, GI w -> Pre w -> owner w !! ct_id r = Some P /\ ct_sandbox r = P /\ (cni_on w = false -> ct_state r = Created -> none_of w (ct_id r))) ->
  (forall w, GI w -> Pre w -> Mid (inr ()) (at_cd w (<[ct_id r := r]> (cd w)))) -> (forall w, GI w -> Pre w -> faulted w = true -> Mid (inl IoErr) w) ->
  (forall b, tri P (Mid b) (k b) Q) -> tri P Pre (persist r ≫= k) Q.
Proof.
intros Hs Hown Hok Hbad Hk. change (tri P Pre (Do (PersistContainer r) k) Q). intros w Hi HP w1 Hr Hi1 c b w2. cbn. unfold on_disk. assert (Pre w1) as HP1 by (by eapply Hs).
destruct (Hown w1 Hi1 HP1) as (Ho & Hsb & Hn). destruct (io_ok c); intros [= <- <-].
- change (set_disk w1 _) with (at_cd w1 (<[ct_id r := r]> (cd w1))). assert (GI (at_cd w1 (<[ct_id r := r]> (cd w1)))) as Hi2.
  { apply GI_cd; [done| |].
    - apply map_Forall_insert_2; [by split; [|rewrite Hsb]|apply Hi1].
    - intros Hc id r' [[<- <-]|[Hne H]]%lookup_insert_Some Es; [by apply Hn|]. destruct (gi_once _ Hi1 Hc id) as [_ H2]. by apply (H2 r'); [right|]. }
  split; [apply (G_cd P w1 (ct_id r)); [done|]; intros id' Hne; by rewrite lookup_insert_ne|]. split; [done|]. apply Hk; [done|]. by apply Hok.
- split; [auto with cri|]. split; [auto with cri|]. apply Hk; [auto with cri|]. apply Hbad; [auto with cri| |done]. eapply Hs; [exact HP1|auto with cri..].
Qed.

Lemma P_persist_sb {A} P Pre r (k : BackendError + unit -> prog A) Mid Q :
  stab P Pre -> (forall w, GI w -> Pre w -> sb_id r = P /\ owner w !! P = Some P /\ (cni_on w = false -> netns_path r = None)) ->
  (forall w, GI w -> Pre w -> Mid (inr ()) (at_sd w (<[sb_id r := r]> (sd w)))) -> (forall w, GI w -> Pre w -> faulted w = true -> Mid (inl IoErr) w) ->
  (forall b, tri P (Mid b) (k b) Q) -> tri P Pre (perform (PersistSandbox r) ≫= k) Q.
Proof.
intros Hs Hown Hok Hbad Hk. change (tri P Pre (Do (PersistSandbox r) k) Q). intros w Hi HP w1 Hr Hi1 c b w2. cbn. unfold on_disk. assert (Pre w1) as HP1 by (by eapply Hs).
destruct (Hown w1 Hi1 HP1) as (Ho & Hsb & Hn). destruct (io_ok c); intros [= <- <-].
- change (set_disk w1 _) with (at_sd w1 (<[sb_id r := r]> (sd w1))). assert (GI (at_sd w1 (<[sb_id r := r]> (sd w1)))) as Hi2.
  { apply GI_sd; [done|]. apply map_Forall_insert_2; [|apply Hi1]. rewrite Ho. by split. }
  split; [apply G_sd; intros S Hne; rewrite lookup_insert_ne; [done|congruence]|]. split; [done|]. apply Hk; [done|]. by apply Hok.
- split; [auto with cri|]. split; [auto with cri|]. apply Hk; [auto with cri|]. apply Hbad; [auto with cri| |done]. eapply Hs; [exact HP1|auto with cri..].
Qed.

Lemma P_remove_file {A} P Pre id (k : unit -> prog A) Mid Q :
  stab P Pre -> (forall w, GI w -> Pre w -> owner w !! id = Some P) ->
  (forall w, GI w -> Pre w -> Mid (at_cd w (delete id (cd w)))) -> (forall w, GI w -> Pre w -> faulted w = true -> Mid w) ->
  tri P Mid (k ()) Q -> tri P Pre (perform (RemoveContainerFile id) ≫= k) Q.
Proof.
intros Hs Hown Hok Hbad Hk. change (tri P Pre (Do (RemoveContainerFile id) k) Q). intros w Hi HP w1 Hr Hi1 c b w2. cbn. unfold on_disk. assert (Pre w1) as HP1 by (by eapply Hs).
pose proof (Hown w1 Hi1 HP1) as Ho. destruct (io_ok c); intros [= <- <-]; cbn [snd].
- change (set_disk w1 _) with (at_cd w1 (delete id (cd w1))). assert (GI (at_cd w1 (delete id (cd w1)))) as Hi2.
  { apply GI_cd; [done|apply map_Forall_delete, Hi1|]. intros Hc id' r' [Hne H]%lookup_delete_Some Es. destruct (gi_once _ Hi1 Hc id') as [_ H2]. by apply (H2 r'); [right|]. }
  split; [apply (G_cd P w1 id); [done|]; intros id' Hne; by rewrite lookup_delete_ne|]. split; [done|]. apply Hk; [done|]. by apply Hok.
- split; [auto with cri|]. split; [auto with cri|]. apply Hk; [auto with cri|]. apply Hbad; [auto with cri| |done]. eapply Hs; [exact HP1|auto with cri..].
Qed.

Lemma P_remove_sb_file {A} P Pre (k : unit -> prog A) Mid Q :
  stab P Pre -> (forall w, GI w -> Pre w -> Mid (at_sd w (delete P (sd w)))) -> (forall w, GI w -> Pre w -> faulted w = true -> Mid w) ->
  tri P Mid (k ()) Q -> tri P Pre (perform (RemoveSandboxFile P) ≫= k) Q.
Proof.
intros Hs Hok Hbad Hk. change (tri P Pre (Do (RemoveSandboxFile P) k) Q). intros w Hi HP w1 Hr Hi1 c b w2. cbn. unfold on_disk. assert (Pre w1) as HP1 by (by eapply Hs).
destruct (io_ok c); intros [= <- <-]; cbn [snd].
- change (set_disk w1 _) with (at_sd w1 (delete P (sd w1))). assert (GI (at_sd w1 (delete P (sd w1)))) as Hi2 by (apply GI_sd; [done|apply map_Forall_delete, Hi1]).
  split; [apply G_sd; intros S Hne; by rewrite lookup_delete_ne|]. split; [done|]. apply Hk; [done|]. by apply Hok.
- split; [auto with cri|]. split; [auto with cri|]. apply Hk; [auto with cri|]. apply Hbad; [auto with cri| |done]. eapply Hs; [exact HP1|auto with cri..].
Qed.
