(* ===== verification/CriCalls.v ===== *)
(** Every call leaves its pod as it found it: at rest, with the records on disk those of the
    cache unless a write failed, and with at most one process for each container. *)

From Stdlib Require Import ZArith Lia.
From S2P Require Import Prelude Text Error CriVocab CriBackend CriLogic CriPods.

(** * Identifiers and processes *)

Lemma prefix_inj pre pre' n c n' c' : (pre = str "sb-" \/ pre = str "ct-") -> (pre' = str "sb-" \/ pre' = str "ct-") -> make_id pre n c = make_id pre' n' c' -> pre = pre'.
Proof. intros [-> | ->] [-> | ->]; done. Qed.

Lemma fresh_id w pre n : GI w -> (pre = str "sb-" \/ pre = str "ct-") -> (boot w <= n <= clock w)%Z -> (counter w < 2 ^ 64)%Z -> owner w !! make_id pre n (counter w) = None.
Proof.
intros Hi Hpre Hn Hc. destruct (owner w !! make_id pre n (counter w)) as [pod|] eqn:E; [|done]. destruct (gi_owner _ Hi _ _ E) as [(pre' & n' & c' & Hp' & Eid & Hn' & Hc' & Hlt) _].
pose proof (gi_time _ Hi) as (Hb & Hk & Hc0). pose proof (prefix_inj _ _ _ _ _ _ Hpre Hp' Eid) as <-.
assert (n = n' /\ counter w = c') as [<- <-] by (apply (make_id_inj pre); unfold u64; lia || done). lia.
Qed.

Lemma issue_lookup w id pod id' S : owner w !! id = None -> owner w !! id' = Some S -> owner (issue w id pod) !! id' = Some S.
Proof. intros Hn Ho. cbn. rewrite lookup_insert_ne; [done|congruence]. Qed.

Lemma GI_issue w pre n pod :
  GI w -> (pre = str "sb-" \/ pre = str "ct-") -> (boot w <= n <= clock w)%Z -> (counter w < 2 ^ 64)%Z ->
  let id := make_id pre n (counter w) in pod = id \/ is_Some (owner w !! pod) -> GI (issue w id pod).
Proof.
intros Hi Hpre Hn Hc id Hpod. pose proof (fresh_id w pre n Hi Hpre Hn Hc) as Hfresh. fold id in Hfresh. pose proof (gi_time _ Hi) as (Hb & Hk & Hc0). pose proof Hi as [gi_cc0 gi_cd0 gi_sc0 gi_sd0 gi_procs0 gi_owner0 gi_time0 gi_once0].
assert (forall id' S, owner w !! id' = Some S -> owner (issue w id pod) !! id' = Some S) as Hown by (intros id' S; by apply issue_lookup).
split; try done.
- intros id' r H. destruct (gi_cc0 id' r H) as [? ?]. split; auto.
- intros id' r H. destruct (gi_cd0 id' r H) as [? ?]. split; auto.
- intros id' r H. destruct (gi_sc0 id' r H) as (? & ? & ?). split; auto.
- intros id' r H. destruct (gi_sd0 id' r H) as (? & ? & ?). split; auto.
- intros k p H. destruct (gi_procs0 k p H) as [S HS]. exists S. auto.
- change (map_Forall (fun id' pod' => issued (issue w id pod) id' /\ is_Some (owner (issue w id pod) !! pod')) (<[id := pod]> (owner w))). apply map_Forall_insert_2.
  + split; [exists pre, n, (counter w); cbn; repeat split; try done; lia|]. destruct Hpod as [->|[S HS]]; [cbn; rewrite lookup_insert_eq; eauto|exists S; auto].
  + intros id' pod' H. destruct (gi_owner0 id' pod' H) as [(pre' & n' & c' & H1 & H2 & H3 & H4 & H5) [S HS]]. split; [|exists S; auto]. apply (issued_later w); cbn; [lia|done|lia|]. by exists pre', n', c'.
- change (boot (issue w id pod)) with (boot w). change (clock (issue w id pod)) with (clock w). change (counter (issue w id pod)) with (counter w + 1)%Z. lia.
Qed.

Lemma G_issue P w id : owner w !! id = None -> G P w (issue w id P).
Proof.
intros Hn. split; try done; cbn; [by apply insert_subseteq|]. intros id' S [[<- <-]|[Hne H]]%lookup_insert_Some Hne'; done.
Qed.

Lemma P_new_id {A} P pre Pre (k : bytes -> prog A) Mid Q :
  (pre = str "sb-" \/ pre = str "ct-") -> stab P Pre -> (forall w, GI w -> Pre w -> is_Some (owner w !! P)) ->
  (forall w id, GI w -> Pre w -> owner w !! id = None -> Mid id (issue w id P)) -> (forall id, tri P (Mid id) (k id) Q) -> tri P Pre (new_id pre (Some P) ≫= k) Q.
Proof.
intros Hpre Hs Hpod Hmid Hk. change (tri P Pre (Do Now (fun n => Do (FetchId pre n (Some P)) k)) Q).
intros w Hi HP w1 Hr Hi1 c n w2. cbn. destruct (tick c w1) as [w1'|] eqn:Et; [|done]. cbn. intros [= <- <-]. apply tick_same in Et as (Hsame & Hclk & Ht).
split; [by apply same_G|]. assert (GI w1') as Hi2 by (by eapply same_GI). split; [done|]. intros w3 Hr3 Hi3 c3 id w4.
assert (Pre w3) as HP3 by (eapply Hs; [|done|done]; eapply Hs; [|by apply same_R|done]; by eapply Hs).
destruct (bool_decide _) eqn:Ec; [|done]. apply bool_decide_eq_true in Ec. intros [= <- <-].
assert (boot w3 <= at_time c <= clock w3)%Z as Hn. { rewrite (r_boot _ _ _ Hr3). pose proof (gi_time _ Hi2). pose proof (r_clock _ _ _ Hr3). lia. }
pose proof (fresh_id w3 pre (at_time c) Hi3 Hpre Hn Ec) as Hfresh. change (default _ (Some P)) with P.
assert (GI (issue w3 (make_id pre (at_time c) (counter w3)) P)) as Hi4 by (apply GI_issue; auto).
split; [by apply G_issue|]. split; [done|]. apply Hk; [done|]. by apply Hmid.
Qed.

Lemma P_spawn {A} P id Pre (k : bytes + Z -> prog A) Mid Q :
  stab P Pre ->
  (forall w, GI w -> Pre w -> owner w !! id = Some P /\ (cni_on w = false -> none_of w id /\ forall r, cc w !! id = Some r \/ cd w !! id = Some r -> ct_state r <> Created)) ->
  (forall w e, GI w -> Pre w -> Mid (inl e) w) ->
  (forall w child, GI w -> Pre w -> procs w !! child = None -> Mid (inr child) (set_procs w (<[child := mkProc id false None NoReaper]> (procs w)))) ->
  (forall b, tri P (Mid b) (k b) Q) -> tri P Pre (perform (Spawn id) ≫= k) Q.
Proof.
intros Hs Hown Hbad Hok Hk. change (tri P Pre (Do (Spawn id) k) Q). intros w Hi HP w1 Hr Hi1 c b w2. cbn. assert (Pre w1) as HP1 by (by eapply Hs). destruct (Hown w1 Hi1 HP1) as [Ho Honce].
destruct (go c); [|intros [= <- <-]; split; [by apply same_G, same_refl|]; split; [done|]; apply Hk; auto].
destruct (procs w1 !! val c) eqn:Ev; [done|]. case_bool_decide; [|done]. intros [= <- <-]. set (w' := set_procs _ _).
assert (forall k p, procs w' !! k = Some p -> p_ctr p = id \/ procs w1 !! k = Some p) as Hpr by (intros k' p Hp; cbn in Hp; apply lookup_insert_Some in Hp as [[_ <-]|[_ Hp]]; auto).
assert (G P w1 w') as Hg.
{ split; try done. intros k' p S HS Hne. cbn. destruct (decide (k' = val c)) as [->|Hk']; [|by rewrite lookup_insert_ne]. rewrite lookup_insert_eq, Ev. split; [done|]. intros [= <-]. cbn in HS. congruence. }
assert (GI w') as Hi'.
{ pose proof Hi1 as [gi_cc0 gi_cd0 gi_sc0 gi_sd0 gi_procs0 gi_owner0 gi_time0 gi_once0]. split; try done; [by apply map_Forall_insert_2; [cbn; exists P|]|]. intros Hc id'. destruct (gi_once0 Hc id') as [F1 F2]. destruct (Honce Hc) as [N1 N2].
  destruct (decide (id' = id)) as [->|Hid].
  - split; [|intros r Hr' Es; by destruct (N2 r Hr')]. intros k1 k2 p1 p2 H1 H2 E1 E2. cbn in H1, H2.
    apply lookup_insert_Some in H1 as [[<- <-]|[_ H1]]; [|by destruct (N1 k1 p1 H1)]. apply lookup_insert_Some in H2 as [[<- _]|[_ H2]]; [done|by destruct (N1 k2 p2 H2)].
  - assert (forall k p, procs w' !! k = Some p -> p_ctr p = id' -> procs w1 !! k = Some p) as Hpr' by (intros k' p Hp Ep; destruct (Hpr k' p Hp); [congruence|done]).
    split; [intros k1 k2 p1 p2 H1 H2 E1 E2; apply (F1 k1 k2 p1 p2); auto|]. intros r Hr' Es k' p Hp Ep. by apply (F2 r Hr' Es k' p); auto. }
split; [done|]. split; [done|]. apply Hk; [done|]. by apply Hok.
Qed.

Lemma P_reaper {A} P id child Pre (k : unit -> prog A) Mid Q :
  stab P Pre -> (forall w, GI w -> Pre w -> owner w !! id = Some P /\ exists p, procs w !! child = Some p /\ p_ctr p = id) ->
  (forall w p, GI w -> Pre w -> procs w !! child = Some p -> p_ctr p = id -> Mid (set_reaper w child p Waiting)) -> tri P Mid (k ()) Q -> tri P Pre (perform (StartReaper child) ≫= k) Q.
Proof.
intros Hs Hown Hmid Hk. change (tri P Pre (Do (StartReaper child) k) Q). intros w Hi HP w1 Hr Hi1 c b w2. cbn. assert (Pre w1) as HP1 by (by eapply Hs). destruct (Hown w1 Hi1 HP1) as (Ho & p & Hp & Ep).
rewrite Hp. intros [= <- <-]. change (set_procs w1 _) with (set_reaper w1 child p Waiting). set (w' := set_reaper _ _ _ _).
assert (forall k q, procs w' !! k = Some q -> exists q', procs w1 !! k = Some q' /\ p_ctr q' = p_ctr q) as Hpr by (intros k' q Hq; cbn in Hq; apply lookup_insert_Some in Hq as [[<- <-]|[_ Hq]]; eauto).
assert (G P w1 w') as Hg.
{ split; try done. intros k' q S HS Hne. cbn. destruct (decide (k' = child)) as [->|Hk']; [|by rewrite lookup_insert_ne]. rewrite lookup_insert_eq, Hp. split; intros [= <-]; cbn in HS; congruence. }
assert (GI w') as Hi'.
{ pose proof Hi1 as [gi_cc0 gi_cd0 gi_sc0 gi_sd0 gi_procs0 gi_owner0 gi_time0 gi_once0]. split; try done; [apply map_Forall_insert_2; [cbn; rewrite Ep, Ho; eauto|done]|]. intros Hc id'. destruct (gi_once0 Hc id') as [F1 F2]. split.
  - intros k1 k2 p1 p2 H1 H2 E1 E2. destruct (Hpr _ _ H1) as (q1 & Q1 & X1), (Hpr _ _ H2) as (q2 & Q2 & X2). apply (F1 k1 k2 q1 q2); congruence.
  - intros r Hr' Es k' q Hq. destruct (Hpr _ _ Hq) as (q' & Q1 & X1). rewrite <- X1. by eapply F2. }
split; [done|]. split; [done|]. apply Hk; [done|]. by apply Hmid.
Qed.

(** * Stopping and removing containers *)

Definition QO (P id : bytes) (w : world) : Prop := Quiet P w /\ owner w !! id = Some P.

Lemma QO_stable P id : stab P (QO P id).
Proof. apply stable_and; [apply Quiet_stable|apply owner_stable]. Qed.

(** A container whose entry is gone or final: no thread changes it any more. *)
Definition Settled (P id : bytes) (r : option ContainerRecord) (w : world) : Prop :=
  Others P id w /\ owner w !! id = Some P /\ cc w !! id = r /\ forall q, r = Some q -> ct_state q = Exited.

Lemma Settled_stable P id r : stab P (Settled P id r).
Proof.
intros w1 w2 (H1 & Ho & Hc & Hs) Hr Hi. split; [by eapply Others_stable|]. split; [by eapply owner_stable|]. split; [|done].
destruct (r_ct _ _ _ Hr id Ho) as [[C _]|(q & q' & C & Er & _)]; [by rewrite C|]. rewrite Hc in C. by rewrite (Hs q C) in Er.
Qed.

Lemma Settled_QO P id r w : Settled P id r w -> (faulted w = false -> cd w !! id = r) -> QO P id w.
Proof.
intros (H1 & Ho & Hc & Hs) Hd. split; [|done]. apply (Others_Quiet P id); [done|]. split; [by rewrite Hc|]. intros q Hq Es. rewrite Hc in Hq. by rewrite (Hs q Hq) in Es.
Qed.

Lemma drop_fact {A} P (Pre X : world -> Prop) (p : prog A) Q : tri P Pre p Q -> tri P (fun w => Pre w /\ X w) p Q.
Proof. intros H. eapply t_pre; [exact H|]. by intros w _ [? _]. Qed.

Lemma persist_tail P Pre r Q : tri P Pre (persist r ≫= Ret) Q -> tri P Pre (persist r) Q.
Proof. done. Qed.

(** What a change of an entry of the pod has to satisfy. *)
Lemma change_entry P w id r r' :
  GI w -> owner w !! id = Some P -> cc w !! id = Some r -> ct_id r' = ct_id r -> ct_sandbox r' = ct_sandbox r -> (ct_state r' = Created -> cni_on w = true \/ ct_state r = Created) ->
  G P w (at_cc w (<[id := r']> (cc w))) /\ GI (at_cc w (<[id := r']> (cc w))).
Proof.
intros Hi Ho Hc E1 E2 Hs. split; [apply (G_cc P w id); [done|]; intros id' Hne; by rewrite lookup_insert_ne|]. apply GI_cc; [done| |].
- apply map_Forall_insert_2; [|apply Hi]. destruct (gi_cc _ Hi id r Hc) as [? ?]. split; congruence.
- intros Hcni id' q [[<- <-]|[Hne H]]%lookup_insert_Some Es.
  + destruct (Hs Es) as [?|Er]; [congruence|]. destruct (gi_once _ Hi Hcni id) as [_ H2]. by apply (H2 r); [left|].
  + destruct (gi_once _ Hi Hcni id') as [_ H2]. by apply (H2 q); [left|].
Qed.

Lemma Others_at_cc P id w x : Others P id w -> Others P id (at_cc w (<[id := x]> (cc w))).
Proof. intros [H1 H2]. split; [done|]. intros id' Hne Ho. destruct (H2 id' Hne Ho) as [Q1 Q2]. split; cbn; rewrite lookup_insert_ne by done; [exact Q1|exact Q2]. Qed.
Lemma Others_at_cd P id w x : Others P id w -> Others P id (at_cd w (<[id := x]> (cd w))).
Proof. intros [H1 H2]. split; [done|]. intros id' Hne Ho. destruct (H2 id' Hne Ho) as [Q1 Q2]. split; cbn; rewrite ?lookup_insert_ne by done; [exact Q1|exact Q2]. Qed.

(** The record of a settled entry is written. *)
Lemma settled_persist P id r : tri P (Settled P id (Some r)) (persist r) (fun _ => QO P id).
Proof.
apply persist_tail. eapply (P_persist P _ r _ (fun _ => QO P id)); [apply Settled_stable| | | |].
- intros w Hi (H1 & Ho & Hc & Hs). destruct (gi_cc _ Hi id r Hc) as [-> E]. split; [done|]. split; [congruence|]. intros _ Es. by rewrite (Hs r eq_refl) in Es.
- intros w Hi (H1 & Ho & Hc & Hs). destruct (gi_cc _ Hi id r Hc) as [-> E]. apply (Settled_QO P id (Some r)); [|intros _; cbn; by rewrite lookup_insert_eq].
  split; [by apply Others_at_cd|done].
- intros w Hi Hw Hf. apply (Settled_QO P id (Some r)); [done|]. by rewrite Hf.
- intros b. apply P_ret; [apply QO_stable|done].
Qed.

Lemma set_cache_same w : set_cache w (cache w) = w.
Proof. by destruct w. Qed.

Ltac quiet_step := apply P_silent; [done|apply QO_stable|intros ?].
Ltac quiet_ret := apply P_ret; [apply QO_stable|done].

Lemma cgroup_stop_ok P id grace : tri P (QO P id) (cgroup_stop id grace) (fun _ => QO P id).
Proof. unfold cgroup_stop. case_bool_decide; repeat quiet_step; quiet_ret. Qed.

Lemma stop_container_ok P id grace : tri P (QO P id) (stop_container id grace) (fun _ => QO P id).
Proof.
unfold stop_container. apply P_peek; [apply QO_stable|]. intros [rec|]; apply drop_fact; [|quiet_ret]. destruct (ct_state rec); try quiet_ret.
destruct (_ && _); [apply (P_bind P _ (fun _ => QO P id)); [apply cgroup_stop_ok|intros _; quiet_ret]|].
case_bool_decide; [case_bool_decide; [quiet_step; quiet_step; destruct b0; [quiet_ret|]; repeat quiet_step; quiet_ret|repeat quiet_step; quiet_ret]|].
apply (P_locked P _ _ _ (fun b w => match b with Some r => Settled P id (Some r) w | None => QO P id w end)).
- apply QO_stable.
- intros w t Hi [Hq Ho]. destruct (cc w !! id) as [r|] eqn:Ec; [case_bool_decide as Er|]; cbn [fst snd];
    [|rewrite set_cache_same; split; [apply same_G, same_refl|done]..].
  destruct (change_entry P w id r (stopped grace t r)) as [H1 H2]; try done. split; [done|]. split; [done|].
  split; [by apply Others_at_cc, Quiet_Others|]. split; [done|]. split; [cbn; apply lookup_insert_eq|]. by intros q [= <-].
- intros [r|]; [apply settled_persist|quiet_ret].
Qed.

Lemma remove_container_ok P id : tri P (QO P id) (remove_container id) (fun _ => QO P id).
Proof.
unfold remove_container. apply P_peek; [apply QO_stable|]. intros [rec|]; apply drop_fact; [|quiet_ret].
apply (P_try P _ (fun _ => QO P id)); [case_bool_decide; [apply stop_container_ok|quiet_ret]|by intros e w _ H; split; [apply QO_stable|]|]. intros _.
unfold change. apply (P_locked P _ _ _ (fun _ => Settled P id None)); [apply QO_stable| |].
- intros w t Hi [Hq Ho]. cbn [fst snd]. change (set_cache w _) with (at_cc w (delete id (cc w))). split; [apply (G_cc P w id); [done|]; intros id' Hne; by rewrite lookup_delete_ne|]. split.
  + apply GI_cc; [done|apply map_Forall_delete, Hi|]. intros Hc id' q [Hne H]%lookup_delete_Some Es. destruct (gi_once _ Hi Hc id') as [_ H2]. by apply (H2 q); [left|].
  + split; [|split; [done|]; split; [cbn; apply lookup_delete_eq|done]]. destruct Hq as [H1 H2]. split; [done|]. intros id' Hne Ho'. destruct (H2 id' Ho') as [Q1 Q2]. split; cbn; rewrite lookup_delete_ne by done; [exact Q1|exact Q2].
- intros _. apply (P_remove_file P _ id _ (QO P id)); [apply Settled_stable|by intros w _ (_ & Ho & _)| | |quiet_ret].
  + intros w Hi (H1 & Ho & Hc & Hs). apply (Settled_QO P id None); [|intros _; cbn; apply lookup_delete_eq]. split; [|done]. destruct H1 as [H1 H2]. split; [done|].
    intros id' Hne Ho'. destruct (H2 id' Hne Ho') as [Q1 Q2]. split; cbn; rewrite ?lookup_delete_ne by done; [exact Q1|exact Q2].
  + intros w Hi Hw Hf. apply (Settled_QO P id None); [done|]. by rewrite Hf.
Qed.

(** * Pods *)

(** Facts that no operation undoes. *)
Lemma P_frame {A} P (F Pre : world -> Prop) (p : prog A) Q :
  stab P F -> (forall w1 w2, G P w1 w2 -> F w1 -> F w2) -> tri P Pre p Q -> tri P (fun w => Pre w /\ F w) p (fun a w => Q a w /\ F w).
Proof.
intros HR HG Hp w Hi [HP HF]. specialize (Hp w Hi HP). clear HP. revert w Hi HF Hp. induction p as [a|B o k IH]; intros w Hi HF; cbn; [intros H w1 Hr Hi1; split; [by apply H|eapply HR; eassumption]|].
intros H w1 Hr Hi1 c b w2 E. destruct (H w1 Hr Hi1 c b w2 E) as (HG' & HI & HK). split; [done|]. split; [done|]. apply IH; [done| |done]. eapply HG; [exact HG'|]. eapply HR; [exact HF|exact Hr|exact Hi1].
Qed.

Definition All_own (P : bytes) (ids : list bytes) (w : world) : Prop := Forall (fun id => owner w !! id = Some P) ids.

Lemma All_own_stable P ids : stab P (All_own P ids).
Proof. intros w1 w2 H Hr Hi. eapply Forall_impl; [exact H|]. intros id Ho. exact (owner_stable P id P w1 w2 Ho Hr Hi). Qed.
Lemma All_own_G P ids w1 w2 : G P w1 w2 -> All_own P ids w1 -> All_own P ids w2.
Proof. intros Hg H. eapply Forall_impl; [exact H|]. intros id Ho. exact (lookup_weaken _ _ _ _ Ho (g_own _ _ _ Hg)). Qed.

Lemma remove_all_ok P ids : tri P (fun w => Quiet P w /\ All_own P ids w) (remove_all ids) (fun _ => Quiet P).
Proof.
induction ids as [|cid ids IH]; cbn [remove_all]; [apply P_ret; [apply stable_and; [apply Quiet_stable|apply All_own_stable]|by intros w _ [? _]]|].
assert (stab P (fun w => QO P cid w /\ All_own P ids w)) as Hst by (apply stable_and; [apply QO_stable|apply All_own_stable]).
eapply t_pre; [|intros w _ [Hq [Ho Hall]%Forall_cons]; exact (conj (conj Hq Ho) Hall)].
apply (P_try P _ (fun _ w => QO P cid w /\ All_own P ids w)); [apply P_frame; [apply All_own_stable|apply All_own_G|apply stop_container_ok]|by intros e w _ H; split; [|apply H]|].
intros _. apply (P_try P _ (fun _ w => QO P cid w /\ All_own P ids w)); [apply P_frame; [apply All_own_stable|apply All_own_G|apply remove_container_ok]|by intros e w _ H; split; [|apply H]|].
intros _. eapply t_pre; [exact IH|]. by intros w _ [[H1 _] H2].
Qed.

Lemma Quiet_split P w : Quiet P w <-> sb_quiet P w /\ Contents P w.
Proof. done. Qed.

Definition SbSet (P : bytes) (r : option SandboxRecord) (w : world) : Prop := Contents P w /\ sc w !! P = r.

Lemma SbSet_stable P r : stab P (SbSet P r).
Proof. apply stable_and; [apply Contents_stable|]. intros w1 w2 H Hr _. by rewrite (r_sc _ _ _ Hr). Qed.

Lemma SbSet_Quiet P r w : SbSet P r w -> (faulted w = false -> sd w !! P = r) -> Quiet P w.
Proof. intros [H1 H2] H. split; [|done]. intros F. by rewrite H2, H. Qed.

Lemma stop_sandbox_ok P : tri P (Quiet P) (stop_sandbox P) (fun _ => Quiet P).
Proof.
unfold stop_sandbox. apply (P_locked P _ _ _ (fun b w => match b with Some r => SbSet P (Some r) w | None => Quiet P w end)); [apply Quiet_stable| |].
- intros w t Hi [Hq Hc]. destruct (sc w !! P) as [r|] eqn:Es; [case_bool_decide|]; cbn [fst snd]; [rewrite set_cache_same; split; [apply same_G, same_refl|done]| |rewrite set_cache_same; split; [apply same_G, same_refl|done]].
  change (set_cache w _) with (at_sc w (<[P := not_ready r]> (sc w))). split; [apply G_sc; intros S Hne; by rewrite lookup_insert_ne|]. split; [apply GI_sc; [done|]; apply map_Forall_insert_2; [exact (gi_sc _ Hi P r Es)|apply Hi]|].
  split; [exact Hc|cbn; apply lookup_insert_eq].
- intros [r|]; [|apply P_ret; [apply Quiet_stable|done]]. change (tri P (SbSet P (Some r)) (perform (PersistSandbox r) ≫= Ret) (fun _ => Quiet P)).
  apply (P_persist_sb P _ r _ (fun _ => Quiet P)); [apply SbSet_stable| | | |].
  + intros w Hi [Hc Hs]. exact (gi_sc _ Hi P r Hs).
  + intros w Hi [Hc Hs]. destruct (gi_sc _ Hi P r Hs) as (-> & _). apply (SbSet_Quiet P (Some r)); [by split|]. intros _. cbn. apply lookup_insert_eq.
  + intros w Hi Hw Hf. apply (SbSet_Quiet P (Some r)); [done|]. by rewrite Hf.
  + intros b. apply P_ret; [apply Quiet_stable|done].
Qed.

Lemma elem_of_values {A} (m : gmap bytes A) r : r ∈ values m -> exists id, m !! id = Some r.
Proof.
unfold values. intros ([id r'] & -> & H)%list_elem_of_fmap. exists id. apply elem_of_map_to_list. by rewrite (sort_by_perm _ (map_to_list m)) in H.
Qed.

Lemma pod_contents_own P w ids n : GI w -> pod_contents (cache w) P = Some (ids, n) -> All_own P ids w.
Proof.
intros Hi. unfold pod_contents. destruct (sc w !! P) as [sb|]; [|done]. intros [= <- _]. apply Forall_forall. intros id (r & -> & Hr)%list_elem_of_fmap.
apply list_elem_of_In, filter_In in Hr as [Hr%list_elem_of_In E]. apply bool_decide_eq_true in E. apply elem_of_values in Hr as [id Hr]. destruct (gi_cc _ Hi id r Hr) as [-> Ho]. by rewrite E in Ho.
Qed.

Lemma remove_sandbox_ok P : tri P (Quiet P) (remove_sandbox P) (fun _ => Quiet P).
Proof.
unfold remove_sandbox. apply (P_try P _ (fun _ => Quiet P)); [apply stop_sandbox_ok|by intros e w _ H; split; [apply Quiet_stable|]|]. intros _.
apply P_peek; [apply Quiet_stable|]. intros [[ids netns]|]; [|apply drop_fact, P_ret; [apply Quiet_stable|done]].
apply (P_try P _ (fun _ => Quiet P)); [|by intros e w _ H; split; [apply Quiet_stable|]|].
- eapply t_pre; [apply remove_all_ok|]. intros w Hi [Hq E]. split; [done|]. by eapply pod_contents_own.
- intros _. apply (P_bind P _ (fun _ => Quiet P)); [destruct netns; [apply P_silent; [done|apply Quiet_stable|]; intros _|]; (apply P_ret; [apply Quiet_stable|done])|]. intros _.
  apply (P_locked P _ _ _ (fun (b : bool) w => if b then Quiet P w else SbSet P None w)); [apply Quiet_stable| |].
  + intros w t Hi [Hq Hc]. destruct (sc w !! P) as [r|] eqn:Es; cbn [fst snd]; [|rewrite set_cache_same; split; [apply same_G, same_refl|done]].
    change (set_cache w _) with (at_sc w (delete P (sc w))). split; [apply G_sc; intros S Hne; by rewrite lookup_delete_ne|]. split; [apply GI_sc; [done|]; apply map_Forall_delete, Hi|].
    split; [exact Hc|cbn; apply lookup_delete_eq].
  + intros [|]; [apply P_ret; [apply Quiet_stable|done]|]. apply (P_remove_sb_file P _ _ (Quiet P)); [apply SbSet_stable| | |apply P_ret; [apply Quiet_stable|done]].
    * intros w Hi [Hc Hs]. apply (SbSet_Quiet P None); [by split|]. intros _. cbn. apply lookup_delete_eq.
    * intros w Hi Hw Hf. apply (SbSet_Quiet P None); [done|]. by rewrite Hf.
Qed.

(** * Creating *)

Lemma t_exists {A X} P (Pre : X -> world -> Prop) (p : prog A) Q : (forall x, tri P (Pre x) p Q) -> tri P (fun w => exists x, Pre x w) p Q.
Proof. intros H w Hi [x Hx]. by eapply H. Qed.

Lemma t_pure {A} P (X : Prop) Pre (p : prog A) Q : (X -> tri P Pre p Q) -> tri P (fun w => X /\ Pre w) p Q.
Proof. intros H w Hi [HX HP]. by apply H. Qed.

Definition IQ (P : bytes) (w : world) : Prop := Quiet P w /\ exists S, owner w !! P = Some S.

Lemma IQ_stable P : stab P (IQ P).
Proof. apply stable_and; [apply Quiet_stable|]. intros w1 w2 [S H] Hr Hi. exists S. exact (owner_stable P P S w1 w2 H Hr Hi). Qed.

Lemma fresh_unused w id : GI w -> owner w !! id = None -> cc w !! id = None /\ cd w !! id = None /\ none_of w id.
Proof.
intros Hi Hn. split; [|split].
- destruct (cc w !! id) as [r|] eqn:E; [|done]. destruct (gi_cc _ Hi id r E) as [_ H]. by rewrite H in Hn.
- destruct (cd w !! id) as [r|] eqn:E; [|done]. destruct (gi_cd _ Hi id r E) as [_ H]. by rewrite H in Hn.
- intros k p Hp E. destruct (gi_procs _ Hi k p Hp) as [S HS]. congruence.
Qed.

Lemma held_fresh P w id : GI w -> Quiet P w -> owner w !! id = None -> Held P id None None (issue w id P) /\ none_of (issue w id P) id.
Proof.
intros Hi [H1 H2] Hn. destruct (fresh_unused w id Hi Hn) as (C & D & N). split; [|done]. split; [split; [done|]|].
- intros id' Hne Ho. cbn in Ho. rewrite lookup_insert_ne in Ho by done. exact (H2 id' Ho).
- split; [split; [cbn; apply lookup_insert_eq|]|done]. intros k p Hp E. by destruct (N k p Hp).
Qed.

Definition HeldN (P id : bytes) (c d : option ContainerRecord) (w : world) : Prop := Held P id c d w /\ owner w !! id = Some P /\ none_of w id.
Lemma HeldN_stable P id c d : stab P (HeldN P id c d).
Proof. apply stable_and; [apply Held_stable|apply none_of_stable]. Qed.

Lemma Held_cd P id c d x w : Held P id c d w -> Held P id c (Some x) (at_cd w (<[id := x]> (cd w))).
Proof. intros (H1 & H2 & H3 & H4). split; [by apply Others_at_cd|]. split; [done|]. split; [done|]. cbn. apply lookup_insert_eq. Qed.
Lemma Held_cc P id c d x w : Held P id c d w -> Held P id (Some x) d (at_cc w (<[id := x]> (cc w))).
Proof. intros (H1 & H2 & H3 & H4). split; [by apply Others_at_cc|]. split; [done|]. split; [cbn; apply lookup_insert_eq|done]. Qed.

Lemma create_container_ok P cfg : tri P (IQ P) (create_container P cfg) (fun _ => Quiet P).
Proof.
unfold create_container. destruct (container_validate cfg); [apply P_ret; [apply IQ_stable|by intros w _ [? _]]|].
apply (P_try P _ (fun _ => IQ P)).
{ unfold ensure_sandbox_ready. apply P_peek; [apply IQ_stable|]. intros [sb|]; apply drop_fact; [case_bool_decide|]; (apply P_ret; [apply IQ_stable|done]). }
{ intros e w _ H. split; [apply IQ_stable|apply H]. }
intros _. apply (P_new_id P (str "ct-") _ _ (fun id => HeldN P id None None)); [by right|apply IQ_stable|by intros w _ [_ [S H]]; exists S| |].
{ intros w id Hi [Hq _] Hn. destruct (held_fresh P w id Hi Hq Hn) as [H1 H2]. split; [done|]. split; [apply H1|done]. }
intros id. apply P_silent; [done|apply HeldN_stable|]. intros t. cbv zeta. set (rec := mkContainerRecord _ _ _ _ _ _ _ _ _ _ _ _ _).
unfold try_then. eapply (P_persist P _ rec _ (fun b w => match b with inr _ => HeldN P id None (Some rec) w | inl _ => Quiet P w end)); [apply HeldN_stable| | | |].
- by intros w Hi (H1 & Ho & Hn).
- intros w Hi (H1 & Ho & Hn). split; [by apply (Held_cd P id None None rec)|done].
- intros w Hi (H1 & _) Hf. apply (Held_Quiet P id None None w H1). done.
- intros [e|?]; [apply P_ret; [apply Quiet_stable|done]|]. unfold change. apply (P_locked P _ _ _ (fun _ => Held P id (Some rec) (Some rec))); [apply HeldN_stable| |].
  + intros w t' Hi (H1 & Ho & Hn). cbn [fst snd]. change (set_cache w _) with (at_cc w (<[id := rec]> (cc w))). split; [apply (G_cc P w id); [done|]; intros id' Hne; by rewrite lookup_insert_ne|]. split; [|by eapply Held_cc].
    apply GI_cc; [done|apply map_Forall_insert_2; [done|apply Hi]|]. intros Hc id' q [[<- <-]|[Hne H]]%lookup_insert_Some Es; [done|]. destruct (gi_once _ Hi Hc id') as [_ H2]. by apply (H2 q); [left|].
  + intros _. apply P_ret; [apply Held_stable|]. intros w _ H. by eapply Held_Quiet.
Qed.

(** * Starting *)

(** A change of the entry and of the record on disk, while no thread waits for a process of
    the container. *)
Lemma held_change P id r d g N :
  stab P N -> (forall w m, N w -> N (at_cc w m)) -> (forall w m, N w -> N (at_cd w m)) -> (forall t, ct_id (g t r) = ct_id r /\ ct_sandbox (g t r) = ct_sandbox r) ->
  (forall t, ct_state (g t r) = Created -> ct_state r = Created) -> (forall w t, N w -> cni_on w = false -> ct_state (g t r) = Created -> none_of w id) ->
  tri P (fun w => Held P id (Some r) d w /\ N w) (record_change id g)
    (fun b w => match b with inl _ => Quiet P w | inr _ => exists t, Held P id (Some (g t r)) (Some (g t r)) w /\ N w end).
Proof.
intros HN Ncc Ncd Hg Hs Hn. unfold record_change, update.
apply (P_locked P _ _ _ (fun b w => exists t, b = Some (g t r) /\ rec_ok w id (g t r) /\ Held P id (Some (g t r)) d w /\ N w)); [apply stable_and; [apply Held_stable|done]| |].
- intros w t Hi [HH HNw]. pose proof HH as (_ & [Ho _] & Hc & _). rewrite Hc. cbn [fst snd]. change (set_cache w _) with (at_cc w (<[id := g t r]> (cc w))).
  destruct (change_entry P w id r (g t r)) as [H1 H2]; try apply Hg; try done; [by right; apply (Hs t)|]. split; [done|]. split; [done|]. exists t. split; [done|].
  split; [|split; [by eapply Held_cc|by apply Ncc]]. destruct (gi_cc _ Hi id r Hc), (Hg t). split; cbn; congruence.
- intros b. apply t_exists. intros t. apply t_pure. intros ->.
  assert (stab P (fun w => rec_ok w id (g t r) /\ Held P id (Some (g t r)) d w /\ N w)) as Hst.
  { apply stable_and; [|apply stable_and; [apply Held_stable|done]]. intros w1 w2 [H1 H2] Hr Hi. split; [done|]. exact (owner_stable P id _ w1 w2 H2 Hr Hi). }
  apply persist_tail. eapply (P_persist P _ (g t r) _ (fun b w => match b with inl _ => Quiet P w | inr _ => exists t, Held P id (Some (g t r)) (Some (g t r)) w /\ N w end)); [done| | | |].
  + intros w Hi ([-> E] & HH & HNw). pose proof HH as (_ & [Ho _] & _). split; [done|]. split; [congruence|]. intros Hc Es. by eapply Hn.
  + intros w Hi ([-> E] & HH & HNw). exists t. split; [by eapply Held_cd|by apply Ncd].
  + intros w Hi (_ & HH & _) Hf. eapply Held_Quiet; [done|]. by rewrite Hf.
  + intros [e|u]; [apply P_ret; [apply Quiet_stable|done]|]. apply P_ret; [|done]. intros w1 w2 [t' [H1 H2]] Hr Hi. exists t'. split; [by eapply Held_stable|by eapply HN].
Qed.

Lemma held_failure P id r d code why msg : tri P (Held P id (Some r) d) (record_failure id code why msg) (fun _ => Quiet P).
Proof.
unfold record_failure, update. apply (P_locked P _ _ _ (fun b w => exists t, b = Some (failed code why msg t r) /\ Settled P id (Some (failed code why msg t r)) w)); [apply Held_stable| |].
- intros w t Hi HH. pose proof HH as (Hot & [Ho _] & Hc & _). rewrite Hc. cbn [fst snd]. change (set_cache w _) with (at_cc w (<[id := failed code why msg t r]> (cc w))).
  destruct (change_entry P w id r (failed code why msg t r)) as [H1 H2]; try done. split; [done|]. split; [done|]. exists t. split; [done|].
  split; [by apply Others_at_cc|]. split; [done|]. split; [cbn; apply lookup_insert_eq|by intros q [= <-]].
- intros b. apply t_exists. intros t. apply t_pure. intros ->.
  apply (P_bind P _ (fun _ => QO P id)); [apply settled_persist|]. intros _. apply P_ret; [apply QO_stable|by intros w _ [? _]].
Qed.

(** The child of a call that starts a container. *)
Definition Child (P id : bytes) (child : Z) (w : world) : Prop := owner w !! id = Some P /\ exists p, procs w !! child = Some p /\ p_ctr p = id.
Lemma Child_stable P id child : stab P (Child P id child).
Proof.
intros w1 w2 (Ho & p & Hp & E) Hr Hi. split; [by eapply owner_stable|]. destruct (r_pr1 _ _ _ Hr child p Hp) as (p' & Hp' & E' & _); [by rewrite E|]. exists p'. split; [done|congruence].
Qed.

Lemma wait_exec_ready_ok P id child r d :
  tri P (fun w => Held P id (Some r) d w /\ Child P id child w) (wait_exec_ready id child)
    (fun b w => match b with inl _ => Quiet P w | inr _ => Held P id (Some r) d w /\ Child P id child w end).
Proof.
assert (stab P (fun w => Held P id (Some r) d w /\ Child P id child w)) as Hst by (apply stable_and; [apply Held_stable|apply Child_stable]).
unfold wait_exec_ready. apply P_silent; [done|done|]. intros [|msg|]; [by apply P_ret|..].
all: repeat (apply P_silent; [done|done|intros _]); apply drop_fact.
all: (apply (P_bind P _ (fun _ => Quiet P)); [apply held_failure|intros _; apply P_ret; [apply Quiet_stable|done]]).
Qed.

Lemma reaper_quiet P id child r w p :
  Held P id (Some r) (Some r) w -> ct_state r = Running -> procs w !! child = Some p -> p_ctr p = id -> Quiet P (set_reaper w child p Waiting).
Proof.
intros ([H1 H2] & [Ho Hn] & Hc & Hd) Er Hp E. split; [done|]. intros id' Ho'. destruct (decide (id' = id)) as [->|Hne].
- split; [intros _; cbn; by rewrite Hc, Hd|]. intros q Hq Es. cbn in Hq. rewrite Hc in Hq. injection Hq as <-. by rewrite Er in Es.
- destruct (H2 id' Hne Ho') as [Q1 Q2]. split; [exact Q1|]. intros q Hq Es k p' Hk Ek. cbn in Hk. apply lookup_insert_Some in Hk as [[<- <-]|[_ Hk]]; [cbn in Ek; congruence|]. by apply (Q2 q Hq Es k p').
Qed.

Lemma launch_ok P id ns r :
  tri P (fun w => Held P id (Some r) (Some r) w /\ (cni_on w = false -> owner w !! id = Some P /\ none_of w id) /\ (cni_on w = false -> ct_state r <> Created)) (launch id ns) (fun _ => Quiet P).
Proof.
assert (stab P (fun w => cni_on w = false -> owner w !! id = Some P /\ none_of w id)) as Hsn.
{ intros w1 w2 H Hr Hi Hc. eapply none_of_stable; [apply H; by rewrite <- (r_cni _ _ _ Hr)|done|done]. }
assert (stab P (fun w => cni_on w = false -> ct_state r <> Created)) as Hsc by (intros w1 w2 H Hr _ Hc; apply H; by rewrite <- (r_cni _ _ _ Hr)).
match goal with |- tri P ?pre _ _ => assert (stab P pre) as Hst by (apply stable_and; [apply Held_stable|by apply stable_and]) end.
unfold launch, with_spawn_lock. apply P_silent; [done|exact Hst|]. intros _.
apply (P_bind P _ (fun _ => Quiet P)); [|intros a; apply P_silent; [done|apply Quiet_stable|]; intros _; apply P_ret; [apply Quiet_stable|done]].
apply (P_spawn P id _ _ (fun b w => match b with inl _ => Held P id (Some r) (Some r) w | inr child => Held P id (Some r) (Some r) w /\ Child P id child w end)); [exact Hst| | | |].
- intros w Hi (HH & HN & HC). pose proof HH as (_ & [Ho _] & Hc & Hd). split; [done|]. intros Hcni. split; [by apply HN|]. rewrite Hc, Hd. intros q [[= <-]|[= <-]]; by apply HC.
- by intros w e Hi [? _].
- intros w child Hi (HH & _) Hnew. pose proof HH as ([H1 H2] & [Ho Hn] & Hc & Hd). split; [|split; [done|]; eexists; split; [cbn; apply lookup_insert_eq|done]].
  split; [|split; [|done]]; [|split; [done|]; intros k p Hk Ek; cbn in Hk; apply lookup_insert_Some in Hk as [[<- <-]|[_ Hk]]; [done|by apply (Hn k p)]].
  split; [done|]. intros id' Hne Ho'. destruct (H2 id' Hne Ho') as [Q1 Q2]. split; [exact Q1|]. intros q Hq Es k p Hk Ek. cbn in Hk. apply lookup_insert_Some in Hk as [[<- <-]|[_ Hk]]; [done|]. by apply (Q2 q Hq Es k p).
- intros [e|child]; [apply (P_bind P _ (fun _ => Quiet P)); [apply held_failure|intros _; apply P_ret; [apply Quiet_stable|done]]|].
  apply (P_try P _ (fun b w => match b with inl _ => Quiet P w | inr _ => Held P id (Some r) (Some r) w /\ Child P id child w end)).
  { destruct ns; [apply wait_exec_ready_ok|]. apply P_ret; [apply stable_and; [apply Held_stable|apply Child_stable]|done]. }
  { intros e w _ H. split; [apply Quiet_stable|done]. }
  intros _. apply (P_try P _ (fun b w => match b with inl _ => Quiet P w | inr _ => exists t : Z, Held P id (Some (now_running ns child r)) (Some (now_running ns child r)) w /\ Child P id child w end)).
  { apply (held_change P id r (Some r) (fun _ => now_running ns child) (Child P id child)); done || apply Child_stable. }
  { intros e w _ H. split; [apply Quiet_stable|done]. }
  intros _. apply t_exists. intros _. apply (P_reaper P id child _ _ (Quiet P)).
  + apply stable_and; [apply Held_stable|apply Child_stable].
  + by intros w Hi [_ H].
  + intros w p Hi [HH _] Hp E. by eapply reaper_quiet.
  + apply P_ret; [apply Quiet_stable|done].
Qed.

(** Before the intent to start is recorded. *)
Definition Startable (P id : bytes) (rec : ContainerRecord) (d : option ContainerRecord) (w : world) : Prop :=
  Held P id (Some rec) d w /\ (faulted w = false -> d = Some rec) /\ (cni_on w = false -> owner w !! id = Some P /\ none_of w id).

Lemma Startable_stable P id rec d : stab P (Startable P id rec d).
Proof.
apply stable_and; [apply Held_stable|]. apply stable_and; [intros w1 w2 H Hr _ Hf; apply H; by eapply not_faulted|].
intros w1 w2 H Hr Hi Hc. eapply none_of_stable; [apply H; by rewrite <- (r_cni _ _ _ Hr)|done|done].
Qed.

Lemma Startable_Quiet P id rec d w : Startable P id rec d w -> Quiet P w.
Proof. intros (HH & Hd & _). by eapply Held_Quiet. Qed.

Lemma silent_tail {B : Set} P Pre (o : op B) : silent o -> stab P Pre -> tri P Pre (perform o) (fun _ => Pre).
Proof. intros Ho Hs. change (tri P Pre (perform o ≫= Ret) (fun _ => Pre)). apply P_silent; [done|done|]. intros b. by apply P_ret. Qed.

Ltac kept Hst := let e := fresh in let w := fresh in let H := fresh in intros e w _ H; split; [exact Hst|exact H].

Lemma resolve_mounts_ok P Pre ms : stab P Pre -> tri P Pre (resolve_mounts ms) (fun _ => Pre).
Proof.
intros Hst. induction ms as [|m ms IH]; cbn [resolve_mounts]; [by apply P_ret|]. apply (P_try P _ (fun _ => Pre)); [by apply silent_tail|kept Hst|]. intros p.
apply (P_try P _ (fun _ => Pre)); [exact IH|kept Hst|]. intros l. by apply P_ret.
Qed.

Lemma build_ns_plan_ok P Pre rec argv : stab P Pre -> tri P Pre (build_ns_plan rec argv) (fun _ => Pre).
Proof.
intros Hst. unfold build_ns_plan. apply P_peek; [done|]. intros [sb|]; apply drop_fact; [|by apply P_ret]. destruct (netns_path sb); [|by apply P_ret].
do 2 (apply (P_try P _ (fun _ => Pre)); [by apply silent_tail|kept Hst|]; intros ?). cbv zeta. destruct (map_seccomp_profile _); [by apply P_ret|].
apply (P_try P _ (fun _ => Pre)); [by apply resolve_mounts_ok|kept Hst|]. intros ms. by apply P_ret.
Qed.

Lemma open_cri_log_ok P Pre dir path : stab P Pre -> tri P Pre (open_cri_log dir path) (fun _ => Pre).
Proof. intros Hst. unfold open_cri_log. destruct (_ || _); [by apply P_ret|]. apply P_silent; [done|done|]. intros [|]; by apply P_ret. Qed.

Lemma join_container_netns_ok P Pre sandbox : stab P Pre -> tri P Pre (join_container_netns sandbox) (fun _ => Pre).
Proof.
intros Hst. unfold join_container_netns. apply P_peek; [done|]. intros [p|]; apply drop_fact; [|by apply P_ret].
apply (P_try P _ (fun _ => Pre)); [by apply silent_tail|kept Hst|]. intros ?. by apply P_ret.
Qed.

Lemma netns_off w sandbox : GI w -> cni_on w = false -> netns_of (cache w) sandbox = None.
Proof. intros Hi Hc. unfold netns_of. destruct (sc w !! sandbox) as [r|] eqn:E; [|done]. by apply (gi_sc _ Hi sandbox r E). Qed.

Lemma start_container_ok P id : tri P (QO P id) (start_container id) (fun _ => Quiet P).
Proof.
unfold start_container. apply P_peek; [apply QO_stable|]. intros [rec|]; [|apply drop_fact, P_ret; [apply QO_stable|by intros w _ [? _]]].
destruct (bool_decide (ct_state rec = Created)) eqn:Es; [|apply drop_fact, P_ret; [apply QO_stable|by intros w _ [? _]]]. apply bool_decide_eq_true in Es. cbn [negb].
eapply t_pre; [apply (t_exists P (fun d => Startable P id rec d))|].
2: { intros w Hi [[Hq Ho] Hc]. exists (cd w !! id). destruct Hq as [H1 H2]. destruct (H2 id Ho) as [Q1 Q2]. split; [|split].
  - split; [by apply Quiet_Others|]. split; [split; [done|]; by apply (Q2 rec)|done].
  - intros Hf. by rewrite Q1.
  - intros Hcni. split; [done|]. destruct (gi_once _ Hi Hcni id) as [_ HO]. by apply (HO rec); [left|]. }
intros d. assert (stab P (Startable P id rec d)) as Hst by apply Startable_stable.
assert (forall (e : BackendError) w, GI w -> Startable P id rec d w -> stab P (Startable P id rec d) /\ Quiet P w) as Herr by (intros e w _ H; split; [done|by eapply Startable_Quiet]).
apply P_peek; [done|]. intros dir. apply drop_fact. apply (P_try P _ (fun _ => Startable P id rec d)); [by apply open_cri_log_ok|exact Herr|]. intros _.
destruct (start_argv _) as [|a argv] eqn:Ea; [apply P_ret; [done|]; intros w _ H; by eapply Startable_Quiet|].
apply P_peek; [done|]. intros netns. set (S1 := fun w => Startable P id rec d w /\ (cni_on w = false -> netns = None)).
eapply t_pre; [|intros w Hi [H ->]; exact (conj H (netns_off w _ Hi) : S1 w)]. assert (stab P S1) as Hst1 by (apply stable_and; [done|]; intros w1 w2 H Hr _ Hc; apply H; by rewrite <- (r_cni _ _ _ Hr)).
apply (P_try P _ (fun b w => S1 w /\ match b with inr ns => cni_on w = false -> ns = None | inl _ => True end)).
{ destruct netns as [n|].
  - apply (P_try P _ (fun _ => S1)); [by apply build_ns_plan_ok|by intros e w _ H; split|]. intros dd. do 2 (apply (P_try P _ (fun _ => S1)); [by apply silent_tail|by intros e w _ H; split|]; intros ?).
    apply P_ret; [done|]. intros w _ [H1 H2]. split; [by split|]. intros Hc. by specialize (H2 Hc).
  - apply (P_try P _ (fun _ => S1)); [by apply join_container_netns_ok|by intros e w _ H; split|]. intros _. by apply P_ret. }
{ intros e w _ [[H _] _]. split; [by apply stable_and|by eapply Startable_Quiet]. }
intros ns. assert (stab P (fun w => S1 w /\ (cni_on w = false -> ns = None))) as Hst2 by (apply stable_and; [done|]; intros w1 w2 H Hr _ Hc; apply H; by rewrite <- (r_cni _ _ _ Hr)).
apply P_silent; [done|exact Hst2|]. intros t. set (N := fun w => (cni_on w = false -> owner w !! id = Some P /\ none_of w id) /\ (cni_on w = false -> ns = None)).
assert (stab P N) as HstN.
{ apply stable_and; [|intros w1 w2 H Hr _ Hc; apply H; by rewrite <- (r_cni _ _ _ Hr)]. intros w1 w2 H Hr Hi Hc. eapply none_of_stable; [apply H; by rewrite <- (r_cni _ _ _ Hr)|done|done]. }
eapply t_pre; [|intros w Hi [[(HH & _ & HN) _] Hns]; exact (conj HH (conj HN Hns : N w))].
set (intent := start_intent (match ns with Some _ => Created | None => Running end) t).
apply (P_try P _ (fun b w => match b with inl _ => Quiet P w | inr _ => exists t' : Z, Held P id (Some (intent rec)) (Some (intent rec)) w /\ N w end)).
{ apply (held_change P id rec d (fun _ => intent) N); try done. intros w _ [HN _] Hc _. by apply HN. }
{ intros e w _ H. split; [apply Quiet_stable|done]. }
intros _. apply t_exists. intros _. eapply t_pre; [apply launch_ok|]. intros w Hi [HH [HN Hns]]. split; [done|]. split; [done|]. intros Hc. unfold intent. by rewrite (Hns Hc).
Qed.

(** A new pod, once it has its identifier. *)
Definition run_sandbox_rest (cfg : SandboxConfig) (id : bytes) : prog (BackendError + bytes) :=
  net ←? (if host_network cfg then ok (None, None) else perform (CniSetup id));
  t ← perform Now;
  let rec := mkSandboxRecord id cfg Ready t net.1 net.2 in
  _ ←? perform (PersistSandbox rec);
  _ ← change (fun c => with_sandboxes c (<[id := rec]> (sandboxes c)));
  ok id.

Definition NewPod (P : bytes) (w : world) : Prop := Quiet P w /\ owner w !! P = Some P.
Lemma NewPod_stable P : stab P (NewPod P).
Proof. apply stable_and; [apply Quiet_stable|apply owner_stable]. Qed.

Lemma run_sandbox_rest_ok P cfg : tri P (fun w => NewPod P w /\ sc w !! P = None) (run_sandbox_rest cfg P) (fun _ => Quiet P).
Proof.
set (N := fun (w : world) => NewPod P w /\ sc w !! P = None). assert (stab P N) as Hst by (apply stable_and; [apply NewPod_stable|]; intros w1 w2 H Hr _; by rewrite (r_sc _ _ _ Hr)).
assert (forall x : option bytes, stab P (fun w => cni_on w = false -> x = None)) as Hcn by (intros x w1 w2 H Hr _ Hc; apply H; by rewrite <- (r_cni _ _ _ Hr)).
unfold run_sandbox_rest. apply (P_try P _ (fun b w => match b with inr net => N w /\ (cni_on w = false -> net.2 = None) | inl _ => Quiet P w end)).
{ destruct (host_network cfg); [by apply P_ret|]. change (tri P N (Do (CniSetup P) Ret) (fun b w => match b with inr net => N w /\ (cni_on w = false -> net.2 = None) | inl _ => Quiet P w end)).
  apply t_silent; [apply same_R|apply same_G|apply same_GI|done|done|]. intros [e|net]; [apply drop_fact, P_ret; [done|by intros w _ [[? _] _]]|].
  eapply t_pre; [apply (P_ret P (fun w => N w /\ (cni_on w = false -> net.2 = None))); [by apply stable_and|done]|]. intros w _ [HN (c & w1 & E & _ & Hs)]. split; [done|]. intros Hc. cbn in E. rewrite <- (sbc_cni _ _ Hs), Hc in E. by injection E as <- _. }
{ intros e w _ H. split; [apply Quiet_stable|done]. }
intros net. apply P_silent; [done|by apply stable_and|]. intros t. cbv zeta. set (rec := mkSandboxRecord _ _ _ _ _ _). unfold try_then.
set (M := fun (w : world) => (Contents P w /\ owner w !! P = Some P) /\ (cni_on w = false -> net.2 = None) /\ sd w !! P = Some rec).
assert (stab P M) as HstM by (apply stable_and; [apply stable_and; [apply Contents_stable|apply owner_stable]|apply stable_and; [done|]]; intros w1 w2 H Hr _; by rewrite (r_sd _ _ _ Hr)).
apply (P_persist_sb P _ rec _ (fun b w => match b with inr _ => M w | inl _ => Quiet P w end)); [by apply stable_and| | | |].
- by intros w Hi [[[_ Ho] _] Hn].
- intros w Hi [[[[_ Hc] Ho] _] Hn]. split; [done|]. split; [done|]. cbn. apply lookup_insert_eq.
- by intros w Hi [[[Hq _] _] _] _.
- intros [e|?]; [apply P_ret; [apply Quiet_stable|done]|]. unfold change. apply (P_locked P _ _ _ (fun _ => Quiet P)); [done| |].
  + intros w t' Hi ((Hc & Ho) & Hn & Hs). cbn [fst snd]. change (set_cache w _) with (at_sc w (<[P := rec]> (sc w))). split; [apply G_sc; intros S Hne; by rewrite lookup_insert_ne|].
    split; [apply GI_sc; [done|]; apply map_Forall_insert_2; [done|apply Hi]|]. apply (SbSet_Quiet P (Some rec)); [split; [exact Hc|cbn; apply lookup_insert_eq]|done].
  + intros _. apply P_ret; [apply Quiet_stable|done].
Qed.
