(* ===== verification/CriLaw.v ===== *)
(** The laws of the lifecycle: with calls on one pod made one after the other, as a kubelet
    makes them, and everything else interleaved, a restart loses nothing that was acknowledged
    and no container is started twice. *)

From Stdlib Require Import ZArith Lia.
From S2P Require Import Prelude Text Error CriVocab CriBackend CriLogic CriPods CriCalls.

(** * Callers *)

(** A call names an identifier that was issued, of a pod that no other call is about. *)
Definition admitted (req : request) (m : machine) : bool :=
  match req with
  | RunSandbox _ => true
  | _ =>
      match pod_of (mem m) req with
      | Some P => bool_decide (is_Some (owner (mem m) !! P)) && forallb (fun th => negb (bool_decide (t_pod th = Some P))) (threads m)
      | None => false
      end
  end.

Definition disciplined (l : label) (m : machine) : bool := match l with Call req => admitted req m | _ => true end.

Inductive reach (cni : bool) : machine -> Prop :=
  | reach_start : reach cni (machine0 cni)
  | reach_step l m m' : reach cni m -> disciplined l m = true -> step l m = Some m' -> reach cni m'.

(** No call is about the pod. *)
Definition idle (P : bytes) (m : machine) : Prop := forall i th, threads m !! i = Some th -> t_pod th <> Some P.

(** * The invariant of the machine *)

Definition early (p : prog reply) (w : world) : Prop :=
  (exists r, p = Ret r) \/
  (exists cfg, p = Do Now (fun n => Do (FetchId (str "sb-") n None) (fun id => with_id (run_sandbox_rest cfg id)))) \/
  (exists cfg n, (boot w <= n <= clock w)%Z /\ p = Do (FetchId (str "sb-") n None) (fun id => with_id (run_sandbox_rest cfg id))).

Definition thread_ok (w : world) (th : thread) : Prop :=
  match t_pod th with
  | Some P => is_Some (owner w !! P) /\ rg (R P) (G P) GI (fun _ => Quiet P) (t_prog th) w
  | None => early (t_prog th) w
  end.

Record MI (m : machine) : Prop := {
  mi_gi : GI (mem m);
  mi_threads : forall i th, threads m !! i = Some th -> thread_ok (mem m) th;
  mi_pods : forall i j th th' P, threads m !! i = Some th -> threads m !! j = Some th' -> t_pod th = Some P -> t_pod th' = Some P -> i = j;
  mi_quiet : forall P, idle P m -> Quiet P (mem m) }.

Lemma early_later p w w' : boot w' = boot w -> (clock w <= clock w')%Z -> early p w -> early p w'.
Proof. intros Hb Hk [H|[H|(cfg & n & Hn & ->)]]; [by left|by right; left|right; right]. exists cfg, n. split; [lia|done]. Qed.

Lemma thread_later w w' th : (forall P, t_pod th = Some P -> R P w w') -> boot w' = boot w -> (clock w <= clock w')%Z -> thread_ok w th -> thread_ok w' th.
Proof.
intros HR Hb Hk. unfold thread_ok. destruct (t_pod th) as [P|]; [|by apply early_later]. specialize (HR P eq_refl). intros [[S Ho] Hg]. split; [exists S; eapply lookup_weaken; [done|apply HR]|].
eapply rg_later; [apply R_trans|done|done].
Qed.

(** Something that every pod can live with. *)
Lemma MI_env m w' : MI m -> (forall P, R P (mem m) w') -> GI w' -> MI (mkMachine w' (threads m) (replies m)).
Proof.
intros [H1 H2 H3 H4] HR Hi. split; [done| |done|].
- intros i th Hth. eapply thread_later; [by intros P _; apply HR|apply (HR [])|apply (HR [])|by eapply H2].
- intros P Hp. eapply Quiet_stable; [by apply H4|by apply HR|done].
Qed.

(** ** Calls *)

Lemma no_id_ok P Pre p : tri P Pre p (fun _ => Quiet P) -> tri P Pre (no_id p) (fun _ => Quiet P).
Proof. intros H. apply (P_bind P _ (fun _ => Quiet P)); [done|]. intros r. apply P_ret; [apply Quiet_stable|done]. Qed.
Lemma with_id_ok P Pre p : tri P Pre p (fun _ => Quiet P) -> tri P Pre (with_id p) (fun _ => Quiet P).
Proof. intros H. apply (P_bind P _ (fun _ => Quiet P)); [done|]. intros r. apply P_ret; [apply Quiet_stable|done]. Qed.

Lemma serve_ok w req P : GI w -> pod_of w req = Some P -> is_Some (owner w !! P) -> Quiet P w -> rg (R P) (G P) GI (fun _ => Quiet P) (serve req) w.
Proof.
intros Hi Hp [S Ho] Hq. destruct req as [cfg|id|id|sandbox cfg|id|id grace|id]; cbn [pod_of serve] in *; try discriminate Hp; try injection Hp as ->.
- by apply (no_id_ok P (Quiet P)); [apply stop_sandbox_ok|..].
- by apply (no_id_ok P (Quiet P)); [apply remove_sandbox_ok|..].
- by apply (with_id_ok P (IQ P)); [apply create_container_ok|done|split; [done|exists S]].
- by apply (no_id_ok P (QO P id)); [apply start_container_ok|..].
- apply (no_id_ok P (QO P id)); [|done|done]. eapply t_post; [apply stop_container_ok|]. by intros a w' _ [? _].
- apply (no_id_ok P (QO P id)); [|done|done]. eapply t_post; [apply remove_container_ok|]. by intros a w' _ [? _].
Qed.

Lemma early_serve cfg w : early (serve (RunSandbox cfg)) w.
Proof. cbn [serve]. unfold run_sandbox. destruct (sandbox_validate cfg); [left; by eexists|right; left]. by exists cfg. Qed.

Lemma MI_call m req : MI m -> admitted req m = true -> MI (mkMachine (mem m) (threads m ++ [mkThread req (pod_of (mem m) req) (serve req)]) (replies m)).
Proof.
intros [H1 H2 H3 H4] Ha. set (th0 := mkThread _ _ _). assert (thread_ok (mem m) th0 /\ forall P, t_pod th0 = Some P -> idle P m) as [Hok Hid].
{ unfold thread_ok, admitted in *. cbn [t_pod t_prog th0]. destruct (pod_of (mem m) req) as [P|] eqn:Ep; [|split; [destruct req; try discriminate; apply early_serve|done]].
  assert (is_Some (owner (mem m) !! P) /\ idle P m) as [Ho Hi].
  { destruct req; [discriminate Ep|..]; apply andb_true_iff in Ha as [Ha1%bool_decide_eq_true Ha2]; (split; [done|]); intros i th Hth E;
      rewrite forallb_forall in Ha2; specialize (Ha2 th (proj1 (list_elem_of_In _ _) (list_elem_of_lookup_2 _ _ _ Hth))); by rewrite E, bool_decide_eq_true_2 in Ha2. }
  split; [|by intros P' [= <-]]. split; [done|]. apply serve_ok; auto. }
assert (forall i th, (threads m ++ [th0]) !! i = Some th -> threads m !! i = Some th \/ i = length (threads m) /\ th = th0) as Hl.
{ intros i th [H|[Hi H]]%lookup_app_Some; [by left|right]. apply list_lookup_singleton_Some in H as [? <-]. split; [lia|done]. }
split; [done| | |].
- intros i th [H|[_ ->]]%Hl; [by eapply H2|done].
- intros i j th th' P Hi Hj E E'. apply Hl in Hi as [Hi|[-> ->]], Hj as [Hj|[-> ->]]; [by eapply H3|by destruct (Hid P E' i th Hi)|by destruct (Hid P E j th' Hj)|done].
- intros P HP. apply H4. intros i th Hth. apply (HP i th). cbn. by apply lookup_app_l_Some.
Qed.

(** ** Operations of a call *)

Lemma MI_swap m i th th' w' :
  MI m -> threads m !! i = Some th -> GI w' -> thread_ok w' th' -> (forall P, t_pod th' <> Some P -> R P (mem m) w') -> boot w' = boot (mem m) -> (clock (mem m) <= clock w')%Z ->
  t_pod th' = t_pod th \/ t_pod th = None /\ (forall P, t_pod th' = Some P -> idle P m) -> MI (mkMachine w' (<[i := th']> (threads m)) (replies m)).
Proof.
intros [H1 H2 H3 H4] Hth Hi Hok HR Hb Hk Hpod.
assert (forall P j x, t_pod th' = Some P -> threads m !! j = Some x -> j <> i -> t_pod x <> Some P) as Hother.
{ intros P j x E Hx Hne E'. destruct Hpod as [Hp|[_ Hp]]; [|by apply (Hp P E j x Hx)]. rewrite Hp in E. apply Hne. by eapply H3. }
assert (forall j x, <[i := th']> (threads m) !! j = Some x -> j = i /\ x = th' \/ j <> i /\ threads m !! j = Some x) as Hl.
{ intros j x Hx. apply list_lookup_insert_Some in Hx as [(-> & <- & _)|[? ?]]; [by left|by right]. }
split; [done| | |].
- intros j x [[_ ->]|[Hne Hx]]%Hl; [done|]. eapply thread_later; [|done|done|by eapply H2]. intros P E. apply HR. intros E'. by apply (Hother P j x E').
- intros j j' x x' P Hx Hx' E E'. apply Hl in Hx as [[-> ->]|[Hne Hx]], Hx' as [[-> ->]|[Hne' Hx']]; [done|by destruct (Hother P j' x' E Hx' Hne')|by destruct (Hother P j x E' Hx Hne)|by eapply H3].
- intros P HP. assert (t_pod th' <> Some P) as Hne by (apply (HP i); apply list_lookup_insert_eq; by eapply lookup_lt_Some). eapply Quiet_stable; [|by apply HR|done].
  apply H4. intros j x Hx. destruct (decide (j = i)) as [->|Hj]; [|apply (HP j); cbn; by rewrite list_lookup_insert_ne by done]. rewrite Hth in Hx. injection Hx as <-.
  destruct Hpod as [<-|[-> _]]; done.
Qed.

Lemma new_pod w id : GI w -> owner w !! id = None -> NewPod id (issue w id id) /\ sc (issue w id id) !! id = None.
Proof.
intros Hi Hn. assert (sc w !! id = None /\ sd w !! id = None) as [Hc Hd].
{ split; apply eq_None_not_Some; intros [r Hr]; [destruct (gi_sc _ Hi id r Hr) as (_ & E & _)|destruct (gi_sd _ Hi id r Hr) as (_ & E & _)]; congruence. }
split; [|done]. split; [split|cbn; apply lookup_insert_eq].
- intros _. cbn. congruence.
- intros id' Ho. cbn in Ho. apply lookup_insert_Some in Ho as [[<- _]|[_ Ho]]; [|destruct (gi_owner _ Hi _ _ Ho) as [_ [S HS]]; congruence].
  destruct (fresh_unused w id Hi Hn) as (E1 & E2 & _). split; cbn; [congruence|intros r E; congruence].
Qed.

Lemma MI_new_pod m i th cfg n c id w' :
  MI m -> threads m !! i = Some th -> t_pod th = None -> (boot (mem m) <= n <= clock (mem m))%Z -> exec (FetchId (str "sb-") n None) c (mem m) = Some (id, w') ->
  MI (mkMachine w' (<[i := mkThread (t_req th) (Some id) (with_id (run_sandbox_rest cfg id))]> (threads m)) (replies m)).
Proof.
intros HM Hth Hp Hn. pose proof (mi_gi _ HM) as Hi. cbn. destruct (bool_decide _) eqn:Ec; [|done]. apply bool_decide_eq_true in Ec. intros [= <- <-]. set (id := make_id _ _ _).
assert (owner (mem m) !! id = None) as Hfresh by (apply fresh_id; auto). assert (GI (issue (mem m) id id)) as Hi' by (apply GI_issue; auto).
eapply MI_swap; try done.
- split; [exists id; cbn; apply lookup_insert_eq|]. apply (with_id_ok id _ _ (run_sandbox_rest_ok id cfg)); [done|]. by apply new_pod.
- intros P Hne. apply (G_R id); [|by apply G_issue]. intros ->. by apply Hne.
- right. split; [done|]. cbn. intros P [= <-] j x Hx E. pose proof (mi_threads _ HM j x Hx) as Hok. unfold thread_ok in Hok. rewrite E in Hok. destruct Hok as [[S HS] _]. congruence.
Qed.

Lemma pod_after_Some {B : Set} (o : op B) P b : pod_after o (Some P) b = Some P.
Proof. by destruct o. Qed.

Lemma MI_run m i c m' : MI m -> step (Run i c) m = Some m' -> MI m'.
Proof.
intros HM. cbn [step]. destruct (threads m !! i) as [th|] eqn:Hth; [|done]. cbn. pose proof (mi_threads _ HM i th Hth) as Hok. unfold thread_ok in Hok. unfold run_thread.
destruct (t_pod th) as [P|] eqn:Epod.
- destruct (t_prog th) as [r|B o k] eqn:Ep; [done|]. destruct (exec o c (mem m)) as [[b w']|] eqn:Ex; [|done]. cbn. intros [= <-].
  rewrite pod_after_Some. destruct Hok as [[S HS] Hg]. destruct (Hg (mem m) (R_refl P _) (mi_gi _ HM) c b w' Ex) as (HG & Hi & Hrg).
  eapply MI_swap; try done; [| |apply HG|apply HG|by left; rewrite Epod].
  + split; [exists S; eapply lookup_weaken; [done|apply HG]|done].
  + intros P' Hne. apply (G_R P); [|done]. intros ->. by apply Hne.
- destruct Hok as [[r ->]|[[cfg ->]|(cfg & n & Hn & ->)]]; [done| |].
  + cbn [exec pod_after]. destruct (tick c (mem m)) as [w'|] eqn:Et; [|done]. cbn. intros [= <-]. apply tick_same in Et as (Hs & Hclk & Ht).
    pose proof (gi_time _ (mi_gi _ HM)) as Hb. pose proof (sbc_boot _ _ Hs) as Hbo.
    eapply MI_swap; [done|done|by eapply same_GI, HM| |by intros P _; apply same_R|done|lia|by left; rewrite Epod].
    right. right. exists cfg, (at_time c). split; [lia|done].
  + destruct (exec _ c (mem m)) as [[id w']|] eqn:Ex; [|done]. cbn [pod_after mbind option_bind]. intros [= <-]. by eapply MI_new_pod.
Qed.

Lemma MI_return m i m' : MI m -> step (Return i) m = Some m' -> MI m'.
Proof.
intros HM. pose proof HM as [H1 H2 H3 H4]. cbn. destruct (threads m !! i) as [th|] eqn:Hth; [|done]. cbn. destruct (t_prog th) as [r|] eqn:Ep; [|done]. intros [= <-].
set (sh j := if decide (j < i)%nat then j else S j). assert (forall j, delete i (threads m) !! j = threads m !! sh j) as Hl.
{ intros j. unfold sh. case_decide; [by apply list_lookup_delete_lt|apply list_lookup_delete_ge; lia]. }
assert (forall j, j <> i -> exists j', j = sh j') as Hs.
{ intros j Hne. unfold sh. destruct (decide (j < i)%nat); [exists j; by rewrite decide_True by done|]. exists (j - 1)%nat. rewrite decide_False by lia. lia. }
split; cbn [mem threads]; [done| | |].
- intros j x. rewrite Hl. apply H2.
- intros j j' x x' P. rewrite !Hl. intros Hx Hx' E E'. pose proof (H3 _ _ _ _ P Hx Hx' E E') as Heq. unfold sh in Heq. repeat case_decide; lia.
- intros P HP. destruct (decide (t_pod th = Some P)) as [E|Hne].
  + pose proof (H2 i th Hth) as Hok. unfold thread_ok in Hok. rewrite E, Ep in Hok. destruct Hok as [_ Hq]. apply Hq; [apply R_refl|done].
  + apply H4. intros j x Hx. destruct (decide (j = i)) as [->|Hj]; [congruence|]. destruct (Hs j Hj) as [j' ->]. apply (HP j'). cbn. by rewrite Hl.
Qed.

(** ** Processes *)

Lemma R_proc P w k p p' : procs w !! k = Some p -> proc_rel p p' -> R P w (set_procs w (<[k := p']> (procs w))).
Proof.
intros Hk Hp. split; try done; cbn; [by intros id H; left| |].
- intros k' q Hq _. destruct (decide (k' = k)) as [->|Hne]; [rewrite Hk in Hq; injection Hq as <-; exists p'; by rewrite lookup_insert_eq|exists q; by rewrite lookup_insert_ne].
- intros k' q [[<- <-]|[Hne Hq]]%lookup_insert_Some _; [by exists p|by exists q].
Qed.

Lemma GI_proc w k p p' : GI w -> procs w !! k = Some p -> proc_rel p p' -> GI (set_procs w (<[k := p']> (procs w))).
Proof.
intros Hi Hk [Hp _]. assert (forall j q, <[k := p']> (procs w) !! j = Some q -> exists q', procs w !! j = Some q' /\ p_ctr q = p_ctr q') as Hb.
{ intros j q [[<- <-]|[_ Hq]]%lookup_insert_Some; eauto. }
split; try apply Hi; cbn.
- apply map_Forall_insert_2; [|apply Hi]. rewrite Hp. by apply (gi_procs _ Hi k p).
- intros Hc id. destruct (gi_once _ Hi Hc id) as [Hf Hn]. split.
  + intros j j' q q' (q1 & Hq & E)%Hb (q1' & Hq' & E')%Hb Eid Eid'. eapply Hf; [exact Hq|exact Hq'|congruence..].
  + intros r Hr Es j q (q1 & Hq & E)%Hb. rewrite E. by eapply Hn.
Qed.

Lemma clock_same w t : (clock w <= t < 2 ^ 63)%Z -> same_but_clock w (set_clock w t).
Proof. intros Ht. split; cbn; done || lia. Qed.

(** The end of a process in the records of its container. *)
Lemma record_R w child p t status io w' P : reaper_record child io w = Some w' -> procs w !! child = Some p -> p_reaper p = Ended t -> p_exit p = Some status -> GI w -> R P w w' /\ GI w'.
Proof.
intros H Hp Ht Hs Hi. unfold reaper_record in H. rewrite Hp in H. cbn [mbind option_bind] in H. rewrite Ht, Hs in H. set (w1 := set_reaper w child p Reaped) in H.
assert (proc_rel p (mkProc (p_ctr p) (p_execed p) (p_exit p) Reaped)) as Hrel by (split; [done|]; by rewrite Ht).
assert (R P w w1) as HR1 by (by eapply R_proc). assert (GI w1) as Hi1 by (by eapply GI_proc). assert (~ no_reaper w1 (p_ctr p)) as Hnr.
{ intros Hn. discriminate (Hn child (mkProc (p_ctr p) (p_execed p) (p_exit p) Reaped)); [cbn; apply lookup_insert_eq|done]. }
destruct (cc w1 !! p_ctr p) as [r|] eqn:Er; [|by injection H as <-]. case_bool_decide as Ers; [|by injection H as <-].
destruct (signal_or_code status) as [code why]. set (r' := reaped code why t r) in H. destruct (gi_cc _ Hi1 _ _ Er) as [Eid Eo].
set (w2 := at_cc w1 (<[p_ctr p := r']> (cc w1))). assert (GI w2) as Hi2.
{ apply GI_cc; [done|apply map_Forall_insert_2; [by split|apply Hi1]|]. intros Hc id q [[<- <-]|[Hne Hq]]%lookup_insert_Some Es; [done|]. destruct (gi_once _ Hi1 Hc id) as [_ H2]. by apply (H2 q); [left|]. }
set (w3 := if io then at_cd w2 (<[p_ctr p := r']> (cd w2)) else fault w2). assert (w' = w3) as ->. { injection H as <-. unfold w3. by destruct io. }
split.
- eapply R_trans; [exact HR1|]. assert (forall id, entry_rel w1 w3 id) as He.
  { intros id. unfold entry_rel, w3. destruct (decide (id = p_ctr p)) as [->|Hne].
    - right. exists r, r'. destruct io; cbn; rewrite !lookup_insert_eq; repeat split; auto.
    - left. destruct io; cbn; by rewrite !lookup_insert_ne by done. }
  unfold w3 in *. destruct io; (split; try done); by intros k q Hq _; exists q.
- unfold w3. destruct io; [|by apply fault_GI]. apply GI_cd; [done|apply map_Forall_insert_2; [by split|apply Hi2]|].
  intros Hc id q [[<- <-]|[Hne Hq]]%lookup_insert_Some Es; [done|]. destruct (gi_once _ Hi2 Hc id) as [_ H2]. by apply (H2 q); [right|].
Qed.

Lemma MI_process m l m' : MI m -> match l with ExitProc _ _ | ExecProc _ | ReapWait _ _ | ReapRecord _ _ => True | _ => False end -> step l m = Some m' -> MI m'.
Proof.
intros HM Hl. pose proof (mi_gi _ HM) as Hi. destruct l as [| | |child status|child|child t|child io|]; try done; cbn [step].
- destruct (procs (mem m) !! child) as [p|] eqn:Ep; [|done]. cbn. destruct (p_exit p); [done|]. intros [= <-]. apply MI_env; [done|intros P; eapply R_proc; [exact Ep|done]|eapply GI_proc; [done|exact Ep|done]].
- destruct (procs (mem m) !! child) as [p|] eqn:Ep; [|done]. cbn. destruct (p_exit p); [done|]. intros [= <-]. apply MI_env; [done|intros P; eapply R_proc; [exact Ep|done]|eapply GI_proc; [done|exact Ep|done]].
- unfold reaper_wait. destruct (procs (mem m) !! child) as [p|] eqn:Ep; [|done]. cbn. destruct (p_reaper p) eqn:Er; try done. destruct (p_exit p) eqn:Ex; [|done].
  case_bool_decide as Ht; [|done]. cbn. intros [= <-]. set (w1 := set_reaper (mem m) child p (Ended t)).
  assert (proc_rel p (mkProc (p_ctr p) (p_execed p) (p_exit p) (Ended t))) as Hrel by (split; [done|]; by rewrite Er).
  assert (same_but_clock w1 (set_clock w1 t)) as Hs by (by apply clock_same).
  apply MI_env; [done|intros P; eapply R_trans; [by eapply R_proc|by apply same_R]|eapply same_GI; [exact Hs|by eapply GI_proc]].
- destruct (reaper_record child io (mem m)) as [w'|] eqn:Er; [|done]. cbn. intros [= <-]. pose proof Er as Er'. unfold reaper_record in Er'.
  destruct (procs (mem m) !! child) as [p|] eqn:Ep; [|done]. cbn [mbind option_bind] in Er'. destruct (p_reaper p) eqn:Ew; try done. destruct (p_exit p) eqn:Ex; [|done].
  assert (forall P, R P (mem m) w' /\ GI w') as HR by (intros P; by eapply record_R). apply MI_env; [done|intros P; apply HR|apply (HR [])].
Qed.

(** ** Restarts *)

Lemma reload_fields w t r : ct_id (reload w t r) = ct_id r /\ ct_sandbox (reload w t r) = ct_sandbox r /\ ct_config (reload w t r) = ct_config r /\ (ct_state (reload w t r) = Created -> ct_state r = Created).
Proof. unfold reload, reconcile. destruct (pid_alive w (pid r)); repeat case_bool_decide; done. Qed.

Lemma reload_not_running w t r : ct_state r <> Running -> reload w t r = r.
Proof. intros H. unfold reload, reconcile. by rewrite bool_decide_eq_false_2. Qed.

Lemma load_inv w t readable id r : load_containers w t readable !! id = Some r -> exists q, cd w !! id = Some q /\ r = reload w t q.
Proof. unfold load_containers. rewrite lookup_fmap_Some. intros (q & <- & [Hq _]%map_lookup_filter_Some). by exists q. Qed.

Lemma write_back_inv w t readable io id r : write_back w t readable io !! id = Some r -> exists q, cd w !! id = Some q /\ (r = q \/ r = reload w t q).
Proof.
unfold write_back. rewrite map_lookup_imap. destruct (cd w !! id) as [q|]; [|done]. cbn. intros [= <-]. exists q. split; [done|]. destruct (_ && _); auto.
Qed.

Lemma restart_fault w t readable io w' :
  restart w t readable io = Some w' -> faulted w' = false -> faulted w = false /\ (forall id, cd w' !! id = reload w t <$> cd w !! id /\ cc w' !! id = cd w' !! id /\ sd w' !! id = sd w !! id /\ sc w' !! id = sd w !! id).
Proof.
unfold restart. case_bool_decide; [|done]. intros [= <-]. cbn. intros [Hf Hr]%orb_false_iff. split; [done|]. apply negb_false_iff, andb_true_iff in Hr as [H1%bool_decide_eq_true H2%bool_decide_eq_true].
intros id. unfold write_back, load_containers, load_sandboxes. rewrite map_lookup_imap, lookup_fmap. split.
{ destruct (cd w !! id) as [q|] eqn:E; [|done]. cbn. by rewrite (H1 _ _ E). }
split; [|split; [done|]].
- destruct (cd w !! id) as [q|] eqn:E; cbn; [|by rewrite (map_lookup_filter_None_2 _ _ _ (or_introl E))]. pose proof (H1 _ _ E) as Hq. rewrite Hq. apply andb_true_iff in Hq as [Hq _].
  by rewrite (map_lookup_filter_Some_2 _ _ _ _ E Hq).
- destruct (sd w !! id) as [q|] eqn:E; [by apply map_lookup_filter_Some_2, (H2 _ _ E)|by apply map_lookup_filter_None_2; left].
Qed.

Lemma restart_GI w t readable io w' : GI w -> restart w t readable io = Some w' -> GI w'.
Proof.
intros Hi. unfold restart. case_bool_decide as Ht; [|done]. intros [= <-]. pose proof (gi_time _ Hi) as (Hb & Hk & Hc).
assert (forall k p, ((fun p => mkProc (p_ctr p) (p_execed p) (p_exit p) NoReaper) <$> procs w) !! k = Some p -> exists q, procs w !! k = Some q /\ p_ctr p = p_ctr q) as Hp.
{ intros k p (q & <- & Hq)%lookup_fmap_Some. by exists q. }
split; cbn.
- intros id r (q & Hq & ->)%load_inv. destruct (gi_cd _ Hi _ _ Hq), (reload_fields w t q) as (E1 & E2 & _). split; cbn; congruence.
- intros id r (q & Hq & [->| ->])%write_back_inv; destruct (gi_cd _ Hi _ _ Hq); [done|]. destruct (reload_fields w t q) as (E1 & E2 & _). split; cbn; congruence.
- intros id r [Hq _]%map_lookup_filter_Some. apply (gi_sd _ Hi _ _ Hq).
- apply Hi.
- intros k p (q & Hq & ->)%Hp. by apply (gi_procs _ Hi k q).
- intros id pod H. destruct (gi_owner _ Hi _ _ H) as [(pre & n & c & H1 & H2 & H3 & H4 & _) H5]. split; [|done]. exists pre, n, c. cbn. repeat split; try done; lia.
- lia.
- intros Hcn id. destruct (gi_once _ Hi Hcn id) as [Hf Hn]. split; cbn.
  + intros k k' p p' (q & Hq & E)%Hp (q' & Hq' & E')%Hp F F'. cbn in *. eapply Hf; [exact Hq|exact Hq'|congruence..].
  + intros r Hr Es k p (q & Hq & E)%Hp. rewrite E. assert (exists r0, cd w !! id = Some r0 /\ ct_state r0 = Created) as (r0 & Hr0 & Es0).
    { destruct Hr as [(r0 & ? & ->)%load_inv|(r0 & ? & [-> | ->])%write_back_inv]; exists r0; split; try done; by apply (reload_fields w t r0). }
    apply (Hn r0 (or_intror Hr0) Es0 k q Hq).
Qed.

Lemma MI_restart m t readable io m' : MI m -> step (Restart t readable io) m = Some m' -> MI m'.
Proof.
intros HM. cbn. destruct (restart (mem m) t readable io) as [w'|] eqn:Er; [|done]. cbn. intros [= <-]. pose proof (restart_GI _ _ _ _ _ (mi_gi _ HM) Er) as Hi.
split; cbn; [done|done|done|]. intros P _. split; [|intros id _; split].
- intros Hf. destruct (restart_fault _ _ _ _ _ Er Hf) as [_ H]. destruct (H P) as (_ & _ & E1 & E2). congruence.
- intros Hf. destruct (restart_fault _ _ _ _ _ Er Hf) as [_ H]. by destruct (H id) as (_ & E & _).
- intros r _ _ k p. unfold restart in Er. case_bool_decide; [|done]. injection Er as <-. cbn. by intros (q & <- & _)%lookup_fmap_Some _.
Qed.

(** * All runs *)

Lemma MI_start cni : MI (machine0 cni).
Proof.
split; cbn; [|done|done|].
- split; cbn; try (by intros ? ? H%lookup_empty_Some); [lia|]. intros _ id. split; [intros k k' p p' H; by destruct (lookup_empty_Some k p)|]. intros r _ _ k p H. by destruct (lookup_empty_Some k p).
- intros P _. split; [done|]. intros id H. by destruct (lookup_empty_Some id P).
Qed.

Lemma reach_MI cni m : reach cni m -> MI m.
Proof.
induction 1 as [|l m m' _ IH Hd Hs]; [apply MI_start|].
destruct l as [req|i c|i|child status|child|child t|child io|t readable io]; [injection Hs as <-; by apply MI_call|by eapply MI_run|by eapply MI_return|(eapply MI_process; [done| |exact Hs]; done)..|by eapply MI_restart].
Qed.

Lemma tick_cni c w w' : tick c w = Some w' -> cni_on w' = cni_on w.
Proof. intros H. by apply tick_same in H as [[] _]. Qed.

Lemma exec_cni {B : Set} (o : op B) c w b w' : exec o c w = Some (b, w') -> cni_on w' = cni_on w.
Proof.
destruct o; cbn [exec]; unfold on_disk, mbind, option_bind; try (destruct (tick c w) eqn:Et; [apply tick_cni in Et|done]); repeat case_match; try done; intros [= <- <-]; done.
Qed.

Lemma step_cni l m m' : step l m = Some m' -> cni_on (mem m') = cni_on (mem m).
Proof.
destruct l; cbn [step]; unfold run_thread, reaper_wait, reaper_record, restart, mbind, option_bind; repeat case_match; try done; intros [= <-]; simplify_eq; try done. by eapply exec_cni.
Qed.

Lemma reach_cni cni m : reach cni m -> cni_on (mem m) = cni.
Proof. induction 1 as [|l m m' _ IH _ Hs]; [done|]. by rewrite (step_cni _ _ _ Hs). Qed.

(** C14: what the backend acknowledged survives a restart at any moment: where no write or read of a record
    has failed, a pod that no call is about has the same record after the restart, and so have its
    containers, up to the end of a container whose process is gone. *)
Theorem restart_keeps cni m t readable io m' P :
  reach cni m -> step (Restart t readable io) m = Some m' -> faulted (mem m') = false -> idle P m ->
  sandboxes (cache (mem m')) !! P = sandboxes (cache (mem m)) !! P /\
  forall id, owner (mem m) !! id = Some P -> containers (cache (mem m')) !! id = reload (mem m) t <$> containers (cache (mem m)) !! id.
Proof.
intros Hr Hs Hf Hid. pose proof (mi_quiet _ (reach_MI _ _ Hr) P Hid) as [Hsb Hct]. cbn in Hs. destruct (restart (mem m) t readable io) as [w'|] eqn:Er; [|done]. cbn in Hs. injection Hs as <-. cbn in *.
destruct (restart_fault _ _ _ _ _ Er Hf) as [Hf0 H]. split; [destruct (H P) as (_ & _ & _ & ->); by apply Hsb|]. intros id Ho. destruct (H id) as (E1 & E2 & _). rewrite E2, E1. f_equal. by apply Hct.
Qed.



(** ** A run *)

Fixpoint obeys (ls : list label) (m : machine) : bool :=
  match ls with [] => true | l :: ls => disciplined l m && match step l m with Some m' => obeys ls m' | None => false end end.

Lemma obeys_reach cni ls m : reach cni m -> obeys ls m = true -> exists m', steps ls m = Some m' /\ reach cni m'.
Proof.
revert m. induction ls as [|l ls IH]; intros m Hr; cbn; [by exists m|]. intros [Hd H]%andb_true_iff. destruct (step l m) as [m1|] eqn:Es; [|done]. cbn. apply IH; [|done]. by eapply reach_step.
Qed.

Definition sample_pod (host : bool) : SandboxConfig := mkSandboxConfig [] [] [] 0 ∅ ∅ [] [] host None [] [].
Definition sample_container : ContainerConfig := mkContainerConfig [] 0 (str "img") [str "run"] [] [] [] [] ∅ ∅ [] false false None.
Definition fine (child : Z) : choice := mkChoice true true 2 child (str "x").
Definition runs (i n : nat) (c : choice) : list label := replicate n (Run i c).
Definition whole (req : request) (n : nat) : list label := Call req :: runs 0 n (fine 100) ++ [Return 0].
Definition sample_sb : bytes := make_id (str "sb-") 2 0.
Definition sample_ct : bytes := make_id (str "ct-") 2 1.

(** A pod with a running container. *)
Definition started : list label := whole (RunSandbox (sample_pod true)) 5 ++ whole (CreateContainer sample_sb sample_container) 6 ++ whole (StartContainer sample_ct) 13.
Definition after (cni : bool) (ls : list label) : machine := default (machine0 cni) (steps ls (machine0 cni)).

Lemma after_reach cni ls : obeys ls (machine0 cni) = true -> reach cni (after cni ls).
Proof. intros H. destruct (obeys_reach cni ls _ (reach_start cni) H) as (m & E & Hr). unfold after. by rewrite E. Qed.

Lemma restart_keeps_witness :
  obeys started (machine0 false) = true /\ (pid <$> containers (cache (mem (after false started))) !! sample_ct) = Some 100%Z /\
  exists m', step (Restart 3 (fun _ => true) (fun _ => true)) (after false started) = Some m' /\
    sandboxes (cache (mem m')) !! sample_sb = sandboxes (cache (mem (after false started))) !! sample_sb /\
    containers (cache (mem m')) !! sample_ct = reload (mem (after false started)) 3 <$> containers (cache (mem (after false started))) !! sample_ct.
Proof.
assert (obeys started (machine0 false) = true) as Ho by (vm_compute; reflexivity). split; [exact Ho|]. split; [vm_compute; reflexivity|].
assert ((fun m => faulted (mem m)) <$> step (Restart 3 (fun _ => true) (fun _ => true)) (after false started) = Some false) as Hf by (vm_compute; reflexivity).
assert (threads (after false started) = []) as Ht by (vm_compute; reflexivity). assert (owner (mem (after false started)) !! sample_ct = Some sample_sb) as Hown by (vm_compute; reflexivity).
apply fmap_Some in Hf as (m' & E & Hf). exists m'. split; [exact E|].
destruct (restart_keeps false _ 3 _ _ m' sample_sb (after_reach false started Ho) E (eq_sym Hf)) as [H1 H2]; [|split; [exact H1|exact (H2 _ Hown)]].
intros i th Hth. rewrite Ht in Hth. destruct i; discriminate Hth.
Defined.


(** Two pods; the second is stopped. *)
Definition two_pods : list label := whole (RunSandbox (sample_pod true)) 5 ++ whole (RunSandbox (sample_pod true)) 5 ++ [Call (StopSandbox (make_id (str "sb-") 2 1))].

