(* ===== verification/CriRaces.v ===== *)
(** Schedules on which the lifecycle does not do what its comments promise.  Each is a run of
    the machine of CriBackend, evaluated. *)

From Stdlib Require Import ZArith Lia.
From S2P Require Import Prelude Text Error CriVocab CriBackend CriLogic CriPods CriCalls CriLaw.

Definition final_state (m : machine) (id : bytes) : option (ContainerState * Z * bytes) := (fun r => (ct_state r, pid r, engine r)) <$> containers (cache (mem m)) !! id.
Definition final_replies (m : machine) : list bool := (fun rr => match rr.2 with inl _ => false | inr _ => true end) <$> replies m.
Definition processes_of (m : machine) (id : bytes) : list Z := fst <$> List.filter (fun kp => bool_decide (p_ctr kp.2 = id)) (map_to_list (procs (mem m))).

Definition completes (cni : bool) (ls : list label) : bool := match steps ls (machine0 cni) with Some _ => true | None => false end.

Definition io_fails : choice := mkChoice false true 2 100 (str "x").
Definition later (b : bool) (child : Z) : choice := mkChoice true b 3 child (str "x").
Definition reboot : label := Restart 3 (fun _ => true) (fun _ => true).
Definition new_pod_and_container (host : bool) (n : nat) : list label := whole (RunSandbox (sample_pod host)) n ++ whole (CreateContainer sample_sb sample_container) 6.

(** A pod is removed while a container is created in it: the container is then started outside
    of any pod, on the host, although the pod had a network namespace of its own. *)
Definition removed_while_created : list label :=
  whole (RunSandbox (sample_pod false)) 6 ++ [Call (CreateContainer sample_sb sample_container)] ++ runs 0 1 (fine 100) ++
  [Call (RemoveSandbox sample_sb)] ++ runs 1 6 (fine 100) ++ [Return 1] ++ runs 0 5 (fine 100) ++ [Return 0] ++ whole (StartContainer sample_ct) 13.

Theorem orphan_runs_on_host :
  completes true removed_while_created = true /\ final_replies (after true removed_while_created) = [true; true; true; true] /\
  final_state (after true removed_while_created) sample_ct = Some (Running, 100%Z, []) /\ sandboxes (cache (mem (after true removed_while_created))) !! sample_sb = None.
Proof. repeat split; vm_compute; reflexivity. Qed.

(** Two overlapping calls both see that the container is to be started. *)
Definition two_starts : list label :=
  new_pod_and_container true 5 ++ [Call (StartContainer sample_ct); Call (StartContainer sample_ct)] ++ runs 0 2 (fine 100) ++ runs 1 2 (fine 101) ++ runs 0 11 (fine 100) ++ runs 1 11 (fine 101) ++ [Return 1; Return 0].

Theorem overlapping_starts : completes false two_starts = true /\ final_replies (after false two_starts) = [true; true; true; true] /\ processes_of (after false two_starts) sample_ct = [101; 100]%Z.
Proof. repeat split; vm_compute; reflexivity. Qed.

(** A stop whose write failed is acknowledged when it is tried again, without being written. *)
Definition stopped_twice : list label :=
  whole (RunSandbox (sample_pod true)) 5 ++ [Call (StopSandbox sample_sb); Run 0 (fine 100); Run 0 io_fails; Return 0] ++ whole (StopSandbox sample_sb) 1 ++ [reboot].

Theorem stop_retry_not_durable :
  obeys stopped_twice (machine0 false) = true /\ final_replies (after false stopped_twice) = [true; false; true] /\
  (sb_state <$> sandboxes (cache (mem (after false stopped_twice))) !! sample_sb) = Some Ready.
Proof. repeat split; vm_compute; reflexivity. Qed.

(** After a restart nobody waits for a process that survived: a stop kills it and returns, and
    the container stays Running. *)
Definition stopped_after_restart : list label :=
  started ++ [reboot; Call (StopContainer sample_ct 10); Run 0 (later true 100); Run 0 (later true 100); Run 0 (later false 100); Run 0 (later true 100); ExitProc 100 (Signalled 9); Run 0 (later false 100); Return 0].

Theorem stop_leaves_running :
  obeys stopped_after_restart (machine0 false) = true /\ final_replies (after false stopped_after_restart) = [true; true; true; true] /\
  final_state (after false stopped_after_restart) sample_ct = Some (Running, 100%Z, []) /\ pid_alive (mem (after false stopped_after_restart)) 100 = false.
Proof. repeat split; vm_compute; reflexivity. Qed.

(** A restart in the middle of a start in a network namespace: the process goes on, the record
    still says that the container is to be started, and it is started again. *)
Definition restarted_in_start : list label :=
  new_pod_and_container false 6 ++ [Call (StartContainer sample_ct)] ++ runs 0 13 (fine 100) ++ [ExecProc 100; reboot; Call (StartContainer sample_ct)] ++ runs 0 13 (later true 101) ++ [ExecProc 101] ++ runs 0 5 (later true 101) ++ [Return 0].

Theorem namespace_start_twice :
  obeys restarted_in_start (machine0 true) = true /\ faulted (mem (after true restarted_in_start)) = false /\
  final_state (after true restarted_in_start) sample_ct = Some (Running, 101%Z, str "ns") /\ processes_of (after true restarted_in_start) sample_ct = [101; 100]%Z /\
  pid_alive (mem (after true restarted_in_start)) 100 = true.
Proof. repeat split; vm_compute; reflexivity. Qed.

(** A shim that dies before it executes the workload closes the readiness pipe as well: the
    start is acknowledged and the container is Running. *)
Definition shim_killed : list label :=
  new_pod_and_container false 6 ++ [Call (StartContainer sample_ct)] ++ runs 0 13 (fine 100) ++ [ExitProc 100 (Signalled 9)] ++ runs 0 5 (fine 100) ++ [Return 0].

Theorem running_without_exec :
  obeys shim_killed (machine0 true) = true /\ final_replies (after true shim_killed) = [true; true; true] /\
  final_state (after true shim_killed) sample_ct = Some (Running, 100%Z, str "ns") /\ (p_execed <$> procs (mem (after true shim_killed)) !! 100%Z) = Some false.
Proof. repeat split; vm_compute; reflexivity. Qed.

(** The second record of a start fails to be written: the call fails, the process runs on, and
    nobody waits for it. *)
Definition second_write_fails : list label :=
  new_pod_and_container true 5 ++ [Call (StartContainer sample_ct)] ++ runs 0 10 (fine 100) ++ [Run 0 io_fails; Run 0 (fine 100); Return 0].

Theorem unreaped_process :
  obeys second_write_fails (machine0 false) = true /\ final_replies (after false second_write_fails) = [true; true; false] /\
  final_state (after false second_write_fails) sample_ct = Some (Running, 100%Z, []) /\ (p_reaper <$> procs (mem (after false second_write_fails)) !! 100%Z) = Some NoReaper.
Proof. repeat split; vm_compute; reflexivity. Qed.
